(* ===== verification/_CoqProject ===== *)
-Q . S2P
Prelude.v
GlobalDefinitions.v
Utf8.v
CompressedStream.v
BitMap.v
BitMapOps.v
BitMapPar.v
StubQueue.v
OsMemory.v
ReservedSpace.v
VirtualSpace.v
CodeHeap.v
CodeHeapGrowth.v
CodeCache.v
TaskQueue.v
GrowableArray.v
TaskQueueSet.v
WordBits.v
IdealType.v
IdealNode.v
MagicDivide.v
IdealDiv.v
IdealArith.v
IdealMul.v
IdealAdd.v
ClassFileParser.v
Signature.v
BlockOffsetTable.v
BlockOffsetNonContig.v
BlockOffsetContig.v
BlockOffsetMemory.v
FreeList.v
BinaryTreeDictionary.v
DictionaryTree.v
DictionaryReads.v
DictionaryUpdates.v
DictionaryRemoval.v
DictionaryInsertion.v
DictionaryAllocation.v
DictionaryWalks.v
DictionaryHistory.v
