(* ===== verification/Prelude.v ===== *)
(** * A verification of parts of the HotSpot virtual machine

    HotSpot runs Java programs: it loads classes, interprets and compiles their
    methods, and manages their memory.  This development models components of it
    that are algorithms in their own right, as their C++ is written, and proves what
    their callers rely on.  All paths are below [src/src/share/vm]; the LP64 build
    (64-bit words) is the one modelled.

    ** Conventions

    An integer of [w] bits is a [Z] with its wrap-around written out ([wrapu],
    [wraps] and the abbreviations [u8] .. [s64]).  A pointer is an address or an
    index into the array it points into; a read or write outside of an array has no
    result.  A failing assertion, guarantee or [ShouldNotReachHere] has no result
    either, so a theorem that an operation returns [Some] also says that no
    assertion fails and no access is out of bounds.  State is passed explicitly, or
    by the small state-and-error monads of the memory components; concurrent code is
    a step relation whose steps are single accesses to shared fields.  Code outside
    the repository (the operating system, the closures and nodes a caller supplies)
    is a class of operations with its laws, each with an instance.

    ** Files, the code they model, and what is proved

    - [Prelude]: this file.  Machine integers, arrays as lists ([load], [store]), the
      option notations, the generic lemmas and tactics of all files.
    - [GlobalDefinitions]: utilities/globalDefinitions.hpp.  Bit macros, rounding,
      alignment, logarithms.
    - [Utf8]: utilities/utf8.cpp.  Modules [UTF8] and [UNICODE].  Encoding and
      decoding are inverse when the length of the encoding fits an int, buffers are filled
      exactly, a truncating copy cuts between
      characters, and no zero-terminated input, legal or not, makes the decoder read
      past its end.
    - [CompressedStream]: code/compressedStream.cpp.  Values of any mix of types are
      read back as they were written; the word codings are one-to-one.
    - [BitMap], [BitMapOps], [BitMapPar]: utilities/bitMap.hpp, bitMap.inline.hpp and
      bitMap.cpp.  Range updates in all their variants, resizing, set operations,
      searches and iteration are the operations on the set of bits, the large ranges when
      they have the 32 whole words that the assertion asks for; concurrent updates of bits
      are linear.
    - [StubQueue]: code/stubs.cpp with the two stub classes of the interpreter and of
      the inline caches.  A refinement of a first-in first-out queue, in product builds to
      the end and in debug builds up to a request at the end of the buffer; iteration, and
      the state in which iteration does not end.
    - [OsMemory], [ReservedSpace], [VirtualSpace]: runtime/virtualspace.cpp over the
      interface [OS] of the operating system.  Reservations are aligned, exact
      and do not leak; after any history of expansions and shrinkings with failing
      commits, the area handed out is committed; a failing uncommit breaks that.
    - [CodeHeap], [CodeHeapGrowth], [CodeCache]: memory/heap.cpp and the allocation part of
      code/codeCache.cpp, over [VirtualSpace].  The invariant [CodeHeap.heap_ok] describes
      the heap as a list of adjacent blocks, with the free list and the segment map as
      functions of it.  Every operation preserves it; after any history, blocks are
      disjoint, committed and found; the allocation loop ends.  When the segment map cannot
      be expanded behind the memory, the blocks stay as they are ([CodeHeapGrowth]) but the
      committed segments exceed the segment map, and later requests write outside of it; a
      history ends there.
    - [TaskQueue], [TaskQueueSet]: utilities/taskqueue.hpp and taskqueue.cpp.  In all
      interleavings of the owner and any number of thieves the queue refines a
      double-ended queue and every call is wait-free; the termination protocol is safe
      and live; the queue with overflow loses no task over any queue that implements
      [OwnerQueue]; the 16-bit tag can wrap around.
    - [GrowableArray]: utilities/growableArray.hpp and growableArray.cpp.  A refinement of
      lists, with every access in bounds, up to the first operation that is undefined on
      lists; growth ends for the sizes that fit.
    - [IdealType]: the numeric part of opto/type.cpp, the lattice of the optimizing
      compiler's types.  It is a lattice, its operations keep the values of the types,
      and widening and narrowing make the analyses end.
    - [WordBits]: identities of shifts and masks of words, shared by the files below.
    - [IdealNode]: the int and long nodes of the optimizing compiler as terms with their
      Java values, and the interface [PhaseGVN] with its laws [PhaseLaws] through which
      the code sees the graph.
    - [MagicDivide], [IdealDiv]: opto/divnode.cpp.  The multiplications, shifts and masks
      that replace divisions and remainders by constants have the values of the Java
      operations, for all operands; the expansion of long remainders by 2^k-1 is wrong.
    - [IdealArith]: [Value] and the rings of opto/addnode.cpp, mulnode.cpp and subnode.cpp,
      and [BoolTest].  The types derived for arithmetic, logic, shifts, divisions and
      comparisons cover their results.
    - [IdealMul], [IdealAdd]: [Ideal] and [Identity] of opto/mulnode.cpp, addnode.cpp and
      subnode.cpp for ints and longs.  Multiplications, masks, shifts, additions,
      subtractions and disjunctions are replaced by nodes of the same value.  [IdealAdd]
      adds the interface [Graph] for what the code asks of loops and uses.
    - [ClassFileParser]: the format checks of classfile/classFileParser.cpp.  Constants are
      accepted exactly when they are well-formed modified UTF-8, names when they have none of
      the characters forbidden for their kind or, before version 49, when they are
      identifiers, with slashes in class names, signatures when they are the text of a type of the
      grammar, modifiers when they match masks; no bytes make a check read outside of its
      text.
    - [Signature]: runtime/signature.hpp and signature.cpp, with the size and the cached
      fingerprint of a method.  Iterators and streams see exactly the types of a signature,
      for all virtual methods of a subclass; the computed argument sizes are those of the
      class file check; iterating by the fingerprint makes the calls of iterating over the
      signature, up to positions and arrays; a parenthesis in a class name makes the letter
      behind it the result type.
    - [BlockOffsetTable], [BlockOffsetNonContig], [BlockOffsetContig], [BlockOffsetMemory]:
      memory/blockOffsetTable.hpp, .inline.hpp and .cpp.  After any history of splits, joins
      and allocations the tables find the start of the block of every address; a table has
      exactly the entries of its blocks unless a split misdirects, which is characterised, and
      verification, off by default, stops no other history; the
      memory of a table, over [VirtualSpace], follows the heap; the powers of an entry
      overflow for 2^28 cards.
    - [FreeList]: gc_implementation/concurrentMarkSweep/freeChunk.hpp, freeList.hpp and
      freeList.cpp, the free lists of the mark-sweep space.  The headers of the chunks are a
      finite map, the list records values; module [FreeLists] has the operations.  Two lists
      of one size refine two sequences of chunks; asking for the first zero chunks, which is
      not part of these histories, takes all.
    - [BinaryTreeDictionary]: the dictionary of large free chunks of the same directory, a
      search tree whose nodes lie in the first chunk of each list (modules [TreeLists] and
      [Dictionary]).  [DictionaryTree]: trees with a hole, and the pointers that represent
      them.  [DictionaryReads], [DictionaryUpdates], [DictionaryRemoval],
      [DictionaryInsertion], [DictionaryAllocation] and [DictionaryWalks]: what verification
      and searches return, how a list and its node lose a chunk, how a node is spliced out,
      how chunks enter, which chunk an allocation takes, and the census of the sweeper, which
      makes every hint lead to the next larger list with a surplus.  [DictionaryHistory]: the
      dictionary refines a finite map from free chunks to sizes, for every client that
      respects the preconditions.

    ** Bounds and fuel

    Loops are fixpoints on the number of their iterations or on a fuel that is part of
    the definition and shown to be enough by the theorems that the operation returns:
    the words of the map for searches in a [BitMap], the segments in use for walks over
    a [CodeHeap], the bytes of a range for [pre_touch_loop], 64 halvings for logarithms,
    33 doublings for [GrowableArray], one step per bit of the word for [magic_loop], one
    step per byte for the scanners of [ClassFileParser] and [Signature], the cards of the
    table and the words of the space for the searches of [BlockOffsetTable], the chunks of
    the space for the lists and the tree of a dictionary.
    A loop is a fixpoint beside the definition of its function.
    Iteration over a [StubQueue] takes the fuel as an argument, since it does not always
    end.  Sizes are bounded only where the code's own integers bound them: a [BitMap] has
    less than 2^58 words, a [GrowableArray] at most 2^30 bytes, the buffer of a [StubQueue] at most 2^30 bytes, an
    encoded string less than 2^31 - 1 bytes, a code heap lies below
    address 2^62, a block offset table has at most 2^28 cards, the free words of a
    dictionary are less than 2^64.  A steal in [TaskQueue] must not sleep through 2^16
    changes of the tag, which [timely] states and which is shown to be necessary.

    ** Not modelled

    Most of the virtual machine: class parsing and loading and the object model, the interpreter and
    the generated code, the graph transformations of the compilers, the collectors,
    threads and synchronization, the native interfaces and the platform ports.  They work
    on raw memory laid out by the object model, on generated machine code, or on platform
    threads under weak memory, so a model of one of them needs the model of most others.
    Of the modelled components, printing, statistics kept for printing, tracing, and fills
    of unused memory in debug builds are left out, and of the dictionary the estimates that
    are computed in floating point.  Memory is sequentially consistent.
    Allocation by the C library or in resource areas ends the virtual machine when it
    fails, and is assumed to succeed. *)

From stdpp Require Export prelude list list_numbers numbers option gmap.
From Stdlib Require Export ZArith Lia Bool.

#[export] Set Default Proof Using "Type".

Open Scope Z_scope.

(** ** Notation for the bit operators of C *)

Declare Scope hotspot_scope.
Delimit Scope hotspot_scope with hotspot.
Infix "&&&" := Z.land (at level 40, left associativity) : hotspot_scope.
Infix "^^^" := Z.lxor (at level 45, left associativity) : hotspot_scope.
Infix "|||" := Z.lor (at level 50, left associativity) : hotspot_scope.
Abbreviation zlen l := (Z.of_nat (length l)).
Open Scope hotspot_scope.

(** An assertion of the debug build: when it fails the operation has no result. *)
Notation "'ASSERT' b ;; e" := (if b%bool then e else None)
  (at level 100, b at level 90, e at level 200, right associativity) : hotspot_scope.

(** ** Machine integers *)

(** A [w]-bit unsigned integer is a [Z] in [0, 2^w); arithmetic wraps. *)
Definition wrapu (w x : Z) : Z := x mod 2 ^ w.

(** Conversion to a [w]-bit two's complement integer. *)
Definition wraps (w x : Z) : Z :=
  let y := x mod 2 ^ w in if y <? 2 ^ (w - 1) then y else y - 2 ^ w.

Definition is_u (w x : Z) : Prop := 0 <= x < 2 ^ w.
Definition is_s (w x : Z) : Prop := - 2 ^ (w - 1) <= x < 2 ^ (w - 1).

Abbreviation u8 := (wrapu 8).
Abbreviation u16 := (wrapu 16).
Abbreviation u32 := (wrapu 32).
Abbreviation u64 := (wrapu 64).
Abbreviation s8 := (wraps 8).
Abbreviation s16 := (wraps 16).
Abbreviation s32 := (wraps 32).
Abbreviation s64 := (wraps 64).

#[export] Instance is_u_dec w x : Decision (is_u w x).
Proof. unfold is_u. apply _. Defined.
#[export] Instance is_s_dec w x : Decision (is_s w x).
Proof. unfold is_s. apply _. Defined.

Ltac unfold_ints := unfold is_u, is_s, wrapu in *.

(** Replace the powers of two with literal exponents by their values, which is
    what [lia] needs to see through [Z.div] and [Z.modulo]. *)
Ltac pow2_norm :=
  repeat match goal with
  | |- context [2 ^ Zpos ?p] =>
      let v := eval vm_compute in (2 ^ Zpos p) in change (2 ^ Zpos p) with v
  | |- context [2 ^ (Zpos ?p - 1)] =>
      let v := eval vm_compute in (2 ^ (Zpos p - 1)) in change (2 ^ (Zpos p - 1)) with v
  | H : context [2 ^ Zpos ?p] |- _ =>
      let v := eval vm_compute in (2 ^ Zpos p) in change (2 ^ Zpos p) with v in H
  | H : context [2 ^ (Zpos ?p - 1)] |- _ =>
      let v := eval vm_compute in (2 ^ (Zpos p - 1)) in
      change (2 ^ (Zpos p - 1)) with v in H
  end.

(** Arithmetic goals about machine integers and bit fields. *)
Ltac int_lia := unfold_ints; pow2_norm; Z.to_euclidean_division_equations; lia.

(** Decide the boolean comparisons of the goal that arithmetic settles. *)
Ltac settle_tests :=
  repeat match goal with
  | |- context [?x =? ?y] =>
      first [ replace (x =? y) with true by int_lia | replace (x =? y) with false by int_lia ]
  | |- context [?x <=? ?y] =>
      first [ replace (x <=? y) with true by int_lia | replace (x <=? y) with false by int_lia ]
  | |- context [?x <? ?y] =>
      first [ replace (x <? y) with true by int_lia | replace (x <? y) with false by int_lia ]
  | |- context [?x >=? ?y] =>
      first [ replace (x >=? y) with true by int_lia | replace (x >=? y) with false by int_lia ]
  | |- context [?x >? ?y] =>
      first [ replace (x >? y) with true by int_lia | replace (x >? y) with false by int_lia ]
  end; cbn [orb andb negb].

(** Clean up an instance of a lemma at empty prefixes and suffixes. *)
Ltac simpl_nil H := cbn [app length] in H; rewrite ?Nat2Z.inj_0, ?app_nil_r in H.

Create HintDb ints.

Lemma wrapu_id w x : is_u w x -> wrapu w x = x.
Proof. apply Z.mod_small. Qed.

Lemma wrapu_range w x : 0 <= w -> is_u w (wrapu w x).
Proof. intros. apply Z.mod_pos_bound. lia. Qed.

Lemma wrapu_idemp w x : 0 <= w -> wrapu w (wrapu w x) = wrapu w x.
Proof. intros. unfold wrapu. apply Z.mod_mod. lia. Qed.

Lemma pow2_half w : 0 < w -> 2 ^ w = 2 * 2 ^ (w - 1).
Proof. intros. rewrite <- Z.pow_succ_r by lia. f_equal. lia. Qed.

Lemma wraps_range w x : 0 < w -> is_s w (wraps w x).
Proof.
  intros Hw. unfold is_s, wraps. pose proof (pow2_half w Hw).
  pose proof (Z.mod_pos_bound x (2 ^ w) ltac:(lia)).
  destruct (Z.ltb_spec (x mod 2 ^ w) (2 ^ (w - 1))); lia.
Qed.

Lemma wraps_id w x : 0 < w -> is_s w x -> wraps w x = x.
Proof.
  intros Hw [Hl Hr]. unfold wraps. pose proof (pow2_half w Hw).
  destruct (decide (0 <= x)).
  - rewrite Z.mod_small by lia. destruct (Z.ltb_spec x (2 ^ (w - 1))); lia.
  - rewrite <- (Z.mod_add x 1) by lia. rewrite Z.mod_small by lia.
    destruct (Z.ltb_spec (x + 1 * 2 ^ w) (2 ^ (w - 1))); lia.
Qed.

(** Converting to signed and back to unsigned keeps the bits. *)
Lemma wrapu_wraps w x : 0 < w -> wrapu w (wraps w x) = wrapu w x.
Proof.
  intros Hw. unfold wrapu, wraps.
  destruct (Z.ltb_spec (x mod 2 ^ w) (2 ^ (w - 1))).
  - apply Z.mod_mod. lia.
  - rewrite <- (Z.mod_add _ 1) by lia.
    replace (x mod 2 ^ w - 2 ^ w + 1 * 2 ^ w) with (x mod 2 ^ w) by lia.
    apply Z.mod_mod. lia.
Qed.

Lemma wraps_wrapu w x : 0 < w -> wraps w (wrapu w x) = wraps w x.
Proof. intros Hw. unfold wraps, wrapu. rewrite Z.mod_mod by lia. done. Qed.

Lemma wraps_ext w a b : wrapu w a = wrapu w b -> wraps w a = wraps w b.
Proof. unfold wrapu, wraps. by intros ->. Qed.

Lemma wraps_add_l w a b : 0 < w -> wraps w (wraps w a + b) = wraps w (a + b).
Proof.
  intros Hw. apply wraps_ext. unfold wrapu. rewrite Z.add_mod by lia.
  pose proof (wrapu_wraps w a Hw) as E. unfold wrapu in E. rewrite E.
  by rewrite <- Z.add_mod by lia.
Qed.

Lemma wraps_add_r w a b : 0 < w -> wraps w (a + wraps w b) = wraps w (a + b).
Proof. intros Hw. rewrite !(Z.add_comm a). by apply wraps_add_l. Qed.

#[export] Hint Resolve wrapu_range wraps_range wrapu_id wraps_id : ints.

(** ** Bit fields as arithmetic *)

Lemma land_ones_mod x n : 0 <= n -> x &&& (2 ^ n - 1) = x mod 2 ^ n.
Proof. intros. rewrite <- Z.land_ones, Z.ones_equiv by lia. f_equal. Qed.

(** Masking with [n] ones starting at bit [k] extracts a field. *)
Lemma land_field m k n x :
  0 <= k -> 0 <= n -> m = (2 ^ n - 1) * 2 ^ k ->
  x &&& m = ((x / 2 ^ k) mod 2 ^ n) * 2 ^ k.
Proof.
  intros Hk Hn ->.
  rewrite <- Z.shiftl_mul_pow2, <- land_ones_mod, <- !Z.shiftl_mul_pow2,
    <- Z.shiftr_div_pow2 by lia.
  apply Z.bits_inj'; intros i Hi.
  rewrite !Z.land_spec, !Z.shiftl_spec by lia.
  destruct (decide (k <= i)).
  - rewrite Z.land_spec, Z.shiftr_spec by lia. do 2 f_equal. lia.
  - rewrite !(Z.testbit_neg_r _ (i - k)) by lia. by rewrite andb_false_r.
Qed.

Lemma testbit_high w x i : is_u w x -> 0 <= w <= i -> Z.testbit x i = false.
Proof.
  intros Hx Hi. rewrite <- (wrapu_id w x Hx). by apply Z.mod_pow2_bits_high.
Qed.

Lemma is_u_testbit w x :
  0 <= w -> 0 <= x -> (forall i, w <= i -> Z.testbit x i = false) -> is_u w x.
Proof.
  intros Hw Hx Hb. split; [done|]. rewrite <- (Z.mod_small x (2 ^ Z.max w (Z.log2 x + 1))).
  - replace (x mod _) with (x mod 2 ^ w); [apply Z.mod_pos_bound; lia|].
    apply Z.bits_inj'; intros i Hi. destruct (decide (w <= i)).
    + rewrite Z.mod_pow2_bits_high by lia. rewrite Z.testbit_mod_pow2 by lia.
      rewrite Hb by done. by rewrite andb_false_r.
    + rewrite !Z.mod_pow2_bits_low by lia. done.
  - split; [done|]. destruct (decide (x = 0)) as [->|]; [apply Z.pow_pos_nonneg; lia|].
    apply Z.lt_le_trans with (2 ^ (Z.log2 x + 1)).
    + apply Z.log2_spec. lia.
    + apply Z.pow_le_mono_r; lia.
Qed.

Lemma bits_inj_u w x y :
  0 <= w -> is_u w x -> is_u w y ->
  (forall i, 0 <= i < w -> Z.testbit x i = Z.testbit y i) -> x = y.
Proof.
  intros Hw Hx Hy Hb. apply Z.bits_inj'; intros i Hi. destruct (decide (i < w)); [auto|].
  by rewrite !(testbit_high w) by (done || lia).
Qed.

Lemma is_u_lor w x y : 0 <= w -> is_u w x -> is_u w y -> is_u w (x ||| y).
Proof.
  intros Hw Hx Hy. apply is_u_testbit; [done| |].
  - apply Z.lor_nonneg. unfold is_u in *. lia.
  - intros i Hi. by rewrite Z.lor_spec, !(testbit_high w) by (done || lia).
Qed.

Lemma is_u_lxor w x y : 0 <= w -> is_u w x -> is_u w y -> is_u w (x ^^^ y).
Proof.
  intros Hw Hx Hy. apply is_u_testbit; [done| |].
  - apply Z.lxor_nonneg. unfold is_u in *. lia.
  - intros i Hi. by rewrite Z.lxor_spec, !(testbit_high w) by (done || lia).
Qed.

Lemma is_u_land_l w x y : 0 <= w -> is_u w x -> is_u w (x &&& y).
Proof.
  intros Hw Hx. apply is_u_testbit; [done| |].
  - apply Z.land_nonneg. unfold is_u in *. lia.
  - intros i Hi. by rewrite Z.land_spec, !(testbit_high w x) by (done || lia).
Qed.

Lemma is_u_land_r w x y : 0 <= w -> is_u w y -> is_u w (x &&& y).
Proof. rewrite Z.land_comm. apply is_u_land_l. Qed.

Lemma is_u_shiftr w x n : 0 <= n -> is_u w x -> is_u w (x ≫ n).
Proof.
  intros Hn [Hx0 Hx]. rewrite Z.shiftr_div_pow2 by done.
  pose proof (Z.pow_pos_nonneg 2 n ltac:(lia) Hn). split.
  - apply Z.div_pos; lia.
  - apply Z.div_lt_upper_bound; nia.
Qed.

#[export] Hint Resolve is_u_lor is_u_lxor is_u_land_l is_u_land_r is_u_shiftr : ints.

(** A signed integer is one whose bits from the sign bit on are all equal. *)
Lemma is_s_shiftr w x : 0 < w -> is_s w x <-> x ≫ (w - 1) = 0 \/ x ≫ (w - 1) = -1.
Proof.
  intros Hw. rewrite Z.shiftr_div_pow2 by lia. unfold is_s.
  assert (0 < 2 ^ (w - 1)) as Hp by (apply Z.pow_pos_nonneg; lia).
  pose proof (Z.div_mod x (2 ^ (w - 1)) ltac:(lia)).
  pose proof (Z.mod_pos_bound x (2 ^ (w - 1)) Hp). split.
  - intros. assert (-1 <= x / 2 ^ (w - 1) < 1) by nia. lia.
  - intros [E|E]; rewrite E in *; lia.
Qed.

Lemma is_s_lxor w x y : 0 < w -> is_s w x -> is_s w y -> is_s w (x ^^^ y).
Proof.
  intros Hw. rewrite !is_s_shiftr by done. rewrite Z.shiftr_lxor.
  intros [->| ->] [->| ->]; auto.
Qed.

(** Case analysis on a number known to lie in a short interval. *)
Ltac enum k lo n :=
  lazymatch n with
  | O => exfalso; lia
  | S ?n' =>
      let lo' := eval vm_compute in (lo + 1) in
      destruct (decide (k = lo)) as [->|]; [|enum k lo' n']
  end.

(** Or-ing a small number with a multiple of a larger power of two adds. *)
Lemma lor_add x y k : 0 <= k -> is_u k x -> x ||| (y * 2 ^ k) = x + y * 2 ^ k.
Proof.
  intros Hk Hx.
  assert (x &&& (y * 2 ^ k) = 0) as Hdisj.
  { apply Z.bits_inj'; intros i Hi. rewrite Z.land_spec, Z.bits_0.
    destruct (decide (k <= i)).
    - by rewrite (testbit_high k x i) by (done || lia).
    - rewrite Z.mul_pow2_bits_low by lia. by rewrite andb_false_r. }
  rewrite <- Z.lxor_lor by done. symmetry. by apply Z.add_nocarry_lxor.
Qed.

(** ** Arrays

    A C array is a list; an access out of range is undefined behaviour and is
    [None], so that "the operation returns" includes memory safety. *)

Section arrays.
Context {A : Type}.
Implicit Types (l : list A) (i : Z) (v : A).

Definition load l i : option A :=
  if decide (0 <= i) then l !! Z.to_nat i else None.

Definition store l i v : option (list A) :=
  if decide (0 <= i < zlen l) then Some (<[Z.to_nat i := v]> l) else None.

(** A freshly allocated array holds arbitrary values. *)
Definition new_array (junk : nat -> A) (n : Z) : list A :=
  junk <$> seq 0 (Z.to_nat n).

(** [memcpy(dst, src, n)] *)
Definition memcpy (dst src : list A) (n : Z) : option (list A) :=
  if decide (0 <= n <= zlen dst /\ n <= zlen src)
  then Some (take (Z.to_nat n) src ++ drop (Z.to_nat n) dst) else None.

Lemma new_array_length junk n : 0 <= n -> zlen (new_array junk n) = n.
Proof. intros. unfold new_array. rewrite length_fmap, length_seq. lia. Qed.

Lemma memcpy_spec dst src n :
  0 <= n <= zlen dst -> n <= zlen src ->
  exists dst', memcpy dst src n = Some dst' /\ length dst' = length dst /\
    forall j, load dst' j = if decide (j < n) then load src j else load dst j.
Proof.
  intros Hd Hs. unfold memcpy. rewrite decide_True by lia. eexists. split; [done|].
  split; [rewrite length_app, length_take, length_drop; lia|].
  intros j. unfold load. case_decide; [|by case_decide]. case_decide.
  - rewrite lookup_app_l, lookup_take_lt by (rewrite ?length_take; lia). done.
  - rewrite lookup_app_r, length_take, lookup_drop by (rewrite length_take; lia).
    f_equal. lia.
Qed.

Lemma load_app_mid l1 v l2 : load (l1 ++ v :: l2) (zlen l1) = Some v.
Proof.
  unfold load. rewrite decide_True, Nat2Z.id by lia. by apply list_lookup_middle.
Qed.

Lemma load_app_at l1 v l2 i : i = zlen l1 -> load (l1 ++ v :: l2) i = Some v.
Proof. intros ->. apply load_app_mid. Qed.

Lemma load_app_r l1 l2 i j : j = zlen l1 + i -> 0 <= i -> load (l1 ++ l2) j = load l2 i.
Proof.
  intros -> Hi. unfold load. rewrite !decide_True by lia.
  rewrite lookup_app_r by lia. f_equal. lia.
Qed.

Lemma load_within l1 l l2 (k : nat) i v :
  l !! k = Some v -> i = zlen l1 + Z.of_nat k -> load (l1 ++ l ++ l2) i = Some v.
Proof.
  intros Hk ->. rewrite (load_app_r l1 _ (Z.of_nat k)) by lia.
  unfold load. rewrite decide_True, Nat2Z.id by lia. by apply lookup_app_l_Some.
Qed.

Lemma store_app_mid l1 v l2 w : store (l1 ++ v :: l2) (zlen l1) w = Some (l1 ++ w :: l2).
Proof.
  unfold store. rewrite decide_True by (rewrite length_app; simpl; lia).
  rewrite Nat2Z.id, insert_app_r_alt, Nat.sub_diag by lia. done.
Qed.

Lemma store_app_at l1 v l2 w i :
  i = zlen l1 -> store (l1 ++ v :: l2) i w = Some (l1 ++ w :: l2).
Proof. intros ->. apply store_app_mid. Qed.

Lemma load_Some l i v : load l i = Some v -> 0 <= i < zlen l.
Proof.
  unfold load. case_decide; [|done]. intros ?%lookup_lt_Some. lia.
Qed.

Lemma load_is_Some l i : 0 <= i < zlen l -> exists v, load l i = Some v.
Proof.
  intros Hi. unfold load. rewrite decide_True by lia.
  destruct (lookup_lt_is_Some_2 l (Z.to_nat i)) as [v Hv]; [lia|]. eauto.
Qed.

Lemma load_None l i : load l i = None <-> i < 0 \/ zlen l <= i.
Proof.
  unfold load. case_decide; [|split; [lia|done]].
  rewrite lookup_ge_None. lia.
Qed.

Lemma load_elem_of l i v : load l i = Some v -> v ∈ l.
Proof. unfold load. case_decide; [|done]. apply list_elem_of_lookup_2. Qed.

Lemma load_nat l (n : nat) : load l (Z.of_nat n) = l !! n.
Proof. unfold load. rewrite decide_True by lia. by rewrite Nat2Z.id. Qed.

Lemma load_Forall (P : A -> Prop) l i v : Forall P l -> load l i = Some v -> P v.
Proof. intros HP Hl%load_elem_of. by apply (proj1 (Forall_forall P l) HP). Qed.

Lemma store_Some l i v l' :
  store l i v = Some l' <-> 0 <= i < zlen l /\ l' = <[Z.to_nat i := v]> l.
Proof. unfold store. case_decide; (split; [intros; by simplify_eq|intros [? ->]; done || lia]). Qed.

Lemma store_length l i v l' : store l i v = Some l' -> length l' = length l.
Proof. rewrite store_Some. intros [_ ->]. apply length_insert. Qed.

Lemma store_is_Some l i v : 0 <= i < zlen l -> exists l', store l i v = Some l'.
Proof. intros. eexists. by apply store_Some. Qed.

Lemma load_store l i v l' j :
  store l i v = Some l' -> load l' j = if decide (i = j) then Some v else load l j.
Proof.
  rewrite store_Some. intros [Hi ->]. unfold load.
  destruct (decide (i = j)) as [->|Hne].
  - rewrite decide_True by lia. apply list_lookup_insert_eq. lia.
  - case_decide; [|done]. apply list_lookup_insert_ne. lia.
Qed.

(** Storing what is there changes nothing. *)
Lemma store_same l i x l' : load l i = Some x -> store l i x = Some l' -> l' = l.
Proof.
  unfold load, store. intros H E. case_decide; [|done]. case_decide; [|done].
  injection E as <-. by apply list_insert_id.
Qed.

Lemma take_store l i v l' :
  store l i v = Some l' -> take (S (Z.to_nat i)) l' = take (Z.to_nat i) l ++ [v].
Proof.
  rewrite store_Some. intros [Hi ->].
  rewrite (take_S_r _ _ v) by (apply list_lookup_insert_eq; lia).
  by rewrite take_insert_ge.
Qed.

Lemma store_Forall (P : A -> Prop) l i v l' :
  Forall P l -> P v -> store l i v = Some l' -> Forall P l'.
Proof. rewrite store_Some. intros ?? [_ ->]. by apply Forall_insert. Qed.
End arrays.

#[export] Hint Resolve load_app_at store_app_at : ints.
