(* ===== verification/GlobalDefinitions.v ===== *)
(** Integer helpers shared by the virtual machine:
    [src/share/vm/utilities/globalDefinitions.hpp], for the LP64 targets
    ([intptr_t] and [uintx] have 64 bits). *)

From S2P Require Import Prelude.

(** * Definitions *)

Abbreviation LogBitsPerWord := (6).
Abbreviation BitsPerWord := (64).

(** ** Halves of a [jlong] *)

Definition low (value : Z) : Z := s32 value.
Definition high (value : Z) : Z := s32 (value ≫ 32).

Definition set_low (value low : Z) : Z :=
  let value := value &&& s64 (0xffffffff ≪ 32) in
  value ||| s64 (u64 (u32 low)).

Definition set_high (value high : Z) : Z :=
  let value := value &&& s64 (u64 (u32 0xffffffff)) in
  value ||| s64 (high ≪ 32).

Definition jlong_from (h l : Z) : Z :=
  let result := 0 in
  let result := set_high result h in
  let result := set_low result l in
  result.

(** ** Bit fields of a word *)

Abbreviation AllBits := (-1).
Definition NoBits : Z := 0.
Abbreviation OneBit := (1).

Definition nth_bit (n : Z) : Z := if n >=? BitsPerWord then 0 else s64 (OneBit ≪ n).
Definition right_n_bits (n : Z) : Z := s64 (nth_bit n - 1).
Definition left_n_bits (n : Z) : Z :=
  s64 (right_n_bits n ≪ (if n >=? BitsPerWord then 0 else BitsPerWord - n)).
Definition mask_bits (x m : Z) : Z := x &&& m.

Definition MAX2 (a b : Z) : Z := if a >? b then a else b.
Definition MIN2 (a b : Z) : Z := if a <? b then a else b.

(** ** Powers of two *)

Definition is_power_of_2 (x : Z) : bool :=
  negb (x =? NoBits) && (mask_bits x (s64 (x - 1)) =? NoBits).

(** The loop of [log2_intptr]; [p] doubles until it exceeds [x] or overflows to
    zero, so 65 rounds of fuel are enough. *)
Fixpoint log2_intptr_loop (fuel : nat) (x i p : Z) : Z :=
  match fuel with
  | O => i
  | S fuel =>
      if negb (p =? 0) && (p <=? u64 x) then log2_intptr_loop fuel x (i + 1) (u64 (p * 2))
      else i
  end.

Definition log2_intptr (x : Z) : Z := log2_intptr_loop 65 x (-1) 1.

(** The versions for [jlong], which has the width of [intptr_t] here. *)
Definition is_power_of_2_long (x : Z) : bool :=
  negb (x =? 0) && (x &&& s64 (x - 1) =? 0).

Definition log2_long (x : Z) : Z := log2_intptr_loop 65 x (-1) 1.

Definition exact_log2 (x : Z) : option Z :=
  if is_power_of_2 x then Some (log2_intptr x) else None.

(** ** Alignment *)

Definition align_size_up (size alignment : Z) : Z :=
  s64 (size + (alignment - 1)) &&& Z.lnot (alignment - 1).

Definition align_size_down (size alignment : Z) : Z :=
  size &&& Z.lnot (alignment - 1).

Definition round_to (x s : Z) : Z :=
  let m := u64 (s - 1) in mask_bits (s64 (u64 (x + m))) (s64 (u64 (Z.lnot m))).

Definition round_down (x s : Z) : Z :=
  let m := u64 (s - 1) in mask_bits x (s64 (u64 (Z.lnot m))).

(** * Lemmas *)

(** [x & ~(2^k - 1)] clears the low [k] bits. *)
Lemma land_lnot_low x k : 0 <= k -> x &&& Z.lnot (2 ^ k - 1) = x / 2 ^ k * 2 ^ k.
Proof.
  intros Hk. rewrite <- Z.shiftl_mul_pow2, <- Z.shiftr_div_pow2 by done.
  apply Z.bits_inj'; intros i Hi.
  rewrite Z.land_spec, Z.lnot_spec, Z.shiftl_spec by done.
  replace (2 ^ k - 1) with (Z.ones k) by (rewrite Z.ones_equiv; lia).
  destruct (decide (k <= i)).
  - rewrite Z.ones_spec_high, Z.shiftr_spec by lia. rewrite andb_true_r. f_equal. lia.
  - rewrite Z.ones_spec_low, (Z.testbit_neg_r _ (i - k)) by lia. apply andb_false_r.
Qed.

Lemma pow2_63 k : 0 <= k <= 62 -> 1 <= 2 ^ k <= 2 ^ 62.
Proof.
  intros Hk. split.
  - pose proof (Z.pow_pos_nonneg 2 k). lia.
  - apply Z.pow_le_mono_r; lia.
Qed.

Lemma div_mul_floor x d : 0 < d -> x - d < x / d * d <= x.
Proof. intros. pose proof (Z.div_mod x d). pose proof (Z.mod_pos_bound x d). lia. Qed.

(** [~m] of the alignment mask, at 64 bits. *)
Lemma align_mask k :
  0 <= k <= 62 ->
  s64 (u64 (Z.lnot (u64 (2 ^ k - 1)))) = Z.lnot (2 ^ k - 1).
Proof.
  intros Hk. pose proof (pow2_63 k Hk).
  rewrite (wrapu_id 64 (2 ^ k - 1)) by int_lia.
  rewrite wraps_wrapu by lia. apply wraps_id; [lia|].
  unfold Z.lnot. int_lia.
Qed.

Lemma round_down_spec x k : 0 <= k <= 62 -> round_down x (2 ^ k) = x / 2 ^ k * 2 ^ k.
Proof.
  intros Hk. unfold round_down, mask_bits. rewrite align_mask by done.
  apply land_lnot_low. lia.
Qed.

Lemma round_to_spec x k :
  0 <= k <= 62 -> - 2 ^ 63 <= x < 2 ^ 63 - 2 ^ k ->
  round_to x (2 ^ k) = (x + (2 ^ k - 1)) / 2 ^ k * 2 ^ k.
Proof.
  intros Hk Hx. pose proof (pow2_63 k Hk). unfold round_to, mask_bits.
  rewrite align_mask, wraps_wrapu, (wrapu_id 64 (2 ^ k - 1)) by int_lia.
  rewrite wraps_id by int_lia. apply land_lnot_low. lia.
Qed.

Lemma align_size_up_spec x k :
  0 <= k <= 62 -> - 2 ^ 63 <= x < 2 ^ 63 - 2 ^ k ->
  align_size_up x (2 ^ k) = (x + (2 ^ k - 1)) / 2 ^ k * 2 ^ k.
Proof.
  intros Hk Hx. pose proof (pow2_63 k Hk). unfold align_size_up.
  rewrite wraps_id by int_lia. apply land_lnot_low. lia.
Qed.

Lemma align_size_down_spec x k : 0 <= k -> align_size_down x (2 ^ k) = x / 2 ^ k * 2 ^ k.
Proof. apply land_lnot_low. Qed.

Lemma is_power_of_2_pow k : 0 <= k <= 62 -> is_power_of_2 (2 ^ k) = true.
Proof.
  intros Hk. pose proof (pow2_63 k Hk). unfold is_power_of_2, mask_bits, NoBits.
  replace (2 ^ k =? 0) with false by lia. cbn [negb andb].
  rewrite ?wraps_id by (try done; unfold is_s; pow2_norm; lia).
  rewrite land_ones_mod, Z.mod_same by lia. done.
Qed.

(** Rounding up to a multiple of [d]. *)
Lemma round_up_bounds x d :
  0 < d -> x <= (x + (d - 1)) / d * d < x + d /\ (d | (x + (d - 1)) / d * d).
Proof.
  intros Hd. pose proof (div_mul_floor (x + (d - 1)) d Hd).
  split; [lia|]. apply Z.divide_factor_r.
Qed.

Lemma round_up_multiple x d : 0 < d -> (d | x) -> (x + (d - 1)) / d * d = x.
Proof.
  intros Hd [q ->]. rewrite Z.div_add_l by lia. rewrite (Z.div_small (d - 1)) by lia. lia.
Qed.

Lemma least_multiple x q c d :
  0 < d -> x <= c * d < x + d -> x <= q * d <-> c * d <= q * d.
Proof. intros Hd Hc. split; intros; [|lia]. assert (c < q + 1) by nia. nia. Qed.

Lemma greatest_multiple x q c d :
  0 < d -> x - d < c * d <= x -> q * d <= x <-> q * d <= c * d.
Proof. intros Hd Hc. split; intros; [|lia]. assert (q < c + 1) by nia. nia. Qed.

Lemma MAX2_max a b : MAX2 a b = Z.max a b.
Proof. unfold MAX2. destruct (Z.gtb_spec a b); lia. Qed.

Lemma MIN2_min a b : MIN2 a b = Z.min a b.
Proof. unfold MIN2. destruct (Z.ltb_spec a b); lia. Qed.

Lemma jlong_from_spec h l : is_s 32 h -> jlong_from h l = h * 2 ^ 32 + u32 l.
Proof.
  intros Hh. pose proof (wrapu_range 32 l ltac:(lia)) as Hl.
  unfold jlong_from, set_high, set_low. rewrite Z.land_0_l, Z.lor_0_l.
  rewrite (wrapu_id 64 (u32 l)), (wraps_id 64 (u32 l)) by int_lia.
  rewrite Z.shiftl_mul_pow2, (wraps_id 64 (h * 2 ^ 32)) by int_lia.
  replace (s64 (0xffffffff ≪ 32)) with (Z.lnot (2 ^ 32 - 1)) by done.
  rewrite land_lnot_low, Z.div_mul by done.
  rewrite Z.lor_comm, lor_add by done. lia.
Qed.

Lemma low_high_split v : is_s 64 v -> high v * 2 ^ 32 + u32 (low v) = v.
Proof.
  intros Hv. unfold high, low. rewrite wrapu_wraps, Z.shiftr_div_pow2 by lia.
  rewrite wraps_id by int_lia. int_lia.
Qed.

Lemma low_range v : is_s 32 (low v).
Proof. apply wraps_range. lia. Qed.

Lemma high_range v : is_s 32 (high v).
Proof. apply wraps_range. lia. Qed.

#[export] Hint Resolve low_range high_range : ints.

(** Splitting a [jlong] into halves and joining them is the identity. *)
Lemma jlong_from_high_low v : is_s 64 v -> jlong_from (high v) (low v) = v.
Proof. intros Hv. rewrite jlong_from_spec by auto with ints. by apply low_high_split. Qed.

Lemma log2_intptr_loop_spec fuel x i :
  -1 <= i <= 63 -> (Z.to_nat (64 - i) <= fuel)%nat ->
  log2_intptr_loop fuel x i (u64 (2 ^ (i + 1))) =
    if decide (u64 x < 2 ^ (i + 1)) then i else Z.log2 (u64 x).
Proof.
  revert i. induction fuel as [|fuel IH]; intros i Hi Hfuel; [lia|].
  cbn [log2_intptr_loop]. pose proof (wrapu_range 64 x ltac:(lia)) as Hx.
  destruct (decide (i = 63)) as [->|Hne].
  { rewrite decide_True by (unfold is_u in Hx; lia). done. }
  assert (is_u 64 (2 ^ (i + 1))) as Hp.
  { split; [apply Z.pow_nonneg; lia|apply Z.pow_lt_mono_r; lia]. }
  assert (0 < 2 ^ (i + 1)) by (apply Z.pow_pos_nonneg; lia).
  rewrite (wrapu_id _ _ Hp). settle_tests.
  destruct (Z.leb_spec (2 ^ (i + 1)) (u64 x)) as [Hle|Hgt]; cbn [andb negb];
    [|by rewrite decide_True].
  assert (2 ^ (i + 1) * 2 = 2 ^ (i + 1 + 1)) as ->
    by (rewrite (Z.pow_add_r 2 (i + 1) 1) by lia; lia).
  rewrite IH by lia. rewrite (decide_False (P := u64 x < 2 ^ (i + 1))) by lia.
  case_decide; [|done]. symmetry. apply Z.log2_unique; [lia|].
  change (Z.succ (i + 1)) with (i + 1 + 1). lia.
Qed.

(** [log2_intptr] terminates with the largest [i] such that [2^i <= x] for
    positive [x], [-1] for zero and [63] for every negative [x]. *)
Lemma log2_intptr_spec (x : Z) :
  is_s 64 x ->
  log2_intptr x = if decide (0 < x) then Z.log2 x
                  else if decide (x = 0) then -1 else 63.
Proof.
  intros Hx. unfold log2_intptr.
  change 1 with (u64 (2 ^ (-1 + 1))). rewrite log2_intptr_loop_spec by lia.
  change (2 ^ (-1 + 1)) with 1. unfold is_s in Hx.
  destruct (decide (0 < x)).
  - rewrite wrapu_id by int_lia. by rewrite decide_False by lia.
  - destruct (decide (x = 0)) as [->|Hne]; [done|].
    assert (u64 x = x + 2 ^ 64) as ->.
    { unfold wrapu. rewrite <- (Z.mod_add x 1) by lia. rewrite Z.mod_small; int_lia. }
    rewrite decide_False by int_lia. apply Z.log2_unique; int_lia.
Qed.

(** Powers of two are recognised. *)
Lemma land_pred_zero x : 0 < x -> x &&& (x - 1) = 0 -> x = 2 ^ Z.log2 x.
Proof.
  intros Hx Hl. pose proof (Z.log2_spec x Hx) as [Hlo Hhi]. pose proof (Z.log2_nonneg x).
  destruct (decide (x = 2 ^ Z.log2 x)) as [|Hne]; [done|].
  assert (Hlog : Z.log2 (x - 1) = Z.log2 x) by (apply Z.log2_unique; lia).
  assert (Hbit : Z.testbit (x &&& (x - 1)) (Z.log2 x) = true).
  { rewrite Z.land_spec, Z.bit_log2 by done. rewrite <- Hlog. apply Z.bit_log2. lia. }
  rewrite Hl, Z.bits_0 in Hbit. done.
Qed.

Lemma is_power_of_2_iff x :
  0 < x < 2 ^ 63 -> is_power_of_2 x = true <-> x = 2 ^ Z.log2 x.
Proof.
  intros Hx. unfold is_power_of_2, mask_bits, NoBits.
  replace (x =? 0) with false by lia. cbn [negb andb].
  rewrite wraps_id by (try done; unfold is_s; pow2_norm; lia). rewrite Z.eqb_eq. split.
  - apply land_pred_zero. lia.
  - intros E. rewrite E at 1 2. rewrite land_ones_mod by apply Z.log2_nonneg.
    rewrite Z.mod_same; [done|]. rewrite <- E. lia.
Qed.

Lemma is_power_of_2_long_eq x : is_power_of_2_long x = is_power_of_2 x.
Proof. done. Qed.

Lemma log2_long_eq x : log2_long x = log2_intptr x.
Proof. done. Qed.

(** * Properties *)

(** For every power of two [s] and every [x] whose rounding fits a word,
    [round_to(x, s)] and [align_size_up(x, s)] are the least multiple of [s] not
    below [x], and [round_down(x, s)] and [align_size_down(x, s)] the greatest
    not above it. *)
Theorem rounding (x k : Z) :
  0 <= k <= 62 -> - 2 ^ 63 <= x < 2 ^ 63 - 2 ^ k ->
  let s := 2 ^ k in
  (forall y, (s | y) -> x <= y <-> round_to x s <= y) /\ (s | round_to x s) /\
  align_size_up x s = round_to x s /\
  (forall y, (s | y) -> y <= x <-> y <= round_down x s) /\ (s | round_down x s) /\
  align_size_down x s = round_down x s.
Proof.
  intros Hk Hx s. pose proof (pow2_63 k Hk) as Hs. unfold s.
  rewrite round_to_spec, align_size_up_spec, round_down_spec, align_size_down_spec by lia.
  destruct (round_up_bounds x (2 ^ k) ltac:(lia)) as [Hup Hdiv].
  pose proof (div_mul_floor x (2 ^ k) ltac:(lia)) as Hdown.
  split_and!; [|done|done| |apply Z.divide_factor_r|done]; intros y [q ->].
  - apply least_multiple; lia.
  - apply greatest_multiple; lia.
Qed.

Lemma rounding_witness :
  let s := 2 ^ 4 in
  (forall y, (s | y) -> 33 <= y <-> round_to 33 s <= y) /\ (s | round_to 33 s) /\
  align_size_up 33 s = round_to 33 s /\
  (forall y, (s | y) -> y <= 33 <-> y <= round_down 33 s) /\ (s | round_down 33 s) /\
  align_size_down 33 s = round_down 33 s.
Proof. apply (rounding 33 4); [lia|]. split; vm_compute; congruence. Defined.
