(* ===== verification/Utf8.v ===== *)
(** Modified UTF-8, as class files and the symbol table use it:
  [src/share/vm/utilities/utf8.cpp] and [utf8.hpp].

  A [char*] is an index into the array that holds the string, so that the
  end pointers the code returns are indices, and a read or write outside the
  array is [None]. *)

From S2P Require Import Prelude.

(** * The UNICODE class: from UTF-16 code units to bytes *)

Module UNICODE.

(** [static u_char* utf8_write(u_char* base, jchar ch)] *)
Definition utf8_write (mem : list Z) (base ch : Z) : option (list Z * Z) :=
  if negb (ch =? 0) && (ch <=? 0x7f) then
    mem ← store mem base (u8 ch);
    Some (mem, base + 1)
  else if ch <=? 0x7FF then
    let high_five := u8 (ch ≫ 6) in
    let low_six := u8 (ch &&& 0x3F) in
    mem ← store mem base (high_five ||| 0xC0);
    mem ← store mem (base + 1) (low_six ||| 0x80);
    Some (mem, base + 2)
  else
    let high_four := s8 (ch ≫ 12) in
    let mid_six := s8 ((ch ≫ 6) &&& 0x3F) in
    let low_six := s8 (ch &&& 0x3f) in
    mem ← store mem base (u8 (high_four ||| 0xE0));
    mem ← store mem (base + 1) (u8 (mid_six ||| 0x80));
    mem ← store mem (base + 2) (u8 (low_six ||| 0x80));
    Some (mem, base + 3).

Definition utf8_size (c : Z) : Z :=
  if (0x0001 <=? c) && (c <=? 0x007F) then 1
  else if c <=? 0x07FF then 2
  else 3.

Fixpoint utf8_length_loop (base : list Z) (index : Z) (n : nat) (result : Z) : option Z :=
  match n with
  | O => Some result
  | S n =>
      c ← load base index;
      utf8_length_loop base (index + 1) n
        (if (0x0001 <=? c) && (c <=? 0x007F) then s32 (result + 1)
         else if c <=? 0x07FF then s32 (result + 2)
         else s32 (result + 3))
  end.

Definition utf8_length (base : list Z) (length : Z) : option Z :=
  utf8_length_loop base 0 (Z.to_nat length) 0.

(** The loop that [as_utf8] and [convert_to_utf8] share: write [n] units
    from [index] on, starting at [p]. *)
Fixpoint write_loop (base : list Z) (index : Z) (n : nat) (mem : list Z) (p : Z)
    : option (list Z * Z) :=
  match n with
  | O => Some (mem, p)
  | S n =>
      c ← load base index;
      '(mem, p) ← utf8_write mem p c;
      write_loop base (index + 1) n mem p
  end.

(** [as_utf8(base, length)]: the result is allocated; [junk] is what the
    allocated memory held.  [None] also when the [assert] on the predicted
    length fails.  The predicted length is an [int]: it wraps around. *)
Definition as_utf8 (junk : nat -> Z) (base : list Z) (length : Z) : option (list Z) :=
  utf8_len ← utf8_length base length;
  let result := new_array junk (s32 (utf8_len + 1)) in
  '(result, p) ← write_loop base 0 (Z.to_nat length) result 0;
  result ← store result p 0;
  if p =? utf8_len then Some result else None.

(** [as_utf8(base, length, buf, buflen)]: truncates to the buffer. *)
Fixpoint as_utf8_buf_loop (base : list Z) (index : Z) (n : nat) (buf : list Z) (p bend : Z)
    : option (list Z * Z) :=
  match n with
  | O => Some (buf, p)
  | S n =>
      c ← load base index;
      if p + utf8_size c >=? bend then Some (buf, p)
      else
        '(buf, p) ← utf8_write buf p c;
        as_utf8_buf_loop base (index + 1) n buf p bend
  end.

Definition as_utf8_buf (base : list Z) (length : Z) (buf : list Z) (buflen : Z)
    : option (list Z) :=
  '(buf, p) ← as_utf8_buf_loop base 0 (Z.to_nat length) buf 0 buflen;
  store buf p 0.

Definition convert_to_utf8 (base : list Z) (length : Z) (utf8_buffer : list Z)
    : option (list Z) :=
  '(utf8_buffer, p) ← write_loop base 0 (Z.to_nat length) utf8_buffer 0;
  store utf8_buffer p 0.

End UNICODE.

(** * The UTF8 class: from bytes to UTF-16 code units *)

Module UTF8.

(** [char* UTF8::next(const char* str, jchar* value)]: the value and the
    returned pointer. *)
Definition next (mem : list Z) (str : Z) : option (Z * Z) :=
  ch ← load mem str;
  let bad := Some (ch, str + 1) in
  let hi := ch ≫ 4 in
  if (hi =? 0x8) || (hi =? 0x9) || (hi =? 0xA) || (hi =? 0xB) || (hi =? 0xF) then bad
  else if (hi =? 0xC) || (hi =? 0xD) then
    ch2 ← load mem (str + 1);
    if (ch2 &&& 0xC0) =? 0x80 then
      let high_five := ch &&& 0x1F in
      let low_six := ch2 &&& 0x3F in
      Some (u16 ((high_five ≪ 6) + low_six), str + 2)
    else bad
  else if hi =? 0xE then
    ch2 ← load mem (str + 1);
    if (ch2 &&& 0xC0) =? 0x80 then
      ch3 ← load mem (str + 2);
      if (ch3 &&& 0xC0) =? 0x80 then
        let high_four := ch &&& 0x0f in
        let mid_six := ch2 &&& 0x3f in
        let low_six := ch3 &&& 0x3f in
        Some (u16 ((((high_four ≪ 6) + mid_six) ≪ 6) + low_six), str + 3)
      else bad
    else bad
  else Some (ch, str + 1).

(** The bytes are read left to right and [&&] stops at the first mismatch. *)
Definition is_supplementary_character (mem : list Z) (str : Z) : option bool :=
  let test i mask v k :=
    b ← load mem (str + i);
    if (b &&& mask) =? v then k else Some false in
  test 0 0xFF 0xED (test 1 0xF0 0xA0 (test 2 0xC0 0x80
    (test 3 0xFF 0xED (test 4 0xF0 0xB0 (test 5 0xC0 0x80 (Some true)))))).

Definition get_supplementary_character (mem : list Z) (str : Z) : option Z :=
  b1 ← load mem (str + 1);
  b2 ← load mem (str + 2);
  b4 ← load mem (str + 4);
  b5 ← load mem (str + 5);
  Some (0x10000 + ((b1 &&& 0x0f) ≪ 16) + ((b2 &&& 0x3f) ≪ 10)
                + ((b4 &&& 0x0f) ≪ 6) + (b5 &&& 0x3f)).

Definition next_character (mem : list Z) (str : Z) : option (Z * Z) :=
  is_supp ← is_supplementary_character mem str;
  if is_supp : bool then
    value ← get_supplementary_character mem str;
    Some (value, str + 6)
  else next mem str.

(** [unicode_length(str, len)] *)
Fixpoint unicode_length_loop (mem : list Z) (str i : Z) (n : nat) (num_chars : Z)
    : option Z :=
  match n with
  | O => Some num_chars
  | S n =>
      b ← load mem (str + i);
      unicode_length_loop mem str (i + 1) n
        (if (b &&& 0xC0) =? 0x80 then s32 (num_chars - 1) else num_chars)
  end.

Definition unicode_length_len (mem : list Z) (str len : Z) : option Z :=
  unicode_length_loop mem str 0 (Z.to_nat len) len.

(** [unicode_length(str)]: up to the terminating zero; the recursion is on
    the bytes from [p] to the end of the array. *)
Fixpoint unicode_length_from (bytes : list Z) (num_chars : Z) : option Z :=
  match bytes with
  | [] => None
  | b :: bytes =>
      if b =? 0 then Some num_chars
      else unicode_length_from bytes
             (if negb ((b &&& 0xC0) =? 0x80) then s32 (num_chars + 1) else num_chars)
  end.

Definition unicode_length (mem : list Z) (str : Z) : option Z :=
  unicode_length_from (drop (Z.to_nat str) mem) 0.

(** The first loop of [convert_to_unicode] copies ASCII until a byte above
    [0x7F]; it leaves the count of units still to convert. *)
Fixpoint ascii_loop (mem : list Z) (ptr : Z) (out : list Z) (index : Z) (n : nat)
    : option (Z * list Z * Z * nat) :=
  match n with
  | O => Some (ptr, out, index, O)
  | S n' =>
      ch ← load mem ptr;
      if ch >? 0x7F then Some (ptr, out, index, n)
      else
        out ← store out index ch;
        ascii_loop mem (ptr + 1) out (index + 1) n'
  end.

Fixpoint next_loop (mem : list Z) (ptr : Z) (out : list Z) (index : Z) (n : nat)
    : option (list Z) :=
  match n with
  | O => Some out
  | S n =>
      '(value, ptr) ← next mem ptr;
      out ← store out index value;
      next_loop mem ptr out (index + 1) n
  end.

Definition convert_to_unicode (mem : list Z) (utf8_str : Z) (unicode_str : list Z)
    (unicode_length : Z) : option (list Z) :=
  '(ptr, out, index, n) ← ascii_loop mem utf8_str unicode_str 0 (Z.to_nat unicode_length);
  next_loop mem ptr out index n.

(** [strrchr]: the index of the last [c] among the first [length] bytes;
    [Some None] is the NULL result. *)
Fixpoint strrchr_loop (base : list Z) (length : nat) (c : Z) : option (option Z) :=
  match length with
  | O => Some None
  | S length =>
      b ← load base (Z.of_nat length);
      if negb (b =? c) then strrchr_loop base length c
      else Some (Some (Z.of_nat length))
  end.

Definition strrchr (base : list Z) (length c : Z) : option (option Z) :=
  ASSERT length >=? 0 ;;
  ASSERT c >=? 0 ;;
  strrchr_loop base (Z.to_nat length) c.

Fixpoint equal_loop (base1 base2 : list Z) (i : Z) (n : nat) : option bool :=
  match n with
  | O => Some true
  | S n =>
      b1 ← load base1 i;
      b2 ← load base2 i;
      if negb (b1 =? b2) then Some false else equal_loop base1 base2 (i + 1) n
  end.

Definition equal (base1 : list Z) (length1 : Z) (base2 : list Z) (length2 : Z)
    : option bool :=
  if negb (length1 =? length2) then Some false
  else equal_loop base1 base2 0 (Z.to_nat length1).

End UTF8.

(** * Reference encoding *)

(** The bytes of one UTF-16 code unit, by arithmetic instead of bit masks. *)
Definition utf8_bytes (c : Z) : list Z :=
  if decide (0 < c <= 127) then [c]
  else if decide (c <= 2047) then [192 + c / 64; 128 + c mod 64]
  else [224 + c / 4096; 128 + (c / 64) mod 64; 128 + c mod 64].

Definition encode (s : list Z) : list Z := s ≫= utf8_bytes.

Abbreviation jchars s := (Forall (is_u 16) s).

(** ** Arithmetic of the masks *)

Lemma ascii_test c : negb (c =? 0) && (c <=? 0x7f) = bool_decide (0 < c <= 127) || (c <? 0).
Proof. case_bool_decide; lia. Qed.

Lemma byte_hi b : b ≫ 4 = b / 16.
Proof. by rewrite Z.shiftr_div_pow2. Qed.

(** [(b & 0xC0) == 0x80] recognises the continuation bytes. *)
Lemma cont_test b : is_u 8 b -> ((b &&& 0xC0) =? 0x80) = bool_decide (128 <= b < 192).
Proof.
  unfold_ints. intros Hb. rewrite (land_field 0xC0 6 2) by done.
  case_bool_decide; apply Bool.eq_true_iff_eq; rewrite Z.eqb_eq; int_lia.
Qed.

Lemma lead2_byte c : is_u 16 c -> c <= 2047 -> u8 (c ≫ 6) ||| 0xC0 = 192 + c / 64.
Proof.
  unfold is_u. intros Hc Hle. rewrite Z.shiftr_div_pow2 by lia.
  rewrite wrapu_id by int_lia.
  change 0xC0 with (3 * 2 ^ 6). rewrite lor_add by int_lia. int_lia.
Qed.

Lemma cont_byte x : is_u 6 x -> u8 x ||| 0x80 = 128 + x.
Proof.
  unfold is_u. intros Hx. rewrite wrapu_id by int_lia.
  change 0x80 with (2 * 2 ^ 6). rewrite lor_add by int_lia. int_lia.
Qed.

Lemma cont_byte_signed x : is_u 6 x -> u8 (s8 x ||| 0x80) = 128 + x.
Proof.
  unfold is_u. intros Hx. rewrite wraps_id by int_lia.
  change 0x80 with (2 * 2 ^ 6). rewrite lor_add by int_lia.
  rewrite wrapu_id by int_lia. int_lia.
Qed.

Lemma lead3_byte c : is_u 16 c -> u8 (s8 (c ≫ 12) ||| 0xE0) = 224 + c / 4096.
Proof.
  unfold is_u. intros Hc. rewrite Z.shiftr_div_pow2 by lia.
  rewrite wraps_id by int_lia.
  change 0xE0 with (14 * 2 ^ 4). rewrite lor_add by int_lia.
  rewrite wrapu_id by int_lia. int_lia.
Qed.

Lemma low_six c : c &&& 0x3F = c mod 64.
Proof. apply (land_ones_mod c 6). lia. Qed.

Lemma mod64_u6 x : is_u 6 (x mod 64).
Proof. int_lia. Qed.

#[local] Hint Resolve mod64_u6 : ints.

Lemma utf8_bytes_range c : is_u 16 c -> Forall (is_u 8) (utf8_bytes c).
Proof.
  unfold is_u. intros Hc. unfold utf8_bytes.
  repeat case_decide; repeat constructor; int_lia.
Qed.

(** No byte of an encoding is zero: U+0000 becomes two non-zero bytes. *)
Lemma utf8_bytes_nonzero c : is_u 16 c -> Forall (fun b => b <> 0) (utf8_bytes c).
Proof.
  unfold is_u. intros Hc. unfold utf8_bytes.
  repeat case_decide; repeat constructor; int_lia.
Qed.

Lemma utf8_size_bytes c : is_u 16 c -> UNICODE.utf8_size c = zlen (utf8_bytes c).
Proof.
  unfold is_u. intros Hc. unfold UNICODE.utf8_size, utf8_bytes.
  repeat case_decide; repeat case_match; simpl; lia.
Qed.

Lemma encode_cons c s : encode (c :: s) = utf8_bytes c ++ encode s.
Proof. done. Qed.

Lemma encode_app s1 s2 : encode (s1 ++ s2) = encode s1 ++ encode s2.
Proof. apply bind_app. Qed.

(** ** One character *)

Lemma utf8_write_spec c pre old suf :
  is_u 16 c -> length old = length (utf8_bytes c) ->
  UNICODE.utf8_write (pre ++ old ++ suf) (zlen pre) c =
    Some (pre ++ utf8_bytes c ++ suf, zlen pre + zlen (utf8_bytes c)).
Proof.
  intros Hc Hlen. unfold UNICODE.utf8_write, utf8_bytes in *. rewrite ascii_test.
  pose proof Hc as Hr. unfold is_u in Hr.
  case_decide as H1.
  - rewrite bool_decide_true by done. simpl.
    destruct old as [|o [|]]; simplify_eq/=.
    rewrite store_app_mid, wrapu_id by int_lia. done.
  - rewrite bool_decide_false by done. replace (c <? 0) with false by lia. simpl.
    case_decide as H2.
    + replace (c <=? 2047) with true by lia.
      destruct old as [|o1 [|o2 [|]]]; simplify_eq/=.
      rewrite store_app_mid. simpl.
      rewrite (cons_middle _ pre), (app_assoc pre [_]).
      rewrite store_app_at by (rewrite length_app; simpl; lia). simpl.
      rewrite lead2_byte, low_six, cont_byte by auto with ints.
      by rewrite <- app_assoc.
    + replace (c <=? 2047) with false by lia.
      destruct old as [|o1 [|o2 [|o3 [|]]]]; simplify_eq/=.
      rewrite store_app_mid. simpl.
      rewrite (cons_middle _ pre), (app_assoc pre [_]).
      rewrite store_app_at by (rewrite length_app; simpl; lia). simpl.
      rewrite (cons_middle _ (pre ++ _)), (app_assoc (pre ++ _) [_]).
      rewrite store_app_at by (rewrite !length_app; simpl; lia). simpl.
      rewrite lead3_byte, !low_six, Z.shiftr_div_pow2 by (done || lia).
      rewrite !cont_byte_signed by auto with ints.
      by rewrite <- !app_assoc.
Qed.

Lemma next_ascii mem p ch :
  load mem p = Some ch -> 0 <= ch < 128 -> UTF8.next mem p = Some (ch, p + 1).
Proof.
  intros Hl Hch. unfold UTF8.next. rewrite Hl. simpl. rewrite byte_hi. by settle_tests.
Qed.

Lemma next_two mem p ch ch2 :
  load mem p = Some ch -> 192 <= ch < 224 ->
  load mem (p + 1) = Some ch2 -> 128 <= ch2 < 192 ->
  UTF8.next mem p = Some ((ch - 192) * 64 + (ch2 - 128), p + 2).
Proof.
  intros Hl Hch Hl2 Hch2. unfold UTF8.next. rewrite Hl. simpl.
  rewrite byte_hi, Hl2. simpl. rewrite cont_test, bool_decide_true by int_lia.
  rewrite low_six, (land_field 0x1F 0 5) by done. rewrite Z.shiftl_mul_pow2 by done.
  replace ((ch / 16 =? 12) || (ch / 16 =? 13)) with true by int_lia.
  settle_tests. do 2 f_equal. int_lia.
Qed.

Lemma next_three mem p ch ch2 ch3 :
  load mem p = Some ch -> 224 <= ch < 240 ->
  load mem (p + 1) = Some ch2 -> 128 <= ch2 < 192 ->
  load mem (p + 2) = Some ch3 -> 128 <= ch3 < 192 ->
  UTF8.next mem p = Some ((ch - 224) * 4096 + (ch2 - 128) * 64 + (ch3 - 128), p + 3).
Proof.
  intros Hl Hch Hl2 Hch2 Hl3 Hch3. unfold UTF8.next. rewrite Hl. simpl.
  rewrite byte_hi, Hl2. simpl. rewrite (cont_test ch2), bool_decide_true by int_lia.
  rewrite Hl3. simpl. rewrite (cont_test ch3), bool_decide_true by int_lia.
  rewrite !low_six, (land_field 0x0f 0 4) by done. rewrite !Z.shiftl_mul_pow2 by done.
  settle_tests. do 2 f_equal. int_lia.
Qed.

(** Byte [k] of a character in the middle of a string. *)
Ltac load_byte k := apply (load_within _ _ _ k); [done|lia].

Lemma next_spec c pre suf :
  is_u 16 c ->
  UTF8.next (pre ++ utf8_bytes c ++ suf) (zlen pre) =
    Some (c, zlen pre + zlen (utf8_bytes c)).
Proof.
  intros Hc. assert (0 <= c < 65536) as Hr by int_lia. unfold utf8_bytes.
  repeat case_decide.
  - apply next_ascii; [load_byte 0%nat|lia].
  - erewrite next_two;
      [|load_byte 0%nat|int_lia|load_byte 1%nat|int_lia].
    do 2 f_equal. int_lia.
  - erewrite next_three;
      [|load_byte 0%nat|int_lia|load_byte 1%nat|int_lia|load_byte 2%nat|int_lia].
    do 2 f_equal. int_lia.
Qed.

(** ** Loops over a whole string *)

(** The predicted length is the length of the encoding, modulo [2^32]. *)
Lemma utf8_length_loop_spec s bpre bsuf result :
  jchars s -> is_s 32 result ->
  UNICODE.utf8_length_loop (bpre ++ s ++ bsuf) (zlen bpre) (length s) result =
    Some (s32 (result + zlen (encode s))).
Proof.
  revert bpre result. induction s as [|c s IH]; intros bpre result Hs Hr.
  { simpl. rewrite Z.add_0_r. by rewrite wraps_id. }
  inversion Hs as [|? ? Hc Hs']; subst.
  cbn [UNICODE.utf8_length_loop length app]. rewrite load_app_mid. cbn [mbind option_bind].
  rewrite (cons_middle c bpre), (app_assoc bpre [c]).
  replace (zlen bpre + 1) with (zlen (bpre ++ [c])) by (rewrite length_app; simpl; lia).
  rewrite encode_cons, (length_app (utf8_bytes c)), Nat2Z.inj_add, <- utf8_size_bytes by done.
  unfold UNICODE.utf8_size. repeat case_match.
  all: rewrite IH by (done || by apply wraps_range).
  all: rewrite wraps_add_l, <- Z.add_assoc by done; done.
Qed.

Lemma write_loop_spec s bpre bsuf pre old suf :
  jchars s -> length old = length (encode s) ->
  UNICODE.write_loop (bpre ++ s ++ bsuf) (zlen bpre) (length s) (pre ++ old ++ suf) (zlen pre) =
    Some (pre ++ encode s ++ suf, zlen pre + zlen (encode s)).
Proof.
  revert bpre pre old. induction s as [|c s IH]; intros bpre pre old Hs Hlen.
  { destruct old; [|done]. simpl. by rewrite Z.add_0_r. }
  inversion Hs as [|? ? Hc Hs']; subst.
  rewrite encode_cons, length_app in *. simpl. rewrite load_app_mid. simpl.
  rewrite <- (take_drop (length (utf8_bytes c)) old), <- (app_assoc (take _ _)).
  rewrite utf8_write_spec by (done || (rewrite length_take; lia)). simpl.
  rewrite (cons_middle c bpre), (app_assoc bpre [c]), (app_assoc pre).
  replace (zlen bpre + 1) with (zlen (bpre ++ [c])) by (rewrite length_app; simpl; lia).
  replace (zlen pre + zlen (utf8_bytes c)) with (zlen (pre ++ utf8_bytes c))
    by (rewrite length_app; lia).
  rewrite IH by (done || (rewrite length_drop; lia)).
  rewrite <- !app_assoc. do 2 f_equal. rewrite length_app. lia.
Qed.

Lemma next_loop_spec s pre suf opre out osuf :
  jchars s -> length out = length s ->
  UTF8.next_loop (pre ++ encode s ++ suf) (zlen pre) (opre ++ out ++ osuf) (zlen opre)
    (length s) = Some (opre ++ s ++ osuf).
Proof.
  revert pre opre out. induction s as [|c s IH]; intros pre opre out Hs Hlen.
  { by destruct out. }
  inversion Hs as [|? ? Hc Hs']; subst. destruct out as [|o out]; [done|].
  rewrite encode_cons, <- app_assoc. cbn [UTF8.next_loop length].
  rewrite next_spec by done. simpl. rewrite store_app_mid. simpl.
  rewrite (cons_middle c opre), (app_assoc opre [c]), (app_assoc pre).
  replace (zlen opre + 1) with (zlen (opre ++ [c])) by (rewrite length_app; simpl; lia).
  replace (zlen pre + zlen (utf8_bytes c)) with (zlen (pre ++ utf8_bytes c))
    by (rewrite length_app; lia).
  rewrite IH by (done || (simpl in Hlen; lia)). by rewrite <- app_assoc.
Qed.

Lemma unicode_length_from_app l1 l2 n m :
  Forall (fun b => b <> 0) l1 -> is_s 32 n ->
  (forall k, is_s 32 k -> UTF8.unicode_length_from l2 k = Some (s32 (k + m))) ->
  UTF8.unicode_length_from (l1 ++ l2) n =
    Some (s32 (n + zlen (filter (fun b => ((b &&& 0xC0) =? 0x80) = false) l1) + m)).
Proof.
  intros Hnz Hn Hl2. revert n Hn. induction Hnz as [|b l1 Hb Hnz IH]; intros n Hn; simpl.
  { rewrite Hl2 by done. by rewrite Z.add_0_r. }
  replace (b =? 0) with false by lia. rewrite filter_cons.
  destruct ((b &&& 0xC0) =? 0x80) eqn:E; simpl; rewrite IH by (done || by apply wraps_range).
  - done.
  - rewrite <- Z.add_assoc, wraps_add_l by done. do 2 f_equal. lia.
Qed.

(** Exactly one byte of an encoded unit is not a continuation byte. *)
Lemma utf8_bytes_leads c :
  is_u 16 c -> zlen (filter (fun b => ((b &&& 0xC0) =? 0x80) = false) (utf8_bytes c)) = 1.
Proof.
  intros Hc. unfold utf8_bytes. repeat case_decide.
  all: rewrite !filter_cons, ?cont_test by int_lia.
  all: repeat first [rewrite bool_decide_true by int_lia | rewrite bool_decide_false by int_lia].
  all: done.
Qed.

Lemma unicode_length_encode s n :
  jchars s -> is_s 32 n -> UTF8.unicode_length_from (encode s ++ [0]) n = Some (s32 (n + zlen s)).
Proof.
  intros Hs. revert n. induction Hs as [|c s Hc Hs IH]; intros n Hn.
  { simpl. rewrite Z.add_0_r. by rewrite wraps_id. }
  rewrite encode_cons, <- app_assoc.
  rewrite (unicode_length_from_app _ _ n (zlen s)) by auto using utf8_bytes_nonzero.
  rewrite utf8_bytes_leads by done. simpl. do 2 f_equal. lia.
Qed.

Lemma encode_length s : jchars s -> zlen s <= zlen (encode s).
Proof.
  induction 1 as [|c s Hc Hs IH]; [done|]. rewrite encode_cons, length_app.
  assert (1 <= zlen (utf8_bytes c)) by (unfold utf8_bytes; repeat case_decide; simpl; lia).
  simpl. lia.
Qed.

Lemma as_utf8_spec junk s :
  jchars s -> zlen (encode s) < 2 ^ 31 - 1 ->
  UNICODE.as_utf8 junk s (zlen s) = Some (encode s ++ [0]).
Proof.
  intros Hs Hfit. unfold UNICODE.as_utf8, UNICODE.utf8_length. rewrite Nat2Z.id.
  pose proof (utf8_length_loop_spec s [] [] 0 Hs ltac:(int_lia)) as Hl.
  simpl_nil Hl. rewrite Hl. cbn [mbind option_bind]. rewrite !wraps_id by (done || int_lia).
  set (mem := new_array junk _).
  assert (length mem = S (length (encode s))) as Hmem.
  { assert (zlen mem = 0 + zlen (encode s) + 1) by (apply new_array_length; lia). lia. }
  destruct (nil_or_length_pos mem) as [Hnil|Hpos]; [by rewrite Hnil in Hmem|].
  destruct (exists_last (l := mem)) as (old & x & Hold); [by destruct mem|].
  rewrite Hold in *. rewrite length_app in Hmem. simpl in Hmem.
  pose proof (write_loop_spec s [] [] [] old [x] Hs ltac:(lia)) as Hw.
  simpl_nil Hw. rewrite Hw. cbn [mbind option_bind].
  rewrite store_app_at by lia. cbn [mbind option_bind]. by rewrite Z.eqb_refl.
Qed.

(** The ASCII loop of [convert_to_unicode] only shortcuts [UTF8::next]. *)
Lemma ascii_loop_next mem ptr out index n :
  Forall (is_u 8) mem ->
  ('(ptr, out, index, n) ← UTF8.ascii_loop mem ptr out index n;
   UTF8.next_loop mem ptr out index n) = UTF8.next_loop mem ptr out index n.
Proof.
  intros Hmem. revert ptr out index. induction n as [|n IH]; intros ptr out index; [done|].
  cbn [UTF8.ascii_loop]. destruct (load mem ptr) as [ch|] eqn:Hch.
  - cbn [mbind option_bind]. destruct (Z.gtb_spec ch 0x7F) as [Hgt|Hle]; [done|].
    cbn [UTF8.next_loop]. rewrite (next_ascii _ _ _ Hch) by
      (pose proof (load_Forall _ _ _ _ Hmem Hch); int_lia).
    cbn [mbind option_bind]. destruct (store out index ch) as [out'|]; [|done].
    apply IH.
  - cbn [UTF8.next_loop]. unfold UTF8.next. by rewrite Hch.
Qed.

(** ** Supplementary characters *)

(** The UTF-16 form of a Unicode scalar value. *)
Definition utf16 (cp : Z) : list Z :=
  if decide (cp < 0x10000) then [cp]
  else [0xD800 + (cp - 0x10000) / 1024; 0xDC00 + (cp - 0x10000) mod 1024].

Definition is_scalar (cp : Z) : Prop := 0 <= cp < 0xD800 \/ 0xE000 <= cp < 0x110000.

Lemma encode_supplementary cp :
  0x10000 <= cp < 0x110000 ->
  let v := cp - 0x10000 in
  encode (utf16 cp) = [0xED; 160 + v / 65536; 128 + (v / 1024) mod 64;
                       0xED; 176 + (v mod 1024) / 64; 128 + v mod 64].
Proof.
  intros Hcp v. unfold utf16. rewrite decide_False by lia.
  rewrite !encode_cons. unfold utf8_bytes. rewrite !decide_False by int_lia.
  cbn [app encode mbind list_bind]. subst v.
  repeat (apply (f_equal2 cons); [int_lia|]). done.
Qed.

(** The six tests of [is_supplementary_character] on bytes. *)
Lemma test_ED b : is_u 8 b -> ((b &&& 0xFF) =? 0xED) = bool_decide (b = 0xED).
Proof.
  intros Hb. rewrite (land_field 0xFF 0 8) by done.
  case_bool_decide; apply Bool.eq_true_iff_eq; rewrite Z.eqb_eq; int_lia.
Qed.

Lemma test_hi_nibble b v w :
  is_u 8 b -> w = v * 16 -> ((b &&& 0xF0) =? w) = bool_decide (b / 16 = v).
Proof.
  intros Hb ->. rewrite (land_field 0xF0 4 4) by done.
  case_bool_decide; apply Bool.eq_true_iff_eq; rewrite Z.eqb_eq; int_lia.
Qed.

Lemma is_supp_lead mem p b0 :
  load mem p = Some b0 -> is_u 8 b0 -> b0 <> 0xED ->
  UTF8.is_supplementary_character mem p = Some false.
Proof.
  intros Hl Hb Hne. unfold UTF8.is_supplementary_character.
  rewrite Z.add_0_r, Hl. cbn [mbind option_bind].
  by rewrite test_ED, bool_decide_false.
Qed.

Lemma is_supp_second mem p b0 b1 :
  load mem p = Some b0 -> is_u 8 b0 -> load mem (p + 1) = Some b1 -> is_u 8 b1 ->
  b1 / 16 <> 0xA ->
  UTF8.is_supplementary_character mem p = Some false.
Proof.
  intros Hl Hb Hl1 Hb1 Hne. unfold UTF8.is_supplementary_character.
  rewrite Z.add_0_r, Hl. cbn [mbind option_bind]. case_match; [|done].
  rewrite Hl1. cbn [mbind option_bind].
  by rewrite (test_hi_nibble _ 0xA 0xA0), bool_decide_false by (done || int_lia).
Qed.

Lemma supp_pair mem p b1 b2 b4 b5 :
  load mem p = Some 0xED -> load mem (p + 1) = Some b1 -> load mem (p + 2) = Some b2 ->
  load mem (p + 3) = Some 0xED -> load mem (p + 4) = Some b4 -> load mem (p + 5) = Some b5 ->
  160 <= b1 < 176 -> 128 <= b2 < 192 -> 176 <= b4 < 192 -> 128 <= b5 < 192 ->
  UTF8.next_character mem p =
    Some (0x10000 + (b1 - 160) * 65536 + (b2 - 128) * 1024 + (b4 - 176) * 64 + (b5 - 128), p + 6).
Proof.
  intros H0 H1 H2 H3 H4 H5 R1 R2 R4 R5.
  unfold UTF8.next_character, UTF8.is_supplementary_character, UTF8.get_supplementary_character.
  rewrite Z.add_0_r, H0, H1, H2, H3, H4, H5. cbn [mbind option_bind].
  rewrite (test_ED 0xED), (test_hi_nibble b1 0xA 0xA0), (test_hi_nibble b4 0xB 0xB0), !cont_test by int_lia.
  rewrite !bool_decide_true by int_lia. cbn [mbind option_bind].
  rewrite !low_six, !(land_field 0x0f 0 4), !Z.shiftl_mul_pow2 by done.
  do 2 f_equal. int_lia.
Qed.

(** ** Strings that end with a zero byte *)

Lemma load_terminated s p :
  0 <= p <= zlen s ->
  exists b, load (s ++ [0]) p = Some b /\ (p < zlen s \/ p = zlen s /\ b = 0).
Proof.
  intros Hp. destruct (decide (p = zlen s)) as [->|Hne].
  - exists 0. rewrite load_app_mid. auto.
  - destruct (load_is_Some (s ++ [0]) p) as [b Hb]; [rewrite length_app; simpl; lia|].
    exists b. split; [done|lia].
Qed.

(** Give the value and pointer that [next] was found to return. *)
Ltac next_result := do 2 eexists; split; [done|lia].

(** Reading one character stays at or before the terminator, and stops at it. *)
Lemma next_terminated s p :
  Forall (is_u 8) s -> 0 <= p <= zlen s ->
  exists v p', UTF8.next (s ++ [0]) p = Some (v, p') /\
    p < p' /\ (p' <= zlen s \/ p = zlen s /\ v = 0 /\ p' = p + 1).
Proof.
  intros Hs Hp.
  assert (Forall (is_u 8) (s ++ [0])) as Hs0
    by (apply Forall_app; split; [done|repeat constructor; int_lia]).
  destruct (load_terminated s p Hp) as (ch & Hch & Hend).
  pose proof (load_Forall _ _ _ _ Hs0 Hch) as Hb.
  unfold UTF8.next. rewrite Hch. cbn [mbind option_bind]. rewrite byte_hi.
  destruct Hend as [Hlt|[Heq ->]]; [|settle_tests; next_result].
  case_match; [next_result|].
  destruct (load_terminated s (p + 1)) as (ch2 & Hch2 & Hend2); [lia|].
  pose proof (load_Forall _ _ _ _ Hs0 Hch2) as Hb2.
  assert (128 <= ch2 < 192 -> p + 2 <= zlen s) as Hcont by (intros; lia).
  case_match; [|case_match; [|next_result]].
  - rewrite Hch2. cbn [mbind option_bind]. rewrite cont_test by done.
    case_bool_decide; next_result.
  - rewrite Hch2. cbn [mbind option_bind]. rewrite (cont_test ch2) by done.
    case_bool_decide; [|next_result].
    destruct (load_terminated s (p + 2)) as (ch3 & Hch3 & Hend3); [lia|].
    rewrite Hch3. cbn [mbind option_bind].
    rewrite cont_test by (by eapply load_Forall).
    case_bool_decide; next_result.
Qed.

(** The tests read on only after a byte that is not the terminator. *)
Lemma is_supp_terminated s p :
  Forall (is_u 8) s -> 0 <= p <= zlen s ->
  exists b, UTF8.is_supplementary_character (s ++ [0]) p = Some b /\
    (b = true -> p + 6 <= zlen s).
Proof.
  intros Hs Hp.
  assert (Forall (is_u 8) (s ++ [0])) as Hs0
    by (apply Forall_app; split; [done|repeat constructor; int_lia]).
  unfold UTF8.is_supplementary_character.
  assert (forall i mask v k,
    0 <= p + i <= zlen s -> v <> 0 ->
    (p + (i + 1) <= zlen s -> exists b, k = Some b /\ (b = true -> p + 6 <= zlen s)) ->
    exists b, (b0 ← load (s ++ [0]) (p + i);
               if (b0 &&& mask) =? v then k else Some false) = Some b /\
              (b = true -> p + 6 <= zlen s)) as Htest.
  { intros i mask v k Hi Hv Hk.
    destruct (load_terminated s (p + i) Hi) as (b0 & Hb0 & Hend).
    rewrite Hb0. cbn [mbind option_bind].
    destruct (Z.eqb_spec (b0 &&& mask) v); [|by eexists].
    apply Hk. destruct Hend as [|[? ->]]; [lia|]. by rewrite Z.land_0_l in *. }
  repeat (apply Htest; [lia|done|intros]). eauto with lia.
Qed.

Lemma next_character_terminated s p :
  Forall (is_u 8) s -> 0 <= p <= zlen s ->
  exists v p', UTF8.next_character (s ++ [0]) p = Some (v, p') /\ p < p' /\ (p < zlen s -> p' <= zlen s).
Proof.
  intros Hs Hp. destruct (next_terminated s p Hs Hp) as (v & p' & Hn & Hlt & Hend).
  unfold UTF8.next_character.
  destruct (is_supp_terminated s p Hs Hp) as ([|] & -> & Hsix); cbn [mbind option_bind].
  - specialize (Hsix eq_refl). unfold UTF8.get_supplementary_character.
    destruct (load_is_Some (s ++ [0]) (p + 1)) as [b1 ->]; [rewrite length_app; simpl; lia|].
    destruct (load_is_Some (s ++ [0]) (p + 2)) as [b2 ->]; [rewrite length_app; simpl; lia|].
    destruct (load_is_Some (s ++ [0]) (p + 4)) as [b4 ->]; [rewrite length_app; simpl; lia|].
    destruct (load_is_Some (s ++ [0]) (p + 5)) as [b5 ->]; [rewrite length_app; simpl; lia|].
    cbn [mbind option_bind]. do 2 eexists. split_and!; [done|lia|lia].
  - exists v, p'. split_and!; [done|lia|lia].
Qed.

(** ** Truncation to a buffer *)

Lemma as_utf8_buf_loop_spec s bpre pre rest bend :
  jchars s -> zlen (pre ++ rest) = bend -> zlen pre < bend ->
  exists k, (k <= length s)%nat /\
    UNICODE.as_utf8_buf_loop (bpre ++ s) (zlen bpre) (length s) (pre ++ rest) (zlen pre) bend =
      Some (pre ++ encode (take k s) ++ drop (length (encode (take k s))) rest,
            zlen pre + zlen (encode (take k s))) /\
    zlen pre + zlen (encode (take k s)) < bend /\
    (k = length s \/ bend <= zlen pre + zlen (encode (take (S k) s))).
Proof.
  revert bpre pre rest. induction s as [|c s IH]; intros bpre pre rest Hs Hlen Hlt.
  { exists 0%nat. simpl. rewrite drop_0, Z.add_0_r. auto with lia. }
  inversion Hs as [|? ? Hc Hs']; subst bend. rewrite length_app in *.
  cbn [UNICODE.as_utf8_buf_loop length]. rewrite load_app_mid. cbn [mbind option_bind].
  rewrite utf8_size_bytes by done. destruct (Z.geb_spec (zlen pre + zlen (utf8_bytes c))
    (Z.of_nat (length pre + length rest))) as [Hge|Hfit].
  - exists 0%nat. cbn [take]. rewrite encode_cons, length_app. simpl.
    rewrite drop_0, Z.add_0_r. auto with lia.
  - pose proof (utf8_write_spec c pre (take (length (utf8_bytes c)) rest)
      (drop (length (utf8_bytes c)) rest) Hc) as Hw.
    rewrite take_drop in Hw. rewrite Hw by (rewrite length_take; lia). cbn [mbind option_bind].
    rewrite (cons_middle c bpre), (app_assoc bpre [c]), (app_assoc pre).
    replace (zlen bpre + 1) with (zlen (bpre ++ [c])) by (rewrite length_app; simpl; lia).
    replace (zlen pre + zlen (utf8_bytes c)) with (zlen (pre ++ utf8_bytes c))
      by (rewrite length_app; lia).
    destruct (IH (bpre ++ [c]) (pre ++ utf8_bytes c) (drop (length (utf8_bytes c)) rest))
      as (k & Hk & Hrun & Hend & Hmax); [done|rewrite !length_app, ?length_drop; lia..|].
    exists (S k). cbn [take]. rewrite !encode_cons, !length_app in *. rewrite Hrun.
    split_and!; [lia| |lia|destruct Hmax; [left|right]; lia].
    rewrite drop_drop, <- !app_assoc. do 2 f_equal. lia.
Qed.

(** * Properties *)

(** C11: for every Java string whose encoding, with its terminator, has a
    length that fits an [int], [UNICODE::as_utf8] succeeds within the buffer it
    allocates (its length prediction is exact), [UTF8::unicode_length] of the
    result is the number of UTF-16 units, and [UTF8::convert_to_unicode] gives
    the string back. *)
Theorem utf8_roundtrip (junk junk' : nat -> Z) (s : list Z) :
  jchars s -> zlen (encode s) < 2 ^ 31 - 1 ->
  exists bytes,
    UNICODE.as_utf8 junk s (zlen s) = Some bytes /\
    UTF8.unicode_length bytes 0 = Some (zlen s) /\
    UTF8.convert_to_unicode bytes 0 (new_array junk' (zlen s)) (zlen s) = Some s.
Proof.
  intros Hs Hfit. exists (encode s ++ [0]). split_and!.
  - by apply as_utf8_spec.
  - unfold UTF8.unicode_length. rewrite drop_0, unicode_length_encode by (done || int_lia).
    pose proof (encode_length s Hs). by rewrite wraps_id by int_lia.
  - unfold UTF8.convert_to_unicode. rewrite ascii_loop_next, Nat2Z.id.
    + set (out := new_array _ _).
      pose proof (next_loop_spec s [] [0] [] out [] Hs) as H.
      simpl_nil H. apply H. unfold out, new_array.
      rewrite length_fmap, length_seq. lia.
    + apply Forall_app. split; [|repeat constructor; int_lia].
      apply Forall_bind. by eapply Forall_impl; [|apply utf8_bytes_range].
Qed.

Lemma utf8_roundtrip_witness :
  exists bytes,
    UNICODE.as_utf8 (fun _ => 7) [0; 0x41; 0x3b1; 0xd83d; 0xde00; 0xffff] 6 = Some bytes /\
    UTF8.unicode_length bytes 0 = Some 6 /\
    UTF8.convert_to_unicode bytes 0 (new_array (fun _ => 9) 6) 6 =
      Some [0; 0x41; 0x3b1; 0xd83d; 0xde00; 0xffff].
Proof.
  apply (utf8_roundtrip (fun _ => 7) (fun _ => 9) [0; 0x41; 0x3b1; 0xd83d; 0xde00; 0xffff]).
  - repeat constructor; vm_compute; congruence.
  - vm_compute. reflexivity.
Defined.

(** [utf8_length] counts in an [int]: its result is the length of the encoding
    modulo [2^32], and from [2^31] bytes on it is not that length. *)
Theorem utf8_length_wraps (s : list Z) :
  jchars s ->
  UNICODE.utf8_length s (zlen s) = Some (s32 (zlen (encode s))) /\
  (s32 (zlen (encode s)) = zlen (encode s) <-> zlen (encode s) < 2 ^ 31).
Proof.
  intros Hs. unfold UNICODE.utf8_length. rewrite Nat2Z.id.
  pose proof (utf8_length_loop_spec s [] [] 0 Hs ltac:(int_lia)) as Hl.
  simpl_nil Hl. split; [exact Hl|].
  pose proof (wraps_range 32 (zlen (encode s)) ltac:(done)) as Hr. split; intros H.
  - rewrite H in Hr. int_lia.
  - apply wraps_id; int_lia.
Qed.

Lemma utf8_length_wraps_witness :
  UNICODE.utf8_length [0x20AC] 1 = Some (s32 (zlen (encode [0x20AC]))) /\
  (s32 (zlen (encode [0x20AC])) = zlen (encode [0x20AC]) <-> zlen (encode [0x20AC]) < 2 ^ 31).
Proof. apply (utf8_length_wraps [0x20AC]). repeat constructor; vm_compute; congruence. Defined.

(** [UTF8::next_character] decodes the (modified) UTF-8 form of every
    Unicode scalar value: a surrogate pair, six bytes, gives the supplementary
    character it stands for and any other character gives itself; the returned
    pointer is just past the character. *)
Theorem next_character_scalar (pre suf : list Z) (cp : Z) :
  is_scalar cp ->
  UTF8.next_character (pre ++ encode (utf16 cp) ++ suf) (zlen pre) =
    Some (cp, zlen pre + zlen (encode (utf16 cp))).
Proof.
  intros Hcp. unfold is_scalar in Hcp. destruct (decide (cp < 0x10000)).
  - assert (utf16 cp = [cp]) as -> by (unfold utf16; by rewrite decide_True).
    rewrite encode_cons. cbn [encode mbind list_bind]. rewrite app_nil_r.
    pose proof (next_spec cp pre suf ltac:(int_lia)) as Hnext.
    assert (UTF8.is_supplementary_character (pre ++ utf8_bytes cp ++ suf) (zlen pre)
              = Some false) as Hns.
    { unfold utf8_bytes. repeat case_decide.
      - eapply is_supp_lead; [load_byte 0%nat|int_lia|int_lia].
      - eapply is_supp_lead; [load_byte 0%nat|int_lia|int_lia].
      - destruct (decide (224 + cp / 4096 = 0xED)).
        + eapply is_supp_second; [load_byte 0%nat|int_lia|load_byte 1%nat|int_lia|].
          int_lia.
        + eapply is_supp_lead; [load_byte 0%nat|int_lia|done]. }
    unfold UTF8.next_character. by rewrite Hns.
  - rewrite encode_supplementary by lia. cbv zeta.
    erewrite supp_pair;
      [|load_byte 0%nat|load_byte 1%nat|load_byte 2%nat|load_byte 3%nat|load_byte 4%nat
       |load_byte 5%nat|int_lia|int_lia|int_lia|int_lia].
    do 2 f_equal. int_lia.
Qed.

Lemma next_character_scalar_witness :
  UTF8.next_character ([0x41] ++ encode (utf16 0x1F600) ++ [0]) 1 = Some (0x1F600, 7).
Proof. apply (next_character_scalar [0x41] [0] 0x1F600). right. lia. Defined.

(** On a zero-terminated string, legal or not, [UTF8::next] and
    [UTF8::next_character] never read past the terminator, always advance, and
    from a position before the terminator never step over it, so that a scan of
    the string ends. *)
Theorem next_within_terminated (s : list Z) (p : Z) :
  Forall (is_u 8) s -> 0 <= p <= zlen s ->
  (exists v p', UTF8.next (s ++ [0]) p = Some (v, p') /\
     p < p' /\ (p < zlen s -> p' <= zlen s)) /\
  (exists v p', UTF8.next_character (s ++ [0]) p = Some (v, p') /\
     p < p' /\ (p < zlen s -> p' <= zlen s)).
Proof.
  intros Hs Hp. destruct (next_terminated s p Hs Hp) as (v & p' & Hn & Hlt & Hend).
  split; [exists v, p'; split_and!; [done|lia|lia]|by apply next_character_terminated].
Qed.

Lemma next_within_terminated_witness :
  (exists v p', UTF8.next ([0x41; 0xE4] ++ [0]) 1 = Some (v, p') /\
     1 < p' /\ (1 < 2 -> p' <= 2)) /\
  (exists v p', UTF8.next_character ([0x41; 0xE4] ++ [0]) 1 = Some (v, p') /\
     1 < p' /\ (1 < 2 -> p' <= 2)).
Proof.
  apply (next_within_terminated [0x41; 0xE4] 1); [|simpl; lia].
  repeat constructor; vm_compute; congruence.
Defined.

(** With a caller's buffer of at least one byte, [UNICODE::as_utf8] writes
    the longest prefix of the string, cut between characters, whose encoding
    and terminator fit, and changes no byte outside the buffer or after the
    terminator. *)
Theorem as_utf8_buf_truncates (s buf : list Z) :
  jchars s -> 0 < zlen buf ->
  exists k, (k <= length s)%nat /\
    UNICODE.as_utf8_buf s (zlen s) buf (zlen buf) =
      Some (encode (take k s) ++ 0 :: drop (S (length (encode (take k s)))) buf) /\
    (k = length s \/ zlen buf <= zlen (encode (take (S k) s))).
Proof.
  intros Hs Hbuf. unfold UNICODE.as_utf8_buf. rewrite Nat2Z.id.
  destruct (as_utf8_buf_loop_spec s [] [] buf (zlen buf) Hs) as (k & Hk & Hrun & Hend & Hmax);
    [done..|].
  simpl_nil Hrun. rewrite Hrun. cbn [mbind option_bind]. exists k. simpl in Hend, Hmax.
  split_and!; [done| |destruct Hmax; [left|right]; lia].
  destruct (drop (length (encode (take k s))) buf) as [|x rest] eqn:Hd.
  { apply (f_equal length) in Hd. rewrite length_drop in Hd. simpl in Hd. lia. }
  rewrite store_app_at by lia. do 3 f_equal.
  change (S ?n) with (1 + n)%nat. rewrite Nat.add_comm, <- drop_drop, Hd. done.
Qed.

Lemma as_utf8_buf_truncates_witness :
  exists k, (k <= 2)%nat /\
    UNICODE.as_utf8_buf [0x41; 0x20AC] 2 [9; 9; 9; 9] 4 =
      Some (encode (take k [0x41; 0x20AC]) ++
            0 :: drop (S (length (encode (take k [0x41; 0x20AC])))) [9; 9; 9; 9]) /\
    (k = 2%nat \/ 4 <= zlen (encode (take (S k) [0x41; 0x20AC]))).
Proof.
  apply (as_utf8_buf_truncates [0x41; 0x20AC] [9; 9; 9; 9]); [|simpl; lia].
  repeat constructor; vm_compute; congruence.
Defined.
