(* ===== verification/CompressedStream.v ===== *)
(** Compressed streams for debugging information:
    [src/share/vm/code/compressedStream.cpp] and [compressedStream.hpp], the
    UNSIGNED5 and SIGNED5 codings of Pack200.

    A [jfloat] and a [jdouble] are their bits, a [jint] and a [jlong], because
    the code only casts them ([jint_cast], [jlong_cast] and back). *)

From S2P Require Import Prelude GlobalDefinitions.

(** * Definitions *)

(** ** Constants of the UNSIGNED5 coding *)

Abbreviation lg_H := (6).
Definition H : Z := 1 ≪ lg_H.
Definition L : Z := (1 ≪ 8) - H.
Definition MAX_i : nat := 4.

(** ** Transformations of one word *)

Definition encode_sign (value : Z) : Z := u32 (s32 (value ≪ 1) ^^^ (value ≫ 31)).

Definition decode_sign (value : Z) : Z :=
  s32 ((value ≫ 1) ^^^ u32 (- s32 (value &&& 1))).

Definition reverse_int (i : Z) : Z :=
  let i := u32 ((i &&& 0x55555555) ≪ 1) ||| ((i ≫ 1) &&& 0x55555555) in
  let i := u32 ((i &&& 0x33333333) ≪ 2) ||| ((i ≫ 2) &&& 0x33333333) in
  let i := u32 ((i &&& 0x0f0f0f0f) ≪ 4) ||| ((i ≫ 4) &&& 0x0f0f0f0f) in
  let i := u32 (i ≪ 24) ||| u32 ((i &&& 0xff00) ≪ 8) ||| ((i ≫ 8) &&& 0xff00) ||| (i ≫ 24) in
  i.

(** ** CompressedReadStream *)

Module Read.

Record stream := { _buffer : list Z; _position : Z }.

Definition set_position (st : stream) (position : Z) : stream :=
  {| _buffer := _buffer st; _position := position |}.

Definition read (st : stream) : option (Z * stream) :=
  b ← load (_buffer st) (_position st);
  Some (b, set_position st (_position st + 1)).

(** The loop of [read_int_mb]: [k] is [MAX_i - i], [buf] the index of [b0]. *)
Fixpoint read_int_mb_loop (k : nat) (st : stream) (buf i sum lg_H_i : Z)
    : option (Z * stream) :=
  match k with
  | O => None
  | S k =>
      let i := i + 1 in
      b_i ← load (_buffer st) (buf + i);
      let sum := s32 (sum + s32 (b_i ≪ lg_H_i)) in
      if (b_i <? L) || (k =? 0)%nat then Some (sum, set_position st (buf + i + 1))
      else read_int_mb_loop k st buf i sum (lg_H_i + lg_H)
  end.

Definition read_int_mb (st : stream) (b0 : Z) : option (Z * stream) :=
  let pos := _position st - 1 in
  b ← load (_buffer st) pos;
  if (b =? b0) && (b0 >=? L) then read_int_mb_loop MAX_i st pos 0 b0 lg_H else None.

Definition read_int (st : stream) : option (Z * stream) :=
  '(b0, st) ← read st;
  if b0 <? L then Some (b0, st) else read_int_mb st b0.

Definition read_signed_int (st : stream) : option (Z * stream) :=
  '(v, st) ← read_int st;
  Some (decode_sign (u32 v), st).

Definition read_bool (st : stream) : option (Z * stream) := read st.

Definition read_byte (st : stream) : option (Z * stream) :=
  '(b, st) ← read st; Some (s8 b, st).

Definition read_char (st : stream) : option (Z * stream) :=
  '(v, st) ← read_int st; Some (u16 v, st).

Definition read_short (st : stream) : option (Z * stream) :=
  '(v, st) ← read_signed_int st; Some (s16 v, st).

Definition read_float (st : stream) : option (Z * stream) :=
  '(rf, st) ← read_int st;
  Some (s32 (reverse_int (u32 rf)), st).

Definition read_double (st : stream) : option (Z * stream) :=
  '(rh, st) ← read_int st;
  '(rl, st) ← read_int st;
  let h := s32 (reverse_int (u32 rh)) in
  let l := s32 (reverse_int (u32 rl)) in
  Some (jlong_from h l, st).

Definition read_long (st : stream) : option (Z * stream) :=
  '(low, st) ← read_signed_int st;
  '(high, st) ← read_signed_int st;
  Some (jlong_from high low, st).

End Read.

(** ** CompressedWriteStream *)

Module Write.

Record stream := { _buffer : list Z; _size : Z; _position : Z }.

Section write.
(** What a freshly allocated buffer holds. *)
Context (junk : nat -> Z).

Definition create (initial_size : Z) : stream :=
  {| _buffer := new_array junk initial_size; _size := initial_size; _position := 0 |}.

Definition full (st : stream) : bool := _position st >=? _size st.

Definition store (st : stream) (b : Z) : option stream :=
  buffer ← store (_buffer st) (_position st) b;
  Some {| _buffer := buffer; _size := _size st; _position := _position st + 1 |}.

(** Signed overflow of the doubled size is undefined. *)
Definition grow (st : stream) : option stream :=
  let new_size := _size st * 2 in
  if decide (is_s 32 new_size) then
    new_buffer ← memcpy (new_array junk new_size) (_buffer st) (_position st);
    Some {| _buffer := new_buffer; _size := new_size; _position := _position st |}
  else None.

Definition write (st : stream) (b : Z) : option stream :=
  st ← (if full st then grow st else Some st);
  store st b.

(** The loop of [write_int_mb]: [k] is [MAX_i - i].  The last byte carries the
    code's assertion that it is a byte. *)
Fixpoint write_int_mb_loop (k : nat) (sum : Z) (st : stream) : option stream :=
  let last := if sum =? u8 sum then write st (u8 sum) else None in
  match k with
  | O => last
  | S k =>
      if sum <? L then last
      else
        let sum := u32 (sum - L) in
        let b_i := L + sum mod H in
        let sum := sum ≫ lg_H in
        st ← write st (u8 b_i);
        write_int_mb_loop k sum st
  end.

Definition write_int_mb (st : stream) (value : Z) : option stream :=
  write_int_mb_loop MAX_i (u32 value) st.

Definition write_int (st : stream) (value : Z) : option stream :=
  if (u32 value <? L) && negb (full st) then store st (u8 value)
  else write_int_mb st value.

Definition write_signed_int (st : stream) (value : Z) : option stream :=
  write_int st (s32 (encode_sign value)).

Definition write_bool (st : stream) (value : Z) : option stream := write st (u8 value).
Definition write_byte (st : stream) (value : Z) : option stream := write st (u8 value).
Definition write_char (st : stream) (value : Z) : option stream := write_int st value.
Definition write_short (st : stream) (value : Z) : option stream := write_signed_int st value.

(** The assertions "can re-read same bits" are part of the model. *)
Definition write_float (st : stream) (value : Z) : option stream :=
  let f := u32 value in
  let rf := reverse_int f in
  if f =? reverse_int rf then write_int st (s32 rf) else None.

Definition write_double (st : stream) (value : Z) : option stream :=
  let h := u32 (high value) in
  let l := u32 (low value) in
  let rh := reverse_int h in
  let rl := reverse_int l in
  if (h =? reverse_int rh) && (l =? reverse_int rl) then
    st ← write_int st (s32 rh);
    write_int st (s32 rl)
  else None.

Definition write_long (st : stream) (value : Z) : option stream :=
  st ← write_signed_int st (low value);
  write_signed_int st (high value).

End write.
End Write.

(** * Words *)

(** ** SIGNED5: the zigzag coding of signs *)

Lemma encode_sign_zigzag v :
  is_s 32 v -> encode_sign v = if decide (0 <= v) then 2 * v else - 2 * v - 1.
Proof.
  intros Hv. unfold encode_sign. rewrite Z.shiftl_mul_pow2, Z.shiftr_div_pow2 by done.
  case_decide.
  - replace (v / 2 ^ 31) with 0 by int_lia. rewrite Z.lxor_0_r, wrapu_wraps by lia. int_lia.
  - replace (v / 2 ^ 31) with (-1) by int_lia. rewrite Z.lxor_m1_r. unfold Z.lnot, wraps.
    case_match; int_lia.
Qed.

Lemma decode_sign_zigzag u :
  is_u 32 u -> decode_sign u = if decide (u mod 2 = 0) then u / 2 else - (u / 2) - 1.
Proof.
  intros Hu. unfold decode_sign. rewrite (land_field 1 0 1), Z.shiftr_div_pow2 by done.
  rewrite (wraps_id 32 (_ * _)) by int_lia. case_decide.
  - replace (_ mod _ * _) with 0 by int_lia. rewrite Z.lxor_0_r, wraps_id by int_lia. int_lia.
  - replace (_ mod _ * _) with 1 by int_lia.
    replace (u32 (- (1))) with (Z.ones 32) by done.
    rewrite <- wraps_wrapu by lia.
    replace (u32 ((u / 2 ^ 1) ^^^ Z.ones 32)) with (u32 (Z.lnot (u / 2 ^ 1))).
    + rewrite wraps_wrapu, wraps_id by (unfold Z.lnot; int_lia). unfold Z.lnot. int_lia.
    + unfold wrapu. apply Z.bits_inj'; intros i Hi. rewrite !Z.testbit_mod_pow2 by lia.
      destruct (Z.ltb_spec i 32); [|done]. cbn [andb].
      rewrite Z.lnot_spec, Z.lxor_spec, Z.ones_spec_low by lia. by rewrite xorb_true_r.
Qed.

Lemma encode_sign_range v : is_u 32 (encode_sign v).
Proof. apply wrapu_range. lia. Qed.

Lemma decode_encode_sign v : is_s 32 v -> decode_sign (encode_sign v) = v.
Proof.
  intros Hv. rewrite decode_sign_zigzag by apply encode_sign_range.
  rewrite encode_sign_zigzag by done. repeat case_decide; int_lia.
Qed.

Lemma encode_decode_sign u : is_u 32 u -> encode_sign (decode_sign u) = u.
Proof.
  intros Hu. rewrite encode_sign_zigzag by (apply wraps_range; lia).
  rewrite decode_sign_zigzag by done. repeat case_decide; int_lia.
Qed.

(** ** Bit reversal *)

(** One round of the reversal swaps the bits whose positions differ by [s]. *)
Lemma swap_round m s i k :
  is_u 32 i -> is_u 32 m -> 0 <= s -> 0 <= k < 32 ->
  Z.testbit (u32 ((i &&& m) ≪ s) ||| ((i ≫ s) &&& m)) k =
    (Z.testbit i (k - s) && Z.testbit m (k - s)) || (Z.testbit i (k + s) && Z.testbit m k).
Proof.
  intros Hi Hm Hs Hk. unfold wrapu.
  rewrite Z.lor_spec, Z.mod_pow2_bits_low, Z.shiftl_spec, !Z.land_spec, Z.shiftr_spec by lia.
  done.
Qed.

Lemma swap_round_range m s i : is_u 32 m -> is_u 32 (u32 ((i &&& m) ≪ s) ||| ((i ≫ s) &&& m)).
Proof. intros Hm. apply is_u_lor; auto using is_u_land_r, wrapu_range with lia. Qed.

(** Evaluate a round at one bit position, the word being arbitrary. *)
Ltac eval_round i := generalize (Z.testbit i); intros f; cbn;
  rewrite ?andb_true_r, ?andb_false_r, ?orb_false_r, ?orb_false_l; done.

Lemma swap_1 i k : is_u 32 i -> 0 <= k < 32 ->
  Z.testbit (u32 ((i &&& 0x55555555) ≪ 1) ||| ((i ≫ 1) &&& 0x55555555)) k =
  Z.testbit i (Z.lxor k 1).
Proof.
  intros Hi Hk. rewrite swap_round by (done || int_lia). enum k 0 32%nat; eval_round i.
Qed.

Lemma swap_2 i k : is_u 32 i -> 0 <= k < 32 ->
  Z.testbit (u32 ((i &&& 0x33333333) ≪ 2) ||| ((i ≫ 2) &&& 0x33333333)) k =
  Z.testbit i (Z.lxor k 2).
Proof.
  intros Hi Hk. rewrite swap_round by (done || int_lia). enum k 0 32%nat; eval_round i.
Qed.

Lemma swap_4 i k : is_u 32 i -> 0 <= k < 32 ->
  Z.testbit (u32 ((i &&& 0x0f0f0f0f) ≪ 4) ||| ((i ≫ 4) &&& 0x0f0f0f0f)) k =
  Z.testbit i (Z.lxor k 4).
Proof.
  intros Hi Hk. rewrite swap_round by (done || int_lia). enum k 0 32%nat; eval_round i.
Qed.

Lemma swap_bytes i k : is_u 32 i -> 0 <= k < 32 ->
  Z.testbit (u32 (i ≪ 24) ||| u32 ((i &&& 0xff00) ≪ 8) ||| ((i ≫ 8) &&& 0xff00) ||| (i ≫ 24)) k =
  Z.testbit i (Z.lxor k 24).
Proof.
  intros Hi Hk. unfold wrapu.
  rewrite !Z.lor_spec, !Z.mod_pow2_bits_low, !Z.shiftl_spec, !Z.land_spec, !Z.shiftr_spec by lia.
  assert (forall j, 32 <= j -> Z.testbit i j = false) as Hhigh
    by (intros; apply (testbit_high 32); done || lia).
  assert (forall j, j < 0 -> Z.testbit i j = false) as Hlow by (intros; by apply Z.testbit_neg_r).
  revert Hhigh Hlow. generalize (Z.testbit i). intros f Hhigh Hlow.
  enum k 0 32%nat; cbv -[orb andb];
    repeat match goal with
    | |- context [f (Zneg ?p)] => rewrite (Hlow (Zneg p)) by lia
    | |- context [f (Zpos ?p)] => rewrite (Hhigh (Zpos p)) by lia
    end;
    rewrite ?andb_true_r, ?andb_false_r, ?orb_false_r, ?orb_false_l; done.
Qed.

Lemma reverse_int_range i : is_u 32 i -> is_u 32 (reverse_int i).
Proof.
  intros Hi. unfold reverse_int. set (j := _ ||| _) at 4.
  assert (is_u 32 j) by (apply swap_round_range; int_lia).
  repeat apply is_u_lor; auto using is_u_land_r, wrapu_range, is_u_shiftr with lia.
  apply is_u_land_r; int_lia.
Qed.

Lemma xor_31 k : 0 <= k < 32 -> Z.lxor (Z.lxor (Z.lxor (Z.lxor k 24) 4) 2) 1 = 31 - k.
Proof. intros Hk. enum k 0 32%nat; done. Qed.

Lemma lxor_u5 k m : 0 <= k < 32 -> 0 <= m < 32 -> 0 <= Z.lxor k m < 32.
Proof. apply (is_u_lxor 5). lia. Qed.

(** [reverse_int] reverses the 32 bits. *)
Lemma reverse_int_spec i k :
  is_u 32 i -> 0 <= k < 32 -> Z.testbit (reverse_int i) k = Z.testbit i (31 - k).
Proof.
  intros Hi Hk. unfold reverse_int. cbv zeta.
  rewrite swap_bytes, swap_4, swap_2, swap_1 by
    (repeat apply lxor_u5; lia || (apply swap_round_range; int_lia) || done).
  by rewrite xor_31.
Qed.

Lemma reverse_int_involutive i : is_u 32 i -> reverse_int (reverse_int i) = i.
Proof.
  intros Hi. pose proof (reverse_int_range i Hi).
  apply (bits_inj_u 32); auto using reverse_int_range with lia. intros k Hk.
  rewrite !reverse_int_spec by (done || lia). f_equal. lia.
Qed.

Arguments reverse_int : simpl never.
#[local] Opaque reverse_int.

(** * Streams *)

(** ** The reference coding *)

(** UNSIGNED5 with at most [k] high bytes, by arithmetic. *)
Fixpoint unsigned5 (k : nat) (v : Z) : list Z :=
  match k with
  | O => [v]
  | S k =>
      if decide (v < 192) then [v]
      else (192 + (v - 192) mod 64) :: unsigned5 k ((v - 192) / 64)
  end.

Lemma unsigned5_length k v : 1 <= zlen (unsigned5 k v) <= Z.of_nat k + 1.
Proof.
  revert v. induction k as [|k IH]; intros v; simpl; [lia|].
  case_decide; simpl; [lia|]. specialize (IH ((v - 192) / 64)). lia.
Qed.

(** Every word needs at most five bytes. *)
Definition word_bytes (v : Z) : list Z := unsigned5 4 v.

Lemma word_bytes_eq v :
  word_bytes v = if decide (v < 192) then [v]
                 else (192 + (v - 192) mod 64) :: unsigned5 3 ((v - 192) / 64).
Proof. done. Qed.

(** ** Writers as appenders

    [emits f bytes]: from any well-formed stream the writer [f] succeeds, keeps
    the stream well formed and appends exactly [bytes]; the bound on the
    position keeps the doubling of the size within a [jint]. *)

Definition contents (st : Write.stream) : list Z :=
  take (Z.to_nat (Write._position st)) (Write._buffer st).

Record stream_ok (st : Write.stream) : Prop := {
  ok_size : zlen (Write._buffer st) = Write._size st;
  ok_position : 0 <= Write._position st <= Write._size st;
  ok_nonempty : 0 < Write._size st
}.

Definition emits (f : Write.stream -> option Write.stream) (bytes : list Z) : Prop :=
  forall st, stream_ok st -> Write._position st + zlen bytes <= 2 ^ 30 ->
    exists st', f st = Some st' /\ stream_ok st' /\ contents st' = contents st ++ bytes.

(** [parses f bytes a]: the reader [f], placed at [bytes] anywhere in a buffer,
    returns [a] and stops just after [bytes]. *)
Definition parses {A} (f : Read.stream -> option (A * Read.stream)) (bytes : list Z) (a : A)
    : Prop :=
  forall pre suf,
    f {| Read._buffer := pre ++ bytes ++ suf; Read._position := zlen pre |} =
    Some (a, {| Read._buffer := pre ++ bytes ++ suf; Read._position := zlen (pre ++ bytes) |}).

Lemma contents_length st : stream_ok st -> zlen (contents st) = Write._position st.
Proof. intros [? ? ?]. unfold contents. rewrite length_take. lia. Qed.

Lemma emits_bind f g bs1 bs2 :
  emits f bs1 -> emits g bs2 -> emits (fun st => f st ≫= g) (bs1 ++ bs2).
Proof.
  intros Hf Hg st Hok Hpos. rewrite length_app in Hpos.
  destruct (Hf st Hok) as (st1 & E1 & Hok1 & Hc1); [lia|].
  pose proof (contents_length st Hok). pose proof (contents_length st1 Hok1) as Hl1.
  rewrite Hc1, length_app in Hl1.
  destruct (Hg st1 Hok1) as (st2 & E2 & Hok2 & Hc2); [lia|].
  exists st2. rewrite E1. split_and!; [done|done|]. by rewrite Hc2, Hc1, app_assoc.
Qed.

Lemma parses_bind {A B} (f : Read.stream -> option (A * Read.stream)) a
    (g : A -> Read.stream -> option (B * Read.stream)) b bs1 bs2 :
  parses f bs1 a -> parses (g a) bs2 b ->
  parses (fun st => '(x, st) ← f st; g x st) (bs1 ++ bs2) b.
Proof.
  intros Hf Hg pre suf. rewrite <- app_assoc. rewrite (Hf pre (bs2 ++ suf)).
  cbn [mbind option_bind]. rewrite (app_assoc pre bs1), (Hg (pre ++ bs1) suf).
  by rewrite <- !app_assoc.
Qed.

Lemma parses_ret {A B} (f : Read.stream -> option (A * Read.stream)) a (h : A -> B) bs :
  parses f bs a -> parses (fun st => '(x, st) ← f st; Some (h x, st)) bs (h a).
Proof. intros Hf pre suf. by rewrite Hf. Qed.

Lemma parses_ext {A} (f g : Read.stream -> option (A * Read.stream)) bs a :
  (forall st, f st = g st) -> parses f bs a -> parses g bs a.
Proof. intros E Hf pre suf. rewrite <- E. apply Hf. Qed.

(** ** Single bytes and UNSIGNED5 words *)

Lemma store_emits st b :
  stream_ok st -> Write._position st < Write._size st ->
  exists st', Write.store st b = Some st' /\ stream_ok st' /\ contents st' = contents st ++ [b].
Proof.
  intros [Hsz Hpos Hne] Hlt. unfold Write.store.
  destruct (store_is_Some (Write._buffer st) (Write._position st) b) as [l' Hl']; [lia|].
  rewrite Hl'. cbn [mbind option_bind]. eexists. split; [done|]. split.
  - split; simpl; [rewrite (store_length _ _ _ _ Hl'); lia|lia..].
  - unfold contents. simpl. rewrite <- (take_store _ _ _ _ Hl'). f_equal. lia.
Qed.

Lemma write_emits junk b : emits (fun st => Write.write junk st b) [b].
Proof.
  intros st Hok Hpos. pose proof Hok as [Hsz Hp Hne]. simpl in Hpos.
  unfold Write.write, Write.full.
  destruct (Z.geb_spec (Write._position st) (Write._size st)) as [Hge|Hlt].
  - unfold Write.grow. rewrite decide_True by int_lia.
    unfold memcpy. rewrite decide_True by (rewrite new_array_length; lia).
    cbn [mbind option_bind].
    match goal with |- context [Write.store ?s b] => destruct (store_emits s b) as (st' & E & Hok' & Hc) end.
    + split; simpl; [|lia..]. rewrite length_app, length_take, length_drop.
      rewrite Nat2Z.inj_add, Nat2Z.inj_min, Nat2Z.inj_sub_max, new_array_length; lia.
    + simpl. lia.
    + exists st'. split_and!; [done|done|]. rewrite Hc. f_equal. unfold contents. simpl.
      rewrite take_app_le by (rewrite length_take; lia). rewrite take_take. f_equal. lia.
  - cbn [mbind option_bind]. by apply store_emits.
Qed.

Lemma L_eq : L = 192. Proof. done. Qed.
Lemma H_eq : H = 64. Proof. done. Qed.

Lemma write_int_mb_emits junk k sum :
  (k <= 4)%nat -> is_u (8 + 6 * Z.of_nat k) sum ->
  emits (fun st => Write.write_int_mb_loop junk k sum st) (unsigned5 k sum).
Proof.
  assert (forall x, is_u 8 x -> u8 x = x) as Hu8 by (intros; by apply wrapu_id).
  revert sum. induction k as [|k IH]; intros sum Hk Hsum;
    cbn [Write.write_int_mb_loop unsigned5].
  { rewrite Hu8, Z.eqb_refl by done. apply write_emits. }
  unfold is_u in Hsum. rewrite L_eq, H_eq. case_decide as Hlt.
  - rewrite Hu8 by int_lia. rewrite Z.eqb_refl. settle_tests. apply write_emits.
  - replace (sum <? 192) with false by lia.
    assert (2 ^ (8 + 6 * Z.of_nat (S k)) <= 2 ^ 32) by (apply Z.pow_le_mono_r; lia).
    replace (8 + 6 * Z.of_nat (S k)) with (6 + (8 + 6 * Z.of_nat k)) in * by lia.
    rewrite Z.pow_add_r in * by lia.
    change lg_H with 6. rewrite (wrapu_id 32), Hu8, Z.shiftr_div_pow2 by int_lia.
    apply (emits_bind _ _ [_]); [apply write_emits|].
    apply IH; [lia|]. unfold is_u. pow2_norm. int_lia.
Qed.

Lemma write_int_emits junk v : emits (fun st => Write.write_int junk st v) (word_bytes (u32 v)).
Proof.
  pose proof (wrapu_range 32 v ltac:(lia)) as Hv.
  intros st Hok Hpos. unfold Write.write_int. rewrite L_eq.
  destruct (Z.ltb_spec (u32 v) 192) as [Hlt|Hge]; cbn [andb].
  - destruct (Write.full st) eqn:Hfull; cbn [negb].
    + by apply write_int_mb_emits.
    + rewrite word_bytes_eq, decide_True by done.
      replace (u32 v) with (u8 v) by int_lia. apply store_emits; [done|].
      unfold Write.full in Hfull. lia.
  - by apply write_int_mb_emits.
Qed.

Lemma read_parses b : parses Read.read [b] b.
Proof.
  intros pre suf. unfold Read.read, Read.set_position. simpl.
  rewrite load_app_mid. cbn [mbind option_bind]. rewrite length_app. simpl.
  do 3 f_equal. lia.
Qed.

(** A high byte carries six bits of payload. *)
Lemma high_byte v :
  192 <= v ->
  192 <= 192 + (v - 192) mod 64 < 256 /\ 0 <= (v - 192) / 64 /\
  v = 192 + (v - 192) mod 64 + 64 * ((v - 192) / 64).
Proof. intros Hv. int_lia. Qed.

Lemma read_int_mb_loop_S k st buf i sum lg :
  Read.read_int_mb_loop (S k) st buf i sum lg =
    (b_i ← load (Read._buffer st) (buf + (i + 1));
     let sum := s32 (sum + s32 (b_i ≪ lg)) in
     if (b_i <? L) || (k =? 0)%nat then Some (sum, Read.set_position st (buf + (i + 1) + 1))
     else Read.read_int_mb_loop k st buf (i + 1) sum (lg + lg_H)).
Proof. done. Qed.

(** The bytes after the first one of a multi-byte word. *)
Lemma read_int_mb_loop_spec k v pre suf p buf i sum lg :
  0 <= v -> 0 <= lg -> zlen pre = buf + i + 1 ->
  Read.read_int_mb_loop (S k)
    {| Read._buffer := pre ++ unsigned5 k v ++ suf; Read._position := p |} buf i sum lg =
  Some (s32 (sum + v * 2 ^ lg),
        {| Read._buffer := pre ++ unsigned5 k v ++ suf;
           Read._position := zlen (pre ++ unsigned5 k v) |}).
Proof.
  revert v pre i sum lg. induction k as [|k IH]; intros v pre i sum lg Hv Hlg Hpre.
  - cbn [Read.read_int_mb_loop unsigned5 Read._buffer app].
    rewrite load_app_at by lia. cbn [mbind option_bind].
    rewrite wraps_add_r, Z.shiftl_mul_pow2, orb_true_r by lia.
    unfold Read.set_position. simpl. rewrite length_app. simpl. do 3 f_equal. lia.
  - rewrite read_int_mb_loop_S. cbn [Read._buffer unsigned5]. rewrite L_eq.
    case_decide as Hlt.
    + cbn [app]. rewrite load_app_at by lia. cbn [mbind option_bind].
      rewrite wraps_add_r, Z.shiftl_mul_pow2 by lia. settle_tests.
      unfold Read.set_position. simpl. rewrite length_app. simpl. do 3 f_equal. lia.
    + destruct (high_byte v ltac:(lia)) as (Hb & Hq & Hvq). revert Hb Hq Hvq.
      generalize (192 + (v - 192) mod 64) as b, ((v - 192) / 64) as q. intros b q Hb Hq Hvq.
      cbn [app]. rewrite load_app_at by lia. cbn [mbind option_bind].
      replace (b <? 192) with false by int_lia. cbn [orb Nat.eqb].
      rewrite (cons_middle b pre), (app_assoc pre [b]).
      rewrite IH by (rewrite ?length_app; simpl; int_lia).
      rewrite wraps_add_r, wraps_add_l by lia.
      rewrite Z.shiftl_mul_pow2, Z.pow_add_r by lia.
      rewrite <- !app_assoc. do 3 f_equal. change (2 ^ lg_H) with 64. rewrite Hvq. lia.
Qed.

Lemma read_int_parses v : is_u 32 v -> parses Read.read_int (word_bytes v) (s32 v).
Proof.
  intros Hv pre suf. rewrite word_bytes_eq. unfold Read.read_int. case_decide as Hlt.
  - rewrite read_parses. cbn [mbind option_bind]. rewrite L_eq. settle_tests.
    by rewrite wraps_id by int_lia.
  - destruct (high_byte v ltac:(lia)) as (Hb & Hq & Hvq). revert Hb Hq Hvq.
    generalize (192 + (v - 192) mod 64) as b, ((v - 192) / 64) as q. intros b q Hb Hq Hvq.
    set (bs := unsigned5 3 _).
    pose proof (read_parses b pre (bs ++ suf)) as Hr.
    cbn [app] in *. rewrite Hr. cbn [mbind option_bind].
    rewrite L_eq. replace (b <? 192) with false by int_lia.
    unfold Read.read_int_mb. cbn [Read._buffer Read._position].
    rewrite load_app_at by (rewrite length_app; simpl; lia). cbn [mbind option_bind].
    rewrite Z.eqb_refl, L_eq. replace (b >=? 192) with true by int_lia. cbn [andb].
    rewrite (cons_middle b pre), (app_assoc pre [b]). unfold MAX_i, bs.
    rewrite read_int_mb_loop_spec by (rewrite ?length_app; simpl; int_lia).
    rewrite <- !app_assoc. do 4 f_equal. change (2 ^ lg_H) with 64. lia.
Qed.

(** ** The coding of each type

    A codec is what the two stream classes offer for one type; [codec_ok] is
    the contract between them. *)

Record codec := {
  cod_valid : Z -> Prop;
  cod_bytes : Z -> list Z;
  cod_write : (nat -> Z) -> Write.stream -> Z -> option Write.stream;
  cod_read : Read.stream -> option (Z * Read.stream)
}.

Class codec_ok (c : codec) : Prop := {
  cod_emits : forall junk v, cod_valid c v ->
    emits (fun st => cod_write c junk st v) (cod_bytes c v);
  cod_parses : forall v, cod_valid c v -> parses (cod_read c) (cod_bytes c v) v;
  cod_short : forall v, zlen (cod_bytes c v) <= 10
}.

Definition bool_codec := {| cod_valid := is_u 8; cod_bytes v := [u8 v];
  cod_write := Write.write_bool; cod_read := Read.read_bool |}.
Definition byte_codec := {| cod_valid := is_s 8; cod_bytes v := [u8 v];
  cod_write := Write.write_byte; cod_read := Read.read_byte |}.
Definition char_codec := {| cod_valid := is_u 16; cod_bytes v := word_bytes (u32 v);
  cod_write := Write.write_char; cod_read := Read.read_char |}.
Definition short_codec := {| cod_valid := is_s 16; cod_bytes v := word_bytes (encode_sign v);
  cod_write := Write.write_short; cod_read := Read.read_short |}.
Definition int_codec := {| cod_valid := is_s 32; cod_bytes v := word_bytes (u32 v);
  cod_write := Write.write_int; cod_read := Read.read_int |}.
Definition signed_int_codec := {| cod_valid := is_s 32; cod_bytes v := word_bytes (encode_sign v);
  cod_write := Write.write_signed_int; cod_read := Read.read_signed_int |}.
Definition float_codec := {| cod_valid := is_s 32; cod_bytes v := word_bytes (reverse_int (u32 v));
  cod_write := Write.write_float; cod_read := Read.read_float |}.
Definition double_codec := {| cod_valid := is_s 64;
  cod_bytes v := word_bytes (reverse_int (u32 (high v))) ++ word_bytes (reverse_int (u32 (low v)));
  cod_write := Write.write_double; cod_read := Read.read_double |}.
Definition long_codec := {| cod_valid := is_s 64;
  cod_bytes v := word_bytes (encode_sign (low v)) ++ word_bytes (encode_sign (high v));
  cod_write := Write.write_long; cod_read := Read.read_long |}.

Lemma word_bytes_short v : zlen (word_bytes v) <= 5.
Proof. pose proof (unsigned5_length 4 v). unfold word_bytes. lia. Qed.

Lemma reverse_u32_range v : is_u 32 (reverse_int (u32 v)).
Proof. auto using reverse_int_range, wrapu_range with lia. Qed.

#[local] Hint Resolve encode_sign_range reverse_u32_range : ints.

(** Writing the [jint] image of an unsigned word writes that word. *)
Lemma write_word_emits junk u :
  is_u 32 u -> emits (fun st => Write.write_int junk st (s32 u)) (word_bytes u).
Proof.
  intros Hu. pose proof (write_int_emits junk (s32 u)) as He.
  rewrite wrapu_wraps, wrapu_id in He by (done || lia). done.
Qed.

Lemma write_signed_int_emits junk v :
  emits (fun st => Write.write_signed_int junk st v) (word_bytes (encode_sign v)).
Proof. apply write_word_emits. auto with ints. Qed.

(** Reading a transformed word back through its [jint] image. *)
Lemma read_word_parses {A} (h : Z -> A) u :
  is_u 32 u -> parses (fun st => '(v, st) ← Read.read_int st; Some (h (u32 v), st)) (word_bytes u) (h u).
Proof.
  intros Hu. pose proof (parses_ret _ _ (fun v => h (u32 v)) _ (read_int_parses u Hu)) as Hp.
  cbv beta in Hp. rewrite wrapu_wraps, wrapu_id in Hp by (done || lia). done.
Qed.

Lemma read_signed_int_parses v :
  is_s 32 v -> parses Read.read_signed_int (word_bytes (encode_sign v)) v.
Proof.
  intros Hv. pose proof (read_word_parses decode_sign _ (encode_sign_range v)) as Hp.
  rewrite decode_encode_sign in Hp by done. done.
Qed.

Lemma reverse_reverse_u32 v : reverse_int (reverse_int (u32 v)) = u32 v.
Proof. auto using reverse_int_involutive, wrapu_range with lia. Qed.

Ltac codec_simpl :=
  cbv beta iota delta [cod_valid cod_bytes cod_write cod_read bool_codec byte_codec char_codec
    short_codec int_codec signed_int_codec float_codec double_codec long_codec].

#[export] Instance bool_codec_ok : codec_ok bool_codec.
Proof.
  split; codec_simpl.
  - intros junk v _. apply write_emits.
  - intros v Hv. rewrite wrapu_id by done. apply read_parses.
  - simpl. lia.
Qed.

#[export] Instance byte_codec_ok : codec_ok byte_codec.
Proof.
  split; codec_simpl.
  - intros junk v _. apply write_emits.
  - intros v Hv. pose proof (parses_ret _ _ s8 _ (read_parses (u8 v))) as Hp.
    rewrite wraps_wrapu, wraps_id in Hp by (done || lia). done.
  - simpl. lia.
Qed.

#[export] Instance char_codec_ok : codec_ok char_codec.
Proof.
  split; codec_simpl.
  - intros junk v _. apply write_int_emits.
  - intros v Hv. assert (u32 v = v) as -> by (apply wrapu_id; int_lia).
    pose proof (parses_ret _ _ u16 _ (read_int_parses v ltac:(int_lia))) as Hp.
    rewrite wraps_id, wrapu_id in Hp by (done || int_lia). done.
  - intros v. pose proof (word_bytes_short (u32 v)). lia.
Qed.

#[export] Instance short_codec_ok : codec_ok short_codec.
Proof.
  split; codec_simpl.
  - intros junk v _. apply write_signed_int_emits.
  - intros v Hv. pose proof (parses_ret _ _ s16 _ (read_signed_int_parses v ltac:(int_lia))) as Hp.
    rewrite wraps_id in Hp by (done || lia). done.
  - intros v. pose proof (word_bytes_short (encode_sign v)). lia.
Qed.

#[export] Instance int_codec_ok : codec_ok int_codec.
Proof.
  split; codec_simpl.
  - intros junk v _. apply write_int_emits.
  - intros v Hv. pose proof (read_int_parses (u32 v) ltac:(auto with ints lia)) as Hp.
    rewrite wraps_wrapu, wraps_id in Hp by (done || lia). done.
  - intros v. pose proof (word_bytes_short (u32 v)). lia.
Qed.

#[export] Instance signed_int_codec_ok : codec_ok signed_int_codec.
Proof.
  split; codec_simpl.
  - intros junk v _. apply write_signed_int_emits.
  - intros v Hv. by apply read_signed_int_parses.
  - intros v. pose proof (word_bytes_short (encode_sign v)). lia.
Qed.

Lemma read_float_parses v :
  is_s 32 v -> parses Read.read_float (word_bytes (reverse_int (u32 v))) v.
Proof.
  intros Hv.
  pose proof (read_word_parses (fun r => s32 (reverse_int r)) _ (reverse_u32_range v)) as Hp.
  cbv beta in Hp. rewrite reverse_reverse_u32, wraps_wrapu, wraps_id in Hp by (done || lia). done.
Qed.

#[export] Instance float_codec_ok : codec_ok float_codec.
Proof.
  split; codec_simpl.
  - intros junk v _. unfold Write.write_float. rewrite reverse_reverse_u32, Z.eqb_refl.
    apply write_word_emits. auto with ints.
  - intros v Hv. by apply read_float_parses.
  - intros v. pose proof (word_bytes_short (reverse_int (u32 v))). lia.
Qed.

(** A [double] is read as two reversed words, the high one first. *)
Lemma read_double_floats st :
  ('(h, st) ← Read.read_float st; '(l, st) ← Read.read_float st; Some (jlong_from h l, st)) =
  Read.read_double st.
Proof.
  unfold Read.read_double, Read.read_float.
  destruct (Read.read_int st) as [[rh st']|]; [|done]. cbn [mbind option_bind].
  destruct (Read.read_int st') as [[rl st'']|]; cbn [mbind option_bind]; reflexivity.
Qed.

#[export] Instance double_codec_ok : codec_ok double_codec.
Proof.
  split; codec_simpl.
  - intros junk v _. unfold Write.write_double. rewrite !reverse_reverse_u32, !Z.eqb_refl.
    cbn [andb]. apply emits_bind; apply write_word_emits; auto with ints.
  - intros v Hv. eapply parses_ext; [apply read_double_floats|].
    rewrite <- (jlong_from_high_low v) at 3 by done.
    apply (parses_bind Read.read_float (high v)
      (fun h st => '(l, st) ← Read.read_float st; Some (jlong_from h l, st)));
      [|apply (parses_ret _ (low v))]; apply read_float_parses; auto with ints.
  - intros v. rewrite length_app. pose proof (word_bytes_short (reverse_int (u32 (high v)))).
    pose proof (word_bytes_short (reverse_int (u32 (low v)))). lia.
Qed.

#[export] Instance long_codec_ok : codec_ok long_codec.
Proof.
  split; codec_simpl.
  - intros junk v _. apply emits_bind; apply write_signed_int_emits.
  - intros v Hv. pose proof (parses_bind _ _ (fun l st => '(h, st) ← Read.read_signed_int st;
      Some (jlong_from h l, st)) _ _ _ (read_signed_int_parses (low v) ltac:(auto with ints))
      (parses_ret _ _ (fun h => jlong_from h (low v)) _
        (read_signed_int_parses (high v) ltac:(auto with ints)))) as Hp.
    rewrite jlong_from_high_low in Hp by done. done.
  - intros v. rewrite length_app. pose proof (word_bytes_short (encode_sign (low v))).
    pose proof (word_bytes_short (encode_sign (high v))). lia.
Qed.

(** ** Sequences of values of any types *)

Inductive kind :=
  KBool | KByte | KChar | KShort | KInt | KSignedInt | KFloat | KDouble | KLong.

Definition codec_of (t : kind) : codec :=
  match t with
  | KBool => bool_codec | KByte => byte_codec | KChar => char_codec | KShort => short_codec
  | KInt => int_codec | KSignedInt => signed_int_codec | KFloat => float_codec
  | KDouble => double_codec | KLong => long_codec
  end.

#[export] Instance codec_of_ok t : codec_ok (codec_of t).
Proof. destruct t; apply _. Qed.

Abbreviation item := (kind * Z)%type.

Definition valid_item (x : item) : Prop := cod_valid (codec_of x.1) x.2.

Definition item_bytes (x : item) : list Z := cod_bytes (codec_of x.1) x.2.

Fixpoint write_all (junk : nat -> Z) (xs : list item) (st : Write.stream) : option Write.stream :=
  match xs with
  | [] => Some st
  | (t, v) :: xs => st ← cod_write (codec_of t) junk st v; write_all junk xs st
  end.

Fixpoint read_all (ts : list kind) (st : Read.stream) : option (list Z * Read.stream) :=
  match ts with
  | [] => Some ([], st)
  | t :: ts =>
      '(v, st) ← cod_read (codec_of t) st;
      '(vs, st) ← read_all ts st;
      Some (v :: vs, st)
  end.

(** The unit test at the end of compressedStream.cpp: write a set of critical
    values, then read them back and count the differences. *)
Module Test.

Definition stretch_limit : Z := (1 ≪ 16) * (64 - 16 + 1).

Definition stretch (x bits : Z) : Z :=
  let h := s64 ((x ≫ (16 - 4)) ≪ (bits - 4)) in
  let l := s64 (x ≪ (64 - 12)) ≫ (64 - 12) in
  let l := s64 (l ≪ (x ≫ 16)) in
  h ^^^ l.

(** The three writing loops, each value with the type it is written as. *)
Definition test_items (limit : Z) : list item :=
  ((fun n => (KByte, s8 n)) <$> seqZ 0 (1 ≪ 8)) ++
  (seqZ 0 limit ≫= fun n =>
     let x := s32 (stretch n 32) in [(KInt, x); (KSignedInt, x); (KFloat, x)]) ++
  (seqZ 0 limit ≫= fun n => let x := stretch n 64 in [(KLong, x); (KDouble, x)]).

Definition count_fails (xs ys : list Z) : Z :=
  zlen (filter (fun p => p.1 <> p.2) (zip xs ys)).

(** Returns [fails], [length] and [length2]. *)
Definition test_compressed_stream (junk : nat -> Z) : option (Z * Z * Z) :=
  let items := test_items stretch_limit in
  bytes ← write_all junk items (Write.create junk (stretch_limit * 100));
  let length := Write._position bytes in
  '(ys, decode) ← read_all items.*1 {| Read._buffer := Write._buffer bytes; Read._position := 0 |};
  Some (count_fails items.*2 ys, length, Read._position decode).

End Test.

Lemma write_all_emits junk xs :
  Forall valid_item xs -> emits (write_all junk xs) (xs ≫= item_bytes).
Proof.
  induction 1 as [|[t v] xs Hv Hxs IH].
  - intros st Hok _. exists st. split_and!; [done|done|]. by rewrite app_nil_r.
  - apply (emits_bind (fun st => cod_write (codec_of t) junk st v)); [|apply IH].
    by apply cod_emits.
Qed.

Lemma read_all_parses xs :
  Forall valid_item xs -> parses (read_all xs.*1) (xs ≫= item_bytes) xs.*2.
Proof.
  induction 1 as [|[t v] xs Hv Hxs IH].
  - intros pre suf. cbn. by rewrite app_nil_r.
  - refine (parses_bind (cod_read (codec_of t)) v
      (fun v st => '(vs, st) ← read_all xs.*1 st; Some (v :: vs, st)) (v :: xs.*2)
      (item_bytes (t, v)) (mbind (M := list) item_bytes xs) _ _).
    + by apply cod_parses.
    + by apply (parses_ret _ xs.*2).
Qed.

Lemma items_short xs : zlen (xs ≫= item_bytes) <= 10 * zlen xs.
Proof.
  induction xs as [|x xs IH]; [done|]. cbn [mbind list_bind length].
  rewrite length_app. pose proof (cod_short x.2 (c := codec_of x.1)).
  change (cod_bytes (codec_of x.1) x.2) with (item_bytes x) in *. lia.
Qed.

Lemma create_ok junk n : 0 < n -> stream_ok (Write.create junk n) /\ contents (Write.create junk n) = [].
Proof. intros Hn. split; [split; simpl; rewrite ?new_array_length; lia|]. done. Qed.

Lemma streams_roundtrip junk n xs :
  0 < n -> 10 * zlen xs <= 2 ^ 30 -> Forall valid_item xs ->
  exists st, write_all junk xs (Write.create junk n) = Some st /\
    read_all xs.*1 {| Read._buffer := Write._buffer st; Read._position := 0 |} =
      Some (xs.*2, {| Read._buffer := Write._buffer st; Read._position := Write._position st |}).
Proof.
  intros Hn Hlen Hv. pose proof (items_short xs).
  destruct (create_ok junk n Hn) as [Hok Hc].
  destruct (write_all_emits junk xs Hv _ Hok) as (st & E & Hok' & Hc'); [simpl; lia|].
  exists st. split; [done|]. rewrite Hc in Hc'. simpl in Hc'.
  pose proof (read_all_parses xs Hv [] (drop (Z.to_nat (Write._position st)) (Write._buffer st)))
    as Hp.
  pose proof (contents_length st Hok') as Hpos. rewrite Hc' in Hpos. rewrite <- Hc' in Hp.
  unfold contents in Hp at 1 2. simpl_nil Hp. rewrite take_drop in Hp. rewrite Hp.
  rewrite Hc', Hpos. done.
Qed.

Lemma stretch_range x bits : is_s 64 (Test.stretch x bits).
Proof. apply is_s_lxor; auto with ints lia. all: apply wraps_range; lia. Qed.

Lemma test_items_valid limit : Forall valid_item (Test.test_items limit).
Proof.
  unfold Test.test_items. rewrite !Forall_app, Forall_fmap, !Forall_bind. split_and!.
  - apply Forall_true. intros n. apply wraps_range. lia.
  - apply Forall_true. intros n. assert (is_s 32 (s32 (Test.stretch n 32)))
      by (apply wraps_range; lia).
    cbv [compose]. rewrite !Forall_cons. split_and!; done.
  - apply Forall_true. intros n. pose proof (stretch_range n 64).
    cbv [compose]. rewrite !Forall_cons. split_and!; done.
Qed.

Lemma bind_length_const {A B} (f : A -> list B) k l :
  (forall x, length (f x) = k) -> length (l ≫= f) = (k * length l)%nat.
Proof.
  intros Hf. induction l as [|x l IH]; [simpl; lia|].
  change ((x :: l) ≫= f) with (f x ++ (l ≫= f)). rewrite length_app, Hf, IH. simpl. lia.
Qed.

Lemma test_items_length limit :
  0 <= limit -> zlen (Test.test_items limit) = 256 + 5 * limit.
Proof.
  intros Hl. unfold Test.test_items. rewrite !length_app, length_fmap.
  rewrite (bind_length_const _ 3), (bind_length_const _ 2) by done.
  rewrite !length_seqZ. change (1 ≪ 8) with 256. lia.
Qed.

Lemma count_fails_same xs : Test.count_fails xs xs = 0.
Proof.
  unfold Test.count_fails. induction xs as [|x xs IH]; [done|].
  cbn [zip zip_with]. rewrite filter_cons_False; [done|]. simpl. by intros [].
Qed.

(** * Properties *)

(** C10: whatever sequence of booleans, bytes, chars, shorts, ints, floats,
    doubles and longs is written to a compressed stream, through any number of
    buffer growths, reading the same types back from the start of the buffer
    gives the same values and ends at the writer's position. *)
Theorem compressed_roundtrip (junk : nat -> Z) (initial_size : Z) (xs : list item) :
  0 < initial_size -> 10 * zlen xs <= 2 ^ 30 -> Forall valid_item xs ->
  exists st, write_all junk xs (Write.create junk initial_size) = Some st /\
    read_all xs.*1 {| Read._buffer := Write._buffer st; Read._position := 0 |} =
      Some (xs.*2, {| Read._buffer := Write._buffer st; Read._position := Write._position st |}).
Proof. apply streams_roundtrip. Qed.

Lemma compressed_roundtrip_witness :
  exists st,
    write_all (fun _ => 170) [(KInt, -1); (KLong, - 2 ^ 63); (KChar, 65535); (KFloat, 0x40490fdb)]
      (Write.create (fun _ => 170) 1) = Some st /\
    read_all [KInt; KLong; KChar; KFloat]
      {| Read._buffer := Write._buffer st; Read._position := 0 |} =
      Some ([-1; - 2 ^ 63; 65535; 0x40490fdb],
            {| Read._buffer := Write._buffer st; Read._position := Write._position st |}).
Proof.
  apply (compressed_roundtrip (fun _ => 170) 1
    [(KInt, -1); (KLong, - 2 ^ 63); (KChar, 65535); (KFloat, 0x40490fdb)]);
    [lia|vm_compute; congruence|].
  repeat constructor; vm_compute; congruence.
Defined.

(** The word codings lose nothing.  [encode_sign] and [decode_sign] are
    inverse bijections between [jint] and [juint] that send small magnitudes to
    small codes, and [reverse_int] is its own inverse and reverses the 32
    bits. *)
Theorem word_codings :
  (forall v, is_s 32 v ->
     is_u 32 (encode_sign v) /\ decode_sign (encode_sign v) = v /\
     encode_sign v <= 2 * Z.abs v) /\
  (forall u, is_u 32 u -> is_s 32 (decode_sign u) /\ encode_sign (decode_sign u) = u) /\
  (forall i, is_u 32 i ->
     reverse_int (reverse_int i) = i /\
     forall k, 0 <= k < 32 -> Z.testbit (reverse_int i) k = Z.testbit i (31 - k)).
Proof.
  split_and!.
  - intros v Hv. split_and!; [apply encode_sign_range|by apply decode_encode_sign|].
    rewrite encode_sign_zigzag by done. case_decide; lia.
  - intros u Hu. split; [apply wraps_range; lia|by apply encode_decode_sign].
  - intros i Hi. split; [by apply reverse_int_involutive|]. intros k Hk.
    by apply reverse_int_spec.
Qed.

(** The stress test at the end of compressedStream.cpp always ends with no
    difference found and with the reader at the writer's position, so that
    neither of its guarantees can fail. *)
Theorem test_compressed_stream_passes (junk : nat -> Z) :
  exists length, Test.test_compressed_stream junk = Some (0, length, length).
Proof.
  pose proof (test_items_length Test.stretch_limit ltac:(done)) as Hlen.
  destruct (streams_roundtrip junk (Test.stretch_limit * 100) (Test.test_items Test.stretch_limit))
    as (st & Hw & Hr); [done| |apply test_items_valid|].
  - rewrite Hlen. vm_compute. congruence.
  - exists (Write._position st). unfold Test.test_compressed_stream. rewrite Hw.
    cbn [mbind option_bind]. rewrite Hr. cbn [mbind option_bind].
    by rewrite count_fails_same.
Qed.
