(* ===== verification/BitMap.v ===== *)
(** Bit maps: [src/share/vm/utilities/bitMap.hpp], [bitMap.inline.hpp] and
    [bitMap.cpp], with 64-bit words ([uintptr_t] on LP64).

    [_map] is the array of words, [_size] the number of bits.  Assertions of
    the debug build are part of the model, so that "the operation returns"
    also says that none of them fails. *)

From S2P Require Import Prelude GlobalDefinitions.

(** * Definitions *)

Record BitMap := mkBitMap { _map : list Z; _size : Z }.

Inductive RangeSizeHint := unknown_range | small_range | large_range.

#[export] Instance RangeSizeHint_eq_dec : EqDecision RangeSizeHint.
Proof. solve_decision. Defined.

(** ** Index arithmetic *)

Definition bit_in_word (bit : Z) : Z := bit &&& (BitsPerWord - 1).
Definition bit_mask (bit : Z) : Z := u64 (1 ≪ bit_in_word bit).
Definition word_index (bit : Z) : Z := bit ≫ LogBitsPerWord.
Definition bit_index (word : Z) : Z := u64 (word ≪ LogBitsPerWord).
Definition size_in_words (bm : BitMap) : Z := word_index (u64 (_size bm + BitsPerWord - 1)).

Definition verify_index (bm : BitMap) (index : Z) : bool := index <? _size bm.

Definition verify_range (bm : BitMap) (beg_index end_index : Z) : bool :=
  (beg_index <=? end_index) &&
  (if negb (end_index =? _size bm) then verify_index bm end_index else true).

(** ** Single bits *)

Definition set_map (bm : BitMap) (m : list Z) : BitMap := mkBitMap m (_size bm).

(** [*word_addr(bit) = f( *word_addr(bit))] *)
Definition update_word (bm : BitMap) (bit : Z) (f : Z -> Z) : option BitMap :=
  w ← load (_map bm) (word_index bit);
  m ← store (_map bm) (word_index bit) (f w);
  Some (set_map bm m).

Definition at_ (bm : BitMap) (index : Z) : option bool :=
  ASSERT verify_index bm index ;;
  w ← load (_map bm) (word_index index);
  Some (negb ((w &&& bit_mask index) =? 0)).

Definition set_bit (bm : BitMap) (bit : Z) : option BitMap :=
  ASSERT verify_index bm bit ;;
  update_word bm bit (fun w => w ||| bit_mask bit).

Definition clear_bit (bm : BitMap) (bit : Z) : option BitMap :=
  ASSERT verify_index bm bit ;;
  update_word bm bit (fun w => w &&& u64 (Z.lnot (bit_mask bit))).

Definition at_put (bm : BitMap) (offset : Z) (value : bool) : option BitMap :=
  if value then set_bit bm offset else clear_bit bm offset.

(** ** Ranges within one word *)

Definition inverted_bit_mask_for_range (beg end_ : Z) : option Z :=
  ASSERT negb (end_ =? 0) ;;
  ASSERT (beg =? end_) || (word_index beg =? word_index (end_ - 1)) ;;
  let mask := u64 (bit_mask beg - 1) in
  Some (if negb (bit_in_word end_ =? 0)
        then mask ||| u64 (Z.lnot (u64 (bit_mask end_ - 1)))
        else mask).

Definition set_range_within_word (bm : BitMap) (beg end_ : Z) : option BitMap :=
  if negb (beg =? end_) then
    mask ← inverted_bit_mask_for_range beg end_;
    update_word bm beg (fun w => w ||| u64 (Z.lnot mask))
  else Some bm.

Definition clear_range_within_word (bm : BitMap) (beg end_ : Z) : option BitMap :=
  if negb (beg =? end_) then
    mask ← inverted_bit_mask_for_range beg end_;
    update_word bm beg (fun w => w &&& mask)
  else Some bm.

(** [Atomic::cmpxchg_ptr(exchange_value, dest, compare_value)] on word [i]. *)
Definition cmpxchg_ptr (m : list Z) (exchange_value i compare_value : Z)
    : option (Z * list Z) :=
  cur ← load m i;
  if cur =? compare_value then
    m ← store m i exchange_value;
    Some (cur, m)
  else Some (cur, m).

(** Run by one thread: no other thread writes between the read and the
    compare-and-exchange, so that one round of fuel is enough. *)
Fixpoint par_put_loop (fuel : nat) (m : list Z) (pw mr : Z) (value : bool) (w nw : Z)
    : option (list Z) :=
  match fuel with
  | O => None
  | S fuel =>
      '(res, m) ← cmpxchg_ptr m nw pw w;
      if res =? w then Some m
      else
        w ← load m pw;
        par_put_loop fuel m pw mr value w
          (if value then w ||| u64 (Z.lnot mr) else w &&& mr)
  end.

Definition par_put_range_within_word (bm : BitMap) (beg end_ : Z) (value : bool)
    : option BitMap :=
  if negb (beg =? end_) then
    w ← load (_map bm) (word_index beg);
    mr ← inverted_bit_mask_for_range beg end_;
    let nw := if value then w ||| u64 (Z.lnot mr) else w &&& mr in
    m ← par_put_loop 1 (_map bm) (word_index beg) mr value w nw;
    Some (set_map bm m)
  else Some bm.

(** ** Atomic updates of one bit

    The bodies of the compare-and-exchange loops of [par_set_bit] and
    [par_clear_bit], which differ in [new_val_of]; here they are run by one
    thread, and BitMapPar interleaves them. *)

Definition set_new_val (bit old_val : Z) : Z := old_val ||| bit_mask bit.
Definition clear_new_val (bit old_val : Z) : Z := old_val &&& u64 (Z.lnot (bit_mask bit)).

Fixpoint par_bit_loop (fuel : nat) (m : list Z) (addr : Z) (new_val_of : Z -> Z)
    (old_val : Z) : option (bool * list Z) :=
  match fuel with
  | O => None
  | S fuel =>
      let new_val := new_val_of old_val in
      if new_val =? old_val then Some (false, m)
      else
        '(cur_val, m) ← cmpxchg_ptr m new_val addr old_val;
        if cur_val =? old_val then Some (true, m)
        else par_bit_loop fuel m addr new_val_of cur_val
  end.

Definition par_set_bit (bm : BitMap) (bit : Z) : option (bool * BitMap) :=
  ASSERT verify_index bm bit ;;
  old_val ← load (_map bm) (word_index bit);
  '(res, m) ← par_bit_loop 1 (_map bm) (word_index bit) (set_new_val bit) old_val;
  Some (res, set_map bm m).

Definition par_clear_bit (bm : BitMap) (bit : Z) : option (bool * BitMap) :=
  ASSERT verify_index bm bit ;;
  old_val ← load (_map bm) (word_index bit);
  '(res, m) ← par_bit_loop 1 (_map bm) (word_index bit) (clear_new_val bit) old_val;
  Some (res, set_map bm m).

Definition par_at_put (bm : BitMap) (bit : Z) (value : bool) : option (bool * BitMap) :=
  if value then par_set_bit bm bit else par_clear_bit bm bit.

(** ** Ranges of words *)

Fixpoint fill_words (m : list Z) (i : Z) (n : nat) (v : Z) : option (list Z) :=
  match n with
  | O => Some m
  | S n => m ← store m i v; fill_words m (i + 1) n v
  end.

Definition set_range_of_words (bm : BitMap) (beg end_ : Z) : option BitMap :=
  m ← fill_words (_map bm) beg (Z.to_nat (end_ - beg)) (u64 (Z.lnot 0));
  Some (set_map bm m).

Definition clear_range_of_words (bm : BitMap) (beg end_ : Z) : option BitMap :=
  m ← fill_words (_map bm) beg (Z.to_nat (end_ - beg)) 0;
  Some (set_map bm m).

(** [memset(_map + beg, c, bytes)] of whole words: each of their eight bytes is
    [c]; it is undefined unless the words lie in the array. *)
Definition memset_words (m : list Z) (beg c bytes : Z) : option (list Z) :=
  if beg + bytes / 8 <=? zlen m
  then fill_words m beg (Z.to_nat (bytes / 8)) (u8 c * 0x0101010101010101)
  else None.

Definition set_large_range_of_words (bm : BitMap) (beg end_ : Z) : option BitMap :=
  m ← memset_words (_map bm) beg (u8 (Z.lnot 0)) (u64 (u64 (end_ - beg) * 8));
  Some (set_map bm m).

Definition clear_large_range_of_words (bm : BitMap) (beg end_ : Z) : option BitMap :=
  m ← memset_words (_map bm) beg 0 (u64 (u64 (end_ - beg) * 8));
  Some (set_map bm m).

(** ** Ranges of bits *)

Definition word_index_round_up (bm : BitMap) (bit : Z) : Z :=
  let bit_rounded_up := u64 (bit + (BitsPerWord - 1)) in
  if bit_rounded_up >? bit then word_index bit_rounded_up else size_in_words bm.

Definition set_range (bm : BitMap) (beg end_ : Z) : option BitMap :=
  ASSERT verify_range bm beg end_ ;;
  let beg_full_word := word_index_round_up bm beg in
  let end_full_word := word_index end_ in
  if beg_full_word <? end_full_word then
    bm ← set_range_within_word bm beg (bit_index beg_full_word);
    bm ← set_range_of_words bm beg_full_word end_full_word;
    set_range_within_word bm (bit_index end_full_word) end_
  else
    let boundary := MIN2 (bit_index beg_full_word) end_ in
    bm ← set_range_within_word bm beg boundary;
    set_range_within_word bm boundary end_.

Definition clear_range (bm : BitMap) (beg end_ : Z) : option BitMap :=
  ASSERT verify_range bm beg end_ ;;
  let beg_full_word := word_index_round_up bm beg in
  let end_full_word := word_index end_ in
  if beg_full_word <? end_full_word then
    bm ← clear_range_within_word bm beg (bit_index beg_full_word);
    bm ← clear_range_of_words bm beg_full_word end_full_word;
    clear_range_within_word bm (bit_index end_full_word) end_
  else
    let boundary := MIN2 (bit_index beg_full_word) end_ in
    bm ← clear_range_within_word bm beg boundary;
    clear_range_within_word bm boundary end_.

Definition set_large_range (bm : BitMap) (beg end_ : Z) : option BitMap :=
  ASSERT verify_range bm beg end_ ;;
  let beg_full_word := word_index_round_up bm beg in
  let end_full_word := word_index end_ in
  ASSERT (u64 (end_full_word - beg_full_word) >=? 32) ;;
  bm ← set_range_within_word bm beg (bit_index beg_full_word);
  bm ← set_large_range_of_words bm beg_full_word end_full_word;
  set_range_within_word bm (bit_index end_full_word) end_.

Definition clear_large_range (bm : BitMap) (beg end_ : Z) : option BitMap :=
  ASSERT verify_range bm beg end_ ;;
  let beg_full_word := word_index_round_up bm beg in
  let end_full_word := word_index end_ in
  ASSERT (u64 (end_full_word - beg_full_word) >=? 32) ;;
  bm ← clear_range_within_word bm beg (bit_index beg_full_word);
  bm ← clear_large_range_of_words bm beg_full_word end_full_word;
  clear_range_within_word bm (bit_index end_full_word) end_.

Definition at_put_range (bm : BitMap) (start_offset end_offset : Z) (value : bool)
    : option BitMap :=
  if value then set_range bm start_offset end_offset
  else clear_range bm start_offset end_offset.

Definition par_at_put_range (bm : BitMap) (beg end_ : Z) (value : bool) : option BitMap :=
  ASSERT verify_range bm beg end_ ;;
  let beg_full_word := word_index_round_up bm beg in
  let end_full_word := word_index end_ in
  if beg_full_word <? end_full_word then
    bm ← par_put_range_within_word bm beg (bit_index beg_full_word) value;
    bm ← (if value then set_range_of_words bm beg_full_word end_full_word
          else clear_range_of_words bm beg_full_word end_full_word);
    par_put_range_within_word bm (bit_index end_full_word) end_ value
  else
    let boundary := MIN2 (bit_index beg_full_word) end_ in
    bm ← par_put_range_within_word bm beg boundary value;
    par_put_range_within_word bm boundary end_ value.

Definition at_put_large_range (bm : BitMap) (beg end_ : Z) (value : bool) : option BitMap :=
  if value then set_large_range bm beg end_ else clear_large_range bm beg end_.

Definition par_at_put_large_range (bm : BitMap) (beg end_ : Z) (value : bool)
    : option BitMap :=
  ASSERT verify_range bm beg end_ ;;
  let beg_full_word := word_index_round_up bm beg in
  let end_full_word := word_index end_ in
  ASSERT (u64 (end_full_word - beg_full_word) >=? 32) ;;
  bm ← par_put_range_within_word bm beg (bit_index beg_full_word) value;
  bm ← (if value then set_large_range_of_words bm beg_full_word end_full_word
        else clear_large_range_of_words bm beg_full_word end_full_word);
  par_put_range_within_word bm (bit_index end_full_word) end_ value.

(** [set_range(beg, end, hint)] and [clear_range(beg, end, hint)] *)
Definition set_range_hint (bm : BitMap) (beg end_ : Z) (hint : RangeSizeHint)
    : option BitMap :=
  if bool_decide (hint = small_range) && (u64 (end_ - beg) =? 1) then set_bit bm beg
  else if bool_decide (hint = large_range) then set_large_range bm beg end_
  else set_range bm beg end_.

Definition clear_range_hint (bm : BitMap) (beg end_ : Z) (hint : RangeSizeHint)
    : option BitMap :=
  if bool_decide (hint = small_range) && (u64 (end_ - beg) =? 1) then clear_bit bm beg
  else if bool_decide (hint = large_range) then clear_large_range bm beg end_
  else clear_range bm beg end_.

(** [par_set_range(beg, end, hint)] and [par_clear_range(beg, end, hint)] *)
Definition par_set_range (bm : BitMap) (beg end_ : Z) (hint : RangeSizeHint)
    : option BitMap :=
  if bool_decide (hint = small_range) && (u64 (end_ - beg) =? 1)
  then '(_, bm) ← par_at_put bm beg true; Some bm
  else if bool_decide (hint = large_range) then par_at_put_large_range bm beg end_ true
  else par_at_put_range bm beg end_ true.

Definition par_clear_range (bm : BitMap) (beg end_ : Z) (hint : RangeSizeHint)
    : option BitMap :=
  if bool_decide (hint = small_range) && (u64 (end_ - beg) =? 1)
  then '(_, bm) ← par_at_put bm beg false; Some bm
  else if bool_decide (hint = large_range) then par_at_put_large_range bm beg end_ false
  else par_at_put_range bm beg end_ false.

Definition clear (bm : BitMap) : option BitMap :=
  clear_range_of_words bm 0 (size_in_words bm).

Definition clear_large (bm : BitMap) : option BitMap :=
  clear_large_range_of_words bm 0 (size_in_words bm).

(** ** Construction and resizing; [junk] is what allocated memory holds *)

Definition create (junk : nat -> Z) (size_in_bits : Z) : BitMap :=
  mkBitMap (new_array junk (size_in_words (mkBitMap [] size_in_bits))) size_in_bits.

Definition resize (junk : nat -> Z) (bm : BitMap) (size_in_bits : Z) : option BitMap :=
  let old_size_in_words := size_in_words bm in
  let old_map := _map bm in
  let new_size_in_words := size_in_words (mkBitMap [] size_in_bits) in
  new_map ← memcpy (new_array junk new_size_in_words) old_map
              (MIN2 old_size_in_words new_size_in_words);
  let bm := mkBitMap new_map size_in_bits in
  if new_size_in_words >? old_size_in_words
  then clear_range_of_words bm old_size_in_words (size_in_words bm)
  else Some bm.

Definition at_put_grow (junk : nat -> Z) (bm : BitMap) (offset : Z) (value : bool)
    : option BitMap :=
  bm ← (if offset >=? _size bm then resize junk bm (u64 (2 * MAX2 (_size bm) offset))
        else Some bm);
  at_put bm offset value.

(** * The bits of a map *)

(** Bit [i] of an array of words; false outside it. *)
Definition bit (m : list Z) (i : Z) : bool :=
  match load m (i / 64) with Some w => Z.testbit w (i mod 64) | None => false end.

Record wf (bm : BitMap) : Prop := {
  wf_size : 0 <= _size bm <= 2 ^ 64 - 64;
  wf_length : zlen (_map bm) = (_size bm + 63) / 64;
  wf_words : Forall (is_u 64) (_map bm)
}.

(** [updates bm o f]: the operation [o] on [bm] returns, keeps the size and the
    well-formedness, and changes each bit [b] at [i] to [f i b]. *)
Definition updates (bm : BitMap) (o : option BitMap) (f : Z -> bool -> bool) : Prop :=
  exists bm', o = Some bm' /\ wf bm' /\ _size bm' = _size bm /\
    forall i, 0 <= i < 64 * zlen (_map bm) -> bit (_map bm') i = f i (bit (_map bm) i).

(** Put [value] into [beg, end). *)
Definition put (beg end_ : Z) (value : bool) (i : Z) (b : bool) : bool :=
  if decide (beg <= i < end_) then value else b.

Lemma word_index_eq b : word_index b = b / 64.
Proof. unfold word_index. by rewrite Z.shiftr_div_pow2. Qed.

Lemma bit_in_word_eq b : bit_in_word b = b mod 64.
Proof. apply (land_ones_mod b 6). lia. Qed.

Lemma bit_mask_eq b : bit_mask b = 2 ^ (b mod 64).
Proof.
  unfold bit_mask. rewrite bit_in_word_eq, Z.shiftl_1_l, wrapu_id; [done|].
  split; [apply Z.pow_nonneg; lia|]. apply Z.pow_lt_mono_r; int_lia.
Qed.

Lemma bit_index_eq w : 0 <= w < 2 ^ 58 -> bit_index w = 64 * w.
Proof.
  intros Hw. unfold bit_index. rewrite Z.shiftl_mul_pow2 by done.
  change (2 ^ LogBitsPerWord) with 64. rewrite wrapu_id; int_lia.
Qed.

Lemma size_in_words_eq bm : 0 <= _size bm <= 2 ^ 64 - 64 -> size_in_words bm = (_size bm + 63) / 64.
Proof.
  intros Hs. unfold size_in_words. rewrite word_index_eq, wrapu_id by int_lia.
  f_equal. lia.
Qed.

Lemma wf_size_words bm : wf bm -> _size bm <= 64 * zlen (_map bm) < _size bm + 64.
Proof. intros [? Hl ?]. rewrite Hl. int_lia. Qed.

Lemma bit_load m w k :
  0 <= k < 64 -> bit m (64 * w + k) = match load m w with Some x => Z.testbit x k | None => false end.
Proof.
  intros Hk. unfold bit. replace ((64 * w + k) / 64) with w by int_lia.
  by replace ((64 * w + k) mod 64) with k by int_lia.
Qed.

Lemma wf_set_map bm m :
  wf bm -> length m = length (_map bm) -> Forall (is_u 64) m -> wf (set_map bm m).
Proof. intros [? ? ?] Hl Hm. split; simpl; [done|congruence|done]. Qed.

Lemma updates_ext bm o f g :
  wf bm -> (forall i b, 0 <= i < 64 * zlen (_map bm) -> f i b = g i b) ->
  updates bm o f -> updates bm o g.
Proof.
  intros Hwf E (bm' & Ho & Hwf' & Hs & Hb). exists bm'. split_and!; [done..|].
  intros i Hi. rewrite Hb by done. by apply E.
Qed.

Lemma updates_bind bm o k f g :
  wf bm -> updates bm o f ->
  (forall bm', wf bm' -> _size bm' = _size bm -> updates bm' (k bm') g) ->
  updates bm (o ≫= k) (fun i b => g i (f i b)).
Proof.
  intros Hwf (bm1 & -> & Hwf1 & Hs1 & Hb1) Hk.
  destruct (Hk bm1 Hwf1 Hs1) as (bm2 & E2 & Hwf2 & Hs2 & Hb2).
  exists bm2. cbn [mbind option_bind]. split_and!; [done|done|congruence|].
  intros i Hi. rewrite Hb2, Hb1; [done|done|].
  destruct Hwf, Hwf1. congruence.
Qed.

Lemma updates_ret bm : wf bm -> updates bm (Some bm) (fun _ b => b).
Proof. intros Hwf. by exists bm. Qed.

(** ** One word *)

Lemma update_word_spec bm b fw g :
  wf bm -> 0 <= b < 64 * zlen (_map bm) ->
  (forall w, is_u 64 w -> is_u 64 (fw w)) ->
  (forall w k, is_u 64 w -> 0 <= k < 64 -> Z.testbit (fw w) k = g k (Z.testbit w k)) ->
  updates bm (update_word bm b fw)
    (fun i v => if decide (i / 64 = b / 64) then g (i mod 64) v else v).
Proof.
  intros Hwf Hb Hrange Hbits. unfold update_word. rewrite word_index_eq.
  assert (0 <= b / 64 < zlen (_map bm)) as Hin by int_lia.
  destruct (load_is_Some _ _ Hin) as [w Hw]. rewrite Hw. cbn [mbind option_bind].
  destruct (store_is_Some _ _ (fw w) Hin) as [m' Hm']. rewrite Hm'. cbn [mbind option_bind].
  pose proof (load_Forall _ _ _ _ (wf_words _ Hwf) Hw) as Hwr.
  exists (set_map bm m'). split_and!; [done| |done|].
  - apply wf_set_map; [done|by eapply store_length|].
    eapply store_Forall; [apply (wf_words _ Hwf)| |done]. auto.
  - intros i Hi. unfold bit. simpl. rewrite (load_store _ _ _ _ _ Hm').
    case_decide as E1; case_decide as E2; try (exfalso; congruence).
    + rewrite <- E1, Hw. apply Hbits; [done|int_lia].
    + done.
Qed.

Lemma is_u_lnot x : is_u 64 (u64 (Z.lnot x)).
Proof. apply wrapu_range. lia. Qed.

Lemma testbit_not x k : 0 <= k < 64 -> Z.testbit (u64 (Z.lnot x)) k = negb (Z.testbit x k).
Proof. intros Hk. unfold wrapu. by rewrite Z.mod_pow2_bits_low, Z.lnot_spec by lia. Qed.

Lemma bit_mask_pred b : u64 (bit_mask b - 1) = Z.ones (b mod 64).
Proof.
  rewrite bit_mask_eq, Z.ones_equiv, wrapu_id; [done|].
  assert (1 <= 2 ^ (b mod 64)) by (pose proof (Z.pow_pos_nonneg 2 (b mod 64)); int_lia).
  assert (2 ^ (b mod 64) < 2 ^ 64) by (apply Z.pow_lt_mono_r; int_lia). int_lia.
Qed.

Lemma testbit_ones n k : 0 <= n -> 0 <= k -> Z.testbit (Z.ones n) k = bool_decide (k < n).
Proof.
  intros Hn Hk. case_bool_decide; [apply Z.ones_spec_low|apply Z.ones_spec_high]; lia.
Qed.

(** The mask is zero exactly on the positions of the range. *)
Lemma inverted_mask_spec beg end_ :
  0 <= beg < end_ -> beg / 64 = (end_ - 1) / 64 ->
  exists mask, inverted_bit_mask_for_range beg end_ = Some mask /\ is_u 64 mask /\
    forall k, 0 <= k < 64 ->
      Z.testbit mask k = bool_decide (~ (beg <= 64 * (beg / 64) + k < end_)).
Proof.
  intros Hlt Hw. unfold inverted_bit_mask_for_range. rewrite !word_index_eq, bit_in_word_eq.
  settle_tests. rewrite !bit_mask_pred. eexists. split; [done|].
  assert (forall b, is_u 64 (Z.ones (b mod 64))) as Hones
    by (intros b; rewrite <- bit_mask_pred; apply wrapu_range; lia).
  destruct (Z.eqb_spec (end_ mod 64) 0) as [He|He]; cbn [negb].
  - split; [done|]. intros k Hk. rewrite testbit_ones by int_lia.
    apply bool_decide_ext. int_lia.
  - split; [apply is_u_lor; auto using is_u_lnot with lia|]. intros k Hk.
    rewrite Z.lor_spec, testbit_not, !testbit_ones by int_lia.
    repeat case_bool_decide; try done; exfalso; int_lia.
Qed.

(** The word operations of the two kinds of update, [value] in the positions
    where the mask is zero. *)
Definition masked_put (value : bool) (mask w : Z) : Z :=
  if value then w ||| u64 (Z.lnot mask) else w &&& mask.

Lemma masked_put_range value mask w :
  is_u 64 mask -> is_u 64 w -> is_u 64 (masked_put value mask w).
Proof. destruct value; simpl; auto using is_u_lnot with ints lia. Qed.

Lemma masked_put_testbit value mask w k :
  0 <= k < 64 ->
  Z.testbit (masked_put value mask w) k = if Z.testbit mask k then Z.testbit w k else value.
Proof.
  intros Hk. destruct value; simpl.
  - rewrite Z.lor_spec, testbit_not by done. destruct (Z.testbit mask k), (Z.testbit w k); done.
  - rewrite Z.land_spec. destruct (Z.testbit mask k), (Z.testbit w k); done.
Qed.

Lemma put_empty b value i v : put b b value i v = v.
Proof. unfold put. case_decide; [lia|done]. Qed.

Lemma masked_put_updates bm beg end_ value mask :
  wf bm -> 0 <= beg < end_ -> end_ <= 64 * zlen (_map bm) ->
  beg / 64 = (end_ - 1) / 64 -> inverted_bit_mask_for_range beg end_ = Some mask ->
  updates bm (update_word bm beg (masked_put value mask)) (put beg end_ value).
Proof.
  intros Hwf Hlt Hle Hw Emask.
  destruct (inverted_mask_spec beg end_ Hlt Hw) as (mask' & E & Hm & Hbits).
  rewrite Emask in E. injection E as <-.
  eapply updates_ext; [done| |apply (update_word_spec bm beg (masked_put value mask)
    (fun k v => if Z.testbit mask k then v else value)); [done|lia| |]].
  - intros i b Hi. unfold put. simpl. case_decide as Ei.
    + rewrite Hbits, <- Ei by int_lia.
      case_bool_decide as E1; case_decide as E2; try done; exfalso; int_lia.
    + case_decide; [exfalso; int_lia|done].
  - intros w. by apply masked_put_range.
  - intros w k _. by apply masked_put_testbit.
Qed.

(** ** The two kinds of update within a word *)

Definition range_within_word (value : bool) (bm : BitMap) (beg end_ : Z) : option BitMap :=
  if value then set_range_within_word bm beg end_ else clear_range_within_word bm beg end_.

Definition in_one_word (beg end_ : Z) : Prop := beg = end_ \/ beg / 64 = (end_ - 1) / 64.

Definition within_ok (value : bool) (within : BitMap -> Z -> Z -> option BitMap) : Prop :=
  forall bm beg end_, wf bm -> 0 <= beg <= end_ -> end_ <= 64 * zlen (_map bm) ->
    in_one_word beg end_ -> updates bm (within bm beg end_) (put beg end_ value).

Lemma range_within_word_ok value : within_ok value (range_within_word value).
Proof.
  intros bm beg end_ Hwf Hlt Hle Hw. unfold range_within_word.
  destruct (Z.eqb_spec beg end_) as [->|Hne].
  { eapply updates_ext; [done| |destruct value; unfold set_range_within_word,
      clear_range_within_word; rewrite Z.eqb_refl; by apply updates_ret].
    intros. by rewrite put_empty. }
  destruct Hw as [|Hw]; [done|].
  destruct (inverted_mask_spec beg end_ ltac:(lia) Hw) as (mask & E & _).
  assert (updates bm (update_word bm beg (masked_put value mask)) (put beg end_ value)) as Hu
    by (apply masked_put_updates; [done|lia|done..]).
  destruct value; unfold set_range_within_word, clear_range_within_word; settle_tests;
    rewrite E; exact Hu.
Qed.

Lemma par_put_range_within_word_eq bm beg end_ value :
  par_put_range_within_word bm beg end_ value = range_within_word value bm beg end_
  \/ par_put_range_within_word bm beg end_ value = None.
Proof.
  unfold par_put_range_within_word, range_within_word, set_range_within_word,
    clear_range_within_word, update_word.
  destruct (beg =? end_); [left; by destruct value|]. cbn [negb].
  destruct (load _ _) as [w|] eqn:Hw; cbn [mbind option_bind]; [|by right].
  destruct (inverted_bit_mask_for_range _ _) as [mr|]; cbn [mbind option_bind]; [|by right].
  simpl. unfold cmpxchg_ptr. rewrite Hw. cbn [mbind option_bind]. rewrite Z.eqb_refl.
  left. destruct value; cbn [mbind option_bind];
    destruct (store _ _ _); cbn [mbind option_bind]; try done; by rewrite Z.eqb_refl.
Qed.

Lemma par_put_range_within_word_ok value :
  within_ok value (fun bm beg end_ => par_put_range_within_word bm beg end_ value).
Proof.
  intros bm beg end_ Hwf Hlt Hle Hw.
  pose proof (range_within_word_ok value bm beg end_ Hwf Hlt Hle Hw) as Hu.
  destruct (par_put_range_within_word_eq bm beg end_ value) as [->|E]; [done|].
  exfalso. destruct Hw as [->|Hw].
  { unfold par_put_range_within_word in E. by rewrite Z.eqb_refl in E. }
  revert E. unfold par_put_range_within_word.
  destruct (Z.eqb_spec beg end_) as [|]; [done|]. cbn [negb]. rewrite word_index_eq.
  destruct (load_is_Some (_map bm) (beg / 64) ltac:(int_lia)) as [w Hl]. rewrite Hl.
  destruct (inverted_mask_spec beg end_ ltac:(lia) Hw) as (mask & -> & _).
  cbn [mbind option_bind]. simpl. unfold cmpxchg_ptr. rewrite Hl. cbn [mbind option_bind].
  rewrite Z.eqb_refl.
  destruct (store_is_Some (_map bm) (beg / 64)
    (if value then w ||| u64 (Z.lnot mask) else w &&& mask) ltac:(int_lia)) as [m ->].
  cbn [mbind option_bind]. by rewrite Z.eqb_refl.
Qed.

(** ** Ranges of words *)

Lemma fill_words_spec n : forall m i v,
  0 <= i -> i + Z.of_nat n <= zlen m ->
  exists m', fill_words m i n v = Some m' /\ length m' = length m /\
    forall j, load m' j = if decide (i <= j < i + Z.of_nat n) then Some v else load m j.
Proof.
  induction n as [|n IH]; intros m i v Hi Hn.
  - exists m. split_and!; [done..|]. intros j. case_decide; [lia|done].
  - simpl. destruct (store_is_Some m i v ltac:(lia)) as [m1 E1]. rewrite E1.
    cbn [mbind option_bind]. pose proof (store_length _ _ _ _ E1) as Hl1.
    destruct (IH m1 (i + 1) v ltac:(lia) ltac:(lia)) as (m' & E' & Hl & Hload).
    exists m'. split_and!; [done|congruence|]. intros j. rewrite Hload, (load_store _ _ _ _ _ E1).
    repeat case_decide; try done; exfalso; lia.
Qed.

Definition words_ok (value : bool) (words : BitMap -> Z -> Z -> option BitMap) : Prop :=
  forall bm beg end_, wf bm -> 0 <= beg <= end_ -> end_ <= zlen (_map bm) ->
    updates bm (words bm beg end_) (put (64 * beg) (64 * end_) value).

Definition value_word (value : bool) : Z := if value then 2 ^ 64 - 1 else 0.

Lemma value_word_testbit value k : 0 <= k < 64 -> Z.testbit (value_word value) k = value.
Proof.
  intros Hk. destruct value; simpl; [|apply Z.testbit_0_l].
  apply (Z.ones_spec_low 64). lia.
Qed.

Lemma fill_updates bm beg n value :
  wf bm -> 0 <= beg -> beg + Z.of_nat n <= zlen (_map bm) ->
  updates bm (m ← fill_words (_map bm) beg n (value_word value); Some (set_map bm m))
    (put (64 * beg) (64 * (beg + Z.of_nat n)) value).
Proof.
  intros Hwf Hb Hn. destruct (fill_words_spec n (_map bm) beg (value_word value) Hb Hn)
    as (m' & E & Hl & Hload).
  rewrite E. cbn [mbind option_bind]. exists (set_map bm m'). split_and!; [done| |done|].
  - apply wf_set_map; [done|done|]. apply Forall_lookup. intros j w Hj.
    rewrite <- load_nat, Hload in Hj. case_decide.
    + injection Hj as <-. destruct value; unfold is_u; simpl; lia.
    + by eapply load_Forall; [apply wf_words|].
  - intros i Hi. unfold bit, put. simpl. rewrite Hload.
    case_decide; case_decide; try (exfalso; int_lia); [|done].
    apply value_word_testbit. int_lia.
Qed.

Lemma range_of_words_ok value :
  words_ok value (if value then set_range_of_words else clear_range_of_words).
Proof.
  intros bm beg end_ Hwf Hb He.
  pose proof (fill_updates bm beg (Z.to_nat (end_ - beg)) value Hwf ltac:(lia) ltac:(lia)) as Hu.
  replace (beg + Z.of_nat (Z.to_nat (end_ - beg))) with end_ in Hu by lia.
  destruct value; exact Hu.
Qed.

Lemma wf_zlen_bound bm : wf bm -> 0 <= zlen (_map bm) < 2 ^ 58.
Proof. intros [? Hl ?]. rewrite Hl. int_lia. Qed.

Lemma memset_words_eq m beg (value : bool) n :
  0 <= n < 2 ^ 58 -> beg + n <= zlen m ->
  memset_words m beg (if value then 255 else 0) (u64 (u64 n * 8))
  = fill_words m beg (Z.to_nat n) (value_word value).
Proof.
  intros Hn Hb. unfold memset_words. rewrite (wrapu_id 64 n), wrapu_id by int_lia.
  rewrite Z.div_mul by done. settle_tests. by destruct value.
Qed.

Lemma large_range_of_words_ok value :
  words_ok value (if value then set_large_range_of_words else clear_large_range_of_words).
Proof.
  intros bm beg end_ Hwf Hb He. pose proof (wf_zlen_bound bm Hwf).
  pose proof (range_of_words_ok value bm beg end_ Hwf Hb He) as Hu.
  pose proof (memset_words_eq (_map bm) beg value (end_ - beg) ltac:(lia) ltac:(lia)) as E.
  destruct value; unfold set_large_range_of_words, clear_large_range_of_words;
    (rewrite E; exact Hu) || (change (u8 (Z.lnot 0)) with 255; rewrite E; exact Hu).
Qed.

(** Called with a negative number of words, [memset] runs out of the map. *)
Lemma large_range_of_words_negative (value : bool) bm w :
  wf bm -> 0 <= w ->
  (if value then set_large_range_of_words else clear_large_range_of_words) bm (w + 1) w = None.
Proof.
  intros Hwf Hw. pose proof (wf_zlen_bound bm Hwf).
  assert (forall c, memset_words (_map bm) (w + 1) c (u64 (u64 (w - (w + 1)) * 8)) = None) as E.
  { intros c. unfold memset_words. replace (w - (w + 1)) with (-1) by lia.
    change (u64 (u64 (-1) * 8) / 8) with (2 ^ 61 - 1).
    replace (w + 1 + (2 ^ 61 - 1) <=? zlen (_map bm)) with false; [done|].
    symmetry. apply Z.leb_gt. int_lia. }
  destruct value; unfold set_large_range_of_words, clear_large_range_of_words; by rewrite E.
Qed.

(** ** Ranges of bits: a partial word, whole words, a partial word *)

Lemma word_index_round_up_eq bm b :
  wf bm -> 0 <= b <= _size bm -> word_index_round_up bm b = (b + 63) / 64.
Proof.
  intros [Hs _ _] Hb. unfold word_index_round_up.
  rewrite wrapu_id by int_lia. settle_tests. rewrite word_index_eq. done.
Qed.

Lemma verify_range_true bm beg end_ :
  0 <= beg <= end_ -> end_ <= _size bm -> verify_range bm beg end_ = true.
Proof.
  intros. unfold verify_range, verify_index. replace (beg <=? end_) with true by lia.
  by destruct (Z.eqb_spec end_ (_size bm)); cbn [negb andb]; [|apply Z.ltb_lt; lia].
Qed.

Lemma put_put a b c value i v :
  a <= b <= c -> put b c value i (put a b value i v) = put a c value i v.
Proof. intros. unfold put. repeat case_decide; (done || (exfalso; lia)). Qed.

Section range_split.
Context (value : bool) (within words : BitMap -> Z -> Z -> option BitMap).
Hypothesis within_spec : within_ok value within.
Hypothesis words_spec : words_ok value words.

Lemma split_words_ok bm beg end_ :
  wf bm -> 0 <= beg -> end_ <= _size bm -> (beg + 63) / 64 <= end_ / 64 ->
  updates bm
    (bm ← within bm beg (bit_index ((beg + 63) / 64));
     bm ← words bm ((beg + 63) / 64) (end_ / 64);
     within bm (bit_index (end_ / 64)) end_)
    (put beg end_ value).
Proof using within_spec words_spec.
  intros Hwf Hb He Hfull. pose proof (wf_size bm Hwf).
  rewrite !bit_index_eq by int_lia.
  eapply updates_ext; [done| |apply updates_bind with
    (f := put beg (64 * ((beg + 63) / 64)) value) (g := fun i b => put (64 * (end_ / 64)) end_ value i
       (put (64 * ((beg + 63) / 64)) (64 * (end_ / 64)) value i b)); [done| |]].
  - intros i b _. simpl. by rewrite !put_put by int_lia.
  - pose proof (wf_size_words bm Hwf). apply within_spec; [done|int_lia|int_lia|].
    unfold in_one_word. int_lia.
  - intros bm1 Hwf1 Hs1. pose proof (wf_size_words bm1 Hwf1).
    apply updates_bind; [done|apply words_spec; [done|int_lia|int_lia]|].
    intros bm2 Hwf2 Hs2. pose proof (wf_size_words bm2 Hwf2).
    apply within_spec; [done|int_lia|int_lia|unfold in_one_word; int_lia].
Qed.

Lemma split_boundary_ok bm beg end_ :
  wf bm -> 0 <= beg <= end_ -> end_ <= _size bm -> end_ / 64 <= (beg + 63) / 64 ->
  updates bm
    (let boundary := MIN2 (bit_index ((beg + 63) / 64)) end_ in
     bm ← within bm beg boundary; within bm boundary end_)
    (put beg end_ value).
Proof using within_spec.
  intros Hwf Hb He Hfull. pose proof (wf_size bm Hwf). pose proof (wf_size_words bm Hwf).
  rewrite bit_index_eq, MIN2_min by int_lia. cbv zeta.
  assert (beg <= Z.min (64 * ((beg + 63) / 64)) end_ <= end_) by int_lia.
  eapply updates_ext; [done| |apply updates_bind with
    (f := put beg (Z.min (64 * ((beg + 63) / 64)) end_) value)
    (g := put (Z.min (64 * ((beg + 63) / 64)) end_) end_ value); [done| |]].
  - intros i b _. simpl. by apply put_put.
  - apply within_spec; [done|lia|lia|]. unfold in_one_word. int_lia.
  - intros bm1 Hwf1 Hs1. pose proof (wf_size_words bm1 Hwf1).
    apply within_spec; [done|lia|lia|]. unfold in_one_word. int_lia.
Qed.

Lemma range_ok bm beg end_ :
  wf bm -> 0 <= beg <= end_ -> end_ <= _size bm ->
  updates bm
    (ASSERT verify_range bm beg end_ ;;
     let beg_full_word := word_index_round_up bm beg in
     let end_full_word := word_index end_ in
     if beg_full_word <? end_full_word then
       bm ← within bm beg (bit_index beg_full_word);
       bm ← words bm beg_full_word end_full_word;
       within bm (bit_index end_full_word) end_
     else
       let boundary := MIN2 (bit_index beg_full_word) end_ in
       bm ← within bm beg boundary;
       within bm boundary end_)
    (put beg end_ value).
Proof using within_spec words_spec.
  intros Hwf Hb He. rewrite verify_range_true by done.
  rewrite word_index_round_up_eq, word_index_eq by (done || lia). cbv zeta.
  destruct (Z.ltb_spec ((beg + 63) / 64) (end_ / 64)).
  - apply split_words_ok; auto with lia.
  - by apply split_boundary_ok.
Qed.

Lemma large_ok bm beg end_ :
  wf bm -> 0 <= beg -> end_ <= _size bm -> (beg + 63) / 64 + 32 <= end_ / 64 ->
  updates bm
    (ASSERT verify_range bm beg end_ ;;
     let beg_full_word := word_index_round_up bm beg in
     let end_full_word := word_index end_ in
     ASSERT (u64 (end_full_word - beg_full_word) >=? 32) ;;
     bm ← within bm beg (bit_index beg_full_word);
     bm ← words bm beg_full_word end_full_word;
     within bm (bit_index end_full_word) end_)
    (put beg end_ value).
Proof using within_spec words_spec.
  intros Hwf Hb He Hl. pose proof (wf_size bm Hwf).
  rewrite verify_range_true, word_index_round_up_eq, word_index_eq by (done || int_lia).
  cbv zeta. rewrite wrapu_id by int_lia.
  replace (end_ / 64 - (beg + 63) / 64 >=? 32) with true by lia.
  apply split_words_ok; [done..|lia].
Qed.

(** With fewer whole words the assertion fails, but for a range inside one word:
    there the unsigned difference is -1, and [words] is called with it. *)
Hypothesis words_negative : forall bm w, wf bm -> 0 <= w -> words bm (w + 1) w = None.

Lemma large_short bm beg end_ :
  wf bm -> 0 <= beg <= end_ -> end_ <= _size bm -> end_ / 64 < (beg + 63) / 64 + 32 ->
  (ASSERT verify_range bm beg end_ ;;
   let beg_full_word := word_index_round_up bm beg in
   let end_full_word := word_index end_ in
   ASSERT (u64 (end_full_word - beg_full_word) >=? 32) ;;
   bm ← within bm beg (bit_index beg_full_word);
   bm ← words bm beg_full_word end_full_word;
   within bm (bit_index end_full_word) end_) = None.
Proof using within_spec words_negative.
  intros Hwf Hb He Hs. pose proof (wf_size bm Hwf). pose proof (wf_size_words bm Hwf).
  rewrite verify_range_true, word_index_round_up_eq, word_index_eq by (done || int_lia). cbv zeta.
  destruct (decide ((beg + 63) / 64 <= end_ / 64)) as [Hle|Hgt].
  { rewrite wrapu_id by int_lia. by replace (end_ / 64 - (beg + 63) / 64 >=? 32) with false by lia. }
  assert ((beg + 63) / 64 = end_ / 64 + 1) as Eb by int_lia. rewrite Eb.
  replace (end_ / 64 - (end_ / 64 + 1)) with (-1) by lia. change (u64 (-1) >=? 32) with true.
  rewrite (bit_index_eq (end_ / 64 + 1)) by int_lia.
  destruct (within_spec bm beg (64 * (end_ / 64 + 1))) as (bm1 & -> & Hwf1 & _);
    [done|int_lia|int_lia|unfold in_one_word; int_lia|].
  simpl. by rewrite words_negative by (done || int_lia).
Qed.
End range_split.

(** ** Single bits *)

Lemma bit_mask_testbit b k : 0 <= k -> Z.testbit (bit_mask b) k = bool_decide (k = b mod 64).
Proof.
  intros Hk. rewrite bit_mask_eq. case_bool_decide as E.
  - subst. apply Z.pow2_bits_true. int_lia.
  - apply Z.pow2_bits_false. lia.
Qed.

Lemma bit_mask_range b : is_u 64 (bit_mask b).
Proof. apply wrapu_range. lia. Qed.

Lemma at_spec bm i : wf bm -> 0 <= i < _size bm -> at_ bm i = Some (bit (_map bm) i).
Proof.
  intros Hwf Hi. pose proof (wf_size_words bm Hwf). unfold at_, verify_index, bit.
  replace (i <? _size bm) with true by lia. rewrite word_index_eq.
  destruct (load_is_Some (_map bm) (i / 64) ltac:(int_lia)) as [w Hw]. rewrite Hw.
  cbn [mbind option_bind]. f_equal. rewrite bit_mask_eq.
  destruct (Z.testbit w (i mod 64)) eqn:E.
  - apply negb_true_iff, Z.eqb_neq. intros E0.
    assert (Z.testbit (w &&& 2 ^ (i mod 64)) (i mod 64) = true) as E1
      by (rewrite Z.land_spec, E, Z.pow2_bits_true by int_lia; done).
    rewrite E0, Z.testbit_0_l in E1. done.
  - apply negb_false_iff, Z.eqb_eq, Z.bits_inj'. intros k Hk.
    rewrite Z.land_spec, Z.testbit_0_l, Z.pow2_bits_eqb by int_lia.
    destruct (Z.eqb_spec (i mod 64) k) as [<-|]; [by rewrite E|apply andb_false_r].
Qed.

Lemma at_put_ok bm b value :
  wf bm -> 0 <= b < _size bm -> updates bm (at_put bm b value) (put b (b + 1) value).
Proof.
  intros Hwf Hb. pose proof (wf_size_words bm Hwf).
  assert (updates bm (update_word bm b (fun w => if value then w ||| bit_mask b
            else w &&& u64 (Z.lnot (bit_mask b)))) (put b (b + 1) value)) as Hu.
  { eapply updates_ext; [done| |apply (update_word_spec bm b _
      (fun k v => if bool_decide (k = b mod 64) then value else v)); [done|lia| |]].
    - intros i v Hi. unfold put. simpl. repeat (case_decide || case_bool_decide);
        try done; exfalso; int_lia.
    - intros w Hw. pose proof (bit_mask_range b). destruct value; auto with ints lia.
    - intros w k Hw Hk. simpl.
      destruct value; rewrite ?Z.lor_spec, ?Z.land_spec, ?testbit_not, ?bit_mask_testbit by lia;
        case_bool_decide; simpl; auto using orb_true_r, orb_false_r, andb_true_r, andb_false_r. }
  unfold at_put, set_bit, clear_bit, verify_index. replace (b <? _size bm) with true by lia.
  destruct value; exact Hu.
Qed.

Definition new_val_of (value : bool) (b : Z) : Z -> Z :=
  if value then set_new_val b else clear_new_val b.

Lemma new_val_range value b w : is_u 64 w -> is_u 64 (new_val_of value b w).
Proof.
  intros. pose proof (bit_mask_range b).
  destruct value; simpl; unfold set_new_val, clear_new_val; auto with ints lia.
Qed.

Lemma new_val_testbit value b w k :
  0 <= k < 64 ->
  Z.testbit (new_val_of value b w) k = if decide (k = b mod 64) then value else Z.testbit w k.
Proof.
  intros Hk. destruct value; simpl; unfold set_new_val, clear_new_val;
    rewrite ?Z.lor_spec, ?Z.land_spec, ?testbit_not, ?bit_mask_testbit by lia;
    case_bool_decide; case_decide; try done; simpl;
    auto using orb_true_r, orb_false_r, andb_true_r, andb_false_r.
Qed.

(** The new value is the old one exactly when the bit has the wanted value. *)
Lemma new_val_same value b w :
  is_u 64 w -> new_val_of value b w = w <-> Z.testbit w (b mod 64) = value.
Proof.
  intros Hw. split.
  - intros E. rewrite <- E, new_val_testbit by int_lia. by case_decide.
  - intros E. apply (bits_inj_u 64); [done|by apply new_val_range|done|].
    intros k Hk. rewrite new_val_testbit by done. case_decide; congruence.
Qed.

Lemma par_at_put_eq bm b value :
  wf bm -> 0 <= b < _size bm ->
  exists bm', at_put bm b value = Some bm' /\
    par_at_put bm b value = Some (negb (Bool.eqb (bit (_map bm) b) value), bm').
Proof.
  intros Hwf Hb. pose proof (wf_size_words bm Hwf) as Hsz.
  assert (0 <= b / 64 < zlen (_map bm)) as Hin by int_lia.
  destruct (load_is_Some _ _ Hin) as [w Hw].
  destruct (store_is_Some _ _ (new_val_of value b w) Hin) as [m Hm].
  pose proof (load_Forall _ _ _ _ (wf_words _ Hwf) Hw) as Hwr.
  exists (set_map bm m). split.
  { unfold at_put, set_bit, clear_bit, update_word, verify_index.
    replace (b <? _size bm) with true by lia.
    destruct value; rewrite word_index_eq, Hw; cbn [mbind option_bind];
      unfold new_val_of, set_new_val, clear_new_val in Hm; by rewrite Hm. }
  transitivity (old_val ← load (_map bm) (word_index b);
    '(res, m) ← par_bit_loop 1 (_map bm) (word_index b) (new_val_of value b) old_val;
    Some (res, set_map bm m)).
  { unfold par_at_put, par_set_bit, par_clear_bit, verify_index.
    replace (b <? _size bm) with true by lia. by destruct value. }
  rewrite word_index_eq, Hw. cbn [mbind option_bind]. simpl.
  unfold bit. rewrite Hw. destruct (Z.eqb_spec (new_val_of value b w) w) as [E|E].
  - rewrite E in Hm. rewrite (store_same _ _ _ _ Hw Hm).
    apply new_val_same in E; [|done]. rewrite E, eqb_reflx. done.
  - unfold cmpxchg_ptr. rewrite Hw. cbn [mbind option_bind]. rewrite Z.eqb_refl, Hm.
    cbn [mbind option_bind]. rewrite Z.eqb_refl. cbn [mbind option_bind].
    rewrite new_val_same in E by done.
    by destruct (Z.testbit w (b mod 64)), value.
Qed.

(** ** Every way to update a range *)

Lemma at_put_range_ok bm beg end_ value :
  wf bm -> 0 <= beg <= end_ -> end_ <= _size bm ->
  updates bm (at_put_range bm beg end_ value) (put beg end_ value).
Proof.
  intros Hwf Hb He.
  pose proof (range_ok value _ _ (range_within_word_ok value) (range_of_words_ok value)
    bm beg end_ Hwf Hb He) as Hu.
  destruct value; exact Hu.
Qed.

Lemma par_at_put_range_ok bm beg end_ value :
  wf bm -> 0 <= beg <= end_ -> end_ <= _size bm ->
  updates bm (par_at_put_range bm beg end_ value) (put beg end_ value).
Proof.
  intros Hwf Hb He.
  pose proof (range_ok value _ _ (par_put_range_within_word_ok value)
    (range_of_words_ok value) bm beg end_ Hwf Hb He) as Hu.
  destruct value; exact Hu.
Qed.

Definition large_enough (beg end_ : Z) : Prop := (beg + 63) / 64 + 32 <= end_ / 64.

Lemma at_put_large_range_ok bm beg end_ value :
  wf bm -> 0 <= beg -> end_ <= _size bm -> large_enough beg end_ ->
  updates bm (at_put_large_range bm beg end_ value) (put beg end_ value).
Proof.
  intros Hwf Hb He Hl.
  pose proof (large_ok value _ _ (range_within_word_ok value) (large_range_of_words_ok value)
    bm beg end_ Hwf Hb He Hl) as Hu.
  destruct value; exact Hu.
Qed.

Lemma par_at_put_large_range_ok bm beg end_ value :
  wf bm -> 0 <= beg -> end_ <= _size bm -> large_enough beg end_ ->
  updates bm (par_at_put_large_range bm beg end_ value) (put beg end_ value).
Proof.
  intros Hwf Hb He Hl.
  pose proof (large_ok value _ _ (par_put_range_within_word_ok value)
    (large_range_of_words_ok value) bm beg end_ Hwf Hb He Hl) as Hu.
  destruct value; exact Hu.
Qed.

Lemma at_put_large_range_short bm beg end_ value :
  wf bm -> 0 <= beg <= end_ -> end_ <= _size bm -> ~ large_enough beg end_ ->
  at_put_large_range bm beg end_ value = None /\ par_at_put_large_range bm beg end_ value = None.
Proof.
  intros Hwf Hb He Hl. unfold large_enough in Hl.
  pose proof (large_short value _ _ (range_within_word_ok value)
    (large_range_of_words_negative value) bm beg end_ Hwf Hb He ltac:(lia)) as H1.
  pose proof (large_short value _ _ (par_put_range_within_word_ok value)
    (large_range_of_words_negative value) bm beg end_ Hwf Hb He ltac:(lia)) as H2.
  destruct value; done.
Qed.

Lemma par_at_put_ok bm b value :
  wf bm -> 0 <= b < _size bm ->
  updates bm ('(_, bm) ← par_at_put bm b value; Some bm) (put b (b + 1) value).
Proof.
  intros Hwf Hb. pose proof (at_put_ok bm b value Hwf Hb) as Hu.
  destruct (par_at_put_eq bm b value Hwf Hb) as (bm' & E & ->). by rewrite E in Hu.
Qed.

(** The dispatch on the hint, for the plain and the atomic operations. *)
Definition hinted_put (par value : bool) : BitMap -> Z -> Z -> RangeSizeHint -> option BitMap :=
  match par, value with
  | false, true => set_range_hint
  | false, false => clear_range_hint
  | true, true => par_set_range
  | true, false => par_clear_range
  end.

Lemma hinted_put_eq par value bm beg end_ hint :
  hinted_put par value bm beg end_ hint =
  if bool_decide (hint = small_range) && (u64 (end_ - beg) =? 1)
  then (if par then '(_, bm) ← par_at_put bm beg value; Some bm else at_put bm beg value)
  else if bool_decide (hint = large_range)
  then (if par then par_at_put_large_range else at_put_large_range) bm beg end_ value
  else (if par then par_at_put_range else at_put_range) bm beg end_ value.
Proof. by destruct par, value. Qed.

(** C33: With each size hint, atomic or not, [set_range] and [clear_range]
    return without touching memory outside the map, keep it well formed, give
    every bit of the half-open range the wanted value and keep every other bit,
    those past [size()] in the last word included; the range for the large hint
    must have thirty-two whole words.  With the large hint a shorter range never
    gets through: the assertion fails or, for a range inside one word, where the
    unsigned number of whole words passes the assertion, [memset] leaves the map. *)
Theorem range_updates par value bm beg end_ hint :
  wf bm -> 0 <= beg <= end_ -> end_ <= _size bm ->
  (hint <> large_range \/ large_enough beg end_ ->
   updates bm (hinted_put par value bm beg end_ hint) (put beg end_ value)) /\
  (hint = large_range -> ~ large_enough beg end_ ->
   hinted_put par value bm beg end_ hint = None).
Proof.
  intros Hwf Hb He. rewrite hinted_put_eq. pose proof (wf_size bm Hwf). split.
  2: { intros -> Hs. simpl. destruct (at_put_large_range_short bm beg end_ value Hwf Hb He Hs) as [H1 H2].
       by destruct par. }
  intros Hl. destruct (bool_decide (hint = small_range) && (u64 (end_ - beg) =? 1)) eqn:Es.
  - apply andb_true_iff in Es as [_ E1%Z.eqb_eq]. rewrite wrapu_id in E1 by int_lia.
    replace end_ with (beg + 1) by lia.
    destruct par; [apply par_at_put_ok|apply at_put_ok]; (done || lia).
  - clear Es. case_bool_decide as Eh.
    + destruct Hl as [|Hl]; [done|].
      destruct par; [apply par_at_put_large_range_ok|apply at_put_large_range_ok]; auto; lia.
    + destruct par; [by apply par_at_put_range_ok|by apply at_put_range_ok].
Qed.

Lemma range_updates_witness :
  exists bm, updates bm (hinted_put true true bm 5 2200 large_range) (put 5 2200 true) /\
    hinted_put false false bm 5 9 large_range = None.
Proof.
  exists (mkBitMap (replicate 35 0) 2240).
  assert (wf (mkBitMap (replicate 35 0) 2240)) as Hwf
    by (split; [simpl; lia|done|apply Forall_replicate; unfold is_u; lia]).
  split; apply range_updates; try exact Hwf; try (simpl; lia); try done.
  - right. unfold large_enough. vm_compute. done.
  - intros H. vm_compute in H. by apply H.
Defined.

(** ** Clearing and resizing *)

Lemma clear_ok bm : wf bm ->
  updates bm (clear bm) (fun _ _ => false) /\ updates bm (clear_large bm) (fun _ _ => false).
Proof.
  intros Hwf. unfold clear, clear_large.
  rewrite size_in_words_eq, <- wf_length by (done || apply Hwf).
  assert (forall o, updates bm o (put (64 * 0) (64 * zlen (_map bm)) false) ->
    updates bm o (fun _ _ => false)) as Hext.
  { intros o. apply updates_ext; [done|]. intros. unfold put. case_decide; [done|lia]. }
  split; apply Hext.
  - apply (range_of_words_ok false bm); (done || lia).
  - apply (large_range_of_words_ok false bm); (done || lia).
Qed.

Lemma bit_ext m m' i : load m (i / 64) = load m' (i / 64) -> bit m i = bit m' i.
Proof. unfold bit. by intros ->. Qed.

Lemma words_of_loads bm m :
  (forall j w, load m j = Some w -> load (_map bm) j = Some w \/ w = 0) -> wf bm ->
  Forall (is_u 64) m.
Proof.
  intros Hm Hwf. apply Forall_lookup. intros j w Hj. rewrite <- load_nat in Hj.
  destruct (Hm _ _ Hj) as [H| ->]; [by eapply load_Forall; [apply Hwf|]|].
  unfold is_u. lia.
Qed.

Lemma load_range {A} (l : list A) i x : load l i = Some x -> 0 <= i < zlen l.
Proof. apply load_Some. Qed.

Lemma resize_words junk bm n :
  wf bm -> 0 <= n <= 2 ^ 64 - 64 ->
  exists m, resize junk bm n = Some (mkBitMap m n) /\ zlen m = (n + 63) / 64 /\
    forall j, 0 <= j < zlen m ->
      load m j = if decide (j < zlen (_map bm)) then load (_map bm) j else Some 0.
Proof.
  intros Hwf Hn. pose proof (wf_size bm Hwf). pose proof (wf_length bm Hwf) as Hold.
  unfold resize. rewrite !size_in_words_eq by done. cbn [_size _map].
  rewrite <- Hold, MIN2_min.
  set (new := (n + 63) / 64). assert (0 <= new) by (subst new; int_lia).
  pose proof (new_array_length junk new ltac:(done)) as Hlen.
  destruct (memcpy_spec (new_array junk new) (_map bm) (Z.min (zlen (_map bm)) new)
    ltac:(lia) ltac:(lia)) as (m1 & E1 & Hl1 & Hload1).
  rewrite E1. cbn [mbind option_bind].
  destruct (Z.gtb_spec new (zlen (_map bm))).
  - rewrite size_in_words_eq by done. unfold clear_range_of_words. cbn [_map _size]. fold new.
    destruct (fill_words_spec (Z.to_nat (new - zlen (_map bm))) m1 (zlen (_map bm)) 0
      ltac:(lia) ltac:(lia)) as (m2 & E2 & Hl2 & Hload2).
    rewrite E2. cbn [mbind option_bind]. exists m2. split_and!; [done|lia|].
    intros j Hj. rewrite Hload2, Hload1. repeat case_decide; (done || (exfalso; lia)).
  - exists m1. split_and!; [done|lia|]. intros j Hj. rewrite Hload1.
    repeat case_decide; (done || (exfalso; lia)).
Qed.

Lemma resize_ok junk bm n :
  wf bm -> 0 <= n <= 2 ^ 64 - 64 ->
  exists bm', resize junk bm n = Some bm' /\ wf bm' /\ _size bm' = n /\
    forall i, 0 <= i < 64 * zlen (_map bm') -> bit (_map bm') i = bit (_map bm) i.
Proof.
  intros Hwf Hn. destruct (resize_words junk bm n Hwf Hn) as (m & E & Hl & Hload).
  exists (mkBitMap m n). split_and!; [done| |done|].
  - split; [done|done|]. apply (words_of_loads bm); [|done]. intros j w Hj.
    pose proof (load_range _ _ _ Hj) as Hr. simpl in Hj.
    rewrite Hload in Hj by done. case_decide; [by left|right; congruence].
  - intros i Hi. simpl in *. unfold bit at 1. rewrite Hload by int_lia. case_decide; [done|].
    rewrite Z.testbit_0_l. unfold bit.
    by rewrite (proj2 (load_None (_map bm) (i / 64))) by lia.
Qed.

(** [resize] keeps every word of the old map that fits and clears every
    new one, whatever the fresh memory holds; [at_put_grow] then puts the value
    and keeps every other bit, for any offset on a map that is not empty and
    any positive one on an empty map, while on an empty map offset 0 resizes to
    zero bits and writes outside the map. *)
Theorem resize_at_put_grow junk bm offset value :
  wf bm -> 0 <= offset -> 2 * Z.max (_size bm) offset <= 2 ^ 64 - 64 ->
  if decide (_size bm = 0 /\ offset = 0) then at_put_grow junk bm offset value = None
  else exists bm', at_put_grow junk bm offset value = Some bm' /\ wf bm' /\
    offset < _size bm' /\
    (_size bm' = _size bm \/ _size bm <= offset /\ _size bm' = 2 * Z.max (_size bm) offset) /\
    forall i, 0 <= i < 64 * zlen (_map bm') ->
      bit (_map bm') i = if decide (i = offset) then value else bit (_map bm) i.
Proof.
  intros Hwf Ho Hmax. unfold at_put_grow. rewrite MAX2_max. pose proof (wf_size bm Hwf).
  assert (forall bm1, wf bm1 -> offset < _size bm1 ->
    (forall i, 0 <= i < 64 * zlen (_map bm1) -> bit (_map bm1) i = bit (_map bm) i) ->
    exists bm', at_put bm1 offset value = Some bm' /\ wf bm' /\ _size bm' = _size bm1 /\
      forall i, 0 <= i < 64 * zlen (_map bm') ->
        bit (_map bm') i = if decide (i = offset) then value else bit (_map bm) i) as Hput.
  { intros bm1 Hwf1 Hlt Hbits. pose proof (wf_length bm1 Hwf1).
    destruct (at_put_ok bm1 offset value Hwf1 ltac:(lia)) as (bm' & E & Hwf' & Hs & Hb).
    pose proof (wf_length bm' Hwf'). exists bm'. split_and!; [done..|]. intros i Hi.
    rewrite Hb by congruence. unfold put. rewrite Hbits by congruence.
    repeat case_decide; (done || (exfalso; lia)). }
  destruct (Z.geb_spec offset (_size bm)).
  - rewrite wrapu_id by int_lia.
    destruct (resize_ok junk bm (2 * Z.max (_size bm) offset) Hwf ltac:(lia))
      as (bm1 & -> & Hwf1 & Hs1 & Hb1). cbn [mbind option_bind].
    case_decide as E0.
    + unfold at_put, set_bit, clear_bit, verify_index.
      replace (offset <? _size bm1) with false by lia. by destruct value.
    + destruct (Hput bm1 Hwf1 ltac:(lia) Hb1) as (bm' & E & ? & Hs & ?).
      exists bm'. split_and!; [done|done|lia|right; lia|done].
  - rewrite decide_False by lia. cbn [mbind option_bind].
    destruct (Hput bm Hwf ltac:(lia) ltac:(done)) as (bm' & E & ? & Hs & ?).
    exists bm'. split_and!; [done|done|lia|left; lia|done].
Qed.

Lemma resize_at_put_grow_witness :
  exists bm', at_put_grow (fun _ => 77) (mkBitMap [5] 3) 100 true = Some bm' /\
    bit (_map bm') 100 = true /\ bit (_map bm') 2 = true.
Proof.
  assert (wf (mkBitMap [5] 3)) as Hwf
    by (split; simpl; [lia|done|repeat constructor; unfold is_u; lia]).
  pose proof (resize_at_put_grow (fun _ => 77) (mkBitMap [5] 3) 100 true Hwf ltac:(lia)
    ltac:(simpl; lia)) as H.
  rewrite decide_False in H by (simpl; lia). destruct H as (bm' & E & Hwf' & Hs & _ & Hb).
  exists bm'. pose proof (wf_size_words bm' Hwf').
  split_and!; [done|rewrite Hb by lia; by rewrite decide_True|].
  rewrite Hb by lia. by rewrite decide_False by lia.
Defined.
