(* ===== verification/BitMapOps.v ===== *)
(** * Set operations, searches and iteration of [BitMap], and [BitMap2D]

    The rest of utilities/bitMap.cpp and bitMap.inline.hpp: the set operations
    between maps, the tests on whole maps, the searches for the next one or zero
    bit, the iteration with a closure, and the two-dimensional wrapper. *)

From S2P Require Import Prelude GlobalDefinitions BitMap.

Open Scope Z_scope.

(** ** Set operations *)

(** [for (index = 0; index < size; index++) dest_map[index] = f(dest_map[index],
    other_map[index])]; the variants with a result also track whether a word
    changed. *)
Fixpoint words_loop (f : Z -> Z -> Z) (n : nat) (index : Z) (dest other : list Z)
    (changed : bool) : option (bool * list Z) :=
  match n with
  | O => Some (changed, dest)
  | S n =>
      d ← load dest index;
      o ← load other index;
      let temp := f d o in
      dest ← store dest index temp;
      words_loop f n (index + 1) dest other (changed || negb (temp =? d))
  end.

Definition words_op (f : Z -> Z -> Z) (bm other : BitMap) : option (bool * BitMap) :=
  ASSERT (_size bm =? _size other) ;;
  '(changed, m) ← words_loop f (Z.to_nat (size_in_words bm)) 0 (_map bm) (_map other) false;
  Some (changed, set_map bm m).

Abbreviation word_union := (fun d o : Z => d ||| o).
Abbreviation word_difference := (fun d o : Z => d &&& u64 (Z.lnot o)).
Abbreviation word_intersection := (fun d o : Z => d &&& o).

Definition set_union (bm other : BitMap) : option BitMap :=
  '(_, bm) ← words_op word_union bm other; Some bm.
Definition set_difference (bm other : BitMap) : option BitMap :=
  '(_, bm) ← words_op word_difference bm other; Some bm.
Definition set_intersection (bm other : BitMap) : option BitMap :=
  '(_, bm) ← words_op word_intersection bm other; Some bm.
Definition set_union_with_result (bm other : BitMap) : option (bool * BitMap) :=
  words_op word_union bm other.
Definition set_difference_with_result (bm other : BitMap) : option (bool * BitMap) :=
  words_op word_difference bm other.
Definition set_intersection_with_result (bm other : BitMap) : option (bool * BitMap) :=
  words_op word_intersection bm other.
Definition set_from (bm other : BitMap) : option BitMap :=
  '(_, bm) ← words_op (fun _ o => o) bm other; Some bm.

(** ** Tests *)

(** A loop over the words that leaves with [false] at the first pair that fails
    the test. *)
Fixpoint all_words (test : Z -> Z -> bool) (n : nat) (index : Z) (dest other : list Z)
    : option bool :=
  match n with
  | O => Some true
  | S n =>
      d ← load dest index;
      o ← load other index;
      if test d o then all_words test n (index + 1) dest other else Some false
  end.

Definition contains (bm other : BitMap) : option bool :=
  ASSERT (_size bm =? _size other) ;;
  all_words (fun d o => d ||| o =? d) (Z.to_nat (size_in_words bm)) 0
    (_map bm) (_map other).

Definition is_same (bm other : BitMap) : option bool :=
  ASSERT (_size bm =? _size other) ;;
  all_words (fun d o => d =? o) (Z.to_nat (size_in_words bm)) 0 (_map bm) (_map other).

Definition intersects (bm other : BitMap) : option bool :=
  ASSERT (_size bm =? _size other) ;;
  b ← all_words (fun d o => (d &&& o) =? 0) (Z.to_nat (size_in_words bm)) 0
        (_map bm) (_map other);
  Some (negb b).

(** The loop of [is_full] and [is_empty] over the whole words; [None] only if a
    word is missing, [Some None] when a word differs, otherwise the position
    and the rest. *)
Fixpoint whole_words (n : nat) (expected : Z) (m : list Z) (word rest : Z)
    : option (option (Z * Z)) :=
  match n with
  | O => None
  | S n =>
      if rest >=? BitsPerWord then
        w ← load m word;
        if negb (w =? expected) then Some None
        else whole_words n expected m (word + 1) (rest - BitsPerWord)
      else Some (Some (word, rest))
  end.

Definition is_full (bm : BitMap) : option bool :=
  r ← whole_words (S (Z.to_nat (size_in_words bm))) (u64 AllBits) (_map bm) 0 (_size bm);
  match r with
  | None => Some false
  | Some (word, rest) =>
      if rest =? 0 then Some true
      else
        w ← load (_map bm) word;
        Some ((w ||| u64 (Z.lnot (right_n_bits rest))) =? u64 AllBits)
  end.

Definition is_empty (bm : BitMap) : option bool :=
  r ← whole_words (S (Z.to_nat (size_in_words bm))) NoBits (_map bm) 0 (_size bm);
  match r with
  | None => Some false
  | Some (word, rest) =>
      if rest =? 0 then Some true
      else
        w ← load (_map bm) word;
        Some ((w &&& u64 (right_n_bits rest)) =? NoBits)
  end.

(** ** Searches *)

(** [for (; !(res & 1); res_offset++) res = res >> 1], and with [value] false
    the loop [for (; res & 1; res_offset++)] of the search for a zero. *)
Fixpoint scan_word (value : bool) (fuel : nat) (res res_offset : Z) : option Z :=
  match fuel with
  | O => None
  | S fuel =>
      if Bool.eqb (negb (res &&& 1 =? 0)) value then Some res_offset
      else scan_word value fuel (res ≫ 1) (res_offset + 1)
  end.

(** The words to skip: [NoBits] looking for a one, [AllBits] looking for a zero. *)
Definition blank (value : bool) : Z := if value then NoBits else u64 AllBits.

(** [for (index++; index < r_index; index++)]: [None] of the inner option when
    every word is blank. *)
Fixpoint skip_words (value : bool) (n : nat) (m : list Z) (index : Z) : option (option Z) :=
  match n with
  | O => Some None
  | S n =>
      res ← load m index;
      if negb (res =? blank value) then
        r ← scan_word value 64 res (bit_index index);
        Some (Some r)
      else skip_words value n m (index + 1)
  end.

Definition next_offset (value : bool) (bm : BitMap) (l_offset r_offset : Z) : option Z :=
  ASSERT (l_offset <=? _size bm) ;;
  ASSERT (r_offset <=? _size bm) ;;
  ASSERT (l_offset <=? r_offset) ;;
  if l_offset =? r_offset then Some l_offset
  else
    let index := word_index l_offset in
    let r_index := word_index (r_offset - 1) + 1 in
    let pos := bit_in_word l_offset in
    w ← load (_map bm) index;
    let res := if value then w ≫ pos else (w ≫ pos) ||| u64 (left_n_bits pos) in
    if negb (res =? blank value) then
      res_offset ← scan_word value 64 res l_offset;
      ASSERT (res_offset >=? l_offset) ;;
      Some (MIN2 res_offset r_offset)
    else
      r ← skip_words value (Z.to_nat (r_index - (index + 1))) (_map bm) (index + 1);
      match r with
      | None => Some r_offset
      | Some res_offset =>
          ASSERT (res_offset >=? l_offset) ;;
          Some (MIN2 res_offset r_offset)
      end.

Definition get_next_one_offset (bm : BitMap) (l_offset r_offset : Z) : option Z :=
  next_offset true bm l_offset r_offset.
Definition get_next_zero_offset (bm : BitMap) (l_offset r_offset : Z) : option Z :=
  next_offset false bm l_offset r_offset.

Definition find_next_one_bit (bm : BitMap) (beg_bit end_bit : Z) : option Z :=
  ASSERT verify_range bm beg_bit end_bit ;;
  ASSERT (bit_in_word end_bit =? 0) ;;
  if beg_bit =? end_bit then Some beg_bit
  else
    let index := word_index beg_bit in
    let r_index := word_index end_bit in
    w ← load (_map bm) index;
    let res := w ≫ bit_in_word beg_bit in
    if negb (res =? NoBits) then
      res_bit ← scan_word true 64 res beg_bit;
      ASSERT (res_bit >=? beg_bit) && (res_bit <? end_bit) ;;
      Some res_bit
    else
      r ← skip_words true (Z.to_nat (r_index - (index + 1))) (_map bm) (index + 1);
      match r with
      | None => Some end_bit
      | Some res_bit =>
          ASSERT (res_bit >=? beg_bit) && (res_bit <? end_bit) ;;
          Some res_bit
      end.

(** ** Iteration

    The closure is a function on its own state that may also modify the map:
    [do_bit s bm offset]. *)
Section iterate.
Context {S_ : Type} (do_bit : S_ -> BitMap -> Z -> option (S_ * BitMap)).

Fixpoint iterate_word (fuel : nat) (s : S_) (bm : BitMap) (index offset rightOffset rest : Z)
    : option (S_ * BitMap) :=
  match fuel with
  | O => None
  | S fuel =>
      if (offset <? rightOffset) && negb (rest =? NoBits) then
        if negb (rest &&& 1 =? 0) then
          '(s, bm) ← do_bit s bm offset;
          w ← load (_map bm) index;
          let rest := w ≫ (offset &&& (BitsPerWord - 1)) in
          ASSERT negb (rest &&& 1 =? 0) ;;
          iterate_word fuel s bm index (offset + 1) rightOffset (rest ≫ 1)
        else iterate_word fuel s bm index (offset + 1) rightOffset (rest ≫ 1)
      else Some (s, bm)
  end.

Fixpoint iterate_words (fuel : nat) (s : S_) (bm : BitMap)
    (index endIndex offset rightOffset : Z) : option (S_ * BitMap) :=
  match fuel with
  | O => None
  | S fuel =>
      if (offset <? rightOffset) && (index <? endIndex) then
        w ← load (_map bm) index;
        let rest := w ≫ (offset &&& (BitsPerWord - 1)) in
        '(s, bm) ← iterate_word 65 s bm index offset rightOffset rest;
        iterate_words fuel s bm (index + 1) endIndex (u64 ((index + 1) ≪ LogBitsPerWord))
          rightOffset
      else Some (s, bm)
  end.

Definition iterate (s : S_) (bm : BitMap) (leftOffset rightOffset : Z)
    : option (S_ * BitMap) :=
  ASSERT verify_range bm leftOffset rightOffset ;;
  let startIndex := word_index leftOffset in
  let endIndex := MIN2 (word_index rightOffset + 1) (size_in_words bm) in
  iterate_words (S (Z.to_nat (endIndex - startIndex))) s bm startIndex endIndex
    leftOffset rightOffset.
End iterate.

(** ** [BitMap2D] *)
Module BitMap2D.
Record BitMap2D := mk { _bits : BitMap; _bits_per_slot : Z }.

Definition create (junk : nat -> Z) (size_in_slots bits_per_slot : Z) : BitMap2D :=
  mk (BitMap.create junk (u64 (size_in_slots * bits_per_slot))) bits_per_slot.
Definition bit_index (b : BitMap2D) (slot_index bit_within_slot_index : Z) : Z :=
  u64 (slot_index * _bits_per_slot b + bit_within_slot_index).
Definition verify_bit_within_slot_index (b : BitMap2D) (index : Z) : bool :=
  index <? _bits_per_slot b.
Definition size_in_bits (b : BitMap2D) : Z := _size (_bits b).
Definition size_in_slots (b : BitMap2D) : Z := _size (_bits b) / _bits_per_slot b.
Definition at_ (b : BitMap2D) (slot_index k : Z) : option bool :=
  ASSERT verify_bit_within_slot_index b k ;;
  BitMap.at_ (_bits b) (bit_index b slot_index k).
Definition with_bits (b : BitMap2D) (o : option BitMap) : option BitMap2D :=
  bm ← o; Some (mk bm (_bits_per_slot b)).
Definition set_bit (b : BitMap2D) (slot_index k : Z) : option BitMap2D :=
  ASSERT verify_bit_within_slot_index b k ;;
  with_bits b (BitMap.set_bit (_bits b) (bit_index b slot_index k)).
Definition clear_bit (b : BitMap2D) (slot_index k : Z) : option BitMap2D :=
  ASSERT verify_bit_within_slot_index b k ;;
  with_bits b (BitMap.clear_bit (_bits b) (bit_index b slot_index k)).
Definition at_put (b : BitMap2D) (slot_index k : Z) (value : bool) : option BitMap2D :=
  ASSERT verify_bit_within_slot_index b k ;;
  with_bits b (BitMap.at_put (_bits b) (bit_index b slot_index k) value).
Definition at_put_grow (junk : nat -> Z) (b : BitMap2D) (slot_index k : Z) (value : bool)
    : option BitMap2D :=
  ASSERT verify_bit_within_slot_index b k ;;
  with_bits b (BitMap.at_put_grow junk (_bits b) (bit_index b slot_index k) value).
Definition clear (b : BitMap2D) : option BitMap2D :=
  with_bits b (BitMap.clear (_bits b)).
End BitMap2D.

(** * Set operations act bit by bit *)

Lemma words_loop_zip f d : forall o pre pre' changed,
  length d = length o -> length pre = length pre' ->
  words_loop f (length d) (zlen pre) (pre ++ d) (pre' ++ o) changed
  = Some (changed || negb (bool_decide (zip_with f d o = d)), pre ++ zip_with f d o).
Proof.
  induction d as [|x d IH]; intros [|y o] pre pre' changed Hd Hp; try discriminate Hd.
  - simpl. by rewrite orb_false_r.
  - cbn [words_loop length]. rewrite load_app_mid. cbn [mbind option_bind].
    rewrite load_app_at by lia. cbn [mbind option_bind]. rewrite store_app_mid.
    cbn [mbind option_bind]. simpl in Hd.
    replace (zlen pre + 1) with (zlen (pre ++ [f x y])) by (rewrite length_app; simpl; lia).
    replace (pre ++ f x y :: d) with ((pre ++ [f x y]) ++ d) by (by rewrite <- app_assoc).
    replace (pre' ++ y :: o) with ((pre' ++ [y]) ++ o) by (by rewrite <- app_assoc).
    rewrite IH by (rewrite ?length_app; simpl; lia). rewrite <- app_assoc. simpl.
    do 2 f_equal. rewrite <- orb_assoc. f_equal.
    destruct (Z.eqb_spec (f x y) x) as [->|Hne]; simpl.
    + do 2 f_equal. apply bool_decide_ext. split; congruence.
    + rewrite bool_decide_false; [done|congruence].
Qed.

Lemma all_words_forallb test d : forall o pre pre',
  length d = length o -> length pre = length pre' ->
  all_words test (length d) (zlen pre) (pre ++ d) (pre' ++ o)
  = Some (forallb (uncurry test) (zip d o)).
Proof.
  induction d as [|x d IH]; intros [|y o] pre pre' Hd Hp; try discriminate Hd; [done|].
  cbn [all_words length]. rewrite load_app_mid. cbn [mbind option_bind].
  rewrite load_app_at by lia. cbn [mbind option_bind]. simpl in *.
  destruct (test x y); [|done]. simpl.
  replace (zlen pre + 1) with (zlen (pre ++ [x])) by (rewrite length_app; simpl; lia).
  replace (pre ++ x :: d) with ((pre ++ [x]) ++ d) by (by rewrite <- app_assoc).
  replace (pre' ++ y :: o) with ((pre' ++ [y]) ++ o) by (by rewrite <- app_assoc).
  apply IH; rewrite ?length_app; simpl; lia.
Qed.

Lemma wf_words_number bm : wf bm -> Z.to_nat (size_in_words bm) = length (_map bm).
Proof.
  intros Hwf. rewrite size_in_words_eq, <- wf_length by (done || apply Hwf). lia.
Qed.

Lemma same_size_length bm other :
  wf bm -> wf other -> _size bm = _size other -> length (_map bm) = length (_map other).
Proof. intros [_ H1 _] [_ H2 _] E. rewrite E in H1. lia. Qed.

Lemma words_op_zip f bm other :
  wf bm -> wf other -> _size bm = _size other ->
  words_op f bm other
  = Some (negb (bool_decide (zip_with f (_map bm) (_map other) = _map bm)),
          set_map bm (zip_with f (_map bm) (_map other))).
Proof.
  intros Hwf Hwf' Hs. unfold words_op. rewrite Hs, Z.eqb_refl, wf_words_number by done.
  pose proof (words_loop_zip f (_map bm) (_map other) [] [] false
    (same_size_length _ _ Hwf Hwf' Hs) eq_refl) as E. simpl_nil E. by rewrite E.
Qed.

Lemma load_zip_with {A B C} (f : A -> B -> C) l l' i :
  load (zip_with f l l') i = x ← load l i; y ← load l' i; Some (f x y).
Proof. unfold load. case_decide; [|done]. apply lookup_zip_with. Qed.

(** A function of words that acts on each bit by [g]. *)
Definition bitwise (f : Z -> Z -> Z) (g : bool -> bool -> bool) : Prop :=
  forall d o, is_u 64 d -> is_u 64 o -> is_u 64 (f d o) /\
    forall k, 0 <= k < 64 -> Z.testbit (f d o) k = g (Z.testbit d k) (Z.testbit o k).

Lemma bitwise_union : bitwise word_union orb.
Proof.
  intros d o Hd Ho. split; [auto with ints lia|]. intros. apply Z.lor_spec.
Qed.

Lemma bitwise_intersection : bitwise word_intersection andb.
Proof.
  intros d o Hd Ho. split; [auto with ints lia|].
  intros. apply Z.land_spec.
Qed.

Lemma bitwise_difference : bitwise word_difference (fun a b => a && negb b).
Proof.
  intros d o Hd Ho. split; [auto with ints lia|].
  intros. by rewrite Z.land_spec, testbit_not.
Qed.

Lemma bitwise_from : bitwise (fun _ o => o) (fun _ b => b).
Proof. intros d o Hd Ho. done. Qed.

Lemma zip_bits f g bm other i :
  wf bm -> wf other -> _size bm = _size other -> bitwise f g -> 0 <= i < 64 * zlen (_map bm) ->
  bit (zip_with f (_map bm) (_map other)) i = g (bit (_map bm) i) (bit (_map other) i).
Proof.
  intros Hwf Hwf' Hs Hf Hi. pose proof (same_size_length _ _ Hwf Hwf' Hs).
  unfold bit. rewrite load_zip_with.
  destruct (load_is_Some (_map bm) (i / 64) ltac:(int_lia)) as [d Ed].
  destruct (load_is_Some (_map other) (i / 64) ltac:(int_lia)) as [o Eo].
  rewrite Ed, Eo. cbn [mbind option_bind]. apply Hf; [| |int_lia].
  - by eapply load_Forall; [apply Hwf|].
  - by eapply load_Forall; [apply Hwf'|].
Qed.

Lemma zip_wf f g bm other :
  wf bm -> wf other -> _size bm = _size other -> bitwise f g ->
  wf (set_map bm (zip_with f (_map bm) (_map other))).
Proof.
  intros Hwf Hwf' Hs Hf. pose proof (same_size_length _ _ Hwf Hwf' Hs).
  apply wf_set_map; [done|rewrite length_zip_with; lia|].
  apply Forall_lookup. intros j w Hj. rewrite <- load_nat, load_zip_with in Hj.
  destruct (load (_map bm) (Z.of_nat j)) as [d|] eqn:Ed; [|done].
  destruct (load (_map other) (Z.of_nat j)) as [o|] eqn:Eo; [|done]. injection Hj as <-.
  apply Hf; [by eapply load_Forall; [apply Hwf|]|by eapply load_Forall; [apply Hwf'|]].
Qed.

(** Two maps with the same words have the same bits, and conversely. *)
Lemma words_eq_bits m m' :
  Forall (is_u 64) m -> Forall (is_u 64) m' -> length m = length m' ->
  m = m' <-> forall i, 0 <= i < 64 * zlen m -> bit m i = bit m' i.
Proof.
  intros Hm Hm' Hl. split; [by intros ->|]. intros Hb.
  apply list_eq_same_length with (length m); [done|done|]. intros j x y Hj Hx Hy.
  rewrite <- load_nat in Hx, Hy.
  apply (bits_inj_u 64); [done|exact (load_Forall _ _ _ _ Hm Hx)|exact (load_Forall _ _ _ _ Hm' Hy)|].
  intros k Hk. pose proof (Hb (64 * Z.of_nat j + k) ltac:(lia)) as E.
  by rewrite !bit_load, Hx, Hy in E by done.
Qed.

Definition bit_test (test : Z -> Z -> bool) (P : bool -> bool -> Prop) : Prop :=
  forall d o, is_u 64 d -> is_u 64 o ->
    test d o = true <-> forall k, 0 <= k < 64 -> P (Z.testbit d k) (Z.testbit o k).

(** A test of all pairs of words is a test of all pairs of bits. *)
Lemma all_words_bits test P bm other :
  wf bm -> wf other -> _size bm = _size other -> bit_test test P ->
  exists b, all_words test (Z.to_nat (size_in_words bm)) 0 (_map bm) (_map other) = Some b /\
    (b = true <-> forall i, 0 <= i < 64 * zlen (_map bm) -> P (bit (_map bm) i) (bit (_map other) i)).
Proof.
  intros Hwf Hwf' Hs Ht. pose proof (same_size_length _ _ Hwf Hwf' Hs) as Hl.
  pose proof (all_words_forallb test (_map bm) (_map other) [] [] Hl eq_refl) as E. simpl_nil E.
  rewrite wf_words_number by done. eexists. split; [exact E|].
  rewrite <- Is_true_true, forallb_True, Forall_lookup. split.
  - intros H i Hi. unfold bit.
    destruct (load_is_Some (_map bm) (i / 64) ltac:(int_lia)) as [d Ed].
    destruct (load_is_Some (_map other) (i / 64) ltac:(int_lia)) as [o Eo].
    rewrite Ed, Eo. apply (Ht d o); [by eapply load_Forall; [apply Hwf|]|
      by eapply load_Forall; [apply Hwf'|]| |int_lia].
    apply Is_true_eq_true, (H (Z.to_nat (i / 64)) (d, o)).
    assert (load (zip (_map bm) (_map other)) (i / 64) = Some (d, o)) as Hz
      by (by rewrite load_zip_with, Ed, Eo).
    unfold load in Hz. by case_decide.
  - intros H j [d o] Hj. rewrite <- load_nat in Hj. pose proof (load_range _ _ _ Hj) as Hr.
    rewrite load_zip_with in Hj. rewrite length_zip_with in Hr.
    destruct (load (_map bm) (Z.of_nat j)) as [d'|] eqn:Ed; [|done].
    destruct (load (_map other) (Z.of_nat j)) as [o'|] eqn:Eo; [|done]. injection Hj as -> ->.
    apply Is_true_eq_left, (Ht d o); [by eapply load_Forall; [apply Hwf|]|
      by eapply load_Forall; [apply Hwf'|]|].
    intros k Hk. pose proof (H (64 * Z.of_nat j + k) ltac:(lia)) as Hp.
    by rewrite !bit_load, Ed, Eo in Hp by done.
Qed.

Lemma bit_test_contains :
  bit_test (fun d o => d ||| o =? d) (fun a b => b = true -> a = true).
Proof.
  intros d o Hd Ho. rewrite Z.eqb_eq. split.
  - intros E k Hk Hb. rewrite <- E, Z.lor_spec, Hb. apply orb_true_r.
  - intros H. apply (bits_inj_u 64); [done|auto with ints lia|done|].
    intros k Hk. rewrite Z.lor_spec.
    specialize (H k Hk). destruct (Z.testbit d k), (Z.testbit o k); try done. by specialize (H eq_refl).
Qed.

Lemma bit_test_same : bit_test (fun d o => d =? o) (fun a b => a = b).
Proof.
  intros d o Hd Ho. rewrite Z.eqb_eq. split; [by intros ->|]. by apply bits_inj_u.
Qed.

Lemma bit_test_disjoint : bit_test (fun d o => (d &&& o) =? 0) (fun a b => a && b = false).
Proof.
  intros d o Hd Ho. rewrite Z.eqb_eq. split.
  - intros E k Hk. by rewrite <- Z.land_spec, E, Z.testbit_0_l.
  - intros H. apply (bits_inj_u 64); [done|auto with ints lia|unfold is_u; lia|].
    intros k Hk. rewrite Z.land_spec, Z.testbit_0_l. auto.
Qed.

(** [acts g bm other r]: the operation returns the map whose bits are [g] of the
    bits of [bm] and [other], and whether that changed anything. *)
Definition acts (g : bool -> bool -> bool) (bm other : BitMap) (r : option (bool * BitMap))
    : Prop :=
  exists changed bm', r = Some (changed, bm') /\ wf bm' /\ _size bm' = _size bm /\
    (forall i, 0 <= i < 64 * zlen (_map bm) ->
       bit (_map bm') i = g (bit (_map bm) i) (bit (_map other) i)) /\
    (changed = false <-> forall i, 0 <= i < 64 * zlen (_map bm) ->
       bit (_map bm') i = bit (_map bm) i).

Lemma words_op_acts f g bm other :
  wf bm -> wf other -> _size bm = _size other -> bitwise f g ->
  acts g bm other (words_op f bm other).
Proof.
  intros Hwf Hwf' Hs Hf. rewrite words_op_zip by done.
  pose proof (zip_wf f g bm other Hwf Hwf' Hs Hf) as Hwfz.
  eexists _, _. split_and!; [done|done|done| |].
  - intros i Hi. by apply zip_bits.
  - rewrite negb_false_iff, bool_decide_eq_true.
    pose proof (same_size_length _ _ Hwf Hwf' Hs).
    assert (length (zip_with f (_map bm) (_map other)) = length (_map bm)) as Hl
      by (rewrite length_zip_with; lia).
    rewrite words_eq_bits; [|apply Hwfz|apply Hwf|done]. cbn [_map set_map]. by rewrite Hl.
Qed.

(** The set operations act on every bit, the variants with a result report
    a change exactly when a bit changed and compute the same map as the plain
    ones; [contains], [intersects] and [is_same] decide inclusion, overlap and
    equality of the words' bits. *)
Theorem set_operations bm other :
  wf bm -> wf other -> _size bm = _size other ->
  (acts orb bm other (set_union_with_result bm other) /\
   acts (fun a b => a && negb b) bm other (set_difference_with_result bm other) /\
   acts andb bm other (set_intersection_with_result bm other)) /\
  (set_union bm other = snd <$> set_union_with_result bm other /\
   set_difference bm other = snd <$> set_difference_with_result bm other /\
   set_intersection bm other = snd <$> set_intersection_with_result bm other /\
   set_from bm other = Some (set_map bm (_map other))) /\
  exists c i s, contains bm other = Some c /\ intersects bm other = Some i /\
    is_same bm other = Some s /\
    (c = true <-> forall k, 0 <= k < 64 * zlen (_map bm) ->
       bit (_map other) k = true -> bit (_map bm) k = true) /\
    (i = false <-> forall k, 0 <= k < 64 * zlen (_map bm) ->
       bit (_map bm) k && bit (_map other) k = false) /\
    (s = true <-> _map bm = _map other).
Proof.
  intros Hwf Hwf' Hs. pose proof (same_size_length _ _ Hwf Hwf' Hs) as Hl. split_and!.
  - apply words_op_acts; auto using bitwise_union.
  - apply words_op_acts; auto using bitwise_difference.
  - apply words_op_acts; auto using bitwise_intersection.
  - unfold set_union, set_union_with_result. by rewrite words_op_zip.
  - unfold set_difference, set_difference_with_result. by rewrite words_op_zip.
  - unfold set_intersection, set_intersection_with_result. by rewrite words_op_zip.
  - unfold set_from. rewrite words_op_zip by done. cbn [mbind option_bind]. do 2 f_equal.
    apply list_eq_same_length with (length (_map bm)); [done|rewrite length_zip_with; lia|].
    intros j x y Hj. rewrite lookup_zip_with. destruct (_map bm !! j); [|done].
    cbn [mbind option_bind]. intros Hx Hy. rewrite Hy in Hx. simpl in Hx. congruence.
  - unfold contains, intersects, is_same. rewrite Hs, Z.eqb_refl.
    destruct (all_words_bits _ _ bm other Hwf Hwf' Hs bit_test_contains) as (c & -> & Hc).
    destruct (all_words_bits _ _ bm other Hwf Hwf' Hs bit_test_disjoint) as (d & -> & Hd).
    destruct (all_words_bits _ _ bm other Hwf Hwf' Hs bit_test_same) as (s & -> & Hsame).
    exists c, (negb d), s. split_and!; [done..| |].
    + by rewrite negb_false_iff.
    + rewrite Hsame. symmetry. apply words_eq_bits; [apply Hwf|apply Hwf'|done].
Qed.

Lemma set_operations_witness :
  acts orb (mkBitMap [5; 1] 70) (mkBitMap [6; 0] 70)
    (set_union_with_result (mkBitMap [5; 1] 70) (mkBitMap [6; 0] 70)).
Proof.
  apply (set_operations (mkBitMap [5; 1] 70) (mkBitMap [6; 0] 70)); [| |done];
    (split; [simpl; lia|done|repeat constructor; unfold is_u; lia]).
Defined.

(** * Tests of a whole map *)

Lemma word_all value w :
  is_u 64 w -> w = value_word value <-> forall k, 0 <= k < 64 -> Z.testbit w k = value.
Proof.
  intros Hw. split.
  - intros -> k Hk. by apply value_word_testbit.
  - intros H. apply (bits_inj_u 64); [done|done|destruct value; unfold is_u; simpl; lia|].
    intros k Hk. by rewrite value_word_testbit, H.
Qed.

Lemma right_n_bits_testbit n k :
  0 <= n < 64 -> 0 <= k < 64 -> Z.testbit (right_n_bits n) k = bool_decide (k < n).
Proof.
  intros Hn Hk. rewrite <- testbit_ones by lia.
  rewrite <- (Z.mod_pow2_bits_low (right_n_bits n) 64) by lia.
  change (right_n_bits n mod 2 ^ 64) with (u64 (right_n_bits n)). f_equal.
  unfold right_n_bits, nth_bit. replace (n >=? 64) with false by lia.
  rewrite Z.shiftl_1_l, Z.ones_equiv, wrapu_wraps by lia.
  change (s64 (2 ^ n) - 1) with (s64 (2 ^ n) + (-1)).
  assert (u64 (s64 (2 ^ n) + -1) = u64 (2 ^ n + -1)) as ->.
  { rewrite <- (wrapu_wraps 64 (s64 (2 ^ n) + -1)), wraps_add_l, wrapu_wraps by lia. done. }
  apply wrapu_id. pose proof (Z.pow_pos_nonneg 2 n).
  assert (2 ^ n < 2 ^ 64) by (apply Z.pow_lt_mono_r; lia). unfold is_u. lia.
Qed.

Lemma whole_words_spec e m n : forall word rest,
  0 <= word -> 0 <= rest -> rest / 64 < Z.of_nat n -> word + rest / 64 <= zlen m ->
  exists r, whole_words n e m word rest = Some r /\
    match r with
    | None => exists j, word <= j < word + rest / 64 /\ load m j <> Some e
    | Some (word', rest') => word' = word + rest / 64 /\ rest' = rest mod 64 /\
        forall j, word <= j < word + rest / 64 -> load m j = Some e
    end.
Proof.
  induction n as [|n IH]; intros word rest Hw Hr Hn Hz; [int_lia|].
  cbn [whole_words]. destruct (Z.geb_spec rest 64) as [Hge|Hlt].
  - destruct (load_is_Some m word ltac:(int_lia)) as [w Ew]. rewrite Ew.
    cbn [mbind option_bind]. destruct (Z.eqb_spec w e) as [->|Hne]; cbn [negb].
    + assert ((rest - 64) / 64 = rest / 64 - 1) as Hd by int_lia.
      destruct (IH (word + 1) (rest - 64) ltac:(lia) ltac:(lia) ltac:(lia) ltac:(lia))
        as (r & -> & Hspec). exists r. split; [done|]. destruct r as [[word' rest']|].
      * destruct Hspec as (-> & -> & Hall). split_and!; [lia|int_lia|]. intros j Hj.
        destruct (decide (j = word)) as [->|]; [done|]. apply Hall. lia.
      * destruct Hspec as (j & Hj & Hne). exists j. split; [lia|done].
    + exists None. split; [done|]. exists word. split; [int_lia|]. congruence.
  - eexists. split; [done|]. simpl. split_and!; [int_lia|int_lia|]. intros j Hj. int_lia.
Qed.

(** The end of [is_full] and [is_empty] for the bits of the last word. *)
Definition last_test (value : bool) (w rest : Z) : bool :=
  if value then (w ||| u64 (Z.lnot (right_n_bits rest))) =? u64 AllBits
  else (w &&& u64 (right_n_bits rest)) =? NoBits.

Lemma last_test_spec value w rest :
  is_u 64 w -> 0 <= rest < 64 ->
  last_test value w rest = true <-> forall k, 0 <= k < rest -> Z.testbit w k = value.
Proof.
  intros Hw Hr. unfold last_test. destruct value; rewrite Z.eqb_eq.
  - change (u64 AllBits) with (value_word true).
    rewrite word_all by auto using is_u_lnot with ints lia. split; intros H k Hk.
    + specialize (H k ltac:(lia)).
      rewrite Z.lor_spec, testbit_not, right_n_bits_testbit, bool_decide_true in H by lia.
      by rewrite orb_false_r in H.
    + rewrite Z.lor_spec, testbit_not, right_n_bits_testbit by lia.
      case_bool_decide; [rewrite H by lia|]; auto using orb_true_r.
  - change NoBits with (value_word false).
    assert (forall k, 0 <= k < 64 -> Z.testbit (u64 (right_n_bits rest)) k = bool_decide (k < rest))
      as Hbits by (intros k Hk; unfold wrapu; rewrite Z.mod_pow2_bits_low by lia;
                   by apply right_n_bits_testbit).
    rewrite word_all by auto with ints lia. split; intros H k Hk.
    + specialize (H k ltac:(lia)). rewrite Z.land_spec, Hbits, bool_decide_true in H by lia.
      by rewrite andb_true_r in H.
    + rewrite Z.land_spec, Hbits by lia.
      case_bool_decide; [rewrite H by lia|]; auto using andb_false_r.
Qed.

Definition all_test (value : bool) (bm : BitMap) : option bool :=
  r ← whole_words (S (Z.to_nat (size_in_words bm))) (value_word value) (_map bm) 0 (_size bm);
  match r with
  | None => Some false
  | Some (word, rest) =>
      if rest =? 0 then Some true
      else w ← load (_map bm) word; Some (last_test value w rest)
  end.

Lemma all_test_spec value bm :
  wf bm -> exists b, all_test value bm = Some b /\
    (b = true <-> forall i, 0 <= i < _size bm -> bit (_map bm) i = value).
Proof.
  intros Hwf. pose proof (wf_size bm Hwf) as Hs. pose proof (wf_length bm Hwf) as Hl.
  unfold all_test. rewrite size_in_words_eq by done.
  destruct (whole_words_spec (value_word value) (_map bm)
    (S (Z.to_nat ((_size bm + 63) / 64))) 0 (_size bm)) as (r & -> & Hr);
    [lia|lia|int_lia|int_lia|].
  cbn [mbind option_bind]. destruct r as [[word rest]|].
  - destruct Hr as (-> & -> & Hall). rewrite Z.add_0_l.
    assert (forall i, 0 <= i < 64 * (_size bm / 64) -> bit (_map bm) i = value) as Hwhole.
    { intros i Hi. unfold bit. rewrite Hall by int_lia. apply value_word_testbit. int_lia. }
    destruct (Z.eqb_spec (_size bm mod 64) 0) as [E|E].
    + exists true. split; [done|]. split; [|done]. intros _ i Hi. apply Hwhole. int_lia.
    + destruct (load_is_Some (_map bm) (_size bm / 64) ltac:(int_lia)) as [w Ew]. rewrite Ew.
      cbn [mbind option_bind]. eexists. split; [done|].
      rewrite last_test_spec by (try int_lia; by eapply load_Forall; [apply Hwf|]). split.
      * intros H i Hi. destruct (decide (i < 64 * (_size bm / 64))); [apply Hwhole; lia|].
        unfold bit. replace (i / 64) with (_size bm / 64) by int_lia. rewrite Ew.
        apply H. int_lia.
      * intros H k Hk. specialize (H (64 * (_size bm / 64) + k) ltac:(int_lia)).
        by rewrite bit_load, Ew in H by int_lia.
  - destruct Hr as (j & Hj & Hne). exists false. split; [done|]. split; [done|]. intros H.
    destruct (load_is_Some (_map bm) j ltac:(int_lia)) as [w Ew]. exfalso. apply Hne.
    rewrite Ew. f_equal. apply word_all; [by eapply load_Forall; [apply Hwf|]|].
    intros k Hk. specialize (H (64 * j + k) ltac:(int_lia)). by rewrite bit_load, Ew in H.
Qed.

(** [is_full] and [is_empty] return, and answer whether all bits below
    [size()] are set, or clear; the padding bits of the last word are ignored. *)
Theorem is_full_is_empty bm :
  wf bm -> exists f e, is_full bm = Some f /\ is_empty bm = Some e /\
    (f = true <-> forall i, 0 <= i < _size bm -> at_ bm i = Some true) /\
    (e = true <-> forall i, 0 <= i < _size bm -> at_ bm i = Some false).
Proof.
  intros Hwf. destruct (all_test_spec true bm Hwf) as (f & Ef & Hf).
  destruct (all_test_spec false bm Hwf) as (e & Ee & He).
  exists f, e. split_and!; [exact Ef|exact Ee| |].
  - rewrite Hf. split; intros H i Hi; specialize (H i Hi); rewrite at_spec in * by done; congruence.
  - rewrite He. split; intros H i Hi; specialize (H i Hi); rewrite at_spec in * by done; congruence.
Qed.

Lemma is_full_is_empty_witness :
  exists f e, is_full (mkBitMap [2 ^ 64 - 1; 7] 66) = Some f /\
    is_empty (mkBitMap [2 ^ 64 - 1; 7] 66) = Some e.
Proof.
  destruct (is_full_is_empty (mkBitMap [2 ^ 64 - 1; 7] 66)) as (f & e & Hf & He & _).
  { split; [simpl; lia|done|repeat constructor; unfold is_u; lia]. }
  by exists f, e.
Defined.

(** * Searches find the first bit *)

(** [k] is the first position of [l, r) whose bit is [value], or [r]. *)
Definition first_offset (value : bool) (m : list Z) (l r k : Z) : Prop :=
  l <= k <= r /\ (forall i, l <= i < k -> bit m i = negb value) /\ (k < r -> bit m k = value).

Lemma low_bit_test res : negb (res &&& 1 =? 0) = Z.testbit res 0.
Proof.
  change 1 with (2 ^ 1 - 1). rewrite land_ones_mod, Z.bit0_odd by lia.
  change (2 ^ 1) with 2. rewrite Zmod_odd. by destruct (Z.odd res).
Qed.

Lemma scan_word_spec value fuel : forall res off k,
  0 <= k < Z.of_nat fuel -> (forall j, 0 <= j < k -> Z.testbit res j = negb value) ->
  Z.testbit res k = value -> scan_word value fuel res off = Some (off + k).
Proof.
  induction fuel as [|fuel IH]; intros res off k Hk Hlow Hb; [lia|].
  cbn [scan_word]. rewrite low_bit_test. destruct (decide (k = 0)) as [->|Hne].
  - rewrite Hb, eqb_reflx, Z.add_0_r. done.
  - rewrite (Hlow 0) by lia. rewrite eqb_negb1.
    rewrite (IH (res ≫ 1) (off + 1) (k - 1)); [f_equal; lia|lia| |].
    + intros j Hj. rewrite Z.shiftr_spec by lia. apply Hlow. lia.
    + rewrite Z.shiftr_spec by lia. by replace (k - 1 + 1) with k by lia.
Qed.

Lemma first_bit_dec value w n :
  (forall k, 0 <= k < Z.of_nat n -> Z.testbit w k = negb value) \/
  exists k, 0 <= k < Z.of_nat n /\ Z.testbit w k = value /\
    forall j, 0 <= j < k -> Z.testbit w j = negb value.
Proof.
  induction n as [|n IH]; [left; lia|].
  destruct IH as [IH|(k & Hk & Hb & Hlow)]; [|right; exists k; split_and!; [lia..|done|done]].
  destruct (bool_dec (Z.testbit w (Z.of_nat n)) value) as [E|E].
  - right. exists (Z.of_nat n). split_and!; [lia..|done|]. intros j Hj. apply IH. lia.
  - left. intros k Hk. destruct (decide (k = Z.of_nat n)) as [->|]; [|apply IH; lia].
    by destruct (Z.testbit w (Z.of_nat n)), value.
Qed.

Lemma blank_value value : blank value = value_word (negb value).
Proof. by destruct value. Qed.

(** A word that is not blank has a first bit, which the scan finds. *)
Lemma scan_word_finds value res off :
  is_u 64 res ->
  if res =? blank value then forall k, 0 <= k < 64 -> Z.testbit res k = negb value
  else exists k, 0 <= k < 64 /\ Z.testbit res k = value /\
    (forall j, 0 <= j < k -> Z.testbit res j = negb value) /\
    scan_word value 64 res off = Some (off + k).
Proof.
  intros Hu. rewrite blank_value. destruct (Z.eqb_spec res (value_word (negb value))) as [E|E].
  - by apply word_all.
  - destruct (first_bit_dec value res 64) as [H|(k & Hk & Hb & Hlow)].
    + exfalso. apply E. by apply word_all.
    + exists k. split_and!; [lia..|done|done|]. apply scan_word_spec; (done || lia).
Qed.

Lemma skip_words_spec value n : forall m index,
  Forall (is_u 64) m -> 0 <= index -> index + Z.of_nat n <= zlen m -> zlen m < 2 ^ 58 ->
  exists r, skip_words value n m index = Some r /\
    match r with
    | None => forall i, 64 * index <= i < 64 * (index + Z.of_nat n) -> bit m i = negb value
    | Some k => 64 * index <= k < 64 * (index + Z.of_nat n) /\ bit m k = value /\
        forall i, 64 * index <= i < k -> bit m i = negb value
    end.
Proof.
  induction n as [|n IH]; intros m index Hm Hi Hn Hz.
  - exists None. split; [done|]. intros. lia.
  - cbn [skip_words]. destruct (load_is_Some m index ltac:(lia)) as [w Ew]. rewrite Ew.
    cbn [mbind option_bind].
    assert (forall i, 64 * index <= i < 64 * (index + 1) ->
              bit m i = Z.testbit w (i - 64 * index)) as Hword.
    { intros i Hr. replace i with (64 * index + (i - 64 * index)) at 1 by lia.
      by rewrite bit_load, Ew by lia. }
    pose proof (scan_word_finds value w (bit_index index)
      (load_Forall _ _ _ _ Hm Ew)) as Hscan.
    destruct (w =? blank value); cbn [negb].
    + destruct (IH m (index + 1) Hm ltac:(lia) ltac:(lia) Hz) as (r & -> & Hr). exists r.
      split; [done|]. destruct r as [k|].
      * destruct Hr as (Hk & Hb & Hlow). split_and!; [lia..|done|]. intros i Hi'.
        destruct (decide (i < 64 * (index + 1))); [|apply Hlow; lia].
        rewrite Hword by lia. apply Hscan. lia.
      * intros i Hi'. destruct (decide (i < 64 * (index + 1))); [|apply Hr; lia].
        rewrite Hword by lia. apply Hscan. lia.
    + destruct Hscan as (k & Hk & Hb & Hlow & ->). cbn [mbind option_bind].
      rewrite bit_index_eq by lia. eexists. split; [done|]. simpl. split_and!; [lia..| |].
      * rewrite Hword by lia. by replace (64 * index + k - 64 * index) with k by lia.
      * intros i Hi'. rewrite Hword by lia. apply Hlow. lia.
Qed.

Lemma left_n_bits_testbit n k :
  0 <= n < 64 -> 0 <= k < 64 -> Z.testbit (u64 (left_n_bits n)) k = bool_decide (64 - n <= k).
Proof.
  intros Hn Hk. unfold left_n_bits. replace (n >=? 64) with false by lia.
  rewrite wrapu_wraps by lia. unfold wrapu. rewrite Z.mod_pow2_bits_low by lia.
  destruct (decide (64 - n <= k)).
  - rewrite bool_decide_true, Z.shiftl_spec by lia.
    rewrite right_n_bits_testbit, bool_decide_true by lia. done.
  - rewrite bool_decide_false, Z.shiftl_spec_low by lia. done.
Qed.

(** The first word of a search, shifted, with the vacated positions made blank. *)
Lemma first_word_testbit (value : bool) w pos k :
  is_u 64 w -> 0 <= pos < 64 -> 0 <= k < 64 ->
  Z.testbit (if value then w ≫ pos else (w ≫ pos) ||| u64 (left_n_bits pos)) k
  = if decide (k + pos < 64) then Z.testbit w (k + pos) else negb value.
Proof.
  intros Hw Hp Hk. destruct value; rewrite ?Z.lor_spec, ?left_n_bits_testbit, Z.shiftr_spec by lia.
  - case_decide; [done|]. apply (testbit_high 64); (done || lia).
  - case_decide; case_bool_decide; try (exfalso; lia); [apply orb_false_r|apply orb_true_r].
Qed.

(** What a search does once its first word is known to be blank or not. *)
Lemma search_spec (value : bool) bm l end_word :
  wf bm -> 0 <= l -> l / 64 < end_word -> end_word <= zlen (_map bm) ->
  exists w, load (_map bm) (word_index l) = Some w /\
    let res := if value then w ≫ bit_in_word l
               else (w ≫ bit_in_word l) ||| u64 (left_n_bits (bit_in_word l)) in
    if res =? blank value
    then (forall i, l <= i < 64 * (l / 64 + 1) -> bit (_map bm) i = negb value) /\
      exists r, skip_words value (Z.to_nat (end_word - (l / 64 + 1))) (_map bm) (l / 64 + 1)
                = Some r /\
        match r with
        | None => first_offset value (_map bm) l (64 * end_word) (64 * end_word)
        | Some k => first_offset value (_map bm) l (64 * end_word) k /\ k < 64 * end_word
        end
    else exists k, scan_word value 64 res l = Some k /\
      first_offset value (_map bm) l (64 * end_word) k /\ k < 64 * end_word.
Proof.
  intros Hwf Hl Hw He. pose proof (wf_zlen_bound bm Hwf) as Hz.
  rewrite word_index_eq, bit_in_word_eq.
  destruct (load_is_Some (_map bm) (l / 64) ltac:(int_lia)) as [w Ew].
  pose proof (load_Forall _ _ _ _ (wf_words _ Hwf) Ew) as Hwu.
  exists w. split; [done|]. cbv zeta.
  set (res := if value then _ else _).
  assert (is_u 64 res) as Hres.
  { assert (is_u 64 (u64 (left_n_bits (l mod 64)))) by (apply wrapu_range; lia).
    assert (0 <= l mod 64) by int_lia. subst res. destruct value; auto with ints lia. }
  assert (forall i, l <= i < 64 * (l / 64 + 1) -> bit (_map bm) i = Z.testbit res (i - l)) as Hbits.
  { intros i Hi. subst res. rewrite first_word_testbit, decide_True by (done || int_lia).
    unfold bit. replace (i / 64) with (l / 64) by int_lia. rewrite Ew. f_equal. int_lia. }
  pose proof (scan_word_finds value res l Hres) as Hscan.
  destruct (res =? blank value).
  - assert (forall i, l <= i < 64 * (l / 64 + 1) -> bit (_map bm) i = negb value) as Hfirst
      by (intros i Hi; rewrite Hbits by done; apply Hscan; int_lia).
    split; [done|].
    destruct (skip_words_spec value (Z.to_nat (end_word - (l / 64 + 1))) (_map bm) (l / 64 + 1))
      as (r & -> & Hr); [apply Hwf|int_lia|int_lia|lia|].
    exists r. split; [done|]. unfold first_offset. destruct r as [k|].
    + destruct Hr as (Hk & Hb & Hlow). split_and!; [int_lia|int_lia| |done|int_lia].
      intros i Hi. destruct (decide (i < 64 * (l / 64 + 1))); [apply Hfirst|apply Hlow]; lia.
    + split_and!; [int_lia|lia| |lia]. intros i Hi.
      destruct (decide (i < 64 * (l / 64 + 1))); [apply Hfirst|apply Hr]; lia.
  - destruct Hscan as (k & Hk & Hb & Hlow & ->).
    assert (l + k < 64 * (l / 64 + 1)) as Hin.
    { assert (Z.testbit res k = value) as E by done. subst res.
      rewrite first_word_testbit in E by (done || int_lia). case_decide; [int_lia|].
      by destruct value. }
    exists (l + k). split; [done|]. unfold first_offset. split_and!; [lia|int_lia| | |int_lia].
    + intros i Hi. rewrite Hbits by lia. apply Hlow. lia.
    + intros _. rewrite Hbits by lia. by replace (l + k - l) with k by lia.
Qed.

Lemma first_offset_min value m l r r' k :
  first_offset value m l r' k -> l <= r <= r' -> first_offset value m l r (Z.min k r).
Proof.
  intros (Hk & Hlow & Hb) Hr. unfold first_offset. split_and!; [lia|lia| |].
  - intros i Hi. apply Hlow. lia.
  - intros Hlt. replace (Z.min k r) with k by lia. apply Hb. lia.
Qed.

Lemma first_offset_unique value m l r k k' :
  first_offset value m l r k -> first_offset value m l r k' -> k = k'.
Proof.
  intros (Hk & Hlow & Hb) (Hk' & Hlow' & Hb').
  destruct (Z.lt_trichotomy k k') as [Hlt|[?|Hlt]]; [|done|].
  - rewrite Hlow' in Hb by lia. specialize (Hb ltac:(lia)). by destruct value.
  - rewrite Hlow in Hb' by lia. specialize (Hb' ltac:(lia)). by destruct value.
Qed.

Lemma next_offset_spec value bm l r :
  wf bm -> 0 <= l <= r -> r <= _size bm ->
  exists k, next_offset value bm l r = Some k /\ first_offset value (_map bm) l r k.
Proof.
  intros Hwf Hl Hr. pose proof (wf_size_words bm Hwf). unfold next_offset.
  replace (l <=? _size bm) with true by lia. replace (r <=? _size bm) with true by lia.
  replace (l <=? r) with true by lia. destruct (Z.eqb_spec l r) as [->|Hne].
  { exists r. split; [done|]. unfold first_offset. split_and!; lia. }
  rewrite (word_index_eq (r - 1)).
  destruct (search_spec value bm l ((r - 1) / 64 + 1) Hwf) as (w & -> & Hs);
    [lia|int_lia|int_lia|].
  cbn [mbind option_bind]. cbv zeta in Hs |- *. rewrite word_index_eq.
  destruct (_ =? blank value); cbn [negb].
  - destruct Hs as (_ & o & -> & Ho). cbn [mbind option_bind]. destruct o as [k|].
    + destruct Ho as [Hk _]. replace (k >=? l) with true by (unfold first_offset in Hk; lia).
      rewrite MIN2_min. eexists. split; [done|]. eapply first_offset_min; [done|int_lia].
    + exists r. split; [done|].
      replace r with (Z.min (64 * ((r - 1) / 64 + 1)) r) at 2 by int_lia.
      eapply first_offset_min; [done|int_lia].
  - destruct Hs as (k & -> & Hk & _). cbn [mbind option_bind].
    replace (k >=? l) with true by (unfold first_offset in Hk; lia).
    rewrite MIN2_min. eexists. split; [done|]. eapply first_offset_min; [done|int_lia].
Qed.

Lemma find_next_one_bit_spec bm l r :
  wf bm -> 0 <= l <= r -> r <= _size bm -> r mod 64 = 0 ->
  exists k, find_next_one_bit bm l r = Some k /\ first_offset true (_map bm) l r k.
Proof.
  intros Hwf Hl Hr Ha. pose proof (wf_size_words bm Hwf). unfold find_next_one_bit.
  rewrite verify_range_true, (bit_in_word_eq r), Ha by done. cbn [Z.eqb].
  destruct (Z.eqb_spec l r) as [->|Hne].
  { exists r. split; [done|]. unfold first_offset. split_and!; lia. }
  rewrite (word_index_eq r).
  destruct (search_spec true bm l (r / 64) Hwf) as (w & -> & Hs); [lia|int_lia|int_lia|].
  replace (64 * (r / 64)) with r in Hs by int_lia.
  cbn [mbind option_bind]. cbv zeta in Hs |- *. rewrite word_index_eq.
  change (blank true) with NoBits in Hs. destruct (_ =? NoBits); cbn [negb].
  - destruct Hs as (_ & o & -> & Ho). cbn [mbind option_bind]. destruct o as [k|]; [|by exists r].
    destruct Ho as [Hk Hlt]. exists k. split; [|done]. unfold first_offset in Hk.
    replace (k >=? l) with true by lia. by replace (k <? r) with true by lia.
  - destruct Hs as (k & -> & Hk & Hlt). cbn [mbind option_bind]. exists k. split; [|done].
    unfold first_offset in Hk.
    replace (k >=? l) with true by lia. by replace (k <? r) with true by lia.
Qed.

(** [get_next_one_offset] and [get_next_zero_offset] terminate inside the
    map with the first offset of the range whose bit is one, or zero, and with
    the end of the range when there is none; on a range that ends at a word
    boundary [find_next_one_bit] computes the same. *)
Theorem next_offset_first bm l r :
  wf bm -> 0 <= l <= r -> r <= _size bm ->
  exists one zero, get_next_one_offset bm l r = Some one /\
    get_next_zero_offset bm l r = Some zero /\
    first_offset true (_map bm) l r one /\ first_offset false (_map bm) l r zero /\
    (r mod 64 = 0 -> find_next_one_bit bm l r = Some one).
Proof.
  intros Hwf Hl Hr.
  destruct (next_offset_spec true bm l r Hwf Hl Hr) as (one & E1 & H1).
  destruct (next_offset_spec false bm l r Hwf Hl Hr) as (zero & E2 & H2).
  exists one, zero. split_and!; [done..|]. intros Ha.
  destruct (find_next_one_bit_spec bm l r Hwf Hl Hr Ha) as (k & -> & Hk).
  f_equal. by eapply first_offset_unique.
Qed.

Lemma next_offset_first_witness :
  exists one zero, get_next_one_offset (mkBitMap [15; 2 ^ 40] 128) 4 128 = Some one /\
    get_next_zero_offset (mkBitMap [15; 2 ^ 40] 128) 0 128 = Some zero /\
    one = 104 /\ zero = 4.
Proof.
  assert (wf (mkBitMap [15; 2 ^ 40] 128)) as Hwf
    by (split; [simpl; lia|done|repeat constructor; unfold is_u; lia]).
  destruct (next_offset_first _ 4 128 Hwf ltac:(lia) ltac:(simpl; lia)) as (one & _ & H1 & _).
  destruct (next_offset_first _ 0 128 Hwf ltac:(lia) ltac:(simpl; lia)) as (_ & zero & _ & H0 & _).
  exists one, zero. split_and!; [done|done| |].
  - vm_compute in H1. congruence.
  - vm_compute in H0. congruence.
Defined.

(** * Iteration is the scan bit by bit *)

Section iterate_reference.
Context {S_ : Type} (do_bit : S_ -> BitMap -> Z -> option (S_ * BitMap)).

(** The reference: test each offset of the interval in the current map. *)
Fixpoint scan_bits (n : nat) (s : S_) (bm : BitMap) (offset : Z) : option (S_ * BitMap) :=
  match n with
  | O => Some (s, bm)
  | S n =>
      match at_ bm offset with
      | Some true => '(s, bm) ← do_bit s bm offset; scan_bits n s bm (offset + 1)
      | Some false => scan_bits n s bm (offset + 1)
      | None => None
      end
  end.

(** The closure keeps the map well formed, its size and the bit it is called on. *)
Hypothesis do_bit_keeps : forall s bm offset s' bm',
  wf bm -> 0 <= offset < _size bm -> bit (_map bm) offset = true ->
  do_bit s bm offset = Some (s', bm') ->
  wf bm' /\ _size bm' = _size bm /\ bit (_map bm') offset = true.

Lemma scan_bits_app n1 n2 s bm offset :
  scan_bits (n1 + n2) s bm offset =
  '(s, bm) ← scan_bits n1 s bm offset; scan_bits n2 s bm (offset + Z.of_nat n1).
Proof.
  revert s bm offset. induction n1 as [|n1 IH]; intros s bm offset.
  - cbn [mbind option_bind scan_bits Nat.add]. by rewrite Z.add_0_r.
  - cbn [scan_bits Nat.add]. destruct (at_ bm offset) as [[]|]; [| |done].
    + destruct (do_bit s bm offset) as [[s' bm']|]; [|done].
      cbn [mbind option_bind]. rewrite IH. replace (offset + 1 + Z.of_nat n1)
        with (offset + Z.of_nat (S n1)) by lia. done.
    + rewrite IH. replace (offset + 1 + Z.of_nat n1)
        with (offset + Z.of_nat (S n1)) by lia. done.
Qed.

Lemma scan_bits_wf n : forall s bm offset s' bm',
  wf bm -> 0 <= offset -> offset + Z.of_nat n <= _size bm ->
  scan_bits n s bm offset = Some (s', bm') -> wf bm' /\ _size bm' = _size bm.
Proof using do_bit_keeps.
  induction n as [|n IH]; intros s bm offset s' bm' Hwf Ho Hn E.
  - injection E as <- <-. done.
  - cbn [scan_bits] in E. rewrite at_spec in E by (done || lia).
    destruct (bit (_map bm) offset) eqn:Eb; [|eapply IH in E; (done || lia)].
    destruct (do_bit s bm offset) as [[s1 bm1]|] eqn:E1; [|done]. cbn [mbind option_bind] in E.
    destruct (do_bit_keeps s bm offset s1 bm1 Hwf ltac:(lia) Eb E1) as (Hwf1 & Hs1 & _).
    eapply IH in E; [|done|lia|lia]. destruct E. split; [done|congruence].
Qed.

(** Offsets whose bits are clear are passed over. *)
Lemma scan_bits_clear n : forall s bm offset,
  wf bm -> 0 <= offset -> offset + Z.of_nat n <= _size bm ->
  (forall i, offset <= i < offset + Z.of_nat n -> bit (_map bm) i = false) ->
  scan_bits n s bm offset = Some (s, bm).
Proof.
  induction n as [|n IH]; intros s bm offset Hwf Ho Hn Hc; [done|].
  cbn [scan_bits]. rewrite at_spec, Hc by (done || lia).
  apply IH; [done|lia|lia|]. intros. apply Hc. lia.
Qed.

(** The inner loop: [rest] holds the bits of the word from [offset] on. *)
Lemma iterate_word_spec fuel : forall s bm index offset right,
  wf bm -> 0 <= index -> 64 * index <= offset <= 64 * index + 64 -> right <= _size bm ->
  64 * index + 64 - offset < Z.of_nat fuel ->
  forall rest, is_u 64 rest ->
  (forall k, 0 <= k < 64 -> Z.testbit rest k =
     if decide (offset + k < 64 * index + 64) then bit (_map bm) (offset + k) else false) ->
  iterate_word do_bit fuel s bm index offset right rest
  = scan_bits (Z.to_nat (Z.min right (64 * index + 64) - offset)) s bm offset.
Proof using do_bit_keeps.
  induction fuel as [|fuel IH]; intros s bm index offset right Hwf Hi Ho Hr Hf rest Hu Hrest; [lia|].
  cbn [iterate_word]. destruct (Z.ltb_spec offset right) as [Hlt|Hge]; cbn [andb].
  2: { replace (Z.to_nat _) with 0%nat by lia. done. }
  destruct (Z.eqb_spec rest NoBits) as [E0|Hne]; cbn [negb].
  { symmetry. apply scan_bits_clear; [done|lia|lia|]. intros i Hi'.
    specialize (Hrest (i - offset) ltac:(lia)). rewrite decide_True in Hrest by lia.
    replace (offset + (i - offset)) with i in Hrest by lia.
    rewrite <- Hrest, E0. apply Z.testbit_0_l. }
  assert (offset < 64 * index + 64) as Hin.
  { destruct (decide (offset < 64 * index + 64)); [done|]. exfalso. apply Hne.
    change NoBits with (value_word false). apply word_all; [done|]. intros k Hk.
    rewrite Hrest by done. rewrite decide_False by lia. done. }
  rewrite low_bit_test, (Hrest 0), decide_True, Z.add_0_r by lia.
  replace (Z.to_nat (Z.min right (64 * index + 64) - offset))
    with (S (Z.to_nat (Z.min right (64 * index + 64) - (offset + 1)))) by lia.
  cbn [scan_bits]. rewrite at_spec by (done || lia).
  destruct (bit (_map bm) offset) eqn:Eb.
  - destruct (do_bit s bm offset) as [[s1 bm1]|] eqn:E1; [|done]. cbn [mbind option_bind].
    destruct (do_bit_keeps s bm offset s1 bm1 Hwf ltac:(lia) Eb E1) as (Hwf1 & Hs1 & Hb1).
    pose proof (wf_size_words bm1 Hwf1).
    destruct (load_is_Some (_map bm1) index ltac:(lia)) as [w Ew]. rewrite Ew.
    cbn [mbind option_bind].
    pose proof (load_Forall _ _ _ _ (wf_words _ Hwf1) Ew) as Hw.
    change (offset &&& (BitsPerWord - 1)) with (bit_in_word offset). rewrite bit_in_word_eq.
    assert (forall k, 0 <= k -> Z.testbit (w ≫ (offset mod 64)) k =
      if decide (offset + k < 64 * index + 64) then bit (_map bm1) (offset + k) else false) as Hsh.
    { intros k Hk. rewrite Z.shiftr_spec by int_lia. case_decide.
      - replace (offset + k) with (64 * index + (k + offset mod 64)) by int_lia.
        by rewrite bit_load, Ew by int_lia.
      - apply (testbit_high 64); [done|int_lia]. }
    rewrite low_bit_test, Hsh, decide_True, Z.add_0_r, Hb1 by lia.
    assert (0 <= offset mod 64) by int_lia.
    rewrite (IH s1 bm1 index (offset + 1) right); [done|done|lia|lia|lia|lia| |].
    + auto with ints lia.
    + intros k Hk. rewrite Z.shiftr_spec, Hsh by lia.
      by replace (offset + (k + 1)) with (offset + 1 + k) by lia.
  - apply IH; [done|lia|lia|lia|lia|auto with ints lia|].
    intros k Hk. rewrite Z.shiftr_spec by lia. destruct (decide (k = 63)) as [->|].
    + rewrite decide_False by lia. apply (testbit_high 64); (done || lia).
    + rewrite Hrest by lia. by replace (offset + (k + 1)) with (offset + 1 + k) by lia.
Qed.

Lemma offset_in_word offset : offset &&& (BitsPerWord - 1) = offset mod 64.
Proof. apply bit_in_word_eq. Qed.

Lemma word_offset index : 0 <= index < 2 ^ 58 -> u64 (index ≪ LogBitsPerWord) = 64 * index.
Proof. apply bit_index_eq. Qed.

Lemma iterate_words_S fuel s bm index endIndex offset right :
  iterate_words do_bit (S fuel) s bm index endIndex offset right =
  if (offset <? right) && (index <? endIndex) then
    w ← load (_map bm) index;
    let rest := w ≫ (offset &&& (BitsPerWord - 1)) in
    '(s, bm) ← iterate_word do_bit 65 s bm index offset right rest;
    iterate_words do_bit fuel s bm (index + 1) endIndex (u64 ((index + 1) ≪ LogBitsPerWord)) right
  else Some (s, bm).
Proof. reflexivity. Qed.

Lemma iterate_words_spec fuel : forall s bm index endIndex offset right,
  wf bm -> 0 <= index -> 64 * index <= offset < 64 * index + 64 -> right <= _size bm ->
  endIndex = Z.min (right / 64 + 1) (zlen (_map bm)) -> 0 <= endIndex - index < Z.of_nat fuel ->
  iterate_words do_bit fuel s bm index endIndex offset right
  = scan_bits (Z.to_nat (right - offset)) s bm offset.
Proof using do_bit_keeps.
  induction fuel as [|fuel IH]; intros s bm index endIndex offset right Hwf Hi Ho Hr He Hf;
    pose proof (wf_size_words bm Hwf); pose proof (wf_zlen_bound bm Hwf).
  { lia. }
  rewrite iterate_words_S. pose proof (iterate_word_spec 65) as Hword.
  assert (Z.of_nat 65 = 65) as H65 by done.
  generalize dependent 65%nat. intros word_fuel Hword H65. destruct (Z.ltb_spec offset right) as [Hlt|Hge]; cbn [andb].
  2: { replace (Z.to_nat _) with 0%nat by lia. done. }
  replace (index <? endIndex) with true by int_lia.
  destruct (load_is_Some (_map bm) index ltac:(int_lia)) as [w Ew]. rewrite Ew.
  pose proof (load_Forall _ _ _ _ (wf_words _ Hwf) Ew) as Hw. cbn [mbind option_bind].
  rewrite offset_in_word.
  assert (0 <= offset mod 64) by int_lia.
  rewrite (Hword s bm index offset right Hwf Hi ltac:(lia) Hr ltac:(lia));
    [|auto with ints lia|].
  2: { intros k Hk. rewrite Z.shiftr_spec by lia. case_decide.
       - replace (offset + k) with (64 * index + (k + offset mod 64)) by int_lia.
         by rewrite bit_load, Ew by int_lia.
       - apply (testbit_high 64); [done|int_lia]. }
  rewrite word_offset by int_lia.
  replace (Z.to_nat (right - offset))
    with (Z.to_nat (Z.min right (64 * index + 64) - offset)
          + Z.to_nat (right - (64 * index + 64)))%nat by lia.
  rewrite scan_bits_app.
  destruct (scan_bits _ s bm offset) as [[s1 bm1]|] eqn:E1; [|done]. cbn [mbind option_bind].
  destruct (scan_bits_wf (Z.to_nat (Z.min right (64 * index + 64) - offset)) s bm offset s1 bm1 Hwf ltac:(lia) ltac:(lia) E1) as [Hwf1 Hs1].
  pose proof (wf_length bm Hwf). pose proof (wf_length bm1 Hwf1) as Hl1. rewrite Hs1 in Hl1.
  destruct (decide (64 * index + 64 < right)).
  - rewrite IH; [f_equal; lia|done|lia|lia|lia|lia|int_lia].
  - replace (Z.to_nat (right - (64 * index + 64))) with 0%nat by lia.
    destruct fuel as [|fuel]; [exfalso; int_lia|]. rewrite iterate_words_S.
    by replace (64 * (index + 1) <? right) with false by lia.
Qed.

(** C34: For a closure that may modify the map but keeps it well formed, its
    size and the bit it is called on, [iterate] does exactly what testing each
    offset of the interval in turn in the current map does: it calls the closure
    in increasing order on every bit set when its turn comes, and terminates. *)
Theorem iterate_is_scan s bm l r :
  wf bm -> 0 <= l <= r -> r <= _size bm ->
  iterate do_bit s bm l r = scan_bits (Z.to_nat (r - l)) s bm l.
Proof using do_bit_keeps.
  intros Hwf Hl Hr. unfold iterate. rewrite verify_range_true by done.
  rewrite !word_index_eq, MIN2_min, size_in_words_eq by apply Hwf.
  rewrite <- wf_length by done. pose proof (wf_size_words bm Hwf).
  apply iterate_words_spec; [done|int_lia|int_lia|done|done|int_lia].
Qed.
End iterate_reference.

(** A closure that clears the next bit and counts its calls. *)
Definition clear_next (s : Z) (bm : BitMap) (offset : Z) : option (Z * BitMap) :=
  if offset + 1 <? _size bm then
    bm ← clear_bit bm (offset + 1); Some (s + 1, bm)
  else Some (s + 1, bm).

Lemma clear_next_keeps s bm offset s' bm' :
  wf bm -> 0 <= offset < _size bm -> bit (_map bm) offset = true ->
  clear_next s bm offset = Some (s', bm') ->
  wf bm' /\ _size bm' = _size bm /\ bit (_map bm') offset = true.
Proof.
  intros Hwf Ho Hb. unfold clear_next. pose proof (wf_size_words bm Hwf).
  destruct (Z.ltb_spec (offset + 1) (_size bm)); [|intros E; injection E as <- <-; done].
  destruct (at_put_ok bm (offset + 1) false Hwf ltac:(lia)) as (bm1 & E1 & Hwf1 & Hs1 & Hb1).
  unfold at_put in E1. rewrite E1. cbn [mbind option_bind]. intros E; injection E as <- <-.
  split_and!; [done|done|]. rewrite Hb1 by lia. unfold put. rewrite decide_False by lia. done.
Qed.

Lemma iterate_is_scan_witness :
  iterate clear_next 0 (mkBitMap [0xF0F; 5] 67) 1 67
  = scan_bits clear_next (Z.to_nat (67 - 1)) 0 (mkBitMap [0xF0F; 5] 67) 1.
Proof.
  apply (iterate_is_scan clear_next clear_next_keeps 0 (mkBitMap [0xF0F; 5] 67) 1 67).
  - split; [simpl; lia|done|repeat constructor; unfold is_u; lia].
  - lia.
  - simpl. lia.
Defined.
