(* ===== verification/BitMapPar.v ===== *)
(** * Concurrent updates of single bits of a [BitMap]

    [par_set_bit] and [par_clear_bit] (utilities/bitMap.inline.hpp) run by any
    number of threads on one map: each step of the relation is one access to
    the shared words, the plain read before the loop or a compare-and-exchange. *)

From S2P Require Import Prelude GlobalDefinitions BitMap.

Open Scope Z_scope.

(** Where a thread is in its call. *)
Inductive pc :=
| Start                      (* before [old_val = *addr] *)
| Loop (old_val : Z)         (* at the head of the [do] loop *)
| Returned (changed : bool).

(** A call of [par_at_put(bit, value)]. *)
Record thread := mkThread { t_bit : Z; t_value : bool; t_pc : pc }.

Record state := mkState { words : list Z; threads : list thread }.

(** One step of one thread: the words and the new position. *)
Definition thread_step (m : list Z) (t : thread) : option (list Z * thread) :=
  let addr := word_index (t_bit t) in
  match t_pc t with
  | Start =>
      old_val ← load m addr;
      Some (m, mkThread (t_bit t) (t_value t) (Loop old_val))
  | Loop old_val =>
      let new_val := (if t_value t then set_new_val (t_bit t)
                      else clear_new_val (t_bit t)) old_val in
      if new_val =? old_val
      then Some (m, mkThread (t_bit t) (t_value t) (Returned false))
      else
        '(cur_val, m) ← cmpxchg_ptr m new_val addr old_val;
        Some (m, mkThread (t_bit t) (t_value t)
                   (if cur_val =? old_val then Returned true else Loop cur_val))
  | Returned _ => None
  end.

(** Any thread may take the next step. *)
Inductive step : state -> state -> Prop :=
| step_thread i m ts t m' t' :
    ts !! i = Some t -> thread_step m t = Some (m', t') ->
    step (mkState m ts) (mkState m' (<[i := t']> ts)).

(** The change of bit [b] that the calls that returned true account for. *)
Definition credit (b : Z) (t : thread) : Z :=
  match t_pc t with
  | Returned true => if decide (t_bit t = b) then (if t_value t then 1 else -1) else 0
  | _ => 0
  end.

Definition credits (b : Z) (ts : list thread) : Z := foldr Z.add 0 (credit b <$> ts).

Definition pc_ok (p : pc) : Prop :=
  match p with Loop old_val => is_u 64 old_val | _ => True end.

Definition state_ok (st : state) : Prop :=
  Forall (is_u 64) (words st) /\ zlen (words st) < 2 ^ 58 /\
  Forall (fun t => 0 <= t_bit t < 64 * zlen (words st) /\ pc_ok (t_pc t)) (threads st).

Definition initial (st : state) : Prop := Forall (fun t => t_pc t = Start) (threads st).

(** [n] steps of one thread that runs alone. *)
Fixpoint run_alone (n : nat) (m : list Z) (t : thread) : list Z * thread :=
  match n with
  | O => (m, t)
  | S n => match thread_step m t with
           | Some (m', t') => run_alone n m' t'
           | None => (m, t)
           end
  end.

(** * One step *)

Lemma credits_insert b ts i t t' :
  ts !! i = Some t -> credits b (<[i := t']> ts) = credits b ts + credit b t' - credit b t.
Proof.
  unfold credits. revert i. induction ts as [|x ts IH]; intros [|i] E; try done.
  - injection E as ->. simpl. lia.
  - change (credit b x + foldr Z.add 0 (credit b <$> <[i:=t']> ts)
            = credit b x + foldr Z.add 0 (credit b <$> ts) + credit b t' - credit b t).
    rewrite (IH i E). lia.
Qed.

Lemma new_val_eq (value : bool) b old :
  (if value then set_new_val b else clear_new_val b) old = new_val_of value b old.
Proof. by destruct value. Qed.

Lemma bit_store m addr w w' m' i :
  0 <= i -> load m addr = Some w -> store m addr w' = Some m' ->
  bit m' i = if decide (i / 64 = addr) then Z.testbit w' (i mod 64) else bit m i.
Proof.
  intros Hi Hw Hm. unfold bit. rewrite (load_store _ _ _ _ _ Hm).
  repeat case_decide; congruence.
Qed.

(** What a step does: it keeps the words in range and accounts for every bit it
    changes; a thread in its loop holds a 64-bit value. *)
Lemma thread_step_ok m t m' t' :
  Forall (is_u 64) m -> 0 <= t_bit t -> pc_ok (t_pc t) ->
  thread_step m t = Some (m', t') ->
  t_bit t' = t_bit t /\ t_value t' = t_value t /\ pc_ok (t_pc t') /\
  Forall (is_u 64) m' /\ length m' = length m /\
  forall b, 0 <= b -> Z.b2z (bit m' b) - credit b t' = Z.b2z (bit m b) - credit b t.
Proof.
  intros Hm Hb Hpc E. destruct t as [b v p]. unfold thread_step in E. simpl in *.
  destruct p as [|old|c]; [| |done].
  - destruct (load m (word_index b)) as [w|] eqn:Ew; [|done]. injection E as <- <-.
    split_and!; [done|done|exact (load_Forall _ _ _ _ Hm Ew)|done|done|]. by intros.
  - rewrite new_val_eq in E.
    destruct (Z.eqb_spec (new_val_of v b old) old) as [Es|Es].
    { injection E as <- <-. split_and!; [done..|]. by intros. }
    unfold cmpxchg_ptr in E. destruct (load m (word_index b)) as [w|] eqn:Ew; [|done].
    pose proof (load_Forall _ _ _ _ Hm Ew) as Hw.
    cbn [mbind option_bind] in E. destruct (Z.eqb_spec w old) as [->|Hne].
    + destruct (store m (word_index b) (new_val_of v b old)) as [m1|] eqn:Em; [|done].
      cbn [mbind option_bind] in E. rewrite Z.eqb_refl in E. injection E as <- <-.
      split_and!; [done|done|done| |by eapply store_length|].
      * eapply store_Forall; [done| |done]. by apply new_val_range.
      * intros b' Hb'. rewrite (bit_store _ _ _ _ _ _ Hb' Ew Em), word_index_eq.
        unfold credit. simpl. rewrite new_val_testbit by int_lia.
        rewrite new_val_same in Es by done. unfold bit. rewrite word_index_eq in Ew.
        destruct (decide (b' / 64 = b / 64)) as [Eq|]; [|rewrite decide_False by congruence; lia].
        rewrite Eq, Ew. destruct (decide (b' mod 64 = b mod 64)) as [Em'|].
        -- rewrite decide_True by int_lia. rewrite Em'.
           by destruct v, (Z.testbit old (b mod 64)).
        -- rewrite decide_False by congruence. lia.
    + cbn [mbind option_bind] in E. destruct (Z.eqb_spec w old); [done|]. injection E as <- <-.
      split_and!; [done..|]. by intros.
Qed.

Lemma step_ok st st' :
  state_ok st -> step st st' ->
  state_ok st' /\ zlen (words st') = zlen (words st) /\
  length (threads st') = length (threads st) /\
  (forall i t', threads st' !! i = Some t' ->
     exists t, threads st !! i = Some t /\ t_bit t' = t_bit t /\ t_value t' = t_value t) /\
  forall b, 0 <= b -> Z.b2z (bit (words st') b) - credits b (threads st')
                      = Z.b2z (bit (words st) b) - credits b (threads st).
Proof.
  intros (Hm & Hz & Hts) Hstep. destruct Hstep as [i m ts t m' t' Ei Et]. simpl in *.
  destruct (Forall_lookup_1 _ _ _ _ Hts Ei) as [Hb Hpc].
  destruct (thread_step_ok _ _ _ _ Hm (proj1 Hb) Hpc Et) as (Eb & Ev & Hpc' & Hm' & Hl & Hcr).
  split_and!; simpl.
  - split_and!; simpl; [done|lia|].
    apply Forall_insert; [by rewrite Hl|]. rewrite Eb, Hl. done.
  - lia.
  - apply length_insert.
  - intros j u Hj. destruct (decide (i = j)) as [<-|Hne].
    + rewrite list_lookup_insert_eq in Hj by (by eapply lookup_lt_Some).
      injection Hj as <-. by exists t.
    + rewrite list_lookup_insert_ne in Hj by done. by exists u.
  - intros b Hb'. rewrite (credits_insert _ _ _ _ _ Ei). specialize (Hcr b Hb'). lia.
Qed.

Lemma steps_ok st st' :
  state_ok st -> rtc step st st' ->
  state_ok st' /\ length (threads st') = length (threads st) /\
  (forall i t', threads st' !! i = Some t' ->
     exists t, threads st !! i = Some t /\ t_bit t' = t_bit t /\ t_value t' = t_value t) /\
  forall b, 0 <= b -> Z.b2z (bit (words st') b) - credits b (threads st')
                      = Z.b2z (bit (words st) b) - credits b (threads st).
Proof.
  intros Hok Hsteps. induction Hsteps as [|st st1 st' Hstep _ IH].
  - split_and!; [done|done|naive_solver|done].
  - destruct (step_ok _ _ Hok Hstep) as (Hok1 & _ & Hl1 & Ht1 & Hc1).
    destruct (IH Hok1) as (Hok' & Hl' & Ht' & Hc'). split_and!; [done|congruence| |].
    + intros i t' Hi. destruct (Ht' i t' Hi) as (t1 & Hi1 & Eb & Ev).
      destruct (Ht1 i t1 Hi1) as (t & Hi0 & Eb1 & Ev1). exists t. split_and!; congruence.
    + intros b Hb. rewrite Hc', Hc1 by done. done.
Qed.

(** ** When nobody clears a bit *)

Definition only_setters (b : Z) (ts : list thread) : Prop :=
  Forall (fun t => t_bit t = b -> t_value t = true) ts.

(** A call on [b] that has seen it set, or has returned, leaves it set. *)
Definition settled (b : Z) (m : list Z) (t : thread) : Prop :=
  t_bit t = b ->
  match t_pc t with
  | Start => True
  | Loop old_val => Z.testbit old_val (b mod 64) = true -> bit m b = true
  | Returned _ => bit m b = true
  end.

Lemma settled_mono b m m' t :
  (bit m b = true -> bit m' b = true) -> settled b m t -> settled b m' t.
Proof. unfold settled. intros Hmono H E. specialize (H E). destruct (t_pc t); auto. Qed.

Lemma bit_mono b m t m' t' :
  Forall (is_u 64) m -> 0 <= b -> 0 <= t_bit t -> pc_ok (t_pc t) ->
  (t_bit t = b -> t_value t = true) ->
  thread_step m t = Some (m', t') -> bit m b = true -> bit m' b = true.
Proof.
  intros Hm Hb Htb Hpc Hset E Hbit.
  destruct (thread_step_ok _ _ _ _ Hm Htb Hpc E) as (Eb & Ev & _ & _ & _ & Hcr).
  specialize (Hcr b Hb). rewrite Hbit in Hcr.
  assert (credit b t <= 0 /\ 0 <= credit b t') as Hc.
  { split.
    - unfold credit, thread_step in *. by destruct (t_pc t) as [| |[]].
    - unfold credit. destruct (t_pc t') as [| |[]]; try done. rewrite Eb, Ev.
      case_decide; [|done]. by rewrite Hset. }
  destruct (bit m' b); [done|]. simpl in Hcr. lia.
Qed.

Lemma thread_step_settled b m t m' t' :
  Forall (is_u 64) m -> 0 <= b -> 0 <= t_bit t -> pc_ok (t_pc t) ->
  (t_bit t = b -> t_value t = true) ->
  thread_step m t = Some (m', t') -> settled b m t -> settled b m' t'.
Proof.
  intros Hm Hb Htb Hpc Hset E Hs Hbb.
  pose proof (thread_step_ok _ _ _ _ Hm Htb Hpc E) as (Eb & Ev & _ & _ & _ & Hcr).
  rewrite Eb in Hbb. specialize (Hs Hbb). specialize (Hset Hbb).
  specialize (Hcr b Hb). unfold credit in Hcr. rewrite Eb, Ev, Hset, decide_True in Hcr by done.
  destruct t as [tb v p]. simpl in *. subst tb v. unfold thread_step in E. simpl in E.
  destruct p as [|old|c]; [| |done].
  - destruct (load m (word_index b)) as [w|] eqn:Ew; [|done]. injection E as <- <-. simpl.
    unfold bit. rewrite word_index_eq in Ew. by rewrite Ew.
  - rewrite (new_val_eq true) in E.
    destruct (Z.eqb_spec (new_val_of true b old) old) as [Es|Es].
    { injection E as <- <-. simpl. apply Hs. by apply new_val_same in Es. }
    unfold cmpxchg_ptr in E. destruct (load m (word_index b)) as [w|] eqn:Ew; [|done].
    cbn [mbind option_bind] in E. destruct (Z.eqb_spec w old) as [->|Hne].
    + destruct (store _ _ _) as [m1|]; [|done]. cbn [mbind option_bind] in E.
      rewrite Z.eqb_refl in E. injection E as <- <-. simpl in *.
      destruct (bit m1 b); [done|]. destruct (bit m b); simpl in Hcr; lia.
    + cbn [mbind option_bind] in E. destruct (Z.eqb_spec w old); [done|]. injection E as <- <-.
      simpl. unfold bit. rewrite word_index_eq in Ew. by rewrite Ew.
Qed.

Lemma steps_settled b st st' :
  state_ok st -> 0 <= b -> only_setters b (threads st) ->
  Forall (settled b (words st)) (threads st) -> rtc step st st' ->
  only_setters b (threads st') /\ Forall (settled b (words st')) (threads st').
Proof.
  intros Hok Hb Hset Hs Hsteps. revert Hok Hset Hs.
  induction Hsteps as [|st st1 st' Hstep _ IH]; [done|]. intros Hok Hset Hs.
  pose proof (step_ok _ _ Hok Hstep) as (Hok1 & _).
  destruct Hok as (Hm & Hz & Hts). destruct Hstep as [i m ts t m' t' Ei Et]. simpl in *.
  destruct (Forall_lookup_1 _ _ _ _ Hts Ei) as [Htb Hpc].
  pose proof (Forall_lookup_1 _ _ _ _ Hset Ei) as Hset1. simpl in Hset1.
  destruct (thread_step_ok _ _ _ _ Hm (proj1 Htb) Hpc Et) as (Eb & Ev & _).
  apply IH; simpl; [done| |].
  - apply Forall_insert; [done|]. simpl. rewrite Eb, Ev. done.
  - apply Forall_insert.
    + eapply Forall_impl; [exact Hs|]. intros u. apply settled_mono.
      apply (bit_mono b m t m' t'); (done || lia).
    + apply (thread_step_settled b m t m' t'); try (done || lia).
      exact (Forall_lookup_1 _ _ _ _ Hs Ei).
Qed.

Definition won (b : Z) (t : thread) : bool :=
  bool_decide (t_bit t = b) && match t_pc t with Returned true => true | _ => false end.

Lemma credits_setters b ts :
  only_setters b ts -> credits b ts = zlen (filter (fun t => won b t = true) ts).
Proof.
  unfold credits. induction 1 as [|t ts Ht _ IH]; [done|].
  rewrite fmap_cons, filter_cons. cbn [foldr]. rewrite IH. unfold credit, won.
  repeat case_decide; repeat case_bool_decide; destruct (t_pc t) as [| |[]]; simpl in *;
    try done; try lia; try (rewrite Ht by done; lia).
Qed.

Lemma run_alone_returns m t :
  Forall (is_u 64) m -> 0 <= t_bit t < 64 * zlen m -> pc_ok (t_pc t) ->
  exists c, t_pc (snd (run_alone 3 m t)) = Returned c.
Proof.
  intros Hm Hb Hpc. destruct t as [b v p]. simpl in *.
  assert (0 <= word_index b < zlen m) as Hi by (rewrite word_index_eq; int_lia).
  destruct (load_is_Some m _ Hi) as [w Ew].
  assert (forall n, exists c,
    t_pc (snd (run_alone (S n) m (mkThread b v (Loop w)))) = Returned c) as Hsame.
  { intros n. cbn [run_alone]. unfold thread_step. simpl.
    destruct (_ =? w); [exists false; by destruct n|].
    unfold cmpxchg_ptr. rewrite Ew. cbn [mbind option_bind]. rewrite Z.eqb_refl.
    match goal with |- context [store m ?i ?x] => destruct (store_is_Some m i x Hi) as [m1 ->] end.
    cbn [mbind option_bind]. rewrite Z.eqb_refl. exists true. by destruct n. }
  destruct p as [|old|c]; [| |by exists c].
  - cbn [run_alone]. unfold thread_step at 1. simpl t_pc. cbv iota. simpl t_bit.
    rewrite Ew. cbn [mbind option_bind]. exact (Hsame 1%nat).
  - destruct (decide (w = old)) as [<-|Hne]; [exact (Hsame 2%nat)|].
    cbn [run_alone]. unfold thread_step at 1. simpl t_pc. cbv iota. simpl t_bit. simpl t_value.
    destruct (_ =? old); [by exists false|].
    unfold cmpxchg_ptr. rewrite Ew. cbn [mbind option_bind].
    replace (w =? old) with false by lia. cbn [mbind option_bind].
    replace (w =? old) with false by lia. exact (Hsame 1%nat).
Qed.

(** C9: Under any interleaving of calls of [par_set_bit] and [par_clear_bit] on
    one map, each bit has changed exactly by what the calls that returned true
    account for, one up for a set and one down for a clear, so no update is lost
    and none is reported twice; if no call clears bit [b], at most one call on
    it returns true, exactly one if the bit was clear and some call has
    returned, and after any return the bit is set; and a call that runs alone
    from any reachable state returns within three accesses. *)
Theorem par_bits_linear st0 st b :
  state_ok st0 -> initial st0 -> rtc step st0 st -> 0 <= b ->
  Z.b2z (bit (words st) b) = Z.b2z (bit (words st0) b) + credits b (threads st) /\
  (only_setters b (threads st0) ->
     zlen (filter (fun t => won b t = true) (threads st)) <= 1 /\
     forall i t c, threads st !! i = Some t -> t_bit t = b -> t_pc t = Returned c ->
       bit (words st) b = true /\
       (bit (words st0) b = false ->
        zlen (filter (fun t => won b t = true) (threads st)) = 1)) /\
  (forall i t, threads st !! i = Some t ->
     exists c, t_pc (snd (run_alone 3 (words st) t)) = Returned c).
Proof.
  intros Hok Hinit Hsteps Hb.
  destruct (steps_ok _ _ Hok Hsteps) as (Hok' & Hl & Ht & Hacc). specialize (Hacc b Hb).
  assert (credits b (threads st0) = 0) as Hc0.
  { unfold credits. clear -Hinit. unfold initial in Hinit.
    induction Hinit as [|t ts E _ IH]; [done|]. rewrite fmap_cons. cbn [foldr].
    rewrite IH. unfold credit. by rewrite E. }
  split_and!; [lia| |].
  - intros Hset. destruct (steps_settled b st0 st Hok Hb Hset) as [Hset' Hs]; [|done|].
    { eapply Forall_impl; [exact Hinit|]. intros t E. unfold settled. by rewrite E. }
    rewrite <- credits_setters by done. split.
    + destruct (bit (words st) b), (bit (words st0) b); simpl in *; lia.
    + intros i t c Hi Htb Hpc. pose proof (Forall_lookup_1 _ _ _ _ Hs Hi Htb) as Hbit.
      rewrite Hpc in Hbit. split; [done|]. intros E0. rewrite Hbit, E0 in Hacc. simpl in Hacc. lia.
  - intros i t Hi. destruct Hok' as (Hm & _ & Hts).
    destruct (Forall_lookup_1 _ _ _ _ Hts Hi). by apply run_alone_returns.
Qed.

(** Two threads set bit 3 and one clears bit 65: the first thread reads, the
    second wins. *)
Definition example_start : state :=
  mkState [1; 2] [mkThread 3 true Start; mkThread 3 true Start; mkThread 65 false Start].

Lemma par_bits_linear_witness :
  exists st, rtc step example_start st /\
    Z.b2z (bit (words st) 3) = Z.b2z (bit (words example_start) 3) + credits 3 (threads st).
Proof.
  assert (exists st, rtc step example_start st /\
    st = mkState [9; 2] [mkThread 3 true (Loop 9); mkThread 3 true (Returned true);
                         mkThread 65 false Start]) as (st & Hsteps & _).
  { eexists. split; [|reflexivity].
    eapply rtc_l; [eapply (step_thread 0 [1; 2]); reflexivity|].
    eapply rtc_l; [eapply (step_thread 1 [1; 2]); reflexivity|].
    eapply rtc_l; [eapply (step_thread 1 [1; 2]); reflexivity|].
    eapply rtc_l; [eapply (step_thread 0 [9; 2]); reflexivity|].
    apply rtc_refl. }
  exists st. split; [done|]. apply (par_bits_linear example_start st 3); [| |done|done].
  - split_and!; simpl; [repeat constructor; unfold is_u; lia|lia|].
    repeat constructor; simpl; lia.
  - repeat constructor.
Defined.
