(* ===== verification/StubQueue.v ===== *)
(** * Queues of code stubs

    Model of code/stubs.hpp and code/stubs.cpp: the wrap-around queue of stubs of
    varying size, its (request, commit) transactions, removal and iteration, and
    the two stub classes of interpreter/interpreter.hpp and code/icBuffer.hpp
    that are queued.

    A [Stub*] is its address; [NULL] is [None].  The stubs' own fields live in a
    memory [M] that the queue only reaches through [StubInterface].  Assertions
    hold back a [debug] build and are absent from a product build: [None] is a
    failed assertion or guarantee, or a mutex locked twice by its owner. *)

From S2P Require Import Prelude GlobalDefinitions.

Open Scope Z_scope.

(** ** The interface between a queue and its stubs *)

Class StubInterface (M : Type) := {
  si_initialize : M -> Z -> Z -> M;
  si_finalize : M -> Z -> option M;
  si_size : M -> Z -> Z;
  si_code_size_to_size : Z -> Z;
  si_code_begin : M -> Z -> Z;
  si_code_end : M -> Z -> Z
}.

(** What a queue relies on: the size is the one given to [initialize], a stub
    keeps it while it lies outside the stub being initialized, and the code lies
    within the stub. *)
Class StubInterfaceLaws (M : Type) `{StubInterface M} := {
  size_initialize m s n : si_size (si_initialize m s n) s = n;
  size_initialize_other m s n s' :
    0 < n -> 0 < si_size m s' -> s' + si_size m s' <= s \/ s + n <= s' ->
    si_size (si_initialize m s n) s' = si_size m s';
  code_fits c : 0 < c -> c <= si_code_size_to_size c;
  code_mono c c' : c <= c' -> si_code_size_to_size c <= si_code_size_to_size c';
  code_within m s : s <= si_code_begin m s /\ si_code_end m s <= s + si_size m s
}.

(** Stubs that may be removed from their queue: finalization returns and keeps
    the sizes. *)
Class StubRemovable (M : Type) `{StubInterface M} := {
  size_finalize m s : exists m', si_finalize m s = Some m' /\ forall s', si_size m' s' = si_size m s'
}.

(** [Mutex*]: [None] when there is none, otherwise whether it is locked. *)
Definition mutex := option bool.

Definition lock (mu : mutex) : option mutex :=
  match mu with
  | None => Some None
  | Some false => Some (Some true)
  | Some true => None
  end.

Definition unlock (mu : mutex) : option mutex :=
  match mu with
  | None => Some None
  | Some true => Some (Some false)
  | Some false => None
  end.

Record StubQueue (M : Type) := mkStubQueue {
  _stub_buffer : Z;
  _buffer_size : Z;
  _buffer_limit : Z;
  _queue_begin : Z;
  _queue_end : Z;
  _number_of_stubs : Z;
  _mutex : mutex;
  stubs_mem : M
}.
Arguments mkStubQueue {M}.
Arguments _stub_buffer {M}.
Arguments _buffer_size {M}.
Arguments _buffer_limit {M}.
Arguments _queue_begin {M}.
Arguments _queue_end {M}.
Arguments _number_of_stubs {M}.
Arguments _mutex {M}.
Arguments stubs_mem {M}.

Section queue.
Context {M : Type} `{StubInterface M} (debug : bool) (CodeEntryAlignment : Z).

Notation "'CHECK' b ;; e" := (if negb debug || b%bool then e else None)
  (at level 100, b at level 99, e at level 200, right associativity).

Implicit Types (q : StubQueue M).

Definition set_mutex q (mu : mutex) : StubQueue M :=
  mkStubQueue (_stub_buffer q) (_buffer_size q) (_buffer_limit q) (_queue_begin q)
    (_queue_end q) (_number_of_stubs q) mu (stubs_mem q).
Definition set_mem q (m : M) : StubQueue M :=
  mkStubQueue (_stub_buffer q) (_buffer_size q) (_buffer_limit q) (_queue_begin q)
    (_queue_end q) (_number_of_stubs q) (_mutex q) m.
Definition set_indices q (limit begin_ end_ : Z) : StubQueue M :=
  mkStubQueue (_stub_buffer q) (_buffer_size q) limit begin_ end_
    (_number_of_stubs q) (_mutex q) (stubs_mem q).
Definition set_number q (n : Z) : StubQueue M :=
  mkStubQueue (_stub_buffer q) (_buffer_size q) (_buffer_limit q) (_queue_begin q)
    (_queue_end q) n (_mutex q) (stubs_mem q).

(** [BufferBlob::create] gives the size and the address of the instructions. *)
Definition create (instructions_begin instructions_size : Z) (lock : mutex) (m : M)
    : StubQueue M :=
  mkStubQueue instructions_begin instructions_size instructions_size 0 0 0 lock m.

Definition check_index q (i : Z) : bool :=
  (0 <=? i) && (i <? _buffer_limit q) && (Z.rem i CodeEntryAlignment =? 0).
Definition is_contiguous q : bool := _queue_begin q <=? _queue_end q.
Definition index_of q (s : Z) : option Z :=
  let i := s32 (s - _stub_buffer q) in
  CHECK check_index q i ;;
  Some i.
Definition stub_at q (i : Z) : option Z :=
  CHECK check_index q i ;;
  Some (_stub_buffer q + i).
Definition current_stub q : option Z := stub_at q (_queue_end q).

Definition stub_initialize q (s size : Z) : option (StubQueue M) :=
  CHECK (Z.rem size CodeEntryAlignment =? 0) ;;
  Some (set_mem q (si_initialize (stubs_mem q) s size)).
Definition stub_finalize q (s : Z) : option (StubQueue M) :=
  m ← si_finalize (stubs_mem q) s;
  Some (set_mem q m).
Definition stub_size q (s : Z) : Z := si_size (stubs_mem q) s.
Definition stub_contains q (s pc : Z) : bool :=
  (si_code_begin (stubs_mem q) s <=? pc) && (pc <? si_code_end (stubs_mem q) s).
Definition stub_code_size_to_size (code_size : Z) : Z := si_code_size_to_size code_size.

Definition is_empty q : bool := _queue_begin q =? _queue_end q.
Definition total_space q : Z := _buffer_size q - 1.
Definition available_space q : Z :=
  let d := _queue_begin q - _queue_end q - 1 in
  if d <? 0 then d + _buffer_size q else d.
Definition number_of_stubs q : Z := _number_of_stubs q.
Definition contains q (pc : Z) : bool :=
  (_stub_buffer q <=? pc) && (pc <? _stub_buffer q + _buffer_limit q).

Definition first q : option (option Z) :=
  if number_of_stubs q >? 0 then s ← stub_at q (_queue_begin q); Some (Some s)
  else Some None.

Definition next q (s : Z) : option (option Z) :=
  i ← index_of q s;
  let i := s32 (i + stub_size q s) in
  let i := if i =? _buffer_limit q then 0 else i in
  if i =? _queue_end q then Some None else s ← stub_at q i; Some (Some s).

(** ** Transactions *)

Definition stub_bytes (code_size : Z) : Z :=
  s32 (round_to (stub_code_size_to_size code_size) CodeEntryAlignment).

(** The second half of [request], entered when the stub did not fit at the end. *)
Definition request_wrapped q (requested_size : Z) : option (option Z * StubQueue M) :=
  if requested_size <=? available_space q then
    CHECK negb (is_contiguous q) ;;
    CHECK (_buffer_limit q <=? _buffer_size q) ;;
    s ← current_stub q;
    q ← stub_initialize q s requested_size;
    Some (Some s, q)
  else
    mu ← unlock (_mutex q);
    Some (None, set_mutex q mu).

Definition request q (requested_code_size : Z) : option (option Z * StubQueue M) :=
  CHECK (requested_code_size >? 0) ;;
  mu ← lock (_mutex q);
  let q := set_mutex q mu in
  s ← current_stub q;
  let requested_size := stub_bytes requested_code_size in
  if (requested_size <=? available_space q) && is_contiguous q then
    CHECK (_buffer_limit q =? _buffer_size q) ;;
    if s32 (_queue_end q + requested_size) <=? _buffer_size q then
      q ← stub_initialize q s requested_size;
      Some (Some s, q)
    else
      CHECK negb (is_empty q) ;;
      request_wrapped (set_indices q (_queue_end q) (_queue_begin q) 0) requested_size
  else request_wrapped q requested_size.

Definition commit q (committed_code_size : Z) : option (StubQueue M) :=
  CHECK (committed_code_size >? 0) ;;
  let committed_size := stub_bytes committed_code_size in
  s ← current_stub q;
  CHECK (committed_size <=? stub_size q s) ;;
  q ← stub_initialize q s committed_size;
  let q := set_indices q (_buffer_limit q) (_queue_begin q) (s32 (_queue_end q + committed_size)) in
  let q := set_number q (s32 (_number_of_stubs q + 1)) in
  mu ← unlock (_mutex q);
  Some (set_mutex q mu).

Definition request_committed q (code_size : Z) : option (option Z * StubQueue M) :=
  '(s, q) ← request q code_size;
  match s with
  | Some s => q ← commit q code_size; Some (Some s, q)
  | None => Some (None, q)
  end.

(** ** Removal *)

Definition remove_first q : option (StubQueue M) :=
  if number_of_stubs q =? 0 then Some q
  else
    f ← first q;
    s ← f;
    q ← stub_finalize q s;
    let q := set_indices q (_buffer_limit q) (s32 (_queue_begin q + stub_size q s)) (_queue_end q) in
    CHECK (_queue_begin q <=? _buffer_limit q) ;;
    let q := if _queue_begin q =? _queue_end q then set_indices q (_buffer_size q) 0 0
             else if _queue_begin q =? _buffer_limit q
             then set_indices q (_buffer_size q) 0 (_queue_end q)
             else q in
    Some (set_number q (s32 (_number_of_stubs q - 1))).

Fixpoint remove_first_loop (i : nat) q : option (StubQueue M) :=
  match i with
  | O => Some q
  | S i => q ← remove_first q; remove_first_loop i q
  end.

Definition remove_first_n q (n : Z) : option (StubQueue M) :=
  remove_first_loop (Z.to_nat (MIN2 n (number_of_stubs q))) q.

(** ** Iteration

    [for (Stub* s = first(); s != NULL; s = next(s))] with a body that leaves
    the queue alone and may stop; [None] also when the fuel runs out. *)
Fixpoint stubs_loop {S_ : Type} (body : S_ -> Z -> S_ * bool) (fuel : nat) q (s : option Z) (st : S_)
    : option S_ :=
  match fuel with
  | O => None
  | S fuel =>
      match s with
      | None => Some st
      | Some s =>
          let '(st, stop) := body st s in
          if stop then Some st
          else n ← next q s; stubs_loop body fuel q n st
      end
  end.

Definition stub_containing (fuel : nat) q (pc : Z) : option (option Z) :=
  if contains q pc then
    f ← first q;
    stubs_loop (fun _ s => if stub_contains q s pc then (Some s, true) else (None, false))
      fuel q f None
  else Some None.

(** The queue's own consistency check; the stubs' [verify] functions are empty
    in both stub classes. *)
Definition verify (fuel : nat) q : option (StubQueue M) :=
  mu ← lock (_mutex q);
  if (0 <=? _buffer_size q)
     && ((0 <=? _buffer_limit q) && (_buffer_limit q <=? _buffer_size q))
     && ((0 <=? _queue_begin q) && (_queue_begin q <? _buffer_limit q))
     && ((0 <=? _queue_end q) && (_queue_end q <=? _buffer_limit q))
     && (Z.rem (_buffer_size q) CodeEntryAlignment =? 0)
     && (Z.rem (_buffer_limit q) CodeEntryAlignment =? 0)
     && (Z.rem (_queue_begin q) CodeEntryAlignment =? 0)
     && (Z.rem (_queue_end q) CodeEntryAlignment =? 0)
     && (negb (is_contiguous q) || (_buffer_limit q =? _buffer_size q))
  then
    f ← first q;
    n ← stubs_loop (fun n _ => (n + 1, false)) fuel q f 0;
    if (n =? number_of_stubs q) && (negb (_queue_begin q =? _queue_end q) || (n =? 0))
    then mu ← unlock mu; Some (set_mutex q mu)
    else None
  else None.

Definition remove_all (fuel : nat) q : option (StubQueue M) :=
  q ← (if debug then verify fuel q else Some q);
  q ← remove_first_n q (number_of_stubs q);
  CHECK (number_of_stubs q =? 0) ;;
  Some q.

Definition stubs_do {S_ : Type} (f : S_ -> Z -> S_) (fuel : nat) q (st : S_) : option S_ :=
  q ← (if debug then verify fuel q else Some q);
  mu ← lock (_mutex q);
  fst_ ← first q;
  stubs_loop (fun st s => (f st s, false)) fuel q fst_ st.
End queue.

(** ** The registered queues *)

Definition StubQueueLimit : nat := 10.

Fixpoint register_queue {Q : Type} (registered_stub_queues : list (option Q)) (sq : Q)
    : option (list (option Q)) :=
  match registered_stub_queues with
  | [] => None
  | None :: rest => Some (Some sq :: rest)
  | Some q :: rest => rest' ← register_queue rest sq; Some (Some q :: rest')
  end.

Definition queues_do {Q S_ : Type} (f : S_ -> Q -> S_) (registered_stub_queues : list (option Q))
    (st : S_) : S_ :=
  fold_left (fun st oq => match oq with Some q => f st q | None => st end)
    registered_stub_queues st.

(** ** The queued stub classes *)

(** The fields of the stubs in a buffer: [_size] by the stub's address. *)
Abbreviation stub_fields := (gmap Z Z).

Definition header_size (CodeEntryAlignment sizeof : Z) : Z := round_to sizeof CodeEntryAlignment.

(** A codelet is never removed: [finalize] is [ShouldNotCallThis]. *)
Definition InterpreterCodelet_interface (CodeEntryAlignment : Z) : StubInterface stub_fields := {|
  si_initialize m s size := <[s := size]> m;
  si_finalize m s := None;
  si_size m s := default 0 (m !! s);
  si_code_size_to_size code_size := header_size CodeEntryAlignment 24 + code_size;
  si_code_begin m s := s + header_size CodeEntryAlignment 24;
  si_code_end m s := s + default 0 (m !! s)
|}.

(** Finalizing an inline-cache stub patches the cache that owns it, outside the
    buffer. *)
Definition ICStub_interface (CodeEntryAlignment : Z) : StubInterface stub_fields := {|
  si_initialize m s size := <[s := size]> m;
  si_finalize m s := Some m;
  si_size m s := default 0 (m !! s);
  si_code_size_to_size code_size := header_size CodeEntryAlignment 16 + code_size;
  si_code_begin m s := s + header_size CodeEntryAlignment 16;
  si_code_end m s := s + default 0 (m !! s)
|}.

(** * The layout of a queue *)

Set Default Proof Using "Type*".

Section layout.
Context {M : Type} {SI : StubInterface M} {laws : StubInterfaceLaws M}.
Context (debug : bool) (logA : Z) (logA_range : 0 <= logA <= 12).

Implicit Types (q : StubQueue M) (l : list (Z * Z)).

(** The stubs [l], pairs of index and size, fill the bytes [from, to). *)
Fixpoint tiles (m : M) (base from to : Z) l : Prop :=
  match l with
  | [] => from = to
  | (i, n) :: l =>
      i = from /\ 0 < n /\ (2 ^ logA | n) /\ si_size m (base + i) = n /\
      tiles m base (from + n) to l
  end.

(** The two states of the comment in stubs.cpp. *)
Inductive arrangement q l : Prop :=
| contiguous_state :
    _buffer_limit q = _buffer_size q -> _queue_end q <= _buffer_size q ->
    (l = [] -> _queue_begin q = 0) ->
    tiles (stubs_mem q) (_stub_buffer q) (_queue_begin q) (_queue_end q) l ->
    arrangement q l
| wrapped_state l1 l2 :
    l = l1 ++ l2 -> l1 <> [] ->
    _queue_end q < _queue_begin q -> _buffer_limit q <= _buffer_size q ->
    tiles (stubs_mem q) (_stub_buffer q) (_queue_begin q) (_buffer_limit q) l1 ->
    tiles (stubs_mem q) (_stub_buffer q) 0 (_queue_end q) l2 ->
    arrangement q l.

(** [q] holds the stubs [l], oldest first. *)
Record repr q l : Prop := {
  repr_size : 0 < _buffer_size q <= 2 ^ 30;
  repr_aligned : (2 ^ logA | _buffer_size q);
  repr_begin : 0 <= _queue_begin q;
  repr_begin_aligned : (2 ^ logA | _queue_begin q);
  repr_number : _number_of_stubs q = zlen l;
  repr_layout : arrangement q l
}.

(** Code sizes for which the size arithmetic stays within an [int]. *)
Definition fits (code_size : Z) : Prop :=
  0 < code_size /\ si_code_size_to_size code_size <= 2 ^ 29.

(** The free bytes at the end of the queue. *)
Definition room q (n : Z) : Prop :=
  if is_contiguous q then _queue_end q + n <= _buffer_size q
  else _queue_end q + n < _queue_begin q.

Lemma A_pos : 0 < 2 ^ logA <= 4096.
Proof.
  split; [apply Z.pow_pos_nonneg; lia|apply (Z.pow_le_mono_r 2 logA 12); lia].
Qed.

Lemma stub_bytes_spec c :
  fits c -> let n := stub_bytes (2 ^ logA) c in
  si_code_size_to_size c <= n /\ 0 < n < 2 ^ 30 /\ (2 ^ logA | n).
Proof.
  intros [Hc Hfit]. pose proof A_pos. pose proof (code_fits c Hc).
  unfold stub_bytes, stub_code_size_to_size. simpl.
  destruct (round_up_bounds (si_code_size_to_size c) (2 ^ logA)) as [Hb Hd]; [lia|].
  rewrite round_to_spec by (pow2_norm; lia).
  rewrite wraps_id by (try done; unfold is_s; pow2_norm; lia).
  split_and!; [lia|lia|pow2_norm; lia|done].
Qed.

Lemma stub_bytes_mono c c' :
  fits c' -> 0 < c <= c' -> stub_bytes (2 ^ logA) c <= stub_bytes (2 ^ logA) c'.
Proof.
  intros [Hc' Hfit] Hc. pose proof (code_mono c c' ltac:(lia)). pose proof A_pos.
  pose proof (code_fits c ltac:(lia)).
  unfold stub_bytes, stub_code_size_to_size.
  destruct (round_up_bounds (si_code_size_to_size c) (2 ^ logA)) as [Hb _]; [lia|].
  destruct (round_up_bounds (si_code_size_to_size c') (2 ^ logA)) as [Hb' _]; [lia|].
  rewrite !round_to_spec by (pow2_norm; lia).
  rewrite !wraps_id by (try done; unfold is_s; pow2_norm; lia).
  apply Z.mul_le_mono_nonneg_r; [lia|]. apply Z.div_le_mono; lia.
Qed.

Lemma tiles_end_aligned m base l : forall from to,
  tiles m base from to l -> (2 ^ logA | from) -> (2 ^ logA | to) /\ from <= to.
Proof.
  induction l as [|[i n] l IH]; intros from to Ht Hf; simpl in Ht; [by subst; split; [|lia]|].
  destruct Ht as (-> & Hn & Hd & _ & Ht). apply IH in Ht; [|by apply Z.divide_add_r].
  split; [apply Ht|lia].
Qed.

Lemma tiles_le m base l : forall from to, tiles m base from to l -> from <= to.
Proof.
  induction l as [|[i n] l IH]; intros from to Ht; simpl in Ht; [lia|].
  destruct Ht as (-> & Hn & _ & _ & Ht). apply IH in Ht. lia.
Qed.

Lemma tiles_nonempty m base l from to : tiles m base from to l -> l <> [] -> from < to.
Proof.
  destruct l as [|[i n] l]; [done|]. intros (-> & Hn & _ & _ & Ht%tiles_le) _. lia.
Qed.

Lemma tiles_in m base l i n : forall from to,
  tiles m base from to l -> (i, n) ∈ l -> from <= i /\ i + n <= to /\ 0 < n /\
    si_size m (base + i) = n.
Proof.
  induction l as [|[i' n'] l IH]; intros from to Ht Hin; [by apply not_elem_of_nil in Hin|].
  destruct Ht as (-> & Hn & Hd & Hs & Ht). apply elem_of_cons in Hin as [E|Hin].
  - injection E as -> ->. apply tiles_le in Ht. split_and!; [lia|lia|done|done].
  - destruct (IH _ _ Ht Hin) as (? & ? & ? & ?). split_and!; [lia|lia|done|done].
Qed.

Lemma tiles_app m base l1 l2 : forall from mid to,
  tiles m base from mid l1 -> tiles m base mid to l2 -> tiles m base from to (l1 ++ l2).
Proof.
  induction l1 as [|[i n] l1 IH]; intros from mid to H1 H2; simpl in *; [by subst|].
  destruct H1 as (-> & Hn & Hd & Hs & H1). split_and!; eauto.
Qed.

(** The layout depends on the memory only through the sizes of its stubs. *)
Lemma tiles_mem m m' base l : forall from to,
  (forall i n, (i, n) ∈ l -> si_size m (base + i) = n -> si_size m' (base + i) = n) ->
  tiles m base from to l -> tiles m' base from to l.
Proof.
  induction l as [|[i n] l IH]; intros from to Hm Ht; [done|].
  destruct Ht as (-> & Hn & Hd & Hs & Ht). split_and!; [done..| |].
  - apply Hm; [left|done].
  - apply IH; [|done]. intros i' n' Hin. apply Hm. by right.
Qed.

Lemma tiles_snoc m base l from to n :
  tiles m base from to l -> 0 < n -> (2 ^ logA | n) -> si_size m (base + to) = n ->
  tiles m base from (to + n) (l ++ [(to, n)]).
Proof. intros Ht Hn Hd Hs. eapply tiles_app; [done|]. by simpl. Qed.

(** ** What the layout says of the indices *)

Lemma repr_bounds q l :
  repr q l ->
  0 <= _queue_end q <= _buffer_limit q /\ _buffer_limit q <= _buffer_size q /\
  (2 ^ logA | _queue_end q) /\ (2 ^ logA | _buffer_limit q) /\
  (l <> [] -> _queue_begin q < _buffer_limit q) /\
  if is_contiguous q then _buffer_limit q = _buffer_size q /\
    (l <> [] -> _queue_begin q < _queue_end q) /\
    tiles (stubs_mem q) (_stub_buffer q) (_queue_begin q) (_queue_end q) l
  else _queue_end q < _queue_begin q /\ _queue_begin q < _buffer_limit q.
Proof.
  intros [Hs Ha Hb Hba _ [Hl He Hn Ht|l1 l2 -> Hne Hlt Hls Ht1 Ht2]]; unfold is_contiguous.
  - destruct (tiles_end_aligned _ _ _ _ _ Ht Hba) as [Hd Hle].
    replace (_queue_begin q <=? _queue_end q) with true by lia. rewrite Hl.
    pose proof (fun H => tiles_nonempty _ _ _ _ _ Ht H) as Hne.
    split_and!; [lia|lia|done|done|done|intros H%Hne; lia|done|done|done].
  - destruct (tiles_end_aligned _ _ _ _ _ Ht1 Hba) as [Hd1 Hle1].
    destruct (tiles_end_aligned _ _ _ _ _ Ht2 (Z.divide_0_r _)) as [Hd2 Hle2].
    pose proof (tiles_nonempty _ _ _ _ _ Ht1 Hne).
    replace (_queue_begin q <=? _queue_end q) with false by lia. split_and!; (done || lia).
Qed.

Lemma repr_set_mutex q l mu : repr q l -> repr (set_mutex q mu) l.
Proof.
  intros [? ? ? ? ? Hl]. split; try done.
  destruct Hl; [by apply contiguous_state|by eapply wrapped_state].
Qed.

(** The bytes of [room] hold no stub. *)
Lemma room_free q l n i k :
  repr q l -> room q n -> (i, k) ∈ l ->
  0 < k /\ si_size (stubs_mem q) (_stub_buffer q + i) = k /\
  (i + k <= _queue_end q \/ _queue_end q + n <= i).
Proof.
  intros Hr Hroom Hin. pose proof (repr_bounds q l Hr) as Hbounds.
  destruct (repr_layout q l Hr) as [Hl He Hn Ht|l1 l2 -> Hne Hlt Hls Ht1 Ht2].
  - destruct (tiles_in _ _ _ _ _ _ _ Ht Hin) as (? & ? & ? & ?). split_and!; [done|done|lia].
  - unfold room, is_contiguous in *.
    replace (_queue_begin q <=? _queue_end q) with false in * by lia.
    apply elem_of_app in Hin as [Hin|Hin].
    + destruct (tiles_in _ _ _ _ _ _ _ Ht1 Hin) as (? & ? & ? & ?). split_and!; [done|done|lia].
    + destruct (tiles_in _ _ _ _ _ _ _ Ht2 Hin) as (? & ? & ? & ?). split_and!; [done|done|lia].
Qed.

(** Live stubs keep their sizes when the stub at the end is initialized. *)
Lemma repr_initialize q l n :
  repr q l -> room q n -> 0 < n ->
  repr (set_mem q (si_initialize (stubs_mem q) (_stub_buffer q + _queue_end q) n)) l.
Proof.
  intros Hr Hroom Hn0.
  assert (forall i k, (i, k) ∈ l -> si_size (stubs_mem q) (_stub_buffer q + i) = k ->
    si_size (si_initialize (stubs_mem q) (_stub_buffer q + _queue_end q) n) (_stub_buffer q + i)
    = k) as Hk.
  { intros i k Hin Hs. destruct (room_free q l n i k Hr Hroom Hin) as (Hpos & _ & Hfree).
    rewrite size_initialize_other; [done|done|lia|lia]. }
  destruct Hr as [? ? ? ? ? Hl]. split; try done.
  destruct Hl as [Hl He Hn Ht|l1 l2 -> Hne Hlt Hls Ht1 Ht2].
  - apply contiguous_state; try done. by eapply tiles_mem.
  - eapply wrapped_state; try done; simpl; (eapply tiles_mem; [|done]);
      intros i k Hin; apply Hk; apply elem_of_app; auto.
Qed.

Lemma repr_wrap q l :
  repr q l -> l <> [] -> is_contiguous q = true -> 0 < _queue_begin q ->
  repr (set_indices q (_queue_end q) (_queue_begin q) 0) l.
Proof.
  intros Hr Hne Hc Hb. pose proof (repr_bounds q l Hr) as (? & ? & ? & ? & ? & Hcase).
  rewrite Hc in Hcase. destruct Hcase as (? & ? & Ht).
  destruct Hr as [? ? ? ? ? _]. split; try done.
  apply (wrapped_state _ _ l []); simpl; (done || lia || by rewrite app_nil_r).
Qed.

(** ** Requests *)

Lemma stub_at_ok q i :
  (debug = true -> 0 <= i < _buffer_limit q /\ (2 ^ logA | i)) ->
  stub_at debug (2 ^ logA) q i = Some (_stub_buffer q + i).
Proof.
  intros Hi. unfold stub_at, check_index. pose proof A_pos.
  destruct debug; [|done]. destruct (Hi eq_refl) as [Hr Hd]. simpl.
  replace (0 <=? i) with true by lia. replace (i <? _buffer_limit q) with true by lia.
  by rewrite (proj2 (Z.rem_divide i (2 ^ logA) ltac:(lia)) Hd).
Qed.

Lemma stub_initialize_ok q s n :
  (2 ^ logA | n) ->
  stub_initialize debug (2 ^ logA) q s n = Some (set_mem q (si_initialize (stubs_mem q) s n)).
Proof.
  intros Hd. unfold stub_initialize. pose proof A_pos.
  rewrite (proj2 (Z.rem_divide n (2 ^ logA) ltac:(lia)) Hd). by rewrite orb_true_r.
Qed.

Lemma lock_unlock mu mu' : lock mu = Some mu' -> unlock mu' = Some mu.
Proof. by destruct mu as [[]|]; intros E; simplify_eq/=. Qed.

(** Whether a stub of [n] bytes can be placed: at the end of the buffer, without
    making a queue that starts at 0 look empty, or before its first stub. *)
Definition can_place q (n : Z) : Prop :=
  if is_contiguous q
  then (_queue_end q + n <= _buffer_size q /\
        (_queue_begin q = 0 -> _queue_end q + n < _buffer_size q)) \/ n < _queue_begin q
  else _queue_end q + n < _queue_begin q.

(** A stub of [n] bytes is pending at the end of [q']. *)
Definition pending q l n q' : Prop :=
  repr q' l /\ room q' n /\ _stub_buffer q' = _stub_buffer q /\ _buffer_size q' = _buffer_size q /\
  _queue_end q' < _buffer_limit q' /\
  si_size (stubs_mem q') (_stub_buffer q' + _queue_end q') = n.

Lemma pending_initialize q l n :
  repr q l -> room q n -> 0 < n -> _queue_end q < _buffer_limit q ->
  pending q l n (set_mem q (si_initialize (stubs_mem q) (_stub_buffer q + _queue_end q) n)).
Proof.
  intros Hr Hroom Hn Hlt. split_and!; [by apply repr_initialize|done..|].
  simpl. apply size_initialize.
Qed.

Lemma request_wrapped_ok q l n mu0 :
  repr q l -> unlock (_mutex q) = Some mu0 -> is_contiguous q = false ->
  0 < n < 2 ^ 31 -> (2 ^ logA | n) ->
  if decide (_queue_end q + n < _queue_begin q)
  then exists q', request_wrapped debug (2 ^ logA) q n
                  = Some (Some (_stub_buffer q + _queue_end q'), q') /\ pending q l n q' /\
                  _mutex q' = _mutex q
  else exists q', request_wrapped debug (2 ^ logA) q n = Some (None, q') /\ repr q' l /\
                  _stub_buffer q' = _stub_buffer q /\ _buffer_size q' = _buffer_size q /\
                  _mutex q' = mu0.
Proof.
  intros Hr Hmu Hc Hn Hd. pose proof (repr_bounds q l Hr) as (? & ? & ? & ? & _ & Hcase).
  rewrite Hc in Hcase. unfold request_wrapped, available_space.
  replace (_queue_begin q - _queue_end q - 1 <? 0) with false by lia. case_decide as Hfit.
  - replace (n <=? _queue_begin q - _queue_end q - 1) with true by lia. rewrite Hc.
    replace (_buffer_limit q <=? _buffer_size q) with true by lia. simpl. rewrite !orb_true_r.
    unfold current_stub. rewrite stub_at_ok by (intros _; split; [lia|done]).
    cbn [mbind option_bind]. rewrite stub_initialize_ok by done. cbn [mbind option_bind].
    exists (set_mem q (si_initialize (stubs_mem q) (_stub_buffer q + _queue_end q) n)).
    split; [done|].
    split; [|done]. apply pending_initialize; [done| |lia|lia].
    unfold room. by rewrite Hc.
  - replace (n <=? _queue_begin q - _queue_end q - 1) with false by lia. rewrite Hmu.
    cbn [mbind option_bind]. eexists. split; [reflexivity|].
    split_and!; [by apply repr_set_mutex|done..].
Qed.

Lemma contiguous_request_ok q l n mu0 :
  repr q l -> unlock (_mutex q) = Some mu0 -> is_contiguous q = true ->
  0 < n < 2 ^ 30 -> (2 ^ logA | n) -> n <= available_space q ->
  let o := if s32 (_queue_end q + n) <=? _buffer_size q then
             q' ← stub_initialize debug (2 ^ logA) q (_stub_buffer q + _queue_end q) n;
             Some (Some (_stub_buffer q + _queue_end q), q')
           else if negb debug || negb (is_empty q) then
             request_wrapped debug (2 ^ logA)
               (set_indices q (_queue_end q) (_queue_begin q) 0) n
           else None in
  if decide (_queue_end q + n <= _buffer_size q \/ n < _queue_begin q)
  then exists q', o = Some (Some (_stub_buffer q + _queue_end q'), q') /\ pending q l n q' /\
                  _mutex q' = _mutex q
  else exists q', o = Some (None, q') /\ repr q' l /\
                  _stub_buffer q' = _stub_buffer q /\ _buffer_size q' = _buffer_size q /\
                  _mutex q' = mu0.
Proof.
  intros Hr Hmu Hc Hn Hd Hav. pose proof (repr_bounds q l Hr) as (? & ? & ? & ? & _ & Hcase).
  pose proof (repr_size q l Hr) as Hsize.
  rewrite Hc in Hcase. destruct Hcase as (Hlim & Hne & Ht). unfold available_space in Hav.
  assert (_queue_begin q <= _queue_end q) by (unfold is_contiguous in Hc; lia).
  replace (_queue_begin q - _queue_end q - 1 <? 0) with true in Hav by lia.
  rewrite wraps_id by (try done; unfold is_s; pow2_norm; lia). cbv zeta.
  destruct (Z.leb_spec (_queue_end q + n) (_buffer_size q)) as [Hfit|Hno].
  - rewrite decide_True by lia. rewrite stub_initialize_ok by done. cbn [mbind option_bind].
    exists (set_mem q (si_initialize (stubs_mem q) (_stub_buffer q + _queue_end q) n)).
    split; [done|]. split; [|done].
    apply pending_initialize; [done| |lia|lia]. unfold room. by rewrite Hc.
  - assert (l <> []) as Hl.
    { intros ->. simpl in Ht. destruct (repr_layout q [] Hr) as [_ _ Hz _|l1 l2 E Hl1 _ _ _ _].
      - specialize (Hz eq_refl). lia.
      - destruct l1; done. }
    specialize (Hne Hl). unfold is_empty.
    replace (_queue_begin q =? _queue_end q) with false by lia. simpl negb. rewrite orb_true_r.
    assert (0 < _queue_begin q) as Hb by (pose proof (repr_begin q l Hr); lia).
    pose proof (repr_wrap q l Hr Hl Hc Hb) as Hr'.
    pose proof (request_wrapped_ok _ l n mu0 Hr' Hmu) as Hw. simpl in Hw.
    assert (is_contiguous (set_indices q (_queue_end q) (_queue_begin q) 0) = false) as Hnc
      by (unfold is_contiguous; simpl; lia).
    specialize (Hw Hnc ltac:(lia) Hd). case_decide; case_decide; try (exfalso; lia); exact Hw.
Qed.

Lemma request_ok q l c mu :
  repr q l -> lock (_mutex q) = Some mu -> fits c ->
  (debug = true -> _queue_end q < _buffer_limit q) ->
  let n := stub_bytes (2 ^ logA) c in
  (can_place q n /\ exists q', request debug (2 ^ logA) q c
     = Some (Some (_stub_buffer q + _queue_end q'), q') /\ pending q l n q' /\ _mutex q' = mu) \/
  (~ can_place q n /\ exists q', request debug (2 ^ logA) q c = Some (None, q') /\ repr q' l /\
     _stub_buffer q' = _stub_buffer q /\ _buffer_size q' = _buffer_size q /\
     _mutex q' = _mutex q).
Proof.
  intros Hr Hmu Hc Hdbg n. destruct (stub_bytes_spec c Hc) as (_ & Hn & Hd).
  fold n in Hn, Hd. pose proof (repr_bounds q l Hr) as (? & ? & ? & ? & _ & Hcase).
  pose proof (repr_begin q l Hr). pose proof (lock_unlock _ _ Hmu) as Hun.
  unfold request. destruct Hc as [Hc _]. replace (c >? 0) with true by lia.
  rewrite orb_true_r, Hmu. cbn [mbind option_bind]. fold n.
  unfold current_stub. rewrite stub_at_ok by (intros E; specialize (Hdbg E); simpl; split; [lia|done]).
  cbn [mbind option_bind].
  change (_stub_buffer (set_mutex q mu)) with (_stub_buffer q).
  change (available_space (set_mutex q mu)) with (available_space q).
  change (is_contiguous (set_mutex q mu)) with (is_contiguous q).
  pose proof (repr_set_mutex q l mu Hr) as Hr'. unfold can_place.
  destruct (is_contiguous q) eqn:Ec.
  - destruct Hcase as (Hlim & _ & Ht).
    assert (_queue_begin q <= _queue_end q) by (unfold is_contiguous in Ec; lia).
    simpl (_buffer_limit (set_mutex q mu)). simpl (_buffer_size (set_mutex q mu)).
    rewrite Hlim, Z.eqb_refl, orb_true_r, andb_true_r.
    destruct (Z.leb_spec n (available_space q)) as [Hav|Hnav].
    + pose proof (contiguous_request_ok _ l n (_mutex q) Hr' Hun Ec ltac:(lia) Hd Hav) as Ho.
      simpl in Ho. unfold available_space in Hav.
      replace (_queue_begin q - _queue_end q - 1 <? 0) with true in Hav by lia.
      case_decide; [left|right]; (split; [lia|exact Ho]).
    + right. unfold available_space in Hnav.
      replace (_queue_begin q - _queue_end q - 1 <? 0) with true in Hnav by lia.
      split; [lia|]. unfold request_wrapped.
      replace (n <=? available_space _) with false
        by (unfold available_space; simpl;
            replace (_queue_begin q - _queue_end q - 1 <? 0) with true by lia; lia).
      change (_mutex (set_mutex q mu)) with mu. rewrite Hun. cbn [mbind option_bind].
      eexists. split; [reflexivity|].
      split_and!; [by apply repr_set_mutex|done..].
  - rewrite andb_false_r.
    pose proof (request_wrapped_ok _ l n (_mutex q) Hr' Hun Ec ltac:(lia) Hd) as Ho.
    simpl in Ho. case_decide; [left|right]; (split; [done|exact Ho]).
Qed.

(** ** Commits *)

Lemma tiles_length m base l : forall from to, tiles m base from to l -> zlen l <= to - from.
Proof.
  induction l as [|[i n] l IH]; intros from to Ht; simpl in Ht |- *; [lia|].
  destruct Ht as (-> & Hn & _ & _ & Ht). apply IH in Ht. lia.
Qed.

Lemma repr_number_size q l : repr q l -> zlen l <= _buffer_size q.
Proof.
  intros Hr. pose proof (repr_bounds q l Hr) as (? & ? & _).
  destruct Hr as [Hs _ Hb _ _ [Hl He _ Ht|l1 l2 -> Hne Hlt Hls Ht1 Ht2]].
  - apply tiles_length in Ht. lia.
  - apply tiles_length in Ht1, Ht2. rewrite length_app. lia.
Qed.

Lemma repr_number_bound q l : repr q l -> zlen l <= 2 ^ 30.
Proof. intros Hr. pose proof (repr_number_size q l Hr). destruct (repr_size q l Hr). lia. Qed.

Lemma room_le q n n' : room q n -> n' <= n -> room q n'.
Proof. unfold room. destruct (is_contiguous q); lia. Qed.

(** Adding the stub whose size is at the end of the queue. *)
Lemma repr_append q l n number mu :
  repr q l -> room q n -> 0 < n -> (2 ^ logA | n) ->
  si_size (stubs_mem q) (_stub_buffer q + _queue_end q) = n -> number = zlen l + 1 ->
  repr (mkStubQueue (_stub_buffer q) (_buffer_size q) (_buffer_limit q) (_queue_begin q)
          (_queue_end q + n) number mu (stubs_mem q)) (l ++ [(_queue_end q, n)]).
Proof.
  intros Hr Hroom Hn Hd Hs Hnum. unfold room in Hroom.
  destruct Hr as [? ? ? ? Hno Hl]. split; simpl; [done..| |].
  { rewrite length_app. simpl. lia. }
  destruct Hl as [Hl He Hz Ht|l1 l2 -> Hne Hlt Hls Ht1 Ht2].
  - assert (is_contiguous q = true) as Hc
      by (unfold is_contiguous; apply tiles_le in Ht; lia).
    rewrite Hc in Hroom. apply contiguous_state; simpl; [done|lia|by destruct l|].
    by apply tiles_snoc.
  - assert (is_contiguous q = false) as Hc by (unfold is_contiguous; lia).
    rewrite Hc in Hroom.
    apply (wrapped_state _ _ l1 (l2 ++ [(_queue_end q, n)])); simpl; try done.
    + by rewrite app_assoc.
    + by apply tiles_snoc.
Qed.

Lemma commit_ok q0 q l n c mu :
  pending q0 l n q -> unlock (_mutex q) = Some mu -> fits c -> stub_bytes (2 ^ logA) c <= n ->
  exists q', commit debug (2 ^ logA) q c = Some q' /\
    repr q' (l ++ [(_queue_end q, stub_bytes (2 ^ logA) c)]) /\ _mutex q' = mu /\
    _stub_buffer q' = _stub_buffer q /\ _buffer_size q' = _buffer_size q.
Proof.
  intros (Hr & Hroom & _ & _ & Hlt & Hs) Hmu Hc Hle.
  destruct (stub_bytes_spec c Hc) as (_ & Hn & Hd).
  pose proof (repr_bounds q l Hr) as (? & ? & ? & ? & _).
  pose proof (repr_number_bound q l Hr). pose proof (repr_number q l Hr) as Hno.
  pose proof (repr_size q l Hr) as Hsize. pose proof (room_le _ _ _ Hroom Hle) as Hroom'.
  unfold commit. destruct Hc as [Hc _]. replace (c >? 0) with true by lia. rewrite orb_true_r.
  set (k := stub_bytes (2 ^ logA) c) in *.
  unfold current_stub. rewrite stub_at_ok by (intros _; split; [lia|done]).
  cbn [mbind option_bind]. unfold stub_size. rewrite Hs.
  replace (k <=? n) with true by lia. rewrite orb_true_r, stub_initialize_ok by done.
  cbn [mbind option_bind]. simpl _mutex. rewrite Hmu. cbn [mbind option_bind].
  eexists. split; [reflexivity|]. split; [|done]. simpl.
  rewrite Hno, (wraps_id 32 (_queue_end q + k)), (wraps_id 32 (zlen l + 1))
    by (try done; unfold is_s; pow2_norm; lia).
  pose proof (repr_initialize q l k Hr Hroom' ltac:(lia)) as Hr'.
  apply (repr_append _ l k (zlen l + 1) mu Hr'); [done|lia|done| |done]. simpl.
  apply size_initialize.
Qed.

(** ** Iteration *)

Definition head_stub (base : Z) l : option Z :=
  match l with [] => None | (i, _) :: _ => Some (base + i) end.

(** What a loop over the stubs should do. *)
Fixpoint run_body {S_ : Type} (base : Z) (body : S_ -> Z -> S_ * bool) (st : S_) l : S_ :=
  match l with
  | [] => st
  | (i, _) :: l => let '(st, stop) := body st (base + i) in
                   if stop then st else run_body base body st l
  end.

Lemma next_eq q i n :
  0 <= i < _buffer_limit q -> (2 ^ logA | i) -> _buffer_limit q <= 2 ^ 30 ->
  si_size (stubs_mem q) (_stub_buffer q + i) = n -> 0 < n -> i + n <= _buffer_limit q ->
  next debug (2 ^ logA) q (_stub_buffer q + i) =
    let j := if i + n =? _buffer_limit q then 0 else i + n in
    if j =? _queue_end q then Some None
    else s ← stub_at debug (2 ^ logA) q j; Some (Some s).
Proof.
  intros Hi Hd Hl Hs Hn Hle. pose proof A_pos. unfold next, index_of, check_index.
  replace (_stub_buffer q + i - _stub_buffer q) with i by lia.
  rewrite (wraps_id 32 i) by (try done; unfold is_s; pow2_norm; lia).
  replace (0 <=? i) with true by lia. replace (i <? _buffer_limit q) with true by lia.
  rewrite (proj2 (Z.rem_divide i (2 ^ logA) ltac:(lia)) Hd). rewrite Z.eqb_refl, !orb_true_r.
  cbn [mbind option_bind]. unfold stub_size. rewrite Hs.
  by rewrite wraps_id by (try done; unfold is_s; pow2_norm; lia).
Qed.

Lemma first_ok q l :
  repr q l -> first debug (2 ^ logA) q = Some (head_stub (_stub_buffer q) l).
Proof.
  intros Hr. pose proof (repr_bounds q l Hr) as (_ & _ & _ & _ & Hbl & _).
  pose proof (repr_begin q l Hr).
  unfold first, number_of_stubs. rewrite (repr_number q l Hr).
  destruct l as [|[i n] l]; [done|]. simpl.
  rewrite stub_at_ok
    by (intros _; split; [specialize (Hbl ltac:(done)); lia|apply (repr_begin_aligned q _ Hr)]).
  cbn [mbind option_bind].
  destruct (repr_layout q _ Hr) as [_ _ _ Ht|l1 l2 E Hne _ _ Ht _].
  - by destruct Ht as (-> & _).
  - destruct l1 as [|[i' n'] l1]; [done|]. injection E as -> -> ->. by destruct Ht as (-> & _).
Qed.

Section loop.
Context {S_ : Type} (body : S_ -> Z -> S_ * bool).
Context (q : StubQueue M) (limit_small : _buffer_limit q <= 2 ^ 30).

(** The last block of the queue, which ends at [_queue_end]. *)
Lemma loop_last_block l : forall from st fuel,
  tiles (stubs_mem q) (_stub_buffer q) from (_queue_end q) l -> 0 <= from -> (2 ^ logA | from) ->
  _queue_end q < _buffer_limit q -> (length l < fuel)%nat ->
  stubs_loop debug (2 ^ logA) body fuel q (head_stub (_stub_buffer q) l) st
  = Some (run_body (_stub_buffer q) body st l).
Proof.
  induction l as [|[i n] l IH]; intros from st fuel Ht Hf Hd Hlt Hfuel;
    (destruct fuel as [|fuel]; [simpl in Hfuel; lia|]); [done|].
  destruct Ht as (-> & Hn & Hdn & Hs & Ht). pose proof (tiles_le _ _ _ _ _ Ht) as Hle.
  cbn [stubs_loop head_stub run_body]. destruct (body st (_stub_buffer q + from)) as [st1 []]; [done|].
  rewrite (next_eq q from n) by (done || lia).
  replace (from + n =? _buffer_limit q) with false by lia. cbv zeta.
  assert ((2 ^ logA | from + n)) as Hd' by (by apply Z.divide_add_r).
  specialize (IH (from + n) st1 fuel Ht ltac:(lia) Hd' Hlt ltac:(simpl in Hfuel; lia)).
  destruct l as [|[i' n'] l].
  - simpl in Ht. rewrite Ht, Z.eqb_refl. cbn [mbind option_bind]. exact IH.
  - destruct Ht as (-> & Hn' & Hdn' & Hs' & Ht). apply tiles_le in Ht.
    replace (from + n =? _queue_end q) with false by lia.
    rewrite stub_at_ok by (intros _; split; [lia|done]). cbn [mbind option_bind]. exact IH.
Qed.

(** The first block of a wrapped queue, which ends at [_buffer_limit]. *)
Lemma loop_first_block l1 : forall l2 from st fuel,
  l1 <> [] -> tiles (stubs_mem q) (_stub_buffer q) from (_buffer_limit q) l1 ->
  tiles (stubs_mem q) (_stub_buffer q) 0 (_queue_end q) l2 ->
  _queue_end q < from -> (2 ^ logA | from) -> (length (l1 ++ l2) < fuel)%nat ->
  stubs_loop debug (2 ^ logA) body fuel q (head_stub (_stub_buffer q) (l1 ++ l2)) st
  = Some (run_body (_stub_buffer q) body st (l1 ++ l2)).
Proof.
  induction l1 as [|[i n] l1 IH]; intros l2 from st fuel Hne Ht1 Ht2 Hlt Hd Hfuel; [done|].
  destruct fuel as [|fuel]; [simpl in Hfuel; lia|]. pose proof (tiles_le _ _ _ _ _ Ht2) as Hle2.
  destruct Ht1 as (-> & Hn & Hdn & Hs & Ht1). pose proof (tiles_le _ _ _ _ _ Ht1) as Hle.
  assert ((2 ^ logA | from + n)) as Hd' by (by apply Z.divide_add_r).
  cbn [app stubs_loop head_stub run_body].
  destruct (body st (_stub_buffer q + from)) as [st1 []]; [done|].
  rewrite (next_eq q from n) by (done || lia). cbv zeta. simpl in Hfuel.
  destruct l1 as [|[i' n'] l1].
  - simpl in Ht1. rewrite Ht1, Z.eqb_refl. simpl app.
    rewrite <- (loop_last_block l2 0 st1 fuel Ht2 ltac:(lia) (Z.divide_0_r _) ltac:(lia)
                  ltac:(simpl in Hfuel; lia)).
    destruct l2 as [|[i2 n2] l2].
    + simpl in Ht2. rewrite <- Ht2. done.
    + destruct Ht2 as (-> & Hn2 & _ & _ & Ht2). apply tiles_le in Ht2.
      replace (0 =? _queue_end q) with false by lia.
      rewrite stub_at_ok by (intros _; split; [lia|apply Z.divide_0_r]). done.
  - assert (from + n < _buffer_limit q) as Hlt' by (apply tiles_nonempty in Ht1; done).
    replace (from + n =? _buffer_limit q) with false by lia.
    replace (from + n =? _queue_end q) with false by lia.
    rewrite stub_at_ok by (intros _; split; [lia|done]). cbn [mbind option_bind].
    rewrite <- (IH l2 (from + n) st1 fuel ltac:(done) Ht1 Ht2 ltac:(lia) Hd' ltac:(lia)).
    destruct Ht1 as (-> & _). done.
Qed.

Lemma loop_ok l st fuel :
  repr q l -> _queue_end q < _buffer_limit q -> (length l < fuel)%nat ->
  stubs_loop debug (2 ^ logA) body fuel q (head_stub (_stub_buffer q) l) st
  = Some (run_body (_stub_buffer q) body st l).
Proof.
  intros Hr Hlt Hfuel.
  pose proof (repr_begin q l Hr). pose proof (repr_begin_aligned q l Hr).
  destruct (repr_layout q l Hr) as [_ _ _ Ht|l1 l2 -> Hne Hl _ Ht1 Ht2].
  - by eapply loop_last_block.
  - by eapply loop_first_block.
Qed.
End loop.

Lemma stub_below_limit q l i n :
  repr q l -> (i, n) ∈ l -> i + n <= _buffer_limit q /\ stub_size q (_stub_buffer q + i) = n.
Proof.
  intros Hr Hin. pose proof (repr_bounds q l Hr) as (? & ? & _).
  destruct (repr_layout q l Hr) as [_ _ _ Ht|l1 l2 -> _ ? _ Ht1 Ht2].
  - destruct (tiles_in _ _ _ _ _ _ _ Ht Hin) as (? & ? & ? & ?). split; [lia|done].
  - apply elem_of_app in Hin as [Hin|Hin].
    + destruct (tiles_in _ _ _ _ _ _ _ Ht1 Hin) as (? & ? & ? & ?). split; [lia|done].
    + destruct (tiles_in _ _ _ _ _ _ _ Ht2 Hin) as (? & ? & ? & ?). split; [lia|done].
Qed.

Lemma repr_limit_small q l : repr q l -> _buffer_limit q <= 2 ^ 30.
Proof.
  intros Hr. pose proof (repr_bounds q l Hr) as (_ & ? & _). pose proof (repr_size q l Hr). lia.
Qed.

Lemma run_body_count base l : forall k,
  run_body base (fun (n : Z) (_ : Z) => (n + 1, false)) k l = k + zlen l.
Proof.
  induction l as [|[i n] l IH]; intros k; simpl; [lia|]. rewrite IH. lia.
Qed.

Lemma run_body_fold {S_ : Type} base (f : S_ -> Z -> S_) l : forall st,
  run_body base (fun st s => (f st s, false)) st l = fold_left (fun st x => f st (base + x.1)) l st.
Proof. induction l as [|[i n] l IH]; intros st; simpl; [done|]. apply IH. Qed.

Lemma verify_ok q l mu fuel :
  repr q l -> _queue_end q < _buffer_limit q -> lock (_mutex q) = Some mu ->
  (length l < fuel)%nat -> verify debug (2 ^ logA) fuel q = Some q.
Proof.
  intros Hr Hlt Hmu Hfuel. unfold verify. rewrite Hmu. cbn [mbind option_bind].
  pose proof (repr_bounds q l Hr) as (? & ? & Hde & Hdl & Hbl & Hcase). pose proof A_pos.
  pose proof Hr as r. destruct Hr as [Hs Hsa Hb Hba Hno Hl].
  assert (_queue_begin q < _buffer_limit q) as Hbl'.
  { destruct l as [|x l]; [|by apply Hbl].
    destruct Hl as [? ? Hz _|l1 l2 E Hne _ _ _ _]; [rewrite Hz by done; lia|].
    destruct l1; done. }
  rewrite (proj2 (Z.rem_divide _ (2 ^ logA) ltac:(lia)) Hsa).
  rewrite (proj2 (Z.rem_divide _ (2 ^ logA) ltac:(lia)) Hdl).
  rewrite (proj2 (Z.rem_divide _ (2 ^ logA) ltac:(lia)) Hba).
  rewrite (proj2 (Z.rem_divide _ (2 ^ logA) ltac:(lia)) Hde).
  assert (negb (is_contiguous q) || (_buffer_limit q =? _buffer_size q) = true) as ->.
  { destruct (is_contiguous q); [|done]. destruct Hcase as [-> _]. by rewrite Z.eqb_refl. }
  replace (0 <=? _buffer_size q) with true by lia. replace (0 <=? _buffer_limit q) with true by lia.
  replace (_buffer_limit q <=? _buffer_size q) with true by lia.
  replace (0 <=? _queue_begin q) with true by lia. replace (0 <=? _queue_end q) with true by lia.
  replace (_queue_begin q <? _buffer_limit q) with true by lia.
  replace (_queue_end q <=? _buffer_limit q) with true by lia. cbn [andb Z.eqb].
  rewrite (first_ok q l) by done. cbn [mbind option_bind].
  rewrite (loop_ok _ q (repr_limit_small q l r) l) by done.
  cbn [mbind option_bind]. rewrite run_body_count, Z.add_0_l. unfold number_of_stubs.
  rewrite Hno, Z.eqb_refl. cbn [andb].
  assert (negb (_queue_begin q =? _queue_end q) || (zlen l =? 0) = true) as ->.
  { destruct (Z.eqb_spec (_queue_begin q) (_queue_end q)) as [E|]; [|done]. simpl.
    destruct l as [|x l]; [done|]. exfalso.
    destruct (is_contiguous q); [|lia]. destruct Hcase as (_ & Hne & _).
    specialize (Hne ltac:(done)). lia. }
  rewrite (lock_unlock _ _ Hmu). cbn [mbind option_bind]. by destruct q.
Qed.
(** ** Disjointness *)

Definition disjoint_stubs (size : Z) l : Prop :=
  (forall i n, (i, n) ∈ l -> 0 <= i /\ 0 < n /\ i + n <= size) /\
  forall j k i n i' n', l !! j = Some (i, n) -> l !! k = Some (i', n') -> j <> k ->
    i + n <= i' \/ i' + n' <= i.

Lemma tiles_ordered m base l : forall from to j k i n i' n',
  tiles m base from to l -> l !! j = Some (i, n) -> l !! k = Some (i', n') -> (j < k)%nat ->
  i + n <= i'.
Proof.
  induction l as [|[i0 n0] l IH]; intros from to [|j] [|k] i n i' n' Ht Hj Hk Hlt; try done; try lia.
  - injection Hj as -> ->. destruct Ht as (-> & _ & _ & _ & Ht).
    apply (list_elem_of_lookup_2 l k) in Hk. by destruct (tiles_in _ _ _ _ _ _ _ Ht Hk).
  - destruct Ht as (_ & _ & _ & _ & Ht). eapply (IH _ _ j k); [done|done|done|lia].
Qed.

Lemma repr_disjoint q l : repr q l -> disjoint_stubs (_buffer_size q) l.
Proof.
  intros Hr. pose proof (repr_bounds q l Hr) as (? & ? & _). pose proof (repr_begin q l Hr).
  destruct (repr_layout q l Hr) as [Hl He _ Ht|l1 l2 -> Hne Hlt Hls Ht1 Ht2].
  - split.
    + intros i n Hin. destruct (tiles_in _ _ _ _ _ _ _ Ht Hin) as (? & ? & ? & _). lia.
    + intros j k i n i' n' Hj Hk Hne. destruct (decide (j < k)%nat).
      * left. by eapply tiles_ordered.
      * right. eapply (tiles_ordered _ _ _ _ _ k j); (done || lia).
  - split.
    + intros i n [Hin|Hin]%elem_of_app.
      * destruct (tiles_in _ _ _ _ _ _ _ Ht1 Hin) as (? & ? & ? & _). lia.
      * destruct (tiles_in _ _ _ _ _ _ _ Ht2 Hin) as (? & ? & ? & _). lia.
    + assert (forall j k i n i' n', (l1 ++ l2) !! j = Some (i, n) -> (l1 ++ l2) !! k = Some (i', n') ->
        (j < k)%nat -> i + n <= i' \/ i' + n' <= i) as Hord.
      { intros j k i n i' n' Hj Hk Hjk. apply lookup_app_Some in Hj as [Hj|[Hj1 Hj]];
          apply lookup_app_Some in Hk as [Hk|[Hk1 Hk]].
        - left. by eapply (tiles_ordered _ _ l1 _ _ j k).
        - right. apply list_elem_of_lookup_2 in Hj, Hk.
          destruct (tiles_in _ _ _ _ _ _ _ Ht1 Hj) as (? & _).
          destruct (tiles_in _ _ _ _ _ _ _ Ht2 Hk) as (_ & ? & _). lia.
        - apply lookup_lt_Some in Hk. lia.
        - left. eapply (tiles_ordered _ _ l2 _ _ (j - length l1) (k - length l1)); [done..|lia]. }
      intros j k i n i' n' Hj Hk Hne'. destruct (decide (j < k)%nat); [by eapply Hord|].
      destruct (Hord k j i' n' i n Hk Hj ltac:(lia)); auto.
Qed.

(** ** Removal *)

Section removal.
Context {removable : StubRemovable M}.

Lemma remove_first_empty q : repr q [] -> remove_first debug (2 ^ logA) q = Some q.
Proof.
  intros Hr. unfold remove_first, number_of_stubs. by rewrite (repr_number q [] Hr).
Qed.

Lemma repr_finalized q l m' :
  (forall s, si_size m' s = si_size (stubs_mem q) s) -> repr q l -> repr (set_mem q m') l.
Proof.
  intros Hm [? ? ? ? ? Hl]. split; try done.
  assert (forall k base, si_size (stubs_mem q) base = k -> si_size m' base = k) as Hk
    by (intros; by rewrite Hm).
  destruct Hl as [Hl He Hz Ht|l1 l2 -> Hne Hlt Hls Ht1 Ht2].
  - apply contiguous_state; try done. eapply tiles_mem; [|done]. auto.
  - eapply wrapped_state; try done; (eapply tiles_mem; [|done]); auto.
Qed.

(** The indices after the first stub is gone. *)
Definition drop_first q (n : Z) : StubQueue M :=
  let q := set_indices q (_buffer_limit q) (_queue_begin q + n) (_queue_end q) in
  if _queue_begin q =? _queue_end q then set_indices q (_buffer_size q) 0 0
  else if _queue_begin q =? _buffer_limit q then set_indices q (_buffer_size q) 0 (_queue_end q)
  else q.

Lemma drop_first_same q n :
  _mutex (drop_first q n) = _mutex q /\ _stub_buffer (drop_first q n) = _stub_buffer q /\
  _buffer_size (drop_first q n) = _buffer_size q.
Proof. unfold drop_first. simpl. destruct (_ =? _); [done|]. by destruct (_ =? _). Qed.

Lemma drop_first_ok q i n l :
  repr q ((i, n) :: l) -> _queue_begin q = i /\ 0 < n /\ i + n <= _buffer_limit q /\
    repr (set_number (drop_first q n) (zlen l)) l.
Proof.
  intros Hr. pose proof (repr_bounds q _ Hr) as (? & Hls & ? & ? & _ & _).
  destruct Hr as [Hs Hsa Hb Hba Hno [Hl He Hz Ht|l1 l2 E Hne Hlt _ Ht1 Ht2]].
  - destruct Ht as (-> & Hn & Hd & _ & Ht). pose proof (tiles_le _ _ _ _ _ Ht) as Hle.
    split_and!; [done|done|lia|]. unfold drop_first. simpl.
    destruct (Z.eqb_spec (_queue_begin q + n) (_queue_end q)) as [Ee|Ene].
    + assert (l = []) as -> by (destruct l; [done|]; apply tiles_nonempty in Ht; [lia|done]).
      split; simpl; try done; [apply Z.divide_0_r|]. apply contiguous_state; simpl; (done || lia).
    + replace (_queue_begin q + n =? _buffer_limit q) with false by lia.
      split; simpl; try done; [lia|by apply Z.divide_add_r|].
      apply contiguous_state; simpl; try done. intros ->. simpl in Ht. lia.
  - destruct l1 as [|[i' n'] l1]; [done|]. injection E as -> -> ->.
    destruct Ht1 as (-> & Hn & Hd & _ & Ht1). pose proof (tiles_le _ _ _ _ _ Ht1) as Hle.
    split_and!; [done|done|lia|]. unfold drop_first. simpl.
    replace (_queue_begin q + n' =? _queue_end q) with false by lia.
    destruct (Z.eqb_spec (_queue_begin q + n') (_buffer_limit q)) as [Ee|Ene].
    + assert (l1 = []) as -> by (destruct l1; [done|]; apply tiles_nonempty in Ht1; [lia|done]).
      split; simpl; try done; [apply Z.divide_0_r|]. apply contiguous_state; simpl; (done || lia).
    + split; simpl; try done; [lia|by apply Z.divide_add_r|].
      apply (wrapped_state _ _ l1 l2); simpl; try done; [|lia]. intros ->. simpl in Ht1. lia.
Qed.

Lemma remove_first_ok q i n l :
  repr q ((i, n) :: l) ->
  exists q', remove_first debug (2 ^ logA) q = Some q' /\ repr q' l /\ _mutex q' = _mutex q /\
    _stub_buffer q' = _stub_buffer q /\ _buffer_size q' = _buffer_size q.
Proof.
  intros Hr. pose proof (repr_bounds q _ Hr) as (? & ? & ? & ? & Hbl & _).
  specialize (Hbl ltac:(done)). pose proof (repr_begin q _ Hr). pose proof (repr_size q _ Hr).
  pose proof (repr_number q _ Hr) as Hno. simpl in Hno. pose proof (repr_number_bound q _ Hr) as Hnb.
  simpl in Hnb.
  destruct (size_finalize (stubs_mem q) (_stub_buffer q + _queue_begin q)) as (m' & Efin & Hm').
  pose proof (repr_finalized q _ m' Hm' Hr) as Hr'.
  destruct (drop_first_ok _ i n l Hr') as (Hi & Hn & Hle & Hr''). simpl in Hi, Hle.
  assert (si_size (stubs_mem q) (_stub_buffer q + i) = n) as Hsz.
  { destruct (repr_layout q _ Hr) as [_ _ _ Ht|l1 l2 E Hne _ _ Ht _]; [by apply Ht|].
    destruct l1 as [|[i' n'] l1]; [done|]. injection E as -> -> ->. apply Ht. }
  exists (set_number (drop_first (set_mem q m') n) (zlen l)).
  split; [|split; [done|apply (drop_first_same (set_mem q m') n)]].
  unfold remove_first, first, number_of_stubs. rewrite Hno.
  replace (Z.of_nat (S (length l)) =? 0) with false by (symmetry; apply Z.eqb_neq; lia).
  replace (Z.of_nat (S (length l)) >? 0) with true by (symmetry; apply Z.gtb_lt; lia).
  rewrite stub_at_ok by (intros _; split; [lia|apply (repr_begin_aligned q _ Hr)]).
  cbn [mbind option_bind]. unfold stub_finalize. rewrite Efin. cbn [mbind option_bind].
  unfold stub_size. simpl. rewrite Hm', Hi, Hsz.
  rewrite (wraps_id 32 (i + n)) by (try done; unfold is_s; pow2_norm; lia).
  replace (i + n <=? _buffer_limit q) with true by lia. rewrite orb_true_r.
  unfold drop_first. simpl. rewrite Hi.
  destruct (i + n =? _queue_end q); [|destruct (i + n =? _buffer_limit q)]; simpl;
    rewrite Hno, wraps_id by (try done; unfold is_s; pow2_norm; lia); do 2 f_equal; lia.
Qed.

Lemma remove_first_loop_ok k : forall q l,
  repr q l ->
  exists q', remove_first_loop debug (2 ^ logA) k q = Some q' /\ repr q' (drop k l) /\
    _mutex q' = _mutex q /\ _stub_buffer q' = _stub_buffer q /\ _buffer_size q' = _buffer_size q.
Proof.
  induction k as [|k IH]; intros q l Hr; [by exists q|].
  cbn [remove_first_loop]. destruct l as [|[i n] l].
  - rewrite remove_first_empty by done. cbn [mbind option_bind].
    destruct (IH q [] Hr) as (q' & E & Hr' & ?). rewrite drop_nil in Hr'. by exists q'.
  - destruct (remove_first_ok q i n l Hr) as (q1 & E1 & Hr1 & Em1 & Eb1 & Es1). rewrite E1.
    cbn [mbind option_bind]. destruct (IH q1 l Hr1) as (q' & E & Hr' & Em & Eb & Es).
    exists q'. split_and!; [done|done|congruence..].
Qed.

Lemma remove_first_n_ok q l n :
  repr q l ->
  exists q', remove_first_n debug (2 ^ logA) q n = Some q' /\ repr q' (drop (Z.to_nat n) l) /\
    _mutex q' = _mutex q /\ _stub_buffer q' = _stub_buffer q /\ _buffer_size q' = _buffer_size q.
Proof.
  intros Hr. unfold remove_first_n, number_of_stubs. rewrite (repr_number q l Hr), MIN2_min.
  destruct (remove_first_loop_ok (Z.to_nat (Z.min n (zlen l))) q l Hr) as (q' & E & Hr' & ?).
  exists q'. split; [done|]. split; [|done]. destruct (decide (n <= zlen l)).
  - by replace (Z.min n (zlen l)) with n in Hr' by lia.
  - rewrite drop_ge in Hr' |- * by lia. done.
Qed.

(** ** Sequences of operations *)

Inductive op :=
| Request (requested_code_size committed_code_size : Z)
| RemoveFirst
| RemoveN (n : Z)
| RemoveAll.

Definition valid_op (o : op) : Prop :=
  match o with
  | Request r c => fits r /\ 0 < c <= r
  | _ => True
  end.

(** A client: a transaction commits at most what it requested. *)
Definition run_op (fuel : nat) q (o : op) : option (StubQueue M) :=
  match o with
  | Request r c =>
      '(s, q) ← request debug (2 ^ logA) q r;
      match s with Some _ => commit debug (2 ^ logA) q c | None => Some q end
  | RemoveFirst => remove_first debug (2 ^ logA) q
  | RemoveN n => remove_first_n debug (2 ^ logA) q n
  | RemoveAll => remove_all debug (2 ^ logA) fuel q
  end.

(** The abstract queue: a request adds a stub behind the others or nothing. *)
Definition fifo_step l (o : op) l' : Prop :=
  match o with
  | Request _ c => l' = l \/ exists i, l' = l ++ [(i, stub_bytes (2 ^ logA) c)]
  | RemoveFirst => l' = drop 1 l
  | RemoveN n => l' = drop (Z.to_nat n) l
  | RemoveAll => l' = []
  end.

(** The operations that look at the stub behind the last one, or that run [verify]. *)
Definition needs_index (o : op) : Prop :=
  match o with Request _ _ | RemoveAll => True | _ => False end.

#[export] Instance needs_index_dec o : Decision (needs_index o).
Proof. destruct o; apply _. Defined.

Lemma run_op_ok q l o fuel mu :
  repr q l -> lock (_mutex q) = Some mu -> valid_op o ->
  (debug = true -> needs_index o -> _queue_end q < _buffer_limit q) ->
  (length l < fuel)%nat ->
  exists q' l', run_op fuel q o = Some q' /\ repr q' l' /\ fifo_step l o l' /\
    _mutex q' = _mutex q /\ _stub_buffer q' = _stub_buffer q /\ _buffer_size q' = _buffer_size q.
Proof.
  intros Hr Hmu Ho Hdbg Hfuel. destruct o as [r c| |n|]; simpl in Ho |- *.
  - destruct Ho as [Hr' Hc].
    destruct (request_ok q l r mu Hr Hmu Hr' (fun E => Hdbg E I))
      as [(_ & q1 & -> & Hp & Em)|(_ & q1 & -> & Hr1 & Eb & Es & Em)]; cbn [mbind option_bind].
    + assert (fits c) as Hfc.
      { split; [lia|]. destruct Hr'. pose proof (code_mono c r ltac:(lia)). lia. }
      destruct (commit_ok q q1 l _ c (_mutex q) Hp) as (q2 & -> & Hr2 & Em2 & Eb2 & Es2).
      { rewrite Em. by apply lock_unlock. }
      { done. }
      { by apply stub_bytes_mono. }
      destruct Hp as (_ & _ & Eb & Es & _).
      eexists q2, _. split_and!; [done|done|right; by eexists|done|congruence|congruence].
    + exists q1, l. split_and!; [done|done|by left|done..].
  - destruct l as [|[i n] l].
    + rewrite remove_first_empty by done. by exists q, [].
    + destruct (remove_first_ok q i n l Hr) as (q1 & E & Hr1 & Hsame). exists q1, l.
      split; [exact E|]. split; [exact Hr1|]. split; [by rewrite skipn_cons, drop_0|exact Hsame].
  - destruct (remove_first_n_ok q l n Hr) as (q' & E & Hr' & ?). by eexists q', _.
  - unfold remove_all.
    assert ((if debug then verify debug (2 ^ logA) fuel q else Some q) = Some q) as ->.
    { assert (debug = true -> verify debug (2 ^ logA) fuel q = Some q) as Hv
        by (intros E; apply (verify_ok q l mu); try done; by apply Hdbg).
      clear Hdbg. destruct debug; [by apply Hv|done]. }
    cbn [mbind option_bind].
    pose proof (repr_number q l Hr) as Hno.
    destruct (remove_first_n_ok q l (number_of_stubs q) Hr) as (q' & E & Hr' & ?).
    rewrite E. cbn [mbind option_bind]. unfold number_of_stubs in *.
    rewrite Hno, Nat2Z.id, drop_all in Hr'. rewrite (repr_number q' _ Hr'), orb_true_r. by exists q', [].
Qed.
(** When the last stub ends at the limit, [next] never finds the end of the queue. *)
Lemma next_at_limit q s : _queue_end q = _buffer_limit q -> 0 < _buffer_limit q ->
  next debug (2 ^ logA) q s <> Some None.
Proof.
  intros He Hl. unfold next. destruct (index_of _ _ q s) as [i|]; [|done]. cbn [mbind option_bind].
  rewrite He. destruct (Z.eqb_spec (s32 (i + stub_size q s)) (_buffer_limit q)) as [E|E].
  - rewrite (proj2 (Z.eqb_neq 0 _)) by lia. by destruct (stub_at _ _ q _).
  - rewrite (proj2 (Z.eqb_neq _ _) E). by destruct (stub_at _ _ q _).
Qed.

Lemma loop_at_limit {S_} (f : S_ -> Z -> S_) q fuel : forall s st,
  _queue_end q = _buffer_limit q -> 0 < _buffer_limit q ->
  stubs_loop debug (2 ^ logA) (fun st s => (f st s, false)) fuel q (Some s) st = None.
Proof.
  induction fuel as [|fuel IH]; intros s st He Hl; [done|]. cbn [stubs_loop].
  pose proof (next_at_limit q s He Hl) as Hn.
  destruct (next debug (2 ^ logA) q s) as [[s'|]|]; [|done|done]. cbn [mbind option_bind]. by apply IH.
Qed.

(** There a debug build stops each of those operations. *)
Lemma run_op_at_limit q l o fuel mu :
  debug = true -> repr q l -> lock (_mutex q) = Some mu -> needs_index o ->
  _queue_end q = _buffer_limit q -> run_op fuel q o = None.
Proof.
  intros Hdbg Hr Hmu Ho He. pose proof (repr_bounds q l Hr) as (Hend & _ & _ & _ & _ & Hcase).
  assert (0 < _buffer_limit q) as Hl.
  { destruct (is_contiguous q); [|lia]. destruct Hcase as [-> _]. apply (repr_size q l Hr). }
  destruct o as [r c| | |]; try done; simpl.
  - unfold request. destruct (_ || (r >? 0)); [|done]. rewrite Hmu. cbn [mbind option_bind].
    unfold current_stub, stub_at, check_index. simpl. rewrite He, Z.ltb_irrefl, andb_false_r, Hdbg. done.
  - unfold remove_all. rewrite Hdbg at 1. unfold verify. rewrite Hmu. cbn [mbind option_bind].
    destruct (_ && _); [|done]. rewrite (first_ok q l Hr). cbn [mbind option_bind].
    destruct l as [|[i n] l].
    { exfalso. destruct (is_contiguous q) eqn:Ec; [|unfold is_contiguous in Ec].
      - destruct (repr_layout q _ Hr) as [_ _ Hz Ht|l1 l2 E Hne _ _ _ _]; [|by destruct l1].
        simpl in Ht. rewrite Hz in Ht by done. lia.
      - lia. }
    cbn [head_stub]. by rewrite (loop_at_limit (fun n _ => n + 1)).
Qed.
End removal.
End layout.

(** * Properties *)

Section properties.
Context {M : Type} {SI : StubInterface M} {laws : StubInterfaceLaws M}.
Context (logA : Z) (logA_range : 0 <= logA <= 12).

Fixpoint run_ops (debug : bool) (fuel : nat) (q : StubQueue M) (os : list op)
    : option (StubQueue M) :=
  match os with
  | [] => Some q
  | o :: os => q ← run_op debug logA fuel q o; run_ops debug fuel q os
  end.

Inductive fifo : list (Z * Z) -> list op -> list (Z * Z) -> Prop :=
| fifo_nil l : fifo l [] l
| fifo_cons l o l1 os l' : fifo_step logA l o l1 -> fifo l1 os l' -> fifo l (o :: os) l'.

Lemma repr_create base size mu (m : M) :
  0 < size <= 2 ^ 30 -> (2 ^ logA | size) -> repr logA (create base size mu m) [].
Proof.
  intros Hs Hd. split; simpl; try done; [apply Z.divide_0_r|].
  apply contiguous_state; simpl; (done || lia).
Qed.

(** A debug build stops at an operation that needs an index when the last stub ends
    the buffer. *)
Definition stops_at_limit debug fuel (q : StubQueue M) l (os : list op) : Prop :=
  exists os1 o os2 q' l', os = os1 ++ o :: os2 /\ run_ops debug fuel q os1 = Some q' /\
    fifo l os1 l' /\ repr logA q' l' /\ needs_index o /\ _queue_end q' = _buffer_limit q' /\
    run_op debug logA fuel q' o = None.

Lemma run_ops_ok {removable : StubRemovable M} debug os : forall fuel q l mu,
  repr logA q l -> lock (_mutex q) = Some mu -> Forall valid_op os ->
  _buffer_size q < Z.of_nat fuel ->
  (exists q' l', run_ops debug fuel q os = Some q' /\ repr logA q' l' /\ fifo l os l' /\
    _stub_buffer q' = _stub_buffer q /\ _buffer_size q' = _buffer_size q) \/
  (debug = true /\ stops_at_limit debug fuel q l os).
Proof.
  induction os as [|o os IH]; intros fuel q l mu Hr Hmu Hv Hfuel.
  { left. exists q, l. split_and!; [done|done|constructor|done|done]. }
  inversion_clear Hv as [|? ? Ho Hos]. pose proof (repr_number_size logA logA_range q l Hr).
  destruct (decide (debug = true /\ needs_index o /\ _queue_end q = _buffer_limit q)) as [(Hd & Hi & He)|Hgo].
  { right. split; [done|]. exists [], o, os, q, l.
    split_and!; [done|done|constructor|done|done|done|by eapply run_op_at_limit]. }
  destruct (run_op_ok debug logA logA_range q l o fuel mu Hr Hmu Ho)
    as (q1 & l1 & E1 & Hr1 & Hf1 & Em1 & Eb1 & Es1); [|lia|].
  { intros Hd Hi. pose proof (repr_bounds logA logA_range q l Hr) as (? & _).
    destruct (decide (_queue_end q = _buffer_limit q)); [naive_solver|lia]. }
  cbn [run_ops]. rewrite E1. cbn [mbind option_bind]. rewrite <- Em1 in Hmu.
  destruct (IH fuel q1 l1 mu Hr1 Hmu Hos ltac:(lia)) as [(q' & l' & E & Hr' & Hf & Eb & Es)|(Hd & Hstop)].
  - left. exists q', l'. split_and!; [done|done|by econstructor|congruence|congruence].
  - right. split; [done|]. destruct Hstop as (os1 & o' & os2 & q' & l' & -> & E & Hf & Hr' & Hrest).
    exists (o :: os1), o', os2, q', l'. cbn [run_ops app]. rewrite E1. cbn [mbind option_bind].
    split_and!; [done|done|by econstructor|done|apply Hrest..].
Qed.

(** C5: Any sequence of transactions, removals and clearings on a fresh queue, each
    commit at most what was requested, refines a first-in first-out queue.  In a
    product build it runs to its end; the queue then holds, oldest first, exactly the
    stubs a first-in first-out queue holds, each inside the buffer, no two
    overlapping, each still with the size it was committed with.  A debug build does
    the same, or stops at the first request or [remove_all] that is made when the last
    stub ends the buffer, as the index check of [current_stub] fails or [verify] never
    comes to the end of the queue. *)
Theorem stub_queue_fifo {removable : StubRemovable M} debug base size mu (m : M) os fuel :
  0 < size <= 2 ^ 30 -> (2 ^ logA | size) -> is_Some (lock mu) -> Forall valid_op os ->
  size < Z.of_nat fuel ->
  (exists q l, run_ops debug fuel (create base size mu m) os = Some q /\ fifo [] os l /\
    repr logA q l /\ disjoint_stubs size l /\
    number_of_stubs q = zlen l /\
    forall i n, (i, n) ∈ l -> stub_size q (base + i) = n) \/
  (debug = true /\ stops_at_limit debug fuel (create base size mu m) [] os).
Proof.
  intros Hs Hd [mu' Hmu] Hv Hfuel.
  destruct (run_ops_ok debug os fuel (create base size mu m) [] mu'
    (repr_create base size mu m Hs Hd) Hmu Hv Hfuel) as [(q & l & E & Hr & Hf & Eb & Es)|Hstop]; [|by right].
  left. exists q, l. split_and!; [done|done|done| |apply (repr_number logA q l Hr)|].
  - pose proof (repr_disjoint logA logA_range q l Hr) as Hdis. by rewrite Es in Hdis.
  - intros i n Hin. simpl in Eb. rewrite <- Eb.
    destruct (room_free logA logA_range q l 0 i n Hr) as (_ & ? & _); [|done|done].
    unfold room. pose proof (repr_bounds logA logA_range q l Hr) as (? & ? & _ & _ & _ & Hcase).
    destruct (is_contiguous q); lia.
Qed.

(** A request succeeds exactly when the stub fits at the end of the buffer
    or before the first stub, in which case it returns a stub of the requested
    size, aligned and inside the buffer, that overlaps no live stub, holding the
    lock until the commit; otherwise it returns NULL, releases the lock and
    leaves the stubs of the queue as they are.  In a debug build no assertion
    fails if the queue does not end at the buffer limit. *)
Theorem request_placement debug (q : StubQueue M) l c mu :
  repr logA q l -> lock (_mutex q) = Some mu -> fits c ->
  (debug = true -> _queue_end q < _buffer_limit q) ->
  let n := stub_bytes (2 ^ logA) c in
  (can_place q n /\ exists s q', request debug (2 ^ logA) q c = Some (Some s, q') /\
     repr logA q' l /\ _mutex q' = mu /\ stub_size q' s = n /\ (2 ^ logA | s - _stub_buffer q) /\
     _stub_buffer q <= s /\ s + n <= _stub_buffer q + _buffer_size q /\
     forall i k, (i, k) ∈ l -> _stub_buffer q + i + k <= s \/ s + n <= _stub_buffer q + i) \/
  (~ can_place q n /\ exists q', request debug (2 ^ logA) q c = Some (None, q') /\
     repr logA q' l /\ _mutex q' = _mutex q).
Proof.
  intros Hr Hmu Hc Hdbg n.
  destruct (request_ok debug logA logA_range q l c mu Hr Hmu Hc Hdbg)
    as [(Hcan & q' & E & Hp & Em)|(Hcan & q' & E & Hr' & _ & _ & Em)].
  - left. split; [done|]. exists (_stub_buffer q + _queue_end q'), q'.
    destruct Hp as (Hr' & Hroom & Eb & Es & Hlt & Hsz).
    pose proof (repr_bounds logA logA_range q' l Hr') as (? & ? & Hde & _ & _ & Hcase).
    split_and!; [done|done|done| | |lia| |].
    + unfold stub_size. by rewrite <- Eb.
    + by replace (_stub_buffer q + _queue_end q' - _stub_buffer q) with (_queue_end q') by lia.
    + unfold room in Hroom. fold n in Hroom. destruct (is_contiguous q'); lia.
    + intros i k Hin. destruct (room_free logA logA_range q' l n i k Hr' Hroom Hin) as (_ & _ & ?). lia.
  - right. split; [done|]. by exists q'.
Qed.

(** Unless the queue ends at the buffer limit, iterating over it visits
    exactly its stubs, oldest first, with as many rounds as there are stubs and
    one; the queue's own [verify] passes; and [stub_containing] finds the stub
    whose code contains an address if there is one. *)
Theorem stub_queue_iteration {S_ : Type} debug (q : StubQueue M) l mu fuel (f : S_ -> Z -> S_) st pc :
  repr logA q l -> lock (_mutex q) = Some mu -> _queue_end q < _buffer_limit q ->
  (length l < fuel)%nat ->
  stubs_do debug (2 ^ logA) f fuel q st
    = Some (fold_left (fun st x => f st (_stub_buffer q + x.1)) l st) /\
  verify debug (2 ^ logA) fuel q = Some q /\
  exists r, stub_containing debug (2 ^ logA) fuel q pc = Some r /\
    match r with
    | Some s => exists i n, (i, n) ∈ l /\ s = _stub_buffer q + i /\ stub_contains q s pc = true
    | None => forall i n, (i, n) ∈ l -> stub_contains q (_stub_buffer q + i) pc = false
    end.
Proof.
  intros Hr Hmu Hlt Hfuel. pose proof (repr_limit_small logA logA_range q l Hr) as Hsmall.
  assert (verify debug (2 ^ logA) fuel q = Some q) as Hv by (by eapply verify_ok).
  split_and!; [|done|].
  - unfold stubs_do. assert ((if debug then verify debug (2 ^ logA) fuel q else Some q) = Some q)
      as -> by (by destruct debug). cbn [mbind option_bind].
    rewrite Hmu. cbn [mbind option_bind]. rewrite (first_ok _ _ logA_range q l Hr).
    cbn [mbind option_bind]. rewrite (loop_ok _ _ logA_range _ q Hsmall l) by done.
    by rewrite run_body_fold.
  - unfold stub_containing. destruct (contains q pc) eqn:Ec.
    + rewrite (first_ok _ _ logA_range q l Hr). cbn [mbind option_bind].
      rewrite (loop_ok _ _ logA_range _ q Hsmall l) by done. eexists. split; [reflexivity|].
      clear. generalize (_stub_buffer q) as base. intros base. induction l as [|[i n] l IH]; simpl.
      * intros i n Hin. by apply not_elem_of_nil in Hin.
      * destruct (stub_contains q (base + i) pc) eqn:E.
        { exists i, n. split_and!; [left|done|done]. }
        destruct (run_body _ _ _ l) as [s|].
        -- destruct IH as (i' & n' & Hin & ? & ?). exists i', n'. split_and!; [by right|done|done].
        -- intros i' n' Hin. apply elem_of_cons in Hin as [Heq|Hin]; [|by eapply IH].
           by injection Heq as -> ->.
    + exists None. split; [done|]. intros i n Hin.
      destruct (repr_disjoint logA logA_range q l Hr) as [Hin' _].
      destruct (Hin' i n Hin) as (? & ? & ?).
      assert (i + n <= _buffer_limit q /\ stub_size q (_stub_buffer q + i) = n) as [Hle Hsz]
        by (by eapply stub_below_limit).
      pose proof (code_within (stubs_mem q) (_stub_buffer q + i)) as [Hcb Hce].
      unfold stub_size in Hsz. rewrite Hsz in Hce. unfold contains in Ec. unfold stub_contains. lia.
Qed.
End properties.

(** ** The stub classes satisfy the interface *)

Lemma header_bounds logA sizeof :
  0 <= logA <= 12 -> 0 <= sizeof <= 4096 -> 0 <= header_size (2 ^ logA) sizeof.
Proof.
  intros Ha Hs. unfold header_size. pose proof (A_pos logA Ha).
  destruct (round_up_bounds sizeof (2 ^ logA)); [lia|].
  rewrite round_to_spec by (pow2_norm; lia). lia.
Qed.

(** Any interface whose stubs keep their size in a field satisfies the laws. *)
Lemma sized_stub_laws (fin : stub_fields -> Z -> option stub_fields) header :
  0 <= header ->
  @StubInterfaceLaws stub_fields {|
    si_initialize m s size := <[s := size]> m;
    si_finalize := fin;
    si_size m s := default 0 (m !! s);
    si_code_size_to_size code_size := header + code_size;
    si_code_begin m s := s + header;
    si_code_end m s := s + default 0 (m !! s)
  |}.
Proof.
  intros Hh. split; simpl; intros.
  - by rewrite lookup_insert_eq.
  - destruct (decide (s = s')) as [->|].
    + destruct (m !! s') as [k|] eqn:E; simpl in *; [|lia]. rewrite lookup_insert_eq. simpl. lia.
    + by rewrite lookup_insert_ne.
  - lia.
  - lia.
  - lia.
Qed.

Lemma InterpreterCodelet_laws logA :
  0 <= logA <= 12 -> @StubInterfaceLaws stub_fields (InterpreterCodelet_interface (2 ^ logA)).
Proof. intros. apply sized_stub_laws, header_bounds; lia. Qed.

Lemma ICStub_laws logA :
  0 <= logA <= 12 -> @StubInterfaceLaws stub_fields (ICStub_interface (2 ^ logA)).
Proof. intros. apply sized_stub_laws, header_bounds; lia. Qed.

Lemma ICStub_removable logA : @StubRemovable stub_fields (ICStub_interface (2 ^ logA)).
Proof. split. intros m s. by exists m. Qed.

(** ** Examples: a buffer of 96 bytes of inline-cache stubs, 16-byte alignment *)

#[local] Instance ic_interface : StubInterface stub_fields := ICStub_interface (2 ^ 4).
#[local] Instance ic_laws : StubInterfaceLaws stub_fields := ICStub_laws 4 ltac:(lia).
#[local] Instance ic_removable : StubRemovable stub_fields := ICStub_removable 4.

Definition ic_queue : StubQueue stub_fields := create 4096 96 (Some false) ∅.

(** Two stubs of 32 bytes, the first removed, a third one: it ends the buffer. *)
Definition ic_ops : list op := [Request 16 16; Request 16 8; RemoveFirst; Request 16 16].

Lemma ic_ops_valid : Forall valid_op ic_ops.
Proof.
  assert (fits 16) as Hf by (split; [lia|vm_compute; done]).
  repeat constructor; try apply Hf; try lia.
Qed.

Lemma stub_queue_fifo_witness :
  exists q l, run_ops 4 false 97 ic_queue ic_ops = Some q /\ fifo 4 [] ic_ops l /\ zlen l = 2.
Proof.
  destruct (stub_queue_fifo 4 ltac:(lia) false 4096 96 (Some false) ∅ ic_ops 97) as
    [(q & l & E & Hf & _ & _ & Hn & _)|[[=] _]].
  - lia.
  - exists 6. lia.
  - by eexists.
  - apply ic_ops_valid.
  - lia.
  - exists q, l. split_and!; [exact E|exact Hf|]. vm_compute in E. injection E as <-. by rewrite <- Hn.
Defined.

Lemma request_placement_witness :
  exists s q', request true (2 ^ 4) ic_queue 16 = Some (Some s, q') /\ repr 4 q' [].
Proof.
  destruct (request_placement 4 ltac:(lia) true ic_queue [] 16 (Some true))
    as [(_ & s & q' & E & Hr & _)|(Hno & _)].
  - apply repr_create; [lia|lia|exists 6; lia].
  - done.
  - split; [lia|vm_compute; done].
  - done.
  - exists s, q'. split; [exact E|exact Hr].
  - exfalso. apply Hno. vm_compute. left. split; [done|]. intros _. done.
Defined.

Lemma stub_queue_iteration_witness :
  exists q (l : list (Z * Z)), stubs_do true (2 ^ 4) (fun l s => l ++ [s]) 3 q []
    = Some (fold_left (fun st x => st ++ [_stub_buffer q + x.1]) l []) /\ zlen l = 2.
Proof.
  destruct (run_ops_ok 4 ltac:(lia) false [Request 16 16; Request 16 16] 97 ic_queue [] (Some true))
    as [(q & l & E & Hr & _)|[[=] _]].
  - apply repr_create; [lia|lia|exists 6; lia].
  - done.
  - assert (fits 16) by (split; [lia|vm_compute; done]). repeat constructor; done.
  - simpl. lia.
  - assert (_number_of_stubs q = 2 /\ _queue_end q < _buffer_limit q /\
      lock (_mutex q) = Some (Some true)) as (Hn & Hlt & Hmu)
      by (vm_compute in E; injection E as <-; simpl; split_and!; [done|lia|done]).
    rewrite (repr_number 4 q l Hr) in Hn. exists q, l. split; [|done].
    apply (stub_queue_iteration 4 ltac:(lia) true q l (Some true) 3 (fun l s => l ++ [s]) [] 0 Hr);
      [done|done|lia].
Defined.

Definition full_queue : StubQueue stub_fields :=
  default ic_queue (run_ops 4 false 0 ic_queue ic_ops).

Lemma full_queue_next s :
  s = 4096 \/ s = 4128 \/ s = 4160 ->
  exists s', next false (2 ^ 4) full_queue s = Some (Some s') /\
    (s' = 4096 \/ s' = 4128 \/ s' = 4160).
Proof.
  intros [->|[->| ->]].
  - exists 4128. split; [vm_compute; reflexivity|auto].
  - exists 4160. split; [vm_compute; reflexivity|auto].
  - exists 4096. split; [vm_compute; reflexivity|auto].
Qed.

Lemma full_queue_loops {S_ : Type} (f : S_ -> Z -> S_) fuel : forall s st,
  s = 4096 \/ s = 4128 \/ s = 4160 ->
  stubs_loop false (2 ^ 4) (fun st s => (f st s, false)) fuel full_queue (Some s) st = None.
Proof.
  induction fuel as [|fuel IH]; intros s st Hs; [done|]. cbn [stubs_loop].
  destruct (full_queue_next s Hs) as (s' & E & Hs'). rewrite E. cbn [mbind option_bind].
  by apply IH.
Qed.

(** A queue whose last stub ends exactly at the end of the buffer, which the
    operations reach, defeats the iteration: after its last stub [next] wraps to
    index 0, where a removed stub lies, and the loop of [stubs_do] never ends; in
    a debug build the next request fails the index assertion of [current_stub]. *)
Theorem queue_end_at_limit :
  run_ops 4 false 0 ic_queue ic_ops = Some full_queue /\ number_of_stubs full_queue = 2 /\
  (forall (S_ : Type) (f : S_ -> Z -> S_) fuel st, stubs_do false (2 ^ 4) f fuel full_queue st = None) /\
  request true (2 ^ 4) full_queue 16 = None.
Proof.
  split_and!; [vm_compute; reflexivity|vm_compute; reflexivity| |vm_compute; reflexivity].
  intros S_ f fuel st.
  assert (stubs_do false (2 ^ 4) f fuel full_queue st
    = stubs_loop false (2 ^ 4) (fun st s => (f st s, false)) fuel full_queue (Some 4128) st) as ->.
  { unfold stubs_do. cbn [mbind option_bind].
    assert (lock (_mutex full_queue) = Some (Some true)) as -> by (vm_compute; reflexivity).
    assert (first false (2 ^ 4) full_queue = Some (Some 4128)) as -> by (vm_compute; reflexivity).
    done. }
  apply full_queue_loops. auto.
Qed.
