(* ===== verification/OsMemory.v ===== *)
(** * The operating system's virtual memory, as the VM sees it

    The [os] functions on memory (runtime/os.hpp) are implemented per platform by
    system calls; they are a class of operations on an unspecified state [W], with
    what their callers rely on stated as laws over two observations, the reserved
    and the committed bytes.  [os::page_size_for_region] (runtime/os.cpp) and [lcm]
    (utilities/globalDefinitions.cpp) are translated.  [SimpleOS] is a concrete
    instance. *)

From S2P Require Import Prelude GlobalDefinitions.

Open Scope Z_scope.

(** ** Computations on the state: [None] is a failed assertion or [fatal] *)

Definition os_m (W A : Type) : Type := W -> option (A * W).

#[export] Instance os_m_ret W : MRet (os_m W) := fun A x w => Some (x, w).
#[export] Instance os_m_bind W : MBind (os_m W) := fun A B f m w =>
  match m w with Some (x, w) => f x w | None => None end.

(** [assert(b)] and [if (!b) fatal(...)] *)
Definition check {W : Type} (b : bool) : os_m W unit := fun w => if b then Some (tt, w) else None.
Definition when {W : Type} (b : bool) (m : os_m W unit) : os_m W unit :=
  if b then m else mret tt.

(** ** The operations *)

Class OS (W : Type) := {
  vm_page_size : Z;
  vm_allocation_granularity : Z;
  large_page_size : Z;
  can_commit_large_page_memory : bool;
  UseLargePages : bool;
  _page_sizes : list Z;
  reserve_memory : Z -> Z -> W -> Z * W;
  attempt_reserve_memory_at : Z -> Z -> W -> Z * W;
  reserve_memory_special : Z -> W -> Z * W;
  release_memory : Z -> Z -> W -> bool * W;
  release_memory_special : Z -> Z -> W -> bool * W;
  split_reserved_memory : Z -> Z -> Z -> bool -> W -> W;
  protect_memory_none : Z -> Z -> bool -> W -> bool * W;
  commit_memory : Z -> Z -> W -> bool * W;
  commit_memory_aligned : Z -> Z -> Z -> W -> bool * W;
  uncommit_memory : Z -> Z -> W -> bool * W;
  store_byte : Z -> Z -> W -> option W
}.

Definition lift {W A : Type} (f : W -> A * W) : os_m W A := fun w => Some (f w).
Definition lift_ {W : Type} (f : W -> W) : os_m W unit := fun w => Some (tt, f w).

Definition within (a n x : Z) : Prop := a <= x < a + n.

#[export] Instance within_dec a n x : Decision (within a n x).
Proof. unfold within. apply _. Defined.

(** ** What callers rely on *)

Class OSLaws (W : Type) `{OS W} := {
  reserved : W -> Z -> Prop;
  committed : W -> Z -> Prop;

  page_shift : Z;
  page_shift_range : 3 <= page_shift <= 30;
  vm_page_size_eq : vm_page_size = 2 ^ page_shift;
  granularity_shift : Z;
  granularity_range : page_shift <= granularity_shift <= 30;
  granularity_eq : vm_allocation_granularity = 2 ^ granularity_shift;
  page_sizes_ok : Forall (fun sz => exists k, page_shift <= k <= 40 /\ sz = 2 ^ k) _page_sizes;

  (** A reservation is fresh, aligned and within the address space. *)
  reserve_memory_ok n hint w a w' :
    reserve_memory n hint w = (a, w') ->
    (forall x, committed w' x <-> committed w x) /\
    if decide (a = 0) then forall x, reserved w' x <-> reserved w x
    else (2 ^ granularity_shift | a) /\ 0 < a /\ a + n <= 2 ^ 62 /\
      (forall x, within a n x -> ~ reserved w x) /\
      forall x, reserved w' x <-> reserved w x \/ within a n x;
  attempt_reserve_memory_at_ok n addr w a w' :
    attempt_reserve_memory_at n addr w = (a, w') ->
    (forall x, committed w' x <-> committed w x) /\
    if decide (a = 0) then forall x, reserved w' x <-> reserved w x
    else a = addr /\ (2 ^ granularity_shift | a) /\ 0 < a /\ a + n <= 2 ^ 62 /\
      (forall x, within a n x -> ~ reserved w x) /\
      forall x, reserved w' x <-> reserved w x \/ within a n x;
  (** Pinned memory is committed as a whole and aligned to large pages. *)
  reserve_memory_special_ok n w a w' :
    reserve_memory_special n w = (a, w') ->
    if decide (a = 0) then (forall x, reserved w' x <-> reserved w x) /\
                           (forall x, committed w' x <-> committed w x)
    else (2 ^ granularity_shift | a) /\ (large_page_size | a) /\ 0 < a /\ a + n <= 2 ^ 62 /\
      (forall x, within a n x -> ~ reserved w x) /\
      (forall x, reserved w' x <-> reserved w x \/ within a n x) /\
      forall x, committed w' x <-> committed w x \/ within a n x;
  (** Releasing memory that is reserved succeeds. *)
  release_memory_ok a n w r w' :
    (forall x, within a n x -> reserved w x) -> release_memory a n w = (r, w') ->
    r = true /\ forall x, reserved w' x <-> reserved w x /\ ~ within a n x;
  (** A commit that fails takes nothing away. *)
  commit_memory_ok a n w r w' :
    commit_memory a n w = (r, w') ->
    (forall x, reserved w' x <-> reserved w x) /\ (forall x, committed w x -> committed w' x) /\
    (r = true -> forall x, committed w' x <-> committed w x \/ within a n x);
  commit_memory_aligned_ok a n al w r w' :
    commit_memory_aligned a n al w = (r, w') ->
    (forall x, reserved w' x <-> reserved w x) /\ (forall x, committed w x -> committed w' x) /\
    (r = true -> forall x, committed w' x <-> committed w x \/ within a n x);
  uncommit_memory_ok a n w r w' :
    uncommit_memory a n w = (r, w') ->
    (forall x, reserved w' x <-> reserved w x) /\
    if r then forall x, committed w' x <-> committed w x /\ ~ within a n x
    else forall x, committed w' x <-> committed w x;
  (** Protecting memory changes neither observation. *)
  protect_memory_none_ok a n c w r w' :
    protect_memory_none a n c w = (r, w') ->
    (forall x, reserved w' x <-> reserved w x) /\ (forall x, committed w' x <-> committed w x);
  split_reserved_memory_ok a n k b w :
    (forall x, reserved (split_reserved_memory a n k b w) x <-> reserved w x) /\
    forall x, committed (split_reserved_memory a n k b w) x <-> committed w x;
  (** A store to committed memory does not trap. *)
  store_byte_ok a v w :
    committed w a -> exists w', store_byte a v w = Some w' /\
      (forall x, reserved w' x <-> reserved w x) /\ (forall x, committed w' x <-> committed w x)
}.

(** ** [os::page_size_for_region] *)

Fixpoint page_sizes_loop (sizes : list Z) (region_min_size region_max_size max_page_size : Z)
    : option Z :=
  match sizes with
  | [] => None
  | sz :: sizes =>
      let mask := u64 (sz - 1) in
      if ((region_min_size &&& mask) =? 0) && ((region_max_size &&& mask) =? 0) then Some sz
      else if sz <=? max_page_size then Some sz
      else page_sizes_loop sizes region_min_size region_max_size max_page_size
  end.

Definition page_size_for_region {W : Type} `{OS W} (region_min_size region_max_size min_pages : Z) : Z :=
  if UseLargePages then
    default vm_page_size
      (page_sizes_loop _page_sizes region_min_size region_max_size (region_max_size / min_pages))
  else vm_page_size.

(** ** [lcm] *)

Fixpoint lcm_loop (fuel : nat) (cur div : Z) : option Z :=
  match fuel with
  | O => None
  | S fuel =>
      let next := cur mod div in
      if negb (next =? 0) then lcm_loop fuel div next else Some div
  end.

Definition lcm (a b : Z) : option Z :=
  let cur := MAX2 a b in
  let div := MIN2 a b in
  ASSERT negb (div =? 0) ;;
  div ← lcm_loop (S (Z.to_nat div)) cur div;
  let result := u64 (u64 (a * b) / div) in
  ASSERT (result <=? 2 ^ 64 - 1) ;;
  Some result.

(** * Lemmas *)

Lemma page_sizes_loop_spec sizes n sz :
  Forall (fun sz => exists k, 0 <= k <= 40 /\ sz = 2 ^ k) sizes -> 0 < n ->
  page_sizes_loop sizes n n n = Some sz -> sz ∈ sizes /\ sz <= n.
Proof.
  intros Hs Hn. induction Hs as [|x sizes (k & Hk & ->) Hs IH]; simpl; [done|].
  assert (1 <= 2 ^ k <= 2 ^ 40) as Hp.
  { split; [pose proof (Z.pow_pos_nonneg 2 k); lia|apply Z.pow_le_mono_r; lia]. }
  rewrite (wrapu_id 64 (2 ^ k - 1)) by (unfold is_u; pow2_norm; lia).
  rewrite land_ones_mod by lia. destruct (Z.eqb_spec (n mod 2 ^ k) 0) as [E|E]; simpl.
  - intros [= <-]. split; [left|]. apply (proj1 (Z.mod_divide n (2 ^ k) ltac:(lia))) in E as [q ->].
    assert (0 < q) by (apply (Z.mul_pos_cancel_r q (2 ^ k)); lia). nia.
  - destruct (Z.leb_spec (2 ^ k) n).
    + intros [= <-]. split; [left|done].
    + intros H'. destruct (IH H'). split; [by right|done].
Qed.

(** The page size of a region is a power of two that is a multiple of the
    default page size and not larger than the region. *)
Lemma page_size_for_region_spec {W : Type} `{OSLaws W} n :
  vm_page_size <= n ->
  exists k, page_shift <= k <= 40 /\ page_size_for_region n n 1 = 2 ^ k /\ 2 ^ k <= n.
Proof.
  intros Hn. pose proof page_shift_range. rewrite vm_page_size_eq in Hn.
  assert (0 < 2 ^ page_shift) by (apply Z.pow_pos_nonneg; lia).
  unfold page_size_for_region. rewrite Z.div_1_r, vm_page_size_eq.
  destruct UseLargePages; [|exists page_shift; split_and!; [lia..|done|done]].
  destruct (page_sizes_loop _ n n n) as [sz|] eqn:E; simpl;
    [|exists page_shift; split_and!; [lia..|done|done]].
  apply page_sizes_loop_spec in E as [Hin Hle]; [| |lia].
  - pose proof page_sizes_ok as Hok. rewrite Forall_forall in Hok.
    destruct (Hok sz Hin) as (k & Hk & ->). exists k. split_and!; [lia..|done|done].
  - eapply Forall_impl; [apply page_sizes_ok|]. intros x (k & Hk & ->). exists k. split; [lia|done].
Qed.

Lemma lcm_loop_spec fuel : forall cur div,
  0 <= cur -> 0 < div -> (Z.to_nat div < fuel)%nat -> lcm_loop fuel cur div = Some (Z.gcd cur div).
Proof.
  induction fuel as [|fuel IH]; intros cur div Hc Hd Hf; [lia|]. cbn [lcm_loop].
  pose proof (Z.mod_pos_bound cur div Hd).
  rewrite (Z.gcd_comm cur div), <- Z.gcd_mod, Z.gcd_comm by lia.
  destruct (Z.eqb_spec (cur mod div) 0) as [->|Hne]; cbn [negb].
  - rewrite Z.gcd_0_r. f_equal. lia.
  - apply IH; lia.
Qed.

(** [lcm] terminates with the least common multiple when it fits a word. *)
Lemma lcm_spec a b : 0 < a -> 0 < b -> a * b < 2 ^ 64 -> lcm a b = Some (Z.lcm a b).
Proof.
  intros Ha Hb Hab. unfold lcm. rewrite MAX2_max, MIN2_min.
  replace (Z.min a b =? 0) with false by lia. cbn [negb].
  rewrite lcm_loop_spec by lia. cbn [mbind option_bind].
  assert (Z.gcd (Z.max a b) (Z.min a b) = Z.gcd a b) as ->.
  { destruct (Z.le_ge_cases a b); [rewrite Z.max_r, Z.min_l, Z.gcd_comm by lia
      |rewrite Z.max_l, Z.min_r by lia]; done. }
  pose proof (Z.gcd_nonneg a b). pose proof (Z.gcd_divide_l a b) as [q Hq].
  assert (0 < Z.gcd a b) as Hg by (destruct (decide (Z.gcd a b = 0)) as [E|]; [rewrite E in Hq|]; lia).
  assert (0 <= a * b / Z.gcd a b <= a * b) by (split; [apply Z.div_pos; nia|apply Z.div_le_upper_bound; nia]).
  rewrite (wrapu_id 64 (a * b)), wrapu_id by (unfold is_u; nia).
  replace (a * b / Z.gcd a b <=? 2 ^ 64 - 1) with true by lia. f_equal.
  unfold Z.lcm. rewrite Z.abs_eq; [|apply Z.mul_nonneg_nonneg; [lia|apply Z.div_pos; lia]].
  apply Z.divide_div_mul_exact; [lia|apply Z.gcd_divide_r].
Qed.

(** ** Total correctness of computations: no assertion fails and [Q] holds *)

Definition wp {W A : Type} (m : os_m W A) (Q : A -> W -> Prop) (w : W) : Prop :=
  exists a w', m w = Some (a, w') /\ Q a w'.

Section wp.
Context {W : Type}.

Lemma wp_ret {A} (a : A) Q (w : W) : Q a w -> wp (mret a) Q w.
Proof. intros. by exists a, w. Qed.

Lemma wp_bind {A B} (m : os_m W A) (k : A -> os_m W B) Q w :
  wp m (fun a => wp (k a) Q) w -> wp (m ≫= k) Q w.
Proof.
  intros (a & w' & E & b & w'' & E' & HQ). exists b, w''. split; [|done].
  unfold mbind, os_m_bind. by rewrite E.
Qed.

Lemma wp_check b Q (w : W) : b = true -> Q tt w -> wp (check b) Q w.
Proof. intros -> HQ. by exists tt, w. Qed.

Lemma wp_lift {A} (f : W -> A * W) Q w : (forall a w', f w = (a, w') -> Q a w') -> wp (lift f) Q w.
Proof. intros HQ. destruct (f w) as [a w'] eqn:E. exists a, w'. split; [|auto]. unfold lift. by rewrite E. Qed.

Lemma wp_mono {A} (m : os_m W A) (Q Q' : A -> W -> Prop) w :
  wp m Q w -> (forall a w', Q a w' -> Q' a w') -> wp m Q' w.
Proof. intros (a & w' & E & HQ) H. exists a, w'. auto. Qed.

Lemma wp_if {A} (b : bool) (m1 m2 : os_m W A) Q w :
  (b = true -> wp m1 Q w) -> (b = false -> wp m2 Q w) -> wp (if b then m1 else m2) Q w.
Proof. destruct b; auto. Qed.
End wp.

(** * A concrete operating system

    The logs of reservations and commitments, newest first, and the outcomes of
    the next commits and uncommits (success when the list is empty). *)

Record sim := mkSim {
  res_log : list (bool * Z * Z);
  com_log : list (bool * Z * Z);
  outcomes : list bool
}.

Fixpoint covered (log : list (bool * Z * Z)) (x : Z) : bool :=
  match log with
  | [] => false
  | (b, a, n) :: log => if decide (within a n x) then b else covered log x
  end.

Definition top (log : list (bool * Z * Z)) : Z :=
  foldr (fun '(_, a, n) m => Z.max m (a + n)) 65536 log.

Definition next_address (log : list (bool * Z * Z)) : Z := (top log / 65536 + 1) * 65536.

Definition sim_reserve (n : Z) (w : sim) : Z * sim :=
  let a := next_address (res_log w) in
  if a + n <=? 2 ^ 62 then (a, mkSim ((true, a, n) :: res_log w) (com_log w) (outcomes w))
  else (0, w).

Definition sim_commit (value : bool) (a n : Z) (w : sim) : bool * sim :=
  let ok := default true (head (outcomes w)) in
  (ok, mkSim (res_log w) (if ok then (value, a, n) :: com_log w else com_log w)
         (tail (outcomes w))).

#[export] Instance SimpleOS : OS sim := {|
  vm_page_size := 4096;
  vm_allocation_granularity := 4096;
  large_page_size := 2 ^ 21;
  can_commit_large_page_memory := true;
  UseLargePages := true;
  _page_sizes := [2 ^ 21; 4096];
  reserve_memory n hint := sim_reserve n;
  attempt_reserve_memory_at n addr w := (0, w);
  reserve_memory_special n w := (0, w);
  release_memory a n w := (true, mkSim ((false, a, n) :: res_log w) (com_log w) (outcomes w));
  release_memory_special a n w :=
    (true, mkSim ((false, a, n) :: res_log w) (com_log w) (outcomes w));
  split_reserved_memory a n k b w := w;
  protect_memory_none a n c w := (true, w);
  commit_memory := sim_commit true;
  commit_memory_aligned a n al := sim_commit true a n;
  uncommit_memory := sim_commit false;
  store_byte a v w := if covered (com_log w) a then Some w else None
|}.

Lemma covered_top log x : top log <= x -> covered log x = false.
Proof.
  induction log as [|[[b a] n] log IH]; simpl; [done|]. intros Hx.
  rewrite decide_False by (unfold within; lia). apply IH. lia.
Qed.

Lemma top_min log : 65536 <= top log.
Proof. induction log as [|[[b a] n] log IH]; simpl; lia. Qed.

Lemma sim_commit_spec value a n w r w' :
  sim_commit value a n w = (r, w') ->
  res_log w' = res_log w /\
  com_log w' = if r then (value, a, n) :: com_log w else com_log w.
Proof. unfold sim_commit. by intros [= <- <-]. Qed.

#[export, refine] Instance SimpleOS_laws : OSLaws sim := {|
  reserved w x := covered (res_log w) x = true;
  committed w x := covered (com_log w) x = true;
  page_shift := 12;
  granularity_shift := 12
|}.
Proof.
  - lia.
  - done.
  - lia.
  - done.
  - repeat constructor; [exists 21; split; [lia|done]|exists 12; split; [lia|done]].
  - intros n hint w a w' E. simpl in E. unfold sim_reserve in E.
    assert (top (res_log w) < next_address (res_log w)) as Htop.
    { unfold next_address. pose proof (Z.div_mod (top (res_log w)) 65536).
      pose proof (Z.mod_pos_bound (top (res_log w)) 65536). lia. }
    pose proof (top_min (res_log w)) as Hmin.
    destruct (Z.leb_spec (next_address (res_log w) + n) (2 ^ 62)); injection E as <- <-; simpl.
    + split; [done|]. rewrite decide_False by lia. split_and!; [|lia|done| |].
      * unfold next_address. change (2 ^ 12) with 4096. exists ((top (res_log w) / 65536 + 1) * 16). lia.
      * intros x Hx. unfold within in Hx. rewrite covered_top by lia. done.
      * intros x. case_decide; [tauto|]. tauto.
    + done.
  - intros n addr w a w' E. injection E as <- <-. done.
  - intros n w a w' E. injection E as <- <-. done.
  - intros a n w r w' Hin E. injection E as <- <-. simpl. split; [done|]. intros x.
    case_decide; [split; [done|tauto]|tauto].
  - intros a n w r w' E. simpl in E. apply sim_commit_spec in E as [-> ->]. split_and!; [done| |].
    + intros x Hx. destruct r; simpl; [by case_decide|done].
    + intros -> x. simpl. case_decide; tauto.
  - intros a n al w r w' E. simpl in E. apply sim_commit_spec in E as [-> ->]. split_and!; [done| |].
    + intros x Hx. destruct r; simpl; [by case_decide|done].
    + intros -> x. simpl. case_decide; tauto.
  - intros a n w r w' E. simpl in E. apply sim_commit_spec in E as [-> ->]. split; [done|].
    destruct r; [|done]. intros x. simpl. case_decide; [split; [done|tauto]|tauto].
  - intros a n c w r w' E. injection E as <- <-. done.
  - done.
  - intros a v w Hc. simpl. rewrite Hc. by exists w.
Defined.
