(* ===== verification/ReservedSpace.v ===== *)
(** * Reserved spaces

    Model of the classes [ReservedSpace] and [ReservedHeapSpace] of
    runtime/virtualspace.hpp and virtualspace.cpp: reserving address ranges with
    the alignments the heap needs.  Pointers are addresses, [NULL] is 0.
    Assertions are always checked. *)

From S2P Require Import Prelude GlobalDefinitions OsMemory.

Open Scope Z_scope.

(** ** [ReservedSpace] *)

Record ReservedSpace := mkReservedSpace {
  _base : Z;
  rs_size : Z;
  _noaccess_prefix : Z;
  _alignment : Z;
  rs_special : bool
}.

Definition not_reserved : ReservedSpace := mkReservedSpace 0 0 0 0 false.

Definition is_reserved (rs : ReservedSpace) : bool := negb (_base rs =? 0).

Section reserved_space.
Context {W : Type} `{OS W}.

(** [markOopDesc::encode_pointer_as_mark(p)->decode_pointer() == p] *)
Definition distinguishable_from_marks (p : Z) : bool :=
  (((p &&& Z.lnot 3) ||| 3) &&& Z.lnot 3) =? p.

Definition align_reserved_region (addr len prefix_size prefix_align suffix_size suffix_align : Z)
    : os_m W Z :=
  check (negb (addr =? 0)) ;;
  let required_size := u64 (prefix_size + suffix_size) in
  check (len >=? required_size) ;;
  let s := addr in
  let beg_ofs := u64 (s + prefix_size) &&& u64 (suffix_align - 1) in
  let beg_delta := if beg_ofs =? 0 then 0 else u64 (suffix_align - beg_ofs) in
  if len <? u64 (beg_delta + required_size) then mret 0
  else
    let end_delta := u64 (len - u64 (beg_delta + required_size)) in
    (if negb (beg_delta =? 0) then lift (release_memory addr beg_delta) else mret true) ;;
    (if negb (end_delta =? 0)
     then lift (release_memory (u64 (s + beg_delta + required_size)) end_delta) else mret true) ;;
    mret (u64 (s + beg_delta)).

Definition reserve_and_align (reserve_size prefix_size prefix_align suffix_size suffix_align : Z)
    : os_m W Z :=
  check (reserve_size >? u64 (prefix_size + suffix_size)) ;;
  raw_addr ← lift (reserve_memory reserve_size prefix_align);
  if raw_addr =? 0 then mret 0
  else
    result ← align_reserved_region raw_addr reserve_size prefix_size prefix_align
               suffix_size suffix_align;
    (if result =? 0
     then ok ← lift (release_memory raw_addr reserve_size); check ok
     else
       check (result >=? raw_addr) ;;
       check (u64 (result + prefix_size + suffix_size) <=? u64 (raw_addr + reserve_size)) ;;
       check ((result &&& u64 (prefix_align - 1)) =? 0) ;;
       check ((u64 (result + prefix_size) &&& u64 (suffix_align - 1)) =? 0)) ;;
    mret result.

(** The part of [initialize] that reserves regular memory: the base and the size,
    which the retry rounds up. *)
Definition reserve_regular (size alignment requested_address noaccess_prefix : Z)
    : os_m W (option (Z * Z)) :=
  base ← (if negb (requested_address =? 0)
          then lift (attempt_reserve_memory_at size (requested_address - noaccess_prefix))
          else lift (reserve_memory size alignment));
  if base =? 0 then mret None
  else if (alignment >? 0) && negb ((base &&& u64 (alignment - 1)) =? 0) then
    ok ← lift (release_memory base size);
    check ok ;;
    let size := align_size_up size alignment in
    let extra_size := u64 (size + alignment) in
    extra_base ← lift (reserve_memory extra_size alignment);
    if extra_base =? 0 then mret None
    else
      let base := align_size_up extra_base alignment in
      check (base >=? extra_base) ;;
      let unused_bottom_size := u64 (base - extra_base) in
      let unused_top_size := u64 (extra_size - size - unused_bottom_size) in
      check (unused_bottom_size mod vm_allocation_granularity =? 0) ;;
      check (unused_top_size mod vm_allocation_granularity =? 0) ;;
      (if unused_bottom_size >? 0 then lift (release_memory extra_base unused_bottom_size)
       else mret true) ;;
      (if unused_top_size >? 0 then lift (release_memory (base + size) unused_top_size)
       else mret true) ;;
      mret (Some (base, size))
  else mret (Some (base, size)).

Definition initialize (size alignment : Z) (large : bool) (requested_address noaccess_prefix : Z)
    : os_m W ReservedSpace :=
  let granularity := vm_allocation_granularity in
  check ((size &&& u64 (granularity - 1)) =? 0) ;;
  check ((alignment &&& u64 (granularity - 1)) =? 0) ;;
  check ((alignment =? 0) || is_power_of_2 alignment) ;;
  if size =? 0 then mret not_reserved
  else
    let special := large && negb can_commit_large_page_memory in
    special_base ← (if special
                    then check (requested_address =? 0) ;; lift (reserve_memory_special size)
                    else mret 0);
    (if negb (special_base =? 0) && (alignment >? 0)
     then check (special_base mod alignment =? 0) else mret tt) ;;
    r ← (if special_base =? 0
         then reserve_regular size alignment requested_address noaccess_prefix
         else mret (Some (special_base, size)));
    match r with
    | None => mret not_reserved
    | Some (base, size) =>
        let alignment := MAX2 alignment vm_page_size in
        check ((noaccess_prefix =? 0) || (noaccess_prefix =? alignment)) ;;
        check (distinguishable_from_marks base) ;;
        check (distinguishable_from_marks (base + size)) ;;
        mret (mkReservedSpace base size noaccess_prefix alignment (negb (special_base =? 0)))
    end.

(** [ReservedSpace(size)] and [ReservedSpace(size, alignment, large, ...)] *)
Definition ReservedSpace_size (size : Z) : os_m W ReservedSpace := initialize size 0 false 0 0.

Definition ReservedSpace_aligned (size alignment : Z) (large : bool)
    (requested_address noaccess_prefix : Z) : os_m W ReservedSpace :=
  initialize (u64 (size + noaccess_prefix)) alignment large requested_address noaccess_prefix.

(** [ReservedSpace(prefix_size, prefix_align, suffix_size, suffix_align, ...)] *)
Definition ReservedSpace_compound
    (prefix_size prefix_align suffix_size suffix_align noaccess_prefix : Z)
    : os_m W ReservedSpace :=
  check (negb (prefix_size =? 0)) ;;
  check (negb (prefix_align =? 0)) ;;
  check (negb (suffix_size =? 0)) ;;
  check (negb (suffix_align =? 0)) ;;
  check ((prefix_size &&& u64 (prefix_align - 1)) =? 0) ;;
  check ((suffix_size &&& u64 (suffix_align - 1)) =? 0) ;;
  check ((suffix_align &&& u64 (prefix_align - 1)) =? 0) ;;
  let adjusted_prefix_size := u64 (prefix_size + noaccess_prefix) in
  let size := u64 (adjusted_prefix_size + suffix_size) in
  let try_reserve_special := UseLargePages && (prefix_align =? large_page_size) in
  if negb can_commit_large_page_memory && try_reserve_special
  then initialize size prefix_align true 0 noaccess_prefix
  else
    check ((noaccess_prefix =? 0) || (noaccess_prefix =? prefix_align)) ;;
    addr ← lift (reserve_memory size prefix_align);
    if addr =? 0 then mret not_reserved
    else
      let ofs := u64 (addr + adjusted_prefix_size) &&& u64 (suffix_align - 1) in
      addr ← (if negb (ofs =? 0) then
                ok ← lift (release_memory addr size);
                check ok ;;
                let extra := MAX2 ofs (u64 (suffix_align - ofs)) in
                addr ← reserve_and_align (u64 (size + extra)) adjusted_prefix_size prefix_align
                         suffix_size suffix_align;
                if addr =? 0 then
                  reserve_and_align (u64 (size + suffix_align)) adjusted_prefix_size prefix_align
                    suffix_size suffix_align
                else mret addr
              else mret addr);
      mret (mkReservedSpace addr size noaccess_prefix prefix_align false).

(** [ReservedSpace(base, size, alignment, special)] and the splitting functions *)
Definition ReservedSpace_part (base size alignment : Z) (special : bool) : os_m W ReservedSpace :=
  check (size mod vm_allocation_granularity =? 0) ;;
  mret (mkReservedSpace base size 0 alignment special).

Definition first_part (rs : ReservedSpace) (partition_size alignment : Z) (split realloc : bool)
    : os_m W ReservedSpace :=
  check (partition_size <=? rs_size rs) ;;
  (if split then lift_ (split_reserved_memory (_base rs) (rs_size rs) partition_size realloc)
   else mret tt) ;;
  ReservedSpace_part (_base rs) partition_size alignment (rs_special rs).

Definition last_part (rs : ReservedSpace) (partition_size alignment : Z) : os_m W ReservedSpace :=
  check (partition_size <=? rs_size rs) ;;
  ReservedSpace_part (_base rs + partition_size) (rs_size rs - partition_size) alignment
    (rs_special rs).

Definition rs_release (rs : ReservedSpace) : os_m W ReservedSpace :=
  if is_reserved rs then
    let real_base := _base rs - _noaccess_prefix rs in
    let real_size := u64 (rs_size rs + _noaccess_prefix rs) in
    (if rs_special rs then lift (release_memory_special real_base real_size)
     else lift (release_memory real_base real_size)) ;;
    mret (mkReservedSpace 0 0 0 (_alignment rs) false)
  else mret rs.

Definition protect_noaccess_prefix (rs : ReservedSpace) (size : Z) : os_m W ReservedSpace :=
  if _noaccess_prefix rs =? 0 then mret rs
  else
    check (_noaccess_prefix rs >=? vm_page_size) ;;
    ok ← lift (protect_memory_none (_base rs) (_noaccess_prefix rs) (rs_special rs));
    check ok ;;
    let base := _base rs + _noaccess_prefix rs in
    let rsize := u64 (rs_size rs - _noaccess_prefix rs) in
    check ((size =? rsize) && (base mod _alignment rs =? 0)) ;;
    mret (mkReservedSpace base rsize (_noaccess_prefix rs) (_alignment rs) (rs_special rs)).

(** [ReservedHeapSpace]: [narrow] is [UseCompressedOops &&
    UseImplicitNullCheckForNarrowOop]. *)
Definition heap_noaccess_prefix (narrow : bool) (align : Z) : os_m W Z :=
  if narrow then fun w => n ← lcm vm_page_size align; Some (n, w) else mret 0.

Definition ReservedHeapSpace_aligned (narrow : bool) (size alignment : Z) (large : bool)
    (requested_address : Z) : os_m W ReservedSpace :=
  noaccess_prefix ← heap_noaccess_prefix narrow alignment;
  rs ← ReservedSpace_aligned size alignment large requested_address noaccess_prefix;
  protect_noaccess_prefix rs size.

Definition ReservedHeapSpace_compound (narrow : bool)
    (prefix_size prefix_align suffix_size suffix_align : Z) : os_m W ReservedSpace :=
  noaccess_prefix ← heap_noaccess_prefix narrow prefix_align;
  rs ← ReservedSpace_compound prefix_size prefix_align suffix_size suffix_align noaccess_prefix;
  protect_noaccess_prefix rs (u64 (prefix_size + suffix_size)).
End reserved_space.

(** * What a reservation does to the address space *)

Section laws.
Context {W : Type} {os : OS W} {laws : OSLaws W}.

Definition fresh (w : W) (a n : Z) : Prop := forall x, within a n x -> ~ reserved w x.
Definition gains (w w' : W) (a n : Z) : Prop :=
  forall x, reserved w' x <-> reserved w x \/ within a n x.
Definition same_reserved (w w' : W) : Prop := forall x, reserved w' x <-> reserved w x.

Lemma land_mask x k : 0 <= k <= 40 -> x &&& u64 (2 ^ k - 1) = x mod 2 ^ k.
Proof.
  intros Hk. assert (1 <= 2 ^ k <= 2 ^ 40).
  { split; [pose proof (Z.pow_pos_nonneg 2 k); lia|apply Z.pow_le_mono_r; lia]. }
  rewrite wrapu_id by (unfold is_u; pow2_norm; lia). apply land_ones_mod. lia.
Qed.

Lemma pow2_bounds k : 0 <= k <= 40 -> 1 <= 2 ^ k <= 2 ^ 40.
Proof.
  intros Hk. split; [pose proof (Z.pow_pos_nonneg 2 k); lia|apply Z.pow_le_mono_r; lia].
Qed.

Lemma mod_eqb_divide x m : 0 < m -> (x mod m =? 0) = true <-> (m | x).
Proof. intros. rewrite Z.eqb_eq. apply Z.mod_divide. lia. Qed.

(** Releasing the bottom or the top of a range leaves the rest of it. *)
Lemma release_bottom w w1 a n k r w' :
  gains w w1 a n -> fresh w a n -> 0 <= k <= n -> release_memory a k w1 = (r, w') ->
  r = true /\ gains w w' (a + k) (n - k).
Proof.
  intros Hg Hf Hk E. destruct (fun H => release_memory_ok _ _ _ _ _ H E) as [Hr Hw].
  { intros x Hx. apply Hg. right. unfold within in *. lia. }
  split; [done|]. intros x. rewrite Hw, (Hg x). unfold within. split.
  - intros [[Hx|Hx] Hn]; [by left|right; lia].
  - intros [Hx|Hx]; [|lia]. split; [by left|]. intros Hb. apply (Hf x); [unfold within; lia|done].
Qed.

Lemma release_top w w1 a n k r w' :
  gains w w1 a n -> fresh w a n -> 0 <= k <= n -> release_memory (a + (n - k)) k w1 = (r, w') ->
  r = true /\ gains w w' a (n - k).
Proof.
  intros Hg Hf Hk E. destruct (fun H => release_memory_ok _ _ _ _ _ H E) as [Hr Hw].
  { intros x Hx. apply Hg. right. unfold within in *. lia. }
  split; [done|]. intros x. rewrite Hw, (Hg x). unfold within. split.
  - intros [[Hx|Hx] Hn]; [by left|right; lia].
  - intros [Hx|Hx]; [|lia]. split; [by left|]. intros Hb. apply (Hf x); [unfold within; lia|done].
Qed.

Lemma release_all w w1 a n r w' :
  gains w w1 a n -> fresh w a n -> release_memory a n w1 = (r, w') ->
  r = true /\ same_reserved w w'.
Proof.
  intros Hg Hf E. destruct (fun H => release_memory_ok _ _ _ _ _ H E) as [Hr Hw].
  { intros x Hx. apply Hg. by right. }
  split; [done|]. intros x. rewrite Hw, (Hg x). split; [tauto|].
  intros Hx. split; [by left|]. intros Hb. by apply (Hf x).
Qed.

Lemma gains_0 w w' a n : gains w w' a n -> n <= 0 -> same_reserved w w'.
Proof. intros Hg Hn x. rewrite (Hg x). unfold within. split; [intros [?|?]; [done|lia]|auto]. Qed.

Lemma gains_of_same w w1 w2 a n : same_reserved w w1 -> gains w1 w2 a n -> gains w w2 a n.
Proof. intros Hs Hg x. rewrite (Hg x), (Hs x). done. Qed.

Lemma fresh_of_same w w1 a n : same_reserved w w1 -> fresh w1 a n -> fresh w a n.
Proof. intros Hs Hf x Hx. rewrite <- (Hs x). by apply Hf. Qed.

(** How far an address has to move up to be aligned. *)
Definition align_delta (x k : Z) : Z := if x mod 2 ^ k =? 0 then 0 else 2 ^ k - x mod 2 ^ k.

Lemma align_delta_spec x k :
  0 <= k -> 0 <= align_delta x k < 2 ^ k /\ (2 ^ k | x + align_delta x k).
Proof.
  intros Hk. assert (0 < 2 ^ k) by (apply Z.pow_pos_nonneg; lia). unfold align_delta.
  pose proof (Z.mod_pos_bound x (2 ^ k) ltac:(lia)).
  destruct (Z.eqb_spec (x mod 2 ^ k) 0) as [E|E].
  - split; [lia|]. rewrite Z.add_0_r. apply Z.mod_divide; lia.
  - split; [lia|]. exists (x / 2 ^ k + 1). pose proof (Z.div_mod x (2 ^ k)). lia.
Qed.

Lemma align_reserved_region_ok w w1 addr len prefix prefix_align suffix k :
  gains w w1 addr len -> fresh w addr len -> 0 < addr -> addr + len <= 2 ^ 62 ->
  0 <= prefix -> 0 <= suffix -> prefix + suffix <= len -> 0 <= k <= 40 ->
  wp (align_reserved_region addr len prefix prefix_align suffix (2 ^ k)) (fun r w' =>
    let d := align_delta (addr + prefix) k in
    if decide (len < d + (prefix + suffix)) then r = 0 /\ w' = w1
    else r = addr + d /\ gains w w' r (prefix + suffix)) w1.
Proof.
  intros Hg Hf Ha Hl Hp Hs Hlen Hk. pose proof (pow2_bounds k Hk) as Hb.
  destruct (align_delta_spec (addr + prefix) k ltac:(lia)) as [Hd _].
  unfold align_reserved_region.
  rewrite (wrapu_id 64 (prefix + suffix)) by (unfold is_u; pow2_norm; lia).
  apply wp_bind, wp_check; [lia|]. apply wp_bind, wp_check; [lia|]. cbv zeta.
  rewrite (wrapu_id 64 (addr + prefix)), land_mask by (try done; unfold is_u; pow2_norm; lia).
  set (ofs := (addr + prefix) mod 2 ^ k).
  assert ((if ofs =? 0 then 0 else u64 (2 ^ k - ofs)) = align_delta (addr + prefix) k) as ->.
  { unfold align_delta. fold ofs. pose proof (Z.mod_pos_bound (addr + prefix) (2 ^ k) ltac:(lia)).
    destruct (ofs =? 0); [done|]. apply wrapu_id. unfold is_u. subst ofs. pow2_norm. lia. }
  set (d := align_delta (addr + prefix) k) in *.
  rewrite !(wrapu_id 64 (d + (prefix + suffix))) by (unfold is_u; pow2_norm; lia).
  destruct (Z.ltb_spec len (d + (prefix + suffix))) as [Hlt|Hge].
  { apply wp_ret. by rewrite decide_True. }
  rewrite (wrapu_id 64 (len - (d + (prefix + suffix)))) by (unfold is_u; pow2_norm; lia).
  rewrite (wrapu_id 64 (addr + d + (prefix + suffix))), (wrapu_id 64 (addr + d))
    by (unfold is_u; pow2_norm; lia).
  assert (fresh w (addr + d) (len - d)) as Hf2 by (intros x Hx; apply Hf; unfold within in *; lia).
  apply wp_bind. apply wp_mono with (Q := fun _ w' => gains w w' (addr + d) (len - d)).
  { destruct (Z.eqb_spec d 0) as [->|Hne]; cbn [negb].
    - apply wp_ret. by rewrite Z.add_0_r, Z.sub_0_r.
    - apply wp_lift. intros r w' E. eapply release_bottom; [done|done|lia|done]. }
  intros _ w2 Hg2. apply wp_bind.
  apply wp_mono with (Q := fun _ w' => gains w w' (addr + d) (prefix + suffix)).
  { destruct (Z.eqb_spec (len - (d + (prefix + suffix))) 0) as [E0|Hne]; cbn [negb].
    - apply wp_ret. by replace (prefix + suffix) with (len - d) by lia.
    - apply wp_lift. intros r w' E.
      replace (addr + d + (prefix + suffix))
        with (addr + d + (len - d - (len - (d + (prefix + suffix))))) in E by lia.
      destruct (release_top w w2 (addr + d) (len - d) (len - (d + (prefix + suffix))) r w' Hg2 Hf2
        ltac:(lia) E) as [_ Hg3].
      by replace (len - d - (len - (d + (prefix + suffix)))) with (prefix + suffix) in Hg3 by lia. }
  intros _ w3 Hg3. apply wp_ret. rewrite decide_False by lia. done.
Qed.

(** What [os::reserve_memory] gives. *)
Lemma reserve_memory_gains n hint w a w' :
  reserve_memory n hint w = (a, w') ->
  if decide (a = 0) then same_reserved w w'
  else (2 ^ granularity_shift | a) /\ 0 < a /\ a + n <= 2 ^ 62 /\ fresh w a n /\ gains w w' a n.
Proof. intros E. apply reserve_memory_ok in E as [_ E]. by case_decide. Qed.

Definition aligned_for (p k prefix r : Z) : Prop := (2 ^ p | r) /\ (2 ^ k | r + prefix).

Lemma reserve_and_align_ok w size prefix suffix p k :
  0 <= prefix -> 0 <= suffix -> prefix + suffix < size -> size <= 2 ^ 62 ->
  0 <= p <= k -> k <= 40 -> (2 ^ p | prefix) ->
  wp (reserve_and_align size prefix (2 ^ p) suffix (2 ^ k)) (fun r w' =>
    if decide (r = 0) then same_reserved w w'
    else 0 < r /\ r + (prefix + suffix) <= 2 ^ 62 /\ fresh w r (prefix + suffix) /\
      gains w w' r (prefix + suffix) /\ aligned_for p k prefix r) w.
Proof.
  intros Hp Hs Hsz Hmax Hpk Hk Hdiv. pose proof (pow2_bounds k ltac:(lia)).
  pose proof (pow2_bounds p ltac:(lia)). unfold reserve_and_align.
  rewrite (wrapu_id 64 (prefix + suffix)) by (unfold is_u; pow2_norm; lia).
  apply wp_bind, wp_check; [lia|]. apply wp_bind, wp_lift. intros raw w1 E.
  apply reserve_memory_gains in E. destruct (Z.eqb_spec raw 0) as [->|Hne].
  { rewrite decide_True in E by done. apply wp_ret. by rewrite decide_True. }
  rewrite decide_False in E by done. destruct E as (_ & Hraw & Hmax1 & Hf & Hg).
  apply wp_bind. eapply wp_mono.
  { apply align_reserved_region_ok with (w := w); try done; lia. }
  destruct (align_delta_spec (raw + prefix) k ltac:(lia)) as [Hd Hdd].
  set (d := align_delta (raw + prefix) k) in *.
  intros r w2 Hr. cbv zeta in Hr. case_decide as Hfit.
  - destruct Hr as [-> ->]. apply wp_bind. cbn [Z.eqb]. apply wp_bind, wp_lift. intros ok w3 E3.
    destruct (release_all w w1 raw size ok w3 Hg Hf E3) as [-> Hs3].
    apply wp_check; [done|]. apply wp_ret. by rewrite decide_True.
  - destruct Hr as [-> Hg2]. apply wp_bind. replace (raw + d =? 0) with false by lia.
    assert (aligned_for p k prefix (raw + d)) as [Hal Hal'].
    { split; [|by replace (raw + d + prefix) with (raw + prefix + d) by lia].
      replace (raw + d) with (raw + prefix + d - prefix) by lia. apply Z.divide_sub_r; [|done].
      etransitivity; [|exact Hdd]. exists (2 ^ (k - p)). rewrite <- Z.pow_add_r by lia. f_equal. lia. }
    apply wp_bind, wp_check; [lia|].
    rewrite (wrapu_id 64 (raw + d + prefix + suffix)), (wrapu_id 64 (raw + size))
      by (unfold is_u; pow2_norm; lia).
    apply wp_bind, wp_check; [lia|]. rewrite (land_mask (raw + d) p) by lia.
    apply wp_bind, wp_check; [by apply mod_eqb_divide; [lia|]|].
    rewrite (wrapu_id 64 (raw + d + prefix)), (land_mask (raw + d + prefix) k)
      by (try lia; unfold is_u; pow2_norm; lia).
    apply wp_check; [by apply mod_eqb_divide; [lia|]|].
    apply wp_ret. rewrite decide_False by lia. split_and!; [lia|lia| |done|by split].
    intros x Hx. apply Hf. unfold within in *. lia.
Qed.

(** ** The compound constructor *)

(** The arguments its assertions require, with sizes an address space can hold. *)
Record compound_args (prefix_size p suffix_size k noaccess : Z) : Prop := {
  ca_prefix : 0 < prefix_size <= 2 ^ 60;
  ca_suffix : 0 < suffix_size <= 2 ^ 60;
  ca_aligns : 0 <= p <= k;
  ca_align_max : k <= 40;
  ca_prefix_aligned : (2 ^ p | prefix_size);
  ca_suffix_aligned : (2 ^ k | suffix_size);
  ca_noaccess : noaccess = 0 \/ noaccess = 2 ^ p
}.

(** What an attempt at the compound reservation leaves: nothing, or a fresh
    block with both parts aligned. *)
Definition compound_block (w : W) (p k adj suffix_size r : Z) (w' : W) : Prop :=
  if decide (r = 0) then same_reserved w w'
  else 0 < r /\ r + (adj + suffix_size) <= 2 ^ 62 /\ fresh w r (adj + suffix_size) /\
    gains w w' r (adj + suffix_size) /\ aligned_for p k adj r.

Lemma retry_ok w w1 prefix_size p suffix_size k noaccess extra :
  compound_args prefix_size p suffix_size k noaccess -> same_reserved w w1 -> 0 < extra <= 2 ^ k ->
  wp (reserve_and_align (prefix_size + noaccess + suffix_size + extra) (prefix_size + noaccess)
        (2 ^ p) suffix_size (2 ^ k))
    (compound_block w p k (prefix_size + noaccess) suffix_size) w1.
Proof.
  intros [Hp Hs Hpk Hk Hpd Hsd Hno] Hs1 He. pose proof (pow2_bounds k ltac:(lia)).
  pose proof (pow2_bounds p ltac:(lia)).
  assert ((2 ^ p | prefix_size + noaccess)) as Hadj.
  { apply Z.divide_add_r; [done|]. destruct Hno as [->| ->]; [apply Z.divide_0_r|done]. }
  eapply wp_mono.
  - apply (reserve_and_align_ok w1 _ (prefix_size + noaccess) suffix_size p k);
      (done || pow2_norm; lia).
  - intros r w' Hr. simpl in Hr. unfold compound_block.
    case_decide; [intros x; by rewrite (Hr x), (Hs1 x)|].
    destruct Hr as (? & ? & ? & ? & ?). split_and!; [done|done| | |done].
    + by eapply fresh_of_same.
    + by eapply gains_of_same.
Qed.

Lemma compound_ok w prefix_size p suffix_size k noaccess :
  compound_args prefix_size p suffix_size k noaccess ->
  can_commit_large_page_memory = true ->
  wp (ReservedSpace_compound prefix_size (2 ^ p) suffix_size (2 ^ k) noaccess) (fun rs w' =>
    if decide (_base rs = 0) then same_reserved w w'
    else 0 < _base rs /\ rs_size rs = prefix_size + noaccess + suffix_size /\
      _base rs + rs_size rs <= 2 ^ 62 /\ rs_special rs = false /\
      _noaccess_prefix rs = noaccess /\ _alignment rs = 2 ^ p /\
      fresh w (_base rs) (rs_size rs) /\ gains w w' (_base rs) (rs_size rs) /\
      aligned_for p k (prefix_size + noaccess) (_base rs)) w.
Proof.
  intros Hargs Hcan. pose proof Hargs as [Hp Hs Hpk Hk Hpd Hsd Hno]. pose proof (pow2_bounds k ltac:(lia)).
  pose proof (pow2_bounds p ltac:(lia)).
  assert ((2 ^ p | 2 ^ k)) as Hpow.
  { exists (2 ^ (k - p)). rewrite <- Z.pow_add_r by lia. f_equal. lia. }
  assert ((2 ^ p | prefix_size + noaccess)) as Hadj.
  { apply Z.divide_add_r; [done|]. destruct Hno as [->| ->]; [apply Z.divide_0_r|done]. }
  unfold ReservedSpace_compound.
  do 4 (apply wp_bind, wp_check; [lia|]). rewrite !land_mask by lia.
  do 3 (apply wp_bind, wp_check; [by apply mod_eqb_divide; [lia|]|]). cbv zeta.
  rewrite (wrapu_id 64 (prefix_size + noaccess)) by (unfold is_u; pow2_norm; lia).
  rewrite (wrapu_id 64 (prefix_size + noaccess + suffix_size)) by (unfold is_u; pow2_norm; lia).
  rewrite Hcan. cbn [negb andb]. apply wp_bind, wp_check; [lia|].
  set (adj := prefix_size + noaccess) in *. set (size := adj + suffix_size) in *.
  apply wp_bind, wp_lift. intros addr w1 E1. apply reserve_memory_gains in E1.
  destruct (Z.eqb_spec addr 0) as [->|Hne].
  { rewrite decide_True in E1 by done. apply wp_ret. by rewrite decide_True. }
  rewrite decide_False in E1 by done. destruct E1 as (_ & Haddr & Hmax & Hf & Hg).
  rewrite land_mask by lia. rewrite (wrapu_id 64 (addr + adj)) by (unfold is_u; subst adj size; pow2_norm; lia).
  apply wp_bind. apply wp_mono with (Q := compound_block w p k adj suffix_size).
  2: { intros r w' Hr. apply wp_ret. unfold compound_block in Hr. simpl. case_decide; [done|].
       destruct Hr as (? & ? & ? & ? & ?). split_and!; done. }
  destruct (Z.eqb_spec ((addr + adj) mod 2 ^ k) 0) as [E|E]; cbn [negb].
  { apply wp_ret. unfold compound_block. rewrite decide_False by lia. apply Z.mod_divide in E; [|lia].
    split_and!; [done|done|done|done|]. split; [|done].
    replace addr with (addr + adj - adj) by lia. apply Z.divide_sub_r; [|done]. exact (Z.divide_trans _ _ _ Hpow E). }
  apply wp_bind, wp_lift. intros ok w2 E2.
  destruct (release_all w w1 addr size ok w2 Hg Hf E2) as [-> Hs2].
  apply wp_bind, wp_check; [done|]. apply wp_bind.
  pose proof (Z.mod_pos_bound (addr + adj) (2 ^ k) ltac:(lia)) as Hofs.
  rewrite MAX2_max, (wrapu_id 64 (2 ^ k - (addr + adj) mod 2 ^ k)) by (unfold is_u; pow2_norm; lia).
  rewrite (wrapu_id 64 (size + Z.max _ _)), (wrapu_id 64 (size + 2 ^ k))
    by (unfold is_u; subst adj size; pow2_norm; lia).
  eapply wp_mono; [by apply retry_ok; try (done || lia)|]. intros r w3 Hr. unfold compound_block in Hr.
  destruct (Z.eqb_spec r 0) as [->|Hr0].
  - rewrite decide_True in Hr by done. by apply retry_ok; try (done || lia).
  - apply wp_ret. done.
Qed.

(** ** [initialize] *)

Lemma distinguishable_ok p : (4 | p) -> distinguishable_from_marks p = true.
Proof.
  intros [q ->]. unfold distinguishable_from_marks. apply Z.eqb_eq.
  change (Z.lnot 3) with (Z.lnot (2 ^ 2 - 1)). rewrite !land_lnot_low by done.
  change (2 ^ 2) with 4. rewrite Z.div_mul by done.
  replace ((q * 4 ||| 3) / 4) with q; [done|].
  change 4 with (2 ^ 2). rewrite <- Z.shiftr_div_pow2, Z.shiftr_lor by done.
  rewrite Z.shiftr_div_pow2, Z.div_mul by done. change (3 ≫ 2) with 0. by rewrite Z.lor_0_r.
Qed.

Lemma granule_mult4 x : (2 ^ granularity_shift | x) -> (4 | x).
Proof.
  intros H. pose proof page_shift_range. pose proof granularity_range.
  etransitivity; [|exact H]. exists (2 ^ (granularity_shift - 2)).
  change 4 with (2 ^ 2). rewrite <- Z.pow_add_r by lia. f_equal. lia.
Qed.

(** An alignment is none, or a power of two that the granularity divides. *)
Definition valid_alignment (alignment : Z) : Prop :=
  alignment = 0 \/ exists k, granularity_shift <= k <= 40 /\ alignment = 2 ^ k.

Definition multiple_if (alignment x : Z) : Prop := alignment <> 0 -> (alignment | x).

(** The unaligned ends of the larger reservation are released. *)
Lemma trim_ok w w1 extra n k :
  granularity_shift <= k <= 40 -> 0 < n <= 2 ^ 61 -> (2 ^ k | n) -> (2 ^ granularity_shift | extra) ->
  0 < extra -> extra + (n + 2 ^ k) <= 2 ^ 62 -> fresh w extra (n + 2 ^ k) -> gains w w1 extra (n + 2 ^ k) ->
  wp (let base := align_size_up extra (2 ^ k) in
      check (base >=? extra) ;;
      let unused_bottom_size := u64 (base - extra) in
      let unused_top_size := u64 (n + 2 ^ k - n - unused_bottom_size) in
      check (unused_bottom_size mod vm_allocation_granularity =? 0) ;;
      check (unused_top_size mod vm_allocation_granularity =? 0) ;;
      (if unused_bottom_size >? 0 then lift (release_memory extra unused_bottom_size)
       else mret true) ;;
      (if unused_top_size >? 0 then lift (release_memory (base + n) unused_top_size)
       else mret true) ;;
      mret (Some (base, n)))
    (fun r w' => exists a, r = Some (a, n) /\ 0 < a /\ a + n <= 2 ^ 62 /\ fresh w a n /\ gains w w' a n /\
       (2 ^ k | a) /\ (2 ^ granularity_shift | a)) w1.
Proof.
  intros Hk Hn Hnd Heg He0 Hemax Hf3 Hg3. pose proof page_shift_range. pose proof granularity_range.
  assert (1 <= 2 ^ granularity_shift <= 2 ^ 40) as Hgb by (apply pow2_bounds; lia).
  pose proof (pow2_bounds k ltac:(lia)) as Hkb.
  assert ((2 ^ granularity_shift | 2 ^ k)) as Hgk.
  { exists (2 ^ (k - granularity_shift)). rewrite <- Z.pow_add_r by lia. f_equal. lia. }
  cbv zeta. rewrite (align_size_up_spec extra k) by (pow2_norm; lia).
  destruct (round_up_bounds extra (2 ^ k) ltac:(lia)) as [Ha Had].
  set (a := (extra + (2 ^ k - 1)) / 2 ^ k * 2 ^ k) in *.
  apply wp_bind, wp_check; [lia|].
  rewrite (wrapu_id 64 (a - extra)) by (unfold is_u; pow2_norm; lia).
  rewrite (wrapu_id 64 (n + 2 ^ k - n - (a - extra))) by (unfold is_u; pow2_norm; lia).
  replace (n + 2 ^ k - n - (a - extra)) with (2 ^ k - (a - extra)) by lia.
  pose proof (Z.divide_trans _ _ _ Hgk Had) as Hag.
  rewrite granularity_eq.
  apply wp_bind, wp_check; [apply mod_eqb_divide; [lia|]; by apply Z.divide_sub_r|].
  apply wp_bind, wp_check;
    [apply mod_eqb_divide; [lia|]; apply Z.divide_sub_r; [done|by apply Z.divide_sub_r]|].
  assert (fresh w a (n + 2 ^ k - (a - extra))) as Hf4
    by (intros x Hx; apply Hf3; unfold within in *; lia).
  apply wp_bind. apply wp_mono with (Q := fun _ w' => gains w w' a (n + 2 ^ k - (a - extra))).
  { apply wp_if; intros Hc.
    - apply wp_lift. intros r w' E4.
      destruct (release_bottom w w1 extra (n + 2 ^ k) (a - extra) r w' Hg3 Hf3 ltac:(lia) E4)
        as [_ Hg4]. by replace (extra + (a - extra)) with a in Hg4 by lia.
    - apply wp_ret. replace a with extra by lia. by rewrite Z.sub_diag, Z.sub_0_r. }
  intros _ w4 Hg4. apply wp_bind. apply wp_mono with (Q := fun _ w' => gains w w' a n).
  { apply wp_if; intros Hc; [|exfalso; lia]. apply wp_lift. intros r w' E5.
    replace (a + n) with (a + (n + 2 ^ k - (a - extra) - (2 ^ k - (a - extra)))) in E5 by lia.
    destruct (release_top w w4 a (n + 2 ^ k - (a - extra)) (2 ^ k - (a - extra)) r w' Hg4 Hf4
      ltac:(lia) E5) as [_ Hg5].
    by replace (n + 2 ^ k - (a - extra) - (2 ^ k - (a - extra))) with n in Hg5 by lia. }
  intros _ w5 Hg5. apply wp_ret. exists a. split_and!; try (done || lia).
  intros x Hx. apply Hf4. unfold within in *. lia.
Qed.

Lemma reserve_regular_ok w size alignment requested noaccess :
  0 < size <= 2 ^ 60 -> (2 ^ granularity_shift | size) -> valid_alignment alignment ->
  wp (reserve_regular size alignment requested noaccess) (fun r w' =>
    match r with
    | None => same_reserved w w'
    | Some (base, n) => 0 < base /\ size <= n /\ base + n <= 2 ^ 62 /\ fresh w base n /\
        gains w w' base n /\ multiple_if alignment base /\ (2 ^ granularity_shift | base) /\
        (2 ^ granularity_shift | n) /\ (multiple_if alignment size -> n = size)
    end) w.
Proof.
  intros Hsz Hgran Hal. pose proof page_shift_range. pose proof granularity_range.
  assert (1 <= 2 ^ granularity_shift <= 2 ^ 40) as Hgb by (apply pow2_bounds; lia). unfold reserve_regular.
  apply wp_bind. apply wp_mono with (Q := fun a w' =>
    if decide (a = 0) then same_reserved w w'
    else (2 ^ granularity_shift | a) /\ 0 < a /\ a + size <= 2 ^ 62 /\ fresh w a size /\
      gains w w' a size).
  { apply wp_if; intros _; apply wp_lift; intros a w' E; [|by apply reserve_memory_gains in E].
    apply attempt_reserve_memory_at_ok in E as [_ E]. case_decide; [done|]. apply E. }
  intros base w1 Hb. simpl in Hb. destruct (Z.eqb_spec base 0) as [->|Hne].
  { apply wp_ret. by rewrite decide_True in Hb. }
  rewrite decide_False in Hb by done. destruct Hb as (Hbg & Hb0 & Hmax & Hf & Hg).
  destruct Hal as [->|(k & Hk & ->)].
  { cbn [Z.gtb Z.compare andb]. apply wp_ret. split_and!; try done; try lia. by intros []. }
  pose proof (pow2_bounds k ltac:(lia)) as Hkb. replace (2 ^ k >? 0) with true by lia. cbn [andb].
  rewrite land_mask by lia. destruct (Z.eqb_spec (base mod 2 ^ k) 0) as [E|E]; cbn [negb].
  { apply Z.mod_divide in E; [|lia]. apply wp_ret. split_and!; try done; try lia. by intros _. }
  assert ((2 ^ granularity_shift | 2 ^ k)) as Hgk.
  { exists (2 ^ (k - granularity_shift)). rewrite <- Z.pow_add_r by lia. f_equal. lia. }
  apply wp_bind, wp_lift. intros ok w2 E2.
  destruct (release_all w w1 base size ok w2 Hg Hf E2) as [-> Hs2].
  apply wp_bind, wp_check; [done|]. cbv zeta.
  rewrite (align_size_up_spec size k) by (pow2_norm; lia).
  destruct (round_up_bounds size (2 ^ k) ltac:(lia)) as [Hn Hnd].
  assert (multiple_if (2 ^ k) size -> (size + (2 ^ k - 1)) / 2 ^ k * 2 ^ k = size) as Hsame.
  { intros Hm. apply round_up_multiple; [lia|]. apply Hm. lia. }
  set (n := (size + (2 ^ k - 1)) / 2 ^ k * 2 ^ k) in *.
  rewrite (wrapu_id 64 (n + 2 ^ k)) by (unfold is_u; pow2_norm; lia).
  apply wp_bind, wp_lift. intros extra w3 E3. apply reserve_memory_gains in E3.
  destruct (Z.eqb_spec extra 0) as [->|Hne3].
  { rewrite decide_True in E3 by done. apply wp_ret. intros x. by rewrite (E3 x), (Hs2 x). }
  rewrite decide_False in E3 by done. destruct E3 as (Heg & He0 & Hemax & Hf3 & Hg3).
  eapply wp_mono; [apply (trim_ok w2 w3 extra n k); (done || lia)|].
  intros ? w5 (a & -> & Ha0 & Hamax & Hf4 & Hg5 & Had & Hag).
  split_and!; [done|lia|done| | |by intros _|done|exact (Z.divide_trans _ _ _ Hgk Hnd)|done].
  - by apply (fresh_of_same w w2).
  - by eapply gains_of_same.
Qed.

Definition reserved_special (w : W) (size alignment a : Z) (w' : W) : Prop :=
  if decide (a = 0) then same_reserved w w'
  else (2 ^ granularity_shift | a) /\ 0 < a /\ a + size <= 2 ^ 62 /\ fresh w a size /\
    gains w w' a size /\ multiple_if alignment a /\ forall x, within a size x -> committed w' x.

Lemma special_reservation_ok w size alignment (special : bool) requested :
  (special = true -> requested = 0 /\ multiple_if alignment large_page_size) ->
  wp (if special then check (requested =? 0) ;; lift (reserve_memory_special size) else mret 0)
    (reserved_special w size alignment) w.
Proof.
  intros Hsp. unfold reserved_special. destruct special.
  - destruct (Hsp eq_refl) as [-> Hm]. apply wp_bind, wp_check; [done|]. apply wp_lift.
    intros a w' E. apply reserve_memory_special_ok in E. case_decide; [exact (proj1 E)|].
    destruct E as (? & Hlp & ? & ? & ? & ? & Hc). split_and!; try done.
    + intros Hne. exact (Z.divide_trans _ _ _ (Hm Hne) Hlp).
    + intros x Hx. apply Hc. by right.
  - apply wp_ret. by rewrite decide_True.
Qed.

Lemma initialize_ok w size alignment large requested noaccess :
  0 <= size <= 2 ^ 60 -> (2 ^ granularity_shift | size) -> valid_alignment alignment ->
  noaccess = 0 \/ noaccess = Z.max alignment vm_page_size ->
  (large && negb can_commit_large_page_memory = true ->
   requested = 0 /\ multiple_if alignment large_page_size) ->
  wp (initialize size alignment large requested noaccess) (fun rs w' =>
    if decide (_base rs = 0) then same_reserved w w'
    else 0 < _base rs /\ size <= rs_size rs /\ _base rs + rs_size rs <= 2 ^ 62 /\
      fresh w (_base rs) (rs_size rs) /\ gains w w' (_base rs) (rs_size rs) /\
      multiple_if alignment (_base rs) /\ (2 ^ granularity_shift | _base rs) /\
      (2 ^ granularity_shift | rs_size rs) /\
      (multiple_if alignment size -> rs_size rs = size) /\
      (rs_special rs = true -> forall x, within (_base rs) (rs_size rs) x -> committed w' x)) w.
Proof.
  intros Hsz Hgran Hal Hno Hsp. pose proof page_shift_range. pose proof granularity_range.
  assert (1 <= 2 ^ granularity_shift <= 2 ^ 40) as Hgb by (apply pow2_bounds; lia).
  unfold initialize. rewrite granularity_eq, !land_mask by lia. cbv zeta.
  apply wp_bind, wp_check; [by apply mod_eqb_divide; [lia|]|].
  apply wp_bind, wp_check.
  { apply mod_eqb_divide; [lia|]. destruct Hal as [->|(k & Hk & ->)]; [apply Z.divide_0_r|].
    exists (2 ^ (k - granularity_shift)). rewrite <- Z.pow_add_r by lia. f_equal. lia. }
  apply wp_bind, wp_check.
  { destruct Hal as [->|(k & Hk & ->)]; [done|]. rewrite is_power_of_2_pow by lia. apply orb_true_r. }
  destruct (Z.eqb_spec size 0) as [->|Hne]; [by apply wp_ret|].
  apply wp_bind. eapply wp_mono; [by apply special_reservation_ok with (w := w) (alignment := alignment)|].
  intros a w1 Ha. unfold reserved_special in Ha. apply wp_bind.
  apply wp_mono with (Q := fun _ w' => w' = w1).
  { apply wp_if; intros Hc; [|by apply wp_ret]. apply wp_check; [|done].
    rewrite decide_False in Ha by lia. apply mod_eqb_divide; [lia|]. apply Ha. lia. }
  intros _ ? ->. apply wp_bind.
  apply wp_mono with (Q := fun r w' =>
    match r with
    | None => same_reserved w w'
    | Some (base, n) => 0 < base /\ size <= n /\ base + n <= 2 ^ 62 /\ fresh w base n /\
        gains w w' base n /\ multiple_if alignment base /\ (2 ^ granularity_shift | base) /\
        (2 ^ granularity_shift | n) /\ (multiple_if alignment size -> n = size) /\
        (a <> 0 -> forall x, within base n x -> committed w' x)
    end).
  { destruct (Z.eqb_spec a 0) as [->|Ha0].
    - rewrite decide_True in Ha by done. eapply wp_mono.
      { apply (reserve_regular_ok w1 size alignment requested noaccess); [lia|done|done]. }
      intros [[base n]|] w' Hr; simpl in Hr; [|intros x; by rewrite (Hr x), (Ha x)].
      destruct Hr as (? & ? & ? & ? & ? & ? & ? & ? & ?). split_and!; try done.
      + by eapply fresh_of_same.
      + by eapply gains_of_same.
    - rewrite decide_False in Ha by done. apply wp_ret.
      destruct Ha as (? & ? & ? & ? & ? & ? & ?). split_and!; try done. }
  intros [[base n]|] w2 Hr; simpl in Hr; [|by apply wp_ret].
  destruct Hr as (Hb0 & ? & ? & ? & ? & ? & Hbg & Hng & ? & Hcom). rewrite MAX2_max.
  apply wp_bind, wp_check; [lia|].
  apply wp_bind, wp_check; [by apply distinguishable_ok, granule_mult4|].
  apply wp_bind, wp_check; [by apply distinguishable_ok, granule_mult4, Z.divide_add_r|].
  apply wp_ret. simpl. rewrite decide_False by lia. split_and!; try done.
  intros Hsp'. apply Hcom. intros ->. done.
Qed.

(** * Properties *)

(** Reserving memory with an alignment returns, in every branch, either a
    space with no base and the address space as before, or a fresh range, at
    least as large as asked for and exactly as large when that is a multiple of
    the alignment, whose base has the alignment; everything reserved on the way
    has been released, and pinned memory is committed. *)
Theorem aligned_reservation w size alignment large requested noaccess :
  0 <= size + noaccess <= 2 ^ 60 -> (2 ^ granularity_shift | size + noaccess) ->
  valid_alignment alignment -> noaccess = 0 \/ noaccess = Z.max alignment vm_page_size ->
  (large && negb can_commit_large_page_memory = true ->
   requested = 0 /\ multiple_if alignment large_page_size) ->
  exists rs w', ReservedSpace_aligned size alignment large requested noaccess w = Some (rs, w') /\
    if decide (_base rs = 0) then same_reserved w w'
    else fresh w (_base rs) (rs_size rs) /\ gains w w' (_base rs) (rs_size rs) /\
      multiple_if alignment (_base rs) /\ size + noaccess <= rs_size rs /\
      (multiple_if alignment (size + noaccess) -> rs_size rs = size + noaccess) /\
      (rs_special rs = true -> forall x, within (_base rs) (rs_size rs) x -> committed w' x).
Proof.
  intros Hsz Hg Hal Hno Hsp. unfold ReservedSpace_aligned.
  rewrite wrapu_id by (unfold is_u; pow2_norm; lia).
  destruct (initialize_ok w (size + noaccess) alignment large requested noaccess Hsz Hg Hal Hno Hsp)
    as (rs & w' & E & HQ).
  exists rs, w'. split; [done|]. case_decide; [done|].
  destruct HQ as (? & ? & ? & ? & ? & ? & ? & ? & ? & ?). split_and!; done.
Qed.

(** Reserving a prefix and a suffix with different alignments returns either
    a space with no base and the address space as before, or a fresh range of
    exactly the sum of the sizes, whose base has the prefix's alignment and whose
    suffix starts at the suffix's alignment; no assertion and no [fatal] is hit,
    and whatever the retries reserved is released. *)
Theorem compound_reservation w prefix_size p suffix_size k noaccess :
  compound_args prefix_size p suffix_size k noaccess -> can_commit_large_page_memory = true ->
  exists rs w',
    ReservedSpace_compound prefix_size (2 ^ p) suffix_size (2 ^ k) noaccess w = Some (rs, w') /\
    if decide (_base rs = 0) then same_reserved w w'
    else rs_size rs = prefix_size + noaccess + suffix_size /\
      fresh w (_base rs) (rs_size rs) /\ gains w w' (_base rs) (rs_size rs) /\
      (2 ^ p | _base rs) /\ (2 ^ k | _base rs + (prefix_size + noaccess)).
Proof.
  intros Hargs Hcan. destruct (compound_ok w _ _ _ _ _ Hargs Hcan) as (rs & w' & E & HQ).
  exists rs, w'. split; [done|]. case_decide; [done|].
  destruct HQ as (? & ? & ? & ? & ? & ? & ? & ? & [? ?]). split_and!; done.
Qed.
End laws.

(** Two reserved pages, so that the next address is not aligned to large pages. *)
Definition small_sim : sim := mkSim [(true, 65536, 8192)] [] [].

Lemma aligned_reservation_witness :
  exists rs w', ReservedSpace_aligned (2 ^ 22) (2 ^ 21) false 0 0 small_sim = Some (rs, w') /\
    rs_size rs = 2 ^ 22.
Proof.
  destruct (aligned_reservation small_sim (2 ^ 22) (2 ^ 21) false 0 0) as (rs & w' & E & HQ).
  - lia.
  - exists (2 ^ 10). done.
  - right. exists 21. simpl. split; [lia|done].
  - by left.
  - done.
  - exists rs, w'. split; [done|]. rewrite decide_False in HQ.
    + apply HQ. intros _. exists 2. done.
    + vm_compute in E. injection E as <- _. done.
Defined.

Lemma compound_reservation_witness :
  exists rs w', ReservedSpace_compound (2 ^ 14) (2 ^ 13) (2 ^ 21) (2 ^ 20) 0 small_sim
                = Some (rs, w') /\ (2 ^ 13 | _base rs).
Proof.
  destruct (compound_reservation small_sim (2 ^ 14) 13 (2 ^ 21) 20 0) as (rs & w' & E & HQ).
  - split; try lia; [exists 2; done|exists 2; done].
  - done.
  - exists rs, w'. split; [done|]. rewrite decide_False in HQ; [apply HQ|].
    vm_compute in E. injection E as <- _. done.
Defined.
