(* ===== verification/VirtualSpace.v ===== *)
(** * Virtual spaces

    Model of the class [VirtualSpace] of runtime/virtualspace.hpp and
    virtualspace.cpp: committing a reserved range in chunks, with default pages at
    its unaligned ends and large pages between.  Assertions are always checked;
    the debug-only warnings and the printing function are left out. *)

From S2P Require Import Prelude GlobalDefinitions OsMemory ReservedSpace.

Open Scope Z_scope.

(** ** [VirtualSpace] *)

Record VirtualSpace := mkVirtualSpace {
  low_boundary : Z;
  high_boundary : Z;
  low : Z;
  high : Z;
  special : bool;
  lower_high : Z;
  middle_high : Z;
  upper_high : Z;
  lower_high_boundary : Z;
  middle_high_boundary : Z;
  upper_high_boundary : Z;
  lower_alignment : Z;
  middle_alignment : Z;
  upper_alignment : Z
}.

Definition empty_space : VirtualSpace := mkVirtualSpace 0 0 0 0 false 0 0 0 0 0 0 0 0 0.

(** [release()] forgets the range; the caller releases the memory. *)
Definition vs_release (vs : VirtualSpace) : VirtualSpace := empty_space.

Definition committed_size (vs : VirtualSpace) : Z := u64 (high vs - low vs).
Definition reserved_size (vs : VirtualSpace) : Z := u64 (high_boundary vs - low_boundary vs).
Definition uncommitted_size (vs : VirtualSpace) : Z := u64 (reserved_size vs - committed_size vs).
Definition contains (vs : VirtualSpace) (p : Z) : bool := (low vs <=? p) && (p <? high vs).

Definition set_high (vs : VirtualSpace) (h : Z) : VirtualSpace :=
  mkVirtualSpace (low_boundary vs) (high_boundary vs) (low vs) h (special vs)
    (lower_high vs) (middle_high vs) (upper_high vs) (lower_high_boundary vs)
    (middle_high_boundary vs) (upper_high_boundary vs) (lower_alignment vs)
    (middle_alignment vs) (upper_alignment vs).

Definition set_region_highs (vs : VirtualSpace) (lower middle upper : Z) : VirtualSpace :=
  mkVirtualSpace (low_boundary vs) (high_boundary vs) (low vs) (high vs) (special vs)
    lower middle upper (lower_high_boundary vs) (middle_high_boundary vs)
    (upper_high_boundary vs) (lower_alignment vs) (middle_alignment vs) (upper_alignment vs).

(** The high addresses of the regions lie within them. *)
Definition regions_ok (vs : VirtualSpace) : bool :=
  (low_boundary vs <=? lower_high vs) && (lower_high vs <=? lower_high_boundary vs) &&
  (lower_high_boundary vs <=? middle_high vs) && (middle_high vs <=? middle_high_boundary vs) &&
  (middle_high_boundary vs <=? upper_high vs) && (upper_high vs <=? upper_high_boundary vs).

Definition check_for_contiguity (vs : VirtualSpace) : bool :=
  regions_ok vs && (low vs >=? low_boundary vs) &&
  (low_boundary vs <=? lower_high_boundary vs) &&
  (upper_high_boundary vs <=? high_boundary vs) && (high vs <=? upper_high vs).

Section virtual_space.
Context {W : Type} `{OS W} (AlwaysPreTouch : bool).

(** [for (curr = previous_high; curr < unaligned_new_high; curr += vm_ps) *curr = 0] *)
Fixpoint pre_touch_loop (fuel : nat) (curr end_ : Z) : os_m W unit :=
  match fuel with
  | O => fun _ => None
  | S fuel =>
      if curr <? end_ then
        (fun w => w ← store_byte curr 0 w; Some (tt, w)) ;;
        pre_touch_loop fuel (curr + vm_page_size) end_
      else mret tt
  end.

Definition expand_by (vs : VirtualSpace) (bytes : Z) (pre_touch : bool)
    : os_m W (bool * VirtualSpace) :=
  if uncommitted_size vs <? bytes then mret (false, vs)
  else if special vs then mret (true, set_high vs (high vs + bytes))
  else
    let previous_high := high vs in
    let unaligned_new_high := high vs + bytes in
    check (unaligned_new_high <=? high_boundary vs) ;;
    let aligned_lower_new_high :=
      round_to (MIN2 unaligned_new_high (lower_high_boundary vs)) (lower_alignment vs) in
    let aligned_middle_new_high :=
      round_to (MIN2 unaligned_new_high (middle_high_boundary vs)) (middle_alignment vs) in
    let aligned_upper_new_high :=
      round_to (MIN2 unaligned_new_high (upper_high_boundary vs)) (upper_alignment vs) in
    let lower_needs := if aligned_lower_new_high >? lower_high vs
                       then u64 (aligned_lower_new_high - lower_high vs) else 0 in
    let middle_needs := if aligned_middle_new_high >? middle_high vs
                        then u64 (aligned_middle_new_high - middle_high vs) else 0 in
    let upper_needs := if aligned_upper_new_high >? upper_high vs
                       then u64 (aligned_upper_new_high - upper_high vs) else 0 in
    check (regions_ok vs) ;;
    ok ← (if lower_needs >? 0 then
            check ((low_boundary vs <=? lower_high vs) &&
                   (lower_high vs + lower_needs <=? lower_high_boundary vs)) ;;
            lift (commit_memory (lower_high vs) lower_needs)
          else mret true);
    if negb ok then mret (false, vs) else
    let vs := set_region_highs vs (lower_high vs + lower_needs) (middle_high vs) (upper_high vs) in
    ok ← (if middle_needs >? 0 then
            check ((lower_high_boundary vs <=? middle_high vs) &&
                   (middle_high vs + middle_needs <=? middle_high_boundary vs)) ;;
            lift (commit_memory_aligned (middle_high vs) middle_needs (middle_alignment vs))
          else mret true);
    if negb ok then mret (false, vs) else
    let vs := set_region_highs vs (lower_high vs) (middle_high vs + middle_needs) (upper_high vs) in
    ok ← (if upper_needs >? 0 then
            check ((middle_high_boundary vs <=? upper_high vs) &&
                   (upper_high vs + upper_needs <=? upper_high_boundary vs)) ;;
            lift (commit_memory (upper_high vs) upper_needs)
          else mret true);
    if negb ok then mret (false, vs) else
    let vs := set_region_highs vs (lower_high vs) (middle_high vs) (upper_high vs + upper_needs) in
    (if pre_touch || AlwaysPreTouch
     then pre_touch_loop (S (Z.to_nat bytes)) previous_high unaligned_new_high else mret tt) ;;
    mret (true, set_high vs (high vs + bytes)).

Definition shrink_by (vs : VirtualSpace) (size : Z) : os_m W VirtualSpace :=
  check (negb (committed_size vs <? size)) ;;
  if special vs then mret (set_high vs (high vs - size))
  else
    let unaligned_new_high := high vs - size in
    check (unaligned_new_high >=? low_boundary vs) ;;
    let aligned_upper_new_high :=
      round_to (MAX2 unaligned_new_high (middle_high_boundary vs)) (upper_alignment vs) in
    let aligned_middle_new_high :=
      round_to (MAX2 unaligned_new_high (lower_high_boundary vs)) (middle_alignment vs) in
    let aligned_lower_new_high :=
      round_to (MAX2 unaligned_new_high (low_boundary vs)) (lower_alignment vs) in
    let upper_needs := if aligned_upper_new_high <? upper_high vs
                       then u64 (upper_high vs - aligned_upper_new_high) else 0 in
    let middle_needs := if aligned_middle_new_high <? middle_high vs
                        then u64 (middle_high vs - aligned_middle_new_high) else 0 in
    let lower_needs := if aligned_lower_new_high <? lower_high vs
                       then u64 (lower_high vs - aligned_lower_new_high) else 0 in
    check (regions_ok vs) ;;
    ok ← (if upper_needs >? 0 then
            check ((middle_high_boundary vs <=? aligned_upper_new_high) &&
                   (aligned_upper_new_high + upper_needs <=? upper_high_boundary vs)) ;;
            lift (uncommit_memory aligned_upper_new_high upper_needs)
          else mret true);
    if negb ok then mret vs else
    let vs := set_region_highs vs (lower_high vs) (middle_high vs) (upper_high vs - upper_needs) in
    ok ← (if middle_needs >? 0 then
            check ((lower_high_boundary vs <=? aligned_middle_new_high) &&
                   (aligned_middle_new_high + middle_needs <=? middle_high_boundary vs)) ;;
            lift (uncommit_memory aligned_middle_new_high middle_needs)
          else mret true);
    if negb ok then mret vs else
    let vs := set_region_highs vs (lower_high vs) (middle_high vs - middle_needs) (upper_high vs) in
    ok ← (if lower_needs >? 0 then
            check ((low_boundary vs <=? aligned_lower_new_high) &&
                   (aligned_lower_new_high + lower_needs <=? lower_high_boundary vs)) ;;
            lift (uncommit_memory aligned_lower_new_high lower_needs)
          else mret true);
    if negb ok then mret vs else
    let vs := set_region_highs vs (lower_high vs - lower_needs) (middle_high vs) (upper_high vs) in
    mret (set_high vs (high vs - size)).

(** [initialize(rs, committed_size)] of a fresh object. *)
Definition vs_initialize (vs : VirtualSpace) (rs : ReservedSpace) (committed_size : Z)
    : os_m W (bool * VirtualSpace) :=
  if negb (is_reserved rs) then mret (false, vs)
  else
    check (low_boundary vs =? 0) ;;
    let low_boundary := _base rs in
    let high_boundary := low_boundary + rs_size rs in
    let middle_alignment := page_size_for_region (rs_size rs) (rs_size rs) 1 in
    let lower_high_boundary := round_to low_boundary middle_alignment in
    let middle_high_boundary := round_down high_boundary middle_alignment in
    let vs := mkVirtualSpace low_boundary high_boundary low_boundary low_boundary (rs_special rs)
                low_boundary lower_high_boundary middle_high_boundary
                lower_high_boundary middle_high_boundary high_boundary
                vm_page_size middle_alignment vm_page_size in
    if committed_size >? 0 then expand_by vs committed_size false
    else mret (true, vs).
End virtual_space.

(** * The committed part of a space *)

Section laws.
Context {W : Type} {os : OS W} {laws : OSLaws W} (AlwaysPreTouch : bool).

(** The boundaries, set once by [initialize]. *)
Record geometry (vs : VirtualSpace) (k : Z) : Prop := {
  g_base : 0 < low_boundary vs;
  g_low : low vs = low_boundary vs;
  g_max : high_boundary vs <= 2 ^ 62;
  g_upper : upper_high_boundary vs = high_boundary vs;
  g_page : lower_alignment vs = 2 ^ page_shift /\ upper_alignment vs = 2 ^ page_shift;
  g_large : middle_alignment vs = 2 ^ k;
  g_shift : page_shift <= k <= 40;
  g_low_aligned : (2 ^ page_shift | low_boundary vs);
  g_high_aligned : (2 ^ page_shift | high_boundary vs);
  g_lower_aligned : (2 ^ k | lower_high_boundary vs);
  g_middle_aligned : (2 ^ k | middle_high_boundary vs);
  g_order : low_boundary vs <= lower_high_boundary vs <= middle_high_boundary vs;
  g_order' : middle_high_boundary vs <= high_boundary vs
}.

(** The committed prefixes of the three regions. *)
Definition region_committed (vs : VirtualSpace) (w : W) : Prop :=
  forall x, (low_boundary vs <= x < lower_high vs \/
             lower_high_boundary vs <= x < middle_high vs \/
             middle_high_boundary vs <= x < upper_high vs) -> committed w x.

(** They cover everything below [high()]. *)
Record regions (vs : VirtualSpace) : Prop := {
  r_lower : low_boundary vs <= lower_high vs <= lower_high_boundary vs;
  r_middle : lower_high_boundary vs <= middle_high vs <= middle_high_boundary vs;
  r_upper : middle_high_boundary vs <= upper_high vs <= high_boundary vs;
  r_cover_lower : Z.min (high vs) (lower_high_boundary vs) <= lower_high vs;
  r_cover_middle : Z.min (high vs) (middle_high_boundary vs) <= middle_high vs;
  r_cover_upper : high vs <= upper_high vs
}.

Definition inv (vs : VirtualSpace) (k : Z) (w : W) : Prop :=
  geometry vs k /\ low vs <= high vs <= high_boundary vs /\
  if special vs then forall x, low_boundary vs <= x < high_boundary vs -> committed w x
  else regions vs /\ region_committed vs w.

(** What all operations but [release] keep. *)
Definition same_space (vs vs' : VirtualSpace) : Prop :=
  low_boundary vs' = low_boundary vs /\ high_boundary vs' = high_boundary vs /\
  special vs' = special vs.

Lemma rounded x k :
  0 <= k <= 40 -> 0 <= x <= 2 ^ 62 ->
  x <= round_to x (2 ^ k) < 2 ^ 63 /\ forall b, (2 ^ k | b) -> x <= b -> round_to x (2 ^ k) <= b.
Proof.
  intros Hk Hx. pose proof (pow2_bounds k Hk).
  destruct (round_up_bounds x (2 ^ k)) as [Hb [q Hq]]; [lia|].
  rewrite round_to_spec by (pow2_norm; lia). split; [pow2_norm; lia|].
  intros b [c ->] Hle. rewrite Hq in *. apply (least_multiple x c q (2 ^ k)); lia.
Qed.

Lemma inv_committed vs k w x : inv vs k w -> contains vs x = true -> committed w x.
Proof.
  intros (Hg & Hh & Hs) Hx. unfold contains in Hx. destruct Hg. rewrite g_low0 in *.
  destruct (special vs); [apply Hs; lia|]. destruct Hs as [[] Hc]. apply Hc. lia.
Qed.

Lemma pre_touch_ok fuel : forall curr end_ w,
  (forall x, curr <= x < end_ -> committed w x) -> Z.max 0 (end_ - curr) < Z.of_nat fuel ->
  wp (pre_touch_loop fuel curr end_) (fun _ w' => forall x, committed w' x <-> committed w x) w.
Proof.
  pose proof page_shift_range. assert (0 < 2 ^ page_shift) by (apply Z.pow_pos_nonneg; lia).
  induction fuel as [|fuel IH]; intros curr end_ w Hc Hf.
  { lia. }
  cbn [pre_touch_loop]. destruct (Z.ltb_spec curr end_); [|by apply wp_ret].
  destruct (store_byte_ok curr 0 w) as (w1 & E1 & _ & Hw1); [apply Hc; lia|].
  apply wp_bind. exists tt, w1. rewrite E1. split; [done|]. rewrite vm_page_size_eq.
  eapply wp_mono.
  - apply IH; [|lia]. intros x Hx. apply Hw1, Hc. lia.
  - intros [] w' Hw' x. simpl in Hw'. by rewrite Hw', Hw1.
Qed.

(** A commit of the next bytes of a region. *)
Lemma commit_region_ok (f : W -> bool * W) a n b w :
  (0 < n -> forall r w', f w = (r, w') -> (forall x, committed w x -> committed w' x) /\
     (r = true -> forall x, committed w' x <-> committed w x \/ within a n x)) ->
  (0 < n -> b = true) ->
  wp (if n >? 0 then check b ;; lift f else mret true) (fun ok w' =>
    (forall x, committed w x -> committed w' x) /\
    (ok = true -> forall x, within a n x -> committed w' x)) w.
Proof.
  intros Hf Hb. apply wp_if; intros Hn.
  - apply wp_bind, wp_check; [apply Hb; lia|]. apply wp_lift. intros r w' E.
    destruct (Hf ltac:(lia) r w' E) as [Hk Hr]. split; [done|]. intros -> x Hx. apply Hr; auto.
  - apply wp_ret. split; [done|]. intros _ x Hx. unfold within in Hx. lia.
Qed.

Lemma grow_eq old new :
  0 <= old -> new < 2 ^ 63 -> (if new >? old then u64 (new - old) else 0) = Z.max old new - old.
Proof.
  intros Ho Hn. destruct (Z.gtb_spec new old); [|lia].
  rewrite wrapu_id by (unfold is_u; pow2_norm; lia). lia.
Qed.

Lemma shrink_eq old new :
  0 <= new -> old < 2 ^ 63 -> (if new <? old then u64 (old - new) else 0) = old - Z.min old new.
Proof.
  intros Ho Hn. destruct (Z.ltb_spec new old); [|lia].
  rewrite wrapu_id by (unfold is_u; pow2_norm; lia). lia.
Qed.

Lemma regions_ok_true vs k : geometry vs k -> regions vs -> regions_ok vs = true.
Proof. intros [] []. unfold regions_ok. lia. Qed.

(** The high addresses of the regions after growing to [nh] or shrinking to it. *)
Record targets (vs : VirtualSpace) (k nh : Z) (al am au : Z) : Prop := {
  t_lower : Z.min nh (lower_high_boundary vs) <= al <= lower_high_boundary vs;
  t_middle : Z.min nh (middle_high_boundary vs) <= am <= middle_high_boundary vs;
  t_upper : nh <= au <= high_boundary vs
}.

Lemma grow_targets vs k nh :
  geometry vs k -> 0 <= nh <= high_boundary vs ->
  targets vs k nh
    (round_to (MIN2 nh (lower_high_boundary vs)) (lower_alignment vs))
    (round_to (MIN2 nh (middle_high_boundary vs)) (middle_alignment vs))
    (round_to (MIN2 nh (upper_high_boundary vs)) (upper_alignment vs)).
Proof.
  intros [] Hnh. destruct g_page0 as [-> ->]. rewrite g_large0, g_upper0, !MIN2_min.
  pose proof page_shift_range. assert (0 <= page_shift <= 40) as Hps by lia.
  assert (0 <= k <= 40) as Hk by lia.
  assert ((2 ^ page_shift | 2 ^ k)) as Hpk.
  { exists (2 ^ (k - page_shift)). rewrite <- Z.pow_add_r by lia. f_equal. lia. }
  destruct (rounded (Z.min nh (lower_high_boundary vs)) page_shift Hps ltac:(lia)) as [? Hl].
  destruct (rounded (Z.min nh (middle_high_boundary vs)) k Hk ltac:(lia)) as [? Hm].
  destruct (rounded (Z.min nh (high_boundary vs)) page_shift Hps ltac:(lia)) as [? Hu].
  specialize (Hl _ (Z.divide_trans _ _ _ Hpk g_lower_aligned0) ltac:(lia)).
  specialize (Hm _ g_middle_aligned0 ltac:(lia)). specialize (Hu _ g_high_aligned0 ltac:(lia)).
  split; lia.
Qed.

(** Moving the high addresses of the regions, and [high()], keeps the invariant
    while the regions still cover what is below [high()]. *)
Lemma inv_move vs k w' l m u h :
  geometry vs k -> special vs = false ->
  low_boundary vs <= l <= lower_high_boundary vs ->
  lower_high_boundary vs <= m <= middle_high_boundary vs ->
  middle_high_boundary vs <= u <= high_boundary vs ->
  Z.min h (lower_high_boundary vs) <= l -> Z.min h (middle_high_boundary vs) <= m -> h <= u ->
  low vs <= h ->
  (forall x, (low_boundary vs <= x < l \/ lower_high_boundary vs <= x < m \/
              middle_high_boundary vs <= x < u) -> committed w' x) ->
  inv (set_high (set_region_highs vs l m u) h) k w'.
Proof.
  intros Hg Hs Hl Hm Hu Hcl Hcm Hcu Hh Hc. split_and!; simpl; [|lia|lia|].
  - by destruct Hg.
  - rewrite Hs. split; [|done]. by split.
Qed.

Lemma set_high_same vs l m u :
  set_high (set_region_highs vs l m u) (high vs) = set_region_highs vs l m u.
Proof. done. Qed.

(** The regions stay committed below their high addresses as they grow one
    after the other. *)
Lemma regions_grown vs w w1 w2 l m :
  region_committed vs w -> lower_high vs <= l -> middle_high vs <= m ->
  (forall x, committed w x -> committed w1 x) -> (forall x, committed w1 x -> committed w2 x) ->
  (forall x, within (lower_high vs) (l - lower_high vs) x -> committed w1 x) ->
  (forall x, within (middle_high vs) (m - middle_high vs) x -> committed w2 x) ->
  forall w3 u, (forall x, committed w2 x -> committed w3 x) ->
  (forall x, upper_high vs <= x < u -> committed w3 x) ->
  forall x, (low_boundary vs <= x < l \/ lower_high_boundary vs <= x < m \/
            middle_high_boundary vs <= x < u) -> committed w3 x.
Proof.
  intros Hc Hl Hm Hk1 Hk2 Hc1 Hc2 w3 u Hk3 Hc3 x Hx.
  destruct (decide (within (lower_high vs) (l - lower_high vs) x)); [auto|].
  destruct (decide (within (middle_high vs) (m - middle_high vs) x)); [auto|].
  destruct (decide (upper_high vs <= x < u)); [auto|].
  apply Hk3, Hk2, Hk1, Hc. unfold within in *. lia.
Qed.

(** Growing the regions one after the other. *)
Lemma expand_regions_ok vs k w bytes (pre_touch : bool) :
  geometry vs k -> regions vs -> region_committed vs w ->
  0 <= bytes -> low vs <= high vs -> high vs + bytes <= high_boundary vs -> special vs = false ->
  (uncommitted_size vs <? bytes) = false ->
  wp (expand_by AlwaysPreTouch vs bytes pre_touch) (fun '(ok, vs') w' =>
    inv vs' k w' /\ same_space vs vs' /\
    high vs' = (if ok : bool then high vs + bytes else high vs) /\
    forall x, committed w x -> committed w' x) w.
Proof.
  intros Hg Hr Hc Hb Hlow Hmax Hsp Hun. unfold expand_by. rewrite Hun, Hsp. cbv zeta.
  apply wp_bind, wp_check; [lia|].
  rewrite (regions_ok_true vs k Hg Hr). apply wp_bind, wp_check; [done|].
  assert (0 < low_boundary vs /\ low vs = low_boundary vs /\ high_boundary vs <= 2 ^ 62 /\
    upper_high_boundary vs = high_boundary vs) as (Hlb & Hlow' & Hhb & Hub) by (by destruct Hg).
  pose proof (grow_targets vs k (high vs + bytes) Hg ltac:(lia)) as Ht. rewrite Hub in *.
  revert Ht. generalize (round_to (MIN2 (high vs + bytes) (lower_high_boundary vs)) (lower_alignment vs)) as al.
  generalize (round_to (MIN2 (high vs + bytes) (middle_high_boundary vs)) (middle_alignment vs)) as am.
  generalize (round_to (MIN2 (high vs + bytes) (high_boundary vs)) (upper_alignment vs)) as au.
  intros au am al [Hal Ham Hau].
  assert (low_boundary vs <= lower_high_boundary vs <= middle_high_boundary vs /\
    middle_high_boundary vs <= high_boundary vs) as [? ?] by (by destruct Hg).
  destruct Hr as [Hrl Hrm Hru Hcl Hcm Hcu].
  rewrite !grow_eq by (pow2_norm; lia).
  set (l := Z.max (lower_high vs) al). set (m := Z.max (middle_high vs) am).
  set (u := Z.max (upper_high vs) au).
  (* the lower region *)
  apply wp_bind. eapply wp_mono.
  { apply (commit_region_ok _ (lower_high vs) (l - lower_high vs)); [|subst l; lia].
    intros _ r w' E. apply commit_memory_ok in E. tauto. }
  intros [] w1 [Hk1 Hc1]; cbn [negb]; simpl in Hc1; [specialize (Hc1 eq_refl)|clear Hc1].
  2: { apply wp_ret. split_and!; [|done|done|auto]. replace vs with (set_high (set_region_highs vs (lower_high vs)
         (middle_high vs) (upper_high vs)) (high vs)) by (by destruct vs).
       apply inv_move; try (done || lia). auto. }
  simpl lower_high_boundary. simpl middle_high_boundary. simpl middle_high. simpl upper_high.
  simpl upper_high_boundary. simpl middle_alignment. simpl lower_high. rewrite Hub.
  replace (lower_high vs + (l - lower_high vs)) with l by lia.
  (* the middle region *)
  apply wp_bind. eapply wp_mono.
  { apply (commit_region_ok _ (middle_high vs) (m - middle_high vs)); [|subst m; lia].
    intros _ r w' E. apply commit_memory_aligned_ok in E. tauto. }
  intros [] w2 [Hk2 Hc2]; cbn [negb]; simpl in Hc2; [specialize (Hc2 eq_refl)|clear Hc2].
  2: { apply wp_ret. split_and!; [|done|done|auto]. rewrite <- set_high_same.
       apply inv_move; try (done || subst l; lia).
       intros x Hx. destruct (decide (within (lower_high vs) (l - lower_high vs) x)); [auto|].
       apply Hk2, Hk1, Hc. unfold within in *. lia. }
  replace (middle_high vs + (m - middle_high vs)) with m by lia.
  (* the upper region *)
  apply wp_bind. eapply wp_mono.
  { apply (commit_region_ok _ (upper_high vs) (u - upper_high vs)); [|subst u; lia].
    intros _ r w' E. apply commit_memory_ok in E. tauto. }
  pose proof (regions_grown vs w w1 w2 l m Hc ltac:(subst l; lia) ltac:(subst m; lia) Hk1 Hk2 Hc1 Hc2)
    as Hall.
  intros [] w3 [Hk3 Hc3]; cbn [negb]; simpl in Hc3; [specialize (Hc3 eq_refl)|clear Hc3].
  2: { apply wp_ret. split_and!; [|done|done|auto].
       change (set_region_highs (set_region_highs vs l (middle_high vs) (upper_high vs)) l m
                 (upper_high vs)) with (set_high (set_region_highs vs l m (upper_high vs)) (high vs)).
       apply inv_move; try (done || subst l m; lia). apply Hall; [done|lia]. }
  replace (upper_high vs + (u - upper_high vs)) with u by lia.
  assert (forall x, (low_boundary vs <= x < l \/ lower_high_boundary vs <= x < m \/
              middle_high_boundary vs <= x < u) -> committed w3 x) as Hall3.
  { apply Hall; [done|]. intros x Hx. apply Hc3. unfold within. lia. }
  apply wp_bind. apply wp_mono with (Q := fun _ w' => forall x, committed w' x <-> committed w3 x).
  { apply wp_if; intros _; [|by apply wp_ret]. apply pre_touch_ok; [|lia].
    intros x Hx. apply Hall3. subst l m u. lia. }
  intros [] w4 Hw4. apply wp_ret. split_and!; try done; [|intros x Hx; apply Hw4; auto].
  apply (inv_move vs k w4 l m u (high vs + bytes)); try (done || subst l m u; lia).
  intros x Hx. apply Hw4, Hall3, Hx.
Qed.

Lemma sizes_eq vs k :
  geometry vs k -> low vs <= high vs <= high_boundary vs ->
  committed_size vs = high vs - low vs /\ uncommitted_size vs = high_boundary vs - high vs.
Proof.
  intros [] Hh. unfold committed_size, uncommitted_size, reserved_size, committed_size.
  rewrite !(wrapu_id 64 (high vs - low vs)), (wrapu_id 64 (high_boundary vs - low_boundary vs))
    by (unfold is_u; pow2_norm; lia).
  rewrite wrapu_id by (unfold is_u; pow2_norm; lia). lia.
Qed.

Lemma expand_by_ok vs k w bytes pre_touch :
  inv vs k w -> 0 <= bytes ->
  wp (expand_by AlwaysPreTouch vs bytes pre_touch) (fun '(ok, vs') w' =>
    inv vs' k w' /\ same_space vs vs' /\
    high vs' = (if ok : bool then high vs + bytes else high vs) /\
    (uncommitted_size vs < bytes -> ok = false) /\
    forall x, committed w x -> committed w' x) w.
Proof.
  intros (Hg & Hh & Hs) Hb. pose proof (sizes_eq vs k Hg Hh) as [Hcs Hus].
  destruct (Z.ltb_spec (uncommitted_size vs) bytes) as [Hlt|Hge].
  { unfold expand_by. replace (uncommitted_size vs <? bytes) with true by lia. by apply wp_ret. }
  destruct (special vs) eqn:Hsp.
  - unfold expand_by. replace (uncommitted_size vs <? bytes) with false by lia. rewrite Hsp.
    apply wp_ret. split_and!; try done; [|lia]. split_and!; simpl; [by destruct Hg|lia|lia|].
    by rewrite Hsp.
  - destruct Hs as [Hr Hc]. eapply wp_mono.
    + apply (expand_regions_ok vs k w); (done || lia).
    + intros [ok vs'] w' (? & ? & ? & ?). split_and!; (done || lia).
Qed.

(** What shrinking needs of each region. *)
Lemma shrink_targets vs k nh :
  geometry vs k -> low_boundary vs <= nh <= high_boundary vs ->
  let au := round_to (MAX2 nh (middle_high_boundary vs)) (upper_alignment vs) in
  let am := round_to (MAX2 nh (lower_high_boundary vs)) (middle_alignment vs) in
  let al := round_to (MAX2 nh (low_boundary vs)) (lower_alignment vs) in
  (nh <= au < 2 ^ 63 /\ middle_high_boundary vs <= au) /\
  (nh <= am < 2 ^ 63 /\ lower_high_boundary vs <= am) /\
  (nh <= al < 2 ^ 63 /\ low_boundary vs <= al).
Proof.
  intros [] Hnh. destruct g_page0 as [-> ->]. rewrite g_large0, !MAX2_max. cbv zeta.
  pose proof page_shift_range. assert (0 <= page_shift <= 40) as Hps by lia.
  assert (0 <= k <= 40) as Hk by lia.
  destruct (rounded (Z.max nh (middle_high_boundary vs)) page_shift Hps ltac:(lia)) as [? _].
  destruct (rounded (Z.max nh (lower_high_boundary vs)) k Hk ltac:(lia)) as [? _].
  destruct (rounded (Z.max nh (low_boundary vs)) page_shift Hps ltac:(lia)) as [? _].
  lia.
Qed.

Lemma uncommit_region_ok a n b w :
  (0 < n -> b = true) ->
  wp (if n >? 0 then check b ;; lift (uncommit_memory a n) else mret true) (fun ok w' =>
    ok = true -> forall x, committed w x -> ~ within a n x -> committed w' x) w.
Proof.
  intros Hb. apply wp_if; intros Hn.
  - apply wp_bind, wp_check; [apply Hb; lia|]. apply wp_lift. intros r w' E ->.
    apply uncommit_memory_ok in E as [_ E]. intros x Hc Hx. by apply E.
  - by apply wp_ret.
Qed.

(** Shrinking takes place as a whole, or [high()] stays where it is. *)
Lemma shrink_by_ok vs k w size :
  inv vs k w -> 0 <= size <= committed_size vs ->
  wp (shrink_by vs size) (fun vs' w' =>
    same_space vs vs' /\
    ((high vs' = high vs - size /\ inv vs' k w') \/ high vs' = high vs)) w.
Proof.
  intros (Hg & Hh & Hs) Hsz. pose proof (sizes_eq vs k Hg Hh) as [Hcs Hus].
  assert (0 < low_boundary vs /\ low vs = low_boundary vs /\ high_boundary vs <= 2 ^ 62 /\
    upper_high_boundary vs = high_boundary vs) as (Hlb & Hlow' & Hhb & Hub) by (by destruct Hg).
  unfold shrink_by. apply wp_bind, wp_check; [lia|]. destruct (special vs) eqn:Hsp.
  { apply wp_ret. split; [done|]. left. split; [done|].
    split_and!; simpl; [by destruct Hg|lia|lia|by rewrite Hsp]. }
  destruct Hs as [Hr Hc]. cbv zeta. apply wp_bind, wp_check; [lia|].
  rewrite (regions_ok_true vs k Hg Hr). apply wp_bind, wp_check; [done|].
  pose proof (shrink_targets vs k (high vs - size) Hg ltac:(lia)) as Ht. cbv zeta in Ht. revert Ht.
  generalize (round_to (MAX2 (high vs - size) (middle_high_boundary vs)) (upper_alignment vs)) as au.
  generalize (round_to (MAX2 (high vs - size) (lower_high_boundary vs)) (middle_alignment vs)) as am.
  generalize (round_to (MAX2 (high vs - size) (low_boundary vs)) (lower_alignment vs)) as al.
  intros al am au (Hau & Ham & Hal).
  assert (low_boundary vs <= lower_high_boundary vs <= middle_high_boundary vs /\
    middle_high_boundary vs <= high_boundary vs) as [? ?] by (by destruct Hg).
  destruct Hr as [Hrl Hrm Hru Hcl Hcm Hcu]. rewrite !shrink_eq by (pow2_norm; lia).
  set (l := Z.min (lower_high vs) al). set (m := Z.min (middle_high vs) am).
  set (u := Z.min (upper_high vs) au).
  apply wp_bind. eapply wp_mono; [apply uncommit_region_ok; subst u; lia|].
  intros [] w1 Hw1; cbn [negb]; [specialize (Hw1 eq_refl)|apply wp_ret; split; [done|by right]].
  apply wp_bind. eapply wp_mono; [apply uncommit_region_ok; subst m; simpl; lia|].
  intros [] w2 Hw2; cbn [negb]; [specialize (Hw2 eq_refl)|apply wp_ret; split; [done|by right]].
  apply wp_bind. eapply wp_mono; [apply uncommit_region_ok; subst l; simpl; lia|].
  intros [] w3 Hw3; cbn [negb]; [specialize (Hw3 eq_refl)|apply wp_ret; split; [done|by right]].
  apply wp_ret. split; [done|]. left. split; [done|]. simpl.
  replace (lower_high vs - (lower_high vs - l)) with l by lia.
  replace (middle_high vs - (middle_high vs - m)) with m by lia.
  replace (upper_high vs - (upper_high vs - u)) with u by lia.
  apply (inv_move vs k w3 l m u (high vs - size)); try (done || subst l m u; lia).
  intros x Hx. simpl in *. unfold within in *.
  apply Hw3; [apply Hw2; [apply Hw1; [apply Hc|]|]|]; subst l m u; lia.
Qed.

Lemma initialize_inv rs w committed_size :
  0 < _base rs -> 2 ^ page_shift <= rs_size rs -> _base rs + rs_size rs <= 2 ^ 62 ->
  (2 ^ page_shift | _base rs) -> (2 ^ page_shift | rs_size rs) -> 0 <= committed_size ->
  (rs_special rs = true -> forall x, within (_base rs) (rs_size rs) x -> committed w x) ->
  exists k, wp (vs_initialize AlwaysPreTouch empty_space rs committed_size) (fun '(ok, vs) w' =>
    inv vs k w' /\ low_boundary vs = _base rs /\ high_boundary vs = _base rs + rs_size rs /\
    (special vs = rs_special rs) /\
    high vs = _base rs + (if ok : bool then committed_size else 0) /\
    forall x, committed w x -> committed w' x) w.
Proof.
  intros Hb Hsz Hmax Hba Hsa Hcs Hsp.
  destruct (page_size_for_region_spec (rs_size rs)) as (k & Hk & Epage & Hle).
  { by rewrite vm_page_size_eq. }
  exists k. unfold vs_initialize, is_reserved. replace (_base rs =? 0) with false by lia.
  cbn [negb]. apply wp_bind, wp_check; [done|]. cbv zeta. rewrite Epage, vm_page_size_eq.
  pose proof page_shift_range. assert (0 <= k <= 40) as Hk' by lia. pose proof (pow2_bounds k Hk').
  rewrite round_down_spec, (round_to_spec (_base rs)) by (pow2_norm; lia).
  destruct (round_up_bounds (_base rs) (2 ^ k) ltac:(lia)) as [Hl Hld].
  pose proof (div_mul_floor (_base rs + rs_size rs) (2 ^ k) ltac:(lia)) as Hm.
  assert ((2 ^ k | (_base rs + rs_size rs) / 2 ^ k * 2 ^ k)) as Hmd by apply Z.divide_factor_r.
  set (lhb := (_base rs + (2 ^ k - 1)) / 2 ^ k * 2 ^ k) in *.
  set (mhb := (_base rs + rs_size rs) / 2 ^ k * 2 ^ k) in *.
  assert (lhb <= mhb) as Hlm.
  { destruct Hld as [q Hq]. subst mhb. rewrite Hq in *.
    apply (greatest_multiple (_base rs + rs_size rs) q _ (2 ^ k)); lia. }
  set (vs := mkVirtualSpace _ _ _ _ _ _ _ _ _ _ _ _ _ _).
  assert (inv vs k w) as Hinv.
  { split_and!; simpl; [|lia|lia|].
    - split; simpl; try done; try lia. by apply Z.divide_add_r.
    - destruct (rs_special rs); [intros x Hx; apply Hsp; [done|unfold within; lia]|].
      split; [|intros x; simpl; lia]. split; simpl; lia. }
  apply wp_if; intros Hc.
  - eapply wp_mono; [apply expand_by_ok; [exact Hinv|lia]|].
    intros [ok vs'] w' (Hinv' & (? & ? & ?) & Hh & _ & ?). split_and!; try done. rewrite Hh. simpl.
    destruct ok; lia.
  - apply wp_ret. split_and!; try done. simpl. lia.
Qed.

(** ** Histories of a space

    A space initialised over [rs], then expanded and shrunk; a shrink is part of a
    history when it takes effect. *)
Inductive history (rs : ReservedSpace) (w0 : W) : VirtualSpace -> W -> Prop :=
| history_initialize n ok vs w :
    0 <= n -> vs_initialize AlwaysPreTouch empty_space rs n w0 = Some ((ok, vs), w) ->
    history rs w0 vs w
| history_expand vs w bytes pre_touch ok vs' w' :
    history rs w0 vs w -> 0 <= bytes ->
    expand_by AlwaysPreTouch vs bytes pre_touch w = Some ((ok, vs'), w') ->
    history rs w0 vs' w'
| history_shrink vs w size vs' w' :
    history rs w0 vs w -> 0 < size <= committed_size vs ->
    shrink_by vs size w = Some (vs', w') -> high vs' = high vs - size ->
    history rs w0 vs' w'.

(** What a space needs of the reservation it is initialised over. *)
Record usable (rs : ReservedSpace) (w : W) : Prop := {
  u_base : 0 < _base rs;
  u_size : 2 ^ page_shift <= rs_size rs;
  u_max : _base rs + rs_size rs <= 2 ^ 62;
  u_base_aligned : (2 ^ page_shift | _base rs);
  u_size_aligned : (2 ^ page_shift | rs_size rs);
  u_special : rs_special rs = true -> forall x, within (_base rs) (rs_size rs) x -> committed w x
}.

Lemma history_inv rs w0 vs w :
  usable rs w0 -> history rs w0 vs w ->
  exists k, inv vs k w /\ low_boundary vs = _base rs /\ high_boundary vs = _base rs + rs_size rs.
Proof.
  intros [] Hh. induction Hh as [n ok vs w Hn E|vs w bytes pt ok vs' w' _ (k & Hi & ? & ?) Hb E
    |vs w size vs' w' _ (k & Hi & ? & ?) Hs E Heq].
  - destruct (initialize_inv rs w0 n) as (k & r & w1 & E1 & HQ); try done.
    rewrite E1 in E. injection E as -> ->. exists k. tauto.
  - destruct (expand_by_ok vs k w bytes pt Hi Hb) as (r & w1 & E1 & HQ).
    rewrite E1 in E. injection E as -> ->. exists k. destruct HQ as (? & (? & ? & _) & _).
    split_and!; [done|congruence|congruence].
  - destruct (shrink_by_ok vs k w size Hi ltac:(lia)) as (r & w1 & E1 & HQ).
    rewrite E1 in E. injection E as -> ->. exists k.
    destruct HQ as [(? & ? & _) [[_ ?]|?]]; [|lia]. split_and!; [done|congruence|congruence].
Qed.

(** C7: A [VirtualSpace] never promises more than it has: after any history of
    [initialize], [expand_by] and effective [shrink_by] calls, under any pattern of
    failing commits, every address that [contains()] accepts is committed memory of
    the reservation.  From such a state no assertion of [expand_by] or [shrink_by]
    fails: [expand_by] moves [high()] by exactly the requested bytes or, when it
    returns false, not at all, and it returns false when the reservation has no room
    left; [shrink_by] moves [high()] down by the requested bytes or not at all. *)
Theorem committed_area rs w0 vs w :
  usable rs w0 -> history rs w0 vs w ->
  (forall x, contains vs x = true ->
     committed w x /\ _base rs <= x < _base rs + rs_size rs) /\
  (forall bytes pre_touch, 0 <= bytes -> exists ok vs' w',
     expand_by AlwaysPreTouch vs bytes pre_touch w = Some ((ok, vs'), w') /\
     high vs' = (if ok : bool then high vs + bytes else high vs) /\
     (_base rs + rs_size rs < high vs + bytes -> ok = false)) /\
  (forall size, 0 <= size <= committed_size vs -> exists vs' w',
     shrink_by vs size w = Some (vs', w') /\
     (high vs' = high vs - size \/ high vs' = high vs)).
Proof.
  intros Hu Hh. destruct (history_inv rs w0 vs w Hu Hh) as (k & Hi & Hl & Hhb).
  destruct (sizes_eq vs k) as [_ Hus]; [apply Hi..|]. split_and!.
  - intros x Hx. split; [by eapply inv_committed|].
    destruct Hi as ([] & ? & _). unfold contains in Hx. lia.
  - intros bytes pt Hb. destruct (expand_by_ok vs k w bytes pt Hi Hb) as ([ok vs'] & w' & E & HQ).
    exists ok, vs', w'. split_and!; [done|apply HQ|]. intros Hlt. apply HQ. lia.
  - intros size Hs. destruct (shrink_by_ok vs k w size Hi Hs) as (vs' & w' & E & HQ).
    exists vs', w'. split; [done|]. tauto.
Qed.
End laws.

(** A space of 4 MB whose ends are not aligned to large pages. *)
Definition sample_reservation : ReservedSpace :=
  mkReservedSpace (2 ^ 21 - 4096) (2 ^ 22) 0 4096 false.

Definition sample_world (outcomes : list bool) : sim :=
  mkSim [(true, 2 ^ 21 - 4096, 2 ^ 22)] [] outcomes.

Lemma sample_usable outcomes : usable sample_reservation (sample_world outcomes).
Proof.
  split; simpl; try done; try lia; [exists 511; lia|exists 1024; lia].
Qed.

(** The space fully committed, with its world. *)
Definition sample_space : VirtualSpace :=
  mkVirtualSpace 2093056 6287360 2093056 6287360 false 2097152 4194304 6287360
    2097152 4194304 6287360 4096 2097152 4096.

Definition sample_committed (outcomes : list bool) : sim :=
  mkSim [(true, 2093056, 4194304)]
    [(true, 4194304, 2093056); (true, 2097152, 2097152); (true, 2093056, 4096)] outcomes.

Lemma committed_area_witness :
  exists vs w, high vs = 2 ^ 21 + 2 ^ 20 /\
    (forall x, contains vs x = true -> covered (com_log w) x = true) /\
    contains vs (2 ^ 21) = true.
Proof.
  set (vs := set_region_highs (set_high sample_space 3145728) 2097152 4194304 4194304).
  set (w := mkSim [(true, 2093056, 4194304)] ((false, 4194304, 2093056) ::
              com_log (sample_committed [])) []).
  exists vs, w. split; [done|]. split; [|done].
  assert (E1 : vs_initialize false empty_space sample_reservation (2 ^ 22) (sample_world [])
    = Some ((true, sample_space), sample_committed [])) by (vm_compute; reflexivity).
  assert (E2 : shrink_by sample_space 3141632 (sample_committed []) = Some (vs, w))
    by (vm_compute; reflexivity).
  destruct (committed_area false sample_reservation (sample_world []) vs w) as [H _].
  - apply sample_usable.
  - eapply history_shrink; [eapply history_initialize; [|exact E1]; lia| |exact E2|]; [|done].
    split; [done|]. vm_compute. discriminate.
  - intros x Hx. by apply H.
Defined.

(** A [shrink_by] whose second uncommit fails returns with [high()] unchanged
    although the upper region is already gone: the space then claims to contain
    memory that is not committed. *)
Theorem failed_shrink_overstates :
  exists vs w vs' w',
    vs_initialize false empty_space sample_reservation (2 ^ 22)
      (sample_world [true; true; true; true; false]) = Some ((true, vs), w) /\
    shrink_by vs (2 ^ 22) w = Some (vs', w') /\ high vs' = high vs /\
    contains vs' (2 ^ 22) = true /\ ~ committed w' (2 ^ 22).
Proof.
  exists sample_space, (sample_committed [true; false]),
    (set_region_highs sample_space 2097152 4194304 4194304),
    (mkSim [(true, 2093056, 4194304)] ((false, 4194304, 2093056) ::
       com_log (sample_committed [])) []).
  split_and!; [vm_compute; reflexivity..|vm_compute; discriminate].
Qed.
