(* ===== verification/CodeHeap.v ===== *)
(** * The code heap

    Model of memory/heap.hpp and heap.cpp: [CodeHeap], the allocator of the code
    cache.  The committed memory is divided into segments; blocks are runs of
    segments with a header, free blocks are linked by address and merged, and the
    segment map gives the start of the block of any segment.

    The words of [_memory] and the bytes of [_segmap] are finite maps, written only
    inside the committed part of their [VirtualSpace]; a read of a word never
    written fails.  A block's header is at its address: [_length] at offset 0,
    [_used] at 8, and in a free block [_link] at 16.  Assertions are always checked;
    printing, the fills of block contents in debug builds and the Linux hook of
    [on_code_mapping] are left out. *)

From S2P Require Import Prelude GlobalDefinitions OsMemory ReservedSpace VirtualSpace.
From stdpp Require Import gmap.

Open Scope Z_scope.

Definition sizeof_HeapBlock : Z := 16.
Definition sizeof_FreeBlock : Z := 24.

Record CodeHeap := mkCodeHeap {
  _memory : VirtualSpace;
  _segmap : VirtualSpace;
  _number_of_committed_segments : Z;
  _number_of_reserved_segments : Z;
  _segment_size : Z;
  _log2_segment_size : Z;
  _next_segment : Z;
  _freelist : Z;
  _free_segments : Z;
  cells : gmap Z Z;
  marks : gmap Z Z
}.

Definition new_CodeHeap : CodeHeap := mkCodeHeap empty_space empty_space 0 0 0 0 0 0 0 ∅ ∅.

Definition set_cells (h : CodeHeap) (m : gmap Z Z) : CodeHeap :=
  mkCodeHeap (_memory h) (_segmap h) (_number_of_committed_segments h)
    (_number_of_reserved_segments h) (_segment_size h) (_log2_segment_size h)
    (_next_segment h) (_freelist h) (_free_segments h) m (marks h).

Definition set_marks (h : CodeHeap) (m : gmap Z Z) : CodeHeap :=
  mkCodeHeap (_memory h) (_segmap h) (_number_of_committed_segments h)
    (_number_of_reserved_segments h) (_segment_size h) (_log2_segment_size h)
    (_next_segment h) (_freelist h) (_free_segments h) (cells h) m.

Definition set_next_segment (h : CodeHeap) (n : Z) : CodeHeap :=
  mkCodeHeap (_memory h) (_segmap h) (_number_of_committed_segments h)
    (_number_of_reserved_segments h) (_segment_size h) (_log2_segment_size h)
    n (_freelist h) (_free_segments h) (cells h) (marks h).

Definition set_freelist (h : CodeHeap) (p : Z) : CodeHeap :=
  mkCodeHeap (_memory h) (_segmap h) (_number_of_committed_segments h)
    (_number_of_reserved_segments h) (_segment_size h) (_log2_segment_size h)
    (_next_segment h) p (_free_segments h) (cells h) (marks h).

Definition set_free_segments (h : CodeHeap) (n : Z) : CodeHeap :=
  mkCodeHeap (_memory h) (_segmap h) (_number_of_committed_segments h)
    (_number_of_reserved_segments h) (_segment_size h) (_log2_segment_size h)
    (_next_segment h) (_freelist h) n (cells h) (marks h).

Definition set_spaces (h : CodeHeap) (memory segmap : VirtualSpace) : CodeHeap :=
  mkCodeHeap memory segmap (_number_of_committed_segments h)
    (_number_of_reserved_segments h) (_segment_size h) (_log2_segment_size h)
    (_next_segment h) (_freelist h) (_free_segments h) (cells h) (marks h).

Definition set_segments (h : CodeHeap) (committed reserved : Z) : CodeHeap :=
  mkCodeHeap (_memory h) (_segmap h) committed reserved (_segment_size h)
    (_log2_segment_size h) (_next_segment h) (_freelist h) (_free_segments h)
    (cells h) (marks h).

Definition set_segment_size (h : CodeHeap) (size log2 : Z) : CodeHeap :=
  mkCodeHeap (_memory h) (_segmap h) (_number_of_committed_segments h)
    (_number_of_reserved_segments h) size log2 (_next_segment h) (_freelist h)
    (_free_segments h) (cells h) (marks h).

Abbreviation heap_m := (os_m CodeHeap).

Definition get : heap_m CodeHeap := fun h => Some (h, h).
Definition modify (f : CodeHeap -> CodeHeap) : heap_m unit := fun h => Some (tt, f h).

(** ** Memory accesses *)

Definition load_cell (a : Z) : heap_m Z := fun h =>
  if (low (_memory h) <=? a) && (a + 8 <=? high (_memory h))
  then match cells h !! a with Some v => Some (v, h) | None => None end
  else None.

Definition store_cell (a v : Z) : heap_m unit := fun h =>
  if (low (_memory h) <=? a) && (a + 8 <=? high (_memory h))
  then Some (tt, set_cells h (<[a := v]> (cells h)))
  else None.

Definition load_mark (p : Z) : heap_m Z := fun h =>
  if VirtualSpace.contains (_segmap h) p
  then match marks h !! p with Some v => Some (v, h) | None => None end
  else None.

Definition store_mark (p v : Z) : heap_m unit := fun h =>
  if VirtualSpace.contains (_segmap h) p
  then Some (tt, set_marks h (<[p := v]> (marks h)))
  else None.

(** ** [HeapBlock] and [FreeBlock] *)

Definition allocated_space (b : Z) : Z := b + sizeof_HeapBlock.
Definition length (b : Z) : heap_m Z := load_cell b.
Definition set_used (b : Z) : heap_m unit := store_cell (b + 8) 1.
Definition set_free (b : Z) : heap_m unit := store_cell (b + 8) 0.
Definition free (b : Z) : heap_m bool := u ← load_cell (b + 8); mret (u =? 0).
Definition HeapBlock_initialize (b n : Z) : heap_m unit := store_cell b n ;; set_used b.
Definition set_length (b l : Z) : heap_m unit := store_cell b l.
Definition link (b : Z) : heap_m Z := load_cell (b + 16).
Definition set_link (b l : Z) : heap_m unit := store_cell (b + 16) l.

(** ** Helper functions *)

Definition number_of_segments (h : CodeHeap) (size : Z) : Z :=
  Z.shiftr (u64 (u64 (size + _segment_size h) - 1)) (_log2_segment_size h).
Definition size_of_segments (h : CodeHeap) (n : Z) : Z := u64 (Z.shiftl n (_log2_segment_size h)).
Definition segment_for (h : CodeHeap) (p : Z) : Z :=
  u64 (Z.shiftr (p - low (_memory h)) (_log2_segment_size h)).
Definition block_at (h : CodeHeap) (i : Z) : Z :=
  low (_memory h) + u64 (Z.shiftl i (_log2_segment_size h)).

(** [while (p < q) *p++ = 0xFF;] *)
Fixpoint mark_free_loop (fuel : nat) (p q : Z) : heap_m unit :=
  match fuel with
  | O => fun _ => None
  | S fuel => if p <? q then store_mark p 255 ;; mark_free_loop fuel (p + 1) q else mret tt
  end.

Definition mark_segmap_as_free (beg end_ : Z) : heap_m unit :=
  h ← get;
  check ((0 <=? beg) && (beg <? _number_of_committed_segments h)) ;;
  check ((beg <? end_) && (end_ <=? _number_of_committed_segments h)) ;;
  mark_free_loop (S (Z.to_nat (end_ - beg))) (low (_segmap h) + beg) (low (_segmap h) + end_).

(** [while (p < q) { *p++ = i++; if (i == 0xFF) i = 1; }] *)
Fixpoint mark_used_loop (fuel : nat) (p q i : Z) : heap_m unit :=
  match fuel with
  | O => fun _ => None
  | S fuel =>
      if p <? q then
        store_mark p (u8 i) ;;
        let i := i + 1 in
        mark_used_loop fuel (p + 1) q (if i =? 255 then 1 else i)
      else mret tt
  end.

Definition mark_segmap_as_used (beg end_ : Z) : heap_m unit :=
  h ← get;
  check ((0 <=? beg) && (beg <? _number_of_committed_segments h)) ;;
  check ((beg <? end_) && (end_ <=? _number_of_committed_segments h)) ;;
  mark_used_loop (S (Z.to_nat (end_ - beg))) (low (_segmap h) + beg) (low (_segmap h) + end_) 0.

(** ** Free list management *)

Definition following_block (b : Z) : heap_m Z :=
  h ← get; n ← length b; mret (b + u64 (_segment_size h * n)).

Definition merge_right (a : Z) : heap_m unit :=
  fr ← free a; check fr ;;
  f ← following_block a; l ← link a;
  if f =? l then
    fr ← (if l =? 0 then mret false else free l); check fr ;;
    n ← length a; n' ← length l; set_length a (u64 (n + n')) ;;
    l' ← link l; set_link a l' ;;
    h ← get;
    let beg := segment_for h a in
    n ← length a; mark_segmap_as_used beg (beg + n)
  else mret tt.

Definition insert_after (a b : Z) : heap_m unit :=
  check (negb (a =? 0) && negb (b =? 0)) ;;
  l ← link a; set_link b l ;;
  set_link a b ;;
  merge_right b ;; merge_right a.

(** The scan of [add_to_freelist] for the place of [b]: [(prev, cur)]. *)
Fixpoint scan_loop (fuel : nat) (b prev cur : Z) : heap_m (Z * Z) :=
  match fuel with
  | O => fun _ => None
  | S fuel =>
      if negb (cur =? 0) && (cur <? b) then
        check ((prev =? 0) || (prev <? cur)) ;;
        l ← link cur; scan_loop fuel b cur l
      else mret (prev, cur)
  end.

Definition add_to_freelist (b : Z) : heap_m unit :=
  h ← get;
  check (negb (b =? _freelist h)) ;;
  n ← length b;
  modify (fun h => set_free_segments h (u64 (_free_segments h + n))) ;;
  set_free b ;;
  if _freelist h =? 0 then
    modify (fun h => set_freelist h b) ;; set_link b 0
  else
    '(prev, cur) ← scan_loop (S (Z.to_nat (_next_segment h))) b 0 (_freelist h);
    check (((prev =? 0) && (b <? _freelist h)) || ((prev <? b) && ((cur =? 0) || (b <? cur)))) ;;
    if prev =? 0 then
      set_link b (_freelist h) ;;
      modify (fun h => set_freelist h b) ;;
      merge_right b
    else insert_after prev b.

(** The search of [search_freelist]: [(best_block, best_prev, best_length)]. *)
Fixpoint best_loop (fuel : nat) (length_ best_block best_prev best_length prev cur : Z)
    : heap_m (Z * Z * Z) :=
  match fuel with
  | O => fun _ => None
  | S fuel =>
      if cur =? 0 then mret (best_block, best_prev, best_length)
      else
        l ← length cur;
        next ← link cur;
        if (length_ <=? l) && ((best_block =? 0) || (l <? best_length))
        then best_loop fuel length_ cur prev l cur next
        else best_loop fuel length_ best_block best_prev best_length cur next
  end.

Section flags.
Variable CodeCacheMinBlockLength : Z.

Definition search_freelist (length_ : Z) : heap_m Z :=
  h ← get;
  '(best_block, best_prev, best_length) ←
     best_loop (S (Z.to_nat (_next_segment h))) length_ 0 0 0 0 (_freelist h);
  if best_block =? 0 then mret 0
  else
    (if best_prev =? 0 then check (_freelist h =? best_block)
     else l ← link best_prev; check (l =? best_block)) ;;
    '(best_block, length_) ←
       (if best_length <? u64 (length_ + CodeCacheMinBlockLength) then
          (if best_prev =? 0 then
             check (_freelist h =? best_block) ;;
             l ← link (_freelist h); modify (fun h => set_freelist h l)
           else
             l ← link best_block; set_link best_prev l) ;;
          mret (best_block, best_length)
        else
          set_length best_block (u64 (best_length - length_)) ;;
          best_block ← following_block best_block;
          let beg := segment_for h best_block in
          mark_segmap_as_used beg (beg + length_) ;;
          set_length best_block length_ ;;
          mret (best_block, length_));
    set_used best_block ;;
    modify (fun h => set_free_segments h (u64 (_free_segments h - length_))) ;;
    mret best_block.

(** ** Iteration *)

Definition first_block : heap_m Z :=
  h ← get; mret (if _next_segment h >? 0 then block_at h 0 else 0).

Definition next_block (b : Z) : heap_m Z :=
  if b =? 0 then mret 0
  else
    h ← get; n ← length b;
    let i := u64 (segment_for h b + n) in
    mret (if i <? _next_segment h then block_at h i else 0).

(** [verify()]: the free list has [_free_segments] segments and all free blocks. *)
Fixpoint verify_freelist (fuel : nat) (b len count : Z) : heap_m (Z * Z) :=
  match fuel with
  | O => fun _ => None
  | S fuel =>
      if b =? 0 then mret (len, count)
      else n ← length b; l ← link b; verify_freelist fuel l (u64 (len + n)) (count + 1)
  end.

Fixpoint count_free (fuel : nat) (b count : Z) : heap_m Z :=
  match fuel with
  | O => fun _ => None
  | S fuel =>
      if b =? 0 then mret count
      else
        f ← free b; b' ← next_block b;
        count_free fuel b' (if f : bool then count - 1 else count)
  end.

Definition verify : heap_m unit :=
  h ← get;
  '(len, count) ← verify_freelist (S (Z.to_nat (_next_segment h))) (_freelist h) 0 0;
  check (len =? _free_segments h) ;;
  b ← first_block;
  count ← count_free (S (Z.to_nat (_next_segment h))) b count;
  check (count =? 0).

(** ** Allocation *)

Definition allocate (size : Z) : heap_m Z :=
  h ← get;
  let length_ := number_of_segments h (u64 (size + sizeof_HeapBlock)) in
  check (sizeof_FreeBlock <=? u64 (length_ * _segment_size h)) ;;
  verify ;;
  block ← search_freelist length_;
  if negb (block =? 0) then
    n ← length block;
    check ((length_ <=? n) && (n <? u64 (length_ + CodeCacheMinBlockLength))) ;;
    f ← free block; check (negb f) ;;
    mret (allocated_space block)
  else
    let length_ := if length_ <? CodeCacheMinBlockLength then CodeCacheMinBlockLength else length_ in
    if u64 (_next_segment h + length_) <=? _number_of_committed_segments h then
      mark_segmap_as_used (_next_segment h) (u64 (_next_segment h + length_)) ;;
      let b := block_at h (_next_segment h) in
      HeapBlock_initialize b length_ ;;
      modify (fun h => set_next_segment h (u64 (_next_segment h + length_))) ;;
      mret (allocated_space b)
    else mret 0.
End flags.

Definition contains (h : CodeHeap) (p : Z) : bool :=
  (low (_memory h) <=? p) && (p <? high (_memory h)).

(** [while (b[i] > 0) i -= (int)b[i];] *)
Fixpoint find_loop (fuel : nat) (b i : Z) : heap_m Z :=
  match fuel with
  | O => fun _ => None
  | S fuel =>
      m ← load_mark (b + i);
      if m >? 0 then find_loop fuel b (u64 (i - m)) else mret i
  end.

Definition find_start (p : Z) : heap_m Z :=
  h ← get;
  if negb (contains h p) then mret 0
  else
    let i := segment_for h p in
    let b := low (_segmap h) in
    m ← load_mark (b + i);
    if m =? 255 then mret 0
    else
      i ← find_loop (S (Z.to_nat i)) b i;
      let b := block_at h i in
      f ← free b;
      if f : bool then mret 0 else mret (allocated_space b).

Definition deallocate (p : Z) : heap_m unit :=
  s ← find_start p; check (p =? s) ;;
  let b := p - sizeof_HeapBlock in
  check (allocated_space b =? p) ;;
  add_to_freelist b.

Definition next_free (b : Z) : heap_m Z :=
  f ← (if b =? 0 then mret false else free b);
  b ← (if f : bool then next_block b else mret b);
  f ← (if b =? 0 then mret false else free b);
  check (negb f) ;;
  mret (if b =? 0 then 0 else allocated_space b).

Definition block_start (q : Z) : heap_m Z :=
  b ← find_start q; mret (if b =? 0 then 0 else b - sizeof_HeapBlock).

Definition first : heap_m Z := b ← first_block; next_free b.
Definition next (p : Z) : heap_m Z := b ← block_start p; b ← next_block b; next_free b.

(** [for (p = first(); p != NULL; p = next(p))], with the blocks visited. *)
Fixpoint walk (fuel : nat) (p : Z) : heap_m (list Z) :=
  match fuel with
  | O => fun _ => None
  | S fuel => if p =? 0 then mret [] else q ← next p; ps ← walk fuel q; mret (p :: ps)
  end.

Definition all_blocks : heap_m (list Z) :=
  h ← get; p ← first; walk (S (Z.to_nat (_next_segment h))) p.

(** ** Statistics *)

Definition capacity (h : CodeHeap) : Z := committed_size (_memory h).
Definition max_capacity (h : CodeHeap) : Z := reserved_size (_memory h).
Definition allocated_capacity (h : CodeHeap) : Z :=
  let l := committed_size (_memory h) in
  let l := u64 (l - size_of_segments h (u64 (_number_of_committed_segments h - _next_segment h))) in
  u64 (l - size_of_segments h (_free_segments h)).

Definition clear : heap_m unit :=
  modify (fun h => set_next_segment h 0) ;;
  h ← get; mark_segmap_as_free 0 (_number_of_committed_segments h).

(** ** Heap extents *)

Section extents.
Context {W : Type} `{OS W} (AlwaysPreTouch can_execute_large_page_memory : bool).

Definition on_heap {A : Type} (m : heap_m A) : os_m (CodeHeap * W) A := fun '(h, w) =>
  match m h with Some (a, h) => Some (a, (h, w)) | None => None end.
Definition on_os {A : Type} (m : os_m W A) : os_m (CodeHeap * W) A := fun '(h, w) =>
  match m w with Some (a, w) => Some (a, (h, w)) | None => None end.

Definition align_to_page_size (size : Z) : os_m (CodeHeap * W) Z :=
  let alignment := vm_page_size in
  check (is_power_of_2 alignment) ;;
  mret (u64 (u64 (size + alignment) - 1) &&& u64 (Z.lnot (alignment - 1))).

Definition reserve (reserved_size_ committed_size_ segment_size : Z) : os_m (CodeHeap * W) bool :=
  check (committed_size_ <=? reserved_size_) ;;
  check (sizeof_FreeBlock <=? segment_size) ;;
  check (is_power_of_2 segment_size) ;;
  log2 ← (fun s => match exact_log2 segment_size with Some k => Some (k, s) | None => None end);
  on_heap (modify (fun h => set_segment_size h segment_size log2)) ;;
  let page_size := if can_execute_large_page_memory
                   then page_size_for_region committed_size_ reserved_size_ 8
                   else vm_page_size in
  let granularity := vm_allocation_granularity in
  let r_align := MAX2 page_size granularity in
  let r_size := u64 (align_size_up reserved_size_ r_align) in
  let c_size := u64 (align_size_up committed_size_ page_size) in
  let rs_align := if page_size =? vm_page_size then 0 else MAX2 page_size granularity in
  rs ← on_os (ReservedSpace_aligned r_size rs_align (rs_align >? 0) 0 0);
  h ← on_heap get;
  '(ok, memory) ← on_os (vs_initialize AlwaysPreTouch (_memory h) rs c_size);
  on_heap (modify (fun h => set_spaces h memory (_segmap h))) ;;
  if negb ok then mret false
  else
    on_heap (modify (fun h => set_segments h
      (number_of_segments h (committed_size memory)) (number_of_segments h (reserved_size memory)))) ;;
    h ← on_heap get;
    check (_number_of_committed_segments h <=? _number_of_reserved_segments h) ;;
    sr ← align_to_page_size (_number_of_reserved_segments h);
    sc ← align_to_page_size (_number_of_committed_segments h);
    rs ← on_os (ReservedSpace_size sr);
    '(ok, segmap) ← on_os (vs_initialize AlwaysPreTouch (_segmap h) rs sc);
    on_heap (modify (fun h => set_spaces h (_memory h) segmap)) ;;
    if negb ok then mret false
    else
      check (_number_of_committed_segments h <=? committed_size segmap) ;;
      check (_number_of_reserved_segments h <=? reserved_size segmap) ;;
      check (committed_size segmap <=? reserved_size segmap) ;;
      on_heap clear ;;
      mret true.

Definition expand_by (size : Z) : os_m (CodeHeap * W) bool :=
  h ← on_heap get;
  let committed := committed_size (_memory h) in
  a ← align_to_page_size (u64 (committed + size));
  let dm := u64 (a - committed) in
  if dm >? 0 then
    '(ok, memory) ← on_os (VirtualSpace.expand_by AlwaysPreTouch (_memory h) dm false);
    on_heap (modify (fun h => set_spaces h memory (_segmap h))) ;;
    if negb ok then mret false
    else
      let i := _number_of_committed_segments h in
      on_heap (modify (fun h => set_segments h
        (number_of_segments h (committed_size memory)) (_number_of_reserved_segments h))) ;;
      h ← on_heap get;
      check (_number_of_reserved_segments h =? number_of_segments h (reserved_size memory)) ;;
      check (_number_of_committed_segments h <=? _number_of_reserved_segments h) ;;
      a ← align_to_page_size (_number_of_committed_segments h);
      let ds := u64 (a - committed_size (_segmap h)) in
      '(ok, segmap) ← (if ds >? 0
                       then on_os (VirtualSpace.expand_by AlwaysPreTouch (_segmap h) ds false)
                       else mret (true, _segmap h));
      on_heap (modify (fun h => set_spaces h (_memory h) segmap)) ;;
      if negb ok then mret false
      else
        check (_number_of_committed_segments h <=? committed_size segmap) ;;
        on_heap (mark_segmap_as_free i (_number_of_committed_segments h)) ;;
        mret true
  else mret true.
End extents.

(** * The blocks of a heap *)

Record block := Block { b_start : Z; b_len : Z; b_used : bool }.

Definition b_end (b : block) : Z := b_start b + b_len b.

(** The blocks lie one after the other from segment [s] to segment [e]. *)
Fixpoint tiling (s : Z) (bs : list block) (e : Z) : Prop :=
  match bs with
  | [] => s = e
  | b :: bs => b_start b = s /\ 0 < b_len b /\ tiling (b_end b) bs e
  end.

Definition frees (bs : list block) : list block := filter (fun b => b_used b = false) bs.
Definition useds (bs : list block) : list block := filter (fun b => b_used b = true) bs.

Definition total (bs : list block) : Z := foldr (fun b n => b_len b + n) 0 bs.

(** No two free blocks follow each other. *)
Fixpoint coalesced (bs : list block) : Prop :=
  match bs with
  | b :: (b' :: _) as bs' => (b_used b = true \/ b_used b' = true) /\ coalesced bs'
  | _ => True
  end.

(** The byte of the segment map for the [k]th segment of a block. *)
Definition mark_code (k : Z) : Z := if k =? 0 then 0 else 1 + (k - 1) mod 254.

Lemma tiling_app s l r e :
  tiling s (l ++ r) e <-> exists m, tiling s l m /\ tiling m r e.
Proof.
  revert s. induction l as [|b l IH]; intros s; simpl.
  - split; [intros Ht; by exists s|by intros (m & -> & Ht)].
  - rewrite IH. split; [intros (? & ? & m & ? & ?)|intros (m & (? & ? & ?) & ?)]; eauto 10.
Qed.

Lemma tiling_le s bs e : tiling s bs e -> s <= e.
Proof.
  revert s. induction bs as [|b bs IH]; intros s; simpl; [lia|].
  intros (? & ? & Ht%IH). unfold b_end in *. lia.
Qed.

Lemma tiling_elem s bs e b :
  tiling s bs e -> b ∈ bs -> s <= b_start b /\ 0 < b_len b /\ b_end b <= e.
Proof.
  revert s. induction bs as [|c bs IH]; intros s; simpl; [by intros _ ?%not_elem_of_nil|].
  intros (Hs & Hn & Ht) [->|Hb]%elem_of_cons.
  - pose proof (tiling_le _ _ _ Ht). lia.
  - specialize (IH _ Ht Hb). unfold b_end in *. lia.
Qed.

(** Around a block: what is before and what is after it. *)
Lemma tiling_split s l b r e :
  tiling s (l ++ b :: r) e ->
  tiling s l (b_start b) /\ 0 < b_len b /\ tiling (b_end b) r e /\
  (forall c, c ∈ l -> b_end c <= b_start b) /\ (forall c, c ∈ r -> b_end b <= b_start c).
Proof.
  intros (m & Hl & Hs & Hn & Hr)%tiling_app. subst m. split_and!; try done.
  - intros c Hc. by apply (tiling_elem s l (b_start b) c Hl).
  - intros c Hc. by apply (tiling_elem (b_end b) r e c Hr).
Qed.

Lemma tiling_join s l b r e :
  tiling s l (b_start b) -> 0 < b_len b -> tiling (b_end b) r e -> tiling s (l ++ b :: r) e.
Proof. intros. apply tiling_app. exists (b_start b). done. Qed.

(** Two blocks of a tiling are the same or disjoint. *)
Lemma tiling_disjoint s bs e b c :
  tiling s bs e -> b ∈ bs -> c ∈ bs -> b = c \/ b_end b <= b_start c \/ b_end c <= b_start b.
Proof.
  intros Ht Hb Hc. apply list_elem_of_split in Hb as (l & r & ->).
  apply tiling_split in Ht as (_ & Hn & _ & Hl & Hr).
  apply elem_of_app in Hc as [Hc|[->|Hc]%elem_of_cons]; auto.
Qed.

(** The block of a segment. *)
Lemma tiling_find s bs e i :
  tiling s bs e -> s <= i < e -> exists b, b ∈ bs /\ b_start b <= i < b_end b.
Proof.
  revert s. induction bs as [|c bs IH]; intros s; simpl; [lia|].
  intros (Hs & Hn & Ht) Hi. destruct (decide (i < b_end c)).
  - exists c. split; [apply elem_of_cons; by left|lia].
  - destruct (IH _ Ht) as (b & Hb & ?); [lia|]. exists b. split; [by apply elem_of_cons; right|done].
Qed.

Lemma elem_of_middle {A : Type} (x : A) l b r : x ∈ l ++ b :: r <-> x ∈ l \/ x = b \/ x ∈ r.
Proof. by rewrite elem_of_app, elem_of_cons. Qed.

Lemma elem_of_snoc {A : Type} (x : A) l b : x ∈ l ++ [b] <-> x ∈ l \/ x = b.
Proof. by rewrite elem_of_app, list_elem_of_singleton. Qed.

Lemma frees_app l r : frees (l ++ r) = frees l ++ frees r.
Proof. apply filter_app. Qed.

Lemma frees_cons_free b r : b_used b = false -> frees (b :: r) = b :: frees r.
Proof. intros. by apply filter_cons_True. Qed.

Lemma frees_cons_used b r : b_used b = true -> frees (b :: r) = frees r.
Proof. intros Hb. apply filter_cons_False. by rewrite Hb. Qed.

Lemma elem_of_frees b bs : b ∈ frees bs <-> b_used b = false /\ b ∈ bs.
Proof. unfold frees. by rewrite list_elem_of_filter. Qed.

Lemma elem_of_useds b bs : b ∈ useds bs <-> b_used b = true /\ b ∈ bs.
Proof. unfold useds. by rewrite list_elem_of_filter. Qed.

Lemma total_app l r : total (l ++ r) = total l + total r.
Proof. induction l as [|b l IH]; simpl; lia. Qed.

Lemma total_tiling s bs e : tiling s bs e -> total bs = e - s.
Proof.
  revert s. induction bs as [|b bs IH]; intros s; simpl; [lia|].
  intros (? & ? & Ht%IH). unfold b_end in *. lia.
Qed.

Lemma total_frees s bs e : tiling s bs e -> 0 <= total (frees bs) <= e - s.
Proof.
  revert s. induction bs as [|b bs IH]; intros s Ht; simpl in Ht; [simpl; lia|].
  destruct Ht as (? & ? & Ht%IH). unfold b_end in *.
  destruct (b_used b) eqn:E; [rewrite frees_cons_used by done|rewrite frees_cons_free by done; simpl]; lia.
Qed.

(** The number of free blocks bounds the walks along the free list. *)
Lemma frees_length s bs e :
  tiling s bs e -> Z.of_nat (List.length (frees bs)) <= e - s.
Proof.
  revert s. induction bs as [|b bs IH]; intros s Ht; simpl in Ht; [simpl; lia|].
  destruct Ht as (? & ? & Ht%IH). unfold b_end in *.
  destruct (b_used b) eqn:E; [rewrite frees_cons_used by done|rewrite frees_cons_free by done; simpl]; lia.
Qed.

Lemma tiling_length s bs e : tiling s bs e -> Z.of_nat (List.length bs) <= e - s.
Proof.
  revert s. induction bs as [|b bs IH]; intros s Ht; simpl in Ht; [simpl; lia|].
  destruct Ht as (? & ? & Ht%IH). unfold b_end in *. simpl. lia.
Qed.

(** A split of the free list comes from a split of the blocks. *)
Lemma frees_split bs A b B :
  frees bs = A ++ b :: B -> exists l r, bs = l ++ b :: r /\ frees l = A /\ frees r = B.
Proof.
  revert A. induction bs as [|c bs IH]; intros A; [by destruct A|].
  destruct (b_used c) eqn:Hc.
  - rewrite frees_cons_used by done. intros (l & r & -> & <- & <-)%IH.
    exists (c :: l), r. by rewrite frees_cons_used.
  - rewrite frees_cons_free by done. destruct A as [|a A]; simpl; intros [= -> E].
    + exists [], bs. by rewrite E.
    + destruct (IH A E) as (l & r & -> & <- & <-). exists (a :: l), r. by rewrite frees_cons_free.
Qed.

Lemma useds_app l r : useds (l ++ r) = useds l ++ useds r.
Proof. apply filter_app. Qed.

Lemma useds_cons_used b r : b_used b = true -> useds (b :: r) = b :: useds r.
Proof. intros. by apply filter_cons_True. Qed.

Lemma useds_cons_free b r : b_used b = false -> useds (b :: r) = useds r.
Proof. intros Hb. apply filter_cons_False. by rewrite Hb. Qed.

Lemma useds_split bs A b B :
  useds bs = A ++ b :: B -> exists l r, bs = l ++ b :: r /\ useds l = A /\ useds r = B.
Proof.
  revert A. induction bs as [|c bs IH]; intros A; [by destruct A|].
  destruct (b_used c) eqn:Hc.
  - rewrite useds_cons_used by done. destruct A as [|a A]; simpl; intros [= -> E].
    + exists [], bs. by rewrite E.
    + destruct (IH A E) as (l & r & -> & <- & <-). exists (a :: l), r. by rewrite useds_cons_used.
  - rewrite useds_cons_free by done. intros (l & r & -> & <- & <-)%IH.
    exists (c :: l), r. by rewrite useds_cons_free.
Qed.

Lemma coalesced_app_inv l r : coalesced (l ++ r) -> coalesced l /\ coalesced r.
Proof.
  induction l as [|b l IH]; [done|]. destruct l as [|c l]; simpl.
  - destruct r; [done|]. by intros [_ ?].
  - intros [Hbc Hc]. destruct (IH Hc). done.
Qed.

Lemma coalesced_used l b r : b_used b = true -> coalesced l -> coalesced r -> coalesced (l ++ b :: r).
Proof.
  intros Hb. induction l as [|c l IH]; simpl.
  - intros _ Hr. destruct r; [done|]. auto.
  - destruct l as [|d l]; simpl; [intros _ Hr; split; [auto|]; destruct r; auto|].
    intros [? ?] Hr. split; [done|]. by apply IH.
Qed.

Lemma coalesced_all_used l r : frees l = [] -> coalesced r -> coalesced (l ++ r).
Proof.
  induction l as [|b l IH]; [done|]. destruct (b_used b) eqn:E.
  - rewrite frees_cons_used by done. intros Hl Hr. specialize (IH Hl Hr). simpl.
    destruct (l ++ r); auto.
  - by rewrite frees_cons_free.
Qed.

Lemma coalesced_replace l a a' r :
  coalesced (l ++ [a]) -> b_used a' = b_used a -> coalesced (a' :: r) -> coalesced (l ++ a' :: r).
Proof.
  intros Hl Hu Hr. induction l as [|b l IH]; [done|]. destruct l as [|c l].
  - destruct Hl as [Hl _]. split; [by rewrite Hu|exact Hr].
  - destruct Hl as [Hbc Hl]. split; [done|]. by apply IH.
Qed.

(** What merging to the right makes of a free block and its successors. *)
Definition merged (b : block) (r : list block) : list block :=
  match r with
  | c :: r' => if b_used c then b :: r else Block (b_start b) (b_len b + b_len c) false :: r'
  | [] => [b]
  end.

Lemma coalesced_merged b r : coalesced r -> coalesced (merged b r).
Proof.
  destruct r as [|c r]; [done|]. intros H. unfold merged. destruct (b_used c) eqn:Hc.
  - split; [by right|exact H].
  - destruct r as [|d r]; [done|]. destruct H as [[?|?] H]; [congruence|].
    split; [by right|exact H].
Qed.

Lemma merged_head b r : b_used b = false -> exists b' r', merged b r = b' :: r' /\ b_used b' = false.
Proof. intros. destruct r as [|c r]; simpl; [eauto|]. destruct (b_used c); eauto. Qed.

Lemma useds_merged b r : b_used b = false -> useds (merged b r) = useds r.
Proof.
  intros Hb. destruct r as [|c r]; simpl; [by apply useds_cons_free|].
  destruct (b_used c) eqn:Hc; [by apply useds_cons_free|].
  rewrite (useds_cons_free c) by done. by apply useds_cons_free.
Qed.

(** Blocks in increasing order from segment [s] on. *)
Fixpoint ordered (s : Z) (l : list block) : Prop :=
  match l with
  | [] => True
  | b :: l => s <= b_start b /\ 0 < b_len b /\ ordered (b_end b) l
  end.

Lemma ordered_weaken s s' l : s' <= s -> ordered s l -> ordered s' l.
Proof. destruct l as [|b l]; simpl; [done|]. intros ? (? & ? & ?). split_and!; [lia|done|done]. Qed.

Lemma tiling_ordered s bs e : tiling s bs e -> ordered s (frees bs).
Proof.
  revert s. induction bs as [|b bs IH]; intros s; [done|]. simpl. intros (Hs & Hn & Ht).
  destruct (b_used b) eqn:E.
  - rewrite frees_cons_used by done. apply (ordered_weaken (b_end b)); [unfold b_end; lia|auto].
  - rewrite frees_cons_free by done. simpl. split_and!; [lia|done|auto].
Qed.

Lemma mark_code_succ k :
  0 <= k -> (if mark_code k + 1 =? 255 then 1 else mark_code k + 1) = mark_code (k + 1).
Proof.
  intros Hk. unfold mark_code. destruct (Z.eqb_spec k 0) as [->|]; [done|].
  replace (k + 1 =? 0) with false by lia. replace (k + 1 - 1) with (k - 1 + 1) by lia.
  destruct (Z.eqb_spec (1 + (k - 1) mod 254 + 1) 255); int_lia.
Qed.

Lemma mark_code_range k : 0 <= k -> 0 <= mark_code k < 255 /\ mark_code k <= k /\ (0 < k -> 0 < mark_code k).
Proof. intros Hk. unfold mark_code. destruct (Z.eqb_spec k 0); [lia|]. int_lia. Qed.

(** Computes the fields of a heap. *)
Ltac heap_simpl :=
  cbn [_memory _segmap _number_of_committed_segments _number_of_reserved_segments _segment_size
       _log2_segment_size _next_segment _freelist _free_segments cells marks
       set_cells set_marks];
  unfold set_next_segment, set_freelist, set_free_segments, set_spaces, set_segments,
    set_segment_size;
  cbn [_memory _segmap _number_of_committed_segments _number_of_reserved_segments _segment_size
       _log2_segment_size _next_segment _freelist _free_segments cells marks].

(** * Heaps that represent a list of blocks

    The spaces, the numbers of segments and the segment size are fixed; [st] makes
    a heap of the fields that the operations change. *)

Section heap.
Set Default Proof Using "Type*".
Context (mem smap : VirtualSpace) (nc nr lg : Z).
Context (Hlg : 5 <= lg <= 30) (Hlow : 0 < low mem) (Hhigh : high mem = low mem + nc * 2 ^ lg)
        (Hmax : high mem <= 2 ^ 62) (Hnc : 0 <= nc) (Hsmap : low smap + nc <= high smap).

Abbreviation seg := (2 ^ lg).
Abbreviation st := (mkCodeHeap mem smap nc nr (2 ^ lg) lg).

Definition addr (s : Z) : Z := low mem + s * 2 ^ lg.

Definition header (m : gmap Z Z) (b : block) : Prop :=
  m !! (addr (b_start b) + 0) = Some (b_len b) /\
  m !! (addr (b_start b) + 8) = Some (if b_used b then 1 else 0).

Definition marked (k : gmap Z Z) (b : block) : Prop :=
  forall i, 0 <= i < b_len b -> k !! (low smap + (b_start b + i)) = Some (mark_code i).

(** The links from [p] through [l] to [q]. *)
Fixpoint chain (m : gmap Z Z) (p : Z) (l : list block) (q : Z) : Prop :=
  match l with
  | [] => p = q
  | b :: l => p = addr (b_start b) /\
              exists n, m !! (addr (b_start b) + 16) = Some n /\ chain m n l q
  end.

Record rep (bs : list block) (nx fl fs : Z) (m k : gmap Z Z) : Prop := {
  r_tiling : tiling 0 bs nx;
  r_next : nx <= nc;
  r_headers : forall b, b ∈ bs -> header m b;
  r_marks : forall b, b ∈ bs -> marked k b;
  r_blank : forall i, nx <= i < nc -> k !! (low smap + i) = Some 255;
  r_chain : chain m fl (frees bs) 0;
  r_total : fs = total (frees bs)
}.

(** The memory of the blocks in use is the same. *)
Definition kept (bs : list block) (m m' : gmap Z Z) : Prop :=
  forall b, b ∈ bs -> b_used b = true ->
  forall x, addr (b_start b) <= x < addr (b_end b) -> m' !! x = m !! x.

Lemma seg_bounds : 32 <= seg <= 2 ^ 30.
Proof.
  split; [change 32 with (2 ^ 5)|]; apply Z.pow_le_mono_r; lia.
Qed.

Lemma nc_bound : nc * seg <= 2 ^ 62 /\ nc <= 2 ^ 57.
Proof.
  pose proof seg_bounds. split; [lia|]. apply (Z.mul_le_mono_pos_r _ _ 32); [lia|].
  change (2 ^ 57 * 32) with (2 ^ 62). nia.
Qed.

Lemma addr_range s o : 0 <= s < nc -> 0 <= o <= 24 ->
  low mem <= addr s + o /\ addr s + o + 8 <= high mem.
Proof. intros Hs Ho. pose proof seg_bounds. unfold addr. rewrite Hhigh. nia. Qed.

Lemma addr_inj s o s' o' :
  0 <= o < 32 -> 0 <= o' < 32 -> addr s + o = addr s' + o' -> s = s' /\ o = o'.
Proof.
  intros Ho Ho' E. pose proof seg_bounds. unfold addr in E.
  assert (s = s') as -> by nia. lia.
Qed.

Lemma addr_lt s s' : addr s < addr s' <-> s < s'.
Proof. unfold addr. pose proof seg_bounds. nia. Qed.

Lemma addr_le s s' : addr s <= addr s' <-> s <= s'.
Proof. unfold addr. pose proof seg_bounds. nia. Qed.

Lemma addr_eq s s' : addr s = addr s' <-> s = s'.
Proof. unfold addr. pose proof seg_bounds. nia. Qed.

Lemma addr_pos s : 0 <= s -> 0 < addr s.
Proof. intros. unfold addr. pose proof seg_bounds. nia. Qed.

Lemma addr_add s n : addr (s + n) = addr s + n * seg.
Proof. unfold addr. lia. Qed.

Lemma addr_nonzero s : 0 <= s -> (addr s =? 0) = false.
Proof. intros Hs. pose proof (addr_pos s Hs). lia. Qed.

Lemma store_ne (m : gmap Z Z) s o s' o' v :
  0 <= o < 32 -> 0 <= o' < 32 -> s <> s' \/ o <> o' ->
  <[addr s + o := v]> m !! (addr s' + o') = m !! (addr s' + o').
Proof.
  intros Ho Ho' Hne. apply lookup_insert_ne. intros E.
  apply addr_inj in E as [? ?]; [|done|done]. lia.
Qed.

Lemma block_at_addr nx fl fs m k i : 0 <= i <= nc -> block_at (st nx fl fs m k) i = addr i.
Proof.
  intros Hi. pose proof seg_bounds. pose proof nc_bound. unfold block_at, addr. simpl.
  rewrite Z.shiftl_mul_pow2 by lia. rewrite wrapu_id; [done|]. unfold is_u. pow2_norm. nia.
Qed.

Lemma segment_for_addr nx fl fs m k s o :
  0 <= s <= nc -> 0 <= o < seg -> segment_for (st nx fl fs m k) (addr s + o) = s.
Proof.
  intros Hs Ho. pose proof seg_bounds. pose proof nc_bound. unfold segment_for, addr. simpl.
  rewrite Z.shiftr_div_pow2 by lia.
  replace (low mem + s * seg + o - low mem) with (o + s * seg) by lia.
  rewrite Z.div_add, Z.div_small, Z.add_0_l by lia. apply wrapu_id. unfold is_u. pow2_norm. lia.
Qed.

(** ** Accesses *)

Lemma wp_load nx fl fs m k s o v Q :
  0 <= s < nc -> 0 <= o <= 24 -> m !! (addr s + o) = Some v -> Q v (st nx fl fs m k) ->
  wp (load_cell (addr s + o)) Q (st nx fl fs m k).
Proof.
  intros Hs Ho E HQ. exists v, (st nx fl fs m k). split; [|done]. unfold load_cell. simpl.
  pose proof (addr_range s o Hs Ho). rewrite E.
  replace ((low mem <=? addr s + o) && (addr s + o + 8 <=? high mem)) with true by lia. done.
Qed.

Lemma wp_store nx fl fs m k s o v Q :
  0 <= s < nc -> 0 <= o <= 24 -> Q tt (st nx fl fs (<[addr s + o := v]> m) k) ->
  wp (store_cell (addr s + o) v) Q (st nx fl fs m k).
Proof.
  intros Hs Ho HQ. eexists tt, _. split; [|exact HQ]. unfold store_cell. simpl.
  pose proof (addr_range s o Hs Ho).
  replace ((low mem <=? addr s + o) && (addr s + o + 8 <=? high mem)) with true by lia. done.
Qed.

Lemma wp_get Q h : Q h h -> wp get Q h.
Proof. intros. by exists h, h. Qed.

Lemma wp_modify f Q h : Q tt (f h) -> wp (modify f) Q h.
Proof. intros. by eexists tt, _. Qed.

Lemma wp_length nx fl fs m k s v Q :
  0 <= s < nc -> m !! (addr s + 0) = Some v -> Q v (st nx fl fs m k) ->
  wp (length (addr s)) Q (st nx fl fs m k).
Proof.
  intros Hs E HQ. unfold length. rewrite <- (Z.add_0_r (addr s)).
  apply (wp_load _ _ _ _ _ _ _ v); [done|lia|done|done].
Qed.

Lemma wp_set_length nx fl fs m k s v Q :
  0 <= s < nc -> Q tt (st nx fl fs (<[addr s + 0 := v]> m) k) ->
  wp (set_length (addr s) v) Q (st nx fl fs m k).
Proof.
  intros Hs HQ. unfold set_length. rewrite <- (Z.add_0_r (addr s)). apply wp_store; [done|lia|done].
Qed.

Lemma wp_free nx fl fs m k s (u : bool) Q :
  0 <= s < nc -> m !! (addr s + 8) = Some (if u then 1 else 0) -> Q (negb u) (st nx fl fs m k) ->
  wp (free (addr s)) Q (st nx fl fs m k).
Proof.
  intros Hs E HQ. unfold free. apply wp_bind. eapply wp_load; [done|lia|exact E|].
  apply wp_ret. by destruct u.
Qed.

Lemma wp_link nx fl fs m k s v Q :
  0 <= s < nc -> m !! (addr s + 16) = Some v -> Q v (st nx fl fs m k) ->
  wp (link (addr s)) Q (st nx fl fs m k).
Proof. intros Hs E HQ. eapply wp_load; [done|lia|exact E|done]. Qed.

Lemma wp_following nx fl fs m k s n Q :
  0 <= s < nc -> 0 <= n -> s + n <= nc -> m !! (addr s + 0) = Some n ->
  Q (addr (s + n)) (st nx fl fs m k) -> wp (following_block (addr s)) Q (st nx fl fs m k).
Proof.
  intros Hs Hn Hsn E HQ. pose proof seg_bounds. pose proof nc_bound. unfold following_block.
  apply wp_bind, wp_get, wp_bind, (wp_length _ _ _ _ _ _ n); [done..|]. apply wp_ret.
  rewrite addr_add in HQ. simpl. rewrite wrapu_id by (unfold is_u; pow2_norm; nia).
  by rewrite (Z.mul_comm seg).
Qed.

(** ** The segment map *)

Lemma wp_store_mark nx fl fs m k i v Q :
  0 <= i < nc -> Q tt (st nx fl fs m (<[low smap + i := v]> k)) ->
  wp (store_mark (low smap + i) v) Q (st nx fl fs m k).
Proof.
  intros Hi HQ. eexists tt, _. split; [|exact HQ]. unfold store_mark, VirtualSpace.contains. simpl.
  replace ((low smap <=? low smap + i) && (low smap + i <? high smap)) with true by lia. done.
Qed.

Lemma wp_load_mark nx fl fs m k i v Q :
  0 <= i < nc -> k !! (low smap + i) = Some v -> Q v (st nx fl fs m k) ->
  wp (load_mark (low smap + i)) Q (st nx fl fs m k).
Proof.
  intros Hi E HQ. eexists v, _. split; [|exact HQ]. unfold load_mark, VirtualSpace.contains. simpl.
  replace ((low smap <=? low smap + i) && (low smap + i <? high smap)) with true by lia.
  by rewrite E.
Qed.

(** The map after marking the segments from [beg] to [end_] with [f]. *)
Definition marks_set (k k' : gmap Z Z) (beg end_ : Z) (f : Z -> Z) : Prop :=
  forall i, k' !! (low smap + i) =
    if decide (beg <= i < end_) then Some (f (i - beg)) else k !! (low smap + i).

Lemma mark_used_loop_ok fuel : forall nx fl fs m k beg end_ j,
  0 <= beg -> 0 <= j -> beg + j <= end_ <= nc -> (Z.to_nat (end_ - (beg + j)) < fuel)%nat ->
  wp (mark_used_loop fuel (low smap + (beg + j)) (low smap + end_) (mark_code j)) (fun _ h' =>
    exists k', h' = st nx fl fs m k' /\ forall i, k' !! (low smap + i) =
      if decide (beg + j <= i < end_) then Some (mark_code (i - beg)) else k !! (low smap + i))
    (st nx fl fs m k).
Proof.
  induction fuel as [|fuel IH]; intros nx fl fs m k beg end_ j Hb Hj He Hf; [lia|].
  cbn [mark_used_loop]. destruct (Z.ltb_spec (low smap + (beg + j)) (low smap + end_)).
  - apply wp_bind, wp_store_mark; [lia|]. cbv zeta.
    rewrite mark_code_succ, wrapu_id by (unfold is_u; pose proof (mark_code_range j Hj); pow2_norm; lia).
    replace (low smap + (beg + j) + 1) with (low smap + (beg + (j + 1))) by lia.
    eapply wp_mono; [apply IH; lia|]. intros [] h' (k' & -> & Hk'). exists k'. split; [done|].
    intros i. rewrite Hk'. destruct (decide (i = beg + j)) as [->|].
    + rewrite decide_False, decide_True, lookup_insert_eq by lia. do 2 f_equal. lia.
    + rewrite lookup_insert_ne by lia. repeat case_decide; (done || lia).
  - apply wp_ret. exists k. split; [done|]. intros i. by rewrite decide_False by lia.
Qed.

Lemma mark_used_ok nx fl fs m k beg end_ :
  0 <= beg < end_ -> end_ <= nc ->
  wp (mark_segmap_as_used beg end_) (fun _ h' =>
    exists k', h' = st nx fl fs m k' /\ marks_set k k' beg end_ mark_code) (st nx fl fs m k).
Proof.
  intros Hb He. unfold mark_segmap_as_used. apply wp_bind, wp_get, wp_bind, wp_check; [simpl; lia|].
  apply wp_bind, wp_check; [simpl; lia|]. cbn [_segmap].
  pose proof (mark_used_loop_ok (S (Z.to_nat (end_ - beg))) nx fl fs m k beg end_ 0) as Hl.
  rewrite Z.add_0_r in Hl. apply Hl; lia.
Qed.

Lemma mark_free_loop_ok fuel : forall nx fl fs m k beg end_,
  0 <= beg <= end_ -> end_ <= nc -> (Z.to_nat (end_ - beg) < fuel)%nat ->
  wp (mark_free_loop fuel (low smap + beg) (low smap + end_)) (fun _ h' =>
    exists k', h' = st nx fl fs m k' /\ marks_set k k' beg end_ (fun _ => 255)) (st nx fl fs m k).
Proof.
  induction fuel as [|fuel IH]; intros nx fl fs m k beg end_ Hb He Hf; [lia|].
  cbn [mark_free_loop]. destruct (Z.ltb_spec (low smap + beg) (low smap + end_)).
  - apply wp_bind, wp_store_mark; [lia|]. rewrite <- Z.add_assoc.
    eapply wp_mono; [apply IH; lia|]. intros [] h' (k' & -> & Hk'). exists k'. split; [done|].
    intros i. rewrite Hk'. destruct (decide (i = beg)) as [->|].
    + by rewrite decide_False, decide_True, lookup_insert_eq by lia.
    + rewrite lookup_insert_ne by lia. repeat case_decide; (done || lia).
  - apply wp_ret. exists k. split; [done|]. intros i. by rewrite decide_False by lia.
Qed.

Lemma mark_free_ok nx fl fs m k beg end_ :
  0 <= beg < end_ -> end_ <= nc ->
  wp (mark_segmap_as_free beg end_) (fun _ h' =>
    exists k', h' = st nx fl fs m k' /\ marks_set k k' beg end_ (fun _ => 255)) (st nx fl fs m k).
Proof.
  intros Hb He. unfold mark_segmap_as_free. apply wp_bind, wp_get, wp_bind, wp_check; [simpl; lia|].
  apply wp_bind, wp_check; [simpl; lia|]. cbn [_segmap].
  apply mark_free_loop_ok; lia.
Qed.

(** ** The free list *)

Lemma chain_app m p l r q :
  chain m p (l ++ r) q <-> exists n, chain m p l n /\ chain m n r q.
Proof.
  revert p. induction l as [|b l IH]; intros p; simpl.
  - split; [intros Hc; by exists p|by intros (n & -> & Hc)].
  - split.
    + intros (-> & n & E & (n' & H1 & H2)%IH). exists n'. eauto.
    + intros (n' & (-> & n & E & H1) & H2). split; [done|]. exists n. rewrite IH. eauto.
Qed.

(** Writes that are not to links of the list do not matter. *)
Lemma chain_frame m m' p l q :
  (forall b, b ∈ l -> m' !! (addr (b_start b) + 16) = m !! (addr (b_start b) + 16)) ->
  chain m p l q -> chain m' p l q.
Proof.
  revert p. induction l as [|b l IH]; intros p Hm; simpl; [done|].
  intros (-> & n & E & Hc). split; [done|]. exists n. split.
  - rewrite Hm; [done|]. apply elem_of_cons. by left.
  - apply IH; [|done]. intros c Hin. apply Hm. apply elem_of_cons. by right.
Qed.

Lemma chain_other m p l q s o v :
  0 <= o < 32 -> (o = 16 -> forall b, b ∈ l -> b_start b <> s) ->
  chain m p l q -> chain (<[addr s + o := v]> m) p l q.
Proof.
  intros Ho Hs. apply chain_frame. intros b Hb. apply store_ne; [done|lia|].
  destruct (decide (o = 16)) as [->|]; [|by right]. left. specialize (Hs eq_refl b Hb). done.
Qed.

(** The list depends on the addresses of its blocks only. *)
Lemma chain_starts m p l l' q :
  b_start <$> l = b_start <$> l' -> chain m p l q -> chain m p l' q.
Proof.
  revert p l'. induction l as [|b l IH]; intros p l' E; destruct l' as [|b' l']; try done.
  simpl in E. injection E as Eb El. simpl. rewrite Eb. intros (-> & n & En & Hc).
  split; [done|]. exists n. split; [done|]. by apply IH.
Qed.

(** The first address of a list that ends in NULL. *)
Definition head_addr (l : list block) : Z :=
  match l with [] => 0 | b :: _ => addr (b_start b) end.

Definition last_addr (l : list block) : Z :=
  match last l with None => 0 | Some b => addr (b_start b) end.

Lemma chain_head m p l : chain m p l 0 -> p = head_addr l.
Proof. destruct l as [|b l]; simpl; [done|]. by intros [-> _]. Qed.

Lemma header_store m b s o v :
  0 <= o < 32 -> b_start b <> s \/ o = 16 -> header m b -> header (<[addr s + o := v]> m) b.
Proof.
  intros Ho Hs [H1 H2]. split; rewrite store_ne; try (done || lia).
Qed.

Lemma marked_set k k' b beg end_ f :
  marks_set k k' beg end_ f -> b_end b <= beg \/ end_ <= b_start b -> marked k b -> marked k' b.
Proof.
  intros Hs Hb Hk i Hi. unfold b_end in Hb. rewrite Hs, decide_False by lia. by apply Hk.
Qed.

Lemma kept_refl bs m : kept bs m m.
Proof. done. Qed.

Lemma kept_trans bs m1 m2 m3 : kept bs m1 m2 -> kept bs m2 m3 -> kept bs m1 m3.
Proof. intros H12 H23 b Hb Hu x Hx. rewrite (H23 b), (H12 b); done. Qed.

Lemma kept_incl bs bs' m m' :
  (forall b, b ∈ bs' -> b_used b = true -> b ∈ bs) -> kept bs m m' -> kept bs' m m'.
Proof. intros Hi Hk b Hb Hu. apply Hk; auto. Qed.

(** A write into a block leaves the other blocks alone. *)
Lemma kept_store bs nx m s n o v :
  tiling 0 bs nx -> Block s n false ∈ bs -> 0 <= o < 32 -> kept bs m (<[addr s + o := v]> m).
Proof.
  intros Ht Hb Ho c Hc Hu x Hx. apply lookup_insert_ne.
  destruct (tiling_elem _ _ _ _ Ht Hb) as (_ & Hn & _).
  destruct (tiling_disjoint _ _ _ _ _ Ht Hb Hc) as [<-|Hd]; [done|].
  pose proof seg_bounds. unfold b_end, addr in *. simpl in *. nia.
Qed.

Lemma rep_range bs nx fl fs m k b :
  rep bs nx fl fs m k -> b ∈ bs ->
  0 <= b_start b < nc /\ 0 < b_len b /\ b_start b + b_len b <= nx /\ nx <= nc.
Proof.
  intros [Ht Hn _ _ _ _ _] Hb. destruct (tiling_elem _ _ _ _ Ht Hb). unfold b_end in *. lia.
Qed.

(** The parts of the free list around a free block. *)
Lemma rep_links l b r nx fl fs m k :
  rep (l ++ b :: r) nx fl fs m k -> b_used b = false ->
  chain m fl (frees l) (addr (b_start b)) /\
  m !! (addr (b_start b) + 16) = Some (head_addr (frees r)) /\
  chain m (head_addr (frees r)) (frees r) 0.
Proof.
  intros [_ _ _ _ _ Hc _] Hu. rewrite frees_app, frees_cons_free in Hc by done.
  apply chain_app in Hc as (p & Hl & -> & q & E & Hr). by rewrite <- (chain_head m q (frees r)).
Qed.

(** The next block is free exactly when the link leads to it. *)
Lemma head_following s n l b r nx :
  tiling 0 (l ++ b :: r) nx -> b = Block s n false ->
  (addr (s + n) =? head_addr (frees r)) =
  match r with c :: _ => negb (b_used c) | [] => false end.
Proof.
  intros Ht ->. destruct (tiling_split _ _ _ _ _ Ht) as (Hl & Hn & Hr & _ & _).
  apply tiling_le in Hl. unfold b_end in Hr. simpl in *.
  destruct r as [|c r]; simpl.
  - apply addr_nonzero. lia.
  - destruct Hr as (Hs & Hcn & Ht'). destruct (b_used c) eqn:Hc.
    + rewrite frees_cons_used by done. destruct (frees r) as [|d fr] eqn:E; simpl.
      * apply addr_nonzero. lia.
      * assert (d ∈ r) as Hd by (apply (elem_of_frees d r); rewrite E; apply elem_of_cons; by left).
        apply (tiling_elem _ _ _ _ Ht') in Hd. unfold b_end in Hd.
        apply Z.eqb_neq. rewrite addr_eq. lia.
    + rewrite frees_cons_free by done. simpl. rewrite Hs. apply Z.eqb_refl.
Qed.

Lemma rep_merge l s n c r nx fl fs m k k' :
  rep (l ++ Block s n false :: c :: r) nx fl fs m k -> b_used c = false ->
  marks_set k k' s (s + (n + b_len c)) mark_code ->
  let m' := <[addr s + 16 := head_addr (frees r)]> (<[addr s + 0 := n + b_len c]> m) in
  rep (l ++ Block s (n + b_len c) false :: r) nx fl fs m' k' /\
  kept (l ++ Block s n false :: c :: r) m m'.
Proof.
  intros Hrep Hc Hk' m'. set (b := Block s n false) in *.
  destruct (rep_links _ _ _ _ _ _ _ _ Hrep eq_refl) as (Hcl & Hlink & Hcr).
  assert (rep ((l ++ [b]) ++ c :: r) nx fl fs m k) as Hrep2 by by rewrite <- app_assoc.
  destruct (rep_links _ _ _ _ _ _ _ _ Hrep2 Hc) as (_ & _ & Hcr').
  destruct Hrep as [Ht Hn Hh Hm Hb _ Hf]. clear Hrep2.
  destruct (tiling_split _ _ _ _ _ Ht) as (Htl & Hbn & Htr & Hl & Hr).
  destruct Htr as (Hcs & Hcn & Htr). unfold b_end in Hcs, Hr. simpl in Hcs, Hr, Hbn, Hl.
  assert (forall d, d ∈ r -> s + (n + b_len c) <= b_start d) as Hr'.
  { intros d Hd. apply (tiling_elem _ _ _ _ Htr) in Hd. unfold b_end in Hd. lia. }
  assert (forall d, d ∈ l \/ d ∈ r -> b_start d <> s) as Hne.
  { intros d [Hd|Hd]; [|specialize (Hr' d Hd); lia]. specialize (Hl d Hd).
    apply (tiling_elem _ _ _ _ Htl) in Hd. unfold b_end in *. lia. }
  assert (forall d, d ∈ l \/ d ∈ r -> d ∈ l ++ b :: c :: r) as Hin.
  { intros d. rewrite elem_of_middle, elem_of_cons. tauto. }
  assert (b ∈ l ++ b :: c :: r) as Hbin by (rewrite elem_of_middle; auto).
  split.
  - split; [| |intros d Hd|intros d Hd| | |].
    + apply tiling_join; simpl; [done|lia|]. unfold b_end. simpl.
      replace (s + (n + b_len c)) with (b_end c) by (unfold b_end; lia). done.
    + done.
    + apply elem_of_middle in Hd as [Hd'|[->|Hd']].
      * apply header_store; [lia|by right|]. apply header_store; [lia|left; auto|]. auto.
      * split; simpl; subst m'; [by rewrite store_ne, lookup_insert_eq by lia|].
        rewrite !store_ne by lia. by apply (Hh b).
      * apply header_store; [lia|by right|]. apply header_store; [lia|left; auto|]. auto.
    + apply elem_of_middle in Hd as [Hd'|[->|Hd']].
      * eapply marked_set; [done|left; by apply Hl|auto].
      * intros i Hi. simpl in *. rewrite Hk', decide_True by lia. do 2 f_equal. lia.
      * eapply marked_set; [done|right; by apply Hr'|auto].
    + intros i Hi. apply tiling_le in Htr. unfold b_end in Htr.
      rewrite Hk', decide_False by lia. by apply Hb.
    + rewrite frees_app, frees_cons_free by done. apply chain_app. exists (addr s).
      assert (forall p l' q, (forall d, d ∈ l' -> d ∈ l \/ d ∈ r) -> chain m p l' q -> chain m' p l' q) as Hfr.
      { intros p l' q Hin' Hch. apply chain_other; [lia| |apply chain_other; [lia|lia|done]].
        intros _ d Hd. apply Hne, Hin', Hd. }
      split; [apply Hfr; [intros d ?%elem_of_frees; tauto|done]|]. split; [done|].
      exists (head_addr (frees r)). simpl. split; [apply lookup_insert_eq|].
      apply Hfr; [intros d ?%elem_of_frees; tauto|done].
    + rewrite Hf, !frees_app, !frees_cons_free, !total_app by done. simpl. lia.
  - eapply kept_trans; eapply (kept_store _ nx _ s n); (done || lia).
Qed.

Lemma merge_right_ok l s n r nx fl fs m k :
  rep (l ++ Block s n false :: r) nx fl fs m k ->
  wp (merge_right (addr s)) (fun _ h' => exists m' k', h' = st nx fl fs m' k' /\
    rep (l ++ merged (Block s n false) r) nx fl fs m' k' /\
    kept (l ++ Block s n false :: r) m m') (st nx fl fs m k).
Proof.
  intros Hrep. set (b := Block s n false) in *.
  assert (b ∈ l ++ b :: r) as Hin by (rewrite elem_of_middle; auto).
  destruct (rep_range _ _ _ _ _ _ _ Hrep Hin) as (Hs & Hn & Hsn & Hnx). simpl in Hs, Hn, Hsn.
  destruct (r_headers _ _ _ _ _ _ Hrep b Hin) as [Hlen Hused]. simpl in Hlen, Hused.
  destruct (rep_links _ _ _ _ _ _ _ _ Hrep eq_refl) as (_ & Hlink & _). simpl in Hlink.
  unfold merge_right. apply wp_bind, (wp_free _ _ _ _ _ _ false); [done..|].
  apply wp_bind, wp_check; [done|].
  apply wp_bind, (wp_following _ _ _ _ _ _ n); [done|lia|lia|done|].
  apply wp_bind, (wp_link _ _ _ _ _ _ _ _ Hs Hlink).
  rewrite (head_following s n l b r nx (r_tiling _ _ _ _ _ _ Hrep) eq_refl).
  destruct r as [|c r]; [|destruct (b_used c) eqn:Hc]; simpl negb; cbn iota.
  { apply wp_ret. exists m, k. done. }
  { apply wp_ret. exists m, k. split; [done|]. simpl. rewrite Hc. done. }
  assert (c ∈ l ++ b :: c :: r) as Hcin by (rewrite elem_of_middle, elem_of_cons; auto).
  destruct (rep_range _ _ _ _ _ _ _ Hrep Hcin) as (Hcs & Hcn & Hcsn & _).
  destruct (r_headers _ _ _ _ _ _ Hrep c Hcin) as [Hclen Hcused]. rewrite Hc in Hcused.
  assert (rep ((l ++ [b]) ++ c :: r) nx fl fs m k) as Hrep2 by by rewrite <- app_assoc.
  destruct (rep_links _ _ _ _ _ _ _ _ Hrep2 Hc) as (_ & Hclink & _). clear Hrep2.
  destruct (tiling_split _ _ _ _ _ (r_tiling _ _ _ _ _ _ Hrep)) as (_ & _ & (Hstart & _) & _ & _).
  unfold b_end in Hstart. simpl in Hstart. rewrite frees_cons_free by done. simpl head_addr.
  rewrite addr_nonzero by lia. pose proof nc_bound.
  apply wp_bind, (wp_free _ _ _ _ _ _ false); [done..|]. apply wp_bind, wp_check; [done|].
  apply wp_bind, (wp_length _ _ _ _ _ _ n); [done..|].
  apply wp_bind, (wp_length _ _ _ _ _ _ (b_len c)); [done..|].
  rewrite wrapu_id by (unfold is_u; pow2_norm; lia). apply wp_bind, wp_set_length; [done|].
  apply wp_bind, (wp_link _ _ _ _ _ _ (head_addr (frees r))); [done|by rewrite store_ne by lia|].
  apply wp_bind, wp_store; [done|lia|]. apply wp_bind, wp_get. cbv zeta.
  rewrite <- (Z.add_0_r (addr s)), segment_for_addr, (Z.add_0_r (addr s)) by (pose proof seg_bounds; lia).
  apply wp_bind, (wp_length _ _ _ _ _ _ (n + b_len c)); [done|by rewrite store_ne, lookup_insert_eq by lia|].
  eapply wp_mono; [apply mark_used_ok; lia|]. intros [] h' (k' & -> & Hk').
  destruct (rep_merge l s n c r nx fl fs m k k' Hrep Hc Hk') as [Hrep' Hkept].
  eexists _, k'. split; [reflexivity|]. simpl. by rewrite Hc.
Qed.

(** ** Freeing *)

Definition last_or (p : Z) (l : list block) : Z :=
  match last l with None => p | Some b => addr (b_start b) end.

Lemma last_or_cons p a l : last_or p (a :: l) = last_or (addr (b_start a)) l.
Proof. unfold last_or. rewrite last_cons. by destruct (last l). Qed.

Lemma scan_loop_ok nx fl fs m k t B fuel : forall A prev p s,
  ordered s (A ++ B) -> 0 <= s -> prev = 0 \/ (exists a, prev = addr a /\ a < s) ->
  (forall b, b ∈ A -> b_start b < t /\ b_start b < nc) ->
  (forall b, b ∈ B -> t < b_start b) -> (List.length A < fuel)%nat ->
  chain m p (A ++ B) 0 ->
  wp (scan_loop fuel (addr t) prev p) (fun r h' =>
    h' = st nx fl fs m k /\ r = (last_or prev A, head_addr B)) (st nx fl fs m k).
Proof.
  induction fuel as [|fuel IH]; intros A prev p s Ho Hs Hprev HA HB Hf Hc; [lia|].
  cbn [scan_loop]. destruct A as [|a A].
  - rewrite (chain_head m p B Hc). replace (negb _ && _) with false; [by apply wp_ret|].
    destruct B as [|b B]; [done|]. simpl.
    assert (t < b_start b) by (apply HB, elem_of_cons; by left).
    assert (~ addr (b_start b) < addr t) by (rewrite addr_lt; lia). lia.
  - destruct Ho as (Has & Han & Ho). destruct Hc as (-> & n & En & Hc).
    destruct (HA a) as [Hat Hanc]; [apply elem_of_cons; by left|].
    rewrite addr_nonzero by lia. assert (addr (b_start a) < addr t) by (by apply addr_lt).
    replace (negb false && (addr (b_start a) <? addr t)) with true by lia.
    apply wp_bind, wp_check.
    { destruct Hprev as [->|(a' & -> & ?)]; [done|].
      assert (addr a' < addr (b_start a)) by (apply addr_lt; lia). lia. }
    apply wp_bind, (wp_link _ _ _ _ _ _ n); [lia|done|].
    rewrite last_or_cons. eapply IH; [done| |right| | | |done].
    + unfold b_end. lia.
    + exists (b_start a). split; [done|]. unfold b_end. lia.
    + intros b Hb. apply HA. apply elem_of_cons. by right.
    + done.
    + simpl in Hf. lia.
Qed.

(** The heap after a block is linked in front of the list. *)
Lemma rep_push l s n r nx fl fs m k :
  rep (l ++ Block s n true :: r) nx fl fs m k -> frees l = [] ->
  rep (l ++ Block s n false :: r) nx (addr s) (fs + n)
    (<[addr s + 16 := fl]> (<[addr s + 8 := 0]> m)) k.
Proof.
  intros [Ht Hn Hh Hm Hb Hc Hf] Hfl.
  destruct (tiling_split _ _ _ _ _ Ht) as (Htl & Hsn & Htr & Hl & Hr).
  unfold b_end in Htr, Hr. simpl in *.
  assert (forall d, d ∈ l \/ d ∈ r -> b_start d <> s) as Hne.
  { intros d [Hd|Hd]; [|specialize (Hr d Hd); lia]. specialize (Hl d Hd).
    apply (tiling_elem _ _ _ _ Htl) in Hd. unfold b_end in *. lia. }
  split; [by apply tiling_join|done|intros d Hd|intros d Hd|done| |].
  - apply elem_of_middle in Hd as [Hd|[->|Hd]].
    + apply header_store; [lia|by right|]. apply header_store; [lia|left; auto|].
      apply Hh, elem_of_middle. auto.
    + split; simpl; rewrite !store_ne by lia; [|by rewrite lookup_insert_eq].
      apply (Hh (Block s n true)), elem_of_middle. auto.
    + apply header_store; [lia|by right|]. apply header_store; [lia|left; auto|].
      apply Hh, elem_of_middle. auto.
  - apply elem_of_middle in Hd as [Hd|[->|Hd]]; [apply Hm, elem_of_middle; auto| |].
    + apply (Hm (Block s n true)), elem_of_middle. auto.
    + apply Hm, elem_of_middle. auto.
  - rewrite frees_app, Hfl, frees_cons_free by done.
    rewrite frees_app, Hfl, frees_cons_used in Hc by done. simpl in *. split; [done|].
    exists fl. split; [apply lookup_insert_eq|].
    apply chain_other; [lia| |apply chain_other; [lia|lia|done]].
    intros _ d Hd%elem_of_frees. apply Hne. tauto.
  - rewrite Hf, !frees_app, (frees_cons_free (Block s n false)), (frees_cons_used (Block s n true)),
      !total_app by done.
    simpl. lia.
Qed.

(** The heap after a block is linked behind the free block [a]. *)
Lemma rep_insert l1 a l2 s n r nx fl fs m k :
  let bs := (l1 ++ a :: l2) ++ Block s n true :: r in
  rep bs nx fl fs m k -> b_used a = false -> frees l2 = [] ->
  rep ((l1 ++ a :: l2) ++ Block s n false :: r) nx fl (fs + n)
    (<[addr (b_start a) + 16 := addr s]> (<[addr s + 16 := head_addr (frees r)]>
      (<[addr s + 8 := 0]> m))) k.
Proof.
  intros bs Hrep Ha Hl2. assert (frees bs = frees l1 ++ a :: frees r) as Hfr.
  { subst bs. rewrite !frees_app, (frees_cons_free a), Hl2, frees_cons_used by done.
    by rewrite <- app_assoc. }
  destruct Hrep as [Ht Hn Hh Hm Hb Hc Hf]. rewrite Hfr in *.
  destruct (tiling_split _ _ _ _ _ Ht) as (Htl & Hsn & Htr & Hl & Hr).
  unfold b_end in Htr, Hr. simpl in Htl, Hsn, Htr, Hl, Hr.
  assert (forall d, d ∈ l1 ++ a :: l2 \/ d ∈ r -> b_start d <> s) as Hne.
  { intros d [Hd|Hd]; [|specialize (Hr d Hd); lia]. specialize (Hl d Hd).
    apply (tiling_elem _ _ _ _ Htl) in Hd. unfold b_end in *. lia. }
  assert (a ∈ l1 ++ a :: l2) as Hain by (apply elem_of_middle; auto).
  assert (forall d, d ∈ l1 \/ d ∈ r -> b_start d <> b_start a) as Hnea.
  { destruct (tiling_split _ _ _ _ _ Htl) as (Htl1 & Han & Htl2 & Hl1 & _).
    intros d [Hd|Hd].
    - specialize (Hl1 d Hd). apply (tiling_elem _ _ _ _ Htl1) in Hd. unfold b_end in *. lia.
    - specialize (Hr d Hd). specialize (Hl a Hain). unfold b_end in *. lia. }
  split; [by apply tiling_join|done|intros d Hd|intros d Hd|done| |].
  - apply header_store; [lia|by right|]. apply header_store; [lia|by right|].
    apply elem_of_middle in Hd as [Hd|[->|Hd]].
    + apply header_store; [lia|left; auto|]. apply Hh, elem_of_middle. auto.
    + split; simpl; [rewrite store_ne by lia|by rewrite lookup_insert_eq].
      apply (Hh (Block s n true)), elem_of_middle. auto.
    + apply header_store; [lia|left; auto|]. apply Hh, elem_of_middle. auto.
  - apply elem_of_middle in Hd as [Hd|[->|Hd]]; [apply Hm, elem_of_middle; auto| |].
    + apply (Hm (Block s n true)), elem_of_middle. auto.
    + apply Hm, elem_of_middle. auto.
  - rewrite !frees_app, (frees_cons_free a), Hl2, frees_cons_free, <- app_assoc by done.
    apply chain_app in Hc as (p & Hc1 & -> & q & _ & Hc2). apply chain_head in Hc2 as Hq. subst q.
    apply chain_app. exists (addr (b_start a)).
    assert (forall p l' q, (forall d, d ∈ l' -> d ∈ l1 \/ d ∈ r) -> chain m p l' q ->
      chain (<[addr (b_start a) + 16 := addr s]> (<[addr s + 16 := head_addr (frees r)]>
        (<[addr s + 8 := 0]> m))) p l' q) as Hfrm.
    { intros p l' q Hin Hch. apply chain_other; [lia|intros _ d Hd; auto|].
      apply chain_other; [lia| |apply chain_other; [lia|lia|done]].
      intros _ d Hd. apply Hne. rewrite elem_of_middle. specialize (Hin d Hd). tauto. }
    split; [apply Hfrm; [intros d ?%elem_of_frees; tauto|done]|].
    split; [done|]. exists (addr s). split; [apply lookup_insert_eq|]. split; [done|].
    exists (head_addr (frees r)). split.
    + rewrite store_ne by (try lia; left; by apply Hne; left). apply lookup_insert_eq.
    + apply Hfrm; [intros d ?%elem_of_frees; tauto|done].
  - rewrite Hf, !frees_app, (frees_cons_free a), Hl2, frees_cons_free, !total_app by done.
    simpl. lia.
Qed.

Lemma kept_useds bs bs' m m' : useds bs' = useds bs -> kept bs m m' -> kept bs' m m'.
Proof.
  intros E. apply kept_incl. intros b Hb Hu. apply (elem_of_useds b bs). rewrite <- E.
  by apply elem_of_useds.
Qed.

(** The result of putting the block at [s] of [l ++ Block s n true :: r] on the list. *)
Definition freed (l : list block) (s n : Z) (r : list block) (nx fs : Z) (m : gmap Z Z)
    (h' : CodeHeap) : Prop :=
  exists bs' fl' m' k', h' = st nx fl' (fs + n) m' k' /\ rep bs' nx fl' (fs + n) m' k' /\
    coalesced bs' /\ useds bs' = useds l ++ useds r /\
    kept (l ++ Block s n false :: r) m m'.

(** Putting it in front of the list. *)
Lemma push_ok l s n r nx fl fs m k :
  rep (l ++ Block s n true :: r) nx fl fs m k -> coalesced (l ++ Block s n true :: r) ->
  frees l = [] ->
  wp (merge_right (addr s)) (fun _ => freed l s n r nx fs m)
    (st nx (addr s) (fs + n) (<[addr s + 16 := fl]> (<[addr s + 8 := 0]> m)) k).
Proof.
  intros Hrep Hco Hl. pose proof (rep_push _ _ _ _ _ _ _ _ _ Hrep Hl) as Hrep'.
  pose proof (r_tiling _ _ _ _ _ _ Hrep') as Ht.
  assert (Block s n false ∈ l ++ Block s n false :: r) as Hin by (rewrite elem_of_middle; auto).
  eapply wp_mono; [by apply merge_right_ok|]. intros [] h' (m' & k' & -> & Hrep'' & Hk).
  eexists _, _, m', k'. split; [done|]. split; [done|]. split_and!.
  - apply coalesced_all_used; [done|]. apply coalesced_merged.
    apply coalesced_app_inv in Hco as [_ Hco]. by apply (coalesced_app_inv [_]) in Hco as [_ Hr].
  - by rewrite useds_app, useds_merged.
  - eapply kept_trans; [|exact Hk].
    eapply kept_trans; eapply (kept_store _ nx _ s n); (done || lia).
Qed.

(** Putting it behind the free block [a]. *)
Lemma insert_ok l1 a l2 s n r nx fl fs m k :
  let l := l1 ++ a :: l2 in
  rep (l ++ Block s n true :: r) nx fl fs m k -> coalesced (l ++ Block s n true :: r) ->
  b_used a = false -> frees l2 = [] ->
  wp (insert_after (addr (b_start a)) (addr s)) (fun _ => freed l s n r nx fs m)
    (st nx fl (fs + n) (<[addr s + 8 := 0]> m) k).
Proof.
  intros l Hrep Hco Ha Hl2. pose proof (rep_insert _ _ _ _ _ _ _ _ _ _ _ Hrep Ha Hl2) as Hrep'.
  pose proof (r_tiling _ _ _ _ _ _ Hrep') as Ht. set (b := Block s n false) in *.
  assert (b ∈ l ++ b :: r) as Hbin by (rewrite elem_of_middle; auto).
  assert (a ∈ l ++ b :: r) as Hain by (subst l; rewrite !elem_of_middle; auto).
  destruct (rep_range _ _ _ _ _ _ _ Hrep' Hbin) as (Hs & _). simpl in Hs.
  destruct (rep_range _ _ _ _ _ _ _ Hrep' Hain) as (Has & _).
  assert (b_start a <> s) as Hne.
  { destruct (tiling_split _ _ _ _ _ Ht) as (Htl & _ & _ & Hl & _).
    assert (a ∈ l) as Hal by (subst l; rewrite elem_of_middle; auto).
    specialize (Hl a Hal). apply (tiling_elem _ _ _ _ Htl) in Hal. unfold b_end in *. simpl in *. lia. }
  assert (m !! (addr (b_start a) + 16) = Some (head_addr (frees r))) as Hlink.
  { assert (rep (l1 ++ a :: (l2 ++ Block s n true :: r)) nx fl fs m k) as Hrep2.
    { subst l. by rewrite <- app_assoc in Hrep. }
    destruct (rep_links _ _ _ _ _ _ _ _ Hrep2 Ha) as (_ & Hlk & _).
    by rewrite frees_app, Hl2, frees_cons_used in Hlk. }
  unfold insert_after. rewrite !addr_nonzero by lia. apply wp_bind, wp_check; [done|].
  apply wp_bind, (wp_link _ _ _ _ _ _ (head_addr (frees r))); [done|by rewrite store_ne by lia|].
  apply wp_bind, wp_store; [done|lia|]. apply wp_bind, wp_store; [done|lia|].
  apply wp_bind. eapply wp_mono; [by apply merge_right_ok|].
  intros [] h' (m2 & k2 & -> & Hrep2 & Hk2).
  assert (rep (l1 ++ Block (b_start a) (b_len a) false :: (l2 ++ merged b r)) nx fl (fs + n) m2 k2) as Hrep3.
  { replace (Block (b_start a) (b_len a) false) with a by (destruct a; simpl in *; by subst).
    by rewrite <- app_assoc in Hrep2. }
  eapply wp_mono; [by apply merge_right_ok|]. intros [] h' (m3 & k3 & -> & Hrep4 & Hk3).
  replace (Block (b_start a) (b_len a) false) with a in Hrep4, Hk3 by (destruct a; simpl in *; by subst).
  eexists _, _, m3, k3. split; [done|]. split; [done|]. split_and!.
  - destruct (merged_head a (l2 ++ merged b r) Ha) as (a' & y & E & Ha'). rewrite E.
    subst l. rewrite <- app_assoc in Hco. simpl in Hco.
    apply (coalesced_replace _ a); [|congruence|].
    + change (a :: l2 ++ Block s n true :: r) with ([a] ++ l2 ++ Block s n true :: r) in Hco.
      rewrite app_assoc in Hco. by apply coalesced_app_inv in Hco as [? _].
    + rewrite <- E. apply coalesced_merged, coalesced_all_used; [done|]. apply coalesced_merged.
      apply coalesced_app_inv in Hco as [_ Hco]. apply (coalesced_app_inv (a :: l2)) in Hco as [_ Hco].
      by apply (coalesced_app_inv [_]) in Hco as [_ ?].
  - subst l. rewrite !useds_app, useds_merged, useds_cons_free, useds_app, useds_merged by done.
    by rewrite app_assoc.
  - apply (kept_trans _ _ m2).
    + eapply kept_trans; [|exact Hk2]. destruct a as [sa na ua]. simpl in Ha. subst ua.
      eapply kept_trans; [|eapply (kept_store _ nx _ sa na); (done || lia)].
      eapply kept_trans; eapply (kept_store _ nx _ s n); (done || lia).
    + eapply kept_useds; [|exact Hk3]. subst l.
      rewrite !useds_app, (useds_cons_free b), !(useds_cons_free a), useds_app, useds_merged by done.
      by rewrite <- app_assoc.
Qed.

(** The only free block. *)
Lemma single_ok l s n r nx fs m k :
  rep (l ++ Block s n true :: r) nx 0 fs m k -> coalesced (l ++ Block s n true :: r) ->
  frees l = [] -> frees r = [] ->
  freed l s n r nx fs m (st nx (addr s) (fs + n) (<[addr s + 16 := 0]> (<[addr s + 8 := 0]> m)) k).
Proof.
  intros Hrep Hco Hl Hr. pose proof (rep_push _ _ _ _ _ _ _ _ _ Hrep Hl) as Hrep'.
  pose proof (r_tiling _ _ _ _ _ _ Hrep') as Ht.
  eexists _, _, _, k. split; [reflexivity|]. split; [exact Hrep'|]. split_and!.
  - apply coalesced_all_used; [done|]. destruct r as [|c r]; [done|].
    destruct (b_used c) eqn:Hc; [|by rewrite frees_cons_free in Hr]. split; [by right|].
    apply coalesced_app_inv in Hco as [_ Hco]. by apply (coalesced_app_inv [_]) in Hco as [_ ?].
  - by rewrite useds_app, useds_cons_free.
  - eapply kept_trans; eapply (kept_store _ nx _ s n); try (done || lia); rewrite elem_of_middle; auto.
Qed.

(** The free list around a block in use. *)
Lemma rep_around l s n r nx fl fs m k :
  rep (l ++ Block s n true :: r) nx fl fs m k ->
  chain m fl (frees l ++ frees r) 0 /\ fl = head_addr (frees l ++ frees r) /\
  (forall d, d ∈ frees l -> 0 <= b_start d < s) /\ (forall d, d ∈ frees r -> s < b_start d) /\
  ordered 0 (frees l ++ frees r) /\ Z.of_nat (List.length (frees l ++ frees r)) <= nx.
Proof.
  intros Hrep. pose proof (r_tiling _ _ _ _ _ _ Hrep) as Ht.
  destruct (tiling_split _ _ _ _ _ Ht) as (Htl & Hn & _ & Hl & Hr). unfold b_end in Hr. simpl in *.
  assert (frees (l ++ Block s n true :: r) = frees l ++ frees r) as Hfr
    by (by rewrite frees_app, frees_cons_used).
  pose proof (r_chain _ _ _ _ _ _ Hrep) as Hc. rewrite Hfr in Hc.
  split_and!; [done|by eapply chain_head| | | |].
  - intros d [_ Hd]%elem_of_frees. specialize (Hl d Hd).
    apply (tiling_elem _ _ _ _ Htl) in Hd. unfold b_end in *. lia.
  - intros d [_ Hd]%elem_of_frees. specialize (Hr d Hd). lia.
  - rewrite <- Hfr. by eapply tiling_ordered.
  - rewrite <- Hfr. apply frees_length in Ht. lia.
Qed.

Lemma head_addr_zero l : (forall b, b ∈ l -> 0 <= b_start b) -> head_addr l = 0 -> l = [].
Proof.
  destruct l as [|b l]; [done|]. intros Hb E. simpl in E.
  pose proof (addr_pos (b_start b) (Hb b (list_elem_of_here _ _))). lia.
Qed.

Lemma head_addr_ne l s : 0 <= s -> (forall b, b ∈ l -> b_start b <> s) -> addr s <> head_addr l.
Proof.
  intros Hs. destruct l as [|b l]; simpl; [pose proof (addr_pos s Hs); lia|].
  intros Hb. rewrite addr_eq. specialize (Hb b (list_elem_of_here _ _)). lia.
Qed.

Lemma add_to_freelist_ok l s n r nx fl fs m k :
  rep (l ++ Block s n true :: r) nx fl fs m k -> coalesced (l ++ Block s n true :: r) ->
  wp (add_to_freelist (addr s)) (fun _ => freed l s n r nx fs m) (st nx fl fs m k).
Proof.
  intros Hrep Hco. destruct (rep_around _ _ _ _ _ _ _ _ _ Hrep) as (Hc & Hfl & Hlt & Hgt & Ho & Hlen).
  assert (Block s n true ∈ l ++ Block s n true :: r) as Hin by (rewrite elem_of_middle; auto).
  destruct (rep_range _ _ _ _ _ _ _ Hrep Hin) as (Hs & Hn & Hsn & Hnx). simpl in Hs, Hn, Hsn.
  assert (addr s <> fl) as Hne.
  { rewrite Hfl. apply head_addr_ne; [lia|]. intros d [Hd|Hd]%elem_of_app;
      [specialize (Hlt d Hd); lia|specialize (Hgt d Hd); lia]. }
  unfold add_to_freelist. apply wp_bind, wp_get. cbn [_freelist _next_segment].
  apply wp_bind, wp_check; [lia|].
  apply wp_bind, (wp_length _ _ _ _ _ _ n); [done|apply (r_headers _ _ _ _ _ _ Hrep _ Hin)|].
  apply wp_bind, wp_modify. heap_simpl.
  pose proof (total_frees _ _ _ (r_tiling _ _ _ _ _ _ Hrep)) as Htot.
  rewrite <- (r_total _ _ _ _ _ _ Hrep) in Htot.
  pose proof nc_bound. rewrite (wrapu_id 64 (fs + n)) by (unfold is_u; pow2_norm; lia).
  apply wp_bind, wp_store; [done|lia|]. destruct (Z.eqb_spec fl 0) as [Hz|Hz].
  - assert (frees l ++ frees r = []) as [El Er]%app_nil.
    { apply head_addr_zero; [|lia]. intros d [Hd|Hd]%elem_of_app;
        [specialize (Hlt d Hd); lia|specialize (Hgt d Hd); lia]. }
    apply wp_bind, wp_modify, wp_store; [done|lia|]. apply single_ok; [by rewrite <- Hz|done..].
  - apply wp_bind. eapply wp_mono.
    { apply (scan_loop_ok _ _ _ _ _ s (frees r) _ (frees l) 0 fl 0); try done; [by left| | |].
      - intros d Hd. specialize (Hlt d Hd). lia.
      - rewrite length_app in Hlen. lia.
      - apply (chain_other _ _ _ _ _ 8); [lia|lia|done]. }
    intros ? h' [-> ->]. cbv beta iota. unfold last_or.
    destruct (last (frees l)) as [a|] eqn:Hlast.
    + apply last_Some in Hlast as [A Hlast]. destruct (frees_split l A a [] Hlast) as (l1 & l2 & -> & _ & El2).
      assert (a ∈ frees (l1 ++ a :: l2)) as Ha by (rewrite Hlast, elem_of_app; right; by apply list_elem_of_singleton).
      specialize (Hlt a Ha). apply elem_of_frees in Ha as [Ha _].
      rewrite addr_nonzero by lia. apply wp_bind, wp_check.
      { assert (addr (b_start a) < addr s) by (apply addr_lt; lia).
        destruct (frees r) as [|c fr]; simpl; [lia|].
        assert (addr s < addr (b_start c)) by (apply addr_lt, Hgt, elem_of_cons; by left). lia. }
      by apply insert_ok.
    + apply last_None in Hlast. rewrite Hlast in *. simpl in Hfl. apply wp_bind, wp_check.
      { subst fl. destruct (frees r) as [|c fr]; simpl in *; [lia|].
        assert (addr s < addr (b_start c)) by (apply addr_lt, Hgt, elem_of_cons; by left). lia. }
      apply wp_bind, wp_store; [done|lia|]. apply wp_bind, wp_modify. by apply push_ok.
Qed.

(** ** Finding the block of an address *)

Definition inside (p : Z) (b : block) : Prop := addr (b_start b) <= p < addr (b_end b).

Lemma find_loop_ok bs nx fl fs m k b fuel : rep bs nx fl fs m k -> b ∈ bs -> forall j,
  0 <= j < b_len b -> j < Z.of_nat fuel ->
  wp (find_loop fuel (low smap) (b_start b + j)) (fun i h' => h' = st nx fl fs m k /\ i = b_start b)
    (st nx fl fs m k).
Proof.
  intros Hrep Hb. destruct (rep_range _ _ _ _ _ _ _ Hrep Hb) as (? & ? & ? & ?). pose proof nc_bound.
  induction fuel as [|fuel IH]; intros j Hj Hf; [lia|]. cbn [find_loop].
  apply wp_bind, (wp_load_mark _ _ _ _ _ _ (mark_code j)); [lia|by apply (r_marks _ _ _ _ _ _ Hrep b)|].
  destruct (mark_code_range j) as (Hm & Hmj & Hpos); [lia|]. destruct (Z.gtb_spec (mark_code j) 0).
  - rewrite wrapu_id by (unfold is_u; pow2_norm; lia).
    replace (b_start b + j - mark_code j) with (b_start b + (j - mark_code j)) by lia. apply IH; lia.
  - apply wp_ret. split; [done|]. destruct (decide (j = 0)); lia.
Qed.

Lemma address_split p : low mem <= p < high mem ->
  exists i o, p = addr i + o /\ 0 <= i < nc /\ 0 <= o < seg.
Proof.
  intros Hp. pose proof seg_bounds. exists ((p - low mem) / seg), ((p - low mem) mod seg).
  pose proof (Z.div_mod (p - low mem) seg ltac:(lia)). pose proof (Z.mod_pos_bound (p - low mem) seg ltac:(lia)).
  unfold addr. split_and!; try lia.
  - apply Z.div_pos; lia.
  - apply Z.div_lt_upper_bound; lia.
Qed.

Lemma inside_segment i o b : 0 <= o < seg -> inside (addr i + o) b <-> b_start b <= i < b_end b.
Proof. intros Ho. unfold inside, addr. nia. Qed.

Lemma find_start_ok bs nx fl fs m k p :
  rep bs nx fl fs m k ->
  wp (find_start p) (fun r h' => h' = st nx fl fs m k /\
    ((exists b, b ∈ bs /\ b_used b = true /\ inside p b /\ r = allocated_space (addr (b_start b))) \/
     (r = 0 /\ forall b, b ∈ bs -> b_used b = true -> ~ inside p b))) (st nx fl fs m k).
Proof.
  intros Hrep. pose proof (r_tiling _ _ _ _ _ _ Hrep) as Ht. pose proof (r_next _ _ _ _ _ _ Hrep) as Hnx.
  pose proof (tiling_le _ _ _ Ht) as Hnx0. pose proof seg_bounds as Hseg.
  unfold find_start. apply wp_bind, wp_get. unfold contains. heap_simpl.
  destruct ((low mem <=? p) && (p <? high mem)) eqn:Hp; cbn [negb].
  2: { apply wp_ret. split; [done|]. right. split; [done|]. intros b Hb _ Hin.
       apply (tiling_elem _ _ _ _ Ht) in Hb. unfold inside, addr, b_end in *.
       assert (b_start b + b_len b <= nc) by lia. nia. }
  destruct (address_split p) as (i & o & -> & Hi & Ho); [lia|]. cbv zeta.
  rewrite segment_for_addr by lia. destruct (decide (i < nx)) as [Hlt|Hge].
  - destruct (tiling_find _ _ _ i Ht) as (b & Hb & Hib); [lia|]. unfold b_end in Hib.
    destruct (rep_range _ _ _ _ _ _ _ Hrep Hb) as (? & ? & ? & ?).
    pose proof (find_loop_ok bs nx fl fs m k b (S (Z.to_nat i)) Hrep Hb (i - b_start b)
      ltac:(lia) ltac:(lia)) as Hloop.
    pose proof (r_marks _ _ _ _ _ _ Hrep b Hb (i - b_start b) ltac:(lia)) as Hmark.
    replace (b_start b + (i - b_start b)) with i in Hloop, Hmark by lia.
    apply wp_bind, (wp_load_mark _ _ _ _ _ _ (mark_code (i - b_start b))); [lia|done|].
    pose proof (mark_code_range (i - b_start b) ltac:(lia)). replace (mark_code _ =? 255) with false by lia.
    apply wp_bind. eapply wp_mono; [exact Hloop|]. intros ? ? [-> ->]. rewrite block_at_addr by lia.
    apply wp_bind, (wp_free _ _ _ _ _ _ (b_used b)); [lia|apply (r_headers _ _ _ _ _ _ Hrep b Hb)|].
    destruct (b_used b) eqn:Hu; simpl; apply wp_ret; (split; [done|]); [left|right; split; [done|]].
    + exists b. split_and!; try done. apply inside_segment; [done|]. unfold b_end. lia.
    + intros c Hc Hcu. rewrite inside_segment by done. intros Hin.
      destruct (tiling_disjoint _ _ _ _ _ Ht Hb Hc) as [<-|Hd]; [congruence|]. unfold b_end in *. lia.
  - apply wp_bind, (wp_load_mark _ _ _ _ _ _ 255); [lia|by apply (r_blank _ _ _ _ _ _ Hrep); lia|].
    apply wp_ret. split; [done|]. right. split; [done|]. intros c Hc _.
    rewrite inside_segment by done. apply (tiling_elem _ _ _ _ Ht) in Hc. unfold b_end in *. lia.
Qed.

Lemma deallocate_ok l s n r nx fl fs m k :
  rep (l ++ Block s n true :: r) nx fl fs m k -> coalesced (l ++ Block s n true :: r) ->
  wp (deallocate (allocated_space (addr s))) (fun _ => freed l s n r nx fs m) (st nx fl fs m k).
Proof.
  intros Hrep Hco. set (b := Block s n true) in *. pose proof seg_bounds.
  assert (b ∈ l ++ b :: r) as Hin by (rewrite elem_of_middle; auto).
  pose proof (r_tiling _ _ _ _ _ _ Hrep) as Ht.
  assert (inside (allocated_space (addr s)) b) as Hib.
  { apply inside_segment; [unfold sizeof_HeapBlock; lia|]. apply (tiling_elem _ _ _ _ Ht) in Hin.
    unfold b_end in *. simpl in *. lia. }
  unfold deallocate. apply wp_bind. eapply wp_mono; [by apply find_start_ok|].
  intros p h' [-> [(c & Hc & Hu & Hic & ->)|[_ Hno]]]; [|by destruct (Hno b)].
  destruct (tiling_disjoint _ _ _ _ _ Ht Hin Hc) as [<-|Hd].
  - apply wp_bind, wp_check; [apply Z.eqb_refl|]. unfold allocated_space.
    replace (addr s + sizeof_HeapBlock - sizeof_HeapBlock) with (addr s) by lia.
    apply wp_bind, wp_check; [apply Z.eqb_refl|]. by apply add_to_freelist_ok.
  - exfalso. unfold inside, addr in *. nia.
Qed.

(** ** Searching the free list *)

(** The best block among [P]: none fits, or a smallest one that does. *)
Definition best_of (len : Z) (P : list block) (bb bp bl : Z) : Prop :=
  (bb = 0 /\ forall c, c ∈ P -> b_len c < len) \/
  (exists A b B, P = A ++ b :: B /\ bb = addr (b_start b) /\ bp = last_or 0 A /\ bl = b_len b /\
     len <= bl /\ forall c, c ∈ P -> len <= b_len c -> bl <= b_len c).

Lemma best_of_snoc len P c bb bp bl :
  (forall b, b ∈ P -> 0 <= b_start b) -> best_of len P bb bp bl ->
  if (len <=? b_len c) && ((bb =? 0) || (b_len c <? bl))
  then best_of len (P ++ [c]) (addr (b_start c)) (last_or 0 P) (b_len c)
  else best_of len (P ++ [c]) bb bp bl.
Proof.
  intros HP Hb. destruct ((len <=? b_len c) && ((bb =? 0) || (b_len c <? bl))) eqn:E.
  - right. exists P, c, []. split_and!; try done; [lia|]. intros d [Hd| ->]%elem_of_snoc Hlen; [|lia].
    destruct Hb as [[-> Hno]|(A & b & B & -> & -> & _ & -> & Hbl & Hmin)]; [specialize (Hno d Hd); lia|].
    rewrite addr_nonzero in E by (apply HP, elem_of_middle; auto). specialize (Hmin d Hd Hlen). lia.
  - destruct Hb as [[-> Hno]|(A & b & B & -> & -> & -> & -> & Hbl & Hmin)]; [left|right].
    + split; [done|]. intros d [Hd| ->]%elem_of_snoc; [auto|lia].
    + exists A, b, (B ++ [c]). rewrite <- app_assoc. split_and!; try done.
      intros d Hd Hlen. rewrite (app_assoc A) in Hd. apply elem_of_snoc in Hd as [Hd| ->].
      * auto.
      * rewrite addr_nonzero in E by (apply HP, elem_of_middle; auto). lia.
Qed.

Lemma best_loop_ok nx fl fs m k len fuel : forall C P bb bp bl p,
  (forall b, b ∈ P ++ C -> 0 <= b_start b < nc /\ m !! (addr (b_start b) + 0) = Some (b_len b)) ->
  chain m p C 0 -> best_of len P bb bp bl -> (List.length C < fuel)%nat ->
  wp (best_loop fuel len bb bp bl (last_or 0 P) p) (fun '(bb, bp, bl) h' =>
    h' = st nx fl fs m k /\ best_of len (P ++ C) bb bp bl) (st nx fl fs m k).
Proof.
  induction fuel as [|fuel IH]; intros C P bb bp bl p Hr Hc Hb Hf; [lia|]. cbn [best_loop].
  destruct C as [|c C].
  - simpl in Hc. subst p. apply wp_ret. by rewrite app_nil_r.
  - destruct Hc as (-> & n & En & Hc).
    destruct (Hr c) as [Hcs Hcl]; [apply elem_of_middle; auto|]. rewrite addr_nonzero by lia.
    apply wp_bind, (wp_length _ _ _ _ _ _ (b_len c)); [lia|done|].
    apply wp_bind, (wp_link _ _ _ _ _ _ n); [lia|done|].
    assert (forall b, b ∈ P -> 0 <= b_start b) as HP.
    { intros b Hin. destruct (Hr b); [apply elem_of_app; by left|lia]. }
    pose proof (best_of_snoc len P c bb bp bl HP Hb) as Hb'.
    assert (addr (b_start c) = last_or 0 (P ++ [c])) as Hprev by (unfold last_or; by rewrite last_snoc).
    replace (P ++ c :: C) with ((P ++ [c]) ++ C) in * by (by rewrite <- app_assoc).
    destruct ((len <=? b_len c) && ((bb =? 0) || (b_len c <? bl))).
    all: rewrite Hprev at 2 || rewrite Hprev at 1; apply IH; [done|done| |simpl in Hf; lia].
    all: done.
Qed.

(** ** Taking a block from the list *)

(** The heap after the links skip the block at [s] and it is marked as used. *)
Lemma rep_take l s n r nx fl fs fl' m m' k :
  rep (l ++ Block s n false :: r) nx fl fs m k ->
  chain m' fl' (frees l ++ frees r) 0 ->
  (forall x, x ∈ l ++ Block s n false :: r -> header m x -> header m' x) ->
  rep (l ++ Block s n true :: r) nx fl' (fs - n) (<[addr s + 8 := 1]> m') k.
Proof.
  intros [Ht Hn Hh Hm Hb _ Hf] Hc Hhd.
  destruct (tiling_split _ _ _ _ _ Ht) as (Htl & Hsn & Htr & Hl & Hr).
  unfold b_end in Htr, Hr. simpl in *.
  assert (forall d, d ∈ l \/ d ∈ r -> b_start d <> s) as Hne.
  { intros d [Hd|Hd]; [|specialize (Hr d Hd); lia]. specialize (Hl d Hd).
    apply (tiling_elem _ _ _ _ Htl) in Hd. unfold b_end in *. lia. }
  split; [by apply tiling_join|done|intros d Hd|intros d Hd|done| |].
  - apply elem_of_middle in Hd as [Hd|[->|Hd]].
    + apply header_store; [lia|left; auto|]. apply Hhd; [|apply Hh]; apply elem_of_middle; auto.
    + split; simpl; [rewrite store_ne by lia|by rewrite lookup_insert_eq].
      apply (Hhd (Block s n false)); [|apply Hh]; apply elem_of_middle; auto.
    + apply header_store; [lia|left; auto|]. apply Hhd; [|apply Hh]; apply elem_of_middle; auto.
  - apply elem_of_middle in Hd as [Hd|[->|Hd]]; [apply Hm, elem_of_middle; auto| |].
    + apply (Hm (Block s n false)), elem_of_middle. auto.
    + apply Hm, elem_of_middle. auto.
  - rewrite frees_app, frees_cons_used by done. apply chain_other; [lia|lia|done].
  - rewrite Hf, !frees_app, (frees_cons_free (Block s n false)), (frees_cons_used (Block s n true)),
      !total_app by done.
    simpl. lia.
Qed.

Lemma take_first l s n r nx fl fs m k :
  rep (l ++ Block s n false :: r) nx fl fs m k -> frees l = [] ->
  rep (l ++ Block s n true :: r) nx (head_addr (frees r)) (fs - n) (<[addr s + 8 := 1]> m) k.
Proof.
  intros Hrep Hl. destruct (rep_links _ _ _ _ _ _ _ _ Hrep eq_refl) as (_ & _ & Hc).
  eapply rep_take; [exact Hrep|by rewrite Hl|done].
Qed.

Lemma take_after l1 a l2 s n r nx fl fs m k :
  let l := l1 ++ a :: l2 in
  rep (l ++ Block s n false :: r) nx fl fs m k -> b_used a = false -> frees l2 = [] ->
  rep (l ++ Block s n true :: r) nx fl (fs - n)
    (<[addr s + 8 := 1]> (<[addr (b_start a) + 16 := head_addr (frees r)]> m)) k.
Proof.
  intros l Hrep Ha Hl2. destruct (rep_links _ _ _ _ _ _ _ _ Hrep eq_refl) as (Hcl & _ & Hcr).
  pose proof (r_tiling _ _ _ _ _ _ Hrep) as Ht. eapply rep_take; [exact Hrep| |].
  - destruct (tiling_split _ _ _ _ _ Ht) as (Htl & _ & _ & Hl & Hr). subst l.
    destruct (tiling_split _ _ _ _ _ Htl) as (Htl1 & Han & Htl2 & Hl1 & _).
    rewrite frees_app, (frees_cons_free a), Hl2 in * by done. rewrite <- app_assoc.
    apply chain_app in Hcl as (p & Hc1 & -> & _). apply chain_app. exists (addr (b_start a)).
    split; [apply chain_other; [lia| |done]|split; [done|]].
    + intros _ d [_ Hd]%elem_of_frees. specialize (Hl1 d Hd). apply (tiling_elem _ _ _ _ Htl1) in Hd.
      unfold b_end in *. lia.
    + exists (head_addr (frees r)). split; [apply lookup_insert_eq|].
      apply chain_other; [lia| |done]. intros _ d [_ Hd]%elem_of_frees. specialize (Hr d Hd).
      pose proof (tiling_le _ _ _ Htl2). pose proof (tiling_split _ _ _ _ _ Ht) as (_ & ? & _).
      unfold b_end in *. simpl in *. lia.
  - intros x _. apply header_store; [lia|by right].
Qed.

(** The heap after the end of a free block becomes a block in use. *)
Lemma rep_carve l s n len r nx fl fs m k k' :
  rep (l ++ Block s n false :: r) nx fl fs m k -> 0 < len < n ->
  marks_set k k' (s + (n - len)) (s + (n - len) + len) mark_code ->
  rep (l ++ Block s (n - len) false :: Block (s + (n - len)) len true :: r) nx fl (fs - len)
    (<[addr (s + (n - len)) + 8 := 1]> (<[addr (s + (n - len)) + 0 := len]>
      (<[addr s + 0 := n - len]> m))) k'.
Proof.
  intros [Ht Hn Hh Hm Hb Hc Hf] Hlen Hk'.
  destruct (tiling_split _ _ _ _ _ Ht) as (Htl & Hsn & Htr & Hl & Hr).
  unfold b_end in Htr, Hr. simpl in *.
  assert (forall d, d ∈ l \/ d ∈ r -> b_start d <> s /\ b_start d <> s + (n - len)) as Hne.
  { intros d [Hd|Hd]; [|specialize (Hr d Hd); lia]. specialize (Hl d Hd).
    apply (tiling_elem _ _ _ _ Htl) in Hd. unfold b_end in *. lia. }
  set (s' := s + (n - len)) in *.
  assert (forall d, d ∈ l \/ d ∈ r -> d ∈ l ++ Block s n false :: r) as Hin.
  { intros d. rewrite elem_of_middle. tauto. }
  assert (Block s n false ∈ l ++ Block s n false :: r) as Hbin by (rewrite elem_of_middle; auto).
  assert (forall d, d ∈ l ++ Block s (n - len) false :: Block s' len true :: r ->
    d = Block s (n - len) false \/ d = Block s' len true \/ d ∈ l \/ d ∈ r) as Hcase.
  { intros d. rewrite elem_of_middle, elem_of_cons. tauto. }
  split; [|done|intros d Hd; destruct (Hcase d Hd) as [->|[->|Hd']]..| | |].
  - apply tiling_join; simpl; [done|lia|]. unfold b_end. simpl. split_and!; try (done || lia).
    replace (s' + len) with (s + n) by lia. done.
  - split; simpl; rewrite !store_ne by lia; [by rewrite lookup_insert_eq|].
    apply (Hh _ Hbin).
  - split; simpl; [by rewrite store_ne, lookup_insert_eq by lia|by rewrite lookup_insert_eq].
  - destruct (Hne d Hd'). do 3 (apply header_store; [lia|by left|]). auto.
  - intros i Hi. simpl in *. rewrite Hk', decide_False by lia. apply (Hm _ Hbin). simpl. lia.
  - intros i Hi. simpl in *. rewrite Hk', decide_True by lia. do 2 f_equal. lia.
  - eapply marked_set; [done| |auto]. destruct Hd' as [Hd'|Hd'];
      [left; specialize (Hl d Hd'); lia|right; specialize (Hr d Hd'); lia].
  - intros i Hi. apply tiling_le in Htr. rewrite Hk', decide_False by lia. by apply Hb.
  - rewrite frees_app, frees_cons_free, frees_cons_used by done.
    do 3 (apply chain_other; [lia|lia|]).
    rewrite frees_app, frees_cons_free in Hc by done.
    eapply chain_starts; [|exact Hc]. by rewrite !fmap_app.
  - rewrite Hf, !frees_app, !frees_cons_free, frees_cons_used, !total_app by done. simpl. lia.
Qed.

(** The result of a search that takes the end of a best block for [len] segments. *)
Record taken (mb len : Z) (bs : list block) (nx fs : Z) (m : gmap Z Z) (p : Z) (h' : CodeHeap)
    (l : list block) (b : block) (r : list block) (n : Z) : Prop := {
  t_split : bs = l ++ b :: r;
  t_free : b_used b = false;
  t_best : forall c, c ∈ frees bs -> len <= b_len c -> b_len b <= b_len c;
  t_size : len <= n < len + mb;
  t_within : n <= b_len b;
  t_addr : p = addr (b_end b - n);
  t_heap : exists bs' fl' m' k', h' = st nx fl' (fs - n) m' k' /\ rep bs' nx fl' (fs - n) m' k' /\
    coalesced bs' /\ useds bs' = useds l ++ Block (b_end b - n) n true :: useds r /\
    kept bs m m'
}.

(** Taking the whole block. *)
Lemma taken_whole mb len l s n r nx fl fs fl' m m' k :
  rep (l ++ Block s n false :: r) nx fl fs m k -> coalesced (l ++ Block s n false :: r) ->
  (forall c, c ∈ frees (l ++ Block s n false :: r) -> len <= b_len c -> n <= b_len c) ->
  len <= n < len + mb ->
  rep (l ++ Block s n true :: r) nx fl' (fs - n) m' k -> kept (l ++ Block s n false :: r) m m' ->
  taken mb len (l ++ Block s n false :: r) nx fs m (addr s) (st nx fl' (fs - n) m' k)
    l (Block s n false) r n.
Proof.
  intros Hrep Hco Hbest Hn Hrep' Hk.
  split; try done. { unfold b_end. simpl. f_equal. lia. }
  exists (l ++ Block s n true :: r), fl', m', k. split_and!; try done.
  - apply coalesced_app_inv in Hco as [? Hco]. apply (coalesced_app_inv [_]) in Hco as [_ ?].
    by apply coalesced_used.
  - rewrite useds_app, useds_cons_used by done. unfold b_end. simpl. do 3 f_equal. lia.
Qed.

(** Taking its end. *)
Lemma taken_end mb len l s n r nx fl fs m k k' :
  let b := Block s n false in let s' := s + (n - len) in
  rep (l ++ b :: r) nx fl fs m k -> coalesced (l ++ b :: r) ->
  (forall c, c ∈ frees (l ++ b :: r) -> len <= b_len c -> n <= b_len c) ->
  0 < len < n -> 0 < mb -> marks_set k k' s' (s' + len) mark_code ->
  taken mb len (l ++ b :: r) nx fs m (addr s')
    (st nx fl (fs - len) (<[addr s' + 8 := 1]> (<[addr s' + 0 := len]> (<[addr s + 0 := n - len]> m))) k')
    l b r len.
Proof.
  intros b s' Hrep Hco Hbest Hlen Hmb Hk.
  pose proof (rep_carve l s n len r nx fl fs m k k' Hrep Hlen Hk) as Hrep'.
  split; try (done || simpl; lia). { unfold b_end. simpl. subst s'. f_equal. lia. }
  eexists _, _, _, _. split; [reflexivity|]. split; [exact Hrep'|]. split_and!.
  - change (b :: r) with ([b] ++ r) in Hco. rewrite app_assoc in Hco.
    apply coalesced_app_inv in Hco as [Hco Hr].
    apply (coalesced_replace l b); [done|done|]. split; [by right|].
    by apply (coalesced_used []).
  - rewrite useds_app, useds_cons_free, useds_cons_used by done. unfold b_end. simpl.
    do 3 f_equal. lia.
  - pose proof (r_tiling _ _ _ _ _ _ Hrep) as Ht.
    assert (b ∈ l ++ b :: r) as Hb by (rewrite elem_of_middle; auto).
    intros c Hc Hu x Hx. pose proof seg_bounds.
    destruct (tiling_disjoint _ _ _ _ _ Ht Hb Hc) as [<-|Hd]; [done|].
    rewrite !lookup_insert_ne; [done|..]; subst s'; unfold b_end, addr in *; simpl in *; nia.
Qed.

(** Where a free block is linked from: the head of the list, or the block before. *)
Lemma rep_prev l b r nx fl fs m k :
  rep (l ++ b :: r) nx fl fs m k -> b_used b = false ->
  (frees l = [] /\ last_or 0 (frees l) = 0 /\ fl = addr (b_start b)) \/
  (exists l1 a l2, l = l1 ++ a :: l2 /\ b_used a = false /\ frees l2 = [] /\
     last_or 0 (frees l) = addr (b_start a) /\ 0 <= b_start a < nc /\ b_start a <> b_start b /\
     m !! (addr (b_start a) + 16) = Some (addr (b_start b))).
Proof.
  intros Hrep Hb. destruct (rep_links _ _ _ _ _ _ _ _ Hrep Hb) as (Hcl & _ & _).
  unfold last_or. destruct (last (frees l)) as [a|] eqn:Hlast; [right|left].
  - apply last_Some in Hlast as [A Hlast].
    destruct (frees_split l A a [] Hlast) as (l1 & l2 & -> & _ & El2).
    assert (a ∈ frees (l1 ++ a :: l2)) as Ha by (rewrite Hlast; apply elem_of_snoc; auto).
    apply elem_of_frees in Ha as [Ha Hin]. exists l1, a, l2.
    destruct (tiling_split _ _ _ _ _ (r_tiling _ _ _ _ _ _ Hrep)) as (Htl & _ & _ & Hl & _).
    specialize (Hl a Hin). apply (tiling_elem _ _ _ _ Htl) in Hin as ?.
    assert (a ∈ (l1 ++ a :: l2) ++ b :: r) as Hin' by (apply elem_of_app; by left).
    destruct (rep_range _ _ _ _ _ _ _ Hrep Hin') as (? & _). unfold b_end in *.
    split_and!; try (done || lia). rewrite Hlast in Hcl.
    apply chain_app in Hcl as (p & _ & -> & q & Eq & Hq). simpl in Hq. by subst q.
  - apply last_None in Hlast. rewrite Hlast in *. done.
Qed.

(** ** Walking over the blocks *)

Lemma first_block_ok bs nx fl fs m k Q :
  rep bs nx fl fs m k -> Q (head_addr bs) (st nx fl fs m k) -> wp first_block Q (st nx fl fs m k).
Proof.
  intros Hrep HQ. unfold first_block. apply wp_bind, wp_get, wp_ret. heap_simpl.
  rewrite block_at_addr by lia. pose proof (r_tiling _ _ _ _ _ _ Hrep) as Ht.
  destruct bs as [|b bs]; simpl in Ht; [by subst nx|]. destruct Ht as (Hb & Hn & Ht%tiling_le).
  unfold b_end in Ht. replace (nx >? 0) with true by lia. simpl in HQ. by rewrite Hb in HQ.
Qed.

Lemma next_block_ok l b r nx fl fs m k Q :
  rep (l ++ b :: r) nx fl fs m k -> Q (head_addr r) (st nx fl fs m k) ->
  wp (next_block (addr (b_start b))) Q (st nx fl fs m k).
Proof.
  intros Hrep HQ. assert (b ∈ l ++ b :: r) as Hin by (rewrite elem_of_middle; auto).
  destruct (rep_range _ _ _ _ _ _ _ Hrep Hin) as (Hs & Hn & Hsn & Hnx).
  pose proof nc_bound. pose proof seg_bounds. unfold next_block. rewrite addr_nonzero by lia.
  apply wp_bind, wp_get, wp_bind, (wp_length _ _ _ _ _ _ (b_len b)); [done|apply (r_headers _ _ _ _ _ _ Hrep b Hin)|].
  cbv zeta. heap_simpl. rewrite <- (Z.add_0_r (addr (b_start b))), segment_for_addr, wrapu_id
    by (try lia; unfold is_u; pow2_norm; lia).
  apply wp_ret. rewrite block_at_addr by lia.
  destruct (tiling_split _ _ _ _ _ (r_tiling _ _ _ _ _ _ Hrep)) as (_ & _ & Htr & _).
  unfold b_end in Htr. destruct r as [|c r]; simpl in Htr.
  - replace (b_start b + b_len b <? nx) with false by lia. done.
  - destruct Htr as (Hc & Hcn & Htr%tiling_le). unfold b_end in Htr.
    replace (b_start b + b_len b <? nx) with true by lia. simpl in HQ. by rewrite Hc in HQ.
Qed.

Lemma verify_freelist_ok bs nx fl fs m k fuel : rep bs nx fl fs m k -> forall l p len count,
  (forall b, b ∈ l -> b ∈ bs) -> chain m p l 0 -> 0 <= len -> len + total l < 2 ^ 64 ->
  (forall b, b ∈ l -> 0 < b_len b) -> (List.length l < fuel)%nat ->
  wp (verify_freelist fuel p len count) (fun r h' => h' = st nx fl fs m k /\
    r = (len + total l, count + zlen l)) (st nx fl fs m k).
Proof.
  intros Hrep. induction fuel as [|fuel IH]; intros l p len count Hl Hc Hlen Hbig Hpos Hf; [lia|].
  cbn [verify_freelist]. destruct l as [|b l].
  - simpl in Hc. subst p. apply wp_ret. split; [done|]. simpl. f_equal; lia.
  - destruct Hc as (-> & n & En & Hc). assert (b ∈ b :: l) as Hb by (apply elem_of_cons; by left).
    pose proof (Hpos b Hb). specialize (Hl b Hb) as Hin.
    destruct (rep_range _ _ _ _ _ _ _ Hrep Hin) as (? & _). rewrite addr_nonzero by lia.
    apply wp_bind, (wp_length _ _ _ _ _ _ (b_len b)); [done|apply (r_headers _ _ _ _ _ _ Hrep b Hin)|].
    apply wp_bind, (wp_link _ _ _ _ _ _ n); [done..|]. simpl in Hbig.
    assert (0 <= total l) as Htl.
    { clear -Hpos. induction l as [|c l IHl]; simpl; [lia|].
      assert (0 < b_len c) by (apply Hpos; rewrite !elem_of_cons; auto).
      assert (0 <= total l) by (apply IHl; intros d Hd; apply Hpos; rewrite !elem_of_cons in *; tauto). lia. }
    rewrite wrapu_id by (unfold is_u; lia). eapply wp_mono.
    + apply (IH l); [intros d Hd; apply Hl, elem_of_cons; by right|done|lia|lia
        |intros d Hd; apply Hpos, elem_of_cons; by right|simpl in Hf; lia].
    + intros r h' [-> ->]. split; [done|]. simpl. f_equal; lia.
Qed.

Lemma count_free_ok bs nx fl fs m k fuel : rep bs nx fl fs m k -> forall l r count,
  bs = l ++ r -> (List.length r < fuel)%nat ->
  wp (count_free fuel (head_addr r) count) (fun c h' =>
    h' = st nx fl fs m k /\ c = count - zlen (frees r)) (st nx fl fs m k).
Proof.
  intros Hrep. induction fuel as [|fuel IH]; intros l r count -> Hf; [lia|].
  cbn [count_free]. destruct r as [|b r]; [apply wp_ret; split; [done|]; simpl; lia|].
  assert (b ∈ l ++ b :: r) as Hin by (rewrite elem_of_middle; auto).
  destruct (rep_range _ _ _ _ _ _ _ Hrep Hin) as (? & _). simpl head_addr. rewrite addr_nonzero by lia.
  apply wp_bind, (wp_free _ _ _ _ _ _ (b_used b)); [done|apply (r_headers _ _ _ _ _ _ Hrep b Hin)|].
  apply wp_bind. eapply next_block_ok; [exact Hrep|].
  eapply wp_mono; [apply (IH (l ++ [b])); [by rewrite <- app_assoc|simpl in Hf; lia]|].
  intros c h' [-> ->]. split; [done|].
  destruct (b_used b) eqn:Hu; [by rewrite frees_cons_used|rewrite frees_cons_free by done; simpl; lia].
Qed.

Lemma verify_holds bs nx fl fs m k Q :
  rep bs nx fl fs m k -> Q tt (st nx fl fs m k) -> wp verify Q (st nx fl fs m k).
Proof.
  intros Hrep HQ. pose proof (r_tiling _ _ _ _ _ _ Hrep) as Ht. pose proof nc_bound.
  pose proof (r_next _ _ _ _ _ _ Hrep). pose proof (total_frees _ _ _ Ht).
  pose proof (frees_length _ _ _ Ht). pose proof (tiling_length _ _ _ Ht).
  unfold verify. apply wp_bind, wp_get. heap_simpl. apply wp_bind. eapply wp_mono.
  { apply (verify_freelist_ok bs nx fl fs m k _ Hrep (frees bs)); try (done || lia).
    - by intros b [_ ?]%elem_of_frees.
    - apply (r_chain _ _ _ _ _ _ Hrep).
    - intros b [_ Hb]%elem_of_frees. by apply (tiling_elem _ _ _ _ Ht) in Hb as (? & ? & ?). }
  intros r h' [-> ->]. cbv beta iota. rewrite (r_total _ _ _ _ _ _ Hrep).
  apply wp_bind, wp_check; [lia|]. rewrite <- (r_total _ _ _ _ _ _ Hrep).
  apply wp_bind. eapply first_block_ok; [exact Hrep|]. apply wp_bind. eapply wp_mono.
  { apply (count_free_ok bs nx fl fs m k _ Hrep [] bs); [done|lia]. }
  intros c h' [-> ->]. apply wp_check; [lia|done].
Qed.

(** ** Allocation *)

(** The heap after a new block is put at [_next_segment]. *)
Lemma rep_append bs n nx fl fs m k k' :
  rep bs nx fl fs m k -> 0 < n -> nx + n <= nc -> marks_set k k' nx (nx + n) mark_code ->
  let m' := <[addr nx + 8 := 1]> (<[addr nx + 0 := n]> m) in
  rep (bs ++ [Block nx n true]) (nx + n) fl fs m' k' /\ kept bs m m'.
Proof.
  intros [Ht Hn Hh Hm Hb Hc Hf] Hpos Hmx Hk m'.
  assert (forall d, d ∈ bs -> b_end d <= nx /\ b_start d <> nx) as Hne.
  { intros d Hd. apply (tiling_elem _ _ _ _ Ht) in Hd. unfold b_end in *. lia. }
  split.
  - split; [|done|intros d [Hd| ->]%elem_of_snoc..|intros i Hi| |].
    + by apply tiling_join.
    + destruct (Hne d Hd). do 2 (apply header_store; [lia|by left|]). auto.
    + split; simpl; subst m'; [by rewrite store_ne, lookup_insert_eq by lia|by rewrite lookup_insert_eq].
    + eapply marked_set; [done|left; by apply Hne|auto].
    + intros i Hi. simpl in *. rewrite Hk, decide_True by lia. do 2 f_equal. lia.
    + rewrite Hk, decide_False by lia. apply Hb. lia.
    + rewrite frees_app, (frees_cons_used (Block nx n true)), app_nil_r by done.
      by do 2 (apply chain_other; [lia|lia|]).
    + by rewrite frees_app, (frees_cons_used (Block nx n true)), app_nil_r by done.
  - intros d Hd Hu x Hx. assert (addr (b_end d) <= addr nx) by (by apply addr_le, Hne).
    subst m'. rewrite !lookup_insert_ne by lia. done.
Qed.

Definition segments_for (size : Z) : Z := (size + sizeof_HeapBlock + (2 ^ lg - 1)) / 2 ^ lg.

Lemma segments_for_spec nx fl fs m k size :
  0 <= size <= 2 ^ 60 ->
  number_of_segments (st nx fl fs m k) (u64 (size + sizeof_HeapBlock)) = segments_for size /\
  size + sizeof_HeapBlock <= segments_for size * seg < size + sizeof_HeapBlock + seg.
Proof.
  intros Hs. pose proof seg_bounds. unfold number_of_segments, segments_for, sizeof_HeapBlock. heap_simpl.
  rewrite Z.shiftr_div_pow2 by lia.
  rewrite (wrapu_id 64 (size + 16)), (wrapu_id 64 (size + 16 + seg)), wrapu_id
    by (unfold is_u; pow2_norm; lia).
  split; [f_equal; lia|].
  pose proof (Z.div_mod (size + 16 + (seg - 1)) seg ltac:(lia)).
  pose proof (Z.mod_pos_bound (size + 16 + (seg - 1)) seg ltac:(lia)). lia.
Qed.

Section min_block_length.
Context (mb : Z) (Hmb : 1 <= mb <= 2 ^ 32).

(** The block found is shorter than [len + mb]: all of it is taken off the list. *)
Lemma take_whole_ok l s n r nx fl fs m k len (bs := l ++ Block s n false :: r) (bp := last_or 0 (frees l)) :
  rep bs nx fl fs m k -> coalesced bs -> (forall c, c ∈ frees bs -> len <= b_len c -> n <= b_len c) ->
  len <= n < len + mb -> 0 <= s < nc -> 0 <= n <= fs -> fs < 2 ^ 64 ->
  wp ('(best_block, length_) ←
        ((if bp =? 0 then
            check (fl =? addr s) ;; l ← link fl; modify (fun h => set_freelist h l)
          else l ← link (addr s); set_link bp l) ;;
         mret (addr s, n));
      set_used best_block ;;
      modify (fun h => set_free_segments h (u64 (_free_segments h - length_))) ;;
      mret best_block)
    (fun p h' => taken mb len bs nx fs m p h' l (Block s n false) r n) (st nx fl fs m k).
Proof.
  intros Hrep Hco Hmin Hn Hs Hfs Hfmax. pose proof (r_tiling _ _ _ _ _ _ Hrep) as Ht.
  assert (Block s n false ∈ l ++ Block s n false :: r) as Hin by (rewrite elem_of_middle; auto).
  destruct (rep_links _ _ _ _ _ _ _ _ Hrep eq_refl) as (_ & Hlink & _). cbn [b_start] in Hlink.
  destruct (rep_prev _ _ _ _ _ _ _ _ Hrep eq_refl)
    as [(El & Ep & ->)|(l1 & a & l2 & -> & Ha & El2 & Ep & Has & Hne & Hla)];
    subst bp; rewrite Ep; cbn [b_start] in *.
  - do 3 apply wp_bind. apply wp_check; [apply Z.eqb_refl|].
    apply wp_bind, (wp_link _ _ _ _ _ _ _ _ Hs Hlink). apply wp_modify. heap_simpl. apply wp_ret.
    apply wp_bind, wp_store; [done|lia|]. apply wp_bind, wp_modify. heap_simpl.
    rewrite wrapu_id by (unfold is_u; lia). apply wp_ret. eapply taken_whole; try (done || lia).
    + by apply take_first in Hrep.
    + eapply (kept_store _ nx _ s n); (done || lia).
  - rewrite addr_nonzero by lia. do 3 apply wp_bind. apply (wp_link _ _ _ _ _ _ _ _ Hs Hlink).
    apply wp_store; [done|lia|]. apply wp_ret. apply wp_bind, wp_store; [done|lia|].
    apply wp_bind, wp_modify. heap_simpl. rewrite wrapu_id by (unfold is_u; lia). apply wp_ret.
    eapply taken_whole; try (done || lia); [by apply take_after|]. destruct a as [sa na ua]. simpl in Ha, Has. subst ua.
    eapply kept_trans; [eapply (kept_store _ nx _ sa na)|eapply (kept_store _ nx _ s n)]; try (done || lia).
    apply elem_of_app. left. apply elem_of_middle. auto.
Qed.

(** The block found is longer: its end is taken. *)
Lemma take_end_ok l s n r nx fl fs m k len (bs := l ++ Block s n false :: r) :
  rep bs nx fl fs m k -> coalesced bs -> (forall c, c ∈ frees bs -> len <= b_len c -> n <= b_len c) ->
  0 < len -> len + mb <= n -> 0 <= s -> s + n <= nc -> n <= fs -> fs < 2 ^ 64 ->
  wp ('(best_block, length_) ←
        (set_length (addr s) (u64 (n - len)) ;;
         best_block ← following_block (addr s);
         let beg := segment_for (st nx fl fs m k) best_block in
         mark_segmap_as_used beg (beg + len) ;;
         set_length best_block len ;;
         mret (best_block, len));
      set_used best_block ;;
      modify (fun h => set_free_segments h (u64 (_free_segments h - length_))) ;;
      mret best_block)
    (fun p h' => taken mb len bs nx fs m p h' l (Block s n false) r len) (st nx fl fs m k).
Proof.
  intros Hrep Hco Hmin Hlen Hn Hs Hsn Hfs Hfmax. pose proof nc_bound.
  rewrite (wrapu_id 64 (n - len)) by (unfold is_u; pow2_norm; lia).
  do 2 apply wp_bind. apply wp_set_length; [lia|].
  apply wp_bind, (wp_following _ _ _ _ _ _ (n - len)); [lia|lia|lia|apply lookup_insert_eq|].
  cbv zeta. rewrite <- (Z.add_0_r (addr (s + (n - len)))), segment_for_addr, Z.add_0_r
    by (pose proof seg_bounds; lia).
  apply wp_bind. eapply wp_mono; [apply mark_used_ok; lia|]. intros [] h' (k' & -> & Hk').
  apply wp_bind, wp_set_length; [lia|]. apply wp_ret. apply wp_bind, wp_store; [lia|lia|].
  apply wp_bind, wp_modify. heap_simpl. rewrite wrapu_id by (unfold is_u; lia).
  apply wp_ret. apply (taken_end _ _ _ _ _ _ _ _ _ _ k); (done || lia).
Qed.

Lemma search_freelist_ok bs nx fl fs m k len :
  rep bs nx fl fs m k -> coalesced bs -> 0 < len <= 2 ^ 60 ->
  wp (search_freelist mb len) (fun p h' =>
    (p = 0 /\ h' = st nx fl fs m k /\ forall c, c ∈ frees bs -> b_len c < len) \/
    exists l b r n, taken mb len bs nx fs m p h' l b r n) (st nx fl fs m k).
Proof.
  intros Hrep Hco Hlen. pose proof (r_tiling _ _ _ _ _ _ Hrep) as Ht. pose proof nc_bound.
  unfold search_freelist. apply wp_bind, wp_get. heap_simpl. apply wp_bind. eapply wp_mono.
  { apply (best_loop_ok nx fl fs m k len _ (frees bs) [] 0 0 0 fl).
    - intros b [_ Hb]%elem_of_frees. destruct (rep_range _ _ _ _ _ _ _ Hrep Hb).
      split; [done|]. by apply (r_headers _ _ _ _ _ _ Hrep).
    - apply (r_chain _ _ _ _ _ _ Hrep).
    - left. split; [done|]. by intros c ?%not_elem_of_nil.
    - apply frees_length in Ht. lia. }
  intros [[bb bp] bl] h' [-> Hbest]. simpl app in Hbest.
  destruct Hbest as [[-> Hno]|(A & b & B & EP & -> & -> & -> & Hbl & Hmin)].
  { apply wp_ret. by left. }
  assert (b_used b = false) as Hu by (apply (elem_of_frees b bs); rewrite EP, elem_of_middle; auto).
  destruct (frees_split bs A b B EP) as (l & r & -> & <- & _). clear B EP.
  assert (b ∈ l ++ b :: r) as Hin by (rewrite elem_of_middle; auto).
  destruct (rep_range _ _ _ _ _ _ _ Hrep Hin) as (Hs & Hn & Hsn & Hnx).
  destruct (rep_links _ _ _ _ _ _ _ _ Hrep Hu) as (_ & Hlink & _).
  pose proof (rep_prev _ _ _ _ _ _ _ _ Hrep Hu) as Hprev.
  destruct b as [s n u]. simpl in Hu. subst u. cbn [b_start b_len] in *.
  rewrite addr_nonzero, (wrapu_id 64 (len + mb)) by (try lia; unfold is_u; pow2_norm; lia).
  apply wp_bind. eapply (wp_mono _ (fun _ h' => h' = st nx fl fs m k)).
  { destruct Hprev as [(_ & -> & ->)|(l1 & a & l2 & -> & Ha & _ & -> & Has & _ & Hla)].
    - apply wp_check; [apply Z.eqb_refl|done].
    - rewrite addr_nonzero by lia. apply wp_bind, (wp_link _ _ _ _ _ _ _ _ Has Hla).
      apply wp_check; [apply Z.eqb_refl|done]. }
  intros _ h' ->. pose proof (total_frees _ _ _ Ht) as Htot.
  rewrite <- (r_total _ _ _ _ _ _ Hrep) in Htot.
  assert (n <= fs) as Hfs.
  { rewrite (r_total _ _ _ _ _ _ Hrep), frees_app, frees_cons_free, total_app by done. simpl.
    destruct (tiling_split _ _ _ _ _ Ht) as (Htl & _ & Htr & _ & _).
    apply total_frees in Htl, Htr. lia. }
  assert (fs < 2 ^ 64) by (pow2_norm; lia). destruct (Z.ltb_spec n (len + mb)) as [Hex|Hsp].
  - eapply wp_mono; [apply take_whole_ok; (done || lia)|]. intros p h' Hp. right. by exists l, (Block s n false), r, n.
  - eapply wp_mono; [apply take_end_ok; (done || lia)|]. intros p h' Hp. right. by exists l, (Block s n false), r, len.
Qed.

(** A block of [n] segments at segment [s] has come into use. *)
Definition allocated (bs : list block) (m : gmap Z Z) (s n : Z) (h' : CodeHeap) : Prop :=
  exists bs' nx' fl' fs' m' k' U1 U2, h' = st nx' fl' fs' m' k' /\ rep bs' nx' fl' fs' m' k' /\
    coalesced bs' /\ useds bs = U1 ++ U2 /\ useds bs' = U1 ++ Block s n true :: U2 /\ kept bs m m'.

Lemma taken_allocated len bs nx fs m p h' l b r n :
  taken mb len bs nx fs m p h' l b r n -> allocated bs m (b_end b - n) n h'.
Proof.
  intros [-> Hu _ _ _ _ (bs' & fl' & m' & k' & Hh & Hrep & Hco & Hus & Hk)].
  exists bs', nx, fl', (fs - n), m', k', (useds l), (useds r). split_and!; try done.
  by rewrite useds_app, useds_cons_free.
Qed.

(** The blocks in use have their headers. *)
Lemma allocated_header bs m s n h' :
  allocated bs m s n h' -> 0 <= s < nc ->
  exists nx' fl' fs' m' k', h' = st nx' fl' fs' m' k' /\ header m' (Block s n true).
Proof.
  intros (bs' & nx' & fl' & fs' & m' & k' & U1 & U2 & Hh & Hrep & _ & _ & Hus & _) Hs.
  exists nx', fl', fs', m', k'. split; [done|]. apply (r_headers _ _ _ _ _ _ Hrep).
  apply (elem_of_useds _ bs'). rewrite Hus, elem_of_middle. auto.
Qed.

Lemma allocate_ok bs nx fl fs m k size :
  rep bs nx fl fs m k -> coalesced bs -> 0 <= size <= 2 ^ 60 ->
  wp (allocate mb size) (fun p h' =>
    (p = 0 /\ h' = st nx fl fs m k /\ nc < nx + Z.max (segments_for size) mb /\
     forall c, c ∈ frees bs -> b_len c < segments_for size) \/
    exists s n, p = allocated_space (addr s) /\ 0 <= s /\ segments_for size <= n /\
      allocated bs m s n h') (st nx fl fs m k).
Proof.
  intros Hrep Hco Hsize. destruct (segments_for_spec nx fl fs m k size Hsize) as [Eseg Hseg].
  pose proof seg_bounds. pose proof nc_bound. pose proof (r_next _ _ _ _ _ _ Hrep).
  pose proof (tiling_le _ _ _ (r_tiling _ _ _ _ _ _ Hrep)).
  unfold allocate. apply wp_bind, wp_get. cbv zeta. rewrite Eseg. heap_simpl.
  set (len := segments_for size) in *.
  assert (0 < len <= 2 ^ 60) as Hlen by (unfold sizeof_HeapBlock in Hseg; split; nia).
  unfold sizeof_HeapBlock in Hseg.
  apply wp_bind, wp_check; [unfold sizeof_FreeBlock; rewrite wrapu_id by (unfold is_u; pow2_norm; lia); nia|].
  apply wp_bind. eapply verify_holds; [exact Hrep|].
  apply wp_bind. eapply wp_mono; [by apply search_freelist_ok|].
  intros p h' [(-> & -> & Hno)|(l & b & r & n & Htk)]; cbn [negb Z.eqb].
  - set (len' := if len <? mb then mb else len).
    assert (len' = Z.max len mb) as Hlen' by (subst len'; destruct (Z.ltb_spec len mb); lia).
    rewrite (wrapu_id 64 (nx + len')) by (unfold is_u; pow2_norm; lia).
    destruct (Z.leb_spec (nx + len') nc).
    + apply wp_bind. eapply wp_mono; [apply mark_used_ok; lia|]. intros [] h' (k' & -> & Hk').
      rewrite block_at_addr by lia. do 2 apply wp_bind. apply wp_set_length; [lia|].
      apply wp_store; [lia|lia|]. apply wp_bind, wp_modify. heap_simpl.
      rewrite (wrapu_id 64 (nx + len')) by (unfold is_u; pow2_norm; lia). apply wp_ret.
      right. exists nx, len'. split_and!; [done|lia|lia|].
      destruct (rep_append bs len' nx fl fs m k k') as [Hrep' Hk]; [done|lia|lia|done|].
      eexists _, _, _, _, _, _, (useds bs), []. split; [reflexivity|]. split; [exact Hrep'|].
      split_and!; [by apply coalesced_used|by rewrite app_nil_r|by rewrite useds_app|done].
    + apply wp_ret. left. split_and!; try done. lia.
  - pose proof (t_size _ _ _ _ _ _ _ _ _ _ _ _ Htk). pose proof (t_within _ _ _ _ _ _ _ _ _ _ _ _ Htk).
    pose proof (taken_allocated _ _ _ _ _ _ _ _ _ _ _ Htk) as Hal.
    rewrite (t_addr _ _ _ _ _ _ _ _ _ _ _ _ Htk).
    assert (b ∈ bs) as Hin by (rewrite (t_split _ _ _ _ _ _ _ _ _ _ _ _ Htk), elem_of_middle; auto).
    destruct (rep_range _ _ _ _ _ _ _ Hrep Hin) as (? & ? & ? & ?). unfold b_end in *.
    destruct (allocated_header _ _ _ _ _ Hal) as (nx' & fl' & fs' & m' & k' & -> & Hl & Hu); [lia|].
    rewrite addr_nonzero by lia. cbn [negb].
    apply wp_bind, (wp_length _ _ _ _ _ _ n); [lia|done|].
    apply wp_bind, wp_check; [rewrite wrapu_id by (unfold is_u; pow2_norm; lia); lia|].
    apply wp_bind, (wp_free _ _ _ _ _ _ true); [lia|done|]. apply wp_bind, wp_check; [done|].
    apply wp_ret. right. exists (b_start b + b_len b - n), n. split_and!; (done || lia).
Qed.

End min_block_length.

(** ** Iteration *)

Definition start_addr (l : list block) : Z :=
  match l with [] => 0 | b :: _ => allocated_space (addr (b_start b)) end.

Lemma next_free_ok l r nx fl fs m k :
  rep (l ++ r) nx fl fs m k -> coalesced (l ++ r) ->
  wp (next_free (head_addr r)) (fun p h' => h' = st nx fl fs m k /\ p = start_addr (useds r))
    (st nx fl fs m k).
Proof.
  intros Hrep Hco. unfold next_free. destruct r as [|b r].
  { apply wp_bind, wp_ret, wp_bind, wp_ret, wp_bind, wp_ret, wp_bind, wp_check; [done|]. by apply wp_ret. }
  assert (forall c, c ∈ l ++ b :: r -> 0 <= b_start c < nc /\
    m !! (addr (b_start c) + 8) = Some (if b_used c then 1 else 0)) as Hc.
  { intros c Hc. split; [by apply (rep_range _ _ _ _ _ _ _ Hrep Hc)|by apply (r_headers _ _ _ _ _ _ Hrep)]. }
  simpl head_addr. destruct (Hc b) as [Hb Hu]; [apply elem_of_middle; auto|].
  rewrite addr_nonzero by lia. apply wp_bind, (wp_free _ _ _ _ _ _ (b_used b)); [done..|].
  destruct (b_used b) eqn:Ebu; cbn [negb].
  - apply wp_bind, wp_ret. rewrite addr_nonzero by lia.
    apply wp_bind, (wp_free _ _ _ _ _ _ true); [done..|]. apply wp_bind, wp_check; [done|].
    apply wp_ret. by rewrite useds_cons_used.
  - apply wp_bind. eapply next_block_ok; [exact Hrep|]. rewrite useds_cons_free by done.
    destruct r as [|c r]; [by apply wp_bind, wp_ret, wp_bind, wp_check, wp_ret|].
    assert (b_used c = true) as Hcu.
    { apply coalesced_app_inv in Hco as [_ [[?|?] _]]; congruence. }
    destruct (Hc c) as [Hcs Hcu']; [rewrite elem_of_middle, elem_of_cons; auto|]. rewrite Hcu in Hcu'.
    simpl head_addr. rewrite addr_nonzero by lia.
    apply wp_bind, (wp_free _ _ _ _ _ _ true); [done..|]. apply wp_bind, wp_check; [done|].
    apply wp_ret. by rewrite useds_cons_used.
Qed.

Lemma first_used_ok bs nx fl fs m k :
  rep bs nx fl fs m k -> coalesced bs ->
  wp first (fun p h' => h' = st nx fl fs m k /\ p = start_addr (useds bs)) (st nx fl fs m k).
Proof.
  intros Hrep Hco. unfold first. apply wp_bind. eapply first_block_ok; [exact Hrep|].
  by apply (next_free_ok []).
Qed.

Lemma next_ok l b r nx fl fs m k :
  rep (l ++ b :: r) nx fl fs m k -> coalesced (l ++ b :: r) -> b_used b = true ->
  wp (next (allocated_space (addr (b_start b)))) (fun p h' =>
    h' = st nx fl fs m k /\ p = start_addr (useds r)) (st nx fl fs m k).
Proof.
  intros Hrep Hco Hu. pose proof seg_bounds. pose proof (r_tiling _ _ _ _ _ _ Hrep) as Ht.
  assert (b ∈ l ++ b :: r) as Hin by (rewrite elem_of_middle; auto).
  destruct (rep_range _ _ _ _ _ _ _ Hrep Hin) as (Hbs & ? & _).
  assert (inside (allocated_space (addr (b_start b))) b) as Hib.
  { apply inside_segment; [unfold sizeof_HeapBlock; lia|]. unfold b_end. lia. }
  unfold next, block_start. do 2 apply wp_bind. eapply wp_mono; [by apply find_start_ok|].
  intros p h' [-> [(c & Hc & _ & Hic & ->)|[_ Hno]]]; [|by destruct (Hno b)].
  destruct (tiling_disjoint _ _ _ _ _ Ht Hin Hc) as [<-|Hd].
  - apply wp_ret. unfold allocated_space, sizeof_HeapBlock. pose proof (addr_pos (b_start b) ltac:(lia)).
    replace (addr (b_start b) + 16 =? 0) with false by lia.
    replace (addr (b_start b) + 16 - 16) with (addr (b_start b)) by lia.
    apply wp_bind. eapply next_block_ok; [exact Hrep|].
    replace (l ++ b :: r) with ((l ++ [b]) ++ r) in Hrep, Hco by (by rewrite <- app_assoc).
    by apply (next_free_ok (l ++ [b])).
  - exfalso. unfold inside, addr in *. nia.
Qed.

(** [for (p = first(); p != NULL; p = next(p))] *)
Lemma walk_ok bs nx fl fs m k fuel : rep bs nx fl fs m k -> coalesced bs -> forall l r,
  bs = l ++ r -> (List.length (useds r) < fuel)%nat ->
  wp (walk fuel (start_addr (useds r))) (fun ps h' => h' = st nx fl fs m k /\
    ps = (fun b => allocated_space (addr (b_start b))) <$> useds r) (st nx fl fs m k).
Proof.
  intros Hrep Hco. induction fuel as [|fuel IH]; intros l r -> Hf; [lia|]. cbn [walk].
  destruct (useds r) as [|b u] eqn:Eu; [by apply wp_ret|].
  assert (exists r1 r2, r = r1 ++ b :: r2 /\ useds r2 = u) as (r1 & r2 & -> & <-).
  { clear -Eu. induction r as [|c r IHr]; [done|]. destruct (b_used c) eqn:Hc.
    - rewrite useds_cons_used in Eu by done. injection Eu as -> <-. by exists [], r.
    - rewrite useds_cons_free in Eu by done. destruct (IHr Eu) as (r1 & r2 & -> & ?).
      by exists (c :: r1), r2. }
  assert (b ∈ r1 ++ b :: r2 /\ b_used b = true) as [Hin Hu].
  { assert (b ∈ useds (r1 ++ b :: r2)) as Hb by (rewrite Eu; apply elem_of_cons; by left).
    apply elem_of_useds in Hb. tauto. }
  destruct (rep_range (l ++ r1 ++ b :: r2) _ _ _ _ _ b Hrep) as (Hbs & _); [apply elem_of_app; by right|].
  simpl start_addr. pose proof (addr_pos (b_start b) ltac:(lia)).
  unfold allocated_space at 1, sizeof_HeapBlock. replace (addr (b_start b) + 16 =? 0) with false by lia.
  rewrite app_assoc in Hrep, Hco.
  apply wp_bind. eapply wp_mono; [by eapply next_ok|]. intros p h' [-> ->].
  apply wp_bind. eapply wp_mono; [apply (IH ((l ++ r1) ++ [b]) r2); [by rewrite <- !app_assoc|simpl in Hf; lia]|].
  intros ps h' [-> ->]. by apply wp_ret.
Qed.

Lemma all_blocks_ok bs nx fl fs m k :
  rep bs nx fl fs m k -> coalesced bs ->
  all_blocks (st nx fl fs m k) =
    Some ((fun b => allocated_space (addr (b_start b))) <$> useds bs, st nx fl fs m k).
Proof.
  intros Hrep Hco. assert (wp all_blocks (fun ps h' => h' = st nx fl fs m k /\
    ps = (fun b => allocated_space (addr (b_start b))) <$> useds bs) (st nx fl fs m k))
    as (ps & h' & -> & -> & ->); [|done].
  apply wp_bind, wp_get, wp_bind. eapply wp_mono; [by apply first_used_ok|]. intros p h' [-> ->].
  apply (walk_ok bs) with (l := []); try done. heap_simpl.
  pose proof (tiling_length _ _ _ (r_tiling _ _ _ _ _ _ Hrep)).
  pose proof (length_filter (fun b => b_used b = true) bs). unfold useds. lia.
Qed.

(** ** Writes by the owners of blocks *)

Lemma write_ok bs nx fl fs m k b a v :
  rep bs nx fl fs m k -> b ∈ bs -> b_used b = true ->
  addr (b_start b) + 16 <= a -> a + 8 <= addr (b_end b) ->
  wp (store_cell a v) (fun _ h' => h' = st nx fl fs (<[a := v]> m) k /\
    rep bs nx fl fs (<[a := v]> m) k) (st nx fl fs m k).
Proof.
  intros Hrep Hb Hu Ha Ha'. pose proof (r_tiling _ _ _ _ _ _ Hrep) as Ht. pose proof seg_bounds.
  destruct (rep_range _ _ _ _ _ _ _ Hrep Hb) as (? & ? & ? & ?).
  assert (forall c o, c ∈ bs -> (c = b -> o < 16) -> 0 <= o < 32 -> a <> addr (b_start c) + o) as Hne.
  { intros c o Hc Ho Ho'. destruct (tiling_elem _ _ _ _ Ht Hc) as (? & ? & ?).
    destruct (tiling_disjoint _ _ _ _ _ Ht Hb Hc) as [<-|Hd]; [specialize (Ho eq_refl); lia|].
    destruct Hd as [Hd|Hd]; [apply addr_le in Hd; lia|].
    assert (addr (b_start c + 1) <= addr (b_start b)) as Hle by (apply addr_le; unfold b_end in *; lia).
    rewrite addr_add in Hle. lia. }
  exists tt, (st nx fl fs (<[a := v]> m) k). split.
  - unfold store_cell. heap_simpl.
    assert (addr (b_end b) <= high mem) by (rewrite Hhigh; unfold b_end, addr; nia).
    pose proof (addr_range (b_start b) 0 ltac:(lia) ltac:(lia)).
    replace ((low mem <=? a) && (a + 8 <=? high mem)) with true by lia. done.
  - split; [done|]. destruct Hrep as [? ? Hh ? ? Hc ?]. split; try done.
    + intros c Hin. destruct (Hh c Hin). split; rewrite lookup_insert_ne; try done; apply Hne; (done || lia).
    + eapply chain_frame; [|exact Hc]. intros c [Hcu Hin]%elem_of_frees.
      apply lookup_insert_ne, Hne; [done| |lia]. intros ->. congruence.
Qed.
End heap.
(** * Well-formed heaps *)

Definition block_addr (h : CodeHeap) (b : block) : Z :=
  addr (_memory h) (_log2_segment_size h) (b_start b).

(** The fields that allocation does not change. *)
Definition static (h : CodeHeap) :=
  (_memory h, _segmap h, _number_of_committed_segments h, _number_of_reserved_segments h,
   _segment_size h, _log2_segment_size h).

Record extents (h : CodeHeap) : Prop := {
  e_log2 : 5 <= _log2_segment_size h <= 30;
  e_size : _segment_size h = 2 ^ _log2_segment_size h;
  e_low : 0 < low (_memory h);
  e_high : high (_memory h) =
    low (_memory h) + _number_of_committed_segments h * 2 ^ _log2_segment_size h;
  e_max : high (_memory h) <= 2 ^ 62;
  e_segments : 0 <= _number_of_committed_segments h;
  e_segmap : low (_segmap h) + _number_of_committed_segments h <= high (_segmap h)
}.

(** The heap [h] consists of the blocks [bs]. *)
Record heap_ok (h : CodeHeap) (bs : list block) : Prop := {
  ok_extents : extents h;
  ok_rep : rep (_memory h) (_segmap h) (_number_of_committed_segments h) (_log2_segment_size h)
             bs (_next_segment h) (_freelist h) (_free_segments h) (cells h) (marks h);
  ok_coalesced : coalesced bs
}.

(** The memory of the blocks of [bs] in use is the same. *)
Definition contents_kept (bs : list block) (h h' : CodeHeap) : Prop :=
  forall b, b ∈ bs -> b_used b = true -> forall x,
  block_addr h b <= x < block_addr h b + b_len b * _segment_size h -> cells h' !! x = cells h !! x.

Lemma kept_contents bs h h' :
  extents h -> kept (_memory h) (_log2_segment_size h) bs (cells h) (cells h') ->
  contents_kept bs h h'.
Proof.
  intros [] Hk b Hb Hu x Hx. apply (Hk b Hb Hu). unfold block_addr in Hx.
  rewrite e_size0 in Hx. unfold b_end, addr in *. lia.
Qed.

(** Puts a well-formed heap into the form of the section above. *)
Ltac open_heap h H :=
  destruct H as [He Hrep Hco]; pose proof He as [? Hsz ? ? ? ? ?];
  destruct h as [mem smap nc nr ss lg nx fl fs m k];
  cbn [_memory _segmap _number_of_committed_segments _number_of_reserved_segments _segment_size
       _log2_segment_size _next_segment _freelist _free_segments cells marks] in *;
  subst ss.

(** A heap of four segments of 32 bytes: a free block of two, a block in use. *)
Definition sample_memory : VirtualSpace :=
  mkVirtualSpace 4096 8192 4096 4224 false 4096 4096 4224 4096 4096 8192 4096 4096 4096.
Definition sample_segmap : VirtualSpace :=
  mkVirtualSpace 8192 12288 8192 8196 false 8192 8192 8196 8192 8192 12288 4096 4096 4096.
Definition sample_heap : CodeHeap :=
  mkCodeHeap sample_memory sample_segmap 4 128 32 5 3 4096 2
    (list_to_map [(4096, 2); (4104, 0); (4112, 0); (4160, 1); (4168, 1)])
    (list_to_map [(8192, 0); (8193, 1); (8194, 0); (8195, 255)]).
Definition sample_blocks : list block := [Block 0 2 false; Block 2 1 true].

Lemma sample_heap_ok : heap_ok sample_heap sample_blocks.
Proof.
  split; [split; simpl; lia| |simpl; auto]. split; simpl; try done.
  - intros b [->|[->|[]%not_elem_of_nil]%elem_of_cons]%elem_of_cons; done.
  - intros b Hb i Hi. apply elem_of_cons in Hb as [->|Hb].
    + simpl in Hi. assert (i = 0 \/ i = 1) as [->| ->] by lia; done.
    + apply list_elem_of_singleton in Hb as ->. simpl in Hi. by assert (i = 0) as -> by lia.
  - intros i Hi. by assert (i = 3) as -> by lia.
  - split; [done|]. by exists 0.
Qed.

(** C19: [allocate] returns from every heap that verifies, whatever its blocks.
    When it returns NULL the heap is unchanged, the committed segments after the
    last block are too few and no free block is long enough.  Otherwise the result
    is the space behind the header of a block that was not in use before, is
    disjoint from all others and has room for the request and the header; the
    other blocks in use are the same, with their contents, and the heap is well
    formed: tiled by its blocks, with its free list sorted, complete and merged,
    and the segment map right. *)
Theorem allocate_block h bs mb size :
  heap_ok h bs -> 1 <= mb <= 2 ^ 32 -> 0 <= size <= 2 ^ 60 ->
  exists p h', allocate mb size h = Some (p, h') /\ static h' = static h /\
    ((p = 0 /\ h' = h /\ forall n, size + sizeof_HeapBlock <= n * _segment_size h ->
        (mb <= n -> _number_of_committed_segments h < _next_segment h + n) /\
        (forall b, b ∈ bs -> b_used b = false -> b_len b < n)) \/
     (exists b bs' U1 U2, p = allocated_space (block_addr h b) /\ heap_ok h' bs' /\
        size + sizeof_HeapBlock <= b_len b * _segment_size h /\
        useds bs = U1 ++ U2 /\ useds bs' = U1 ++ b :: U2 /\ contents_kept bs h h' /\
        forall c, c ∈ useds bs -> b_end c <= b_start b \/ b_end b <= b_start c)).
Proof.
  intros Hok Hmb Hsize. open_heap h Hok.
  destruct (allocate_ok mem smap nc nr lg) with (mb := mb) (bs := bs) (nx := nx) (fl := fl)
    (fs := fs) (m := m) (k := k) (size := size) as (p & h' & E & HQ); try done.
  pose proof (seg_bounds mem smap nc lg) as Hseg.
  destruct (segments_for_spec mem smap nc nr lg) with (nx := nx) (fl := fl) (fs := fs) (m := m)
    (k := k) (size := size) as [_ Hs]; try done.
  exists p, h'. split; [done|].
  destruct HQ as [(-> & -> & Hmx & Hno)|(s & n & -> & Hs0 & Hn & Hal)].
  - split; [done|]. left. split_and!; try done. intros n Hn. simpl in Hn.
    assert (segments_for lg size <= n) by (specialize (Hseg ltac:(done)); nia).
    split; [simpl; lia|]. intros b Hb Hu.
    assert (b_len b < segments_for lg size) by (apply Hno, elem_of_frees; done). lia.
  - destruct Hal as (bs' & nx' & fl' & fs' & m' & k' & U1 & U2 & -> & Hrep' & Hco' & EU & EU' & Hk).
    split; [done|]. right. exists (Block s n true), bs', U1, U2. simpl. split_and!; try done.
    + specialize (Hseg ltac:(done)). nia.
    + by apply (kept_contents bs (mkCodeHeap mem smap nc nr (2 ^ lg) lg nx fl fs m k)
        (mkCodeHeap mem smap nc nr (2 ^ lg) lg nx' fl' fs' m' k')).
    + destruct (useds_split _ _ _ _ EU') as (l & r & -> & <- & <-).
      destruct (tiling_split _ _ _ _ _ (r_tiling _ _ _ _ _ _ _ _ _ _ Hrep')) as (_ & _ & _ & Hl & Hr).
      intros c Hc. rewrite EU in Hc. apply elem_of_app in Hc as [[_ Hc]%elem_of_useds|[_ Hc]%elem_of_useds].
      * left. by apply Hl.
      * right. by apply Hr.
Qed.

Lemma allocate_block_witness :
  exists p h' b, allocate 4 40 sample_heap = Some (p, h') /\
    p = allocated_space (block_addr sample_heap b) /\ 40 + 16 <= b_len b * 32.
Proof.
  destruct (allocate_block sample_heap sample_blocks 4 40) as (p & h' & E & _ & H).
  - apply sample_heap_ok.
  - lia.
  - lia.
  - destruct H as [(-> & _ & _)|(b & bs' & U1 & U2 & Hp & _ & Hb & _)].
    + exfalso. vm_compute in E. discriminate E.
    + exists p, h', b. done.
Defined.

(** [deallocate] of the space of any block in use returns: no assertion fails,
    the block is not in use any more, its segments are counted as free, all other
    blocks in use are the same with their contents, and the heap is well formed,
    in particular no two free blocks are neighbours. *)
Theorem deallocate_block h bs b :
  heap_ok h bs -> b ∈ bs -> b_used b = true ->
  exists h' bs' U1 U2, deallocate (allocated_space (block_addr h b)) h = Some (tt, h') /\
    static h' = static h /\ heap_ok h' bs' /\
    useds bs = U1 ++ b :: U2 /\ useds bs' = U1 ++ U2 /\
    _free_segments h' = _free_segments h + b_len b /\
    forall c, c ∈ bs -> b_used c = true -> c <> b -> contents_kept [c] h h'.
Proof.
  intros Hok Hb Hu. open_heap h Hok. apply list_elem_of_split in Hb as (l & r & ->).
  destruct b as [s n u]. simpl in Hu. subst u.
  destruct (deallocate_ok mem smap nc nr lg) with (l := l) (s := s) (n := n) (r := r) (nx := nx)
    (fl := fl) (fs := fs) (m := m) (k := k) as ([] & h' & E & HQ); try done.
  destruct HQ as (bs' & fl' & m' & k' & -> & Hrep' & Hco' & EU & Hk).
  eexists _, bs', (useds l), (useds r). split; [exact E|]. split_and!; try done.
  - by rewrite useds_app, useds_cons_used.
  - intros c Hc Hcu Hne. apply (kept_contents [c]); [done|]. simpl.
    intros d Hd Hdu. apply list_elem_of_singleton in Hd as ->. apply (Hk c); [|done].
    rewrite elem_of_middle in *. tauto.
Qed.

Lemma deallocate_block_witness :
  exists h' bs', deallocate 4176 sample_heap = Some (tt, h') /\ heap_ok h' bs' /\
    useds bs' = [] /\ _free_segments h' = 3.
Proof.
  destruct (deallocate_block sample_heap sample_blocks (Block 2 1 true))
    as (h' & bs' & U1 & U2 & E & _ & Hok & EU & EU' & Hf & _).
  - apply sample_heap_ok.
  - apply elem_of_cons. right. by apply list_elem_of_singleton.
  - done.
  - exists h', bs'. split; [exact E|]. split; [exact Hok|]. split; [|exact Hf].
    change (useds sample_blocks) with [Block 2 1 true] in EU.
    destruct U1 as [|c [|c' U1]]; simplify_eq/=; done.
Defined.

(** In a well-formed heap, [find_start] of any address gives the space of the
    block in use that the address is in, header and all, and NULL when there is
    none; the iteration by [first] and [next] visits exactly the blocks in use, in
    the order of their addresses; and the guarantees of [verify] hold.  None of them
    changes the heap. *)
Theorem find_iterate_verify h bs :
  heap_ok h bs ->
  (forall p, exists q, find_start p h = Some (q, h) /\
    ((exists b, b ∈ bs /\ b_used b = true /\ q = allocated_space (block_addr h b) /\
        block_addr h b <= p < block_addr h b + b_len b * _segment_size h) \/
     (q = 0 /\ forall b, b ∈ bs -> b_used b = true ->
        ~ block_addr h b <= p < block_addr h b + b_len b * _segment_size h))) /\
  all_blocks h = Some ((fun b => allocated_space (block_addr h b)) <$> useds bs, h) /\
  verify h = Some (tt, h).
Proof.
  intros Hok. open_heap h Hok. split_and!.
  - intros p. destruct (find_start_ok mem smap nc nr lg) with (bs := bs) (nx := nx) (fl := fl)
      (fs := fs) (m := m) (k := k) (p := p) as (q & h' & E & -> & HQ); try done.
    exists q. split; [done|].
    assert (forall b, inside mem lg p b <->
      addr mem lg (b_start b) <= p < addr mem lg (b_start b) + b_len b * 2 ^ lg) as Hin.
    { intros b. unfold inside, b_end, addr. lia. }
    destruct HQ as [(b & ? & ? & ?%Hin & ?)|[? Hno]]; [left|right]; unfold block_addr; simpl.
    + exists b. done.
    + split; [done|]. intros b Hb Hu. rewrite <- Hin. auto.
  - by apply (all_blocks_ok mem smap nc nr lg).
  - destruct (verify_holds mem smap nc nr lg) with (bs := bs) (nx := nx) (fl := fl) (fs := fs) (m := m)
      (k := k) (Q := fun (_ : unit) h' => h' = mkCodeHeap mem smap nc nr (2 ^ lg) lg nx fl fs m k)
      as ([] & h' & E & ->); done.
Qed.

Lemma find_iterate_verify_witness :
  all_blocks sample_heap = Some ([4176], sample_heap) /\
  exists q, find_start 4190 sample_heap = Some (q, sample_heap).
Proof.
  destruct (find_iterate_verify sample_heap sample_blocks sample_heap_ok) as (H1 & H2 & _).
  split; [exact H2|]. destruct (H1 4190) as (q & E & _). by exists q.
Defined.
