(* ===== verification/CodeHeapGrowth.v ===== *)
(** * A code heap whose spaces have grown

    What [CodeHeap] does with the blocks it has depends neither on the end of its
    memory nor on the number of committed segments.  [grow] replaces both, and the
    segment map by one that begins at the same address; every operation that works on
    existing blocks does after [grow] what it did before.  This is what a failed
    [expand_by] leaves: larger memory, an unchanged segment map. *)

From S2P Require Import Prelude GlobalDefinitions OsMemory ReservedSpace VirtualSpace CodeHeap.
From stdpp Require Import gmap.

Open Scope Z_scope.

Section growth.
Context (memory segmap : VirtualSpace) (committed : Z).

Definition grow (h : CodeHeap) : CodeHeap :=
  mkCodeHeap memory segmap committed (_number_of_reserved_segments h) (_segment_size h)
    (_log2_segment_size h) (_next_segment h) (_freelist h) (_free_segments h) (cells h) (marks h).

Record grows (h : CodeHeap) : Prop := {
  g_memory : low memory = low (_memory h);
  g_end : high (_memory h) <= high memory;
  g_segmap : low segmap = low (_segmap h);
  g_map_end : high (_segmap h) <= high segmap;
  g_segments : _number_of_committed_segments h <= committed
}.

Lemma static_grows h h' : static h' = static h -> grows h -> grows h'.
Proof. unfold static. intros [= E1 E2 E3 _ _ _] []. split; by rewrite ?E1, ?E2, ?E3. Qed.

(** A computation that gives the same result on the grown heap. *)
Definition stable_at {A} (m : heap_m A) (h : CodeHeap) : Prop :=
  grows h -> forall a h', m h = Some (a, h') -> static h' = static h /\ m (grow h) = Some (a, grow h').

Definition stable {A} (m : heap_m A) : Prop := forall h, stable_at m h.

Lemma stable_ret {A} (a : A) : stable (mret a).
Proof. by intros h Hg b h' [= <- <-]. Qed.

Lemma stable_none {A} : stable (fun _ => None : option (A * CodeHeap)).
Proof. by intros h Hg b h'. Qed.

Lemma stable_bind_at {A B} (m : heap_m A) (f : A -> heap_m B) h :
  stable_at m h -> (forall a h', m h = Some (a, h') -> stable_at (f a) h') -> stable_at (m ≫= f) h.
Proof.
  intros Hm Hf Hg b h2. unfold mbind, os_m_bind. destruct (m h) as [[a h1]|] eqn:E; [|done].
  intros E2. destruct (Hm Hg a h1 E) as [Hs ->]. pose proof (static_grows _ _ Hs Hg) as Hg1.
  destruct (Hf a h1 eq_refl Hg1 b h2 E2) as [Hs2 E3]. split; [congruence|done].
Qed.

Lemma stable_bind {A B} (m : heap_m A) (f : A -> heap_m B) :
  stable m -> (forall a, stable (f a)) -> stable (m ≫= f).
Proof. intros Hm Hf h. apply stable_bind_at; [apply Hm|intros; apply Hf]. Qed.

Lemma stable_check b : stable (check b).
Proof. intros h Hg a h'. unfold check. destruct b; [|done]. by intros [= <- <-]. Qed.

Lemma stable_get {B} (f : CodeHeap -> heap_m B) :
  (forall h, grows h -> f (grow h) = f h) -> (forall h, stable (f h)) -> stable (get ≫= f).
Proof.
  intros Hf Hs h Hg b h'. unfold mbind, os_m_bind, get. intros E. rewrite Hf by done. exact (Hs h h Hg b h' E).
Qed.

Lemma stable_modify f :
  (forall h, f (grow h) = grow (f h)) -> (forall h, static (f h) = static h) -> stable (modify f).
Proof. intros Hf Hs h Hg a h' [= <- <-]. unfold modify. by rewrite Hf, Hs. Qed.

Lemma stable_load_cell a : stable (load_cell a).
Proof.
  intros h [Hl Hh _ _ _] v h'. unfold load_cell. simpl. rewrite Hl.
  destruct (Z.leb_spec (low (_memory h)) a); [|done].
  destruct (Z.leb_spec (a + 8) (high (_memory h))); [|done]. rewrite (proj2 (Z.leb_le _ _)) by lia.
  cbn [andb]. destruct (cells h !! a); [|done]. by intros [= <- <-].
Qed.

Lemma stable_store_cell a v : stable (store_cell a v).
Proof.
  intros h [Hl Hh _ _ _] u h'. unfold store_cell. simpl. rewrite Hl.
  destruct (Z.leb_spec (low (_memory h)) a); [|done].
  destruct (Z.leb_spec (a + 8) (high (_memory h))); [|done]. rewrite (proj2 (Z.leb_le _ _)) by lia.
  cbn [andb]. by intros [= <- <-].
Qed.

Lemma map_contains h p :
  grows h -> VirtualSpace.contains (_segmap h) p = true -> VirtualSpace.contains segmap p = true.
Proof. intros [_ _ Hl Hh _]. unfold VirtualSpace.contains. rewrite Hl. lia. Qed.

Lemma stable_load_mark p : stable (load_mark p).
Proof.
  intros h Hg v h'. unfold load_mark. destruct (VirtualSpace.contains _ p) eqn:E; [|done].
  simpl. rewrite (map_contains h p Hg E). destruct (marks h !! p); [|done]. by intros [= <- <-].
Qed.

Lemma stable_store_mark p v : stable (store_mark p v).
Proof.
  intros h Hg u h'. unfold store_mark. destruct (VirtualSpace.contains _ p) eqn:E; [|done].
  simpl. rewrite (map_contains h p Hg E). by intros [= <- <-].
Qed.

Create HintDb stable discriminated.
#[local] Hint Resolve stable_ret stable_none stable_check stable_load_cell stable_store_cell
  stable_load_mark stable_store_mark : stable.

(** Goes through a computation; what it reads of the heap is the same after [grow]. *)
Ltac same_reads :=
  let h := fresh "h" in let Hg := fresh "Hg" in
  intros h Hg; unfold block_at, segment_for; cbn [_memory _segmap _freelist _next_segment
    _free_segments _segment_size _log2_segment_size grow];
  rewrite ?(g_memory h Hg), ?(g_segmap h Hg); reflexivity.

Ltac stable_steps :=
  repeat first
    [ progress cbv zeta
    | solve [eauto with stable]
    | progress intros
    | match goal with
      | |- stable (get ≫= _) => apply stable_get; [same_reads|]
      | |- stable (_ ≫= _) => apply stable_bind
      | |- stable (modify _) => apply stable_modify; done
      | |- stable (if ?b then _ else _) => destruct b
      | |- stable (let '(_, _) := ?p in _) => destruct p
      | |- stable (match ?p with (_, _) => _ end) => destruct p
      end ].

Lemma stable_mark_used_loop fuel : forall p q i, stable (mark_used_loop fuel p q i).
Proof. induction fuel as [|fuel IH]; intros p q i; cbn [mark_used_loop]; stable_steps. Qed.

Lemma stable_mark_used beg end_ : stable (mark_segmap_as_used beg end_).
Proof.
  intros h Hg a h'. unfold mark_segmap_as_used, mbind, os_m_bind, get, check. simpl.
  destruct (_ && _) eqn:E1; [|done]. destruct ((beg <? end_) && _) eqn:E2; [|done].
  pose proof (g_segments h Hg). rewrite (g_segmap h Hg).
  replace ((0 <=? beg) && (beg <? committed)) with true by lia.
  replace ((beg <? end_) && (end_ <=? committed)) with true by lia.
  intros E. exact (stable_mark_used_loop (S (Z.to_nat (end_ - beg))) (low (_segmap h) + beg)
    (low (_segmap h) + end_) 0 h Hg a h' E).
Qed.

#[local] Hint Resolve stable_mark_used : stable.

Lemma stable_free b : stable (free b).
Proof. unfold free. stable_steps. Qed.

Lemma stable_following b : stable (following_block b).
Proof. unfold following_block, length. stable_steps. Qed.

#[local] Hint Resolve stable_free stable_following : stable.

Lemma stable_merge_right a : stable (merge_right a).
Proof. unfold merge_right, length, link, set_length, set_link. stable_steps. Qed.

#[local] Hint Resolve stable_merge_right : stable.

Lemma stable_scan_loop fuel b : forall prev cur, stable (scan_loop fuel b prev cur).
Proof. induction fuel as [|fuel IH]; intros prev cur; cbn [scan_loop]; unfold link; stable_steps. Qed.

#[local] Hint Resolve stable_scan_loop : stable.

Lemma stable_add_to_freelist b : stable (add_to_freelist b).
Proof.
  unfold add_to_freelist, insert_after, length, set_free, set_link, link. stable_steps.
Qed.

Lemma stable_next_block b : stable (next_block b).
Proof. unfold next_block, length. stable_steps. Qed.

Lemma stable_first_block : stable first_block.
Proof. unfold first_block. stable_steps. Qed.

#[local] Hint Resolve stable_add_to_freelist stable_next_block stable_first_block : stable.

Lemma stable_verify_freelist fuel : forall b len count, stable (verify_freelist fuel b len count).
Proof.
  induction fuel as [|fuel IH]; intros b len count; cbn [verify_freelist]; unfold length, link; stable_steps.
Qed.

Lemma stable_count_free fuel : forall b count, stable (count_free fuel b count).
Proof. induction fuel as [|fuel IH]; intros b count; cbn [count_free]; stable_steps. Qed.

#[local] Hint Resolve stable_verify_freelist stable_count_free : stable.

Lemma stable_verify : stable verify.
Proof. unfold verify. stable_steps. Qed.

Lemma stable_find_loop fuel b : forall i, stable (find_loop fuel b i).
Proof. induction fuel as [|fuel IH]; intros i; cbn [find_loop]; stable_steps. Qed.

#[local] Hint Resolve stable_find_loop : stable.

(** Looking for the block of an address of the old memory. *)
Lemma find_start_grow p h : contains h p = true -> stable_at (find_start p) h.
Proof.
  intros Hc Hg a h'. pose proof Hg as [Hl Hh Hs _ _].
  assert (contains (grow h) p = true) as Hc' by (unfold contains in *; simpl; rewrite Hl; lia).
  unfold find_start, mbind at 1, os_m_bind at 1, get. rewrite Hc.
  unfold mbind at 4, os_m_bind at 4. rewrite Hc'. cbn [negb].
  unfold segment_for, block_at. simpl. rewrite Hl, Hs.
  match goal with |- ?m h = _ -> _ => assert (stable m) as Hst end.
  { stable_steps. }
  intros E. exact (Hst h Hg a h' E).
Qed.

Lemma deallocate_grow p h : contains h p = true -> stable_at (deallocate p) h.
Proof.
  intros Hc. apply stable_bind_at; [by apply find_start_grow|]. intros s h' _.
  match goal with |- stable_at ?m h' => assert (stable m) as Hst by stable_steps end. apply Hst.
Qed.

Lemma stable_next_free b : stable (next_free b).
Proof. unfold next_free. stable_steps. Qed.

#[local] Hint Resolve stable_next_free : stable.

Lemma next_grow p h : contains h p = true -> stable_at (next p) h.
Proof.
  intros Hc. apply stable_bind_at.
  - apply stable_bind_at; [by apply find_start_grow|]. intros b h' _. apply stable_ret.
  - intros b h' _. match goal with |- stable_at ?m h' => assert (stable m) as Hst by stable_steps end.
    apply Hst.
Qed.

(** The walk over the blocks of the old memory. *)
Lemma walk_grow fuel : forall p h ps h', grows h -> walk fuel p h = Some (ps, h') ->
  Forall (fun p => contains h p = true) ps -> static h' = static h /\ walk fuel p (grow h) = Some (ps, grow h').
Proof.
  induction fuel as [|fuel IH]; intros p h ps h' Hg E Hps; [done|]. cbn [walk] in *.
  destruct (p =? 0); [by injection E as <- <-|]. unfold mbind, os_m_bind in E |- *.
  destruct (next p h) as [[q h1]|] eqn:E1; [|done].
  destruct (walk fuel q h1) as [[ps1 h2]|] eqn:E2; [|done]. injection E as <- <-.
  inversion_clear Hps as [|? ? Hp Hps1].
  destruct (next_grow p h Hp Hg q h1 E1) as [Hs ->].
  destruct (IH q h1 ps1 h2) as [Hs2 ->]; [by eapply static_grows|done| |split; [congruence|done]].
  eapply Forall_impl; [exact Hps1|]. intros x. unfold contains, static in *. by injection Hs as -> _.
Qed.

Lemma all_blocks_grow h ps h' : grows h -> all_blocks h = Some (ps, h') ->
  Forall (fun p => contains h p = true) ps -> all_blocks (grow h) = Some (ps, grow h').
Proof.
  intros Hg. unfold all_blocks, first, mbind, os_m_bind, get. intros E Hps.
  assert (stable (first_block ≫= next_free)) as Hst by stable_steps.
  unfold stable, stable_at, mbind, os_m_bind in Hst.
  destruct (first_block h) as [[b h1]|] eqn:E1; [|done].
  destruct (next_free b h1) as [[p h2]|] eqn:E2; [|done]. specialize (Hst h Hg p h2).
  rewrite E1, E2 in Hst. destruct (Hst eq_refl) as [Hs ->]. simpl.
  destruct (walk_grow _ p h2 ps h' (static_grows _ _ Hs Hg) E) as [_ Hw]; [|exact Hw].
  eapply Forall_impl; [exact Hps|]. intros x. unfold contains, static in *. by injection Hs as -> _.
Qed.
End growth.

(** ** Segments without an entry in the segment map *)

(** Marking a range whose last entry is not in the segment map is stopped. *)
Lemma mark_used_loop_outside q fuel : forall p i h,
  p < q -> VirtualSpace.contains (_segmap h) (q - 1) = false -> mark_used_loop fuel p q i h = None.
Proof.
  induction fuel as [|fuel IH]; intros p i h Hp Hq; [done|]. cbn [mark_used_loop].
  rewrite (proj2 (Z.ltb_lt p q) Hp). unfold mbind, os_m_bind, store_mark.
  destruct (VirtualSpace.contains (_segmap h) p) eqn:E; [|done].
  apply IH; [|done]. destruct (Z.eq_dec p (q - 1)) as [->|]; [congruence|lia].
Qed.

Lemma mark_used_outside beg end_ h :
  beg < end_ -> VirtualSpace.contains (_segmap h) (low (_segmap h) + (end_ - 1)) = false ->
  mark_segmap_as_used beg end_ h = None.
Proof.
  intros Hb Hc. unfold mark_segmap_as_used, mbind at 1, os_m_bind at 1, get.
  unfold mbind, os_m_bind, check. repeat (destruct (_ && _); [|done]).
  apply mark_used_loop_outside; [lia|]. by rewrite <- Z.add_sub_assoc.
Qed.

(** A request that has to take such a segment. *)
Lemma allocate_outside mb size h :
  let n := Z.max (number_of_segments h (u64 (size + sizeof_HeapBlock))) mb in
  0 <= _next_segment h -> 0 < n -> _number_of_committed_segments h <= 2 ^ 62 ->
  _next_segment h + n <= _number_of_committed_segments h ->
  VirtualSpace.contains (_segmap h) (low (_segmap h) + (_next_segment h + n - 1)) = false ->
  verify h = Some (tt, h) ->
  search_freelist mb (number_of_segments h (u64 (size + sizeof_HeapBlock))) h = Some (0, h) ->
  allocate mb size h = None.
Proof.
  intros n Hnx Hn Hnc Hfit Hout Hv Hs. unfold allocate, mbind, os_m_bind, get, check. cbv zeta.
  destruct (sizeof_FreeBlock <=? _); [|done]. rewrite Hv, Hs. cbn [negb Z.eqb].
  replace (if _ <? mb then _ else _) with n by (subst n; destruct (Z.ltb_spec
    (number_of_segments h (u64 (size + sizeof_HeapBlock))) mb); lia).
  rewrite (wrapu_id 64 (_ + _)) by (unfold is_u; pow2_norm; lia).
  rewrite (proj2 (Z.leb_le _ _) Hfit). by rewrite mark_used_outside by (done || lia).
Qed.
