(* ===== verification/CodeCache.v ===== *)
(** * The code cache

    Model of the allocation part of code/codeCache.cpp: [CodeCache::allocate], which
    expands the code heap until a request fits, [free], [commit] and the walks over
    the blobs, on top of [CodeHeap.v].  What the code blobs hold is not modelled;
    [has_dependencies] stands for the test of a blob being an nmethod with
    dependencies and [is_alive] for [CodeBlob::is_alive].  The lock assertions, the
    flush of the instruction cache and printing are left out. *)

From S2P Require Import Prelude GlobalDefinitions OsMemory ReservedSpace VirtualSpace CodeHeap CodeHeapGrowth.
From stdpp Require Import gmap.

Open Scope Z_scope.

Record CodeCache := mkCodeCache {
  _heap : CodeHeap;
  _number_of_blobs : Z;
  _number_of_nmethods_with_dependencies : Z
}.

Definition set_heap (c : CodeCache) (h : CodeHeap) : CodeCache :=
  mkCodeCache h (_number_of_blobs c) (_number_of_nmethods_with_dependencies c).
Definition set_number_of_blobs (c : CodeCache) (n : Z) : CodeCache :=
  mkCodeCache (_heap c) n (_number_of_nmethods_with_dependencies c).
Definition set_number_of_dependent (c : CodeCache) (n : Z) : CodeCache :=
  mkCodeCache (_heap c) (_number_of_blobs c) n.

Section code_cache.
Context {W : Type} `{OS W}.
Variables AlwaysPreTouch VerifyCodeCacheOften : bool.
Variables CodeCacheMinBlockLength CodeCacheExpansionSize : Z.
Variables has_dependencies is_alive : Z -> bool.

Abbreviation cache_m := (os_m (CodeCache * W)).

(** Runs an operation of the code heap. *)
Definition on_code_heap {A : Type} (m : os_m (CodeHeap * W) A) : cache_m A := fun '(c, w) =>
  match m (_heap c, w) with Some (a, (h, w)) => Some (a, (set_heap c h, w)) | None => None end.

Definition modify_cache (f : CodeCache -> CodeCache) : cache_m unit := fun '(c, w) =>
  Some (tt, (f c, w)).

Definition get_cache : cache_m CodeCache := fun '(c, w) => Some (c, (c, w)).

Definition verify_if_often : cache_m unit :=
  if VerifyCodeCacheOften then on_code_heap (on_heap verify) else mret tt.

(** The loop of [allocate]: the blob, or NULL when the heap cannot be expanded. *)
Fixpoint allocate_loop (fuel : nat) (size : Z) : cache_m Z :=
  match fuel with
  | O => fun _ => None
  | S fuel =>
      cb ← on_code_heap (on_heap (CodeHeap.allocate CodeCacheMinBlockLength size));
      if negb (cb =? 0) then mret cb
      else
        ok ← on_code_heap (CodeHeap.expand_by AlwaysPreTouch CodeCacheExpansionSize);
        if negb ok then mret 0 else allocate_loop fuel size
  end.

Definition cache_allocate (fuel : nat) (size : Z) : cache_m Z :=
  check (size >=? 0) ;;
  modify_cache (fun c => set_number_of_blobs c (s32 (_number_of_blobs c + 1))) ;;
  cb ← allocate_loop fuel size;
  if cb =? 0 then mret 0
  else verify_if_often ;; mret cb.

Definition cache_free (cb : Z) : cache_m unit :=
  verify_if_often ;;
  (if has_dependencies cb
   then modify_cache (fun c =>
     set_number_of_dependent c (s32 (_number_of_nmethods_with_dependencies c - 1)))
   else mret tt) ;;
  modify_cache (fun c => set_number_of_blobs c (s32 (_number_of_blobs c - 1))) ;;
  on_code_heap (on_heap (deallocate cb)) ;;
  verify_if_often ;;
  c ← get_cache; check (_number_of_blobs c >=? 0).

Definition cache_commit (cb : Z) : cache_m unit :=
  if has_dependencies cb
  then modify_cache (fun c =>
    set_number_of_dependent c (s32 (_number_of_nmethods_with_dependencies c + 1)))
  else mret tt.

(** [alive(cb)]: the first blob that is alive from [cb] on. *)
Fixpoint alive (fuel : nat) (cb : Z) : heap_m Z :=
  match fuel with
  | O => fun _ => None
  | S fuel =>
      if negb (cb =? 0) && negb (is_alive cb) then cb ← CodeHeap.next cb; alive fuel cb
      else mret cb
  end.

(** [FOR_ALL_ALIVE_BLOBS], with the blobs visited. *)
Fixpoint alive_loop (fuel : nat) (cb : Z) : heap_m (list Z) :=
  match fuel with
  | O => fun _ => None
  | S fuel' =>
      if cb =? 0 then mret []
      else
        nx ← CodeHeap.next cb; nx ← alive fuel nx;
        cbs ← alive_loop fuel' nx; mret (cb :: cbs)
  end.

Definition alive_blobs : heap_m (list Z) :=
  h ← get;
  let fuel := S (Z.to_nat (_next_segment h)) in
  cb ← CodeHeap.first; cb ← alive fuel cb; alive_loop fuel cb.
End code_cache.

(** * Expanding a heap *)

Section expansion.
Set Default Proof Using "Type*".
Context {W : Type} {os : OS W} {laws : OSLaws W} (AlwaysPreTouch : bool).

(** How the spaces of a heap belong together. *)
Record spaces_ok (h : CodeHeap) (w : W) : Prop := {
  s_memory : exists k, inv (_memory h) k w;
  s_segmap : exists k, inv (_segmap h) k w;
  s_log2 : _log2_segment_size h <= page_shift;
  s_page : (2 ^ page_shift | high (_memory h) - low (_memory h));
  s_reserved : _number_of_reserved_segments h * 2 ^ _log2_segment_size h =
    high_boundary (_memory h) - low_boundary (_memory h);
  s_segmap_size : high (_segmap h) - low (_segmap h) =
    (_number_of_committed_segments h + (2 ^ page_shift - 1)) / 2 ^ page_shift * 2 ^ page_shift
}.

Lemma wp_on_heap {A} (m : heap_m A) Q h (w : W) :
  wp m (fun a h' => Q a (h', w)) h -> wp (on_heap m) Q (h, w).
Proof.
  intros (a & h' & E & HQ). exists a, (h', w). split; [|done]. unfold on_heap. by rewrite E.
Qed.

Lemma wp_on_os {A} (m : os_m W A) Q (h : CodeHeap) w :
  wp m (fun a w' => Q a (h, w')) w -> wp (on_os m) Q (h, w).
Proof.
  intros (a & w' & E & HQ). exists a, (h, w'). split; [|done]. unfold on_os. by rewrite E.
Qed.

Lemma inv_mono vs k (w w' : W) :
  (forall x, committed w x -> committed w' x) -> inv vs k w -> inv vs k w'.
Proof.
  intros Hm (Hg & Hh & Hs). split_and!; try (done || lia). destruct (special vs); [auto|].
  destruct Hs as [Hr Hc]. split; [done|]. intros x Hx. auto.
Qed.

Definition page_up (n : Z) : Z := (n + (2 ^ page_shift - 1)) / 2 ^ page_shift * 2 ^ page_shift.

Lemma page_bounds : 8 <= 2 ^ page_shift <= 2 ^ 30.
Proof.
  pose proof page_shift_range. split; [change 8 with (2 ^ 3)|]; apply Z.pow_le_mono_r; lia.
Qed.

Lemma page_up_spec n : n <= page_up n < n + 2 ^ page_shift /\ (2 ^ page_shift | page_up n).
Proof.
  pose proof page_bounds. apply round_up_bounds. lia.
Qed.

Lemma page_up_id n : (2 ^ page_shift | n) -> page_up n = n.
Proof.
  intros [q ->]. pose proof page_bounds. unfold page_up.
  rewrite Z.div_add_l, (Z.div_small (2 ^ page_shift - 1)) by lia. lia.
Qed.

Lemma page_up_mono n m : n <= m -> page_up n <= page_up m.
Proof.
  intros. pose proof page_bounds. unfold page_up. apply Z.mul_le_mono_nonneg_r; [lia|].
  apply Z.div_le_mono; lia.
Qed.

Lemma land_u64_mask x y : is_u 64 x -> x &&& u64 y = x &&& y.
Proof.
  intros Hx. unfold wrapu. rewrite <- Z.land_ones by lia.
  rewrite (Z.land_comm y), Z.land_assoc, Z.land_ones by lia. f_equal. by apply wrapu_id.
Qed.

Lemma wp_align_to_page_size n Q (s : CodeHeap * W) :
  0 <= n <= 2 ^ 63 -> Q (page_up n) s -> wp (align_to_page_size n) Q s.
Proof.
  intros Hn HQ. pose proof page_bounds. pose proof page_shift_range.
  unfold align_to_page_size. rewrite vm_page_size_eq. cbv zeta.
  apply wp_bind, wp_check; [apply is_power_of_2_pow; lia|]. apply wp_ret.
  rewrite (wrapu_id 64 (n + 2 ^ page_shift)), (wrapu_id 64 (_ - 1)) by (unfold is_u; pow2_norm; lia).
  rewrite land_u64_mask, land_lnot_low by (unfold is_u; pow2_norm; lia).
  unfold page_up in HQ. by replace (n + 2 ^ page_shift - 1) with (n + (2 ^ page_shift - 1)) by lia.
Qed.

(** What a heap represents depends on where its spaces begin. *)
Lemma rep_spaces mem mem' smap smap' nc lg bs nx fl fs m k :
  low mem' = low mem -> low smap' = low smap ->
  rep mem smap nc lg bs nx fl fs m k -> rep mem' smap' nc lg bs nx fl fs m k.
Proof.
  intros Em Es [Ht Hn Hh Hm Hb Hc Hf].
  assert (forall s, addr mem' lg s = addr mem lg s) as Ea by (intros s; unfold addr; by rewrite Em).
  split; try done.
  - intros b Hin. destruct (Hh b Hin). unfold header. by rewrite Ea.
  - intros b Hin i Hi. rewrite Es. by apply Hm.
  - intros i Hi. rewrite Es. by apply Hb.
  - revert Hc. generalize (frees bs) fl. intros l. induction l as [|b l IH]; intros p; simpl; [done|].
    rewrite Ea. intros (-> & n & E & Hc). split; [done|]. exists n. auto.
Qed.

(** New segments at the end. *)
Lemma rep_grow mem smap nc nc' lg bs nx fl fs m k k' :
  rep mem smap nc lg bs nx fl fs m k -> nc <= nc' ->
  marks_set smap k k' nc nc' (fun _ => 255) ->
  rep mem smap nc' lg bs nx fl fs m k'.
Proof.
  intros [Ht Hn Hh Hm Hb Hc Hf] Hle Hk. split; try done; [lia| |].
  - intros b Hin i Hi. apply (tiling_elem _ _ _ _ Ht) in Hin as Hr. unfold b_end in Hr.
    rewrite Hk, decide_False by lia. by apply Hm.
  - intros i Hi. rewrite Hk. case_decide; [done|]. apply Hb. lia.
Qed.

Lemma number_of_segments_exact mem smap nc nr lg nx fl fs m k n :
  0 <= lg <= 30 -> 0 <= n -> n * 2 ^ lg <= 2 ^ 62 ->
  number_of_segments (mkCodeHeap mem smap nc nr (2 ^ lg) lg nx fl fs m k) (n * 2 ^ lg) = n.
Proof.
  intros Hl Hn Hmax. pose proof (pow2_bounds lg ltac:(lia)).
  unfold number_of_segments. heap_simpl. rewrite Z.shiftr_div_pow2 by lia.
  assert (2 ^ lg <= 2 ^ 30) by (apply Z.pow_le_mono_r; lia).
  rewrite (wrapu_id 64 (_ + _)), wrapu_id by (unfold is_u; pow2_norm; nia).
  rewrite <- Z.add_sub_assoc, Z.div_add_l, Z.div_small by lia. lia.
Qed.

(** The heap is the same but for its spaces and the number of committed segments. *)
Definition respaced (h h' : CodeHeap) : Prop :=
  low (_memory h') = low (_memory h) /\ low (_segmap h') = low (_segmap h) /\
  _number_of_reserved_segments h' = _number_of_reserved_segments h /\
  _segment_size h' = _segment_size h /\ _log2_segment_size h' = _log2_segment_size h /\
  _next_segment h' = _next_segment h /\ _freelist h' = _freelist h /\
  _free_segments h' = _free_segments h /\ cells h' = cells h.

(** Expanding a space that is the memory of a heap, or its segment map. *)
Lemma expand_space_ok vs k w n Q :
  inv vs k w -> 0 <= n ->
  (forall (ok : bool) vs' w', inv vs' k w' -> low vs' = low vs -> low_boundary vs' = low_boundary vs ->
     high_boundary vs' = high_boundary vs -> high vs' = (if ok then high vs + n else high vs) ->
     (forall x, committed w x -> committed w' x) -> Q (ok, vs') w') ->
  wp (VirtualSpace.expand_by AlwaysPreTouch vs n false) Q w.
Proof.
  intros Hi Hn HQ. eapply wp_mono; [by apply expand_by_ok|].
  intros [ok vs'] w' (Hi' & (Hlb & Hhb & _) & Hh & _ & Hm). apply HQ; try done.
  destruct Hi as ([] & _), Hi' as ([] & _). congruence.
Qed.

(** A page more of entries is needed only when the entries are full. *)
Lemma page_up_lt n m : page_up n < page_up m -> page_up n < m.
Proof.
  intros Hlt. destruct (page_up_spec n) as [_ [q Hq]], (page_up_spec m) as [Hm [r Hr]].
  pose proof page_bounds. rewrite Hq, Hr in *. apply Z.mul_lt_mono_pos_r in Hlt; [|lia].
  assert ((q + 1) * 2 ^ page_shift <= r * 2 ^ page_shift) by (apply Z.mul_le_mono_nonneg_r; lia). lia.
Qed.

(** What an expansion leaves when the segment map could not follow the memory: the
    committed segments are more than the segment map has entries. *)
Definition overcommitted (h h' : CodeHeap) : Prop :=
  exists mem smap nc, h' = grow mem smap nc h /\ grows mem smap nc h /\
    _number_of_committed_segments h < nc /\ nc <= 2 ^ 62 /\ committed_size smap < nc /\
    high smap - low smap = committed_size smap.

(** The segment map follows the segments: the part of [expand_by] behind the memory. *)
Lemma expand_segmap_ok mem smap nc nc' nr lg nx fl fs m k k2 w (Q : bool -> CodeHeap * W -> Prop)
  (heap := fun smap k => mkCodeHeap mem smap nc' nr (2 ^ lg) lg nx fl fs m k) :
  5 <= lg <= 30 -> 0 < low mem -> high mem = low mem + nc' * 2 ^ lg -> high mem <= 2 ^ 62 ->
  inv smap k2 w -> high smap - low smap = page_up nc -> 0 <= nc < nc' -> nc' <= 2 ^ 62 ->
  (forall smap' w', low smap' = low smap -> high smap' = high smap -> committed_size smap' < nc' ->
     (forall x, committed w x -> committed w' x) -> Q false (heap smap' k, w')) ->
  (forall smap' w' k', inv smap' k2 w' -> low smap' = low smap -> high smap' - low smap' = page_up nc' ->
     (forall x, committed w x -> committed w' x) -> marks_set smap' k k' nc nc' (fun _ => 255) ->
     Q true (heap smap' k', w')) ->
  wp (a ← align_to_page_size nc';
      let ds := u64 (a - committed_size smap) in
      '(ok, segmap) ← (if ds >? 0
                       then on_os (VirtualSpace.expand_by AlwaysPreTouch smap ds false)
                       else mret (true, smap));
      on_heap (modify (fun h => set_spaces h (_memory h) segmap)) ;;
      if negb ok then mret false
      else
        check (nc' <=? committed_size segmap) ;;
        on_heap (mark_segmap_as_free nc nc') ;;
        mret true) Q (heap smap k, w).
Proof.
  intros Hlg Hlow Hhigh Htop Hseg Hss Hgrow Hmax HF HT. pose proof page_bounds. subst heap. cbv beta in *.
  destruct (sizes_eq smap k2) as [Ess _]; [apply Hseg..|].
  apply wp_bind, wp_align_to_page_size; [pow2_norm; lia|]. cbv zeta.
  pose proof (page_up_mono nc nc' ltac:(lia)). destruct (page_up_spec nc') as [Hup' _].
  destruct (page_up_spec nc) as [Hupn _].
  rewrite Ess, Hss, (wrapu_id 64 (page_up nc' - page_up nc)) by (unfold is_u; pow2_norm; lia).
  apply wp_bind. eapply (wp_mono _ (fun '(ok, smap') '(h', w2) =>
    h' = mkCodeHeap mem smap nc' nr (2 ^ lg) lg nx fl fs m k /\ inv smap' k2 w2 /\
    low smap' = low smap /\
    (if ok : bool then high smap' - low smap' = page_up nc'
     else high smap' = high smap /\ page_up nc < page_up nc') /\
    forall x, committed w x -> committed w2 x)).
  { apply wp_if; intros Hds.
    - apply wp_on_os. eapply expand_space_ok; [done|lia|].
      intros ok smap' w2 Hseg' Esl _ _ Esh Hm2. split_and!; try done. destruct ok; lia.
    - apply wp_ret. split_and!; try done. lia. }
  intros [ok smap'] [h' w2] (-> & Hseg' & Esl & Esh & Hm2). cbv beta iota.
  apply wp_bind, wp_on_heap, wp_modify. heap_simpl. destruct (sizes_eq smap' k2) as [Ess' _]; [apply Hseg'..|].
  destruct ok; cbn [negb].
  2: { destruct Esh as [Esh Hpages]. apply wp_ret, HF; try done. rewrite Ess', Esh, Esl, Hss.
       by apply page_up_lt. }
  apply wp_bind, wp_check; [rewrite Ess'; lia|].
  apply wp_bind, wp_on_heap. eapply wp_mono.
  { apply (mark_free_ok mem smap' nc' nr lg); (done || lia). }
  intros [] h' (k' & -> & Hk'). apply wp_ret. by apply HT.
Qed.

Lemma expand_ok h bs w size :
  heap_ok h bs -> spaces_ok h w -> 0 <= size <= 2 ^ 60 ->
  wp (CodeHeap.expand_by AlwaysPreTouch size) (fun ok '(h', w') =>
    respaced h h' /\ (forall x, committed w x -> committed w' x) /\
    if ok : bool then heap_ok h' bs /\ spaces_ok h' w' /\
      _number_of_committed_segments h * _segment_size h + size <=
      _number_of_committed_segments h' * _segment_size h
    else if decide (high (_memory h') = high (_memory h)) then heap_ok h' bs /\ spaces_ok h' w'
    else overcommitted h h') (h, w).
Proof.
  intros Hok [[k1 Hmem] [k2 Hseg] Hlog Hpg Hres Hss] Hsize. open_heap h Hok.
  pose proof page_bounds. pose proof (seg_bounds mem smap nc lg ltac:(done) ltac:(done) ltac:(done)
    ltac:(done) ltac:(done) ltac:(done)) as Hsegb.
  destruct (sizes_eq mem k1) as [Ecs _]; [apply Hmem..|].
  destruct (sizes_eq smap k2) as [Ess _]; [apply Hseg..|].
  pose proof Hmem as (Hg & Hhb & _). pose proof (g_max _ _ Hg) as Hmax. pose proof (g_low _ _ Hg) as Hlow.
  unfold CodeHeap.expand_by. apply wp_bind, wp_on_heap, wp_get. heap_simpl. cbv zeta.
  rewrite Ecs, (wrapu_id 64 (high mem - low mem + size)) by (unfold is_u; pow2_norm; lia).
  apply wp_bind, wp_align_to_page_size; [pow2_norm; lia|].
  destruct (page_up_spec (high mem - low mem + size)) as [Hup Hupd].
  set (a := page_up (high mem - low mem + size)) in *.
  rewrite (wrapu_id 64 (a - _)) by (unfold is_u; pow2_norm; lia).
  destruct (Z.gtb_spec (a - (high mem - low mem)) 0) as [Hdm|Hdm].
  2: { apply wp_ret. split; [done|]. split; [done|]. assert (size = 0) as -> by lia. split_and!; [done| |simpl; lia].
       split; simpl; eauto. }
  apply wp_bind, wp_on_os. eapply expand_space_ok; [done|lia|].
  intros ok mem' w1 Hmem' Elow Elb Ehb Ehigh Hm1. cbv beta iota.
  apply wp_bind, wp_on_heap, wp_modify. heap_simpl. destruct ok; cbn [negb].
  2: { apply wp_ret. split; [done|]. split; [done|]. simpl. rewrite decide_True by done. split.
       - split; simpl; [|by apply (rep_spaces mem mem' smap smap)|done].
         split; simpl; rewrite ?Elow, ?Ehigh; done.
       - split; simpl; rewrite ?Elow, ?Ehigh, ?Elb, ?Ehb; eauto. exists k2. by eapply inv_mono. }
  destruct (sizes_eq mem' k1) as [Ecs' _]; [apply Hmem'..|].
  pose proof Hmem' as (Hg' & Hhb' & _). rewrite Ecs', Ehigh, Elow.
  replace (high mem + (a - (high mem - low mem)) - low mem) with a by lia.
  assert (exists nc', a = nc' * 2 ^ lg) as [nc' Ea].
  { destruct Hupd as [q Hq]. exists (q * 2 ^ (page_shift - lg)). rewrite Hq, <- Z.mul_assoc.
    f_equal. rewrite <- Z.pow_add_r by lia. f_equal. lia. }
  assert (0 <= nc') as Hnc' by nia. 
  assert (nc < nc') as Hgrow' by (apply (Z.mul_lt_mono_pos_r (2 ^ lg)); lia).
  assert (nc <= nc') as Hgrow by lia.
  assert (nc' * 2 ^ lg <= 2 ^ 62) as Hmax' by lia.
  apply wp_bind, wp_on_heap, wp_modify. cbv beta. heap_simpl.
  rewrite Ea, number_of_segments_exact by lia.
  apply wp_bind, wp_on_heap, wp_get. heap_simpl.
  assert (reserved_size mem' = nr * 2 ^ lg) as Ers.
  { unfold reserved_size. rewrite Elb, Ehb, Hres. apply wrapu_id. unfold is_u. pow2_norm. lia. }
  apply wp_bind, wp_check.
  { rewrite Ers, number_of_segments_exact; lia || nia. }
  apply wp_bind, wp_check; [apply Z.leb_le, (Z.mul_le_mono_pos_r _ _ (2 ^ lg)); lia|].
  assert (nc' <= 2 ^ 62) by nia. fold (page_up nc) in Hss. apply (inv_mono smap k2 w w1 Hm1) in Hseg.
  eapply (expand_segmap_ok _ _ nc); [done|lia|rewrite Elow, Ehigh; lia|lia|exact Hseg|done|lia|done|..].
  { intros smap' w2 Esl Esh Hfull Hm2. split; [by split_and!|]. split; [by auto|]. simpl.
    rewrite decide_False by lia. exists mem', smap', nc'. split; [done|]. split; [split; simpl; lia|].
    split_and!; try done. destruct (sizes_eq smap k2) as [Es2 _]; [apply Hseg..|].
    unfold committed_size in *. by rewrite Esl, Esh, Es2. }
  intros smap' w2 k' Hseg' Esl Esh Hm2 Hk'. split; [by split_and!|]. split; [by auto|]. split_and!.
  - split; simpl; [|apply (rep_grow _ _ nc _ _ _ _ _ _ _ k); [by apply (rep_spaces mem _ smap)|done|done]|done].
    pose proof (proj1 (page_up_spec nc')). split; simpl; try (done || lia).
  - split; simpl; try done.
    + exists k1. by eapply inv_mono.
    + by exists k2.
    + replace (high mem' - low mem') with a by lia. done.
    + by rewrite Elb, Ehb.
  - simpl. lia.
Qed.

(** * Reserving a heap *)

Lemma exact_log2_pow k : 0 <= k <= 62 -> exact_log2 (2 ^ k) = Some k.
Proof using Type.
  intros Hk. pose proof (pow2_63 k Hk). unfold exact_log2, log2_intptr. rewrite is_power_of_2_pow by done.
  change 1 with (u64 (2 ^ (-1 + 1))). rewrite log2_intptr_loop_spec by lia.
  change (2 ^ (-1 + 1)) with 1. rewrite (wrapu_id 64 (2 ^ k)) by (unfold is_u; pow2_norm; lia).
  rewrite decide_False by lia. f_equal. apply Z.log2_pow2. lia.
Qed.

Lemma page_size_pow2 (b : bool) n m c :
  exists k, page_shift <= k <= 40 /\ (if b then page_size_for_region n m c else vm_page_size) = 2 ^ k /\
    (k = page_shift \/ 2 ^ k ∈ _page_sizes).
Proof.
  pose proof page_shift_range.
  assert (forall l sz, page_sizes_loop l n m (m / c) = Some sz -> sz ∈ l) as Hin.
  { intros l sz. induction l as [|x l IH]; simpl; [done|]. intros E.
    destruct (_ && _); [injection E as ->; apply elem_of_cons; by left|].
    destruct (x <=? _); [injection E as ->; apply elem_of_cons; by left|].
    apply elem_of_cons. right. auto. }
  assert (exists k, page_shift <= k <= 40 /\ vm_page_size = 2 ^ k /\
    (k = page_shift \/ 2 ^ k ∈ _page_sizes)) as Hdef.
  { exists page_shift. split_and!; [lia..|apply vm_page_size_eq|by left]. }
  destruct b; [|done]. unfold page_size_for_region. destruct UseLargePages; [|done].
  destruct (page_sizes_loop _ n m (m / c)) as [sz|] eqn:E; simpl; [|done].
  apply Hin in E. pose proof page_sizes_ok as Hok. rewrite Forall_forall in Hok.
  destruct (Hok sz E) as (k & Hk & ->). exists k. auto.
Qed.

(** A plain reservation commits nothing. *)
Lemma plain_reservation w n :
  0 < n <= 2 ^ 60 -> (2 ^ granularity_shift | n) ->
  wp (ReservedSpace_size n) (fun rs w' => (forall x, committed w' x <-> committed w x) /\
    rs_special rs = false /\
    (_base rs = 0 \/ (0 < _base rs /\ rs_size rs = n /\ _base rs + n <= 2 ^ 62 /\
       (2 ^ granularity_shift | _base rs)))) w.
Proof.
  intros Hn Hg. assert (multiple_if 0 n) as Hmul by (by intros ?).
  destruct (initialize_ok w n 0 false 0 0) as (rs & w' & E & HQ); try done; [lia|by left|by left|].
  exists rs, w'. split; [done|]. revert E. unfold initialize. cbn [negb andb].
  unfold mbind, os_m_bind, check, mret, os_m_ret, lift. cbv beta zeta.
  repeat (match goal with |- context [if ?b then Some _ else None] => destruct b; [|done] end; cbv beta iota zeta).
  replace (n =? 0) with false by lia. cbn [negb andb]. cbv beta iota.
  unfold reserve_regular, mbind, os_m_bind, mret, os_m_ret, lift. simpl.
  destruct (reserve_memory n 0 w) as [a w1] eqn:Er. apply reserve_memory_ok in Er as [Hc Hr].
  destruct (Z.eqb_spec a 0) as [->|Ha]; [intros [= <- <-]; split_and!; auto|].
  destruct (distinguishable_from_marks a), (distinguishable_from_marks (a + n)); try done.
  intros [= <- <-]. split_and!; try done.
  simpl in HQ. rewrite decide_False in HQ by done.
  destruct HQ as (? & ? & ? & ? & ? & ? & ? & ? & Hsz & ?). specialize (Hsz Hmul). right. done.
Qed.

(** What the platforms of the VM guarantee besides the laws: the granularity is
    the page size, and the size of large pages is a multiple of all page sizes. *)
Record platform : Prop := {
  p_granularity : granularity_shift = page_shift;
  p_large : forall sz, sz ∈ _page_sizes -> (sz | large_page_size)
}.

Lemma pow2_divide j k : 0 <= j <= k -> (2 ^ j | 2 ^ k).
Proof using Type.
  intros. exists (2 ^ (k - j)). rewrite <- Z.pow_add_r by lia. f_equal. lia.
Qed.

(** Initialising a space over a reservation of [n] bytes that may have failed. *)
Lemma initialize_space_ok rs n c w Q :
  _base rs = 0 \/ (0 < _base rs /\ rs_size rs = n /\ _base rs + n <= 2 ^ 62 /\
    (2 ^ page_shift | _base rs)) ->
  (rs_special rs = true -> _base rs <> 0 -> forall x, within (_base rs) (rs_size rs) x -> committed w x) ->
  0 < n -> (2 ^ page_shift | n) -> 0 <= c ->
  (forall vs w', (forall x, committed w x -> committed w' x) -> Q (false, vs) w') ->
  (forall k vs w', inv vs k w' -> low vs = low_boundary vs -> high_boundary vs = low vs + n ->
     high vs = low vs + c -> (forall x, committed w x -> committed w' x) -> Q (true, vs) w') ->
  wp (vs_initialize AlwaysPreTouch empty_space rs c) Q w.
Proof.
  intros Hrs Hsp Hn Hpn Hc Hfail Hok. pose proof page_bounds.
  destruct Hrs as [Hz|(Hb & Hsz & Hmax & Hpb)].
  - unfold vs_initialize, is_reserved. rewrite Hz. cbn [negb Z.eqb]. apply wp_ret, Hfail. auto.
  - assert (2 ^ page_shift <= n) by (apply Z.divide_pos_le; done).
    destruct (initialize_inv AlwaysPreTouch rs w c) as (k & Hw); try (done || lia); try by rewrite Hsz.
    + intros Hs x Hx. apply Hsp; try done. lia.
    + eapply wp_mono; [exact Hw|]. intros [ok vs] w' (Hi & Hlb & Hhb & _ & Hh & Hm).
      destruct ok; [|by apply Hfail]. pose proof Hi as (Hg & _). pose proof (g_low _ _ Hg).
      apply (Hok k); (done || lia).
Qed.

(** The segment map of a new heap: the part of [reserve] behind the memory. *)
Lemma reserve_segmap_ok mem k1 nc nr lg w (Q : bool -> CodeHeap * W -> Prop) :
  platform -> 5 <= lg <= page_shift -> 0 < nc <= nr -> nr <= 2 ^ 52 -> nr * 2 ^ lg <= 2 ^ 62 ->
  inv mem k1 w -> 0 < low mem -> high mem = low mem + nc * 2 ^ lg -> reserved_size mem = nr * 2 ^ lg ->
  (forall h' w', Q false (h', w')) ->
  (forall smap k2 w' k', (forall x, committed w x -> committed w' x) -> inv smap k2 w' ->
     high smap - low smap = page_up nc -> marks_set smap ∅ k' 0 nc (fun _ => 255) ->
     Q true (mkCodeHeap mem smap nc nr (2 ^ lg) lg 0 0 0 ∅ k', w')) ->
  wp (on_heap (modify (fun h => set_segments h
        (number_of_segments h (committed_size mem)) (number_of_segments h (reserved_size mem)))) ;;
      h ← on_heap get;
      check (_number_of_committed_segments h <=? _number_of_reserved_segments h) ;;
      sr ← align_to_page_size (_number_of_reserved_segments h);
      sc ← align_to_page_size (_number_of_committed_segments h);
      rs ← on_os (ReservedSpace_size sr);
      '(ok, segmap) ← on_os (vs_initialize AlwaysPreTouch (_segmap h) rs sc);
      on_heap (modify (fun h => set_spaces h (_memory h) segmap)) ;;
      if negb ok then mret false
      else
        check (_number_of_committed_segments h <=? committed_size segmap) ;;
        check (_number_of_reserved_segments h <=? reserved_size segmap) ;;
        check (committed_size segmap <=? reserved_size segmap) ;;
        on_heap clear ;;
        mret true) Q (mkCodeHeap mem empty_space 0 0 (2 ^ lg) lg 0 0 0 ∅ ∅, w).
Proof.
  intros [Hgran Hlarge] Hlg Hnc Hnr2 Hnr3 Hmem Hlow Ehigh Ers HF HT. pose proof page_shift_range. pose proof page_bounds.
  assert (32 <= 2 ^ lg <= 2 ^ 30) as Hseg.
  { split; [change 32 with (2 ^ 5)|]; apply Z.pow_le_mono_r; lia. }
  destruct (sizes_eq mem k1) as [Ecs _]; [apply Hmem..|].
  pose proof Hmem as (Hg & Hhb & _). pose proof (g_max _ _ Hg) as Hmax. pose proof (g_base _ _ Hg) as Hbase.
  apply wp_bind, wp_on_heap, wp_modify. cbv beta. heap_simpl.
  rewrite Ers, Ecs. replace (high mem - low mem) with (nc * 2 ^ lg) by lia.
  rewrite !number_of_segments_exact by nia.
  apply wp_bind, wp_on_heap, wp_get. heap_simpl. apply wp_bind, wp_check; [lia|].
  apply wp_bind, wp_align_to_page_size; [pow2_norm; lia|].
  apply wp_bind, wp_align_to_page_size; [pow2_norm; lia|].
  destruct (page_up_spec nr) as [Hupr Hupd]. destruct (page_up_spec nc) as [Hupc _].
  apply wp_bind, wp_on_os. eapply wp_mono; [apply plain_reservation; [lia|by rewrite Hgran]|].
  intros rs' w3 (Hc3 & Hsp3 & Hrs'). rewrite Hgran in Hrs'.
  apply wp_bind, wp_on_os. eapply (initialize_space_ok rs' (page_up nr) (page_up nc)); try (done || lia).
  { by rewrite Hsp3. }
  { intros vs w4 _. cbv beta iota. apply wp_bind, wp_on_heap, wp_modify. by apply wp_ret. }
  intros k2 smap w4 Hsm Eslb Eshb Esh Hm4. cbv beta iota.
  apply wp_bind, wp_on_heap, wp_modify. heap_simpl. cbn [negb].
  destruct (sizes_eq smap k2) as [Escs _]; [apply Hsm..|].
  pose proof Hsm as (Hsg & Hshb & _). pose proof (g_max _ _ Hsg). pose proof (g_base _ _ Hsg).
  assert (reserved_size smap = page_up nr) as Esrs.
  { unfold reserved_size. rewrite wrapu_id by (unfold is_u; pow2_norm; lia). lia. }
  pose proof (page_up_mono nc nr ltac:(lia)).
  apply wp_bind, wp_check; [rewrite Escs; lia|]. apply wp_bind, wp_check; [rewrite Esrs; lia|].
  apply wp_bind, wp_check; [rewrite Escs, Esrs; lia|].
  apply wp_bind, wp_on_heap, wp_bind, wp_modify. heap_simpl. apply wp_bind, wp_get. heap_simpl.
  eapply wp_mono; [apply (mark_free_ok mem smap nc nr lg); try (done || lia)|].
  intros [] h' (k' & -> & Hk'). apply wp_ret. eapply HT; [|done|lia|done]. intros x Hx. by apply Hm4, Hc3.
Qed.

Lemma reserve_ok w reserved_ committed_ lg b :
  platform -> 5 <= lg <= page_shift -> 0 < committed_ <= reserved_ -> reserved_ <= 2 ^ 50 ->
  wp (reserve AlwaysPreTouch b reserved_ committed_ (2 ^ lg)) (fun ok '(h, w') =>
    ok = true -> heap_ok h [] /\ spaces_ok h w' /\ _segment_size h = 2 ^ lg /\
      committed_ <= _number_of_committed_segments h * 2 ^ lg /\
      reserved_ <= _number_of_reserved_segments h * 2 ^ lg) (new_CodeHeap, w).
Proof.
  intros [Hgran Hlarge] Hlg Hcr Hmx. pose proof page_shift_range. pose proof page_bounds.
  destruct (page_size_pow2 b committed_ reserved_ 8) as (k & Hk & Epg & Hpg).
  assert (32 <= 2 ^ lg <= 2 ^ 30) as Hseg.
  { split; [change 32 with (2 ^ 5)|]; apply Z.pow_le_mono_r; lia. }
  assert (2 ^ page_shift <= 2 ^ k <= 2 ^ 40) as Hpk by (split; apply Z.pow_le_mono_r; lia).
  unfold reserve, new_CodeHeap. apply wp_bind, wp_check; [lia|]. apply wp_bind, wp_check; [unfold sizeof_FreeBlock; lia|].
  apply wp_bind, wp_check; [apply is_power_of_2_pow; lia|].
  apply wp_bind. eexists lg, _. rewrite exact_log2_pow by lia. split; [done|].
  apply wp_bind, wp_on_heap, wp_modify. heap_simpl. cbv zeta.
  rewrite Epg, MAX2_max, granularity_eq, Hgran, vm_page_size_eq, Z.max_l by lia.
  rewrite !align_size_up_spec by (pow2_norm; lia).
  destruct (round_up_bounds reserved_ (2 ^ k) ltac:(lia)) as [Hru Hrd].
  destruct (round_up_bounds committed_ (2 ^ k) ltac:(lia)) as [Hcu Hcd].
  assert ((committed_ + (2 ^ k - 1)) / 2 ^ k * 2 ^ k <= (reserved_ + (2 ^ k - 1)) / 2 ^ k * 2 ^ k) as Hle.
  { apply Z.mul_le_mono_nonneg_r; [lia|]. apply Z.div_le_mono; lia. }
  set (r := (reserved_ + (2 ^ k - 1)) / 2 ^ k * 2 ^ k) in *.
  set (c := (committed_ + (2 ^ k - 1)) / 2 ^ k * 2 ^ k) in *.
  rewrite !wrapu_id by (unfold is_u; pow2_norm; lia).
  set (al := if 2 ^ k =? 2 ^ page_shift then 0 else 2 ^ k).
  assert ((2 ^ page_shift | 2 ^ k)) as Hpd by (apply pow2_divide; lia).
  assert (multiple_if al r) as Hmul by (intros Hne; subst al; by destruct (_ =? _)).
  assert (valid_alignment al) as Hval.
  { subst al. destruct (_ =? _); [by left|]. right. exists k. split; [lia|done]. }
  assert (multiple_if al large_page_size) as Hmlp.
  { subst al. intros Hne. destruct (Z.eqb_spec (2 ^ k) (2 ^ page_shift)) as [|Hkp]; [done|].
    apply Hlarge. destruct Hpg as [->|?]; done. }
  assert ((2 ^ page_shift | r)) as Hpr by (by apply Z.divide_trans with (2 ^ k)).
  apply wp_bind, wp_on_os. unfold ReservedSpace_aligned.
  rewrite wrapu_id, Z.add_0_r by (unfold is_u; pow2_norm; lia). eapply wp_mono.
  { apply (initialize_ok w r al); try (done || lia). by rewrite Hgran. }
  intros rs w1 Hrs. cbv beta in Hrs. apply wp_bind, wp_on_heap, wp_get. heap_simpl.
  apply wp_bind, wp_on_os. eapply (initialize_space_ok rs r c).
  { destruct (decide (_base rs = 0)) as [Hb|Hb]; [by left|]. right.
    destruct Hrs as (? & ? & ? & ? & ? & ? & Hgb & ? & Hsz & ?). specialize (Hsz Hmul).
    rewrite Hgran in Hgb. split_and!; (done || lia). }
  { intros Hs Hb. rewrite decide_False in Hrs by done. by apply Hrs. }
  { lia. } { done. } { lia. }
  { intros vs w2 _. cbv beta iota. apply wp_bind, wp_on_heap, wp_modify. by apply wp_ret. }
  intros k1 mem w2 Hmem Elb Ehb Ehigh _. cbv beta iota.
  apply wp_bind, wp_on_heap, wp_modify. heap_simpl. cbn [negb].
  destruct (sizes_eq mem k1) as [Ecs _]; [apply Hmem..|].
  pose proof Hmem as (Hg & Hhb & _). pose proof (g_max _ _ Hg) as Hmax. pose proof (g_base _ _ Hg) as Hbase.
  assert (reserved_size mem = r) as Ers.
  { unfold reserved_size. rewrite wrapu_id by (unfold is_u; pow2_norm; lia). lia. }
  assert ((2 ^ lg | 2 ^ k)) as Hlk by (apply pow2_divide; lia).
  destruct (Z.divide_trans _ _ _ Hlk Hcd) as [nc Enc]. destruct (Z.divide_trans _ _ _ Hlk Hrd) as [nr Enr].
  assert (0 < nc) as Hnc by (apply (Z.mul_lt_mono_pos_r (2 ^ lg)); lia).
  assert (nc <= nr) as Hnr by (apply (Z.mul_le_mono_pos_r _ _ (2 ^ lg)); lia).
  assert (nr <= 2 ^ 52) as Hnr2 by (apply (Z.mul_le_mono_pos_r _ _ (2 ^ lg)); pow2_norm; nia).
  apply (reserve_segmap_ok mem k1 nc nr); [done|done|lia|done|rewrite <- Enr; pow2_norm; lia|exact Hmem|lia|lia|by rewrite Ers|done|].
  intros smap k2 w4 k' Hm4 Hsm Esh Hk' _. split_and!.
  - pose proof (proj1 (page_up_spec nc)). split; simpl; [split; simpl; (done || lia)| |done].
    split; simpl; try (done || lia); [by intros b' ?%not_elem_of_nil..|].
    intros i Hi. by rewrite Hk', decide_True by lia.
  - split; simpl.
    + exists k1. by apply (inv_mono _ _ w2).
    + by exists k2.
    + lia.
    + replace (high mem - low mem) with c by lia. by apply Z.divide_trans with (2 ^ k).
    + lia.
    + rewrite Esh. unfold page_up. lia.
  - done.
  - simpl. lia.
  - simpl. lia.
Qed.
End expansion.

(** * Histories of a code heap *)

Section histories.
Set Default Proof Using "Type*".
Context {W : Type} {os : OS W} {laws : OSLaws W} (AlwaysPreTouch : bool) (mb : Z).

(** A client owns a block when the iteration visits it. *)
Definition owns (h : CodeHeap) (p : Z) : Prop := exists ps, all_blocks h = Some (ps, h) /\ p ∈ ps.

(** The bytes of the block of [p], by its header. *)
Definition block_end (h : CodeHeap) (p : Z) : Z :=
  p - sizeof_HeapBlock + default 0 (cells h !! (p - sizeof_HeapBlock)) * _segment_size h.

(** What the heap promises its clients: [verify] finds nothing, a client can release
    its blocks, every byte of a block, header included, is committed memory that
    [find_start] maps to the block, and the blocks are disjoint. *)
Record guarantees (h : CodeHeap) (w : W) : Prop := {
  gu_verify : verify h = Some (tt, h);
  gu_release : forall p, owns h p -> exists h', deallocate p h = Some (tt, h');
  gu_bytes : forall p x, owns h p -> p - sizeof_HeapBlock <= x < block_end h p ->
    committed w x /\ find_start x h = Some (p, h);
  gu_disjoint : forall p q, owns h p -> owns h q ->
    p = q \/ block_end h p <= q - sizeof_HeapBlock \/ block_end h q <= p - sizeof_HeapBlock
}.

(** Reserving, allocating, freeing own blocks, writing words of own blocks and
    expanding.  A history does not continue after an expansion that fails having
    moved the end of the memory. *)
Inductive heap_history (w0 : W) : CodeHeap -> W -> Prop :=
| hist_reserve r c lg b h w :
    5 <= lg <= page_shift -> 0 < c <= r -> r <= 2 ^ 50 ->
    reserve AlwaysPreTouch b r c (2 ^ lg) (new_CodeHeap, w0) = Some (true, (h, w)) ->
    heap_history w0 h w
| hist_allocate h w size p h' :
    heap_history w0 h w -> 0 <= size <= 2 ^ 60 -> allocate mb size h = Some (p, h') ->
    heap_history w0 h' w
| hist_deallocate h w p h' :
    heap_history w0 h w -> owns h p -> deallocate p h = Some (tt, h') -> heap_history w0 h' w
| hist_write h w p a v h' :
    heap_history w0 h w -> owns h p -> p <= a -> a + 8 <= block_end h p -> (8 | a) ->
    store_cell a v h = Some (tt, h') -> heap_history w0 h' w
| hist_expand h w size ok h' w' :
    heap_history w0 h w -> 0 <= size <= 2 ^ 60 ->
    CodeHeap.expand_by AlwaysPreTouch size (h, w) = Some (ok, (h', w')) ->
    ok = true \/ high (_memory h') = high (_memory h) ->
    heap_history w0 h' w'.

Lemma static_spaces h h' (w : W) : static h' = static h -> spaces_ok h w -> spaces_ok h' w.
Proof.
  unfold static. intros [= E1 E2 E3 E4 E5 E6] [].
  split; rewrite ?E1, ?E2, ?E3, ?E4, ?E6; done.
Qed.

Lemma heap_all_blocks h bs :
  heap_ok h bs -> all_blocks h = Some ((fun b => allocated_space (block_addr h b)) <$> useds bs, h).
Proof. intros Hok. open_heap h Hok. by apply (all_blocks_ok mem smap nc nr lg). Qed.

Lemma owns_block h bs p :
  heap_ok h bs -> owns h p ->
  exists b, b ∈ bs /\ b_used b = true /\ p = allocated_space (block_addr h b) /\
    block_end h p = block_addr h b + b_len b * _segment_size h.
Proof.
  intros Hok (ps & E & Hp). rewrite (heap_all_blocks h bs Hok) in E. injection E as <-.
  apply list_elem_of_fmap in Hp as (b & -> & [Hu Hb]%elem_of_useds). exists b. split_and!; try done.
  unfold block_end, allocated_space. replace (_ + _ - _) with (block_addr h b) by lia.
  open_heap h Hok. destruct (r_headers _ _ _ _ _ _ _ _ _ _ Hrep b Hb) as [Hl _].
  unfold block_addr. simpl. rewrite Z.add_0_r in Hl. by rewrite Hl.
Qed.

Lemma allocate_keeps h bs size :
  heap_ok h bs -> 1 <= mb <= 2 ^ 32 -> 0 <= size <= 2 ^ 60 ->
  wp (allocate mb size) (fun p h' => static h' = static h /\
    ((p = 0 /\ h' = h) \/ exists bs' b, heap_ok h' bs' /\ b ∈ useds bs' /\
       p = allocated_space (block_addr h' b) /\
       size + sizeof_HeapBlock <= b_len b * _segment_size h)) h.
Proof.
  intros Hok Hmb Hsize. open_heap h Hok. eapply wp_mono.
  { by apply (allocate_ok mem smap nc nr lg) with (bs := bs). }
  intros p h' [(-> & -> & _)|(s & n & -> & Hs & Hn & Hal)]; [by auto|].
  destruct (segments_for_spec mem smap nc nr lg) with (nx := nx) (fl := fl) (fs := fs) (m := m)
    (k := k) (size := size) as [_ Hsg]; try done.
  pose proof (seg_bounds mem smap nc lg ltac:(done) ltac:(done) ltac:(done) ltac:(done) ltac:(done) ltac:(done)).
  destruct Hal as (bs' & nx' & fl' & fs' & m' & k' & U1 & U2 & -> & Hrep' & Hco' & EU & EU' & _).
  split; [done|]. right. exists bs', (Block s n true). split_and!; try done.
  - rewrite EU'. apply elem_of_middle. auto.
  - simpl. nia.
Qed.

Lemma deallocate_keeps h bs b :
  heap_ok h bs -> b ∈ bs -> b_used b = true ->
  wp (deallocate (allocated_space (block_addr h b))) (fun _ h' => static h' = static h /\
    exists bs', heap_ok h' bs') h.
Proof.
  intros Hok Hb Hu. open_heap h Hok. apply list_elem_of_split in Hb as (l & r & ->).
  destruct b as [s n u]. simpl in Hu. subst u. eapply wp_mono.
  { by apply (deallocate_ok mem smap nc nr lg) with (l := l) (s := s) (n := n) (r := r). }
  intros [] h' (bs' & fl' & m' & k' & -> & Hrep' & Hco' & _). split; [done|]. by exists bs'.
Qed.

Lemma write_keeps h bs b a v :
  heap_ok h bs -> b ∈ bs -> b_used b = true ->
  allocated_space (block_addr h b) <= a -> a + 8 <= block_addr h b + b_len b * _segment_size h ->
  wp (store_cell a v) (fun _ h' => static h' = static h /\ heap_ok h' bs) h.
Proof.
  intros Hok Hb Hu Ha Ha'. open_heap h Hok. eapply wp_mono.
  { apply (write_ok mem smap nc nr lg) with (bs := bs) (b := b); try done.
    unfold block_addr, b_end, addr in *. simpl in *. lia. }
  intros [] h' [-> Hrep']. split; [done|]. by split.
Qed.

Lemma heap_verify h bs : heap_ok h bs -> verify h = Some (tt, h).
Proof.
  intros Hok. open_heap h Hok.
  destruct (verify_holds mem smap nc nr lg) with (bs := bs) (nx := nx) (fl := fl) (fs := fs) (m := m)
    (k := k) (Q := fun (_ : unit) h' => h' = mkCodeHeap mem smap nc nr (2 ^ lg) lg nx fl fs m k)
    as ([] & h' & E & ->); done.
Qed.

Lemma heap_disjoint h bs b c :
  heap_ok h bs -> b ∈ bs -> c ∈ bs -> b = c \/
  block_addr h b + b_len b * _segment_size h <= block_addr h c \/
  block_addr h c + b_len c * _segment_size h <= block_addr h b.
Proof.
  intros Hok Hb Hc. open_heap h Hok. pose proof (pow2_bounds lg ltac:(lia)).
  destruct (tiling_disjoint _ _ _ b c (r_tiling _ _ _ _ _ _ _ _ _ _ Hrep) Hb Hc) as [|[Hd|Hd]];
    [by left|right; left|right; right]; unfold block_addr, addr, b_end in *; simpl; nia.
Qed.

Lemma heap_find_start h bs b x :
  heap_ok h bs -> b ∈ bs -> b_used b = true ->
  block_addr h b <= x < block_addr h b + b_len b * _segment_size h ->
  find_start x h = Some (allocated_space (block_addr h b), h).
Proof.
  intros Hok Hb Hu Hx. pose proof Hok as Hok'. open_heap h Hok.
  destruct (find_start_ok mem smap nc nr lg) with (bs := bs) (nx := nx) (fl := fl) (fs := fs) (m := m)
    (k := k) (p := x) as (q & h' & E & -> & HQ); try done.
  assert (forall c, inside mem lg x c <->
    addr mem lg (b_start c) <= x < addr mem lg (b_start c) + b_len c * 2 ^ lg) as Hin.
  { intros c. unfold inside, b_end, addr. lia. }
  destruct HQ as [(c & Hc & _ & Hic%Hin & ->)|[_ Hno]].
  - destruct (heap_disjoint _ bs b c Hok' Hb Hc) as [<-|Hd]; [done|].
    exfalso. unfold block_addr in *. simpl in *. lia.
  - exfalso. by apply (Hno b Hb Hu), Hin.
Qed.

Lemma block_contained h bs b x :
  heap_ok h bs -> b ∈ bs ->
  block_addr h b <= x < block_addr h b + b_len b * _segment_size h -> contains h x = true.
Proof.
  intros Hok Hb Hx. open_heap h Hok. apply (tiling_elem _ _ _ _ (r_tiling _ _ _ _ _ _ _ _ _ _ Hrep)) in Hb.
  pose proof (r_next _ _ _ _ _ _ _ _ _ _ Hrep).
  unfold contains, block_addr, addr, b_end in *. simpl in *.
  pose proof (pow2_bounds lg ltac:(lia)). apply andb_true_intro. split; [apply Z.leb_le|apply Z.ltb_lt]; nia.
Qed.

Lemma owned_committed h bs w b x :
  heap_ok h bs -> spaces_ok h w -> b ∈ bs ->
  block_addr h b <= x < block_addr h b + b_len b * _segment_size h -> committed w x.
Proof.
  intros Hok [[k1 Hi] _ _ _ _ _] Hb Hx. eapply inv_committed; [exact Hi|]. by apply (block_contained h bs b).
Qed.

Lemma ok_guarantees h bs w : heap_ok h bs -> spaces_ok h w -> guarantees h w.
Proof.
  intros Hok Hsp. split.
  - by eapply heap_verify.
  - intros p (b & Hb & Hu & -> & _)%(owns_block h bs p Hok).
    destruct (deallocate_keeps h bs b Hok Hb Hu) as ([] & h' & E & _). eauto.
  - intros p x (b & Hb & Hu & -> & Hend)%(owns_block h bs p Hok) Hx. rewrite Hend in Hx.
    unfold allocated_space in Hx.
    split; [apply (owned_committed h bs w b x)|apply (heap_find_start h bs b x)]; (done || lia).
  - intros p q (b & Hb & Hu & -> & Hend)%(owns_block h bs p Hok) (b' & Hb' & Hu' & -> & Hend')%(owns_block h bs q Hok).
    rewrite Hend, Hend'. unfold allocated_space.
    destruct (heap_disjoint h bs b b' Hok Hb Hb') as [->|Hd]; [by left|]. right. lia.
Qed.

Lemma owned_contained h bs p x :
  heap_ok h bs -> owns h p -> p - sizeof_HeapBlock <= x < block_end h p -> contains h x = true.
Proof.
  intros Hok (b & Hb & _ & -> & Hend)%(owns_block h bs p Hok) Hx. rewrite Hend in Hx.
  unfold allocated_space in Hx. apply (block_contained h bs b); [done..|lia].
Qed.

Lemma owned_start h bs p : heap_ok h bs -> owns h p -> contains h p = true.
Proof.
  intros Hok (b & Hb & Hu & -> & Hend)%(owns_block h bs p Hok). apply (block_contained h bs b); [done..|].
  open_heap h Hok. apply (tiling_elem _ _ _ _ (r_tiling _ _ _ _ _ _ _ _ _ _ Hrep)) in Hb.
  pose proof (Z.pow_le_mono_r 2 5 lg ltac:(lia) ltac:(lia)).
  unfold allocated_space, sizeof_HeapBlock, b_end in *. simpl in *. nia.
Qed.

(** A heap whose segment map could not follow keeps its blocks and its promises. *)
Lemma overcommitted_owns h bs h' :
  heap_ok h bs -> overcommitted h h' -> forall p, owns h' p <-> owns h p.
Proof.
  intros Hok (mem & smap & nc & -> & Hg & _). pose proof (heap_all_blocks h bs Hok) as E.
  pose proof (all_blocks_grow mem smap nc h _ h Hg E) as E'.
  assert (forall p, p ∈ (fun b => allocated_space (block_addr h b)) <$> useds bs -> owns h p) as Hown.
  { intros p Hp. by exists ((fun b => allocated_space (block_addr h b)) <$> useds bs). }
  rewrite Forall_forall in E'. specialize (E' (fun p Hp => owned_start h bs p Hok (Hown p Hp))).
  intros p. unfold owns. rewrite E, E'. split; intros (ps & [= <-] & Hp); eauto.
Qed.

Lemma overcommitted_guarantees h bs w h' w' :
  heap_ok h bs -> spaces_ok h w -> overcommitted h h' -> (forall x, committed w x -> committed w' x) ->
  guarantees h' w'.
Proof.
  intros Hok Hsp Hover Hm. pose proof (overcommitted_owns h bs h' Hok Hover) as Hown.
  destruct (ok_guarantees h bs w Hok Hsp) as [Hv Hr Hb Hd], Hover as (mem & smap & nc & -> & Hg & _).
  change (block_end (grow mem smap nc h)) with (block_end h) in *. split; try setoid_rewrite Hown.
  - by apply (stable_verify mem smap nc h).
  - intros p Hp. destruct (Hr p Hp) as [h' E]. exists (grow mem smap nc h').
    by apply (deallocate_grow mem smap nc p h (owned_start h bs p Hok Hp) Hg).
  - intros p x Hp Hx. destruct (Hb p x Hp Hx) as [Hc E]. split; [by apply Hm|].
    by apply (find_start_grow mem smap nc x h (owned_contained h bs p x Hok Hp Hx) Hg).
  - done.
Qed.

(** Expanding keeps the blocks and the promises, whatever the outcome. *)
Lemma expand_guarantees h bs w size :
  heap_ok h bs -> spaces_ok h w -> 0 <= size <= 2 ^ 60 ->
  exists ok h' w', CodeHeap.expand_by AlwaysPreTouch size (h, w) = Some (ok, (h', w')) /\
    guarantees h' w' /\ forall p, owns h' p <-> owns h p.
Proof.
  intros Hok Hsp Hsize.
  destruct (expand_ok AlwaysPreTouch h bs w size Hok Hsp Hsize) as (ok & [h' w'] & E & Hre & Hm & HQ).
  exists ok, h', w'. split; [done|].
  assert ((heap_ok h' bs /\ spaces_ok h' w') \/ overcommitted h h') as [[Hok' Hsp']|Hover].
  { destruct ok; [left; tauto|]. case_decide; tauto. }
  - split; [by eapply ok_guarantees|]. intros p. unfold owns.
    rewrite (heap_all_blocks h bs Hok), (heap_all_blocks h' bs Hok').
    destruct Hre as (El & _ & _ & _ & Elg & _). unfold block_addr, addr. rewrite El, Elg.
    split; intros (ps & [= <-] & Hp); eauto.
  - split; [by eapply overcommitted_guarantees|by eapply overcommitted_owns].
Qed.

Context (Hplat : platform) (Hmb : 1 <= mb <= 2 ^ 32).

Lemma history_ok w0 h w : heap_history w0 h w -> exists bs, heap_ok h bs /\ spaces_ok h w.
Proof.
  induction 1 as [r c lg b h w Hlg Hcr Hr E|h w size p h' _ (bs & Hok & Hsp) Hsize E
    |h w p h' _ (bs & Hok & Hsp) Hown E|h w p a v h' _ (bs & Hok & Hsp) Hown Ha Ha' _ E
    |h w size ok h' w' _ (bs & Hok & Hsp) Hsize E Hstep].
  - destruct (reserve_ok AlwaysPreTouch w0 r c lg b Hplat Hlg Hcr Hr) as (ok & [h' w'] & E' & HQ).
    rewrite E in E'. injection E' as <- <- <-. destruct (HQ eq_refl) as (? & ? & _). eauto.
  - destruct (allocate_keeps h bs size Hok Hmb Hsize) as (q & h1 & E1 & Hst & HQ).
    rewrite E in E1. injection E1 as <- <-. pose proof (static_spaces h h' w Hst Hsp).
    destruct HQ as [[_ ->]|(bs' & b & ? & _)]; eauto.
  - destruct (owns_block h bs p Hok Hown) as (b & Hb & Hu & -> & _).
    destruct (deallocate_keeps h bs b Hok Hb Hu) as ([] & h1 & E1 & Hst & bs' & ?).
    rewrite E in E1. injection E1 as <-. pose proof (static_spaces h h' w Hst Hsp). eauto.
  - destruct (owns_block h bs p Hok Hown) as (b & Hb & Hu & -> & Hend). rewrite Hend in Ha'.
    destruct (write_keeps h bs b a v Hok Hb Hu Ha Ha') as ([] & h1 & E1 & Hst & ?).
    rewrite E in E1. injection E1 as <-. pose proof (static_spaces h h' w Hst Hsp). eauto.
  - destruct (expand_ok AlwaysPreTouch h bs w size Hok Hsp Hsize) as (ok' & [h1 w1] & E1 & _ & _ & HQ).
    rewrite E in E1. injection E1 as <- <- <-. exists bs.
    destruct ok; [tauto|]. destruct Hstep as [|Hstep]; [done|]. by rewrite decide_True in HQ by done.
Qed.

End histories.

(** C2: On a platform whose allocation granularity is the page size and whose page
    sizes divide the large page size, after any history of a code heap from its
    reservation on, with allocations, releases, writes of clients into their blocks
    and expansions under failing commits, the heap keeps its promises ([guarantees]),
    and no request fails an assertion.  An expansion returns, with the same blocks in
    use and the same promises kept, also when it fails having committed memory for
    which the segment map could not grow.  After such a failure a history does not
    continue: a later request can write outside the segment map. *)
Theorem code_heap_history {W : Type} {os : OS W} {laws : OSLaws W} AlwaysPreTouch mb (w0 : W) h w :
  platform -> 1 <= mb <= 2 ^ 32 -> heap_history AlwaysPreTouch mb w0 h w ->
  guarantees h w /\
  (forall size, 0 <= size <= 2 ^ 60 -> exists p h', allocate mb size h = Some (p, h')) /\
  (forall size, 0 <= size <= 2 ^ 60 ->
     exists ok h' w', CodeHeap.expand_by AlwaysPreTouch size (h, w) = Some (ok, (h', w')) /\
       guarantees h' w' /\ forall p, owns h' p <-> owns h p).
Proof.
  intros Hplat Hmb Hh. destruct (history_ok AlwaysPreTouch mb Hplat Hmb w0 h w Hh) as (bs & Hok & Hsp).
  split_and!.
  - by eapply ok_guarantees.
  - intros size Hs. destruct (allocate_keeps mb h bs size Hok Hmb Hs) as (p & h' & E & _). eauto.
  - intros size Hs. by apply (expand_guarantees AlwaysPreTouch h bs w).
Qed.

(** A heap of sixteen pages with segments of a page, four of them committed. *)
Definition sample_os (outcomes : list bool) : sim := mkSim [] [] outcomes.

Lemma sample_platform : @platform sim SimpleOS SimpleOS_laws.
Proof.
  split; [done|]. intros sz [->|[->|[]%not_elem_of_nil]%elem_of_cons]%elem_of_cons.
  - by exists 1.
  - exists 512. done.
Qed.

Lemma code_heap_history_witness :
  exists h w, verify h = Some (tt, h) /\ _next_segment h = 2 /\
    forall q, owns h q -> forall x, q <= x < block_end h q -> @committed _ _ SimpleOS_laws w x.
Proof.
  assert (exists h w, reserve false false 65536 16384 (2 ^ 12) (new_CodeHeap, sample_os []) =
    Some (true, (h, w)) /\ exists p h', allocate 1 5000 h = Some (p, h') /\ _next_segment h' = 2)
    as (h & w & E & p & h' & E' & En).
  { eexists _, _. split; [vm_compute; reflexivity|]. eexists _, _. split; vm_compute; reflexivity. }
  exists h', w. destruct (code_heap_history false 1 (sample_os []) h' w) as ([H1 _ H2 _] & _).
  - apply sample_platform.
  - lia.
  - eapply hist_allocate; [eapply hist_reserve; [..|exact E]|  |exact E']; simpl; lia.
  - split; [done|]. split; [done|]. intros q Hq x Hx. apply (H2 q x Hq). unfold sizeof_HeapBlock. lia.
Defined.

(** ** Allocation in the cache *)

Section cache.
Set Default Proof Using "Type*".
Context {W : Type} {os : OS W} {laws : OSLaws W} (AlwaysPreTouch VerifyCodeCacheOften : bool).
Context (mb expansion : Z) (Hmb : 1 <= mb <= 2 ^ 32) (Hexp : 0 < expansion <= 2 ^ 60).

Lemma wp_on_code_heap {A} (m : os_m (CodeHeap * W) A) Q c (w : W) :
  wp m (fun a '(h, w') => Q a (set_heap c h, w')) (_heap c, w) -> wp (on_code_heap m) Q (c, w).
Proof.
  intros (a & [h' w'] & E & HQ). exists a, (set_heap c h', w'). split; [|done].
  unfold on_code_heap. by rewrite E.
Qed.

(** The blob that an allocation returned, or the expansion that failed. *)
Definition cache_result (size cb : Z) (c : CodeCache) (w : W) : Prop :=
  (cb <> 0 /\ exists bs b, heap_ok (_heap c) bs /\ spaces_ok (_heap c) w /\ b ∈ useds bs /\
     cb = allocated_space (block_addr (_heap c) b) /\
     size + sizeof_HeapBlock <= b_len b * _segment_size (_heap c)) \/
  (cb = 0 /\ exists h0 w0, CodeHeap.expand_by AlwaysPreTouch expansion (h0, w0) =
     Some (false, (_heap c, w))).

Lemma committed_reserved h bs (w : W) :
  heap_ok h bs -> spaces_ok h w ->
  0 <= _number_of_committed_segments h <= _number_of_reserved_segments h.
Proof.
  intros Hok [[k1 (Hg & Hh & _)] _ _ _ Hres _]. open_heap h Hok.
  pose proof (pow2_bounds lg ltac:(lia)). pose proof (g_low _ _ Hg). split; [done|].
  apply (Z.mul_le_mono_pos_r _ _ (2 ^ lg)); lia.
Qed.

Lemma allocate_loop_ok size fuel : 0 <= size <= 2 ^ 60 -> forall c bs w,
  heap_ok (_heap c) bs -> spaces_ok (_heap c) w ->
  _number_of_reserved_segments (_heap c) - _number_of_committed_segments (_heap c) < Z.of_nat fuel ->
  wp (allocate_loop AlwaysPreTouch mb expansion fuel size) (fun cb '(c', w') =>
    cache_result size cb c' w' /\ _number_of_blobs c' = _number_of_blobs c) (c, w).
Proof.
  intros Hsize. induction fuel as [|fuel IH]; intros c bs w Hok Hsp Hf.
  { pose proof (committed_reserved _ _ _ Hok Hsp). lia. }
  cbn [allocate_loop]. apply wp_bind, wp_on_code_heap, wp_on_heap.
  eapply wp_mono; [by apply (allocate_keeps mb (_heap c) bs size)|]. intros p h' [Hst Hp].
  destruct Hp as [[-> ->]|(bs' & b & Hok' & Hb & -> & Hlen)]; cbn [negb Z.eqb].
  - replace (set_heap c (_heap c)) with c by (by destruct c).
    apply wp_bind, wp_on_code_heap. destruct (expand_ok AlwaysPreTouch (_heap c) bs w expansion)
      as (ok & [h1 w1] & E & (_ & _ & Hnr & Hsz & _) & _ & HQ); try (done || lia).
    exists ok, (h1, w1). split; [done|]. destruct ok; cbn [negb].
    + destruct HQ as (Hok1 & Hsp1 & Hnc). eapply wp_mono.
      * apply (IH (set_heap c h1) bs w1); simpl; try done.
        pose proof (e_segments _ (ok_extents _ _ Hok)). pose proof (e_size _ (ok_extents _ _ Hok)) as Hes.
        pose proof (pow2_bounds (_log2_segment_size (_heap c))) as Hpb.
        pose proof (e_log2 _ (ok_extents _ _ Hok)).
        assert (_number_of_committed_segments (_heap c) < _number_of_committed_segments h1).
        { apply (Z.mul_lt_mono_pos_r (_segment_size (_heap c))); lia. }
        lia.
      * intros cb [c' w'] [? ?]. done.
    + apply wp_ret. split; [|done]. right. split; [done|]. eauto.
  - assert (0 < block_addr h' b) as Hpos.
    { destruct Hok' as [[] Hrep _]. apply elem_of_useds in Hb as [_ Hb].
      apply (tiling_elem _ _ _ _ (r_tiling _ _ _ _ _ _ _ _ _ _ Hrep)) in Hb.
      unfold block_addr, addr. pose proof (pow2_bounds (_log2_segment_size h') ltac:(lia)). nia. }
    unfold allocated_space at 1, sizeof_HeapBlock at 1.
    replace (block_addr h' b + 16 =? 0) with false by lia. apply wp_ret. split; [|done]. left.
    split; [unfold allocated_space, sizeof_HeapBlock; lia|]. exists bs', b. simpl.
    split_and!; try done; [by eapply static_spaces|].
    unfold static in Hst. injection Hst as _ _ _ _ Hss _. by rewrite Hss.
Qed.
End cache.

(** C35: [CodeCache::allocate] terminates: the loop that expands the heap after
    every failed attempt ends after at most as many rounds as there are segments
    left to commit.  It returns a blob with room for the request in a well-formed
    heap, or NULL exactly after an expansion failed; in both cases the number of
    blobs has been increased. *)
Theorem cache_allocate_terminates {W : Type} {os : OS W} {laws : OSLaws W}
    AlwaysPreTouch often mb expansion c bs (w : W) size fuel :
  1 <= mb <= 2 ^ 32 -> 0 < expansion <= 2 ^ 60 -> 0 <= size <= 2 ^ 60 ->
  heap_ok (_heap c) bs -> spaces_ok (_heap c) w ->
  _number_of_reserved_segments (_heap c) - _number_of_committed_segments (_heap c) < Z.of_nat fuel ->
  exists cb c' w',
    cache_allocate AlwaysPreTouch often mb expansion fuel size (c, w) = Some (cb, (c', w')) /\
    cache_result AlwaysPreTouch expansion size cb c' w' /\
    _number_of_blobs c' = s32 (_number_of_blobs c + 1).
Proof.
  intros Hmb Hexp Hsize Hok Hsp Hf.
  assert (wp (cache_allocate AlwaysPreTouch often mb expansion fuel size) (fun cb '(c', w') =>
    cache_result AlwaysPreTouch expansion size cb c' w' /\
    _number_of_blobs c' = s32 (_number_of_blobs c + 1)) (c, w)) as (cb & [c' w'] & E & HQ); [|eauto].
  unfold cache_allocate. apply wp_bind, wp_check; [lia|].
  set (c1 := set_number_of_blobs c (s32 (_number_of_blobs c + 1))).
  apply wp_bind. exists tt, (c1, w). split; [done|]. apply wp_bind.
  eapply wp_mono; [by apply (allocate_loop_ok AlwaysPreTouch mb expansion Hmb Hexp size fuel Hsize c1 bs w)|].
  intros cb [c' w'] [Hres Hn]. destruct (Z.eqb_spec cb 0) as [->|Hcb]; [by apply wp_ret|].
  destruct Hres as [(_ & bs' & b & Hok' & Hsp' & Hb & Hcb' & Hlen)|[? _]]; [|done].
  assert (wp (verify_if_often often) (fun _ s => s = (c', w')) (c', w')) as Hv.
  { unfold verify_if_often. destruct often; [|by apply wp_ret].
    apply wp_on_code_heap, wp_on_heap. exists tt, (_heap c'). split; [by eapply heap_verify|].
    by destruct c'. }
  apply wp_bind. eapply wp_mono; [exact Hv|]. intros [] ? ->. apply wp_ret. split; [|done].
  left. split; [done|]. by exists bs', b.
Qed.

Lemma cache_allocate_terminates_witness :
  exists c w cb c' w',
    @cache_allocate sim SimpleOS false true 1 4096 20 30000 (c, w) = Some (cb, (c', w')) /\
    _number_of_blobs c' = 1 /\ cb <> 0.
Proof.
  assert (exists h w, reserve false false 65536 16384 (2 ^ 12) (new_CodeHeap, sample_os []) =
    Some (true, (h, w)) /\ _number_of_reserved_segments h - _number_of_committed_segments h < 20 /\
    exists cb s, @cache_allocate sim SimpleOS false true 1 4096 20 30000 (mkCodeCache h 0 0, w) =
      Some (cb, s) /\ cb <> 0) as (h & w & E & Hn & cb0 & s & Ecb & Hcb0).
  { eexists _, _. split; [vm_compute; reflexivity|]. split; [vm_compute; reflexivity|].
    eexists _, _. split; [vm_compute; reflexivity|done]. }
  destruct (history_ok false 1 sample_platform ltac:(lia) (sample_os []) h w) as (bs & Hok & Hsp).
  { eapply hist_reserve; [..|exact E]; simpl; lia. }
  exists (mkCodeCache h 0 0), w.
  destruct (cache_allocate_terminates false true 1 4096 (mkCodeCache h 0 0) bs w 30000 20)
    as (cb & c' & w' & Ec & _ & Hb); [lia|lia|lia|exact Hok|exact Hsp|simpl; lia|].
  exists cb, c', w'. split; [exact Ec|]. split; [exact Hb|]. rewrite Ec in Ecb. by injection Ecb as <- _.
Defined.

(** C36: When [CodeHeap::expand_by] fails after a history because the segment map
    could not follow the memory, the number of committed segments has grown beyond the
    entries of the segment map, and [verify] does not notice.  A later request that
    finds nothing in the free list and whose segments are committed but end behind the
    entries passes the assertions and writes in the memory behind the committed part
    of the segment map. *)
Theorem failed_expansion_corrupts {W : Type} {os : OS W} {laws : OSLaws W} AlwaysPreTouch mb (w0 : W)
    h w size h' w' :
  platform -> 1 <= mb <= 2 ^ 32 -> heap_history AlwaysPreTouch mb w0 h w -> 0 <= size <= 2 ^ 60 ->
  CodeHeap.expand_by AlwaysPreTouch size (h, w) = Some (false, (h', w')) ->
  high (_memory h') <> high (_memory h) ->
  verify h' = Some (tt, h') /\
  _number_of_committed_segments h < _number_of_committed_segments h' /\
  committed_size (_segmap h') < _number_of_committed_segments h' /\
  forall request, let segments := number_of_segments h' (u64 (request + sizeof_HeapBlock)) in
    let end_ := _next_segment h' + Z.max segments mb in
    search_freelist mb segments h' = Some (0, h') ->
    committed_size (_segmap h') < end_ <= _number_of_committed_segments h' ->
    VirtualSpace.contains (_segmap h') (low (_segmap h') + (end_ - 1)) = false /\
    mark_segmap_as_used (_next_segment h') end_ h' = None /\
    allocate mb request h' = None.
Proof.
  intros Hplat Hmb Hh Hsize E Hmoved.
  destruct (history_ok AlwaysPreTouch mb Hplat Hmb w0 h w Hh) as (bs & Hok & Hsp).
  destruct (expand_ok AlwaysPreTouch h bs w size Hok Hsp Hsize) as (ok & [h1 w1] & E1 & _ & Hm & HQ).
  rewrite E in E1. injection E1 as <- <- <-. simpl in HQ. rewrite decide_False in HQ by done.
  pose proof (gu_verify _ _ (overcommitted_guarantees h bs w h' w' Hok Hsp HQ Hm)) as Hv.
  destruct HQ as (mem & smap & nc & Eh & Hg & Hnc & Hmax & Hfull & Hcs).
  assert (nc = _number_of_committed_segments h') as Enc by (by rewrite Eh).
  assert (smap = _segmap h') as Esm by (by rewrite Eh). rewrite Enc, Esm in *.
  split; [done|]. split; [done|]. split; [done|].
  intros request segments end_ Hs Hend.
  assert (0 <= _next_segment h') as Hnx.
  { rewrite Eh. apply (tiling_le _ _ _ (r_tiling _ _ _ _ _ _ _ _ _ _ (ok_rep _ _ Hok))). }
  assert (VirtualSpace.contains (_segmap h') (low (_segmap h') + (end_ - 1)) = false) as Hout.
  { unfold VirtualSpace.contains. lia. }
  split_and!; [done|apply mark_used_outside; (done || lia)|].
  apply allocate_outside; try (done || lia).
Qed.

(** A heap whose segment map has exactly one byte for every committed segment, all in
    use, and an expansion of it in which the commit for the segment map fails. *)
Definition failed_expansion : bool :=
  match reserve false false (2 ^ 21) (2 ^ 18) 64 (new_CodeHeap, sample_os [true; true; true; false]) with
  | Some (true, (h, w)) =>
      match allocate 1 (2 ^ 18 - 16) h with
      | Some (p, h) =>
          match CodeHeap.expand_by false 4096 (h, w) with
          | Some (false, (h', w')) =>
              negb (high (_memory h') =? high (_memory h)) && (_freelist h' =? 0) &&
              (committed_size (_segmap h') <?
                 _next_segment h' + Z.max (number_of_segments h' (u64 (100 + sizeof_HeapBlock))) 1) &&
              (_next_segment h' + Z.max (number_of_segments h' (u64 (100 + sizeof_HeapBlock))) 1 <=?
                 _number_of_committed_segments h')
          | _ => false
          end
      | None => false
      end
  | _ => false
  end.

Lemma failed_expansion_corrupts_witness :
  exists h h' w w', @CodeHeap.expand_by sim SimpleOS false 4096 (h, w) = Some (false, (h', w')) /\
    verify h' = Some (tt, h') /\ allocate 1 100 h' = None.
Proof.
  assert (failed_expansion = true) as H by (vm_compute; reflexivity). unfold failed_expansion in H.
  destruct (reserve _ _ _ _ _ _) as [[[] [h w]]|] eqn:Er; try discriminate H.
  destruct (allocate _ _ h) as [[p h1]|] eqn:Ea; [|discriminate H].
  destruct (CodeHeap.expand_by _ _ _) as [[[] [h' w']]|] eqn:Ee; try discriminate H.
  exists h1, h', w, w'. split; [exact Ee|].
  destruct (failed_expansion_corrupts false 1 (sample_os [true; true; true; false]) h1 w 4096 h' w')
    as (Hv & _ & _ & Hreq); [apply sample_platform|lia| |lia|exact Ee|lia|].
  { apply (hist_allocate _ _ _ h w (2 ^ 18 - 16) p h1); [|lia|exact Ea].
    apply (hist_reserve _ _ _ (2 ^ 21) (2 ^ 18) 6 false h w); [simpl; lia|lia|lia|exact Er]. }
  split; [exact Hv|]. apply (Hreq 100); [|lia].
  assert (_freelist h' = 0) as Efl by lia. unfold search_freelist, mbind, os_m_bind, get.
  by rewrite Efl.
Defined.
