(* ===== verification/TaskQueue.v ===== *)
(** * Work-stealing task queues

    Model of utilities/taskqueue.hpp and taskqueue.cpp: the double-ended queue of
    [GenericTaskQueue], whose owner pushes and pops at one end while other threads
    steal at the other.  A step of the relation is one access to the shared fields
    [_bottom], [_age] or [_elems], so that all interleavings of the owner and any
    number of thieves are covered; memory is sequentially consistent.  The random
    choice of victims, the termination protocol and the queue with an overflow
    stack follow.  Tracing is left out. *)

From S2P Require Import Prelude GlobalDefinitions.
From stdpp Require Import list numbers.

Open Scope Z_scope.

(** ** [TaskQueueSuper] *)

Abbreviation Log_n := (14).
Definition n : Z := 1 ≪ Log_n.
Abbreviation n_mod_mask := (n - 1).

Record Age := mkAge { _top : Z; _tag : Z }.

#[export] Instance Age_eq_dec : EqDecision Age.
Proof. solve_decision. Defined.

Definition increment_index (ind : Z) : Z := u32 (ind + 1) &&& n_mod_mask.
Definition decrement_index (ind : Z) : Z := u32 (ind - 1) &&& n_mod_mask.
Definition dirty_size (bot top : Z) : Z := u32 (s32 bot - s32 top) &&& n_mod_mask.
Definition size (bot top : Z) : Z :=
  let sz := dirty_size bot top in if sz =? n - 1 then 0 else sz.
Definition max_elems : Z := n - 2.

(** ** [GenericTaskQueue] *)

Section task_queue.
Context {E : Type}.

Record queue := mkQueue { _bottom : Z; _age : Age; _elems : list E }.

Definition peek (q : queue) : bool := negb (_bottom q =? _top (_age q)).

(** Where the owner is in [push] and [pop_local].  The integer that goes with an
    age is the number of tag increments so far, of which the tag is the low half. *)
Inductive owner_pc :=
| Idle
| Push_bottom (t : E)                      (* localBot = _bottom *)
| Push_top (t : E) (localBot : Z)          (* top = get_top() *)
| Push_slow (t : E)                        (* push_slow: localBot = _bottom *)
| Push_elem (t : E) (localBot : Z)         (* _elems[localBot] = t *)
| Push_store (t : E) (localBot : Z)        (* _bottom = increment_index(localBot) *)
| Pop_bottom                               (* localBot = _bottom *)
| Pop_top (localBot : Z)                   (* dirty_size(localBot, get_top()) *)
| Pop_store (localBot : Z)                 (* _bottom = localBot *)
| Pop_elem (localBot : Z)                  (* t = _elems[localBot] *)
| Pop_age (localBot : Z) (t : E)           (* tp = get_top() *)
| Pop_slow (localBot : Z) (t : E)          (* pop_local_slow(localBot, get_age()) *)
| Pop_cas (localBot : Z) (t : E) (oldAge : Age) (e : Z)
| Pop_reset (localBot : Z) (newAge : Age) (e : Z)
| Pop_assert (localBot : Z) (r : option E).

(** Where a thief is in [pop_global]. *)
Inductive thief_pc :=
| Resting
| Glob_age                                          (* oldAge = get_age() *)
| Glob_bottom (oldAge : Age) (e : Z)                (* localBot = _bottom *)
| Glob_elem (oldAge : Age) (e : Z) (localBot : Z)   (* t = _elems[oldAge.top()] *)
| Glob_cas (oldAge : Age) (e : Z) (localBot : Z) (t : E).

(** What a call does, at the step that decides it. *)
Inductive event :=
| Pushed (t : E) | PushFull (t : E)
| Popped (t : E) | PopEmpty
| Stolen (t : E) | StealFailed.

(** A step of the owner: the fields, the number of tag increments, where it goes
    on and what the step decides; [None] when an assertion fails or an access is
    out of bounds, and when there is no call. *)
Definition step_result : Type := option (queue * Z * owner_pc * option event).

Definition push_step (q : queue) (e : Z) (pc : owner_pc) : step_result :=
  match pc with
  | Push_bottom t => Some (q, e, Push_top t (_bottom q), None)
  | Push_top t localBot =>
      ASSERT (0 <=? localBot) && (localBot <? n) ;;
      let dirty_n_elems := dirty_size localBot (_top (_age q)) in
      ASSERT (0 <=? dirty_n_elems) && (dirty_n_elems <? n) ;;
      if dirty_n_elems <? max_elems then Some (q, e, Push_elem t localBot, None)
      else if dirty_n_elems =? n - 1 then Some (q, e, Push_slow t, None)
      else Some (q, e, Idle, Some (PushFull t))
  | Push_elem t localBot =>
      elems ← store (_elems q) localBot t;
      Some (mkQueue (_bottom q) (_age q) elems, e, Push_store t localBot, None)
  | Push_store t localBot =>
      Some (mkQueue (increment_index localBot) (_age q) (_elems q), e, Idle, Some (Pushed t))
  | _ => None
  end.

(** [push_slow] where it does the push, which then goes on as in [push]. *)
Definition push_slow_step (q : queue) (e : Z) (pc : owner_pc) : step_result :=
  match pc with
  | Push_slow t => Some (q, e, Push_elem t (_bottom q), None)
  | _ => None
  end.

Definition pop_local_step (q : queue) (e : Z) (pc : owner_pc) : step_result :=
  match pc with
  | Pop_bottom => Some (q, e, Pop_top (_bottom q), None)
  | Pop_top localBot =>
      let dirty_n_elems := dirty_size localBot (_top (_age q)) in
      ASSERT negb (dirty_n_elems =? n - 1) ;;
      if dirty_n_elems =? 0 then Some (q, e, Idle, Some PopEmpty)
      else Some (q, e, Pop_store (decrement_index localBot), None)
  | Pop_store localBot =>
      Some (mkQueue localBot (_age q) (_elems q), e, Pop_elem localBot, None)
  | Pop_elem localBot =>
      t ← load (_elems q) localBot;
      Some (q, e, Pop_age localBot t, None)
  | Pop_age localBot t =>
      let tp := _top (_age q) in
      if size localBot tp >? 0 then
        ASSERT negb (dirty_size localBot tp =? n - 1) ;;
        Some (q, e, Idle, Some (Popped t))
      else Some (q, e, Pop_slow localBot t, None)
  | Pop_slow localBot t => Some (q, e, Pop_cas localBot t (_age q) e, None)
  | _ => None
  end.

Definition pop_local_slow_step (q : queue) (e : Z) (pc : owner_pc) : step_result :=
  match pc with
  | Pop_cas localBot t oldAge e0 =>
      let newAge := mkAge (u16 localBot) (u16 (_tag oldAge + 1)) in
      if localBot =? _top oldAge then
        if decide (_age q = oldAge)
        then Some (mkQueue (_bottom q) newAge (_elems q), e0 + 1, Pop_assert localBot (Some t),
                   Some (Popped t))
        else Some (q, e, Pop_reset localBot newAge (e0 + 1), None)
      else Some (q, e, Pop_reset localBot newAge (e0 + 1), None)
  | Pop_reset localBot newAge e0 =>
      Some (mkQueue (_bottom q) newAge (_elems q), e0, Pop_assert localBot None, Some PopEmpty)
  | Pop_assert localBot r =>
      ASSERT negb (dirty_size localBot (_top (_age q)) =? n - 1) ;;
      Some (q, e, Idle, None)
  | _ => None
  end.

Definition owner_step (q : queue) (e : Z) (pc : owner_pc) : step_result :=
  match pc with
  | Idle => None
  | Push_slow _ => push_slow_step q e pc
  | Push_bottom _ | Push_top _ _ | Push_elem _ _ | Push_store _ _ => push_step q e pc
  | Pop_cas _ _ _ _ | Pop_reset _ _ _ | Pop_assert _ _ => pop_local_slow_step q e pc
  | _ => pop_local_step q e pc
  end.

Definition thief_step (q : queue) (e : Z) (pc : thief_pc)
    : option (queue * Z * thief_pc * option event) :=
  match pc with
  | Resting => None
  | Glob_age => Some (q, e, Glob_bottom (_age q) e, None)
  | Glob_bottom oldAge e0 =>
      if size (_bottom q) (_top oldAge) =? 0 then Some (q, e, Resting, Some StealFailed)
      else Some (q, e, Glob_elem oldAge e0 (_bottom q), None)
  | Glob_elem oldAge e0 localBot =>
      t ← load (_elems q) (_top oldAge);
      Some (q, e, Glob_cas oldAge e0 localBot t, None)
  | Glob_cas oldAge e0 localBot t =>
      let top := u16 (increment_index (_top oldAge)) in
      let newAge := mkAge top (if top =? 0 then u16 (_tag oldAge + 1) else _tag oldAge) in
      ASSERT negb (dirty_size localBot top =? n - 1) ;;
      if decide (_age q = oldAge)
      then Some (mkQueue (_bottom q) newAge (_elems q), if top =? 0 then e + 1 else e, Resting,
                 Some (Stolen t))
      else Some (q, e, Resting, Some StealFailed)
  end.

Record state := mkState {
  s_queue : queue;
  s_epoch : Z;
  s_owner : owner_pc;
  s_thieves : list thief_pc
}.

(** Calls begin at any time; the threads take turns in any order. *)
Inductive step : state -> option event -> state -> Prop :=
| step_push q e ts t : step (mkState q e Idle ts) None (mkState q e (Push_bottom t) ts)
| step_pop_local q e ts : step (mkState q e Idle ts) None (mkState q e Pop_bottom ts)
| step_owner q e pc ts q' e' pc' ev :
    owner_step q e pc = Some (q', e', pc', ev) ->
    step (mkState q e pc ts) ev (mkState q' e' pc' ts)
| step_pop_global q e pc ts i :
    ts !! i = Some Resting ->
    step (mkState q e pc ts) None (mkState q e pc (<[i := Glob_age]> ts))
| step_thief q e pc ts i th q' e' th' ev :
    ts !! i = Some th -> thief_step q e th = Some (q', e', th', ev) ->
    step (mkState q e pc ts) ev (mkState q' e' pc (<[i := th']> ts)).

(** No thief sleeps through 2^16 changes of the tag before its exchange. *)
Definition timely (s : state) : Prop :=
  forall i oldAge e localBot t, s_thieves s !! i = Some (Glob_cas oldAge e localBot t) ->
  s_epoch s - e < 2 ^ 16.

(** Executions through states that satisfy [P], with the events of their steps. *)
Inductive exec (P : state -> Prop) : state -> list event -> state -> Prop :=
| exec_refl s : exec P s [] s
| exec_step s evs s' ev s'' :
    exec P s evs s' -> P s' -> step s' ev s'' -> exec P s (evs ++ option_list ev) s''.

(** The tasks that calls have put in, and those they have taken out. *)
Definition pushed : list event -> list E :=
  omap (fun ev => match ev with Pushed t => Some t | _ => None end).
Definition taken : list event -> list E :=
  omap (fun ev => match ev with Popped t | Stolen t => Some t | _ => None end).

Definition initial (elems : list E) (thieves : nat) : state :=
  mkState (mkQueue 0 (mkAge 0 0) elems) 0 Idle (replicate thieves Resting).

(** ** The abstract queue *)

Inductive deque_step : list E -> event -> list E -> Prop :=
| deque_push l t : deque_step l (Pushed t) (l ++ [t])
| deque_push_full l t : max_elems <= zlen l -> deque_step l (PushFull t) l
| deque_pop l t : deque_step (l ++ [t]) (Popped t) l
| deque_pop_empty : deque_step [] PopEmpty []
| deque_steal l t : deque_step (t :: l) (Stolen t) l
| deque_steal_failed l : deque_step l StealFailed l.

Inductive deque_run : list E -> list event -> list E -> Prop :=
| run_nil l : deque_run l [] l
| run_snoc l evs l' ev l'' :
    deque_run l evs l' -> deque_step l' ev l'' -> deque_run l (evs ++ [ev]) l''.

(** The end of the tasks: while the owner holds the last one in [pop_local] it is
    past [_bottom]. *)
Definition effective_bottom (s : state) : Z :=
  match s_owner s with
  | Pop_elem b | Pop_age b _ | Pop_slow b _ | Pop_cas b _ _ _ | Pop_reset b _ _ => increment_index b
  | _ => _bottom (s_queue s)
  end.

Definition contents (s : state) : list E :=
  let q := s_queue s in
  omap (fun i => load (_elems q) ((_top (_age q) + i) mod n))
    (seqZ 0 (dirty_size (effective_bottom s) (_top (_age q)))).
End task_queue.

(** Unfold a step of the owner at a known place. *)
Ltac owner_simpl :=
  cbn [owner_step push_step push_slow_step pop_local_step pop_local_slow_step
       _bottom _age _elems _top]; cbv zeta.

(** ** Cursors

    The positions of the two ends are kept modulo [n]; the proofs follow the
    unbounded ones. *)

Lemma n_val : n = 16384.
Proof. reflexivity. Qed.

Lemma land_n_mod_mask x : x &&& n_mod_mask = x mod n.
Proof. change n_mod_mask with (Z.ones 14). rewrite Z.land_ones by lia. done. Qed.

Lemma wrapu_mod x : u32 x mod n = x mod n.
Proof. unfold wrapu. rewrite n_val. pow2_norm. Z.to_euclidean_division_equations; lia. Qed.

Lemma cursor_range x : 0 <= x mod n < n.
Proof. apply Z.mod_pos_bound. rewrite n_val. lia. Qed.

Lemma increment_index_cursor x : increment_index (x mod n) = (x + 1) mod n.
Proof. unfold increment_index. by rewrite land_n_mod_mask, wrapu_mod, Zplus_mod_idemp_l. Qed.

Lemma decrement_index_cursor x : decrement_index (x mod n) = (x - 1) mod n.
Proof. unfold decrement_index. by rewrite land_n_mod_mask, wrapu_mod, Zminus_mod_idemp_l. Qed.

Lemma s32_cursor x : 0 <= x < n -> s32 x = x.
Proof.
  rewrite n_val. intros. unfold wraps. pow2_norm. rewrite Z.mod_small by lia.
  by rewrite (proj2 (Z.ltb_lt _ _)) by lia.
Qed.

Lemma dirty_size_cursor b t : dirty_size (b mod n) (t mod n) = (b - t) mod n.
Proof.
  unfold dirty_size. rewrite !s32_cursor by apply cursor_range.
  by rewrite land_n_mod_mask, wrapu_mod, <- Zminus_mod.
Qed.

Lemma dirty_size_range b t : 0 <= dirty_size b t < n.
Proof. unfold dirty_size. rewrite land_n_mod_mask. apply cursor_range. Qed.

Lemma dirty_size_small b t : 0 <= b - t < n -> dirty_size (b mod n) (t mod n) = b - t.
Proof. intros. rewrite dirty_size_cursor. by apply Z.mod_small. Qed.

Lemma dirty_size_behind b : dirty_size ((b - 1) mod n) (b mod n) = n - 1.
Proof. rewrite dirty_size_cursor. replace (b - 1 - b) with (-1) by lia. reflexivity. Qed.

Lemma cursor_inj x y : x mod n = y mod n -> - n < x - y < n -> x = y.
Proof. rewrite n_val. Z.to_euclidean_division_equations; lia. Qed.

Lemma u16_cursor x : u16 (x mod n) = x mod n.
Proof.
  apply wrapu_id. unfold is_u. pose proof (cursor_range x). rewrite n_val in *.
  pow2_norm. lia.
Qed.

Lemma cursor_next x : (x + 1) mod n = if (x + 1) mod n =? 0 then 0 else x mod n + 1.
Proof. destruct (Z.eqb_spec ((x + 1) mod n) 0); [done|]. rewrite n_val in *. Z.to_euclidean_division_equations; lia. Qed.

Lemma cursor_next_wraps x : (x + 1) mod n = 0 <-> x mod n = n - 1.
Proof. rewrite n_val. Z.to_euclidean_division_equations; lia. Qed.

Section invariant.
Context {E : Type}.
Implicit Types (q : queue (E := E)) (pc : owner_pc (E := E)) (th : thief_pc (E := E)).
Implicit Types (l : list E) (s : state (E := E)).

(** The array holds [l] from position [T] on. *)
Definition holds (elems : list E) (T : Z) l : Prop :=
  forall (i : nat) x, l !! i = Some x -> load elems ((T + Z.of_nat i) mod n) = Some x.

(** [e] counts tag increments, [b] is [_bottom], and the tasks are those at
    positions [T] up to [B]. *)
Definition owner_ok (elems : list E) (e b T B : Z) pc : Prop :=
  match pc with
  | Idle | Push_bottom _ | Pop_bottom => b = B mod n
  | Push_slow _ => False
  | Push_top _ lb | Pop_top lb => b = B mod n /\ lb = B mod n
  | Push_elem _ lb => b = B mod n /\ lb = B mod n /\ B - T < max_elems
  | Push_store t lb =>
      b = B mod n /\ lb = B mod n /\ B - T < max_elems /\ load elems lb = Some t
  | Pop_store lb => b = B mod n /\ lb = (B - 1) mod n
  | Pop_elem lb => b = lb /\ lb = (B - 1) mod n
  | Pop_age lb t => b = lb /\ lb = (B - 1) mod n /\ load elems lb = Some t
  | Pop_slow lb t => b = lb /\ lb = (B - 1) mod n /\ load elems lb = Some t /\ B - 1 <= T
  | Pop_cas lb t old e0 =>
      b = lb /\ lb = (B - 1) mod n /\ load elems lb = Some t /\
      exists T0, old = mkAge (T0 mod n) (u16 e0) /\
        (T0 = T /\ e0 = e /\ B - 1 <= T \/
         T0 = B - 1 /\ T = B /\ e = if B mod n =? 0 then e0 + 1 else e0)
  | Pop_reset lb new e0 =>
      b = lb /\ lb = (B - 1) mod n /\ new = mkAge lb (u16 e0) /\ T = B /\
      (e < e0 \/ e = e0 /\ B mod n = 0)
  | Pop_assert lb _ => b = B mod n /\ lb = B mod n /\ T = B
  end.

(** Ages in the order in which they are installed. *)
Definition before (e0 t0 e t : Z) : Prop := e0 < e \/ e0 = e /\ t0 < t.

(** What a thief has read is old, or is still so. *)
Definition seen (old : Age) (e0 e T : Z) (now : Prop) : Prop :=
  exists T0, old = mkAge (T0 mod n) (u16 e0) /\
    (before e0 (T0 mod n) e (T mod n) \/ e0 = e /\ T0 mod n = T mod n /\ now).

Definition thief_ok (elems : list E) (e T B : Z) th : Prop :=
  match th with
  | Resting | Glob_age => True
  | Glob_bottom old e0 => seen old e0 e T True
  | Glob_elem old e0 lb => seen old e0 e T (T < B) /\
      (exists B0, lb = B0 mod n) /\ 0 < dirty_size lb (_top old) < n - 1
  | Glob_cas old e0 lb t => seen old e0 e T (T < B /\ load elems (T mod n) = Some t) /\
      (exists B0, lb = B0 mod n) /\ 0 < dirty_size lb (_top old) < n - 1
  end.

Record fields_ok (elems : list E) (age : Age) (e T B : Z) l : Prop := {
  fo_elems : zlen elems = n;
  fo_age : age = mkAge (T mod n) (u16 e);
  fo_length : B = T + zlen l;
  fo_max : zlen l <= max_elems;
  fo_holds : holds elems T l
}.

Record inv s (T B : Z) l : Prop := {
  inv_fields : fields_ok (_elems (s_queue s)) (_age (s_queue s)) (s_epoch s) T B l;
  inv_owner : owner_ok (_elems (s_queue s)) (s_epoch s) (_bottom (s_queue s)) T B (s_owner s);
  inv_thieves : Forall (thief_ok (_elems (s_queue s)) (s_epoch s) T B) (s_thieves s)
}.

(** A step keeps the queue and does what its event says. *)
Definition event_ok l (ev : option event) l' : Prop :=
  match ev with None => l' = l | Some ev => deque_step l ev l' end.

Lemma seen_keep old e0 e T (P Q : Prop) : (P -> Q) -> seen old e0 e T P -> seen old e0 e T Q.
Proof. intros HPQ (T0 & -> & H). exists T0. split; [done|]. tauto. Qed.

Lemma seen_advance old e0 e T e' T' P Q :
  before e (T mod n) e' (T' mod n) -> seen old e0 e T P -> seen old e0 e' T' Q.
Proof. unfold before. intros Hb (T0 & -> & H). exists T0. split; [done|]. left. unfold before in *. lia. Qed.

Lemma thief_keep elems elems' e T B B' th :
  (T < B -> T < B' /\ load elems' (T mod n) = load elems (T mod n)) ->
  thief_ok elems e T B th -> thief_ok elems' e T B' th.
Proof.
  intros Hk. destruct th; simpl; try done.
  - intros (Hs & Hr). split; [|done]. revert Hs. apply seen_keep. intros. by apply Hk.
  - intros (Hs & Hr). split; [|done]. revert Hs. apply seen_keep. intros [H1 H2].
    destruct (Hk H1) as [? ->]. done.
Qed.

Lemma thief_advance elems elems' e T B e' T' B' th :
  before e (T mod n) e' (T' mod n) -> thief_ok elems e T B th -> thief_ok elems' e' T' B' th.
Proof. intros Hb. destruct th; simpl; try done; [|intros [Hs Hr]; split; [|done]; revert Hs..]; by apply seen_advance. Qed.

Lemma before_next e T : before e (T mod n) (if (T + 1) mod n =? 0 then e + 1 else e) ((T + 1) mod n).
Proof.
  unfold before. pose proof (cursor_next T) as Hn.
  destruct (Z.eqb_spec ((T + 1) mod n) 0); lia.
Qed.

(** *** Changes of the fields *)

Lemma holds_nil elems T : holds elems T [].
Proof. intros i x. by rewrite lookup_nil. Qed.

Lemma holds_tail elems T x l : holds elems T (x :: l) -> holds elems (T + 1) l.
Proof.
  intros H i y Hi. specialize (H (S i) y Hi). rewrite <- H. f_equal. f_equal. lia.
Qed.

Lemma holds_head elems T x l : holds elems T (x :: l) -> load elems (T mod n) = Some x.
Proof. intros H. specialize (H 0%nat x eq_refl). by rewrite Z.add_0_r in H. Qed.

Lemma holds_snoc elems T l x :
  holds elems T (l ++ [x]) <->
  holds elems T l /\ load elems ((T + zlen l) mod n) = Some x.
Proof.
  split.
  - intros H. split.
    + intros i y Hi. apply H. by apply lookup_app_l_Some.
    + apply H. by apply list_lookup_middle.
  - intros [Hl Hx] i y [Hi|[Hge Hi]]%lookup_app_Some; [by apply Hl|].
    apply list_lookup_singleton_Some in Hi as [Hi ->].
    by replace (Z.of_nat i) with (zlen l) by lia.
Qed.

Lemma fields_store elems age e T B l t :
  fields_ok elems age e T B l -> zlen l < max_elems ->
  exists elems', store elems (B mod n) t = Some elems' /\
    fields_ok elems' age e T B l /\ load elems' (B mod n) = Some t /\
    (T < B -> load elems' (T mod n) = load elems (T mod n)).
Proof.
  intros [Hn Ha HB Hm Hh] Hlt. unfold max_elems in *.
  destruct (store_is_Some elems (B mod n) t) as [elems' He];
    [rewrite Hn; apply cursor_range|].
  assert (Hne : forall j, T <= j < B -> load elems' (j mod n) = load elems (j mod n)).
  { intros j Hj. rewrite (load_store _ _ _ _ _ He), decide_False; [done|].
    intros Hq%cursor_inj; lia. }
  exists elems'. split; [done|]. split; [|split].
  - constructor; try done; [by rewrite (store_length _ _ _ _ He)|].
    intros i x Hi. rewrite Hne; [by apply Hh|]. apply lookup_lt_Some in Hi. lia.
  - by rewrite (load_store _ _ _ _ _ He), decide_True.
  - intros. apply Hne. lia.
Qed.

Lemma fields_push elems age e T B l t :
  fields_ok elems age e T B l -> B - T < max_elems -> load elems (B mod n) = Some t ->
  fields_ok elems age e T (B + 1) (l ++ [t]).
Proof.
  intros [Hn Ha HB Hm Hh] Hlt Ht.
  constructor; try done; rewrite ?length_app; simpl; [lia..|].
  apply holds_snoc. by rewrite <- HB.
Qed.

(** The last task. *)
Lemma fields_last elems age e T B l t :
  fields_ok elems age e T B l -> T < B -> load elems ((B - 1) mod n) = Some t ->
  exists l', l = l' ++ [t] /\ fields_ok elems age e T (B - 1) l'.
Proof.
  intros [Hn Ha HB Hm Hh] Hlt Ht.
  destruct l as [|x l' _] using rev_ind; [simpl in *; lia|].
  rewrite length_app in *. simpl in *.
  apply holds_snoc in Hh as [Hh Hx].
  replace (T + zlen l') with (B - 1) in Hx by lia. rewrite Ht in Hx. injection Hx as ->.
  exists l'. split; [done|]. constructor; try done; lia.
Qed.

(** The first task. *)
Lemma fields_first elems age e T B l t :
  fields_ok elems age e T B l -> T < B -> load elems (T mod n) = Some t ->
  exists l', l = t :: l' /\
    let e' := if (T + 1) mod n =? 0 then e + 1 else e in
    fields_ok elems (mkAge ((T + 1) mod n) (u16 e')) e' (T + 1) B l'.
Proof.
  intros [Hn Ha HB Hm Hh] Hlt Ht.
  destruct l as [|x l']; [simpl in *; lia|]. rewrite (holds_head _ _ _ _ Hh) in Ht.
  injection Ht as ->. exists l'. split; [done|]. simpl in *.
  constructor; try done; try lia. by eapply holds_tail.
Qed.

Lemma fields_empty elems age e T B l e' T' :
  fields_ok elems age e T B l ->
  fields_ok elems (mkAge (T' mod n) (u16 e')) e' T' T' [].
Proof. intros [Hn _ _ _ _]. constructor; try done. simpl. lia. Qed.

(** *** Steps of the owner *)

Definition owner_preserves q e pc ts l : Prop :=
  exists q' e' pc' ev T' B' l', owner_step q e pc = Some (q', e', pc', ev) /\
    inv (mkState q' e' pc' ts) T' B' l' /\ event_ok l ev l'.

Lemma inv_range s T B l : inv s T B l -> T <= B <= T + n - 2.
Proof. intros [[] _ _]. unfold max_elems in *. lia. Qed.

(** A step that only reads. *)
Lemma owner_reads q e pc ts T B l pc' ev :
  inv (mkState q e pc ts) T B l -> owner_step q e pc = Some (q, e, pc', ev) ->
  owner_ok (_elems q) e (_bottom q) T B pc' -> event_ok l ev l ->
  owner_preserves q e pc ts l.
Proof.
  intros [Hf Ho Ht] Hs Hpc Hev. exists q, e, pc', ev, T, B, l. split; [done|]. split; [|done].
  by constructor.
Qed.

Lemma inv_top s T B l : inv s T B l -> _top (_age (s_queue s)) = T mod n.
Proof. intros [[_ -> _ _ _] _ _]. done. Qed.

Lemma inv_zlen s T B l : inv s T B l -> zlen l = B - T.
Proof. intros [[] _ _]. lia. Qed.

Lemma push_top_ok q e ts T B l t lb :
  inv (mkState q e (Push_top t lb) ts) T B l -> owner_preserves q e (Push_top t lb) ts l.
Proof.
  intros HI. destruct (inv_owner _ _ _ _ HI) as [Hb Hlb]; simpl in *.
  pose proof (inv_range _ _ _ _ HI) as Hr. pose proof (inv_zlen _ _ _ _ HI) as Hl.
  pose proof (cursor_range B) as HB.
  assert (Hd : dirty_size lb (_top (_age q)) = B - T).
  { rewrite (inv_top _ _ _ _ HI : _top (_age q) = _), Hlb. apply dirty_size_small. lia. }
  assert (Hst : owner_step q e (Push_top t lb) =
    if B - T <? max_elems then Some (q, e, Push_elem t lb, None)
    else Some (q, e, Idle, Some (PushFull t))).
  { simpl. rewrite Hd, Hlb. unfold max_elems.
    destruct (Z.ltb_spec (B - T) (n - 2)), (Z.eqb_spec (B - T) (n - 1)); try lia.
    all: rewrite !(proj2 (Z.leb_le _ _)), !(proj2 (Z.ltb_lt _ _)) by lia; done. }
  destruct (Z.ltb_spec (B - T) max_elems).
  - eapply owner_reads; [done..| |done]. done.
  - eapply owner_reads; [done..| |]; [done|]. constructor. lia.
Qed.

Lemma push_elem_ok q e ts T B l t lb :
  inv (mkState q e (Push_elem t lb) ts) T B l -> owner_preserves q e (Push_elem t lb) ts l.
Proof.
  intros HI. pose proof (inv_zlen _ _ _ _ HI) as Hl.
  destruct HI as [Hf (Hb & -> & Hlt) Ht]; simpl in *.
  destruct (fields_store _ _ _ _ _ _ t Hf) as (elems' & He & Hf' & Hld & Hkeep); [lia|].
  exists (mkQueue (_bottom q) (_age q) elems'), e, (Push_store t (B mod n)), None, T, B, l.
  split; [simpl; by rewrite He|]. split; [|done]. constructor; simpl; [done..|].
  revert Ht. apply Forall_impl. intros th. apply thief_keep. auto.
Qed.

Lemma push_store_ok q e ts T B l t lb :
  inv (mkState q e (Push_store t lb) ts) T B l -> owner_preserves q e (Push_store t lb) ts l.
Proof.
  intros [Hf (Hb & -> & Hlt & Hld) Ht]; simpl in *.
  exists (mkQueue (increment_index (B mod n)) (_age q) (_elems q)), e, Idle, (Some (Pushed t)),
    T, (B + 1), (l ++ [t]).
  split; [done|]. split; [|constructor]. constructor; simpl.
  - by apply fields_push.
  - apply increment_index_cursor.
  - revert Ht. apply Forall_impl. intros th. apply thief_keep. split; [lia|done].
Qed.

Lemma pop_top_ok q e ts T B l lb :
  inv (mkState q e (Pop_top lb) ts) T B l -> owner_preserves q e (Pop_top lb) ts l.
Proof.
  intros HI. destruct (inv_owner _ _ _ _ HI) as [Hb Hlb]; simpl in *.
  pose proof (inv_range _ _ _ _ HI) as Hr. pose proof (inv_zlen _ _ _ _ HI) as Hl.
  assert (Hd : dirty_size lb (_top (_age q)) = B - T).
  { rewrite (inv_top _ _ _ _ HI : _top (_age q) = _), Hlb. apply dirty_size_small. lia. }
  destruct (decide (B = T)) as [->|Hne].
  - eapply (owner_reads _ _ _ _ _ _ _ Idle (Some PopEmpty)); [done|..|done|].
    + simpl. by rewrite Hd, Z.sub_diag.
    + destruct l; [constructor|simpl in *; lia].
  - eapply (owner_reads _ _ _ _ _ _ _ (Pop_store (decrement_index lb)) None); [done|..|done].
    + simpl. rewrite Hd. destruct (Z.eqb_spec (B - T) (n - 1)), (Z.eqb_spec (B - T) 0); lia || done.
    + rewrite Hlb, decrement_index_cursor. done.
Qed.

Lemma pop_store_ok q e ts T B l lb :
  inv (mkState q e (Pop_store lb) ts) T B l -> owner_preserves q e (Pop_store lb) ts l.
Proof.
  intros [Hf (Hb & Hlb) Ht]; simpl in *.
  exists (mkQueue lb (_age q) (_elems q)), e, (Pop_elem lb), None, T, B, l.
  split; [done|]. split; [|done]. by constructor.
Qed.

Lemma pop_elem_ok q e ts T B l lb :
  inv (mkState q e (Pop_elem lb) ts) T B l -> owner_preserves q e (Pop_elem lb) ts l.
Proof.
  intros HI. destruct (inv_owner _ _ _ _ HI) as [Hb Hlb]; simpl in *.
  destruct (load_is_Some (_elems q) lb) as [t Ht].
  { rewrite (fo_elems _ _ _ _ _ _ (inv_fields _ _ _ _ HI) : zlen (_elems q) = _), Hlb.
    apply cursor_range. }
  eapply (owner_reads _ _ _ _ _ _ _ (Pop_age lb t) None); [done|..|done].
  - simpl. by rewrite Ht.
  - done.
Qed.

Lemma size_cursor B T : T <= B <= T + n - 2 -> size ((B - 1) mod n) (T mod n) = Z.max 0 (B - 1 - T).
Proof.
  intros Hr. unfold size. destruct (decide (T = B)) as [->|Hne].
  - rewrite dirty_size_behind, Z.eqb_refl. lia.
  - rewrite dirty_size_small by lia. destruct (Z.eqb_spec (B - 1 - T) (n - 1)); lia.
Qed.

Lemma pop_age_ok q e ts T B l lb t :
  inv (mkState q e (Pop_age lb t) ts) T B l -> owner_preserves q e (Pop_age lb t) ts l.
Proof.
  intros HI. pose proof (inv_range _ _ _ _ HI) as Hr.
  pose proof (inv_top _ _ _ _ HI : _top (_age q) = _) as Htop.
  pose proof (size_cursor B T Hr) as Hsz.
  destruct (inv_owner _ _ _ _ HI) as (Hb & -> & Hld); simpl in *.
  destruct (decide (B - 1 <= T)) as [Hlast|Hmore].
  - eapply (owner_reads _ _ _ _ _ _ _ (Pop_slow _ t) None); [done|..|done].
    + simpl. rewrite Htop, Hsz. by rewrite Z.max_l by lia.
    + done.
  - destruct HI as [Hf Ho Ht]; simpl in *.
    destruct (fields_last _ _ _ _ _ _ t Hf) as (l' & -> & Hf'); [lia|done|].
    exists q, e, Idle, (Some (Popped t)), T, (B - 1), l'. split; [|split; [|constructor]].
    + simpl. rewrite Htop, Hsz, Z.max_r, dirty_size_small, (proj2 (Z.eqb_neq _ _)) by lia.
      rewrite Z.gtb_ltb, (proj2 (Z.ltb_lt _ _)) by lia. done.
    + constructor; simpl; [done..|]. revert Ht. apply Forall_impl.
      intros th. apply thief_keep. split; [lia|done].
Qed.

Lemma pop_slow_ok q e ts T B l lb t :
  inv (mkState q e (Pop_slow lb t) ts) T B l -> owner_preserves q e (Pop_slow lb t) ts l.
Proof.
  intros HI. pose proof (fo_age _ _ _ _ _ _ (inv_fields _ _ _ _ HI)) as Ha.
  destruct (inv_owner _ _ _ _ HI) as (Hb & Hlb & Hld & Hlast); simpl in *.
  eapply (owner_reads _ _ _ _ _ _ _ (Pop_cas lb t (_age q) e) None); [done..| |done].
  simpl. repeat (split; [done|]). exists T. auto.
Qed.

Lemma cursor_pred_ne B : (B - 1) mod n <> B mod n.
Proof. intros H%cursor_inj; [lia|]. rewrite n_val. lia. Qed.

Lemma u16_succ e : u16 (u16 e + 1) = u16 (e + 1).
Proof. unfold wrapu. by rewrite Zplus_mod_idemp_l. Qed.

(** The owner installs an age for the empty queue. *)
Lemma inv_reset q e pc ts T B l lb r e0 :
  inv (mkState q e pc ts) T B l -> _bottom q = lb -> lb = (B - 1) mod n ->
  before e (T mod n) e0 lb ->
  inv (mkState (mkQueue (_bottom q) (mkAge lb (u16 e0)) (_elems q)) e0 (Pop_assert lb r) ts)
    (B - 1) (B - 1) [].
Proof.
  intros [Hf _ Ht] Hb Hlb Hbe; simpl in *. rewrite Hb, Hlb in *. constructor; simpl.
  - by eapply fields_empty.
  - done.
  - revert Ht. apply Forall_impl. intros th. by apply thief_advance.
Qed.

Lemma pop_cas_ok q e ts T B l lb t old e0 :
  inv (mkState q e (Pop_cas lb t old e0) ts) T B l ->
  owner_preserves q e (Pop_cas lb t old e0) ts l.
Proof.
  intros HI. pose proof (fo_age _ _ _ _ _ _ (inv_fields _ _ _ _ HI) : _age q = _) as Ha.
  pose proof (inv_range _ _ _ _ HI) as Hr. pose proof (cursor_pred_ne B) as Hne.
  destruct (inv_owner _ _ _ _ HI) as (Hb & Hlb & Hld & T0 & Hold & Hcase); simpl in Hb, Ha, Hld, Hcase.
  assert (Hnew : mkAge (u16 lb) (u16 (_tag old + 1)) = mkAge lb (u16 (e0 + 1))).
  { rewrite Hold, Hlb, u16_cursor. simpl. by rewrite u16_succ. }
  destruct (decide (T = B)) as [->|Hlt].
  - (* a thief has the task *)
    eapply (owner_reads _ _ _ _ _ _ _ (Pop_reset lb (mkAge lb (u16 (e0 + 1))) (e0 + 1)) None);
      [done|..|done].
    + owner_simpl. rewrite Hnew.
      destruct (Z.eqb_spec lb (_top old)) as [Heq|]; [|done]. rewrite decide_False; [done|].
      rewrite Ha. intros <-. simpl in Heq. congruence.
    + simpl. repeat (split; [done|]). destruct Hcase as [(_ & -> & _)|(_ & _ & ->)]; [lia|].
      destruct (Z.eqb_spec (B mod n) 0); lia.
  - destruct Hcase as [(-> & -> & Hlast)|]; [|lia].
    assert (T = B - 1) as -> by lia.
    pose proof (inv_fields _ _ _ _ HI : fields_ok (_elems q) _ _ _ _ _) as Hf.
    destruct (fields_last _ _ _ _ _ _ t Hf) as (l' & -> & Hf'); [lia|by rewrite <- Hlb|].
    assert (l' = []) as ->. { apply nil_length_inv. destruct Hf'. lia. }
    exists (mkQueue (_bottom q) (mkAge lb (u16 (e + 1))) (_elems q)), (e + 1),
      (Pop_assert lb (Some t)), (Some (Popped t)), (B - 1), (B - 1), [].
    split; [|split; [|apply (deque_pop [])]].
    + owner_simpl. rewrite Hnew, Ha, Hold, decide_True by done.
      rewrite Hlb. cbn [_top]. by rewrite Z.eqb_refl.
    + eapply inv_reset; [done..|]. left. lia.
Qed.

Lemma pop_reset_ok q e ts T B l lb new e0 :
  inv (mkState q e (Pop_reset lb new e0) ts) T B l ->
  owner_preserves q e (Pop_reset lb new e0) ts l.
Proof.
  intros HI. destruct (inv_owner _ _ _ _ HI) as (Hb & Hlb & -> & HT & Hbe); simpl in Hb, Hbe.
  pose proof (inv_zlen _ _ _ _ HI) as Hl.
  exists (mkQueue (_bottom q) (mkAge lb (u16 e0)) (_elems q)), e0, (Pop_assert lb None),
    (Some PopEmpty), (B - 1), (B - 1), [].
  split; [done|]. split; [|destruct l; [constructor|simpl in *; lia]].
  eapply inv_reset; [done..|]. rewrite Hlb, HT. unfold before. destruct Hbe as [|[-> Hz]]; [lia|].
  right. split; [done|]. rewrite Hz, n_val in *. Z.to_euclidean_division_equations; lia.
Qed.

Lemma pop_assert_ok q e ts T B l lb r :
  inv (mkState q e (Pop_assert lb r) ts) T B l -> owner_preserves q e (Pop_assert lb r) ts l.
Proof.
  intros HI. pose proof (inv_top _ _ _ _ HI : _top (_age q) = _) as Htop.
  destruct (inv_owner _ _ _ _ HI) as (Hb & Hlb & HT); simpl in Hb.
  eapply (owner_reads _ _ _ _ _ _ _ Idle None); [done|..|done]; [|done].
  owner_simpl. rewrite Htop, Hlb, HT, dirty_size_cursor, Z.sub_diag. done.
Qed.

#[local] Hint Resolve push_top_ok push_elem_ok push_store_ok pop_top_ok pop_store_ok pop_elem_ok
  pop_age_ok pop_slow_ok pop_cas_ok pop_reset_ok pop_assert_ok : core.

Lemma owner_step_ok q e pc ts T B l :
  inv (mkState q e pc ts) T B l -> pc <> Idle -> owner_preserves q e pc ts l.
Proof.
  intros HI Hpc. destruct pc; eauto; [done|..]; pose proof (inv_owner _ _ _ _ HI) as Ho.
  - eapply (owner_reads _ _ _ _ _ _ _ (Push_top t (_bottom q)) None); [done..| |done]. done.
  - done.
  - eapply (owner_reads _ _ _ _ _ _ _ (Pop_top (_bottom q)) None); [done..| |done]. done.
Qed.

(** *** Steps of a thief *)

Definition thief_preserves q e pc ts (i : nat) th l : Prop :=
  exists q' e' th' ev T' B' l', thief_step q e th = Some (q', e', th', ev) /\
    inv (mkState q' e' pc (<[i := th']> ts)) T' B' l' /\ event_ok l ev l'.

Lemma thief_reads q e pc ts i th T B l th' ev :
  inv (mkState q e pc ts) T B l -> thief_step q e th = Some (q, e, th', ev) ->
  thief_ok (_elems q) e T B th' -> event_ok l ev l -> thief_preserves q e pc ts i th l.
Proof.
  intros [Hf Ho Ht] Hs Hpc Hev. exists q, e, th', ev, T, B, l. split; [done|]. split; [|done].
  constructor; [done..|]. by apply Forall_insert.
Qed.

(** The owner is not disturbed by the loss of the first task. *)
Lemma owner_stolen elems e b T B pc :
  T < B -> owner_ok elems e b T B pc ->
  owner_ok elems (if (T + 1) mod n =? 0 then e + 1 else e) b (T + 1) B pc.
Proof.
  intros Hlt. destruct pc; simpl; try done.
  - intros (-> & -> & ?). repeat split; lia.
  - intros (-> & -> & ? & ?). repeat split; lia || done.
  - intros (-> & -> & ? & ?). repeat split; lia || done.
  - intros (-> & -> & Hld & T0 & -> & [(-> & -> & ?)|(? & ? & ?)]); [|lia].
    repeat (split; [done|]). exists T. split; [done|]. right.
    assert (B = T + 1) as -> by lia. split_and!; [lia|done|done].
  - intros (_ & _ & _ & ? & _). lia.
  - intros (_ & _ & ?). lia.
Qed.

(** [_bottom] never runs ahead of the tasks. *)
Lemma inv_bottom s T B l :
  inv s T B l -> _bottom (s_queue s) = B mod n \/ _bottom (s_queue s) = (B - 1) mod n.
Proof. intros [_ Ho _]. destruct (s_owner s); simpl in Ho; intuition congruence. Qed.

Lemma size_positive s T B l :
  inv s T B l -> size (_bottom (s_queue s)) (T mod n) <> 0 -> T < B.
Proof.
  intros HI. pose proof (inv_range _ _ _ _ HI) as Hr.
  destruct (decide (T = B)) as [->|]; [|lia]. intros Hs. destruct Hs.
  destruct (inv_bottom _ _ _ _ HI) as [-> | ->].
  - unfold size. by rewrite dirty_size_cursor, Z.sub_diag.
  - rewrite size_cursor by lia. lia.
Qed.

Lemma size_dirty b t : size b t <> 0 -> 0 < dirty_size b t < n - 1.
Proof.
  unfold size. pose proof (dirty_size_range b t).
  destruct (Z.eqb_spec (dirty_size b t) (n - 1)); lia.
Qed.

Lemma glob_bottom_ok q e pc ts i T B l old e0 :
  inv (mkState q e pc ts) T B l -> seen old e0 e T True ->
  thief_preserves q e pc ts i (Glob_bottom old e0) l.
Proof.
  intros HI Hseen. destruct (Z.eqb_spec (size (_bottom q) (_top old)) 0) as [Hz|Hnz].
  - eapply (thief_reads _ _ _ _ _ _ _ _ _ Resting (Some StealFailed)); [done|..|done|constructor].
    simpl. by rewrite Hz.
  - eapply (thief_reads _ _ _ _ _ _ _ _ _ (Glob_elem old e0 (_bottom q)) None); [done|..|done].
    { simpl. by rewrite (proj2 (Z.eqb_neq _ _)). }
    split; [|split; [|by apply size_dirty]].
    + destruct Hseen as (T0 & -> & Hc). exists T0. split; [done|].
      destruct Hc as [|(He & Ht & _)]; [by left|]. right. split_and!; [done..|].
      simpl in Hnz. rewrite Ht in Hnz. eapply size_positive; [exact HI|done].
    + destruct (inv_bottom _ _ _ _ HI); simpl in *; eauto.
Qed.

Lemma glob_elem_ok q e pc ts i T B l old e0 lb :
  inv (mkState q e pc ts) T B l -> thief_ok (_elems q) e T B (Glob_elem old e0 lb) ->
  thief_preserves q e pc ts i (Glob_elem old e0 lb) l.
Proof.
  intros HI [(T0 & -> & Hc) Hr].
  destruct (load_is_Some (_elems q) (T0 mod n)) as [t Ht].
  { rewrite (fo_elems _ _ _ _ _ _ (inv_fields _ _ _ _ HI) : zlen (_elems q) = _).
    apply cursor_range. }
  eapply (thief_reads _ _ _ _ _ _ _ _ _ (Glob_cas _ e0 lb t) None); [done|..|done].
  { simpl. by rewrite Ht. }
  split; [|done]. exists T0. split; [done|].
  destruct Hc as [|(He & Hq & Hlt)]; [by left|]. right. by rewrite <- Hq.
Qed.

(** A tag that has not gone round identifies the age. *)
Lemma seen_current old e0 e T P age :
  seen old e0 e T P -> age = mkAge (T mod n) (u16 e) -> e - e0 < 2 ^ 16 -> age = old -> e0 = e /\ P.
Proof.
  intros (T0 & Ho & Hc) Ha Hlt Heq. rewrite Heq, Ho in Ha. injection Ha as Ht He.
  assert (e0 = e) as ->.
  { destruct Hc as [Hb|[]]; [|done]. unfold before in Hb. revert He Hlt. unfold wrapu. pow2_norm.
    Z.to_euclidean_division_equations; lia. }
  destruct Hc as [Hb|(_ & _ & HP)]; [unfold before in Hb; lia|done].
Qed.

(** The assertion of [pop_global]. *)
Lemma glob_assert B0 T0 :
  0 < dirty_size (B0 mod n) (T0 mod n) < n - 1 ->
  (dirty_size (B0 mod n) ((T0 + 1) mod n) =? n - 1) = false.
Proof.
  rewrite !dirty_size_cursor. intros Hd. apply Z.eqb_neq.
  rewrite n_val in *. Z.to_euclidean_division_equations; lia.
Qed.

Lemma glob_cas_ok q e pc ts i T B l old e0 lb t :
  inv (mkState q e pc ts) T B l -> thief_ok (_elems q) e T B (Glob_cas old e0 lb t) ->
  e - e0 < 2 ^ 16 ->
  thief_preserves q e pc ts i (Glob_cas old e0 lb t) l.
Proof.
  intros HI (Hseen & (B0 & ->) & Hd) Hlt.
  pose proof (fo_age _ _ _ _ _ _ (inv_fields _ _ _ _ HI) : _age q = _) as Ha.
  assert (exists T0, _top old = T0 mod n) as [T0 Htop] by (destruct Hseen as (T0 & -> & _); eauto).
  rewrite Htop in Hd. pose proof (glob_assert _ _ Hd) as Hassert.
  destruct (decide (_age q = old)) as [Hage|Hage].
  - destruct (seen_current _ _ _ _ _ _ Hseen Ha Hlt Hage) as (-> & HTB & Hload).
    destruct HI as [Hf Ho Ht]; simpl in *.
    destruct (fields_first _ _ _ _ _ _ t Hf) as (l' & -> & Hf'); [done..|].
    eexists _, (if (T + 1) mod n =? 0 then e + 1 else e), Resting, (Some (Stolen t)), (T + 1), B, l'.
    split; [|split; [|constructor]].
    + cbn [thief_step]; cbv zeta.
      rewrite Htop, increment_index_cursor, u16_cursor, Hassert, decide_True by done.
      cbn [negb]. rewrite <- Hage, Ha in Htop. cbn [_top] in Htop.
      rewrite <- (increment_index_cursor T0), <- Htop, increment_index_cursor. done.
    + constructor; simpl.
      * replace (mkAge _ _) with (mkAge ((T + 1) mod n)
          (u16 (if (T + 1) mod n =? 0 then e + 1 else e))); [done|].
        f_equal. rewrite <- Hage, Ha. simpl. case_match; [by rewrite u16_succ|done].
      * by apply owner_stolen.
      * apply Forall_insert; [|done]. revert Ht. apply Forall_impl. intros th.
        apply thief_advance, before_next.
  - eapply (thief_reads _ _ _ _ _ _ _ _ _ Resting (Some StealFailed)); [done|..|done|constructor].
    cbn [thief_step]; cbv zeta.
    rewrite Htop, increment_index_cursor, u16_cursor, Hassert, decide_False by done. done.
Qed.

(** *** Executions *)

Lemma thief_step_ok q e pc ts T B l i th :
  inv (mkState q e pc ts) T B l -> timely (mkState q e pc ts) ->
  ts !! i = Some th -> th <> Resting -> thief_preserves q e pc ts i th l.
Proof.
  intros HI Htm Hi Hne. pose proof (Forall_lookup_1 _ _ _ _ (inv_thieves _ _ _ _ HI) Hi) as Hok.
  destruct th as [| |old e0|old e0 lb|old e0 lb t]; [done|..].
  - eapply (thief_reads _ _ _ _ _ _ _ _ _ (Glob_bottom (_age q) e) None); [done..| |done].
    exists T. split; [apply (fo_age _ _ _ _ _ _ (inv_fields _ _ _ _ HI))|]. auto.
  - by eapply glob_bottom_ok.
  - by eapply glob_elem_ok.
  - eapply glob_cas_ok; [done..|]. by eapply Htm.
Qed.

Lemma queue_step_ok s ev s' T B l :
  inv s T B l -> timely s -> step s ev s' ->
  exists T' B' l', inv s' T' B' l' /\ event_ok l ev l'.
Proof.
  intros HI Htm Hs. destruct Hs.
  - exists T, B, l. by destruct HI.
  - exists T, B, l. by destruct HI.
  - destruct (owner_step_ok _ _ _ _ _ _ _ HI) as (?&?&?&?&?&?&?&?&?&?); [by intros ->|].
    simplify_eq. eauto.
  - exists T, B, l. destruct HI. split; [|done]. constructor; [done..|]. by apply Forall_insert.
  - destruct (thief_step_ok _ _ _ _ _ _ _ _ _ HI Htm H) as (?&?&?&?&?&?&?&?&?&?); [by intros ->|].
    simplify_eq. eauto.
Qed.

Lemma inv_initial elems k : zlen elems = n -> inv (initial elems k) 0 0 [].
Proof.
  intros Hn. constructor; simpl.
  - constructor; try done.
  - done.
  - by apply Forall_replicate.
Qed.

Lemma exec_ok s evs s' T B l :
  inv s T B l -> exec timely s evs s' -> exists T' B' l', inv s' T' B' l' /\ deque_run l evs l'.
Proof.
  intros HI Hx. induction Hx as [|s evs s' ev s'' Hx IH Htm Hs].
  - exists T, B, l. split; [done|constructor].
  - destruct (IH HI) as (T' & B' & l' & HI' & Hrun).
    destruct (queue_step_ok _ _ _ _ _ _ HI' Htm Hs) as (T2 & B2 & l2 & HI2 & Hev).
    exists T2, B2, l2. split; [done|]. destruct ev; simpl in *; [by econstructor|].
    rewrite app_nil_r. by subst.
Qed.

Lemma inv_effective_bottom s T B l : inv s T B l -> effective_bottom s = B mod n.
Proof.
  intros [_ Ho _]. unfold effective_bottom.
  destruct (s_owner s); simpl in Ho; try (done || tauto).
  all: assert (Hlb : localBot = (B - 1) mod n) by tauto; rewrite Hlb, increment_index_cursor;
    f_equal; lia.
Qed.

Lemma omap_lookup_seqZ l (f : Z -> option E) :
  (forall (i : nat) x, l !! i = Some x -> f (Z.of_nat i) = Some x) ->
  omap f (seqZ 0 (zlen l)) = l.
Proof.
  induction l as [|x l IH] using rev_ind; intros Hf; [done|].
  rewrite length_app, Nat2Z.inj_add, seqZ_app, omap_app, IH by (simpl; lia || eauto using lookup_app_l_Some).
  f_equal. change (Z.of_nat (length [x])) with 1. rewrite Z.add_0_l. unfold seqZ. simpl.
  rewrite Z.add_0_l, (Hf (length l) x); [done|]. by apply list_lookup_middle.
Qed.

Lemma inv_contents s T B l : inv s T B l -> contents s = l.
Proof.
  intros HI. pose proof (inv_range _ _ _ _ HI) as Hr. unfold contents.
  rewrite (inv_effective_bottom _ _ _ _ HI), (inv_top _ _ _ _ HI), dirty_size_small by lia.
  rewrite <- (inv_zlen _ _ _ _ HI). apply omap_lookup_seqZ. intros i x Hi.
  rewrite Zplus_mod_idemp_l. by apply (fo_holds _ _ _ _ _ _ (inv_fields _ _ _ _ HI)).
Qed.

Lemma thief_step_some s T B l i th :
  inv s T B l -> s_thieves s !! i = Some th -> th <> Resting ->
  is_Some (thief_step (s_queue s) (s_epoch s) th).
Proof.
  intros HI Hi Hne. pose proof (Forall_lookup_1 _ _ _ _ (inv_thieves _ _ _ _ HI) Hi) as Hok.
  destruct th as [| |old e0|old e0 lb|old e0 lb t]; [done|..]; cbn [thief_step]; cbv zeta.
  - done.
  - by case_match.
  - destruct Hok as [(T0 & -> & _) _].
    destruct (load_is_Some (_elems (s_queue s)) (T0 mod n)) as [t Ht]; [|simpl; by rewrite Ht].
    rewrite (fo_elems _ _ _ _ _ _ (inv_fields _ _ _ _ HI)). apply cursor_range.
  - destruct Hok as ((T0 & -> & _) & (B0 & ->) & Hd).
    cbn [_top] in *. rewrite increment_index_cursor, u16_cursor, glob_assert by done.
    simpl. by case_decide.
Qed.

Lemma deque_run_conserves l evs l' : deque_run l evs l' -> l ++ pushed evs ≡ₚ taken evs ++ l'.
Proof.
  intros Hr. induction Hr as [|l evs l' ev l'' _ IH Hd]; [by rewrite app_nil_r|].
  unfold pushed, taken in *. rewrite !omap_app, !app_assoc, IH.
  destruct Hd; simpl; rewrite ?app_nil_r; solve_Permutation.
Qed.
End invariant.

(** ** Runs of single calls *)

Section runs.
Context {E : Type} (P : state (E := E) -> Prop) (ts : list (thief_pc (E := E))).
Hypothesis HP : forall q e pc, P (mkState q e pc ts).
Implicit Types (t : E) (elems : list E) (s : state (E := E)).

Lemma exec_app s evs s' evs' s'' :
  exec P s evs s' -> exec P s' evs' s'' -> exec P s (evs ++ evs') s''.
Proof.
  intros H1 H2. induction H2 as [|s' evs' s'' ev s3 H2 IH HP' Hs]; [by rewrite app_nil_r|].
  rewrite app_assoc. econstructor; eauto.
Qed.

Lemma exec_one s ev s' : P s -> step s ev s' -> exec P s (option_list ev) s'.
Proof. intros. apply (exec_step P s [] s ev s'); [constructor|done..]. Qed.

Lemma exec_silent s s' evs s'' : step s None s' -> P s -> exec P s' evs s'' -> exec P s evs s''.
Proof. intros. apply (exec_app s [] s'); [by apply (exec_one s None)|done]. Qed.

Lemma exec_event s s' ev evs s'' :
  step s (Some ev) s' -> P s -> exec P s' evs s'' -> exec P s (ev :: evs) s''.
Proof. intros. apply (exec_app s [ev] s'); [by apply (exec_one s (Some ev))|done]. Qed.

Ltac owner_silent := eapply exec_silent; [by apply step_owner|apply HP|].
Ltac owner_event := eapply exec_event; [by apply step_owner|apply HP|].

(** A push onto, and a pop from, the queue with both ends at the start of the array. *)
Lemma push_run g e t elems :
  zlen elems = n ->
  exec P (mkState (mkQueue 0 (mkAge 0 g) elems) e Idle ts) [Pushed t]
    (mkState (mkQueue 1 (mkAge 0 g) (<[0%nat := t]> elems)) e Idle ts).
Proof using HP.
  intros Hn. eapply exec_silent; [apply step_push|apply HP|].
  do 2 owner_silent.
  eapply exec_silent; [apply step_owner|apply HP|].
  { owner_simpl. unfold store. rewrite decide_True; [done|].
    rewrite Hn, n_val. lia. }
  owner_event. constructor.
Qed.

Lemma pop_run g e t elems :
  elems !! 0%nat = Some t ->
  exec P (mkState (mkQueue 1 (mkAge 0 g) elems) e Idle ts) [Popped t]
    (mkState (mkQueue 0 (mkAge 0 (u16 (g + 1))) elems) (e + 1) Idle ts).
Proof using HP.
  intros Ht. eapply exec_silent; [apply step_pop_local|apply HP|].
  do 3 owner_silent.
  eapply exec_silent; [apply step_owner|apply HP|].
  { owner_simpl. change (load elems _) with (load elems (Z.of_nat 0)).
    by rewrite load_nat, Ht. }
  do 2 owner_silent.
  eapply exec_event; [apply step_owner|apply HP|].
  { owner_simpl. by rewrite decide_True. }
  owner_silent. constructor.
Qed.

Lemma rounds_run (k : nat) e t elems :
  zlen elems = n ->
  let at_rest e elems := mkState (mkQueue 0 (mkAge 0 (u16 e)) elems) e Idle ts in
  exists elems', zlen elems' = n /\
    exec P (at_rest e elems) (mjoin (replicate k [Pushed t; Popped t]))
      (at_rest (e + Z.of_nat k) elems').
Proof using HP.
  intros Hn at_rest. revert e elems Hn. induction k as [|k IH]; intros e elems Hn.
  { exists elems. rewrite Z.add_0_r. split; [done|constructor]. }
  destruct (IH (e + 1) (<[0%nat := t]> elems)) as (elems' & Hn' & Hx); [by rewrite length_insert|].
  exists elems'. split; [done|].
  replace (e + Z.of_nat (S k)) with (e + 1 + Z.of_nat k) by lia.
  eapply (exec_app _ [Pushed t; Popped t]); [|exact Hx].
  eapply (exec_app _ [Pushed t] _ [_]); [by apply push_run|].
  unfold at_rest. rewrite <- u16_succ. apply pop_run, list_lookup_insert_eq.
  rewrite n_val in Hn. lia.
Qed.
End runs.

(** The schedule in which a thief sleeps through [k + 1] changes of the tag. *)
Section stale_thief.
Context {E : Type} (a b x : E).
Let P (s : state (E := E)) : Prop := True.

Definition stale : thief_pc := Glob_cas (mkAge 0 0) 0 1 a.

Lemma thief_reads_task elems :
  elems !! 0%nat = Some a ->
  exec P (mkState (mkQueue 1 (mkAge 0 0) elems) 0 Idle [Resting]) []
    (mkState (mkQueue 1 (mkAge 0 0) elems) 0 Idle [stale]).
Proof.
  intros Ha. eapply exec_silent; [by apply (step_pop_global _ _ _ _ 0)|done|].
  do 2 (eapply exec_silent; [by eapply (step_thief _ _ _ _ 0)|done|]).
  eapply exec_silent; [eapply (step_thief _ _ _ _ 0); [done|]|done|].
  { cbn [thief_step _elems _age _top]. change (load elems 0) with (load elems (Z.of_nat 0)).
    by rewrite load_nat, Ha. }
  constructor.
Qed.

Lemma stale_run (k : nat) elems :
  zlen elems = n -> u16 (1 + Z.of_nat k) = 0 ->
  exists elems', exec P (initial elems 1)
    ([Pushed a; Popped a] ++ mjoin (replicate k [Pushed x; Popped x]) ++ [Pushed b; Stolen a])
    (mkState (mkQueue 1 (mkAge 1 0) elems') (1 + Z.of_nat k) Idle [Resting]).
Proof.
  intros Hn Hk. pose proof n_val as Hnv.
  destruct (rounds_run P [stale] (fun _ _ _ => I) k 1 x (<[0%nat := a]> elems))
    as (elems' & Hn' & Hx); [by rewrite length_insert|].
  assert (Ha : <[0%nat := a]> elems !! 0%nat = Some a) by (apply list_lookup_insert_eq; lia).
  exists (<[0%nat := b]> elems').
  apply (exec_app _ _ [Pushed a] (mkState (mkQueue 1 (mkAge 0 0) (<[0%nat := a]> elems)) 0 Idle [Resting])).
  { by apply (push_run P [Resting] (fun _ _ _ => I)). }
  apply (exec_app _ _ [] (mkState (mkQueue 1 (mkAge 0 0) (<[0%nat := a]> elems)) 0 Idle [stale])).
  { by apply thief_reads_task. }
  eapply (exec_app _ _ [Popped a]); [by apply (pop_run P [stale] (fun _ _ _ => I))|].
  eapply exec_app; [exact Hx|]. rewrite Hk.
  eapply (exec_app _ _ [Pushed b] _ [_]); [by apply (push_run P [stale] (fun _ _ _ => I))|].
  apply (exec_one _ _ (Some (Stolen a))); [done|].
  by apply (step_thief _ _ _ [stale] 0 stale _ _ Resting).
Qed.

Lemma stale_trace (k : nat) :
  let evs := [Pushed a; Popped a] ++ mjoin (replicate k [Pushed x; Popped x]) ++ [Pushed b; Stolen a] in
  pushed evs = a :: replicate k x ++ [b] /\ taken evs = a :: replicate k x ++ [a].
Proof.
  unfold pushed, taken. simpl. rewrite !omap_app. simpl.
  split; do 2 f_equal; (induction k as [|k IH]; [done|simpl; by f_equal]).
Qed.
End stale_thief.

(** ** How far a call is from its return *)

Section ranks.
Context {E : Type}.

Definition owner_rank (pc : owner_pc (E := E)) : nat :=
  match pc with
  | Idle => 0
  | Push_bottom _ => 5 | Push_top _ _ => 4 | Push_slow _ => 3 | Push_elem _ _ => 2
  | Push_store _ _ => 1
  | Pop_bottom => 9 | Pop_top _ => 8 | Pop_store _ => 7 | Pop_elem _ => 6 | Pop_age _ _ => 5
  | Pop_slow _ _ => 4 | Pop_cas _ _ _ _ => 3 | Pop_reset _ _ _ => 2 | Pop_assert _ _ => 1
  end.

Definition thief_rank (th : thief_pc (E := E)) : nat :=
  match th with
  | Resting => 0 | Glob_age => 4 | Glob_bottom _ _ => 3 | Glob_elem _ _ _ => 2
  | Glob_cas _ _ _ _ => 1
  end.

Lemma owner_step_rank (q : queue (E := E)) e pc q' e' pc' ev :
  owner_step q e pc = Some (q', e', pc', ev) -> (owner_rank pc' < owner_rank pc)%nat.
Proof.
  destruct pc; owner_simpl; intros H; try done;
    repeat case_match; simplify_option_eq; simpl; lia.
Qed.

Lemma thief_step_rank (q : queue (E := E)) e th q' e' th' ev :
  thief_step q e th = Some (q', e', th', ev) -> (thief_rank th' < thief_rank th)%nat.
Proof.
  destruct th; cbn [thief_step]; cbv zeta; intros H; try done;
    repeat case_match; simplify_option_eq; simpl; lia.
Qed.
End ranks.

Section task_queue_theorems.
Context {E : Type}.

(** C1: A task queue used by its owner and any number of thieves, in any
    interleaving of their accesses, behaves as a double-ended queue: the calls take
    effect one after the other, [push] at the end, [pop_local] from the end,
    [pop_global] from the front; [push] fails only when [max_elems] tasks are there
    and [pop_local] only when none is.  So no task is lost and none is taken twice:
    what has been pushed is what has been taken together with what is in the queue.
    No assertion fails and no access is out of bounds.  This is under the condition
    that no thief sleeps through 2^16 changes of the tag between reading the age and its exchange. *)
Theorem task_queue_refines (elems : list E) (thieves : nat) evs s
  (Hn : zlen elems = n) (Hx : exec timely (initial elems thieves) evs s) :
  deque_run [] evs (contents s) /\ pushed evs ≡ₚ taken evs ++ contents s /\
  (s_owner s <> Idle -> is_Some (owner_step (s_queue s) (s_epoch s) (s_owner s))) /\
  (forall i th, s_thieves s !! i = Some th -> th <> Resting ->
     is_Some (thief_step (s_queue s) (s_epoch s) th)).
Proof.
  destruct (exec_ok _ _ _ _ _ _ (inv_initial elems thieves Hn) Hx) as (T & B & l & HI & Hrun).
  rewrite (inv_contents _ _ _ _ HI). split; [done|].
  split; [by apply deque_run_conserves in Hrun|]. split.
  - destruct s as [q e pc ts]. simpl. intros Hpc.
    destruct (owner_step_ok _ _ _ _ _ _ _ HI Hpc) as (?&?&?&?&?&?&?&->&_). done.
  - intros i th. by eapply thief_step_some.
Qed.

(** C31: The queue is wait-free: a call of the owner returns after at most nine, and
    a call of a thief after at most four steps of its own, however the others are
    scheduled, since every step is possible and brings the call nearer to its
    return, and the steps of other threads do not move it. *)
Theorem task_queue_wait_free (elems : list E) (thieves : nat) evs s
  (Hn : zlen elems = n) (Hx : exec timely (initial elems thieves) evs s) :
  (s_owner s <> Idle -> exists q' e' pc' ev,
     owner_step (s_queue s) (s_epoch s) (s_owner s) = Some (q', e', pc', ev) /\
     (owner_rank pc' < owner_rank (s_owner s) <= 9)%nat) /\
  (forall i th, s_thieves s !! i = Some th -> th <> Resting -> exists q' e' th' ev,
     thief_step (s_queue s) (s_epoch s) th = Some (q', e', th', ev) /\
     (thief_rank th' < thief_rank th <= 4)%nat).
Proof.
  destruct (exec_ok _ _ _ _ _ _ (inv_initial elems thieves Hn) Hx) as (T & B & l & HI & Hrun).
  split.
  - destruct s as [q e pc ts]. simpl. intros Hpc.
    destruct (owner_step_ok _ _ _ _ _ _ _ HI Hpc) as (q'&e'&pc'&ev&_&_&_&Hs&_).
    exists q', e', pc', ev. apply owner_step_rank in Hs as Hr. destruct pc; simpl in *; auto with lia.
  - intros i th Hi Hth. destruct (thief_step_some _ _ _ _ _ _ HI Hi Hth) as [[[[q' e'] th'] ev] Hs].
    exists q', e', th', ev. apply thief_step_rank in Hs as Hr. destruct th; simpl in *; auto with lia.
Qed.

(** The condition is needed, whatever the comment in [pop_local_slow] says of
    the tag: it has 16 bits.  A thief that is delayed between reading the first
    task and its exchange, while the owner pops that task and then pushes and pops
    65535 others before pushing [b], succeeds with an exchange that compares equal
    ages: it takes the stale task a second time, and [b] is lost. *)
Theorem tag_wraps_around (elems : list E) (a b x : E) (Hn : zlen elems = n) :
  exists evs s, exec (fun _ => True) (initial elems 1) evs s /\ contents s = [] /\
    pushed evs = a :: replicate (Z.to_nat 65535) x ++ [b] /\ taken evs = a :: replicate (Z.to_nat 65535) x ++ [a].
Proof.
  destruct (stale_run a b x (Z.to_nat 65535) elems Hn) as [elems' Hx];
    [rewrite Z2Nat.id by lia; reflexivity|].
  eexists _, _. split; [exact Hx|]. split; [done|]. apply stale_trace.
Qed.
End task_queue_theorems.

(** ** Witnesses *)

Definition sample_elems : list Z := replicate (Z.to_nat n) 0.

Lemma sample_elems_length : zlen sample_elems = n.
Proof. unfold sample_elems. rewrite length_replicate. apply Z2Nat.id. rewrite n_val. lia. Qed.

Lemma sample_timely q e pc : timely (mkState (E := Z) q e pc [Resting]).
Proof. intros i oldAge e0 localBot t Hi. by apply list_lookup_singleton_Some in Hi as [_ [=]]. Qed.

Definition sample_end : state :=
  mkState (mkQueue 0 (mkAge 0 1) (<[0%nat := 7]> sample_elems)) 1 Idle [Resting].

(** The owner pushes 7 and pops it. *)
Lemma sample_run : exec timely (initial sample_elems 1) [Pushed 7; Popped 7] sample_end.
Proof.
  pose proof sample_elems_length as Hn.
  eapply (exec_app _ _ [Pushed 7] _ [_]).
  - by apply (push_run timely [Resting] sample_timely).
  - apply (pop_run timely [Resting] sample_timely 0 0 7). apply list_lookup_insert_eq.
    rewrite n_val in Hn. lia.
Qed.

Lemma task_queue_refines_witness :
  contents sample_end = [] /\
  deque_run [] [Pushed 7; Popped 7] (contents sample_end) /\ [7] ≡ₚ [7] ++ contents sample_end.
Proof.
  split; [reflexivity|].
  destruct (task_queue_refines sample_elems 1 _ _ sample_elems_length sample_run) as (Hr & Hp & _).
  split; [exact Hr|exact Hp].
Defined.

(** The owner is in a second call. *)
Definition sample_mid : state :=
  mkState (s_queue sample_end) (s_epoch sample_end) Pop_bottom [Resting].

Lemma sample_mid_run : exec timely (initial sample_elems 1) [Pushed 7; Popped 7] sample_mid.
Proof.
  apply (exec_step _ _ [Pushed 7; Popped 7] sample_end None); [apply sample_run|apply sample_timely|].
  apply step_pop_local.
Qed.

Lemma task_queue_wait_free_witness :
  s_owner sample_mid <> Idle /\ exists q' e' pc' ev,
     owner_step (s_queue sample_mid) (s_epoch sample_mid) (s_owner sample_mid)
       = Some (q', e', pc', ev) /\
     (owner_rank pc' < owner_rank (s_owner sample_mid) <= 9)%nat.
Proof.
  split; [discriminate|].
  destruct (task_queue_wait_free sample_elems 1 _ _ sample_elems_length sample_mid_run) as [H _].
  apply H. discriminate.
Defined.

Lemma tag_wraps_around_witness :
  exists evs s, exec (fun _ => True) (initial sample_elems 1) evs s /\ contents s = [] /\
    pushed evs = 1 :: replicate (Z.to_nat 65535) 0 ++ [2] /\
    taken evs = 1 :: replicate (Z.to_nat 65535) 0 ++ [1].
Proof. apply (tag_wraps_around sample_elems 1 2 0 sample_elems_length). Defined.
