(* ===== verification/GrowableArray.v ===== *)
(** * Growable arrays

    Model of utilities/growableArray.hpp and growableArray.cpp: an array of [E]
    with a length and a capacity that doubles when an index beyond it is used.  The
    size of an allocation is computed as the code computes it, in an [int].  Where
    the memory comes from (resource area, C heap or an arena) makes no difference
    to the operations; an allocation that fails ends the VM.  The check of resource
    nesting in debug builds, printing and the calls of [qsort] are left out. *)

From S2P Require Import Prelude.

Open Scope Z_scope.

(** The iterations of [for (i = from; i < to; i++)]. *)
Definition iterations (from to : Z) : nat := Z.to_nat (to - from).

Section growable_array.
Context {E : Type} `{EqDecision E}.
(** [E()], what fresh memory holds, and [sizeof(E)]. *)
Context (dflt : E) (junk : nat -> E) (elementSize : Z).

Record GrowableArray := mkGrowableArray { _len : Z; _max : Z; _data : list E }.

(** ** Allocation and growth *)

(** The array that [elementSize * _max] bytes hold. *)
Definition raw_allocate (max : Z) : list E :=
  new_array junk (u64 (s32 (elementSize * max)) / elementSize).

(** [for ( ; j < to; j++) data[j] = v] *)
Fixpoint fill_loop (k : nat) (data : list E) (j : Z) (v : E) : option (list E) :=
  match k with
  | O => Some data
  | S k => data ← store data j v; fill_loop k data (j + 1) v
  end.

(** [for ( ; i < len; i++) new ((void* )&newData[i]) E(data[i])] *)
Fixpoint copy_loop (k : nat) (newData data : list E) (i : Z) : option (list E) :=
  match k with
  | O => Some newData
  | S k => x ← load data i; newData ← store newData i x; copy_loop k newData data (i + 1)
  end.

Definition new_GrowableArray (initial_size initial_len : Z) (filler : E) : option GrowableArray :=
  ASSERT (0 <=? initial_len) && (initial_len <=? initial_size) ;;
  let data := raw_allocate initial_size in
  data ← fill_loop (iterations 0 initial_len) data 0 filler;
  data ← fill_loop (iterations initial_len initial_size) data initial_len dflt;
  Some (mkGrowableArray initial_len initial_size data).

Definition sized_GrowableArray (initial_size : Z) : option GrowableArray :=
  ASSERT (0 <=? initial_size) ;;
  data ← fill_loop (iterations 0 initial_size) (raw_allocate initial_size) 0 dflt;
  Some (mkGrowableArray 0 initial_size data).

Definition default_GrowableArray : option GrowableArray :=
  let data := raw_allocate 2 in
  data ← store data 0 dflt;
  data ← store data 1 dflt;
  Some (mkGrowableArray 0 2 data).

(** [while (j >= _max) _max = _max*2]; [None] when the fuel runs out. *)
Fixpoint grow_loop (fuel : nat) (j max : Z) : option Z :=
  match fuel with
  | O => None
  | S fuel => if j >=? max then grow_loop fuel j (s32 (max * 2)) else Some max
  end.

Definition grow (a : GrowableArray) (j : Z) : option GrowableArray :=
  max ← grow_loop 33 j (if _max a =? 0 then 1 else _max a);
  let newData := raw_allocate max in
  newData ← copy_loop (iterations 0 (_len a)) newData (_data a) 0;
  newData ← fill_loop (iterations (_len a) max) newData (_len a) dflt;
  Some (mkGrowableArray (_len a) max newData).

(** ** Operations *)

Definition clear (a : GrowableArray) : GrowableArray := mkGrowableArray 0 (_max a) (_data a).
Definition ga_length (a : GrowableArray) : Z := _len a.
Definition trunc_to (a : GrowableArray) (l : Z) : option GrowableArray :=
  ASSERT l <=? _len a ;; Some (mkGrowableArray l (_max a) (_data a)).
Definition is_empty (a : GrowableArray) : bool := _len a =? 0.
Definition is_full (a : GrowableArray) : bool := _len a =? _max a.

Definition append (a : GrowableArray) (elem : E) : option GrowableArray :=
  a ← (if _len a =? _max a then grow a (_len a) else Some a);
  data ← store (_data a) (_len a) elem;
  Some (mkGrowableArray (s32 (_len a + 1)) (_max a) data).

(** [for (i = 0; i < _len; i++) if (f(_data[i])) return i; return -1] *)
Fixpoint find_loop (k : nat) (f : E -> bool) (data : list E) (i : Z) : option Z :=
  match k with
  | O => Some (-1)
  | S k => x ← load data i; if f x then Some i else find_loop k f data (i + 1)
  end.

(** [for (i = _len-1; i >= 0; i--) if (f(_data[i])) return i; return -1] *)
Fixpoint find_back_loop (k : nat) (f : E -> bool) (data : list E) (i : Z) : option Z :=
  match k with
  | O => Some (-1)
  | S k => x ← load data i; if f x then Some i else find_back_loop k f data (i - 1)
  end.

Definition find_token (a : GrowableArray) (f : E -> bool) : option Z :=
  find_loop (iterations 0 (_len a)) f (_data a) 0.
Definition find_at_end (a : GrowableArray) (f : E -> bool) : option Z :=
  find_back_loop (iterations 0 (_len a)) f (_data a) (_len a - 1).
Definition find (a : GrowableArray) (elem : E) : option Z :=
  find_loop (iterations 0 (_len a)) (fun x => bool_decide (x = elem)) (_data a) 0.

(** [for (i = 0; i < _len; i++) if (_data[i] == elem) return true; return false] *)
Fixpoint contains_loop (k : nat) (data : list E) (elem : E) (i : Z) : option bool :=
  match k with
  | O => Some false
  | S k => x ← load data i;
      if bool_decide (x = elem) then Some true else contains_loop k data elem (i + 1)
  end.
Definition contains (a : GrowableArray) (elem : E) : option bool :=
  contains_loop (iterations 0 (_len a)) (_data a) elem 0.

Definition append_if_missing (a : GrowableArray) (elem : E) : option GrowableArray :=
  b ← contains a elem;
  if negb b then append a elem else Some a.

Definition at_ (a : GrowableArray) (i : Z) : option E :=
  ASSERT (0 <=? i) && (i <? _len a) ;; load (_data a) i.
Definition first (a : GrowableArray) : option E :=
  ASSERT _len a >? 0 ;; load (_data a) 0.
Definition top (a : GrowableArray) : option E :=
  ASSERT _len a >? 0 ;; load (_data a) (_len a - 1).
Definition push (a : GrowableArray) (elem : E) : option GrowableArray := append a elem.
Definition pop (a : GrowableArray) : option (GrowableArray * E) :=
  ASSERT _len a >? 0 ;;
  x ← load (_data a) (_len a - 1);
  Some (mkGrowableArray (_len a - 1) (_max a) (_data a), x).
Definition at_put (a : GrowableArray) (i : Z) (elem : E) : option GrowableArray :=
  ASSERT (0 <=? i) && (i <? _len a) ;;
  data ← store (_data a) i elem;
  Some (mkGrowableArray (_len a) (_max a) data).

Definition at_grow (a : GrowableArray) (i : Z) (fill : E) : option (GrowableArray * E) :=
  ASSERT 0 <=? i ;;
  a ← (if i >=? _len a then
         a ← (if i >=? _max a then grow a i else Some a);
         data ← fill_loop (iterations (_len a) (i + 1)) (_data a) (_len a) fill;
         Some (mkGrowableArray (s32 (i + 1)) (_max a) data)
       else Some a);
  x ← load (_data a) i;
  Some (a, x).

Definition raw_at_put_grow (a : GrowableArray) (i : Z) (p fill : E) : option GrowableArray :=
  a ← (if i >=? _len a then
         a ← (if i >=? _max a then grow a i else Some a);
         data ← fill_loop (iterations (_len a) i) (_data a) (_len a) fill;
         Some (mkGrowableArray (s32 (i + 1)) (_max a) data)
       else Some a);
  data ← store (_data a) i p;
  Some (mkGrowableArray (_len a) (_max a) data).

Definition at_put_grow (a : GrowableArray) (i : Z) (elem fill : E) : option GrowableArray :=
  ASSERT 0 <=? i ;; raw_at_put_grow a i elem fill.

(** [for ( ; j < _len; j++) _data[j-1] = _data[j]] *)
Fixpoint shift_loop (k : nat) (data : list E) (j : Z) : option (list E) :=
  match k with
  | O => Some data
  | S k => x ← load data j; data ← store data (j - 1) x; shift_loop k data (j + 1)
  end.

Definition remove_at (a : GrowableArray) (index : Z) : option GrowableArray :=
  ASSERT (0 <=? index) && (index <? _len a) ;;
  data ← shift_loop (iterations (index + 1) (_len a)) (_data a) (index + 1);
  Some (mkGrowableArray (_len a - 1) (_max a) data).

(** [remove]: the loop that looks for [elem]; past the end is [ShouldNotReachHere]. *)
Fixpoint remove_loop (k : nat) (a : GrowableArray) (elem : E) (i : Z) : option GrowableArray :=
  match k with
  | O => None
  | S k =>
      x ← load (_data a) i;
      if bool_decide (x = elem) then
        data ← shift_loop (iterations (i + 1) (_len a)) (_data a) (i + 1);
        Some (mkGrowableArray (_len a - 1) (_max a) data)
      else remove_loop k a elem (i + 1)
  end.
Definition remove (a : GrowableArray) (elem : E) : option GrowableArray :=
  remove_loop (iterations 0 (_len a)) a elem 0.

(** [appendAll], of an array other than this one; [zero] is [E(0)]. *)
Fixpoint append_all_loop (k : nat) (a l : GrowableArray) (zero : E) (i : Z) : option GrowableArray :=
  match k with
  | O => Some a
  | S k =>
      x ← load (_data l) i;
      a ← raw_at_put_grow a (_len a) x zero;
      append_all_loop k a l zero (i + 1)
  end.
Definition appendAll (a l : GrowableArray) (zero : E) : option GrowableArray :=
  append_all_loop (iterations 0 (_len l)) a l zero 0.
End growable_array.

(** ** The operations as list operations *)

Section operations.
Context {E : Type} `{EqDecision E} (dflt : E) (junk : nat -> E) (elementSize : Z).

Inductive op :=
| Clear | TruncTo (l : Z) | Append (x : E) | AppendIfMissing (x : E)
| At (i : Z) | First | Top | Pop
| AtPut (i : Z) (x : E) | AtGrow (i : Z) (fill : E) | AtPutGrow (i : Z) (x fill : E)
| Contains (x : E) | Find (x : E) | FindToken (f : E -> bool) | FindAtEnd (f : E -> bool)
| Remove (x : E) | RemoveAt (i : Z) | Length.

Inductive res := Done | Elem (x : E) | Bool (b : bool) | Int (i : Z).

Definition run_op (a : GrowableArray) (o : op) : option (GrowableArray * res) :=
  match o with
  | Clear => Some (clear a, Done)
  | TruncTo l => a ← trunc_to a l; Some (a, Done)
  | Append x => a ← push dflt junk elementSize a x; Some (a, Done)
  | AppendIfMissing x => a ← append_if_missing dflt junk elementSize a x; Some (a, Done)
  | At i => x ← at_ a i; Some (a, Elem x)
  | First => x ← first a; Some (a, Elem x)
  | Top => x ← top a; Some (a, Elem x)
  | Pop => '(a, x) ← pop a; Some (a, Elem x)
  | AtPut i x => a ← at_put a i x; Some (a, Done)
  | AtGrow i fill => '(a, x) ← at_grow dflt junk elementSize a i fill; Some (a, Elem x)
  | AtPutGrow i x fill => a ← at_put_grow dflt junk elementSize a i x fill; Some (a, Done)
  | Contains x => b ← contains a x; Some (a, Bool b)
  | Find x => i ← find a x; Some (a, Int i)
  | FindToken f => i ← find_token a f; Some (a, Int i)
  | FindAtEnd f => i ← find_at_end a f; Some (a, Int i)
  | Remove x => a ← remove a x; Some (a, Done)
  | RemoveAt i => a ← remove_at a i; Some (a, Done)
  | Length => Some (a, Int (ga_length a))
  end.

(** The list, extended with [fill] so that it has at least [k] elements. *)
Definition pad (l : list E) (k : Z) (fill : E) : list E :=
  l ++ replicate (Z.to_nat (k - zlen l)) fill.

Definition found {A} (r : option (nat * A)) : Z :=
  match r with Some (k, _) => Z.of_nat k | None => -1 end.

Definition spec_op (l : list E) (o : op) : option (list E * res) :=
  match o with
  | Clear => Some ([], Done)
  | TruncTo k => if decide (0 <= k <= zlen l) then Some (take (Z.to_nat k) l, Done) else None
  | Append x => Some (l ++ [x], Done)
  | AppendIfMissing x => Some (if decide (x ∈ l) then l else l ++ [x], Done)
  | At i => x ← load l i; Some (l, Elem x)
  | First => x ← head l; Some (l, Elem x)
  | Top => x ← last l; Some (l, Elem x)
  | Pop => x ← last l; Some (take (pred (length l)) l, Elem x)
  | AtPut i x => l ← store l i x; Some (l, Done)
  | AtGrow i fill =>
      let l := pad l (i + 1) fill in x ← load l i; Some (l, Elem x)
  | AtPutGrow i x fill => l ← store (pad l (i + 1) fill) i x; Some (l, Done)
  | Contains x => Some (l, Bool (bool_decide (x ∈ l)))
  | Find x => Some (l, Int (found (list_find (.= x) l)))
  | FindToken f => Some (l, Int (found (list_find f l)))
  | FindAtEnd f =>
      Some (l, Int (match list_find f (reverse l) with
                    | Some (k, _) => zlen l - 1 - Z.of_nat k | None => -1 end))
  | Remove x => '(k, _) ← list_find (.= x) l; Some (delete k l, Done)
  | RemoveAt i => _ ← load l i; Some (delete (Z.to_nat i) l, Done)
  | Length => Some (l, Int (zlen l))
  end.

(** The elements, their array and the sizes agree, and the array is within an [int]
    of bytes. *)
Record rep (a : GrowableArray) (l : list E) : Prop := {
  rep_data : exists r, _data a = l ++ r;
  rep_len : _len a = zlen l;
  rep_max : _max a = zlen (_data a);
  rep_bytes : elementSize * _max a < 2 ^ 31
}.

(** Requests that stay within 2^30 bytes. *)
Definition fits (l : list E) (o : op) : Prop :=
  match o with
  | Append _ | AppendIfMissing _ => elementSize * (zlen l + 1) <= 2 ^ 30
  | AtGrow i _ | AtPutGrow i _ _ => elementSize * (i + 1) <= 2 ^ 30
  | _ => True
  end.

(** What happens to an operation that is undefined on the list: an assertion stops
    it, but for a truncation to a negative length, which [trunc_to] lets through. *)
Definition undefined_op (a : GrowableArray) (o : op) : Prop :=
  match o with
  | TruncTo k =>
      if decide (k < 0) then exists a', run_op a o = Some (a', Done) /\ _len a' = k
      else run_op a o = None
  | _ => run_op a o = None
  end.

(** A history of operations. *)
Fixpoint run_ops (a : GrowableArray) (os : list op) : option (GrowableArray * list res) :=
  match os with
  | [] => Some (a, [])
  | o :: os => '(a, r) ← run_op a o; '(a, rs) ← run_ops a os; Some (a, r :: rs)
  end.

Fixpoint spec_ops (l : list E) (os : list op) : option (list E * list res) :=
  match os with
  | [] => Some (l, [])
  | o :: os => '(l, r) ← spec_op l o; '(l, rs) ← spec_ops l os; Some (l, r :: rs)
  end.

Fixpoint all_fit (l : list E) (os : list op) : Prop :=
  match os with
  | [] => True
  | o :: os => fits l o /\ match spec_op l o with Some (l, _) => all_fit l os | None => True end
  end.
End operations.

(** ** Loops *)

Section loops.
Context {E : Type} `{EqDecision E}.
Implicit Types (l : list E) (x v : E).

Lemma app_cons_snoc l1 x l2 : l1 ++ x :: l2 = (l1 ++ [x]) ++ l2.
Proof. by rewrite <- app_assoc. Qed.

Lemma zlen_snoc l x : zlen (l ++ [x]) = zlen l + 1.
Proof. rewrite length_app. simpl. lia. Qed.

Lemma fill_loop_ok k l1 l2 l3 j v :
  length l2 = k -> j = zlen l1 ->
  fill_loop k (l1 ++ l2 ++ l3) j v = Some (l1 ++ replicate k v ++ l3).
Proof.
  revert l1 l2 j. induction k as [|k IH]; intros l1 l2 j Hk ->.
  { apply nil_length_inv in Hk as ->. done. }
  destruct l2 as [|x l2]; [done|]. simpl. rewrite (store_app_at l1) by done. simpl.
  rewrite (app_cons_snoc l1), (IH (l1 ++ [v]) l2);
    [by rewrite <- app_assoc|by injection Hk|by rewrite zlen_snoc].
Qed.

Lemma copy_loop_ok k l1 l2 l3 q r i :
  length l2 = k -> length q = k -> i = zlen l1 ->
  copy_loop k (l1 ++ q ++ r) (l1 ++ l2 ++ l3) i = Some (l1 ++ l2 ++ r).
Proof.
  revert l1 l2 q i. induction k as [|k IH]; intros l1 l2 q i Hk Hq ->.
  { apply nil_length_inv in Hk as ->. apply nil_length_inv in Hq as ->. done. }
  destruct l2 as [|x l2]; [done|]. destruct q as [|y q]; [done|]. simpl.
  rewrite (load_app_at l1) by done. simpl. rewrite (store_app_at l1) by done. simpl.
  rewrite (app_cons_snoc l1 x (q ++ r)), (app_cons_snoc l1 x (l2 ++ l3)), (IH (l1 ++ [x]) l2 q);
    [by rewrite <- !app_assoc|by injection Hk|by injection Hq|by rewrite zlen_snoc].
Qed.

(** The elements from [j] on move down by one; a copy of the last stays behind. *)
Lemma shift_loop_ok k l1 x l2 l3 j :
  length l2 = k -> j = zlen l1 + 1 ->
  exists y, shift_loop k (l1 ++ x :: l2 ++ l3) j = Some (l1 ++ l2 ++ y :: l3).
Proof.
  revert l1 x l2 j. induction k as [|k IH]; intros l1 x l2 j Hk ->.
  { apply nil_length_inv in Hk as ->. by exists x. }
  destruct l2 as [|z l2]; [done|]. simpl.
  rewrite (load_app_r l1 _ 1) by lia. change (load (x :: z :: l2 ++ l3) 1) with (Some z). simpl.
  rewrite (store_app_at l1) by lia. simpl.
  destruct (IH (l1 ++ [z]) z l2 (zlen l1 + 1 + 1)) as [y Hy];
    [by injection Hk|by rewrite zlen_snoc|].
  exists y. rewrite <- !app_assoc in Hy. done.
Qed.

Lemma search_loop_ok f l1 l2 l3 i :
  i = zlen l1 ->
  find_loop (length l2) f (l1 ++ l2 ++ l3) i =
  Some (match list_find f l2 with Some (k, _) => i + Z.of_nat k | None => -1 end).
Proof.
  intros ->. revert l1. induction l2 as [|x l2 IH]; intros l1; [done|]. simpl.
  rewrite (load_app_at l1) by done. simpl. case_decide as Hf.
  - rewrite (Is_true_true_1 _ Hf). f_equal. lia.
  - rewrite (Is_true_false_1 _ Hf), (app_cons_snoc l1), <- (zlen_snoc l1 x), IH, zlen_snoc.
    destruct (list_find f l2) as [[k y]|]; simpl; [f_equal; lia|done].
Qed.

Lemma find_back_loop_ok f l r :
  find_back_loop (length l) f (l ++ r) (zlen l - 1) =
  Some (match list_find f (reverse l) with
        | Some (k, _) => zlen l - 1 - Z.of_nat k | None => -1 end).
Proof.
  revert r. induction l as [|x l IH] using rev_ind; intros r; [done|].
  rewrite reverse_snoc, length_app, Nat.add_comm. simpl.
  replace (Z.of_nat (S (length l)) - 1) with (zlen l) by lia.
  rewrite <- app_assoc. simpl. rewrite (load_app_at l) by done. simpl. case_decide as Hf.
  - rewrite (Is_true_true_1 _ Hf). f_equal. lia.
  - rewrite (Is_true_false_1 _ Hf), IH.
    destruct (list_find f (reverse l)) as [[k y]|]; simpl; [f_equal; lia|done].
Qed.

Lemma contains_loop_ok l1 l2 l3 x i :
  i = zlen l1 -> contains_loop (length l2) (l1 ++ l2 ++ l3) x i = Some (bool_decide (x ∈ l2)).
Proof.
  intros ->. revert l1. induction l2 as [|y l2 IH]; intros l1; [done|]. simpl.
  rewrite (load_app_at l1) by done. simpl. destruct (decide (y = x)) as [-> |Hy].
  - rewrite !bool_decide_eq_true_2; [done|apply list_elem_of_here|done].
  - rewrite (bool_decide_eq_false_2 (y = x)) by done.
    rewrite (app_cons_snoc l1), <- (zlen_snoc l1 y), IH. f_equal. apply bool_decide_ext.
    rewrite elem_of_cons. intuition congruence.
Qed.

Lemma iterations_zlen l : iterations 0 (zlen l) = length l.
Proof. unfold iterations. lia. Qed.

Lemma remove_loop_ok (a : GrowableArray) l1 l2 r x i :
  _data a = l1 ++ l2 ++ r -> _len a = zlen (l1 ++ l2) -> i = zlen l1 ->
  match list_find (.= x) l2 with
  | Some (k, _) => exists y, remove_loop (length l2) a x i =
      Some (mkGrowableArray (_len a - 1) (_max a) (l1 ++ delete k l2 ++ y :: r))
  | None => remove_loop (length l2) a x i = None
  end.
Proof.
  intros Hd Hl ->. revert l1 Hd Hl. induction l2 as [|z l2 IH]; intros l1 Hd Hl; [done|].
  simpl. rewrite Hd. simpl. rewrite (load_app_at l1) by done. simpl. rewrite length_app in Hl. simpl in Hl.
  case_decide as Hz; simpl.
  - rewrite bool_decide_eq_true_2 by done.
    destruct (shift_loop_ok (length l2) l1 z l2 r (zlen l1 + 1)) as [y Hy]; [done..|].
    exists y. replace (iterations (zlen l1 + 1) (_len a)) with (length l2)
      by (unfold iterations; lia).
    rewrite Hy. done.
  - rewrite bool_decide_eq_false_2 by done.
    rewrite <- (zlen_snoc l1 z). specialize (IH (l1 ++ [z])).
    destruct (list_find (.= x) l2) as [[k w]|]; simpl.
    + destruct IH as [y Hy]; [by rewrite <- app_assoc|rewrite !length_app; simpl; lia|].
      exists y. rewrite Hy, <- !app_assoc. done.
    + apply IH; [by rewrite <- app_assoc|rewrite !length_app; simpl; lia].
Qed.
End loops.

(** ** Growth *)

Lemma s32_small x : 0 <= x < 2 ^ 31 -> s32 x = x.
Proof. intros. apply wraps_id; [lia|]. unfold is_s. pow2_norm. lia. Qed.

(** The doubling ends within the fuel, at the first double beyond [j]. *)
Lemma grow_loop_ok fuel j max :
  1 <= max -> 0 <= j < 2 ^ 30 -> j < max * 2 ^ Z.of_nat fuel ->
  exists i, 0 <= i /\ grow_loop (S fuel) j max = Some (max * 2 ^ i) /\ j < max * 2 ^ i /\
    (i = 0 \/ max * 2 ^ i <= 2 * j).
Proof.
  revert max. induction fuel as [|fuel IH]; intros max Hm Hj Hf.
  - exists 0. simpl. rewrite Z.geb_leb, (proj2 (Z.leb_gt _ _)) by (simpl in Hf; lia).
    rewrite Z.mul_1_r in *. auto with lia.
  - cbn [grow_loop]. rewrite Z.geb_leb. destruct (Z.leb_spec max j) as [Hle|Hgt].
    + rewrite s32_small by (pow2_norm; lia).
      destruct (IH (max * 2)) as (i & Hi & Hg & Hlt & Hor); [lia|done|..].
      { rewrite Nat2Z.inj_succ, Z.pow_succ_r in Hf by lia. lia. }
      exists (i + 1). rewrite Z.pow_add_r, Z.pow_1_r by lia.
      replace (max * (2 ^ i * 2)) with (max * 2 * 2 ^ i) by ring.
      split_and!; [lia|exact Hg|done|]. right. destruct Hor as [-> |]; [simpl|]; lia.
    + exists 0. rewrite Z.mul_1_r. auto with lia.
Qed.

Section refinement.
Context {E : Type} `{EqDecision E} (dflt : E) (junk : nat -> E) (elementSize : Z).
Hypothesis size_pos : 1 <= elementSize.
Set Default Proof Using "Type*".
Implicit Types (l r : list E) (a : GrowableArray (E := E)) (x : E).

#[local] Abbreviation rep := (rep elementSize).

Lemma raw_allocate_length max :
  0 <= max -> elementSize * max < 2 ^ 31 -> zlen (raw_allocate junk elementSize max) = max.
Proof.
  intros H0 Hb. unfold raw_allocate. pow2_norm.
  assert (0 <= elementSize * max) by lia.
  rewrite s32_small by (pow2_norm; lia). rewrite wrapu_id by (unfold is_u; pow2_norm; lia).
  rewrite Z.mul_comm, Z.div_mul by lia. by apply new_array_length.
Qed.

Lemma rep_le a l : rep a l -> zlen l <= _max a.
Proof. intros [[r Hd] _ -> _]. rewrite Hd, length_app. lia. Qed.

(** What is beyond the elements. *)
Lemma rep_split a l k :
  rep a l -> 0 <= k -> zlen l + k <= _max a ->
  exists r1 r2, _data a = l ++ r1 ++ r2 /\ zlen r1 = k.
Proof.
  intros [[r Hd] _ Hm _] H0 Hk. rewrite Hm, Hd, length_app in Hk.
  exists (take (Z.to_nat k) r), (drop (Z.to_nat k) r). rewrite take_drop, length_take. auto with lia.
Qed.

Lemma rep_intro l r max :
  max = zlen (l ++ r) -> elementSize * max < 2 ^ 31 -> rep (mkGrowableArray (zlen l) max (l ++ r)) l.
Proof. intros. constructor; simpl; eauto. Qed.

Lemma grow_ok a l j :
  rep a l -> _max a <= j -> elementSize * (j + 1) <= 2 ^ 30 ->
  exists a', grow dflt junk elementSize a j = Some a' /\ rep a' l /\ j < _max a'.
Proof.
  intros Hrep Hj Hb. pose proof (rep_le _ _ Hrep) as Hle.
  destruct Hrep as [[r Hd] Hlen Hmax Hbytes].
  assert (Hj30 : 0 <= j < 2 ^ 30) by (pow2_norm; nia).
  set (max0 := if _max a =? 0 then 1 else _max a).
  assert (Hm0 : 1 <= max0 /\ (max0 <= j \/ max0 = 1 /\ j = 0)).
  { unfold max0. destruct (Z.eqb_spec (_max a) 0); lia. }
  destruct (grow_loop_ok 32 j max0) as (i & Hi & Hg & Hlt & Hor); [lia|done|pow2_norm; lia|].
  set (max := max0 * 2 ^ i) in *.
  assert (Hcap : elementSize * max < 2 ^ 31).
  { assert (max <= 2 * j \/ max = 1) as [Hm|Hm]; [destruct Hor as [-> |]; unfold max; lia|..].
    - pow2_norm. nia.
    - pow2_norm. nia. }
  pose proof (raw_allocate_length max ltac:(lia) Hcap) as Hal.
  set (fresh := raw_allocate junk elementSize max) in *.
  assert (Hsp : fresh = take (length l) fresh ++ drop (length l) fresh) by (by rewrite take_drop).
  exists (mkGrowableArray (zlen l) max (l ++ replicate (Z.to_nat (max - zlen l)) dflt)).
  split; [|split; [|done]].
  - unfold grow. fold max0. rewrite Hg. simpl. fold fresh. rewrite Hsp, Hd, Hlen.
    pose proof (copy_loop_ok (length l) [] l r (take (length l) fresh) (drop (length l) fresh) 0) as Hc.
    simpl in Hc. rewrite iterations_zlen, Hc; [|done|rewrite length_take; lia|done].
    simpl. rewrite <- (app_nil_r (drop _ _)), (fill_loop_ok _ l); [|rewrite length_drop; unfold iterations; lia|done].
    simpl. by rewrite app_nil_r.
  - apply rep_intro; [|done]. rewrite length_app, length_replicate. lia.
Qed.

(** Room for an index. *)
Lemma room_ok a l j :
  rep a l -> elementSize * (j + 1) <= 2 ^ 30 ->
  exists a', (if j >=? _max a then grow dflt junk elementSize a j else Some a) = Some a' /\
    rep a' l /\ j < _max a'.
Proof.
  intros Hrep Hb. rewrite Z.geb_leb. destruct (Z.leb_spec (_max a) j).
  - by apply grow_ok.
  - eauto.
Qed.

Lemma pad_length l k fill : zlen l <= k -> zlen (pad l k fill) = k.
Proof. intros. unfold pad. rewrite length_app, length_replicate. lia. Qed.

Lemma pad_ok a l k fill :
  rep a l -> zlen l <= k <= _max a ->
  exists data, fill_loop (iterations (_len a) k) (_data a) (_len a) fill = Some data /\
    rep (mkGrowableArray k (_max a) data) (pad l k fill).
Proof.
  intros Hrep Hk. destruct (rep_split _ _ (k - zlen l) Hrep) as (r1 & r2 & Hd & Hr1); [lia..|].
  destruct Hrep as [_ Hlen Hmax Hb]. exists (pad l k fill ++ r2). split.
  - rewrite Hd, Hlen. unfold pad. rewrite <- app_assoc.
    apply fill_loop_ok; [unfold iterations; lia|done].
  - rewrite <- (pad_length l k fill) at 1 by lia. apply rep_intro; [|done].
    rewrite Hmax, Hd, !length_app. unfold pad. rewrite length_app, length_replicate. lia.
Qed.

(** An element written at the end. *)
Lemma store_end_ok a l x len :
  rep a l -> zlen l < _max a -> len = zlen l + 1 ->
  exists data, store (_data a) (zlen l) x = Some data /\
    rep (mkGrowableArray len (_max a) data) (l ++ [x]).
Proof.
  intros Hrep Hlt ->. destruct (rep_split _ _ 1 Hrep) as (r1 & r2 & Hd & Hr1); [lia..|].
  destruct r1 as [|y [|]]; simpl in Hr1; try lia. exists (l ++ x :: r2).
  destruct Hrep as [_ _ Hmax Hb]. split.
  - rewrite Hd. by apply store_app_at.
  - rewrite (app_cons_snoc l x), <- (zlen_snoc l x). apply rep_intro; [|done].
    rewrite Hmax, Hd, !length_app. simpl. lia.
Qed.

Lemma bytes_len (k : Z) : elementSize * k <= 2 ^ 30 -> 0 <= k -> k < 2 ^ 31.
Proof. pow2_norm. nia. Qed.

Lemma append_ok a l x :
  rep a l -> elementSize * (zlen l + 1) <= 2 ^ 30 ->
  exists a', append dflt junk elementSize a x = Some a' /\ rep a' (l ++ [x]).
Proof.
  intros Hrep Hb. destruct (room_ok a l (zlen l) Hrep Hb) as (a' & Hg & Hrep' & Hlt).
  destruct (store_end_ok a' l x (s32 (zlen l + 1)) Hrep' Hlt) as (data & Hst & Hfin).
  { apply s32_small. pose proof (bytes_len _ Hb). lia. }
  exists (mkGrowableArray (s32 (zlen l + 1)) (_max a') data). split; [|done].
  unfold append. rewrite (rep_len _ _ _ Hrep). pose proof (rep_le _ _ Hrep).
  replace (if zlen l =? _max a then _ else _) with (Some a').
  - simpl. by rewrite (rep_len _ _ _ Hrep'), Hst.
  - rewrite <- Hg, Z.geb_leb. destruct (Z.eqb_spec (zlen l) (_max a)), (Z.leb_spec (_max a) (zlen l)); done || lia.
Qed.

Lemma rep_load a l i : rep a l -> i < zlen l -> load (_data a) i = load l i.
Proof.
  intros [[r Hd] _ _ _] Hi. rewrite Hd. unfold load. case_decide; [|done].
  by rewrite lookup_app_l by lia.
Qed.

Lemma rep_store a l i x l' :
  rep a l -> store l i x = Some l' ->
  exists data, store (_data a) i x = Some data /\ rep (mkGrowableArray (_len a) (_max a) data) l'.
Proof.
  intros Hrep [Hi ->]%store_Some. destruct Hrep as [[r Hd] Hlen Hmax Hb].
  exists (<[Z.to_nat i := x]> l ++ r). split.
  - apply store_Some. rewrite Hd, length_app. split; [lia|]. by rewrite insert_app_l by lia.
  - constructor; simpl; [eauto|by rewrite length_insert| |done].
    by rewrite Hmax, Hd, !length_app, length_insert.
Qed.

Lemma pad_id l k fill : k <= zlen l -> pad l k fill = l.
Proof.
  intros. unfold pad. replace (Z.to_nat (k - zlen l)) with 0%nat by lia. apply app_nil_r.
Qed.

Lemma at_grow_ok a l i fill :
  rep a l -> 0 <= i -> elementSize * (i + 1) <= 2 ^ 30 ->
  exists a' x, at_grow dflt junk elementSize a i fill = Some (a', x) /\
    rep a' (pad l (i + 1) fill) /\ load (pad l (i + 1) fill) i = Some x.
Proof.
  intros Hrep Hi Hb. set (l' := pad l (i + 1) fill).
  assert (exists a', (if i >=? _len a then
      a ← (if i >=? _max a then grow dflt junk elementSize a i else Some a);
      data ← fill_loop (iterations (_len a) (i + 1)) (_data a) (_len a) fill;
      Some (mkGrowableArray (s32 (i + 1)) (_max a) data) else Some a) = Some a' /\ rep a' l')
    as (a' & Ha' & Hrep').
  { rewrite (rep_len _ _ _ Hrep), Z.geb_leb. unfold l'.
    destruct (Z.leb_spec (zlen l) i); [|exists a; by rewrite pad_id by lia].
    destruct (room_ok a l i Hrep Hb) as (a' & -> & Hrep' & Hroom). simpl.
    destruct (pad_ok a' l (i + 1) fill Hrep') as (data & -> & Hfin); [lia|]. simpl.
    rewrite s32_small by (pose proof (bytes_len _ Hb); lia). eauto. }
  destruct (load_is_Some l' i) as [x Hx].
  { unfold l', pad. rewrite length_app, length_replicate. lia. }
  exists a', x. split; [|done]. unfold at_grow. rewrite (proj2 (Z.leb_le _ _)) by done.
  rewrite Ha'. simpl. rewrite (rep_load _ _ _ Hrep'), Hx; [done|]. apply load_Some in Hx. lia.
Qed.

Lemma raw_at_put_grow_ok a l i x fill l' :
  rep a l -> 0 <= i -> elementSize * (i + 1) <= 2 ^ 30 ->
  store (pad l (i + 1) fill) i x = Some l' ->
  exists a', raw_at_put_grow dflt junk elementSize a i x fill = Some a' /\ rep a' l'.
Proof.
  intros Hrep Hi Hb Hst. unfold raw_at_put_grow.
  rewrite (rep_len _ _ _ Hrep), Z.geb_leb. destruct (Z.leb_spec (zlen l) i).
  - destruct (room_ok a l i Hrep Hb) as (a' & -> & Hrep' & Hroom). simpl.
    destruct (pad_ok a' l i fill Hrep') as (data & -> & Hpad); [lia|]. simpl.
    destruct (store_end_ok _ _ x (s32 (i + 1)) Hpad) as (data' & Hst' & Hfin).
    { simpl. rewrite pad_length; lia. }
    { rewrite pad_length, s32_small by (pose proof (bytes_len _ Hb); lia). done. }
    simpl in Hst', Hfin. rewrite pad_length in Hst' by lia. rewrite Hst'. simpl.
    eexists. split; [done|]. replace l' with (pad l i fill ++ [x]); [done|].
    assert (Hp : pad l (i + 1) fill = pad l i fill ++ [fill]).
    { unfold pad. replace (Z.to_nat (i + 1 - zlen l)) with (Z.to_nat (i - zlen l) + 1)%nat by lia.
      by rewrite replicate_add, <- app_assoc. }
    rewrite Hp, store_app_at in Hst; [by injection Hst|]. by rewrite pad_length.
  - rewrite pad_id in Hst by lia. simpl.
    destruct (rep_store _ _ _ _ _ Hrep Hst) as (data & Hs & Hfin). rewrite Hs. simpl. eauto.
Qed.

(** *** Removal *)

Lemma rep_shorter a l l' r :
  rep a l -> _data a = l' ++ r -> rep (mkGrowableArray (zlen l') (_max a) (_data a)) l'.
Proof. intros [_ _ Hm Hb] Hd. rewrite Hd. apply rep_intro; [by rewrite <- Hd|done]. Qed.

Lemma remove_at_ok a l i x :
  rep a l -> load l i = Some x ->
  exists a', remove_at a i = Some a' /\ rep a' (delete (Z.to_nat i) l).
Proof.
  intros Hrep Hx. pose proof (load_Some _ _ _ Hx) as Hi.
  unfold load in Hx. rewrite decide_True in Hx by lia.
  apply list_elem_of_split_length in Hx as (l1 & l2 & -> & Hl1).
  destruct Hrep as [[r Hd] Hlen Hmax Hb]. rewrite length_app in Hlen. simpl in Hlen.
  destruct (shift_loop_ok (length l2) l1 x l2 r (i + 1)) as [y Hy]; [done|lia|].
  exists (mkGrowableArray (_len a - 1) (_max a) (l1 ++ l2 ++ y :: r)). split.
  - unfold remove_at. rewrite (proj2 (Z.leb_le _ _)), (proj2 (Z.ltb_lt _ _)) by lia. simpl.
    replace (iterations (i + 1) (_len a)) with (length l2) by (unfold iterations; lia).
    rewrite Hd, <- app_assoc. simpl. by rewrite Hy.
  - rewrite Hl1, delete_middle, app_assoc.
    replace (_len a - 1) with (zlen (l1 ++ l2)) by (rewrite length_app; lia).
    apply rep_intro; [|done]. rewrite Hmax, Hd, !length_app. simpl. lia.
Qed.

Lemma remove_ok a l x :
  rep a l ->
  match list_find (.= x) l with
  | Some (k, _) => exists a', remove a x = Some a' /\ rep a' (delete k l)
  | None => remove a x = None
  end.
Proof.
  intros [[r Hd] Hlen Hmax Hb]. pose proof (remove_loop_ok a [] l r x 0 Hd Hlen eq_refl) as H.
  unfold remove. rewrite Hlen, iterations_zlen.
  destruct (list_find (.= x) l) as [[k z]|] eqn:Hf; [|done]. destruct H as [y Hy].
  apply list_find_Some in Hf as (Hk & _ & _). apply lookup_lt_Some in Hk as Hlt.
  eexists. split; [exact Hy|]. simpl. rewrite Hlen.
  replace (zlen l - 1) with (zlen (delete k l)).
  - apply rep_intro; [|done]. rewrite Hmax, Hd, !length_app, length_delete by eauto. simpl. lia.
  - rewrite length_delete by eauto. lia.
Qed.

(** *** Every operation *)

Lemma in_range_load a l i :
  rep a l -> (ASSERT (0 <=? i) && (i <? _len a) ;; load (_data a) i) = load l i.
Proof.
  intros Hrep. rewrite (rep_len _ _ _ Hrep).
  destruct (Z.leb_spec 0 i), (Z.ltb_spec i (zlen l)); simpl.
  - by apply rep_load.
  - symmetry. apply load_None. lia.
  - symmetry. apply load_None. lia.
  - symmetry. apply load_None. lia.
Qed.

Lemma load_last l : load l (zlen l - 1) = last l.
Proof.
  destruct l as [|x l _] using rev_ind; [done|].
  rewrite last_snoc. apply load_app_at. rewrite length_app. simpl. lia.
Qed.

Lemma load_head l : load l 0 = head l.
Proof. by destruct l. Qed.

Lemma nonempty_load a l i :
  rep a l -> i < zlen l -> 0 <= i \/ l = [] -> (ASSERT _len a >? 0 ;; load (_data a) i) = load l i.
Proof.
  intros Hrep Hi Hor. rewrite (rep_len _ _ _ Hrep), Z.gtb_ltb.
  destruct (Z.ltb_spec 0 (zlen l)); [by apply rep_load|].
  symmetry. apply load_None. lia.
Qed.

(** The operations run as their specification says, or fail as it does. *)
Definition refines (run : option (GrowableArray (E := E) * res (E := E)))
    (spec : option (list E * res)) : Prop :=
  match spec with
  | Some (l', r) => exists a', run = Some (a', r) /\ rep a' l'
  | None => run = None
  end.

(** The array operation gives the list's result, or the operation is undefined. *)
Definition refines_op (a : GrowableArray) (l : list E) (o : op) : Prop :=
  match spec_op l o with
  | Some (l', r) => exists a', run_op dflt junk elementSize a o = Some (a', r) /\ rep a' l'
  | None => undefined_op dflt junk elementSize a o
  end.

Lemma refines_op_intro a l o :
  (forall k, o <> TruncTo k) -> refines (run_op dflt junk elementSize a o) (spec_op l o) ->
  refines_op a l o.
Proof.
  intros Ho. unfold refines, refines_op. destruct (spec_op l o) as [[]|]; [done|].
  destruct o; try done. by destruct (Ho l0).
Qed.

Lemma refines_read a l (run : option E) (spec : option E) :
  rep a l -> run = spec ->
  refines (x ← run; Some (a, Elem x)) (x ← spec; Some (l, Elem x)).
Proof. intros Hrep ->. destruct spec; simpl; eauto. Qed.

Lemma contains_ok a l x : rep a l -> contains a x = Some (bool_decide (x ∈ l)).
Proof.
  intros [[r Hd] Hlen _ _]. unfold contains. rewrite Hlen, iterations_zlen, Hd.
  by apply (contains_loop_ok []).
Qed.

Lemma find_ok a l f : rep a l -> find_token a f = Some (found (list_find f l)).
Proof.
  intros [[r Hd] Hlen _ _]. unfold find_token. rewrite Hlen, iterations_zlen, Hd.
  by apply (search_loop_ok f []).
Qed.

Lemma find_at_end_ok a l f :
  rep a l -> find_at_end a f =
    Some (match list_find f (reverse l) with
          | Some (k, _) => zlen l - 1 - Z.of_nat k | None => -1 end).
Proof.
  intros [[r Hd] Hlen _ _]. unfold find_at_end. rewrite Hlen, iterations_zlen, Hd.
  apply find_back_loop_ok.
Qed.

Lemma pop_ok a l : rep a l -> refines (run_op dflt junk elementSize a Pop) (spec_op l Pop).
Proof.
  intros Hrep. simpl. unfold pop. rewrite (rep_len _ _ _ Hrep), Z.gtb_ltb.
  destruct l as [|x l _] using rev_ind; [done|].
  rewrite last_snoc. rewrite length_app, Nat.add_comm, take_app_length'; [|done].
  rewrite (rep_load _ _ _ Hrep), load_app_at by (rewrite ?length_app; simpl; lia). simpl.
  eexists. split; [done|].
  replace (Z.of_nat (S (length l)) - 1) with (zlen l) by lia.
  destruct (rep_data _ _ _ Hrep) as [r Hd]. rewrite <- app_assoc in Hd.
  by apply (rep_shorter _ _ _ _ Hrep Hd).
Qed.

Lemma trunc_ok a l k :
  rep a l -> refines_op a l (TruncTo k).
Proof.
  intros Hrep. unfold refines_op. simpl. unfold trunc_to. rewrite (rep_len _ _ _ Hrep).
  destruct (Z.leb_spec k (zlen l)); [destruct (decide (k < 0))|].
  - rewrite decide_False by lia. by eexists.
  - rewrite decide_True by lia. eexists. split; [done|].
    destruct (rep_data _ _ _ Hrep) as [r Hd].
    rewrite <- (take_drop (Z.to_nat k) l), <- app_assoc in Hd.
    pose proof (rep_shorter _ _ _ _ Hrep Hd) as Hs. rewrite length_take in Hs.
    by replace (Z.of_nat (Z.to_nat k `min` length l)) with k in Hs by lia.
  - rewrite !decide_False by lia. done.
Qed.

Lemma append_if_missing_ok a l x :
  rep a l -> elementSize * (zlen l + 1) <= 2 ^ 30 ->
  refines (run_op dflt junk elementSize a (AppendIfMissing x)) (spec_op l (AppendIfMissing x)).
Proof.
  intros Hrep Hfit. simpl. unfold append_if_missing. rewrite (contains_ok _ _ _ Hrep). simpl.
  case_decide as Hx.
  - rewrite bool_decide_eq_true_2 by done. simpl. eauto.
  - rewrite bool_decide_eq_false_2 by done. simpl.
    destruct (append_ok a l x Hrep Hfit) as (a' & -> & Hr). simpl. eauto.
Qed.

Lemma at_put_refines a l i x :
  rep a l -> refines (run_op dflt junk elementSize a (AtPut i x)) (spec_op l (AtPut i x)).
Proof.
  intros Hrep. simpl. unfold at_put. rewrite (rep_len _ _ _ Hrep).
  destruct (store l i x) as [l'|] eqn:Hst.
  - pose proof (proj1 (store_Some _ _ _ _) Hst) as [Hi _].
    rewrite (proj2 (Z.leb_le _ _)), (proj2 (Z.ltb_lt _ _)) by lia. simpl.
    destruct (rep_store _ _ _ _ _ Hrep Hst) as (data & -> & Hr).
    rewrite (rep_len _ _ _ Hrep) in Hr. simpl. eauto.
  - unfold store in Hst. case_decide; [done|].
    destruct (Z.leb_spec 0 i), (Z.ltb_spec i (zlen l)); done || lia.
Qed.

Lemma at_grow_refines a l i fill :
  rep a l -> elementSize * (i + 1) <= 2 ^ 30 ->
  refines (run_op dflt junk elementSize a (AtGrow i fill)) (spec_op l (AtGrow i fill)).
Proof.
  intros Hrep Hfit. simpl. destruct (Z.leb_spec 0 i).
  - destruct (at_grow_ok a l i fill Hrep) as (a' & x & -> & Hr & ->); [done..|]. simpl. eauto.
  - unfold load. rewrite decide_False by lia. unfold at_grow.
    by rewrite (proj2 (Z.leb_gt _ _)) by lia.
Qed.

Lemma at_put_grow_refines a l i x fill :
  rep a l -> elementSize * (i + 1) <= 2 ^ 30 ->
  refines (run_op dflt junk elementSize a (AtPutGrow i x fill)) (spec_op l (AtPutGrow i x fill)).
Proof.
  intros Hrep Hfit. simpl. unfold at_put_grow. destruct (Z.leb_spec 0 i).
  - destruct (store_is_Some (pad l (i + 1) fill) i x) as [l' Hst].
    { unfold pad. rewrite length_app, length_replicate. lia. }
    destruct (raw_at_put_grow_ok a l i x fill l' Hrep) as (a' & -> & Hr); [done..|].
    rewrite Hst. simpl. eauto.
  - unfold store. by rewrite decide_False by lia.
Qed.

Lemma remove_at_refines a l i :
  rep a l -> refines (run_op dflt junk elementSize a (RemoveAt i)) (spec_op l (RemoveAt i)).
Proof.
  intros Hrep. simpl. destruct (load l i) as [x|] eqn:Hx; simpl.
  - destruct (remove_at_ok a l i x Hrep Hx) as (a' & -> & Hr). simpl. eauto.
  - apply load_None in Hx. unfold remove_at. rewrite (rep_len _ _ _ Hrep).
    destruct (Z.leb_spec 0 i), (Z.ltb_spec i (zlen l)); done || lia.
Qed.

Lemma list_find_bool l x :
  list_find (fun y => bool_decide (y = x)) l = list_find (.= x) l.
Proof.
  induction l as [|y l IH]; [done|]. simpl. rewrite IH.
  by destruct (decide (y = x)), (decide (bool_decide (y = x))) as [?|?]; rewrite ?bool_decide_spec in *.
Qed.

#[local] Hint Resolve append_if_missing_ok at_put_refines at_grow_refines at_put_grow_refines
  remove_at_refines pop_ok : core.

Lemma array_op_ok a l o :
  rep a l -> fits elementSize l o -> refines_op a l o.
Proof.
  intros Hrep Hfit. destruct o as [|k|x|x|i| | | |i x|i fill|i x fill|x|x|f|f|x|i|];
    [|by apply trunc_ok|..]; (apply refines_op_intro; [done|]); auto.
  - simpl. eexists. split; [done|]. by apply (rep_shorter _ _ [] (_data a) Hrep).
  - destruct (append_ok a l x Hrep Hfit) as (a' & Ha & Hr). simpl. unfold push. rewrite Ha. simpl. eauto.
  - by apply refines_read, in_range_load.
  - apply refines_read; [done|]. rewrite <- load_head. unfold first.
    destruct l; [by rewrite (rep_len _ _ _ Hrep)|].
    apply nonempty_load; [done|simpl; lia|by left].
  - apply refines_read; [done|]. rewrite <- load_last. unfold top. rewrite (rep_len _ _ _ Hrep) at 2.
    apply nonempty_load; [done|lia|]. destruct l; [by right|left; simpl; lia].
  - simpl. rewrite (contains_ok _ _ _ Hrep). simpl. eauto.
  - simpl. change (find a x) with (find_token a (fun y => bool_decide (y = x))).
    rewrite (find_ok _ _ _ Hrep), list_find_bool. simpl. eauto.
  - simpl. rewrite (find_ok _ _ _ Hrep). simpl. eauto.
  - simpl. rewrite (find_at_end_ok _ _ _ Hrep). simpl. eauto.
  - simpl. pose proof (remove_ok a l x Hrep) as H.
    destruct (list_find (.= x) l) as [[k y]|]; simpl; [|by rewrite H].
    destruct H as (a' & -> & Hr). simpl. eauto.
  - simpl. unfold ga_length. rewrite (rep_len _ _ _ Hrep). eauto.
Qed.

(** The history runs as the list's does, up to the first undefined operation. *)
Lemma array_ops_ok a l os :
  rep a l -> all_fit elementSize l os ->
  match spec_ops l os with
  | Some (l', rs) => exists a', run_ops dflt junk elementSize a os = Some (a', rs) /\ rep a' l'
  | None => exists os1 o os2 l' rs a', os = os1 ++ o :: os2 /\
      spec_ops l os1 = Some (l', rs) /\ spec_op l' o = None /\
      run_ops dflt junk elementSize a os1 = Some (a', rs) /\ undefined_op dflt junk elementSize a' o
  end.
Proof.
  revert a l. induction os as [|o os IH]; intros a l Hrep Hfit; simpl; [eauto|].
  destruct Hfit as [Hf Hfit]. pose proof (array_op_ok a l o Hrep Hf) as Hr. unfold refines_op in Hr.
  destruct (spec_op l o) as [[l' r]|] eqn:Hsp; simpl; [|by exists [], o, os, l, [], a].
  destruct Hr as (a' & Hrun & Hrep'). rewrite Hrun. simpl. specialize (IH a' l' Hrep' Hfit).
  destruct (spec_ops l' os) as [[l2 rs]|]; simpl.
  - destruct IH as (a2 & -> & Hr). simpl. eauto.
  - destruct IH as (os1 & o2 & os2 & l2 & rs & a2 & -> & Hs1 & Ho2 & Hr1 & Hu).
    exists (o :: os1), o2, os2, l2, (r :: rs), a2. simpl.
    rewrite Hsp, Hrun. simpl. rewrite Hs1, Hr1. done.
Qed.

(** *** Constructors and [appendAll] *)

Lemma fill_all_ok data j k v l :
  length data = (length l + k)%nat -> (exists r, data = l ++ r) -> j = zlen l ->
  fill_loop k data j v = Some (l ++ replicate k v).
Proof.
  intros Hlen [r ->] ->. rewrite length_app in Hlen.
  rewrite <- (app_nil_r r), (fill_loop_ok k l r []), app_nil_r; [done|lia|done].
Qed.

Lemma new_ok size len filler :
  0 <= len <= size -> elementSize * size < 2 ^ 31 ->
  exists a, new_GrowableArray dflt junk elementSize size len filler = Some a /\
    rep a (replicate (Z.to_nat len) filler).
Proof.
  intros Hl Hb. pose proof (raw_allocate_length size ltac:(lia) Hb) as Hal.
  unfold new_GrowableArray. rewrite !(proj2 (Z.leb_le _ _)) by lia. simpl. unfold iterations.
  rewrite <- (take_drop (Z.to_nat len) (raw_allocate _ _ _)).
  pose proof (fill_loop_ok (Z.to_nat (len - 0)) [] (take (Z.to_nat len) (raw_allocate junk elementSize size))
    (drop (Z.to_nat len) (raw_allocate junk elementSize size)) 0 filler) as Hf.
  simpl in Hf. rewrite Hf by (rewrite ?length_take; lia). simpl. rewrite Z.sub_0_r.
  set (l := replicate (Z.to_nat len) filler).
  assert (Hz : zlen l = len) by (unfold l; rewrite length_replicate; lia).
  rewrite (fill_all_ok _ len _ dflt l); [|rewrite length_app, length_drop; lia|eauto|done].
  simpl. eexists. split; [done|]. rewrite <- Hz at 1. apply rep_intro; [|done].
  rewrite length_app, length_replicate. lia.
Qed.

Lemma sized_ok size :
  0 <= size -> elementSize * size < 2 ^ 31 ->
  exists a, sized_GrowableArray dflt junk elementSize size = Some a /\ rep a [].
Proof.
  intros Hs Hb. pose proof (raw_allocate_length size Hs Hb) as Hal.
  unfold sized_GrowableArray. rewrite (proj2 (Z.leb_le _ _)) by lia. unfold iterations.
  rewrite (fill_all_ok _ 0 _ dflt []); [|simpl; lia|by eexists|done]. simpl.
  eexists. split; [done|]. apply (rep_intro [] (replicate _ _)); [|done].
  simpl. rewrite length_replicate. lia.
Qed.

Lemma default_ok :
  elementSize * 2 < 2 ^ 31 -> exists a, default_GrowableArray dflt junk elementSize = Some a /\ rep a [].
Proof.
  intros Hb. pose proof (raw_allocate_length 2 ltac:(lia) Hb) as Hal.
  unfold default_GrowableArray. destruct (raw_allocate junk elementSize 2) as [|x [|y [|]]];
    simpl in Hal; try lia.
  eexists. split; [reflexivity|]. by apply (rep_intro [] [dflt; dflt]).
Qed.

Lemma append_all_loop_ok a l b l1 l2 zero i :
  rep a l -> rep b (l1 ++ l2) -> i = zlen l1 -> elementSize * (zlen l + zlen l2) <= 2 ^ 30 ->
  exists a', append_all_loop dflt junk elementSize (length l2) a b zero i = Some a' /\
    rep a' (l ++ l2).
Proof.
  intros Hrep Hb ->. revert a l l1 Hrep Hb. induction l2 as [|x l2 IH]; intros a l l1 Hrep Hb Hfit.
  { exists a. rewrite app_nil_r. done. }
  simpl in *. rewrite (rep_load _ _ _ Hb) by (rewrite length_app; simpl; lia).
  rewrite load_app_at by done. simpl. rewrite (rep_len _ _ _ Hrep).
  destruct (raw_at_put_grow_ok a l (zlen l) x zero (l ++ [x]) Hrep) as (a' & -> & Hr); [lia|nia|..].
  { unfold pad. replace (Z.to_nat _) with 1%nat by lia. by apply store_app_at. }
  simpl. rewrite <- (zlen_snoc l1 x).
  destruct (IH a' (l ++ [x]) (l1 ++ [x])) as (a2 & Ha2 & Hr2);
    [done|by rewrite <- app_assoc|rewrite zlen_snoc; lia|].
  exists a2. rewrite <- app_assoc in Hr2. done.
Qed.

Lemma append_all_ok a l b l2 zero :
  rep a l -> rep b l2 -> elementSize * (zlen l + zlen l2) <= 2 ^ 30 ->
  exists a', appendAll dflt junk elementSize a b zero = Some a' /\ rep a' (l ++ l2).
Proof.
  intros Hrep Hb Hfit. unfold appendAll. rewrite (rep_len _ _ _ Hb), iterations_zlen.
  by apply (append_all_loop_ok a l b [] l2).
Qed.
End refinement.

(** ** Theorems *)

Section growable_array_theorems.
Context {E : Type} `{EqDecision E}.

(** C12: A growable array behaves as the list of its elements.  From a new array,
    any sequence of operations that never asks for more than 2^30 bytes gives the
    results that the list operations give, with every access in bounds, and leaves
    the array with the elements of the list, up to the first operation that is
    undefined on the list (an index or a length out of range, an element from an
    empty array, the removal of an element that is not there).  An assertion stops
    that operation, but for a truncation to a negative length, which is let through
    and leaves an array of negative length. *)
Theorem growable_array_history (dflt : E) (junk : nat -> E) (elementSize initial_size : Z) os
  (Hsz : 1 <= elementSize) (Hinit : 0 <= initial_size)
  (Hbytes : elementSize * initial_size < 2 ^ 31) (Hfit : all_fit elementSize [] os) :
  exists a0, sized_GrowableArray dflt junk elementSize initial_size = Some a0 /\
    match spec_ops [] os with
    | Some (l, rs) =>
        exists a, run_ops dflt junk elementSize a0 os = Some (a, rs) /\
          _len a = zlen l /\ _len a <= _max a /\ forall i, at_ a i = load l i
    | None => exists os1 o os2 l rs a, os = os1 ++ o :: os2 /\
        spec_ops [] os1 = Some (l, rs) /\ spec_op l o = None /\
        run_ops dflt junk elementSize a0 os1 = Some (a, rs) /\ undefined_op dflt junk elementSize a o
    end.
Proof.
  destruct (sized_ok dflt junk elementSize Hsz initial_size Hinit Hbytes) as (a0 & Ha0 & Hrep).
  exists a0. split; [done|].
  pose proof (array_ops_ok dflt junk elementSize Hsz a0 [] os Hrep Hfit) as Hrun.
  destruct (spec_ops [] os) as [[l rs]|]; [|done]. destruct Hrun as (a & Hrun & Hr).
  exists a. split; [done|]. rewrite (rep_len _ _ _ Hr). split; [done|].
  split; [by eapply rep_le|]. intros i. by eapply in_range_load.
Qed.
End growable_array_theorems.

(** With 2^30 or more the doubling of a power of two never gets beyond [j]. *)
Lemma grow_loop_zero fuel j : 0 <= j -> grow_loop fuel j 0 = None.
Proof.
  intros. induction fuel as [|fuel IH]; [done|]. cbn [grow_loop].
  by rewrite Z.geb_leb, (proj2 (Z.leb_le _ _)) by lia.
Qed.

Lemma grow_loop_diverges fuel j k :
  2 ^ 30 <= j -> 0 <= k <= 30 -> grow_loop fuel j (2 ^ k) = None.
Proof.
  revert k. induction fuel as [|fuel IH]; intros k Hj Hk; [done|].
  pose proof (Z.pow_le_mono_r 2 k 30 ltac:(lia) ltac:(lia)). cbn [grow_loop].
  rewrite Z.geb_leb, (proj2 (Z.leb_le _ _)) by lia. destruct (decide (k = 30)) as [->|].
  - change (s32 (2 ^ 30 * 2)) with (- 2 ^ 31). destruct fuel as [|fuel]; [done|].
    cbn [grow_loop]. rewrite Z.geb_leb, (proj2 (Z.leb_le _ _)) by (pow2_norm; lia).
    change (s32 (- 2 ^ 31 * 2)) with 0. apply grow_loop_zero. pow2_norm. lia.
  - replace (2 ^ k * 2) with (2 ^ (k + 1)) by (rewrite Z.pow_add_r by lia; lia).
    rewrite s32_small; [apply IH; lia|].
    pose proof (Z.pow_le_mono_r 2 (k + 1) 30 ltac:(lia) ltac:(lia)).
    pose proof (Z.pow_pos_nonneg 2 (k + 1) ltac:(lia) ltac:(lia)). pow2_norm. lia.
Qed.

(** The doubling loop of [grow] ends for every index below 2^30, within 32
    rounds, at the first double of the capacity that is beyond the index, which is
    at most twice the index unless the capacity was enough.  From the capacity of
    a default array an index of 2^30 or more makes it run for ever: the doubling
    overflows to a negative number and then stays at zero. *)
Theorem growth_terminates :
  (forall max j, 1 <= max -> 0 <= j < 2 ^ 30 ->
     exists i, 0 <= i /\ grow_loop 33 j max = Some (max * 2 ^ i) /\ j < max * 2 ^ i /\
       (i = 0 \/ max * 2 ^ i <= 2 * j)) /\
  (forall fuel j, 2 ^ 30 <= j -> grow_loop fuel j 2 = None).
Proof.
  split.
  - intros max j Hm Hj. apply grow_loop_ok; [done..|]. revert Hj. pow2_norm. lia.
  - intros fuel j Hj. by apply (grow_loop_diverges fuel j 1).
Qed.

Lemma growable_array_history_witness :
  let os := [Append 5; Append 6; AtPutGrow 4 9 0; RemoveAt 0; FindAtEnd (Z.eqb 0); Pop] in
  all_fit 8 [] os /\
  exists a0, sized_GrowableArray 0 (fun _ => 77) 8 1 = Some a0 /\
    exists a, run_ops 0 (fun _ => 77) 8 a0 os =
        Some (a, [Done; Done; Done; Done; Int 2; Elem 9]) /\
      _len a = 3 /\ _len a <= _max a /\ forall i, at_ a i = load [6; 0; 0] i.
Proof.
  assert (Hfit : all_fit 8 [] [Append 5; Append 6; AtPutGrow 4 9 0; RemoveAt 0;
    FindAtEnd (Z.eqb 0); Pop]) by (vm_compute; intuition congruence).
  split; [exact Hfit|].
  apply (growable_array_history 0 (fun _ => 77) 8 1 _ ltac:(lia) ltac:(lia) ltac:(reflexivity) Hfit).
Defined.
