(* ===== verification/TaskQueueSet.v ===== *)
(** * Queue sets, termination and overflow

    The rest of utilities/taskqueue.hpp and taskqueue.cpp: the generator that picks
    the victims of a steal, the choice of a victim by a set of queues, the protocol
    by which the threads of a parallel task agree that there is no work left, tasks
    that are one of two kinds of pointer, and the queue that falls back on a
    growable array when it is full.  The last is written against an interface of
    the queue, which the calls of [GenericTaskQueue] implement. *)

From S2P Require Import Prelude GlobalDefinitions TaskQueue GrowableArray.

Open Scope Z_scope.

(** ** [TaskQueueSetSuper::randomParkAndMiller] *)

(** The new seed, which is also the result. *)
Definition randomParkAndMiller (seed : Z) : Z :=
  let a := 16807 in
  let m := 2147483647 in
  let q := 127773 in
  let r := 2836 in
  let hi := Z.quot seed q in
  let lo := Z.rem seed q in
  let test := s32 (s32 (a * lo) - s32 (r * hi)) in
  if test >? 0 then test else s32 (test + m).

(** ** [GenericTaskQueueSet]: the victim of a steal

    The queue to call [pop_global] on; [None] when there is no other queue or, in
    [steal_best_of_all], when all the others are empty. *)

Section queue_set.
Context {E : Type}.
Implicit Types queues : list (queue (E := E)).

Definition queue_size (q : queue (E := E)) : Z := size (_bottom q) (_top (_age q)).

(** [for (int k = 0; k < _n; k++) { ... }] of [steal_best_of_all] *)
Fixpoint best_of_all_loop (qs : list (queue (E := E))) (queue_num k best_sz best_k : Z) : Z * Z :=
  match qs with
  | [] => (best_sz, best_k)
  | q :: qs =>
      if k =? queue_num then best_of_all_loop qs queue_num (k + 1) best_sz best_k
      else
        let sz := s32 (queue_size q) in
        if sz >? best_sz then best_of_all_loop qs queue_num (k + 1) sz k
        else best_of_all_loop qs queue_num (k + 1) best_sz best_k
  end.

Definition victim_best_of_all queues (queue_num : Z) : option Z :=
  let n := zlen queues in
  if n >? 2 then
    let '(best_sz, best_k) := best_of_all_loop queues queue_num 0 0 0 in
    if best_sz >? 0 then Some best_k else None
  else if n =? 2 then Some (Z.rem (queue_num + 1) 2)
  else None.

(** [while (excluded(k)) k = randomParkAndMiller(seed) % _n], with the seed it leaves;
    [None] when the fuel runs out. *)
Fixpoint random_loop (fuel : nat) (n seed k : Z) (excluded : Z -> bool) : option (Z * Z) :=
  if excluded k then
    match fuel with
    | O => None
    | S fuel => let seed := randomParkAndMiller seed in
        random_loop fuel n seed (Z.rem seed n) excluded
    end
  else Some (k, seed).

Definition victim_best_of_2 (fuel : nat) queues (queue_num seed : Z) : option (option Z * Z) :=
  let n := zlen queues in
  if n >? 2 then
    '(k1, seed) ← random_loop fuel n seed queue_num (fun k => k =? queue_num);
    '(k2, seed) ← random_loop fuel n seed queue_num (fun k => (k =? queue_num) || (k =? k1));
    q1 ← load queues k1;
    q2 ← load queues k2;
    Some (Some (if queue_size q2 >? queue_size q1 then k2 else k1), seed)
  else if n =? 2 then Some (Some (Z.rem (queue_num + 1) 2), seed)
  else Some (None, seed).

Definition victim_1_random (fuel : nat) queues (queue_num seed : Z) : option (option Z * Z) :=
  let n := zlen queues in
  if n >? 2 then
    '(k, seed) ← random_loop fuel n seed queue_num (fun k => k =? queue_num);
    Some (Some 2, seed)
  else if n =? 2 then Some (Some (Z.rem (queue_num + 1) 2), seed)
  else Some (None, seed).

(** [GenericTaskQueueSet::peek] *)
Fixpoint set_peek queues : bool :=
  match queues with
  | [] => false
  | q :: queues => if peek q then true else set_peek queues
  end.
End queue_set.

(** ** [ParallelTaskTerminator] *)

Section terminator.
(** [_n_threads] and the flag [WorkStealingYieldsBeforeSleep]. *)
Context (n_threads yields_before_sleep : Z).

(** Where a thread is in [offer_termination]; [Working] is outside of it. *)
Inductive offer_pc :=
| Working                            (* Atomic::inc(&_offered_termination) *)
| Checking (yield_count : Z)         (* _offered_termination == _n_threads *)
| Peeking (yield_count : Z)          (* peek_in_queue_set() *)
| Retracting                         (* Atomic::dec(&_offered_termination) *)
| Terminated.                        (* returned true *)

(** A step of one thread; [work] is what [peek_in_queue_set] returns. *)
Definition offer_step (offered : Z) (pc : offer_pc) (work : bool) : Z * offer_pc :=
  match pc with
  | Working => (s32 (offered + 1), Checking 0)
  | Checking yield_count =>
      if offered =? n_threads then (offered, Terminated)
      else if yield_count <=? yields_before_sleep
      then (offered, Peeking (u32 (yield_count + 1)))    (* yield() *)
      else (offered, Peeking 0)                          (* sleep(...) *)
  | Peeking yield_count => if work then (offered, Retracting) else (offered, Checking yield_count)
  | Retracting => (s32 (offered - 1), Working)           (* returns false *)
  | Terminated => (offered, Terminated)
  end.

Record terminator := mkTerminator { _offered_termination : Z; threads : list offer_pc }.

Definition thread_step (t : terminator) (i : nat) (work : bool) : terminator :=
  match threads t !! i with
  | Some pc =>
      let '(offered, pc) := offer_step (_offered_termination t) pc work in
      mkTerminator offered (<[i := pc]> (threads t))
  | None => t
  end.

(** A schedule: which thread takes a step, and what it would see in the queues. *)
Fixpoint run (t : terminator) (schedule : list (nat * bool)) : terminator :=
  match schedule with
  | [] => t
  | (i, work) :: schedule => run (thread_step t i work) schedule
  end.

Definition new_terminator : terminator :=
  mkTerminator 0 (replicate (Z.to_nat n_threads) Working).

Definition reset_for_reuse (t : terminator) : option terminator :=
  if negb (_offered_termination t =? 0) then
    ASSERT _offered_termination t =? n_threads ;;
    Some (mkTerminator 0 (threads t))
  else Some t.
End terminator.

(** ** The interface of a queue to its owner *)

Class OwnerQueue (Q E : Type) := {
  oq_push : Q -> E -> option (Q * bool);
  oq_pop_local : Q -> option (Q * option E);
  oq_size : Q -> Z;
  oq_max : Z;
  oq_rep : Q -> list E -> Prop;
  oq_push_ok q l t : oq_rep q l -> exists q' b, oq_push q t = Some (q', b) /\
    (b = true /\ oq_rep q' (l ++ [t]) \/ b = false /\ oq_max <= zlen l /\ oq_rep q' l);
  oq_pop_ok q l : oq_rep q l -> exists q' r, oq_pop_local q = Some (q', r) /\
    match r with Some t => exists l', l = l' ++ [t] /\ oq_rep q' l' | None => l = [] /\ oq_rep q' [] end;
  oq_size_ok q l : oq_rep q l -> oq_size q = zlen l
}.

(** ** [ChunkTaskQueueWithOverflow] *)

Section overflow.
Context {Q : Type} `{OwnerQueue Q Z} (junk : nat -> Z).

(** [sizeof(ChunkTask)] *)
Definition sizeof_ChunkTask : Z := 8.

Record ChunkTaskQueueWithOverflow := mkOverflow {
  _chunk_queue : Q;
  _overflow_stack : GrowableArray (E := Z)
}.

Definition overflow_initialize (q : Q) : option ChunkTaskQueueWithOverflow :=
  stack ← sized_GrowableArray 0 junk sizeof_ChunkTask 10;
  Some (mkOverflow q stack).

Definition overflow_queue_is_empty (c : ChunkTaskQueueWithOverflow) : bool :=
  (oq_size (_chunk_queue c) =? 0) && (ga_length (_overflow_stack c) =? 0).

Definition save (c : ChunkTaskQueueWithOverflow) (t : Z) : option ChunkTaskQueueWithOverflow :=
  '(q, b) ← oq_push (_chunk_queue c) t;
  if negb b then
    stack ← push 0 junk sizeof_ChunkTask (_overflow_stack c) t;
    Some (mkOverflow q stack)
  else Some (mkOverflow q (_overflow_stack c)).

(** The queue, the result and the task, which is [(ChunkTask) NULL] when there is none. *)
Definition retrieve_from_overflow (c : ChunkTaskQueueWithOverflow)
    : option (ChunkTaskQueueWithOverflow * bool * Z) :=
  if negb (is_empty (_overflow_stack c)) then
    '(stack, t) ← pop (_overflow_stack c);
    Some (mkOverflow (_chunk_queue c) stack, true, t)
  else Some (c, false, 0).

Definition retrieve_from_stealable_queue (c : ChunkTaskQueueWithOverflow) (chunk_task : Z)
    : option (ChunkTaskQueueWithOverflow * bool * Z) :=
  '(q, r) ← oq_pop_local (_chunk_queue c);
  match r with
  | Some t => Some (mkOverflow q (_overflow_stack c), true, t)
  | None => Some (mkOverflow q (_overflow_stack c), false, chunk_task)
  end.

Definition retrieve (c : ChunkTaskQueueWithOverflow)
    : option (ChunkTaskQueueWithOverflow * bool * Z) :=
  '(c, result, t) ← retrieve_from_overflow c;
  if negb result then retrieve_from_stealable_queue c t else Some (c, result, t).

(** Uses of the queue by its owner, with the tasks that come out. *)
Inductive use := Save (t : Z) | Retrieve.

Fixpoint run_uses (c : ChunkTaskQueueWithOverflow) (us : list use)
    : option (ChunkTaskQueueWithOverflow * list Z) :=
  match us with
  | [] => Some (c, [])
  | Save t :: us => c ← save c t; run_uses c us
  | Retrieve :: us =>
      '(c, result, t) ← retrieve c;
      '(c, ts) ← run_uses c us;
      Some (c, if (result : bool) then t :: ts else ts)
  end.
End overflow.

(** ** Calls of [GenericTaskQueue] without interference *)

Section calls.
Context {E : Type}.

(** The steps of a call until it returns, with the event that decides it. *)
Fixpoint run_owner (fuel : nat) (q : queue (E := E)) (e : Z) (pc : owner_pc) (evs : list event)
    : option (queue * list event) :=
  match pc with
  | Idle => Some (q, evs)
  | _ =>
      match fuel with
      | O => None
      | S fuel =>
          '(q, e, pc, ev) ← owner_step q e pc;
          run_owner fuel q e pc (evs ++ option_list ev)
      end
  end.

Definition push_call (q : queue (E := E)) (t : E) : option (queue * bool) :=
  '(q, evs) ← run_owner 5 q (_tag (_age q)) (Push_bottom t) [];
  match evs with [Pushed _] => Some (q, true) | [PushFull _] => Some (q, false) | _ => None end.

Definition pop_local_call (q : queue (E := E)) : option (queue * option E) :=
  '(q, evs) ← run_owner 9 q (_tag (_age q)) Pop_bottom [];
  match evs with [Popped t] => Some (q, Some t) | [PopEmpty] => Some (q, None) | _ => None end.

(** The queue between calls of its owner. *)
Definition queue_rep (q : queue (E := E)) (l : list E) : Prop :=
  exists e T B, inv (mkState q e Idle []) T B l.
End calls.

(** ** The random numbers *)

Lemma park_miller_bounds seed :
  0 < seed < 2147483647 ->
  let hi := Z.quot seed 127773 in let lo := Z.rem seed 127773 in
  is_s 32 (16807 * lo) /\ is_s 32 (2836 * hi) /\ is_s 32 (16807 * lo - 2836 * hi) /\
  - 2147483647 < 16807 * lo - 2836 * hi < 2147483647.
Proof.
  intros Hs hi lo. unfold is_s, hi, lo. rewrite Z.quot_div_nonneg, Z.rem_mod_nonneg by lia.
  pow2_norm. Z.to_euclidean_division_equations. lia.
Qed.

Lemma park_miller_ne seed : 0 < seed < 2147483647 -> (16807 * seed) mod 2147483647 <> 0.
Proof.
  intros Hs H0. apply Z.mod_divide in H0; [|lia].
  apply Z.gauss in H0; [|reflexivity]. apply Z.divide_pos_le in H0; lia.
Qed.

Lemma park_miller_ok seed :
  0 < seed < 2147483647 -> randomParkAndMiller seed = (16807 * seed) mod 2147483647.
Proof.
  intros Hs. pose proof (park_miller_bounds seed Hs) as (H1 & H2 & H3 & H4).
  pose proof (park_miller_ne seed Hs) as Hne. unfold randomParkAndMiller.
  cbv zeta in *. rewrite (wraps_id 32 (16807 * _)), (wraps_id 32 (2836 * _)) by (done || lia).
  rewrite (wraps_id 32) by (done || lia).
  assert (Hsplit : 16807 * seed = 2147483647 * (seed ÷ 127773) +
    (16807 * Z.rem seed 127773 - 2836 * (seed ÷ 127773))).
  { pose proof (Z.quot_rem' seed 127773). lia. }
  generalize dependent (16807 * Z.rem seed 127773 - 2836 * (seed ÷ 127773)). intros test H3 H4 Hsplit.
  assert (Hmod : (16807 * seed) mod 2147483647 = test mod 2147483647).
  { by rewrite Hsplit, Z.add_comm, Z.mul_comm, Z.mod_add by lia. }
  rewrite Hmod in *.
  rewrite Z.gtb_ltb. destruct (Z.ltb_spec 0 test).
  - by rewrite Z.mod_small by lia.
  - assert (test <> 0) by (intros ->; done).
    rewrite wraps_id by (unfold is_s; pow2_norm; lia).
    apply (Z.mod_unique_pos _ _ (-1)); lia.
Qed.

(** ** Calls *)

Section call_proofs.
Context {E : Type}.
Implicit Types (q : queue (E := E)) (pc : owner_pc (E := E)) (l : list E).

(** What is still to be decided: a push of a task, a pop, or nothing. *)
Inductive undecided := ToPush (t : E) | ToPop | Decided.

Definition call_of pc : undecided :=
  match pc with
  | Idle | Pop_assert _ _ => Decided
  | Push_bottom t | Push_top t _ | Push_slow t | Push_elem t _ | Push_store t _ => ToPush t
  | _ => ToPop
  end.

Definition decides (c : undecided) (ev : event (E := E)) : Prop :=
  match c, ev with
  | ToPush t, Pushed t' | ToPush t, PushFull t' => t' = t
  | ToPop, Popped _ | ToPop, PopEmpty => True
  | _, _ => False
  end.

Lemma owner_step_decides q e pc q' e' pc' ev :
  owner_step q e pc = Some (q', e', pc', ev) ->
  match ev with
  | Some ev => decides (call_of pc) ev /\ call_of pc' = Decided
  | None => call_of pc' = call_of pc
  end.
Proof.
  destruct pc; owner_simpl; intros Hs; try done; repeat case_match; by simplify_option_eq.
Qed.

(** A call runs to its end, deciding once. *)
Lemma run_owner_ok fuel q e pc evs T B l :
  inv (mkState q e pc []) T B l -> (owner_rank pc <= fuel)%nat ->
  exists q' evs' l', run_owner fuel q e pc evs = Some (q', evs ++ evs') /\ queue_rep q' l' /\
    match call_of pc with
    | Decided => evs' = [] /\ l' = l
    | c => exists ev, evs' = [ev] /\ decides c ev /\ deque_step l ev l'
    end.
Proof.
  revert q e pc evs T B l. induction fuel as [|fuel IH]; intros q e pc evs T B l HI Hr.
  { destruct pc; simpl in Hr; try lia. exists q, [], l. rewrite app_nil_r. simpl.
    split; [done|]. split; [|done]. by exists e, T, B. }
  destruct (decide (owner_rank pc = 0%nat)) as [H0|Hc].
  { destruct pc; simpl in H0; try lia. exists q, [], l. rewrite app_nil_r. simpl.
    split; [done|]. split; [|done]. by exists e, T, B. }
  assert (Hpc : pc <> Idle) by (intros ->; done).
  destruct (owner_step_ok _ _ _ _ _ _ _ HI Hpc) as (q' & e' & pc' & ev & T' & B' & l' & Hs & HI' & Hev).
  pose proof (owner_step_rank _ _ _ _ _ _ _ Hs) as Hrank.
  pose proof (owner_step_decides _ _ _ _ _ _ _ Hs) as Hdec.
  destruct (IH q' e' pc' (evs ++ option_list ev) T' B' l' HI') as (q2 & evs2 & l2 & Hrun & Hrep & Hcase);
    [lia|].
  exists q2, (option_list ev ++ evs2), l2. rewrite app_assoc, <- Hrun.
  split; [destruct pc; [done|..]; cbn [run_owner]; by rewrite Hs|]. split; [done|].
  destruct ev as [ev|]; simpl in *.
  - destruct Hdec as [Hd Hc']. rewrite Hc' in Hcase. destruct Hcase as [-> ->].
    destruct (call_of pc); eauto. by destruct ev.
  - rewrite Hdec in Hcase. by subst l'.
Qed.

Lemma queue_rep_epoch q l :
  queue_rep q l -> exists T B, inv (mkState q (_tag (_age q)) Idle []) T B l.
Proof.
  intros (e & T & B & [[Hn Ha HB Hm Hh] Ho Ht]). exists T, B. constructor; [|done|done].
  constructor; try done. simpl in *. rewrite Ha. simpl. f_equal.
  symmetry. apply wrapu_id. unfold is_u. apply Z.mod_pos_bound. pow2_norm. lia.
Qed.

Lemma push_call_ok q l t :
  queue_rep q l -> exists q' b, push_call q t = Some (q', b) /\
    (b = true /\ queue_rep q' (l ++ [t]) \/ b = false /\ max_elems <= zlen l /\ queue_rep q' l).
Proof.
  intros Hrep. destruct (queue_rep_epoch _ _ Hrep) as (T & B & [Hf Ho Ht]).
  destruct (run_owner_ok 5 q (_tag (_age q)) (Push_bottom t) [] T B l) as
    (q' & evs & l' & Hrun & Hrep' & ev & -> & Hd & Hs); [by constructor|simpl; lia|].
  unfold push_call. rewrite Hrun. simpl.
  destruct ev; simpl in Hd; try done; subst; inversion Hs; subst; eexists _, _; split; eauto.
Qed.

Lemma pop_local_call_ok q l :
  queue_rep q l -> exists q' r, pop_local_call q = Some (q', r) /\
    match r with
    | Some t => exists l', l = l' ++ [t] /\ queue_rep q' l'
    | None => l = [] /\ queue_rep q' []
    end.
Proof.
  intros Hrep. destruct (queue_rep_epoch _ _ Hrep) as (T & B & [Hf Ho Ht]).
  destruct (run_owner_ok 9 q (_tag (_age q)) Pop_bottom [] T B l) as
    (q' & evs & l' & Hrun & Hrep' & ev & -> & Hd & Hs); [by constructor|simpl; lia|].
  unfold pop_local_call. rewrite Hrun. simpl.
  destruct ev as [| |t| | |]; simpl in Hd; try done; inversion Hs; subst.
  - exists q', (Some t). eauto.
  - exists q', None. eauto.
Qed.

Lemma queue_size_ok q l : queue_rep q l -> queue_size q = zlen l.
Proof.
  intros (e & T & B & HI). pose proof (inv_range _ _ _ _ HI) as Hr.
  rewrite (inv_zlen _ _ _ _ HI). unfold queue_size, size.
  rewrite (inv_top _ _ _ _ HI : _top (_age q) = _), (inv_owner _ _ _ _ HI : _bottom q = _).
  rewrite dirty_size_small by lia. destruct (Z.eqb_spec (B - T) (n - 1)); lia.
Qed.
End call_proofs.

#[export] Instance generic_task_queue E : OwnerQueue (queue (E := E)) E := {
  oq_push := push_call; oq_pop_local := pop_local_call; oq_size := queue_size;
  oq_max := max_elems; oq_rep := queue_rep;
  oq_push_ok := push_call_ok; oq_pop_ok := pop_local_call_ok; oq_size_ok := queue_size_ok
}.

(** ** Overflow *)

Section overflow_proofs.
Context {Q : Type} `{OwnerQueue Q Z} (junk : nat -> Z).
Implicit Types (c : ChunkTaskQueueWithOverflow (Q := Q)) (l o : list Z).

(** The tasks in the queue and those on the stack. *)
Definition overflow_rep c l o : Prop :=
  oq_rep (_chunk_queue c) l /\ rep sizeof_ChunkTask (_overflow_stack c) o.

#[local] Lemma size_ok : 1 <= sizeof_ChunkTask.
Proof. unfold sizeof_ChunkTask. lia. Qed.

Lemma save_ok c l o t :
  overflow_rep c l o -> zlen o < 2 ^ 27 ->
  exists c', save junk c t = Some c' /\
    (overflow_rep c' (l ++ [t]) o \/ oq_max <= zlen l /\ overflow_rep c' l (o ++ [t])).
Proof.
  intros [Hq Ho] Hlt. destruct (oq_push_ok _ _ t Hq) as (q' & b & Hp & Hcase).
  unfold save. rewrite Hp. simpl. destruct Hcase as [[-> Hq']|(-> & Hfull & Hq')]; simpl.
  - eexists. split; [done|]. by left.
  - destruct (append_ok 0 junk sizeof_ChunkTask size_ok _ _ t Ho) as (a' & Ha & Ho').
    { unfold sizeof_ChunkTask. revert Hlt. pow2_norm. lia. }
    unfold push. rewrite Ha. simpl. eexists. split; [done|]. by right.
Qed.

Lemma retrieve_ok c l o :
  overflow_rep c l o -> exists c' b t, retrieve c = Some (c', b, t) /\
    if (b : bool) then exists l' o', overflow_rep c' l' o' /\ l ++ o ≡ₚ t :: l' ++ o' /\ zlen o' <= zlen o
    else l = [] /\ o = [] /\ overflow_rep c' [] [].
Proof.
  intros [Hq Ho]. unfold retrieve, retrieve_from_overflow, is_empty.
  rewrite (rep_len _ _ _ Ho). destruct o as [|x o _] using rev_ind; simpl.
  - destruct (oq_pop_ok _ _ Hq) as (q' & r & Hp & Hr). unfold retrieve_from_stealable_queue.
    rewrite Hp. simpl. destruct r as [t|].
    + destruct Hr as (l' & -> & Hl'). eexists _, _, _. split; [done|]. simpl.
      exists l', []. split; [done|]. rewrite !app_nil_r. split; [apply Permutation_app_comm|done].
    + destruct Hr as (-> & Hl'). eexists _, _, _. split; [done|]. done.
  - pose proof (pop_ok 0 (fun _ => 0) _ size_ok _ _ Ho) as Hpop. simpl in Hpop.
    rewrite last_snoc in Hpop. simpl in Hpop. destruct Hpop as (a' & Ha & Ho').
    rewrite (proj2 (Z.eqb_neq _ _)) by (rewrite length_app; simpl; lia). simpl.
    destruct (pop (_overflow_stack c)) as [[stack t]|]; [|done]. injection Ha as -> ->. simpl.
    eexists _, _, _. split; [done|]. simpl. exists l, o. split.
    + split; [done|]. rewrite length_app, Nat.add_comm in Ho'. simpl in Ho'.
      by rewrite take_app_length in Ho'.
    + rewrite length_app. split; [rewrite app_assoc; apply Permutation_app_comm|lia].
Qed.

Lemma is_empty_ok c l o : overflow_rep c l o -> overflow_queue_is_empty c = true <-> l ++ o = [].
Proof.
  intros [Hq Ho]. unfold overflow_queue_is_empty, ga_length.
  rewrite (oq_size_ok _ _ Hq), (rep_len _ _ _ Ho), andb_true_iff, !Z.eqb_eq, app_nil.
  destruct l, o; simpl; intuition (done || lia).
Qed.

Definition saved (us : list use) : list Z :=
  omap (fun u => match u with Save t => Some t | Retrieve => None end) us.

Lemma run_uses_ok c l o us :
  overflow_rep c l o -> zlen o + zlen us <= 2 ^ 27 ->
  exists c' ts l' o', run_uses junk c us = Some (c', ts) /\ overflow_rep c' l' o' /\
    l ++ o ++ saved us ≡ₚ ts ++ l' ++ o'.
Proof.
  revert c l o. induction us as [|[t|] us IH]; intros c l o Hc Hlen.
  { exists c, [], l, o. simpl. by rewrite app_nil_r. }
  - simpl in *. destruct (save_ok c l o t Hc ltac:(lia)) as (c' & Hs & Hcase). rewrite Hs. simpl.
    destruct Hcase as [Hc'|[_ Hc']].
    + destruct (IH c' (l ++ [t]) o Hc' ltac:(lia)) as (c2 & ts & l2 & o2 & Hr & Hc2 & Hp).
      exists c2, ts, l2, o2. split; [done|]. split; [done|]. rewrite <- Hp. solve_Permutation.
    + destruct (IH c' l (o ++ [t]) Hc') as (c2 & ts & l2 & o2 & Hr & Hc2 & Hp);
        [rewrite length_app; simpl; lia|].
      exists c2, ts, l2, o2. split; [done|]. split; [done|]. rewrite <- Hp. solve_Permutation.
  - simpl in *. destruct (retrieve_ok c l o Hc) as (c' & b & t & Hr & Hcase). rewrite Hr. simpl.
    destruct b.
    + destruct Hcase as (l' & o' & Hc' & Hp' & Ho').
      destruct (IH c' l' o' Hc' ltac:(lia)) as (c2 & ts & l2 & o2 & -> & Hc2 & Hp).
      exists c2, (t :: ts), l2, o2. split; [done|]. split; [done|].
      simpl. rewrite <- Hp, app_assoc, Hp'. solve_Permutation.
    + destruct Hcase as (-> & -> & Hc').
      destruct (IH c' [] [] Hc') as (c2 & ts & l2 & o2 & -> & Hc2 & Hp); [simpl in *; lia|].
      exists c2, ts, l2, o2. done.
Qed.
End overflow_proofs.

(** ** Termination *)

Section terminator_proofs.
Context (n_threads Y : Z).
Implicit Types (t : terminator) (pc : offer_pc).

#[export] Instance offer_pc_eq_dec : EqDecision offer_pc.
Proof. solve_decision. Defined.

(** The threads inside the call, or released by it. *)
Definition offering (pcs : list offer_pc) : Z := zlen (filter (.≠ Working) pcs).

Definition term_inv t : Prop :=
  zlen (threads t) = n_threads /\ _offered_termination t = offering (threads t).

#[local] Abbreviation thread_step := (thread_step n_threads Y).
#[local] Abbreviation run := (run n_threads Y).

Definition weight pc : Z := if decide (pc = Working) then 0 else 1.

Lemma offering_insert pcs i pc pc' :
  pcs !! i = Some pc -> offering (<[i := pc']> pcs) = offering pcs - weight pc + weight pc'.
Proof.
  intros Hi. unfold offering, weight.
  assert (Hlt : (i < length pcs)%nat) by by eapply lookup_lt_Some.
  rewrite insert_take_drop by done. rewrite <- (take_drop_middle pcs i pc) at 3 by done.
  rewrite !filter_app, !filter_cons, !length_app.
  repeat (case_decide; try done); simpl; try tauto; lia.
Qed.

Lemma offering_bound pcs : 0 <= offering pcs <= zlen pcs.
Proof. unfold offering. pose proof (length_filter (.≠ Working) pcs). lia. Qed.

Lemma offering_all pcs : offering pcs = zlen pcs <-> Forall (.≠ Working) pcs.
Proof.
  induction pcs as [|pc pcs IH]; [split; [by constructor|done]|].
  pose proof (offering_bound pcs) as Hb. rewrite Forall_cons, <- IH.
  unfold offering in *. rewrite filter_cons. case_decide; simpl in *.
  - split; [intros; split; [done|lia]|lia].
  - split; [lia|tauto].
Qed.

Hypothesis threads_int : 0 <= n_threads < 2 ^ 31.
Set Default Proof Using "Type*".

Lemma thread_step_inv t i work : term_inv t -> term_inv (thread_step t i work).
Proof.
  intros [Hlen Hoff]. unfold TaskQueueSet.thread_step.
  destruct (threads t !! i) as [pc|] eqn:Hi; [|done].
  destruct (offer_step _ _ _ pc work) as [offered pc'] eqn:Hs.
  split; simpl; [by rewrite length_insert|]. rewrite (offering_insert _ _ _ _ Hi), <- Hoff.
  pose proof (offering_bound (threads t)) as Hb.
  pose proof (offering_bound (<[i := pc']> (threads t))) as Hb'.
  rewrite (offering_insert _ _ _ _ Hi), length_insert in Hb'.
  destruct pc; simpl in Hs; repeat case_match; simplify_eq; unfold weight in *; simpl in *;
    rewrite ?wraps_id by (unfold is_s; revert threads_int; pow2_norm; lia); lia.
Qed.

Lemma run_inv t schedule : term_inv t -> term_inv (run t schedule).
Proof.
  revert t. induction schedule as [|[i work] schedule IH]; intros t Ht; [done|].
  simpl. by apply IH, thread_step_inv.
Qed.

Lemma new_terminator_inv : term_inv (new_terminator n_threads).
Proof.
  split; simpl; [rewrite length_replicate; lia|].
  unfold offering. generalize (Z.to_nat n_threads). intros k. by induction k.
Qed.

Lemma run_app t s1 s2 : run t (s1 ++ s2) = run (run t s1) s2.
Proof. revert t. by induction s1 as [|[i w] s1 IH]; intros t; [|apply IH]. Qed.

(** A thread is released only when all have offered. *)
Lemma released_all t i work :
  term_inv t -> threads t !! i <> Some Terminated ->
  threads (thread_step t i work) !! i = Some Terminated -> Forall (.≠ Working) (threads t).
Proof.
  intros [Hlen Hoff] Hne. unfold TaskQueueSet.thread_step.
  destruct (threads t !! i) as [pc|] eqn:Hi; [|by rewrite Hi].
  assert ((i < length (threads t))%nat) by by eapply lookup_lt_Some.
  destruct (offer_step _ _ _ pc work) as [offered pc'] eqn:Hs. simpl.
  rewrite list_lookup_insert_eq by done. intros [= ->]. apply offering_all.
  rewrite <- Hoff, Hlen. destruct pc; simpl in Hs; repeat case_match; simplify_eq; lia.
Qed.

(** All threads have offered, and none has seen work. *)
Definition settled t : Prop :=
  term_inv t /\ Forall (fun pc => pc <> Working /\ pc <> Retracting) (threads t).

Lemma settled_full t : settled t -> _offered_termination t = n_threads.
Proof.
  intros [[Hlen Hoff] Hall]. rewrite Hoff, <- Hlen. apply offering_all.
  apply (Forall_impl _ _ _ Hall). tauto.
Qed.

(** How many steps a thread has left when the count is full. *)
Definition distance pc : nat :=
  match pc with Checking _ => 1 | Peeking _ => 2 | _ => 0 end.

Lemma settled_step t i :
  settled t -> settled (thread_step t i false) /\
  forall j pc, threads t !! j = Some pc -> exists pc', threads (thread_step t i false) !! j = Some pc' /\
    (distance pc' <= distance pc - if decide (i = j) then 1 else 0)%nat.
Proof.
  intros Hset. pose proof (settled_full _ Hset) as Hfull.
  pose proof (thread_step_inv _ i false (proj1 Hset)) as Hinv. destruct Hset as [Hti Hall].
  unfold TaskQueueSet.thread_step in *. destruct (threads t !! i) as [pc|] eqn:Hi.
  2:{ split; [done|]. intros j pc Hj. exists pc. split; [done|].
      case_decide; [congruence|lia]. }
  pose proof (Forall_lookup_1 _ _ _ _ Hall Hi) as [Hw Hr].
  destruct (offer_step _ _ _ pc false) as [offered pc'] eqn:Hs.
  assert (Hpc' : pc' <> Working /\ pc' <> Retracting /\ (distance pc' <= distance pc - 1)%nat).
  { destruct pc; simpl in Hs; try done; repeat case_match; simplify_eq; simpl; try lia; done. }
  split; [split; [done|]; simpl; apply Forall_insert; [done|tauto]|].
  intros j pcj Hj. simpl. case_decide as Hij.
  - subst j. exists pc'. rewrite list_lookup_insert_eq by by eapply lookup_lt_Some.
    split; [done|]. replace pcj with pc by congruence. tauto.
  - exists pcj. rewrite list_lookup_insert_ne by done. split; [done|lia].
Qed.

Lemma settled_run t schedule i pc :
  settled t -> threads t !! i = Some pc -> exists pc',
    threads (run t ((fun j => (j, false)) <$> schedule)) !! i = Some pc' /\
    (distance pc' <= distance pc - length (filter (.= i) schedule))%nat /\
    settled (run t ((fun j => (j, false)) <$> schedule)).
Proof.
  revert t pc. induction schedule as [|k schedule IH]; intros t pc Hset Hi; simpl.
  { exists pc. split; [done|]. split; [lia|done]. }
  destruct (settled_step t k Hset) as [Hset' Hstep]. destruct (Hstep i pc Hi) as (pc1 & Hpc1 & Hd1).
  destruct (IH _ _ Hset' Hpc1) as (pc2 & Hpc2 & Hd2 & Hset2).
  exists pc2. split; [done|]. split; [|done]. rewrite filter_cons. case_decide; simpl in *; lia.
Qed.
End terminator_proofs.

(** ** Victims *)

Section victim_proofs.
Context {E : Type}.
Implicit Types queues qs : list (queue (E := E)).

Lemma s32_queue_size (q : queue (E := E)) : s32 (queue_size q) = queue_size q /\ 0 <= queue_size q.
Proof.
  unfold queue_size, size. pose proof (dirty_size_range (_bottom q) (_top (_age q))) as Hr.
  rewrite n_val in *. case_match; [done|]. split; [|lia]. apply s32_cursor. rewrite n_val. lia.
Qed.

(** The best of the queues before [k] is kept, or one of the others is better. *)
Lemma best_of_all_loop_ok qs queue_num k best_sz best_k sz' k' :
  best_of_all_loop qs queue_num k best_sz best_k = (sz', k') ->
  best_sz <= sz' /\
  (sz' = best_sz /\ k' = best_k \/
   best_sz < sz' /\ k <= k' /\ k' <> queue_num /\
   exists q, qs !! Z.to_nat (k' - k) = Some q /\ queue_size q = sz') /\
  (forall (i : nat) q, qs !! i = Some q -> k + Z.of_nat i <> queue_num -> queue_size q <= sz').
Proof.
  revert k best_sz best_k. induction qs as [|q qs IH]; intros k best_sz best_k; simpl.
  { intros [= -> ->]. split; [done|]. split; [by left|]. intros i q. by rewrite lookup_nil. }
  destruct (s32_queue_size q) as [Hsz H0]. rewrite Hsz, Z.gtb_ltb.
  assert (Hshift : forall k', k + 1 <= k' -> (q :: qs) !! Z.to_nat (k' - k) = qs !! Z.to_nat (k' - (k + 1))).
  { intros k1 Hk1. by replace (Z.to_nat (k1 - k)) with (S (Z.to_nat (k1 - (k + 1)))) by lia. }
  destruct (Z.eqb_spec k queue_num) as [->|Hne]; [|destruct (Z.ltb_spec best_sz (queue_size q)) as [Hb|Hb]];
    intros Hl; apply IH in Hl as (Hle & Hcase & Hall).
  - split; [done|]. split.
    + destruct Hcase as [|(? & ? & ? & Hq)]; [by left|]. right.
      rewrite Hshift by done. auto with lia.
    + intros [|i] q'; simpl; [lia|]. intros Hi Hne. apply (Hall i); [done|lia].
  - split; [lia|]. split.
    + right. destruct Hcase as [[-> ->]|(? & ? & ? & Hq)].
      * split_and!; [done|lia|done|]. rewrite Z.sub_diag. by exists q.
      * rewrite Hshift by done. auto with lia.
    + intros [|i] q'; simpl; [intros [= <-]; lia|]. intros Hi Hn'. apply (Hall i); [done|lia].
  - split; [done|]. split.
    + destruct Hcase as [|(? & ? & ? & Hq)]; [by left|]. right.
      rewrite Hshift by done. auto with lia.
    + intros [|i] q'; simpl; [intros [= <-]; lia|]. intros Hi Hn'. apply (Hall i); [done|lia].
Qed.

Lemma random_loop_ok fuel n seed k excluded k' seed' :
  0 < n -> 0 < seed < 2147483647 -> 0 <= k < n ->
  random_loop fuel n seed k excluded = Some (k', seed') ->
  excluded k' = false /\ 0 <= k' < n /\ 0 < seed' < 2147483647.
Proof.
  revert seed k. induction fuel as [|fuel IH]; intros seed k Hn Hs Hk; simpl;
    destruct (excluded k) eqn:Hx; try done; try (intros [= <- <-]; done).
  apply IH; [done|..]; rewrite park_miller_ok by done;
    pose proof (park_miller_ne seed Hs); pose proof (Z.mod_pos_bound (16807 * seed) 2147483647).
  - lia.
  - rewrite Z.rem_mod_nonneg by lia. apply Z.mod_pos_bound. lia.
Qed.
End victim_proofs.

(** ** Theorems *)

Section task_queue_set_theorems.

(** C13: A queue with overflow loses nothing, whatever queue it is built on: after
    any sequence of saves and retrievals from an empty queue the tasks saved are
    those retrieved together with those in the queue and on the stack; [is_empty]
    tells whether there are any, and [retrieve] returns one of them unless there
    are none.  The bound keeps the stack within the arithmetic of growable arrays. *)
Theorem overflow_history {Q} `{OwnerQueue Q Z} (junk : nat -> Z) (q : Q) us
  (Hempty : oq_rep q []) (Hmany : zlen us <= 2 ^ 27) :
  exists c0 c ts l o, overflow_initialize junk q = Some c0 /\
    run_uses junk c0 us = Some (c, ts) /\ oq_rep (_chunk_queue c) l /\
    (forall i, at_ (_overflow_stack c) i = load o i) /\
    saved us ≡ₚ ts ++ l ++ o /\
    (overflow_queue_is_empty c = true <-> l ++ o = []) /\
    exists c' b t, retrieve c = Some (c', b, t) /\ (b = false <-> l ++ o = []).
Proof.
  destruct (sized_ok 0 junk sizeof_ChunkTask size_ok 10) as (a & Ha & Hrep); [lia|done|].
  destruct (run_uses_ok junk (mkOverflow q a) [] [] us (conj Hempty Hrep) Hmany)
    as (c & ts & l & o & Hrun & Hc & Hp).
  exists (mkOverflow q a), c, ts, l, o. unfold overflow_initialize. rewrite Ha.
  split; [done|]. split; [done|]. split; [apply Hc|].
  split; [destruct Hc; intros i; eapply in_range_load; eauto using size_ok|]. split; [done|]. split; [by apply is_empty_ok|].
  destruct (retrieve_ok c l o Hc) as (c' & b & t & Hr & Hcase). exists c', b, t. split; [done|].
  destruct b.
  - destruct Hcase as (l' & o' & _ & Hperm & _). split; [done|]. intros Hnil.
    rewrite Hnil in Hperm. by apply Permutation_nil_cons in Hperm.
  - destruct Hcase as (-> & -> & _). done.
Qed.

(** C20: [offer_termination] releases a thread only when every thread of the task
    has offered termination and none is outside the call, in any interleaving and
    whatever the threads see in the queues; the count is at every moment the number
    of the threads that have offered and not withdrawn, so [reset_for_reuse] is accepted
    once all are released.  But the others need not be "terminated": one that has just seen work may withdraw its offer and return
    [false] after another was released. *)
Theorem termination_agreed (n_threads Y : Z) (Hn : 0 <= n_threads < 2 ^ 31) :
  (forall schedule i work, let t := run n_threads Y (new_terminator n_threads) schedule in
     zlen (threads t) = n_threads /\
     _offered_termination t = zlen (filter (.≠ Working) (threads t)) /\
     (threads t !! i <> Some Terminated ->
      threads (thread_step n_threads Y t i work) !! i = Some Terminated ->
      Forall (.≠ Working) (threads t)) /\
     (Forall (.= Terminated) (threads t) -> exists t', reset_for_reuse n_threads t = Some t' /\
        _offered_termination t' = 0)) /\
  (exists schedule, threads (run 2 Y (new_terminator 2) schedule) = [Working; Terminated]).
Proof.
  split.
  - intros schedule i work t.
    pose proof (run_inv n_threads Y Hn _ schedule (new_terminator_inv n_threads Hn)) as Hinv.
    change (term_inv n_threads t) in Hinv.
    destruct (Hinv) as [Hlen Hoff]. split; [done|]. split; [done|]. split; [by eapply released_all|].
    intros Hall. unfold reset_for_reuse. rewrite Hoff.
    rewrite (proj2 (offering_all _)) by (apply (Forall_impl _ _ _ Hall); by intros ? ->).
    rewrite Hlen, Z.eqb_refl. destruct (Z.eqb_spec n_threads 0); simpl; eexists; split; try done; simpl.
    by rewrite Hoff, (proj2 (offering_all _)), Hlen by (apply (Forall_impl _ _ _ Hall); by intros ? ->).
  - exists [(0, false); (0, false); (0, true); (1, false); (1, false); (0, false)]%nat.
    destruct Y; reflexivity.
Qed.

(** C32: Once every thread has offered termination and none is about to withdraw,
    a thread that is scheduled two more times has been released, if the queues stay
    empty: the threads do not wait for each other for ever. *)
Theorem termination_reached (n_threads Y : Z) t schedule i
  (Hn : 0 <= n_threads < 2 ^ 31)
  (Hreach : exists before, t = run n_threads Y (new_terminator n_threads) before)
  (Hall : Forall (fun pc => pc <> Working /\ pc <> Retracting) (threads t))
  (Hi : (i < length (threads t))%nat) (Htwice : (2 <= length (filter (.= i) schedule))%nat) :
  threads (run n_threads Y t ((fun j => (j, false)) <$> schedule)) !! i = Some Terminated.
Proof.
  destruct Hreach as [before Ht].
  assert (Hset : settled n_threads t).
  { split; [|done]. rewrite Ht. by apply run_inv, new_terminator_inv. }
  apply lookup_lt_is_Some_2 in Hi as [pc Hi].
  destruct (settled_run n_threads Y Hn t schedule i pc Hset Hi) as (pc' & Hpc' & Hd & [_ Hset']).
  rewrite Hpc'. pose proof (Forall_lookup_1 _ _ _ _ Hset' Hpc') as [Hw Hr].
  destruct pc, pc'; simpl in *; done || lia.
Qed.

(** [randomParkAndMiller] computes 16807 * seed mod (2^31 - 1) without
    overflow, and so keeps the seed in range.  [steal_best_of_all] picks another
    queue with the most tasks, or none only when all others are empty.  The victim
    of [steal_best_of_2] is another queue of the set.  [steal_1_random] goes to
    queue 2, whatever number it has drawn, also when that is the thread's own. *)
Theorem victim_choice {E} (queues : list (queue (E := E))) (queue_num seed : Z)
  (Hseed : 0 < seed < 2147483647) (Hmany : 2 < zlen queues) (Hnum : 0 <= queue_num < zlen queues) :
  randomParkAndMiller seed = (16807 * seed) mod 2147483647 /\
  0 < randomParkAndMiller seed < 2147483647 /\
  (is_s 32 (16807 * Z.rem seed 127773) /\ is_s 32 (2836 * Z.quot seed 127773)) /\
  match victim_best_of_all queues queue_num with
  | Some k => k <> queue_num /\ exists q, load queues k = Some q /\ 0 < queue_size q /\
      forall j q', load queues j = Some q' -> j <> queue_num -> queue_size q' <= queue_size q
  | None => forall j q', load queues j = Some q' -> j <> queue_num -> queue_size q' = 0
  end /\
  (forall fuel r seed', victim_best_of_2 fuel queues queue_num seed = Some (r, seed') ->
     exists k, r = Some k /\ k <> queue_num /\ 0 <= k < zlen queues) /\
  (forall fuel r seed', victim_1_random fuel queues queue_num seed = Some (r, seed') -> r = Some 2).
Proof.
  pose proof (park_miller_bounds seed Hseed) as (Hb1 & Hb2 & _).
  pose proof (park_miller_ne seed Hseed). pose proof (Z.mod_pos_bound (16807 * seed) 2147483647).
  split; [by apply park_miller_ok|]. split; [rewrite park_miller_ok by done; lia|].
  split; [done|]. split; [|split].
  - unfold victim_best_of_all. rewrite Z.gtb_ltb, (proj2 (Z.ltb_lt _ _)) by done.
    destruct (best_of_all_loop queues queue_num 0 0 0) as [best_sz best_k] eqn:Hl.
    apply best_of_all_loop_ok in Hl as (Hle & Hcase & Hall).
    assert (Hload : forall j q', load queues j = Some q' -> j <> queue_num -> queue_size q' <= best_sz).
    { intros j q' Hj Hne. pose proof (load_Some _ _ _ Hj). unfold load in Hj.
      rewrite decide_True in Hj by lia. apply (Hall _ _ Hj). lia. }
    rewrite Z.gtb_ltb. destruct (Z.ltb_spec 0 best_sz).
    + destruct Hcase as [[]|(_ & Hk & Hne & q & Hq & Hsz)]; [lia|]. split; [done|].
      exists q. rewrite Z.sub_0_r in Hq. unfold load at 1. rewrite decide_True by done.
      rewrite Hsz. done.
    + intros j q' Hj Hne. pose proof (Hload j q' Hj Hne). destruct (s32_queue_size q'). lia.
  - intros fuel r seed'. unfold victim_best_of_2. rewrite Z.gtb_ltb, (proj2 (Z.ltb_lt _ _)) by done.
    destruct (random_loop _ _ seed _ _) as [[k1 s1]|] eqn:Hr1; [simpl|done].
    destruct (random_loop _ _ s1 _ _) as [[k2 s2]|] eqn:Hr2; [simpl|done].
    apply random_loop_ok in Hr1 as (Hx1 & Hk1 & Hs1); [|lia..].
    apply random_loop_ok in Hr2 as (Hx2 & Hk2 & Hs2); [|lia..].
    apply Z.eqb_neq in Hx1. apply orb_false_iff in Hx2 as [Hx2%Z.eqb_neq _].
    destruct (load queues k1), (load queues k2); simpl; [|done..]. intros [= <- <-].
    case_match; eauto.
  - intros fuel r seed'. unfold victim_1_random. rewrite Z.gtb_ltb, (proj2 (Z.ltb_lt _ _)) by done.
    destruct (random_loop _ _ seed _ _) as [[k1 s1]|]; simpl; congruence.
Qed.
End task_queue_set_theorems.

(** ** Witnesses *)

Definition sample_queue : queue (E := Z) := mkQueue 0 (mkAge 0 0) sample_elems.

Lemma sample_queue_empty : oq_rep sample_queue ([] : list Z).
Proof. exists 0, 0, 0. apply (inv_initial sample_elems 0). apply sample_elems_length. Qed.

Lemma overflow_history_witness :
  exists c0 c ts l o, overflow_initialize (fun _ => 0) sample_queue = Some c0 /\
    run_uses (fun _ => 0) c0 [Save 1; Save 2; Retrieve] = Some (c, ts) /\
    oq_rep (_chunk_queue c) l /\ (forall i, at_ (_overflow_stack c) i = load o i) /\
    [1; 2] ≡ₚ ts ++ l ++ o /\ (overflow_queue_is_empty c = true <-> l ++ o = []) /\
    exists c' b t, retrieve c = Some (c', b, t) /\ (b = false <-> l ++ o = []).
Proof.
  apply (overflow_history (fun _ => 0) sample_queue [Save 1; Save 2; Retrieve] sample_queue_empty).
  discriminate.
Defined.

Lemma termination_agreed_witness :
  exists schedule, threads (run 2 5 (new_terminator 2) schedule) = [Working; Terminated].
Proof. apply (termination_agreed 2 5). split; [discriminate|reflexivity]. Defined.

Lemma termination_reached_witness :
  threads (run 2 5 (run 2 5 (new_terminator 2) [(0, false); (1, false); (1, false)]%nat)
    ((fun j => (j, false)) <$> [1; 0; 1]%nat)) !! 1%nat = Some Terminated.
Proof.
  apply (termination_reached 2 5).
  - split; [discriminate|reflexivity].
  - by exists [(0, false); (1, false); (1, false)]%nat.
  - vm_compute. repeat constructor; intros [=].
  - vm_compute. lia.
  - vm_compute. lia.
Defined.

Lemma victim_choice_witness :
  randomParkAndMiller 42 = 705894 /\
  victim_best_of_all [sample_queue; mkQueue 3 (mkAge 1 0) []; mkQueue 5 (mkAge 1 0) []] 0 = Some 2 /\
  forall fuel r seed', victim_1_random fuel
    [sample_queue; mkQueue 3 (mkAge 1 0) []; mkQueue 5 (mkAge 1 0) []] 2 42 = Some (r, seed') ->
    r = Some 2.
Proof.
  destruct (victim_choice [sample_queue; mkQueue 3 (mkAge 1 0) []; mkQueue 5 (mkAge 1 0) []] 2 42)
    as (Hr & _ & _ & _ & _ & H1); [lia|reflexivity|simpl; lia|].
  split; [exact Hr|]. split; [reflexivity|exact H1].
Defined.
