(* ===== verification/WordBits.v ===== *)
(** * Bits of machine words

    Identities between shifts, masks and sums of [w]-bit integers, on which the
    rewriting of arithmetic nodes in the compiler rests.  They hold for every width;
    most compare the two sides bit by bit. *)

From S2P Require Import Prelude.

Open Scope Z_scope.

Lemma wraps_cong w a b : (exists k, a = b + k * 2 ^ w) -> wraps w a = wraps w b.
Proof.
  intros [k ->]. apply wraps_ext. unfold wrapu.
  destruct (Z.eq_dec (2 ^ w) 0) as [E|]; [by rewrite E, Z.mul_0_r, Z.add_0_r|]. by apply Z.mod_add.
Qed.

Lemma wraps_multiple w x : 0 < w -> exists k, wraps w x = x + k * 2 ^ w.
Proof.
  intros Hw. exists ((wraps w x - x) / 2 ^ w). pose proof (Z.pow_pos_nonneg 2 w).
  rewrite (Z.mul_comm (_ / _)), <- Z_div_exact_full_2; [lia|lia|].
  pose proof (wrapu_wraps w x Hw) as Hu. unfold wrapu in Hu.
  rewrite Zminus_mod, Hu, Z.sub_diag. apply Z.mod_0_l. lia.
Qed.

Lemma wraps_mul_l w a b : 0 < w -> wraps w (wraps w a * b) = wraps w (a * b).
Proof.
  intros Hw. destruct (wraps_multiple w a Hw) as [k ->]. apply wraps_cong. exists (k * b). ring.
Qed.

Lemma wraps_mul_r w a b : 0 < w -> wraps w (a * wraps w b) = wraps w (a * b).
Proof. intros. rewrite Z.mul_comm, wraps_mul_l, Z.mul_comm; done. Qed.

Lemma wraps_sub_l w a b : 0 < w -> wraps w (wraps w a - b) = wraps w (a - b).
Proof. intros. unfold Z.sub. by apply wraps_add_l. Qed.

Lemma wraps_sub_r w a b : 0 < w -> wraps w (a - wraps w b) = wraps w (a - b).
Proof.
  intros Hw. destruct (wraps_multiple w b Hw) as [k ->]. apply wraps_cong. exists (- k). ring.
Qed.

Lemma wraps_shl_l w a k : 0 < w -> 0 <= k -> wraps w (wraps w a ≪ k) = wraps w (a ≪ k).
Proof. intros. rewrite !Z.shiftl_mul_pow2 by done. by apply wraps_mul_l. Qed.

(** ** Bits *)

Lemma testbit_wrapu w x n : 0 <= w -> 0 <= n -> Z.testbit (wrapu w x) n = (n <? w) && Z.testbit x n.
Proof.
  intros Hw Hn. unfold wrapu. destruct (Z.ltb_spec n w); cbn [andb].
  - apply Z.mod_pow2_bits_low. lia.
  - apply Z.mod_pow2_bits_high. lia.
Qed.

Lemma testbit_wraps w x n : 0 <= n < w -> Z.testbit (wraps w x) n = Z.testbit x n.
Proof.
  intros Hn. pose proof (wrapu_wraps w x ltac:(lia)) as E.
  apply (f_equal (fun z => Z.testbit z n)) in E. rewrite !testbit_wrapu in E by lia.
  by rewrite (proj2 (Z.ltb_lt n w)) in E by lia.
Qed.

(** Words are equal if their bits are. *)
Lemma wraps_bits w a b :
  0 < w -> (forall n, 0 <= n < w -> Z.testbit a n = Z.testbit b n) -> wraps w a = wraps w b.
Proof.
  intros Hw H. apply wraps_ext. apply Z.bits_inj'. intros n Hn. rewrite !testbit_wrapu by lia.
  destruct (Z.ltb_spec n w); [|done]. by rewrite H.
Qed.

Lemma word_bits w a b :
  0 < w -> is_s w a -> is_s w b -> (forall n, 0 <= n < w -> Z.testbit a n = Z.testbit b n) -> a = b.
Proof. intros Hw Ha Hb H. rewrite <- (wraps_id w a), <- (wraps_id w b) by done. by apply wraps_bits. Qed.

Lemma land_range w a b : 0 < w -> is_s w a -> is_s w b -> is_s w (a &&& b).
Proof.
  intros Hw. rewrite !is_s_shiftr, Z.shiftr_land by done. intros [-> | ->] [-> | ->]; auto.
Qed.

Lemma lor_range w a b : 0 < w -> is_s w a -> is_s w b -> is_s w (a ||| b).
Proof.
  intros Hw. rewrite !is_s_shiftr, Z.shiftr_lor by done. intros [-> | ->] [-> | ->]; auto.
Qed.

Lemma lxor_range w a b : 0 < w -> is_s w a -> is_s w b -> is_s w (a ^^^ b).
Proof.
  intros Hw. rewrite !is_s_shiftr, Z.shiftr_lxor by done. intros [-> | ->] [-> | ->]; auto.
Qed.

Lemma shr_range w s a : 0 < w -> 0 <= s -> is_s w a -> is_s w (a ≫ s).
Proof.
  intros Hw Hs Ha. unfold is_s in *. rewrite Z.shiftr_div_pow2 by done.
  assert (1 <= 2 ^ s) by (apply (Z.pow_le_mono_r 2 0); lia). pose proof (Z.pow_pos_nonneg 2 (w - 1)).
  split; [apply Z.div_le_lower_bound|apply Z.div_lt_upper_bound]; nia.
Qed.

Lemma testbit_mask m n : 0 <= m -> 0 <= n -> Z.testbit (2 ^ m - 1) n = (n <? m).
Proof.
  intros Hm Hn. replace (2 ^ m - 1) with (Z.ones m) by (rewrite Z.ones_equiv; lia).
  destruct (Z.ltb_spec n m); [apply Z.ones_spec_low|apply Z.ones_spec_high]; lia.
Qed.

Lemma testbit_neg_pow m n : 0 <= m -> 0 <= n -> Z.testbit (- 2 ^ m) n = negb (n <? m).
Proof.
  intros Hm Hn. replace (- 2 ^ m) with (Z.lnot (2 ^ m - 1)) by (unfold Z.lnot; lia).
  by rewrite Z.lnot_spec, testbit_mask.
Qed.

(** ** Shifts there and back *)

Section shifts.
Context (w k : Z).
Hypothesis Hk : 0 <= k < w.
Set Default Proof Using "Type*".

Lemma neg_pow_range : is_s w (- 2 ^ k).
Proof.
  unfold is_s. pose proof (Z.pow_le_mono_r 2 k (w - 1) ltac:(lia) ltac:(lia)).
  pose proof (Z.pow_pos_nonneg 2 k). lia.
Qed.

(** The mask of the bits that a left shift loses. *)
Lemma low_mask_range : 0 < k -> is_s w (2 ^ (w - k) - 1).
Proof.
  intros. unfold is_s. pose proof (Z.pow_le_mono_r 2 (w - k) (w - 1) ltac:(lia) ltac:(lia)).
  pose proof (Z.pow_pos_nonneg 2 (w - k)). lia.
Qed.

Lemma ushr_range x : is_s w (wraps w (wrapu w x ≫ k)).
Proof. apply wraps_range. lia. Qed.

(** Bit [n] of a zero-filling shift. *)
Lemma testbit_ushr x n :
  0 <= n < w -> Z.testbit (wraps w (wrapu w x ≫ k)) n = (n + k <? w) && Z.testbit x (n + k).
Proof. intros Hn. rewrite testbit_wraps, Z.shiftr_spec, testbit_wrapu by lia. done. Qed.

(** Bit [n] of a left shift. *)
Lemma testbit_shl x n :
  0 <= n < w -> Z.testbit (wraps w (x ≪ k)) n = negb (n <? k) && Z.testbit x (n - k).
Proof.
  intros Hn. rewrite testbit_wraps, Z.shiftl_spec by lia. destruct (Z.ltb_spec n k); cbn [negb andb]; [|done].
  apply Z.testbit_neg_r. lia.
Qed.

Lemma shl_masked_shr x y :
  is_s w x -> wraps w (((x ≫ k) &&& y) ≪ k) = x &&& wraps w (y ≪ k).
Proof.
  intros Hx. apply (word_bits w); [lia|apply wraps_range; lia|apply land_range; [lia|done|apply wraps_range; lia]|].
  intros n Hn. rewrite Z.land_spec, !testbit_shl, Z.land_spec by done.
  destruct (Z.ltb_spec n k); cbn [negb andb]; [by rewrite andb_false_r|].
  rewrite Z.shiftr_spec by lia. by replace (n - k + k) with n by lia.
Qed.

Lemma shl_masked_ushr x y :
  is_s w x -> wraps w ((wraps w (wrapu w x ≫ k) &&& y) ≪ k) = x &&& wraps w (y ≪ k).
Proof.
  intros Hx. apply (word_bits w); [lia|apply wraps_range; lia|apply land_range; [lia|done|apply wraps_range; lia]|].
  intros n Hn. rewrite Z.land_spec, !testbit_shl, Z.land_spec by done.
  destruct (Z.ltb_spec n k); cbn [negb andb]; [by rewrite andb_false_r|].
  rewrite testbit_ushr by lia. rewrite (proj2 (Z.ltb_lt _ _)) by lia. cbn [andb]. by replace (n - k + k) with n by lia.
Qed.

Lemma shl_minus_one : wraps w ((-1) ≪ k) = - 2 ^ k.
Proof.
  rewrite Z.shiftl_mul_pow2 by lia. replace ((-1) * 2 ^ k) with (- 2 ^ k) by lia.
  apply wraps_id; [lia|apply neg_pow_range].
Qed.

Lemma shl_of_shr x : is_s w x -> wraps w ((x ≫ k) ≪ k) = x &&& - 2 ^ k.
Proof.
  intros Hx. rewrite <- shl_minus_one, <- shl_masked_shr by done. by rewrite Z.land_m1_r.
Qed.

Lemma shl_of_ushr x : is_s w x -> wraps w (wraps w (wrapu w x ≫ k) ≪ k) = x &&& - 2 ^ k.
Proof.
  intros Hx. rewrite <- shl_minus_one, <- shl_masked_ushr by done. by rewrite Z.land_m1_r.
Qed.

Lemma shl_high_mask x : 0 < k -> wraps w ((x &&& (2 ^ (w - k) - 1)) ≪ k) = wraps w (x ≪ k).
Proof.
  intros. apply wraps_bits; [lia|]. intros n Hn. rewrite !Z.shiftl_spec by lia.
  destruct (Z.lt_ge_cases n k); [by rewrite !Z.testbit_neg_r by lia|].
  rewrite Z.land_spec, testbit_mask, (proj2 (Z.ltb_lt _ _)) by lia. apply andb_true_r.
Qed.

Lemma shl_of_sum x c : wraps w (wraps w (x + c) ≪ k) = wraps w (wraps w (x ≪ k) + wraps w (c ≪ k)).
Proof.
  rewrite wraps_shl_l, wraps_add_l, wraps_add_r by lia. f_equal. rewrite !Z.shiftl_mul_pow2 by lia. ring.
Qed.

Lemma ushr_of_mask x m :
  is_s w m -> wraps w (wrapu w (x &&& m) ≫ k) = wraps w (wrapu w x ≫ k) &&& (m ≫ k).
Proof.
  intros Hm. apply (word_bits w); [lia|apply ushr_range|apply land_range; [lia|apply ushr_range|apply shr_range; lia || done]|].
  intros n Hn. rewrite Z.land_spec, !testbit_ushr, Z.land_spec, Z.shiftr_spec by lia.
  by rewrite andb_assoc.
Qed.

Lemma ushr_of_shl x : is_s w x -> 0 < k -> wraps w (wrapu w (wraps w (x ≪ k)) ≫ k) = x &&& (2 ^ (w - k) - 1).
Proof.
  intros Hx Hk0. apply (word_bits w); [lia|apply ushr_range|apply land_range; [lia|done|by apply low_mask_range]|].
  intros n Hn. rewrite testbit_ushr, Z.land_spec, testbit_mask by lia.
  replace (n <? w - k) with (n + k <? w) by lia. destruct (Z.ltb_spec (n + k) w); cbn [andb]; [|by rewrite andb_false_r].
  rewrite testbit_shl, (proj2 (Z.ltb_ge _ _)) by lia. cbn [negb andb]. rewrite andb_true_r. f_equal. lia.
Qed.

(** A mask that keeps none of the sign bits of a shift. *)
Lemma masked_shr_ushr x m :
  is_s w x -> is_s w m -> wraps w (Z.lnot (2 ^ (w - k) - 1)) &&& m = 0 ->
  (x ≫ k) &&& m = wraps w (wrapu w x ≫ k) &&& m.
Proof.
  intros Hx Hm Hz. apply (word_bits w); [lia|apply land_range; [lia|apply shr_range; lia || done|done]|
    apply land_range; [lia|apply ushr_range|done]|].
  intros n Hn. apply (f_equal (fun z => Z.testbit z n)) in Hz.
  rewrite Z.land_spec, testbit_wraps, Z.lnot_spec, testbit_mask, Z.bits_0 in Hz by lia.
  rewrite !Z.land_spec, testbit_ushr, Z.shiftr_spec by lia.
  destruct (Z.ltb_spec (n + k) w); cbn [andb]; [done|].
  rewrite (proj2 (Z.ltb_ge _ _)) in Hz by lia. cbn in Hz. rewrite Hz. apply andb_false_r.
Qed.

(** Sign extension of a number that fits what the left shift leaves. *)
Lemma shr_of_shl x : - 2 ^ (w - k - 1) <= x < 2 ^ (w - k - 1) -> wraps w (x ≪ k) ≫ k = x.
Proof.
  intros Hx. assert (0 < 2 ^ k) by (apply Z.pow_pos_nonneg; lia).
  assert (Hp : 2 ^ (w - 1) = 2 ^ (w - k - 1) * 2 ^ k) by (rewrite <- Z.pow_add_r by lia; f_equal; lia).
  rewrite Z.shiftl_mul_pow2, Z.shiftr_div_pow2 by lia.
  rewrite wraps_id; [apply Z.div_mul; lia|lia|]. unfold is_s. nia.
Qed.

Lemma shifted_sum x y :
  0 < k ->
  wraps w (wrapu w (wraps w (wraps w (x ≪ k) + y)) ≫ k) =
  wraps w (x + wraps w (wrapu w y ≫ k)) &&& (2 ^ (w - k) - 1).
Proof.
  intros Hk0. assert (Hp : 2 ^ w = 2 ^ k * 2 ^ (w - k)) by (rewrite <- Z.pow_add_r by lia; f_equal; lia).
  assert (0 < 2 ^ k) by (apply Z.pow_pos_nonneg; lia). assert (0 < 2 ^ (w - k)) by (apply Z.pow_pos_nonneg; lia).
  assert (Hmod : forall z, wraps w z mod 2 ^ (w - k) = z mod 2 ^ (w - k)).
  { intros z. destruct (wraps_multiple w z ltac:(lia)) as [j ->]. rewrite Hp, Z.mul_assoc. by apply Z.mod_add; lia. }
  assert (Hdiv : forall z, wrapu w z / 2 ^ k = (z / 2 ^ k) mod 2 ^ (w - k)).
  { intros z. unfold wrapu. rewrite Hp, Z.rem_mul_r by lia. rewrite (Z.mul_comm (2 ^ k)).
    rewrite Z.div_add by lia. rewrite Z.div_small by (apply Z.mod_pos_bound; lia). lia. }
  rewrite land_ones_mod, Hmod by lia. rewrite wraps_add_l, wrapu_wraps by lia.
  rewrite Z.shiftl_mul_pow2, !Z.shiftr_div_pow2, !Hdiv by lia.
  rewrite (Z.add_comm (x * 2 ^ k)), Z.div_add, (Z.add_comm x) by lia.
  rewrite wraps_id; [|lia|].
  - rewrite (wraps_id w ((y / 2 ^ k) mod 2 ^ (w - k))), Zplus_mod_idemp_l; [done|lia|].
    unfold is_s. pose proof (Z.mod_pos_bound (y / 2 ^ k) (2 ^ (w - k)) ltac:(lia)).
    pose proof (Z.pow_le_mono_r 2 (w - k) (w - 1) ltac:(lia) ltac:(lia)). lia.
  - unfold is_s. pose proof (Z.mod_pos_bound (y / 2 ^ k + x) (2 ^ (w - k)) ltac:(lia)).
    pose proof (Z.pow_le_mono_r 2 (w - k) (w - 1) ltac:(lia) ltac:(lia)). lia.
Qed.
End shifts.

(** Two zero-filling shifts. *)
Lemma ushr_ushr w a b x :
  0 <= a -> 0 <= b -> a + b < w ->
  wraps w (wrapu w (wraps w (wrapu w x ≫ a)) ≫ b) = wraps w (wrapu w x ≫ (a + b)).
Proof.
  intros Ha Hb Hab. apply wraps_bits; [lia|]. intros n Hn.
  rewrite !Z.shiftr_spec, !testbit_wrapu by lia. destruct (Z.ltb_spec (n + b) w); cbn [andb].
  - rewrite testbit_ushr by lia. by replace (n + b + a) with (n + (a + b)) by lia.
  - by rewrite (proj2 (Z.ltb_ge _ _)) by lia.
Qed.

(** ** The lowest bit of a number *)

Lemma land_opp_odd j : (2 * j + 1) &&& - (2 * j + 1) = 1.
Proof.
  apply Z.bits_inj'. intros n Hn. replace (- (2 * j + 1)) with (Z.lnot (2 * j)) by (unfold Z.lnot; lia).
  rewrite Z.land_spec, Z.lnot_spec by done. destruct (Z.eq_dec n 0) as [->|].
  - by rewrite Z.testbit_odd_0, Z.testbit_even_0.
  - replace n with (Z.succ (n - 1)) by lia. rewrite Z.testbit_odd_succ, Z.testbit_even_succ by lia.
    rewrite andb_negb_r. symmetry. change 1 with (2 * 0 + 1). rewrite Z.testbit_odd_succ by lia. apply Z.bits_0.
Qed.

Lemma lowest_bit c : 0 < c -> exists k j, 0 <= k /\ 0 <= j /\ c = 2 ^ k * (2 * j + 1) /\ c &&& - c = 2 ^ k.
Proof.
  intros Hc. assert (Hodd : exists k j, 0 <= k /\ 0 <= j /\ c = 2 ^ k * (2 * j + 1)).
  { induction c as [c IH] using (well_founded_induction_type (Z.lt_wf 0)).
    destruct (Z.Even_or_Odd c) as [[j ->]|[j ->]].
    - destruct (IH j ltac:(lia) ltac:(lia)) as (k & i & Hk & Hi & ->). exists (Z.succ k), i.
      rewrite Z.pow_succ_r by done. split_and!; lia.
    - exists 0, j. lia. }
  destruct Hodd as (k & j & Hk & Hj & ->). exists k, j. split_and!; [done..|].
  replace (- (2 ^ k * (2 * j + 1))) with (- (2 * j + 1) * 2 ^ k) by ring.
  rewrite (Z.mul_comm (2 ^ k)), <- !Z.shiftl_mul_pow2, <- Z.shiftl_land, land_opp_odd by done.
  rewrite Z.shiftl_mul_pow2 by done. lia.
Qed.
