(* ===== verification/IdealType.v ===== *)
(** * Types of the optimizing compiler

    Model of the numeric part of opto/type.hpp and opto/type.cpp: the lattice of
    value sets over which the compiler runs its data-flow analyses.  A type is top,
    bottom, a range of ints or of longs with a widening count, a float or double
    constant, the tops and bottoms of these, or one of the types that stand for no
    value (control, memory, ...).  Pointer types, tuples and function types are not
    modelled.  Types are hash-consed in the code, so that comparing pointers
    compares types; here types are values and the comparison is equality. *)

From S2P Require Import Prelude GlobalDefinitions.

Open Scope Z_scope.

Definition min_jint : Z := - 2 ^ 31.
Abbreviation max_jint := (2 ^ 31 - 1).
Abbreviation max_juint := (2 ^ 32 - 1).
Definition min_jlong : Z := - 2 ^ 63.
Definition max_jlong : Z := 2 ^ 63 - 1.
Abbreviation max_julong := (2 ^ 64 - 1).

(** ** [Type] *)

Abbreviation WidenMin := (0).
Abbreviation WidenMax := (3).

(** Float and double constants are given by their bits. *)
Inductive IType :=
| Control | Top
| Int (lo hi widen : Z) | Long (lo hi widen : Z)
| Half | Abio | Return_Address | Memory
| FloatTop | FloatCon (bits : Z) | FloatBot
| DoubleTop | DoubleCon (bits : Z) | DoubleBot
| Bottom.

#[export] Instance IType_eq_dec : EqDecision IType.
Proof. solve_decision. Defined.

(** A value too insignificant to consider widening. *)
Abbreviation SMALLINT := (3).

(** ** [TypeInt] *)

Module TypeInt.

Definition make_con (lo : Z) : IType := Int lo lo WidenMin.

Definition make (lo hi w : Z) : IType :=
  let w := if lo <=? hi then
             let w := if u32 (hi - lo) <=? SMALLINT then WidenMin else w in
             if u32 (hi - lo) >=? max_juint then WidenMax else w
           else w in
  Int lo hi w.

Definition INT : IType := make min_jint max_jint WidenMax.
Definition ZERO : IType := make_con 0.
Definition ONE : IType := make_con 1.
Abbreviation POS := (make 0 max_jint WidenMin).
Definition MINUS_1 : IType := make_con (-1).
Abbreviation BOOL := (make 0 1 WidenMin).
Abbreviation CC := (make (-1) 1 WidenMin).
Abbreviation CC_LT := (make (-1) (-1) WidenMin).
Abbreviation CC_GT := (make 1 1 WidenMin).
Abbreviation CC_EQ := (make 0 0 WidenMin).
Abbreviation CC_LE := (make (-1) 0 WidenMin).
Abbreviation CC_GE := (make 0 1 WidenMin).

(** [xmeet] of the range and [t]; [None] is [ShouldNotReachHere]. *)
Definition xmeet (lo hi widen : Z) (t : IType) : option IType :=
  if decide (Int lo hi widen = t) then Some (Int lo hi widen) else
  match t with
  | Long _ _ _ | FloatTop | FloatCon _ | FloatBot | DoubleTop | DoubleCon _ | DoubleBot
  | Bottom => Some Bottom
  | Top => Some (Int lo hi widen)
  | Int rlo rhi rwiden => Some (Int (MIN2 lo rlo) (MAX2 hi rhi) (MAX2 widen rwiden))
  | Control | Half | Abio | Return_Address | Memory => None
  end.

Definition xdual (lo hi widen : Z) : IType := Int hi lo (WidenMax - widen).

Definition widen_range (lo hi widen : Z) (old : IType) : IType :=
  match old with
  | Int olo ohi owiden =>
      if (lo =? olo) && (hi =? ohi) then old
      else if (lo <=? olo) && (hi >=? ohi) then
        if widen >? owiden then Int lo hi widen
        else if olo =? ohi then Int lo hi widen
        else if widen =? WidenMax then
          if (min_jint <? lo) && (hi <? max_jint) then
            if (lo >=? 0) || (u32 (lo - min_jint) >=? u32 (max_jint - hi))
            then make lo max_jint WidenMax
            else make min_jint hi WidenMax
          else INT
        else make lo hi (widen + 1)
      else if (olo <=? lo) && (ohi >=? hi) then old
      else INT
  | _ => Int lo hi widen
  end.

(** [narrow]; [None] for [old] is NULL. *)
Definition narrow (lo hi widen : Z) (old : option IType) : IType :=
  if lo >=? hi then Int lo hi widen else
  match old with
  | Some (Int olo ohi owiden) =>
      if (lo =? olo) && (hi =? ohi) then Int olo ohi owiden
      else if (olo =? min_jint) && (ohi =? max_jint) then Int lo hi widen
      else if (lo <? olo) || (hi >? ohi) then Int lo hi widen
      else
        let nrange := u32 (hi - lo) in
        let orange := u32 (ohi - olo) in
        if (nrange <? max_juint - 1) && (nrange >? u32 ((orange ≫ 1) + SMALLINT * 2))
        then Int olo ohi owiden
        else Int lo hi widen
  | _ => Int lo hi widen
  end.

Definition singleton (lo hi : Z) : bool := lo >=? hi.
Definition empty (lo hi : Z) : bool := lo >? hi.
Definition is_con (lo hi : Z) : bool := lo =? hi.
Definition is_con_of (lo hi i : Z) : bool := (lo =? hi) && (lo =? i).
End TypeInt.

(** ** [TypeLong] *)

Module TypeLong.

Definition make_con (lo : Z) : IType := Long lo lo WidenMin.

Definition make (lo hi w : Z) : IType :=
  let w := if lo <=? hi then
             let w := if u64 (hi - lo) <=? SMALLINT then WidenMin else w in
             if u64 (hi - lo) >=? max_julong then WidenMax else w
           else w in
  Long lo hi w.

Definition LONG : IType := make min_jlong max_jlong WidenMax.
Definition ZERO : IType := make_con 0.
Definition ONE : IType := make_con 1.
Abbreviation POS := (make 0 max_jlong WidenMin).
Definition MINUS_1 : IType := make_con (-1).

Definition xmeet (lo hi widen : Z) (t : IType) : option IType :=
  if decide (Long lo hi widen = t) then Some (Long lo hi widen) else
  match t with
  | Int _ _ _ | FloatTop | FloatCon _ | FloatBot | DoubleTop | DoubleCon _ | DoubleBot
  | Bottom => Some Bottom
  | Top => Some (Long lo hi widen)
  | Long rlo rhi rwiden => Some (Long (MIN2 lo rlo) (MAX2 hi rhi) (MAX2 widen rwiden))
  | Control | Half | Abio | Return_Address | Memory => None
  end.

Definition xdual (lo hi widen : Z) : IType := Long hi lo (WidenMax - widen).

Definition widen_range (lo hi widen : Z) (old : IType) : IType :=
  match old with
  | Long olo ohi owiden =>
      if (lo =? olo) && (hi =? ohi) then old
      else if (lo <=? olo) && (hi >=? ohi) then
        if widen >? owiden then Long lo hi widen
        else if olo =? ohi then Long lo hi widen
        else if widen =? WidenMax then
          if (min_jlong <? lo) && (hi <? max_jlong) then
            if (lo >=? 0) || (u64 (lo - min_jlong) >=? u64 (max_jlong - hi))
            then if hi <? max_juint then make lo max_juint WidenMax
                 else make lo max_jlong WidenMax
            else make min_jlong hi WidenMax
          else LONG
        else make lo hi (widen + 1)
      else if (olo <=? lo) && (ohi >=? hi) then old
      else LONG
  | _ => Long lo hi widen
  end.

Definition narrow (lo hi widen : Z) (old : option IType) : IType :=
  if lo >=? hi then Long lo hi widen else
  match old with
  | Some (Long olo ohi owiden) =>
      if (lo =? olo) && (hi =? ohi) then Long olo ohi owiden
      else if (olo =? min_jlong) && (ohi =? max_jlong) then Long lo hi widen
      else if (lo <? olo) || (hi >? ohi) then Long lo hi widen
      else
        let nrange := u64 (hi - lo) in
        let orange := u64 (ohi - olo) in
        if (nrange <? max_julong - 1) && (nrange >? u64 ((orange ≫ 1) + SMALLINT * 2))
        then Long olo ohi owiden
        else Long lo hi widen
  | _ => Long lo hi widen
  end.

Definition singleton (lo hi : Z) : bool := lo >=? hi.
Definition empty (lo hi : Z) : bool := lo >? hi.
Definition is_con (lo hi : Z) : bool := lo =? hi.
Definition is_con_of (lo hi i : Z) : bool := (lo =? hi) && (lo =? i).
End TypeLong.

(** ** [TypeF] and [TypeD] *)

Definition TypeF_xmeet (bits : Z) (t : IType) : option IType :=
  if decide (FloatCon bits = t) then Some (FloatCon bits) else
  match t with
  | Int _ _ _ | Long _ _ _ | DoubleTop | DoubleCon _ | DoubleBot | Bottom => Some Bottom
  | FloatBot => Some t
  | FloatCon bits' => if negb (bits =? bits') then Some FloatBot else Some (FloatCon bits)
  | Top | FloatTop => Some (FloatCon bits)
  | Control | Half | Abio | Return_Address | Memory => None
  end.

Definition TypeD_xmeet (bits : Z) (t : IType) : option IType :=
  if decide (DoubleCon bits = t) then Some (DoubleCon bits) else
  match t with
  | Int _ _ _ | Long _ _ _ | FloatTop | FloatCon _ | FloatBot | Bottom => Some Bottom
  | DoubleBot => Some t
  | DoubleCon bits' => if negb (bits =? bits') then Some DoubleBot else Some (DoubleCon bits)
  | Top | DoubleTop => Some (DoubleCon bits)
  | Control | Half | Abio | Return_Address | Memory => None
  end.

(** ** [Type::xmeet], [Type::xdual] and [Type::meet] *)

(** [Type::xmeet] of a type that has no class of its own. *)
Definition simple_xmeet (this t : IType) : option IType :=
  if decide (this = t) then Some this else
  match this with
  | Top => Some t
  | Bottom => Some Bottom
  | _ =>
      match t with
      | FloatCon bits => TypeF_xmeet bits this
      | DoubleCon bits => TypeD_xmeet bits this
      | Int lo hi widen => TypeInt.xmeet lo hi widen this
      | Long lo hi widen => TypeLong.xmeet lo hi widen this
      | Bottom => Some t
      | FloatTop | FloatBot =>
          match this with
          | FloatBot | FloatTop => Some FloatBot
          | DoubleTop | DoubleBot => Some Bottom
          | _ => None
          end
      | DoubleTop | DoubleBot =>
          match this with
          | DoubleBot | DoubleTop => Some DoubleBot
          | FloatTop | FloatBot => Some Bottom
          | _ => None
          end
      | Top => Some this
      | Control | Abio | Memory | Half | Return_Address => None
      end
  end.

Definition xmeet (this t : IType) : option IType :=
  match this with
  | Int lo hi widen => TypeInt.xmeet lo hi widen t
  | Long lo hi widen => TypeLong.xmeet lo hi widen t
  | FloatCon bits => TypeF_xmeet bits t
  | DoubleCon bits => TypeD_xmeet bits t
  | _ => simple_xmeet this t
  end.

(** The table [dual_type]; [None] is [Bad]. *)
Definition dual_type (t : IType) : option IType :=
  match t with
  | Control => Some Control
  | Top => Some Bottom
  | Half => Some Half
  | Abio => Some Abio
  | Return_Address => Some Return_Address
  | Memory => Some Memory
  | FloatTop => Some FloatBot
  | FloatBot => Some FloatTop
  | DoubleTop => Some DoubleBot
  | DoubleBot => Some DoubleTop
  | Bottom => Some Top
  | Int _ _ _ | Long _ _ _ | FloatCon _ | DoubleCon _ => None
  end.

Definition dual (t : IType) : IType :=
  match t with
  | Int lo hi widen => TypeInt.xdual lo hi widen
  | Long lo hi widen => TypeLong.xdual lo hi widen
  | FloatCon _ | DoubleCon _ => t
  | _ => default t (dual_type t)
  end.

(** [Type::meet], with the assertions of the debug build. *)
Definition meet (this t : IType) : option IType :=
  mt ← xmeet this t;
  mt' ← xmeet t this;
  ASSERT bool_decide (mt = mt') ;;
  let dual_join := dual mt in
  t2t ← xmeet dual_join (dual t);
  t2this ← xmeet dual_join (dual this);
  ASSERT bool_decide (t2t = dual t) && bool_decide (t2this = dual this) ;;
  Some mt.

Definition join (this t : IType) : option IType :=
  m ← meet (dual this) (dual t);
  Some (dual m).

Definition higher_equal (this t : IType) : option bool :=
  m ← meet this t;
  Some (bool_decide (m = t)).

Definition singleton (t : IType) : bool :=
  match t with
  | Int lo hi _ => TypeInt.singleton lo hi
  | Long lo hi _ => TypeLong.singleton lo hi
  | FloatCon _ | DoubleCon _ => true
  | Top | Half => true
  | _ => false
  end.

(** [empty]; [None] is [ShouldNotReachHere]. *)
Definition empty (t : IType) : option bool :=
  match t with
  | Int lo hi _ => Some (TypeInt.empty lo hi)
  | Long lo hi _ => Some (TypeLong.empty lo hi)
  | FloatCon _ | DoubleCon _ => Some false
  | DoubleTop | FloatTop | Top => Some true
  | Half | Abio | Return_Address | Memory | Bottom | FloatBot | DoubleBot => Some false
  | Control => None
  end.

Definition widen (this old : IType) : IType :=
  match this with
  | Int lo hi w => TypeInt.widen_range lo hi w old
  | Long lo hi w => TypeLong.widen_range lo hi w old
  | _ => this
  end.

Definition narrow (this : IType) (old : option IType) : IType :=
  match this with
  | Int lo hi w => TypeInt.narrow lo hi w old
  | Long lo hi w => TypeLong.narrow lo hi w old
  | _ => this
  end.

(** [TypeInt::filter] *)
Definition TypeInt_filter (lo hi w : Z) (kills : IType) : option IType :=
  ft ← join (Int lo hi w) kills;
  match ft with
  | Int flo fhi fw =>
      if flo >? fhi then Some Top
      else if fw <? w then Some (TypeInt.make flo fhi w) else Some ft
  | _ => Some Top
  end.

(** [TypeLong::filter] *)
Definition TypeLong_filter (lo hi w : Z) (kills : IType) : option IType :=
  ft ← join (Long lo hi w) kills;
  match ft with
  | Long flo fhi fw =>
      if flo >? fhi then Some Top
      else if fw <? w then Some (TypeLong.make flo fhi w) else Some ft
  | _ => Some Top
  end.

Definition filter (this kills : IType) : option IType :=
  match this with
  | Int lo hi w => TypeInt_filter lo hi w kills
  | Long lo hi w => TypeLong_filter lo hi w kills
  | _ =>
      ft ← join this kills;
      e ← empty ft;
      Some (if (e : bool) then Top else ft)
  end.

(** ** Well-formed types and the values they stand for *)

(** The types of values, as opposed to those of control, memory and the like. *)
Definition data (t : IType) : Prop :=
  match t with Control | Half | Abio | Return_Address | Memory => False | _ => True end.

Definition wf (t : IType) : Prop :=
  match t with
  | Int lo hi w => is_s 32 lo /\ is_s 32 hi /\ WidenMin <= w <= WidenMax
  | Long lo hi w => is_s 64 lo /\ is_s 64 hi /\ WidenMin <= w <= WidenMax
  | t => data t
  end.

Inductive value := VInt (i : Z) | VLong (i : Z) | VFloat (bits : Z) | VDouble (bits : Z).

Definition has_type (v : value) (t : IType) : Prop :=
  match v, t with
  | VInt i, Int lo hi _ => lo <= i <= hi
  | VLong i, Long lo hi _ => lo <= i <= hi
  | VFloat b, FloatCon b' | VDouble b, DoubleCon b' => b = b'
  | VFloat _, FloatBot | VDouble _, DoubleBot | _, Bottom => True
  | _, _ => False
  end.

(** ** The lattice *)

(** The meet without the checks. *)
Definition glb (a b : IType) : IType :=
  match a, b with
  | Top, t | t, Top => t
  | Int lo hi w, Int lo' hi' w' => Int (Z.min lo lo') (Z.max hi hi') (Z.max w w')
  | Long lo hi w, Long lo' hi' w' => Long (Z.min lo lo') (Z.max hi hi') (Z.max w w')
  | FloatTop, FloatTop => FloatTop
  | FloatTop, FloatCon x | FloatCon x, FloatTop => FloatCon x
  | FloatCon x, FloatCon y => if x =? y then FloatCon x else FloatBot
  | FloatBot, (FloatTop | FloatCon _ | FloatBot) | (FloatTop | FloatCon _), FloatBot => FloatBot
  | DoubleTop, DoubleTop => DoubleTop
  | DoubleTop, DoubleCon x | DoubleCon x, DoubleTop => DoubleCon x
  | DoubleCon x, DoubleCon y => if x =? y then DoubleCon x else DoubleBot
  | DoubleBot, (DoubleTop | DoubleCon _ | DoubleBot) | (DoubleTop | DoubleCon _), DoubleBot => DoubleBot
  | _, _ => Bottom
  end.

Lemma xmeet_glb a b : data a -> data b -> xmeet a b = Some (glb a b).
Proof.
  destruct a, b; intros Ha Hb; try done; cbn;
    unfold TypeInt.xmeet, TypeLong.xmeet, TypeF_xmeet, TypeD_xmeet, simple_xmeet;
    repeat case_decide; simplify_eq; rewrite ?MIN2_min, ?MAX2_max, ?Z.eqb_refl, ?Z.min_id, ?Z.max_id;
    try done.
  all: by destruct (Z.eqb_spec bits bits0); [congruence|].
Qed.

Lemma glb_data a b : data a -> data b -> data (glb a b).
Proof. destruct a, b; cbn; intros; repeat case_match; done. Qed.

Lemma glb_wf a b : wf a -> wf b -> wf (glb a b).
Proof. destruct a, b; cbn; unfold is_s; intros; repeat case_match; done || lia. Qed.

Lemma dual_data a : data a -> data (dual a).
Proof. by destruct a. Qed.

Lemma dual_wf a : wf a -> wf (dual a).
Proof. destruct a; cbn; unfold is_s; try done; lia. Qed.

Lemma wf_data a : wf a -> data a.
Proof. by destruct a. Qed.

#[local] Hint Resolve wf_data dual_data glb_data glb_wf dual_wf : core.

Lemma dual_dual a : dual (dual a) = a.
Proof. destruct a; cbn; try done; unfold TypeInt.xdual, TypeLong.xdual; f_equal; lia. Qed.

Lemma glb_comm a b : glb a b = glb b a.
Proof.
  destruct a, b; cbn; try done; try (f_equal; lia);
    destruct (Z.eqb_spec bits bits0), (Z.eqb_spec bits0 bits); congruence.
Qed.

(** What the check for symmetry in [meet] asks for. *)
Lemma glb_symmetric a b : data a -> data b -> glb (dual (glb a b)) (dual b) = dual b.
Proof.
  destruct a, b; intros Ha Hb; try done; cbn; try (f_equal; lia);
    repeat case_match; cbn; try done; unfold TypeInt.xdual, TypeLong.xdual; try (f_equal; lia).
  all: rewrite ?Z.eqb_refl; try done; apply Z.eqb_eq in H; subst; by rewrite Z.eqb_refl.
Qed.

Lemma meet_glb a b : data a -> data b -> meet a b = Some (glb a b).
Proof.
  intros Ha Hb. unfold meet. rewrite !xmeet_glb by auto. simpl.
  rewrite (glb_comm b a), bool_decide_eq_true_2 by done. rewrite !xmeet_glb by auto. simpl.
  rewrite glb_symmetric, (glb_comm a b), glb_symmetric by done.
  by rewrite !bool_decide_eq_true_2.
Qed.

Lemma glb_idemp a : data a -> glb a a = a.
Proof. destruct a; cbn; try done; rewrite ?Z.eqb_refl, ?Z.min_id, ?Z.max_id; done. Qed.

Lemma glb_assoc a b c : data a -> data b -> data c -> glb a (glb b c) = glb (glb a b) c.
Proof.
  destruct a, b; try done; destruct c; intros _ _ _; cbn; try done; try (f_equal; lia);
    repeat (case_match; cbn); try done; rewrite ?Z.eqb_eq, ?Z.eqb_neq in *; congruence.
Qed.

(** The join without the checks. *)
Definition lub (a b : IType) : IType := dual (glb (dual a) (dual b)).

Lemma join_lub a b : data a -> data b -> join a b = Some (lub a b).
Proof. intros. unfold join. by rewrite meet_glb by auto. Qed.

Lemma glb_absorb a b : data a -> data b -> glb a (lub a b) = a.
Proof.
  intros Ha Hb. unfold lub.
  pose proof (glb_symmetric (dual b) (dual a)) as H. rewrite dual_dual, glb_comm in H.
  rewrite (glb_comm (dual a)). auto.
Qed.

(** ** What the operations mean for values *)

Lemma has_type_glb v a b : has_type v a -> has_type v (glb a b).
Proof.
  destruct v, a; cbn; try done; intros Hv; destruct b; cbn; try done; try lia;
    repeat case_match; cbn; rewrite ?Z.eqb_eq in *; done || congruence.
Qed.

Lemma has_type_lub v a b : has_type v a -> has_type v b -> has_type v (lub a b).
Proof.
  unfold lub, dual, TypeInt.xdual, TypeLong.xdual.
  destruct v, a; cbn; try done; intros Ha; destruct b; cbn; try done; try lia; intros Hb;
    subst; rewrite ?Z.eqb_refl; done.
Qed.

Lemma make_int_wf lo hi w : is_s 32 lo -> is_s 32 hi -> 0 <= w <= 3 -> wf (TypeInt.make lo hi w).
Proof.
  intros. unfold TypeInt.make. cbn. repeat case_match; auto with lia.
Qed.

Lemma make_long_wf lo hi w : is_s 64 lo -> is_s 64 hi -> 0 <= w <= 3 -> wf (TypeLong.make lo hi w).
Proof.
  intros. unfold TypeLong.make. cbn. repeat case_match; auto with lia.
Qed.

(** Read the tests of the ranges as inequalities. *)
Ltac range_tests :=
  rewrite ?Z.geb_leb, ?Z.gtb_ltb in *;
  repeat match goal with
  | |- context [if ?b then _ else _] => let H := fresh "Ht" in destruct b eqn:H
  | H : context [if ?b then _ else _] |- _ => let H' := fresh "Ht" in destruct b eqn:H'
  end;
  rewrite ?andb_true_iff, ?andb_false_iff, ?orb_true_iff, ?orb_false_iff,
    ?Z.eqb_eq, ?Z.eqb_neq, ?Z.leb_le, ?Z.leb_gt, ?Z.ltb_lt, ?Z.ltb_ge in *.

Ltac range_consts :=
  unfold TypeInt.INT, TypeLong.LONG, TypeInt.make, TypeLong.make, is_s, min_jint, min_jlong, max_jlong in *.

Lemma widen_int_wf lo hi w olo ohi ow :
  wf (Int lo hi w) -> wf (Int olo ohi ow) -> wf (TypeInt.widen_range lo hi w (Int olo ohi ow)).
Proof.
  intros H1 H2. unfold TypeInt.widen_range. simpl in H1, H2.
  repeat case_match; try done; unfold TypeInt.INT; try apply make_int_wf;
    unfold is_s, min_jint in *; lia.
Qed.

Lemma widen_long_wf lo hi w olo ohi ow :
  wf (Long lo hi w) -> wf (Long olo ohi ow) -> wf (TypeLong.widen_range lo hi w (Long olo ohi ow)).
Proof.
  intros H1 H2. unfold TypeLong.widen_range. simpl in H1, H2.
  repeat case_match; try done; unfold TypeLong.LONG; try apply make_long_wf;
    unfold is_s, min_jlong, max_jlong in *; lia.
Qed.

Definition same_kind (a b : IType) : Prop :=
  match a, b with Int _ _ _, Int _ _ _ | Long _ _ _, Long _ _ _ => True | _, _ => False end.

(** Widening covers the old and the new type. *)
Lemma widen_covers a old v :
  wf a -> wf old -> same_kind a old -> has_type v a \/ has_type v old -> has_type v (widen a old).
Proof.
  destruct a, old; try done; destruct v; cbn; intros Ha Ho _ Hv; try tauto;
    unfold TypeInt.widen_range, TypeLong.widen_range; range_consts; range_tests; cbn; lia.
Qed.

(** How far a range has been widened: small ranges by their size, others by the
    widening count and how many ends have been pushed out. *)
Definition range_rank (min max lo hi w : Z) : Z :=
  if hi - lo <=? SMALLINT then hi - lo
  else 4 + 6 * w + (if lo =? min then 3 else 0) +
       (if hi =? max then 2 else if hi >=? max_juint then 1 else 0).

Definition rank (t : IType) : Z :=
  match t with
  | Int lo hi w => range_rank min_jint max_jint lo hi w
  | Long lo hi w => range_rank min_jlong max_jlong lo hi w
  | _ => 0
  end.

(** Widening a non-empty type to one that includes it. *)
Definition widens (new old : IType) : Prop :=
  wf new /\ same_kind new old /\ xmeet new old = Some new.

Definition nonempty (t : IType) : Prop :=
  match t with Int lo hi _ | Long lo hi _ => lo <= hi | _ => False end.

Lemma rank_range t : wf t -> nonempty t -> 0 <= rank t <= 27.
Proof.
  destruct t; cbn; try done; intros Hw Hn; unfold range_rank; range_consts; range_tests; lia.
Qed.

Lemma widens_includes new old :
  widens new old -> wf old -> nonempty old ->
  match new, old with
  | Int lo hi w, Int lo' hi' w' | Long lo hi w, Long lo' hi' w' => lo <= lo' /\ hi' <= hi /\ w' <= w
  | _, _ => False
  end.
Proof.
  intros (Hw & Hk & Hm) Ho Hn. rewrite xmeet_glb in Hm by auto.
  destruct new, old; cbn in *; try done; injection Hm; intros; lia.
Qed.

Lemma rank_make_int lo hi w :
  is_s 32 lo -> is_s 32 hi -> lo <= hi -> 0 <= w <= 3 ->
  range_rank min_jint max_jint lo hi w <= rank (TypeInt.make lo hi w).
Proof.
  intros Hlo Hhi Hle Hw. unfold TypeInt.make. rewrite (proj2 (Z.leb_le lo hi)) by done. cbn.
  rewrite wrapu_id by (unfold is_s, is_u in *; pow2_norm; lia).
  unfold range_rank. range_consts. range_tests; lia.
Qed.

Lemma rank_make_long lo hi w :
  is_s 64 lo -> is_s 64 hi -> lo <= hi -> 0 <= w <= 3 ->
  range_rank min_jlong max_jlong lo hi w <= rank (TypeLong.make lo hi w).
Proof.
  intros Hlo Hhi Hle Hw. unfold TypeLong.make. rewrite (proj2 (Z.leb_le lo hi)) by done. cbn.
  rewrite wrapu_id by (unfold is_s, is_u in *; pow2_norm; lia).
  unfold range_rank. range_consts. range_tests; lia.
Qed.

(** A range that grows, with no smaller a count, does not lose rank, and gains some
    if the count grows, if the range was small, or if an end is pushed out. *)
Lemma range_rank_mono min max lo hi w lo' hi' w' :
  min <= lo' <= lo -> hi <= hi' <= max -> lo <= hi -> w <= w' -> 0 <= w -> (lo' < lo \/ hi < hi') ->
  (w < w' \/ hi - lo <= 3 \/ min < lo /\ lo' = min \/ hi < max /\ hi' = max \/
   hi < max_juint /\ max_juint <= hi') ->
  range_rank min max lo hi w < range_rank min max lo' hi' w'.
Proof.
  intros Hlo Hhi Hle Hw H0 Hne Hcase. unfold range_rank. range_tests; lia.
Qed.

Ltac settle b v := replace b with v by (symmetry; rewrite ?Z.geb_leb, ?Z.gtb_ltb;
  rewrite ?andb_true_iff, ?andb_false_iff, ?Z.eqb_eq, ?Z.eqb_neq, ?Z.leb_le, ?Z.leb_gt, ?Z.ltb_lt,
    ?Z.ltb_ge; lia).

Lemma widen_rank_int lo hi w lo' hi' w' :
  wf (Int lo hi w) -> wf (Int lo' hi' w') -> lo' <= hi' -> lo <= lo' -> hi' <= hi -> w' <= w ->
  let t := TypeInt.widen_range lo hi w (Int lo' hi' w') in
  t = Int lo' hi' w' \/ range_rank min_jint max_jint lo' hi' w' < rank t.
Proof.
  intros (Hlo & Hhi & Hw) (Hlo' & Hhi' & Hw') Hne H1 H2 H3. unfold TypeInt.widen_range.
  assert (Hmin : min_jint <= lo /\ hi <= max_jint) by (range_consts; lia).
  destruct ((lo =? lo') && (hi =? hi')) eqn:Heq; [by left|]. right.
  apply andb_false_iff in Heq. rewrite !Z.eqb_neq in Heq.
  settle ((lo <=? lo') && (hi >=? hi')) true.
  destruct (w >? w') eqn:Hgt; [apply range_rank_mono; lia|].
  destruct (Z.eqb_spec lo' hi'); [apply range_rank_mono; lia|].
  destruct (Z.eqb_spec w WidenMax) as [-> |].
  - assert (min_jint <= 0 <= max_jint) by done. unfold TypeInt.INT in *.
    destruct ((min_jint <? lo) && (hi <? max_jint)) eqn:Hend; [case_match|].
    + eapply Z.lt_le_trans; [|apply rank_make_int; range_consts; lia]. apply range_rank_mono; lia.
    + eapply Z.lt_le_trans; [|apply rank_make_int; range_consts; lia]. apply range_rank_mono; lia.
    + eapply Z.lt_le_trans; [|apply rank_make_int; range_consts; lia]. apply range_rank_mono; lia.
  - eapply Z.lt_le_trans; [|apply rank_make_int; range_consts; lia].
    apply range_rank_mono; lia.
Qed.

Lemma widen_rank_long lo hi w lo' hi' w' :
  wf (Long lo hi w) -> wf (Long lo' hi' w') -> lo' <= hi' -> lo <= lo' -> hi' <= hi -> w' <= w ->
  let t := TypeLong.widen_range lo hi w (Long lo' hi' w') in
  t = Long lo' hi' w' \/ range_rank min_jlong max_jlong lo' hi' w' < rank t.
Proof.
  intros (Hlo & Hhi & Hw) (Hlo' & Hhi' & Hw') Hne H1 H2 H3. unfold TypeLong.widen_range.
  assert (Hmin : min_jlong <= lo /\ hi <= max_jlong) by (range_consts; lia).
  destruct ((lo =? lo') && (hi =? hi')) eqn:Heq; [by left|]. right.
  apply andb_false_iff in Heq. rewrite !Z.eqb_neq in Heq.
  settle ((lo <=? lo') && (hi >=? hi')) true.
  destruct (w >? w') eqn:Hgt; [apply range_rank_mono; lia|].
  destruct (Z.eqb_spec lo' hi'); [apply range_rank_mono; lia|].
  destruct (Z.eqb_spec w WidenMax) as [-> |].
  - assert (min_jlong <= 0 <= max_jlong /\ 0 <= max_juint <= max_jlong) by done.
    unfold TypeLong.LONG in *.
    destruct ((min_jlong <? lo) && (hi <? max_jlong)) eqn:Hend; [repeat case_match|];
      (eapply Z.lt_le_trans; [|apply rank_make_long; range_consts; lia]); apply range_rank_mono; lia.
  - eapply Z.lt_le_trans; [|apply rank_make_long; range_consts; lia].
    apply range_rank_mono; lia.
Qed.

Lemma widen_rank new old :
  wf old -> nonempty old -> widens new old ->
  widen new old = old \/ rank old < rank (widen new old).
Proof.
  intros Ho Hn Hw. pose proof (widens_includes _ _ Hw Ho Hn) as Hi. destruct Hw as (Hwf & _ & _).
  destruct new, old; try done; cbn in Hn.
  - apply widen_rank_int; tauto.
  - apply widen_rank_long; tauto.
Qed.

Lemma widen_keeps new old :
  wf old -> nonempty old -> widens new old ->
  wf (widen new old) /\ nonempty (widen new old) /\ same_kind (widen new old) old.
Proof.
  intros Ho Hn Hw. pose proof (widens_includes _ _ Hw Ho Hn) as Hi. destruct Hw as (Hwf & _ & _).
  destruct new, old; try done; cbn in Hn, Hi.
  - split; [by apply widen_int_wf|].
    unfold widen, TypeInt.widen_range, TypeInt.INT, TypeInt.make. repeat case_match; cbn; (split; [|done]);
      destruct Hwf as ([] & [] & _); range_consts; lia.
  - split; [by apply widen_long_wf|].
    unfold widen, TypeLong.widen_range, TypeLong.LONG, TypeLong.make. repeat case_match; cbn; (split; [|done]);
      destruct Hwf as ([] & [] & _); range_consts; lia.
Qed.

(** A run of an analysis at one node: the type after each new approximation, and
    how often it has changed. *)
Fixpoint widen_run (t : IType) (news : list IType) : IType * Z :=
  match news with
  | [] => (t, 0)
  | new :: news =>
      let t' := widen new t in
      let '(r, changes) := widen_run t' news in
      (r, changes + if decide (t' = t) then 0 else 1)
  end.

Fixpoint all_widen (t : IType) (news : list IType) : Prop :=
  match news with
  | [] => True
  | new :: news => widens new t /\ all_widen (widen new t) news
  end.

Lemma widen_run_bounded t news :
  wf t -> nonempty t -> all_widen t news -> (widen_run t news).2 <= 27 - rank t.
Proof.
  revert t. induction news as [|new news IH]; intros t Ht Hn Hall; simpl.
  { pose proof (rank_range t Ht Hn). lia. }
  destruct Hall as [Hw Hall]. destruct (widen_keeps new t Ht Hn Hw) as (Ht' & Hn' & _).
  specialize (IH _ Ht' Hn' Hall). pose proof (widen_rank new t Ht Hn Hw) as Hr.
  destruct (widen_run (widen new t) news) as [r c]. simpl in *. case_decide as Hd.
  - rewrite Hd in IH. lia.
  - destruct Hr; [done|lia].
Qed.

(** ** Narrowing *)

(** How far a range can be narrowed. *)
Definition span_rank (min max lo hi : Z) : Z :=
  if (lo =? min) && (hi =? max) then 80
  else if hi - lo <=? 14 then hi - lo else 15 + Z.log2 (hi - lo - 12).

Definition narrow_rank (t : IType) : Z :=
  match t with
  | Int lo hi _ => span_rank min_jint max_jint lo hi
  | Long lo hi _ => span_rank min_jlong max_jlong lo hi
  | _ => 0
  end.

Definition narrows (new old : IType) : Prop :=
  wf new /\ nonempty new /\
  match new, old with
  | Int lo hi _, Int lo' hi' _ | Long lo hi _, Long lo' hi' _ => lo' <= lo /\ hi <= hi'
  | _, _ => False
  end.

Lemma span_rank_halves min max lo hi lo' hi' :
  min <= lo' -> hi' <= max -> lo' <= lo -> lo <= hi -> hi <= hi' -> (lo <> lo' \/ hi <> hi') ->
  max - min < 2 ^ 64 -> (lo' = min /\ hi' = max) \/ hi - lo <= (hi' - lo') / 2 + 6 ->
  span_rank min max lo hi < span_rank min max lo' hi'.
Proof.
  intros Hmin Hmax H1 H2 H3 Hne Hw Hor. unfold span_rank.
  assert (Hlog : forall x, 2 <= x < 2 ^ 64 -> Z.log2 x <= 63).
  { intros x Hx. assert (Z.log2 x < 64) by (apply Z.log2_lt_pow2; lia). lia. }
  settle ((lo =? min) && (hi =? max)) false.
  destruct ((lo' =? min) && (hi' =? max)) eqn:Hfull.
  - destruct (Z.leb_spec (hi - lo) 14); [lia|]. specialize (Hlog (hi - lo - 12)). lia.
  - destruct Hor as [|Hhalf]; [lia|].
    destruct (Z.leb_spec (hi - lo) 14), (Z.leb_spec (hi' - lo') 14); try lia.
    + pose proof (Z.log2_nonneg (hi' - lo' - 12)). lia.
    + set (x := (hi' - lo' - 12) / 2).
      assert (Hx : hi - lo - 12 <= x /\ 2 * x <= hi' - lo' - 12)
        by (unfold x; Z.to_euclidean_division_equations; lia).
      pose proof (Z.log2_double x ltac:(lia)).
      pose proof (Z.log2_le_mono (hi - lo - 12) x ltac:(lia)).
      pose proof (Z.log2_le_mono (2 * x) (hi' - lo' - 12) ltac:(lia)). lia.
Qed.

(** The bounds of a range, whatever its widening count. *)
Definition bounds (t : IType) : option (Z * Z) :=
  match t with Int lo hi _ | Long lo hi _ => Some (lo, hi) | _ => None end.

Lemma narrow_rank_int lo hi w lo' hi' w' :
  wf (Int lo hi w) -> wf (Int lo' hi' w') -> lo' <= lo -> lo <= hi -> hi <= hi' ->
  let t := TypeInt.narrow lo hi w (Some (Int lo' hi' w')) in
  bounds t = Some (lo', hi') \/ narrow_rank t < span_rank min_jint max_jint lo' hi'.
Proof.
  intros (Hlo & Hhi & Hw) (Hlo' & Hhi' & Hw') H1 Hle H2. unfold TypeInt.narrow.
  assert (Hmin : min_jint <= lo' /\ hi' <= max_jint /\ max_jint - min_jint = max_juint /\ max_juint < 2 ^ 64)
    by (range_consts; lia).
  destruct (decide (lo = lo' /\ hi = hi')) as [[-> ->]|Hne].
  { left. rewrite !Z.eqb_refl. by case_match. }
  settle ((lo =? lo') && (hi =? hi')) false. settle ((lo <? lo') || (hi >? hi')) false.
  assert (0 <= (hi' - lo') / 2) by (apply Z.div_pos; lia).
  rewrite (wrapu_id 32 (hi - lo)), (wrapu_id 32 (hi' - lo')) by (unfold is_s, is_u in *; pow2_norm; lia).
  rewrite Z.shiftr_div_pow2 by lia. change (2 ^ 1) with 2.
  rewrite wrapu_id by (unfold is_s, is_u in *; pow2_norm; Z.to_euclidean_division_equations; lia).
  repeat case_match; try (by left); right; apply span_rank_halves; lia.
Qed.

Lemma narrow_rank_long lo hi w lo' hi' w' :
  wf (Long lo hi w) -> wf (Long lo' hi' w') -> lo' <= lo -> lo <= hi -> hi <= hi' ->
  let t := TypeLong.narrow lo hi w (Some (Long lo' hi' w')) in
  bounds t = Some (lo', hi') \/ narrow_rank t < span_rank min_jlong max_jlong lo' hi'.
Proof.
  intros (Hlo & Hhi & Hw) (Hlo' & Hhi' & Hw') H1 Hle H2. unfold TypeLong.narrow.
  assert (Hmin : min_jlong <= lo' /\ hi' <= max_jlong /\ max_jlong - min_jlong = max_julong /\ max_julong < 2 ^ 64)
    by (range_consts; lia).
  destruct (decide (lo = lo' /\ hi = hi')) as [[-> ->]|Hne].
  { left. rewrite !Z.eqb_refl. by case_match. }
  settle ((lo =? lo') && (hi =? hi')) false. settle ((lo <? lo') || (hi >? hi')) false.
  assert (0 <= (hi' - lo') / 2) by (apply Z.div_pos; lia).
  rewrite (wrapu_id 64 (hi - lo)), (wrapu_id 64 (hi' - lo')) by (unfold is_s, is_u in *; pow2_norm; lia).
  rewrite Z.shiftr_div_pow2 by lia. change (2 ^ 1) with 2.
  rewrite wrapu_id by (unfold is_s, is_u in *; pow2_norm; Z.to_euclidean_division_equations; lia).
  repeat case_match; try (by left); right; apply span_rank_halves; lia.
Qed.

Lemma narrow_cases new old :
  narrows new old ->
  narrow new (Some old) = new \/ narrow new (Some old) = old.
Proof.
  intros (_ & _ & Hi). destruct new, old; try done; cbn; unfold TypeInt.narrow, TypeLong.narrow;
    repeat case_match; auto.
Qed.

Lemma narrow_rank_decreases new old :
  wf old -> narrows new old ->
  bounds (narrow new (Some old)) = bounds old \/ narrow_rank (narrow new (Some old)) < narrow_rank old.
Proof.
  intros Ho (Hw & Hn & Hi). destruct new, old; try done; cbn in Hn, Hi.
  - apply narrow_rank_int; tauto.
  - apply narrow_rank_long; tauto.
Qed.

(** Narrowing keeps the values of the new type. *)
Lemma narrow_covers new old v : narrows new old -> has_type v new -> has_type v (narrow new (Some old)).
Proof.
  intros Hn Hv. destruct (narrow_cases _ _ Hn) as [-> | ->]; [done|].
  destruct Hn as (_ & _ & Hi). destruct v, new, old; cbn in *; try done; lia.
Qed.

Fixpoint narrow_run (t : IType) (news : list IType) : IType * Z :=
  match news with
  | [] => (t, 0)
  | new :: news =>
      let t' := narrow new (Some t) in
      let '(r, changes) := narrow_run t' news in
      (r, changes + if decide (bounds t' = bounds t) then 0 else 1)
  end.

Fixpoint all_narrow (t : IType) (news : list IType) : Prop :=
  match news with
  | [] => True
  | new :: news => narrows new t /\ all_narrow (narrow new (Some t)) news
  end.

Lemma narrow_rank_bounds a b :
  same_kind a b -> bounds a = bounds b -> narrow_rank a = narrow_rank b.
Proof. destruct a, b; cbn; try done; congruence. Qed.

Lemma narrow_rank_nonneg t : nonempty t -> 0 <= narrow_rank t.
Proof.
  destruct t; try done; cbn; intros; unfold span_rank; repeat case_match; try lia;
    pose proof (Z.log2_nonneg (hi - lo - 12)); lia.
Qed.

Lemma narrow_run_bounded t news :
  wf t -> nonempty t -> all_narrow t news -> (narrow_run t news).2 <= narrow_rank t.
Proof.
  revert t. induction news as [|new news IH]; intros t Ht Hn Hall; simpl.
  { by apply narrow_rank_nonneg. }
  destruct Hall as [Hw Hall]. pose proof (narrow_rank_decreases new t Ht Hw) as Hr.
  assert (Hk : wf (narrow new (Some t)) /\ nonempty (narrow new (Some t)) /\ same_kind (narrow new (Some t)) t).
  { destruct (narrow_cases _ _ Hw) as [-> | ->].
    - destruct Hw as (? & ? & Hi). split; [done|]. split; [done|]. by destruct new, t.
    - split; [done|]. split; [done|]. by destruct t. }
  destruct Hk as (Ht' & Hn' & Hk). specialize (IH _ Ht' Hn' Hall).
  destruct (narrow_run (narrow new (Some t)) news) as [r c]. simpl in *. case_decide as Hd.
  - rewrite (narrow_rank_bounds _ _ Hk Hd) in IH. lia.
  - destruct Hr; [done|lia].
Qed.

Lemma narrow_rank_max t : wf t -> narrow_rank t <= 80.
Proof.
  destruct t; cbn; try lia; intros (Hlo & Hhi & _); unfold span_rank; repeat case_match; try lia.
  - assert (Z.log2 (hi - lo - 12) < 64); [|lia].
    destruct (decide (0 < hi - lo - 12)); [apply Z.log2_lt_pow2; unfold is_s in *; pow2_norm; lia|].
    rewrite Z.log2_nonpos; lia.
  - assert (Z.log2 (hi - lo - 12) < 65); [|lia].
    destruct (decide (0 < hi - lo - 12)); [apply Z.log2_lt_pow2; unfold is_s in *; pow2_norm; lia|].
    rewrite Z.log2_nonpos; lia.
Qed.

(** ** Filtering *)

Lemma make_int_has v lo hi w : has_type v (TypeInt.make lo hi w) <-> has_type v (Int lo hi w).
Proof. by destruct v. Qed.

Lemma make_long_has v lo hi w : has_type v (TypeLong.make lo hi w) <-> has_type v (Long lo hi w).
Proof. by destruct v. Qed.

(** A result of filtering [this] by [kills]: it has the values that both have, and is
    not empty without being top. *)
Definition filtered (this kills : IType) (r : option IType) : Prop :=
  exists t, r = Some t /\ (forall v, has_type v this -> has_type v kills -> has_type v t) /\
    (t = Top \/ empty t = Some false).

Lemma filter_int_sound lo hi w kills :
  wf (Int lo hi w) -> wf kills -> filtered (Int lo hi w) kills (TypeInt_filter lo hi w kills).
Proof.
  intros Ht Hk. pose proof (fun v => has_type_lub v (Int lo hi w) kills) as Hl.
  unfold TypeInt_filter. rewrite join_lub by auto. simpl.
  destruct (lub (Int lo hi w) kills) as [| |lo' hi' w'| | | | | | | | | | | |] eqn:Hlub.
  3: { destruct (lo' >? hi') eqn:He; [|case_match]; eexists; (split; [done|]).
       - split; [|by left]. intros v H1 H2. specialize (Hl v H1 H2). destruct v; cbn in *; done || lia.
       - split; [intros v H1 H2; apply make_int_has; specialize (Hl v H1 H2); by destruct v|].
         right. change (Some (lo' >? hi') = Some false). by rewrite He.
       - split; [done|]. right. change (Some (lo' >? hi') = Some false). by rewrite He. }
  all: eexists; split; [done|]; split; [|by left]; intros v H1 H2; specialize (Hl v H1 H2);
    destruct v; cbn in H1; try done; cbn in Hl; try done; destruct kills; done.
Qed.

Lemma filter_long_sound lo hi w kills :
  wf (Long lo hi w) -> wf kills -> filtered (Long lo hi w) kills (TypeLong_filter lo hi w kills).
Proof.
  intros Ht Hk. pose proof (fun v => has_type_lub v (Long lo hi w) kills) as Hl.
  unfold TypeLong_filter. rewrite join_lub by auto. simpl.
  destruct (lub (Long lo hi w) kills) as [| | |lo' hi' w'| | | | | | | | | | |] eqn:Hlub.
  4: { destruct (lo' >? hi') eqn:He; [|case_match]; eexists; (split; [done|]).
       - split; [|by left]. intros v H1 H2. specialize (Hl v H1 H2). destruct v; cbn in *; done || lia.
       - split; [intros v H1 H2; apply make_long_has; specialize (Hl v H1 H2); by destruct v|].
         right. change (Some (lo' >? hi') = Some false). by rewrite He.
       - split; [done|]. right. change (Some (lo' >? hi') = Some false). by rewrite He. }
  all: eexists; split; [done|]; split; [|by left]; intros v H1 H2; specialize (Hl v H1 H2);
    destruct v; cbn in H1; try done; cbn in Hl; try done; destruct kills; done.
Qed.

Lemma filter_sound this kills :
  wf this -> wf kills -> filtered this kills (filter this kills).
Proof.
  intros Ht Hk. assert (Hgen : same_kind this this \/ filter this kills =
    (ft ← join this kills; e ← empty ft; Some (if (e : bool) then Top else ft)))
    by (destruct this; auto; by left).
  destruct Hgen as [Hs|Hgen].
  { destruct this; try done; [by apply filter_int_sound|by apply filter_long_sound]. }
  rewrite Hgen, join_lub by auto. simpl.
  assert (Hd : data (lub this kills)) by (unfold lub; auto).
  pose proof (fun v => has_type_lub v this kills) as Hl.
  assert (exists e, empty (lub this kills) = Some e) as [e He] by (destruct (lub this kills); eauto; done).
  rewrite He. simpl. destruct e; eexists; (split; [done|]).
  - split; [|by left]. intros v H1 H2. specialize (Hl v H1 H2).
    destruct (lub this kills), v; cbn in *; try done; injection He; unfold TypeInt.empty, TypeLong.empty; lia.
  - split; [done|]. by right.
Qed.

Lemma filter_wf this kills t : wf this -> wf kills -> filter this kills = Some t -> wf t.
Proof.
  intros Ht Hk. assert (Hl : wf (lub this kills)) by (unfold lub; auto).
  destruct this as [| |lo hi w|lo hi w| | | | | | | | | | |]; try done; simpl;
    unfold TypeInt_filter, TypeLong_filter; rewrite join_lub by auto; simpl.
  2: { destruct (lub _ kills) as [| |lo' hi' w'| | | | | | | | | | | |]; try (intros [= <-]; done).
       repeat case_match; intros [= <-]; try done. apply make_int_wf; apply Hl || apply Ht. }
  2: { destruct (lub _ kills) as [| | |lo' hi' w'| | | | | | | | | | |]; try (intros [= <-]; done).
       repeat case_match; intros [= <-]; try done. apply make_long_wf; apply Hl || apply Ht. }
  all: destruct (empty _) as [[]|]; simpl; intros [= <-]; done.
Qed.

(** ** Theorems *)

(** C18: The numeric types are a lattice.  On well-formed types [meet] and [join] are
    defined, none of the checks of [meet] for commutativity and symmetry fails, and
    the results are well formed; [meet] is commutative, associative and idempotent,
    [dual] is an involution, and [meet] and [join] absorb each other.  A value of
    either type is a value of the meet, and a value of both is one of the join and
    of what [filter] returns, which is well formed and top or not empty. *)
Theorem type_lattice (a b c : IType) (Ha : wf a) (Hb : wf b) (Hc : wf c) :
  exists m j bc r, meet a b = Some m /\ join a b = Some j /\ wf m /\ wf j /\
    meet b a = Some m /\ join b a = Some j /\ meet a a = Some a /\
    meet b c = Some bc /\ meet a bc = Some r /\ meet m c = Some r /\
    meet a j = Some a /\ join a m = Some a /\ dual (dual a) = a /\ wf (dual a) /\
    (forall v, has_type v a \/ has_type v b -> has_type v m) /\
    (forall v, has_type v a -> has_type v b -> has_type v j) /\
    filtered a b (filter a b) /\ (forall t, filter a b = Some t -> wf t).
Proof.
  exists (glb a b), (lub a b), (glb b c), (glb a (glb b c)).
  assert (data a /\ data b /\ data c /\ data (glb a b) /\ data (glb b c) /\ data (lub a b)) as
    (Da & Db & Dc & Dab & Dbc & Dl) by (unfold lub; split_and!; auto).
  rewrite !meet_glb, !join_lub by done.
  rewrite (glb_comm b a), glb_idemp, glb_absorb, (glb_assoc a b c), dual_dual by done.
  split_and!; try done; auto.
  - unfold lub. auto.
  - unfold lub. by rewrite (glb_comm (dual b)).
  - pose proof (glb_absorb (dual a) (dual b)) as Hab. unfold lub in *. rewrite !dual_dual in Hab.
    rewrite Hab, dual_dual by auto. done.
  - intros v [Hv|Hv]; [by apply has_type_glb|]. rewrite glb_comm. by apply has_type_glb.
  - intros v. apply has_type_lub.
  - by apply filter_sound.
  - intros t. by apply filter_wf.
Qed.

(** C8: The analyses over ranges end.  Widening covers the old and the new type, and
    when every new type includes the old one, as the optimistic analysis asserts, a
    type changes at most 27 times, however many approximations follow; narrowing
    keeps the new type's values, and a range shrinks at most 80 times when every new
    one lies in the old one.  [filter] keeps the values that both types have. *)
Theorem range_analysis_terminates (t : IType) news
  (Ht : wf t) (Hn : nonempty t) :
  (all_widen t news -> (widen_run t news).2 <= 27) /\
  (all_narrow t news -> (narrow_run t news).2 <= 80) /\
  (forall new v, wf new -> same_kind new t -> has_type v new \/ has_type v t -> has_type v (widen new t)) /\
  (forall new v, narrows new t -> has_type v new -> has_type v (narrow new (Some t))) /\
  (forall kills, wf kills -> filtered t kills (filter t kills)).
Proof.
  split_and!.
  - intros Hall. pose proof (widen_run_bounded t news Ht Hn Hall). pose proof (rank_range t Ht Hn). lia.
  - intros Hall. pose proof (narrow_run_bounded t news Ht Hn Hall). pose proof (narrow_rank_max t Ht). lia.
  - intros new v Hw Hk Hv. by apply widen_covers.
  - intros new v. apply narrow_covers.
  - intros kills Hk. by apply filter_sound.
Qed.

Lemma type_lattice_witness :
  exists m j bc r, meet (Int 0 5 1) (Int 3 9 0) = Some m /\ join (Int 0 5 1) (Int 3 9 0) = Some j /\
    meet (Int 3 9 0) (FloatCon 0) = Some bc /\ meet (Int 0 5 1) bc = Some r /\ meet m (FloatCon 0) = Some r.
Proof.
  destruct (type_lattice (Int 0 5 1) (Int 3 9 0) (FloatCon 0)) as
    (m & j & bc & r & H1 & H2 & _ & _ & _ & _ & _ & H3 & H4 & H5 & _);
    [vm_compute; intuition congruence..|done|].
  exists m, j, bc, r. auto.
Defined.

Lemma range_analysis_terminates_witness :
  let news := [Int 0 1 0; Int 0 2 0; Int 0 50 0; Int (-7) 90 1] in
  all_widen (Int 0 0 0) news /\ (widen_run (Int 0 0 0) news).1 = Int (-7) 90 2 /\
  (widen_run (Int 0 0 0) news).2 <= 27.
Proof.
  assert (Hall : all_widen (Int 0 0 0) [Int 0 1 0; Int 0 2 0; Int 0 50 0; Int (-7) 90 1])
    by (vm_compute; intuition congruence).
  split; [exact Hall|]. split; [reflexivity|].
  destruct (range_analysis_terminates (Int 0 0 0) [Int 0 1 0; Int 0 2 0; Int 0 50 0; Int (-7) 90 1])
    as [H _]; [vm_compute; intuition congruence|discriminate|exact (H Hall)].
Defined.
