(* ===== verification/IdealNode.v ===== *)
(** * Nodes of the optimizing compiler

    The fragment of the ideal graph over which the int and long nodes of
    opto/divnode.cpp and opto/mulnode.cpp are rewritten.  A node is a term of the
    operations that this code builds and looks for; its meaning is the value Java
    gives to the operation.  Any other node is a variable.  Terms have no cycles, so
    the assertions against dead loops of the code hold by construction.

    The code works through [PhaseGVN]: [transform] replaces a new node by an equal
    one, and [type] is what is known of a node's value.  Both are part of an
    interface here, with what the code relies on as its laws, as are the comparison
    of node pointers, the node indices and the types of the variables. *)

From S2P Require Import Prelude GlobalDefinitions WordBits IdealType.

Open Scope Z_scope.

(** ** Nodes and their values *)

(** A load of a byte, char or short has a control input or not, and reads cell [m]. *)
Inductive inode :=
| ConI (c : Z) | VarI (x : nat)
| LoadB (ctl : bool) (m : nat) | LoadC (ctl : bool) (m : nat) | LoadS (ctl : bool) (m : nat)
| AddI (a b : inode) | SubI (a b : inode) | MulI (a b : inode)
| AndI (a b : inode) | OrI (a b : inode)
| LShiftI (a s : inode) | RShiftI (a s : inode) | URShiftI (a s : inode)
| ConvL2I (a : lnode)
| CMoveI (test : bnode) (if_false if_true : inode)
with lnode :=
| ConL (c : Z) | VarL (x : nat)
| AddL (a b : lnode) | SubL (a b : lnode) | MulL (a b : lnode) | MulHiL (a b : lnode)
| AndL (a b : lnode) | OrL (a b : lnode)
| LShiftL (a : lnode) (s : inode) | RShiftL (a : lnode) (s : inode) | URShiftL (a : lnode) (s : inode)
| ConvI2L (a : inode)
| CMoveL (test : bnode) (if_false if_true : lnode)
with bnode :=
| GeI (a b : inode) | GeL (a b : lnode).

(** Values of the variables, and the bits of the memory cells that are read. *)
Record env := mkEnv { ivar : nat -> Z; lvar : nat -> Z; cell : nat -> Z }.

(** Java arithmetic: results wrap around, and a shift uses the low bits of its count. *)
Fixpoint evali (r : env) (n : inode) : Z :=
  match n with
  | ConI c => c
  | VarI x => ivar r x
  | LoadB _ m => s8 (cell r m)
  | LoadC _ m => u16 (cell r m)
  | LoadS _ m => s16 (cell r m)
  | AddI a b => s32 (evali r a + evali r b)
  | SubI a b => s32 (evali r a - evali r b)
  | MulI a b => s32 (evali r a * evali r b)
  | AndI a b => evali r a &&& evali r b
  | OrI a b => evali r a ||| evali r b
  | LShiftI a s => s32 (evali r a ≪ (evali r s &&& 31))
  | RShiftI a s => evali r a ≫ (evali r s &&& 31)
  | URShiftI a s => s32 (u32 (evali r a) ≫ (evali r s &&& 31))
  | ConvL2I a => s32 (evall r a)
  | CMoveI t a b => if evalb r t then evali r b else evali r a
  end
with evall (r : env) (n : lnode) : Z :=
  match n with
  | ConL c => c
  | VarL x => lvar r x
  | AddL a b => s64 (evall r a + evall r b)
  | SubL a b => s64 (evall r a - evall r b)
  | MulL a b => s64 (evall r a * evall r b)
  | MulHiL a b => (evall r a * evall r b) ≫ 64
  | AndL a b => evall r a &&& evall r b
  | OrL a b => evall r a ||| evall r b
  | LShiftL a s => s64 (evall r a ≪ (evali r s &&& 63))
  | RShiftL a s => evall r a ≫ (evali r s &&& 63)
  | URShiftL a s => s64 (u64 (evall r a) ≫ (evali r s &&& 63))
  | ConvI2L a => evali r a
  | CMoveL t a b => if evalb r t then evall r b else evall r a
  end
with evalb (r : env) (n : bnode) : bool :=
  match n with
  | GeI a b => evali r a >=? evali r b
  | GeL a b => evall r a >=? evall r b
  end.

(** Division and remainder, of a divisor other than zero. *)
Definition java_idiv (a b : Z) : Z := s32 (Z.quot a b).
Definition java_ldiv (a b : Z) : Z := s64 (Z.quot a b).
Definition java_rem (a b : Z) : Z := Z.rem a b.

(** ** Ranges

    The constants of a graph and the values of its variables are those of their types. *)

Fixpoint java_int (n : inode) : Prop :=
  match n with
  | ConI c => is_s 32 c
  | VarI _ | LoadB _ _ | LoadC _ _ | LoadS _ _ => True
  | AddI a b | SubI a b | MulI a b | AndI a b | OrI a b
  | LShiftI a b | RShiftI a b | URShiftI a b => java_int a /\ java_int b
  | ConvL2I a => java_long a
  | CMoveI t a b => java_bool t /\ java_int a /\ java_int b
  end
with java_long (n : lnode) : Prop :=
  match n with
  | ConL c => is_s 64 c
  | VarL _ => True
  | AddL a b | SubL a b | MulL a b | MulHiL a b | AndL a b | OrL a b => java_long a /\ java_long b
  | LShiftL a s | RShiftL a s | URShiftL a s => java_long a /\ java_int s
  | ConvI2L a => java_int a
  | CMoveL t a b => java_bool t /\ java_long a /\ java_long b
  end
with java_bool (n : bnode) : Prop :=
  match n with
  | GeI a b => java_int a /\ java_int b
  | GeL a b => java_long a /\ java_long b
  end.

Definition java_env (r : env) : Prop := forall x, is_s 32 (ivar r x) /\ is_s 64 (lvar r x).

(** ** The phase *)

Class PhaseGVN := {
  transformi : inode -> inode;
  transforml : lnode -> lnode;
  transformb : bnode -> bnode;
  typei : inode -> IType;
  typel : lnode -> IType;
  (** whether two pointers are the same node *)
  samei : inode -> inode -> bool;
  samel : lnode -> lnode -> bool;
  (** [_idx] and [is_Load] *)
  idxi : inode -> Z;
  idxl : lnode -> Z;
  is_Loadi : inode -> bool;
  is_Loadl : lnode -> bool;
  (** the type of a variable that is a [TypeNode] *)
  var_typei : nat -> option IType;
  var_typel : nat -> option IType;
  ConditionalMoveLimit : Z;
  (** [Matcher::has_match_rule(Op_MulHiL)] *)
  has_MulHiL : bool
}.

(** What the rewriting relies on, for given values of the variables. *)
Class PhaseLaws (phase : PhaseGVN) (r : env) : Prop := {
  transformi_ok n : evali r (transformi n) = evali r n;
  transforml_ok n : evall r (transforml n) = evall r n;
  transformb_ok n : evalb r (transformb n) = evalb r n;
  typei_ok n : wf (typei n) /\ (typei n = Top \/ has_type (VInt (evali r n)) (typei n));
  typel_ok n : wf (typel n) /\ (typel n = Top \/ has_type (VLong (evall r n)) (typel n));
  typei_int n : typei n <> Bottom;
  typel_long n : typel n <> Bottom;
  samei_ok a b : samei a b = true -> a = b;
  samel_ok a b : samel a b = true -> a = b;
  var_typei_ok x t : var_typei x = Some t ->
    wf t /\ (t = Top \/ has_type (VInt (ivar r x)) t);
  var_typel_ok x t : var_typel x = Some t ->
    wf t /\ (t = Top \/ has_type (VLong (lvar r x)) t)
}.

Definition intcon (c : Z) : inode := ConI c.
Definition longcon (c : Z) : lnode := ConL c.

(** The result of an [Ideal] call: NULL, the node itself after a change to its
    inputs, or a node to replace it. *)
Inductive outcome (N : Type) := NoChange | This | New (n : N).
Arguments NoChange {N}.
Arguments This {N}.
Arguments New {N} n.

(** A new node has the value [x]. *)
Definition computes {N : Type} (value : N -> Z) (x : Z) (o : outcome N) : Prop :=
  forall n, o = New n -> value n = x.

(** Evaluate the nodes that the code builds. *)
Ltac ev :=
  repeat (cbn [evali evall evalb intcon longcon];
          rewrite ?transformi_ok, ?transforml_ok, ?transformb_ok).

Scheme inode_mut := Induction for inode Sort Prop
with lnode_mut := Induction for lnode Sort Prop
with bnode_mut := Induction for bnode Sort Prop.
Combined Scheme node_mut from inode_mut, lnode_mut, bnode_mut.

Lemma mulhi_range a b : is_s 64 a -> is_s 64 b -> is_s 64 ((a * b) ≫ 64).
Proof. unfold is_s. intros Ha Hb. rewrite Z.shiftr_div_pow2 by done. change (2 ^ (64 - 1)) with (2 ^ 63) in *.
  split; [apply Z.div_le_lower_bound|apply Z.div_lt_upper_bound]; nia. Qed.

(** Every node computes a value of its type. *)
Lemma java_range r :
  java_env r ->
  (forall n, java_int n -> is_s 32 (evali r n)) /\ (forall n, java_long n -> is_s 64 (evall r n)) /\
  (forall n, java_bool n -> True).
Proof.
  intros Hr. apply node_mut; cbn [java_int java_long java_bool evali evall]; intros; destruct_and?;
    try done; try (apply wraps_range; lia); try (apply land_range; eauto; lia); try (apply lor_range; eauto; lia);
    try (apply shr_range; [lia|apply Z.land_nonneg; lia|by eauto]); try (by apply Hr); try (apply mulhi_range; by eauto);
    try (case_match; by eauto).
  - pose proof (wraps_range 8 (cell r m) ltac:(lia)). unfold is_s in *. lia.
  - pose proof (wrapu_range 16 (cell r m) ltac:(lia)). unfold is_s, is_u in *. lia.
  - pose proof (wraps_range 16 (cell r m) ltac:(lia)). unfold is_s in *. lia.
  - assert (is_s 32 (evali r a)) by eauto. unfold is_s in *. lia.
Qed.

(** A shift with the count of a constant. *)
Lemma land_31 k : 0 <= k < 32 -> k &&& 31 = k.
Proof. intros. change 31 with (2 ^ 5 - 1). rewrite land_ones_mod by lia. apply Z.mod_small. lia. Qed.

Lemma land_63 k : 0 <= k < 64 -> k &&& 63 = k.
Proof. intros. change 63 with (2 ^ 6 - 1). rewrite land_ones_mod by lia. apply Z.mod_small. lia. Qed.

Section types.
Context {phase : PhaseGVN} {r : env} {laws : PhaseLaws phase r}.
Set Default Proof Using "Type*".

(** A node with the type of a constant. *)
Lemma con_int n lo hi w :
  typei n = Int lo hi w -> TypeInt.is_con lo hi = true -> is_s 32 lo /\ evali r n = lo.
Proof.
  intros Ht E%Z.eqb_eq. destruct (typei_ok n) as [Hwf [Hh|Hh]]; rewrite Ht in *; [done|].
  destruct Hwf as [Hlo _]. cbn in Hh. split; [done|lia].
Qed.

Lemma con_long n lo hi w :
  typel n = Long lo hi w -> TypeLong.is_con lo hi = true -> is_s 64 lo /\ evall r n = lo.
Proof.
  intros Ht E%Z.eqb_eq. destruct (typel_ok n) as [Hwf [Hh|Hh]]; rewrite Ht in *; [done|].
  destruct Hwf as [Hlo _]. cbn in Hh. split; [done|lia].
Qed.

Lemma range_int n lo hi w : typei n = Int lo hi w -> lo <= evali r n <= hi.
Proof. intros Ht. destruct (typei_ok n) as [_ [Hh|Hh]]; rewrite Ht in Hh; done. Qed.

Lemma range_long n lo hi w : typel n = Long lo hi w -> lo <= evall r n <= hi.
Proof. intros Ht. destruct (typel_ok n) as [_ [Hh|Hh]]; rewrite Ht in Hh; done. Qed.
End types.

Lemma int_type_range i : has_type (VInt i) TypeInt.INT <-> is_s 32 i.
Proof. unfold TypeInt.INT. rewrite make_int_has. cbn. unfold is_s, min_jint. lia. Qed.

Lemma long_type_range i : has_type (VLong i) TypeLong.LONG <-> is_s 64 i.
Proof. unfold TypeLong.LONG. rewrite make_long_has. cbn. unfold is_s, min_jlong, max_jlong. lia. Qed.

(** ** A sample phase

    It transforms nothing and knows the constants. *)

Definition sample_phase (r : env) : PhaseGVN := {|
  transformi n := n; transforml n := n; transformb n := n;
  typei n := if decide (is_s 32 (evali r n)) then
               match n with ConI c => TypeInt.make_con c | _ => TypeInt.INT end
             else Top;
  typel n := if decide (is_s 64 (evall r n)) then
               match n with ConL c => TypeLong.make_con c | _ => TypeLong.LONG end
             else Top;
  samei _ _ := false; samel _ _ := false; idxi _ := 0; idxl _ := 0;
  is_Loadi _ := false; is_Loadl _ := false;
  var_typei _ := None; var_typel _ := None;
  ConditionalMoveLimit := 3; has_MulHiL := false |}.

Lemma sample_laws r : PhaseLaws (sample_phase r) r.
Proof.
  split; try done; intros n; cbn [typei typel sample_phase]; destruct (decide _) as [Hs|];
    try done; try (by split; [|left]).
  - destruct n; (split; [|right]); try by apply int_type_range. all: first [lia|split_and!; done].
  - destruct n; (split; [|right]); try by apply long_type_range. all: first [lia|split_and!; done].
  - by destruct n.
  - by destruct n.
Qed.
