(* ===== verification/MagicDivide.v ===== *)
(** * Constants for division by multiplication

    Model of [magic_int_divide_constants] and [magic_long_divide_constants] of
    opto/divnode.cpp, which compute a multiplier and a shift that replace the
    division by a constant.  The two functions are the same but for the width of
    their integers, which is a parameter here. *)

From S2P Require Import Prelude.

Open Scope Z_scope.

Definition ABS (w x : Z) : Z := if x >? 0 then x else wraps w (- x).

(** ** Definitions *)

Section magic.
(** The width of the integers; [two] is the constant [two31] or [two63]. *)
Context (w : Z).
#[local] Abbreviation u := (wrapu w).
#[local] Abbreviation s := (wraps w).
#[local] Abbreviation two := (2 ^ (w - 1)).

(** The [do ... while] loop: the exponent and the quotient [q2] at its end;
    [None] when the fuel runs out. *)
Fixpoint magic_loop (fuel : nat) (ad anc p q1 r1 q2 r2 : Z) : option (Z * Z) :=
  match fuel with
  | O => None
  | S fuel =>
      let p := p + 1 in
      let q1 := u (2 * q1) in
      let r1 := u (2 * r1) in
      let '(q1, r1) := if r1 >=? anc then (u (q1 + 1), u (r1 - anc)) else (q1, r1) in
      let q2 := u (2 * q2) in
      let r2 := u (2 * r2) in
      let '(q2, r2) := if r2 >=? ad then (u (q2 + 1), u (r2 - ad)) else (q2, r2) in
      let delta := u (ad - r2) in
      if (q1 <? delta) || ((q1 =? delta) && (r1 =? 0))
      then magic_loop fuel ad anc p q1 r1 q2 r2
      else Some (p, q2)
  end.

(** [Some None] is the result [false]; otherwise the multiplier and the shift. *)
Definition magic_divide_constants (d : Z) : option (option (Z * Z)) :=
  let ad := u (ABS w d) in
  if (d =? 0) || (d =? 1) then Some None else
  let t := u (two + (u d ≫ (w - 1))) in
  let anc := u (t - 1 - t mod ad) in
  let q1 := two / anc in
  let r1 := u (two - u (q1 * anc)) in
  let q2 := two / ad in
  let r2 := u (two - u (q2 * ad)) in
  '(p, q2) ← magic_loop (Z.to_nat w) ad anc (w - 1) q1 r1 q2 r2;
  let M := s (u (q2 + 1)) in
  let M := if d <? 0 then s (- M) else M in
  Some (Some (M, p - w)).
End magic.

Definition magic_int_divide_constants (d : Z) : option (option (Z * Z)) :=
  magic_divide_constants 32 d.
Definition magic_long_divide_constants (d : Z) : option (option (Z * Z)) :=
  magic_divide_constants 64 d.

(** ** The multiplier *)

(** Doubling a dividend. *)
Lemma div_double a n q r :
  0 < n -> q = a / n -> r = a mod n ->
  2 * a / n = (if 2 * r >=? n then 2 * q + 1 else 2 * q) /\
  (2 * a) mod n = (if 2 * r >=? n then 2 * r - n else 2 * r).
Proof.
  intros Hn -> ->. rewrite Z.geb_leb.
  pose proof (Z.div_mod a n ltac:(lia)). pose proof (Z.mod_pos_bound a n Hn).
  destruct (Z.leb_spec n (2 * (a mod n))).
  - split; symmetry; [apply (Z.div_unique_pos _ _ _ (2 * (a mod n) - n))|
      apply (Z.mod_unique_pos _ _ (2 * (a / n) + 1))]; lia.
  - split; symmetry; [apply (Z.div_unique_pos _ _ _ (2 * (a mod n)))|
      apply (Z.mod_unique_pos _ _ (2 * (a / n)))]; lia.
Qed.

(** A multiplier and an exponent that are good for a divisor [d]: [M] is the least
    number with [M * d > 2 ^ p], and the excess is small enough for the dividends up
    to the largest one with remainder [d - 1]. *)
Record magic_number (w d p M : Z) : Prop := {
  mn_exponent : w <= p <= 2 * w - 2;
  mn_range : 0 < M < 2 ^ w;
  mn_excess : 0 < M * d - 2 ^ p <= d;
  mn_small : (2 ^ (w - 1) - 1 - 2 ^ (w - 1) mod d) * (M * d - 2 ^ p) < 2 ^ p
}.

Section magic_proofs.
Context (w d : Z).
Hypothesis Hw : 3 <= w.
Hypothesis Hd : 2 <= d < 2 ^ (w - 1).
Set Default Proof Using "Type*".

#[local] Abbreviation half := (2 ^ (w - 1)).
#[local] Abbreviation nc := (2 ^ (w - 1) - 1 - 2 ^ (w - 1) mod d).

Lemma two_w : 2 ^ w = 2 * half.
Proof. apply pow2_half. lia. Qed.

Lemma half_div : half = d * (half / d) + half mod d /\ 0 <= half mod d < d /\ 1 <= half / d.
Proof.
  pose proof (Z.div_mod half d ltac:(lia)). pose proof (Z.mod_pos_bound half d ltac:(lia)).
  split; [done|]. split; [done|]. apply Z.div_le_lower_bound; lia.
Qed.

(** [nc] is the largest number below 2^(w-1) with remainder [d - 1]. *)
Lemma nc_range : 1 <= nc < half /\ half <= 2 * nc /\ half <= nc * d.
Proof.
  destruct half_div as (Hq & Hr & Hk).
  set (k := half / d) in *. assert (Hnc : nc = d * k - 1) by lia.
  assert (Hdk : d <= d * k) by nia.
  assert (H4 : 2 ^ 2 <= half) by (apply Z.pow_le_mono_r; lia).
  assert (Hodd : half <= 2 * nc + 1).
  { destruct (decide (k = 1)) as [E|]; [rewrite E in *; lia|]. nia. }
  assert (Heven : half = 2 * 2 ^ (w - 1 - 1)) by (apply pow2_half; lia).
  split; [lia|]. split; [lia|]. rewrite Hnc. destruct (decide (d = 2)) as [E|].
  - rewrite E in *. lia.
  - nia.
Qed.

(** A quotient and a remainder, doubled as the loop doubles them. *)
Lemma double_step a m q r :
  0 < m < half -> q = a / m -> r = a mod m -> 0 <= a -> a / m < half ->
  (if wrapu w (2 * r) >=? m then (wrapu w (wrapu w (2 * q) + 1), wrapu w (wrapu w (2 * r) - m))
   else (wrapu w (2 * q), wrapu w (2 * r))) = (2 * a / m, (2 * a) mod m).
Proof.
  intros Hm Hq Hr Ha Hlt. pose proof two_w as H2.
  destruct (div_double a m q r ltac:(lia) Hq Hr) as [Hq' Hr'].
  assert (0 <= q < half) by (rewrite Hq; split; [apply Z.div_pos; lia|done]).
  assert (0 <= r < m) by (rewrite Hr; apply Z.mod_pos_bound; lia).
  rewrite Hq', Hr', (wrapu_id w (2 * r)), (wrapu_id w (2 * q)) by (unfold is_u; lia).
  destruct (2 * r >=? m) eqn:E; [|done]. rewrite !wrapu_id by (unfold is_u; lia). done.
Qed.

Lemma magic_exit p q1 r1 delta :
  0 <= p -> q1 = 2 ^ p / nc -> r1 = 2 ^ p mod nc ->
  ((q1 <? delta) || ((q1 =? delta) && (r1 =? 0)) = true <-> 2 ^ p <= nc * delta).
Proof.
  intros Hp -> ->. destruct nc_range as (Hnc & _ & _).
  pose proof (Z.div_mod (2 ^ p) nc ltac:(lia)). pose proof (Z.mod_pos_bound (2 ^ p) nc ltac:(lia)).
  rewrite orb_true_iff, andb_true_iff, Z.ltb_lt, !Z.eqb_eq. nia.
Qed.

Lemma magic_loop_ok fuel p q1 r1 q2 r2 :
  w - 1 <= p < 2 * w - 2 -> 2 * w - 2 - p <= Z.of_nat fuel -> 2 ^ p <= nc * d ->
  q1 = 2 ^ p / nc -> r1 = 2 ^ p mod nc -> q2 = 2 ^ p / d -> r2 = 2 ^ p mod d ->
  exists p' q2', magic_loop w fuel d nc p q1 r1 q2 r2 = Some (p', q2') /\
    magic_number w d p' (q2' + 1).
Proof.
  destruct nc_range as (Hnc & _ & _). pose proof two_w as H2.
  revert p q1 r1 q2 r2. induction fuel as [|fuel IH]; intros p q1 r1 q2 r2 Hp Hf Hle Hq1 Hr1 Hq2 Hr2; [lia|].
  assert (Hpos : 0 < 2 ^ p) by (apply Z.pow_pos_nonneg; lia).
  assert (Hsucc : 2 ^ (p + 1) = 2 * 2 ^ p) by (rewrite Z.pow_add_r by lia; lia).
  cbn [magic_loop]. cbv zeta.
  rewrite (double_step (2 ^ p) nc q1 r1) by (done || lia || (apply Z.div_lt_upper_bound; nia)).
  rewrite (double_step (2 ^ p) d q2 r2) by (done || lia || (apply Z.div_lt_upper_bound; nia)).
  rewrite <- Hsucc. set (r := 2 ^ (p + 1) mod d).
  assert (Hr : 0 <= r < d) by (apply Z.mod_pos_bound; lia).
  pose proof (Z.div_mod (2 ^ (p + 1)) d ltac:(lia)) as Hdiv. fold r in Hdiv.
  rewrite wrapu_id by (unfold is_u; lia).
  pose proof (magic_exit (p + 1) _ _ (d - r) ltac:(lia) eq_refl eq_refl) as Hx.
  case_match eqn:E.
  - apply proj1 in Hx. specialize (Hx eq_refl).
    assert (Hlt : p + 1 <> 2 * w - 2).
    { intros E'. assert (2 ^ (p + 1) = half * half) by (rewrite E', <- Z.pow_add_r by lia; f_equal; lia).
      nia. }
    apply IH; [lia|lia|nia|done..].
  - eexists _, _. split; [done|]. set (q := 2 ^ (p + 1) / d) in *.
    assert (Hex : (q + 1) * d - 2 ^ (p + 1) = d - r) by lia.
    assert (Hq : 0 <= q <= 2 * nc).
    { split; [apply Z.div_pos; lia|]. apply Z.div_le_upper_bound; lia. }
    constructor; rewrite ?Hex; [lia|lia|lia|]. apply not_iff_compat in Hx. nia.
Qed.
End magic_proofs.

Lemma magic_constants_ok w d :
  3 <= w -> 2 <= d < 2 ^ (w - 1) ->
  exists p M, magic_divide_constants w d = Some (Some (wraps w M, p - w)) /\ magic_number w d p M.
Proof.
  intros Hw Hd. set (half := 2 ^ (w - 1)) in *. set (nc := half - 1 - half mod d).
  pose proof (two_w w d Hw Hd) as H2. fold half in H2.
  destruct (nc_range w d Hw Hd) as (Hnc & Hodd & Hle). fold half in Hnc, Hodd, Hle. fold nc in Hnc, Hodd, Hle.
  pose proof (Z.mod_pos_bound half d ltac:(lia)) as Hr.
  assert (Hdivs : forall m, 0 < m -> 0 <= half / m * m <= half /\ half mod m = half - half / m * m).
  { intros m Hm. pose proof (Z.div_mod half m ltac:(lia)). pose proof (Z.mod_pos_bound half m Hm).
    assert (0 <= half / m) by (apply Z.div_pos; lia). rewrite (Z.mul_comm (half / m)).
    assert (0 <= m * (half / m)) by (apply Z.mul_nonneg_nonneg; lia). lia. }
  destruct (magic_loop_ok w d Hw Hd (Z.to_nat w) (w - 1) (half / nc) (half mod nc) (half / d) (half mod d))
    as (p & q2 & Hloop & Hmn); [lia|lia|done..|].
  exists p, (q2 + 1). split; [|done]. unfold magic_divide_constants.
  assert (Habs : wrapu w (ABS w d) = d).
  { unfold ABS. rewrite Z.gtb_ltb, (proj2 (Z.ltb_lt 0 d)) by lia. apply wrapu_id. unfold is_u. lia. }
  rewrite Habs, (proj2 (Z.eqb_neq d 0)), (proj2 (Z.eqb_neq d 1)), (proj2 (Z.ltb_ge d 0)) by lia. cbn [orb].
  assert (Hsign : wrapu w d ≫ (w - 1) = 0).
  { rewrite wrapu_id, Z.shiftr_div_pow2 by (unfold is_u; lia). apply Z.div_small. fold half. lia. }
  fold half. rewrite Hsign, Z.add_0_r, (wrapu_id w half) by (unfold is_u; lia).
  fold nc. rewrite (wrapu_id w nc) by (unfold is_u; lia).
  destruct (Hdivs nc ltac:(lia)) as [Hb1 Hm1]. destruct (Hdivs d ltac:(lia)) as [Hb2 Hm2].
  rewrite !(wrapu_id w (half / _ * _)) by (unfold is_u; lia).
  rewrite !(wrapu_id w (half - _)) by (unfold is_u; lia). rewrite <- Hm1, <- Hm2.
  fold half in Hloop. fold nc in Hloop. rewrite Hloop. simpl. rewrite wrapu_id; [done|].
  destruct Hmn. unfold is_u. lia.
Qed.

(** ** Division by multiplication *)

Section quotient.
Context (w d p M : Z).
Hypothesis Hw : 3 <= w.
Hypothesis Hd : 2 <= d < 2 ^ (w - 1).
Hypothesis Hmn : magic_number w d p M.
Set Default Proof Using "Type*".

#[local] Abbreviation half := (2 ^ (w - 1)).
#[local] Abbreviation nc := (2 ^ (w - 1) - 1 - 2 ^ (w - 1) mod d).
#[local] Abbreviation delta := (M * d - 2 ^ p).

(** The dividend -2^(w-1), where it has remainder [d - 1]. *)
Lemma excess_min : half mod d = d - 1 -> half * delta <= 2 ^ p.
Proof.
  intros Hr. destruct Hmn as [Hp _ Hex _]. pose proof (Z.div_mod half d ltac:(lia)) as Hdiv.
  set (P := 2 ^ (p - (w - 1))). assert (HP : 2 ^ p = half * P).
  { unfold P. rewrite <- Z.pow_add_r by lia. f_equal. lia. }
  assert (1 <= P) by (pose proof (Z.pow_pos_nonneg 2 (p - (w - 1))); unfold P; lia).
  set (k := half / d) in *. set (j := M - P * (k + 1)).
  assert (Hj : delta = P + d * j).
  { unfold j. rewrite HP. replace half with (d * (k + 1) - 1) by lia. ring. }
  assert (j <= 0) by nia. rewrite HP. apply Z.mul_le_mono_nonneg_l; [lia|]. nia.
Qed.

(** The excess of the product over the quotient is too small to matter. *)
Lemma excess_bound m :
  0 <= m <= half -> m * delta <= (d - m mod d) * 2 ^ p /\
  (m < half -> m * delta < (d - m mod d) * 2 ^ p).
Proof.
  intros Hm. destruct (nc_range w d Hw Hd) as (Hnc & Heven & _).
  pose proof (Z.mod_pos_bound m d ltac:(lia)) as Hr. destruct Hmn as [Hp _ Hex Hsmall].
  destruct (decide (m mod d = d - 1)) as [E|].
  - rewrite E. replace (d - (d - 1)) with 1 by lia. rewrite Z.mul_1_l.
    destruct (decide (m = half)) as [-> |].
    + split; [by apply excess_min|lia].
    + assert (m <= nc).
      { pose proof (Z.div_mod m d ltac:(lia)). pose proof (Z.div_mod half d ltac:(lia)).
        pose proof (Z.mod_pos_bound half d ltac:(lia)).
        assert (m / d < half / d); [|nia].
        apply Z.lt_le_trans with ((m + 1) / d); [|apply Z.div_le_mono; lia].
        replace (m + 1) with (0 + (m / d + 1) * d) by lia. rewrite Z.div_add, Z.div_0_l; lia. }
      assert (m * delta <= nc * delta) by (apply Z.mul_le_mono_nonneg_r; lia). lia.
  - assert (m * delta <= 2 * nc * delta) by (apply Z.mul_le_mono_nonneg_r; lia).
    assert (2 * 2 ^ p <= (d - m mod d) * 2 ^ p) by (apply Z.mul_le_mono_nonneg_r; lia). lia.
Qed.

Lemma magic_quotient n :
  - half <= n < half -> Z.quot n d = M * n / 2 ^ p + (if n <? 0 then 1 else 0).
Proof.
  intros Hn. assert (0 < 2 ^ p) by (destruct Hmn; apply Z.pow_pos_nonneg; lia).
  assert (Hex : 0 < delta <= d) by apply Hmn.
  destruct (Z.ltb_spec n 0).
  - set (m := - n). destruct (excess_bound m) as [Hb _]; [lia|].
    pose proof (Z.div_mod m d ltac:(lia)) as Hdiv. pose proof (Z.mod_pos_bound m d ltac:(lia)).
    replace n with (- m) by lia. rewrite Z.quot_opp_l, Z.quot_div_nonneg by lia.
    set (k := m / d) in *. replace (M * - m / 2 ^ p) with (- k - 1); [lia|].
    apply (Z.div_unique_pos _ _ _ ((k + 1) * 2 ^ p - M * m)); [|ring].
    split; nia.
  - destruct (excess_bound n) as [_ Hb]; [lia|]. specialize (Hb ltac:(lia)).
    pose proof (Z.div_mod n d ltac:(lia)) as Hdiv. pose proof (Z.mod_pos_bound n d ltac:(lia)).
    rewrite Z.quot_div_nonneg, Z.add_0_r by lia. set (k := n / d) in *.
    apply (Z.div_unique_pos _ _ _ (M * n - k * 2 ^ p)); [|ring].
    split; nia.
Qed.
End quotient.
