(* ===== verification/IdealDiv.v ===== *)
(** * Division and remainder in the optimizing compiler

    Model of the integer part of opto/divnode.cpp: the rewriting of divisions and
    remainders by constants into multiplications, shifts and masks ([Ideal]), and
    the types the compiler derives for them ([Value]). *)

From S2P Require Import Prelude GlobalDefinitions IdealType IdealNode MagicDivide.

Open Scope Z_scope.

(** The control input [in(0)]: absent, or present, with what [remove_dead_region]
    answers for it and whether it is top. *)
Inductive control := NoControl | Controlled (dead_removed is_top : bool).

Definition dead_removed (c : control) : bool :=
  match c with Controlled b _ => b | NoControl => false end.
Definition control_top (c : control) : bool :=
  match c with Controlled _ b => b | NoControl => false end.
Definition has_control (c : control) : bool :=
  match c with Controlled _ _ => true | NoControl => false end.

Section div_nodes.
Context {phase : PhaseGVN}.

(** ** [transform_int_divide] *)

(** The dividend without the rounding that a power of two needs for negative
    dividends, where it can be told that none is needed. *)
Definition unrounded_int (dividend : inode) (d : Z) : inode * bool :=
  let by_mask :=
    match dividend with
    | AndI a b =>
        match typei b with
        | Int lo hi _ => if TypeInt.is_con_of lo hi (s32 (- d)) then (a, false) else (dividend, true)
        | _ => (dividend, true)
        end
    | _ => (dividend, true)
    end in
  match typei dividend with
  | Int lo _ _ => if lo >=? 0 then (dividend, false) else by_mask
  | _ => by_mask
  end.

(** [None] when an assertion fails; [Some None] is NULL. *)
Definition transform_int_divide (dividend : inode) (divisor : Z) : option (option inode) :=
  ASSERT negb (divisor =? 0) && negb (divisor =? min_jint) ;;
  let d_pos := divisor >=? 0 in
  let d := if d_pos then divisor else s32 (- divisor) in
  let N := 32 in
  if d =? 1 then
    if negb d_pos then Some (Some (SubI (intcon 0) dividend)) else Some None
  else if is_power_of_2 d then
    let '(dividend, needs_rounding) := unrounded_int dividend d in
    let l := log2_intptr (d - 1) + 1 in
    let dividend :=
      if (needs_rounding : bool) then
        let sign := transformi (RShiftI dividend (intcon (N - 1))) in
        let round := transformi (URShiftI sign (intcon (N - l))) in
        transformi (AddI dividend round)
      else dividend in
    let q := RShiftI dividend (intcon l) in
    Some (Some (if negb d_pos then SubI (intcon 0) (transformi q) else q))
  else
    magic ← magic_int_divide_constants d;
    match magic with
    | None => Some None
    | Some (magic_const, shift_const) =>
        let magic := longcon magic_const in
        let dividend_long := transforml (ConvI2L dividend) in
        let mul_hi := transforml (MulL dividend_long magic) in
        let mul_hi :=
          if magic_const <? 0 then
            let mul_hi := transforml (RShiftL mul_hi (intcon N)) in
            let mul_hi := transformi (ConvL2I mul_hi) in
            let mul_hi := transformi (AddI dividend mul_hi) in
            if negb (shift_const =? 0) then transformi (RShiftI mul_hi (intcon shift_const))
            else mul_hi
          else
            let mul_hi := transforml (RShiftL mul_hi (intcon (N + shift_const))) in
            transformi (ConvL2I mul_hi) in
        let addend0 := mul_hi in
        let addend1 := transformi (RShiftI dividend (intcon (N - 1))) in
        Some (Some (if negb d_pos then SubI addend1 addend0 else SubI addend0 addend1))
    end.

(** ** [long_by_long_mulhi] and [transform_long_divide] *)

Definition long_by_long_mulhi (dividend : lnode) (magic_const : Z) : lnode :=
  if has_MulHiL then MulHiL dividend (longcon magic_const) else
  let N := 64 in
  let u_hi := transforml (RShiftL dividend (intcon (N / 2))) in
  let u_lo := transforml (AndL dividend (longcon 0xFFFFFFFF)) in
  let v_hi := longcon (magic_const ≫ (N / 2)) in
  let v_lo := longcon (magic_const &&& 0xFFFFFFFF) in
  let hihi_product := transforml (MulL u_hi v_hi) in
  let hilo_product := transforml (MulL u_hi v_lo) in
  let lohi_product := transforml (MulL u_lo v_hi) in
  let lolo_product := transforml (MulL u_lo v_lo) in
  let t1 := transforml (URShiftL lolo_product (intcon (N / 2))) in
  let t2 := transforml (AddL hilo_product t1) in
  let t3 := RShiftL t2 (intcon (N / 2)) in
  let t4 := AndL t2 (longcon 0xFFFFFFFF) in
  let t3 := transforml t3 in
  let t4 := transforml t4 in
  let t5 := transforml (AddL t4 lohi_product) in
  let t6 := transforml (RShiftL t5 (intcon (N / 2))) in
  let t7 := transforml (AddL t3 hihi_product) in
  AddL t7 t6.

Definition unrounded_long (dividend : lnode) (d : Z) : lnode * bool :=
  let by_mask :=
    match dividend with
    | AndL a b =>
        match typel b with
        | Long lo hi _ => if TypeLong.is_con_of lo hi (s64 (- d)) then (a, false) else (dividend, true)
        | _ => (dividend, true)
        end
    | _ => (dividend, true)
    end in
  match typel dividend with
  | Long lo _ _ => if lo >? 0 then (dividend, false) else by_mask
  | _ => by_mask
  end.

Definition transform_long_divide (dividend : lnode) (divisor : Z) : option (option lnode) :=
  ASSERT negb (divisor =? 0) && negb (divisor =? min_jlong) ;;
  let d_pos := divisor >=? 0 in
  let d := if d_pos then divisor else s64 (- divisor) in
  let N := 64 in
  if d =? 1 then
    if negb d_pos then Some (Some (SubL (longcon 0) dividend)) else Some None
  else if is_power_of_2_long d then
    let '(dividend, needs_rounding) := unrounded_long dividend d in
    let l := log2_long (d - 1) + 1 in
    let dividend :=
      if (needs_rounding : bool) then
        let sign := transforml (RShiftL dividend (intcon (N - 1))) in
        let round := transforml (URShiftL sign (intcon (N - l))) in
        transforml (AddL dividend round)
      else dividend in
    let q := RShiftL dividend (intcon l) in
    Some (Some (if negb d_pos then SubL (longcon 0) (transforml q) else q))
  else
    magic ← magic_long_divide_constants d;
    match magic with
    | None => Some None
    | Some (magic_const, shift_const) =>
        let mul_hi := transforml (long_by_long_mulhi dividend magic_const) in
        let mul_hi := if magic_const <? 0 then transforml (AddL dividend mul_hi) else mul_hi in
        let mul_hi :=
          if negb (shift_const =? 0) then transforml (RShiftL mul_hi (intcon shift_const))
          else mul_hi in
        let addend0 := mul_hi in
        let addend1 := transforml (RShiftL dividend (intcon (N - 1))) in
        Some (Some (if negb d_pos then SubL addend1 addend0 else SubL addend0 addend1))
    end.

(** ** [DivINode::Ideal] and [DivLNode::Ideal] *)

(** The control input afterwards, and the outcome. *)
Definition DivI_Ideal (in0 : control) (in1 in2 : inode) : option (control * outcome inode) :=
  if has_control in0 && dead_removed in0 then Some (in0, This)
  else if has_control in0 && control_top in0 then Some (in0, NoChange)
  else
  let t := typei in2 in
  if decide (t = TypeInt.ONE) then Some (in0, NoChange) else
  match t with
  | Int lo hi _ =>
      if negb (TypeInt.is_con lo hi) then Some (in0, NoChange)
      else if lo =? 0 then Some (in0, NoChange)
      else if lo =? min_jint then Some (NoControl, NoChange)
      else
        r ← transform_int_divide in1 lo;
        Some (NoControl, match r with Some n => New n | None => NoChange end)
  | _ => Some (in0, NoChange)
  end.

Definition DivL_Ideal (in0 : control) (in1 in2 : lnode) : option (control * outcome lnode) :=
  if has_control in0 && dead_removed in0 then Some (in0, This)
  else if has_control in0 && control_top in0 then Some (in0, NoChange)
  else
  let t := typel in2 in
  if decide (t = TypeLong.ONE) then Some (in0, NoChange) else
  match t with
  | Long lo hi _ =>
      if negb (TypeLong.is_con lo hi) then Some (in0, NoChange)
      else if lo =? 0 then Some (in0, NoChange)
      else if lo =? min_jlong then Some (NoControl, NoChange)
      else
        r ← transform_long_divide in1 lo;
        Some (NoControl, match r with Some n => New n | None => NoChange end)
  | _ => Some (in0, NoChange)
  end.

(** The input that [Identity] finds the node to be equal to, if any. *)
Definition DivI_Identity (in1 in2 : inode) : option (option inode) :=
  b ← higher_equal (typei in2) TypeInt.ONE;
  Some (if (b : bool) then Some in1 else None).

Definition DivL_Identity (in1 in2 : lnode) : option (option lnode) :=
  b ← higher_equal (typel in2) TypeLong.ONE;
  Some (if (b : bool) then Some in1 else None).

(** ** [ModINode::Ideal] *)

Definition unroll_factor_int : list Z :=
  [999; 999; 29; 14; 9; 7; 5; 4; 4; 3; 3; 2; 2; 2; 2; 2; 1].

Definition trip_count_int (k : Z) : Z :=
  if k <? zlen unroll_factor_int then default 1 (load unroll_factor_int k) else 1.

(** The loop that reduces [x] rapidly to nearly 2^k-1. *)
Fixpoint reduce_int (trips : nat) (x divisor : inode) (k : Z) : inode :=
  match trips with
  | O => x
  | S trips =>
      let xl := transformi (AndI x divisor) in
      let xh := transformi (RShiftI x (intcon k)) in
      reduce_int trips (transformi (AddI xh xl)) divisor k
  end.

(** The remainder by 2^k-1, from the reduced [x]. *)
Definition sign_fixup_int (in1 x divisor : inode) : inode :=
  let bol1 := transformb (GeI in1 (intcon 0)) in
  let cmov1 := transformi (CMoveI bol1 (intcon 1) divisor) in
  let sub := transformi (SubI x divisor) in
  let bol2 := transformb (GeI x cmov1) in
  CMoveI bol2 x sub.

(** The remainder as what a multiplication of the quotient leaves. *)
Definition divided_int (in1 : inode) (pos_con log2_con : Z) : option (outcome inode) :=
  result ← transform_int_divide in1 pos_con;
  match result with
  | None => Some NoChange
  | Some result =>
      let divide := transformi result in
      let mult := if log2_con >=? 0 then transformi (LShiftI divide (intcon log2_con))
                  else transformi (MulI divide (intcon pos_con)) in
      Some (New (SubI in1 mult))
  end.

(** The remainder through a division. *)
Definition mod_by_divide_int (in1 : inode) (con : Z) : option (outcome inode) :=
  if (con =? 0) || (con =? min_jint) then Some NoChange else
  let pos_con := if con >=? 0 then con else s32 (- con) in
  if pos_con =? 1 then Some (New (ConI 0)) else
  let divided := divided_int in1 pos_con in
  if is_power_of_2 pos_con then
    match typei in1 with
    | Int lo _ _ =>
        if lo >=? 0 then Some (New (AndI in1 (intcon (pos_con - 1))))
        else divided (log2_intptr pos_con)
    | _ => divided (log2_intptr pos_con)
    end
  else divided (-1).

Definition ModI_Ideal (in0 : control) (in1 in2 : inode) : option (control * outcome inode) :=
  if has_control in0 && dead_removed in0 then Some (in0, This)
  else if has_control in0 && control_top in0 then Some (in0, NoChange)
  else
  match typei in2 with
  | Top => Some (in0, NoChange)
  | Int lo hi _ =>
      if has_control in0 && ((hi <? 0) || (lo >? 0)) then Some (NoControl, This)
      else if negb (TypeInt.is_con lo hi) then Some (in0, NoChange)
      else
        let con := lo in
        let fallthrough := o ← mod_by_divide_int in1 con; Some (in0, o) in
        if (con >=? 0) && (con <? max_jint) && is_power_of_2 (con + 1) then
          k ← exact_log2 (con + 1);
          let trip_count := trip_count_int k in
          if (trip_count <=? 5) && negb (ConditionalMoveLimit =? 0) then
            let x := reduce_int (Z.to_nat trip_count) in1 in2 k in
            Some (in0, New (sign_fixup_int in1 x in2))
          else fallthrough
        else fallthrough
  | _ => None
  end.

(** ** [ModLNode::Ideal] *)

Definition unroll_factor_long : list Z :=
  [999; 999; 61; 30; 20; 15; 12; 10; 8; 7; 6; 6; 5; 5; 4; 4; 4; 3; 3; 3; 3; 3; 2; 2; 2; 2; 2; 2; 2;
   2; 2; 2; 1].

Definition trip_count_long (k : Z) : Z :=
  if k <? zlen unroll_factor_long then default 1 (load unroll_factor_long k) else 1.

Fixpoint reduce_long (trips : nat) (x divisor : lnode) (k : Z) : lnode :=
  match trips with
  | O => x
  | S trips =>
      let xl := transforml (AndL x divisor) in
      let xh := transforml (RShiftL x (intcon k)) in
      reduce_long trips (transforml (AddL xh xl)) divisor k
  end.

Definition sign_fixup_long (in1 x divisor : lnode) : lnode :=
  let bol1 := transformb (GeL in1 (longcon 0)) in
  let cmov1 := transforml (CMoveL bol1 (longcon 1) divisor) in
  let sub := transforml (SubL x divisor) in
  let bol2 := transformb (GeL x cmov1) in
  CMoveL bol2 x sub.

(** The remainder as what a multiplication of the quotient leaves. *)
Definition divided_long (in1 : lnode) (pos_con log2_con : Z) : option (outcome lnode) :=
  result ← transform_long_divide in1 pos_con;
  match result with
  | None => Some NoChange
  | Some result =>
      let divide := transforml result in
      let mult := if log2_con >=? 0 then transforml (LShiftL divide (intcon log2_con))
                  else transforml (MulL divide (longcon pos_con)) in
      Some (New (SubL in1 mult))
  end.

Definition mod_by_divide_long (in1 : lnode) (con : Z) : option (outcome lnode) :=
  if (con =? 0) || (con =? min_jlong) then Some NoChange else
  let pos_con := if con >=? 0 then con else s64 (- con) in
  if pos_con =? 1 then Some (New (ConL 0)) else
  let divided := divided_long in1 pos_con in
  if is_power_of_2_long pos_con then
    match typel in1 with
    | Long lo _ _ =>
        if lo >=? 0 then Some (New (AndL in1 (longcon (pos_con - 1))))
        else divided (log2_long pos_con)
    | _ => divided (log2_long pos_con)
    end
  else divided (-1).

Definition ModL_Ideal (in0 : control) (in1 in2 : lnode) : option (control * outcome lnode) :=
  if has_control in0 && dead_removed in0 then Some (in0, This)
  else if has_control in0 && control_top in0 then Some (in0, NoChange)
  else
  match typel in2 with
  | Top => Some (in0, NoChange)
  | Long lo hi _ =>
      if has_control in0 && ((hi <? 0) || (lo >? 0)) then Some (NoControl, This)
      else if negb (TypeLong.is_con lo hi) then Some (in0, NoChange)
      else
        let con := lo in
        let fallthrough := o ← mod_by_divide_long in1 con; Some (in0, o) in
        if (con >=? 0) && (con <? max_jlong) && is_power_of_2_long (con + 1) then
          let k := log2_long con in
          let trip_count := trip_count_long k in
          if (trip_count <=? 5) && negb (ConditionalMoveLimit =? 0) then
            let x := reduce_long (Z.to_nat trip_count) in1 in2 k in
            Some (in0, New (sign_fixup_long in1 x in2))
          else fallthrough
        else fallthrough
  | _ => None
  end.
End div_nodes.

(** ** [Value]: the types of divisions and remainders

    [eqv] tells whether the two inputs are the same node; [None] when a type is not
    of the kind that [is_int] or [is_long] asserts, and when a C++ division would trap. *)

(** The C++ [a / b] and [a % b] on [w]-bit integers: a zero divisor and the quotient
    that overflows raise an arithmetic exception; other quotients fit. *)
Definition int_traps (w a b : Z) : bool := (b =? 0) || ((a =? - 2 ^ (w - 1)) && (b =? -1)).

Definition int_div (w a b : Z) : option Z := if int_traps w a b then None else Some (Z.quot a b).

Definition int_rem (w a b : Z) : option Z := if int_traps w a b then None else Some (Z.rem a b).

Definition DivI_Value (t1 t2 : IType) (eqv : bool) : option IType :=
  if decide (t1 = Top) then Some Top
  else if decide (t2 = Top) then Some Top
  else if eqv then Some TypeInt.ONE
  else if decide (t1 = TypeInt.INT \/ t2 = TypeInt.INT \/ t1 = Bottom \/ t2 = Bottom)
  then Some TypeInt.INT
  else
  match t1, t2 with
  | Int lo1 hi1 w1, Int lo2 hi2 w2 =>
      let widen := MAX2 w1 w2 in
      if TypeInt.is_con lo2 hi2 && negb (lo2 =? 0) then
        let d := lo2 in
        '(lo, hi) ←
          (if d >=? 0 then lo ← int_div 32 lo1 d; hi ← int_div 32 hi1 d; Some (lo, hi)
           else if (d =? -1) && (lo1 =? min_jint) then
             Some (min_jint, if hi1 =? min_jint then min_jint else max_jint)
           else lo ← int_div 32 hi1 d; hi ← int_div 32 lo1 d; Some (lo, hi));
        Some (TypeInt.make lo hi widen)
      else if TypeInt.is_con lo1 hi1 then
        let d := lo1 in
        if d <? 0 then
          if d =? min_jint then Some (TypeInt.make min_jint (s32 (Z.quot max_jint 2 + 1)) widen)
          else Some (TypeInt.make d (s32 (- d)) widen)
        else Some (TypeInt.make (s32 (- d)) d widen)
      else Some TypeInt.INT
  | _, _ => None
  end.

Definition DivL_Value (t1 t2 : IType) (eqv : bool) : option IType :=
  if decide (t1 = Top) then Some Top
  else if decide (t2 = Top) then Some Top
  else if eqv then Some TypeLong.ONE
  else if decide (t1 = TypeLong.LONG \/ t2 = TypeLong.LONG \/ t1 = Bottom \/ t2 = Bottom)
  then Some TypeLong.LONG
  else
  match t1, t2 with
  | Long lo1 hi1 w1, Long lo2 hi2 w2 =>
      let widen := MAX2 w1 w2 in
      if TypeLong.is_con lo2 hi2 && negb (lo2 =? 0) then
        let d := lo2 in
        '(lo, hi) ←
          (if d >=? 0 then lo ← int_div 64 lo1 d; hi ← int_div 64 hi1 d; Some (lo, hi)
           else if (d =? -1) && (lo1 =? min_jlong) then
             Some (min_jlong, if hi1 =? min_jlong then min_jlong else max_jlong)
           else lo ← int_div 64 hi1 d; hi ← int_div 64 lo1 d; Some (lo, hi));
        Some (TypeLong.make lo hi widen)
      else if TypeLong.is_con lo1 hi1 then
        let d := lo1 in
        if d <? 0 then
          if d =? min_jlong then Some (TypeLong.make min_jlong (s64 (Z.quot max_jlong 2 + 1)) widen)
          else Some (TypeLong.make d (s64 (- d)) widen)
        else Some (TypeLong.make (s64 (- d)) d widen)
      else Some TypeLong.LONG
  | _, _ => None
  end.

Definition ModI_Value (t1 t2 : IType) (eqv : bool) : option IType :=
  if decide (t1 = Top) then Some Top
  else if decide (t2 = Top) then Some Top
  else if decide (t1 = TypeInt.ZERO) then Some TypeInt.ZERO
  else if eqv then Some TypeInt.ZERO
  else if decide (t1 = TypeInt.INT \/ t2 = TypeInt.INT \/ t1 = Bottom \/ t2 = Bottom)
  then Some TypeInt.INT
  else
  match t1, t2 with
  | Int lo1 hi1 _, Int lo2 hi2 _ =>
      if negb (TypeInt.is_con lo1 hi1) || negb (TypeInt.is_con lo2 hi2) then
        if (lo1 >=? 0) && (lo2 >=? 0) then Some TypeInt.POS else Some TypeInt.INT
      else if lo2 =? 0 then Some TypeInt.POS
      else if (lo1 =? min_jint) && (lo2 =? -1) then Some TypeInt.ZERO
      else r ← int_rem 32 lo1 lo2; Some (TypeInt.make_con r)
  | _, _ => None
  end.

Definition ModL_Value (t1 t2 : IType) (eqv : bool) : option IType :=
  if decide (t1 = Top) then Some Top
  else if decide (t2 = Top) then Some Top
  else if decide (t1 = TypeLong.ZERO) then Some TypeLong.ZERO
  else if eqv then Some TypeLong.ZERO
  else if decide (t1 = TypeLong.LONG \/ t2 = TypeLong.LONG \/ t1 = Bottom \/ t2 = Bottom)
  then Some TypeLong.LONG
  else
  match t1, t2 with
  | Long lo1 hi1 _, Long lo2 hi2 _ =>
      if negb (TypeLong.is_con lo1 hi1) || negb (TypeLong.is_con lo2 hi2) then
        if (lo1 >=? 0) && (lo2 >=? 0) then Some TypeLong.POS else Some TypeLong.LONG
      else if lo2 =? 0 then Some TypeLong.POS
      else if (lo1 =? min_jlong) && (lo2 =? -1) then Some TypeLong.ZERO
      else r ← int_rem 64 lo1 lo2; Some (TypeLong.make_con r)
  | _, _ => None
  end.

(** ** Arithmetic of the replacements *)

Lemma sign_shift w x : 0 < w -> is_s w x -> x ≫ (w - 1) = if x <? 0 then -1 else 0.
Proof.
  intros Hw Hx. unfold is_s in Hx. rewrite Z.shiftr_div_pow2 by lia.
  destruct (Z.ltb_spec x 0); symmetry.
  - apply (Z.div_unique_pos _ _ _ (x + 2 ^ (w - 1))); lia.
  - apply (Z.div_unique_pos _ _ _ x); lia.
Qed.

(** The low [l] bits of the sign. *)
Lemma sign_bits w l x :
  0 < l < w -> wraps w (wrapu w (if x <? 0 then -1 else 0) ≫ (w - l)) = if x <? 0 then 2 ^ l - 1 else 0.
Proof.
  intros Hl. destruct (x <? 0).
  - assert (Hu : wrapu w (-1) = 2 ^ w - 1).
    { unfold wrapu. symmetry. apply (Z.mod_unique_pos _ _ (-1)); [|lia].
      pose proof (Z.pow_pos_nonneg 2 w). lia. }
    rewrite Hu, Z.shiftr_div_pow2 by lia.
    assert (Hp : 2 ^ w = 2 ^ (w - l) * 2 ^ l) by (rewrite <- Z.pow_add_r by lia; f_equal; lia).
    pose proof (Z.pow_pos_nonneg 2 (w - l)). pose proof (Z.pow_pos_nonneg 2 l).
    replace ((2 ^ w - 1) / 2 ^ (w - l)) with (2 ^ l - 1).
    + apply wraps_id; [lia|]. unfold is_s.
      pose proof (Z.pow_le_mono_r 2 l (w - 1)). lia.
    + apply (Z.div_unique_pos _ _ _ (2 ^ (w - l) - 1)); lia.
  - unfold wrapu. rewrite Z.mod_0_l, Z.shiftr_0_l by lia.
    apply wraps_id; [lia|]. unfold is_s. pose proof (Z.pow_pos_nonneg 2 (w - 1)). lia.
Qed.

(** Truncating division by a positive number, as a rounding. *)
Lemma quot_floor x d : 0 < d -> Z.quot x d = (x + if x <? 0 then d - 1 else 0) / d.
Proof.
  intros Hd. destruct (Z.ltb_spec x 0).
  - replace x with (- - x) at 1 by lia. rewrite Z.quot_opp_l, Z.quot_div_nonneg by lia.
    pose proof (Z.div_mod (- x) d ltac:(lia)). pose proof (Z.mod_pos_bound (- x) d Hd).
    apply (Z.div_unique_pos _ _ _ (d - 1 - (- x) mod d)); [lia|]. lia.
  - rewrite Z.add_0_r. apply Z.quot_div_nonneg; lia.
Qed.

Lemma quot_range w x d : 0 < w -> is_s w x -> 2 <= d -> is_s w (Z.quot x d).
Proof.
  intros Hw Hx Hd. unfold is_s in *. pose proof (Z.pow_pos_nonneg 2 (w - 1)).
  rewrite quot_floor by lia. destruct (Z.ltb_spec x 0).
  - split; [apply Z.div_le_lower_bound; nia|apply Z.div_lt_upper_bound; nia].
  - split; [apply Z.div_le_lower_bound; nia|apply Z.div_lt_upper_bound; nia].
Qed.

Lemma log2_pred_pow l : 1 <= l <= 62 -> log2_intptr (2 ^ l - 1) + 1 = l.
Proof.
  intros Hl. pose proof (Z.pow_le_mono_r 2 1 l ltac:(lia) ltac:(lia)).
  pose proof (Z.pow_le_mono_r 2 l 62 ltac:(lia) ltac:(lia)).
  rewrite log2_intptr_spec by (unfold is_s; pow2_norm; lia). rewrite decide_True by lia.
  rewrite (Z.log2_unique _ (l - 1)); [lia|lia|].
  replace (Z.succ (l - 1)) with l by lia. pose proof (pow2_half l). lia.
Qed.

(** A mask of the multiples of a power of two leaves a division without rounding. *)
Lemma quot_masked x l : 0 <= l -> Z.quot (x &&& (- 2 ^ l)) (2 ^ l) = x / 2 ^ l.
Proof.
  intros Hl. pose proof (Z.pow_pos_nonneg 2 l).
  replace (- 2 ^ l) with (Z.lnot (2 ^ l - 1)) by (unfold Z.lnot; lia).
  rewrite land_lnot_low by done. apply Z.quot_mul. lia.
Qed.

(** The product with the multiplier, shifted in two steps. *)
Lemma mulhi_adjusted x M w : 0 <= w -> x + (x * (M - 2 ^ w)) / 2 ^ w = x * M / 2 ^ w.
Proof.
  intros Hw. replace (x * (M - 2 ^ w)) with (x * M + (- x) * 2 ^ w) by ring.
  rewrite Z.div_add by (pose proof (Z.pow_pos_nonneg 2 w); lia). lia.
Qed.

Lemma div_pow2_range w x M p :
  0 < w -> is_s w x -> 0 <= M <= 2 ^ p -> 0 <= p -> is_s w (x * M / 2 ^ p).
Proof.
  intros Hw Hx HM Hp. pose proof (Z.pow_pos_nonneg 2 p). unfold is_s in *. split.
  - apply Z.div_le_lower_bound; [lia|]. nia.
  - apply Z.div_lt_upper_bound; [lia|]. nia.
Qed.

(** The sum of the low digit of [x] in base 2^k and of the others. *)
Definition add_digits (k x : Z) : Z := x / 2 ^ k + x mod 2 ^ k.

(** ** Statements about [Ideal]

    The control input goes away only where the divisor is known not to be zero. *)

Definition control_ok (in0 c : control) (zero : value) (divisor : IType) : Prop :=
  c = in0 \/ (c = NoControl /\ ~ has_type zero divisor).

(** ** Remainders by 2^k-1

    The reduction adds the digits of the number in base 2^k. *)

Lemma add_digits_congruent k t x : 0 <= k -> exists q, Nat.iter t (add_digits k) x = x + q * (2 ^ k - 1).
Proof.
  intros Hk. induction t as [|t [q IH]]; [by exists 0; cbn; lia|]. cbn [Nat.iter nat_rect].
  fold (Nat.iter t (add_digits k) x). rewrite IH. set (y := x + q * (2 ^ k - 1)). unfold add_digits.
  exists (q - y / 2 ^ k). pose proof (Z.div_mod y (2 ^ k)) as E.
  pose proof (Z.pow_pos_nonneg 2 k). specialize (E ltac:(lia)). fold y in E. unfold y in *. lia.
Qed.

Lemma add_digits_upper k t x h :
  0 <= k -> 0 <= x <= h -> 0 <= Nat.iter t (add_digits k) x <= Nat.iter t (fun h => h / 2 ^ k + (2 ^ k - 1)) h.
Proof.
  intros Hk Hx. pose proof (Z.pow_pos_nonneg 2 k).
  induction t as [|t IH]; [done|]. cbn [Nat.iter nat_rect].
  set (y := nat_rect _ x _ t) in *. set (g := nat_rect _ h _ t) in *. unfold add_digits.
  fold (Nat.iter t (add_digits k) x) in y. change (0 <= y <= g) in IH.
  pose proof (Z.mod_pos_bound y (2 ^ k)). pose proof (Z.div_le_mono y g (2 ^ k)).
  pose proof (Z.div_pos y (2 ^ k)). lia.
Qed.

Lemma add_digits_lower k t x l :
  0 <= k -> l <= x <= 2 ^ k - 1 -> l <= 0 ->
  Nat.iter t (fun l => l / 2 ^ k) l <= Nat.iter t (add_digits k) x <= 2 ^ k - 1.
Proof.
  intros Hk Hx Hl. pose proof (Z.pow_pos_nonneg 2 k).
  induction t as [|t IH]; [done|]. cbn [Nat.iter nat_rect].
  set (y := nat_rect _ x _ t) in *. set (g := nat_rect _ l _ t) in *. unfold add_digits.
  change (g <= y <= 2 ^ k - 1) in IH.
  pose proof (Z.mod_pos_bound y (2 ^ k)). pose proof (Z.div_le_mono g y (2 ^ k)).
  assert (y < 0 -> y / 2 ^ k < 0) by (intros; apply Z.div_lt_upper_bound; lia).
  assert (0 <= y -> y / 2 ^ k = 0) by (intros; apply Z.div_small; lia).
  assert (0 <= y -> y mod 2 ^ k = y) by (intros; apply Z.mod_small; lia). lia.
Qed.

(** The number of additions is enough for every [k] that the code expands. *)
Lemma trips_enough k :
  0 <= k <= 30 -> trip_count_int k <= 5 ->
  6 <= k /\
  Nat.iter (Z.to_nat (trip_count_int k)) (fun h => h / 2 ^ k + (2 ^ k - 1)) max_jint <= 2 * (2 ^ k - 1) - 1 /\
  - (2 ^ k - 1) < Nat.iter (Z.to_nat (trip_count_int k)) (fun l => l / 2 ^ k) min_jint.
Proof.
  intros Hk Ht.
  assert (H : forallb (fun k => (trip_count_int k >? 5) || ((6 <=? k) &&
    (Nat.iter (Z.to_nat (trip_count_int k)) (fun h => h / 2 ^ k + (2 ^ k - 1)) max_jint <=? 2 * (2 ^ k - 1) - 1)
    && (- (2 ^ k - 1) <? Nat.iter (Z.to_nat (trip_count_int k)) (fun l => l / 2 ^ k) min_jint)))
    (seqZ 0 31) = true) by reflexivity.
  rewrite forallb_forall in H. specialize (H k ltac:(apply list_elem_of_In, elem_of_seqZ; lia)).
  cbv beta in H. lia.
Qed.

(** The remainder is the only number of its range that is congruent to the dividend. *)
Lemma rem_unique_range x d q y :
  0 < d -> y = x + q * d -> (0 <= x -> 0 <= y < d) -> (x < 0 -> - d < y <= 0) -> y = Z.rem x d.
Proof.
  intros Hd E Hp Hn. pose proof (Z.quot_rem' x d).
  assert (Hz : y - Z.rem x d = d * (Z.quot x d + q)) by lia.
  assert (Hr : - d < y - Z.rem x d < d).
  { destruct (Z.le_gt_cases 0 x).
    - pose proof (Z.rem_bound_pos x d). lia.
    - pose proof (Z.rem_bound_pos (- x) d). rewrite Z.rem_opp_l in * by lia. lia. }
  assert (Z.quot x d + q = 0) by nia. nia.
Qed.

(** ** The rewriting of divisions *)

Section rewriting.
Context {phase : PhaseGVN} {r : env} {laws : PhaseLaws phase r}.
Set Default Proof Using "Type*".

(** A step of [Ideal] that gives no new node and leaves the control input. *)
Ltac unchanged := by eexists _, _; split_and!; [done|left|].

(** Division by a negative number is the negation of the division by its absolute
    value. *)
Lemma signed_quot (x divisor d : Z) :
  d = (if divisor >=? 0 then divisor else - divisor) ->
  Z.quot x divisor = if divisor >=? 0 then Z.quot x d else - Z.quot x d.
Proof.
  rewrite Z.geb_leb. intros ->. destruct (Z.leb_spec 0 divisor); [done|].
  rewrite Z.quot_opp_r by lia. lia.
Qed.

Lemma unrounded_int_ok dividend d l :
  d = 2 ^ l -> 0 < l < 31 -> is_s 32 (evali r dividend) ->
  let '(n, rounding) := unrounded_int dividend d in
  if (rounding : bool) then n = dividend
  else Z.quot (evali r dividend) d = evali r n / d.
Proof.
  intros -> Hl Hx. pose proof (Z.pow_le_mono_r 2 l 30 ltac:(lia) ltac:(lia)).
  assert (0 < 2 ^ l) by (apply Z.pow_pos_nonneg; lia).
  unfold unrounded_int. set (by_mask := match dividend with AndI a b => _ | _ => _ end).
  assert (Hmask : let '(n, rounding) := by_mask in if (rounding : bool) then n = dividend
    else Z.quot (evali r dividend) (2 ^ l) = evali r n / 2 ^ l).
  { unfold by_mask. destruct dividend as [| | | | | | | |a b| | | | | |]; try done.
    destruct (typei_ok b) as [_ Hb]. destruct (typei b) as [| |lo hi w| | | | | | | | | | | |]; try done.
    unfold TypeInt.is_con_of. destruct (_ && _) eqn:E; [|done].
    apply andb_true_iff in E as [E1%Z.eqb_eq E2%Z.eqb_eq].
    rewrite wraps_id in E2 by (done || (unfold is_s; pow2_norm; lia)).
    destruct Hb as [|Hb]; [done|]. cbn in Hb. cbn [evali]. replace (evali r b) with (- 2 ^ l) by lia. apply quot_masked. lia. }
  destruct (typei_ok dividend) as [_ Ht].
  destruct (typei dividend) as [| |lo hi w| | | | | | | | | | | |]; try done.
  destruct (lo >=? 0) eqn:E; [|done]. destruct Ht as [|Ht]; [done|]. cbn in Ht.
  apply Z.quot_div_nonneg; lia.
Qed.

(** Division by a power of two. *)
Lemma power_of_2_int dividend d l :
  d = 2 ^ l -> 0 < l < 31 -> is_s 32 (evali r dividend) ->
  let '(n, needs_rounding) := unrounded_int dividend d in
  let n := if (needs_rounding : bool) then
      transformi (AddI n (transformi (URShiftI (transformi (RShiftI n (intcon (32 - 1)))) (intcon (32 - l)))))
    else n in
  evali r (RShiftI n (intcon l)) = Z.quot (evali r dividend) d.
Proof.
  intros Hd Hl Hx. pose proof (unrounded_int_ok dividend d l Hd Hl Hx) as Hun.
  destruct (unrounded_int dividend d) as [n needs_rounding]. destruct needs_rounding.
  - subst n. ev. set (x := evali r dividend) in *.
    rewrite !land_31, sign_shift, sign_bits by (done || lia).
    rewrite Z.shiftr_div_pow2, <- Hd by lia.
    pose proof (Z.pow_le_mono_r 2 l 30 ltac:(lia) ltac:(lia)).
    rewrite (quot_floor x) by (rewrite Hd; apply Z.pow_pos_nonneg; lia).
    rewrite wraps_id; [done|lia|]. unfold is_s in *. pow2_norm. case_match; lia.
  - ev. rewrite land_31, Z.shiftr_div_pow2, <- Hd by lia. done.
Qed.

(** The multiplication: the high half of the product, adjusted and shifted. *)
Lemma magic_int dividend d p M :
  magic_number 32 d p M -> is_s 32 (evali r dividend) ->
  let magic_const := s32 M in let shift_const := p - 32 in
  let mul_hi := transforml (MulL (transforml (ConvI2L dividend)) (longcon magic_const)) in
  evali r (if magic_const <? 0 then
    let mul_hi := transformi (ConvL2I (transforml (RShiftL mul_hi (intcon 32)))) in
    let mul_hi := transformi (AddI dividend mul_hi) in
    if negb (shift_const =? 0) then transformi (RShiftI mul_hi (intcon shift_const)) else mul_hi
   else transformi (ConvL2I (transforml (RShiftL mul_hi (intcon (32 + shift_const))))))
  = M * evali r dividend / 2 ^ p.
Proof.
  intros [Hp HM _ _] Hx. cbv zeta. set (x := evali r dividend) in *.
  assert (Hpow : 2 ^ 32 <= 2 ^ p) by (apply Z.pow_le_mono_r; lia).
  assert (Hfull : is_s 32 (x * M / 2 ^ p)) by (apply div_pow2_range; lia || done).
  assert (Hhalf : is_s 32 (x * M / 2 ^ 32)) by (apply div_pow2_range; lia || done).
  assert (Hs : s32 M = if M <? 2 ^ 31 then M else M - 2 ^ 32).
  { unfold wraps. by rewrite Z.mod_small by lia. }
  rewrite Hs, (Z.mul_comm M). unfold is_s in Hx. destruct (Z.ltb_spec M (2 ^ 31)).
  - rewrite (proj2 (Z.ltb_ge M 0)) by lia. ev. fold x.
    replace (32 + (p - 32)) with p by lia. rewrite land_63, Z.shiftr_div_pow2 by lia.
    rewrite (wraps_id 64) by (done || unfold is_s; pow2_norm; nia). by rewrite wraps_id.
  - rewrite (proj2 (Z.ltb_lt (M - 2 ^ 32) 0)) by lia.
    assert (Hsum : evali r (transformi (AddI dividend (transformi (ConvL2I (transforml (RShiftL
      (transforml (MulL (transforml (ConvI2L dividend)) (longcon (M - 2 ^ 32)))) (intcon 32)))))))
      = x * M / 2 ^ 32).
    { ev. fold x. rewrite land_63, Z.shiftr_div_pow2 by lia.
      rewrite (wraps_id 64) by (done || unfold is_s; pow2_norm; nia).
      rewrite wraps_add_r, mulhi_adjusted by lia. by rewrite wraps_id. }
    destruct (Z.eqb_spec (p - 32) 0) as [E|]; cbn [negb].
    + rewrite Hsum. by replace p with 32 by lia.
    + rewrite transformi_ok. cbn [evali]. rewrite Hsum. cbn [evali intcon].
      rewrite land_31, Z.shiftr_div_pow2, Z.div_div by lia. f_equal.
      rewrite <- Z.pow_add_r by lia. f_equal. lia.
Qed.

(** The absolute value of the divisor. *)
Lemma abs_divisor w divisor :
  0 < w -> is_s w divisor -> divisor <> - 2 ^ (w - 1) -> divisor <> 0 ->
  let d := if divisor >=? 0 then divisor else wraps w (- divisor) in
  d = (if divisor >=? 0 then divisor else - divisor) /\ 1 <= d < 2 ^ (w - 1).
Proof.
  intros Hw Hd Hmin H0 d. unfold d. rewrite Z.geb_leb. unfold is_s in Hd.
  destruct (Z.leb_spec 0 divisor); [lia|]. rewrite wraps_id by (unfold is_s; lia). lia.
Qed.

Lemma transform_int_divide_ok dividend divisor :
  is_s 32 (evali r dividend) -> is_s 32 divisor -> divisor <> 0 -> divisor <> min_jint ->
  exists o, transform_int_divide dividend divisor = Some o /\
    match o with
    | Some n => evali r n = java_idiv (evali r dividend) divisor
    | None => divisor = 1
    end.
Proof.
  intros Hx Hdiv H0 Hmin. unfold transform_int_divide, java_idiv.
  rewrite (proj2 (Z.eqb_neq _ _) H0), (proj2 (Z.eqb_neq _ _) Hmin). cbn [negb andb].
  destruct (abs_divisor 32 divisor ltac:(lia) Hdiv Hmin H0) as [Hd Hr].
  set (d := if divisor >=? 0 then divisor else s32 (- divisor)) in *.
  rewrite (signed_quot (evali r dividend) divisor d Hd).
  destruct (Z.eqb_spec d 1) as [E|Hne].
  { destruct (divisor >=? 0) eqn:Es; cbn [negb].
    - exists None. split; [done|]. lia.
    - eexists. split; [done|]. ev. rewrite E, Z.quot_1_r. done. }
  pose proof (quot_range 32 (evali r dividend) d ltac:(lia) Hx ltac:(lia)) as Hq.
  destruct (is_power_of_2 d) eqn:Epow.
  - apply is_power_of_2_iff in Epow; [|revert Hr; pow2_norm; lia].
    assert (Hl : 0 < Z.log2 d < 31).
    { split; [apply Z.log2_pos; lia|apply Z.log2_lt_pow2; lia || done]. }
    assert (Hlog : log2_intptr (d - 1) + 1 = Z.log2 d)
      by (rewrite Epow at 1; apply log2_pred_pow; lia).
    rewrite Hlog.
    pose proof (power_of_2_int dividend d (Z.log2 d) Epow Hl Hx) as Hp.
    destruct (unrounded_int dividend d) as [n rounding]. eexists. split; [done|].
    destruct (divisor >=? 0); cbn [negb].
    + rewrite Hp. symmetry. by apply wraps_id.
    + cbn [evali]. rewrite transformi_ok, Hp. done.
  - destruct (magic_constants_ok 32 d) as (p & M & Hm & Hmn); [lia|lia|].
    unfold magic_int_divide_constants. rewrite Hm. cbn [mbind option_bind].
    pose proof (magic_int dividend d p M Hmn Hx) as Hq'.
    pose proof (magic_quotient 32 d p M ltac:(lia) ltac:(lia) Hmn (evali r dividend) Hx) as Hmq.
    assert (Hsign : evali r (transformi (RShiftI dividend (intcon (32 - 1)))) =
      if evali r dividend <? 0 then -1 else 0).
    { ev. rewrite land_31 by lia. by apply sign_shift. }
    cbv zeta in Hq' |- *. set (mul_hi := if s32 M <? 0 then _ else _) in *.
    eexists. split; [done|]. destruct (divisor >=? 0); cbn [negb evali]; rewrite Hq', Hsign; f_equal;
      rewrite Hmq; case_match; lia.
Qed.

(** *** Long division *)

(** The high half of a product from those of the halves. *)
Lemma mulhi_parts K u1 u0 v1 v0 :
  0 < K -> let t2 := u1 * v0 + u0 * v0 / K in
  (u1 * K + u0) * (v1 * K + v0) / (K * K) =
  t2 / K + u1 * v1 + (t2 mod K + u0 * v1) / K.
Proof.
  intros HK t2. rewrite <- Z.div_div by lia.
  replace ((u1 * K + u0) * (v1 * K + v0)) with
    (u0 * v0 + (u1 * v1 * K + u1 * v0 + u0 * v1) * K) by ring.
  rewrite Z.div_add by lia.
  replace (u0 * v0 / K + (u1 * v1 * K + u1 * v0 + u0 * v1)) with
    (t2 + u0 * v1 + u1 * v1 * K) by (unfold t2; ring).
  rewrite Z.div_add by lia. pose proof (Z.div_mod t2 K ltac:(lia)) as E.
  replace (t2 + u0 * v1) with (t2 mod K + u0 * v1 + t2 / K * K) by lia.
  rewrite Z.div_add by lia. ring.
Qed.

Lemma long_by_long_mulhi_ok dividend c :
  is_s 64 (evall r dividend) -> is_s 64 c ->
  evall r (long_by_long_mulhi dividend c) = evall r dividend * c / 2 ^ 64.
Proof.
  intros Hx Hc. unfold long_by_long_mulhi. destruct has_MulHiL.
  { ev. by rewrite Z.shiftr_div_pow2 by lia. }
  cbv zeta. ev. change (64 / 2) with 32. set (x := evall r dividend) in *.
  rewrite !land_63 by lia. change 0xFFFFFFFF with (2 ^ 32 - 1).
  rewrite !land_ones_mod, !Z.shiftr_div_pow2 by lia.
  unfold is_s in Hx, Hc. change (2 ^ (64 - 1)) with (2 ^ 31 * 2 ^ 32) in Hx, Hc.
  pose proof (Z.div_mod x (2 ^ 32) ltac:(lia)) as Hu. pose proof (Z.div_mod c (2 ^ 32) ltac:(lia)) as Hv.
  assert (Hu1 : - 2 ^ 31 <= x / 2 ^ 32 < 2 ^ 31)
    by (split; [apply Z.div_le_lower_bound|apply Z.div_lt_upper_bound]; lia).
  assert (Hv1 : - 2 ^ 31 <= c / 2 ^ 32 < 2 ^ 31)
    by (split; [apply Z.div_le_lower_bound|apply Z.div_lt_upper_bound]; lia).
  pose proof (Z.mod_pos_bound x (2 ^ 32) ltac:(lia)) as Hu0.
  pose proof (Z.mod_pos_bound c (2 ^ 32) ltac:(lia)) as Hv0.
  set (u1 := x / 2 ^ 32) in *. set (u0 := x mod 2 ^ 32) in *.
  set (v1 := c / 2 ^ 32) in *. set (v0 := c mod 2 ^ 32) in *.
  replace (x * c) with ((u1 * 2 ^ 32 + u0) * (v1 * 2 ^ 32 + v0)) by (rewrite Hu, Hv; ring).
  change (2 ^ 64) with (2 ^ 32 * 2 ^ 32). rewrite mulhi_parts by lia. cbv zeta.
  clearbody u1 u0 v1 v0. clear x Hx Hc Hu Hv c.
  assert (H00 : 0 <= u0 * v0 <= (2 ^ 32 - 1) * (2 ^ 32 - 1)) by nia.
  assert (H10 : - 2 ^ 31 * (2 ^ 32 - 1) <= u1 * v0 <= (2 ^ 31 - 1) * (2 ^ 32 - 1)) by nia.
  assert (H01 : - 2 ^ 31 * (2 ^ 32 - 1) <= u0 * v1 <= (2 ^ 31 - 1) * (2 ^ 32 - 1)) by nia.
  assert (H11 : - 2 ^ 62 <= u1 * v1 <= 2 ^ 62) by nia.
  assert (Hlo : 0 <= u0 * v0 / 2 ^ 32 <= 2 ^ 32 - 2)
    by (split; [apply Z.div_pos|apply Z.lt_succ_r, Z.div_lt_upper_bound]; lia).
  replace (u64 (s64 (u0 * v0))) with (u0 * v0)
    by (rewrite wrapu_wraps, wrapu_id by (unfold is_u; lia); done).
  rewrite (wraps_id 64 (u1 * v0)), (wraps_id 64 (u0 * v1)), (wraps_id 64 (u1 * v1)),
    (wraps_id 64 (u0 * v0 / 2 ^ 32)) by (unfold is_s; lia).
  set (t2 := u1 * v0 + u0 * v0 / 2 ^ 32).
  rewrite (wraps_id 64 t2) by (unfold is_s, t2; lia).
  pose proof (Z.mod_pos_bound t2 (2 ^ 32) ltac:(lia)).
  assert (- 2 ^ 31 <= t2 / 2 ^ 32 < 2 ^ 31) by
    (split; [apply Z.div_le_lower_bound|apply Z.div_lt_upper_bound]; unfold t2; lia).
  rewrite (wraps_id 64 (t2 mod 2 ^ 32 + u0 * v1)) by (unfold is_s; lia).
  assert (- 2 ^ 31 <= (t2 mod 2 ^ 32 + u0 * v1) / 2 ^ 32 < 2 ^ 31) by
    (split; [apply Z.div_le_lower_bound|apply Z.div_lt_upper_bound]; lia).
  rewrite (wraps_id 64 (_ + u1 * v1)) by (unfold is_s; lia).
  rewrite wraps_id by (unfold is_s; lia). done.
Qed.

Lemma unrounded_long_ok dividend d l :
  d = 2 ^ l -> 0 < l < 63 ->
  let '(n, rounding) := unrounded_long dividend d in
  if (rounding : bool) then n = dividend
  else Z.quot (evall r dividend) d = evall r n / d.
Proof.
  intros -> Hl. pose proof (Z.pow_le_mono_r 2 l 62 ltac:(lia) ltac:(lia)).
  assert (0 < 2 ^ l) by (apply Z.pow_pos_nonneg; lia).
  unfold unrounded_long. set (by_mask := match dividend with AndL a b => _ | _ => _ end).
  assert (Hmask : let '(n, rounding) := by_mask in if (rounding : bool) then n = dividend
    else Z.quot (evall r dividend) (2 ^ l) = evall r n / 2 ^ l).
  { unfold by_mask. destruct dividend as [| | | | | |a b| | | | | |]; try done.
    destruct (typel_ok b) as [_ Hb]. destruct (typel b) as [| | |lo hi w| | | | | | | | | | |]; try done.
    unfold TypeLong.is_con_of. destruct (_ && _) eqn:E; [|done].
    apply andb_true_iff in E as [E1%Z.eqb_eq E2%Z.eqb_eq].
    rewrite wraps_id in E2 by (done || (unfold is_s; pow2_norm; lia)).
    destruct Hb as [|Hb]; [done|]. cbn in Hb. cbn [evall]. replace (evall r b) with (- 2 ^ l) by lia.
    apply quot_masked. lia. }
  destruct (typel_ok dividend) as [_ Ht].
  destruct (typel dividend) as [| | |lo hi w| | | | | | | | | | |]; try done.
  destruct (lo >? 0) eqn:E; [|done]. destruct Ht as [|Ht]; [done|]. cbn in Ht.
  apply Z.quot_div_nonneg; lia.
Qed.

Lemma power_of_2_long dividend d l :
  d = 2 ^ l -> 0 < l < 63 -> is_s 64 (evall r dividend) ->
  let '(n, needs_rounding) := unrounded_long dividend d in
  let n := if (needs_rounding : bool) then
      transforml (AddL n (transforml (URShiftL (transforml (RShiftL n (intcon (64 - 1)))) (intcon (64 - l)))))
    else n in
  evall r (RShiftL n (intcon l)) = Z.quot (evall r dividend) d.
Proof.
  intros Hd Hl Hx. pose proof (unrounded_long_ok dividend d l Hd Hl) as Hun.
  destruct (unrounded_long dividend d) as [n needs_rounding]. destruct needs_rounding.
  - subst n. ev. set (x := evall r dividend) in *.
    rewrite !land_63, sign_shift, sign_bits by (done || lia).
    rewrite Z.shiftr_div_pow2, <- Hd by lia.
    pose proof (Z.pow_le_mono_r 2 l 62 ltac:(lia) ltac:(lia)).
    rewrite (quot_floor x) by (rewrite Hd; apply Z.pow_pos_nonneg; lia).
    rewrite wraps_id; [done|lia|]. unfold is_s in *. pow2_norm. case_match; lia.
  - ev. rewrite land_63, Z.shiftr_div_pow2, <- Hd by lia. done.
Qed.

Lemma magic_long dividend d p M :
  magic_number 64 d p M -> is_s 64 (evall r dividend) ->
  let magic_const := s64 M in let shift_const := p - 64 in
  let mul_hi := transforml (long_by_long_mulhi dividend magic_const) in
  let mul_hi := if magic_const <? 0 then transforml (AddL dividend mul_hi) else mul_hi in
  evall r (if negb (shift_const =? 0) then transforml (RShiftL mul_hi (intcon shift_const)) else mul_hi)
  = M * evall r dividend / 2 ^ p.
Proof.
  intros [Hp HM _ _] Hx. cbv zeta.
  set (mul_hi := if s64 M <? 0 then _ else _).
  assert (Hmul : evall r mul_hi = evall r dividend * M / 2 ^ 64).
  { assert (Hhalf : is_s 64 (evall r dividend * M / 2 ^ 64)) by (apply div_pow2_range; lia || done).
    assert (Hs : s64 M = if M <? 2 ^ 63 then M else M - 2 ^ 64).
    { unfold wraps. by rewrite Z.mod_small by lia. }
    unfold mul_hi. rewrite Hs. destruct (Z.ltb_spec M (2 ^ 63)).
    - rewrite (proj2 (Z.ltb_ge M 0)) by lia.
      rewrite transforml_ok, long_by_long_mulhi_ok; [done..|unfold is_s; lia].
    - rewrite (proj2 (Z.ltb_lt (M - 2 ^ 64) 0)) by lia. ev.
      rewrite long_by_long_mulhi_ok, mulhi_adjusted; [|lia|done|unfold is_s; lia].
      by rewrite wraps_id. }
  rewrite (Z.mul_comm M). destruct (Z.eqb_spec (p - 64) 0) as [E|]; cbn [negb].
  - rewrite Hmul. by replace p with 64 by lia.
  - ev. rewrite Hmul, land_63, Z.shiftr_div_pow2, Z.div_div by lia. f_equal.
    rewrite <- Z.pow_add_r by lia. f_equal. lia.
Qed.

Lemma transform_long_divide_ok dividend divisor :
  is_s 64 (evall r dividend) -> is_s 64 divisor -> divisor <> 0 -> divisor <> min_jlong ->
  exists o, transform_long_divide dividend divisor = Some o /\
    match o with
    | Some n => evall r n = java_ldiv (evall r dividend) divisor
    | None => divisor = 1
    end.
Proof.
  intros Hx Hdiv H0 Hmin. unfold transform_long_divide, java_ldiv.
  rewrite (proj2 (Z.eqb_neq _ _) H0), (proj2 (Z.eqb_neq _ _) Hmin). cbn [negb andb].
  destruct (abs_divisor 64 divisor ltac:(lia) Hdiv Hmin H0) as [Hd Hr].
  set (d := if divisor >=? 0 then divisor else s64 (- divisor)) in *.
  rewrite (signed_quot (evall r dividend) divisor d Hd).
  destruct (Z.eqb_spec d 1) as [E|Hne].
  { destruct (divisor >=? 0) eqn:Es; cbn [negb].
    - exists None. split; [done|]. lia.
    - eexists. split; [done|]. ev. rewrite E, Z.quot_1_r. done. }
  pose proof (quot_range 64 (evall r dividend) d ltac:(lia) Hx ltac:(lia)) as Hq.
  rewrite is_power_of_2_long_eq. destruct (is_power_of_2 d) eqn:Epow.
  - apply is_power_of_2_iff in Epow; [|revert Hr; pow2_norm; lia].
    assert (Hl : 0 < Z.log2 d < 63).
    { split; [apply Z.log2_pos; lia|apply Z.log2_lt_pow2; lia || done]. }
    assert (Hlog : log2_long (d - 1) + 1 = Z.log2 d)
      by (rewrite log2_long_eq, Epow at 1; apply log2_pred_pow; lia).
    rewrite Hlog.
    pose proof (power_of_2_long dividend d (Z.log2 d) Epow Hl Hx) as Hp.
    destruct (unrounded_long dividend d) as [n rounding]. eexists. split; [done|].
    destruct (divisor >=? 0); cbn [negb].
    + rewrite Hp. symmetry. by apply wraps_id.
    + cbn [evall]. rewrite transforml_ok, Hp. done.
  - destruct (magic_constants_ok 64 d) as (p & M & Hm & Hmn); [lia|lia|].
    unfold magic_long_divide_constants. rewrite Hm. cbn [mbind option_bind].
    pose proof (magic_long dividend d p M Hmn Hx) as Hq'.
    pose proof (magic_quotient 64 d p M ltac:(lia) ltac:(lia) Hmn (evall r dividend) Hx) as Hmq.
    assert (Hsign : evall r (transforml (RShiftL dividend (intcon (64 - 1)))) =
      if evall r dividend <? 0 then -1 else 0).
    { ev. rewrite land_63 by lia. by apply sign_shift. }
    cbv zeta in Hq' |- *. set (mul_hi := if negb (p - 64 =? 0) then _ else _) in *.
    eexists. split; [done|]. destruct (divisor >=? 0); cbn [negb evall]; rewrite Hq', Hsign; f_equal;
      rewrite Hmq; case_match; lia.
Qed.

(** *** [Ideal] of the divisions *)

Lemma div_int_ideal in0 in1 in2 :
  is_s 32 (evali r in1) ->
  exists c o, DivI_Ideal in0 in1 in2 = Some (c, o) /\
    control_ok in0 c (VInt 0) (typei in2) /\
    computes (evali r) (java_idiv (evali r in1) (evali r in2)) o.
Proof.
  intros Hx. unfold DivI_Ideal.
  destruct (_ && _); [unchanged|].
  destruct (_ && _); [unchanged|].
  destruct (decide _); [unchanged|].
  destruct (typei in2) as [| |lo hi w| | | | | | | | | | | |] eqn:Ht;
    try unchanged.
  destruct (TypeInt.is_con lo hi) eqn:Ec; cbn [negb]; [|unchanged].
  destruct (con_int in2 lo hi w Ht Ec) as [Hlo ->]. apply Z.eqb_eq in Ec as <-.
  destruct (Z.eqb_spec lo 0); [unchanged|].
  destruct (Z.eqb_spec lo min_jint); [by exists NoControl, NoChange; split_and!; [|right; cbn; split; [|lia]|]|].
  destruct (transform_int_divide_ok in1 lo) as (o & -> & Ho); [done..|].
  cbn [mbind option_bind]. eexists NoControl, _. split_and!; [done|right; cbn; split; [done|lia]|].
  intros n'. destruct o as [m|]; [|done]. by intros [= <-].
Qed.

Lemma div_long_ideal in0 in1 in2 :
  is_s 64 (evall r in1) ->
  exists c o, DivL_Ideal in0 in1 in2 = Some (c, o) /\
    control_ok in0 c (VLong 0) (typel in2) /\
    computes (evall r) (java_ldiv (evall r in1) (evall r in2)) o.
Proof.
  intros Hx. unfold DivL_Ideal.
  destruct (_ && _); [unchanged|].
  destruct (_ && _); [unchanged|].
  destruct (decide _); [unchanged|].
  destruct (typel in2) as [| | |lo hi w| | | | | | | | | | |] eqn:Ht;
    try unchanged.
  destruct (TypeLong.is_con lo hi) eqn:Ec; cbn [negb]; [|unchanged].
  destruct (con_long in2 lo hi w Ht Ec) as [Hlo ->]. apply Z.eqb_eq in Ec as <-.
  destruct (Z.eqb_spec lo 0); [unchanged|].
  destruct (Z.eqb_spec lo min_jlong); [by exists NoControl, NoChange; split_and!; [|right; cbn; split; [|lia]|]|].
  destruct (transform_long_divide_ok in1 lo) as (o & -> & Ho); [done..|].
  cbn [mbind option_bind]. eexists NoControl, _. split_and!; [done|right; cbn; split; [done|lia]|].
  intros n'. destruct o as [m|]; [|done]. by intros [= <-].
Qed.

(** *** [Identity] *)

Lemma higher_equal_sound t u v :
  wf t -> wf u -> exists b, higher_equal t u = Some b /\ (b = true -> has_type v t -> has_type v u).
Proof.
  intros Ht Hu. unfold higher_equal. rewrite meet_glb by (by apply wf_data).
  eexists. split; [done|]. intros E%bool_decide_eq_true Hv. rewrite <- E. by apply has_type_glb.
Qed.

Lemma div_int_identity in1 in2 :
  is_s 32 (evali r in1) -> typei in2 <> Top ->
  exists o, DivI_Identity in1 in2 = Some o /\
    forall n, o = Some n -> evali r n = java_idiv (evali r in1) (evali r in2).
Proof.
  intros Hx Ht. destruct (typei_ok in2) as [Hwf [|Hv]]; [done|].
  destruct (higher_equal_sound (typei in2) TypeInt.ONE (VInt (evali r in2)) Hwf) as (b & Hb & Hone).
  { by split_and!. }
  unfold DivI_Identity. rewrite Hb. eexists. split; [done|]. intros n. destruct b; [|done].
  intros [= <-]. specialize (Hone eq_refl Hv). cbn in Hone. replace (evali r in2) with 1 by lia.
  unfold java_idiv. rewrite Z.quot_1_r. symmetry. by apply wraps_id.
Qed.

Lemma div_long_identity in1 in2 :
  is_s 64 (evall r in1) -> typel in2 <> Top ->
  exists o, DivL_Identity in1 in2 = Some o /\
    forall n, o = Some n -> evall r n = java_ldiv (evall r in1) (evall r in2).
Proof.
  intros Hx Ht. destruct (typel_ok in2) as [Hwf [|Hv]]; [done|].
  destruct (higher_equal_sound (typel in2) TypeLong.ONE (VLong (evall r in2)) Hwf) as (b & Hb & Hone).
  { by split_and!. }
  unfold DivL_Identity. rewrite Hb. eexists. split; [done|]. intros n. destruct b; [|done].
  intros [= <-]. specialize (Hone eq_refl Hv). cbn in Hone. replace (evall r in2) with 1 by lia.
  unfold java_ldiv. rewrite Z.quot_1_r. symmetry. by apply wraps_id.
Qed.

(** *** Remainders *)

(** A remainder is the dividend without the multiple of the quotient. *)
Lemma rem_from_quot w x d :
  0 < w -> is_s w x -> 0 < d -> wraps w (x - wraps w (Z.quot x d * d)) = Z.rem x d.
Proof.
  intros Hw Hx Hd. pose proof (Z.quot_rem' x d) as E.
  assert (Hr : 0 <= x -> 0 <= Z.rem x d <= x).
  { intros. pose proof (Z.rem_bound_pos x d). pose proof (Z.quot_pos x d). nia. }
  assert (Hl : x <= 0 -> x <= Z.rem x d <= 0).
  { intros. pose proof (Z.rem_bound_pos (- x) d). pose proof (Z.quot_pos (- x) d).
    rewrite Z.rem_opp_l, Z.quot_opp_l in * by lia. nia. }
  unfold is_s in Hx. rewrite (wraps_id w (Z.quot x d * d)) by (unfold is_s; lia).
  replace (x - Z.quot x d * d) with (Z.rem x d) by lia. apply wraps_id; [done|]. unfold is_s. lia.
Qed.

(** The sign of the divisor does not matter to a remainder. *)
Lemma rem_abs x con d :
  d = (if con >=? 0 then con else - con) -> Z.rem x con = Z.rem x d.
Proof. intros ->. destruct (con >=? 0); [done|]. by rewrite Z.rem_opp_r'. Qed.

Lemma divided_int_ok in1 d l :
  is_s 32 (evali r in1) -> 2 <= d < 2 ^ 31 -> l < 0 \/ (0 <= l < 31 /\ d = 2 ^ l) ->
  exists o, divided_int in1 d l = Some o /\ computes (evali r) (Z.rem (evali r in1) d) o.
Proof.
  intros Hx Hd Hl. unfold divided_int.
  destruct (transform_int_divide_ok in1 d) as (o & -> & Ho);
    [done|unfold is_s; lia|lia|unfold min_jint; lia|].
  cbn [mbind option_bind]. destruct o as [n|]; [|lia]. eexists. split; [done|]. intros m [= <-].
  rewrite <- (rem_from_quot 32) by (done || lia). rewrite Z.geb_leb.
  unfold java_idiv in Ho. rewrite wraps_id in Ho by (lia || (apply quot_range; done || lia)).
  destruct Hl as [Hl|[Hl Hp]].
  - rewrite (proj2 (Z.leb_gt 0 l)) by lia. ev. by rewrite Ho.
  - rewrite (proj2 (Z.leb_le 0 l)) by lia. ev. rewrite Ho, land_31, Z.shiftl_mul_pow2, <- Hp by lia. done.
Qed.

Lemma divided_long_ok in1 d l :
  is_s 64 (evall r in1) -> 2 <= d < 2 ^ 63 -> l < 0 \/ (0 <= l < 63 /\ d = 2 ^ l) ->
  exists o, divided_long in1 d l = Some o /\ computes (evall r) (Z.rem (evall r in1) d) o.
Proof.
  intros Hx Hd Hl. unfold divided_long.
  destruct (transform_long_divide_ok in1 d) as (o & -> & Ho);
    [done|unfold is_s; lia|lia|unfold min_jlong; lia|].
  cbn [mbind option_bind]. destruct o as [n|]; [|lia]. eexists. split; [done|]. intros m [= <-].
  rewrite <- (rem_from_quot 64) by (done || lia). rewrite Z.geb_leb.
  unfold java_ldiv in Ho. rewrite wraps_id in Ho by (lia || (apply quot_range; done || lia)).
  destruct Hl as [Hl|[Hl Hp]].
  - rewrite (proj2 (Z.leb_gt 0 l)) by lia. ev. by rewrite Ho.
  - rewrite (proj2 (Z.leb_le 0 l)) by lia. ev. rewrite Ho, land_63, Z.shiftl_mul_pow2, <- Hp by lia. done.
Qed.

(** The logarithm of a positive number that fits. *)
Lemma log2_intptr_pos d : 0 < d < 2 ^ 63 -> log2_intptr d = Z.log2 d.
Proof.
  intros Hd. rewrite log2_intptr_spec by (unfold is_s; lia). by rewrite decide_True by lia.
Qed.

(** A remainder by a power of two of a number that is not negative. *)
Lemma rem_mask x d : 0 <= x -> d = 2 ^ Z.log2 d -> 0 < d -> x &&& (d - 1) = Z.rem x d.
Proof.
  intros Hx Hp Hd. rewrite Z.rem_mod_nonneg by lia. rewrite Hp at 1 2.
  apply land_ones_mod. apply Z.log2_nonneg.
Qed.

Lemma mod_by_divide_int_ok in1 con :
  is_s 32 (evali r in1) -> is_s 32 con ->
  exists o, mod_by_divide_int in1 con = Some o /\
    computes (evali r) (java_rem (evali r in1) con) o.
Proof.
  intros Hx Hc. unfold mod_by_divide_int, java_rem.
  destruct (Z.eqb_spec con 0) as [|H0]; [by eexists|].
  destruct (Z.eqb_spec con min_jint) as [|Hmin]; [by eexists|]. cbn [orb].
  destruct (abs_divisor 32 con ltac:(lia) Hc Hmin H0) as [Hd Hr].
  set (d := if con >=? 0 then con else s32 (- con)) in *. rewrite (rem_abs _ con d Hd).
  destruct (Z.eqb_spec d 1) as [E|Hne].
  { eexists. split; [done|]. intros n [= <-]. rewrite E, Z.rem_1_r. done. }
  destruct (is_power_of_2 d) eqn:Epow; [|apply divided_int_ok; done || lia].
  apply is_power_of_2_iff in Epow; [|revert Hr; pow2_norm; lia].
  assert (Hl : 0 <= Z.log2 d < 31) by (split; [apply Z.log2_nonneg|apply Z.log2_lt_pow2; lia || done]).
  rewrite log2_intptr_pos by (revert Hr; pow2_norm; lia).
  pose proof (divided_int_ok in1 d (Z.log2 d) Hx ltac:(lia) (or_intror (conj Hl Epow))) as Hdiv.
  destruct (typei_ok in1) as [_ Ht].
  destruct (typei in1) as [| |lo hi w| | | | | | | | | | | |]; try done.
  destruct (lo >=? 0) eqn:E; [|done]. destruct Ht as [|Ht]; [done|]. cbn in Ht.
  eexists. split; [done|]. intros n [= <-]. ev. apply rem_mask; done || lia.
Qed.

Lemma mod_by_divide_long_ok in1 con :
  is_s 64 (evall r in1) -> is_s 64 con ->
  exists o, mod_by_divide_long in1 con = Some o /\
    computes (evall r) (java_rem (evall r in1) con) o.
Proof.
  intros Hx Hc. unfold mod_by_divide_long, java_rem.
  destruct (Z.eqb_spec con 0) as [|H0]; [by eexists|].
  destruct (Z.eqb_spec con min_jlong) as [|Hmin]; [by eexists|]. cbn [orb].
  destruct (abs_divisor 64 con ltac:(lia) Hc Hmin H0) as [Hd Hr].
  set (d := if con >=? 0 then con else s64 (- con)) in *. rewrite (rem_abs _ con d Hd).
  destruct (Z.eqb_spec d 1) as [E|Hne].
  { eexists. split; [done|]. intros n [= <-]. rewrite E, Z.rem_1_r. done. }
  rewrite is_power_of_2_long_eq, log2_long_eq.
  destruct (is_power_of_2 d) eqn:Epow; [|apply divided_long_ok; done || lia].
  apply is_power_of_2_iff in Epow; [|revert Hr; pow2_norm; lia].
  assert (Hl : 0 <= Z.log2 d < 63) by (split; [apply Z.log2_nonneg|apply Z.log2_lt_pow2; lia || done]).
  rewrite log2_intptr_pos by (revert Hr; pow2_norm; lia).
  pose proof (divided_long_ok in1 d (Z.log2 d) Hx ltac:(lia) (or_intror (conj Hl Epow))) as Hdiv.
  destruct (typel_ok in1) as [_ Ht].
  destruct (typel in1) as [| | |lo hi w| | | | | | | | | | |]; try done.
  destruct (lo >=? 0) eqn:E; [|done]. destruct Ht as [|Ht]; [done|]. cbn in Ht.
  eexists. split; [done|]. intros n [= <-]. ev. apply rem_mask; done || lia.
Qed.

Lemma reduce_int_ok trips x divisor k :
  6 <= k <= 30 -> evali r divisor = 2 ^ k - 1 -> is_s 32 (evali r x) ->
  evali r (reduce_int trips x divisor k) = Nat.iter trips (add_digits k) (evali r x).
Proof.
  intros Hk Hdiv. revert x. induction trips as [|trips IH]; intros x Hx; [done|].
  rewrite Nat.iter_succ_r. cbn [reduce_int]. set (sum := transformi (AddI _ _)).
  assert (E : evali r sum = add_digits k (evali r x)).
  { unfold sum, add_digits. ev.
    rewrite Hdiv, land_ones_mod, land_31, Z.shiftr_div_pow2 by lia.
    apply wraps_id; [lia|]. unfold is_s in *. pow2_norm.
    pose proof (Z.mod_pos_bound (evali r x) (2 ^ k)).
    pose proof (Z.pow_le_mono_r 2 6 k). pose proof (Z.pow_le_mono_r 2 k 30). pow2_norm.
    assert (- 2 ^ 30 <= evali r x / 2 ^ k < 2 ^ 30) by
      (split; [apply Z.div_le_lower_bound|apply Z.div_lt_upper_bound]; pow2_norm; nia).
    pow2_norm. lia. }
  rewrite <- E. apply IH. unfold sum. rewrite transformi_ok. cbn [evali].
  apply wraps_range. lia.
Qed.

Lemma mod_power_minus_1 in1 divisor k :
  0 <= k <= 30 -> trip_count_int k <= 5 -> is_s 32 (evali r in1) -> evali r divisor = 2 ^ k - 1 ->
  evali r (sign_fixup_int in1 (reduce_int (Z.to_nat (trip_count_int k)) in1 divisor k) divisor) =
  Z.rem (evali r in1) (2 ^ k - 1).
Proof.
  intros Hk Ht Hx Hd. destruct (trips_enough k Hk Ht) as (Hk6 & Hup & Hlow).
  assert (64 <= 2 ^ k <= 2 ^ 30).
  { split; [apply (Z.pow_le_mono_r 2 6 k)|apply Z.pow_le_mono_r]; lia. }
  unfold sign_fixup_int. ev. rewrite Hd, (reduce_int_ok _ _ _ k) by (done || lia).
  set (t := Z.to_nat (trip_count_int k)) in *. set (x := evali r in1) in *.
  destruct (add_digits_congruent k t x ltac:(lia)) as [q Hq].
  pose proof (add_digits_upper k t x max_jint ltac:(lia)) as Hpos.
  pose proof (add_digits_lower k t x min_jint ltac:(lia)) as Hneg.
  set (y := Nat.iter t (add_digits k) x) in *. unfold is_s, min_jint in *.
  destruct (x >=? 0) eqn:Es.
  - specialize (Hpos ltac:(lia)). destruct (y >=? 2 ^ k - 1) eqn:E.
    + rewrite wraps_id by (unfold is_s; lia). apply (rem_unique_range _ _ (q - 1)); lia.
    + apply (rem_unique_range _ _ q); lia.
  - specialize (Hneg ltac:(lia) ltac:(lia)). destruct (y >=? 1) eqn:E.
    + rewrite wraps_id by (unfold is_s; lia). apply (rem_unique_range _ _ (q - 1)); lia.
    + apply (rem_unique_range _ _ q); lia.
Qed.

Lemma mod_int_ideal in0 in1 in2 :
  is_s 32 (evali r in1) ->
  exists c o, ModI_Ideal in0 in1 in2 = Some (c, o) /\
    control_ok in0 c (VInt 0) (typei in2) /\
    computes (evali r) (java_rem (evali r in1) (evali r in2)) o.
Proof.
  intros Hx. unfold ModI_Ideal.
  destruct (_ && _); [unchanged|]. destruct (_ && _); [unchanged|].
  destruct (typei_ok in2) as [_ Hok]. pose proof (typei_int in2) as Hb.
  destruct (typei in2) as [| |lo hi w| | | | | | | | | | | |] eqn:Ht;
    try (destruct Hok; done); [unchanged|].
  destruct (has_control in0 && _) eqn:Ehc.
  { exists NoControl, This. split_and!; [done|right; cbn; split; [done|lia]|done]. }
  destruct (TypeInt.is_con lo hi) eqn:Ec; cbn [negb]; [|unchanged].
  destruct (con_int in2 lo hi w Ht Ec) as [Hlo Hin2]. rewrite Hin2. clear Ec Hok Ehc.
  destruct (mod_by_divide_int_ok in1 lo Hx Hlo) as (o & -> & Ho). cbn [mbind option_bind].
  destruct (_ && is_power_of_2 (lo + 1)) eqn:E; [|exists in0, o; split_and!; [done|by left|done]].
  apply andb_true_iff in E as [E Epow]. unfold exact_log2. rewrite Epow. cbn [mbind option_bind].
  apply is_power_of_2_iff in Epow; [|unfold is_s in Hlo; pow2_norm; lia].
  rewrite log2_intptr_pos by (pow2_norm; lia). set (k := Z.log2 (lo + 1)) in *.
  destruct (_ && negb _) eqn:Et; [|exists in0, o; split_and!; [done|by left|done]].
  eexists in0, _. split_and!; [done|by left|]. intros n [= <-]. unfold java_rem.
  replace lo with (2 ^ k - 1) by lia. apply mod_power_minus_1; [|lia|done|lia].
  split; [apply Z.log2_nonneg|]. apply Z.lt_succ_r, Z.log2_lt_pow2; pow2_norm; lia.
Qed.

(** The constants whose remainders [ModLNode::Ideal] expands into a sum of digits. *)
Definition expands_mod_long (con : Z) : bool :=
  (con >=? 0) && (con <? max_jlong) && is_power_of_2_long (con + 1) &&
  (trip_count_long (log2_long con) <=? 5) && negb (ConditionalMoveLimit =? 0).

Lemma mod_long_ideal in0 in1 in2 :
  is_s 64 (evall r in1) -> expands_mod_long (evall r in2) = false ->
  exists c o, ModL_Ideal in0 in1 in2 = Some (c, o) /\
    control_ok in0 c (VLong 0) (typel in2) /\
    computes (evall r) (java_rem (evall r in1) (evall r in2)) o.
Proof.
  intros Hx Hno. unfold ModL_Ideal.
  destruct (_ && _); [unchanged|]. destruct (_ && _); [unchanged|].
  destruct (typel_ok in2) as [_ Hok]. pose proof (typel_long in2) as Hb.
  destruct (typel in2) as [| | |lo hi w| | | | | | | | | | |] eqn:Ht;
    try (destruct Hok; done); [unchanged|].
  destruct (has_control in0 && _) eqn:Ehc.
  { exists NoControl, This. split_and!; [done|right; cbn; split; [done|lia]|done]. }
  destruct (TypeLong.is_con lo hi) eqn:Ec; cbn [negb]; [|unchanged].
  destruct (con_long in2 lo hi w Ht Ec) as [Hlo Hin2]. rewrite Hin2 in *. clear Ec Hok Ehc.
  destruct (mod_by_divide_long_ok in1 lo Hx Hlo) as (o & -> & Ho). cbn [mbind option_bind].
  unfold expands_mod_long in Hno. destruct (_ && is_power_of_2_long _); cbn [andb] in Hno;
    [rewrite Hno|]; exists in0, o; split_and!; done || by left.
Qed.

(** *** The expansion of long remainders *)

Lemma trip_count_long_range k : 12 <= k <= 61 -> 1 <= trip_count_long k <= 5.
Proof.
  intros Hk.
  assert (H : forallb (fun k => (1 <=? trip_count_long k) && (trip_count_long k <=? 5)) (seqZ 12 50) = true)
    by reflexivity.
  rewrite forallb_forall in H. specialize (H k ltac:(apply list_elem_of_In, elem_of_seqZ; lia)).
  cbv beta in H. lia.
Qed.

(** With a digit one bit too short, every addition counts the top bit again. *)
Lemma reduce_long_drifts trips x divisor k :
  12 <= k <= 61 -> evall r divisor = 2 ^ (k + 1) - 1 ->
  2 ^ k <= evall r x -> evall r x + Z.of_nat trips < 2 ^ (k + 1) ->
  evall r (reduce_long trips x divisor k) = evall r x + Z.of_nat trips.
Proof.
  intros Hk Hdiv. revert x. induction trips as [|trips IH]; intros x Hl Hh; [cbn; lia|].
  cbn [reduce_long]. set (sum := transforml (AddL _ _)).
  assert (E : evall r sum = evall r x + 1).
  { unfold sum. ev. pose proof (pow2_half (k + 1) ltac:(lia)) as Hp.
    replace (k + 1 - 1) with k in Hp by lia. pose proof (Z.pow_pos_nonneg 2 k).
    rewrite Hdiv, land_ones_mod, land_63, Z.shiftr_div_pow2, Z.mod_small by lia.
    replace (evall r x / 2 ^ k) with 1 by (apply (Z.div_unique_pos _ _ _ (evall r x - 2 ^ k)); lia).
    pose proof (Z.pow_le_mono_r 2 (k + 1) 62 ltac:(lia) ltac:(lia)).
    rewrite wraps_id; [lia|lia|unfold is_s; pow2_norm; lia]. }
  rewrite IH by lia. lia.
Qed.

Lemma mod_long_expansion in1 in2 w K :
  13 <= K <= 62 -> ConditionalMoveLimit <> 0 ->
  typel in2 = Long (2 ^ K - 1) (2 ^ K - 1) w -> evall r in1 = 2 ^ (K - 1) ->
  exists n, ModL_Ideal NoControl in1 in2 = Some (NoControl, New n) /\
    evall r n = 2 ^ (K - 1) + trip_count_long (K - 1).
Proof.
  intros HK Hcm Ht Hx. unfold ModL_Ideal. cbn [has_control andb]. rewrite Ht.
  unfold TypeLong.is_con. rewrite Z.eqb_refl. cbn [negb].
  destruct (con_long in2 _ _ _ Ht (Z.eqb_refl _)) as [_ Hd].
  pose proof (pow2_half K ltac:(lia)) as Hp. pose proof (Z.pow_le_mono_r 2 13 K ltac:(lia) ltac:(lia)).
  pose proof (Z.pow_le_mono_r 2 K 62 ltac:(lia) ltac:(lia)). pow2_norm.
  rewrite is_power_of_2_long_eq, log2_long_eq. replace (2 ^ K - 1 + 1) with (2 ^ K) by lia.
  replace (is_power_of_2 (2 ^ K)) with true
    by (symmetry; apply is_power_of_2_iff; [pow2_norm; lia|by rewrite Z.log2_pow2 by lia]).
  replace (log2_intptr (2 ^ K - 1)) with (K - 1) by (pose proof (log2_pred_pow K); lia).
  pose proof (trip_count_long_range (K - 1) ltac:(lia)) as Htc.
  rewrite (proj2 (Z.leb_le _ _)), (proj2 (Z.eqb_neq _ _) Hcm) by lia.
  replace (2 ^ K - 1 >=? 0) with true by lia. replace (2 ^ K - 1 <? max_jlong) with true by (unfold max_jlong; lia).
  cbn [andb negb]. eexists. split; [done|]. unfold sign_fixup_long. ev.
  rewrite (reduce_long_drifts _ _ _ (K - 1)); rewrite ?Hx, ?Z2Nat.id; replace (K - 1 + 1) with K by lia; try lia.
  rewrite Hd. replace (2 ^ (K - 1) >=? 0) with true by lia.
  replace (_ >=? 2 ^ K - 1) with false by lia. done.
Qed.
End rewriting.

(** ** The types *)

(** A [Value] function of [w]-bit operands gives a well-formed type that covers the
    result of the operation. *)
Definition covers_result (w : Z) (val : Z -> value) (op : Z -> Z -> Z)
    (Value : IType -> IType -> bool -> option IType) : Prop :=
  forall t1 t2 eqv a b,
    wf t1 -> wf t2 -> is_s w a -> is_s w b -> b <> 0 ->
    has_type (val a) t1 -> has_type (val b) t2 -> (eqv = true -> a = b) ->
    exists t, Value t1 t2 eqv = Some t /\ wf t /\ has_type (val (op a b)) t.

Lemma quot_abs_le a b : b <> 0 -> Z.abs (Z.quot a b) <= Z.abs a.
Proof.
  intros Hb. rewrite <- Z.quot_abs by done. rewrite Z.quot_div_nonneg by lia.
  apply Z.div_le_upper_bound; nia.
Qed.

Lemma quot_abs_half a b : 2 <= Z.abs b -> Z.abs (Z.quot a b) <= Z.abs a / 2.
Proof.
  intros Hb. rewrite <- Z.quot_abs by lia. rewrite Z.quot_div_nonneg by lia.
  apply Z.div_le_compat_l; lia.
Qed.

(** Quotients keep the order for a positive divisor and reverse it for a negative. *)
Lemma quot_between w a lo hi d :
  0 < w -> is_s w a -> lo <= a <= hi -> 0 < d ->
  Z.quot lo d <= wraps w (Z.quot a d) <= Z.quot hi d.
Proof.
  intros Hw Ha Hr Hd. rewrite wraps_id; [|done|].
  - split; apply Z.quot_le_mono; lia.
  - unfold is_s in *. pose proof (quot_abs_le a d ltac:(lia)). pose proof (Z.pow_pos_nonneg 2 (w - 1)).
    destruct (Z.le_gt_cases 0 a); [pose proof (Z.quot_pos a d); lia|].
    pose proof (Z.quot_le_mono a 0 d Hd ltac:(lia)) as Hm. rewrite Z.quot_0_l in Hm; lia.
Qed.

Lemma quot_between_neg w a lo hi d :
  0 < w -> is_s w a -> is_s w lo -> lo <= a <= hi -> d < 0 -> (d <> -1 \/ lo <> - 2 ^ (w - 1)) ->
  Z.quot hi d <= wraps w (Z.quot a d) <= Z.quot lo d.
Proof.
  intros Hw Ha Hlo Hr Hd Hov. pose proof (Z.pow_pos_nonneg 2 (w - 1)).
  assert (Hneg : forall x, Z.quot x d = - Z.quot x (- d)) by (intros; rewrite Z.quot_opp_r by lia; lia).
  rewrite wraps_id; [|done|].
  - rewrite !Hneg. split; apply Z.opp_le_mono; rewrite !Z.opp_involutive; apply Z.quot_le_mono; lia.
  - unfold is_s in *. pose proof (quot_abs_le a d ltac:(lia)).
    destruct (Z.eq_dec d (-1)) as [->|]; [rewrite Hneg; change (- -1) with 1; rewrite Z.quot_1_r; lia|].
    pose proof (quot_abs_half a d ltac:(lia)).
    assert (Z.abs a / 2 < 2 ^ (w - 1)) by (apply Z.div_lt_upper_bound; lia). lia.
Qed.

Lemma int_div_ok w a b :
  0 < w -> is_s w a -> b <> 0 -> (b <> -1 \/ a <> - 2 ^ (w - 1)) ->
  int_div w a b = Some (Z.quot a b) /\ is_s w (Z.quot a b).
Proof.
  intros Hw Ha Hb Hov. unfold int_div, int_traps.
  replace ((b =? 0) || _) with false by lia. split; [done|]. unfold is_s in *.
  pose proof (Z.pow_pos_nonneg 2 (w - 1)). pose proof (quot_abs_le a b Hb).
  destruct (Z.eq_dec b (-1)) as [->|]; [|destruct (Z.eq_dec b 1) as [->|]].
  - change (-1) with (- (1)). rewrite Z.quot_opp_r, Z.quot_1_r by lia. lia.
  - rewrite Z.quot_1_r. lia.
  - pose proof (quot_abs_half a b ltac:(lia)).
    assert (Z.abs a / 2 < 2 ^ (w - 1)) by (apply Z.div_lt_upper_bound; lia). lia.
Qed.

Lemma rem_range w a b : 0 < w -> is_s w a -> b <> 0 -> is_s w (Z.rem a b) /\ (0 <= a -> 0 <= Z.rem a b).
Proof.
  intros Hw Ha Hb. unfold is_s in *. pose proof (Z.pow_pos_nonneg 2 (w - 1)).
  assert (Z.abs (Z.rem a b) <= Z.abs a).
  { rewrite <- Z.rem_abs by done. apply Z.rem_le; lia. }
  destruct (Z.le_gt_cases 0 a).
  - pose proof (Z.rem_nonneg a b Hb ltac:(lia)). lia.
  - pose proof (Z.rem_nonpos a b Hb ltac:(lia)). lia.
Qed.

(** The result of a division is in the range of its width. *)
Lemma div_int_range i : has_type (VInt (s32 i)) TypeInt.INT.
Proof. apply int_type_range, wraps_range. lia. Qed.

Lemma div_long_range i : has_type (VLong (s64 i)) TypeLong.LONG.
Proof. apply long_type_range, wraps_range. lia. Qed.

(** The quotients of a constant. *)
Lemma quot_of_con w a b :
  1 < w -> is_s w a -> b <> 0 ->
  (a <> - 2 ^ (w - 1) -> - Z.abs a <= wraps w (Z.quot a b) <= Z.abs a) /\
  (a = - 2 ^ (w - 1) -> - 2 ^ (w - 1) <= wraps w (Z.quot a b) <= 2 ^ (w - 2)).
Proof.
  intros Hw Ha Hb. pose proof (quot_abs_le a b Hb).
  pose proof (pow2_half (w - 1) ltac:(lia)) as Hp. replace (w - 1 - 1) with (w - 2) in Hp by lia.
  pose proof (Z.pow_pos_nonneg 2 (w - 2)). unfold is_s in Ha. split; intros Hm.
  - rewrite wraps_id by (unfold is_s; lia). lia.
  - destruct (Z.eq_dec b (-1)) as [->|]; [|destruct (Z.eq_dec b 1) as [->|]].
    + replace (Z.quot a (-1)) with (2 ^ (w - 1))
        by (change (-1) with (- (1)); rewrite Z.quot_opp_r, Z.quot_1_r by lia; lia).
      replace (wraps w (2 ^ (w - 1))) with (- 2 ^ (w - 1)); [lia|]. unfold wraps.
      pose proof (pow2_half w ltac:(lia)). rewrite Z.mod_small by lia.
      case_match; lia.
    + rewrite Z.quot_1_r, wraps_id by (unfold is_s; lia). lia.
    + pose proof (quot_abs_half a b ltac:(lia)) as Hh.
      replace (Z.abs a / 2) with (2 ^ (w - 2)) in Hh by (apply (Z.div_unique_pos _ _ _ 0); lia).
      rewrite wraps_id by (unfold is_s; lia). lia.
Qed.

Lemma div_int_value : covers_result 32 VInt java_idiv DivI_Value.
Proof.
  intros t1 t2 eqv a b Hw1 Hw2 Ha Hb H0 Ht1 Ht2 Heq. unfold DivI_Value, java_idiv.
  destruct (decide _) as [->|_]; [done|]. destruct (decide _) as [->|_]; [done|].
  destruct eqv.
  { eexists. split_and!; [done..|]. rewrite Heq by done. rewrite Z.quot_same by done. done. }
  destruct (decide _) as [_|Hn]; [eexists; split_and!; [done..|apply div_int_range]|].
  destruct t1 as [| |lo1 hi1 w1| | | | | | | | | | | |]; try (cbn in Ht1; tauto).
  destruct t2 as [| |lo2 hi2 w2| | | | | | | | | | | |]; try (cbn in Ht2; tauto).
  clear Hn. cbn in Ht1, Ht2. destruct Hw1 as (Hl1 & Hh1 & Hw1), Hw2 as (Hl2 & Hh2 & Hw2).
  assert (0 <= MAX2 w1 w2 <= 3) as Hw by (rewrite MAX2_max; lia).
  unfold TypeInt.is_con. change (- 2 ^ (32 - 1)) with min_jint. destruct (_ && _) eqn:E2.
  - replace lo2 with b in * by lia. destruct (_ >=? _) eqn:Ed; [|destruct (_ && (lo1 =? _)) eqn:Eov].
    + destruct (int_div_ok 32 lo1 b) as [-> Hlo]; [lia|done|done|lia|].
      destruct (int_div_ok 32 hi1 b) as [-> Hhi]; [lia|done|done|lia|].
      eexists. split_and!; [done|by apply make_int_wf|]. apply make_int_has. cbn. apply quot_between; lia || done.
    + pose proof (div_int_range (Z.quot a b)) as Hr. apply make_int_has in Hr. cbn in Hr.
      eexists. split_and!; [done|by apply make_int_wf; [|case_match|]|]. apply make_int_has. cbn.
      case_match; [|lia]. replace a with min_jint by lia. replace b with (-1) by lia. done.
    + assert (b <> -1 \/ lo1 <> min_jint /\ hi1 <> min_jint) as Hov
        by (destruct Hl1 as [Hl1 _]; change (- 2 ^ (32 - 1)) with min_jint in Hl1; lia).
      destruct (int_div_ok 32 hi1 b) as [-> Hhi]; [lia|done|done|change (- 2 ^ (32 - 1)) with min_jint; lia|].
      destruct (int_div_ok 32 lo1 b) as [-> Hlo]; [lia|done|done|change (- 2 ^ (32 - 1)) with min_jint; lia|].
      eexists. split_and!; [done|by apply make_int_wf|]. apply make_int_has. cbn.
      apply quot_between_neg; try lia; try done. change (- 2 ^ (32 - 1)) with min_jint. lia.
  - destruct (lo1 =? hi1) eqn:E1; [|eexists; split_and!; [done..|apply div_int_range]].
    replace lo1 with a in * by lia. pose proof (quot_of_con 32 a b ltac:(lia) Ha H0) as [Hc Hm].
    change (- 2 ^ (32 - 1)) with min_jint in *. destruct Ha as [Hamin Hamax].
    change (- 2 ^ (32 - 1)) with min_jint in *.
    destruct (_ <? _) eqn:Es; [destruct (_ =? min_jint) eqn:Em|]; [|rewrite wraps_id by (done || (split; unfold min_jint in *; lia))..].
    + eexists. split_and!; [done|by apply make_int_wf|]. apply make_int_has. specialize (Hm ltac:(lia)). done.
    + eexists. split_and!; [done|apply make_int_wf; split; unfold min_jint in *; lia|].
      apply make_int_has. cbn. lia.
    + eexists. split_and!; [done|apply make_int_wf; split; unfold min_jint in *; lia|].
      apply make_int_has. cbn. specialize (Hc ltac:(unfold min_jint; lia)). lia.
Qed.

Lemma div_long_value : covers_result 64 VLong java_ldiv DivL_Value.
Proof.
  intros t1 t2 eqv a b Hw1 Hw2 Ha Hb H0 Ht1 Ht2 Heq. unfold DivL_Value, java_ldiv.
  destruct (decide _) as [->|_]; [done|]. destruct (decide _) as [->|_]; [done|].
  destruct eqv.
  { eexists. split_and!; [done..|]. rewrite Heq by done. rewrite Z.quot_same by done. done. }
  destruct (decide _) as [_|Hn]; [eexists; split_and!; [done..|apply div_long_range]|].
  destruct t1 as [| | |lo1 hi1 w1| | | | | | | | | | |]; try (cbn in Ht1; tauto).
  destruct t2 as [| | |lo2 hi2 w2| | | | | | | | | | |]; try (cbn in Ht2; tauto).
  clear Hn. cbn in Ht1, Ht2. destruct Hw1 as (Hl1 & Hh1 & Hw1), Hw2 as (Hl2 & Hh2 & Hw2).
  assert (0 <= MAX2 w1 w2 <= 3) as Hw by (rewrite MAX2_max; lia).
  unfold TypeLong.is_con. change (- 2 ^ (64 - 1)) with min_jlong. destruct (_ && _) eqn:E2.
  - replace lo2 with b in * by lia. destruct (_ >=? _) eqn:Ed; [|destruct (_ && (lo1 =? _)) eqn:Eov].
    + destruct (int_div_ok 64 lo1 b) as [-> Hlo]; [lia|done|done|lia|].
      destruct (int_div_ok 64 hi1 b) as [-> Hhi]; [lia|done|done|lia|].
      eexists. split_and!; [done|by apply make_long_wf|]. apply make_long_has. cbn. apply quot_between; lia || done.
    + pose proof (div_long_range (Z.quot a b)) as Hr. apply make_long_has in Hr. cbn in Hr.
      eexists. split_and!; [done|by apply make_long_wf; [|case_match|]|]. apply make_long_has. cbn.
      case_match; [|lia]. replace a with min_jlong by lia. replace b with (-1) by lia. done.
    + assert (b <> -1 \/ lo1 <> min_jlong /\ hi1 <> min_jlong) as Hov
        by (destruct Hl1 as [Hl1 _]; change (- 2 ^ (64 - 1)) with min_jlong in Hl1; lia).
      destruct (int_div_ok 64 hi1 b) as [-> Hhi]; [lia|done|done|change (- 2 ^ (64 - 1)) with min_jlong; lia|].
      destruct (int_div_ok 64 lo1 b) as [-> Hlo]; [lia|done|done|change (- 2 ^ (64 - 1)) with min_jlong; lia|].
      eexists. split_and!; [done|by apply make_long_wf|]. apply make_long_has. cbn.
      apply quot_between_neg; try lia; try done. change (- 2 ^ (64 - 1)) with min_jlong. lia.
  - destruct (lo1 =? hi1) eqn:E1; [|eexists; split_and!; [done..|apply div_long_range]].
    replace lo1 with a in * by lia. pose proof (quot_of_con 64 a b ltac:(lia) Ha H0) as [Hc Hm].
    change (- 2 ^ (64 - 1)) with min_jlong in *. destruct Ha as [Hamin Hamax].
    change (- 2 ^ (64 - 1)) with min_jlong in *.
    destruct (_ <? _) eqn:Es; [destruct (_ =? min_jlong) eqn:Em|]; [|rewrite wraps_id by (done || (split; unfold min_jlong in *; lia))..].
    + eexists. split_and!; [done|by apply make_long_wf|]. apply make_long_has. specialize (Hm ltac:(lia)). done.
    + eexists. split_and!; [done|apply make_long_wf; split; unfold min_jlong in *; lia|].
      apply make_long_has. cbn. lia.
    + eexists. split_and!; [done|apply make_long_wf; split; unfold min_jlong in *; lia|].
      apply make_long_has. cbn. specialize (Hc ltac:(unfold min_jlong; lia)). lia.
Qed.

Lemma mod_int_value : covers_result 32 VInt java_rem ModI_Value.
Proof.
  intros t1 t2 eqv a b Hw1 Hw2 Ha Hb H0 Ht1 Ht2 Heq. unfold ModI_Value, java_rem.
  destruct (rem_range 32 a b ltac:(lia) Ha H0) as [Hrs Hpos]. pose proof Hrs as Hr%int_type_range.
  destruct (decide _) as [->|_]; [done|]. destruct (decide _) as [->|_]; [done|].
  destruct (decide _) as [->|_].
  { eexists. split_and!; [done..|]. cbn in Ht1. replace a with 0 by lia. by rewrite Z.rem_0_l. }
  destruct eqv.
  { eexists. split_and!; [done..|]. rewrite Heq by done. rewrite Z.rem_same by done. done. }
  destruct (decide _) as [_|Hn]; [by eexists|].
  destruct t1 as [| |lo1 hi1 w1| | | | | | | | | | | |]; try (cbn in Ht1; tauto).
  destruct t2 as [| |lo2 hi2 w2| | | | | | | | | | | |]; try (cbn in Ht2; tauto).
  clear Hn. cbn in Ht1, Ht2, Hw1, Hw2. unfold TypeInt.is_con. apply make_int_has in Hr as Hr'. cbn in Hr'.
  destruct (negb _ || _) eqn:E.
  - destruct (_ && _) eqn:Ep; [|by eexists]. eexists. split_and!; [done..|]. apply make_int_has. cbn. lia.
  - rewrite (proj2 (Z.eqb_neq lo2 0)) by lia. destruct (_ && _) eqn:Em.
    + eexists. split_and!; [done..|]. replace a with min_jint by lia. replace b with (-1) by lia. done.
    + replace lo1 with a in * by lia. replace lo2 with b in * by lia. unfold int_rem, int_traps.
      change (- 2 ^ (32 - 1)) with min_jint. rewrite Em, (proj2 (Z.eqb_neq b 0)) by lia.
      eexists. split_and!; [done|by split_and!|cbn; lia].
Qed.

Lemma mod_long_value : covers_result 64 VLong java_rem ModL_Value.
Proof.
  intros t1 t2 eqv a b Hw1 Hw2 Ha Hb H0 Ht1 Ht2 Heq. unfold ModL_Value, java_rem.
  destruct (rem_range 64 a b ltac:(lia) Ha H0) as [Hrs Hpos]. pose proof Hrs as Hr%long_type_range.
  destruct (decide _) as [->|_]; [done|]. destruct (decide _) as [->|_]; [done|].
  destruct (decide _) as [->|_].
  { eexists. split_and!; [done..|]. cbn in Ht1. replace a with 0 by lia. by rewrite Z.rem_0_l. }
  destruct eqv.
  { eexists. split_and!; [done..|]. rewrite Heq by done. rewrite Z.rem_same by done. done. }
  destruct (decide _) as [_|Hn]; [by eexists|].
  destruct t1 as [| | |lo1 hi1 w1| | | | | | | | | | |]; try (cbn in Ht1; tauto).
  destruct t2 as [| | |lo2 hi2 w2| | | | | | | | | | |]; try (cbn in Ht2; tauto).
  clear Hn. cbn in Ht1, Ht2, Hw1, Hw2. unfold TypeLong.is_con. apply make_long_has in Hr as Hr'. cbn in Hr'.
  destruct (negb _ || _) eqn:E.
  - destruct (_ && _) eqn:Ep; [|by eexists]. eexists. split_and!; [done..|]. apply make_long_has. cbn. lia.
  - rewrite (proj2 (Z.eqb_neq lo2 0)) by lia. destruct (_ && _) eqn:Em.
    + eexists. split_and!; [done..|]. replace a with min_jlong by lia. replace b with (-1) by lia. done.
    + replace lo1 with a in * by lia. replace lo2 with b in * by lia. unfold int_rem, int_traps.
      change (- 2 ^ (64 - 1)) with min_jlong. rewrite Em, (proj2 (Z.eqb_neq b 0)) by lia.
      eexists. split_and!; [done|by split_and!|cbn; lia].
Qed.

(** * Properties *)

(** C4: the rewriting of [DivINode] and [DivLNode] is right for every dividend and
    every divisor.  [Ideal] returns without failing an assertion, whatever the
    divisor's type; the node it gives, be it shifts with a rounding correction, a
    multiplication by a magic number or a negation, has the value of Java's division
    on every input; it drops the control input only if the divisor's type leaves out
    zero.  [Identity] gives an input only if that is the quotient. *)
Theorem divide_ideal_correct (phase : PhaseGVN) (r : env) (laws : PhaseLaws phase r)
    (in0 : control) (in1 in2 : inode) (l1 l2 : lnode)
    (Hi : is_s 32 (evali r in1)) (Hl : is_s 64 (evall r l1)) :
  (exists c o, DivI_Ideal in0 in1 in2 = Some (c, o) /\
    control_ok in0 c (VInt 0) (typei in2) /\
    computes (evali r) (java_idiv (evali r in1) (evali r in2)) o) /\
  (exists c o, DivL_Ideal in0 l1 l2 = Some (c, o) /\
    control_ok in0 c (VLong 0) (typel l2) /\
    computes (evall r) (java_ldiv (evall r l1) (evall r l2)) o) /\
  (typei in2 <> Top -> exists o, DivI_Identity in1 in2 = Some o /\
    forall n, o = Some n -> evali r n = java_idiv (evali r in1) (evali r in2)) /\
  (typel l2 <> Top -> exists o, DivL_Identity l1 l2 = Some o /\
    forall n, o = Some n -> evall r n = java_ldiv (evall r l1) (evall r l2)).
Proof.
  split_and!; [by apply div_int_ideal|by apply div_long_ideal| |]; intros.
  - by apply div_int_identity.
  - by apply div_long_identity.
Qed.

(** C6: the rewriting of [ModINode] is right for every dividend and divisor,
    including the sums of digits for divisors 2^k-1, whose unrolling counts are
    enough for every dividend.  That of [ModLNode] is right except where it expands
    into a sum of digits.  Either drops the control input only if the divisor's type
    leaves out zero. *)
Theorem remainder_ideal_correct (phase : PhaseGVN) (r : env) (laws : PhaseLaws phase r)
    (in0 : control) (in1 in2 : inode) (l1 l2 : lnode)
    (Hi : is_s 32 (evali r in1)) (Hl : is_s 64 (evall r l1)) :
  (exists c o, ModI_Ideal in0 in1 in2 = Some (c, o) /\
    control_ok in0 c (VInt 0) (typei in2) /\
    computes (evali r) (java_rem (evali r in1) (evali r in2)) o) /\
  (expands_mod_long (evall r l2) = false ->
   exists c o, ModL_Ideal in0 l1 l2 = Some (c, o) /\
    control_ok in0 c (VLong 0) (typel l2) /\
    computes (evall r) (java_rem (evall r l1) (evall r l2)) o).
Proof. split; [by apply mod_int_ideal|intros; by apply mod_long_ideal]. Qed.

(** C37: [ModLNode::Ideal] takes [log2_long(con)] for the [k] of [con] = 2^k-1, which
    is one too small.  For every [k] from 13 to 62, the long remainder of 2^(k-1) by
    2^k-1, which is 2^(k-1), is replaced by a node whose value is too large by the
    number of unrolled additions. *)
Theorem long_remainder_expansion_wrong (phase : PhaseGVN) (r : env) (laws : PhaseLaws phase r)
    (l1 l2 : lnode) (w k : Z) (Hk : 13 <= k <= 62) (Hcm : ConditionalMoveLimit <> 0)
    (Ht : typel l2 = Long (2 ^ k - 1) (2 ^ k - 1) w) (Hx : evall r l1 = 2 ^ (k - 1)) :
  exists n, ModL_Ideal NoControl l1 l2 = Some (NoControl, New n) /\
    java_rem (evall r l1) (evall r l2) = 2 ^ (k - 1) /\
    evall r n = 2 ^ (k - 1) + trip_count_long (k - 1) /\ 1 <= trip_count_long (k - 1).
Proof.
  destruct (mod_long_expansion l1 l2 w k Hk Hcm Ht Hx) as (n & Hn & Hv). exists n.
  destruct (con_long l2 _ _ _ Ht (Z.eqb_refl _)) as [_ ->].
  pose proof (trip_count_long_range (k - 1) ltac:(lia)). split_and!; [done| |done|lia].
  pose proof (pow2_half k ltac:(lia)). pose proof (Z.pow_le_mono_r 2 13 k ltac:(lia) ltac:(lia)).
  rewrite Hx. unfold java_rem. apply Z.rem_small. pow2_norm. lia.
Qed.

(** ** Witnesses *)

Definition sample_env : env := mkEnv (fun _ => -17) (fun _ => 2 ^ 12) (fun _ => 0).

(** -17 divided by 7, and 4096 by -8: the rewritten nodes and their values. *)
Lemma divide_ideal_correct_witness :
  exists n m, @DivI_Ideal (sample_phase sample_env) NoControl (VarI 0) (ConI 7) = Some (NoControl, New n) /\
    evali sample_env n = -2 /\
    @DivL_Ideal (sample_phase sample_env) NoControl (VarL 0) (ConL (-8)) = Some (NoControl, New m) /\
    evall sample_env m = -512.
Proof.
  destruct (divide_ideal_correct (sample_phase sample_env) sample_env (sample_laws _) NoControl
    (VarI 0) (ConI 7) (VarL 0) (ConL (-8))) as ((c & o & Ho & _ & Hn) & (c' & o' & Ho' & _ & Hn') & _);
    [split; vm_compute; congruence..|].
  vm_compute in Ho, Ho'. eexists _, _. split_and!; [lazy; reflexivity| |lazy; reflexivity|].
  - transitivity (java_idiv (-17) 7); [|reflexivity]. apply Hn. injection Ho as _ <-. reflexivity.
  - transitivity (java_ldiv (2 ^ 12) (-8)); [|reflexivity]. apply Hn'. injection Ho' as _ <-. reflexivity.
Defined.

Lemma remainder_ideal_correct_witness :
  exists n, @ModI_Ideal (sample_phase sample_env) NoControl (VarI 0) (ConI 127) = Some (NoControl, New n) /\
    evali sample_env n = -17.
Proof.
  destruct (remainder_ideal_correct (sample_phase sample_env) sample_env (sample_laws _) NoControl
    (VarI 0) (ConI 127) (VarL 0) (ConL 10)) as ((c & o & Ho & _ & Hn) & _);
    [split; vm_compute; congruence..|].
  vm_compute in Ho. eexists. split; [lazy; reflexivity|].
  transitivity (java_rem (-17) 127); [|reflexivity]. apply Hn. injection Ho as _ <-. reflexivity.
Defined.

(** 4096 modulo 8191. *)
Lemma long_remainder_expansion_wrong_witness :
  exists n, @ModL_Ideal (sample_phase sample_env) NoControl (VarL 0) (ConL 8191) = Some (NoControl, New n) /\
    evall sample_env n = 4101.
Proof.
  destruct (long_remainder_expansion_wrong (sample_phase sample_env) sample_env (sample_laws _)
    (VarL 0) (ConL 8191) 0 13) as (n & Hn & _ & Hv & _); [lia|done|reflexivity|reflexivity|].
  exists n. split; [exact Hn|]. rewrite Hv. reflexivity.
Defined.
