(* ===== verification/IdealArith.v ===== *)
(** * Types of arithmetic in the optimizing compiler

    Model of the [Value] functions of the int and long nodes of opto/addnode.cpp,
    opto/mulnode.cpp and opto/subnode.cpp: from the types of its operands, the
    compiler derives a type for the result of an addition, subtraction,
    multiplication, bit operation, shift, minimum, maximum or comparison, and for
    the test of a comparison.  The virtual functions that the base classes call
    ([add_ring], [add_id], ...) are arguments of their definitions.

    [MulINode::mul_ring] detects overflows by computing the products in doubles too;
    a double that is an integer is that integer, rounded to 53 significant bits. *)

From S2P Require Import Prelude GlobalDefinitions WordBits IdealType IdealNode IdealDiv.

Open Scope Z_scope.

(** ** [AddNode] *)

(** [None] for NULL inside the result. *)
Definition add_of_identity (add_id t1 t2 : IType) : option (option IType) :=
  b ← higher_equal t1 add_id;
  if (b : bool) then Some (Some t2) else
  b ← higher_equal t2 add_id;
  if (b : bool) then Some (Some t1) else Some None.

Definition AddNode_Value (bot add_id : IType) (add_ring : IType -> IType -> option IType)
    (t1 t2 : IType) : option IType :=
  if decide (t1 = Top) then Some Top
  else if decide (t2 = Top) then Some Top
  else if decide (t1 = bot \/ t2 = bot \/ t1 = Bottom \/ t2 = Bottom) then Some bot
  else
    tadd ← add_of_identity add_id t1 t2;
    match tadd with Some t => Some t | None => add_ring t1 t2 end.

Definition AddI_add_ring (t0 t1 : IType) : option IType :=
  match t0, t1 with
  | Int lo0 hi0 w0, Int lo1 hi1 w1 =>
      let lo := s32 (lo0 + lo1) in
      let hi := s32 (hi0 + hi1) in
      let '(lo, hi) :=
        if negb (TypeInt.is_con lo0 hi0 && TypeInt.is_con lo1 hi1) then
          let '(lo, hi) := if ((lo0 &&& lo1) <? 0) && (lo >=? 0) then (min_jint, max_jint)
                           else (lo, hi) in
          let '(lo, hi) := if (Z.lnot (hi0 ||| hi1) <? 0) && (hi <? 0) then (min_jint, max_jint)
                           else (lo, hi) in
          if lo >? hi then (min_jint, max_jint) else (lo, hi)
        else (lo, hi) in
      Some (TypeInt.make lo hi (MAX2 w0 w1))
  | _, _ => None
  end.

Definition AddL_add_ring (t0 t1 : IType) : option IType :=
  match t0, t1 with
  | Long lo0 hi0 w0, Long lo1 hi1 w1 =>
      let lo := s64 (lo0 + lo1) in
      let hi := s64 (hi0 + hi1) in
      let '(lo, hi) :=
        if negb (TypeLong.is_con lo0 hi0 && TypeLong.is_con lo1 hi1) then
          let '(lo, hi) := if ((lo0 &&& lo1) <? 0) && (lo >=? 0) then (min_jlong, max_jlong)
                           else (lo, hi) in
          let '(lo, hi) := if (Z.lnot (hi0 ||| hi1) <? 0) && (hi <? 0) then (min_jlong, max_jlong)
                           else (lo, hi) in
          if lo >? hi then (min_jlong, max_jlong) else (lo, hi)
        else (lo, hi) in
      Some (TypeLong.make lo hi (MAX2 w0 w1))
  | _, _ => None
  end.

Definition OrI_add_ring (t0 t1 : IType) : option IType :=
  match t0, t1 with
  | Int lo0 hi0 w0, Int lo1 hi1 w1 =>
      let rest :=
        if negb (TypeInt.is_con lo0 hi0) || negb (TypeInt.is_con lo1 hi1) then Some TypeInt.INT
        else Some (TypeInt.make_con (lo0 ||| lo1)) in
      if decide (t0 = TypeInt.BOOL) then
        if decide (t1 = TypeInt.ONE) then Some TypeInt.ONE
        else if decide (t1 = TypeInt.BOOL) then Some TypeInt.BOOL
        else rest
      else if decide (t0 = TypeInt.ONE) then
        if decide (t1 = TypeInt.BOOL) then Some TypeInt.ONE else rest
      else rest
  | _, _ => None
  end.

Definition OrL_add_ring (t0 t1 : IType) : option IType :=
  match t0, t1 with
  | Long lo0 hi0 w0, Long lo1 hi1 w1 =>
      if negb (TypeLong.is_con lo0 hi0) || negb (TypeLong.is_con lo1 hi1) then Some TypeLong.LONG
      else Some (TypeLong.make_con (lo0 ||| lo1))
  | _, _ => None
  end.

Definition XorI_add_ring (t0 t1 : IType) : option IType :=
  match t0, t1 with
  | Int lo0 hi0 w0, Int lo1 hi1 w1 =>
      if decide (t0 = TypeInt.BOOL /\ (t1 = TypeInt.ONE \/ t1 = TypeInt.BOOL)) then Some TypeInt.BOOL
      else if negb (TypeInt.is_con lo0 hi0) || negb (TypeInt.is_con lo1 hi1) then Some TypeInt.INT
      else Some (TypeInt.make_con (lo0 ^^^ lo1))
  | _, _ => None
  end.

Definition XorL_add_ring (t0 t1 : IType) : option IType :=
  match t0, t1 with
  | Long lo0 hi0 w0, Long lo1 hi1 w1 =>
      if negb (TypeLong.is_con lo0 hi0) || negb (TypeLong.is_con lo1 hi1) then Some TypeLong.LONG
      else Some (TypeLong.make_con (lo0 ^^^ lo1))
  | _, _ => None
  end.

Definition MaxI_add_ring (t0 t1 : IType) : option IType :=
  match t0, t1 with
  | Int lo0 hi0 w0, Int lo1 hi1 w1 =>
      Some (TypeInt.make (MAX2 lo0 lo1) (MAX2 hi0 hi1) (MAX2 w0 w1))
  | _, _ => None
  end.

Definition MinI_add_ring (t0 t1 : IType) : option IType :=
  match t0, t1 with
  | Int lo0 hi0 w0, Int lo1 hi1 w1 =>
      Some (TypeInt.make (MIN2 lo0 lo1) (MIN2 hi0 hi1) (MAX2 w0 w1))
  | _, _ => None
  end.

(** ** [MulNode] *)

Definition MulNode_Value (bot zero : IType) (mul_ring : IType -> IType -> option IType)
    (t1 t2 : IType) : option IType :=
  if decide (t1 = Top) then Some Top
  else if decide (t2 = Top) then Some Top
  else
    b ← higher_equal t1 zero;
    if (b : bool) then Some zero else
    b ← higher_equal t2 zero;
    if (b : bool) then Some zero
    else if decide (t1 = Bottom \/ t2 = Bottom) then Some bot
    else mul_ring t1 t2.

(** The double nearest to an integer, ties to even. *)
Definition round_double (x : Z) : Z :=
  let m := Z.abs x in
  let e := Z.log2 m - 52 in
  if e <=? 0 then x
  else
    let q := m / 2 ^ e in
    let rest := m mod 2 ^ e in
    let half := 2 ^ (e - 1) in
    let q := if (half <? rest) || ((rest =? half) && Z.odd q) then q + 1 else q in
    Z.sgn x * (q * 2 ^ e).

(** The least and the greatest of four products, as the code sorts them. *)
Definition sort_products (A B C D : Z) : Z * Z :=
  let '(lo0, hi0) := if A <? B then (A, B) else (B, A) in
  if C <? D then (if C <? lo0 then C else lo0, if D >? hi0 then D else hi0)
  else (if D <? lo0 then D else lo0, if C >? hi0 then C else hi0).

Definition MulI_mul_ring (t0 t1 : IType) : option IType :=
  match t0, t1 with
  | Int lo0 hi0 w0, Int lo1 hi1 w1 =>
      let a := round_double lo0 in
      let b := round_double hi0 in
      let c := round_double lo1 in
      let d := round_double hi1 in
      let A := s32 (lo0 * lo1) in
      if negb (round_double A =? round_double (a * c)) then Some TypeInt.INT else
      let B := s32 (lo0 * hi1) in
      if negb (round_double B =? round_double (a * d)) then Some TypeInt.INT else
      let C := s32 (hi0 * lo1) in
      if negb (round_double C =? round_double (b * c)) then Some TypeInt.INT else
      let D := s32 (hi0 * hi1) in
      if negb (round_double D =? round_double (b * d)) then Some TypeInt.INT else
      let '(lo, hi) := sort_products A B C D in
      Some (TypeInt.make lo hi (MAX2 w0 w1))
  | _, _ => None
  end.

Definition MulL_mul_ring (t0 t1 : IType) : option IType :=
  match t0, t1 with
  | Long lo0 hi0 w0, Long lo1 hi1 w1 =>
      let a := round_double lo0 in
      let b := round_double hi0 in
      let c := round_double lo1 in
      let d := round_double hi1 in
      let A := s64 (lo0 * lo1) in
      if negb (round_double A =? round_double (a * c)) then Some TypeLong.LONG else
      let B := s64 (lo0 * hi1) in
      if negb (round_double B =? round_double (a * d)) then Some TypeLong.LONG else
      let C := s64 (hi0 * lo1) in
      if negb (round_double C =? round_double (b * c)) then Some TypeLong.LONG else
      let D := s64 (hi0 * hi1) in
      if negb (round_double D =? round_double (b * d)) then Some TypeLong.LONG else
      let '(lo, hi) := sort_products A B C D in
      Some (TypeLong.make lo hi (MAX2 w0 w1))
  | _, _ => None
  end.

Definition MulHiL_Value (t1 t2 : IType) : option IType :=
  if decide (t1 = Top) then Some Top
  else if decide (t2 = Top) then Some Top
  else if decide (t1 = TypeLong.LONG \/ t2 = TypeLong.LONG \/ t1 = Bottom \/ t2 = Bottom)
  then Some TypeLong.LONG
  else Some TypeLong.LONG.

Definition AndI_mul_ring (t0 t1 : IType) : option IType :=
  match t0, t1 with
  | Int lo0 hi0 w0, Int lo1 hi1 w1 =>
      let widen := MAX2 w0 w1 in
      let con0 := TypeInt.is_con lo0 hi0 in
      let con1 := TypeInt.is_con lo1 hi1 in
      if negb con0 && negb con1 then Some TypeInt.INT
      else if con0 && con1 then Some (TypeInt.make_con (lo0 &&& lo1))
      else if con0 && (lo0 >? 0) then Some (TypeInt.make 0 lo0 widen)
      else if con1 && (lo1 >? 0) then Some (TypeInt.make 0 lo1 widen)
      else if decide (t0 = TypeInt.BOOL \/ t1 = TypeInt.BOOL) then Some TypeInt.BOOL
      else Some TypeInt.INT
  | _, _ => None
  end.

Definition AndL_mul_ring (t0 t1 : IType) : option IType :=
  match t0, t1 with
  | Long lo0 hi0 w0, Long lo1 hi1 w1 =>
      let widen := MAX2 w0 w1 in
      let con0 := TypeLong.is_con lo0 hi0 in
      let con1 := TypeLong.is_con lo1 hi1 in
      if negb con0 && negb con1 then Some TypeLong.LONG
      else if con0 && con1 then Some (TypeLong.make_con (lo0 &&& lo1))
      else if con0 && (lo0 >? 0) then Some (TypeLong.make 0 lo0 widen)
      else if con1 && (lo1 >? 0) then Some (TypeLong.make 0 lo1 widen)
      else Some TypeLong.LONG
  | _, _ => None
  end.

(** ** Shifts *)

Abbreviation BitsPerJavaInteger := (32).

Definition LShiftI_Value (t1 t2 : IType) : option IType :=
  if decide (t1 = Top) then Some Top
  else if decide (t2 = Top) then Some Top
  else if decide (t1 = TypeInt.ZERO) then Some TypeInt.ZERO
  else if decide (t2 = TypeInt.ZERO) then Some t1
  else if decide (t1 = TypeInt.INT \/ t2 = TypeInt.INT \/ t1 = Bottom \/ t2 = Bottom)
  then Some TypeInt.INT
  else
  match t1, t2 with
  | Int lo hi w1, Int lo2 hi2 w2 =>
      if negb (TypeInt.is_con lo2 hi2) then Some TypeInt.INT
      else
        let shift := lo2 &&& (BitsPerJavaInteger - 1) in
        if shift =? 0 then Some t1
        else if negb (TypeInt.is_con lo hi) then
          if ((s32 (lo ≪ shift) ≫ shift) =? lo) && ((s32 (hi ≪ shift) ≫ shift) =? hi) then
            Some (TypeInt.make (s32 (lo ≪ shift)) (s32 (hi ≪ shift)) (MAX2 w1 w2))
          else Some TypeInt.INT
        else Some (TypeInt.make_con (s32 (lo ≪ shift)))
  | _, _ => None
  end.

Definition LShiftL_Value (t1 t2 : IType) : option IType :=
  if decide (t1 = Top) then Some Top
  else if decide (t2 = Top) then Some Top
  else if decide (t1 = TypeLong.ZERO) then Some TypeLong.ZERO
  else if decide (t2 = TypeInt.ZERO) then Some t1
  else if decide (t1 = TypeLong.LONG \/ t2 = TypeInt.INT \/ t1 = Bottom \/ t2 = Bottom)
  then Some TypeLong.LONG
  else
  match t1, t2 with
  | Long lo hi w1, Int lo2 hi2 w2 =>
      if negb (TypeInt.is_con lo2 hi2) then Some TypeLong.LONG
      else
        let shift := lo2 &&& (2 * BitsPerJavaInteger - 1) in
        if shift =? 0 then Some t1
        else if negb (TypeLong.is_con lo hi) then
          if ((s64 (lo ≪ shift) ≫ shift) =? lo) && ((s64 (hi ≪ shift) ≫ shift) =? hi) then
            Some (TypeLong.make (s64 (lo ≪ shift)) (s64 (hi ≪ shift)) (MAX2 w1 w2))
          else Some TypeLong.LONG
        else Some (TypeLong.make_con (s64 (lo ≪ shift)))
  | _, _ => None
  end.

Definition RShiftI_Value (t1 t2 : IType) : option IType :=
  if decide (t1 = Top) then Some Top
  else if decide (t2 = Top) then Some Top
  else if decide (t1 = TypeInt.ZERO) then Some TypeInt.ZERO
  else if decide (t2 = TypeInt.ZERO) then Some t1
  else if decide (t1 = Bottom \/ t2 = Bottom) then Some TypeInt.INT
  else if decide (t2 = TypeInt.INT) then Some TypeInt.INT
  else
  match t1, t2 with
  | Int lo1 hi1 w1, Int lo2 hi2 w2 =>
      if TypeInt.is_con lo2 hi2 then
        let shift := lo2 &&& (BitsPerJavaInteger - 1) in
        if shift =? 0 then Some t1
        else
          let lo := lo1 ≫ shift in
          let hi := hi1 ≫ shift in
          ASSERT lo <=? hi ;;
          let ti := TypeInt.make lo hi (MAX2 w1 w2) in
          ASSERT negb ((shift =? BitsPerJavaInteger - 1) && (lo1 >=? 0)) || bool_decide (ti = TypeInt.ZERO) ;;
          ASSERT negb ((shift =? BitsPerJavaInteger - 1) && (hi1 <? 0)) || bool_decide (ti = TypeInt.MINUS_1) ;;
          Some ti
      else
      if negb (TypeInt.is_con lo1 hi1) || negb (TypeInt.is_con lo2 hi2) then Some TypeInt.INT
      else Some (TypeInt.make_con (lo1 ≫ (lo2 &&& 31)))
  | _, _ => None
  end.

Definition RShiftL_Value (t1 t2 : IType) : option IType :=
  if decide (t1 = Top) then Some Top
  else if decide (t2 = Top) then Some Top
  else if decide (t1 = TypeLong.ZERO) then Some TypeLong.ZERO
  else if decide (t2 = TypeInt.ZERO) then Some t1
  else if decide (t1 = Bottom \/ t2 = Bottom) then Some TypeLong.LONG
  else if decide (t2 = TypeInt.INT) then Some TypeLong.LONG
  else
  match t1, t2 with
  | Long lo1 hi1 w1, Int lo2 hi2 w2 =>
      if TypeInt.is_con lo2 hi2 then
        let shift := lo2 &&& (2 * BitsPerJavaInteger - 1) in
        if shift =? 0 then Some t1
        else
          let lo := lo1 ≫ shift in
          let hi := hi1 ≫ shift in
          ASSERT lo <=? hi ;;
          let ti := TypeLong.make lo hi (MAX2 w1 w2) in
          ASSERT negb ((shift =? 2 * BitsPerJavaInteger - 1) && (lo1 >=? 0)) || bool_decide (ti = TypeLong.ZERO) ;;
          ASSERT negb ((shift =? 2 * BitsPerJavaInteger - 1) && (hi1 <? 0)) || bool_decide (ti = TypeLong.MINUS_1) ;;
          Some ti
      else Some TypeLong.LONG
  | _, _ => None
  end.

Definition URShiftI_Value (t1 t2 : IType) : option IType :=
  if decide (t1 = Top) then Some Top
  else if decide (t2 = Top) then Some Top
  else if decide (t1 = TypeInt.ZERO) then Some TypeInt.ZERO
  else if decide (t2 = TypeInt.ZERO) then Some t1
  else if decide (t1 = Bottom \/ t2 = Bottom) then Some TypeInt.INT
  else if decide (t2 = TypeInt.INT) then Some TypeInt.INT
  else
  match t1, t2 with
  | Int lo1 hi1 w1, Int lo2 hi2 w2 =>
      if TypeInt.is_con lo2 hi2 then
        let shift := lo2 &&& (BitsPerJavaInteger - 1) in
        if shift =? 0 then Some t1
        else
          let lo := s32 (u32 lo1 ≫ shift) in
          let hi := s32 (u32 hi1 ≫ shift) in
          let '(lo, hi) :=
            if (hi1 >=? 0) && (lo1 <? 0) then
              let neg_lo := lo in
              let neg_hi := s32 (u32 (-1) ≫ shift) in
              let pos_lo := s32 (u32 0 ≫ shift) in
              let pos_hi := hi in
              (MIN2 neg_lo pos_lo, MAX2 neg_hi pos_hi)
            else (lo, hi) in
          ASSERT lo <=? hi ;;
          let ti := TypeInt.make lo hi (MAX2 w1 w2) in
          ASSERT negb ((shift =? BitsPerJavaInteger - 1) && (lo1 >=? 0)) || bool_decide (ti = TypeInt.ZERO) ;;
          ASSERT negb ((shift =? BitsPerJavaInteger - 1) && (hi1 <? 0)) || bool_decide (ti = TypeInt.ONE) ;;
          Some ti
      else Some TypeInt.INT
  | _, _ => None
  end.

Definition URShiftL_Value (t1 t2 : IType) : option IType :=
  if decide (t1 = Top) then Some Top
  else if decide (t2 = Top) then Some Top
  else if decide (t1 = TypeLong.ZERO) then Some TypeLong.ZERO
  else if decide (t2 = TypeInt.ZERO) then Some t1
  else if decide (t1 = Bottom \/ t2 = Bottom) then Some TypeLong.LONG
  else if decide (t2 = TypeInt.INT) then Some TypeLong.LONG
  else
  match t1, t2 with
  | Long lo1 hi1 w1, Int lo2 hi2 w2 =>
      if TypeInt.is_con lo2 hi2 then
        let shift := lo2 &&& (2 * BitsPerJavaInteger - 1) in
        if shift =? 0 then Some t1
        else
          let lo := s64 (u64 lo1 ≫ shift) in
          let hi := s64 (u64 hi1 ≫ shift) in
          let '(lo, hi) :=
            if (hi1 >=? 0) && (lo1 <? 0) then
              let neg_lo := lo in
              let neg_hi := s64 (u64 (-1) ≫ shift) in
              let pos_lo := s64 (u64 0 ≫ shift) in
              let pos_hi := hi in
              (MIN2 neg_lo pos_lo, MAX2 neg_hi pos_hi)
            else (lo, hi) in
          ASSERT lo <=? hi ;;
          let ti := TypeLong.make lo hi (MAX2 w1 w2) in
          ASSERT negb ((shift =? 2 * BitsPerJavaInteger - 1) && (lo1 >=? 0)) || bool_decide (ti = TypeLong.ZERO) ;;
          ASSERT negb ((shift =? 2 * BitsPerJavaInteger - 1) && (hi1 <? 0)) || bool_decide (ti = TypeLong.ONE) ;;
          Some ti
      else Some TypeLong.LONG
  | _, _ => None
  end.

(** ** [SubNode] and the comparisons *)

(** [eqv] tells whether the inputs are the same node, casts aside. *)
Definition SubNode_Value (bot add_id : IType) (sub : IType -> IType -> option IType)
    (t1 t2 : IType) (eqv : bool) : option IType :=
  if decide (t1 = Top) then Some Top
  else if decide (t2 = Top) then Some Top
  else if eqv then Some add_id
  else if decide (t1 = Bottom \/ t2 = Bottom) then Some bot
  else sub t1 t2.

Definition SubI_sub (t1 t2 : IType) : option IType :=
  match t1, t2 with
  | Int lo0 hi0 w0, Int lo1 hi1 w1 =>
      let lo := s32 (lo0 - hi1) in
      let hi := s32 (hi0 - lo1) in
      if (((lo0 ^^^ hi1) >=? 0) || ((lo0 ^^^ lo) >=? 0)) &&
         (((hi0 ^^^ lo1) >=? 0) || ((hi0 ^^^ hi) >=? 0))
      then Some (TypeInt.make lo hi (MAX2 w0 w1))
      else Some TypeInt.INT
  | _, _ => None
  end.

Definition SubL_sub (t1 t2 : IType) : option IType :=
  match t1, t2 with
  | Long lo0 hi0 w0, Long lo1 hi1 w1 =>
      let lo := s64 (lo0 - hi1) in
      let hi := s64 (hi0 - lo1) in
      if (((lo0 ^^^ hi1) >=? 0) || ((lo0 ^^^ lo) >=? 0)) &&
         (((hi0 ^^^ lo1) >=? 0) || ((hi0 ^^^ hi) >=? 0))
      then Some (TypeLong.make lo hi (MAX2 w0 w1))
      else Some TypeLong.LONG
  | _, _ => None
  end.

Definition CmpI_sub (t1 t2 : IType) : option IType :=
  match t1, t2 with
  | Int lo0 hi0 _, Int lo1 hi1 _ =>
      if hi0 <? lo1 then Some TypeInt.CC_LT
      else if lo0 >? hi1 then Some TypeInt.CC_GT
      else if TypeInt.is_con lo0 hi0 && TypeInt.is_con lo1 hi1 then
        ASSERT lo0 =? lo1 ;; Some TypeInt.CC_EQ
      else if hi0 =? lo1 then Some TypeInt.CC_LE
      else if lo0 =? hi1 then Some TypeInt.CC_GE
      else Some TypeInt.CC
  | _, _ => None
  end.

Definition CmpL_sub (t1 t2 : IType) : option IType :=
  match t1, t2 with
  | Long lo0 hi0 _, Long lo1 hi1 _ =>
      if hi0 <? lo1 then Some TypeInt.CC_LT
      else if lo0 >? hi1 then Some TypeInt.CC_GT
      else if TypeLong.is_con lo0 hi0 && TypeLong.is_con lo1 hi1 then
        ASSERT lo0 =? lo1 ;; Some TypeInt.CC_EQ
      else if hi0 =? lo1 then Some TypeInt.CC_LE
      else if lo0 =? hi1 then Some TypeInt.CC_GE
      else Some TypeInt.CC
  | _, _ => None
  end.

(** [mod_in2] tells whether the first input is a remainder by the second input, and
    [mod_uncast] whether it is so when casts of the inputs are skipped. *)
Definition CmpU_sub (mod_in2 mod_uncast : bool) (t1 t2 : IType) : option IType :=
  match t1, t2 with
  | Int rlo0 rhi0 _, Int rlo1 rhi1 _ =>
      let lo0 := u32 rlo0 in
      let hi0 := u32 rhi0 in
      let lo1 := u32 rlo1 in
      let hi1 := u32 rhi1 in
      let bot0 := s32 (lo0 ^^^ hi0) <? 0 in
      let bot1 := s32 (lo1 ^^^ hi1) <? 0 in
      let rest :=
        if (s32 lo0 >=? 0) && (s32 lo1 >=? 0) && mod_uncast then Some TypeInt.CC_LT
        else Some TypeInt.CC in
      if bot0 || bot1 then
        if (lo0 =? 0) && (hi0 =? 0) then Some TypeInt.CC_LE
        else if (lo1 =? 0) && (hi1 =? 0) then Some TypeInt.CC_GE
        else rest
      else
        ASSERT (lo0 <=? hi0) && (lo1 <=? hi1) ;;
        if hi0 <? lo1 then Some TypeInt.CC_LT
        else if lo0 >? hi1 then Some TypeInt.CC_GT
        else if (hi0 =? lo1) && (lo0 =? hi1) then Some TypeInt.CC_EQ
        else if lo0 >=? hi1 then Some TypeInt.CC_GE
        else if hi0 <=? lo1 then
          if (s32 lo0 >=? 0) && (s32 lo1 >=? 0) && mod_in2 then Some TypeInt.CC_LT
          else Some TypeInt.CC_LE
        else rest
  | _, _ => None
  end.

(** ** Tests of comparisons *)

Module BoolTest.

Inductive mask := eq | ne | le | ge | lt | gt | illegal.

#[export] Instance mask_eq_dec : EqDecision mask.
Proof. solve_decision. Defined.

Definition mask_value (m : mask) : Z :=
  match m with eq => 0 | ne => 4 | le => 5 | ge => 7 | lt => 3 | gt => 1 | illegal => 8 end.

Definition cc2logical (test : mask) (CC : IType) : option IType :=
  if decide (CC = Top) then Some Top else
  match CC with
  | Int lo hi _ =>
      if TypeInt.is_con lo hi then
        let tmp := if (lo &&& 3) =? (mask_value test &&& 3) then 1 else 0 in
        let tmp := if negb ((mask_value test &&& 4) =? 0) then 1 - tmp else tmp in
        Some (TypeInt.make_con tmp)
      else if bool_decide (CC = TypeInt.CC_GE) && bool_decide (test = ge) then Some TypeInt.ONE
      else if bool_decide (CC = TypeInt.CC_GE) && bool_decide (test = lt) then Some TypeInt.ZERO
      else if bool_decide (CC = TypeInt.CC_LE) && bool_decide (test = le) then Some TypeInt.ONE
      else if bool_decide (CC = TypeInt.CC_LE) && bool_decide (test = gt) then Some TypeInt.ZERO
      else Some TypeInt.BOOL
  | _ => Some TypeInt.BOOL
  end.

(** The digits of the string 038147858; [mask] of a number that is no test is not
    defined. *)
Definition mask_of (v : Z) : option mask :=
  if v =? 0 then Some eq else if v =? 4 then Some ne else if v =? 5 then Some le
  else if v =? 7 then Some ge else if v =? 3 then Some lt else if v =? 1 then Some gt
  else if v =? 8 then Some illegal else None.

Definition commute (test : mask) : option mask :=
  d ← load [0; 3; 8; 1; 4; 7; 8; 5; 8] (mask_value test);
  mask_of d.

Definition negate (test : mask) : option mask := mask_of (Z.lxor (mask_value test) 4).
End BoolTest.

(** * Soundness *)

(** The sign that a comparison computes. *)
Definition cmp (a b : Z) : Z := if a <? b then -1 else if a >? b then 1 else 0.

(** Whether a test accepts the sign of a comparison. *)
Definition test_holds (test : BoolTest.mask) (cc : Z) : bool :=
  match test with
  | BoolTest.eq => cc =? 0 | BoolTest.ne => negb (cc =? 0)
  | BoolTest.le => cc <=? 0 | BoolTest.ge => cc >=? 0
  | BoolTest.lt => cc <? 0 | BoolTest.gt => cc >? 0
  | BoolTest.illegal => false
  end.

Definition in_range (v : value) : Prop :=
  match v with VInt i => is_s 32 i | VLong i => is_s 64 i | _ => True end.

(** [Value] returns a type of every result of [op]. *)
Definition covers (val1 val2 val : Z -> value) (op : Z -> Z -> Z)
    (Value : IType -> IType -> option IType) : Prop :=
  forall t1 t2 a b,
    wf t1 -> wf t2 -> in_range (val1 a) -> in_range (val2 b) ->
    has_type (val1 a) t1 -> has_type (val2 b) t2 ->
    exists t, Value t1 t2 = Some t /\ wf t /\ has_type (val (op a b)) t.

(** The same of a function that is not called with bottom. *)
Definition ring_covers (val1 val2 val : Z -> value) (op : Z -> Z -> Z)
    (ring : IType -> IType -> option IType) : Prop :=
  forall t1 t2 a b,
    wf t1 -> wf t2 -> in_range (val1 a) -> in_range (val2 b) ->
    has_type (val1 a) t1 -> has_type (val2 b) t2 -> t1 <> Bottom -> t2 <> Bottom ->
    exists t, ring t1 t2 = Some t /\ wf t /\ has_type (val (op a b)) t.

(** ** The base classes *)

Lemma has_not_top v t : has_type v t -> t <> Top.
Proof. intros H ->. by destruct v. Qed.

Section base.
Context (val : Z -> value) (op : Z -> Z -> Z) (bot unit_ : IType) (u : Z).
Hypothesis Hbot : wf bot /\ forall a b, in_range (val a) -> in_range (val b) -> has_type (val (op a b)) bot.
Hypothesis Hunit : wf unit_ /\ forall a, has_type (val a) unit_ <-> a = u.
Set Default Proof Using "Type*".

Lemma add_node_covers ring :
  (forall a, in_range (val a) -> op u a = a /\ op a u = a) ->
  ring_covers val val val op ring -> covers val val val op (AddNode_Value bot unit_ ring).
Proof.
  intros Hid Hring t1 t2 a b Hw1 Hw2 Ha Hb H1 H2. destruct Hbot as [Hwb Hb'], Hunit as [Hwu Hu].
  unfold AddNode_Value, add_of_identity.
  rewrite (decide_False (P := t1 = Top)), (decide_False (P := t2 = Top)) by eauto using has_not_top.
  destruct (decide _) as [_|Hn]; [eexists; split_and!; [done..|by apply Hb']|].
  destruct (higher_equal_sound t1 unit_ (val a) Hw1 Hwu) as (b1 & -> & He1). cbn [mbind option_bind].
  destruct b1.
  { eexists. split_and!; [done..|]. rewrite (proj1 (Hu a) (He1 eq_refl H1)).
    by rewrite (proj1 (Hid b Hb)). }
  destruct (higher_equal_sound t2 unit_ (val b) Hw2 Hwu) as (b2 & -> & He2). cbn [mbind option_bind].
  destruct b2.
  { eexists. split_and!; [done..|]. rewrite (proj1 (Hu b) (He2 eq_refl H2)).
    by rewrite (proj2 (Hid a Ha)). }
  apply Hring; tauto.
Qed.

Lemma mul_node_covers ring :
  (forall a, op u a = u /\ op a u = u) ->
  ring_covers val val val op ring -> covers val val val op (MulNode_Value bot unit_ ring).
Proof.
  intros Hid Hring t1 t2 a b Hw1 Hw2 Ha Hb H1 H2. destruct Hbot as [Hwb Hb'], Hunit as [Hwu Hu].
  unfold MulNode_Value.
  rewrite (decide_False (P := t1 = Top)), (decide_False (P := t2 = Top)) by eauto using has_not_top.
  destruct (higher_equal_sound t1 unit_ (val a) Hw1 Hwu) as (b1 & -> & He1). cbn [mbind option_bind].
  destruct b1.
  { eexists. split_and!; [done..|]. apply Hu. rewrite (proj1 (Hu a) (He1 eq_refl H1)). apply Hid. }
  destruct (higher_equal_sound t2 unit_ (val b) Hw2 Hwu) as (b2 & -> & He2). cbn [mbind option_bind].
  destruct b2.
  { eexists. split_and!; [done..|]. apply Hu. rewrite (proj1 (Hu b) (He2 eq_refl H2)). apply Hid. }
  destruct (decide _) as [_|Hn]; [eexists; split_and!; [done..|by apply Hb']|].
  apply Hring; tauto.
Qed.
End base.

(** [Value] with the result of comparing the inputs' nodes. *)
Definition covers_eqv (val valr : Z -> value) (op : Z -> Z -> Z)
    (Value : IType -> IType -> bool -> option IType) : Prop :=
  forall t1 t2 eqv a b,
    wf t1 -> wf t2 -> in_range (val a) -> in_range (val b) ->
    has_type (val a) t1 -> has_type (val b) t2 -> (eqv = true -> a = b) ->
    exists t, Value t1 t2 eqv = Some t /\ wf t /\ has_type (valr (op a b)) t.

Lemma sub_node_covers val valr op bot zero sub :
  wf bot -> wf zero -> (forall a b, has_type (valr (op a b)) bot) ->
  (forall a, has_type (valr (op a a)) zero) -> ring_covers val val valr op sub ->
  covers_eqv val valr op (SubNode_Value bot zero sub).
Proof.
  intros Hwb Hwz Hbot Hz Hring t1 t2 eqv a b Hw1 Hw2 Ha Hb H1 H2 Heq. unfold SubNode_Value.
  rewrite (decide_False (P := t1 = Top)), (decide_False (P := t2 = Top)) by eauto using has_not_top.
  destruct eqv; [eexists; split_and!; [done..|rewrite Heq by done; apply Hz]|].
  destruct (decide _) as [_|Hn]; [by eexists|]. apply Hring; tauto.
Qed.

(** ** Sums and differences *)

(** A number at most one wrap-around away from the range. *)
Lemma wraps_near w x :
  0 < w -> - 2 ^ w <= x < 2 ^ w ->
  wraps w x = if x <? - 2 ^ (w - 1) then x + 2 ^ w else if x >=? 2 ^ (w - 1) then x - 2 ^ w else x.
Proof.
  intros Hw Hx. pose proof (pow2_half w Hw). pose proof (Z.pow_pos_nonneg 2 (w - 1)).
  assert (Hext : forall y, is_s w y -> (exists k, x = y + k * 2 ^ w) -> wraps w x = y).
  { intros y Hy [k ->]. rewrite <- (wraps_id w y) at 2 by done. apply wraps_ext. unfold wrapu.
    apply Z.mod_add. lia. }
  destruct (Z.ltb_spec x (- 2 ^ (w - 1))); [|rewrite Z.geb_leb; destruct (Z.leb_spec (2 ^ (w - 1)) x)];
    apply Hext; unfold is_s; try lia; [exists (-1)|exists 1|exists 0]; lia.
Qed.

(** Split the conditionals of the hypotheses. *)
Ltac ifs := repeat match goal with H : context [if ?b then _ else _] |- _ => destruct b eqn:? end.

(** The bounds of a sum, as both widths compute them. *)
Lemma sum_between w (min max lo0 hi0 lo1 hi1 a b : Z) :
  0 < w -> min = - 2 ^ (w - 1) -> max = 2 ^ (w - 1) - 1 ->
  is_s w lo0 -> is_s w hi0 -> is_s w lo1 -> is_s w hi1 -> lo0 <= a <= hi0 -> lo1 <= b <= hi1 ->
  let lo := wraps w (lo0 + lo1) in
  let hi := wraps w (hi0 + hi1) in
  let '(lo, hi) :=
    if negb ((lo0 =? hi0) && (lo1 =? hi1)) then
      let '(lo, hi) := if ((lo0 &&& lo1) <? 0) && (lo >=? 0) then (min, max) else (lo, hi) in
      let '(lo, hi) := if (Z.lnot (hi0 ||| hi1) <? 0) && (hi <? 0) then (min, max) else (lo, hi) in
      if lo >? hi then (min, max) else (lo, hi)
    else (lo, hi) in
  is_s w lo /\ is_s w hi /\ lo <= wraps w (a + b) <= hi.
Proof.
  intros Hw Hmin Hmax Hlo0 Hhi0 Hlo1 Hhi1 Ha Hb lo hi.
  pose proof (pow2_half w Hw) as Hp. pose proof (Z.pow_pos_nonneg 2 (w - 1)).
  pose proof (wraps_range w (lo0 + lo1) Hw) as Hrlo. pose proof (wraps_range w (hi0 + hi1) Hw) as Hrhi.
  pose proof (wraps_range w (a + b) Hw) as Hrr.
  pose proof (Z.land_nonneg lo0 lo1) as Hand. pose proof (Z.lor_nonneg hi0 hi1) as Hor.
  pose proof (Z.lnot_nonneg (hi0 ||| hi1)) as Hnot. fold lo in Hrlo. fold hi in Hrhi. unfold is_s in *.
  assert (Elo : lo = _) by (apply wraps_near; lia). assert (Ehi : hi = _) by (apply wraps_near; lia).
  pose proof (wraps_near w (a + b) Hw ltac:(lia)) as Er.
  clearbody lo hi. set (res := wraps w (a + b)) in *. clearbody res.
  destruct ((lo0 =? hi0) && (lo1 =? hi1)) eqn:E1; cbn [negb].
  { replace (a + b) with (lo0 + lo1) in Er by lia. replace (hi0 + hi1) with (lo0 + lo1) in Ehi by lia. lia. }
  destruct (((lo0 &&& lo1) <? 0) && (lo >=? 0)) eqn:E2.
  - destruct ((Z.lnot (hi0 ||| hi1) <? 0) && (max <? 0)) eqn:E3; destruct (min >? max) eqn:E4; lia.
  - destruct ((Z.lnot (hi0 ||| hi1) <? 0) && (hi <? 0)) eqn:E3.
    + destruct (min >? max) eqn:E4; lia.
    + assert (lo0 < 0 -> lo1 < 0 -> lo < 0) by lia.
      assert (0 <= hi0 -> 0 <= hi1 -> 0 <= hi) by lia. clear Hand Hor Hnot E1 E2 E3.
      destruct (lo >? hi) eqn:E4; [lia|]. ifs; lia.
Qed.

(** The bounds of a difference. *)
Lemma difference_between w lo0 hi0 lo1 hi1 a b :
  0 < w -> is_s w lo0 -> is_s w hi0 -> is_s w lo1 -> is_s w hi1 -> lo0 <= a <= hi0 -> lo1 <= b <= hi1 ->
  let lo := wraps w (lo0 - hi1) in
  let hi := wraps w (hi0 - lo1) in
  (((lo0 ^^^ hi1) >=? 0) || ((lo0 ^^^ lo) >=? 0)) && (((hi0 ^^^ lo1) >=? 0) || ((hi0 ^^^ hi) >=? 0)) = true ->
  lo <= wraps w (a - b) <= hi.
Proof.
  intros Hw Hlo0 Hhi0 Hlo1 Hhi1 Ha Hb lo hi E.
  pose proof (pow2_half w Hw) as Hp. pose proof (Z.pow_pos_nonneg 2 (w - 1)).
  assert (Hlo : 0 <= lo0 /\ 0 <= hi1 \/ lo0 < 0 /\ hi1 < 0 \/ (0 <= lo0 /\ 0 <= lo \/ lo0 < 0 /\ lo < 0)).
  { pose proof (Z.lxor_nonneg lo0 hi1). pose proof (Z.lxor_nonneg lo0 lo). lia. }
  assert (Hhi : 0 <= hi0 /\ 0 <= lo1 \/ hi0 < 0 /\ lo1 < 0 \/ (0 <= hi0 /\ 0 <= hi \/ hi0 < 0 /\ hi < 0)).
  { pose proof (Z.lxor_nonneg hi0 lo1). pose proof (Z.lxor_nonneg hi0 hi). lia. }
  clear E. unfold is_s in *.
  assert (Elo : lo = _) by (apply wraps_near; lia). assert (Ehi : hi = _) by (apply wraps_near; lia).
  pose proof (wraps_near w (a - b) Hw ltac:(lia)) as Er.
  set (res := wraps w (a - b)) in *. clearbody res lo hi. ifs; lia.
Qed.

(** ** Products *)

(** Rounding to a double has a relative error of at most 2^-53. *)
Lemma round_double_error x : 2 ^ 53 * Z.abs (round_double x - x) <= Z.abs x.
Proof.
  unfold round_double. set (m := Z.abs x). set (e := Z.log2 m - 52).
  destruct (Z.leb_spec e 0) as [|He]; [rewrite Z.sub_diag; lia|].
  assert (Hm : 0 < m) by (apply Z.log2_lt_cancel; cbn; lia).
  destruct (Z.log2_spec m Hm) as [Hl _].
  assert (Hpow : 2 ^ Z.log2 m = 2 ^ 53 * 2 ^ (e - 1)) by (rewrite <- Z.pow_add_r by lia; f_equal; lia).
  assert (Hhalf : 2 ^ e = 2 * 2 ^ (e - 1)) by (apply pow2_half; lia).
  pose proof (Z.div_mod m (2 ^ e) ltac:(lia)) as Ed. pose proof (Z.mod_pos_bound m (2 ^ e) ltac:(lia)).
  set (q := m / 2 ^ e) in *. set (rest := m mod 2 ^ e) in *. set (h := 2 ^ (e - 1)) in *.
  set (q' := if _ : bool then _ else _).
  assert (Hq : Z.abs (q' * 2 ^ e - m) <= h).
  { unfold q'. destruct ((h <? rest) || _) eqn:E; [|apply orb_false_iff in E as [E%Z.ltb_ge _]; lia].
    assert (h <= rest) by (destruct (Z.ltb_spec h rest); [lia|]; apply andb_true_iff in E as [E _]; lia). lia. }
  assert (Hx : Z.abs (Z.sgn x * (q' * 2 ^ e) - x) = Z.abs (q' * 2 ^ e - m)).
  { rewrite <- (Z.abs_sgn x) at 2. fold m. rewrite (Z.mul_comm m), <- Z.mul_sub_distr_l, Z.abs_mul.
    replace (Z.abs (Z.sgn x)) with 1 by lia. lia. }
  rewrite Hx. lia.
Qed.

Lemma scaled_product k u v u' v' :
  0 <= k -> 0 <= u <= u' -> 0 <= v -> k * v <= v' -> k * (u * v) <= u' * v'.
Proof.
  intros Hk Hu Hv Hv'. replace (k * (u * v)) with (u * (k * v)) by ring.
  apply Z.mul_le_mono_nonneg; lia.
Qed.

Lemma small_multiple k m b : Z.abs (k * m) < b -> 0 < b <= m -> k = 0.
Proof. rewrite Z.abs_mul. intros H Hb. destruct (Z.eq_dec k 0); [done|]. nia. Qed.

Lemma abs_sub_triangle x y z : Z.abs (x - z) <= Z.abs (x - y) + Z.abs (y - z).
Proof. lia. Qed.

Lemma abs_sub_comm x y : Z.abs (x - y) = Z.abs (y - x).
Proof. lia. Qed.

Lemma three_errors p a b c t s :
  2 ^ 53 * a <= p -> 2 ^ 53 * b <= p -> 2 ^ 53 * c <= p -> t <= a + b -> s <= t + c -> 2 ^ 53 * s <= 3 * p.
Proof. lia. Qed.

Lemma abs_le_sub x y : Z.abs x <= Z.abs y + Z.abs (x - y).
Proof. lia. Qed.

(** The errors of a product [p] in doubles, and of the wrapped product [a]. *)
Lemma rounding_errors p a pd e1 e2 e3 d :
  0 <= p -> 0 <= a <= 2 ^ 63 -> 0 <= e1 -> 2 ^ 53 * e1 <= 3 * p -> 2 ^ 53 * e2 <= pd ->
  2 ^ 53 * e3 <= a -> pd <= p + e1 -> p <= a + d -> d <= e1 + (e2 + e3) -> d < 2 ^ 14.
Proof. lia. Qed.

(** A wrapped product that equals the product in doubles did not wrap. *)
Lemma product_exact w x y :
  16 <= w <= 64 ->
  round_double (wraps w (x * y)) = round_double (round_double x * round_double y) ->
  wraps w (x * y) = x * y.
Proof.
  intros Hw E. set (A := wraps w (x * y)) in *. set (P := x * y).
  pose proof (wraps_range w (x * y) ltac:(lia)) as HA. fold A P in HA. unfold is_s in HA.
  assert (HA' : Z.abs A <= 2 ^ 63).
  { pose proof (Z.pow_le_mono_r 2 (w - 1) 63 ltac:(lia) ltac:(lia)). lia. }
  pose proof (round_double_error x) as Ex. pose proof (round_double_error y) as Ey.
  set (dx := round_double x - x) in *. set (dy := round_double y - y) in *.
  set (Pd := round_double x * round_double y) in *.
  assert (HPd : Pd - P = x * dy + y * dx + dx * dy) by (unfold Pd, P, dx, dy; ring).
  assert (H1 : 2 ^ 53 * Z.abs (x * dy) <= Z.abs P)
    by (unfold P; rewrite !Z.abs_mul; apply scaled_product; lia).
  assert (H2 : 2 ^ 53 * Z.abs (y * dx) <= Z.abs P)
    by (unfold P; rewrite (Z.mul_comm x), !Z.abs_mul; apply scaled_product; lia).
  assert (H3 : 2 ^ 53 * Z.abs (dx * dy) <= Z.abs P)
    by (unfold P; rewrite !Z.abs_mul; apply scaled_product; lia).
  pose proof (round_double_error Pd) as Ep. pose proof (round_double_error A) as Ea. rewrite E in Ea.
  set (F := round_double Pd) in *.
  assert (Hd : 2 ^ 53 * Z.abs (Pd - P) <= 3 * Z.abs P).
  { rewrite HPd. eapply three_errors; [exact H1|exact H2|exact H3|apply Z.abs_triangle|apply Z.abs_triangle]. }
  assert (Hclose : Z.abs (P - A) < 2 ^ 14).
  { apply (rounding_errors (Z.abs P) (Z.abs A) (Z.abs Pd) (Z.abs (Pd - P)) (Z.abs (F - Pd)) (Z.abs (F - A)));
      [apply Z.abs_nonneg|split; [apply Z.abs_nonneg|done]|apply Z.abs_nonneg|done|done|done|apply abs_le_sub|apply abs_le_sub|].
    rewrite (abs_sub_comm Pd P), (abs_sub_comm F Pd).
    etrans; [apply (abs_sub_triangle P Pd A)|]. apply Z.add_le_mono_l, abs_sub_triangle. }
  clear - Hw Hclose. assert (Hdiff : exists k, P - A = k * 2 ^ w).
  { pose proof (wrapu_wraps w P ltac:(lia)) as Hu. unfold A. fold P. unfold wrapu in Hu.
    exists ((P - wraps w P) / 2 ^ w). rewrite Z.mul_comm. apply Z.div_exact; [lia|].
    rewrite Zminus_mod, Hu, Z.sub_diag. apply Z.mod_0_l. lia. }
  destruct Hdiff as [k Hk]. pose proof (Z.pow_le_mono_r 2 14 w ltac:(lia) ltac:(lia)).
  rewrite Hk in Hclose. rewrite (small_multiple k (2 ^ w) (2 ^ 14) Hclose ltac:(lia)) in Hk.
  lia.
Qed.

Lemma sort_products_spec A B C D :
  sort_products A B C D = (Z.min (Z.min A B) (Z.min C D), Z.max (Z.max A B) (Z.max C D)).
Proof.
  unfold sort_products. destruct (Z.ltb_spec A B); destruct (Z.ltb_spec C D); repeat case_match; f_equal; lia.
Qed.

Lemma mul_between x lo hi c :
  lo <= x <= hi -> Z.min (lo * c) (hi * c) <= x * c <= Z.max (lo * c) (hi * c).
Proof. intros Hx. destruct (Z.le_gt_cases 0 c); nia. Qed.

Lemma product_between a b lo0 hi0 lo1 hi1 :
  lo0 <= a <= hi0 -> lo1 <= b <= hi1 ->
  Z.min (Z.min (lo0 * lo1) (lo0 * hi1)) (Z.min (hi0 * lo1) (hi0 * hi1)) <= a * b <=
  Z.max (Z.max (lo0 * lo1) (lo0 * hi1)) (Z.max (hi0 * lo1) (hi0 * hi1)).
Proof.
  intros Ha Hb. pose proof (mul_between a lo0 hi0 lo1 Ha). pose proof (mul_between a lo0 hi0 hi1 Ha).
  pose proof (mul_between b lo1 hi1 a Hb). rewrite !(Z.mul_comm _ a) in *. lia.
Qed.

(** ** The functions of the node classes *)

Lemma wraps_int_type i : wf TypeInt.INT /\ has_type (VInt (s32 i)) TypeInt.INT.
Proof. split; [by split_and!|]. apply int_type_range, wraps_range. lia. Qed.

Lemma wraps_long_type i : wf TypeLong.LONG /\ has_type (VLong (s64 i)) TypeLong.LONG.
Proof. split; [by split_and!|]. apply long_type_range, wraps_range. lia. Qed.

(** A result of [make] from the bounds. *)
Lemma make_int_result lo hi w0 w1 i :
  is_s 32 lo -> is_s 32 hi -> WidenMin <= w0 <= WidenMax -> WidenMin <= w1 <= WidenMax ->
  lo <= i <= hi ->
  exists t, Some (TypeInt.make lo hi (MAX2 w0 w1)) = Some t /\ wf t /\ has_type (VInt i) t.
Proof.
  intros. eexists. split_and!; [done|apply make_int_wf; try done; unfold MAX2; case_match; done|].
  by apply make_int_has.
Qed.

Lemma make_long_result lo hi w0 w1 i :
  is_s 64 lo -> is_s 64 hi -> WidenMin <= w0 <= WidenMax -> WidenMin <= w1 <= WidenMax ->
  lo <= i <= hi ->
  exists t, Some (TypeLong.make lo hi (MAX2 w0 w1)) = Some t /\ wf t /\ has_type (VLong i) t.
Proof.
  intros. eexists. split_and!; [done|apply make_long_wf; try done; unfold MAX2; case_match; done|].
  by apply make_long_has.
Qed.

Lemma int_result i : is_s 32 i -> exists t, Some TypeInt.INT = Some t /\ wf t /\ has_type (VInt i) t.
Proof. intros. eexists. split_and!; [done..|]. by apply int_type_range. Qed.

Lemma long_result i : is_s 64 i -> exists t, Some TypeLong.LONG = Some t /\ wf t /\ has_type (VLong i) t.
Proof. intros. eexists. split_and!; [done..|]. by apply long_type_range. Qed.

(** Take two int types, or two long types, apart. *)
Ltac two_types :=
  intros t1 t2 a b Hw1 Hw2 Ha Hb H1 H2 N1 N2;
  destruct t1; try done; destruct t2; try done; clear N1 N2;
  destruct Hw1 as (Hlo0 & Hhi0 & Hwd0), Hw2 as (Hlo1 & Hhi1 & Hwd1); cbn [has_type] in H1, H2;
  cbn [in_range] in Ha, Hb.

Lemma add_int_ring : ring_covers VInt VInt VInt (fun a b => s32 (a + b)) AddI_add_ring.
Proof.
  two_types. unfold AddI_add_ring, TypeInt.is_con.
  pose proof (sum_between 32 min_jint max_jint lo hi lo0 hi0 a b ltac:(lia) eq_refl eq_refl
    Hlo0 Hhi0 Hlo1 Hhi1 H1 H2) as Hs.
  cbv zeta in Hs |- *. set (p := if negb _ then _ else _) in *. destruct p as [l h].
  apply make_int_result; tauto.
Qed.

Lemma add_long_ring : ring_covers VLong VLong VLong (fun a b => s64 (a + b)) AddL_add_ring.
Proof.
  two_types. unfold AddL_add_ring, TypeLong.is_con.
  pose proof (sum_between 64 min_jlong max_jlong lo hi lo0 hi0 a b ltac:(lia) eq_refl eq_refl
    Hlo0 Hhi0 Hlo1 Hhi1 H1 H2) as Hs.
  cbv zeta in Hs |- *. set (p := if negb _ then _ else _) in *. destruct p as [l h].
  apply make_long_result; tauto.
Qed.

Lemma sub_int_ring : ring_covers VInt VInt VInt (fun a b => s32 (a - b)) SubI_sub.
Proof.
  two_types. unfold SubI_sub. cbv zeta. destruct (_ && _) eqn:E.
  - apply make_int_result; try done; try (apply wraps_range; lia). by apply difference_between.
  - apply int_result, wraps_range. lia.
Qed.

Lemma sub_long_ring : ring_covers VLong VLong VLong (fun a b => s64 (a - b)) SubL_sub.
Proof.
  two_types. unfold SubL_sub. cbv zeta. destruct (_ && _) eqn:E.
  - apply make_long_result; try done; try (apply wraps_range; lia). by apply difference_between.
  - apply long_result, wraps_range. lia.
Qed.

(** The four products that did not overflow. *)
Lemma corners_between w a b lo0 hi0 lo1 hi1 :
  16 <= w <= 64 -> lo0 <= a <= hi0 -> lo1 <= b <= hi1 ->
  wraps w (lo0 * lo1) = lo0 * lo1 -> wraps w (lo0 * hi1) = lo0 * hi1 ->
  wraps w (hi0 * lo1) = hi0 * lo1 -> wraps w (hi0 * hi1) = hi0 * hi1 ->
  let '(lo, hi) := sort_products (wraps w (lo0 * lo1)) (wraps w (lo0 * hi1))
                     (wraps w (hi0 * lo1)) (wraps w (hi0 * hi1)) in
  is_s w lo /\ is_s w hi /\ lo <= wraps w (a * b) <= hi.
Proof.
  intros Hw Ha Hb EA EB EC ED. rewrite sort_products_spec.
  pose proof (wraps_range w (lo0 * lo1) ltac:(lia)). pose proof (wraps_range w (lo0 * hi1) ltac:(lia)).
  pose proof (wraps_range w (hi0 * lo1) ltac:(lia)). pose proof (wraps_range w (hi0 * hi1) ltac:(lia)).
  pose proof (product_between a b lo0 hi0 lo1 hi1 Ha Hb) as Hp. rewrite EA, EB, EC, ED in *.
  unfold is_s in *. rewrite wraps_id by (unfold is_s; lia). lia.
Qed.

Lemma mul_int_ring : ring_covers VInt VInt VInt (fun a b => s32 (a * b)) MulI_mul_ring.
Proof.
  two_types. unfold MulI_mul_ring. cbv zeta.
  assert (Hint : exists t, Some TypeInt.INT = Some t /\ wf t /\ has_type (VInt (s32 (a * b))) t)
    by (apply int_result, wraps_range; lia).
  destruct (Z.eqb_spec (round_double (s32 (lo * lo0))) (round_double (round_double lo * round_double lo0))) as [EA|]; [|done].
  destruct (Z.eqb_spec (round_double (s32 (lo * hi0))) (round_double (round_double lo * round_double hi0))) as [EB|]; [|done].
  destruct (Z.eqb_spec (round_double (s32 (hi * lo0))) (round_double (round_double hi * round_double lo0))) as [EC|]; [|done].
  destruct (Z.eqb_spec (round_double (s32 (hi * hi0))) (round_double (round_double hi * round_double hi0))) as [ED|]; [|done].
  apply product_exact in EA, EB, EC, ED; [|lia..]. cbn [negb].
  pose proof (corners_between 32 a b lo hi lo0 hi0 ltac:(lia) H1 H2 EA EB EC ED) as Hs.
  destruct (sort_products _ _ _ _) as [l h]. apply make_int_result; tauto.
Qed.

Lemma mul_long_ring : ring_covers VLong VLong VLong (fun a b => s64 (a * b)) MulL_mul_ring.
Proof.
  two_types. unfold MulL_mul_ring. cbv zeta.
  assert (Hint : exists t, Some TypeLong.LONG = Some t /\ wf t /\ has_type (VLong (s64 (a * b))) t)
    by (apply long_result, wraps_range; lia).
  destruct (Z.eqb_spec (round_double (s64 (lo * lo0))) (round_double (round_double lo * round_double lo0))) as [EA|]; [|done].
  destruct (Z.eqb_spec (round_double (s64 (lo * hi0))) (round_double (round_double lo * round_double hi0))) as [EB|]; [|done].
  destruct (Z.eqb_spec (round_double (s64 (hi * lo0))) (round_double (round_double hi * round_double lo0))) as [EC|]; [|done].
  destruct (Z.eqb_spec (round_double (s64 (hi * hi0))) (round_double (round_double hi * round_double hi0))) as [ED|]; [|done].
  apply product_exact in EA, EB, EC, ED; [|lia..]. cbn [negb].
  pose proof (corners_between 64 a b lo hi lo0 hi0 ltac:(lia) H1 H2 EA EB EC ED) as Hs.
  destruct (sort_products _ _ _ _) as [l h]. apply make_long_result; tauto.
Qed.

(** *** Bit operations *)

Lemma land_upper x c : 0 <= c -> 0 <= x &&& c <= c.
Proof.
  intros Hc. split; [apply Z.land_nonneg; by right|].
  assert (c - (x &&& c) = Z.ldiff c (x &&& c)).
  { apply Z.sub_nocarry_ldiff. apply Z.bits_inj'. intros n Hn.
    rewrite Z.ldiff_spec, Z.land_spec, Z.bits_0. destruct (Z.testbit x n), (Z.testbit c n); done. }
  pose proof (proj2 (Z.ldiff_nonneg c (x &&& c)) (or_introl Hc)). lia.
Qed.

Lemma con_int_result i : is_s 32 i -> exists t, Some (TypeInt.make_con i) = Some t /\ wf t /\ has_type (VInt i) t.
Proof. intros. eexists. split_and!; [done..|]. cbn. lia. Qed.

Lemma con_long_result i : is_s 64 i -> exists t, Some (TypeLong.make_con i) = Some t /\ wf t /\ has_type (VLong i) t.
Proof. intros. eexists. split_and!; [done..|]. cbn. lia. Qed.

Lemma bool_result i : 0 <= i <= 1 -> exists t, Some TypeInt.BOOL = Some t /\ wf t /\ has_type (VInt i) t.
Proof. intros. eexists. split_and!; [done..|]. by apply make_int_has. Qed.

Lemma and_int_ring : ring_covers VInt VInt VInt Z.land AndI_mul_ring.
Proof.
  two_types. unfold AndI_mul_ring, TypeInt.is_con. cbv zeta.
  pose proof (land_range 32 a b ltac:(lia) Ha Hb) as Hr.
  assert (Hbool : Int lo hi widen = TypeInt.BOOL \/ Int lo0 hi0 widen0 = TypeInt.BOOL -> 0 <= a &&& b <= 1).
  { intros [[= -> -> _]|[= -> -> _]]; [rewrite Z.land_comm; pose proof (land_upper b a)|pose proof (land_upper a b)]; lia. }
  destruct (Z.eqb_spec lo hi), (Z.eqb_spec lo0 hi0); cbn [negb andb].
  - replace lo with a by lia. replace lo0 with b by lia. by apply con_int_result.
  - destruct (lo >? 0) eqn:E; [|destruct (decide _); [apply bool_result|apply int_result]; auto].
    apply make_int_result; try done. replace lo with a by lia. rewrite Z.land_comm. apply land_upper. lia.
  - destruct (lo0 >? 0) eqn:E; [|destruct (decide _); [apply bool_result|apply int_result]; auto].
    apply make_int_result; try done. replace lo0 with b by lia. apply land_upper. lia.
  - by apply int_result.
Qed.

Lemma and_long_ring : ring_covers VLong VLong VLong Z.land AndL_mul_ring.
Proof.
  two_types. unfold AndL_mul_ring, TypeLong.is_con. cbv zeta.
  pose proof (land_range 64 a b ltac:(lia) Ha Hb) as Hr.
  destruct (Z.eqb_spec lo hi), (Z.eqb_spec lo0 hi0); cbn [negb andb].
  - replace lo with a by lia. replace lo0 with b by lia. by apply con_long_result.
  - destruct (lo >? 0) eqn:E; [|by apply long_result].
    apply make_long_result; try done. replace lo with a by lia. rewrite Z.land_comm. apply land_upper. lia.
  - destruct (lo0 >? 0) eqn:E; [|by apply long_result].
    apply make_long_result; try done. replace lo0 with b by lia. apply land_upper. lia.
  - by apply long_result.
Qed.

(** Zero and one. *)
Ltac bits :=
  repeat match goal with H : 0 <= ?x <= 1 |- _ =>
    destruct (Z.eq_dec x 0) as [->|]; [|replace x with 1 in * by lia]; clear H end.

Lemma or_int_ring : ring_covers VInt VInt VInt Z.lor OrI_add_ring.
Proof.
  two_types. unfold OrI_add_ring, TypeInt.is_con. cbv zeta.
  pose proof (lor_range 32 a b ltac:(lia) Ha Hb) as Hr.
  set (rest := if _ || _ then _ else _).
  assert (Hrest : exists t, rest = Some t /\ wf t /\ has_type (VInt (a ||| b)) t).
  { unfold rest. destruct (Z.eqb_spec lo hi), (Z.eqb_spec lo0 hi0); cbn [negb orb];
      try (by apply int_result).
    replace lo with a by lia. replace lo0 with b by lia. by apply con_int_result. }
  clearbody rest.
  destruct (decide _) as [[= -> -> ->]|_]; [destruct (decide _) as [[= -> -> ->]|_];
    [|destruct (decide _) as [[= -> -> ->]|_]; [|done]]|
    destruct (decide _) as [[= -> -> ->]|_]; [|done]; destruct (decide _) as [[= -> -> ->]|_]; [|done]].
  - replace b with 1 by lia. bits; by eexists.
  - apply bool_result. bits; done.
  - replace a with 1 by lia. bits; by eexists.
Qed.

Lemma or_long_ring : ring_covers VLong VLong VLong Z.lor OrL_add_ring.
Proof.
  two_types. unfold OrL_add_ring, TypeLong.is_con.
  pose proof (lor_range 64 a b ltac:(lia) Ha Hb) as Hr.
  destruct (Z.eqb_spec lo hi), (Z.eqb_spec lo0 hi0); cbn [negb orb]; try (by apply long_result).
  replace lo with a by lia. replace lo0 with b by lia. by apply con_long_result.
Qed.

Lemma xor_int_ring : ring_covers VInt VInt VInt Z.lxor XorI_add_ring.
Proof.
  two_types. unfold XorI_add_ring, TypeInt.is_con.
  pose proof (lxor_range 32 a b ltac:(lia) Ha Hb) as Hr.
  destruct (decide _) as [[[= -> -> ->] [[= -> -> ->]|[= -> -> ->]]]|_].
  - apply bool_result. replace b with 1 by lia. bits; done.
  - apply bool_result. bits; done.
  - destruct (Z.eqb_spec lo hi), (Z.eqb_spec lo0 hi0); cbn [negb orb]; try (by apply int_result).
    replace lo with a by lia. replace lo0 with b by lia. by apply con_int_result.
Qed.

Lemma xor_long_ring : ring_covers VLong VLong VLong Z.lxor XorL_add_ring.
Proof.
  two_types. unfold XorL_add_ring, TypeLong.is_con.
  pose proof (lxor_range 64 a b ltac:(lia) Ha Hb) as Hr.
  destruct (Z.eqb_spec lo hi), (Z.eqb_spec lo0 hi0); cbn [negb orb]; try (by apply long_result).
  replace lo with a by lia. replace lo0 with b by lia. by apply con_long_result.
Qed.

Lemma max_int_ring : ring_covers VInt VInt VInt Z.max MaxI_add_ring.
Proof.
  two_types. unfold MaxI_add_ring. apply make_int_result; unfold MAX2, is_s in *; repeat case_match; lia.
Qed.

Lemma min_int_ring : ring_covers VInt VInt VInt Z.min MinI_add_ring.
Proof.
  two_types. unfold MinI_add_ring. apply make_int_result; unfold MIN2, is_s in *; repeat case_match; lia.
Qed.

(** *** Shifts *)

Definition java_shl (w a b : Z) : Z := wraps w (a ≪ (b &&& (w - 1))).
Definition java_shr (w a b : Z) : Z := a ≫ (b &&& (w - 1)).
Definition java_ushr (w a b : Z) : Z := wraps w (wrapu w a ≫ (b &&& (w - 1))).

(** A left shift that a right shift undoes lost no bits. *)
Lemma shl_exact w s x :
  0 < w -> 0 <= s < w -> wraps w (x ≪ s) ≫ s = x -> wraps w (x ≪ s) = x * 2 ^ s.
Proof.
  intros Hw Hs. rewrite Z.shiftl_mul_pow2, Z.shiftr_div_pow2 by lia.
  destruct (wraps_multiple w (x * 2 ^ s) Hw) as [k ->].
  assert (Hp : 2 ^ w = 2 ^ (w - s) * 2 ^ s) by (rewrite <- Z.pow_add_r by lia; f_equal; lia).
  rewrite Hp. replace (x * 2 ^ s + k * (2 ^ (w - s) * 2 ^ s)) with ((x + k * 2 ^ (w - s)) * 2 ^ s) by ring.
  assert (0 < 2 ^ s) by (apply Z.pow_pos_nonneg; lia). assert (0 < 2 ^ (w - s)) by (apply Z.pow_pos_nonneg; lia).
  rewrite Z.div_mul by lia. intros E. assert (k = 0) by nia. subst k. ring.
Qed.

Lemma shl_between w s a lo hi :
  0 < w -> 0 <= s < w -> lo <= a <= hi -> wraps w (lo ≪ s) ≫ s = lo -> wraps w (hi ≪ s) ≫ s = hi ->
  wraps w (lo ≪ s) <= wraps w (a ≪ s) <= wraps w (hi ≪ s).
Proof.
  intros Hw Hs Ha Elo Ehi. apply shl_exact in Elo, Ehi; [|done..].
  pose proof (wraps_range w (lo ≪ s) Hw) as Hlo. pose proof (wraps_range w (hi ≪ s) Hw) as Hhi.
  rewrite Elo, Ehi in *. assert (0 < 2 ^ s) by (apply Z.pow_pos_nonneg; lia).
  rewrite Z.shiftl_mul_pow2 by lia. unfold is_s in *. rewrite wraps_id; [nia|done|]. unfold is_s. nia.
Qed.

Lemma shr_between s a lo hi : 0 <= s -> lo <= a <= hi -> lo ≫ s <= a ≫ s <= hi ≫ s.
Proof.
  intros Hs Ha. rewrite !Z.shiftr_div_pow2 by done.
  assert (0 < 2 ^ s) by (apply Z.pow_pos_nonneg; lia). split; apply Z.div_le_mono; lia.
Qed.

(** The count of a shift. *)
Lemma count_31 b : 0 <= b &&& (32 - 1) < 32.
Proof. change (32 - 1) with (2 ^ 5 - 1). rewrite land_ones_mod by lia. apply Z.mod_pos_bound. lia. Qed.

Lemma count_63 b : 0 <= b &&& (64 - 1) < 64.
Proof. change (64 - 1) with (2 ^ 6 - 1). rewrite land_ones_mod by lia. apply Z.mod_pos_bound. lia. Qed.

(** Shifts of zero, and by zero. *)
Lemma shift_zero w b : 0 < w -> java_shl w 0 b = 0 /\ java_shr w 0 b = 0 /\ java_ushr w 0 b = 0.
Proof.
  intros. unfold java_shl, java_shr, java_ushr, wrapu. pose proof (Z.pow_pos_nonneg 2 w).
  rewrite Z.shiftl_0_l, Z.mod_0_l, Z.shiftr_0_l by lia. pose proof (Z.pow_pos_nonneg 2 (w - 1)).
  by rewrite wraps_id by (done || unfold is_s; lia).
Qed.

Lemma shift_by w a b :
  0 < w -> is_s w a -> b &&& (w - 1) = 0 ->
  java_shl w a b = a /\ java_shr w a b = a /\ java_ushr w a b = a.
Proof.
  intros Hw Ha E. unfold java_shl, java_shr, java_ushr. rewrite E, Z.shiftl_0_r, !Z.shiftr_0_r.
  rewrite wraps_wrapu, wraps_id by done. done.
Qed.

(** A zero-filling shift. *)
Lemma ushr_value w s x :
  0 < w -> 1 <= s < w -> is_s w x ->
  exists u, wraps w (wrapu w x ≫ s) = u / 2 ^ s /\ u = (if x <? 0 then x + 2 ^ w else x) /\
    0 <= u / 2 ^ s < 2 ^ (w - 1).
Proof.
  intros Hw Hs Hx. unfold is_s in Hx. pose proof (pow2_half w Hw) as Hp.
  assert (0 < 2 ^ (w - 1)) by (apply Z.pow_pos_nonneg; lia).
  assert (2 <= 2 ^ s) by (apply (Z.pow_le_mono_r 2 1 s); lia).
  exists (wrapu w x). pose proof (wrapu_range w x ltac:(lia)) as Hr. unfold is_u in Hr.
  assert (0 <= wrapu w x / 2 ^ s < 2 ^ (w - 1)).
  { split; [apply Z.div_pos; lia|apply Z.div_lt_upper_bound; nia]. }
  split_and!; try lia.
  - rewrite Z.shiftr_div_pow2 by lia. apply wraps_id; [done|]. unfold is_s. lia.
  - unfold wrapu. destruct (Z.ltb_spec x 0); [|apply Z.mod_small; lia].
    symmetry. apply (Z.mod_unique_pos _ _ (-1)); lia.
Qed.

Lemma ushr_between w s a lo hi :
  1 < w -> 1 <= s < w -> is_s w lo -> is_s w hi -> lo <= a <= hi ->
  let l := wraps w (wrapu w lo ≫ s) in
  let h := wraps w (wrapu w hi ≫ s) in
  let '(l, h) := if (hi >=? 0) && (lo <? 0) then
      (MIN2 l (wraps w (wrapu w 0 ≫ s)), MAX2 (wraps w (wrapu w (-1) ≫ s)) h)
    else (l, h) in
  is_s w l /\ is_s w h /\ l <= wraps w (wrapu w a ≫ s) <= h.
Proof.
  intros Hw Hs Hlo Hhi Ha. assert (1 < 2 ^ (w - 1)) by (apply (Z.pow_lt_mono_r 2 0); lia).
  assert (is_s w a /\ is_s w 0 /\ is_s w (-1)) as (Hsa & Hs0 & Hs1) by (unfold is_s in *; lia).
  destruct (ushr_value w s lo) as (ulo & -> & Eulo & Rlo); [lia..|done|].
  destruct (ushr_value w s hi) as (uhi & -> & Euhi & Rhi); [lia..|done|].
  destruct (ushr_value w s a) as (ua & -> & Eua & Ra); [lia..|done|].
  destruct (ushr_value w s 0) as (u0 & -> & Eu0 & R0); [lia..|done|].
  destruct (ushr_value w s (-1)) as (u1 & -> & Eu1 & R1); [lia..|done|].
  assert (Hmono : forall x y, x <= y -> x / 2 ^ s <= y / 2 ^ s).
  { intros. apply Z.div_le_mono; [apply Z.pow_pos_nonneg; lia|done]. }
  cbn [Z.ltb Z.compare] in Eu0, Eu1. rewrite Eu0, Z.div_0_l in * by (pose proof (Z.pow_pos_nonneg 2 s); lia).
  cbv zeta. unfold is_s in *. pose proof (pow2_half w ltac:(lia)) as Hp.
  pose proof (Hmono ulo ua) as M1. pose proof (Hmono ua uhi) as M2. pose proof (Hmono ua u1) as M3.
  unfold MIN2, MAX2. clear Hmono. ifs; destruct (_ && _) eqn:E; repeat case_match; lia.
Qed.

(** The cases that all shifts have in common. *)
Lemma shift_prefix (val : Z -> value) zero op (rest : option IType) t1 t2 a b :
  wf zero -> has_type (val 0) zero -> (has_type (val a) zero -> a = 0) ->
  wf t1 -> has_type (val a) t1 -> has_type (VInt b) t2 ->
  op 0 b = 0 -> (b = 0 -> op a b = a) ->
  (exists t, rest = Some t /\ wf t /\ has_type (val (op a b)) t) ->
  exists t, (if decide (t1 = Top) then Some Top
    else if decide (t2 = Top) then Some Top
    else if decide (t1 = zero) then Some zero
    else if decide (t2 = TypeInt.ZERO) then Some t1
    else rest) = Some t /\ wf t /\ has_type (val (op a b)) t.
Proof.
  intros Hwz Hz Hz' Hw1 H1 H2 Hop0 Hop Hrest.
  rewrite (decide_False (P := t1 = Top)), (decide_False (P := t2 = Top)) by eauto using has_not_top.
  destruct (decide (t1 = zero)) as [->|_].
  { eexists. split_and!; [done..|]. by rewrite (Hz' H1), Hop0. }
  destruct (decide (t2 = TypeInt.ZERO)) as [->|_]; [|done].
  eexists. split_and!; [done..|]. cbn in H2. by rewrite Hop by lia.
Qed.

Lemma make_int_con c w : TypeInt.make c c w = TypeInt.make_con c.
Proof. unfold TypeInt.make. by rewrite Z.leb_refl, Z.sub_diag. Qed.

Lemma make_long_con c w : TypeLong.make c c w = TypeLong.make_con c.
Proof. unfold TypeLong.make. by rewrite Z.leb_refl, Z.sub_diag. Qed.

(** The assertions on a shift by all bits but one. *)
Lemma sign_capture_int lo hi l h w c0 c1 {A : Type} (e : option A) s :
  (s = 31 -> 0 <= lo -> l = c0 /\ h = c0) -> (s = 31 -> hi < 0 -> l = c1 /\ h = c1) ->
  (if negb ((s =? 32 - 1) && (lo >=? 0)) || bool_decide (TypeInt.make l h w = TypeInt.make_con c0)
   then if negb ((s =? 32 - 1) && (hi <? 0)) || bool_decide (TypeInt.make l h w = TypeInt.make_con c1)
        then e else None else None) = e.
Proof.
  intros H0 H1. destruct (Z.eqb_spec s (32 - 1)) as [E|]; cbn [andb negb orb]; [|done].
  destruct (lo >=? 0) eqn:El; cbn [negb orb].
  - destruct H0 as [-> ->]; [lia..|]. rewrite make_int_con, bool_decide_eq_true_2 by done.
    destruct (hi <? 0) eqn:Eh; [|done]. destruct H1 as [<- _]; [lia..|]. by rewrite bool_decide_eq_true_2.
  - destruct (hi <? 0) eqn:Eh; cbn [negb orb]; [|done].
    destruct H1 as [-> ->]; [lia..|]. by rewrite make_int_con, bool_decide_eq_true_2.
Qed.

Lemma sign_capture_long lo hi l h w c0 c1 {A : Type} (e : option A) s :
  (s = 63 -> 0 <= lo -> l = c0 /\ h = c0) -> (s = 63 -> hi < 0 -> l = c1 /\ h = c1) ->
  (if negb ((s =? 64 - 1) && (lo >=? 0)) || bool_decide (TypeLong.make l h w = TypeLong.make_con c0)
   then if negb ((s =? 64 - 1) && (hi <? 0)) || bool_decide (TypeLong.make l h w = TypeLong.make_con c1)
        then e else None else None) = e.
Proof.
  intros H0 H1. destruct (Z.eqb_spec s (64 - 1)) as [E|]; cbn [andb negb orb]; [|done].
  destruct (lo >=? 0) eqn:El; cbn [negb orb].
  - destruct H0 as [-> ->]; [lia..|]. rewrite make_long_con, bool_decide_eq_true_2 by done.
    destruct (hi <? 0) eqn:Eh; [|done]. destruct H1 as [<- _]; [lia..|]. by rewrite bool_decide_eq_true_2.
  - destruct (hi <? 0) eqn:Eh; cbn [negb orb]; [|done].
    destruct H1 as [-> ->]; [lia..|]. by rewrite make_long_con, bool_decide_eq_true_2.
Qed.

(** The sign that a shift by all bits but one leaves. *)
Lemma shr_sign w x : 0 < w -> is_s w x -> x ≫ (w - 1) = if x <? 0 then -1 else 0.
Proof.
  intros Hw Hx. unfold is_s in Hx. rewrite Z.shiftr_div_pow2 by lia.
  destruct (Z.ltb_spec x 0); symmetry; [apply (Z.div_unique_pos _ _ _ (x + 2 ^ (w - 1)))|
    apply (Z.div_unique_pos _ _ _ x)]; lia.
Qed.

Lemma ushr_sign w x : 1 < w -> is_s w x -> wraps w (wrapu w x ≫ (w - 1)) = if x <? 0 then 1 else 0.
Proof.
  intros Hw Hx. destruct (ushr_value w (w - 1) x) as (u & -> & -> & _); [lia..|done|].
  unfold is_s in Hx. pose proof (pow2_half w ltac:(lia)).
  destruct (Z.ltb_spec x 0); symmetry; [apply (Z.div_unique_pos _ _ _ (x + 2 ^ (w - 1)))|
    apply (Z.div_unique_pos _ _ _ x)]; lia.
Qed.

Lemma lshift_int : covers VInt VInt VInt (java_shl 32) LShiftI_Value.
Proof.
  intros t1 t2 a b Hw1 Hw2 Ha Hb H1 H2. pose proof (shift_zero 32 b ltac:(lia)) as Hz.
  pose proof (shift_by 32 a b ltac:(lia) Ha) as Hby. pose proof (count_31 b) as Hc.
  apply shift_prefix; try done; [cbn; lia|apply Hz|intros ->; by apply Hby|].
  destruct (decide _) as [_|Hn]; [apply int_result, wraps_range; lia|].
  destruct t1 as [| |lo hi w1| | | | | | | | | | | |]; try (cbn in H1; tauto).
  destruct t2 as [| |lo2 hi2 w2| | | | | | | | | | | |]; try (cbn in H2; tauto).
  destruct Hw1 as (Hlo & Hhi & Hd1), Hw2 as (_ & _ & Hd2). cbn [has_type] in H1, H2.
  unfold TypeInt.is_con, TypeLong.is_con. 
  destruct (Z.eqb_spec lo2 hi2); cbn [negb]; [|apply int_result, wraps_range; lia].
  replace lo2 with b by lia. destruct (Z.eqb_spec (b &&& (32 - 1)) 0) as [E|].
  { eexists. split_and!; [done..|]. by rewrite (proj1 (Hby E)). }
  unfold java_shl. destruct (Z.eqb_spec lo hi); cbn [negb].
  - replace lo with a by lia. apply con_int_result, wraps_range. lia.
  - destruct (_ && _) eqn:E; [|apply int_result, wraps_range; lia].
    apply andb_true_iff in E as [E1%Z.eqb_eq E2%Z.eqb_eq].
    apply make_int_result; try done; try (apply wraps_range; lia). apply shl_between; done || lia.
Qed.

Lemma rshift_int : covers VInt VInt VInt (java_shr 32) RShiftI_Value.
Proof.
  intros t1 t2 a b Hw1 Hw2 Ha Hb H1 H2. pose proof (shift_zero 32 b ltac:(lia)) as Hz.
  pose proof (shift_by 32 a b ltac:(lia) Ha) as Hby. pose proof (count_31 b) as Hc.
  apply shift_prefix; try done; [cbn; lia|apply Hz|intros ->; by apply Hby|].
  pose proof (shr_range 32 (b &&& (32 - 1)) a ltac:(lia) ltac:(lia) Ha) as Hr.
  destruct (decide _) as [_|Hn]; [by apply int_result|].
  destruct (decide _) as [_|Hn2]; [by apply int_result|].
  destruct t1 as [| |lo hi w1| | | | | | | | | | | |]; try (cbn in H1; tauto).
  destruct t2 as [| |lo2 hi2 w2| | | | | | | | | | | |]; try (cbn in H2; tauto).
  destruct Hw1 as (Hlo & Hhi & Hd1), Hw2 as (_ & _ & Hd2). cbn [has_type] in H1, H2.
  unfold TypeInt.is_con, TypeLong.is_con. 
  destruct (Z.eqb_spec lo2 hi2); [|cbn [negb]; rewrite orb_true_r; by apply int_result].
  replace lo2 with b by lia. destruct (Z.eqb_spec (b &&& (32 - 1)) 0) as [E|].
  { eexists. split_and!; [done..|]. by rewrite (proj1 (proj2 (Hby E))). }
  unfold java_shr in *. set (s := b &&& (32 - 1)) in *.
  pose proof (shr_between s a lo hi ltac:(lia) H1). rewrite (proj2 (Z.leb_le (lo ≫ s) (hi ≫ s))) by lia.
  cbv zeta. unfold TypeInt.ZERO, TypeInt.MINUS_1.
  rewrite sign_capture_int; [|intros -> ?; rewrite !(shr_sign 32) by (done || lia); case_match; case_match; lia..].
  apply make_int_result; try done; apply shr_range; lia || done.
Qed.

Lemma urshift_int : covers VInt VInt VInt (java_ushr 32) URShiftI_Value.
Proof.
  intros t1 t2 a b Hw1 Hw2 Ha Hb H1 H2. pose proof (shift_zero 32 b ltac:(lia)) as Hz.
  pose proof (shift_by 32 a b ltac:(lia) Ha) as Hby. pose proof (count_31 b) as Hc.
  apply shift_prefix; try done; [cbn; lia|apply Hz|intros ->; by apply Hby|].
  destruct (decide _) as [_|Hn]; [apply int_result, wraps_range; lia|].
  destruct (decide _) as [_|Hn2]; [apply int_result, wraps_range; lia|].
  destruct t1 as [| |lo hi w1| | | | | | | | | | | |]; try (cbn in H1; tauto).
  destruct t2 as [| |lo2 hi2 w2| | | | | | | | | | | |]; try (cbn in H2; tauto).
  destruct Hw1 as (Hlo & Hhi & Hd1), Hw2 as (_ & _ & Hd2). cbn [has_type] in H1, H2.
  unfold TypeInt.is_con, TypeLong.is_con. 
  destruct (Z.eqb_spec lo2 hi2); [|apply int_result, wraps_range; lia].
  replace lo2 with b by lia. destruct (Z.eqb_spec (b &&& (32 - 1)) 0) as [E|].
  { eexists. split_and!; [done..|]. by rewrite (proj2 (proj2 (Hby E))). }
  unfold java_ushr in *. set (s := b &&& (32 - 1)) in *.
  pose proof (ushr_between 32 s a lo hi ltac:(lia) ltac:(lia) Hlo Hhi H1) as Hs.
  cbv zeta in Hs |- *. destruct (if (hi >=? 0) && (lo <? 0) then _ else _) as [l h] eqn:Ep.
  rewrite (proj2 (Z.leb_le l h)) by lia. unfold TypeInt.ZERO, TypeInt.ONE.
  rewrite sign_capture_int; [apply make_int_result; tauto| |];
    intros -> ?; rewrite !(ushr_sign 32) in Ep by (done || lia);
    destruct (_ && _) eqn:Em in Ep; [lia|injection Ep as <- <-; case_match; case_match; lia|lia|
      injection Ep as <- <-; case_match; case_match; lia].
Qed.

Lemma lshift_long : covers VLong VInt VLong (java_shl 64) LShiftL_Value.
Proof.
  intros t1 t2 a b Hw1 Hw2 Ha Hb H1 H2. pose proof (shift_zero 64 b ltac:(lia)) as Hz.
  pose proof (shift_by 64 a b ltac:(lia) Ha) as Hby. pose proof (count_63 b) as Hc.
  apply shift_prefix; try done; [cbn; lia|apply Hz|intros ->; by apply Hby|].
  destruct (decide _) as [_|Hn]; [apply long_result, wraps_range; lia|].
  destruct t1 as [| | |lo hi w1| | | | | | | | | | |]; try (cbn in H1; tauto).
  destruct t2 as [| |lo2 hi2 w2| | | | | | | | | | | |]; try (cbn in H2; tauto).
  destruct Hw1 as (Hlo & Hhi & Hd1), Hw2 as (_ & _ & Hd2). cbn [has_type] in H1, H2.
  unfold TypeInt.is_con, TypeLong.is_con. change (2 * 32 - 1) with (64 - 1). 
  destruct (Z.eqb_spec lo2 hi2); cbn [negb]; [|apply long_result, wraps_range; lia].
  replace lo2 with b by lia. destruct (Z.eqb_spec (b &&& (64 - 1)) 0) as [E|].
  { eexists. split_and!; [done..|]. by rewrite (proj1 (Hby E)). }
  unfold java_shl. destruct (Z.eqb_spec lo hi); cbn [negb].
  - replace lo with a by lia. apply con_long_result, wraps_range. lia.
  - destruct (_ && _) eqn:E; [|apply long_result, wraps_range; lia].
    apply andb_true_iff in E as [E1%Z.eqb_eq E2%Z.eqb_eq].
    apply make_long_result; try done; try (apply wraps_range; lia). apply shl_between; done || lia.
Qed.

Lemma rshift_long : covers VLong VInt VLong (java_shr 64) RShiftL_Value.
Proof.
  intros t1 t2 a b Hw1 Hw2 Ha Hb H1 H2. pose proof (shift_zero 64 b ltac:(lia)) as Hz.
  pose proof (shift_by 64 a b ltac:(lia) Ha) as Hby. pose proof (count_63 b) as Hc.
  apply shift_prefix; try done; [cbn; lia|apply Hz|intros ->; by apply Hby|].
  pose proof (shr_range 64 (b &&& (64 - 1)) a ltac:(lia) ltac:(lia) Ha) as Hr.
  destruct (decide _) as [_|Hn]; [by apply long_result|].
  destruct (decide _) as [_|Hn2]; [by apply long_result|].
  destruct t1 as [| | |lo hi w1| | | | | | | | | | |]; try (cbn in H1; tauto).
  destruct t2 as [| |lo2 hi2 w2| | | | | | | | | | | |]; try (cbn in H2; tauto).
  destruct Hw1 as (Hlo & Hhi & Hd1), Hw2 as (_ & _ & Hd2). cbn [has_type] in H1, H2.
  unfold TypeInt.is_con, TypeLong.is_con. change (2 * 32 - 1) with (64 - 1). 
  destruct (Z.eqb_spec lo2 hi2); [|by apply long_result].
  replace lo2 with b by lia. destruct (Z.eqb_spec (b &&& (64 - 1)) 0) as [E|].
  { eexists. split_and!; [done..|]. by rewrite (proj1 (proj2 (Hby E))). }
  unfold java_shr in *. set (s := b &&& (64 - 1)) in *.
  pose proof (shr_between s a lo hi ltac:(lia) H1). rewrite (proj2 (Z.leb_le (lo ≫ s) (hi ≫ s))) by lia.
  cbv zeta. unfold TypeLong.ZERO, TypeLong.MINUS_1.
  rewrite sign_capture_long; [|intros -> ?; rewrite !(shr_sign 64) by (done || lia); case_match; case_match; lia..].
  apply make_long_result; try done; apply shr_range; lia || done.
Qed.

Lemma urshift_long : covers VLong VInt VLong (java_ushr 64) URShiftL_Value.
Proof.
  intros t1 t2 a b Hw1 Hw2 Ha Hb H1 H2. pose proof (shift_zero 64 b ltac:(lia)) as Hz.
  pose proof (shift_by 64 a b ltac:(lia) Ha) as Hby. pose proof (count_63 b) as Hc.
  apply shift_prefix; try done; [cbn; lia|apply Hz|intros ->; by apply Hby|].
  destruct (decide _) as [_|Hn]; [apply long_result, wraps_range; lia|].
  destruct (decide _) as [_|Hn2]; [apply long_result, wraps_range; lia|].
  destruct t1 as [| | |lo hi w1| | | | | | | | | | |]; try (cbn in H1; tauto).
  destruct t2 as [| |lo2 hi2 w2| | | | | | | | | | | |]; try (cbn in H2; tauto).
  destruct Hw1 as (Hlo & Hhi & Hd1), Hw2 as (_ & _ & Hd2). cbn [has_type] in H1, H2.
  unfold TypeInt.is_con, TypeLong.is_con. change (2 * 32 - 1) with (64 - 1). 
  destruct (Z.eqb_spec lo2 hi2); [|apply long_result, wraps_range; lia].
  replace lo2 with b by lia. destruct (Z.eqb_spec (b &&& (64 - 1)) 0) as [E|].
  { eexists. split_and!; [done..|]. by rewrite (proj2 (proj2 (Hby E))). }
  unfold java_ushr in *. set (s := b &&& (64 - 1)) in *.
  pose proof (ushr_between 64 s a lo hi ltac:(lia) ltac:(lia) Hlo Hhi H1) as Hs.
  cbv zeta in Hs |- *. destruct (if (hi >=? 0) && (lo <? 0) then _ else _) as [l h] eqn:Ep.
  rewrite (proj2 (Z.leb_le l h)) by lia. unfold TypeLong.ZERO, TypeLong.ONE.
  rewrite sign_capture_long; [apply make_long_result; tauto| |];
    intros -> ?; rewrite !(ushr_sign 64) in Ep by (done || lia);
    destruct (_ && _) eqn:Em in Ep; [lia|injection Ep as <- <-; case_match; case_match; lia|lia|
      injection Ep as <- <-; case_match; case_match; lia].
Qed.

(** *** Comparisons *)

Lemma cmp_cases a b : cmp a b = -1 /\ a < b \/ cmp a b = 0 /\ a = b \/ cmp a b = 1 /\ a > b.
Proof. unfold cmp. destruct (Z.ltb_spec a b); [lia|]. destruct (a >? b) eqn:E; lia. Qed.

(** A result in one of the ranges of condition codes. *)
Ltac cc := eexists; split_and!; [done..|]; apply make_int_has; cbn; lia.

Lemma cmp_int_ring : ring_covers VInt VInt VInt cmp CmpI_sub.
Proof.
  two_types. unfold CmpI_sub, TypeInt.is_con. pose proof (cmp_cases a b).
  destruct (Z.ltb_spec hi lo0); [cc|]. destruct (lo >? hi0) eqn:Eg; [cc|].
  destruct (_ && _) eqn:Ec; [rewrite (proj2 (Z.eqb_eq lo lo0)) by lia; cc|].
  destruct (Z.eqb_spec hi lo0); [cc|]. destruct (Z.eqb_spec lo hi0); cc.
Qed.

Lemma cmp_long_ring : ring_covers VLong VLong VInt cmp CmpL_sub.
Proof.
  two_types. unfold CmpL_sub, TypeLong.is_con. pose proof (cmp_cases a b).
  destruct (Z.ltb_spec hi lo0); [cc|]. destruct (lo >? hi0) eqn:Eg; [cc|].
  destruct (_ && _) eqn:Ec; [rewrite (proj2 (Z.eqb_eq lo lo0)) by lia; cc|].
  destruct (Z.eqb_spec hi lo0); [cc|]. destruct (Z.eqb_spec lo hi0); cc.
Qed.

(** The unsigned comparison of ints. *)
Definition cmpu (a b : Z) : Z := cmp (u32 a) (u32 b).

Lemma u32_signed x : is_s 32 x -> u32 x = if x <? 0 then x + 2 ^ 32 else x.
Proof.
  unfold is_s, wrapu. intros Hx. destruct (Z.ltb_spec x 0); [|apply Z.mod_small; lia].
  symmetry. apply (Z.mod_unique_pos _ _ (-1)); lia.
Qed.

Lemma signs_differ x y : is_s 32 x -> is_s 32 y -> (s32 (u32 x ^^^ u32 y) <? 0) = negb (Bool.eqb (x <? 0) (y <? 0)).
Proof.
  intros Hx Hy. replace (s32 (u32 x ^^^ u32 y)) with (x ^^^ y).
  - pose proof (Z.lxor_nonneg x y).
    destruct (Z.ltb_spec (x ^^^ y) 0), (Z.ltb_spec x 0), (Z.ltb_spec y 0); cbn; lia.
  - rewrite <- (wraps_id 32 (x ^^^ y)) by (done || by apply lxor_range). apply wraps_ext.
    unfold wrapu. rewrite <- !Z.land_ones by lia. apply Z.bits_inj'. intros n Hn.
    rewrite !Z.land_spec, !Z.lxor_spec, !Z.land_spec.
    destruct (Z.testbit (Z.ones 32) n), (Z.testbit x n), (Z.testbit y n); done.
Qed.

(** A range of one sign is a range of unsigned numbers. *)
Lemma unsigned_between lo hi x :
  is_s 32 lo -> is_s 32 hi -> lo <= x <= hi -> Bool.eqb (lo <? 0) (hi <? 0) = true ->
  u32 lo <= u32 x <= u32 hi.
Proof.
  intros Hlo Hhi Hx E%eqb_prop. assert (Hs : is_s 32 x) by (unfold is_s in *; lia).
  rewrite !u32_signed by done. unfold is_s in *.
  destruct (Z.ltb_spec lo 0), (Z.ltb_spec hi 0), (Z.ltb_spec x 0); try done; lia.
Qed.

Lemma unsigned_zero lo hi x :
  is_s 32 lo -> is_s 32 hi -> lo <= x <= hi -> (u32 lo =? 0) && (u32 hi =? 0) = true -> u32 x = 0.
Proof.
  intros Hlo Hhi Hx. assert (Hs : is_s 32 x) by (unfold is_s in *; lia).
  rewrite !u32_signed by done. unfold is_s in *. intros E%andb_true_iff.
  destruct (Z.ltb_spec lo 0), (Z.ltb_spec hi 0), (Z.ltb_spec x 0); lia.
Qed.

(** A remainder by the second operand, neither negative, is less than it. *)
Lemma cmpu_remainder a b : is_s 32 a -> is_s 32 b -> 0 <= a -> 0 <= b -> b <> 0 -> (exists x, a = Z.rem x b) ->
  cmpu a b = -1.
Proof.
  intros Ha Hb Ha0 Hb0 Hnz [x Hx]. pose proof (Z.rem_bound_abs x b Hnz).
  pose proof (cmp_cases a b). unfold cmpu. rewrite !u32_signed by done.
  rewrite !(proj2 (Z.ltb_ge _ 0)) by lia. lia.
Qed.

Lemma cmpu_ring mod_in2 mod_uncast t1 t2 a b :
  wf t1 -> wf t2 -> is_s 32 a -> is_s 32 b -> has_type (VInt a) t1 -> has_type (VInt b) t2 ->
  t1 <> Bottom -> t2 <> Bottom ->
  (mod_in2 = true \/ mod_uncast = true -> b <> 0 /\ exists x, a = Z.rem x b) ->
  exists t, CmpU_sub mod_in2 mod_uncast t1 t2 = Some t /\ wf t /\ has_type (VInt (cmpu a b)) t.
Proof.
  intros Hw1 Hw2 Ha Hb H1 H2 N1 N2 Hmod. destruct t1; try done. destruct t2; try done. clear N1 N2.
  destruct Hw1 as (Hlo0 & Hhi0 & _), Hw2 as (Hlo1 & Hhi1 & _). cbn [has_type] in H1, H2.
  unfold CmpU_sub. cbv zeta. rewrite !signs_differ by done.
  rewrite !wraps_wrapu by lia. rewrite !(wraps_id 32) by (done || lia).
  assert (Hlt : 0 <= lo -> 0 <= lo0 -> mod_in2 = true \/ mod_uncast = true -> cmpu a b = -1).
  { intros ? ? Hm. destruct (Hmod Hm). apply cmpu_remainder; done || lia. }
  pose proof (unsigned_between lo hi a Hlo0 Hhi0 H1) as S0. pose proof (unsigned_between lo0 hi0 b Hlo1 Hhi1 H2) as S1.
  pose proof (unsigned_zero lo hi a Hlo0 Hhi0 H1) as Z0. pose proof (unsigned_zero lo0 hi0 b Hlo1 Hhi1 H2) as Z1.
  pose proof (wrapu_range 32 a ltac:(lia)) as [Ra _]. pose proof (wrapu_range 32 b ltac:(lia)) as [Rb _].
  pose proof (cmp_cases (u32 a) (u32 b)) as Hcc. change (cmp (u32 a) (u32 b)) with (cmpu a b) in Hcc.
  set (rest := if (lo >=? 0) && (lo0 >=? 0) && mod_uncast then _ else _).
  assert (Hrest : exists t, rest = Some t /\ wf t /\ has_type (VInt (cmpu a b)) t).
  { unfold rest. destruct (_ && mod_uncast) eqn:E; [|clear - Hcc; cc]. apply andb_true_iff in E as [E ->].
    specialize (Hlt ltac:(lia) ltac:(lia) (or_intror eq_refl)). clear - Hlt. cc. }
  clearbody rest. clear Hmod Hlo0 Hhi0 Hlo1 Hhi1 Ha Hb H1 H2. destruct (negb _ || negb _) eqn:Ebot.
  - clear S0 S1 Hlt. destruct ((u32 lo =? 0) && _) eqn:E0; [specialize (Z0 eq_refl); cc|].
    destruct ((u32 lo0 =? 0) && _) eqn:E1; [specialize (Z1 eq_refl); cc|done].
  - apply orb_false_iff in Ebot as [B0%negb_false_iff B1%negb_false_iff].
    specialize (S0 B0). specialize (S1 B1). clear B0 B1 Z0 Z1.
    replace ((u32 lo <=? u32 hi) && (u32 lo0 <=? u32 hi0)) with true by lia.
    destruct (Z.ltb_spec (u32 hi) (u32 lo0)); [cc|]. destruct (u32 lo >? u32 hi0) eqn:Eg; [cc|].
    destruct ((u32 hi =? u32 lo0) && _) eqn:Ee; [cc|]. destruct (u32 lo >=? u32 hi0) eqn:Ege; [cc|].
    destruct (u32 hi <=? u32 lo0) eqn:Ele; [|done].
    destruct (_ && mod_in2) eqn:Em; [|cc]. apply andb_true_iff in Em as [Em ->].
    specialize (Hlt ltac:(lia) ltac:(lia) (or_introl eq_refl)). cc.
Qed.

(** *** Tests *)

(** The type of a test covers its outcome for every condition code of the type. *)
Lemma cc2logical_covers test CC cc :
  test <> BoolTest.illegal -> -1 <= cc <= 1 -> wf CC -> has_type (VInt cc) CC ->
  exists t, BoolTest.cc2logical test CC = Some t /\ wf t /\
    has_type (VInt (if test_holds test cc then 1 else 0)) t.
Proof.
  intros Ht Hc Hw H. unfold BoolTest.cc2logical. rewrite decide_False by eauto using has_not_top.
  assert (Hb : exists t, Some TypeInt.BOOL = Some t /\ wf t /\ has_type (VInt (if test_holds test cc then 1 else 0)) t)
    by (apply bool_result; case_match; lia).
  destruct CC; try done. cbn in H. unfold TypeInt.is_con.
  destruct (Z.eqb_spec lo hi).
  - replace lo with cc by lia. assert (cc = -1 \/ cc = 0 \/ cc = 1) as [-> |[-> | ->]] by lia;
      destruct test; try done; by eexists.
  - change TypeInt.CC_GE with (Int 0 1 0). change TypeInt.CC_LE with (Int (-1) 0 0).
    repeat (case_bool_decide; cbn [andb]); try done; clear Hb; simplify_eq; cbn [test_holds];
      eexists; (split_and!; [done..|]); unfold TypeInt.ONE, TypeInt.ZERO, TypeInt.make_con; cbn [has_type];
      case_match; lia.
Qed.

(** Commuting a test is the test of the operands exchanged, negating it its negation. *)
Lemma commute_negate test a b :
  test <> BoolTest.illegal ->
  exists c n, BoolTest.commute test = Some c /\ BoolTest.negate test = Some n /\
    test_holds c (cmp b a) = test_holds test (cmp a b) /\
    test_holds n (cmp a b) = negb (test_holds test (cmp a b)).
Proof.
  intros Ht. assert (Hc : cmp b a = - cmp a b).
  { pose proof (cmp_cases a b). pose proof (cmp_cases b a). lia. }
  pose proof (cmp_cases a b). rewrite Hc.
  destruct test; try done; eexists _, _; (split_and!; [done..| |]); cbn [test_holds]; lia.
Qed.

(** ** The nodes *)

Lemma add_node_int (op : Z -> Z -> Z) u ring :
  is_s 32 u -> (forall a b, is_s 32 a -> is_s 32 b -> is_s 32 (op a b)) ->
  (forall a, is_s 32 a -> op u a = a /\ op a u = a) -> ring_covers VInt VInt VInt op ring ->
  covers VInt VInt VInt op (AddNode_Value TypeInt.INT (TypeInt.make_con u) ring).
Proof.
  intros Hu Hop Hid Hring. apply (add_node_covers VInt op TypeInt.INT (TypeInt.make_con u) u); try done.
  - split; [by split_and!|]. intros a b Ha Hb. by apply int_type_range, Hop.
  - split; [by split_and!|]. intros a. cbn. lia.
Qed.

Lemma add_node_long (op : Z -> Z -> Z) ring :
  (forall a b, is_s 64 a -> is_s 64 b -> is_s 64 (op a b)) ->
  (forall a, is_s 64 a -> op 0 a = a /\ op a 0 = a) -> ring_covers VLong VLong VLong op ring ->
  covers VLong VLong VLong op (AddNode_Value TypeLong.LONG TypeLong.ZERO ring).
Proof.
  intros Hop Hid Hring. apply (add_node_covers VLong op TypeLong.LONG TypeLong.ZERO 0); try done.
  - split; [by split_and!|]. intros a b Ha Hb. by apply long_type_range, Hop.
  - split; [by split_and!|]. intros a. cbn. lia.
Qed.

Lemma mul_node_int (op : Z -> Z -> Z) ring :
  (forall a b, is_s 32 a -> is_s 32 b -> is_s 32 (op a b)) ->
  (forall a, op 0 a = 0 /\ op a 0 = 0) -> ring_covers VInt VInt VInt op ring ->
  covers VInt VInt VInt op (MulNode_Value TypeInt.INT TypeInt.ZERO ring).
Proof.
  intros Hop Hid Hring. apply (mul_node_covers VInt op TypeInt.INT TypeInt.ZERO 0); try done.
  - split; [by split_and!|]. intros a b Ha Hb. by apply int_type_range, Hop.
  - split; [by split_and!|]. intros a. cbn. lia.
Qed.

Lemma mul_node_long (op : Z -> Z -> Z) ring :
  (forall a b, is_s 64 a -> is_s 64 b -> is_s 64 (op a b)) ->
  (forall a, op 0 a = 0 /\ op a 0 = 0) -> ring_covers VLong VLong VLong op ring ->
  covers VLong VLong VLong op (MulNode_Value TypeLong.LONG TypeLong.ZERO ring).
Proof.
  intros Hop Hid Hring. apply (mul_node_covers VLong op TypeLong.LONG TypeLong.ZERO 0); try done.
  - split; [by split_and!|]. intros a b Ha Hb. by apply long_type_range, Hop.
  - split; [by split_and!|]. intros a. cbn. lia.
Qed.

Lemma mulhi_value : covers VLong VLong VLong (fun a b => (a * b) ≫ 64) MulHiL_Value.
Proof.
  intros t1 t2 a b Hw1 Hw2 Ha Hb H1 H2. unfold MulHiL_Value. cbn [in_range] in *.
  rewrite (decide_False (P := t1 = Top)), (decide_False (P := t2 = Top)) by eauto using has_not_top.
  assert (is_s 64 ((a * b) ≫ 64)).
  { unfold is_s in *. rewrite Z.shiftr_div_pow2 by lia. pow2_norm.
    assert (- 2 ^ 126 <= a * b <= 2 ^ 126) by nia. pow2_norm.
    split; [apply Z.div_le_lower_bound|apply Z.div_lt_upper_bound]; lia. }
  destruct (decide _); by apply long_result.
Qed.

(** Operations with a neutral element, in the range of their width. *)
Lemma wrapped_neutral w a : 0 < w -> is_s w a -> wraps w (0 + a) = a /\ wraps w (a + 0) = a.
Proof. intros. rewrite Z.add_0_l, Z.add_0_r. by rewrite wraps_id. Qed.

Lemma wrapped_zero w a : 0 < w -> wraps w (0 * a) = 0 /\ wraps w (a * 0) = 0.
Proof.
  intros. rewrite Z.mul_0_l, Z.mul_0_r. rewrite wraps_id; [done|done|].
  unfold is_s. pose proof (Z.pow_pos_nonneg 2 (w - 1)). lia.
Qed.

(** * Properties *)

(** C30: the type that [Value] gives to an int or long addition, subtraction,
    multiplication, division, remainder, bit operation, minimum, maximum or shift
    covers every result of the Java operation on operands of the operand types, for a
    divisor that is not zero where there is one; the functions return, no assertion fails,
    no C++ division traps, and the type is well formed.  The overflow
    checks of the sums, and those of the products through doubles, miss nothing. *)
Theorem arithmetic_types_cover :
  (covers VInt VInt VInt (fun a b => s32 (a + b)) (AddNode_Value TypeInt.INT TypeInt.ZERO AddI_add_ring) /\
   covers VLong VLong VLong (fun a b => s64 (a + b)) (AddNode_Value TypeLong.LONG TypeLong.ZERO AddL_add_ring) /\
   covers_eqv VInt VInt (fun a b => s32 (a - b)) (SubNode_Value TypeInt.INT TypeInt.ZERO SubI_sub) /\
   covers_eqv VLong VLong (fun a b => s64 (a - b)) (SubNode_Value TypeLong.LONG TypeLong.ZERO SubL_sub)) /\
  (covers VInt VInt VInt (fun a b => s32 (a * b)) (MulNode_Value TypeInt.INT TypeInt.ZERO MulI_mul_ring) /\
   covers VLong VLong VLong (fun a b => s64 (a * b)) (MulNode_Value TypeLong.LONG TypeLong.ZERO MulL_mul_ring) /\
   covers VLong VLong VLong (fun a b => (a * b) ≫ 64) MulHiL_Value) /\
  (covers_result 32 VInt java_idiv DivI_Value /\ covers_result 64 VLong java_ldiv DivL_Value /\
   covers_result 32 VInt java_rem ModI_Value /\ covers_result 64 VLong java_rem ModL_Value) /\
  (covers VInt VInt VInt Z.land (MulNode_Value TypeInt.INT TypeInt.ZERO AndI_mul_ring) /\
   covers VLong VLong VLong Z.land (MulNode_Value TypeLong.LONG TypeLong.ZERO AndL_mul_ring) /\
   covers VInt VInt VInt Z.lor (AddNode_Value TypeInt.INT TypeInt.ZERO OrI_add_ring) /\
   covers VLong VLong VLong Z.lor (AddNode_Value TypeLong.LONG TypeLong.ZERO OrL_add_ring) /\
   covers VInt VInt VInt Z.lxor (AddNode_Value TypeInt.INT TypeInt.ZERO XorI_add_ring) /\
   covers VLong VLong VLong Z.lxor (AddNode_Value TypeLong.LONG TypeLong.ZERO XorL_add_ring)) /\
  (covers VInt VInt VInt Z.max (AddNode_Value TypeInt.INT (TypeInt.make_con min_jint) MaxI_add_ring) /\
   covers VInt VInt VInt Z.min (AddNode_Value TypeInt.INT (TypeInt.make_con max_jint) MinI_add_ring)) /\
  (covers VInt VInt VInt (java_shl 32) LShiftI_Value /\ covers VLong VInt VLong (java_shl 64) LShiftL_Value /\
   covers VInt VInt VInt (java_shr 32) RShiftI_Value /\ covers VLong VInt VLong (java_shr 64) RShiftL_Value /\
   covers VInt VInt VInt (java_ushr 32) URShiftI_Value /\ covers VLong VInt VLong (java_ushr 64) URShiftL_Value).
Proof.
  split_and!.
  - apply (add_node_int _ 0); [done|intros; by apply wraps_range|intros; by apply wrapped_neutral|apply add_int_ring].
  - apply add_node_long; [intros; by apply wraps_range|intros; by apply wrapped_neutral|apply add_long_ring].
  - apply sub_node_covers; [done..|intros; apply wraps_int_type|intros; by rewrite Z.sub_diag|apply sub_int_ring].
  - apply sub_node_covers; [done..|intros; apply wraps_long_type|intros; by rewrite Z.sub_diag|apply sub_long_ring].
  - apply mul_node_int; [intros; by apply wraps_range|intros; by apply wrapped_zero|apply mul_int_ring].
  - apply mul_node_long; [intros; by apply wraps_range|intros; by apply wrapped_zero|apply mul_long_ring].
  - apply mulhi_value.
  - apply div_int_value.
  - apply div_long_value.
  - apply mod_int_value.
  - apply mod_long_value.
  - apply mul_node_int; [by intros; apply land_range|intros; by rewrite Z.land_0_r|apply and_int_ring].
  - apply mul_node_long; [by intros; apply land_range|intros; by rewrite Z.land_0_r|apply and_long_ring].
  - apply (add_node_int _ 0); [done|by intros; apply lor_range|intros; by rewrite Z.lor_0_r|apply or_int_ring].
  - apply add_node_long; [by intros; apply lor_range|intros; by rewrite Z.lor_0_r|apply or_long_ring].
  - apply (add_node_int _ 0); [done|by intros; apply lxor_range|intros; by rewrite Z.lxor_0_r|apply xor_int_ring].
  - apply add_node_long; [by intros; apply lxor_range|intros; by rewrite Z.lxor_0_r|apply xor_long_ring].
  - apply add_node_int; [done|unfold is_s; lia|unfold is_s, min_jint; lia|apply max_int_ring].
  - apply add_node_int; [done|unfold is_s; lia|unfold is_s; lia|apply min_int_ring].
  - apply lshift_int.
  - apply lshift_long.
  - apply rshift_int.
  - apply rshift_long.
  - apply urshift_int.
  - apply urshift_long.
Qed.

(** The type of a signed int, long or unsigned int comparison covers its outcome,
    the hash-table idiom of a remainder compared with its divisor included; the type of
    a test covers whether the comparison passes it; and [commute] and [negate] give the
    test of the exchanged operands and the opposite test. *)
Theorem comparison_types_cover :
  covers_eqv VInt VInt cmp (SubNode_Value TypeInt.CC TypeInt.ZERO CmpI_sub) /\
  covers_eqv VLong VInt cmp (SubNode_Value TypeInt.CC TypeInt.ZERO CmpL_sub) /\
  (forall mod_in2 mod_uncast t1 t2 eqv a b,
    wf t1 -> wf t2 -> is_s 32 a -> is_s 32 b -> has_type (VInt a) t1 -> has_type (VInt b) t2 ->
    (eqv = true -> a = b) -> (mod_in2 = true \/ mod_uncast = true -> b <> 0 /\ exists x, a = Z.rem x b) ->
    exists t, SubNode_Value TypeInt.CC TypeInt.ZERO (CmpU_sub mod_in2 mod_uncast) t1 t2 eqv = Some t /\
      wf t /\ has_type (VInt (cmpu a b)) t) /\
  (forall test CC a b,
    test <> BoolTest.illegal -> wf CC -> has_type (VInt (cmp a b)) CC ->
    (exists t, BoolTest.cc2logical test CC = Some t /\ wf t /\
      has_type (VInt (if test_holds test (cmp a b) then 1 else 0)) t) /\
    (exists c n, BoolTest.commute test = Some c /\ BoolTest.negate test = Some n /\
      test_holds c (cmp b a) = test_holds test (cmp a b) /\
      test_holds n (cmp a b) = negb (test_holds test (cmp a b)))).
Proof.
  assert (Hcc : forall a b, has_type (VInt (cmp a b)) TypeInt.CC).
  { intros a b. apply make_int_has. cbn. pose proof (cmp_cases a b). lia. }
  assert (Hz : forall a, has_type (VInt (cmp a a)) TypeInt.ZERO).
  { intros a. cbn. pose proof (cmp_cases a a). lia. }
  split_and!.
  - apply sub_node_covers; [done..|apply cmp_int_ring].
  - apply sub_node_covers; [done..|apply cmp_long_ring].
  - intros m1 m2 t1 t2 eqv a b Hw1 Hw2 Ha Hb H1 H2 Heq Hmod. unfold SubNode_Value.
    rewrite (decide_False (P := t1 = Top)), (decide_False (P := t2 = Top)) by eauto using has_not_top.
    destruct eqv; [eexists; split_and!; [done..|rewrite Heq by done; apply Hz]|].
    destruct (decide _) as [_|Hn]; [eexists; split_and!; [done..|apply Hcc]|]. apply cmpu_ring; tauto.
  - intros test CC a b Ht Hw H. split; [|by apply commute_negate].
    apply cc2logical_covers; try done. pose proof (cmp_cases a b). lia.
Qed.
