(* ===== verification/IdealMul.v ===== *)
(** * Multiplications, masks and shifts in the optimizing compiler

    Model of [Ideal] and [Identity] of the int and long nodes of opto/mulnode.cpp:
    multiplications by constants become shifts and additions, masks and shifts are
    combined or dropped.  [Ideal] gives a new node, or the node with other inputs;
    the latter is written as the node it becomes.  [Identity] gives an input to use
    instead of the node.

    A C++ shift by a count outside the width of its operand is undefined, and has no
    result here. *)

From S2P Require Import Prelude GlobalDefinitions WordBits IdealType IdealNode IdealDiv IdealArith.

Open Scope Z_scope.

(** A shift of a 32-bit or 64-bit operand in C++. *)
Definition defined_count (w s : Z) : bool := (0 <=? s) && (s <? w).

(** ** [MulNode] *)

(** What the base class asks of a subclass and of the phase. *)
Record mul_class (N : Type) := {
  type_of : N -> IType;
  transform : N -> N;
  is_Load : N -> bool;
  idx : N -> Z;
  mul_of : N -> option (N * N);
  add_of : N -> option (N * N);
  mk_mul : N -> N -> N;
  mk_add : N -> N -> N;
  makecon : IType -> option N;
  mul_id : IType;
  mul_ring : IType -> IType -> option IType
}.
Arguments type_of {N}.
Arguments transform {N}.
Arguments is_Load {N}.
Arguments idx {N}.
Arguments mul_of {N}.
Arguments add_of {N}.
Arguments mk_mul {N}.
Arguments mk_add {N}.
Arguments makecon {N}.
Arguments mul_id {N}.
Arguments mul_ring {N}.

(** The input to use instead, or [Some None] for the node itself. *)
Definition MulNode_Identity {N} (C : mul_class N) (in1 in2 : N) : option (option N) :=
  b ← higher_equal (type_of C in1) (mul_id C);
  if (b : bool) then Some (Some in2) else
  b ← higher_equal (type_of C in2) (mul_id C);
  if (b : bool) then Some (Some in1) else Some None.

(** A product with a constant of type [t2] on the right: flatten a product or a sum with
    a constant on the left.  [progress] tells whether the inputs have been swapped. *)
Definition MulNode_flatten {N} (C : mul_class N) (in1 in2 : N) (t2 : IType) (progress : bool)
    : option (outcome N) :=
  '(in1, in2, t2, progress) ←
    match mul_of C in1 with
    | Some (x, c) =>
        let t12 := type_of C c in
        if singleton t12 && negb (bool_decide (t12 = Top)) then
          tcon01 ← mul_ring C t2 t12;
          if singleton tcon01 then
            c01 ← makecon C tcon01;
            Some (x, c01, tcon01, true)
          else Some (in1, in2, t2, progress)
        else Some (in1, in2, t2, progress)
    | None => Some (in1, in2, t2, progress)
    end;
  let unchanged := Some (if (progress : bool) then New (mk_mul C in1 in2) else NoChange) in
  match add_of C in1 with
  | Some (x, c) =>
      let t12 := type_of C c in
      if singleton t12 && negb (bool_decide (t12 = Top)) then
        tcon01 ← mul_ring C t2 t12;
        if singleton tcon01 then
          let mul := transform C (mk_mul C x in2) in
          c01 ← makecon C tcon01;
          Some (New (mk_add C mul c01))
        else unchanged
      else unchanged
  | None => unchanged
  end.

Definition MulNode_Ideal {N} (C : mul_class N) (in1 in2 : N) : option (outcome N) :=
  let t1 := type_of C in1 in
  let t2 := type_of C in2 in
  let swap := negb (singleton t2 || (is_Load C in2 && negb (singleton t1 || is_Load C in1))) &&
              (singleton t1 || (idx C in1 >? idx C in2)) in
  let '(in1, in2, t2, progress) := if swap then (in2, in1, t1, true) else (in1, in2, t2, false) in
  if singleton t2 then
    if decide (t2 = Top) then Some NoChange else MulNode_flatten C in1 in2 t2 progress
  else Some (if (progress : bool) then New (mk_mul C in1 in2) else NoChange).

(** [makecon] of a type of one int or long; an empty range fails its assertion. *)
Definition makeconi (t : IType) : option inode :=
  match t with Int lo hi _ => ASSERT TypeInt.is_con lo hi ;; Some (ConI lo) | _ => None end.
Definition makeconl (t : IType) : option lnode :=
  match t with Long lo hi _ => ASSERT TypeLong.is_con lo hi ;; Some (ConL lo) | _ => None end.

Section mul_nodes.
Context {phase : PhaseGVN}.

Definition MulI_class : mul_class inode := {|
  type_of := typei; transform := transformi; is_Load := is_Loadi; idx := idxi;
  mul_of n := match n with MulI a b => Some (a, b) | _ => None end;
  add_of n := match n with AddI a b => Some (a, b) | _ => None end;
  mk_mul := MulI; mk_add := AddI; makecon := makeconi;
  mul_id := TypeInt.ONE; mul_ring := MulI_mul_ring |}.

Definition MulL_class : mul_class lnode := {|
  type_of := typel; transform := transforml; is_Load := is_Loadl; idx := idxl;
  mul_of n := match n with MulL a b => Some (a, b) | _ => None end;
  add_of n := match n with AddL a b => Some (a, b) | _ => None end;
  mk_mul := MulL; mk_add := AddL; makecon := makeconl;
  mul_id := TypeLong.ONE; mul_ring := MulL_mul_ring |}.

Definition AndI_class : mul_class inode := {|
  type_of := typei; transform := transformi; is_Load := is_Loadi; idx := idxi;
  mul_of n := match n with AndI a b => Some (a, b) | _ => None end;
  add_of n := match n with OrI a b => Some (a, b) | _ => None end;
  mk_mul := AndI; mk_add := OrI; makecon := makeconi;
  mul_id := TypeInt.MINUS_1; mul_ring := AndI_mul_ring |}.

Definition AndL_class : mul_class lnode := {|
  type_of := typel; transform := transforml; is_Load := is_Loadl; idx := idxl;
  mul_of n := match n with AndL a b => Some (a, b) | _ => None end;
  add_of n := match n with OrL a b => Some (a, b) | _ => None end;
  mk_mul := AndL; mk_add := OrL; makecon := makeconl;
  mul_id := TypeLong.MINUS_1; mul_ring := AndL_mul_ring |}.

(** ** [Node::find_int_con] and [find_long_con] *)

Definition find_int_con (n : inode) (value_if_unknown : Z) : Z :=
  let t := match n with
           | ConI c => Some (TypeInt.make_con c)
           | CMoveI _ _ _ => Some TypeInt.INT
           | VarI x => var_typei x
           | _ => None
           end in
  match t with
  | Some (Int lo hi _) => if TypeInt.is_con lo hi then lo else value_if_unknown
  | _ => value_if_unknown
  end.

Definition find_long_con (n : lnode) (value_if_unknown : Z) : Z :=
  let t := match n with
           | ConL c => Some (TypeLong.make_con c)
           | CMoveL _ _ _ => Some TypeLong.LONG
           | VarL x => var_typel x
           | _ => None
           end in
  match t with
  | Some (Long lo hi _) => if TypeLong.is_con lo hi then lo else value_if_unknown
  | _ => value_if_unknown
  end.

(** ** [MulINode] and [MulLNode] *)

(** The product with a constant of one or two bits, or of one less than a power of two. *)
Definition MulI_shifts (in1 : inode) (con : Z) : option inode :=
  let bit1 := con &&& s32 (- con) in
  let bit2 := s32 (con - bit1) in
  let bit2 := bit2 &&& s32 (- bit2) in
  if bit1 =? con then Some (LShiftI in1 (intcon (log2_intptr bit1)))
  else if s32 (bit2 + bit1) =? con then
    let n1 := transformi (LShiftI in1 (intcon (log2_intptr bit1))) in
    let n2 := transformi (LShiftI in1 (intcon (log2_intptr bit2))) in
    Some (AddI n2 n1)
  else if is_power_of_2 (s32 (con + 1)) then
    let temp := s32 (con + 1) in
    let n1 := transformi (LShiftI in1 (intcon (log2_intptr temp))) in
    Some (SubI n1 in1)
  else None.

Definition MulI_Ideal (in1 in2 : inode) : option (outcome inode) :=
  let con1 := find_int_con in1 0 in
  let '(in1, in2, con) :=
    if negb (con1 =? 0) then (in2, in1, con1) else (in1, in2, find_int_con in2 0) in
  if con =? 0 then MulNode_Ideal MulI_class in1 in2
  else if con =? 1 then Some NoChange
  else
    let sign_flip := con <? 0 in
    let con := if con <? 0 then s32 (- con) else con in
    match MulI_shifts in1 con with
    | None => MulNode_Ideal MulI_class in1 in2
    | Some res => Some (New (if sign_flip then SubI (intcon 0) (transformi res) else res))
    end.

Definition MulL_shifts (in1 : lnode) (con : Z) : option lnode :=
  let bit1 := con &&& s64 (- con) in
  let bit2 := s64 (con - bit1) in
  let bit2 := bit2 &&& s64 (- bit2) in
  if bit1 =? con then Some (LShiftL in1 (intcon (log2_long bit1)))
  else if s64 (bit2 + bit1) =? con then
    let n1 := transforml (LShiftL in1 (intcon (log2_long bit1))) in
    let n2 := transforml (LShiftL in1 (intcon (log2_long bit2))) in
    Some (AddL n2 n1)
  else if is_power_of_2_long (s64 (con + 1)) then
    let temp := s64 (con + 1) in
    let n1 := transforml (LShiftL in1 (intcon (log2_long temp))) in
    Some (SubL n1 in1)
  else None.

Definition MulL_Ideal (in1 in2 : lnode) : option (outcome lnode) :=
  let con1 := find_long_con in1 0 in
  let '(in1, in2, con) :=
    if negb (con1 =? 0) then (in2, in1, con1) else (in1, in2, find_long_con in2 0) in
  if con =? 0 then MulNode_Ideal MulL_class in1 in2
  else if con =? 1 then Some NoChange
  else
    let sign_flip := con <? 0 in
    let con := if con <? 0 then s64 (- con) else con in
    match MulL_shifts in1 con with
    | None => MulNode_Ideal MulL_class in1 in2
    | Some res => Some (New (if sign_flip then SubL (longcon 0) (transforml res) else res))
    end.

(** ** [AndINode] and [AndLNode] *)

(** The constant that an int or long node is known to be. *)
Definition int_con (n : inode) : option Z :=
  match typei n with Int lo hi _ => if TypeInt.is_con lo hi then Some lo else None | _ => None end.
Definition long_con (n : lnode) : option Z :=
  match typel n with Long lo hi _ => if TypeLong.is_con lo hi then Some lo else None | _ => None end.

Definition AndI_Identity (in1 in2 : inode) : option (option inode) :=
  if samei in1 in2 then Some (Some in1) else
  let base := MulNode_Identity AndI_class in1 in2 in
  match int_con in2 with
  | None => base
  | Some con =>
      let useless :=
        match typei in1 with
        | Int lo hi _ =>
            (lo >=? 0) &&
            (let t1_support := s32 (s32 (1 ≪ (1 + log2_intptr hi)) - 1) in
             (t1_support &&& con) =? t1_support)
        | _ => false
        end in
      if useless then Some (Some in1)
      else
        match in1 with
        | LoadC _ _ => if con =? 0x0000FFFF then Some (Some in1) else base
        | URShiftI _ count =>
            match int_con count with
            | Some shift_con =>
                ASSERT defined_count 32 shift_con ;;
                let mask := s32 (max_juint ≫ shift_con) in
                if (mask &&& con) =? mask then Some (Some in1) else base
            | None => base
            end
        | _ => base
        end
  end.

(** [in0] tells whether the node has a control input. *)
Definition AndI_Ideal (in0 : bool) (in1 in2 : inode) : option (outcome inode) :=
  let base := MulNode_Ideal AndI_class in1 in2 in
  match int_con in2 with
  | None => base
  | Some mask =>
      match in1 with
      | LoadC _ _ =>
          if negb ((u32 mask &&& 0xFFFF0000) =? 0) then Some (New (AndI in1 (intcon (mask &&& 0xFFFF))))
          else base
      | LoadS ctl m =>
          if (u32 mask &&& 0xFFFF0000) =? 0 then
            let ldc := transformi (LoadC ctl m) in
            Some (New (AndI ldc (intcon (mask &&& 0xFFFF))))
          else base
      | LoadB ctl _ =>
          if negb in0 && ctl && (mask =? 0x000000FF) then Some This else base
      | RShiftI x count =>
          match int_con count with
          | Some con =>
              let shift := con &&& (BitsPerJavaInteger - 1) in
              let sign_bits_mask := s32 (Z.lnot (right_n_bits (BitsPerJavaInteger - shift))) in
              if (sign_bits_mask &&& mask) =? 0 then
                let zshift := transformi (URShiftI x count) in
                Some (New (AndI zshift in2))
              else base
          | None => base
          end
      | SubI a b =>
          if (mask =? 1) && bool_decide (typei a = TypeInt.ZERO) then Some (New (AndI b in2)) else base
      | _ => base
      end
  end.

Definition AndL_Identity (in1 in2 : lnode) : option (option lnode) :=
  if samel in1 in2 then Some (Some in1) else
  let base := MulNode_Identity AndL_class in1 in2 in
  match long_con in2 with
  | None => base
  | Some con =>
      let useless :=
        match typel in1 with
        | Long lo hi _ =>
            (lo >=? 0) &&
            (let t1_support := s64 (s64 (1 ≪ (1 + log2_long hi)) - 1) in
             (t1_support &&& con) =? t1_support)
        | _ => false
        end in
      if useless then Some (Some in1)
      else
        match in1 with
        | URShiftL _ count =>
            match int_con count with
            | Some shift_con =>
                ASSERT defined_count 64 shift_con ;;
                let mask := s64 (max_julong ≫ shift_con) in
                if (mask &&& con) =? mask then Some (Some in1) else base
            | None => base
            end
        | _ => base
        end
  end.

Definition AndL_Ideal (in1 in2 : lnode) : option (outcome lnode) :=
  let base := MulNode_Ideal AndL_class in1 in2 in
  match long_con in2 with
  | None => base
  | Some mask =>
      match in1 with
      | RShiftL x count =>
          match int_con count with
          | Some con =>
              let shift := con &&& (BitsPerJavaInteger * 2 - 1) in
              ASSERT defined_count 64 (BitsPerJavaInteger * 2 - shift) ;;
              let sign_bits_mask := Z.lnot (s64 (s64 (1 ≪ (BitsPerJavaInteger * 2 - shift)) - 1)) in
              if (sign_bits_mask &&& mask) =? 0 then
                let zshift := transforml (URShiftL x count) in
                Some (New (AndL zshift in2))
              else base
          | None => base
          end
      | _ => base
      end
  end.

(** ** Shifts *)

(** [LShiftINode], [RShiftINode] and their kind share the test for a shift by zero. *)
Definition LShiftI_Identity (in1 in2 : inode) : option inode :=
  match int_con in2 with
  | Some con => if (con &&& (32 - 1)) =? 0 then Some in1 else None
  | None => None
  end.

Definition LShiftI_Ideal (in1 in2 : inode) : outcome inode :=
  match int_con in2 with
  | None => NoChange
  | Some c2 =>
      let con := c2 &&& (32 - 1) in
      if con =? 0 then NoChange
      else
        let bits_mask := s32 (right_n_bits (BitsPerJavaInteger - con)) in
        match in1 with
        | AddI x c =>
            match int_con c with
            | Some con1 =>
                if con <? 16 then
                  let lsh := transformi (LShiftI x in2) in
                  New (AddI lsh (intcon (s32 (con1 ≪ con))))
                else NoChange
            | None => NoChange
            end
        | RShiftI x count | URShiftI x count =>
            if samei count in2 then New (AndI x (intcon (s32 (- s32 (1 ≪ con))))) else NoChange
        | AndI add2 y =>
            let high_bits :=
              if decide (typei y = TypeInt.make_con bits_mask) then New (LShiftI add2 in2)
              else NoChange in
            match add2 with
            | RShiftI x count | URShiftI x count =>
                if samei count in2 then
                  let y_sh := transformi (LShiftI y in2) in New (AndI x y_sh)
                else high_bits
            | _ => high_bits
            end
        | _ => NoChange
        end
  end.

Definition LShiftL_Identity (in1 : lnode) (in2 : inode) : option lnode :=
  match int_con in2 with
  | Some con => if (con &&& (64 - 1)) =? 0 then Some in1 else None
  | None => None
  end.

Definition LShiftL_Ideal (in1 : lnode) (in2 : inode) : outcome lnode :=
  match int_con in2 with
  | None => NoChange
  | Some c2 =>
      let con := c2 &&& (64 - 1) in
      if con =? 0 then NoChange
      else
        let bits_mask := s64 (s64 (1 ≪ (BitsPerJavaInteger * 2 - con)) - 1) in
        match in1 with
        | AddL x c =>
            match long_con c with
            | Some con1 =>
                let lsh := transforml (LShiftL x in2) in
                New (AddL lsh (longcon (s64 (con1 ≪ con))))
            | None => NoChange
            end
        | RShiftL x count | URShiftL x count =>
            if samei count in2 then New (AndL x (longcon (s64 (- s64 (1 ≪ con))))) else NoChange
        | AndL add2 y =>
            let high_bits :=
              if decide (typel y = TypeLong.make_con bits_mask) then New (LShiftL add2 in2)
              else NoChange in
            match add2 with
            | RShiftL x count | URShiftL x count =>
                if samei count in2 then
                  let y_sh := transforml (LShiftL y in2) in New (AndL x y_sh)
                else high_bits
            | _ => high_bits
            end
        | _ => NoChange
        end
  end.

Definition RShiftI_Identity (in1 in2 : inode) : option inode :=
  match typei in2 with
  | Int lo2 hi2 _ =>
      if TypeInt.is_con lo2 hi2 && ((lo2 &&& (32 - 1)) =? 0) then Some in1
      else
        match in1 with
        | LShiftI x count =>
            if samei count in2 && TypeInt.is_con lo2 hi2 then
              let shift := lo2 &&& (BitsPerJavaInteger - 1) in
              let lo := s32 ((-1) ≪ (BitsPerJavaInteger - shift - 1)) in
              let hi := Z.lnot lo in
              match typei x with
              | Int xlo xhi _ => if (lo <=? xlo) && (xhi <=? hi) then Some x else None
              | _ => None
              end
            else None
        | _ => None
        end
  | _ => None
  end.

Definition RShiftI_Ideal (in1 in2 : inode) : outcome inode :=
  match typei in1, int_con in2 with
  | Int _ _ _, Some c2 =>
      let shift := c2 &&& (BitsPerJavaInteger - 1) in
      if shift =? 0 then NoChange
      else
        match in1 with
        | AndI x m =>
            match int_con m with
            | Some maskbits =>
                let shr_nomask := transformi (RShiftI x in2) in
                New (AndI shr_nomask (intcon (maskbits ≫ shift)))
            | None => NoChange
            end
        | LShiftI ld count =>
            match ld with
            | LoadS _ _ =>
                if (shift =? 16) && bool_decide (int_con count = Some 16)
                then New (RShiftI ld (intcon 0)) else NoChange
            | LoadC ctl m =>
                if (shift =? 16) && bool_decide (int_con count = Some 16)
                then New (LoadS ctl m) else NoChange
            | LoadB _ _ =>
                if (shift =? 24) && bool_decide (int_con count = Some 24)
                then New (RShiftI ld (intcon 0)) else NoChange
            | _ => NoChange
            end
        | _ => NoChange
        end
  | _, _ => NoChange
  end.

Definition RShiftL_Identity (in1 : lnode) (in2 : inode) : option lnode :=
  match int_con in2 with
  | Some con => if (con &&& (64 - 1)) =? 0 then Some in1 else None
  | None => None
  end.

(** [wordSize] is 8 and [LogBytesPerWord] is 3. *)
Definition URShiftI_Identity (in1 in2 : inode) : option (option inode) :=
  let by_zero := match int_con in2 with Some con => (con &&& (32 - 1)) =? 0 | None => false end in
  if by_zero then Some (Some in1)
  else
    let rest := b ← higher_equal (typei in2) TypeInt.ZERO; Some (if (b : bool) then Some in1 else None) in
    match in1 with
    | AddI (LShiftI x lshift_count) c =>
        if bool_decide (int_con c = Some (8 - 1)) && bool_decide (int_con lshift_count = Some 3) &&
           bool_decide (typei lshift_count = typei in2) then
          match typei x with
          | Int xlo xhi _ =>
              if (0 <=? xlo) && (xhi <=? max_jint ≫ 3) then Some (Some x) else rest
          | _ => rest
          end
        else rest
    | _ => rest
    end.

Definition URShiftI_Ideal (in1 in2 : inode) : outcome inode :=
  match int_con in2 with
  | None => NoChange
  | Some c2 =>
      let con := c2 &&& 31 in
      if con =? 0 then NoChange
      else
        let mask := s32 (right_n_bits (BitsPerJavaInteger - con)) in
        match in1 with
        | URShiftI x count =>
            match int_con count with
            | Some c12 =>
                let con2 := c12 &&& 31 in
                let con3 := con + con2 in
                if con3 <? 32 then New (URShiftI x (intcon con3)) else NoChange
            | None => NoChange
            end
        | AddI (LShiftI x count) y =>
            if decide (typei count = typei in2) then
              let y_z := transformi (URShiftI y in2) in
              let sum := transformi (AddI x y_z) in
              New (AndI sum (intcon mask))
            else NoChange
        | AndI x m =>
            match int_con m with
            | Some mask2 =>
                let newshr := transformi (URShiftI x in2) in
                New (AndI newshr (intcon (mask2 ≫ con)))
            | None => NoChange
            end
        | LShiftI x count =>
            if decide (typei count = typei in2) then New (AndI x (intcon mask)) else NoChange
        | _ => NoChange
        end
  end.

Definition URShiftL_Identity (in1 : lnode) (in2 : inode) : option lnode :=
  match int_con in2 with
  | Some con => if (con &&& (64 - 1)) =? 0 then Some in1 else None
  | None => None
  end.

Definition URShiftL_Ideal (in1 : lnode) (in2 : inode) : outcome lnode :=
  match int_con in2 with
  | None => NoChange
  | Some c2 =>
      let con := c2 &&& (64 - 1) in
      if con =? 0 then NoChange
      else
        let mask := s64 (s64 (1 ≪ (BitsPerJavaInteger * 2 - con)) - 1) in
        match in1 with
        | AddL (LShiftL x count) y =>
            if decide (typei count = typei in2) then
              let y_z := transforml (URShiftL y in2) in
              let sum := transforml (AddL x y_z) in
              New (AndL sum (longcon mask))
            else NoChange
        | AndL x m =>
            match long_con m with
            | Some mask2 =>
                let newshr := transforml (URShiftL x in2) in
                New (AndL newshr (longcon (mask2 ≫ con)))
            | None => NoChange
            end
        | LShiftL x count =>
            if decide (typei count = typei in2) then New (AndL x (longcon mask)) else NoChange
        | _ => NoChange
        end
  end.
End mul_nodes.

(** * Correctness *)

(** The input that [Identity] returns has the value [x]. *)
Definition replaces {N : Type} (value : N -> Z) (x : Z) (o : option N) : Prop :=
  forall n, o = Some n -> value n = x.

(** ** The base class *)

Section mul_node_proofs.
Context {N : Type} (C : mul_class N) (ev : N -> Z) (val : Z -> value) (op opadd : Z -> Z -> Z).
Hypothesis Htype : forall n, wf (type_of C n) /\ type_of C n <> Bottom /\
  (type_of C n = Top \/ has_type (val (ev n)) (type_of C n)).
Hypothesis Htrans : forall n, ev (transform C n) = ev n.
Hypothesis Hmul : forall a b, ev (mk_mul C a b) = op (ev a) (ev b).
Hypothesis Hadd : forall a b, ev (mk_add C a b) = opadd (ev a) (ev b).
Hypothesis Hmul_of : forall n a b, mul_of C n = Some (a, b) -> n = mk_mul C a b.
Hypothesis Hadd_of : forall n a b, add_of C n = Some (a, b) -> n = mk_add C a b.
Hypothesis Hcon : forall t x, wf t -> singleton t = true -> has_type (val x) t ->
  in_range (val x) /\ exists n, makecon C t = Some n /\ ev n = x.
Hypothesis Hring : ring_covers val val val op (mul_ring C).
Hypothesis Hcomm : forall a b, op a b = op b a.
Hypothesis Hassoc : forall a b c, op (op a b) c = op a (op c b).
Hypothesis Hdist : forall a b c, op (opadd a b) c = opadd (op a c) (op c b).
Set Default Proof Using "Type*".

(** The product of the constants [t2] and the type of a node [c]. *)
Lemma constant_product in2 t2 c :
  wf t2 -> t2 <> Bottom -> singleton t2 = true -> has_type (val (ev in2)) t2 ->
  singleton (type_of C c) && negb (bool_decide (type_of C c = Top)) = true ->
  exists t, mul_ring C t2 (type_of C c) = Some t /\ wf t /\ has_type (val (op (ev in2) (ev c))) t.
Proof.
  intros Hw Hb Hs H2 [Hsc Hnt%negb_true_iff%bool_decide_eq_false]%andb_true_iff.
  destruct (Htype c) as (Hwc & Hbc & [|Hc]); [done|].
  apply Hring; try done.
  - by destruct (Hcon _ _ Hw Hs H2).
  - by destruct (Hcon _ _ Hwc Hsc Hc).
Qed.

Lemma flatten_ok in1 in2 t2 progress :
  wf t2 -> t2 <> Bottom -> singleton t2 = true -> has_type (val (ev in2)) t2 ->
  exists o, MulNode_flatten C in1 in2 t2 progress = Some o /\ computes ev (op (ev in1) (ev in2)) o.
Proof.
  intros Hw Hb Hs H2. unfold MulNode_flatten. set (first := match mul_of C in1 with Some _ => _ | None => _ end).
  assert (Hfirst : exists i1 i2 t p, first = Some (i1, i2, t, p) /\ wf t /\ t <> Bottom /\
    singleton t = true /\ has_type (val (ev i2)) t /\ op (ev i1) (ev i2) = op (ev in1) (ev in2)).
  { assert (Hsame : exists i1 i2 t p, Some (in1, in2, t2, progress) = Some (i1, i2, t, p) /\ wf t /\ t <> Bottom /\
      singleton t = true /\ has_type (val (ev i2)) t /\ op (ev i1) (ev i2) = op (ev in1) (ev in2)) by by eexists _, _, _, _.
    unfold first. destruct (mul_of C in1) as [[x c]|] eqn:Em; [|done]. apply Hmul_of in Em as ->.
    destruct (_ && _) eqn:Ec; [|done].
    destruct (constant_product in2 t2 c Hw Hb Hs H2 Ec) as (t & -> & Hwt & Ht). cbn [mbind option_bind].
    destruct (singleton t) eqn:Est; [|done]. destruct (Hcon t _ Hwt Est Ht) as (_ & n & -> & Hn).
    eexists _, _, _, _. split_and!; [done|done|by intros ->|done|by rewrite Hn|]. by rewrite Hn, Hmul, Hassoc. }
  destruct Hfirst as (i1 & i2 & t & p & -> & Hwt & Hbt & Hst & Ht & <-). cbn [mbind option_bind].
  assert (Hsame : exists o, Some (if p then New (mk_mul C i1 i2) else NoChange) = Some o /\
    computes ev (op (ev i1) (ev i2)) o).
  { eexists. split; [done|]. destruct p; intros n [= <-]. apply Hmul. }
  destruct (add_of C i1) as [[x c]|] eqn:Ea; [|done]. apply Hadd_of in Ea as ->.
  destruct (_ && _) eqn:Ec; [|done].
  destruct (constant_product i2 t c Hwt Hbt Hst Ht Ec) as (t' & -> & Hwt' & Ht'). cbn [mbind option_bind].
  destruct (singleton t') eqn:Est; [|done]. destruct (Hcon t' _ Hwt' Est Ht') as (_ & n & -> & Hn).
  eexists. split; [done|]. intros m [= <-]. by rewrite Hadd, Htrans, Hmul, Hn, Hadd, Hdist.
Qed.

Lemma mul_node_ideal in1 in2 :
  exists o, MulNode_Ideal C in1 in2 = Some o /\ computes ev (op (ev in1) (ev in2)) o.
Proof.
  unfold MulNode_Ideal. set (swap := negb _ && _). clearbody swap.
  assert (Htail : forall i1 i2 p, op (ev i1) (ev i2) = op (ev in1) (ev in2) ->
    exists o, (if singleton (type_of C i2) then
        if decide (type_of C i2 = Top) then Some NoChange else MulNode_flatten C i1 i2 (type_of C i2) p
      else Some (if (p : bool) then New (mk_mul C i1 i2) else NoChange)) = Some o /\
      computes ev (op (ev in1) (ev in2)) o).
  { intros i1 i2 p <-. destruct (Htype i2) as (Hw & Hb & Ht). destruct (singleton _) eqn:Es.
    - destruct (decide _); [eexists; split; [done|by intros ?]|]. destruct Ht as [|Ht]; [done|]. by apply flatten_ok.
    - eexists. split; [done|]. destruct p; intros n [= <-]. apply Hmul. }
  destruct swap; [apply Htail, Hcomm|by apply Htail].
Qed.

Lemma mul_node_identity in1 in2 u :
  wf (mul_id C) -> (forall x, has_type (val x) (mul_id C) -> x = u) ->
  (forall n, type_of C n <> Top -> op u (ev n) = ev n) -> type_of C in1 <> Top -> type_of C in2 <> Top ->
  exists o, MulNode_Identity C in1 in2 = Some o /\ replaces ev (op (ev in1) (ev in2)) o.
Proof.
  intros Hw Hu Hop N1 N2. unfold MulNode_Identity.
  destruct (Htype in1) as (W1 & _ & [|T1]); [done|]. destruct (Htype in2) as (W2 & _ & [|T2]); [done|].
  destruct (higher_equal_sound _ _ (val (ev in1)) W1 Hw) as (b1 & -> & H1). cbn [mbind option_bind].
  destruct b1.
  { eexists. split; [done|]. intros n [= <-]. by rewrite (Hu _ (H1 eq_refl T1)), Hop by done. }
  destruct (higher_equal_sound _ _ (val (ev in2)) W2 Hw) as (b2 & -> & H2). cbn [mbind option_bind].
  destruct b2; (eexists; split; [done|]); intros n [= <-]. by rewrite Hcomm, (Hu _ (H2 eq_refl T2)), Hop by done.
Qed.
End mul_node_proofs.

(** ** Products by shifts *)

(** One bit of a word of [w] bits, as a signed number. *)
Definition single_bit (w b : Z) : Prop := (exists k, 0 <= k < w - 1 /\ b = 2 ^ k) \/ b = - 2 ^ (w - 1).

Section bits.
Context (w : Z).
Hypothesis Hw : w = 32 \/ w = 64.
Set Default Proof Using "Type*".

Lemma pow_fits k : 0 <= k < w - 1 -> 0 < 2 ^ k < 2 ^ (w - 1) /\ 2 ^ (w - 1) <= 2 ^ 63.
Proof.
  intros Hk. pose proof (Z.pow_lt_mono_r 2 k (w - 1)). pose proof (Z.pow_le_mono_r 2 (w - 1) 63).
  pose proof (Z.pow_pos_nonneg 2 k). lia.
Qed.

(** The count [log2_intptr b], of which a shift uses the low bits. *)
Lemma shift_by_bit b x :
  single_bit w b -> wraps w (x ≪ (log2_intptr b &&& (w - 1))) = wraps w (x * b).
Proof.
  intros [(k & Hk & ->)| ->].
  - pose proof (pow_fits k Hk). rewrite log2_intptr_pos, Z.log2_pow2 by lia.
    replace (k &&& (w - 1)) with k; [by rewrite Z.shiftl_mul_pow2 by lia|].
    destruct Hw as [-> | ->]; [by rewrite land_31 by lia|by rewrite land_63 by lia].
  - assert (0 < w) by lia. replace (log2_intptr (- 2 ^ (w - 1)) &&& (w - 1)) with (w - 1)
      by (destruct Hw as [-> | ->]; by vm_compute).
    rewrite Z.shiftl_mul_pow2 by lia. apply wraps_cong. exists x.
    replace (2 ^ w) with (2 * 2 ^ (w - 1)) by (destruct Hw as [-> | ->]; done). lia.
Qed.

Lemma low_bit c :
  0 < c < 2 ^ (w - 1) -> exists k j, 0 <= k < w - 1 /\ 0 <= j /\ c = 2 ^ k * (2 * j + 1) /\ c &&& wraps w (- c) = 2 ^ k.
Proof.
  intros Hc. rewrite wraps_id by (unfold is_s; lia).
  destruct (lowest_bit c) as (k & j & Hk & Hj & E & L); [lia|]. exists k, j. split_and!; try done.
  apply (Z.pow_lt_mono_r_iff 2); [lia|lia|]. pose proof (Z.pow_pos_nonneg 2 k). nia.
Qed.

Lemma first_bit con :
  0 < con < 2 ^ (w - 1) \/ con = - 2 ^ (w - 1) ->
  let bit1 := con &&& wraps w (- con) in
  single_bit w bit1 /\
  (bit1 <> con -> let bit2 := wraps w (con - bit1) in single_bit w (bit2 &&& wraps w (- bit2))).
Proof.
  intros [Hc| ->]; cbv zeta.
  - destruct (low_bit con Hc) as (k & j & Hk & Hj & E & ->). split; [left; by exists k|]. intros Hne.
    pose proof (Z.pow_pos_nonneg 2 k). destruct (low_bit (con - 2 ^ k)) as (k' & j' & Hk' & _ & _ & L).
    { assert (0 < j) by nia. split; nia. }
    rewrite (wraps_id w (con - 2 ^ k)) by (unfold is_s; nia). rewrite L. left. by exists k'.
  - replace (wraps w (- - 2 ^ (w - 1))) with (- 2 ^ (w - 1)) by (destruct Hw as [-> | ->]; by vm_compute).
    rewrite Z.land_diag. split; [by right|done].
Qed.

Lemma power_is_bit t : is_s w t -> is_power_of_2 t = true -> single_bit w t.
Proof.
  intros Ht Hp. assert (Hb : 2 ^ (w - 1) <= 2 ^ 63) by (apply Z.pow_le_mono_r; lia).
  unfold is_s in Ht. destruct (Z.lt_trichotomy t 0) as [Hn|[->|Hpos]]; [|done|].
  - apply andb_true_iff in Hp as [_ E%Z.eqb_eq]. unfold mask_bits, NoBits in E.
    destruct (Z.eq_dec t (- 2 ^ 63)) as [->|Hne].
    + right. f_equal. f_equal. destruct Hw as [-> | ->]; [|done]. exfalso. lia.
    + rewrite wraps_id in E by (try done; unfold is_s; change (2 ^ (64 - 1)) with (2 ^ 63); lia).
      pose proof (proj2 (Z.land_neg t (t - 1)) ltac:(lia)). lia.
  - left. apply is_power_of_2_iff in Hp; [|lia]. exists (Z.log2 t). split; [|done].
    split; [apply Z.log2_nonneg|apply Z.log2_lt_pow2; lia].
Qed.

(** The three ways to build a product, and its negation. *)
Lemma two_shifts x bit1 bit2 con :
  wraps w (bit2 + bit1) = con -> wraps w (wraps w (x * bit2) + wraps w (x * bit1)) = wraps w (x * con).
Proof.
  intros <-. rewrite wraps_mul_r, wraps_add_l, wraps_add_r by lia. f_equal. ring.
Qed.

Lemma shift_less_one x con : wraps w (wraps w (x * wraps w (con + 1)) - x) = wraps w (x * con).
Proof. rewrite wraps_mul_r, wraps_sub_l by lia. f_equal. ring. Qed.

Lemma negated_product x con : wraps w (0 - wraps w (x * wraps w (- con))) = wraps w (x * con).
Proof. rewrite wraps_mul_r, wraps_sub_r by lia. f_equal. ring. Qed.

Lemma abs_constant con :
  is_s w con -> con <> 0 -> let c := if con <? 0 then wraps w (- con) else con in
  0 < c < 2 ^ (w - 1) \/ c = - 2 ^ (w - 1).
Proof.
  intros Hc Hz. unfold is_s in Hc. cbv zeta. destruct (Z.ltb_spec con 0); [|lia].
  destruct (Z.eq_dec con (- 2 ^ (w - 1))) as [->|].
  - right. destruct Hw as [-> | ->]; by vm_compute.
  - left. rewrite wraps_id by (unfold is_s; lia). lia.
Qed.
End bits.

(** ** Masks *)

Lemma right_n_bits_ones n : 0 <= n <= 62 -> right_n_bits n = 2 ^ n - 1.
Proof.
  intros Hn. pose proof (pow2_63 n Hn). unfold right_n_bits, nth_bit.
  replace (n >=? 64) with false by lia. rewrite Z.shiftl_mul_pow2, Z.mul_1_l by lia.
  rewrite wraps_sub_l, wraps_id; try done. unfold is_s. pow2_norm. lia.
Qed.

(** The mask [(1 << k) - 1] of [w] bits, computed with wrap-around. *)
Lemma wrapped_mask w k : 0 <= k < w -> wraps w (wraps w (1 ≪ k) - 1) = 2 ^ k - 1.
Proof.
  intros Hk. rewrite wraps_sub_l, Z.shiftl_mul_pow2, Z.mul_1_l by lia. apply wraps_id; [lia|].
  pose proof (Z.pow_le_mono_r 2 k (w - 1) ltac:(lia) ltac:(lia)). pose proof (Z.pow_pos_nonneg 2 k).
  unfold is_s. lia.
Qed.

Lemma land_superset v m con : v &&& m = v -> m &&& con = m -> v &&& con = v.
Proof. intros Hv Hm. by rewrite <- Hv, <- Z.land_assoc, Hm. Qed.

Lemma land_small v k : 0 <= k -> 0 <= v < 2 ^ k -> v &&& (2 ^ k - 1) = v.
Proof. intros Hk Hv. rewrite land_ones_mod by done. by apply Z.mod_small. Qed.

(** A mask that has all bits of the numbers up to [hi]. *)
Lemma support_mask w hi v con :
  w = 32 \/ w = 64 -> is_s w hi -> 0 <= v <= hi ->
  let support := wraps w (wraps w (1 ≪ (1 + log2_intptr hi)) - 1) in
  support &&& con = support -> v &&& con = v.
Proof.
  intros Hw Hhi Hv support. unfold is_s in Hhi. destruct (Z.eq_dec hi 0) as [->|].
  { intros _. by replace v with 0 by lia. }
  pose proof (Z.pow_le_mono_r 2 (w - 1) 63). pose proof (Z.log2_nonneg hi).
  pose proof (proj1 (Z.log2_lt_pow2 hi (w - 1) ltac:(lia)) ltac:(lia)).
  unfold support. rewrite log2_intptr_pos, wrapped_mask by lia. apply land_superset, land_small; [lia|].
  pose proof (Z.log2_spec hi ltac:(lia)). rewrite Z.add_1_l. lia.
Qed.

(** A mask that has all bits that a zero-filling shift leaves. *)
Lemma ushr_mask w k x con :
  0 <= k < w -> is_s w con ->
  let mask := wraps w ((2 ^ w - 1) ≫ k) in
  mask &&& con = mask -> wraps w (wrapu w x ≫ k) &&& con = wraps w (wrapu w x ≫ k).
Proof.
  intros Hk Hc mask. apply land_superset. apply (word_bits w); [lia|apply land_range; [lia|..]|..];
    try (apply wraps_range; lia). intros n Hn.
  assert (Hm : mask = wraps w (wrapu w (-1) ≫ k)).
  { unfold mask. do 2 f_equal. unfold wrapu. pose proof (Z.pow_pos_nonneg 2 w).
    apply (Z.mod_unique _ _ (-1)); lia. }
  rewrite Z.land_spec, Hm, !testbit_ushr, Z.bits_m1 by lia. destruct (_ <? _); [|done]. by rewrite andb_true_r.
Qed.

Lemma testbit_high_half n : 16 <= n < 32 -> Z.testbit 0xFFFF0000 n = true.
Proof.
  intros Hn. change 0xFFFF0000 with (0xFFFF ≪ 16). rewrite Z.shiftl_spec by lia.
  change 0xFFFF with (2 ^ 16 - 1). rewrite testbit_mask by lia. lia.
Qed.

(** The bits of a short under a mask without high bits are those of a char. *)
Lemma short_mask c mask :
  is_s 32 mask -> u32 mask &&& 0xFFFF0000 = 0 -> u16 c &&& (mask &&& 0xFFFF) = s16 c &&& mask.
Proof.
  intros Hm Hz. assert (Hu : is_s 32 (u16 c)) by (pose proof (wrapu_range 16 c); unfold is_s, is_u in *; lia).
  assert (Hs : is_s 32 (s16 c)) by (pose proof (wraps_range 16 c); unfold is_s in *; lia).
  apply (word_bits 32); [lia| |by apply land_range|].
  { apply land_range; [lia|done|]. by apply land_range. }
  intros n Hn. rewrite !Z.land_spec. change 0xFFFF with (2 ^ 16 - 1). rewrite testbit_mask, testbit_wrapu by lia.
  destruct (Z.ltb_spec n 16).
  - rewrite testbit_wraps, andb_true_r by lia. done.
  - cbn [andb]. apply (f_equal (fun z => Z.testbit z n)) in Hz.
    rewrite Z.land_spec, testbit_high_half, Z.bits_0, andb_true_r, testbit_wrapu in Hz by lia.
    rewrite (proj2 (Z.ltb_lt n 32)) in Hz by lia. cbn [andb] in Hz. by rewrite Hz, andb_false_r.
Qed.

(** Negation keeps the lowest bit. *)
Lemma negate_bit_0 b : s32 (0 - b) &&& 1 = b &&& 1.
Proof.
  change 1 with (2 ^ 1 - 1). rewrite !land_ones_mod by done. destruct (wraps_multiple 32 (0 - b)) as [k ->]; [done|].
  change (2 ^ 1) with 2. change (2 ^ 32) with 4294967296. Z.div_mod_to_equations. lia.
Qed.

Lemma int_mask k : 0 < k < 32 -> s32 (right_n_bits (32 - k)) = 2 ^ (32 - k) - 1.
Proof. intros. rewrite right_n_bits_ones by lia. apply wraps_id; [done|apply low_mask_range; lia]. Qed.

(** The mask [- (1 << k)], computed with wrap-around. *)
Lemma wrapped_neg_mask w k : 0 <= k < w -> wraps w (- wraps w (1 ≪ k)) = - 2 ^ k.
Proof.
  intros Hk. rewrite <- Z.sub_0_l, wraps_sub_r, Z.shiftl_mul_pow2, Z.mul_1_l by lia.
  apply wraps_id; [lia|by apply neg_pow_range].
Qed.

(** The char, short or byte in a word that is shifted up and down again. *)
Lemma sign_extend k c : 0 < k < 32 -> s32 (c ≪ (32 - k)) ≫ (32 - k) = wraps k c.
Proof.
  intros Hk. destruct (wraps_multiple k c) as [j Hj]; [lia|].
  replace (s32 (c ≪ (32 - k))) with (s32 (wraps k c ≪ (32 - k))).
  - apply shr_of_shl; [lia|]. replace (32 - (32 - k) - 1) with (k - 1) by lia. apply wraps_range. lia.
  - apply wraps_cong. exists j. rewrite !Z.shiftl_mul_pow2, Hj by lia.
    replace 32 with (k + (32 - k)) at 3 by lia. rewrite Z.pow_add_r by lia. ring.
Qed.

(** ** Constants and ranges *)

Section proofs.
Context {phase : PhaseGVN} {r : env} {laws : PhaseLaws phase r}.
Hypothesis Henv : java_env r.
Set Default Proof Using "Type*".

Lemma int_range n : java_int n -> is_s 32 (evali r n).
Proof. by apply (java_range r Henv). Qed.

Lemma long_range n : java_long n -> is_s 64 (evall r n).
Proof. by apply (java_range r Henv). Qed.

Lemma int_con_ok n c : int_con n = Some c -> is_s 32 c /\ evali r n = c.
Proof.
  unfold int_con. destruct (typei n) eqn:Et; try done. destruct (TypeInt.is_con _ _) eqn:E; [|done].
  intros [= <-]. by eapply con_int.
Qed.

Lemma long_con_ok n c : long_con n = Some c -> is_s 64 c /\ evall r n = c.
Proof.
  unfold long_con. destruct (typel n) eqn:Et; try done. destruct (TypeLong.is_con _ _) eqn:E; [|done].
  intros [= <-]. by eapply con_long.
Qed.

(** A node with the type of a constant is one. *)
Lemma same_type_con a b c : typei a = typei b -> int_con b = Some c -> evali r a = evali r b.
Proof.
  intros E Hb. assert (Ha : int_con a = Some c) by (unfold int_con in *; by rewrite E).
  apply int_con_ok in Ha as [_ ->]. by apply int_con_ok in Hb as [_ ->].
Qed.

Lemma type_con_int n c : typei n = TypeInt.make_con c -> evali r n = c.
Proof. intros E. apply range_int in E. lia. Qed.

Lemma type_con_long n c : typel n = TypeLong.make_con c -> evall r n = c.
Proof. intros E. apply range_long in E. lia. Qed.

Lemma find_int_con_ok n :
  find_int_con n 0 <> 0 -> java_int n -> is_s 32 (find_int_con n 0) /\ evali r n = find_int_con n 0.
Proof.
  unfold find_int_con. destruct n; try done; cbn [java_int evali].
  - intros _ Hc. cbn. rewrite Z.eqb_refl. done.
  - destruct (var_typei x) as [t|] eqn:Et; [|done]. destruct t; try done.
    destruct (TypeInt.is_con _ _) eqn:E; [|done]. intros _ _. apply Z.eqb_eq in E.
    destruct (var_typei_ok x _ Et) as [(Hlo & _) [|Hh]]; [done|]. cbn in Hh. split; [done|lia].
Qed.

Lemma find_long_con_ok n :
  find_long_con n 0 <> 0 -> java_long n -> is_s 64 (find_long_con n 0) /\ evall r n = find_long_con n 0.
Proof.
  unfold find_long_con. destruct n; try done; cbn [java_long evall].
  - intros _ Hc. cbn. rewrite Z.eqb_refl. done.
  - destruct (var_typel x) as [t|] eqn:Et; [|done]. destruct t; try done.
    destruct (TypeLong.is_con _ _) eqn:E; [|done]. intros _ _. apply Z.eqb_eq in E.
    destruct (var_typel_ok x _ Et) as [(Hlo & _) [|Hh]]; [done|]. cbn in Hh. split; [done|lia].
Qed.

(** ** The base class at work *)

Lemma makeconi_ok t x :
  wf t -> singleton t = true -> has_type (VInt x) t ->
  in_range (VInt x) /\ exists n, makeconi t = Some n /\ evali r n = x.
Proof.
  destruct t; try done. cbn. intros (Hlo & Hhi & _) E%Z.geb_le Hx.
  assert (x = lo) as -> by lia. replace hi with lo by lia. unfold TypeInt.is_con, TypeLong.is_con. rewrite Z.eqb_refl.
  split; [done|by eexists].
Qed.

Lemma makeconl_ok t x :
  wf t -> singleton t = true -> has_type (VLong x) t ->
  in_range (VLong x) /\ exists n, makeconl t = Some n /\ evall r n = x.
Proof.
  destruct t; try done. cbn. intros (Hlo & Hhi & _) E%Z.geb_le Hx.
  assert (x = lo) as -> by lia. replace hi with lo by lia. unfold TypeInt.is_con, TypeLong.is_con. rewrite Z.eqb_refl.
  split; [done|by eexists].
Qed.

Lemma typei_facts n : wf (typei n) /\ typei n <> Bottom /\ (typei n = Top \/ has_type (VInt (evali r n)) (typei n)).
Proof. destruct (typei_ok n). split_and!; try done. apply typei_int. Qed.

Lemma typel_facts n : wf (typel n) /\ typel n <> Bottom /\ (typel n = Top \/ has_type (VLong (evall r n)) (typel n)).
Proof. destruct (typel_ok n). split_and!; try done. apply typel_long. Qed.

(** The laws of the base class, for each of its subclasses. *)
Ltac class_laws :=
  cbn [type_of transform mul_of add_of mk_mul mk_add makecon mul_id mul_ring MulI_class MulL_class AndI_class AndL_class];
  first [ apply typei_facts | apply typel_facts | apply transformi_ok | apply transforml_ok
        | by (intros [] ??; try done; by intros [= -> ->]) | apply makeconi_ok | apply makeconl_ok
        | apply mul_int_ring | apply mul_long_ring | apply and_int_ring | apply and_long_ring
        | apply Z.land_comm | done
        | intros; rewrite ?wraps_mul_l, ?wraps_mul_r, ?wraps_add_l, ?wraps_add_r by done; f_equal; ring
        | by (intros a b c; rewrite <- Z.land_assoc, (Z.land_comm b c))
        | by (intros a b c; rewrite Z.land_lor_distr_l, (Z.land_comm b c)) ].

Lemma mul_int_node_ideal in1 in2 :
  exists o, MulNode_Ideal MulI_class in1 in2 = Some o /\
            computes (evali r) (s32 (evali r in1 * evali r in2)) o.
Proof.
  apply (mul_node_ideal MulI_class (evali r) VInt (fun a b => s32 (a * b)) (fun a b => s32 (a + b))); class_laws.
Qed.

Lemma mul_long_node_ideal in1 in2 :
  exists o, MulNode_Ideal MulL_class in1 in2 = Some o /\
            computes (evall r) (s64 (evall r in1 * evall r in2)) o.
Proof.
  apply (mul_node_ideal MulL_class (evall r) VLong (fun a b => s64 (a * b)) (fun a b => s64 (a + b))); class_laws.
Qed.

Lemma and_int_node_ideal in1 in2 :
  exists o, MulNode_Ideal AndI_class in1 in2 = Some o /\
            computes (evali r) (evali r in1 &&& evali r in2) o.
Proof. apply (mul_node_ideal AndI_class (evali r) VInt Z.land Z.lor); class_laws. Qed.

Lemma and_long_node_ideal in1 in2 :
  exists o, MulNode_Ideal AndL_class in1 in2 = Some o /\
            computes (evall r) (evall r in1 &&& evall r in2) o.
Proof. apply (mul_node_ideal AndL_class (evall r) VLong Z.land Z.lor); class_laws. Qed.

(** A node that is not dead has a value of its type. *)
Lemma live_int n : typei n <> Top -> is_s 32 (evali r n).
Proof.
  destruct (typei_facts n) as (Hwf & Hb & [|Ht]); [done|]. destruct (typei n); try done. cbn in Ht.
  destruct Hwf as (Hlo & Hhi & _). unfold is_s in *. lia.
Qed.

Lemma live_long n : typel n <> Top -> is_s 64 (evall r n).
Proof.
  destruct (typel_facts n) as (Hwf & Hb & [|Ht]); [done|]. destruct (typel n); try done. cbn in Ht.
  destruct Hwf as (Hlo & Hhi & _). unfold is_s in *. lia.
Qed.

Lemma mul_int_identity in1 in2 :
  typei in1 <> Top -> typei in2 <> Top ->
  exists o, MulNode_Identity MulI_class in1 in2 = Some o /\
            replaces (evali r) (s32 (evali r in1 * evali r in2)) o.
Proof.
  apply (mul_node_identity MulI_class (evali r) VInt (fun a b => s32 (a * b)) (fun a b => s32 (a + b)))
    with (u := 1); try class_laws.
  - intros x Hx. cbn in Hx. lia.
  - intros n Hn. cbn in Hn |- *. rewrite Z.mul_1_l. apply wraps_id; [done|by apply live_int].
Qed.

Lemma mul_long_identity in1 in2 :
  typel in1 <> Top -> typel in2 <> Top ->
  exists o, MulNode_Identity MulL_class in1 in2 = Some o /\
            replaces (evall r) (s64 (evall r in1 * evall r in2)) o.
Proof.
  apply (mul_node_identity MulL_class (evall r) VLong (fun a b => s64 (a * b)) (fun a b => s64 (a + b)))
    with (u := 1); try class_laws.
  - intros x Hx. cbn in Hx. lia.
  - intros n Hn. cbn in Hn |- *. rewrite Z.mul_1_l. apply wraps_id; [done|by apply live_long].
Qed.

Lemma and_int_node_identity in1 in2 :
  typei in1 <> Top -> typei in2 <> Top ->
  exists o, MulNode_Identity AndI_class in1 in2 = Some o /\
            replaces (evali r) (evali r in1 &&& evali r in2) o.
Proof.
  apply (mul_node_identity AndI_class (evali r) VInt Z.land Z.lor) with (u := -1); try class_laws.
  - intros x Hx. cbn in Hx. lia.
  - intros n _. apply Z.land_m1_l.
Qed.

Lemma and_long_node_identity in1 in2 :
  typel in1 <> Top -> typel in2 <> Top ->
  exists o, MulNode_Identity AndL_class in1 in2 = Some o /\
            replaces (evall r) (evall r in1 &&& evall r in2) o.
Proof.
  apply (mul_node_identity AndL_class (evall r) VLong Z.land Z.lor) with (u := -1); try class_laws.
  - intros x Hx. cbn in Hx. lia.
  - intros n _. apply Z.land_m1_l.
Qed.

(** ** Multiplications *)

Lemma mul_int_shifts in1 con n :
  0 < con < 2 ^ (32 - 1) \/ con = - 2 ^ (32 - 1) -> MulI_shifts in1 con = Some n ->
  evali r n = s32 (evali r in1 * con).
Proof.
  intros Hc. destruct (first_bit 32 ltac:(by left) con Hc) as [H1 H2]. unfold MulI_shifts. cbv zeta.
  set (bit1 := con &&& s32 (- con)) in *. cbv zeta in H2.
  set (bit2 := s32 (con - bit1) &&& s32 (- s32 (con - bit1))) in *.
  destruct (Z.eqb_spec bit1 con) as [E|Hne].
  { intros [= <-]. ev. rewrite (shift_by_bit 32 (or_introl eq_refl)) by done. by rewrite E. }
  specialize (H2 Hne). destruct (Z.eqb_spec (s32 (bit2 + bit1)) con) as [E|_].
  { intros [= <-]. ev. rewrite !(shift_by_bit 32 (or_introl eq_refl)) by done.
    apply two_shifts; [by left|done]. }
  destruct (is_power_of_2 _) eqn:Ep; [|done]. intros [= <-]. ev.
  rewrite (shift_by_bit 32 (or_introl eq_refl))
    by (apply power_is_bit; [by left|by apply wraps_range|done]).
  apply shift_less_one. by left.
Qed.

Lemma mul_long_shifts in1 con n :
  0 < con < 2 ^ (64 - 1) \/ con = - 2 ^ (64 - 1) -> MulL_shifts in1 con = Some n ->
  evall r n = s64 (evall r in1 * con).
Proof.
  intros Hc. destruct (first_bit 64 ltac:(by right) con Hc) as [H1 H2]. unfold MulL_shifts. cbv zeta.
  set (bit1 := con &&& s64 (- con)) in *. cbv zeta in H2.
  set (bit2 := s64 (con - bit1) &&& s64 (- s64 (con - bit1))) in *.
  destruct (Z.eqb_spec bit1 con) as [E|Hne].
  { intros [= <-]. ev. rewrite log2_long_eq, (shift_by_bit 64 (or_intror eq_refl)) by done. by rewrite E. }
  specialize (H2 Hne). destruct (Z.eqb_spec (s64 (bit2 + bit1)) con) as [E|_].
  { intros [= <-]. ev. rewrite !log2_long_eq, !(shift_by_bit 64 (or_intror eq_refl)) by done.
    apply two_shifts; [by right|done]. }
  destruct (is_power_of_2_long _) eqn:Ep; [|done]. intros [= <-]. ev. rewrite log2_long_eq.
  rewrite (shift_by_bit 64 (or_intror eq_refl))
    by (apply power_is_bit; [by right|by apply wraps_range|done]).
  apply shift_less_one. by right.
Qed.

Lemma mul_int_ideal in1 in2 :
  java_int in1 -> java_int in2 ->
  exists o, MulI_Ideal in1 in2 = Some o /\ computes (evali r) (s32 (evali r in1 * evali r in2)) o.
Proof.
  intros J1 J2. unfold MulI_Ideal.
  assert (Htail : forall a b c, (c <> 0 -> is_s 32 c /\ evali r b = c) ->
    evali r a * evali r b = evali r in1 * evali r in2 -> exists o,
    (if c =? 0 then MulNode_Ideal MulI_class a b
     else if c =? 1 then Some NoChange
     else match MulI_shifts a (if c <? 0 then s32 (- c) else c) with
          | None => MulNode_Ideal MulI_class a b
          | Some res => Some (New (if c <? 0 then SubI (intcon 0) (transformi res) else res))
          end) = Some o /\ computes (evali r) (s32 (evali r in1 * evali r in2)) o).
  { intros a b c Hc <-. destruct (Z.eqb_spec c 0); [apply mul_int_node_ideal|]. destruct (Hc n) as [Hs E].
    destruct (Z.eqb_spec c 1); [eexists; split; [done|by intros ?]|].
    destruct (MulI_shifts _ _) as [res|] eqn:Er; [|apply mul_int_node_ideal].
    apply mul_int_shifts in Er; [|by apply (abs_constant 32 (or_introl eq_refl))].
    eexists. split; [done|]. intros m [= <-]. rewrite E. destruct (c <? 0); ev; rewrite Er; [|done].
    apply negated_product. by left. }
  destruct (Z.eqb_spec (find_int_con in1 0) 0); cbn [negb]; apply Htail; try lia; intros; by apply find_int_con_ok.
Qed.

Lemma mul_long_ideal in1 in2 :
  java_long in1 -> java_long in2 ->
  exists o, MulL_Ideal in1 in2 = Some o /\ computes (evall r) (s64 (evall r in1 * evall r in2)) o.
Proof.
  intros J1 J2. unfold MulL_Ideal.
  assert (Htail : forall a b c, (c <> 0 -> is_s 64 c /\ evall r b = c) ->
    evall r a * evall r b = evall r in1 * evall r in2 -> exists o,
    (if c =? 0 then MulNode_Ideal MulL_class a b
     else if c =? 1 then Some NoChange
     else match MulL_shifts a (if c <? 0 then s64 (- c) else c) with
          | None => MulNode_Ideal MulL_class a b
          | Some res => Some (New (if c <? 0 then SubL (longcon 0) (transforml res) else res))
          end) = Some o /\ computes (evall r) (s64 (evall r in1 * evall r in2)) o).
  { intros a b c Hc <-. destruct (Z.eqb_spec c 0); [apply mul_long_node_ideal|]. destruct (Hc n) as [Hs E].
    destruct (Z.eqb_spec c 1); [eexists; split; [done|by intros ?]|].
    destruct (MulL_shifts _ _) as [res|] eqn:Er; [|apply mul_long_node_ideal].
    apply mul_long_shifts in Er; [|by apply (abs_constant 64 (or_intror eq_refl))].
    eexists. split; [done|]. intros m [= <-]. rewrite E. destruct (c <? 0); ev; rewrite Er; [|done].
    apply negated_product. by right. }
  destruct (Z.eqb_spec (find_long_con in1 0) 0); cbn [negb]; apply Htail; try lia; intros; by apply find_long_con_ok.
Qed.

(** ** Masks *)

(** Where the C++ code of the masks shifts by a constant count of the node under the
    mask: [AndINode::Identity] and [AndLNode::Identity] by the count of an unsigned
    shift as it is, [AndLNode::Ideal] by 64 minus the count of a signed one. *)
Definition and_int_identity_defined (in1 : inode) : Prop :=
  forall x count c, in1 = URShiftI x count -> int_con count = Some c -> 0 <= c < 32.
Definition and_long_identity_defined (in1 : lnode) : Prop :=
  forall x count c, in1 = URShiftL x count -> int_con count = Some c -> 0 <= c < 64.
Definition and_long_ideal_defined (in1 : lnode) : Prop :=
  forall x count c, in1 = RShiftL x count -> int_con count = Some c -> c &&& 63 <> 0.

Lemma char_range c : 0 <= u16 c < 2 ^ 16.
Proof. by apply wrapu_range. Qed.

Lemma and_int_identity in1 in2 :
  typei in1 <> Top -> typei in2 <> Top -> and_int_identity_defined in1 ->
  exists o, AndI_Identity in1 in2 = Some o /\ replaces (evali r) (evali r in1 &&& evali r in2) o.
Proof.
  intros L1 L2 Hd. unfold AndI_Identity.
  assert (Hin1 : evali r in1 &&& evali r in2 = evali r in1 -> exists o, Some (Some in1) = Some o /\
    replaces (evali r) (evali r in1 &&& evali r in2) o) by (intros E; eexists; split; [done|by intros n [= <-]]).
  destruct (samei in1 in2) eqn:Es.
  { apply Hin1. by rewrite (samei_ok _ _ Es), Z.land_diag. }
  pose proof (and_int_node_identity in1 in2 L1 L2) as Hbase. set (base := MulNode_Identity _ _ _) in *. cbv zeta.
  destruct (int_con in2) as [con|] eqn:Ec; [|done]. apply int_con_ok in Ec as [Hcr Ec]. rewrite Ec in *.
  set (useless := match typei in1 with Int _ _ _ => _ | _ => _ end).
  assert (Hu : useless = true -> evali r in1 &&& con = evali r in1).
  { unfold useless. destruct (typei in1) as [| |lo hi w| | | | | | | | | | | |] eqn:Et; try done.
    intros [Hlo%Z.geb_le Hs%Z.eqb_eq]%andb_true_iff. pose proof (range_int in1 lo hi w Et).
    destruct (typei_ok in1) as [Hwf _]. rewrite Et in Hwf. destruct Hwf as (_ & Hhi & _).
    apply (support_mask 32 hi); [by left|done|lia|done]. }
  clearbody useless. destruct useless; [auto|]. destruct in1 as [| | |ctl m| | | | | | | | |x count| |]; try done.
  - destruct (Z.eqb_spec con 0xFFFF) as [->|]; [|done]. apply Hin1. apply (land_small _ 16); [done|apply char_range].
  - destruct (int_con count) as [c|] eqn:Ecc; [|done]. specialize (Hd x count c eq_refl Ecc).
    apply int_con_ok in Ecc as [_ Ecc]. unfold defined_count.
    replace ((0 <=? c) && (c <? 32)) with true by lia.
    destruct (Z.eqb_spec (s32 (max_juint ≫ c) &&& con) (s32 (max_juint ≫ c))) as [E|]; [|done].
    apply Hin1. cbn [evali]. rewrite Ecc, land_31 by done. by apply (ushr_mask 32).
Qed.

Lemma and_long_identity in1 in2 :
  typel in1 <> Top -> typel in2 <> Top -> and_long_identity_defined in1 ->
  exists o, AndL_Identity in1 in2 = Some o /\ replaces (evall r) (evall r in1 &&& evall r in2) o.
Proof.
  intros L1 L2 Hd. unfold AndL_Identity.
  assert (Hin1 : evall r in1 &&& evall r in2 = evall r in1 -> exists o, Some (Some in1) = Some o /\
    replaces (evall r) (evall r in1 &&& evall r in2) o) by (intros E; eexists; split; [done|by intros n [= <-]]).
  destruct (samel in1 in2) eqn:Es.
  { apply Hin1. by rewrite (samel_ok _ _ Es), Z.land_diag. }
  pose proof (and_long_node_identity in1 in2 L1 L2) as Hbase. set (base := MulNode_Identity _ _ _) in *. cbv zeta.
  destruct (long_con in2) as [con|] eqn:Ec; [|done]. apply long_con_ok in Ec as [Hcr Ec]. rewrite Ec in *.
  set (useless := match typel in1 with Long _ _ _ => _ | _ => _ end).
  assert (Hu : useless = true -> evall r in1 &&& con = evall r in1).
  { unfold useless. destruct (typel in1) as [| | |lo hi w| | | | | | | | | | |] eqn:Et; try done.
    intros [Hlo%Z.geb_le Hs%Z.eqb_eq]%andb_true_iff. pose proof (range_long in1 lo hi w Et).
    destruct (typel_ok in1) as [Hwf _]. rewrite Et in Hwf. destruct Hwf as (_ & Hhi & _).
    apply (support_mask 64 hi); [by right|done|lia|done]. }
  clearbody useless. destruct useless; [auto|]. destruct in1 as [| | | | | | | | | |x count| |]; try done.
  destruct (int_con count) as [c|] eqn:Ecc; [|done]. specialize (Hd x count c eq_refl Ecc).
  apply int_con_ok in Ecc as [_ Ecc]. unfold defined_count.
  replace ((0 <=? c) && (c <? 64)) with true by lia.
  destruct (Z.eqb_spec (s64 (max_julong ≫ c) &&& con) (s64 (max_julong ≫ c))) as [E|]; [|done].
  apply Hin1. cbn [evall]. rewrite Ecc, land_63 by done. by apply (ushr_mask 64).
Qed.

(** A node that [Ideal] builds instead of the mask. *)
Lemma new_computes {N} (value : N -> Z) x n :
  value n = x -> exists o, Some (New n) = Some o /\ computes value x o.
Proof. intros E. eexists. split; [done|by intros m [= <-]]. Qed.

Lemma and_int_ideal in0 in1 in2 :
  java_int in1 ->
  exists o, AndI_Ideal in0 in1 in2 = Some o /\ computes (evali r) (evali r in1 &&& evali r in2) o.
Proof.
  intros J1. unfold AndI_Ideal. pose proof (and_int_node_ideal in1 in2) as Hbase.
  set (base := MulNode_Ideal _ _ _) in *. clearbody base. cbv zeta.
  destruct (int_con in2) as [mask|] eqn:Ec; [|done]. apply int_con_ok in Ec as [Hm Ec]. rewrite Ec in *.
  destruct in1 as [| |ctl m|ctl m|ctl m| |a b| | | | |x count| | |]; try done.
  - destruct (_ && _); [|done]. eexists. split; [done|by intros ?].
  - destruct (negb _); [|done]. apply new_computes. ev.
    rewrite (Z.land_comm mask), Z.land_assoc. f_equal. apply (land_small _ 16); [done|apply char_range].
  - destruct (Z.eqb_spec (u32 mask &&& 0xFFFF0000) 0); [|done]. apply new_computes. ev. by apply short_mask.
  - destruct (Z.eqb_spec mask 1) as [->|]; [|done]. destruct (bool_decide _) eqn:Ez; [|done].
    apply bool_decide_eq_true in Ez. apply (type_con_int a 0) in Ez. apply new_computes. ev. rewrite Ec, Ez.
    by rewrite negate_bit_0.
  - destruct J1 as [Jx _]. destruct (int_con count) as [con|] eqn:Ecc; [|done]. apply int_con_ok in Ecc as [_ Ecc].
    pose proof (count_31 con) as Hk. change (BitsPerJavaInteger - 1) with 31. change (32 - 1) with 31 in Hk.
    change BitsPerJavaInteger with 32. rewrite right_n_bits_ones by lia.
    destruct (Z.eqb_spec (s32 (Z.lnot (2 ^ (32 - (con &&& 31)) - 1)) &&& mask) 0) as [E|]; [|done].
    apply new_computes. ev. rewrite Ec, Ecc. symmetry. apply (masked_shr_ushr 32); try done. by apply int_range.
Qed.

Lemma and_long_ideal in1 in2 :
  java_long in1 -> and_long_ideal_defined in1 ->
  exists o, AndL_Ideal in1 in2 = Some o /\ computes (evall r) (evall r in1 &&& evall r in2) o.
Proof.
  intros J1 Hd. unfold AndL_Ideal. pose proof (and_long_node_ideal in1 in2) as Hbase.
  set (base := MulNode_Ideal _ _ _) in *. clearbody base. cbv zeta.
  destruct (long_con in2) as [mask|] eqn:Ec; [|done]. apply long_con_ok in Ec as [Hm Ec]. rewrite Ec in *.
  destruct in1 as [| | | | | | | | |x count| | |]; try done.
  destruct J1 as [Jx _]. destruct (int_con count) as [con|] eqn:Ecc; [|done]. specialize (Hd x count con eq_refl Ecc).
  apply int_con_ok in Ecc as [_ Ecc]. pose proof (count_63 con) as Hk. change (64 - 1) with 63 in Hk.
  change (BitsPerJavaInteger * 2 - 1) with 63. change (BitsPerJavaInteger * 2) with 64.
  unfold defined_count. replace ((0 <=? _) && _) with true by lia. rewrite wrapped_mask by lia.
  destruct (Z.eqb_spec (Z.lnot (2 ^ (64 - (con &&& 63)) - 1) &&& mask) 0) as [E|]; [|done].
  apply new_computes. ev. rewrite Ec, Ecc. symmetry. apply (masked_shr_ushr 64); try done; [by apply long_range|].
  rewrite wraps_id; [done|done|]. replace (Z.lnot _) with (- 2 ^ (64 - (con &&& 63))) by (unfold Z.lnot; lia).
  apply neg_pow_range. lia.
Qed.

(** ** Shifts *)

Lemma computes_new {N} (value : N -> Z) x n : value n = x -> computes value x (New n).
Proof. by intros E m [= <-]. Qed.

Lemma computes_same {N} (value : N -> Z) x : computes value x NoChange.
Proof. by intros ?. Qed.

Lemma replaces_same {N} (value : N -> Z) x : replaces value x None.
Proof. by intros ?. Qed.

Hint Resolve computes_same replaces_same : core.

(** A shift by a multiple of the width. *)
Lemma shift_by_zero_int in1 in2 o :
  (o = match int_con in2 with Some con => if (con &&& (32 - 1)) =? 0 then Some in1 else None | None => None end) ->
  java_int in1 ->
  replaces (evali r) (s32 (evali r in1 ≪ (evali r in2 &&& 31))) o /\
  replaces (evali r) (evali r in1 ≫ (evali r in2 &&& 31)) o /\
  replaces (evali r) (s32 (u32 (evali r in1) ≫ (evali r in2 &&& 31))) o.
Proof.
  intros -> J1. apply int_range in J1. destruct (int_con in2) as [c|] eqn:Ec; [|by auto].
  apply int_con_ok in Ec as [_ ->]. destruct (Z.eqb_spec (c &&& (32 - 1)) 0) as [E|]; [|by auto].
  change (32 - 1) with 31 in E. rewrite E, Z.shiftl_0_r, !Z.shiftr_0_r, wraps_wrapu, wraps_id by done.
  split_and!; by intros n [= <-].
Qed.

Lemma shift_by_zero_long in1 in2 o :
  (o = match int_con in2 with Some con => if (con &&& (64 - 1)) =? 0 then Some in1 else None | None => None end) ->
  java_long in1 ->
  replaces (evall r) (s64 (evall r in1 ≪ (evali r in2 &&& 63))) o /\
  replaces (evall r) (evall r in1 ≫ (evali r in2 &&& 63)) o /\
  replaces (evall r) (s64 (u64 (evall r in1) ≫ (evali r in2 &&& 63))) o.
Proof.
  intros -> J1. apply long_range in J1. destruct (int_con in2) as [c|] eqn:Ec; [|by auto].
  apply int_con_ok in Ec as [_ ->]. destruct (Z.eqb_spec (c &&& (64 - 1)) 0) as [E|]; [|by auto].
  change (64 - 1) with 63 in E. rewrite E, Z.shiftl_0_r, !Z.shiftr_0_r, wraps_wrapu, wraps_id by done.
  split_and!; by intros n [= <-].
Qed.

Lemma lshift_int_ideal in1 in2 :
  java_int in1 ->
  computes (evali r) (s32 (evali r in1 ≪ (evali r in2 &&& 31))) (LShiftI_Ideal in1 in2).
Proof.
  intros J1. unfold LShiftI_Ideal. destruct (int_con in2) as [c2|] eqn:Ec; [|by auto].
  apply int_con_ok in Ec as [_ Ec]. pose proof (count_31 c2) as Hk. cbv zeta.
  set (con := c2 &&& (32 - 1)) in *. assert (Hcon : evali r in2 &&& 31 = con) by by rewrite Ec. rewrite Hcon.
  destruct (Z.eqb_spec con 0); [by auto|]. change BitsPerJavaInteger with 32. rewrite int_mask, wrapped_neg_mask by lia.
  destruct in1 as [| | | | |x c| | |add2 y| | |x count|x count| |]; try by auto.
  - destruct (int_con c) as [con1|] eqn:E1; [|by auto]. apply int_con_ok in E1 as [_ E1].
    destruct (con <? 16); [|by auto]. apply computes_new. ev. rewrite Hcon, E1. symmetry. by apply shl_of_sum.
  - destruct J1 as [Jadd _]. set (high := if decide _ then _ else _).
    assert (Hhigh : computes (evali r) (s32 (evali r (AndI add2 y) ≪ con)) high).
    { unfold high. destruct (decide _) as [Et|]; [|by auto]. apply type_con_int in Et. apply computes_new. ev.
      rewrite Hcon, Et. symmetry. apply shl_high_mask; lia. }
    clearbody high. destruct add2 as [| | | | | | | | | | |x count|x count| |]; try done;
      (destruct (samei count in2) eqn:Es; [|done]); apply samei_ok in Es as ->; apply computes_new; ev; rewrite Hcon;
      destruct Jadd as [Jx%int_range _]; symmetry.
    + by apply shl_masked_shr.
    + by apply shl_masked_ushr.
  - destruct (samei count in2) eqn:Es; [|by auto]. apply samei_ok in Es as ->. apply computes_new. ev. rewrite Hcon.
    destruct J1 as [Jx%int_range _]. symmetry. by apply shl_of_shr.
  - destruct (samei count in2) eqn:Es; [|by auto]. apply samei_ok in Es as ->. apply computes_new. ev. rewrite Hcon.
    destruct J1 as [Jx%int_range _]. symmetry. by apply shl_of_ushr.
Qed.

Lemma lshift_long_ideal in1 in2 :
  java_long in1 ->
  computes (evall r) (s64 (evall r in1 ≪ (evali r in2 &&& 63))) (LShiftL_Ideal in1 in2).
Proof.
  intros J1. unfold LShiftL_Ideal. destruct (int_con in2) as [c2|] eqn:Ec; [|by auto].
  apply int_con_ok in Ec as [_ Ec]. pose proof (count_63 c2) as Hk. cbv zeta.
  set (con := c2 &&& (64 - 1)) in *. assert (Hcon : evali r in2 &&& 63 = con) by by rewrite Ec. rewrite Hcon.
  destruct (Z.eqb_spec con 0); [by auto|]. change (BitsPerJavaInteger * 2) with 64.
  rewrite wrapped_mask, wrapped_neg_mask by lia.
  destruct in1 as [| |x c| | | |add2 y| | |x count|x count| |]; try by auto.
  - destruct (long_con c) as [con1|] eqn:E1; [|by auto]. apply long_con_ok in E1 as [_ E1].
    apply computes_new. ev. rewrite Hcon, E1. symmetry. by apply shl_of_sum.
  - destruct J1 as [Jadd _]. set (high := if decide _ then _ else _).
    assert (Hhigh : computes (evall r) (s64 (evall r (AndL add2 y) ≪ con)) high).
    { unfold high. destruct (decide _) as [Et|]; [|by auto]. apply type_con_long in Et. apply computes_new. ev.
      rewrite Hcon, Et. symmetry. apply shl_high_mask; lia. }
    clearbody high. destruct add2 as [| | | | | | | | |x count|x count| |]; try done;
      (destruct (samei count in2) eqn:Es; [|done]); apply samei_ok in Es as ->; apply computes_new; ev; rewrite Hcon;
      destruct Jadd as [Jx%long_range _]; symmetry.
    + by apply shl_masked_shr.
    + by apply shl_masked_ushr.
  - destruct (samei count in2) eqn:Es; [|by auto]. apply samei_ok in Es as ->. apply computes_new. ev. rewrite Hcon.
    destruct J1 as [Jx%long_range _]. symmetry. by apply shl_of_shr.
  - destruct (samei count in2) eqn:Es; [|by auto]. apply samei_ok in Es as ->. apply computes_new. ev. rewrite Hcon.
    destruct J1 as [Jx%long_range _]. symmetry. by apply shl_of_ushr.
Qed.

Lemma rshift_int_identity in1 in2 :
  java_int in1 -> replaces (evali r) (evali r in1 ≫ (evali r in2 &&& 31)) (RShiftI_Identity in1 in2).
Proof.
  intros J1. unfold RShiftI_Identity. destruct (typei in2) as [| |lo2 hi2 w| | | | | | | | | | | |] eqn:Et; try by auto.
  destruct (TypeInt.is_con lo2 hi2) eqn:Ec; cbn [andb].
  2:{ destruct in1; try by auto. rewrite andb_false_r. by auto. }
  destruct (con_int in2 lo2 hi2 w Et Ec) as [_ E2]. pose proof (count_31 lo2) as Hk.
  rewrite E2. change (32 - 1) with 31 in *. change (BitsPerJavaInteger - 1) with 31. set (con := lo2 &&& 31) in *.
  destruct (Z.eqb_spec con 0) as [->|]; [intros n [= <-]; by rewrite Z.shiftr_0_r|].
  destruct in1 as [| | | | | | | | | |x count| | | |]; try by auto.
  destruct (samei count in2) eqn:Es; cbn [andb]; [|by auto]. apply samei_ok in Es as ->. cbv zeta.
  change BitsPerJavaInteger with 32. rewrite shl_minus_one by lia.
  destruct (typei x) as [| |xlo xhi xw| | | | | | | | | | | |] eqn:Ex; try by auto.
  destruct (_ && _) eqn:Eb; [|by auto]. intros m [= <-]. cbn [evali]. rewrite E2. symmetry. apply shr_of_shl; [done|].
  apply range_int in Ex. rewrite andb_true_iff, !Z.leb_le in Eb. unfold Z.lnot in Eb. lia.
Qed.

Lemma rshift_int_ideal in1 in2 :
  java_int in1 -> computes (evali r) (evali r in1 ≫ (evali r in2 &&& 31)) (RShiftI_Ideal in1 in2).
Proof.
  intros J1. unfold RShiftI_Ideal. destruct (typei in1); try by auto. clear lo hi widen.
  destruct (int_con in2) as [c2|] eqn:Ec; [|by auto]. apply int_con_ok in Ec as [_ Ec]. pose proof (count_31 c2) as Hk.
  cbv zeta. change (BitsPerJavaInteger - 1) with (32 - 1).
  set (con := c2 &&& (32 - 1)) in *. assert (Hcon : evali r in2 &&& 31 = con) by by rewrite Ec. rewrite Hcon.
  destruct (Z.eqb_spec con 0); [by auto|]. destruct in1 as [| | | | | | | |x m| |ld count| | | |]; try by auto.
  { destruct (int_con m) as [maskbits|] eqn:Em; [|by auto]. apply int_con_ok in Em as [_ Em].
    apply computes_new. ev. by rewrite Hcon, Em, Z.shiftr_land. }
  assert (Hcount : forall k, (con =? k) && bool_decide (int_con count = Some k) = true -> con = k /\ evali r count = k).
  { intros k [E%Z.eqb_eq Ei%bool_decide_eq_true]%andb_true_iff. by apply int_con_ok in Ei as [_ ?]. }
  destruct ld as [| |ctl m|ctl m|ctl m| | | | | | | | | |]; try (by auto);
    destruct (_ && _) eqn:E; try (by auto); apply Hcount in E as [-> E]; apply computes_new; ev; rewrite E; symmetry.
  - etransitivity; [by apply (sign_extend 8)|]. by apply wraps_id; [|apply wraps_range].
  - etransitivity; [by apply (sign_extend 16)|]. apply wraps_ext. unfold wrapu. by rewrite Z.mod_mod.
  - etransitivity; [by apply (sign_extend 16)|]. by apply wraps_id; [|apply wraps_range].
Qed.

Lemma urshift_int_identity in1 in2 :
  java_int in1 -> typei in2 <> Top ->
  exists o, URShiftI_Identity in1 in2 = Some o /\
            replaces (evali r) (s32 (u32 (evali r in1) ≫ (evali r in2 &&& 31))) o.
Proof.
  intros J1 L2. unfold URShiftI_Identity.
  assert (Hzero : evali r in2 &&& 31 = 0 -> replaces (evali r) (s32 (u32 (evali r in1) ≫ (evali r in2 &&& 31))) (Some in1)).
  { intros E n [= <-]. rewrite E, Z.shiftr_0_r, wraps_wrapu, wraps_id by (done || by apply int_range). done. }
  set (by_zero := match int_con in2 with Some _ => _ | None => _ end).
  assert (Hby : by_zero = true -> evali r in2 &&& 31 = 0).
  { unfold by_zero. destruct (int_con in2) as [c|] eqn:Ec; [|done]. apply int_con_ok in Ec as [_ ->]. apply Z.eqb_eq. }
  clearbody by_zero. cbv zeta. destruct by_zero; [eexists; split; [done|by apply Hzero, Hby]|]. clear Hby.
  set (rest := mbind _ _). assert (Hrest : exists o, rest = Some o /\
    replaces (evali r) (s32 (u32 (evali r in1) ≫ (evali r in2 &&& 31))) o).
  { unfold rest. destruct (typei_facts in2) as (W2 & _ & [|T2]); [done|].
    destruct (higher_equal_sound (typei in2) TypeInt.ZERO (VInt (evali r in2)) W2) as (b & -> & Hb); [done|].
    cbn [mbind option_bind]. eexists. split; [done|]. destruct b; [|by auto]. apply Hzero.
    specialize (Hb eq_refl T2). cbn in Hb. by replace (evali r in2) with 0 by lia. }
  clearbody rest. clear Hzero. destruct in1 as [| | | | |add c| | | | | | | | |]; try done.
  destruct add as [| | | | | | | | | |x count| | | |]; try done. destruct (_ && _) eqn:Eb; [|done].
  rewrite !andb_true_iff, !bool_decide_eq_true in Eb. destruct Eb as [[Ec Ecount] Et].
  destruct (typei x) as [| |xlo xhi w| | | | | | | | | | | |] eqn:Ex; try done.
  destruct ((0 <=? xlo) && (xhi <=? max_jint ≫ 3)) eqn:Eb; [|done]. apply range_int in Ex.
  eexists. split; [done|]. intros n [= <-]. clear Hrest.
  assert (evali r in2 = 3) as ->.
  { symmetry in Et. unfold int_con in Ecount. rewrite <- Et in Ecount. by apply (int_con_ok in2). }
  apply int_con_ok in Ec as [_ Ec], Ecount as [_ Ecount]. cbn [evali]. rewrite Ec, Ecount.
  change (3 &&& 31) with 3. change (max_jint ≫ 3) with 268435455 in Eb.
  rewrite Z.shiftl_mul_pow2, Z.shiftr_div_pow2 by done. change (2 ^ 3) with 8.
  rewrite (wraps_id 32 (_ * 8)), (wraps_id 32 (_ + _)), wrapu_id by (try done; unfold is_s, is_u; lia).
  replace ((evali r x * 8 + (8 - 1)) / 8) with (evali r x) by (Z.div_mod_to_equations; lia).
  by rewrite wraps_id by (try done; unfold is_s; lia).
Qed.

Lemma urshift_int_ideal in1 in2 :
  java_int in1 -> computes (evali r) (s32 (u32 (evali r in1) ≫ (evali r in2 &&& 31))) (URShiftI_Ideal in1 in2).
Proof.
  intros J1. unfold URShiftI_Ideal. destruct (int_con in2) as [c2|] eqn:Ec; [|by auto]. cbv zeta.
  pose proof (fun n E => same_type_con n in2 c2 E Ec) as Hsame.
  apply int_con_ok in Ec as [_ Ec]. pose proof (count_31 c2) as Hk. change (32 - 1) with 31 in Hk.
  set (con := c2 &&& 31) in *. assert (Hcon : evali r in2 &&& 31 = con) by by rewrite Ec. rewrite Hcon.
  destruct (Z.eqb_spec con 0); [by auto|]. change BitsPerJavaInteger with 32. rewrite int_mask by lia.
  destruct in1 as [| | | | |add y| | |x m| |x count| |x count| |]; try by auto.
  - destruct add as [| | | | | | | | | |x count| | | |]; try by auto. destruct (decide _) as [Et|]; [|by auto].
    apply Hsame in Et. apply computes_new. ev. rewrite Et, Hcon. symmetry. apply shifted_sum; lia.
  - destruct (int_con m) as [mask2|] eqn:Em; [|by auto]. apply int_con_ok in Em as [Hm Em].
    apply computes_new. ev. rewrite Em, Hcon. symmetry. by apply ushr_of_mask.
  - destruct (decide _) as [Et|]; [|by auto]. apply Hsame in Et. apply computes_new. ev. rewrite Et, Hcon.
    destruct J1 as [Jx%int_range _]. symmetry. apply ushr_of_shl; [lia|done|lia].
  - destruct (int_con count) as [c12|] eqn:Ec1; [|by auto]. apply int_con_ok in Ec1 as [_ Ec1].
    pose proof (count_31 c12) as Hk1. change (32 - 1) with 31 in Hk1. destruct (Z.ltb_spec (con + (c12 &&& 31)) 32); [|by auto].
    apply computes_new. ev. rewrite Ec1, land_31 by lia. rewrite ushr_ushr by lia. do 2 f_equal. lia.
Qed.

Lemma urshift_long_ideal in1 in2 :
  java_long in1 -> computes (evall r) (s64 (u64 (evall r in1) ≫ (evali r in2 &&& 63))) (URShiftL_Ideal in1 in2).
Proof.
  intros J1. unfold URShiftL_Ideal. destruct (int_con in2) as [c2|] eqn:Ec; [|by auto]. cbv zeta.
  pose proof (fun n E => same_type_con n in2 c2 E Ec) as Hsame.
  apply int_con_ok in Ec as [_ Ec]. pose proof (count_63 c2) as Hk. change (64 - 1) with 63 in *.
  set (con := c2 &&& 63) in *. assert (Hcon : evali r in2 &&& 63 = con) by by rewrite Ec. rewrite Hcon.
  destruct (Z.eqb_spec con 0); [by auto|]. change (BitsPerJavaInteger * 2) with 64. rewrite wrapped_mask by lia.
  destruct in1 as [| |add y| | | |x m| |x count| | | |]; try by auto.
  - destruct add as [| | | | | | | |x count| | | |]; try by auto. destruct (decide _) as [Et|]; [|by auto].
    apply Hsame in Et. apply computes_new. ev. rewrite Et, Hcon. symmetry. apply shifted_sum; lia.
  - destruct (long_con m) as [mask2|] eqn:Em; [|by auto]. apply long_con_ok in Em as [Hm Em].
    apply computes_new. ev. rewrite Em, Hcon. symmetry. by apply ushr_of_mask.
  - destruct (decide _) as [Et|]; [|by auto]. apply Hsame in Et. apply computes_new. ev. rewrite Et, Hcon.
    destruct J1 as [Jx%long_range _]. symmetry. apply ushr_of_shl; [lia|done|lia].
Qed.
End proofs.

(** * Properties *)

(** C21: multiplications are rewritten into equal nodes.  [Ideal] of [MulINode] and
    [MulLNode] returns on every pair of inputs; what it gives has the value of the Java
    product, which wraps around: shifts, sums and differences of shifts for constants
    of one or two bits and one less than a power of two, negated for negative
    constants, the most negative one included, and products and sums whose constants
    are folded.  [Identity] of a live node gives an input only if that is the product. *)
Theorem multiply_ideal_correct (phase : PhaseGVN) (r : env) (laws : PhaseLaws phase r)
    (Hr : java_env r) (a b : inode) (x y : lnode)
    (Ha : java_int a) (Hb : java_int b) (Hx : java_long x) (Hy : java_long y) :
  (exists o, MulI_Ideal a b = Some o /\ computes (evali r) (evali r (MulI a b)) o) /\
  (exists o, MulL_Ideal x y = Some o /\ computes (evall r) (evall r (MulL x y)) o) /\
  (typei a <> Top -> typei b <> Top ->
   exists o, MulNode_Identity MulI_class a b = Some o /\ replaces (evali r) (evali r (MulI a b)) o) /\
  (typel x <> Top -> typel y <> Top ->
   exists o, MulNode_Identity MulL_class x y = Some o /\ replaces (evall r) (evall r (MulL x y)) o).
Proof.
  split_and!; intros; [by apply mul_int_ideal|by apply mul_long_ideal| |].
  - by apply mul_int_identity.
  - by apply mul_long_identity.
Qed.

(** C22: masks and shifts are rewritten into equal nodes.  [Ideal] of [AndINode],
    [AndLNode] and the shifts of ints and longs gives a node with the value of the Java
    operation, whatever the constants in the masks and counts; [Identity] gives an input
    only if that is the value.  [AndINode::Ideal] and the functions of the shifts return
    whatever the counts.  The others shift in C++ by the constant count of a shift under the
    mask, and return where that C++ shift is defined: [Identity] of a mask over an
    unsigned shift for counts from 0 below the width, [AndLNode::Ideal] over a signed
    shift for counts that are not a multiple of 64.  [Identity] of the masks and of
    [URShiftINode] is for live inputs, those whose type is not top. *)
Theorem mask_shift_ideal_correct (phase : PhaseGVN) (r : env) (laws : PhaseLaws phase r)
    (Hr : java_env r) (in0 : bool) (a b : inode) (x y : lnode)
    (Ha : java_int a) (Hx : java_long x) :
  (exists o, AndI_Ideal in0 a b = Some o /\ computes (evali r) (evali r (AndI a b)) o) /\
  (and_long_ideal_defined x ->
   exists o, AndL_Ideal x y = Some o /\ computes (evall r) (evall r (AndL x y)) o) /\
  (typei a <> Top -> typei b <> Top -> and_int_identity_defined a ->
   exists o, AndI_Identity a b = Some o /\ replaces (evali r) (evali r (AndI a b)) o) /\
  (typel x <> Top -> typel y <> Top -> and_long_identity_defined x ->
   exists o, AndL_Identity x y = Some o /\ replaces (evall r) (evall r (AndL x y)) o) /\
  computes (evali r) (evali r (LShiftI a b)) (LShiftI_Ideal a b) /\
  computes (evall r) (evall r (LShiftL x b)) (LShiftL_Ideal x b) /\
  computes (evali r) (evali r (RShiftI a b)) (RShiftI_Ideal a b) /\
  computes (evali r) (evali r (URShiftI a b)) (URShiftI_Ideal a b) /\
  computes (evall r) (evall r (URShiftL x b)) (URShiftL_Ideal x b) /\
  replaces (evali r) (evali r (LShiftI a b)) (LShiftI_Identity a b) /\
  replaces (evall r) (evall r (LShiftL x b)) (LShiftL_Identity x b) /\
  replaces (evali r) (evali r (RShiftI a b)) (RShiftI_Identity a b) /\
  replaces (evall r) (evall r (RShiftL x b)) (RShiftL_Identity x b) /\
  (typei b <> Top ->
   exists o, URShiftI_Identity a b = Some o /\ replaces (evali r) (evali r (URShiftI a b)) o) /\
  replaces (evall r) (evall r (URShiftL x b)) (URShiftL_Identity x b).
Proof.
  destruct (shift_by_zero_int Hr a b _ eq_refl Ha) as (Hshl & _ & _).
  destruct (shift_by_zero_long Hr x b _ eq_refl Hx) as (Hlshl & Hlshr & Hlushr).
  split_and!; intros; try done; [by apply and_int_ideal|by apply and_long_ideal|by apply and_int_identity
    |by apply and_long_identity|by apply lshift_int_ideal|by apply lshift_long_ideal|by apply rshift_int_ideal
    |by apply urshift_int_ideal|by apply urshift_long_ideal|by apply rshift_int_identity|by apply urshift_int_identity].
Qed.

(** ** Witnesses *)

(** 5 times 10 as two shifts, and 7 times the most negative long as a negated shift. *)
Definition mul_env : env := mkEnv (fun _ => 5) (fun _ => 7) (fun _ => 0xFFF0).

Lemma multiply_ideal_correct_witness :
  @MulI_Ideal (sample_phase mul_env) (VarI 0) (ConI 10) =
    Some (New (AddI (LShiftI (VarI 0) (ConI 3)) (LShiftI (VarI 0) (ConI 1)))) /\
  evali mul_env (AddI (LShiftI (VarI 0) (ConI 3)) (LShiftI (VarI 0) (ConI 1))) = 50 /\
  exists o, @MulL_Ideal (sample_phase mul_env) (VarL 0) (ConL min_jlong) = Some (New o) /\
    evall mul_env o = min_jlong.
Proof.
  destruct (multiply_ideal_correct (sample_phase mul_env) mul_env (sample_laws _) ltac:(by split)
    (VarI 0) (ConI 10) (VarL 0) (ConL min_jlong)) as ((o & Ho & Hn) & (o' & Ho' & Hn') & _); [done..|].
  vm_compute in Ho, Ho'. split_and!; [by lazy| |].
  - apply Hn. by injection Ho as <-.
  - eexists. split; [lazy; reflexivity|]. apply Hn'. by injection Ho' as <-.
Defined.

(** The mask of a char loses the bits that the char does not have. *)
Lemma mask_shift_ideal_correct_witness :
  @AndI_Ideal (sample_phase mul_env) false (LoadC false 0) (ConI (-256)) =
    Some (New (AndI (LoadC false 0) (ConI 0xFF00))) /\
  evali mul_env (AndI (LoadC false 0) (ConI 0xFF00)) = 0xFF00.
Proof.
  destruct (mask_shift_ideal_correct (sample_phase mul_env) mul_env (sample_laws _) ltac:(by split)
    false (LoadC false 0) (ConI (-256)) (VarL 0) (ConL 1)) as ((o & Ho & Hn) & _); [done..|].
  vm_compute in Ho. split; [by lazy|]. apply Hn. by injection Ho as <-.
Defined.
