(* ===== verification/IdealAdd.v ===== *)
(** * Additions and subtractions in the optimizing compiler

    Model of [Ideal] and [Identity] of the int and long additions and subtractions of
    opto/addnode.cpp and opto/subnode.cpp: constants are folded and moved to the right,
    sums of sums are flattened, and differences that cancel are dropped.  The
    disjunctions of ints and longs share the code of the base class [AddNode].

    The code looks at the graph around a node: at loops, at the number of its uses, and
    through [Opaque2] nodes.  What it finds is an interface here, which decides which
    rewriting is chosen and of which the values do not depend. *)

From S2P Require Import Prelude GlobalDefinitions WordBits IdealType IdealNode IdealDiv IdealArith IdealMul.

Open Scope Z_scope.

(** ** The graph around a node *)

Class Graph := {
  (** the phi of a loop whose next value is the node that is rewritten *)
  loop_phii : inode -> bool;
  loop_phil : lnode -> bool;
  (** the increment of a counted loop, with the phi as its left input *)
  loop_increment_i : inode -> bool;
  loop_increment_l : lnode -> bool;
  is_loop_ivi : inode -> bool;
  is_loop_ivl : lnode -> bool;
  outcnti : inode -> Z;
  outcntl : lnode -> Z;
  (** the input of an [Opaque2] node *)
  Opaque2_in : inode -> option inode
}.

(** What the rewriting relies on: an [Opaque2] node has the value of its input, a
    constant has its type, and a sum with the type of a constant has been replaced by
    the constant. *)
Class GraphLaws (phase : PhaseGVN) (graph : Graph) (r : env) : Prop := {
  Opaque2_ok n x : Opaque2_in n = Some x -> evali r n = evali r x;
  con_type_int c : is_s 32 c -> typei (ConI c) = TypeInt.make_con c;
  sum_int_folded a b : singleton (typei (AddI a b)) = true -> typei (AddI a b) = Top;
  sum_long_folded a b : singleton (typel (AddL a b)) = true -> typel (AddL a b) = Top;
  or_int_folded a b : singleton (typei (OrI a b)) = true -> typei (OrI a b) = Top;
  or_long_folded a b : singleton (typel (OrL a b)) = true -> typel (OrL a b) = Top
}.

(** The first rewriting that applies. *)
Fixpoint first_some {A : Type} (l : list (option A)) : option A :=
  match l with [] => None | Some x :: _ => Some x | None :: l => first_some l end.

(** ** [AddNode] *)

Module AddNode.
(** What the base class asks of a subclass and of the phase; [this_of] gives the inputs
    of a node with the opcode of the class. *)
Record class (N : Type) := {
  type_of : N -> IType;
  transform : N -> N;
  is_Load : N -> bool;
  loop_phi : N -> bool;
  idx : N -> Z;
  this_of : N -> option (N * N);
  mk : N -> N -> N;
  makecon : IType -> option N;
  add_id : IType;
  add_ring : IType -> IType -> option IType
}.
Arguments type_of {N}.
Arguments transform {N}.
Arguments is_Load {N}.
Arguments loop_phi {N}.
Arguments idx {N}.
Arguments this_of {N}.
Arguments mk {N}.
Arguments makecon {N}.
Arguments add_id {N}.
Arguments add_ring {N}.

Definition Identity {N} (C : class N) (in1 in2 : N) : option (option N) :=
  b ← higher_equal (type_of C in1) (add_id C);
  if (b : bool) then Some (Some in2) else
  b ← higher_equal (type_of C in2) (add_id C);
  if (b : bool) then Some (Some in1) else Some None.

(** Whether the inputs are to be swapped. *)
Definition commute {N} (C : class N) (in1 in2 : N) (con_left con_right : bool) : bool :=
  if con_right then false
  else if con_left then true
  else if is_Load C in2 && negb (is_Load C in1) then false
  else if negb (is_Load C in2) && is_Load C in1 then true
  else if loop_phi C in1 then false
  else if loop_phi C in2 then true
  else idx C in1 >? idx C in2.

(** A constant that is not top. *)
Abbreviation constant t := (singleton t && negb (bool_decide (t = Top))).

(** [add2] is the former right input after the first step. *)
Definition Ideal {N} (C : class N) (in1 in2 : N) : option (outcome N) :=
  let t2 := type_of C in2 in
  let con_left := singleton (type_of C in1) in
  let con_right := singleton t2 in
  if commute C in1 in2 con_left con_right then Some (New (mk C in2 in1)) else
  let add2 := in2 in
  '(in1, in2, progress) ←
    match this_of C in1 with
    | Some (x1, c) =>
        if con_right && negb (bool_decide (t2 = Top)) && constant (type_of C c) then
          t ← add_ring C t2 (type_of C c); x2 ← makecon C t; Some (x1, x2, true)
        else Some (in1, in2, false)
    | None => Some (in1, in2, false)
    end;
  let '(in1, in2, add2, progress) :=
    match this_of C in1 with
    | Some (x, a12) =>
        if negb con_right && constant (type_of C a12) then
          (transform C (mk C x in2), a12, a12, true)
        else (in1, in2, add2, progress)
    | None => (in1, in2, add2, progress)
    end in
  let '(in1, in2, progress) :=
    match this_of C add2 with
    | Some (x, a22) =>
        if negb con_left && constant (type_of C a22) then (transform C (mk C in1 x), a22, true)
        else (in1, in2, progress)
    | None => (in1, in2, progress)
    end in
  Some (if (progress : bool) then New (mk C in1 in2) else NoChange).
End AddNode.

Section add_nodes.
Context {phase : PhaseGVN} {graph : Graph}.

Definition AddI_class : AddNode.class inode := {|
  AddNode.type_of := typei; AddNode.transform := transformi; AddNode.is_Load := is_Loadi;
  AddNode.loop_phi := loop_phii; AddNode.idx := idxi;
  AddNode.this_of n := match n with AddI a b => Some (a, b) | _ => None end;
  AddNode.mk := AddI; AddNode.makecon := makeconi;
  AddNode.add_id := TypeInt.ZERO; AddNode.add_ring := AddI_add_ring |}.

Definition AddL_class : AddNode.class lnode := {|
  AddNode.type_of := typel; AddNode.transform := transforml; AddNode.is_Load := is_Loadl;
  AddNode.loop_phi := loop_phil; AddNode.idx := idxl;
  AddNode.this_of n := match n with AddL a b => Some (a, b) | _ => None end;
  AddNode.mk := AddL; AddNode.makecon := makeconl;
  AddNode.add_id := TypeLong.ZERO; AddNode.add_ring := AddL_add_ring |}.

Definition OrI_class : AddNode.class inode := {|
  AddNode.type_of := typei; AddNode.transform := transformi; AddNode.is_Load := is_Loadi;
  AddNode.loop_phi := loop_phii; AddNode.idx := idxi;
  AddNode.this_of n := match n with OrI a b => Some (a, b) | _ => None end;
  AddNode.mk := OrI; AddNode.makecon := makeconi;
  AddNode.add_id := TypeInt.ZERO; AddNode.add_ring := OrI_add_ring |}.

Definition OrL_class : AddNode.class lnode := {|
  AddNode.type_of := typel; AddNode.transform := transforml; AddNode.is_Load := is_Loadl;
  AddNode.loop_phi := loop_phil; AddNode.idx := idxl;
  AddNode.this_of n := match n with OrL a b => Some (a, b) | _ => None end;
  AddNode.mk := OrL; AddNode.makecon := makeconl;
  AddNode.add_id := TypeLong.ZERO; AddNode.add_ring := OrL_add_ring |}.

(** [x | x] is [x]; the same code for ints and longs. *)
Definition Or_Identity {N} (same : N -> N -> bool) (C : AddNode.class N) (in1 in2 : N) : option (option N) :=
  if same in1 in2 then Some (Some in1) else AddNode.Identity C in1 in2.

(** ** [AddINode] and [AddLNode] *)

(** The rewritings are tried in order; [None] is a pattern that does not match. *)
Definition AddI_Ideal (in1 in2 : inode) : option (outcome inode) :=
  let base := AddNode.Ideal AddI_class in1 in2 in
  folded ←
    match in1 with
    | SubI a b =>
        let t_sub1 := typei a in
        let t_2 := typei in2 in
        if singleton t_sub1 && singleton t_2 && negb (bool_decide (t_sub1 = Top)) && negb (bool_decide (t_2 = Top))
        then t ← AddI_add_ring t_sub1 t_2; con ← makeconi t; Some (Some (SubI con b))
        else Some None
    | _ => Some None
    end;
  let patterns := [
    folded;
    match in1, in2 with
    | SubI a b, SubI c d => Some (SubI (transformi (AddI a c)) (transformi (AddI b d)))
    | _, _ => None
    end;
    match in2 with SubI z y => if decide (typei z = TypeInt.ZERO) then Some (SubI in1 y) else None | _ => None end;
    match in1 with SubI z y => if decide (typei z = TypeInt.ZERO) then Some (SubI in2 y) else None | _ => None end] in
  match first_some patterns with
  | Some n => Some (New n)
  | None =>
      match in1, in2 with
      | URShiftI x (ConI _ as count), ConI _ =>
          z ← int_con count;
          y ← int_con in2;
          let z := z &&& 0x1f in
          if (z <? 5) && (-5 <? y) && (y <? 0) then
            match typei x with
            | Top => base
            | Int lo _ _ =>
                if lo >=? s32 (- s32 (y ≪ z)) then
                  let a := transformi (AddI x (intcon (s32 (y ≪ z)))) in
                  Some (New (URShiftI a count))
                else base
            | _ => None
            end
          else base
      | _, _ => base
      end
  end.

Definition AddI_Identity (in1 in2 : inode) : option (option inode) :=
  let right :=
    match in2 with
    | SubI x y => if samei y in1 then Some (Some x) else AddNode.Identity AddI_class in1 in2
    | _ => AddNode.Identity AddI_class in1 in2
    end in
  match in1 with
  | SubI x y => if samei y in2 then Some (Some x) else right
  | _ => right
  end.

(** The rewriting of [x + (x + y)] is switched off in the code. *)
Definition AddL_Ideal (in1 in2 : lnode) : option (outcome lnode) :=
  let base := AddNode.Ideal AddL_class in1 in2 in
  folded ←
    match in1 with
    | SubL a b =>
        let t_sub1 := typel a in
        let t_2 := typel in2 in
        if singleton t_sub1 && singleton t_2 && negb (bool_decide (t_sub1 = Top)) && negb (bool_decide (t_2 = Top))
        then t ← AddL_add_ring t_sub1 t_2; con ← makeconl t; Some (Some (SubL con b))
        else Some None
    | _ => Some None
    end;
  let patterns := [
    folded;
    match in1, in2 with
    | SubL a b, SubL c d => Some (SubL (transforml (AddL a c)) (transforml (AddL b d)))
    | _, _ => None
    end;
    match in2 with SubL z y => if decide (typel z = TypeLong.ZERO) then Some (SubL in1 y) else None | _ => None end] in
  match first_some patterns with
  | Some n => Some (New n)
  | None => base
  end.

Definition AddL_Identity (in1 in2 : lnode) : option (option lnode) :=
  let right :=
    match in2 with
    | SubL x y => if samel y in1 then Some (Some x) else AddNode.Identity AddL_class in1 in2
    | _ => AddNode.Identity AddL_class in1 in2
    end in
  match in1 with
  | SubL x y => if samel y in2 then Some (Some x) else right
  | _ => right
  end.

(** ** [SubNode] *)

(** [sub_of] gives the inputs of a node with the opcode of the class, [addi_of] those of
    an [AddINode], which a long node is not. *)
Definition SubNode_Identity {N} (type_of : N -> IType) (zero : IType) (same : N -> N -> bool)
    (sub_of addi_of : N -> option (N * N)) (opaque2 : N -> option N) (in1 in2 : N) : option (option N) :=
  z1 ← higher_equal (type_of in1) zero;
  double_negation ←
    (if (z1 : bool) then
       match sub_of in2 with
       | Some (x, y) => z ← higher_equal (type_of x) zero; Some (if (z : bool) then Some y else None)
       | None => Some None
       end
     else Some None);
  match double_negation with
  | Some y => Some (Some y)
  | None =>
      let rest := z ← higher_equal (type_of in2) zero; Some (if (z : bool) then Some in1 else None) in
      match addi_of in1 with
      | Some (x, y) =>
          if same y in2 then Some (Some x)
          else if same x in2 then Some (Some y)
          else match opaque2 y with
               | Some y' => if same y' in2 then Some (Some x) else rest
               | None => rest
               end
      | None => rest
      end
  end.

Definition SubI_Identity : inode -> inode -> option (option inode) :=
  let sub_of n := match n with SubI a b => Some (a, b) | _ => None end in
  let addi_of n := match n with AddI a b => Some (a, b) | _ => None end in
  SubNode_Identity typei TypeInt.ZERO samei sub_of addi_of Opaque2_in.

Definition SubL_Identity : lnode -> lnode -> option (option lnode) :=
  let sub_of n := match n with SubL a b => Some (a, b) | _ => None end in
  SubNode_Identity typel TypeLong.ZERO samel sub_of (fun _ => None) (fun _ => None).

Definition ok_to_convert {N} (loop_increment is_loop_iv : N -> bool) (inc iv : N) : bool :=
  negb (loop_increment inc) && negb (is_loop_iv iv).

Definition SubI_Ideal (in1 in2 : inode) : outcome inode :=
  let t1 := typei in1 in
  if decide (typei in2 = Top) then NoChange else
  let constants := [
    (c ← int_con in2; Some (AddI in1 (intcon (s32 (- c)))));
    match in1 with
    | AddI x c =>
        if ok_to_convert loop_increment_i is_loop_ivi in1 in2 && AddNode.constant (typei c)
        then Some (AddI (transformi (SubI x in2)) c) else None
    | _ => None
    end;
    match in2 with
    | AddI in21 in22 =>
        if ok_to_convert loop_increment_i is_loop_ivi in2 in1
        then (c ← int_con in22; Some (AddI (transformi (SubI in1 in21)) (intcon (s32 (- c))))) else None
    | _ => None
    end] in
  let patterns := [
    match in2 with AddI x y => if samei in1 x then Some (SubI (intcon 0) y) else None | _ => None end;
    match in1 with SubI x y => if samei x in2 then Some (SubI (intcon 0) y) else None | _ => None end;
    match in2 with AddI y x => if samei in1 x then Some (SubI (intcon 0) y) else None | _ => None end;
    match in2 with SubI x y => if decide (t1 = TypeInt.ZERO) then Some (SubI y x) else None | _ => None end;
    match in2 with
    | AddI x c =>
        if decide (t1 = TypeInt.ZERO) then
          let con := find_int_con c 0 in
          if negb (con =? 0) then Some (SubI (intcon (s32 (- con))) x) else None
        else None
    | _ => None
    end;
    match in1, in2 with AddI x a, AddI x' b => if samei x x' then Some (SubI a b) else None | _, _ => None end;
    match in1, in2 with AddI a x, AddI b x' => if samei x x' then Some (SubI a b) else None | _, _ => None end;
    match in2 with
    | SubI b c => if outcnti in2 =? 1 then Some (SubI (transformi (AddI in1 c)) b) else None
    | _ => None
    end] in
  match first_some constants with
  | Some n => New n
  | None =>
      if decide (t1 = Top) then NoChange else
      match first_some patterns with Some n => New n | None => NoChange end
  end.

Definition SubL_Ideal (in1 in2 : lnode) : outcome lnode :=
  let t1 := typel in1 in
  if decide (typel in2 = Top) then NoChange else
  let constants := [
    (c ← long_con in2; Some (AddL in1 (longcon (s64 (- c)))));
    match in1 with
    | AddL x c =>
        if ok_to_convert loop_increment_l is_loop_ivl in1 in2 && AddNode.constant (typel c)
        then Some (AddL (transforml (SubL x in2)) c) else None
    | _ => None
    end;
    match in2 with
    | AddL in21 in22 =>
        if ok_to_convert loop_increment_l is_loop_ivl in2 in1
        then (c ← long_con in22; Some (AddL (transforml (SubL in1 in21)) (longcon (s64 (- c))))) else None
    | _ => None
    end] in
  let patterns := [
    match in2 with AddL x y => if samel in1 x then Some (SubL (longcon 0) y) else None | _ => None end;
    match in2 with AddL y x => if samel in1 x then Some (SubL (longcon 0) y) else None | _ => None end;
    match in2 with SubL x y => if decide (t1 = TypeLong.ZERO) then Some (SubL y x) else None | _ => None end;
    match in1, in2 with AddL x a, AddL x' b => if samel x x' then Some (SubL a b) else None | _, _ => None end;
    match in1, in2 with AddL a x, AddL b x' => if samel x x' then Some (SubL a b) else None | _, _ => None end;
    match in2 with
    | SubL b c => if outcntl in2 =? 1 then Some (SubL (transforml (AddL in1 c)) b) else None
    | _ => None
    end] in
  match first_some constants with
  | Some n => New n
  | None =>
      if decide (t1 = Top) then NoChange else
      match first_some patterns with Some n => New n | None => NoChange end
  end.
End add_nodes.

(** * Correctness *)

(** ** The base class *)

Section add_node_proofs.
Context {N : Type} (C : AddNode.class N) (ev : N -> Z) (val : Z -> value) (op : Z -> Z -> Z).
Hypothesis Htype : forall n, wf (AddNode.type_of C n) /\ AddNode.type_of C n <> Bottom /\
  (AddNode.type_of C n = Top \/ has_type (val (ev n)) (AddNode.type_of C n)).
Hypothesis Htrans : forall n, ev (AddNode.transform C n) = ev n.
Hypothesis Hmk : forall a b, ev (AddNode.mk C a b) = op (ev a) (ev b).
Hypothesis Hthis : forall n a b, AddNode.this_of C n = Some (a, b) -> n = AddNode.mk C a b.
Hypothesis Hfolded : forall a b, singleton (AddNode.type_of C (AddNode.mk C a b)) = true ->
  AddNode.type_of C (AddNode.mk C a b) = Top.
Hypothesis Hsum : forall t1 t2 a b, wf t1 -> wf t2 -> has_type (val a) t1 -> has_type (val b) t2 ->
  singleton t1 = true -> singleton t2 = true -> exists t n,
  AddNode.add_ring C t1 t2 = Some t /\ AddNode.makecon C t = Some n /\ ev n = op a b.
Hypothesis Hcomm : forall a b, op a b = op b a.
Hypothesis Hassoc : forall a b c, op (op a b) c = op a (op b c).
Set Default Proof Using "Type*".

(** The sum of two constants. *)
Lemma constant_sum n m :
  AddNode.constant (AddNode.type_of C n) = true -> AddNode.constant (AddNode.type_of C m) = true ->
  exists t c, AddNode.add_ring C (AddNode.type_of C n) (AddNode.type_of C m) = Some t /\
    AddNode.makecon C t = Some c /\ ev c = op (ev n) (ev m).
Proof.
  intros [Sn Tn%negb_true_iff%bool_decide_eq_false]%andb_true_iff
         [Sm Tm%negb_true_iff%bool_decide_eq_false]%andb_true_iff.
  destruct (Htype n) as (Wn & _ & [|Hn]); [done|]. destruct (Htype m) as (Wm & _ & [|Hm]); [done|].
  by apply Hsum.
Qed.

Lemma add_node_ideal in1 in2 :
  exists o, AddNode.Ideal C in1 in2 = Some o /\ computes ev (op (ev in1) (ev in2)) o.
Proof.
  unfold AddNode.Ideal. destruct (AddNode.commute _ _ _ _ _).
  { apply new_computes. by rewrite Hmk, Hcomm. }
  set (first := match AddNode.this_of C in1 with Some _ => _ | None => _ end).
  assert (Hfirst : exists i1 i2 p, first = Some (i1, i2, p) /\ op (ev i1) (ev i2) = op (ev in1) (ev in2) /\
    (i2 = in2 \/ singleton (AddNode.type_of C in2) = true /\ AddNode.type_of C in2 <> Top)).
  { unfold first. destruct (AddNode.this_of C in1) as [[x1 c]|] eqn:E; [|by eauto 10]. apply Hthis in E as ->.
    destruct (_ && _) eqn:Ec; [|by eauto 10]. rewrite <- andb_assoc, andb_assoc in Ec.
    apply andb_true_iff in Ec as [E2 Ec]. destruct (constant_sum in2 c E2 Ec) as (t & n & -> & Hn & Hv).
    cbn [mbind option_bind]. rewrite Hn. cbn [mbind option_bind]. eexists _, _, _. split; [done|].
    rewrite Hv, Hmk, Hassoc, (Hcomm (ev c)). split; [done|]. right. apply andb_true_iff in E2 as [-> E2].
    by apply negb_true_iff, bool_decide_eq_false in E2. }
  clearbody first. destruct Hfirst as (i1 & i2 & p & -> & <- & Hi2). cbn [mbind option_bind].
  set (second := match AddNode.this_of C i1 with Some _ => _ | None => _ end).
  assert (Hsecond : exists j1 j2 a q, second = (j1, j2, a, q) /\ op (ev j1) (ev j2) = op (ev i1) (ev i2) /\
    forall x y, AddNode.this_of C a = Some (x, y) -> j2 = AddNode.mk C x y).
  { assert (Hsame : exists j1 j2 a q, (i1, i2, in2, p) = (j1, j2, a, q) /\ op (ev j1) (ev j2) = op (ev i1) (ev i2) /\
      forall x y, AddNode.this_of C a = Some (x, y) -> j2 = AddNode.mk C x y).
    { eexists _, _, _, _. split_and!; [done|done|]. intros x y E%Hthis. destruct Hi2 as [->|[Hs Ht]]; [done|].
      subst in2. by apply Hfolded in Hs. }
    unfold second. destruct (AddNode.this_of C i1) as [[x a12]|] eqn:E; [|done]. apply Hthis in E as ->.
    destruct (_ && _) eqn:Ec; [|done]. eexists _, _, _, _. split_and!; [done| |intros; by apply Hthis].
    by rewrite Htrans, !Hmk, !Hassoc, (Hcomm (ev i2)). }
  clearbody second. destruct Hsecond as (j1 & j2 & a & q & -> & <- & Hj2).
  assert (Hsame : exists o, Some (if q then New (AddNode.mk C j1 j2) else NoChange) = Some o /\
    computes ev (op (ev j1) (ev j2)) o).
  { eexists. split; [done|]. destruct q; [by apply computes_new|by apply computes_same]. }
  destruct (AddNode.this_of C a) as [[x a22]|]; [|done]. destruct (_ && _); [|done].
  apply new_computes. specialize (Hj2 x a22 eq_refl) as ->. by rewrite !Hmk, Htrans, Hmk, Hassoc.
Qed.

Lemma add_node_identity in1 in2 u :
  wf (AddNode.add_id C) -> (forall x, has_type (val x) (AddNode.add_id C) -> x = u) ->
  (forall n, AddNode.type_of C n <> Top -> op u (ev n) = ev n) ->
  AddNode.type_of C in1 <> Top -> AddNode.type_of C in2 <> Top ->
  exists o, AddNode.Identity C in1 in2 = Some o /\ replaces ev (op (ev in1) (ev in2)) o.
Proof.
  intros Hw Hu Hop N1 N2. unfold AddNode.Identity.
  destruct (Htype in1) as (W1 & _ & [|T1]); [done|]. destruct (Htype in2) as (W2 & _ & [|T2]); [done|].
  destruct (higher_equal_sound _ _ (val (ev in1)) W1 Hw) as (b1 & -> & H1). cbn [mbind option_bind].
  destruct b1.
  { eexists. split; [done|]. intros n [= <-]. by rewrite (Hu _ (H1 eq_refl T1)), Hop by done. }
  destruct (higher_equal_sound _ _ (val (ev in2)) W2 Hw) as (b2 & -> & H2). cbn [mbind option_bind].
  destruct b2; (eexists; split; [done|]); intros n [= <-]. by rewrite Hcomm, (Hu _ (H2 eq_refl T2)), Hop by done.
Qed.
End add_node_proofs.

(** ** The subclasses *)

Create Rewrite HintDb wrap.
#[export] Hint Rewrite wraps_add_l wraps_add_r wraps_sub_l wraps_sub_r using lia : wrap.

(** Two sums and differences that wrap around. *)
Ltac wrap_ring := autorewrite with wrap; f_equal; ring.

Lemma singleton_int t x : wf t -> singleton t = true -> has_type (VInt x) t -> exists w, t = Int x x w.
Proof.
  destruct t; try done. cbn. intros _ E%Z.geb_le Hx. exists widen. f_equal; lia.
Qed.

Lemma singleton_long t x : wf t -> singleton t = true -> has_type (VLong x) t -> exists w, t = Long x x w.
Proof.
  destruct t; try done. cbn. intros _ E%Z.geb_le Hx. exists widen. f_equal; lia.
Qed.

(** The rings map constants to the constants of their results. *)
Definition folds_int (op : Z -> Z -> Z) (ring : IType -> IType -> option IType) : Prop :=
  forall a b w1 w2, ring (Int a a w1) (Int b b w2) = Some (TypeInt.make_con (op a b)).
Definition folds_long (op : Z -> Z -> Z) (ring : IType -> IType -> option IType) : Prop :=
  forall a b w1 w2, ring (Long a a w1) (Long b b w2) = Some (TypeLong.make_con (op a b)).

Lemma add_int_folds : folds_int (fun a b => s32 (a + b)) AddI_add_ring.
Proof.
  intros a b w1 w2. unfold AddI_add_ring, TypeInt.is_con. rewrite !Z.eqb_refl. cbn [andb negb]. by rewrite make_int_con.
Qed.

Lemma add_long_folds : folds_long (fun a b => s64 (a + b)) AddL_add_ring.
Proof.
  intros a b w1 w2. unfold AddL_add_ring, TypeLong.is_con. rewrite !Z.eqb_refl. cbn [andb negb]. by rewrite make_long_con.
Qed.

Lemma or_int_folds : folds_int Z.lor OrI_add_ring.
Proof.
  intros a b w1 w2. unfold OrI_add_ring, TypeInt.is_con. rewrite !Z.eqb_refl. cbn [andb orb negb].
  rewrite decide_False by (intros [= -> ?]; lia). destruct (decide _); [|done].
  by rewrite decide_False by (intros [= -> ?]; lia).
Qed.

Lemma or_long_folds : folds_long Z.lor OrL_add_ring.
Proof. intros a b w1 w2. unfold OrL_add_ring, TypeLong.is_con. by rewrite !Z.eqb_refl. Qed.

Lemma int_sum op ring ev t1 t2 a b :
  folds_int op ring -> (forall c, ev (ConI c) = c) ->
  wf t1 -> wf t2 -> has_type (VInt a) t1 -> has_type (VInt b) t2 ->
  singleton t1 = true -> singleton t2 = true -> exists t n,
  ring t1 t2 = Some t /\ makeconi t = Some n /\ ev n = op a b.
Proof.
  intros Hf Hev W1 W2 H1 H2 S1 S2. destruct (singleton_int t1 a W1 S1 H1) as [w1 ->].
  destruct (singleton_int t2 b W2 S2 H2) as [w2 ->]. eexists _, _. split; [apply Hf|].
  cbn. unfold TypeInt.is_con. by rewrite Z.eqb_refl.
Qed.

Lemma long_sum op ring ev t1 t2 a b :
  folds_long op ring -> (forall c, ev (ConL c) = c) ->
  wf t1 -> wf t2 -> has_type (VLong a) t1 -> has_type (VLong b) t2 ->
  singleton t1 = true -> singleton t2 = true -> exists t n,
  ring t1 t2 = Some t /\ makeconl t = Some n /\ ev n = op a b.
Proof.
  intros Hf Hev W1 W2 H1 H2 S1 S2. destruct (singleton_long t1 a W1 S1 H1) as [w1 ->].
  destruct (singleton_long t2 b W2 S2 H2) as [w2 ->]. eexists _, _. split; [apply Hf|].
  cbn. unfold TypeLong.is_con. by rewrite Z.eqb_refl.
Qed.

Section proofs.
Context {phase : PhaseGVN} {graph : Graph} {r : env} {laws : PhaseLaws phase r}
  {glaws : GraphLaws phase graph r}.
Hypothesis Henv : java_env r.
Set Default Proof Using "Type*".

(** The laws of the base class, for each of its subclasses. *)
Ltac add_laws :=
  cbn [AddNode.type_of AddNode.transform AddNode.this_of AddNode.mk AddNode.makecon AddNode.add_id AddNode.add_ring
       AddI_class AddL_class OrI_class OrL_class];
  first [ by apply typei_facts | by apply typel_facts | apply transformi_ok | apply transforml_ok
        | by (intros [] ??; try done; by intros [= -> ->])
        | apply sum_int_folded | apply sum_long_folded | apply or_int_folded | apply or_long_folded
        | by (intros; apply (int_sum _ _ (evali r) _ _ _ _ add_int_folds))
        | by (intros; apply (int_sum _ _ (evali r) _ _ _ _ or_int_folds))
        | by (intros; apply (long_sum _ _ (evall r) _ _ _ _ add_long_folds))
        | by (intros; apply (long_sum _ _ (evall r) _ _ _ _ or_long_folds))
        | apply Z.lor_comm | done | by (intros; wrap_ring) | intros; by rewrite Z.lor_assoc ].

Lemma add_int_node_ideal in1 in2 :
  exists o, AddNode.Ideal AddI_class in1 in2 = Some o /\ computes (evali r) (s32 (evali r in1 + evali r in2)) o.
Proof. apply (add_node_ideal AddI_class (evali r) VInt (fun a b => s32 (a + b))); add_laws. Qed.

Lemma add_long_node_ideal in1 in2 :
  exists o, AddNode.Ideal AddL_class in1 in2 = Some o /\ computes (evall r) (s64 (evall r in1 + evall r in2)) o.
Proof. apply (add_node_ideal AddL_class (evall r) VLong (fun a b => s64 (a + b))); add_laws. Qed.

Lemma or_int_ideal in1 in2 :
  exists o, AddNode.Ideal OrI_class in1 in2 = Some o /\ computes (evali r) (evali r in1 ||| evali r in2) o.
Proof. apply (add_node_ideal OrI_class (evali r) VInt Z.lor); add_laws. Qed.

Lemma or_long_ideal in1 in2 :
  exists o, AddNode.Ideal OrL_class in1 in2 = Some o /\ computes (evall r) (evall r in1 ||| evall r in2) o.
Proof. apply (add_node_ideal OrL_class (evall r) VLong Z.lor); add_laws. Qed.

Lemma add_int_node_identity in1 in2 :
  typei in1 <> Top -> typei in2 <> Top ->
  exists o, AddNode.Identity AddI_class in1 in2 = Some o /\ replaces (evali r) (s32 (evali r in1 + evali r in2)) o.
Proof.
  apply (add_node_identity AddI_class (evali r) VInt (fun a b => s32 (a + b))) with (u := 0); try add_laws.
  - intros x Hx. cbn in Hx. lia.
  - intros n Hn. apply wraps_id; [done|by apply (live_int Henv)].
Qed.

Lemma add_long_node_identity in1 in2 :
  typel in1 <> Top -> typel in2 <> Top ->
  exists o, AddNode.Identity AddL_class in1 in2 = Some o /\ replaces (evall r) (s64 (evall r in1 + evall r in2)) o.
Proof.
  apply (add_node_identity AddL_class (evall r) VLong (fun a b => s64 (a + b))) with (u := 0); try add_laws.
  - intros x Hx. cbn in Hx. lia.
  - intros n Hn. apply wraps_id; [done|by apply (live_long Henv)].
Qed.

Lemma or_int_identity in1 in2 :
  typei in1 <> Top -> typei in2 <> Top ->
  exists o, Or_Identity samei OrI_class in1 in2 = Some o /\ replaces (evali r) (evali r in1 ||| evali r in2) o.
Proof.
  intros L1 L2. unfold Or_Identity. destruct (samei in1 in2) eqn:Es.
  { eexists. split; [done|]. intros n [= <-]. by rewrite (samei_ok _ _ Es), Z.lor_diag. }
  revert L1 L2. apply (add_node_identity OrI_class (evali r) VInt Z.lor) with (u := 0); try add_laws.
  intros x Hx. cbn in Hx. lia.
Qed.

Lemma or_long_identity in1 in2 :
  typel in1 <> Top -> typel in2 <> Top ->
  exists o, Or_Identity samel OrL_class in1 in2 = Some o /\ replaces (evall r) (evall r in1 ||| evall r in2) o.
Proof.
  intros L1 L2. unfold Or_Identity. destruct (samel in1 in2) eqn:Es.
  { eexists. split; [done|]. intros n [= <-]. by rewrite (samel_ok _ _ Es), Z.lor_diag. }
  revert L1 L2. apply (add_node_identity OrL_class (evall r) VLong Z.lor) with (u := 0); try add_laws.
  intros x Hx. cbn in Hx. lia.
Qed.

(** ** Additions *)

(** The sum of the constants [a] and [b], as a node. *)
Lemma con_sum_int a b :
  singleton (typei a) && singleton (typei b) && negb (bool_decide (typei a = Top)) &&
    negb (bool_decide (typei b = Top)) = true ->
  exists t n, AddI_add_ring (typei a) (typei b) = Some t /\ makeconi t = Some n /\
    evali r n = s32 (evali r a + evali r b).
Proof.
  rewrite !andb_true_iff, !negb_true_iff, !bool_decide_eq_false. intros [[[Sa Sb] Ta] Tb].
  destruct (typei_facts Henv a) as (Wa & _ & [|Ha]); [done|]. destruct (typei_facts Henv b) as (Wb & _ & [|Hb]); [done|].
  by apply (int_sum _ _ (evali r) _ _ _ _ add_int_folds).
Qed.

Lemma con_sum_long a b :
  singleton (typel a) && singleton (typel b) && negb (bool_decide (typel a = Top)) &&
    negb (bool_decide (typel b = Top)) = true ->
  exists t n, AddL_add_ring (typel a) (typel b) = Some t /\ makeconl t = Some n /\
    evall r n = s64 (evall r a + evall r b).
Proof.
  rewrite !andb_true_iff, !negb_true_iff, !bool_decide_eq_false. intros [[[Sa Sb] Ta] Tb].
  destruct (typel_facts Henv a) as (Wa & _ & [|Ha]); [done|]. destruct (typel_facts Henv b) as (Wb & _ & [|Hb]); [done|].
  by apply (long_sum _ _ (evall r) _ _ _ _ add_long_folds).
Qed.

(** [(x >>> z) + y] as [(x + (y << z)) >>> z], for a sum that does not cross zero. *)
Lemma shifted_addition x z y :
  is_s 32 x -> 0 <= z < 5 -> -5 < y < 0 -> s32 (- s32 (y ≪ z)) <= x ->
  s32 (u32 (s32 (x + s32 (y ≪ z))) ≫ z) = s32 (s32 (u32 x ≫ z) + y).
Proof.
  intros Hx Hz Hy Hle. rewrite Z.shiftl_mul_pow2 in * by lia. rewrite !Z.shiftr_div_pow2 by lia.
  assert (Hp : 1 <= 2 ^ z <= 16).
  { pose proof (Z.pow_le_mono_r 2 0 z ltac:(lia) ltac:(lia)). pose proof (Z.pow_le_mono_r 2 z 4 ltac:(lia) ltac:(lia)). lia. }
  unfold is_s in Hx. change (2 ^ (32 - 1)) with 2147483648 in Hx.
  rewrite (wraps_id 32 (y * _)) in * by (try done; unfold is_s; nia).
  rewrite (wraps_id 32 (- _)) in Hle by (try done; unfold is_s; nia).
  rewrite (wraps_id 32 (x + _)) by (try done; unfold is_s; nia).
  rewrite !wrapu_id by (unfold is_u; nia). rewrite wraps_add_l by done. f_equal.
  by rewrite <- Z.div_add by lia.
Qed.

(** All rewritings of a list keep the value [x]. *)
Lemma first_some_value {N} (value : N -> Z) x (l : list (option N)) n :
  Forall (fun m => forall n, m = Some n -> value n = x) l -> first_some l = Some n -> value n = x.
Proof. induction 1 as [|[m|] l Hm Hl IH]; cbn; [done| |done]. intros [= <-]. by apply Hm. Qed.

Lemma add_int_ideal in1 in2 :
  java_int in1 -> java_int in2 ->
  exists o, AddI_Ideal in1 in2 = Some o /\ computes (evali r) (s32 (evali r in1 + evali r in2)) o.
Proof.
  intros J1 J2. unfold AddI_Ideal. pose proof (add_int_node_ideal in1 in2) as Hbase.
  set (base := AddNode.Ideal _ _ _) in *. clearbody base. match goal with |- context [mbind _ ?e] => set (fold := e) end.
  assert (Hfold : exists o, fold = Some o /\ replaces (evali r) (s32 (evali r in1 + evali r in2)) o).
  { unfold fold. destruct in1; try (by eauto using replaces_same).
    destruct (_ && _) eqn:Ec; [|by eauto using replaces_same].
    destruct (con_sum_int _ in2 Ec) as (t & n & -> & Hn & Hv). cbn [mbind option_bind]. rewrite Hn.
    eexists. split; [done|]. intros m [= <-]. ev. rewrite Hv. wrap_ring. }
  clearbody fold. destruct Hfold as (o & -> & Ho). cbn [mbind option_bind].
  destruct (first_some _) as [n|] eqn:Ef.
  { apply new_computes. eapply first_some_value; [|exact Ef]. clear Ef. repeat constructor; [done|..].
    - destruct in1; try done. destruct in2; try done. intros ? [= <-]. ev. wrap_ring.
    - destruct in2; try done. destruct (decide _) as [Ez%(type_con_int Henv)|]; [|done].
      intros ? [= <-]. ev. rewrite Ez. wrap_ring.
    - destruct in1; try done. destruct (decide _) as [Ez%(type_con_int Henv)|]; [|done].
      intros ? [= <-]. ev. rewrite Ez. wrap_ring. }
  clear Ef. destruct in1 as [| | | | | | | | | | | |x count| |]; try done.
  destruct count as [c| | | | | | | | | | | | | |]; try done. destruct in2 as [y| | | | | | | | | | | | | |]; try done.
  destruct J1 as [Jx Jc]. unfold int_con. rewrite (con_type_int c Jc), (con_type_int y J2). cbn [TypeInt.make_con].
  unfold TypeInt.is_con. rewrite !Z.eqb_refl. cbn [mbind option_bind].
  pose proof (count_31 c) as Hz. change (32 - 1) with 0x1f in Hz. destruct (_ && _) eqn:Eb; [|done].
  destruct (typei x) as [| |lo hi w| | | | | | | | | | | |] eqn:Et; try done;
    try (destruct (typei_facts Henv x) as (_ & Hb & [Ht|Ht]); rewrite Et in *; done).
  destruct (Z.geb_spec lo (s32 (- s32 (y ≪ (c &&& 0x1f))))); [|done]. apply range_int in Et.
  apply new_computes. ev. apply shifted_addition; [by apply (int_range Henv)|lia..].
Qed.

Lemma add_long_ideal in1 in2 :
  exists o, AddL_Ideal in1 in2 = Some o /\ computes (evall r) (s64 (evall r in1 + evall r in2)) o.
Proof.
  unfold AddL_Ideal. pose proof (add_long_node_ideal in1 in2) as Hbase.
  set (base := AddNode.Ideal _ _ _) in *. clearbody base. match goal with |- context [mbind _ ?e] => set (fold := e) end.
  assert (Hfold : exists o, fold = Some o /\ replaces (evall r) (s64 (evall r in1 + evall r in2)) o).
  { unfold fold. destruct in1; try (by eauto using replaces_same).
    destruct (_ && _) eqn:Ec; [|by eauto using replaces_same].
    destruct (con_sum_long _ in2 Ec) as (t & n & -> & Hn & Hv). cbn [mbind option_bind]. rewrite Hn.
    eexists. split; [done|]. intros m [= <-]. ev. rewrite Hv. wrap_ring. }
  clearbody fold. destruct Hfold as (o & -> & Ho). cbn [mbind option_bind].
  destruct (first_some _) as [n|] eqn:Ef; [|done].
  apply new_computes. eapply first_some_value; [|exact Ef]. clear Ef. repeat constructor; [done|..].
  - destruct in1; try done. destruct in2; try done. intros ? [= <-]. ev. wrap_ring.
  - destruct in2; try done. destruct (decide _) as [Ez%(type_con_long Henv)|]; [|done].
    intros ? [= <-]. ev. rewrite Ez. wrap_ring.
Qed.

(** A result that an input has already. *)
Lemma cancels w x y : 0 < w -> is_s w x -> wraps w y = wraps w x -> x = wraps w y.
Proof. intros Hw Hx ->. symmetry. by apply wraps_id. Qed.

Lemma found_replaces {N} (value : N -> Z) x n :
  value n = x -> exists o, Some (Some n) = Some o /\ replaces value x o.
Proof. intros E. eexists. split; [done|by intros m [= <-]]. Qed.

Lemma add_int_identity in1 in2 :
  java_int in1 -> java_int in2 -> typei in1 <> Top -> typei in2 <> Top ->
  exists o, AddI_Identity in1 in2 = Some o /\ replaces (evali r) (s32 (evali r in1 + evali r in2)) o.
Proof.
  intros J1 J2 L1 L2. unfold AddI_Identity. pose proof (add_int_node_identity in1 in2 L1 L2) as Hbase.
  set (base := AddNode.Identity _ _ _) in *. clearbody base. cbv zeta.
  assert (Hright : exists o, match in2 with SubI x y => if samei y in1 then Some (Some x) else base | _ => base end = Some o /\
    replaces (evali r) (s32 (evali r in1 + evali r in2)) o).
  { destruct in2 as [| | | | | |x y| | | | | | | |]; try done. destruct (samei y in1) eqn:Es; [|done].
    apply samei_ok in Es as ->. apply found_replaces. destruct J2 as [Jx%(int_range Henv) _]. ev.
    apply cancels; [done|done|wrap_ring]. }
  destruct in1 as [| | | | | |x y| | | | | | | |]; try done. destruct (samei y in2) eqn:Es; [|done].
  apply samei_ok in Es as ->. apply found_replaces. destruct J1 as [Jx%(int_range Henv) _]. ev.
  apply cancels; [done|done|wrap_ring].
Qed.

Lemma add_long_identity in1 in2 :
  java_long in1 -> java_long in2 -> typel in1 <> Top -> typel in2 <> Top ->
  exists o, AddL_Identity in1 in2 = Some o /\ replaces (evall r) (s64 (evall r in1 + evall r in2)) o.
Proof.
  intros J1 J2 L1 L2. unfold AddL_Identity. pose proof (add_long_node_identity in1 in2 L1 L2) as Hbase.
  set (base := AddNode.Identity _ _ _) in *. clearbody base. cbv zeta.
  assert (Hright : exists o, match in2 with SubL x y => if samel y in1 then Some (Some x) else base | _ => base end = Some o /\
    replaces (evall r) (s64 (evall r in1 + evall r in2)) o).
  { destruct in2 as [| | |x y| | | | | | | | |]; try done. destruct (samel y in1) eqn:Es; [|done].
    apply samel_ok in Es as ->. apply found_replaces. destruct J2 as [Jx%(long_range Henv) _]. ev.
    apply cancels; [done|done|wrap_ring]. }
  destruct in1 as [| | |x y| | | | | | | | |]; try done. destruct (samel y in2) eqn:Es; [|done].
  apply samel_ok in Es as ->. apply found_replaces. destruct J1 as [Jx%(long_range Henv) _]. ev.
  apply cancels; [done|done|wrap_ring].
Qed.

(** ** Subtractions *)

(** Destruct the patterns and conditions of one rewriting, and use what they say. *)
Ltac pattern_step :=
  repeat match goal with
  | |- forall n, (if decide ?P then _ else _) = Some n -> _ => destruct (decide P); try done
  | |- forall n, match ?x with _ => _ end = Some n -> _ => destruct x eqn:?; try done
  | |- forall n, (?x ≫= _) = Some n -> _ => destruct x eqn:?; cbn [mbind option_bind]; try done
  | H : samei _ _ = true |- _ => apply samei_ok in H; subst
  | H : samel _ _ = true |- _ => apply samel_ok in H; subst
  | H : int_con _ = Some _ |- _ => apply (int_con_ok Henv) in H as [_ H]
  | H : long_con _ = Some _ |- _ => apply (long_con_ok Henv) in H as [_ H]
  | H : typei _ = TypeInt.ZERO |- _ => apply (type_con_int Henv) in H
  | H : typel _ = TypeLong.ZERO |- _ => apply (type_con_long Henv) in H
  end.

(** The node of a rewriting has the value of the difference. *)
Ltac pattern_value :=
  intros ? [= <-]; ev; repeat match goal with H : evali r _ = _ |- _ => rewrite H; clear H
                                            | H : evall r _ = _ |- _ => rewrite H; clear H end; wrap_ring.

Lemma sub_int_ideal in1 in2 :
  java_int in1 -> java_int in2 -> computes (evali r) (s32 (evali r in1 - evali r in2)) (SubI_Ideal in1 in2).
Proof.
  intros J1 J2. unfold SubI_Ideal. destruct (decide _) as [|_]; [by apply computes_same|]. cbv zeta.
  destruct (first_some _) as [n|] eqn:Ef.
  { apply computes_new. eapply first_some_value; [|exact Ef]. clear Ef.
    repeat constructor; pattern_step; pattern_value. }
  clear Ef. destruct (decide _) as [|_]; [by apply computes_same|].
  destruct (first_some _) as [n|] eqn:Ef; [|by apply computes_same].
  apply computes_new. eapply first_some_value; [|exact Ef]. clear Ef.
  repeat constructor; pattern_step; try pattern_value.
  match goal with H : negb (find_int_con _ 0 =? 0) = true |- _ => apply negb_true_iff, Z.eqb_neq in H as Hc end.
  destruct J2 as [_ Jc]. destruct (find_int_con_ok Henv _ Hc Jc) as [_ Ec].
  intros ? [= <-]. ev. rewrite <- Ec. replace (evali r in1) with 0 by done. wrap_ring.
Qed.

Lemma sub_long_ideal in1 in2 :
  computes (evall r) (s64 (evall r in1 - evall r in2)) (SubL_Ideal in1 in2).
Proof.
  unfold SubL_Ideal. destruct (decide _) as [|_]; [by apply computes_same|]. cbv zeta.
  destruct (first_some _) as [n|] eqn:Ef.
  { apply computes_new. eapply first_some_value; [|exact Ef]. clear Ef.
    repeat constructor; pattern_step; pattern_value. }
  clear Ef. destruct (decide _) as [|_]; [by apply computes_same|].
  destruct (first_some _) as [n|] eqn:Ef; [|by apply computes_same].
  apply computes_new. eapply first_some_value; [|exact Ef]. clear Ef.
  repeat constructor; pattern_step; pattern_value.
Qed.
End proofs.

(** ** [SubNode::Identity] *)

Section sub_identity.
Context {N : Type} (w : Z) (type_of : N -> IType) (val : Z -> value) (ev : N -> Z) (zero : IType) (same : N -> N -> bool)
  (sub_of addi_of : N -> option (N * N)) (opaque2 : N -> option N).
Hypothesis Hw : 0 < w.
Hypothesis Htype : forall n, wf (type_of n) /\ (type_of n = Top \/ has_type (val (ev n)) (type_of n)).
Hypothesis Hzero : wf zero /\ forall x, has_type (val x) zero -> x = 0.
Hypothesis Hsame : forall a b, same a b = true -> a = b.
Hypothesis Hsub : forall n a b, sub_of n = Some (a, b) -> ev n = wraps w (ev a - ev b).
Hypothesis Hadd : forall n a b, addi_of n = Some (a, b) -> ev n = wraps w (ev a + ev b).
Hypothesis Hopaque : forall n x, opaque2 n = Some x -> ev n = ev x.
Set Default Proof Using "Type*".

Lemma zero_type n :
  type_of n <> Top -> exists b, higher_equal (type_of n) zero = Some b /\ (b = true -> ev n = 0).
Proof.
  intros L. destruct (Htype n) as (W & [|T]); [done|]. destruct Hzero as [Wz Hz].
  destruct (higher_equal_sound _ zero (val (ev n)) W Wz) as (b & -> & H). exists b. eauto.
Qed.

Lemma sub_node_identity in1 in2 :
  type_of in1 <> Top -> type_of in2 <> Top ->
  (forall x y, sub_of in2 = Some (x, y) -> type_of x <> Top /\ is_s w (ev y)) ->
  (forall x y, addi_of in1 = Some (x, y) -> is_s w (ev x) /\ is_s w (ev y)) ->
  is_s w (ev in1) ->
  exists o, SubNode_Identity type_of zero same sub_of addi_of opaque2 in1 in2 = Some o /\
            replaces ev (wraps w (ev in1 - ev in2)) o.
Proof.
  intros L1 L2 Hs2 Ha1 R1. unfold SubNode_Identity.
  destruct (zero_type in1 L1) as (z1 & -> & Hz1). cbn [mbind option_bind].
  match goal with |- context [mbind _ ?e] => set (dn := e) end.
  assert (Hdn : exists o, dn = Some o /\ replaces ev (wraps w (ev in1 - ev in2)) o).
  { unfold dn. destruct z1; [|by eauto using replaces_same]. destruct (sub_of in2) as [[x y]|] eqn:Es; [|by eauto using replaces_same].
    destruct (Hs2 x y eq_refl) as [Lx Ry]. destruct (zero_type x Lx) as (z & -> & Hz). cbn [mbind option_bind].
    eexists. split; [done|]. destruct z; [|by apply replaces_same]. intros n [= <-].
    rewrite (Hsub _ _ _ Es), Hz1, Hz by done. apply cancels; [done..|wrap_ring]. }
  clearbody dn. destruct Hdn as (o & -> & Ho). cbn [mbind option_bind].
  destruct o as [y|]; [by apply found_replaces, Ho|].
  match goal with |- context [mbind ?k (higher_equal ?a ?b)] => set (rest := mbind k (higher_equal a b)) end.
  assert (Hrest : exists o, rest = Some o /\ replaces ev (wraps w (ev in1 - ev in2)) o).
  { unfold rest. destruct (zero_type in2 L2) as (z & -> & Hz). cbn [mbind option_bind]. eexists. split; [done|].
    destruct z; [|by apply replaces_same]. intros n [= <-]. rewrite Hz by done. apply cancels; [done..|wrap_ring]. }
  clearbody rest. cbv zeta. destruct (addi_of in1) as [[x y]|] eqn:Ea; [|done]. destruct (Ha1 x y eq_refl) as [Rx Ry].
  assert (Hfound : ev y = ev in2 -> exists o, Some (Some x) = Some o /\ replaces ev (wraps w (ev in1 - ev in2)) o).
  { intros E. apply found_replaces. rewrite (Hadd _ _ _ Ea), E. apply cancels; [done..|wrap_ring]. }
  destruct (same y in2) eqn:Ey; [apply Hsame in Ey as ->; by apply Hfound|].
  destruct (same x in2) eqn:Ex.
  { apply Hsame in Ex as ->. apply found_replaces. rewrite (Hadd _ _ _ Ea). apply cancels; [done..|wrap_ring]. }
  destruct (opaque2 y) as [y'|] eqn:Eo; [|done]. destruct (same y' in2) eqn:Es; [|done].
  apply Hsame in Es as ->. by apply Hfound, Hopaque.
Qed.
End sub_identity.

Section sub_identities.
Context {phase : PhaseGVN} {graph : Graph} {r : env} {laws : PhaseLaws phase r}
  {glaws : GraphLaws phase graph r}.
Hypothesis Henv : java_env r.
Set Default Proof Using "Type*".

Lemma sub_int_identity in1 in2 :
  java_int in1 -> java_int in2 -> typei in1 <> Top -> typei in2 <> Top ->
  (forall x y, in2 = SubI x y -> typei x <> Top) ->
  exists o, SubI_Identity in1 in2 = Some o /\ replaces (evali r) (s32 (evali r in1 - evali r in2)) o.
Proof.
  intros J1 J2 L1 L2 Lx. unfold SubI_Identity. eapply (sub_node_identity 32) with (val := VInt); try done.
  - apply typei_ok.
  - split; [done|]. intros x Hx. cbn in Hx. lia.
  - apply samei_ok.
  - intros [] ??; try done. by intros [= -> ->].
  - intros [] ??; try done. by intros [= -> ->].
  - apply Opaque2_ok.
  - intros x y E. destruct in2; try done. injection E as -> ->. split; [by eapply Lx|]. by apply (int_range Henv), J2.
  - intros x y E. destruct in1; try done. injection E as -> ->. by split; apply (int_range Henv), J1.
  - by apply (int_range Henv).
Qed.

Lemma sub_long_identity in1 in2 :
  java_long in1 -> java_long in2 -> typel in1 <> Top -> typel in2 <> Top ->
  (forall x y, in2 = SubL x y -> typel x <> Top) ->
  exists o, SubL_Identity in1 in2 = Some o /\ replaces (evall r) (s64 (evall r in1 - evall r in2)) o.
Proof.
  intros J1 J2 L1 L2 Lx. unfold SubL_Identity. eapply (sub_node_identity 64) with (val := VLong); try done.
  - apply typel_ok.
  - split; [done|]. intros x Hx. cbn in Hx. lia.
  - apply samel_ok.
  - intros [] ??; try done. by intros [= -> ->].
  - intros x y E. destruct in2; try done. injection E as -> ->. split; [by eapply Lx|]. by apply (long_range Henv), J2.
  - by apply (long_range Henv).
Qed.
End sub_identities.

(** * Properties *)

(** C23: additions, subtractions and disjunctions are rewritten into equal nodes.
    [Ideal] returns on every pair of inputs, no constant it folds fails an assertion of
    [makecon], and what it gives has the value of the Java operation, which wraps
    around, whatever the loops and uses of the nodes; [Identity] of live nodes gives a
    node only if that is the value. *)
Theorem add_sub_ideal_correct (phase : PhaseGVN) (graph : Graph) (r : env)
    (laws : PhaseLaws phase r) (glaws : GraphLaws phase graph r) (Hr : java_env r)
    (a b : inode) (x y : lnode) (Ha : java_int a) (Hb : java_int b) (Hx : java_long x) (Hy : java_long y) :
  (exists o, AddI_Ideal a b = Some o /\ computes (evali r) (evali r (AddI a b)) o) /\
  (exists o, AddL_Ideal x y = Some o /\ computes (evall r) (evall r (AddL x y)) o) /\
  (exists o, AddNode.Ideal OrI_class a b = Some o /\ computes (evali r) (evali r (OrI a b)) o) /\
  (exists o, AddNode.Ideal OrL_class x y = Some o /\ computes (evall r) (evall r (OrL x y)) o) /\
  computes (evali r) (evali r (SubI a b)) (SubI_Ideal a b) /\
  computes (evall r) (evall r (SubL x y)) (SubL_Ideal x y) /\
  (typei a <> Top -> typei b <> Top ->
   (exists o, AddI_Identity a b = Some o /\ replaces (evali r) (evali r (AddI a b)) o) /\
   (exists o, Or_Identity samei OrI_class a b = Some o /\ replaces (evali r) (evali r (OrI a b)) o) /\
   ((forall u v, b = SubI u v -> typei u <> Top) ->
    exists o, SubI_Identity a b = Some o /\ replaces (evali r) (evali r (SubI a b)) o)) /\
  (typel x <> Top -> typel y <> Top ->
   (exists o, AddL_Identity x y = Some o /\ replaces (evall r) (evall r (AddL x y)) o) /\
   (exists o, Or_Identity samel OrL_class x y = Some o /\ replaces (evall r) (evall r (OrL x y)) o) /\
   ((forall u v, y = SubL u v -> typel u <> Top) ->
    exists o, SubL_Identity x y = Some o /\ replaces (evall r) (evall r (SubL x y)) o)).
Proof.
  split_and!; [by apply add_int_ideal|by apply add_long_ideal|by apply or_int_ideal|by apply or_long_ideal
    |by apply sub_int_ideal|by apply sub_long_ideal|intros; split_and!..].
  - by apply add_int_identity.
  - by apply or_int_identity.
  - intros. by apply sub_int_identity.
  - by apply add_long_identity.
  - by apply or_long_identity.
  - intros. by apply sub_long_identity.
Qed.

(** ** Witnesses *)

(** A graph without loops, in which every node has one use. *)
Definition sample_graph : Graph := {|
  loop_phii _ := false; loop_phil _ := false; loop_increment_i _ := false; loop_increment_l _ := false;
  is_loop_ivi _ := false; is_loop_ivl _ := false; outcnti _ := 1; outcntl _ := 1; Opaque2_in _ := None |}.

Lemma sample_graph_laws r : GraphLaws (sample_phase r) sample_graph r.
Proof.
  split; try done; cbn [typei typel sample_phase].
  - intros c Hc. by rewrite decide_True by done.
  - intros a b. destruct (decide _); done.
  - intros a b. destruct (decide _); done.
  - intros a b. destruct (decide _); done.
  - intros a b. destruct (decide _); done.
Qed.

(** (x + 3) + 4 for the largest int x, and 0 - (y - z) for longs. *)
Lemma add_sub_ideal_correct_witness :
  let r := mkEnv (fun _ => max_jint) (fun _ => 5) (fun _ => 0) in
  @AddI_Ideal (sample_phase r) sample_graph (AddI (VarI 0) (ConI 3)) (ConI 4) = Some (New (AddI (VarI 0) (ConI 7))) /\
  evali r (AddI (VarI 0) (ConI 7)) = min_jint + 6 /\
  @SubL_Ideal (sample_phase r) sample_graph (ConL 0) (SubL (VarL 0) (VarL 1)) = New (SubL (VarL 1) (VarL 0)) /\
  evall r (SubL (VarL 1) (VarL 0)) = 0.
Proof.
  intros r. destruct (add_sub_ideal_correct (sample_phase r) sample_graph r (sample_laws r) (sample_graph_laws r)
    ltac:(by split) (AddI (VarI 0) (ConI 3)) (ConI 4) (ConL 0) (SubL (VarL 0) (VarL 1)))
    as ((o & Ho & Hn) & _ & _ & _ & _ & Hs & _); [done..|].
  vm_compute in Ho. split_and!; [by lazy| |by lazy|].
  - apply Hn. by injection Ho as <-.
  - apply Hs. by lazy.
Defined.
