(* ===== verification/ClassFileParser.v ===== *)
(** * Format checks of class files

    Model of the checks of modifiers, names, signatures and strings at the end of
    classfile/classFileParser.cpp.  Names and signatures are byte arrays; the code reads
    them through a copy with a terminating zero, and a [char*] is an index into it.

    A check has no result when it reads outside of its buffer or does not end.
    Otherwise it throws a [ClassFormatError] or returns.  The two Java methods that
    older class files need to classify characters are parameters; an exception in one of
    them is [None]. *)

From S2P Require Import Prelude Utf8.

Open Scope Z_scope.

(** The outcome of a function with an exception argument. *)
Inductive checked (A : Type) := Returns (x : A) | Throws.
Arguments Returns {A} x.
Arguments Throws {A}.

(** [CHECK]: an exception ends the caller too. *)
Notation "'CHECK' x ← e ; k" :=
  (match e with Some (Returns x) => k | Some Throws => Some Throws | None => None end)
  (at level 100, x pattern, e at level 90, k at level 200, right associativity) : hotspot_scope.

(** ** Constants of prims/jvm.h, and the version of Java 5 *)

Abbreviation JVM_SIGNATURE_ARRAY := 91.
Abbreviation JVM_SIGNATURE_BYTE := 66.
Abbreviation JVM_SIGNATURE_CHAR := 67.
Abbreviation JVM_SIGNATURE_CLASS := 76.
Abbreviation JVM_SIGNATURE_FLOAT := 70.
Abbreviation JVM_SIGNATURE_DOUBLE := 68.
Abbreviation JVM_SIGNATURE_FUNC := 40.
Abbreviation JVM_SIGNATURE_ENDFUNC := 41.
Abbreviation JVM_SIGNATURE_INT := 73.
Abbreviation JVM_SIGNATURE_LONG := 74.
Abbreviation JVM_SIGNATURE_SHORT := 83.
Abbreviation JVM_SIGNATURE_VOID := 86.
Abbreviation JVM_SIGNATURE_BOOLEAN := 90.

(** '.', '/', ';', '<' and '>'. *)
Abbreviation DOT := 46.
Abbreviation SLASH := 47.
Abbreviation SEMICOLON := 59.
Abbreviation LESS := 60.
Abbreviation GREATER := 62.

Abbreviation JAVA_1_5_VERSION := 49.

(** ** The parser's fields, and the kinds of unqualified names *)

Record ClassFileParser := mkParser {
  _major_version : Z;
  _need_verify : bool;
  _relax_verify : bool
}.

Inductive name_kind := LegalClass | LegalField | LegalMethod.

(** [symbolOopDesc::as_utf8_flexible_buffer]: the bytes with a terminating zero. *)
Definition as_utf8_flexible_buffer (symbol : list Z) : list Z := symbol ++ [0].

(** "<init>" and "<clinit>". *)
Abbreviation object_initializer_name := [60; 105; 110; 105; 116; 62].
Abbreviation class_initializer_name := [60; 99; 108; 105; 110; 105; 116; 62].

(** ** Strings *)

(** The first loop: four bytes at a time while all are between 1 and 127. *)
Fixpoint skip_ascii (buffer : list Z) (i : Z) (count : nat) : option Z :=
  match count with
  | O => Some i
  | S count =>
      b0 ← load buffer i;
      b1 ← load buffer (i + 1);
      b2 ← load buffer (i + 2);
      b3 ← load buffer (i + 3);
      let res := u8 (b0 ||| (b0 - 1) ||| b1 ||| (b1 - 1) ||| b2 ||| (b2 - 1) ||| b3 ||| (b3 - 1)) in
      if res >=? 128 then Some i else skip_ascii buffer (i + 4) count
  end.

(** The switch on a byte [b] of at least 128 at [i]: the index of the character's last byte. *)
Definition check_multibyte (major_version : Z) (buffer : list Z) (length i b : Z) : option (checked Z) :=
  let hi := b ≫ 4 in
  if (hi =? 0x8) || (hi =? 0x9) || (hi =? 0xA) || (hi =? 0xB) || (hi =? 0xF) then Some Throws
  else if (hi =? 0xC) || (hi =? 0xD) then
    let c := u16 ((b &&& 0x1F) ≪ 6) in
    let i := i + 1 in
    if i <? length then
      b1 ← load buffer i;
      if (b1 &&& 0xC0) =? 0x80 then
        let c := u16 (c + (b1 &&& 0x3F)) in
        Some (if (major_version <=? 47) || (c =? 0) || (c >=? 0x80) then Returns i else Throws)
      else Some Throws
    else Some Throws
  else if hi =? 0xE then
    let c := u16 ((b &&& 0xF) ≪ 12) in
    let i := i + 2 in
    if i <? length then
      b1 ← load buffer (i - 1);
      if (b1 &&& 0xC0) =? 0x80 then
        b2 ← load buffer i;
        if (b2 &&& 0xC0) =? 0x80 then
          let c := u16 (c + (((b1 &&& 0x3F) ≪ 6) + (b2 &&& 0x3F))) in
          Some (if (major_version <=? 47) || (c >=? 0x800) then Returns i else Throws)
        else Some Throws
      else Some Throws
    else Some Throws
  else Some (Returns i).

(** The second loop, one character at a time; every round takes a byte of the fuel. *)
Fixpoint check_utf8 (major_version : Z) (buffer : list Z) (length : Z) (fuel : nat) (i : Z) : option (checked unit) :=
  match fuel with
  | O => None
  | S fuel =>
      if negb (i <? length) then Some (Returns tt) else
      b ← load buffer i;
      if b =? 0 then Some Throws
      else if b <? 128 then check_utf8 major_version buffer length fuel (i + 1)
      else
        supplementary ← (if i + 5 <? length then UTF8.is_supplementary_character buffer i else Some false);
        if (supplementary : bool) then
          c ← UTF8.get_supplementary_character buffer i;
          check_utf8 major_version buffer length fuel (i + 5 + 1)
        else
          CHECK i ← check_multibyte major_version buffer length i b;
          check_utf8 major_version buffer length fuel (i + 1)
  end.

Definition verify_legal_utf8 (parser : ClassFileParser) (buffer : list Z) (length : Z) : option (checked unit) :=
  ASSERT _need_verify parser ;;
  i ← skip_ascii buffer 0 (Z.to_nat (length ≫ 2));
  check_utf8 (_major_version parser) buffer length (S (Z.to_nat length)) i.

(** ** Names *)

(** The loop from [p] on; every round takes a byte of the fuel. *)
Fixpoint verify_unqualified_name (name : list Z) (length : Z) (type : name_kind) (fuel : nat) (p : Z) : option bool :=
  match fuel with
  | O => None
  | S fuel =>
      if p =? length then Some true else
      ch ← load name p;
      if ch <? 128 then
        if (ch =? DOT) || (ch =? SEMICOLON) then Some false
        else
          match type with
          | LegalClass => verify_unqualified_name name length type fuel (p + 1)
          | LegalField =>
              if ch =? SLASH then Some false else verify_unqualified_name name length type fuel (p + 1)
          | LegalMethod =>
              if (ch =? SLASH) || (ch =? LESS) || (ch =? GREATER) then Some false
              else verify_unqualified_name name length type fuel (p + 1)
          end
      else
        '(_, p) ← UTF8.next name p;
        verify_unqualified_name name length type fuel p
  end.

Section checks.
(** [Character.isJavaIdentifierStart] and [isJavaIdentifierPart]. *)
Context (isJavaIdentifierStart isJavaIdentifierPart : Z -> option bool).
Context (parser : ClassFileParser).

(** [name_end] is the pointer [name + length]; the result is a pointer or NULL. *)
Fixpoint skip_over_field_name (name : list Z) (slash_ok : bool) (name_end : Z) (fuel : nat)
    (p : Z) (last_is_slash not_first_ch : bool) : option (option Z) :=
  match fuel with
  | O => None
  | S fuel =>
      if p =? name_end then Some (if not_first_ch then Some p else None) else
      let old_p := p in
      let no_match := Some (if not_first_ch then Some old_p else None) in
      ch ← load name p;
      if ch <? 128 then
        let p := p + 1 in
        if ((97 <=? ch) && (ch <=? 122)) || ((65 <=? ch) && (ch <=? 90)) || ((ch =? 95) || (ch =? 36)) ||
           (not_first_ch && (48 <=? ch) && (ch <=? 57))
        then skip_over_field_name name slash_ok name_end fuel p false true
        else if slash_ok && (ch =? SLASH) then
          if last_is_slash then Some None
          else skip_over_field_name name slash_ok name_end fuel p true true
        else no_match
      else
        '(unicode_ch, p) ← UTF8.next_character name p;
        match isJavaIdentifierStart unicode_ch with
        | None => Some None
        | Some true => skip_over_field_name name slash_ok name_end fuel p false true
        | Some false =>
            if not_first_ch then
              match isJavaIdentifierPart unicode_ch with
              | None => Some None
              | Some true => skip_over_field_name name slash_ok name_end fuel p false true
              | Some false => no_match
              end
            else no_match
        end
  end.

(** The name of a class up to its semicolon, in class files of version 49 and later. *)
Fixpoint skip_class_name (bytes : list Z) (length : nat) (signature : Z) : option (checked (option Z)) :=
  ch ← load bytes signature;
  match length with
  | O => Some (Returns (if ch =? SEMICOLON then Some (signature + 1) else None))
  | S length =>
      if ch =? SEMICOLON then Some (Returns (Some (signature + 1)))
      else if ch =? DOT then Some Throws
      else skip_class_name bytes length (signature + 1)
  end.

(** [length] counts the bytes from [signature] to the end. *)
Fixpoint skip_over_field_signature (bytes : list Z) (void_ok : bool) (array_dim : Z) (length : nat) (signature : Z)
    : option (checked (option Z)) :=
  match length with
  | O => Some (Returns None)
  | S length =>
      ch ← load bytes signature;
      if (ch =? JVM_SIGNATURE_VOID) && negb void_ok then Some (Returns None)
      else if (ch =? JVM_SIGNATURE_VOID) || (ch =? JVM_SIGNATURE_BOOLEAN) || (ch =? JVM_SIGNATURE_BYTE) ||
              (ch =? JVM_SIGNATURE_CHAR) || (ch =? JVM_SIGNATURE_SHORT) || (ch =? JVM_SIGNATURE_INT) ||
              (ch =? JVM_SIGNATURE_FLOAT) || (ch =? JVM_SIGNATURE_LONG) || (ch =? JVM_SIGNATURE_DOUBLE)
      then Some (Returns (Some (signature + 1)))
      else if ch =? JVM_SIGNATURE_CLASS then
        if _major_version parser <? JAVA_1_5_VERSION then
          let name_end := signature + 1 + Z.of_nat length in
          p ← skip_over_field_name bytes true name_end (S length) (signature + 1) false false;
          match p with
          | Some p =>
              if p - signature >? 1 then
                ch ← load bytes p;
                Some (Returns (if ch =? SEMICOLON then Some (p + 1) else None))
              else Some (Returns None)
          | None => Some (Returns None)
          end
        else skip_class_name bytes length (signature + 1)
      else if ch =? JVM_SIGNATURE_ARRAY then
        if array_dim + 1 >? 255 then Some Throws
        else skip_over_field_signature bytes false (array_dim + 1) length (signature + 1)
      else Some (Returns None)
  end.

(** [legal = (p != NULL) && ((p - bytes) == (int)length)] for a pointer [p], and the error
    that follows when it is false. *)
Abbreviation legal_end p length := (bool_decide (p = Some length)).
Definition throw_unless (legal : bool) : option (checked unit) := Some (if legal then Returns tt else Throws).

Definition verify_legal_class_name (name : list Z) : option (checked unit) :=
  if negb (_need_verify parser) || _relax_verify parser then Some (Returns tt) else
  let bytes := as_utf8_flexible_buffer name in
  let len := zlen name in
  if len >? 0 then
    ch ← load bytes 0;
    if ch =? JVM_SIGNATURE_ARRAY then
      CHECK p ← skip_over_field_signature bytes false 0 (length name) 0;
      throw_unless (legal_end p len)
    else if _major_version parser <? JAVA_1_5_VERSION then
      if negb (ch =? LESS) then
        p ← skip_over_field_name bytes true len (S (length name)) 0 false false;
        throw_unless (legal_end p len)
      else Some Throws
    else
      legal ← verify_unqualified_name bytes len LegalClass (S (length name)) 0;
      throw_unless legal
  else Some Throws.

Definition verify_legal_field_name (name : list Z) : option (checked unit) :=
  if negb (_need_verify parser) || _relax_verify parser then Some (Returns tt) else
  let bytes := as_utf8_flexible_buffer name in
  let len := zlen name in
  if len >? 0 then
    if _major_version parser <? JAVA_1_5_VERSION then
      ch ← load bytes 0;
      if negb (ch =? LESS) then
        p ← skip_over_field_name bytes false len (S (length name)) 0 false false;
        throw_unless (legal_end p len)
      else Some Throws
    else
      legal ← verify_unqualified_name bytes len LegalField (S (length name)) 0;
      throw_unless legal
  else Some Throws.

Definition verify_legal_method_name (name : list Z) : option (checked unit) :=
  if negb (_need_verify parser) || _relax_verify parser then Some (Returns tt) else
  let bytes := as_utf8_flexible_buffer name in
  let len := zlen name in
  if len >? 0 then
    ch ← load bytes 0;
    if ch =? LESS then
      throw_unless (bool_decide (name = object_initializer_name) || bool_decide (name = class_initializer_name))
    else if _major_version parser <? JAVA_1_5_VERSION then
      p ← skip_over_field_name bytes false len (S (length name)) 0 false false;
      throw_unless (legal_end p len)
    else
      legal ← verify_unqualified_name bytes len LegalMethod (S (length name)) 0;
      throw_unless legal
  else Some Throws.

(** ** Signatures *)

Definition verify_legal_field_signature (signature : list Z) : option (checked unit) :=
  if negb (_need_verify parser) then Some (Returns tt) else
  let bytes := as_utf8_flexible_buffer signature in
  CHECK p ← skip_over_field_signature bytes false 0 (length signature) 0;
  throw_unless (legal_end p (zlen signature)).

(** The loop over the parameters; [len] bytes are left from [p] on. *)
Fixpoint parameters_loop (bytes : list Z) (fuel : nat) (args_size p : Z) (len : nat) : option (checked (Z * Z * nat)) :=
  match fuel with
  | O => None
  | S fuel =>
      CHECK nextp ← skip_over_field_signature bytes false 0 len p;
      match nextp with
      | Some nextp =>
          if (0 <? len)%nat then
            ch ← load bytes p;
            let args_size := args_size + 1 in
            let args_size := if (ch =? JVM_SIGNATURE_LONG) || (ch =? JVM_SIGNATURE_DOUBLE) then args_size + 1
                             else args_size in
            parameters_loop bytes fuel (u32 args_size) nextp (len - Z.to_nat (nextp - p))
          else Some (Returns (args_size, p, len))
      | None => Some (Returns (args_size, p, len))
      end
  end.

(** The number of parameter slots. *)
Definition verify_legal_method_signature (name signature : list Z) : option (checked Z) :=
  if negb (_need_verify parser) then Some (Returns (-2)) else
  let bytes := as_utf8_flexible_buffer signature in
  let len := length signature in
  match len with
  | O => Some Throws
  | S len =>
      ch ← load bytes 0;
      if negb (ch =? JVM_SIGNATURE_FUNC) then Some Throws else
      CHECK (args_size, p, len) ← parameters_loop bytes (S len) 0 1 len;
      match len with
      | O => Some Throws
      | S len =>
          ch ← load bytes p;
          let p := p + 1 in
          if negb (ch =? JVM_SIGNATURE_ENDFUNC) then Some Throws
          else if bool_decide (head name = Some LESS) then
            ch ← load bytes p;
            if (Z.of_nat len =? 1) && (ch =? JVM_SIGNATURE_VOID) then Some (Returns (s32 args_size)) else Some Throws
          else
            CHECK nextp ← skip_over_field_signature bytes true 0 len p;
            if bool_decide (nextp = Some (p + Z.of_nat len)) then Some (Returns (s32 args_size)) else Some Throws
      end
  end.
End checks.

(** ** Modifiers *)

Abbreviation JVM_ACC_PUBLIC := 0x1.
Abbreviation JVM_ACC_PRIVATE := 0x2.
Abbreviation JVM_ACC_PROTECTED := 0x4.
Abbreviation JVM_ACC_STATIC := 0x8.
Abbreviation JVM_ACC_FINAL := 0x10.
Abbreviation JVM_ACC_SYNCHRONIZED := 0x20.
Abbreviation JVM_ACC_SUPER := 0x20.
Abbreviation JVM_ACC_VOLATILE := 0x40.
Abbreviation JVM_ACC_BRIDGE := 0x40.
Abbreviation JVM_ACC_TRANSIENT := 0x80.
Abbreviation JVM_ACC_NATIVE := 0x100.
Abbreviation JVM_ACC_INTERFACE := 0x200.
Abbreviation JVM_ACC_ABSTRACT := 0x400.
Abbreviation JVM_ACC_STRICT := 0x800.
Abbreviation JVM_ACC_ANNOTATION := 0x2000.
Abbreviation JVM_ACC_ENUM := 0x4000.

(** [(flags & bit) != 0]. *)
Abbreviation flag flags bit := (negb ((flags &&& bit) =? 0)).

Definition verify_legal_class_modifiers (parser : ClassFileParser) (flags : Z) : option (checked unit) :=
  if negb (_need_verify parser) then Some (Returns tt) else
  let is_interface := flag flags JVM_ACC_INTERFACE in
  let is_abstract := flag flags JVM_ACC_ABSTRACT in
  let is_final := flag flags JVM_ACC_FINAL in
  let is_super := flag flags JVM_ACC_SUPER in
  let is_enum := flag flags JVM_ACC_ENUM in
  let is_annotation := flag flags JVM_ACC_ANNOTATION in
  let major_gte_15 := _major_version parser >=? JAVA_1_5_VERSION in
  throw_unless (negb ((is_abstract && is_final) || (is_interface && negb is_abstract) ||
    (is_interface && major_gte_15 && (is_super || is_enum)) || (negb is_interface && major_gte_15 && is_annotation))).

Definition has_illegal_visibility (flags : Z) : bool :=
  let is_public := flag flags JVM_ACC_PUBLIC in
  let is_protected := flag flags JVM_ACC_PROTECTED in
  let is_private := flag flags JVM_ACC_PRIVATE in
  (is_public && is_protected) || (is_public && is_private) || (is_protected && is_private).

Definition verify_legal_field_modifiers (parser : ClassFileParser) (flags : Z) (is_interface : bool) : option (checked unit) :=
  if negb (_need_verify parser) then Some (Returns tt) else
  let is_public := flag flags JVM_ACC_PUBLIC in
  let is_protected := flag flags JVM_ACC_PROTECTED in
  let is_private := flag flags JVM_ACC_PRIVATE in
  let is_static := flag flags JVM_ACC_STATIC in
  let is_final := flag flags JVM_ACC_FINAL in
  let is_volatile := flag flags JVM_ACC_VOLATILE in
  let is_transient := flag flags JVM_ACC_TRANSIENT in
  let is_enum := flag flags JVM_ACC_ENUM in
  let major_gte_15 := _major_version parser >=? JAVA_1_5_VERSION in
  let is_illegal :=
    if is_interface then
      negb is_public || negb is_static || negb is_final || is_private || is_protected || is_volatile || is_transient ||
      (major_gte_15 && is_enum)
    else has_illegal_visibility flags || (is_final && is_volatile) in
  throw_unless (negb is_illegal).

Definition verify_legal_method_modifiers (parser : ClassFileParser) (flags : Z) (is_interface : bool) (name : list Z)
    : option (checked unit) :=
  if negb (_need_verify parser) then Some (Returns tt) else
  let is_public := flag flags JVM_ACC_PUBLIC in
  let is_private := flag flags JVM_ACC_PRIVATE in
  let is_static := flag flags JVM_ACC_STATIC in
  let is_final := flag flags JVM_ACC_FINAL in
  let is_native := flag flags JVM_ACC_NATIVE in
  let is_abstract := flag flags JVM_ACC_ABSTRACT in
  let is_bridge := flag flags JVM_ACC_BRIDGE in
  let is_strict := flag flags JVM_ACC_STRICT in
  let is_synchronized := flag flags JVM_ACC_SYNCHRONIZED in
  let major_gte_15 := _major_version parser >=? JAVA_1_5_VERSION in
  let is_initializer := bool_decide (name = object_initializer_name) in
  let is_illegal :=
    if is_interface then
      negb is_abstract || negb is_public || is_static || is_final || is_native ||
      (major_gte_15 && (is_synchronized || is_strict))
    else if is_initializer then
      is_static || is_final || is_synchronized || is_native || is_abstract || (major_gte_15 && is_bridge)
    else
      (is_abstract && (is_final || is_native || is_private || is_static || (major_gte_15 && (is_synchronized || is_strict)))) ||
      has_illegal_visibility flags in
  throw_unless (negb is_illegal).

(** * Strings *)

(** What the check accepts: characters of one, two and three bytes without zero bytes,
    and in class files of version 48 and later each in its shortest form. *)
Inductive utf8_text (major : Z) : list Z -> Prop :=
| text_nil : utf8_text major []
| text_one b s : 0 < b < 128 -> utf8_text major s -> utf8_text major (b :: s)
| text_two b0 b1 s :
    192 <= b0 < 224 -> 128 <= b1 < 192 ->
    (47 < major -> (b0 - 192) * 64 + (b1 - 128) = 0 \/ 128 <= (b0 - 192) * 64 + (b1 - 128)) ->
    utf8_text major s -> utf8_text major (b0 :: b1 :: s)
| text_three b0 b1 b2 s :
    224 <= b0 < 240 -> 128 <= b1 < 192 -> 128 <= b2 < 192 ->
    (47 < major -> 2048 <= (b0 - 224) * 4096 + (b1 - 128) * 64 + (b2 - 128)) ->
    utf8_text major s -> utf8_text major (b0 :: b1 :: b2 :: s).

Hint Constructors utf8_text : core.

(** Byte [k] of the rest of a buffer. *)
Lemma load_rest (pre s : list Z) (k : nat) (i v : Z) : s !! k = Some v -> i = zlen pre + Z.of_nat k -> load (pre ++ s) i = Some v.
Proof. intros Hk ->. rewrite <- (app_nil_r s). by apply load_within with (k := k). Qed.

(** The highest bit of a byte of the first loop. *)
Lemma high_bit x : u8 x < 128 -> Z.testbit x 7 = false.
Proof.
  intros H. apply Z.testbit_false; [done|]. change (2 ^ 7) with 128. unfold wrapu in H.
  change (2 ^ 8) with 256 in H. Z.div_mod_to_equations. lia.
Qed.

Lemma ascii_byte b : is_u 8 b -> Z.testbit b 7 = false -> Z.testbit (b - 1) 7 = false -> 0 < b < 128.
Proof.
  unfold is_u. intros Hb H1%Z.testbit_false H2%Z.testbit_false; [|done..]. change (2 ^ 7) with 128 in *.
  change (2 ^ 8) with 256 in *. Z.div_mod_to_equations. lia.
Qed.

Lemma text_ascii major l s : Forall (fun b => 0 < b < 128) l -> utf8_text major (l ++ s) <-> utf8_text major s.
Proof.
  induction 1 as [|b l Hb _ IH]; [done|]. cbn [app]. rewrite <- IH. split; [|by constructor].
  inversion 1; subst; [done|lia..].
Qed.

(** The first loop stops after ASCII characters. *)
Lemma skip_ascii_ok count pre s :
  Forall (is_u 8) s -> 4 * Z.of_nat count <= zlen s ->
  exists l s', s = l ++ s' /\ Forall (fun b => 0 < b < 128) l /\
    skip_ascii (pre ++ s) (zlen pre) count = Some (zlen (pre ++ l)).
Proof.
  revert pre s. induction count as [|count IH]; intros pre s Hs Hlen.
  { exists [], s. by rewrite app_nil_r. }
  destruct s as [|b0 [|b1 [|b2 [|b3 s]]]]; cbn [length] in Hlen; try lia. cbn [skip_ascii].
  rewrite (load_rest pre _ 0 (zlen pre) b0), (load_rest pre _ 1 (zlen pre + 1) b1), (load_rest pre _ 2 (zlen pre + 2) b2),
    (load_rest pre _ 3 (zlen pre + 3) b3) by (done || lia).
  cbn [mbind option_bind]. destruct (Z.geb_spec (u8 (b0 ||| (b0 - 1) ||| b1 ||| (b1 - 1) ||| b2 ||| (b2 - 1) ||| b3 ||| (b3 - 1))) 128) as [|Hlt].
  { exists [], (b0 :: b1 :: b2 :: b3 :: s). by rewrite app_nil_r. }
  apply high_bit in Hlt. rewrite !Z.lor_spec, !orb_false_iff in Hlt. destruct_and! Hlt.
  rewrite !Forall_cons in Hs. destruct_and! Hs.
  destruct (IH (pre ++ [b0; b1; b2; b3]) s) as (l & s' & -> & Hl & E); [done|lia|].
  exists ([b0; b1; b2; b3] ++ l), s'. split; [done|]. split.
  { repeat constructor; try done; by apply ascii_byte. }
  rewrite <- app_assoc in E. cbn [app] in E. rewrite app_assoc. rewrite <- E. f_equal. rewrite length_app. cbn. lia.
Qed.

(** One character of several bytes. *)
Definition multibyte (major : Z) (l : list Z) : Prop :=
  match l with
  | [b0; b1] => 192 <= b0 < 224 /\ 128 <= b1 < 192 /\
      (47 < major -> (b0 - 192) * 64 + (b1 - 128) = 0 \/ 128 <= (b0 - 192) * 64 + (b1 - 128))
  | [b0; b1; b2] => 224 <= b0 < 240 /\ 128 <= b1 < 192 /\ 128 <= b2 < 192 /\
      (47 < major -> 2048 <= (b0 - 224) * 4096 + (b1 - 128) * 64 + (b2 - 128))
  | _ => False
  end.

Lemma text_multibyte major l s : multibyte major l -> utf8_text major (l ++ s) <-> utf8_text major s.
Proof.
  destruct l as [|b0 [|b1 [|b2 [|]]]]; try done; cbn [multibyte app]; intros; destruct_and!;
    (split; [inversion 1; subst; (done || lia)|]); constructor; done.
Qed.

Lemma text_starts major b s :
  utf8_text major (b :: s) -> 128 <= b -> exists l s', b :: s = l ++ s' /\ multibyte major l.
Proof.
  inversion 1; subst; intros; [lia| |].
  - by exists [b; b1], s0.
  - by exists [b; b1; b2], s0.
Qed.

Lemma check_multibyte_ok major pre b s :
  Forall (is_u 8) (b :: s) -> 128 <= b ->
  exists r, check_multibyte major (pre ++ b :: s) (zlen (pre ++ b :: s)) (zlen pre) b = Some r /\
    match r with
    | Returns i => exists l s', b :: s = l ++ s' /\ multibyte major l /\ i + 1 = zlen (pre ++ l)
    | Throws => ~ utf8_text major (b :: s)
    end.
Proof.
  intros [Hb Hs]%Forall_cons Hge. unfold check_multibyte. rewrite byte_hi, length_app. cbn [length].
  assert (Hr : b < 256) by (unfold is_u in Hb; lia).
  destruct ((b / 16 =? 8) || (b / 16 =? 9) || (b / 16 =? 10) || (b / 16 =? 11) || (b / 16 =? 15)) eqn:E1.
  { eexists. split; [done|]. inversion 1; subst; try lia; Z.div_mod_to_equations; lia. }
  destruct ((b / 16 =? 12) || (b / 16 =? 13)) eqn:E2; [|destruct (b / 16 =? 14) eqn:E3].
  - assert (192 <= b < 224) by (Z.div_mod_to_equations; lia). destruct s as [|b1 s]; cbn [length].
    { rewrite (proj2 (Z.ltb_ge _ _)) by lia. eexists. split; [done|]. inversion 1; subst; lia. }
    rewrite (proj2 (Z.ltb_lt _ _)) by lia. rewrite (load_rest pre _ 1 _ b1) by (done || lia). cbn [mbind option_bind].
    apply Forall_cons in Hs as [Hb1 _]. rewrite cont_test by done. case_bool_decide as Hc1.
    2:{ eexists. split; [done|]. inversion 1; subst; lia. }
    rewrite low_six, (land_field 0x1F 0 5), Z.shiftl_mul_pow2 by done.
    replace (u16 (u16 _ + _)) with ((b - 192) * 64 + (b1 - 128)) by int_lia.
    eexists. split; [done|]. match goal with |- context [if ?c then Returns _ else _] => destruct c eqn:E4 end; [|inversion 1; subst; lia].
    exists [b; b1], s. split; [done|]. split; [cbn; lia|]. rewrite length_app. cbn. lia.
  - assert (224 <= b < 240) by (Z.div_mod_to_equations; lia). destruct s as [|b1 [|b2 s]]; cbn [length].
    1,2: rewrite (proj2 (Z.ltb_ge _ _)) by lia; eexists; split; [done|]; inversion 1; subst; lia.
    rewrite (proj2 (Z.ltb_lt _ _)) by lia. rewrite (load_rest pre _ 1 (zlen pre + 2 - 1) b1) by (done || lia). cbn [mbind option_bind].
    rewrite !Forall_cons in Hs. destruct Hs as (Hb1 & Hb2 & _). rewrite (cont_test b1) by done. case_bool_decide as Hc1.
    2:{ eexists. split; [done|]. inversion 1; subst; lia. }
    rewrite (load_rest pre _ 2 (zlen pre + 2) b2) by (done || lia). cbn [mbind option_bind].
    rewrite (cont_test b2) by done. case_bool_decide as Hc2.
    2:{ eexists. split; [done|]. inversion 1; subst; lia. }
    rewrite !low_six, (land_field 0xF 0 4), !Z.shiftl_mul_pow2 by done.
    replace (u16 (u16 _ + _)) with ((b - 224) * 4096 + (b1 - 128) * 64 + (b2 - 128)) by int_lia.
    eexists. split; [done|]. match goal with |- context [if ?c then Returns _ else _] => destruct c eqn:E4 end; [|inversion 1; subst; lia].
    exists [b; b1; b2], s. split; [done|]. split; [cbn; lia|]. rewrite length_app. cbn. lia.
  - Z.div_mod_to_equations. lia.
Qed.

(** The six bytes of a surrogate pair are two characters. *)
Lemma supplementary_bytes major pre s :
  Forall (is_u 8) s -> 6 <= zlen s ->
  exists supplementary, UTF8.is_supplementary_character (pre ++ s) (zlen pre) = Some supplementary /\
  (supplementary = true -> (exists c, UTF8.get_supplementary_character (pre ++ s) (zlen pre) = Some c) /\
   exists l1 l2 s', s = l1 ++ l2 ++ s' /\ multibyte major l1 /\ multibyte major l2 /\ zlen (l1 ++ l2) = 6).
Proof.
  destruct s as [|b0 [|b1 [|b2 [|b3 [|b4 [|b5 s]]]]]]; cbn [length]; try lia. intros Hs _.
  rewrite !Forall_cons in Hs. destruct Hs as (H0 & H1 & H2 & H3 & H4 & H5 & _).
  unfold UTF8.is_supplementary_character, UTF8.get_supplementary_character. set (s6 := _ :: _).
  rewrite (load_rest pre s6 0 (zlen pre + 0) b0), (load_rest pre s6 1 (zlen pre + 1) b1), (load_rest pre s6 2 (zlen pre + 2) b2),
    (load_rest pre s6 3 (zlen pre + 3) b3), (load_rest pre s6 4 (zlen pre + 4) b4), (load_rest pre s6 5 (zlen pre + 5) b5)
    by (done || lia).
  cbn [mbind option_bind].
  rewrite (test_ED b0), (test_hi_nibble b1 0xA 0xA0), (cont_test b2), (test_ED b3), (test_hi_nibble b4 0xB 0xB0), (cont_test b5)
    by (done || int_lia).
  repeat case_bool_decide; eexists; (split; [done|]); try done. intros _. split; [by eexists|].
  exists [b0; b1; b2], [b3; b4; b5], s. split; [done|].
  subst b0 b3. cbn. split_and!; try done; Z.div_mod_to_equations; lia.
Qed.

Lemma check_utf8_ok major fuel pre s :
  Forall (is_u 8) s -> (length s < fuel)%nat ->
  exists o, check_utf8 major (pre ++ s) (zlen (pre ++ s)) fuel (zlen pre) = Some o /\
            (o = Returns tt <-> utf8_text major s).
Proof.
  revert pre s. induction fuel as [|fuel IH]; intros pre s Hs Hf; [lia|]. cbn [check_utf8].
  destruct s as [|b s].
  { rewrite app_nil_r, Z.ltb_irrefl. eexists. split; [done|]. split; auto. }
  assert (Hlen : zlen (pre ++ b :: s) = zlen pre + 1 + zlen s) by (rewrite length_app; cbn; lia).
  rewrite (proj2 (Z.ltb_lt _ _)) by lia. cbn [negb]. rewrite load_app_mid. cbn [mbind option_bind].
  assert (Hnext : forall l s', b :: s = l ++ s' -> (0 < length l)%nat -> (utf8_text major (b :: s) <-> utf8_text major s') ->
    forall i, i = zlen (pre ++ l) -> exists o, check_utf8 major (pre ++ b :: s) (zlen (pre ++ b :: s)) fuel i = Some o /\
      (o = Returns tt <-> utf8_text major (b :: s))).
  { intros l s' E Hl Hiff i ->. destruct (IH (pre ++ l) s') as (o & Ho & Hiff').
    - rewrite E in Hs. by apply Forall_app in Hs as [_ ?].
    - apply (f_equal length) in E. rewrite length_app in E. cbn [length] in *. lia.
    - exists o. rewrite Hiff. rewrite <- app_assoc, <- E in Ho. done. }
  destruct (Z.eqb_spec b 0) as [->|].
  { eexists. split; [done|]. split; [done|]. inversion 1; subst; lia. }
  pose proof Hs as [Hb _]%Forall_cons. destruct (Z.ltb_spec b 128).
  { apply (Hnext [b] s); [done|cbn; lia| |rewrite length_app; cbn; lia].
    apply (text_ascii major [b] s). constructor; [unfold is_u in Hb; lia|done]. }
  match goal with |- context [mbind _ ?e] => set (supp := e) end.
  assert (Hsupp : supp = Some false \/ supp = Some true /\
    (exists c, UTF8.get_supplementary_character (pre ++ b :: s) (zlen pre) = Some c) /\
    exists l1 l2 s', b :: s = l1 ++ l2 ++ s' /\ multibyte major l1 /\ multibyte major l2 /\ zlen (l1 ++ l2) = 6).
  { unfold supp. destruct (Z.ltb_spec (zlen pre + 5) (zlen (pre ++ b :: s))); [|by left].
    destruct (supplementary_bytes major pre (b :: s) Hs) as ([] & -> & H6); [cbn; lia|auto..]. }
  clearbody supp. destruct Hsupp as [->|(-> & [c ->] & l1 & l2 & s' & E & M1 & M2 & H6)]; cbn [mbind option_bind].
  - destruct (check_multibyte_ok major pre b s Hs) as (o & -> & Ho); [done|].
    destruct o as [i|]; [|by eexists; split; [done|split]]. destruct Ho as (l & s' & E & Hm & Hi). apply (Hnext l s'); try done.
    + destruct l; [done|cbn; lia].
    + rewrite E. by apply text_multibyte.
  - apply (Hnext (l1 ++ l2) s'); [by rewrite <- app_assoc|lia| |rewrite length_app; lia].
    rewrite E. by rewrite !text_multibyte.
Qed.

(** For version 48 and later, the texts are the modified UTF-8 encodings. *)
Lemma text_encode major u : jchars u -> utf8_text major (encode u).
Proof.
  induction 1 as [|c u Hc _ IH]; [done|]. rewrite encode_cons. unfold is_u in Hc. unfold utf8_bytes.
  case_decide; [|case_decide]; cbn [app].
  - constructor; [lia|done].
  - constructor; [int_lia..|done].
  - constructor; [int_lia..|done].
Qed.

Lemma text_decode major s :
  47 < major -> utf8_text major s -> exists u, jchars u /\ s = encode u.
Proof.
  intros Hm. induction 1 as [|b s Hb _ (u & Hu & ->)|b0 b1 s H0 H1 Hc _ (u & Hu & ->)|b0 b1 b2 s H0 H1 H2 Hc _ (u & Hu & ->)].
  - by exists [].
  - exists (b :: u). split; [constructor; [int_lia|done]|]. rewrite encode_cons. unfold utf8_bytes.
    by rewrite decide_True by lia.
  - specialize (Hc Hm). exists (((b0 - 192) * 64 + (b1 - 128)) :: u). split; [constructor; [int_lia|done]|].
    rewrite encode_cons. unfold utf8_bytes. rewrite decide_False, decide_True by lia. cbn [app].
    f_equal; [int_lia|f_equal; int_lia].
  - specialize (Hc Hm). exists (((b0 - 224) * 4096 + (b1 - 128) * 64 + (b2 - 128)) :: u). split; [constructor; [int_lia|done]|].
    rewrite encode_cons. unfold utf8_bytes. rewrite !decide_False by lia. cbn [app].
    f_equal; [int_lia|f_equal; [int_lia|f_equal; int_lia]].
Qed.

Lemma verify_utf8_ok parser s :
  Forall (is_u 8) s -> _need_verify parser = true ->
  exists o, verify_legal_utf8 parser s (zlen s) = Some o /\
            (o = Returns tt <-> utf8_text (_major_version parser) s).
Proof.
  intros Hs Hv. unfold verify_legal_utf8. rewrite Hv.
  destruct (skip_ascii_ok (Z.to_nat (zlen s ≫ 2)) [] s Hs) as (l & s' & -> & Hl & E).
  { rewrite Z.shiftr_div_pow2 by done. change (2 ^ 2) with 4. Z.div_mod_to_equations. lia. }
  cbn [app length] in E. change (Z.of_nat 0) with 0 in E. rewrite E. cbn [mbind option_bind].
  destruct (check_utf8_ok (_major_version parser) (S (Z.to_nat (zlen (l ++ s')))) l s') as (o & Ho & Hiff).
  - by apply Forall_app in Hs as [_ ?].
  - rewrite length_app. lia.
  - exists o. by rewrite (text_ascii _ l s' Hl).
Qed.

(** * Names *)

(** The characters that an unqualified name may not have. *)
Definition forbidden (type : name_kind) (c : Z) : bool :=
  (c =? DOT) || (c =? SEMICOLON) ||
  match type with
  | LegalClass => false
  | LegalField => c =? SLASH
  | LegalMethod => (c =? SLASH) || (c =? LESS) || (c =? GREATER)
  end.

Lemma forbidden_ascii type c : forbidden type c = true -> 0 < c < 128.
Proof. unfold forbidden. destruct type; lia. Qed.

(** One round of the loop. *)
Lemma unqualified_step name length type fuel p ch :
  p <> length -> load name p = Some ch ->
  verify_unqualified_name name length type (S fuel) p =
    if ch <? 128 then if forbidden type ch then Some false else verify_unqualified_name name length type fuel (p + 1)
    else '(_, p) ← UTF8.next name p; verify_unqualified_name name length type fuel p.
Proof.
  intros Hp Hl. cbn [verify_unqualified_name]. rewrite (proj2 (Z.eqb_neq _ _)), Hl by done. cbn [mbind option_bind].
  destruct (ch <? 128); [|done]. unfold forbidden. destruct ((ch =? DOT) || (ch =? SEMICOLON)); [done|]. by destruct type.
Qed.

(** The loop ends within every buffer, whatever its bytes. *)
Lemma unqualified_total s type fuel p :
  Forall (is_u 8) s -> 0 <= p <= zlen s -> zlen s - p < Z.of_nat fuel ->
  exists b, verify_unqualified_name (s ++ [0]) (zlen s) type fuel p = Some b.
Proof.
  intros Hs. revert p. induction fuel as [|fuel IH]; intros p Hp Hf; [lia|].
  destruct (Z.eq_dec p (zlen s)) as [->|Hne]; [cbn; rewrite Z.eqb_refl; by eexists|].
  destruct (load_terminated s p Hp) as (ch & Hch & _). rewrite (unqualified_step _ _ _ _ _ ch) by done.
  destruct (ch <? 128); [destruct (forbidden type ch); [by eexists|apply IH; lia]|].
  destruct (next_terminated s p Hs Hp) as (v & p' & -> & Hlt & Hend). cbn [mbind option_bind]. apply IH; lia.
Qed.

Lemma unqualified_ok type u pre fuel :
  jchars u -> (length (encode u) < fuel)%nat ->
  verify_unqualified_name (pre ++ encode u ++ [0]) (zlen (pre ++ encode u)) type fuel (zlen pre) =
    Some (negb (existsb (forbidden type) u)).
Proof.
  intros Hu. revert pre fuel. induction Hu as [|c u Hc Hu IH]; intros pre fuel Hf.
  { destruct fuel; [cbn in Hf; lia|]. cbn. by rewrite app_nil_r, Z.eqb_refl. }
  rewrite encode_cons in *. rewrite length_app in Hf. destruct fuel as [|fuel]; [lia|].
  assert (Hbytes : utf8_bytes c = [c] /\ 0 < c < 128 \/ exists b l, utf8_bytes c = b :: l /\ 128 <= b /\ ~ 0 < c < 128).
  { unfold utf8_bytes, is_u in *. case_decide; [left; by split; [|lia]|right].
    case_decide; eexists _, _; (split; [done|]); int_lia. }
  specialize (IH (pre ++ utf8_bytes c) fuel). rewrite <- !app_assoc in *.
  destruct Hbytes as [[E Ha]|(b & l & E & Hb & Ha)].
  - rewrite (unqualified_step _ _ _ _ _ c); [|rewrite !length_app, E; cbn; lia|rewrite E; apply load_app_mid].
    rewrite (proj2 (Z.ltb_lt _ _)) by lia. cbn [existsb]. destruct (forbidden type c); [done|].
    cbn [orb]. rewrite E in *. replace (zlen pre + 1) with (zlen (pre ++ [c])) by (rewrite length_app; cbn; lia).
    apply IH. cbn in Hf. lia.
  - rewrite (unqualified_step _ _ _ _ _ b); [|rewrite !length_app, E; cbn; lia|rewrite E; apply load_app_mid].
    rewrite (proj2 (Z.ltb_ge _ _)) by lia. rewrite next_spec by done. cbn [mbind option_bind existsb].
    destruct (forbidden type c) eqn:Ef; [by apply forbidden_ascii in Ef|].
    cbn [orb]. replace (zlen pre + zlen (utf8_bytes c)) with (zlen (pre ++ utf8_bytes c)) by (rewrite length_app; lia).
    apply IH. rewrite E in Hf. cbn in Hf. lia.
Qed.

(** A string of Unicode characters as bytes. *)
Definition text (cps : list Z) : list Z := encode (cps ≫= utf16).

Lemma text_cons c cps : text (c :: cps) = encode (utf16 c) ++ text cps.
Proof. unfold text. cbn. apply encode_app. Qed.

Lemma utf16_bytes c :
  is_scalar c ->
  encode (utf16 c) = [c] /\ 0 < c < 128 \/
  exists b l, encode (utf16 c) = b :: l /\ 128 <= b /\ ~ 0 < c < 128.
Proof.
  intros Hc. unfold is_scalar in Hc. destruct (decide (c < 0x10000)).
  - assert (utf16 c = [c]) as -> by (unfold utf16; by rewrite decide_True). rewrite encode_cons. cbn [encode mbind list_bind].
    rewrite app_nil_r. unfold utf8_bytes. case_decide; [left; by split; [|lia]|right].
    case_decide; eexists _, _; (split; [done|]); int_lia.
  - right. rewrite encode_supplementary by lia. eexists _, _. split; [done|]. lia.
Qed.

Lemma utf16_high c : is_scalar c -> ~ 0 < c < 128 -> Forall (fun b => 128 <= b) (encode (utf16 c)).
Proof.
  intros Hc Hn. unfold is_scalar in Hc. destruct (decide (c < 0x10000)).
  - assert (utf16 c = [c]) as -> by (unfold utf16; by rewrite decide_True). rewrite encode_cons. cbn [encode mbind list_bind].
    rewrite app_nil_r. unfold utf8_bytes. rewrite decide_False by lia. case_decide; repeat constructor; int_lia.
  - rewrite encode_supplementary by lia. repeat constructor; int_lia.
Qed.

Lemma text_app cps1 cps2 : text (cps1 ++ cps2) = text cps1 ++ text cps2.
Proof. unfold text. by rewrite bind_app, encode_app. Qed.

(** An ASCII byte at the end of a text is its last character. *)
Lemma text_last cps l b : Forall is_scalar cps -> text cps = l ++ [b] -> b < 128 -> exists cps', cps = cps' ++ [b].
Proof.
  intros Hc E Hb. destruct cps as [|c cps' _] using rev_ind; [by destruct l|]. apply Forall_app in Hc as [_ [Hc _]%Forall_cons].
  rewrite text_app in E. exists cps'. do 2 f_equal. unfold text in E. cbn [mbind list_bind] in E. rewrite app_nil_r in E.
  destruct (decide (0 < c < 128)).
  - destruct (utf16_bytes c Hc) as [[E' _]|(? & ? & _ & _ & ?)]; [|done]. rewrite E' in E. by apply app_inj_tail in E as [_ ?].
  - pose proof (utf16_high c Hc n) as Hh. destruct (encode (utf16 c)) as [|x m _] eqn:E' using rev_ind.
    + by destruct (utf16_bytes c Hc) as [[E2 _]|(? & ? & E2 & _)]; rewrite E' in E2.
    + rewrite app_assoc in E. apply app_inj_tail in E as [_ ->]. apply Forall_app in Hh as [_ [? _]%Forall_cons]. lia.
Qed.

(** Names of older class files: identifiers as Java defines them, with an exception of the
    Java methods as a character that is not part of one. *)
Section identifiers.
Context (isJavaIdentifierStart isJavaIdentifierPart : Z -> option bool).

Definition ascii_letter (c : Z) : bool :=
  ((97 <=? c) && (c <=? 122)) || ((65 <=? c) && (c <=? 90)) || ((c =? 95) || (c =? 36)).

Definition ident_start (c : Z) : bool :=
  if (0 <? c) && (c <? 128) then ascii_letter c else bool_decide (isJavaIdentifierStart c = Some true).

Definition ident_part (c : Z) : bool :=
  if (0 <? c) && (c <? 128) then ascii_letter c || ((48 <=? c) && (c <=? 57))
  else bool_decide (isJavaIdentifierStart c = Some true) ||
       (bool_decide (isJavaIdentifierStart c = Some false) && bool_decide (isJavaIdentifierPart c = Some true)).

(** The loop on characters instead of bytes. *)
Fixpoint name_accepted (slash_ok last_is_slash not_first_ch : bool) (cps : list Z) : bool :=
  match cps with
  | [] => not_first_ch
  | c :: cps =>
      if (if not_first_ch then ident_part c else ident_start c) then name_accepted slash_ok false true cps
      else slash_ok && (c =? SLASH) && negb last_is_slash && name_accepted slash_ok true true cps
  end.

Lemma field_name_step pre c suf slash_ok name_end fuel (last nf : bool) :
  is_scalar c -> zlen pre < name_end ->
  let skip := skip_over_field_name isJavaIdentifierStart isJavaIdentifierPart (pre ++ encode (utf16 c) ++ suf) slash_ok name_end in
  let p := zlen (pre ++ encode (utf16 c)) in
  if (if nf then ident_part c else ident_start c) then skip (S fuel) (zlen pre) last nf = skip fuel p false true
  else if slash_ok && (c =? SLASH) && negb last then skip (S fuel) (zlen pre) last nf = skip fuel p true true
  else exists o, skip (S fuel) (zlen pre) last nf = Some o /\ (forall q, o = Some q -> q = zlen pre).
Proof.
  intros Hc Hend. cbv zeta. cbn [skip_over_field_name]. rewrite (proj2 (Z.eqb_neq _ _)) by lia.
  pose proof (next_character_scalar pre suf c Hc) as Hnext.
  assert (Hno : exists o, Some (if nf then Some (zlen pre) else None) = Some o /\ (forall q, o = Some q -> q = zlen pre)).
  { eexists. split; [done|]. by destruct nf; intros q [= <-]. }
  unfold ident_start, ident_part. destruct (utf16_bytes c Hc) as [[E Ha]|(b & l & E & Hb & Ha)].
  - rewrite E in *. cbn [app] in *. rewrite load_app_mid. cbn [mbind option_bind]. rewrite (proj2 (Z.ltb_lt c 128)), (proj2 (Z.ltb_lt 0 c)) by lia.
    cbn [andb]. rewrite length_app. change (length [c]) with 1%nat. rewrite Nat2Z.inj_add. change (Z.of_nat 1) with 1.
    fold (ascii_letter c). destruct (ascii_letter c) eqn:El; cbn [orb]; [by destruct nf|].
    destruct nf; cbn [andb]; [destruct ((48 <=? c) && (c <=? 57)); [done|]|];
      (destruct (slash_ok && (c =? SLASH)); cbn [andb]; [destruct last; cbn [negb]; [by eexists|done]|done]).
  - rewrite E in *. cbn [app] in *. rewrite load_app_mid. cbn [mbind option_bind]. rewrite (proj2 (Z.ltb_ge b 128)) by lia.
    rewrite Hnext. cbn [mbind option_bind]. rewrite length_app, Nat2Z.inj_add.
    replace ((0 <? c) && (c <? 128)) with false by lia. replace (c =? SLASH) with false by lia. rewrite andb_false_r. cbn [andb].
    destruct (isJavaIdentifierStart c) as [[]|]; [by destruct nf| |].
    + destruct nf; [|done]. destruct (isJavaIdentifierPart c) as [[]|]; try done. by eexists.
    + destruct nf; by eexists.
Qed.

(** The name may end at the end of the text or at a ';' behind it. *)
Lemma field_name_accepted cps stop pre slash_ok fuel (last nf : bool) :
  Forall is_scalar cps -> stop = [] \/ stop = [SEMICOLON] -> (length (text cps) < fuel)%nat ->
  exists o, skip_over_field_name isJavaIdentifierStart isJavaIdentifierPart (pre ++ text cps ++ stop ++ [0]) slash_ok
              (zlen (pre ++ text cps ++ stop)) fuel (zlen pre) last nf = Some o /\
            (o = Some (zlen (pre ++ text cps)) <-> name_accepted slash_ok last nf cps = true) /\
            (forall q, o = Some q -> zlen pre <= q <= zlen (pre ++ text cps)).
Proof.
  intros Hc Hstop. revert pre fuel last nf. induction Hc as [|c cps Hc Hcps IH]; intros pre fuel last nf Hf.
  { destruct fuel as [|fuel]; [cbn in Hf; lia|]. exists (if nf then Some (zlen pre) else None).
    cbn [text encode mbind list_bind app name_accepted skip_over_field_name]. rewrite app_nil_r. split; [|by destruct nf; naive_solver lia].
    destruct Hstop as [-> | ->]; cbn [app]; [by rewrite app_nil_r, Z.eqb_refl|].
    rewrite (proj2 (Z.eqb_neq _ _)) by (rewrite length_app; cbn; lia). rewrite load_app_mid. cbn. by rewrite ?andb_false_r. }
  rewrite text_cons in *. rewrite length_app in Hf. destruct fuel as [|fuel]; [lia|].
  assert (Hlen : (0 < length (encode (utf16 c)))%nat).
  { destruct (utf16_bytes c Hc) as [[-> _]|(b & l & -> & _)]; cbn; lia. }
  pose proof (field_name_step pre c (text cps ++ stop ++ [0]) slash_ok (zlen (pre ++ (encode (utf16 c) ++ text cps) ++ stop)) fuel last nf Hc) as Hstep.
  specialize (IH (pre ++ encode (utf16 c)) fuel). rewrite <- !app_assoc in *. cbn [name_accepted].
  assert (Hend : zlen pre < zlen (pre ++ encode (utf16 c) ++ text cps ++ stop)) by (rewrite !length_app; lia).
  specialize (Hstep Hend). cbv zeta in Hstep.
  assert (Hgo : forall last, exists o, skip_over_field_name isJavaIdentifierStart isJavaIdentifierPart
    (pre ++ encode (utf16 c) ++ text cps ++ stop ++ [0]) slash_ok (zlen (pre ++ encode (utf16 c) ++ text cps ++ stop)) fuel
    (zlen (pre ++ encode (utf16 c))) last true = Some o /\
    (o = Some (zlen (pre ++ encode (utf16 c) ++ text cps)) <-> name_accepted slash_ok last true cps = true) /\
    (forall q, o = Some q -> zlen pre <= q <= zlen (pre ++ encode (utf16 c) ++ text cps))).
  { intros last'. destruct (IH last' true ltac:(lia)) as (o & Ho & Hiff & Hq). exists o. split; [done|]. split; [done|].
    intros q Eq. specialize (Hq q Eq). rewrite length_app in Hq. lia. }
  destruct (if nf then ident_part c else ident_start c); [by rewrite Hstep|].
  destruct (slash_ok && (c =? SLASH) && negb last); [by rewrite Hstep|].
  destruct Hstep as (o & Ho & Hne). exists o. split; [done|]. rewrite !length_app.
  split; [split; [|done]|]; intros; [specialize (Hne _ H)|specialize (Hne q H)]; lia.
Qed.

(** No two slashes in a row. *)
Definition no_double_slash (cps : list Z) : Prop := forall i, ~ (cps !! i = Some SLASH /\ cps !! S i = Some SLASH).

(** What a name of an older class file is: it starts with a letter, goes on with letters and
    digits, and has single slashes where they are allowed. *)
Definition legal_name (slash_ok : bool) (cps : list Z) : Prop :=
  (exists c rest, cps = c :: rest /\ (ident_start c = true \/ slash_ok = true /\ c = SLASH) /\
    Forall (fun c => ident_part c = true \/ slash_ok = true /\ c = SLASH) rest) /\
  no_double_slash cps.

Lemma no_double_cons c cps : no_double_slash (c :: cps) <-> (c = SLASH -> head cps <> Some SLASH) /\ no_double_slash cps.
Proof using.
  unfold no_double_slash. split.
  - intros H. split; [intros -> Hh|intros i; apply (H (S i))]. apply (H 0%nat). by destruct cps.
  - intros [H0 H] [|i]; [|apply H]. cbn. intros [[= ->] E]. apply H0; [done|]. by destruct cps.
Qed.

Lemma rest_accepted slash_ok (last : bool) cps :
  name_accepted slash_ok last true cps = true <->
  Forall (fun c => ident_part c = true \/ slash_ok = true /\ c = SLASH) cps /\
  (last = true -> head cps <> Some SLASH) /\ no_double_slash cps.
Proof using Type*.
  revert last. induction cps as [|c cps IH]; intros last; cbn [name_accepted head].
  { split; [|done]. intros _. split; [done|]. split; [done|]. by intros i [? _]. }
  rewrite Forall_cons, no_double_cons. destruct (ident_part c) eqn:Ep.
  - assert (c <> SLASH) by (intros ->; done). rewrite IH. clear IH. naive_solver congruence.
  - rewrite !andb_true_iff, Z.eqb_eq, negb_true_iff, IH. clear IH. destruct last; naive_solver congruence.
Qed.

Lemma name_accepted_legal slash_ok cps : name_accepted slash_ok false false cps = true <-> legal_name slash_ok cps.
Proof using Type*.
  unfold legal_name. destruct cps as [|c cps]; cbn [name_accepted]; [naive_solver|].
  rewrite no_double_cons. destruct (ident_start c) eqn:Es.
  - assert (c <> SLASH) by (intros ->; done). rewrite rest_accepted. naive_solver congruence.
  - rewrite !andb_true_iff, Z.eqb_eq, rest_accepted. naive_solver congruence.
Qed.

(** Whatever the bytes are, the name ends within the buffer. *)
Lemma field_name_total s slash_ok fuel p (last nf : bool) :
  Forall (is_u 8) s -> 0 <= p <= zlen s -> zlen s - p < Z.of_nat fuel ->
  exists o, skip_over_field_name isJavaIdentifierStart isJavaIdentifierPart (s ++ [0]) slash_ok (zlen s) fuel p last nf = Some o /\
            (forall q, o = Some q -> p <= q <= zlen s).
Proof using Type*.
  intros Hs. revert p last nf. induction fuel as [|fuel IH]; intros p last nf Hp Hf; [lia|]. cbn [skip_over_field_name].
  assert (Hno : exists o, Some (if nf then Some p else None) = Some o /\ (forall q, o = Some q -> p <= q <= zlen s)).
  { eexists. split; [done|]. destruct nf; [|done]. intros q [= <-]. lia. }
  assert (Hnull : exists o : option Z, Some None = Some o /\ (forall q, o = Some q -> p <= q <= zlen s)) by by eexists.
  destruct (Z.eqb_spec p (zlen s)); [done|].
  assert (Hgo : forall p' last, p < p' -> p' <= zlen s ->
    exists o, skip_over_field_name isJavaIdentifierStart isJavaIdentifierPart (s ++ [0]) slash_ok (zlen s) fuel p' last true = Some o /\
      (forall q, o = Some q -> p <= q <= zlen s)).
  { intros p' last' H1 H2. destruct (IH p' last' true) as (o & -> & Ho); [lia..|]. eexists. split; [done|].
    intros q Hq. specialize (Ho q Hq). lia. }
  destruct (load_terminated s p Hp) as (ch & -> & _). cbn [mbind option_bind].
  destruct (ch <? 128).
  - repeat match goal with |- context [if ?c then _ else _] => destruct c; try (apply Hgo; lia); try done end.
  - destruct (next_character_terminated s p Hs Hp) as (v & p' & -> & Hlt & Hle). cbn [mbind option_bind].
    destruct (isJavaIdentifierStart v) as [[]|]; [apply Hgo; lia| |done].
    destruct nf; [|done]. destruct (isJavaIdentifierPart v) as [[]|]; [apply Hgo; lia|done..].
Qed.
End identifiers.

(** * Signatures *)

(** The descriptors of types and their text. *)
Inductive descriptor :=
| Base (c : Z)
| Object (name : list Z)
| Array (element : descriptor).

Fixpoint print (d : descriptor) : list Z :=
  match d with
  | Base c => [c]
  | Object name => JVM_SIGNATURE_CLASS :: name ++ [SEMICOLON]
  | Array d => JVM_SIGNATURE_ARRAY :: print d
  end.

Fixpoint dimensions (d : descriptor) : Z :=
  match d with Array d => 1 + dimensions d | _ => 0 end.

Definition base_types : list Z :=
  [JVM_SIGNATURE_BOOLEAN; JVM_SIGNATURE_BYTE; JVM_SIGNATURE_CHAR; JVM_SIGNATURE_SHORT; JVM_SIGNATURE_INT;
   JVM_SIGNATURE_FLOAT; JVM_SIGNATURE_LONG; JVM_SIGNATURE_DOUBLE].

Fixpoint well_formed (void_ok : bool) (d : descriptor) : Prop :=
  match d with
  | Base c => (c ∈ base_types) \/ void_ok = true /\ c = JVM_SIGNATURE_VOID
  | Object name => (SEMICOLON ∉ name) /\ (DOT ∉ name)
  | Array d => well_formed false d
  end.

(** A type that a class file may have: well formed, of at most 255 dimensions. *)
Definition legal_type (void_ok : bool) (d : descriptor) : Prop := well_formed void_ok d /\ dimensions d <= 255.

(** The slots of a parameter. *)
Definition slots (d : descriptor) : Z :=
  match d with
  | Base c => if (c =? JVM_SIGNATURE_LONG) || (c =? JVM_SIGNATURE_DOUBLE) then 2 else 1
  | _ => 1
  end.

Definition all_slots (ds : list descriptor) : Z := foldr (fun d n => slots d + n) 0 ds.

(** The text of a method's type. *)
Definition print_all (ds : list descriptor) : list Z := ds ≫= print.
Definition print_method (parameters : list descriptor) (result : descriptor) : list Z :=
  JVM_SIGNATURE_FUNC :: print_all parameters ++ JVM_SIGNATURE_ENDFUNC :: print result.

(** A parameter is counted by its first byte. *)
Lemma count_slots d pre rest args_size :
  exists c, load (pre ++ print d ++ rest) (zlen pre) = Some c /\
  (if (c =? JVM_SIGNATURE_LONG) || (c =? JVM_SIGNATURE_DOUBLE) then args_size + 1 + 1 else args_size + 1) = args_size + slots d /\
  (0 < length (print d))%nat.
Proof.
  destruct d; cbn [print app slots length]; rewrite load_app_mid; eexists; (split; [done|split; [|lia]]); [|done..].
  destruct (_ || _); lia.
Qed.

Lemma slots_range d : 1 <= slots d <= 2.
Proof. destruct d; cbn; [destruct (_ || _)|..]; lia. Qed.

Lemma all_slots_nonneg ds : 0 <= all_slots ds.
Proof. induction ds as [|d ds IH]; cbn; [lia|]. pose proof (slots_range d). unfold all_slots in IH. lia. Qed.

Lemma all_slots_length ds : all_slots ds <= 2 * zlen (print_all ds) /\ (length ds <= length (print_all ds))%nat.
Proof.
  induction ds as [|d ds IH]; [done|]. change (print_all (d :: ds)) with (print d ++ print_all ds). rewrite length_app.
  cbn [all_slots foldr length]. fold (all_slots ds). pose proof (slots_range d).
  destruct (count_slots d [] [] 0) as (_ & _ & _ & Hpos). lia.
Qed.

Lemma dimensions_nonneg d : 0 <= dimensions d.
Proof. induction d; cbn; lia. Qed.

(** The bytes before a pointer, after one more of them. *)
Ltac after_byte_in H :=
  rewrite ?length_app, ?Nat2Z.inj_add, <- ?app_assoc in H; cbn [app length] in H; change (Z.of_nat 1) with 1 in H.
Tactic Notation "after_byte" "in" hyp(H) := after_byte_in H.

Lemma class_name_print pre name rest len :
  SEMICOLON ∉ name -> DOT ∉ name -> (length name <= len)%nat ->
  skip_class_name (pre ++ name ++ SEMICOLON :: rest) len (zlen pre) = Some (Returns (Some (zlen pre + zlen name + 1))).
Proof.
  revert pre len. induction name as [|c name IH]; intros pre len H1 H2 Hlen; cbn [app].
  - destruct len; cbn [skip_class_name]; rewrite load_app_mid; cbn; do 3 f_equal; lia.
  - cbn in Hlen. destruct len as [|len]; [lia|]. cbn [skip_class_name]. rewrite load_app_mid. cbn [mbind option_bind].
    apply not_elem_of_cons in H1 as [? ?], H2 as [? ?].
    rewrite !(proj2 (Z.eqb_neq _ _)) by done. specialize (IH (pre ++ [c]) len). after_byte in IH.
    rewrite IH by (done || lia). cbn [length]. do 3 f_equal. lia.
Qed.

Lemma class_name_sound pre s :
  exists o, skip_class_name (pre ++ s ++ [0]) (length s) (zlen pre) = Some o /\
    (forall q, o = Returns (Some q) -> exists name rest, s = name ++ SEMICOLON :: rest /\ (SEMICOLON ∉ name) /\ (DOT ∉ name) /\
       q = zlen pre + zlen name + 1).
Proof.
  revert pre. induction s as [|c s IH]; intros pre; cbn [app length skip_class_name]; rewrite load_app_mid; cbn [mbind option_bind].
  { by eexists. }
  destruct (Z.eqb_spec c SEMICOLON) as [->|].
  { eexists. split; [done|]. intros q [= <-]. exists [], s. split; [done|]. split_and!; [apply not_elem_of_nil..|cbn; lia]. }
  destruct (Z.eqb_spec c DOT) as [->|]; [by eexists|].
  destruct (IH (pre ++ [c])) as (o & Ho & Hq). after_byte in Ho. exists o. split; [done|].
  intros q Eq. destruct (Hq q Eq) as (name & rest & -> & H1 & H2 & ->). exists (c :: name), rest.
  split; [done|]. rewrite !not_elem_of_cons, length_app. cbn [length]. split_and!; (done || lia).
Qed.

(** A type of one letter, as the switch of the scanner has it. *)
Lemma base_letter void_ok c :
  well_formed void_ok (Base c) <->
  (c =? JVM_SIGNATURE_VOID) && negb void_ok = false /\
  ((c =? JVM_SIGNATURE_VOID) || (c =? JVM_SIGNATURE_BOOLEAN) || (c =? JVM_SIGNATURE_BYTE) ||
   (c =? JVM_SIGNATURE_CHAR) || (c =? JVM_SIGNATURE_SHORT) || (c =? JVM_SIGNATURE_INT) ||
   (c =? JVM_SIGNATURE_FLOAT) || (c =? JVM_SIGNATURE_LONG) || (c =? JVM_SIGNATURE_DOUBLE)) = true.
Proof.
  cbn [well_formed]. unfold base_types. rewrite !elem_of_cons, elem_of_nil, !orb_true_iff, !Z.eqb_eq, andb_false_iff, Z.eqb_neq.
  destruct void_ok; cbn [negb]; lia.
Qed.

Section signatures.
Context (isJavaIdentifierStart isJavaIdentifierPart : Z -> option bool).
Context (parser : ClassFileParser).
Abbreviation skip := (skip_over_field_signature isJavaIdentifierStart isJavaIdentifierPart parser).

Section recent.
Hypothesis Hmajor : JAVA_1_5_VERSION <= _major_version parser.

(** The text of a type is skipped. *)
Lemma signature_print d pre rest void_ok array_dim len :
  well_formed void_ok d -> array_dim + dimensions d <= 255 -> (length (print d) <= len)%nat ->
  skip (pre ++ print d ++ rest) void_ok array_dim len (zlen pre) = Some (Returns (Some (zlen pre + zlen (print d)))).
Proof using Hmajor.
  revert pre void_ok array_dim len. induction d as [c|name|d IH]; intros pre void_ok array_dim len Hwf Hdim Hlen;
    cbn [print app length] in *; (destruct len as [|len]; [lia|]); cbn [skip_over_field_signature]; rewrite load_app_mid;
    cbn [mbind option_bind].
  - apply base_letter in Hwf as [-> ->]. done.
  - destruct Hwf as [H1 H2]. cbn -[skip_class_name skip_over_field_name Z.add]. rewrite (proj2 (Z.ltb_ge _ _)) by lia.
    rewrite !length_app in *. cbn [length] in *.
    pose proof (class_name_print (pre ++ [JVM_SIGNATURE_CLASS]) name rest len H1 H2 ltac:(lia)) as E.
    rewrite <- app_assoc. cbn [app]. after_byte in E. rewrite E. do 3 f_equal. lia.
  - cbn [dimensions well_formed] in *. cbn -[skip_over_field_signature Z.add]. pose proof (dimensions_nonneg d).
    destruct (Z.gtb_spec (array_dim + 1) 255); [lia|].
    specialize (IH (pre ++ [JVM_SIGNATURE_ARRAY]) false (array_dim + 1) len Hwf ltac:(lia) ltac:(lia)).
    after_byte in IH. rewrite IH. do 3 f_equal. lia.
Qed.

(** What is skipped is the text of a type. *)
Lemma signature_sound s pre void_ok array_dim :
  exists o, skip (pre ++ s ++ [0]) void_ok array_dim (length s) (zlen pre) = Some o /\
    (forall q, o = Returns (Some q) -> exists d rest, s = print d ++ rest /\ well_formed void_ok d /\
       (array_dim <= 255 -> array_dim + dimensions d <= 255) /\ q = zlen pre + zlen (print d)).
Proof using Hmajor.
  revert pre void_ok array_dim. induction s as [|c s IH]; intros pre void_ok array_dim; cbn [length skip_over_field_signature app].
  { by eexists. }
  rewrite load_app_mid. cbn [mbind option_bind].
  pose proof (base_letter void_ok c) as Hb.
  destruct ((c =? JVM_SIGNATURE_VOID) && negb void_ok); [by eexists|].
  match type of Hb with _ <-> _ /\ ?b = true => destruct b end.
  { eexists. split; [done|]. intros q [= <-]. exists (Base c), s. split; [done|]. split; [by apply Hb|]. cbn [dimensions print length]. lia. }
  destruct (Z.eqb_spec c JVM_SIGNATURE_CLASS) as [->|].
  { rewrite (proj2 (Z.ltb_ge _ _)) by lia. destruct (class_name_sound (pre ++ [JVM_SIGNATURE_CLASS]) s) as (o & Ho & Hq).
    after_byte in Ho.
    exists o. split; [done|]. intros q Eq. destruct (Hq q Eq) as (name & rest & -> & H1 & H2 & ->).
    exists (Object name), rest. cbn [print dimensions well_formed app length]. rewrite <- app_assoc, !length_app. cbn [length].
    split_and!; (done || lia). }
  destruct (Z.eqb_spec c JVM_SIGNATURE_ARRAY) as [->|]; [|by eexists].
  destruct (Z.gtb_spec (array_dim + 1) 255); [by eexists|].
  destruct (IH (pre ++ [JVM_SIGNATURE_ARRAY]) false (array_dim + 1)) as (o & Ho & Hq).
  after_byte in Ho.
  exists o. split; [done|]. intros q Eq. destruct (Hq q Eq) as (d & rest & -> & Hwf & Hd & ->).
  exists (Array d), rest. cbn [print dimensions well_formed app length]. rewrite length_app. cbn [length]. split_and!; (done || lia).
Qed.

(** The loop over the parameters, on the text of a list of types. *)
Lemma parameters_print ds pre rest fuel args_size len :
  Forall (legal_type false) ds -> 0 <= args_size -> args_size + all_slots ds < 2 ^ 32 ->
  (length ds < fuel)%nat -> (length (print_all ds) < len)%nat ->
  parameters_loop isJavaIdentifierStart isJavaIdentifierPart parser (pre ++ print_all ds ++ JVM_SIGNATURE_ENDFUNC :: rest) fuel args_size (zlen pre) len =
    Some (Returns (args_size + all_slots ds, zlen pre + zlen (print_all ds), (len - length (print_all ds))%nat)).
Proof using Hmajor.
  intros Hds. revert pre fuel args_size len. induction Hds as [|d ds [Hwf Hdim] _ IH]; intros pre fuel args_size len H0 Hov Hf Hlen;
    (destruct fuel as [|fuel]; [lia|]); cbn [parameters_loop].
  - destruct len as [|len]; [cbn in Hlen; lia|]. cbn [skip_over_field_signature print_all mbind list_bind app]. rewrite load_app_mid. cbn.
    repeat f_equal; lia.
  - change (print_all (d :: ds)) with (print d ++ print_all ds) in *. cbn [all_slots foldr] in *. fold (all_slots ds) in *.
    rewrite length_app in *. rewrite <- app_assoc. rewrite signature_print by (done || lia).
    rewrite (proj2 (Nat.ltb_lt 0 len)) by lia. destruct (count_slots d pre (print_all ds ++ JVM_SIGNATURE_ENDFUNC :: rest) args_size) as (c & -> & Hc & Hpos).
    cbn [mbind option_bind]. rewrite Hc. pose proof (all_slots_nonneg ds). pose proof (slots_range d).
    rewrite wrapu_id by (unfold is_u; lia).
    specialize (IH (pre ++ print d) fuel (args_size + slots d) (len - length (print d))%nat).
    rewrite <- app_assoc, length_app, Nat2Z.inj_add in IH. replace (Z.to_nat _) with (length (print d)) by lia.
    cbn [length] in Hf. rewrite IH by lia. do 2 f_equal. apply pair_equal_spec. split; [apply pair_equal_spec; split|]; lia.
Qed.

(** The loop ends, after the text of a list of types. *)
Lemma parameters_sound fuel s pre args_size :
  0 <= args_size -> args_size + 2 * zlen s < 2 ^ 32 -> (length s < fuel)%nat ->
  exists o, parameters_loop isJavaIdentifierStart isJavaIdentifierPart parser (pre ++ s ++ [0]) fuel args_size (zlen pre) (length s) = Some o /\
    (forall n p len, o = Returns (n, p, len) -> exists ds rest, s = print_all ds ++ rest /\ Forall (legal_type false) ds /\
       n = args_size + all_slots ds /\ p = zlen pre + zlen (print_all ds) /\ len = length rest).
Proof using Hmajor.
  revert s pre args_size. induction fuel as [|fuel IH]; intros s pre args_size H0 Hov Hf; [lia|]. cbn [parameters_loop].
  assert (Hstop : forall n p len, Returns (args_size, zlen pre, length s) = Returns (n, p, len) ->
    exists ds rest, s = print_all ds ++ rest /\ Forall (legal_type false) ds /\
       n = args_size + all_slots ds /\ p = zlen pre + zlen (print_all ds) /\ len = length rest).
  { intros n p len [= <- <- <-]. exists [], s. cbn. split_and!; try done; lia. }
  destruct (signature_sound s pre false 0) as (o & -> & Hq). destruct o as [[q|]|]; [|by eexists..].
  destruct (Hq q eq_refl) as (d & rest & -> & Hwf & Hdim & ->). rewrite length_app in *.
  destruct (count_slots d pre (rest ++ [0]) args_size) as (c & Hc & Hn & Hpos). rewrite <- app_assoc in *.
  rewrite (proj2 (Nat.ltb_lt 0 _)) by lia. rewrite Hc. cbn [mbind option_bind]. rewrite Hn. pose proof (slots_range d).
  rewrite wrapu_id by (unfold is_u; lia). destruct (IH rest (pre ++ print d) (args_size + slots d)) as (o & Ho & Hr); [lia..|].
  rewrite <- app_assoc, length_app, Nat2Z.inj_add in Ho. replace (_ - Z.to_nat _)%nat with (length rest) by lia.
  exists o. split; [done|]. intros n p len E. destruct (Hr n p len E) as (ds & rest' & -> & Hds & -> & -> & ->).
  exists (d :: ds), rest'. change (print_all (d :: ds)) with (print d ++ print_all ds). cbn [all_slots foldr]. fold (all_slots ds).
  rewrite !length_app, <- app_assoc. split_and!; try done; [|lia..]. constructor; [|done]. split; [done|lia].
Qed.

(** A whole text is accepted when it is the text of a type. *)
Lemma signature_whole s void_ok pre :
  exists o, skip (pre ++ s ++ [0]) void_ok 0 (length s) (zlen pre) = Some o /\
    (o = Returns (Some (zlen (pre ++ s))) <-> exists d, legal_type void_ok d /\ s = print d).
Proof using Hmajor.
  destruct (signature_sound s pre void_ok 0) as (o & Ho & Hq). exists o. split; [done|]. rewrite length_app. split.
  - intros ->. destruct (Hq _ eq_refl) as (d & rest & -> & Hwf & Hdim & E). rewrite length_app in E.
    exists d. destruct rest; [|cbn in E; lia]. rewrite app_nil_r. split; [split; [done|lia]|done].
  - intros (d & [Hwf Hdim] & ->). rewrite signature_print in Ho by (done || lia). injection Ho as <-. do 2 f_equal. lia.
Qed.

Lemma field_signature_ok signature :
  _need_verify parser = true ->
  exists o, verify_legal_field_signature isJavaIdentifierStart isJavaIdentifierPart parser signature = Some o /\
    (o = Returns tt <-> exists d, legal_type false d /\ signature = print d).
Proof using Hmajor.
  intros Hv. unfold verify_legal_field_signature, as_utf8_flexible_buffer. rewrite Hv. cbn [negb].
  destruct (signature_whole signature false []) as (o & Ho & Hiff). cbn [app length] in *. change (Z.of_nat 0) with 0 in Ho. rewrite Ho.
  unfold throw_unless. destruct o as [q|]; eexists; (split; [done|]); rewrite <- Hiff; [|done].
  case_bool_decide as Hc; subst; [done|]. split; [done|]. by intros [= ->].
Qed.

(** The type of a method by its name: initializers return nothing. *)
Definition legal_method (name : list Z) (parameters : list descriptor) (result : descriptor) : Prop :=
  Forall (legal_type false) parameters /\ legal_type true result /\
  (head name = Some LESS -> result = Base JVM_SIGNATURE_VOID).

Lemma method_signature_print name parameters result :
  _need_verify parser = true -> legal_method name parameters result -> zlen (print_method parameters result) < 2 ^ 16 ->
  verify_legal_method_signature isJavaIdentifierStart isJavaIdentifierPart parser name (print_method parameters result) =
    Some (Returns (all_slots parameters)).
Proof using Hmajor.
  intros Hv (Hps & [Hr Hdim] & Hinit) Hlen. destruct (all_slots_length parameters). pose proof (all_slots_nonneg parameters).
  unfold verify_legal_method_signature, as_utf8_flexible_buffer. rewrite Hv. cbn [negb].
  unfold print_method in *. cbn [length app] in *. rewrite length_app in *. cbn [length] in *.
  change (load (JVM_SIGNATURE_FUNC :: ?l) 0) with (Some JVM_SIGNATURE_FUNC). cbn [mbind option_bind].
  rewrite (proj2 (Z.eqb_eq _ _)) by done. cbn [negb]. rewrite <- app_assoc. cbn [app].
  pose proof (parameters_print parameters [JVM_SIGNATURE_FUNC] (print result ++ [0])
    (S (length (print_all parameters) + S (length (print result)))) 0 (length (print_all parameters) + S (length (print result)))%nat Hps) as E.
  cbn [app length] in E. change (Z.of_nat 1) with 1 in E. rewrite E by lia. clear E.
  replace (_ - _)%nat with (S (length (print result))) by lia.
  set (pre := JVM_SIGNATURE_FUNC :: print_all parameters). rewrite Z.add_0_l, wraps_id by (unfold is_s; lia).
  change (JVM_SIGNATURE_FUNC :: print_all parameters ++ ?l) with (pre ++ l).
  replace (1 + _) with (zlen pre) by (unfold pre; cbn [length]; lia).
  rewrite load_app_mid. cbn [mbind option_bind]. rewrite (proj2 (Z.eqb_eq JVM_SIGNATURE_ENDFUNC _)) by done. cbn [negb].
  assert (Hsnoc : forall l, pre ++ JVM_SIGNATURE_ENDFUNC :: l = (pre ++ [JVM_SIGNATURE_ENDFUNC]) ++ l) by (intros; by rewrite <- app_assoc).
  rewrite Hsnoc. replace (zlen pre + 1) with (zlen (pre ++ [JVM_SIGNATURE_ENDFUNC])) by (rewrite length_app; cbn; lia).
  case_bool_decide as Hname.
  - rewrite (Hinit Hname). cbn [print app length]. rewrite load_app_mid. done.
  - rewrite signature_print by (done || lia). by rewrite bool_decide_true.
Qed.

Lemma method_signature_sound name signature :
  _need_verify parser = true -> zlen signature < 2 ^ 16 ->
  exists o, verify_legal_method_signature isJavaIdentifierStart isJavaIdentifierPart parser name signature = Some o /\
    forall n, o = Returns n -> exists parameters result,
      legal_method name parameters result /\ signature = print_method parameters result /\ n = all_slots parameters.
Proof using Hmajor.
  intros Hv Hlen. unfold verify_legal_method_signature, as_utf8_flexible_buffer. rewrite Hv. cbn [negb].
  destruct signature as [|c s]; cbn [length app] in *; [by eexists|].
  change (load (c :: ?l) 0) with (Some c). cbn [mbind option_bind]. destruct (Z.eqb_spec c JVM_SIGNATURE_FUNC) as [->|]; cbn [negb]; [|by eexists].
  destruct (parameters_sound (S (length s)) s [JVM_SIGNATURE_FUNC] 0) as (o & Ho & Hps); [lia..|].
  cbn [app length] in *. change (Z.of_nat 1) with 1 in *. rewrite Ho. clear Ho. destruct o as [[[n p] len]|]; [|by eexists].
  destruct (Hps n p len eq_refl) as (ds & rest & -> & Hds & -> & -> & ->). destruct (all_slots_length ds). pose proof (all_slots_nonneg ds).
  rewrite length_app in *. rewrite Z.add_0_l, wraps_id by (unfold is_s; lia). clear Hps.
  destruct rest as [|c rest]; cbn [length]; [by eexists|].
  set (pre := JVM_SIGNATURE_FUNC :: print_all ds). rewrite <- app_assoc. cbn [app].
  change (JVM_SIGNATURE_FUNC :: print_all ds ++ ?l) with (pre ++ l).
  replace (1 + _) with (zlen pre) by (unfold pre; cbn [length]; lia).
  rewrite load_app_mid. cbn [mbind option_bind]. destruct (Z.eqb_spec c JVM_SIGNATURE_ENDFUNC) as [->|]; cbn [negb]; [|by eexists].
  assert (Hsnoc : forall l, pre ++ JVM_SIGNATURE_ENDFUNC :: l = (pre ++ [JVM_SIGNATURE_ENDFUNC]) ++ l) by (intros; by rewrite <- app_assoc).
  rewrite (Hsnoc (rest ++ [0])). replace (zlen pre + 1) with (zlen (pre ++ [JVM_SIGNATURE_ENDFUNC])) by (rewrite length_app; cbn; lia).
  case_bool_decide as Hname.
  - destruct (load_is_Some ((pre ++ [JVM_SIGNATURE_ENDFUNC]) ++ rest ++ [0]) (zlen (pre ++ [JVM_SIGNATURE_ENDFUNC]))) as [c Hc].
    { rewrite !length_app. cbn. lia. }
    rewrite Hc. cbn [mbind option_bind]. destruct ((_ =? 1) && _) eqn:E; [|by eexists].
    eexists. split; [done|]. apply andb_true_iff in E as [E1%Z.eqb_eq ->%Z.eqb_eq].
    intros n [= <-]. destruct rest as [|c' [|]]; cbn [length] in E1; try lia. cbn [app] in Hc. rewrite load_app_mid in Hc.
    injection Hc as ->. exists ds, (Base JVM_SIGNATURE_VOID).
    split; [|done]. split; [done|]. split; [|done]. split; [by right|done].
  - destruct (signature_whole rest true (pre ++ [JVM_SIGNATURE_ENDFUNC])) as (o & -> & Hiff). destruct o as [q|]; [|by eexists].
    rewrite length_app, Nat2Z.inj_add in Hiff. case_bool_decide as Hq; [|by eexists]. subst q.
    destruct (proj1 Hiff eq_refl) as (d & Hd & ->). eexists. split; [done|]. intros n [= <-]. exists ds, d.
    split; done.
Qed.

Lemma method_signature_ok name signature :
  _need_verify parser = true -> zlen signature < 2 ^ 16 ->
  exists o, verify_legal_method_signature isJavaIdentifierStart isJavaIdentifierPart parser name signature = Some o /\
    forall n, o = Returns n <-> exists parameters result,
      legal_method name parameters result /\ signature = print_method parameters result /\ n = all_slots parameters.
Proof using Hmajor.
  intros Hv Hlen. destruct (method_signature_sound name signature Hv Hlen) as (o & Ho & Hn). exists o. split; [done|].
  intros n. split; [apply Hn|]. intros (ps & r & Hlegal & -> & ->). rewrite method_signature_print in Ho by done. by injection Ho as <-.
Qed.
End recent.

(** In class files of any version the scanner stays within the text. *)
Lemma signature_total s pre void_ok array_dim :
  Forall (is_u 8) (pre ++ s) ->
  exists o, skip (pre ++ s ++ [0]) void_ok array_dim (length s) (zlen pre) = Some o /\
    (forall q, o = Returns (Some q) -> zlen pre < q <= zlen (pre ++ s)).
Proof.
  revert pre void_ok array_dim. induction s as [|c s IH]; intros pre void_ok array_dim Hs; cbn [length skip_over_field_signature app].
  { by eexists. }
  rewrite load_app_mid. cbn [mbind option_bind].
  assert (Hlen : zlen (pre ++ c :: s) = zlen pre + 1 + zlen s) by (rewrite length_app; cbn; lia).
  destruct ((c =? JVM_SIGNATURE_VOID) && negb void_ok); [by eexists|].
  match goal with |- context [if ?b then Some (Returns (Some (zlen pre + 1))) else _] => destruct b end.
  { eexists. split; [done|]. intros q [= <-]. lia. }
  destruct (Z.eqb_spec c JVM_SIGNATURE_CLASS) as [->|].
  - case_match.
    + rewrite <- Hlen. destruct (field_name_total isJavaIdentifierStart isJavaIdentifierPart (pre ++ JVM_SIGNATURE_CLASS :: s) true
        (S (length s)) (zlen pre + 1) false false Hs) as (o & Ho & Hq); [lia..|]. rewrite <- app_assoc in Ho. cbn [app] in Ho. rewrite Ho.
      cbn [mbind option_bind]. destruct o as [q|]; [|by eexists]. specialize (Hq q eq_refl). case_match; [|by eexists].
      destruct (load_terminated (pre ++ JVM_SIGNATURE_CLASS :: s) q) as (c & Hc & Hend); [lia|]. rewrite <- app_assoc in Hc. cbn [app] in Hc.
      rewrite Hc. cbn [mbind option_bind]. eexists. split; [done|]. intros q'. destruct (Z.eqb_spec c SEMICOLON); intros [= <-]. lia.
    + destruct (class_name_sound (pre ++ [JVM_SIGNATURE_CLASS]) s) as (o & Ho & Hq). after_byte in Ho. exists o. split; [done|].
      intros q E. destruct (Hq q E) as (name & rest & -> & _ & _ & ->). rewrite !length_app in *. cbn [length] in *. lia.
  - destruct (Z.eqb_spec c JVM_SIGNATURE_ARRAY) as [->|]; [|by eexists]. case_match; [by eexists|].
    destruct (IH (pre ++ [JVM_SIGNATURE_ARRAY]) false (array_dim + 1)) as (o & Ho & Hq); [by rewrite <- app_assoc|].
    after_byte in Ho. exists o. split; [done|]. intros q E. specialize (Hq q E). rewrite !length_app in *. cbn [length] in *. lia.
Qed.

Lemma parameters_total fuel s pre args_size :
  Forall (is_u 8) (pre ++ s) -> (length s < fuel)%nat ->
  exists o, parameters_loop isJavaIdentifierStart isJavaIdentifierPart parser (pre ++ s ++ [0]) fuel args_size (zlen pre) (length s) = Some o /\
    (forall n p len, o = Returns (n, p, len) -> exists l rest, s = l ++ rest /\ p = zlen (pre ++ l) /\ len = length rest).
Proof.
  revert s pre args_size. induction fuel as [|fuel IH]; intros s pre args_size Hs Hf; [lia|]. cbn [parameters_loop].
  assert (Hstop : forall n p len, Returns (args_size, zlen pre, length s) = Returns (n, p, len) ->
    exists l rest, s = l ++ rest /\ p = zlen (pre ++ l) /\ len = length rest).
  { intros n p len [= <- <- <-]. exists [], s. by rewrite app_nil_r. }
  destruct (signature_total s pre false 0 Hs) as (o & -> & Hq). destruct o as [[q|]|]; [|by eexists..].
  specialize (Hq q eq_refl). destruct s as [|c s]; [by eexists|]. cbn [length Nat.ltb Nat.leb app]. rewrite load_app_mid.
  cbn [mbind option_bind]. match goal with |- context [parameters_loop _ _ _ _ _ (u32 ?e)] => generalize (u32 e) as n end. intros n.
  set (k := Z.to_nat (q - zlen pre)). rewrite length_app in Hq. cbn [length] in *.
  destruct (IH (drop k (c :: s)) (pre ++ take k (c :: s)) n) as (o & Ho & Hr).
  { by rewrite <- app_assoc, take_drop. }
  { rewrite length_drop. cbn [length]. lia. }
  rewrite <- app_assoc, (app_assoc (take _ _)), take_drop in Ho. rewrite length_app, length_take, length_drop in Ho. cbn [length app] in Ho.
  replace (Z.of_nat (length pre + k `min` S (length s))) with q in Ho by lia. exists o. split; [done|].
  intros m p len E. destruct (Hr m p len E) as (l & rest & Edrop & -> & ->). exists (take k (c :: s) ++ l), rest.
  by rewrite <- !app_assoc, <- Edrop, take_drop.
Qed.

Lemma method_signature_total name signature :
  Forall (is_u 8) signature ->
  exists o, verify_legal_method_signature isJavaIdentifierStart isJavaIdentifierPart parser name signature = Some o.
Proof.
  intros Hs. unfold verify_legal_method_signature, as_utf8_flexible_buffer. case_match; [by eexists|].
  destruct signature as [|c s]; cbn [length app] in *; [by eexists|].
  change (load (c :: ?l) 0) with (Some c). cbn [mbind option_bind]. case_match; [by eexists|].
  destruct (parameters_total (S (length s)) s [c] 0 Hs) as (o & Ho & Hp); [lia|]. cbn [app length] in *. change (Z.of_nat 1) with 1 in *.
  rewrite Ho. destruct o as [[[n p] len]|]; [|by eexists]. destruct (Hp n p len eq_refl) as (l & rest & -> & -> & ->).
  destruct rest as [|c' rest]; cbn [length]; [by eexists|].
  replace (c :: _) with ((c :: l) ++ c' :: rest ++ [0]) by (cbn; by rewrite <- app_assoc). change (S (length l)) with (length (c :: l)).
  rewrite load_app_mid. cbn [mbind option_bind]. case_match; [by eexists|].
  replace ((c :: l) ++ _) with (((c :: l) ++ [c']) ++ rest ++ [0]) by (by rewrite <- app_assoc).
  replace (zlen (c :: l) + 1) with (zlen ((c :: l) ++ [c'])) by (rewrite length_app; cbn; lia). case_bool_decide.
  - destruct (load_is_Some (((c :: l) ++ [c']) ++ rest ++ [0]) (zlen ((c :: l) ++ [c']))) as [v ->].
    { rewrite !length_app. cbn [length]. lia. }
    cbn [mbind option_bind]. case_match; by eexists.
  - destruct (signature_total rest ((c :: l) ++ [c']) true 0) as (o & -> & _).
    { by rewrite <- app_assoc. }
    destruct o; [|by eexists]. case_bool_decide; by eexists.
Qed.

Lemma field_signature_total signature :
  Forall (is_u 8) signature ->
  exists o, verify_legal_field_signature isJavaIdentifierStart isJavaIdentifierPart parser signature = Some o.
Proof.
  intros Hs. unfold verify_legal_field_signature, as_utf8_flexible_buffer. case_match; [by eexists|].
  destruct (signature_total signature [] false 0 Hs) as (o & Ho & _). cbn [app length] in Ho. change (Z.of_nat 0) with 0 in Ho.
  rewrite Ho. destruct o; by eexists.
Qed.
End signatures.

(** * The checks of names *)

Lemma throw_unless_ok (b : bool) (P : Prop) : (b = true <-> P) -> exists o, throw_unless b = Some o /\ (o = Returns tt <-> P).
Proof. intros H. eexists. split; [done|]. destruct b; naive_solver. Qed.

(** An illegal outcome of a check that must not accept. *)
Lemma throws_unless (P : Prop) : ~ P -> exists o, Some Throws = Some o /\ (o = Returns tt <-> P).
Proof. intros H. eexists. by split. Qed.

(** The two names that may start with '<'. *)
Definition initializer_name (name : list Z) : Prop := name = object_initializer_name \/ name = class_initializer_name.

Lemma initializer_names name :
  bool_decide (name = object_initializer_name) || bool_decide (name = class_initializer_name) = true <-> initializer_name name.
Proof. by rewrite orb_true_iff, !bool_decide_eq_true. Qed.

Lemma initializer_less name : initializer_name name -> head name = Some LESS.
Proof. by intros [->| ->]. Qed.

Lemma zlen_pos (b : Z) l : (zlen (b :: l) >? 0) = true.
Proof. apply Z.gtb_lt. cbn [length]. lia. Qed.

Lemma encode_nil_inv u : encode u = [] -> u = [].
Proof. destruct u as [|c u]; [done|]. rewrite encode_cons. unfold utf8_bytes. case_decide; [|case_decide]; done. Qed.

(** The first byte of a text is its first character, when it is ASCII. *)
Lemma encode_head u b l : jchars u -> encode u = b :: l -> b < 128 -> exists u', u = b :: u'.
Proof.
  intros Hu E Hb. destruct Hu as [|c u Hc _]; [done|]. rewrite encode_cons in E. exists u. f_equal.
  unfold utf8_bytes, is_u in *. revert E. case_decide; [|case_decide]; cbn [app]; intros [= <- ?]; [done|int_lia..].
Qed.

Section names.
Context (isJavaIdentifierStart isJavaIdentifierPart : Z -> option bool).
Context (parser : ClassFileParser).
Hypothesis Hverify : negb (_need_verify parser) || _relax_verify parser = false.

(** Names without special rules, of class files from version 49 on and of older ones. *)
Lemma recent_name type u :
  jchars u ->
  exists o, (legal ← verify_unqualified_name (as_utf8_flexible_buffer (encode u)) (zlen (encode u)) type (S (length (encode u))) 0;
             throw_unless legal) = Some o /\
            (o = Returns tt <-> Forall (fun c => forbidden type c = false) u).
Proof using.
  intros Hu. unfold as_utf8_flexible_buffer. pose proof (unqualified_ok type u [] (S (length (encode u))) Hu ltac:(lia)) as E.
  cbn [app length] in E. change (Z.of_nat 0) with 0 in E. rewrite E. cbn [mbind option_bind]. apply throw_unless_ok.
  rewrite negb_true_iff, <- not_true_iff_false, existsb_exists, Forall_forall. split.
  - intros H c Hc. apply not_true_iff_false. intros Hf. apply H. exists c. by rewrite <- list_elem_of_In.
  - intros H (c & Hc%list_elem_of_In & Hf). specialize (H c Hc). congruence.
Qed.

Lemma older_name slash_ok cps :
  Forall is_scalar cps ->
  exists o, (p ← skip_over_field_name isJavaIdentifierStart isJavaIdentifierPart (as_utf8_flexible_buffer (text cps)) slash_ok
                   (zlen (text cps)) (S (length (text cps))) 0 false false;
             throw_unless (bool_decide (p = Some (zlen (text cps))))) = Some o /\
            (o = Returns tt <-> legal_name isJavaIdentifierStart isJavaIdentifierPart slash_ok cps).
Proof using.
  intros Hc. unfold as_utf8_flexible_buffer.
  destruct (field_name_accepted isJavaIdentifierStart isJavaIdentifierPart cps [] [] slash_ok (S (length (text cps))) false false Hc)
    as (o & Ho & Hiff & _); [by left|lia|]. rewrite app_nil_r in *. cbn [app length] in *. change (Z.of_nat 0) with 0 in Ho. rewrite Ho. cbn [mbind option_bind].
  apply throw_unless_ok. by rewrite bool_decide_eq_true, Hiff, name_accepted_legal.
Qed.

Section recent_names.
Hypothesis Hmajor : JAVA_1_5_VERSION <= _major_version parser.

Lemma recent_class_name u :
  jchars u ->
  exists o, verify_legal_class_name isJavaIdentifierStart isJavaIdentifierPart parser (encode u) = Some o /\
    (o = Returns tt <-> if decide (head (encode u) = Some JVM_SIGNATURE_ARRAY) then exists d, legal_type false d /\ encode u = print d
                        else u <> [] /\ Forall (fun c => forbidden LegalClass c = false) u).
Proof using Hverify Hmajor.
  intros Hu. unfold verify_legal_class_name. rewrite Hverify, (proj2 (Z.ltb_ge _ _)) by lia.
  pose proof (recent_name LegalClass u Hu) as (o & Ho & Hiff). destruct (encode u) as [|b l] eqn:E.
  { apply encode_nil_inv in E as ->. by apply throws_unless; cbn; intros []. }
  rewrite zlen_pos. change (load (as_utf8_flexible_buffer (b :: l)) 0) with (Some b). cbn [mbind option_bind head].
  destruct (Z.eqb_spec b JVM_SIGNATURE_ARRAY) as [->|].
  - rewrite decide_True by done. unfold as_utf8_flexible_buffer.
    destruct (signature_whole isJavaIdentifierStart isJavaIdentifierPart parser Hmajor (JVM_SIGNATURE_ARRAY :: l) false []) as (o' & Ho' & Hiff').
    change (zlen []) with 0 in Ho'. cbn [app] in *. rewrite Ho'. destruct o' as [p|]; [|apply throws_unless; by rewrite <- Hiff'].
    apply throw_unless_ok. rewrite bool_decide_eq_true, <- Hiff'. naive_solver.
  - rewrite decide_False by congruence. exists o. split; [done|]. rewrite Hiff. split; [|by intros [_ ?]]. intros ?. split; [by intros ->|done].
Qed.

Lemma recent_field_name u :
  jchars u ->
  exists o, verify_legal_field_name isJavaIdentifierStart isJavaIdentifierPart parser (encode u) = Some o /\
    (o = Returns tt <-> u <> [] /\ Forall (fun c => forbidden LegalField c = false) u).
Proof using Hverify Hmajor.
  intros Hu. unfold verify_legal_field_name. rewrite Hverify, (proj2 (Z.ltb_ge _ _)) by lia.
  pose proof (recent_name LegalField u Hu) as (o & Ho & Hiff). destruct (encode u) as [|b l] eqn:E.
  { apply encode_nil_inv in E as ->. by apply throws_unless; cbn; intros []. }
  rewrite zlen_pos. exists o. split; [done|]. rewrite Hiff. split; [|by intros [_ ?]]. intros ?. split; [by intros ->|done].
Qed.

Lemma recent_method_name u :
  jchars u ->
  exists o, verify_legal_method_name isJavaIdentifierStart isJavaIdentifierPart parser (encode u) = Some o /\
    (o = Returns tt <-> initializer_name (encode u) \/ u <> [] /\ Forall (fun c => forbidden LegalMethod c = false) u).
Proof using Hverify Hmajor.
  intros Hu. unfold verify_legal_method_name. rewrite Hverify, (proj2 (Z.ltb_ge _ _)) by lia.
  pose proof (recent_name LegalMethod u Hu) as (o & Ho & Hiff). destruct (encode u) as [|b l] eqn:E.
  { apply encode_nil_inv in E as ->. by apply throws_unless; cbn; intros [[]|[]]. }
  rewrite zlen_pos. change (load (as_utf8_flexible_buffer (b :: l)) 0) with (Some b). cbn [mbind option_bind].
  destruct (Z.eqb_spec b LESS) as [->|].
  - apply throw_unless_ok. rewrite initializer_names. split; [by left|]. intros [?|[_ Hf]]; [done|].
    destruct (encode_head u _ _ Hu E) as (u' & ->); [done|]. by apply Forall_cons in Hf as [? _].
  - exists o. split; [done|]. rewrite Hiff. split; [intros ?; right; split; [by intros ->|done]|].
    intros [[= ?]%initializer_less|[_ ?]]; done.
Qed.
End recent_names.

Section older_names.
Hypothesis Hmajor : _major_version parser < JAVA_1_5_VERSION.

(** A name of an older class file does not start with '<'. *)
Lemma legal_name_less slash_ok cps l :
  Forall is_scalar cps -> text cps = LESS :: l -> ~ legal_name isJavaIdentifierStart isJavaIdentifierPart slash_ok cps.
Proof using.
  intros Hc E [(c & rest & -> & Hstart & _) _]. apply Forall_cons in Hc as [Hc _]. rewrite text_cons in E.
  destruct (utf16_bytes c Hc) as [[E' Ha]|(b & l' & E' & Hb & _)]; rewrite E' in E; injection E as -> _; [|lia].
  by destruct Hstart as [|[_ ?]].
Qed.

Lemma text_nil_inv cps : Forall is_scalar cps -> text cps = [] -> cps = [].
Proof using.
  intros [|c rest Hc _]; [done|]. rewrite text_cons. by destruct (utf16_bytes c Hc) as [[-> _]|(b & l & -> & _)].
Qed.

Lemma legal_name_nil slash_ok : ~ legal_name isJavaIdentifierStart isJavaIdentifierPart slash_ok [].
Proof using. by intros [(? & ? & ? & _) _]. Qed.

(** What an array of an older class file holds: a type of one letter, or a class whose name
    is legal, between 'L' and ';'. *)
Definition older_element (cps : list Z) : Prop :=
  (exists c, cps = [c] /\ c ∈ base_types) \/
  (exists name, cps = JVM_SIGNATURE_CLASS :: name ++ [SEMICOLON] /\ legal_name isJavaIdentifierStart isJavaIdentifierPart true name).

Definition older_type (limit : Z) (cps : list Z) : Prop :=
  exists n element, Z.of_nat n <= limit /\ cps = replicate n JVM_SIGNATURE_ARRAY ++ element /\ older_element element.

(** The class name of a descriptor of an older class file, up to its ';'. *)
Lemma older_object cps pre :
  Forall is_scalar cps ->
  let signature := pre ++ JVM_SIGNATURE_CLASS :: text cps ++ [0] in
  let all := zlen pre + 1 + zlen (text cps) in
  exists o, (p ← skip_over_field_name isJavaIdentifierStart isJavaIdentifierPart signature true all (S (length (text cps))) (zlen pre + 1) false false;
             match p with
             | Some p => if p - zlen pre >? 1 then ch ← load signature p; Some (Returns (if ch =? SEMICOLON then Some (p + 1) else None))
                         else Some (Returns None)
             | None => Some (Returns None)
             end) = Some o /\
    (o = Returns (Some all) <-> exists name, cps = name ++ [SEMICOLON] /\ legal_name isJavaIdentifierStart isJavaIdentifierPart true name).
Proof using.
  intros Hc signature all.
  assert (Hsplit : exists name stop, text cps = text name ++ stop /\ Forall is_scalar name /\
    (cps = name ++ [SEMICOLON] /\ stop = [SEMICOLON] \/ stop = [] /\ forall l, cps <> l ++ [SEMICOLON])).
  { destruct cps as [|c cps _] using rev_ind; [exists [], []; split_and!; [done..|right; split; [done|]; by intros [|]]|].
    destruct (decide (c = SEMICOLON)) as [->|].
    - exists cps, [SEMICOLON]. rewrite text_app. apply Forall_app in Hc as [? _]. auto.
    - exists (cps ++ [c]), []. rewrite app_nil_r. split_and!; try done. right. split; [done|].
      intros l [_ ?]%app_inj_tail. done. }
  destruct Hsplit as (name & stop & Et & Hname & Hcase).
  destruct (field_name_accepted isJavaIdentifierStart isJavaIdentifierPart name stop (pre ++ [JVM_SIGNATURE_CLASS]) true (S (length (text cps))) false false Hname)
    as (o & Ho & Hiff & Hq); [destruct Hcase as [[_ ->]|[-> _]]; auto|rewrite Et, length_app; lia|].
  rewrite <- !app_assoc in *. cbn [app] in *. rewrite (app_assoc (text name)), <- Et in Ho.
  replace (zlen (pre ++ JVM_SIGNATURE_CLASS :: text cps)) with all in Ho by (unfold all; rewrite length_app; cbn [length]; lia).
  replace (zlen (pre ++ [JVM_SIGNATURE_CLASS])) with (zlen pre + 1) in * by (rewrite length_app; cbn [length]; lia).
  fold signature in Ho. rewrite Ho. cbn [mbind option_bind]. clear Ho.
  rewrite name_accepted_legal in Hiff. rewrite length_app in Hiff, Hq. cbn [length] in Hiff, Hq.
  assert (Hspec : (exists name, cps = name ++ [SEMICOLON] /\ legal_name isJavaIdentifierStart isJavaIdentifierPart true name) <->
    stop = [SEMICOLON] /\ legal_name isJavaIdentifierStart isJavaIdentifierPart true name).
  { destruct Hcase as [[-> ->]|[-> Hno]]; split; try naive_solver. by intros (l & [-> _]%app_inj_tail & ?). }
  setoid_rewrite Hspec. setoid_rewrite <- Hiff. unfold all. rewrite Et, length_app. destruct o as [q|]; [|eexists; split; [done|naive_solver]].
  specialize (Hq q eq_refl). destruct (load_is_Some signature q) as [ch Hch].
  { unfold signature. rewrite Et, !length_app. cbn [length]. rewrite !length_app. cbn. lia. }
  rewrite Hch. cbn [mbind option_bind]. destruct (Z.gtb_spec (q - zlen pre) 1) as [Hpos|Hpos]; eexists; (split; [done|]).
  2: { split; [done|]. intros [-> Hend]. apply Hiff in Hend as Hlegal. injection Hend as Hend.
       assert (text name = []) as Hnil by (destruct (text name); [done|cbn [length] in Hend; lia]).
       apply text_nil_inv in Hnil as ->; [|done]. by apply legal_name_nil in Hlegal. }
  destruct Hcase as [[-> ->]|[-> Hno]]; cbn [length].
  - split; [|intros [_ [= ->]]].
    + destruct (ch =? SEMICOLON); [|done]. intros [= Hend]. split; [done|]. f_equal. lia.
    + replace ch with SEMICOLON; [rewrite Z.eqb_refl; do 2 f_equal; lia|].
      enough (load signature (zlen pre + 1 + zlen (text name)) = Some SEMICOLON) as E.
      { replace (zlen pre + 1 + zlen (text name)) with (Z.of_nat (length pre + S (length (text name)))) in E by lia. congruence. }
      unfold signature. rewrite Et. replace (pre ++ _) with ((pre ++ JVM_SIGNATURE_CLASS :: text name) ++ SEMICOLON :: [0])
        by (by rewrite <- !app_assoc). apply load_app_at. rewrite length_app. cbn [length]. lia.
  - split; [|by intros [? _]]. destruct (Z.eqb_spec ch SEMICOLON) as [->|]; [|done]. intros [= Hend]. exfalso.
    rewrite app_nil_r in Et. destruct (text cps) as [|b l _] eqn:El using rev_ind; [rewrite <- Et in Hend; cbn in Hend; lia|].
    assert (load signature (zlen pre + 1 + zlen l) = Some b) as Hb.
    { unfold signature. replace (pre ++ _) with ((pre ++ JVM_SIGNATURE_CLASS :: l) ++ b :: [0])
        by (by rewrite <- !app_assoc). apply load_app_at. rewrite length_app. cbn [length]. lia. }
    rewrite <- Et, length_app in Hend. cbn [length] in Hend.
    replace (zlen pre + 1 + zlen l) with q in Hb by lia. rewrite Hch in Hb. injection Hb as <-.
    destruct (text_last cps l SEMICOLON Hc El) as [l' ->]; [done|]. by apply (Hno l').
Qed.

(** One character of a descriptor. *)
Lemma older_type_array limit cps : 1 <= limit -> older_type limit (JVM_SIGNATURE_ARRAY :: cps) <-> older_type (limit - 1) cps.
Proof using.
  intros Hlimit. split.
  - intros ([|n] & element & Hn & E & He); cbn [replicate app] in E.
    + subst element. destruct He as [(c & [= <- _] & Hc)|(name & [=] & _)]. unfold base_types in Hc.
      rewrite !elem_of_cons, elem_of_nil in Hc. by decompose [or] Hc.
    + injection E as ->. exists n, element. split_and!; [lia|done..].
  - intros (n & element & Hn & -> & He). exists (S n), element. split_and!; [lia|done..].
Qed.

Lemma older_type_other limit c cps : 0 <= limit -> c <> JVM_SIGNATURE_ARRAY -> older_type limit (c :: cps) <-> older_element (c :: cps).
Proof using.
  intros Hlimit Hc. split; [|intros He; exists 0%nat, (c :: cps); done].
  intros ([|n] & element & Hn & E & He); cbn [replicate app] in E; [by subst|]. by injection E as -> _.
Qed.

Lemma older_element_letter c cps : c ∈ base_types -> older_element (c :: cps) <-> cps = [].
Proof using.
  intros Hc. split; [|intros ->; left; by exists c]. intros [(c' & [= _ ->] & _)|(name & [= -> _] & _)]; [done|].
  unfold base_types in Hc. rewrite !elem_of_cons, elem_of_nil in Hc. by decompose [or] Hc.
Qed.

Lemma older_element_class cps :
  older_element (JVM_SIGNATURE_CLASS :: cps) <->
  exists name, cps = name ++ [SEMICOLON] /\ legal_name isJavaIdentifierStart isJavaIdentifierPart true name.
Proof using.
  split; [intros [(c & [= <- _] & Hc)|(name & [= ->] & ?)]; [|eauto]|intros (name & -> & ?); right; eauto].
  unfold base_types in Hc. rewrite !elem_of_cons, elem_of_nil in Hc. by decompose [or] Hc.
Qed.

Lemma older_element_none c cps : c ∉ base_types -> c <> JVM_SIGNATURE_CLASS -> ~ older_element (c :: cps).
Proof using. intros Hb Hc [(c' & [= <- _] & ?)|(name & [= ? _] & _)]; done. Qed.

(** The scanner of descriptors in older class files. *)
Lemma older_signature cps pre dim :
  Forall is_scalar cps -> 0 <= dim <= 255 ->
  exists o, skip_over_field_signature isJavaIdentifierStart isJavaIdentifierPart parser (pre ++ text cps ++ [0]) false dim
              (length (text cps)) (zlen pre) = Some o /\
    (o = Returns (Some (zlen pre + zlen (text cps))) <-> older_type (255 - dim) cps).
Proof using Hmajor.
  intros Hc. revert pre dim. induction Hc as [|c cps Hc Hcps IH]; intros pre dim Hdim.
  { eexists. split; [done|]. split; [done|]. by intros ([|n] & [|] & _ & [=] & [(? & [=] & _)|(? & [=] & _)]). }
  rewrite text_cons. destruct (utf16_bytes c Hc) as [[-> Ha]|(b & l & -> & Hb & Ha)]; cbn [app length skip_over_field_signature];
    rewrite load_app_mid; cbn [mbind option_bind negb].
  2: { repeat rewrite (proj2 (Z.eqb_neq b _)) by lia. eexists. split; [done|]. split; [done|].
       rewrite older_type_other by lia. intros []%older_element_none; [|lia].
       unfold base_types. rewrite !elem_of_cons, elem_of_nil. lia. }
  rewrite andb_true_r. pose proof (base_letter false c) as Hletter. cbn [negb] in Hletter. rewrite andb_true_r in Hletter.
  assert (Hbase : well_formed false (Base c) <-> c ∈ base_types) by (cbn; naive_solver). rewrite Hbase in Hletter. clear Hbase.
  destruct (c =? JVM_SIGNATURE_VOID) eqn:Ev.
  { apply Z.eqb_eq in Ev as ->. eexists. split; [done|]. split; [done|]. rewrite older_type_other by (done || lia).
    intros []%older_element_none; [|done]. intros [? _]%Hletter. done. }
  match goal with |- context [if ?b then Some (Returns (Some (zlen pre + 1))) else _] => destruct b eqn:Eb end.
  { eexists. split; [done|]. assert (c ∈ base_types) as Hin by by apply Hletter.
    assert (c <> JVM_SIGNATURE_ARRAY) by (intros ->; done). rewrite older_type_other, older_element_letter by (done || lia). split.
    - intros [= E]. apply text_nil_inv; [done|]. destruct (text cps); [done|cbn [length] in E; lia].
    - intros ->. do 2 f_equal. }
  assert (c ∉ base_types) as Hnin by (intros [_ ?]%Hletter; congruence).
  destruct (Z.eqb_spec c JVM_SIGNATURE_CLASS) as [->|].
  - rewrite (proj2 (Z.ltb_lt _ _)) by lia. destruct (older_object cps pre Hcps) as (o & Ho & Hiff).
    exists o. rewrite older_type_other, older_element_class, <- Hiff by (done || lia). split; [exact Ho|].
    by replace (zlen pre + 1 + zlen (text cps)) with (zlen pre + Z.of_nat (S (length (text cps)))) by lia.
  - destruct (Z.eqb_spec c JVM_SIGNATURE_ARRAY) as [->|].
    + destruct (Z.gtb_spec (dim + 1) 255).
      { eexists. split; [done|]. split; [done|]. replace dim with 255 by lia.
        intros ([|k] & element & Hk & E & He); [|lia]. cbn in E. subst element. by apply older_element_none in He. }
      destruct (IH (pre ++ [JVM_SIGNATURE_ARRAY]) (dim + 1)) as (o & Ho & Hiff); [lia|]. after_byte in Ho.
      exists o. split; [exact Ho|]. rewrite older_type_array by lia. replace (255 - dim - 1) with (255 - (dim + 1)) by lia.
      rewrite <- Hiff, length_app. cbn [length]. by replace (Z.of_nat (length pre + 1) + zlen (text cps)) with (zlen pre + Z.of_nat (S (length (text cps)))) by lia.
    + eexists. split; [done|]. split; [done|]. rewrite older_type_other by (done || lia). by intros []%older_element_none.
Qed.

Lemma older_class_name cps :
  Forall is_scalar cps ->
  exists o, verify_legal_class_name isJavaIdentifierStart isJavaIdentifierPart parser (text cps) = Some o /\
    (o = Returns tt <-> if decide (head cps = Some JVM_SIGNATURE_ARRAY) then older_type 255 cps
                        else legal_name isJavaIdentifierStart isJavaIdentifierPart true cps).
Proof using Hverify Hmajor.
  intros Hc. unfold verify_legal_class_name. rewrite Hverify, (proj2 (Z.ltb_lt _ _)) by lia.
  pose proof (older_name true cps Hc) as (o & Ho & Hiff). destruct (text cps) as [|b l] eqn:E.
  { apply text_nil_inv in E as ->; [|done]. apply throws_unless, legal_name_nil. }
  rewrite zlen_pos. change (load (as_utf8_flexible_buffer (b :: l)) 0) with (Some b). cbn [mbind option_bind].
  assert (Hhead : head cps = Some JVM_SIGNATURE_ARRAY <-> b = JVM_SIGNATURE_ARRAY).
  { destruct Hc as [|c cps Hc _]; [done|]. rewrite text_cons in E. cbn [head].
    destruct (utf16_bytes c Hc) as [[E' ?]|(b' & l' & E' & ? & ?)]; rewrite E' in E; injection E as -> _; split; (congruence || intros [= ->] || intros ->); lia. }
  destruct (Z.eqb_spec b JVM_SIGNATURE_ARRAY) as [->|].
  - rewrite decide_True by tauto. destruct (older_signature cps [] 0 Hc) as (o' & Ho' & Hiff'); [lia|].
    rewrite E in Ho', Hiff'. unfold as_utf8_flexible_buffer. cbn [app] in Ho' |- *. change (zlen []) with 0 in *. rewrite Ho'.
    setoid_rewrite <- Hiff'. destruct o' as [q|]; [|by apply throws_unless]. apply throw_unless_ok. rewrite bool_decide_eq_true. naive_solver.
  - rewrite decide_False by tauto. destruct (Z.eqb_spec b LESS) as [->|]; [by eapply throws_unless, legal_name_less|by exists o].
Qed.

Lemma older_field_name cps :
  Forall is_scalar cps ->
  exists o, verify_legal_field_name isJavaIdentifierStart isJavaIdentifierPart parser (text cps) = Some o /\
    (o = Returns tt <-> legal_name isJavaIdentifierStart isJavaIdentifierPart false cps).
Proof using Hverify Hmajor.
  intros Hc. unfold verify_legal_field_name. rewrite Hverify, (proj2 (Z.ltb_lt _ _)) by lia.
  pose proof (older_name false cps Hc) as (o & Ho & Hiff). destruct (text cps) as [|b l] eqn:E.
  { apply text_nil_inv in E as ->; [|done]. apply throws_unless, legal_name_nil. }
  rewrite zlen_pos. change (load (as_utf8_flexible_buffer (b :: l)) 0) with (Some b). cbn [mbind option_bind].
  destruct (Z.eqb_spec b LESS) as [->|]; [by eapply throws_unless, legal_name_less|by exists o].
Qed.

Lemma older_method_name cps :
  Forall is_scalar cps ->
  exists o, verify_legal_method_name isJavaIdentifierStart isJavaIdentifierPart parser (text cps) = Some o /\
    (o = Returns tt <-> initializer_name (text cps) \/ legal_name isJavaIdentifierStart isJavaIdentifierPart false cps).
Proof using Hverify Hmajor.
  intros Hc. unfold verify_legal_method_name. rewrite Hverify, (proj2 (Z.ltb_lt _ _)) by lia.
  pose proof (older_name false cps Hc) as (o & Ho & Hiff). destruct (text cps) as [|b l] eqn:E.
  { apply text_nil_inv in E as ->; [|done]. apply throws_unless. intros [[]|[]%legal_name_nil]; done. }
  rewrite zlen_pos. change (load (as_utf8_flexible_buffer (b :: l)) 0) with (Some b). cbn [mbind option_bind].
  destruct (Z.eqb_spec b LESS) as [->|].
  - apply throw_unless_ok. rewrite initializer_names. pose proof (legal_name_less false cps l Hc E). tauto.
  - exists o. split; [done|]. rewrite Hiff. split; [by right|]. intros [[= ?]%initializer_less|?]; done.
Qed.
End older_names.
End names.

(** In class files of any version the checks of names end, whatever the bytes are. *)
Lemma names_total isJavaIdentifierStart isJavaIdentifierPart parser name :
  Forall (is_u 8) name ->
  is_Some (verify_legal_class_name isJavaIdentifierStart isJavaIdentifierPart parser name) /\
  is_Some (verify_legal_field_name isJavaIdentifierStart isJavaIdentifierPart parser name) /\
  is_Some (verify_legal_method_name isJavaIdentifierStart isJavaIdentifierPart parser name).
Proof.
  intros Hs. unfold verify_legal_class_name, verify_legal_field_name, verify_legal_method_name.
  destruct (negb _ || _); [done|]. destruct name as [|b l]; [done|]. rewrite zlen_pos.
  change (load (as_utf8_flexible_buffer (b :: l)) 0) with (Some b). cbn [mbind option_bind]. unfold as_utf8_flexible_buffer.
  assert (Hold : forall slash_ok, is_Some (p ← skip_over_field_name isJavaIdentifierStart isJavaIdentifierPart ((b :: l) ++ [0]) slash_ok
     (zlen (b :: l)) (S (length (b :: l))) 0 false false; throw_unless (bool_decide (p = Some (zlen (b :: l)))))).
  { intros slash_ok. destruct (field_name_total isJavaIdentifierStart isJavaIdentifierPart (b :: l) slash_ok (S (length (b :: l))) 0 false false Hs)
      as (o & -> & _); [lia..|]. by eexists. }
  assert (Hnew : forall type, is_Some (legal ← verify_unqualified_name ((b :: l) ++ [0]) (zlen (b :: l)) type (S (length (b :: l))) 0;
     throw_unless legal)).
  { intros type. destruct (unqualified_total (b :: l) type (S (length (b :: l))) 0 Hs) as (o & ->); [lia..|]. by eexists. }
  destruct (signature_total isJavaIdentifierStart isJavaIdentifierPart parser (b :: l) [] false 0 Hs) as (o & Ho & _).
  change (zlen []) with 0 in Ho. cbn [app] in *. rewrite Ho. split_and!.
  - destruct (b =? JVM_SIGNATURE_ARRAY); [destruct o; by eexists|]. case_match; [case_match; [done|by eexists]|done].
  - case_match; [case_match; [done|by eexists]|done].
  - case_match; [by eexists|]. by case_match.
Qed.

(** * Modifiers *)

(** A field of the flags, bit by bit. *)
Lemma mask_testbits flags mask v :
  is_u 16 mask -> (v &&& mask) = v ->
  ((flags &&& mask) =? v) =
    forallb (fun i => eqb (Z.testbit flags i) (Z.testbit v i)) (List.filter (Z.testbit mask) (seqZ 0 16)).
Proof.
  intros Hm Hv. apply eq_true_iff_eq. rewrite Z.eqb_eq, forallb_forall. setoid_rewrite eqb_true_iff.
  setoid_rewrite filter_In. split.
  - intros <- i [_ Hi]. by rewrite Z.land_spec, Hi, andb_true_r.
  - intros H. apply Z.bits_inj'. intros n Hn. rewrite <- Hv, !Z.land_spec. destruct (Z.testbit mask n) eqn:E; [|by rewrite !andb_false_r].
    rewrite (H n); [done|]. split; [|done]. apply list_elem_of_In, elem_of_seqZ.
    destruct (Z.lt_ge_cases n 16); [lia|]. by rewrite (testbit_high 16 mask) in E by (done || lia).
Qed.

(** All tests of flags become tests of their bits, and the bits are tried out. *)
Ltac by_flags flags :=
  rewrite ?mask_testbits by (done || reflexivity);
  generalize (Z.testbit flags); intros bit; cbv;
  repeat match goal with |- context [bit ?i] => destruct (bit i); try reflexivity end.

(** At most one of public, private and protected. *)
Definition one_visibility (flags : Z) : bool :=
  let visibility := flags &&& (JVM_ACC_PUBLIC ||| JVM_ACC_PRIVATE ||| JVM_ACC_PROTECTED) in
  (visibility =? 0) || (visibility =? JVM_ACC_PUBLIC) || (visibility =? JVM_ACC_PRIVATE) || (visibility =? JVM_ACC_PROTECTED).

Lemma visibility_checked flags : has_illegal_visibility flags = negb (one_visibility flags).
Proof. unfold has_illegal_visibility, one_visibility. cbv zeta. by_flags flags. Qed.

(** What the flags of a class, a field and a method may be, by masks; [recent] is for class
    files of version 49 and later. *)
Definition legal_class_flags (recent : bool) (flags : Z) : bool :=
  if (flags &&& JVM_ACC_INTERFACE) =? 0 then
    negb ((flags &&& (JVM_ACC_ABSTRACT ||| JVM_ACC_FINAL)) =? (JVM_ACC_ABSTRACT ||| JVM_ACC_FINAL)) &&
    implb recent ((flags &&& JVM_ACC_ANNOTATION) =? 0)
  else
    ((flags &&& (JVM_ACC_ABSTRACT ||| JVM_ACC_FINAL)) =? JVM_ACC_ABSTRACT) &&
    implb recent ((flags &&& (JVM_ACC_SUPER ||| JVM_ACC_ENUM)) =? 0).

Definition legal_field_flags (recent is_interface : bool) (flags : Z) : bool :=
  if is_interface then
    ((flags &&& (JVM_ACC_PUBLIC ||| JVM_ACC_PRIVATE ||| JVM_ACC_PROTECTED ||| JVM_ACC_STATIC ||| JVM_ACC_FINAL ||| JVM_ACC_VOLATILE |||
       JVM_ACC_TRANSIENT)) =? (JVM_ACC_PUBLIC ||| JVM_ACC_STATIC ||| JVM_ACC_FINAL)) &&
    implb recent ((flags &&& JVM_ACC_ENUM) =? 0)
  else
    one_visibility flags && negb ((flags &&& (JVM_ACC_FINAL ||| JVM_ACC_VOLATILE)) =? (JVM_ACC_FINAL ||| JVM_ACC_VOLATILE)).

Definition legal_method_flags (recent is_interface is_initializer : bool) (flags : Z) : bool :=
  if is_interface then
    ((flags &&& (JVM_ACC_PUBLIC ||| JVM_ACC_STATIC ||| JVM_ACC_FINAL ||| JVM_ACC_NATIVE ||| JVM_ACC_ABSTRACT)) =?
       (JVM_ACC_PUBLIC ||| JVM_ACC_ABSTRACT)) &&
    implb recent ((flags &&& (JVM_ACC_SYNCHRONIZED ||| JVM_ACC_STRICT)) =? 0)
  else if is_initializer then
    ((flags &&& (JVM_ACC_STATIC ||| JVM_ACC_FINAL ||| JVM_ACC_SYNCHRONIZED ||| JVM_ACC_NATIVE ||| JVM_ACC_ABSTRACT)) =? 0) &&
    implb recent ((flags &&& JVM_ACC_BRIDGE) =? 0)
  else
    one_visibility flags &&
    (((flags &&& JVM_ACC_ABSTRACT) =? 0) ||
     ((flags &&& (JVM_ACC_PRIVATE ||| JVM_ACC_STATIC ||| JVM_ACC_FINAL ||| JVM_ACC_NATIVE)) =? 0) &&
     implb recent ((flags &&& (JVM_ACC_SYNCHRONIZED ||| JVM_ACC_STRICT)) =? 0)).

(** * The checks *)

(** A check ends, and it returns exactly for what it should accept. *)
Definition accepts (result : option (checked unit)) (legal : Prop) : Prop :=
  exists o, result = Some o /\ (o = Returns tt <-> legal).

(** C28: the check of a constant's bytes stays within them, ends, and accepts exactly the
    sequences of characters of one to three bytes without zero bytes; from version 48 on
    those are exactly the modified UTF-8 encodings of Java strings. *)
Theorem utf8_constants_checked parser s :
  Forall (is_u 8) s -> _need_verify parser = true ->
  accepts (verify_legal_utf8 parser s (zlen s)) (utf8_text (_major_version parser) s) /\
  (47 < _major_version parser ->
   accepts (verify_legal_utf8 parser s (zlen s)) (exists u, jchars u /\ s = encode u)).
Proof.
  intros Hs Hv. pose proof (verify_utf8_ok parser s Hs Hv) as (o & Ho & Hiff).
  split; [by exists o|]. intros Hm. exists o. split; [done|]. rewrite Hiff. split; [by apply text_decode|].
  intros (u & Hu & ->). by apply text_encode.
Qed.

(** C29: the checks of names, when names are verified and the verification is not relaxed.
    For the modified UTF-8 text of any Java string, from version 49 on: a class name that
    does not start with '[' is accepted when it is not empty and has no '.' and no ';', so
    it may have slashes anywhere.  A field name must not have a '/' either, and a method name is
    "<init>", "<clinit>" or has neither these characters nor '<' and '>'.  A class name that
    starts with '[' must be the descriptor of an array.  Before version 49, for the text of
    Unicode scalar values: field and method names are identifiers, a class name is one with
    slashes that do not follow each other, and one that starts with '[' is up to 255
    brackets in front of the letter of a primitive type or such a name between 'L' and ';'. *)
Theorem names_checked isJavaIdentifierStart isJavaIdentifierPart parser :
  _need_verify parser = true -> _relax_verify parser = false ->
  let class_name := verify_legal_class_name isJavaIdentifierStart isJavaIdentifierPart parser in
  let field_name := verify_legal_field_name isJavaIdentifierStart isJavaIdentifierPart parser in
  let method_name := verify_legal_method_name isJavaIdentifierStart isJavaIdentifierPart parser in
  let identifier := legal_name isJavaIdentifierStart isJavaIdentifierPart in
  let without type u := u <> [] /\ Forall (fun c => forbidden type c = false) u in
  (JAVA_1_5_VERSION <= _major_version parser -> forall u, jchars u ->
     accepts (class_name (encode u))
       (if decide (head (encode u) = Some JVM_SIGNATURE_ARRAY) then exists d, legal_type false d /\ encode u = print d
        else without LegalClass u) /\
     accepts (field_name (encode u)) (without LegalField u) /\
     accepts (method_name (encode u)) (initializer_name (encode u) \/ without LegalMethod u)) /\
  (_major_version parser < JAVA_1_5_VERSION -> forall cps, Forall is_scalar cps ->
     accepts (class_name (text cps))
       (if decide (head cps = Some JVM_SIGNATURE_ARRAY) then older_type isJavaIdentifierStart isJavaIdentifierPart 255 cps
        else identifier true cps) /\
     accepts (field_name (text cps)) (identifier false cps) /\
     accepts (method_name (text cps)) (initializer_name (text cps) \/ identifier false cps)).
Proof.
  intros Hv Hr. assert (Hverify : negb (_need_verify parser) || _relax_verify parser = false) by by rewrite Hv, Hr.
  cbv zeta. split; intros Hm; [intros u Hu|intros cps Hc]; split_and!.
  - by apply recent_class_name.
  - by apply recent_field_name.
  - by apply recent_method_name.
  - by apply older_class_name.
  - by apply older_field_name.
  - by apply older_method_name.
Qed.

(** C24: from version 49 on, the check of a field's signature accepts exactly the texts of
    types of at most 255 dimensions, and the check of a method's signature exactly the texts
    of methods over such types, with the result void for an initializer; it returns the
    number of slots that the parameters take. *)
Theorem signatures_checked isJavaIdentifierStart isJavaIdentifierPart parser name signature :
  JAVA_1_5_VERSION <= _major_version parser -> _need_verify parser = true -> zlen signature < 2 ^ 16 ->
  accepts (verify_legal_field_signature isJavaIdentifierStart isJavaIdentifierPart parser signature)
    (exists d, legal_type false d /\ signature = print d) /\
  exists o, verify_legal_method_signature isJavaIdentifierStart isJavaIdentifierPart parser name signature = Some o /\
    forall n, o = Returns n <-> exists parameters result,
      legal_method name parameters result /\ signature = print_method parameters result /\ n = all_slots parameters.
Proof. intros Hm Hv Hlen. split; [by apply field_signature_ok|by apply method_signature_ok]. Qed.

(** In class files of any version, all checks of names and signatures end and stay within
    the text and its terminating zero, whatever its bytes are. *)
Theorem format_checks_total isJavaIdentifierStart isJavaIdentifierPart parser name signature :
  Forall (is_u 8) name -> Forall (is_u 8) signature ->
  is_Some (verify_legal_class_name isJavaIdentifierStart isJavaIdentifierPart parser name) /\
  is_Some (verify_legal_field_name isJavaIdentifierStart isJavaIdentifierPart parser name) /\
  is_Some (verify_legal_method_name isJavaIdentifierStart isJavaIdentifierPart parser name) /\
  is_Some (verify_legal_field_signature isJavaIdentifierStart isJavaIdentifierPart parser signature) /\
  is_Some (verify_legal_method_signature isJavaIdentifierStart isJavaIdentifierPart parser name signature).
Proof.
  intros Hn Hs. destruct (names_total isJavaIdentifierStart isJavaIdentifierPart parser name Hn) as (? & ? & ?).
  split_and!; try done; [by apply field_signature_total|by apply method_signature_total].
Qed.

(** The checks of modifiers accept exactly the flags that the masks allow.  The masks have
    no visibility for initializers, and not the whole of it for methods of interfaces: both
    are accepted with two visibilities at once. *)
Theorem modifiers_checked parser flags is_interface name :
  _need_verify parser = true ->
  let recent := _major_version parser >=? JAVA_1_5_VERSION in
  verify_legal_class_modifiers parser flags = throw_unless (legal_class_flags recent flags) /\
  verify_legal_field_modifiers parser flags is_interface = throw_unless (legal_field_flags recent is_interface flags) /\
  verify_legal_method_modifiers parser flags is_interface name =
    throw_unless (legal_method_flags recent is_interface (bool_decide (name = object_initializer_name)) flags) /\
  legal_method_flags recent false true (JVM_ACC_PUBLIC ||| JVM_ACC_PRIVATE) = true /\
  legal_method_flags recent true false (JVM_ACC_PUBLIC ||| JVM_ACC_PRIVATE ||| JVM_ACC_ABSTRACT) = true.
Proof.
  intros Hv. cbv zeta. unfold verify_legal_class_modifiers, verify_legal_field_modifiers, verify_legal_method_modifiers.
  rewrite Hv, visibility_checked. cbn [negb]. cbv zeta. generalize (_major_version parser >=? JAVA_1_5_VERSION) as recent.
  generalize (bool_decide (name = object_initializer_name)) as is_initializer. intros is_initializer recent.
  unfold legal_class_flags, legal_field_flags, legal_method_flags, one_visibility. cbv zeta.
  split_and!; [f_equal..| |]; [destruct recent|destruct recent, is_interface|destruct recent, is_interface, is_initializer|by destruct recent..];
    by_flags flags.
Qed.

(** * Examples *)

(** The letters of Latin-1, as an example of the two Java methods. *)
Definition latin_letter (c : Z) : option bool := Some ((192 <=? c) && (c <=? 255) && negb (c =? 215) && negb (c =? 247)).
Definition java6 : ClassFileParser := mkParser 50 true false.
Definition java4 : ClassFileParser := mkParser 48 true false.

(** "Aé" and a zero character; a zero byte is not accepted. *)
Lemma utf8_constants_checked_witness :
  verify_legal_utf8 java6 [65; 195; 169; 192; 128] 5 = Some (Returns tt) /\
  verify_legal_utf8 java6 [65; 0] 2 = Some Throws /\
  accepts (verify_legal_utf8 java6 [65; 195; 169; 192; 128] 5) (exists u, jchars u /\ [65; 195; 169; 192; 128] = encode u).
Proof.
  split; [reflexivity|]. split; [reflexivity|].
  refine (proj2 (utf8_constants_checked java6 [65; 195; 169; 192; 128] _ _) _).
  - repeat constructor; unfold is_u; lia.
  - reflexivity.
  - reflexivity.
Defined.

(** The class name "a/b" is accepted in both versions, "é" in the older one as a field. *)
Lemma names_checked_witness :
  verify_legal_class_name latin_letter latin_letter java6 [97; 47; 98] = Some (Returns tt) /\
  verify_legal_field_name latin_letter latin_letter java6 [97; 47; 98] = Some Throws /\
  verify_legal_class_name latin_letter latin_letter java4 [97; 47; 47; 98] = Some Throws /\
  verify_legal_field_name latin_letter latin_letter java4 [195; 169] = Some (Returns tt) /\
  accepts (verify_legal_field_name latin_letter latin_letter java6 (encode [97; 47; 98]))
    ([97; 47; 98] <> [] /\ Forall (fun c => forbidden LegalField c = false) [97; 47; 98]) /\
  accepts (verify_legal_field_name latin_letter latin_letter java4 (text [233])) (legal_name latin_letter latin_letter false [233]).
Proof.
  split_and!; try reflexivity.
  - refine (proj1 (proj2 (proj1 (names_checked latin_letter latin_letter java6 _ _) _ [97; 47; 98] _))); try reflexivity; [done|].
    repeat constructor; unfold is_u; lia.
  - refine (proj1 (proj2 (proj2 (names_checked latin_letter latin_letter java4 _ _) _ [233] _))); try reflexivity.
    repeat constructor; unfold is_scalar; lia.
Defined.

(** "(J[La;)V" takes three slots. *)
Lemma signatures_checked_witness :
  verify_legal_method_signature latin_letter latin_letter java6 [109] [40; 74; 91; 76; 97; 59; 41; 86] = Some (Returns 3) /\
  verify_legal_method_signature latin_letter latin_letter java6 [109] [40; 86; 41; 86] = Some Throws /\
  accepts (verify_legal_field_signature latin_letter latin_letter java6 [91; 76; 97; 59])
    (exists d, legal_type false d /\ [91; 76; 97; 59] = print d).
Proof.
  split; [reflexivity|]. split; [reflexivity|].
  refine (proj1 (signatures_checked latin_letter latin_letter java6 [109] [91; 76; 97; 59] _ _ _)); [done|reflexivity|reflexivity].
Defined.

(** A truncated character, which counts as a character of one byte, and an unfinished class name. *)
Lemma format_checks_total_witness :
  verify_legal_field_name latin_letter latin_letter java4 [195] = Some (Returns tt) /\
  verify_legal_field_signature latin_letter latin_letter java4 [76; 97] = Some Throws /\
  is_Some (verify_legal_field_name latin_letter latin_letter java4 [195]).
Proof.
  split; [reflexivity|]. split; [reflexivity|].
  refine (proj1 (proj2 (format_checks_total latin_letter latin_letter java4 [195] [76; 97] _ _))); repeat constructor; unfold is_u; lia.
Defined.

(** A constructor that is public and private at once. *)
Lemma modifiers_checked_witness :
  legal_method_flags true false true 3 = true /\
  verify_legal_method_modifiers java6 3 false object_initializer_name = throw_unless (legal_method_flags true false true 3).
Proof.
  split; [reflexivity|].
  refine (proj1 (proj2 (proj2 (modifiers_checked java6 3 false object_initializer_name _)))). reflexivity.
Defined.
