(* ===== verification/Signature.v ===== *)
(** * Iteration over signatures

    Model of runtime/signature.hpp and signature.cpp, with the parts of a method that they
    use (oops/methodOop.cpp, oops/constMethodOop.hpp): the iterators over the types of a
    signature, the fingerprint of a method, the stream of types, and the check of
    signatures that native code supplies.

    The virtual methods of an iterator are a function [visit] on the state of the subclass;
    it may also change [_return_type] and it has no result where the method is not to be
    reached.  Reading a byte outside of the signature has no result.  A signature has less
    than 2^16 bytes, so that the indices of type int are integers without wrap-around. *)

From S2P Require Import Prelude ClassFileParser.

Open Scope Z_scope.

(** ** Types (utilities/globalDefinitions.hpp) *)

Inductive BasicType :=
| T_BOOLEAN | T_CHAR | T_FLOAT | T_DOUBLE | T_BYTE | T_SHORT | T_INT | T_LONG | T_OBJECT | T_ARRAY | T_VOID
| T_ADDRESS | T_NARROWOOP | T_CONFLICT | T_ILLEGAL.

Definition BasicType_value (t : BasicType) : Z :=
  match t with
  | T_BOOLEAN => 4 | T_CHAR => 5 | T_FLOAT => 6 | T_DOUBLE => 7 | T_BYTE => 8 | T_SHORT => 9 | T_INT => 10 | T_LONG => 11
  | T_OBJECT => 12 | T_ARRAY => 13 | T_VOID => 14 | T_ADDRESS => 15 | T_NARROWOOP => 16 | T_CONFLICT => 17 | T_ILLEGAL => 99
  end.

Abbreviation T_BOOLEAN_size := 1.
Abbreviation T_CHAR_size := 1.
Abbreviation T_FLOAT_size := 1.
Abbreviation T_DOUBLE_size := 2.
Abbreviation T_BYTE_size := 1.
Abbreviation T_SHORT_size := 1.
Abbreviation T_INT_size := 1.
Abbreviation T_LONG_size := 2.
Abbreviation T_OBJECT_size := 1.
Abbreviation T_ARRAY_size := 1.
Abbreviation T_VOID_size := 0.

(** The virtual methods of an iterator, with their arguments. *)
Inductive call :=
| do_bool | do_char | do_float | do_double | do_byte | do_short | do_int | do_long | do_void
| do_object (begin_ end_ : Z)
| do_array (begin_ end_ : Z).

(** ** Iterators *)

Module SignatureIterator.
(** The fields of a fingerprint. *)
Abbreviation static_feature_size := 1.
Abbreviation result_feature_size := 4.
Abbreviation result_feature_mask := 0xF.
Abbreviation parameter_feature_size := 4.
Abbreviation parameter_feature_mask := 0xF.
Abbreviation bool_parm := 1.
Abbreviation byte_parm := 2.
Abbreviation char_parm := 3.
Abbreviation short_parm := 4.
Abbreviation int_parm := 5.
Abbreviation long_parm := 6.
Abbreviation float_parm := 7.
Abbreviation double_parm := 8.
Abbreviation obj_parm := 9.
Abbreviation done_parm := 10.
(** [(BitsPerLong-1 - result_feature_size - parameter_feature_size - static_feature_size) /
    parameter_feature_size]. *)
Abbreviation max_size_of_parameters := 13.

Section iterator.
Context {A : Type} (visit : call -> Z -> BasicType * A -> option (BasicType * A)).
Context (signature : list Z).

Record SignatureIterator := mkIterator {
  _index : Z;
  _parameter_index : Z;
  _return_type : BasicType;
  subclass : A
}.

Definition set_index (i : Z) (it : SignatureIterator) : SignatureIterator :=
  mkIterator i (_parameter_index it) (_return_type it) (subclass it).
Definition set_parameter_index (p : Z) (it : SignatureIterator) : SignatureIterator :=
  mkIterator (_index it) p (_return_type it) (subclass it).

(** A virtual call. *)
Definition invoke (c : call) (it : SignatureIterator) : option SignatureIterator :=
  '(t, s) ← visit c (_parameter_index it) (_return_type it, subclass it);
  Some (mkIterator (_index it) (_parameter_index it) t s).

(** [if (_parameter_index < 0) _return_type = t]. *)
Definition note_return (t : BasicType) (it : SignatureIterator) : SignatureIterator :=
  if _parameter_index it <? 0 then mkIterator (_index it) (_parameter_index it) t (subclass it) else it.

Definition expect (c : Z) (it : SignatureIterator) : option SignatureIterator :=
  b ← load signature (_index it);
  if b =? c then Some (set_index (_index it + 1) it) else None.

(** The loops return the index where they stop; every round reads a byte of the fuel. *)
Fixpoint skip_optional_size (fuel : nat) (i : Z) : option Z :=
  match fuel with
  | O => None
  | S fuel =>
      c ← load signature i;
      if (48 <=? c) && (c <=? 57) then skip_optional_size fuel (i + 1) else Some i
  end.

Fixpoint skip_past_semicolon (fuel : nat) (i : Z) : option Z :=
  match fuel with
  | O => None
  | S fuel =>
      c ← load signature i;
      if c =? SEMICOLON then Some (i + 1) else skip_past_semicolon fuel (i + 1)
  end.

Fixpoint skip_dimensions (fuel : nat) (i : Z) : option Z :=
  match fuel with
  | O => None
  | S fuel =>
      c ← load signature i;
      if c =? JVM_SIGNATURE_ARRAY then
        i ← skip_optional_size (length signature) (i + 1);
        skip_dimensions fuel i
      else Some i
  end.

(** The case of a type of one letter. *)
Definition parse_letter (c : call) (t : BasicType) (size : Z) (it : SignatureIterator) : option (SignatureIterator * Z) :=
  it ← invoke c it;
  Some (set_index (_index it + 1) (note_return t it), size).

Definition parse_type (it : SignatureIterator) : option (SignatureIterator * Z) :=
  c ← load signature (_index it);
  if c =? JVM_SIGNATURE_BYTE then parse_letter do_byte T_BYTE T_BYTE_size it
  else if c =? JVM_SIGNATURE_CHAR then parse_letter do_char T_CHAR T_CHAR_size it
  else if c =? JVM_SIGNATURE_DOUBLE then parse_letter do_double T_DOUBLE T_DOUBLE_size it
  else if c =? JVM_SIGNATURE_FLOAT then parse_letter do_float T_FLOAT T_FLOAT_size it
  else if c =? JVM_SIGNATURE_INT then parse_letter do_int T_INT T_INT_size it
  else if c =? JVM_SIGNATURE_LONG then parse_letter do_long T_LONG T_LONG_size it
  else if c =? JVM_SIGNATURE_SHORT then parse_letter do_short T_SHORT T_SHORT_size it
  else if c =? JVM_SIGNATURE_BOOLEAN then parse_letter do_bool T_BOOLEAN T_BOOLEAN_size it
  else if c =? JVM_SIGNATURE_VOID then parse_letter do_void T_VOID T_VOID_size it
  else if c =? JVM_SIGNATURE_CLASS then
    let begin_ := _index it + 1 in
    i ← skip_past_semicolon (length signature) begin_;
    it ← invoke (do_object begin_ i) (set_index i it);
    Some (note_return T_OBJECT it, T_OBJECT_size)
  else if c =? JVM_SIGNATURE_ARRAY then
    let begin_ := _index it + 1 in
    i ← skip_optional_size (length signature) begin_;
    i ← skip_dimensions (length signature) i;
    c ← load signature i;
    i ← (if c =? JVM_SIGNATURE_CLASS then skip_past_semicolon (length signature) i else Some (i + 1));
    it ← invoke (do_array begin_ i) (set_index i it);
    Some (note_return T_ARRAY it, T_ARRAY_size)
  else None.

Definition dispatch_field (it : SignatureIterator) : option SignatureIterator :=
  '(it, _) ← parse_type (set_parameter_index 0 (set_index 0 it));
  Some it.

(** [while (byte_at(_index) != ')') _parameter_index += parse_type()]. *)
Fixpoint parse_parameters (fuel : nat) (it : SignatureIterator) : option SignatureIterator :=
  match fuel with
  | O => None
  | S fuel =>
      c ← load signature (_index it);
      if c =? JVM_SIGNATURE_ENDFUNC then Some it
      else
        '(it, size) ← parse_type it;
        parse_parameters fuel (set_parameter_index (_parameter_index it + size) it)
  end.

Definition iterate_parameters (it : SignatureIterator) : option SignatureIterator :=
  it ← expect JVM_SIGNATURE_FUNC (set_parameter_index 0 (set_index 0 it));
  it ← parse_parameters (length signature) it;
  it ← expect JVM_SIGNATURE_ENDFUNC it;
  Some (set_parameter_index 0 it).

(** [while (byte_at(_index) != ')') _index++]. *)
Fixpoint skip_parameters (fuel : nat) (it : SignatureIterator) : option SignatureIterator :=
  match fuel with
  | O => None
  | S fuel =>
      c ← load signature (_index it);
      if c =? JVM_SIGNATURE_ENDFUNC then Some it else skip_parameters fuel (set_index (_index it + 1) it)
  end.

Definition iterate_returntype (it : SignatureIterator) : option SignatureIterator :=
  it ← expect JVM_SIGNATURE_FUNC (set_index 0 it);
  it ← skip_parameters (length signature) it;
  it ← expect JVM_SIGNATURE_ENDFUNC it;
  '(it, _) ← parse_type (set_parameter_index (-1) it);
  Some (set_parameter_index 0 it).

Definition iterate (it : SignatureIterator) : option SignatureIterator :=
  it ← expect JVM_SIGNATURE_FUNC (set_index 0 (set_parameter_index 0 it));
  it ← parse_parameters (length signature) it;
  it ← expect JVM_SIGNATURE_ENDFUNC it;
  '(it, _) ← parse_type (set_parameter_index (-1) it);
  Some (set_parameter_index 0 it).

(** *** Iteration by fingerprint *)

(** The loop; a fingerprint has sixteen fields of four bits. *)
Fixpoint fingerprint_loop (fuel : nat) (fingerprint : Z) (it : SignatureIterator) : option SignatureIterator :=
  match fuel with
  | O => None
  | S fuel =>
      let go c size :=
        it ← invoke c it;
        fingerprint_loop fuel (fingerprint ≫ parameter_feature_size) (set_parameter_index (_parameter_index it + size) it) in
      let parm := fingerprint &&& parameter_feature_mask in
      if parm =? bool_parm then go do_bool T_BOOLEAN_size
      else if parm =? byte_parm then go do_byte T_BYTE_size
      else if parm =? char_parm then go do_char T_CHAR_size
      else if parm =? short_parm then go do_short T_SHORT_size
      else if parm =? int_parm then go do_int T_INT_size
      else if parm =? obj_parm then go (do_object 0 0) T_OBJECT_size
      else if parm =? long_parm then go do_long T_LONG_size
      else if parm =? float_parm then go do_float T_FLOAT_size
      else if parm =? double_parm then go do_double T_DOUBLE_size
      else if parm =? done_parm then Some it
      else None
  end.

Definition iterate_fingerprint (fingerprint : Z) (it : SignatureIterator) : option SignatureIterator :=
  if fingerprint =? 2 ^ 64 - 1 then iterate_parameters it
  else
    ASSERT negb (fingerprint =? 0) ;;
    fingerprint_loop 16 (fingerprint ≫ (static_feature_size + result_feature_size)) (set_parameter_index 0 it).
End iterator.
Arguments SignatureIterator : clear implicits.
Arguments mkIterator {A}.
End SignatureIterator.
Import SignatureIterator.

(** ** Subclasses that compute values *)

(** [SignatureInfo]: every type is handed to the virtual [set]. *)
Definition SignatureInfo_visit {A : Type} (set : Z -> BasicType -> BasicType * A -> BasicType * A)
    (c : call) (_ : Z) (s : BasicType * A) : option (BasicType * A) :=
  Some (match c with
        | do_bool => set T_BOOLEAN_size T_BOOLEAN s
        | do_char => set T_CHAR_size T_CHAR s
        | do_float => set T_FLOAT_size T_FLOAT s
        | do_double => set T_DOUBLE_size T_DOUBLE s
        | do_byte => set T_BYTE_size T_BYTE s
        | do_short => set T_SHORT_size T_SHORT s
        | do_int => set T_INT_size T_INT s
        | do_long => set T_LONG_size T_LONG s
        | do_void => set T_VOID_size T_VOID s
        | do_object _ _ => set T_OBJECT_size T_OBJECT s
        | do_array _ _ => set T_ARRAY_size T_ARRAY s
        end).

(** A new [SignatureInfo]: the state of the subclass is [_size]. *)
Abbreviation SignatureInfo_new := (mkIterator 0 0 T_ILLEGAL 0).

Definition ArgumentSizeComputer_size (signature : list Z) : option Z :=
  it ← iterate_parameters (SignatureInfo_visit (fun size _ s => (s.1, s.2 + size))) signature SignatureInfo_new;
  Some (subclass it).

Definition ArgumentCount_size (signature : list Z) : option Z :=
  it ← iterate_parameters (SignatureInfo_visit (fun _ _ s => (s.1, s.2 + 1))) signature SignatureInfo_new;
  Some (subclass it).

Definition ResultTypeFinder_type (signature : list Z) : option BasicType :=
  it ← iterate_returntype (SignatureInfo_visit (fun _ type s => (type, s.2))) signature SignatureInfo_new;
  Some (_return_type it).

(** ** Methods (oops/methodOop.cpp, oops/constMethodOop.hpp) *)

Record methodOop := mkMethod {
  signature : list Z;
  is_static : bool;
  size_of_parameters : Z;
  _fingerprint : Z
}.

Definition constMethod_fingerprint (m : methodOop) : Z :=
  let high_fp := u32 (_fingerprint m ≫ 32) in
  if (s32 (_fingerprint m) =? 0) || (high_fp =? 0x80000000) then 0 else _fingerprint m.

Definition set_fingerprint (new_fingerprint : Z) (m : methodOop) : option methodOop :=
  let oldfp := constMethod_fingerprint m in
  ASSERT (oldfp =? 0) || (new_fingerprint =? oldfp) ;;
  ASSERT negb ((new_fingerprint ≫ 32) =? 0x80000000) && negb (s32 new_fingerprint =? 0) ;;
  Some (mkMethod (signature m) (is_static m) (size_of_parameters m) new_fingerprint).

Definition compute_size_of_parameters (m : methodOop) : option methodOop :=
  size ← ArgumentSizeComputer_size (signature m);
  Some (mkMethod (signature m) (is_static m) (u16 (size + (if is_static m then 0 else 1))) (_fingerprint m)).

Definition result_type (m : methodOop) : option BasicType := ResultTypeFinder_type (signature m).

(** ** Fingerprints *)

Module Fingerprinter.
(** The state of the subclass is [_fingerprint] and [_shift_count]. *)
Definition add_parm (parm : Z) (s : BasicType * (Z * Z)) : option (BasicType * (Z * Z)) :=
  let '(t, (fingerprint, shift_count)) := s in
  Some (t, (fingerprint ||| u64 (parm ≪ shift_count), shift_count + parameter_feature_size)).

Definition visit (c : call) (_ : Z) (s : BasicType * (Z * Z)) : option (BasicType * (Z * Z)) :=
  match c with
  | do_bool => add_parm bool_parm s
  | do_char => add_parm char_parm s
  | do_byte => add_parm byte_parm s
  | do_short => add_parm short_parm s
  | do_int => add_parm int_parm s
  | do_long => add_parm long_parm s
  | do_float => add_parm float_parm s
  | do_double => add_parm double_parm s
  | do_object _ _ | do_array _ _ => add_parm obj_parm s
  | do_void => None
  end.

(** The fingerprint, and the method that caches it. *)
Definition fingerprint (mh : methodOop) : option (Z * methodOop) :=
  if negb (constMethod_fingerprint mh =? 0) then Some (constMethod_fingerprint mh, mh)
  else if size_of_parameters mh >? max_size_of_parameters then
    mh ← set_fingerprint (2 ^ 64 - 1) mh;
    Some (2 ^ 64 - 1, mh)
  else
    result ← result_type mh;
    ASSERT BasicType_value result <=? result_feature_mask ;;
    let fp := u64 (BasicType_value result ≪ static_feature_size) in
    let fp := if is_static mh then fp ||| 1 else fp in
    it ← iterate_parameters visit (signature mh)
           (mkIterator 0 0 T_ILLEGAL (fp, result_feature_size + static_feature_size));
    let '(fp, shift_count) := subclass it in
    let fp := fp ||| u64 (done_parm ≪ shift_count) in
    mh ← set_fingerprint fp mh;
    Some (fp, mh).
End Fingerprinter.

(** ** Arguments of native methods *)

Module NativeSignatureIterator.
Inductive pass := pass_int | pass_long | pass_object | pass_float | pass_double.

Section native.
(** The virtual methods, with [offset()] and [jni_offset()]. *)
Context {B : Type} (do_pass : pass -> Z -> Z -> B -> option B).
Context (_prepended : Z).

Record state := mkState { _offset : Z; _jni_offset : Z; platform : B }.

Definition passes (p : pass) (words : Z) (s : state) : option state :=
  b ← do_pass p (_offset s) (_jni_offset s + _prepended) (platform s);
  Some (mkState (_offset s + words) (_jni_offset s + 1) b).

Definition visit (c : call) (_ : Z) (ts : BasicType * state) : option (BasicType * state) :=
  s ← match c with
      | do_bool | do_char | do_byte | do_short | do_int => passes pass_int 1 ts.2
      | do_float => passes pass_float 1 ts.2
      | do_double => passes pass_double 2 ts.2
      | do_long => passes pass_long 2 ts.2
      | do_object _ _ | do_array _ _ => passes pass_object 1 ts.2
      | do_void => None
      end;
  Some (ts.1, s).
End native.

(** [_prepended]: the environment, and the mirror of the class of a static method. *)
Abbreviation prepended method := (if negb (is_static method) then 1 else 1 + 1).

Section iterate.
Context {B : Type} (do_pass : pass -> Z -> Z -> B -> option B).

(** [iterate(fingerprint)], and [iterate] that computes the fingerprint first. *)
Definition iterate_with (method : methodOop) (fp : Z) (s : state) : option state :=
  s ← (if negb (is_static method) then passes do_pass (prepended method) pass_object 1 s else Some s);
  it ← iterate_fingerprint (visit do_pass (prepended method)) (signature method) fp (mkIterator 0 0 T_ILLEGAL s);
  Some (subclass it).

Definition iterate (method : methodOop) (b : B) : option state :=
  '(fp, method) ← Fingerprinter.fingerprint method;
  iterate_with method fp (mkState 0 0 b).
End iterate.
Arguments state : clear implicits.
Arguments mkState {B}.
End NativeSignatureIterator.

(** ** Streams of types *)

Module SignatureStream.
Section stream.
Context (signature : list Z).

Record SignatureStream := mkStream {
  _begin : Z;
  _end : Z;
  _type : BasicType;
  _at_return_type : bool
}.

Definition is_done (st : SignatureStream) : bool := _end st >? zlen signature.

(** [while ('0' <= c && c <= '9') c = byte_at(_end++)]. *)
Fixpoint skip_digits (fuel : nat) (c e : Z) : option Z :=
  match fuel with
  | O => None
  | S fuel =>
      if (48 <=? c) && (c <=? 57) then
        c ← load signature e;
        skip_digits fuel c (e + 1)
      else Some e
  end.

(** [while (byte_at(_end) == '[') { _end++; ... }]. *)
Fixpoint skip_brackets (fuel : nat) (e : Z) : option Z :=
  match fuel with
  | O => None
  | S fuel =>
      c ← load signature e;
      if c =? JVM_SIGNATURE_ARRAY then
        c ← load signature (e + 1);
        e ← skip_digits (length signature) c (e + 1);
        skip_brackets fuel e
      else Some e
  end.

(** The types of one letter that may be elements. *)
Definition element_letter (c : Z) : bool :=
  (c =? JVM_SIGNATURE_BYTE) || (c =? JVM_SIGNATURE_CHAR) || (c =? JVM_SIGNATURE_DOUBLE) || (c =? JVM_SIGNATURE_FLOAT) ||
  (c =? JVM_SIGNATURE_INT) || (c =? JVM_SIGNATURE_LONG) || (c =? JVM_SIGNATURE_SHORT) || (c =? JVM_SIGNATURE_BOOLEAN).

(** [next_non_primitive(t)] where [t] is not ')': the type and its end. *)
Definition next_reference (t e : Z) : option (BasicType * Z) :=
  if t =? JVM_SIGNATURE_CLASS then
    e ← skip_past_semicolon signature (length signature) e;
    Some (T_OBJECT, e)
  else if t =? JVM_SIGNATURE_ARRAY then
    c ← load signature e;
    e ← skip_digits (length signature) c e;
    e ← skip_brackets (length signature) e;
    c ← load signature e;
    e ← (if element_letter c then Some (e + 1) else skip_past_semicolon signature (length signature) e);
    Some (T_ARRAY, e)
  else None.

(** [next], with the call back from [next_non_primitive] for ')'. *)
Fixpoint next_from (fuel : nat) (st : SignatureStream) : option SignatureStream :=
  match fuel with
  | O => None
  | S fuel =>
      if _end st >=? zlen signature then Some (mkStream (_begin st) (zlen signature + 1) (_type st) (_at_return_type st))
      else
        let b := _end st in
        t ← load signature b;
        let letter type := Some (mkStream b (_end st + 1) type (_at_return_type st)) in
        if t =? JVM_SIGNATURE_BYTE then letter T_BYTE
        else if t =? JVM_SIGNATURE_CHAR then letter T_CHAR
        else if t =? JVM_SIGNATURE_DOUBLE then letter T_DOUBLE
        else if t =? JVM_SIGNATURE_FLOAT then letter T_FLOAT
        else if t =? JVM_SIGNATURE_INT then letter T_INT
        else if t =? JVM_SIGNATURE_LONG then letter T_LONG
        else if t =? JVM_SIGNATURE_SHORT then letter T_SHORT
        else if t =? JVM_SIGNATURE_BOOLEAN then letter T_BOOLEAN
        else if t =? JVM_SIGNATURE_VOID then letter T_VOID
        else if t =? JVM_SIGNATURE_ENDFUNC then
          st ← next_from fuel (mkStream b (_end st + 1) (_type st) (_at_return_type st));
          Some (mkStream (_begin st) (_end st) (_type st) true)
        else
          '(type, e) ← next_reference t (_end st);
          Some (mkStream b e type (_at_return_type st))
  end.

Definition next (st : SignatureStream) : option SignatureStream := next_from (S (length signature)) st.

(** The constructor; [_type] is not set before [next] sets it. *)
Definition new_stream (is_method : bool) : option SignatureStream :=
  let b := if is_method then 1 else 0 in
  next (mkStream b b T_ILLEGAL false).

(** The bytes of which [as_symbol] and [as_symbol_or_null] make a symbol. *)
Definition as_symbol (st : SignatureStream) : option (list Z) :=
  b ← load signature (_begin st);
  e ← load signature (_end st - 1);
  let '(begin_, end_) :=
    if (b =? JVM_SIGNATURE_CLASS) && (e =? SEMICOLON) then (_begin st + 1, _end st - 1) else (_begin st, _end st) in
  Some (take (Z.to_nat (end_ - begin_)) (drop (Z.to_nat begin_) signature)).
End stream.
End SignatureStream.

(** ** Signatures from native code *)

Module SignatureVerifier.
Definition invalid_name_char (c : Z) : bool := (c =? 0) || (c =? DOT) || (c =? SEMICOLON) || (c =? JVM_SIGNATURE_ARRAY).

Section verifier.
(** The bytes that [type] points into. *)
Context (bytes : list Z) (type : Z).

(** [while (index < limit && type[index] == '[') ++index]. *)
Fixpoint skip_dims (fuel : nat) (index limit : Z) : option Z :=
  match fuel with
  | O => None
  | S fuel =>
      if index <? limit then
        c ← load bytes (type + index);
        if c =? JVM_SIGNATURE_ARRAY then skip_dims fuel (index + 1) limit else Some index
      else Some index
  end.

(** The loop over a class name; -1 when it is not ended by a semicolon. *)
Fixpoint scan_name (fuel : nat) (index limit : Z) : option Z :=
  match fuel with
  | O => None
  | S fuel =>
      if index <? limit then
        c ← load bytes (type + index);
        if c =? SEMICOLON then Some (index + 1)
        else if invalid_name_char c then Some (-1)
        else scan_name fuel (index + 1) limit
      else Some (-1)
  end.

Definition is_valid_type (limit : Z) : option Z :=
  let fuel := S (length bytes) in
  index ← skip_dims fuel 0 limit;
  if index >=? limit then Some (-1)
  else
    c ← load bytes (type + index);
    if SignatureStream.element_letter c || (c =? JVM_SIGNATURE_VOID) then Some (index + 1)
    else if c =? JVM_SIGNATURE_CLASS then scan_name fuel (index + 1) limit
    else Some (-1).
End verifier.

Section symbol.
(** The bytes of the symbol. *)
Context (sig : list Z).

Fixpoint valid_parameters (fuel : nat) (index : Z) : option (option Z) :=
  match fuel with
  | O => None
  | S fuel =>
      if index <? zlen sig then
        c ← load sig index;
        if c =? JVM_SIGNATURE_ENDFUNC then Some (Some index)
        else
          res ← is_valid_type sig index (zlen sig - index);
          if res =? -1 then Some None else valid_parameters fuel (index + res)
      else Some (Some index)
  end.

Definition is_valid_method_signature : option bool :=
  let len := zlen sig in
  if len >? 1 then
    c ← load sig 0;
    if c =? JVM_SIGNATURE_FUNC then
      index ← valid_parameters (S (length sig)) 1;
      match index with
      | None => Some false
      | Some index =>
          if index <? len then
            c ← load sig index;
            if c =? JVM_SIGNATURE_ENDFUNC then
              res ← is_valid_type sig (index + 1) (len - (index + 1));
              Some (res =? len - (index + 1))
            else Some false
          else Some false
      end
    else Some false
  else Some false.

Definition is_valid_type_signature : option bool :=
  let len := zlen sig in
  if len >=? 1 then
    res ← is_valid_type sig 0 len;
    Some (res =? len)
  else Some false.

(** The first byte is read for an empty symbol too, but it does not matter. *)
Definition is_valid_signature : option bool :=
  match sig with
  | [] => Some false
  | c :: _ =>
      if c =? 0 then Some false
      else if c =? JVM_SIGNATURE_FUNC then is_valid_method_signature
      else is_valid_type_signature
  end.
End symbol.
End SignatureVerifier.

(** * What the types of a signature are to an iterator *)

Definition base_call (c : Z) : call :=
  if c =? JVM_SIGNATURE_BYTE then do_byte else if c =? JVM_SIGNATURE_CHAR then do_char
  else if c =? JVM_SIGNATURE_DOUBLE then do_double else if c =? JVM_SIGNATURE_FLOAT then do_float
  else if c =? JVM_SIGNATURE_INT then do_int else if c =? JVM_SIGNATURE_LONG then do_long
  else if c =? JVM_SIGNATURE_SHORT then do_short else if c =? JVM_SIGNATURE_BOOLEAN then do_bool else do_void.

Definition base_type (c : Z) : BasicType :=
  if c =? JVM_SIGNATURE_BYTE then T_BYTE else if c =? JVM_SIGNATURE_CHAR then T_CHAR
  else if c =? JVM_SIGNATURE_DOUBLE then T_DOUBLE else if c =? JVM_SIGNATURE_FLOAT then T_FLOAT
  else if c =? JVM_SIGNATURE_INT then T_INT else if c =? JVM_SIGNATURE_LONG then T_LONG
  else if c =? JVM_SIGNATURE_SHORT then T_SHORT else if c =? JVM_SIGNATURE_BOOLEAN then T_BOOLEAN else T_VOID.

(** The call for a type whose text starts at [i]. *)
Definition type_call (i : Z) (d : descriptor) : call :=
  match d with
  | Base c => base_call c
  | Object _ => do_object (i + 1) (i + zlen (print d))
  | Array _ => do_array (i + 1) (i + zlen (print d))
  end.

Definition basic_type (d : descriptor) : BasicType :=
  match d with Base c => base_type c | Object _ => T_OBJECT | Array _ => T_ARRAY end.

(** Its words on the stack; none for void. *)
Definition words (d : descriptor) : Z :=
  match d with Base c => if c =? JVM_SIGNATURE_VOID then 0 else slots d | _ => slots d end.

(** The calls for parameters whose text starts at [i], with the index of the parameter. *)
Fixpoint parameter_calls (i p : Z) (ds : list descriptor) : list (call * Z) :=
  match ds with
  | [] => []
  | d :: ds => (type_call i d, p) :: parameter_calls (i + zlen (print d)) (p + slots d) ds
  end.

(** The calls one after the other. *)
Fixpoint run {A : Type} (visit : call -> Z -> BasicType * A -> option (BasicType * A)) (calls : list (call * Z)) (s : BasicType * A)
    : option (BasicType * A) :=
  match calls with
  | [] => Some s
  | (c, p) :: calls => s ← visit c p s; run visit calls s
  end.

(** The type under the dimensions of an array. *)
Fixpoint element (d : descriptor) : descriptor :=
  match d with Array d => element d | _ => d end.

Lemma print_dimensions d : print d = replicate (Z.to_nat (dimensions d)) JVM_SIGNATURE_ARRAY ++ print (element d).
Proof.
  induction d as [c|name|d IH]; [done..|]. cbn [dimensions element print]. pose proof (dimensions_nonneg d).
  replace (Z.to_nat (1 + dimensions d)) with (S (Z.to_nat (dimensions d))) by lia. cbn [replicate app]. by rewrite <- IH.
Qed.

Lemma dimensions_length d : (Z.to_nat (dimensions d) < length (print d))%nat.
Proof.
  rewrite print_dimensions, length_app, length_replicate. enough (0 < length (print (element d)))%nat by lia.
  destruct (element d); cbn; lia.
Qed.

Lemma element_not_array d : forall d', element d <> Array d'.
Proof. induction d; cbn; congruence. Qed.

Lemma element_well_formed void_ok d : well_formed void_ok d -> exists v, well_formed v (element d).
Proof. revert void_ok. induction d; intros void_ok H; [by eexists..|]. by eapply IHd. Qed.

(** Arithmetic on the lengths of texts. *)
Ltac len_lia := repeat progress (rewrite ?length_app in *; cbn [length] in *); lia.

(** A text of a type starts with a letter or a bracket, never with a digit. *)
Lemma print_head void_ok d rest :
  well_formed void_ok d -> exists c l, print d ++ rest = c :: l /\ ((48 <=? c) && (c <=? 57)) = false.
Proof.
  destruct d; cbn [print app well_formed]; intros H; eexists _, _; (split; [done|]); [|done..].
  unfold base_types in H. rewrite !elem_of_cons, elem_of_nil in H. lia.
Qed.

(** No size follows the bracket of an array. *)
Lemma optional_size_none void_ok d pre rest fuel :
  well_formed void_ok d -> (0 < fuel)%nat ->
  skip_optional_size (pre ++ JVM_SIGNATURE_ARRAY :: print d ++ rest) fuel (zlen pre + 1) = Some (zlen pre + 1).
Proof.
  intros Hwf Hf. destruct fuel; [lia|]. destruct (print_head void_ok d rest Hwf) as (c & l & -> & Hc). cbn [skip_optional_size].
  rewrite (load_rest pre _ 1 _ c) by (done || lia). cbn [mbind option_bind]. by rewrite Hc.
Qed.

Lemma semicolon_found name pre rest fuel :
  SEMICOLON ∉ name -> (length name < fuel)%nat ->
  skip_past_semicolon (pre ++ name ++ SEMICOLON :: rest) fuel (zlen pre) = Some (zlen pre + zlen name + 1).
Proof.
  revert pre fuel. induction name as [|c name IH]; intros pre fuel Hn Hf; (destruct fuel as [|fuel]; [lia|]); cbn [skip_past_semicolon app];
    rewrite load_app_mid; cbn [mbind option_bind].
  - cbn. f_equal. lia.
  - apply not_elem_of_cons in Hn as [? ?]. rewrite (proj2 (Z.eqb_neq _ _)) by done. cbn [length] in *.
    specialize (IH (pre ++ [c]) fuel). after_byte in IH. rewrite IH by (done || lia). f_equal. lia.
Qed.

Lemma dimensions_skipped d pre rest signature fuel :
  signature = pre ++ print d ++ rest -> well_formed false d -> (Z.to_nat (dimensions d) < fuel)%nat ->
  skip_dimensions signature fuel (zlen pre) = Some (zlen pre + dimensions d).
Proof.
  revert pre fuel. induction d as [c|name|d IH]; intros pre fuel -> Hwf Hf; (destruct fuel as [|fuel]; [lia|]); cbn [skip_dimensions print app dimensions];
    rewrite load_app_mid; cbn [mbind option_bind].
  - destruct (Z.eqb_spec c JVM_SIGNATURE_ARRAY) as [->|]; [|f_equal; lia]. cbn in Hwf. unfold base_types in Hwf.
    rewrite !elem_of_cons, elem_of_nil in Hwf. lia.
  - cbn. f_equal. lia.
  - cbn [dimensions well_formed] in *. pose proof (dimensions_nonneg d). rewrite Z.eqb_refl.
    rewrite (optional_size_none false) by (done || (rewrite length_app; cbn [length]; lia)). cbn [mbind option_bind].
    specialize (IH (pre ++ [JVM_SIGNATURE_ARRAY]) fuel). after_byte in IH. cbn [print app] in IH. rewrite IH by (done || lia). f_equal. lia.
Qed.

(** The cases of a type of one letter. *)
Lemma base_cases void_ok c (P : Z -> Prop) :
  well_formed void_ok (Base c) ->
  P JVM_SIGNATURE_BOOLEAN -> P JVM_SIGNATURE_BYTE -> P JVM_SIGNATURE_CHAR -> P JVM_SIGNATURE_SHORT -> P JVM_SIGNATURE_INT ->
  P JVM_SIGNATURE_FLOAT -> P JVM_SIGNATURE_LONG -> P JVM_SIGNATURE_DOUBLE -> (void_ok = true -> P JVM_SIGNATURE_VOID) -> P c.
Proof.
  cbn [well_formed]. unfold base_types. rewrite !elem_of_cons, elem_of_nil. intros H. intros.
  destruct H as [[->|[->|[->|[->|[->|[->|[->|[->|[]]]]]]]]]|[-> ->]]; auto.
Qed.

(** The text of an element ends where the scanner of arrays says. *)
Lemma element_end void_ok d pre rest signature fuel :
  signature = pre ++ print d ++ rest -> well_formed void_ok d -> (length (print d) <= fuel)%nat ->
  exists c, load signature (zlen pre + dimensions d) = Some c /\
    (if c =? JVM_SIGNATURE_CLASS then skip_past_semicolon signature fuel (zlen pre + dimensions d) else Some (zlen pre + dimensions d + 1)) =
    Some (zlen pre + zlen (print d)).
Proof.
  intros -> Hwf Hf. rewrite print_dimensions in *. set (brackets := replicate _ _) in *.
  assert (Hb : zlen pre + dimensions d = zlen (pre ++ brackets)).
  { unfold brackets. rewrite length_app, length_replicate. pose proof (dimensions_nonneg d). lia. }
  destruct (element_well_formed void_ok d Hwf) as [v Hv]. rewrite <- !app_assoc, Hb. rewrite (app_assoc pre brackets).
  destruct (element d) as [c|name|d'] eqn:E; cbn [print app] in *; [..|by apply element_not_array in E].
  - rewrite load_app_mid. exists c. split; [done|]. destruct (Z.eqb_spec c JVM_SIGNATURE_CLASS) as [->|].
    + exfalso. by apply (base_cases v JVM_SIGNATURE_CLASS (fun c => c <> JVM_SIGNATURE_CLASS)) in Hv.
    + f_equal. rewrite !length_app. cbn [length]. lia.
  - rewrite load_app_mid. exists JVM_SIGNATURE_CLASS. split; [done|]. rewrite Z.eqb_refl, <- (app_assoc name). destruct Hv as [Hn _].
    pose proof (semicolon_found (JVM_SIGNATURE_CLASS :: name) (pre ++ brackets) rest fuel) as Hs. cbn [app] in *. rewrite Hs.
    + f_equal. len_lia.
    + rewrite not_elem_of_cons. done.
    + len_lia.
Qed.

Section iteration.
Context {A : Type} (visit : call -> Z -> BasicType * A -> option (BasicType * A)).

(** One type. *)
Lemma parse_type_print void_ok d pre rest (it : SignatureIterator A) :
  well_formed void_ok d -> _index it = zlen pre ->
  parse_type visit (pre ++ print d ++ rest) it =
    it ← invoke visit (type_call (zlen pre) d) (set_index (zlen pre + zlen (print d)) it);
    Some (note_return (basic_type d) it, words d).
Proof.
  intros Hwf Hi. destruct it as [i p t s]. cbn in Hi. subst i. unfold parse_type. cbn [_index]. destruct d as [c|name|d]; cbn [print app type_call basic_type words].
  - rewrite load_app_mid. cbn [mbind option_bind length]. unfold parse_letter, invoke, note_return. cbn [_index _parameter_index _return_type subclass set_index].
    pattern c; apply (base_cases void_ok c _ Hwf); intros; cbn -[Z.add Z.of_nat]; (destruct (visit _ p (t, s)) as [[t' s']|]; [|done]); cbn -[Z.add Z.of_nat]; by destruct (p <? 0).
  - rewrite load_app_mid. destruct Hwf as [Hn _]. cbn [mbind option_bind].
    assert (Hs : skip_past_semicolon (pre ++ JVM_SIGNATURE_CLASS :: (name ++ [SEMICOLON]) ++ rest) (length (pre ++ JVM_SIGNATURE_CLASS :: (name ++ [SEMICOLON]) ++ rest))
      (zlen pre + 1) = Some (zlen pre + zlen (JVM_SIGNATURE_CLASS :: name ++ [SEMICOLON]))).
    { rewrite <- app_assoc. cbn [app]. pose proof (semicolon_found name (pre ++ [JVM_SIGNATURE_CLASS]) rest) as Hs. 
      specialize (Hs (length (pre ++ JVM_SIGNATURE_CLASS :: name ++ SEMICOLON :: rest)) Hn). rewrite <- app_assoc in Hs. cbn [app] in Hs.
      replace (zlen pre + 1) with (zlen (pre ++ [JVM_SIGNATURE_CLASS])) by (rewrite length_app; cbn; lia). rewrite Hs.
      - f_equal. len_lia.
      - len_lia. }
    cbn -[Z.add Z.of_nat skip_past_semicolon length app]. rewrite Hs. done.
  - rewrite load_app_mid. cbn [mbind option_bind]. cbn -[Z.add Z.of_nat skip_past_semicolon skip_optional_size skip_dimensions length app print slots].
    set (signature := pre ++ JVM_SIGNATURE_ARRAY :: print d ++ rest).
    assert (Hlen : (length (print d) < length signature)%nat) by (unfold signature; len_lia).
    assert (Hsig : signature = (pre ++ [JVM_SIGNATURE_ARRAY]) ++ print d ++ rest) by (unfold signature; by rewrite <- app_assoc).
    assert (skip_optional_size signature (length signature) (zlen pre + 1) = Some (zlen pre + 1)) as ->.
    { apply (optional_size_none false); [done|lia]. }
    cbn [mbind option_bind].
    replace (zlen pre + 1) with (zlen (pre ++ [JVM_SIGNATURE_ARRAY])) by (rewrite length_app; cbn; lia).
    assert (Hdim : (Z.to_nat (dimensions d) < length signature)%nat).
    { rewrite print_dimensions, length_app, length_replicate in Hlen. lia. }
    rewrite (dimensions_skipped d _ rest) by done. cbn [mbind option_bind].
    destruct (element_end false d _ rest signature (length signature) Hsig Hwf) as (c & -> & E); [lia|]. cbn [mbind option_bind]. rewrite E.
    cbn [mbind option_bind]. replace (zlen (pre ++ [JVM_SIGNATURE_ARRAY]) + zlen (print d)) with (zlen pre + zlen (JVM_SIGNATURE_ARRAY :: print d)) by len_lia.
    done.
Qed.

Lemma words_slots d : well_formed false d -> words d = slots d.
Proof using.
  destruct d as [c| |]; [|done..]. intros H. pattern c. by apply (base_cases false c _ H).
Qed.

Lemma print_pos d : (0 < length (print d))%nat.
Proof using. destruct d; cbn; lia. Qed.

(** A text of a parameter does not start with ')'. *)
Lemma print_head_paren d rest :
  well_formed false d -> exists c l, print d ++ rest = c :: l /\ (c =? JVM_SIGNATURE_ENDFUNC) = false.
Proof using.
  intros H. destruct d as [c| |]; cbn [print app]; eexists _, _; (split; [done|]); [|done..]. pattern c. by apply (base_cases false c _ H).
Qed.

(** The loop over the parameters makes their calls. *)
Lemma parse_parameters_print ds pre rest fuel p t s :
  Forall (well_formed false) ds -> 0 <= p -> (length ds < fuel)%nat ->
  parse_parameters visit (pre ++ print_all ds ++ JVM_SIGNATURE_ENDFUNC :: rest) fuel (mkIterator (zlen pre) p t s) =
    '(t, s) ← run visit (parameter_calls (zlen pre) p ds) (t, s);
    Some (mkIterator (zlen pre + zlen (print_all ds)) (p + all_slots ds) t s).
Proof.
  intros Hds. revert pre fuel p t s. induction Hds as [|d ds Hd _ IH]; intros pre fuel p t s Hp Hf; (destruct fuel as [|fuel]; [lia|]); cbn [parse_parameters].
  - cbn [print_all mbind list_bind app _index]. rewrite load_app_mid. cbn. do 2 f_equal; lia.
  - change (print_all (d :: ds)) with (print d ++ print_all ds). rewrite <- app_assoc.
    destruct (print_head_paren d (print_all ds ++ JVM_SIGNATURE_ENDFUNC :: rest) Hd) as (c & l & E & Hc).
    cbn [_index]. rewrite E at 1. rewrite load_app_mid. cbn [mbind option_bind]. rewrite Hc, (parse_type_print false) by done.
    cbn [parameter_calls run]. unfold invoke. cbn [_parameter_index _return_type subclass set_index _index].
    destruct (visit (type_call (zlen pre) d) p (t, s)) as [[t' s']|]; [|done]. cbn [mbind option_bind]. rewrite words_slots by done.
    unfold note_return. cbn [_parameter_index]. rewrite (proj2 (Z.ltb_ge p 0)) by lia. unfold set_parameter_index. cbn [_index _parameter_index _return_type subclass].
    pose proof (slots_range d). cbn [length] in Hf. specialize (IH (pre ++ print d) fuel (p + slots d) t' s').
    rewrite <- app_assoc, length_app, Nat2Z.inj_add in IH. rewrite IH by lia.
    destruct (run visit _ (t', s')) as [[t'' s'']|]; [|done]. cbn [mbind option_bind all_slots foldr]. fold (all_slots ds). do 2 f_equal; len_lia.
Qed.

Lemma run_calls_app calls1 calls2 st : run visit (calls1 ++ calls2) st = (st ← run visit calls1 st; run visit calls2 st).
Proof. revert st. induction calls1 as [|[c p] calls1 IH]; intros st; cbn; [done|]. destruct (visit c p st); cbn; [apply IH|done]. Qed.

(** The start and the end of the parameters. *)
Lemma expect_byte c pre rest i p t (s : A) : i = zlen pre -> expect (pre ++ c :: rest) c (mkIterator i p t s) = Some (mkIterator (i + 1) p t s).
Proof using. intros ->. unfold expect. cbn [_index]. rewrite load_app_mid. cbn [mbind option_bind]. by rewrite Z.eqb_refl. Qed.

(** The return type. *)
Definition return_call (parameters : list descriptor) (result : descriptor) : call :=
  type_call (zlen (print_all parameters) + 2) result.

Lemma parse_return parameters result t s :
  well_formed true result ->
  parse_type visit (print_method parameters result) (mkIterator (zlen (print_all parameters) + 2) (-1) t s) =
    '(_, s) ← visit (return_call parameters result) (-1) (t, s);
    Some (mkIterator (zlen (print_method parameters result)) (-1) (basic_type result) s, words result).
Proof.
  intros Hr. unfold return_call, print_method. set (pre := JVM_SIGNATURE_FUNC :: print_all parameters ++ [JVM_SIGNATURE_ENDFUNC]).
  assert (Hpre : zlen (print_all parameters) + 2 = zlen pre) by (unfold pre; len_lia).
  replace (JVM_SIGNATURE_FUNC :: print_all parameters ++ JVM_SIGNATURE_ENDFUNC :: print result) with (pre ++ print result ++ [])
    by (unfold pre; rewrite app_nil_r; cbn; by rewrite <- app_assoc).
  rewrite Hpre, (parse_type_print true) by done. unfold invoke, note_return. cbn [_parameter_index _return_type subclass set_index].
  destruct (visit _ _ _) as [[t' s']|]; [|done]. cbn. do 4 f_equal. rewrite app_nil_r. len_lia.
Qed.

Lemma expect_open parameters result p t (s : A) :
  expect (print_method parameters result) JVM_SIGNATURE_FUNC (mkIterator 0 p t s) = Some (mkIterator 1 p t s).
Proof using. by apply (expect_byte JVM_SIGNATURE_FUNC []). Qed.

Lemma expect_close parameters result i p t (s : A) :
  i = 1 + zlen (print_all parameters) ->
  expect (print_method parameters result) JVM_SIGNATURE_ENDFUNC (mkIterator i p t s) =
    Some (mkIterator (zlen (print_all parameters) + 2) p t s).
Proof using.
  intros ->. unfold print_method. replace (JVM_SIGNATURE_FUNC :: print_all parameters ++ JVM_SIGNATURE_ENDFUNC :: print result)
    with ((JVM_SIGNATURE_FUNC :: print_all parameters) ++ JVM_SIGNATURE_ENDFUNC :: print result) by done.
  rewrite expect_byte by len_lia. do 2 f_equal. lia.
Qed.

(** The parameters with their parentheses. *)
Lemma parameters_parsed {B} parameters result t s (k : SignatureIterator A -> option B) :
  Forall (well_formed false) parameters ->
  (it ← expect (print_method parameters result) JVM_SIGNATURE_FUNC (mkIterator 0 0 t s);
   it ← parse_parameters visit (print_method parameters result) (length (print_method parameters result)) it;
   it ← expect (print_method parameters result) JVM_SIGNATURE_ENDFUNC it;
   k it) =
  ('(t, s) ← run visit (parameter_calls 1 0 parameters) (t, s);
   k (mkIterator (zlen (print_all parameters) + 2) (all_slots parameters) t s)).
Proof.
  intros Hps. rewrite expect_open. cbn [mbind option_bind].
  assert (Hf : (length parameters < length (print_method parameters result))%nat).
  { destruct (all_slots_length parameters). unfold print_method. len_lia. }
  pose proof (parse_parameters_print parameters [JVM_SIGNATURE_FUNC] (print result) (length (print_method parameters result)) 0 t s Hps) as E.
  change ([JVM_SIGNATURE_FUNC] ++ ?l) with (print_method parameters result) in E. change (zlen [JVM_SIGNATURE_FUNC]) with 1 in E.
  rewrite E by done. destruct (run visit _ _) as [[t' s']|]; [|done]. cbn [mbind option_bind].
  by rewrite expect_close.
Qed.

Lemma iterate_parameters_print parameters result it :
  Forall (well_formed false) parameters ->
  iterate_parameters visit (print_method parameters result) it =
    '(t, s) ← run visit (parameter_calls 1 0 parameters) (_return_type it, subclass it);
    Some (mkIterator (zlen (print_all parameters) + 2) 0 t s).
Proof. intros Hps. unfold iterate_parameters. by apply (parameters_parsed parameters result). Qed.

Lemma iterate_print parameters result it :
  Forall (well_formed false) parameters -> well_formed true result ->
  iterate visit (print_method parameters result) it =
    '(_, s) ← run visit (parameter_calls 1 0 parameters ++ [(return_call parameters result, -1)]) (_return_type it, subclass it);
    Some (mkIterator (zlen (print_method parameters result)) 0 (basic_type result) s).
Proof.
  intros Hps Hr. unfold iterate, set_index, set_parameter_index. cbn [_index _parameter_index _return_type subclass].
  rewrite (parameters_parsed parameters result) by done. rewrite run_calls_app.
  destruct (run visit (parameter_calls 1 0 parameters) _) as [[t s]|]; [|done]. cbn [mbind option_bind run _index _return_type subclass].
  rewrite parse_return by done. by destruct (visit (return_call parameters result) (-1) (t, s)) as [[t' s']|].
Qed.

(** The search for ')' finds the end of the parameters when no class name has one. *)
Lemma skip_parameters_print l pre rest fuel t s :
  JVM_SIGNATURE_ENDFUNC ∉ l -> (length l < fuel)%nat ->
  forall p, skip_parameters (pre ++ l ++ JVM_SIGNATURE_ENDFUNC :: rest) fuel (mkIterator (zlen pre) p t s) =
    Some (mkIterator (A:=A) (zlen pre + zlen l) p t s).
Proof using.
  revert pre fuel. induction l as [|c l IH]; intros pre fuel Hl Hf p; (destruct fuel as [|fuel]; [lia|]); cbn [skip_parameters app _index];
    rewrite load_app_mid; cbn [mbind option_bind].
  - cbn. do 2 f_equal. lia.
  - apply not_elem_of_cons in Hl as [? ?]. rewrite (proj2 (Z.eqb_neq _ _)) by done. unfold set_index. cbn [_parameter_index _return_type subclass].
    specialize (IH (pre ++ [c]) fuel). after_byte in IH. rewrite IH by (done || len_lia). do 2 f_equal. len_lia.
Qed.

Lemma iterate_returntype_print parameters result it :
  JVM_SIGNATURE_ENDFUNC ∉ print_all parameters -> well_formed true result ->
  iterate_returntype visit (print_method parameters result) it =
    '(_, s) ← visit (return_call parameters result) (-1) (_return_type it, subclass it);
    Some (mkIterator (zlen (print_method parameters result)) 0 (basic_type result) s).
Proof.
  intros Hp Hr. unfold iterate_returntype, set_index, set_parameter_index. cbn [_index _parameter_index _return_type subclass].
  rewrite expect_open. cbn [mbind option_bind].
  pose proof (skip_parameters_print (print_all parameters) [JVM_SIGNATURE_FUNC] (print result) (length (print_method parameters result))
    (_return_type it) (subclass it) Hp) as E.
  change ([JVM_SIGNATURE_FUNC] ++ ?l) with (print_method parameters result) in E. change (zlen [JVM_SIGNATURE_FUNC]) with 1 in E.
  rewrite E by (unfold print_method; len_lia). cbn [mbind option_bind]. rewrite expect_close by done. cbn [mbind option_bind _index _return_type subclass].
  rewrite parse_return by done. by destruct (visit (return_call parameters result) (-1) _) as [[t' s']|].
Qed.
End iteration.

(** * Sizes and fingerprints *)

(** What [SignatureInfo] hands to [set]. *)
Lemma info_call {A : Type} (set : Z -> BasicType -> BasicType * A -> BasicType * A) void_ok i d p s :
  well_formed void_ok d -> SignatureInfo_visit set (type_call i d) p s = Some (set (words d) (basic_type d) s).
Proof. intros H. destruct d as [c| |]; [|done..]. cbn [type_call words basic_type]. pattern c. by apply (base_cases void_ok c _ H). Qed.

Lemma size_run ds i p t n :
  Forall (well_formed false) ds ->
  run (SignatureInfo_visit (fun size _ s => (s.1, s.2 + size))) (parameter_calls i p ds) (t, n) = Some (t, n + all_slots ds).
Proof.
  intros Hds. revert i p n. induction Hds as [|d ds Hd _ IH]; intros i p n; cbn [parameter_calls run].
  - cbn. do 2 f_equal. lia.
  - rewrite (info_call _ false) by done. cbn [mbind option_bind fst snd]. rewrite IH, words_slots by done. cbn [all_slots foldr].
    fold (all_slots ds). do 2 f_equal. lia.
Qed.

Lemma count_run ds i p t n :
  Forall (well_formed false) ds ->
  run (SignatureInfo_visit (fun _ _ s => (s.1, s.2 + 1))) (parameter_calls i p ds) (t, n) = Some (t, n + zlen ds).
Proof.
  intros Hds. revert i p n. induction Hds as [|d ds Hd _ IH]; intros i p n; cbn [parameter_calls run length].
  - do 2 f_equal. lia.
  - rewrite (info_call _ false) by done. cbn [mbind option_bind fst snd]. rewrite IH. do 2 f_equal. lia.
Qed.

Lemma argument_size_print parameters result :
  Forall (well_formed false) parameters -> ArgumentSizeComputer_size (print_method parameters result) = Some (all_slots parameters).
Proof.
  intros H. unfold ArgumentSizeComputer_size. rewrite iterate_parameters_print by done. cbn [_return_type subclass].
  rewrite size_run by done. done.
Qed.

Lemma argument_count_print parameters result :
  Forall (well_formed false) parameters -> ArgumentCount_size (print_method parameters result) = Some (zlen parameters).
Proof.
  intros H. unfold ArgumentCount_size. rewrite iterate_parameters_print by done. cbn [_return_type subclass].
  rewrite count_run by done. done.
Qed.

Lemma result_type_print parameters result :
  JVM_SIGNATURE_ENDFUNC ∉ print_all parameters -> well_formed true result ->
  ResultTypeFinder_type (print_method parameters result) = Some (basic_type result).
Proof.
  intros Hp Hr. unfold ResultTypeFinder_type. rewrite iterate_returntype_print by done. cbn [_return_type subclass].
  unfold return_call. by rewrite (info_call _ true) by done.
Qed.

(** A ')' in a class name hides the rest of the signature: [iterate_returntype] then
    parses a type at the letter behind it. *)
Definition letter_type (c : Z) : option BasicType :=
  if bool_decide (c ∈ JVM_SIGNATURE_VOID :: base_types) then Some (base_type c)
  else if c =? JVM_SIGNATURE_CLASS then Some T_OBJECT
  else if c =? JVM_SIGNATURE_ARRAY then Some T_ARRAY
  else None.

(** The loops end at the latest at a ';'. *)
Section semicolon.
Set Default Proof Using "Type*".
Context (signature : list Z) (k : Z) (Hk : load signature k = Some SEMICOLON).

Lemma before_semicolon i : 0 <= i <= k -> exists c, load signature i = Some c.
Proof.
  intros Hi. apply load_Some in Hk. apply load_is_Some. lia.
Qed.

Lemma semicolon_in_range : 0 <= k < zlen signature.
Proof. by apply load_Some in Hk. Qed.

Lemma size_before_semicolon fuel : forall i, 0 <= i <= k -> k - i < Z.of_nat fuel ->
  exists j, skip_optional_size signature fuel i = Some j /\ i <= j <= k.
Proof.
  induction fuel as [|fuel IH]; intros i Hi Hf; [lia|]. cbn [skip_optional_size].
  destruct (before_semicolon i Hi) as [c Hc]. rewrite Hc. cbn [mbind option_bind].
  destruct (_ && _) eqn:E; [|exists i; split; [done|lia]].
  assert (i <> k) by (intros ->; rewrite Hk in Hc; by injection Hc as <-).
  destruct (IH (i + 1)) as (j & -> & Hj); [lia..|]. exists j. split; [done|lia].
Qed.

Lemma dimensions_before_semicolon fuel : forall i, 0 <= i <= k -> k - i < Z.of_nat fuel ->
  exists j, skip_dimensions signature fuel i = Some j /\ i <= j <= k.
Proof.
  pose proof semicolon_in_range.
  induction fuel as [|fuel IH]; intros i Hi Hf; [lia|]. cbn [skip_dimensions].
  destruct (before_semicolon i Hi) as [c Hc]. rewrite Hc. cbn [mbind option_bind].
  destruct (Z.eqb_spec c JVM_SIGNATURE_ARRAY) as [->|]; [|exists i; split; [done|lia]].
  assert (i <> k) by (intros ->; rewrite Hk in Hc; done).
  destruct (size_before_semicolon (length signature) (i + 1)) as (j1 & -> & Hj1); [lia..|]. cbn [mbind option_bind].
  destruct (IH j1) as (j & -> & Hj); [lia..|]. exists j. split; [done|lia].
Qed.

Lemma past_semicolon_found fuel : forall i, 0 <= i <= k -> k - i < Z.of_nat fuel ->
  exists j, skip_past_semicolon signature fuel i = Some j.
Proof.
  induction fuel as [|fuel IH]; intros i Hi Hf; [lia|]. cbn [skip_past_semicolon].
  destruct (before_semicolon i Hi) as [c Hc]. rewrite Hc. cbn [mbind option_bind].
  destruct (Z.eqb_spec c SEMICOLON); [by eexists|].
  assert (i <> k) by (intros ->; rewrite Hk in Hc; congruence). apply IH; lia.
Qed.

(** The type of a return that is parsed at a letter before a ';'. *)
Lemma parse_letter_type c i t s :
  load signature i = Some c -> 0 <= i <= k ->
  (parse_type (SignatureInfo_visit (fun _ type s => (type, s.2))) signature (mkIterator i (-1) t s : SignatureIterator Z) ≫=
     fun '(it, _) => Some (_return_type it)) = letter_type c.
Proof.
  intros Hc Hi. pose proof semicolon_in_range. unfold parse_type. cbn [_index]. rewrite Hc. cbn [mbind option_bind].
  unfold letter_type, base_types. case_bool_decide as Hb.
  { rewrite !elem_of_cons, elem_of_nil in Hb. by destruct Hb as [->|[->|[->|[->|[->|[->|[->|[->|[->|[]]]]]]]]]]. }
  rewrite !not_elem_of_cons in Hb.
  do 9 (rewrite (proj2 (Z.eqb_neq c _)) by tauto).
  destruct (Z.eqb_spec c JVM_SIGNATURE_CLASS) as [->|].
  { assert (i <> k) by (intros ->; rewrite Hk in Hc; done).
    destruct (past_semicolon_found (length signature) (i + 1)) as [j ->]; [lia..|]. done. }
  destruct (Z.eqb_spec c JVM_SIGNATURE_ARRAY) as [->|]; [|done].
  assert (i <> k) by (intros ->; rewrite Hk in Hc; done).
  destruct (size_before_semicolon (length signature) (i + 1)) as (j1 & -> & Hj1); [lia..|]. cbn [mbind option_bind].
  destruct (dimensions_before_semicolon (length signature) j1) as (j2 & -> & Hj2); [lia..|]. cbn [mbind option_bind].
  destruct (before_semicolon j2) as [c Hc2]; [lia|]. rewrite Hc2. cbn [mbind option_bind].
  destruct (c =? JVM_SIGNATURE_CLASS); [|done].
  destruct (past_semicolon_found (length signature) j2) as [j3 ->]; [lia..|]. done.
Qed.
End semicolon.

(** Behind a ')' of the parameters there is the ';' of its class name. *)
Lemma paren_semicolon d : well_formed false d -> forall a b, print d = a ++ JVM_SIGNATURE_ENDFUNC :: b -> SEMICOLON ∈ b.
Proof.
  induction d as [c|name|d IH]; intros Hwf a b E; cbn [print well_formed] in *.
  - destruct a as [|? [|]]; try done. injection E as ->. destruct Hwf as [Hc|[? _]]; [|done].
    unfold base_types in Hc. rewrite !elem_of_cons, elem_of_nil in Hc. by decompose [or] Hc.
  - destruct a as [|x a]; [done|]. injection E as _ E. destruct b as [|y b _] using rev_ind.
    + apply app_inj_tail in E as [_ E]. done.
    + change (?x :: b ++ [y]) with ((x :: b) ++ [y]) in E. rewrite app_assoc in E.
      apply app_inj_tail in E as [_ <-]. set_solver.
  - destruct a as [|x a]; [done|]. injection E as _ E. by apply (IH Hwf a).
Qed.

Lemma parens_semicolon ds : Forall (well_formed false) ds ->
  forall a b, print_all ds = a ++ JVM_SIGNATURE_ENDFUNC :: b -> SEMICOLON ∈ b.
Proof.
  induction 1 as [|d ds Hd _ IH]; intros a b E; [by destruct a|].
  change (print_all (d :: ds)) with (print d ++ print_all ds) in E.
  apply app_eq_app in E as (l & [[Ed Eb]|[Ea Eb]]).
  - destruct l as [|x l]; [by apply (IH []); symmetry|]. injection Eb as <- ->.
    apply elem_of_app. left. by apply (paren_semicolon d Hd a).
  - by apply (IH l).
Qed.

Lemma result_type_misread parameters result :
  Forall (well_formed false) parameters -> JVM_SIGNATURE_ENDFUNC ∈ print_all parameters ->
  exists a c b, print_all parameters = a ++ JVM_SIGNATURE_ENDFUNC :: c :: b /\ (JVM_SIGNATURE_ENDFUNC ∉ a) /\
    ResultTypeFinder_type (print_method parameters result) = letter_type c.
Proof.
  intros Hps Hin. apply list_elem_of_split_l in Hin as (a & b' & Epar & Ha).
  pose proof (parens_semicolon parameters Hps a b' Epar) as Hsemi. destruct b' as [|c b]; [by apply not_elem_of_nil in Hsemi|].
  exists a, c, b. split; [done|]. split; [done|].
  unfold ResultTypeFinder_type, iterate_returntype, set_index. cbn [_parameter_index _return_type subclass].
  rewrite expect_open. cbn [mbind option_bind].
  assert (E : print_method parameters result = [JVM_SIGNATURE_FUNC] ++ a ++ JVM_SIGNATURE_ENDFUNC :: (c :: b) ++ JVM_SIGNATURE_ENDFUNC :: print result).
  { unfold print_method. rewrite Epar, <- app_assoc. done. }
  rewrite E, (skip_parameters_print a [JVM_SIGNATURE_FUNC]) by (done || len_lia). cbn [mbind option_bind].
  rewrite app_assoc, expect_byte by len_lia. cbn [mbind option_bind]. unfold set_parameter_index. cbn [_index _parameter_index _return_type subclass].
  apply list_elem_of_split in Hsemi as (b1 & b2 & Eb). set (sig := (_ ++ a) ++ _).
  rewrite <- (parse_letter_type sig (zlen ([JVM_SIGNATURE_FUNC] ++ a) + 1 + zlen b1)) with (i := zlen ([JVM_SIGNATURE_FUNC] ++ a) + 1) (t := T_ILLEGAL) (s := 0).
  - replace (zlen [JVM_SIGNATURE_FUNC] + zlen a + 1) with (zlen ([JVM_SIGNATURE_FUNC] ++ a) + 1) by len_lia.
    by destruct (parse_type _ sig _) as [[]|].
  - assert (Es : sig = (([JVM_SIGNATURE_FUNC] ++ a) ++ JVM_SIGNATURE_ENDFUNC :: b1) ++ SEMICOLON :: b2 ++ JVM_SIGNATURE_ENDFUNC :: print result).
    { unfold sig. rewrite Eb, <- !app_assoc. done. }
    rewrite Es. apply load_app_at. len_lia.
  - unfold sig. apply (load_rest _ _ 1 _ c); (done || lia).
  - lia.
Qed.

(** The field of a parameter in a fingerprint. *)
Definition parm (d : descriptor) : Z :=
  match d with
  | Base c =>
      match base_call c with
      | do_bool => bool_parm | do_byte => byte_parm | do_char => char_parm | do_short => short_parm | do_int => int_parm
      | do_long => long_parm | do_float => float_parm | _ => double_parm
      end
  | _ => obj_parm
  end.

(** The fields of the parameters, the first one lowest, and the end mark. *)
Definition fields (ds : list descriptor) : Z := foldr (fun d f => parm d + 16 * f) done_parm ds.

Lemma parm_range d : 1 <= parm d <= 9.
Proof. destruct d as [c| |]; cbn; [|lia..]. destruct (base_call c); lia. Qed.

Lemma fields_range ds : 1 <= fields ds < 2 ^ (4 * (zlen ds + 1)).
Proof.
  induction ds as [|d ds IH]; cbn [fields foldr length]; [cbn; lia|]. fold (fields ds). pose proof (parm_range d).
  replace (4 * (Z.of_nat (S (length ds)) + 1)) with (4 + 4 * (zlen ds + 1)) by lia. rewrite Z.pow_add_r by lia. lia.
Qed.

Lemma fingerprint_call i d p t fp shift :
  well_formed false d ->
  Fingerprinter.visit (type_call i d) p (t, (fp, shift)) = Some (t, (fp ||| u64 (parm d ≪ shift), shift + 4)).
Proof. intros H. destruct d as [c| |]; [|done..]. cbn [type_call parm]. pattern c. by apply (base_cases false c _ H). Qed.

(** Adding a field above the bits that are used. *)
Lemma add_field fp f shift : 0 <= shift -> shift + 4 <= 64 -> is_u shift fp -> 0 <= f < 16 -> fp ||| u64 (f ≪ shift) = fp + f * 2 ^ shift.
Proof.
  intros H0 H1 Hfp Hf. rewrite Z.shiftl_mul_pow2 by lia. rewrite wrapu_id; [by apply lor_add|]. unfold is_u.
  assert (2 ^ shift * 16 <= 2 ^ 64) by (change 16 with (2 ^ 4); rewrite <- Z.pow_add_r by lia; apply Z.pow_le_mono_r; lia). nia.
Qed.

(** The fingerprinter builds the fields. *)
Lemma fingerprint_run ds i p t fp shift :
  Forall (well_formed false) ds -> 0 <= shift -> is_u shift fp -> shift + 4 * (zlen ds + 1) <= 64 ->
  exists fp' shift', run Fingerprinter.visit (parameter_calls i p ds) (t, (fp, shift)) = Some (t, (fp', shift')) /\
    fp' ||| u64 (done_parm ≪ shift') = fp + fields ds * 2 ^ shift.
Proof.
  intros Hds. revert i p fp shift. induction Hds as [|d ds Hd _ IH]; intros i p fp shift H0 Hfp Hlen; cbn [parameter_calls run].
  - exists fp, shift. split; [done|]. cbn [length] in Hlen. apply add_field; (done || lia).
  - rewrite fingerprint_call by done. cbn [mbind option_bind]. pose proof (parm_range d). cbn [length] in Hlen.
    rewrite add_field by (done || lia). assert (E : 2 ^ (shift + 4) = 16 * 2 ^ shift) by (rewrite Z.pow_add_r by lia; lia).
    destruct (IH (i + zlen (print d)) (p + slots d) (fp + parm d * 2 ^ shift) (shift + 4)) as (fp' & shift' & -> & Hf); [lia| |lia|].
    { unfold is_u in *. rewrite E. nia. }
    exists fp', shift'. split; [done|]. rewrite Hf, E. cbn [fields foldr]. fold (fields ds). lia.
Qed.

(** The calls of an iteration by fingerprint: no positions, and arrays are objects. *)
Definition erase (c : call) : call :=
  match c with do_object _ _ | do_array _ _ => do_object 0 0 | _ => c end.

Definition erased_calls (p : Z) (ds : list descriptor) : list (call * Z) :=
  (fun '(c, p) => (erase c, p)) <$> parameter_calls 0 p ds.

Lemma erased_calls_at i i' p ds :
  (fun '(c, p) => (erase c, p)) <$> parameter_calls i p ds = (fun '(c, p) => (erase c, p)) <$> parameter_calls i' p ds.
Proof.
  revert i i' p. induction ds as [|d ds IH]; intros i i' p; [done|]. cbn [parameter_calls fmap list_fmap].
  f_equal; [by destruct d|apply IH].
Qed.

Lemma erased_calls_cons p d ds : erased_calls p (d :: ds) = (erase (type_call 0 d), p) :: erased_calls (p + slots d) ds.
Proof. unfold erased_calls. cbn [parameter_calls fmap list_fmap]. f_equal. apply erased_calls_at. Qed.

Section fingerprint.
Context {A : Type} (visit : call -> Z -> BasicType * A -> option (BasicType * A)).

(** One field. *)
Lemma fingerprint_step d f fuel (it : SignatureIterator A) :
  well_formed false d -> 0 <= f ->
  fingerprint_loop visit (S fuel) (parm d + 16 * f) it =
    it ← invoke visit (erase (type_call 0 d)) it;
    fingerprint_loop visit fuel f (set_parameter_index (_parameter_index it + slots d) it).
Proof.
  intros Hd Hf. pose proof (parm_range d). cbn [fingerprint_loop].
  rewrite (land_field parameter_feature_mask 0 4), Z.shiftr_div_pow2 by done. change (2 ^ 0) with 1. change (2 ^ 4) with 16.
  replace ((parm d + 16 * f) / 1 mod 16 * 1) with (parm d) by (rewrite Z.div_1_r, Z.mul_1_r, Z.mul_comm, Z_mod_plus, Z.mod_small by lia; done).
  replace ((parm d + 16 * f) / 16) with f by (Z.div_mod_to_equations; lia).
  destruct d as [c| |]; [|done..]. cbn [type_call parm slots erase]. pattern c. by apply (base_cases false c _ Hd).
Qed.

Lemma fingerprint_loop_fields ds fuel i p t s :
  Forall (well_formed false) ds -> (length ds < fuel)%nat ->
  fingerprint_loop visit fuel (fields ds) (mkIterator i p t s) =
    '(t, s) ← run visit (erased_calls p ds) (t, s);
    Some (mkIterator i (p + all_slots ds) t s).
Proof.
  intros Hds. revert fuel p t s. induction Hds as [|d ds Hd _ IH]; intros fuel p t s Hf; (destruct fuel as [|fuel]; [lia|]).
  - cbn -[Z.add]. do 2 f_equal. lia.
  - cbn [fields foldr]. fold (fields ds). pose proof (fields_range ds). rewrite fingerprint_step by (done || lia).
    rewrite erased_calls_cons. cbn [run]. unfold invoke. cbn [_index _parameter_index _return_type subclass].
    destruct (visit _ p (t, s)) as [[t' s']|]; [|done]. cbn [mbind option_bind]. unfold set_parameter_index. cbn [_index _parameter_index _return_type subclass].
    cbn [length] in Hf. rewrite IH by lia. cbn [all_slots foldr]. fold (all_slots ds). by rewrite Z.add_assoc.
Qed.

(** Iteration by a fingerprint with low bits [low]. *)
Lemma iterate_fingerprint_fields signature low ds it :
  Forall (well_formed false) ds -> zlen ds <= max_size_of_parameters -> 0 <= low < 32 ->
  iterate_fingerprint visit signature (low + fields ds * 2 ^ 5) it =
    '(t, s) ← run visit (erased_calls 0 ds) (_return_type it, subclass it);
    Some (mkIterator (_index it) (all_slots ds) t s).
Proof.
  intros Hds Hlen Hlow. pose proof (fields_range ds) as Hf.
  assert (2 ^ (4 * (zlen ds + 1)) <= 2 ^ 56) by (apply Z.pow_le_mono_r; lia).
  unfold iterate_fingerprint. rewrite (proj2 (Z.eqb_neq _ (2 ^ 64 - 1))), (proj2 (Z.eqb_neq _ 0)) by lia. cbn [negb].
  rewrite Z.shiftr_div_pow2 by done. change (2 ^ (static_feature_size + result_feature_size)) with 32. change (2 ^ 5) with 32.
  replace ((low + fields ds * 32) / 32) with (fields ds) by (Z.div_mod_to_equations; lia).
  unfold set_parameter_index. rewrite fingerprint_loop_fields by (done || lia). done.
Qed.
End fingerprint.

(** A fingerprint that [constMethodOop] can hold. *)
Definition storable (fp : Z) : Prop := is_u 64 fp /\ fp ≫ 32 <> 0x80000000 /\ s32 fp <> 0.

Definition with_fingerprint (m : methodOop) (fp : Z) : methodOop := mkMethod (signature m) (is_static m) (size_of_parameters m) fp.

Lemma storable_set m fp : constMethod_fingerprint m = 0 -> storable fp -> set_fingerprint fp m = Some (with_fingerprint m fp).
Proof.
  intros H0 (_ & H1 & H2). unfold set_fingerprint. rewrite H0, (proj2 (Z.eqb_neq _ _) H1), (proj2 (Z.eqb_neq _ _) H2). done.
Qed.

Lemma storable_get m fp : storable fp -> constMethod_fingerprint (with_fingerprint m fp) = fp.
Proof.
  intros (Hu & H1 & H2). unfold constMethod_fingerprint. cbn [_fingerprint with_fingerprint]. rewrite (proj2 (Z.eqb_neq _ _) H2).
  rewrite wrapu_id, (proj2 (Z.eqb_neq _ _) H1); [done|]. rewrite Z.shiftr_div_pow2 by done. unfold is_u in *.
  change (2 ^ 64) with (2 ^ 32 * 2 ^ 32) in Hu. split; [apply Z.div_pos; lia|apply Z.div_lt_upper_bound; lia].
Qed.

Lemma storable_fields low ds : 0 < low < 32 -> zlen ds <= max_size_of_parameters -> storable (low + fields ds * 2 ^ 5).
Proof.
  intros Hlow Hlen. pose proof (fields_range ds) as Hf.
  assert (2 ^ (4 * (zlen ds + 1)) <= 2 ^ 56) by (apply Z.pow_le_mono_r; lia). split_and!.
  - unfold is_u. lia.
  - rewrite Z.shiftr_div_pow2 by done. change (2 ^ 32) with 4294967296. Z.div_mod_to_equations. lia.
  - intros E. apply (f_equal (wrapu 32)) in E. rewrite wrapu_wraps in E by lia. change (u32 0) with 0 in E. unfold wrapu in E.
    change (2 ^ 5) with 32 in E. change (2 ^ 32) with (32 * 134217728) in E. apply (f_equal (fun z => z mod 32)) in E.
    rewrite Z.rem_mul_r in E by lia. rewrite Z_mod_plus, (Z.mod_small low) in E by lia. rewrite (Z.mul_comm 32), Z_mod_plus, Z.mod_small in E by lia. change (0 mod 32) with 0 in E. lia.
Qed.

Lemma basic_type_value void_ok r : well_formed void_ok r -> 4 <= BasicType_value (basic_type r) <= 14.
Proof. intros H. destruct r as [c| |]; [|done..]. cbn [basic_type]. pattern c. by apply (base_cases void_ok c _ H). Qed.

(** The bits below the parameters. *)
Definition low_bits (m : methodOop) (result : descriptor) : Z :=
  2 * BasicType_value (basic_type result) + (if is_static m then 1 else 0).

Lemma slots_count ds : zlen ds <= all_slots ds.
Proof. induction ds as [|d ds IH]; cbn [length all_slots foldr]; [done|]. pose proof (slots_range d). fold (all_slots ds). lia. Qed.

Section method.
Context (m : methodOop) (parameters : list descriptor) (result : descriptor).
Hypothesis Hsignature : signature m = print_method parameters result.
Hypothesis Hparameters : Forall (well_formed false) parameters.
Hypothesis Hresult : well_formed true result.
Hypothesis Hparen : JVM_SIGNATURE_ENDFUNC ∉ print_all parameters.
Hypothesis Hsize : size_of_parameters m = all_slots parameters + (if is_static m then 0 else 1).

Lemma fingerprint_small :
  constMethod_fingerprint m = 0 -> size_of_parameters m <= max_size_of_parameters ->
  Fingerprinter.fingerprint m =
    Some (low_bits m result + fields parameters * 2 ^ 5, with_fingerprint m (low_bits m result + fields parameters * 2 ^ 5)).
Proof using All.
  intros H0 Hmax. unfold Fingerprinter.fingerprint. rewrite H0, (proj2 (Z.eqb_eq 0 0)) by done. cbn [negb].
  destruct (Z.gtb_spec (size_of_parameters m) max_size_of_parameters); [lia|].
  unfold result_type. rewrite Hsignature, result_type_print by done. cbn [mbind option_bind].
  pose proof (basic_type_value true result Hresult) as Hv. rewrite (proj2 (Z.leb_le _ _)) by lia.
  pose proof (slots_count parameters). assert (Hlen : zlen parameters <= max_size_of_parameters) by (destruct (is_static m); lia).
  rewrite iterate_parameters_print by done. cbn [_return_type subclass].
  match goal with |- context [run _ _ (_, (?e, _))] => set (low := e) end.
  assert (Hlow : low = low_bits m result).
  { unfold low, low_bits. rewrite Z.shiftl_mul_pow2, wrapu_id by (unfold is_u; lia). destruct (is_static m); [|lia].
    rewrite Z.lor_comm. rewrite lor_add by (done || unfold is_u; lia). lia. }
  assert (Hrange : 0 < low_bits m result < 32) by (unfold low_bits; destruct (is_static m); lia).
  clearbody low. subst low. destruct (fingerprint_run parameters 1 0 T_ILLEGAL (low_bits m result) 5) as (fp & shift & E & Hfp);
    [done|lia|unfold is_u; lia|lia|]. change (result_feature_size + static_feature_size) with 5. rewrite E. cbn [mbind option_bind subclass].
  rewrite Hfp. rewrite storable_set by (done || by apply storable_fields). done.
Qed.

Lemma fingerprint_large :
  constMethod_fingerprint m = 0 -> max_size_of_parameters < size_of_parameters m ->
  Fingerprinter.fingerprint m = Some (2 ^ 64 - 1, with_fingerprint m (2 ^ 64 - 1)).
Proof using Type.
  intros H0 Hmax. unfold Fingerprinter.fingerprint. rewrite H0, (proj2 (Z.eqb_eq 0 0)) by done. cbn [negb].
  destruct (Z.gtb_spec (size_of_parameters m) max_size_of_parameters); [|lia]. by rewrite storable_set.
Qed.
End method.

(** * Arguments of native methods *)

Definition pass_of (d : descriptor) : NativeSignatureIterator.pass :=
  match d with
  | Base c =>
      match base_call c with
      | do_float => NativeSignatureIterator.pass_float
      | do_double => NativeSignatureIterator.pass_double
      | do_long => NativeSignatureIterator.pass_long
      | _ => NativeSignatureIterator.pass_int
      end
  | _ => NativeSignatureIterator.pass_object
  end.

(** The arguments with their offsets on the Java stack and their numbers as C arguments. *)
Fixpoint native_passes (offset jni_offset : Z) (ds : list descriptor) : list (NativeSignatureIterator.pass * Z * Z) :=
  match ds with
  | [] => []
  | d :: ds => (pass_of d, offset, jni_offset) :: native_passes (offset + slots d) (jni_offset + 1) ds
  end.

Section native.
Context {B : Type} (do_pass : NativeSignatureIterator.pass -> Z -> Z -> B -> option B).

Fixpoint run_passes (l : list (NativeSignatureIterator.pass * Z * Z)) (b : B) : option B :=
  match l with
  | [] => Some b
  | (k, o, j) :: l => b ← do_pass k o j b; run_passes l b
  end.

Lemma native_call prep i d p t o j b :
  well_formed false d ->
  NativeSignatureIterator.visit do_pass prep (type_call i d) p (t, NativeSignatureIterator.mkState o j b) =
    b ← do_pass (pass_of d) o (j + prep) b;
    Some (t, NativeSignatureIterator.mkState (o + slots d) (j + 1) b).
Proof.
  intros Hd. destruct d as [c| |]; cbn [type_call pass_of slots]; [|unfold NativeSignatureIterator.visit, NativeSignatureIterator.passes; cbn;
    by destruct (do_pass _ o (j + prep) b)..].
  pattern c. by apply (base_cases false c _ Hd); [unfold NativeSignatureIterator.visit, NativeSignatureIterator.passes; cbn; destruct (do_pass _ o (j + prep) b)..|].
Qed.

Lemma native_run prep ds i p t o j b :
  Forall (well_formed false) ds ->
  run (NativeSignatureIterator.visit do_pass prep) (parameter_calls i p ds) (t, NativeSignatureIterator.mkState o j b) =
    b ← run_passes (native_passes o (j + prep) ds) b;
    Some (t, NativeSignatureIterator.mkState (o + all_slots ds) (j + zlen ds) b).
Proof.
  intros Hds. revert i p o j b. induction Hds as [|d ds Hd _ IH]; intros i p o j b; cbn [parameter_calls run native_passes run_passes].
  - cbn. do 3 f_equal; lia.
  - rewrite native_call by done. destruct (do_pass _ o _ b) as [b'|]; [|done]. cbn [mbind option_bind]. rewrite IH.
    replace (j + 1 + prep) with (j + prep + 1) by lia. destruct (run_passes _ b') as [b''|]; [|done]. cbn [mbind option_bind].
    cbn [all_slots foldr length]. fold (all_slots ds). do 3 f_equal; lia.
Qed.

(** The virtual methods do not look at positions. *)
Lemma native_erased prep i p ds st :
  run (NativeSignatureIterator.visit do_pass prep) (erased_calls p ds) st = run (NativeSignatureIterator.visit do_pass prep) (parameter_calls i p ds) st.
Proof.
  unfold erased_calls. rewrite (erased_calls_at 0 i). generalize (parameter_calls i p ds) as l. intros l. revert st.
  induction l as [|[c q] l IH]; intros st; [done|]. cbn [fmap list_fmap run].
  assert (NativeSignatureIterator.visit do_pass prep (erase c) q st = NativeSignatureIterator.visit do_pass prep c q st) as -> by by destruct c.
  destruct (NativeSignatureIterator.visit do_pass prep c q st); cbn; [apply IH|done].
Qed.
End native.

Section native_method.
Context {B : Type} (do_pass : NativeSignatureIterator.pass -> Z -> Z -> B -> option B).
Context (m : methodOop) (parameters : list descriptor) (result : descriptor).
Hypothesis Hsignature : signature m = print_method parameters result.
Hypothesis Hparameters : Forall (well_formed false) parameters.
Hypothesis Hresult : well_formed true result.
Hypothesis Hparen : JVM_SIGNATURE_ENDFUNC ∉ print_all parameters.
Hypothesis Hsize : size_of_parameters m = all_slots parameters + (if is_static m then 0 else 1).

(** The receiver comes first; the first parameter is C argument 2, after the environment
    and the receiver or the mirror of the class. *)
Definition native_arguments : list (NativeSignatureIterator.pass * Z * Z) :=
  if is_static m then native_passes 0 2 parameters
  else (NativeSignatureIterator.pass_object, 0, 1) :: native_passes 1 2 parameters.

Lemma native_iterate_with prep fp st :
  (exists low, 0 <= low < 32 /\ zlen parameters <= max_size_of_parameters /\ fp = low + fields parameters * 2 ^ 5) \/ fp = 2 ^ 64 - 1 ->
  iterate_fingerprint (NativeSignatureIterator.visit do_pass prep) (signature m) fp (mkIterator 0 0 T_ILLEGAL st) =
    '(t, s) ← run (NativeSignatureIterator.visit do_pass prep) (parameter_calls 1 0 parameters) (T_ILLEGAL, st);
    Some (mkIterator (if fp =? 2 ^ 64 - 1 then zlen (print_all parameters) + 2 else 0) (if fp =? 2 ^ 64 - 1 then 0 else all_slots parameters) t s).
Proof using Hsignature Hparameters.
  intros [(low & Hlow & Hlen & ->)| ->].
  - rewrite iterate_fingerprint_fields by done. cbn [_return_type subclass _index]. rewrite (native_erased do_pass _ 1).
    pose proof (fields_range parameters). assert (2 ^ (4 * (zlen parameters + 1)) <= 2 ^ 56) by (apply Z.pow_le_mono_r; lia).
    by rewrite (proj2 (Z.eqb_neq _ _)) by lia.
  - unfold iterate_fingerprint. rewrite Z.eqb_refl, Hsignature, iterate_parameters_print by done. done.
Qed.

Lemma native_iterate b :
  constMethod_fingerprint m = 0 ->
  NativeSignatureIterator.iterate do_pass m b =
    b ← run_passes do_pass native_arguments b;
    Some (NativeSignatureIterator.mkState (size_of_parameters m) (zlen parameters + (if is_static m then 0 else 1)) b).
Proof using All.
  intros H0. unfold NativeSignatureIterator.iterate.
  assert (exists fp, Fingerprinter.fingerprint m = Some (fp, with_fingerprint m fp) /\
    ((exists low, 0 <= low < 32 /\ zlen parameters <= max_size_of_parameters /\ fp = low + fields parameters * 2 ^ 5) \/ fp = 2 ^ 64 - 1)) as (fp & -> & Hfp).
  { destruct (Z.le_gt_cases (size_of_parameters m) max_size_of_parameters).
    - rewrite (fingerprint_small m parameters result) by done. eexists. split; [done|]. left. exists (low_bits m result).
      pose proof (basic_type_value true result Hresult). pose proof (slots_count parameters). unfold low_bits.
      split; [destruct (is_static m); lia|]. split; [destruct (is_static m); lia|done].
    - rewrite fingerprint_large by done. eexists. split; [done|]. by right. }
  cbn [mbind option_bind]. unfold NativeSignatureIterator.iterate_with.
  change (is_static (with_fingerprint m fp)) with (is_static m). change (signature (with_fingerprint m fp)) with (signature m).
  unfold native_arguments. rewrite Hsize. destruct (is_static m); cbn [negb].
  - cbn [mbind option_bind]. rewrite native_iterate_with, native_run by done.
    change (0 + (1 + 1)) with 2. destruct (run_passes _ _ b) as [b'|]; [|done]. cbn [mbind option_bind subclass]. do 2 f_equal; lia.
  - unfold NativeSignatureIterator.passes. cbn [NativeSignatureIterator._offset NativeSignatureIterator._jni_offset NativeSignatureIterator.platform run_passes].
    change (0 + 1) with 1. destruct (do_pass _ 0 1 b) as [b1|]; [|done]. cbn [mbind option_bind].
    rewrite native_iterate_with, native_run by done. change (1 + 1) with 2.
    destruct (run_passes _ _ b1) as [b'|]; [|done]. cbn [mbind option_bind subclass]. do 2 f_equal; lia.
Qed.
End native_method.

(** * The stream of types *)

Lemma brackets_skipped d pre rest signature fuel :
  signature = pre ++ print d ++ rest -> well_formed false d -> (Z.to_nat (dimensions d) < fuel)%nat ->
  SignatureStream.skip_brackets signature fuel (zlen pre) = Some (zlen pre + dimensions d).
Proof.
  revert pre fuel. induction d as [c|name|d IH]; intros pre fuel Hsig Hwf Hf; (destruct fuel as [|fuel]; [lia|]); cbn [SignatureStream.skip_brackets];
    rewrite Hsig; cbn [print app dimensions] in *; rewrite load_app_mid; cbn [mbind option_bind].
  - replace (c =? JVM_SIGNATURE_ARRAY) with false by (pattern c; by apply (base_cases false c _ Hwf)). f_equal. lia.
  - cbn. f_equal. lia.
  - cbn [well_formed] in Hwf. pose proof (dimensions_nonneg d). rewrite Z.eqb_refl. rewrite <- Hsig.
    destruct (print_head false d rest Hwf) as (c & l & E & Hc).
    assert (load signature (zlen pre + 1) = Some c) as ->.
    { rewrite Hsig, E. apply (load_rest pre _ 1); [done|lia]. }
    cbn [mbind option_bind].
    assert (exists n, length signature = S n) as [n ->] by (rewrite Hsig, length_app; cbn [length]; eexists; by rewrite Nat.add_succ_r).
    cbn [SignatureStream.skip_digits]. rewrite Hc. cbn [mbind option_bind].
    specialize (IH (pre ++ [JVM_SIGNATURE_ARRAY]) fuel). after_byte in IH. rewrite IH by (done || lia). f_equal. lia.
Qed.

(** The element of an array ends where the stream says. *)
Lemma stream_element_end d pre rest signature fuel :
  signature = pre ++ print d ++ rest -> well_formed false d -> (length (print d) <= fuel)%nat ->
  exists c, load signature (zlen pre + dimensions d) = Some c /\
    (if SignatureStream.element_letter c then Some (zlen pre + dimensions d + 1) else skip_past_semicolon signature fuel (zlen pre + dimensions d)) =
    Some (zlen pre + zlen (print d)).
Proof.
  intros Hsig Hwf Hf. destruct (element_end false d pre rest signature fuel Hsig Hwf Hf) as (c & Hc & E). exists c. split; [done|].
  rewrite <- E. assert (Hcase : (c =? JVM_SIGNATURE_CLASS) = negb (SignatureStream.element_letter c)); [|rewrite Hcase; by destruct (SignatureStream.element_letter c)].
  clear E Hf. revert pre Hsig Hwf Hc. induction d as [c'|name|d IH]; intros pre Hsig Hwf Hc; cbn [print app dimensions] in *.
  - rewrite Z.add_0_r, Hsig, load_app_mid in Hc. injection Hc as <-. pattern c'. by apply (base_cases false c' _ Hwf).
  - rewrite Z.add_0_r, Hsig, load_app_mid in Hc. by injection Hc as <-.
  - apply (IH (pre ++ [JVM_SIGNATURE_ARRAY])); [by rewrite <- app_assoc|done|]. rewrite <- Hc. f_equal. len_lia.
Qed.

(** One step of the stream. *)
Lemma next_print void_ok d pre rest signature fuel st :
  signature = pre ++ print d ++ rest -> well_formed void_ok d -> SignatureStream._end st = zlen pre ->
  SignatureStream.next_from signature (S fuel) st =
    Some (SignatureStream.mkStream (zlen pre) (zlen pre + zlen (print d)) (basic_type d) (SignatureStream._at_return_type st)).
Proof.
  intros Hsig Hwf Hend. cbn [SignatureStream.next_from]. rewrite Hend. pose proof (print_pos d).
  destruct (Z.geb_spec (zlen pre) (zlen signature)); [rewrite Hsig in *; len_lia|].
  assert (Hlen : (length (print d) <= length signature)%nat) by (rewrite Hsig; len_lia).
  destruct d as [c|name|d]; cbn [print basic_type] in *; rewrite Hsig at 1; cbn [app]; rewrite load_app_mid; cbn [mbind option_bind].
  - change (zlen [c]) with 1. pattern c. by apply (base_cases void_ok c _ Hwf).
  - cbn -[SignatureStream.next_reference Z.add Z.of_nat length]. unfold SignatureStream.next_reference. cbn -[skip_past_semicolon Z.add Z.of_nat length].
    destruct Hwf as [Hn _]. pose proof (semicolon_found (JVM_SIGNATURE_CLASS :: name) pre rest (length signature)) as E.
    cbn [app] in *. rewrite <- (app_assoc name) in Hsig. cbn [app] in Hsig. rewrite <- Hsig in E. rewrite E.
    + cbn [mbind option_bind]. do 2 f_equal. len_lia.
    + by rewrite not_elem_of_cons.
    + len_lia.
  - cbn -[SignatureStream.next_reference Z.add Z.of_nat length]. unfold SignatureStream.next_reference.
    cbn -[skip_past_semicolon SignatureStream.skip_digits SignatureStream.skip_brackets SignatureStream.element_letter Z.add Z.of_nat length load].
    rewrite Hsig at 1. cbn [app]. rewrite load_app_mid. cbn [mbind option_bind].
    assert (SignatureStream.skip_digits signature (length signature) JVM_SIGNATURE_ARRAY (zlen pre) = Some (zlen pre)) as ->.
    { destruct (length signature); [len_lia|done]. }
    cbn [mbind option_bind]. rewrite (brackets_skipped (Array d) pre rest) by (done || (pose proof (dimensions_length (Array d)); cbn [print] in *; lia)).
    cbn [mbind option_bind]. destruct (stream_element_end (Array d) pre rest signature (length signature) Hsig Hwf Hlen) as (c & -> & E).
    cbn [mbind option_bind]. by rewrite E.
Qed.

(** The symbol of a type. *)
Definition type_symbol (d : descriptor) : list Z := match d with Object name => name | _ => print d end.

Lemma substring (pre l rest : list Z) b e :
  b = zlen pre -> e = zlen pre + zlen l -> take (Z.to_nat (e - b)) (drop (Z.to_nat b) (pre ++ l ++ rest)) = l.
Proof.
  intros -> ->. replace (Z.to_nat (zlen pre + zlen l - zlen pre)) with (length l) by lia. rewrite Nat2Z.id.
  by rewrite drop_app_length, take_app_length.
Qed.

Lemma as_symbol_print void_ok d pre rest signature t at_return :
  signature = pre ++ print d ++ rest -> well_formed void_ok d ->
  SignatureStream.as_symbol signature (SignatureStream.mkStream (zlen pre) (zlen pre + zlen (print d)) t at_return) = Some (type_symbol d).
Proof.
  intros Hsig Hwf. unfold SignatureStream.as_symbol. cbn [SignatureStream._begin SignatureStream._end]. pose proof (print_pos d) as Hpos.
  assert (exists e, load signature (zlen pre + zlen (print d) - 1) = Some e) as [e He].
  { apply load_is_Some. rewrite Hsig. len_lia. }
  destruct d as [c|name|d]; cbn [type_symbol].
  - rewrite He, Hsig. cbn [print app]. rewrite load_app_mid. cbn [mbind option_bind].
    replace (c =? JVM_SIGNATURE_CLASS) with false by (pattern c; by apply (base_cases void_ok c _ Hwf)). cbn [andb].
    f_equal. by apply (substring pre [c] rest).
  - assert (He' : load signature (zlen pre + zlen (print (Object name)) - 1) = Some SEMICOLON).
    { rewrite Hsig. cbn [print]. replace (pre ++ (JVM_SIGNATURE_CLASS :: name ++ [SEMICOLON]) ++ rest) with ((pre ++ JVM_SIGNATURE_CLASS :: name) ++ SEMICOLON :: rest).
      - apply load_app_at. len_lia.
      - rewrite <- !app_assoc. cbn [app]. by rewrite <- app_assoc. }
    rewrite He', Hsig. cbn [print app]. rewrite load_app_mid. cbn [mbind option_bind]. cbn [Z.eqb Pos.eqb andb]. f_equal.
    replace (pre ++ JVM_SIGNATURE_CLASS :: (name ++ [SEMICOLON]) ++ rest) with ((pre ++ [JVM_SIGNATURE_CLASS]) ++ name ++ SEMICOLON :: rest)
      by (rewrite <- !app_assoc; done).
    apply substring; len_lia.
  - rewrite He, Hsig. cbn [print app]. rewrite load_app_mid. cbn [mbind option_bind Z.eqb Pos.eqb andb].
    f_equal. by apply (substring pre (JVM_SIGNATURE_ARRAY :: print d) rest).
Qed.

(** The loop [for (SignatureStream ss(signature); !ss.is_done(); ss.next())] of the clients,
    with what they see. *)
Fixpoint walk (signature : list Z) (fuel : nat) (st : SignatureStream.SignatureStream) : option (list (BasicType * list Z * bool)) :=
  if SignatureStream.is_done signature st then Some []
  else
    match fuel with
    | O => None
    | S fuel =>
        symbol ← SignatureStream.as_symbol signature st;
        st' ← SignatureStream.next signature st;
        seen ← walk signature fuel st';
        Some ((SignatureStream._type st, symbol, SignatureStream._at_return_type st) :: seen)
    end.

Definition seen (at_return : bool) (d : descriptor) : BasicType * list Z * bool := (basic_type d, type_symbol d, at_return).

(** At the return type. *)
Lemma walk_return r pre signature fuel :
  signature = pre ++ print r -> well_formed true r -> (1 <= fuel)%nat ->
  walk signature fuel (SignatureStream.mkStream (zlen pre) (zlen signature) (basic_type r) true) = Some [seen true r].
Proof.
  intros Hsig Hwf Hf. destruct fuel as [|fuel]; [lia|]. cbn [walk]. unfold SignatureStream.is_done at 1. cbn [SignatureStream._end].
  destruct (Z.gtb_spec (zlen signature) (zlen signature)); [lia|].
  assert (Hlen : zlen signature = zlen pre + zlen (print r)) by (rewrite Hsig; len_lia).
  rewrite Hlen at 1. rewrite (as_symbol_print true r pre []) by (done || by rewrite app_nil_r). cbn [mbind option_bind].
  unfold SignatureStream.next. cbn [SignatureStream.next_from SignatureStream._end]. destruct (Z.geb_spec (zlen signature) (zlen signature)); [|lia].
  cbn [mbind option_bind]. destruct fuel; cbn [walk]; unfold SignatureStream.is_done; cbn [SignatureStream._end];
    (destruct (Z.gtb_spec (zlen signature + 1) (zlen signature)); [done|lia]).
Qed.

(** The step over ')' to the return type. *)
Lemma next_return r pre signature st :
  signature = pre ++ JVM_SIGNATURE_ENDFUNC :: print r -> well_formed true r -> SignatureStream._end st = zlen pre ->
  SignatureStream.next signature st = Some (SignatureStream.mkStream (zlen pre + 1) (zlen signature) (basic_type r) true).
Proof.
  intros Hsig Hwf Hend. unfold SignatureStream.next. cbn [SignatureStream.next_from]. rewrite Hend.
  destruct (Z.geb_spec (zlen pre) (zlen signature)); [rewrite Hsig in *; len_lia|]. rewrite Hsig at 1. rewrite load_app_mid. cbn [mbind option_bind].
  cbn -[SignatureStream.next_from Z.add Z.of_nat length].
  assert (exists n, length signature = S n) as [n E] by (rewrite Hsig, length_app; cbn [length]; eexists; by rewrite Nat.add_succ_r). rewrite E at 1.
  rewrite (next_print true r (pre ++ [JVM_SIGNATURE_ENDFUNC]) []); [|by rewrite app_nil_r, <- app_assoc|done|cbn [SignatureStream._end]; len_lia].
  cbn. do 2 f_equal; [|rewrite Hsig]; len_lia.
Qed.

Lemma walk_parameters ds : forall d r pre signature fuel,
  signature = pre ++ print d ++ print_all ds ++ JVM_SIGNATURE_ENDFUNC :: print r ->
  well_formed false d -> Forall (well_formed false) ds -> well_formed true r -> (S (S (length ds)) <= fuel)%nat ->
  walk signature fuel (SignatureStream.mkStream (zlen pre) (zlen pre + zlen (print d)) (basic_type d) false) =
    Some (seen false d :: (seen false <$> ds) ++ [seen true r]).
Proof.
  induction ds as [|d' ds IH]; intros d r pre signature fuel Hsig Hd Hds Hr Hf; (destruct fuel as [|fuel]; [lia|]); cbn [walk];
    unfold SignatureStream.is_done at 1; cbn [SignatureStream._end];
    (destruct (Z.gtb_spec (zlen pre + zlen (print d)) (zlen signature)); [rewrite Hsig in *; len_lia|]);
    rewrite (as_symbol_print false d pre _ _ _ _ Hsig Hd); cbn [mbind option_bind length] in *.
  - rewrite (next_return r (pre ++ print d)); [|by rewrite Hsig, <- app_assoc|done|cbn [SignatureStream._end]; len_lia]. cbn [mbind option_bind].
    pose proof (walk_return r (pre ++ print d ++ [JVM_SIGNATURE_ENDFUNC]) signature fuel) as E.
    replace (zlen (pre ++ print d) + 1) with (zlen (pre ++ print d ++ [JVM_SIGNATURE_ENDFUNC])) by len_lia.
    rewrite E; [done| |done|lia]. rewrite Hsig. cbn. by rewrite <- !app_assoc.
  - apply Forall_cons in Hds as [Hd' Hds]. change (print_all (d' :: ds)) with (print d' ++ print_all ds) in Hsig.
    rewrite <- app_assoc in Hsig. unfold SignatureStream.next.
    rewrite (next_print false d' (pre ++ print d) (print_all ds ++ JVM_SIGNATURE_ENDFUNC :: print r));
      [|by rewrite Hsig, <- app_assoc|done|cbn [SignatureStream._end]; len_lia].
    cbn [mbind option_bind SignatureStream._at_return_type]. rewrite (IH d' r); [done|by rewrite Hsig, <- app_assoc|done..|lia].
Qed.

Lemma stream_walk parameters result :
  Forall (well_formed false) parameters -> well_formed true result ->
  let signature := print_method parameters result in
  (st ← SignatureStream.new_stream signature true; walk signature (S (length parameters)) st) =
    Some ((seen false <$> parameters) ++ [seen true result]).
Proof.
  intros Hps Hr. cbv zeta. unfold SignatureStream.new_stream. destruct parameters as [|d ds].
  - rewrite (next_return result [JVM_SIGNATURE_FUNC]) by done. cbn [mbind option_bind].
    by apply (walk_return result [JVM_SIGNATURE_FUNC; JVM_SIGNATURE_ENDFUNC]).
  - apply Forall_cons in Hps as [Hd Hds].
    assert (E : print_method (d :: ds) result = [JVM_SIGNATURE_FUNC] ++ print d ++ print_all ds ++ JVM_SIGNATURE_ENDFUNC :: print result)
      by (unfold print_method; cbn; by rewrite <- app_assoc).
    unfold SignatureStream.next. rewrite (next_print false d [JVM_SIGNATURE_FUNC] _ _ _ _ E Hd) by done. cbn [mbind option_bind SignatureStream._at_return_type].
    by apply (walk_parameters ds d result [JVM_SIGNATURE_FUNC]).
Qed.

(** * Signatures from native code *)

(** The types of the verifier: void is allowed everywhere, the dimensions are not bounded,
    and a class name has no zero, '.', ';' or '['. *)
Fixpoint valid_type (d : descriptor) : Prop :=
  match d with
  | Base c => c ∈ JVM_SIGNATURE_VOID :: base_types
  | Object name => Forall (fun c => SignatureVerifier.invalid_name_char c = false) name
  | Array d => valid_type d
  end.

Lemma scan_name_print name pre mid rest bytes fuel limit :
  bytes = pre ++ mid ++ name ++ SEMICOLON :: rest -> Forall (fun c => SignatureVerifier.invalid_name_char c = false) name ->
  zlen mid + zlen name < limit -> (length name < fuel)%nat ->
  SignatureVerifier.scan_name bytes (zlen pre) fuel (zlen mid) limit = Some (zlen mid + zlen name + 1).
Proof.
  intros Hb Hn. revert mid fuel Hb. induction Hn as [|c name Hc _ IH]; intros mid fuel Hb Hl Hf; (destruct fuel as [|fuel]; [lia|]);
    cbn [SignatureVerifier.scan_name length] in *; (rewrite (proj2 (Z.ltb_lt _ _)) by lia).
  - rewrite Hb, app_assoc. cbn [app]. rewrite load_app_at by len_lia. cbn. f_equal. lia.
  - assert (load bytes (zlen pre + zlen mid) = Some c) as -> by (rewrite Hb, app_assoc; apply load_app_at; len_lia). cbn [mbind option_bind].
    rewrite Hc. replace (c =? SEMICOLON) with false by (unfold SignatureVerifier.invalid_name_char in Hc; lia).
    specialize (IH (mid ++ [c]) fuel). rewrite length_app, Nat2Z.inj_add in IH. cbn [length] in IH. change (Z.of_nat 1) with 1 in IH.
    rewrite IH; [f_equal; lia|by rewrite Hb, <- app_assoc|lia..].
Qed.

Lemma scan_name_sound fuel s pre mid limit :
  limit = zlen mid + zlen s -> (length s < fuel)%nat ->
  exists r, SignatureVerifier.scan_name (pre ++ mid ++ s) (zlen pre) fuel (zlen mid) limit = Some r /\
    (r = -1 \/ exists name rest, s = name ++ SEMICOLON :: rest /\ Forall (fun c => SignatureVerifier.invalid_name_char c = false) name /\
       r = zlen mid + zlen name + 1).
Proof.
  intros ->. revert s mid. induction fuel as [|fuel IH]; intros s mid Hf; [lia|]. cbn [SignatureVerifier.scan_name].
  destruct s as [|c s]; cbn [length] in *.
  { rewrite (proj2 (Z.ltb_ge _ _)) by lia. eexists. split; [done|]. by left. }
  rewrite (proj2 (Z.ltb_lt _ _)) by lia. rewrite app_assoc, load_app_at by len_lia. cbn [mbind option_bind].
  destruct (Z.eqb_spec c SEMICOLON) as [->|].
  { eexists. split; [done|]. right. exists [], s. split; [done|]. split; [done|cbn; lia]. }
  destruct (SignatureVerifier.invalid_name_char c) eqn:Hc; [eexists; split; [done|by left]|].
  destruct (IH s (mid ++ [c])) as (r & Hr & Hcase); [lia|]. rewrite <- app_assoc. rewrite <- app_assoc in Hr. cbn [app] in Hr.
  rewrite length_app, Nat2Z.inj_add in *. cbn [length] in *. change (Z.of_nat 1) with 1 in *.
  replace (zlen mid + 1 + zlen s) with (zlen mid + Z.of_nat (S (length s))) in Hr by lia. exists r. split; [done|].
  destruct Hcase as [->|(name & rest & -> & Hn & ->)]; [by left|right]. exists (c :: name), rest. split; [done|]. split; [by constructor|]. cbn [length]. lia.
Qed.

Lemma brackets_split (s : list Z) : exists n s', s = replicate n JVM_SIGNATURE_ARRAY ++ s' /\ head s' <> Some JVM_SIGNATURE_ARRAY.
Proof.
  induction s as [|c s (n & s' & -> & H)]; [by exists 0%nat, []|]. destruct (Z.eq_dec c JVM_SIGNATURE_ARRAY) as [->|].
  - by exists (S n), s'.
  - exists 0%nat, (c :: replicate n JVM_SIGNATURE_ARRAY ++ s'). split; [done|]. cbn. congruence.
Qed.

Lemma skip_dims_brackets n pre k s' fuel limit :
  head s' <> Some JVM_SIGNATURE_ARRAY -> limit = Z.of_nat k + Z.of_nat n + zlen s' -> (n < fuel)%nat ->
  SignatureVerifier.skip_dims (pre ++ replicate k JVM_SIGNATURE_ARRAY ++ replicate n JVM_SIGNATURE_ARRAY ++ s') (zlen pre) fuel (Z.of_nat k) limit =
    Some (Z.of_nat k + Z.of_nat n).
Proof.
  intros Hs' ->. revert k fuel. induction n as [|n IH]; intros k fuel Hf; (destruct fuel as [|fuel]; [lia|]); cbn [SignatureVerifier.skip_dims replicate app].
  - destruct s' as [|c s']; cbn [length]; [rewrite (proj2 (Z.ltb_ge _ _)) by lia; f_equal; lia|].
    rewrite (proj2 (Z.ltb_lt _ _)) by lia. rewrite app_assoc, load_app_at by (rewrite length_app, length_replicate; lia). cbn [mbind option_bind].
    destruct (Z.eqb_spec c JVM_SIGNATURE_ARRAY) as [->|]; [done|f_equal; lia].
  - rewrite (proj2 (Z.ltb_lt _ _)) by lia. rewrite app_assoc, load_app_at by (rewrite length_app, length_replicate; lia). cbn [mbind option_bind].
    rewrite Z.eqb_refl, <- app_assoc. specialize (IH (S k) fuel). rewrite replicate_S_end, <- app_assoc in IH. cbn [app] in IH.
    replace (Z.of_nat k + 1) with (Z.of_nat (S k)) by lia. replace (Z.of_nat k + Z.of_nat (S n) + zlen s') with (Z.of_nat (S k) + Z.of_nat n + zlen s') by lia.
    rewrite IH by lia. f_equal. lia.
Qed.

(** An array of [n] dimensions. *)
Definition arrays (n : nat) (d : descriptor) : descriptor := Nat.iter n Array d.

Lemma print_arrays n d : print (arrays n d) = replicate n JVM_SIGNATURE_ARRAY ++ print d.
Proof. induction n as [|n IH]; cbn; [done|]. by rewrite <- IH. Qed.

Lemma valid_arrays n d : valid_type (arrays n d) <-> valid_type d.
Proof. by induction n. Qed.

Lemma arrays_element d : d = arrays (Z.to_nat (dimensions d)) (element d).
Proof.
  induction d as [| |d IH]; [done..|]. cbn [dimensions element]. pose proof (dimensions_nonneg d).
  replace (Z.to_nat (1 + dimensions d)) with (S (Z.to_nat (dimensions d))) by lia. by rewrite IH at 1.
Qed.

(** The letters of the verifier's switch. *)
Lemma valid_letter c : valid_type (Base c) <-> SignatureStream.element_letter c || (c =? JVM_SIGNATURE_VOID) = true.
Proof.
  cbn [valid_type]. unfold base_types, SignatureStream.element_letter. rewrite !elem_of_cons, elem_of_nil, !orb_true_iff, !Z.eqb_eq. tauto.
Qed.

(** What follows the brackets. *)
Definition after_brackets (bytes : list Z) (type index limit : Z) : option Z :=
  if index >=? limit then Some (-1)
  else
    c ← load bytes (type + index);
    if SignatureStream.element_letter c || (c =? JVM_SIGNATURE_VOID) then Some (index + 1)
    else if c =? JVM_SIGNATURE_CLASS then SignatureVerifier.scan_name bytes type (S (length bytes)) (index + 1) limit
    else Some (-1).

Lemma is_valid_type_brackets n pre s' :
  head s' <> Some JVM_SIGNATURE_ARRAY ->
  let s := replicate n JVM_SIGNATURE_ARRAY ++ s' in
  SignatureVerifier.is_valid_type (pre ++ s) (zlen pre) (zlen s) = after_brackets (pre ++ s) (zlen pre) (Z.of_nat n) (zlen s).
Proof.
  intros H s. unfold SignatureVerifier.is_valid_type. pose proof (skip_dims_brackets n pre 0 s' (S (length (pre ++ s))) (zlen s) H) as E.
  cbn [replicate app] in E. fold s in E. change (Z.of_nat 0) with 0 in E. rewrite Z.add_0_l in E. rewrite E; [done| |];
    unfold s; rewrite !length_app, length_replicate; lia.
Qed.

(** The verifier's scanner on the text of a type, and on any text. *)
Lemma is_valid_type_print d pre rest :
  valid_type d -> SignatureVerifier.is_valid_type (pre ++ print d ++ rest) (zlen pre) (zlen (print d ++ rest)) = Some (zlen (print d)).
Proof.
  rewrite (arrays_element d). generalize (Z.to_nat (dimensions d)) as n. intros n Hv%valid_arrays. rewrite print_arrays, <- app_assoc.
  assert (Hd : head (print (element d) ++ rest) <> Some JVM_SIGNATURE_ARRAY).
  { destruct (element d) as [c| |] eqn:E; cbn; [|congruence|by apply element_not_array in E]. intros [= ->]. by apply valid_letter in Hv. }
  rewrite is_valid_type_brackets by done. unfold after_brackets. set (brackets := replicate n JVM_SIGNATURE_ARRAY).
  assert (Hn : Z.of_nat n = zlen brackets) by (unfold brackets; by rewrite length_replicate). rewrite Hn. pose proof (print_pos (element d)).
  destruct (Z.geb_spec (zlen brackets) (zlen (brackets ++ print (element d) ++ rest))); [len_lia|].
  rewrite app_assoc. destruct (element d) as [c|name|d'] eqn:E; cbn [print app] in *; [..|by apply element_not_array in E].
  - rewrite load_app_at by len_lia. cbn [mbind option_bind]. apply valid_letter in Hv. rewrite Hv. f_equal. len_lia.
  - rewrite load_app_at by len_lia. cbn [mbind option_bind]. cbn -[SignatureVerifier.scan_name length Z.of_nat Z.add].
    rewrite <- app_assoc. pose proof (scan_name_print name pre (brackets ++ [JVM_SIGNATURE_CLASS]) rest
      (pre ++ brackets ++ JVM_SIGNATURE_CLASS :: (name ++ [SEMICOLON]) ++ rest)) as Hs.
    replace (zlen brackets + 1) with (zlen (brackets ++ [JVM_SIGNATURE_CLASS])) by len_lia. rewrite Hs; [f_equal; len_lia| |done|len_lia..].
    by rewrite <- !app_assoc.
Qed.

Lemma is_valid_type_sound s pre :
  exists r, SignatureVerifier.is_valid_type (pre ++ s) (zlen pre) (zlen s) = Some r /\
    (r = -1 \/ exists d rest, valid_type d /\ s = print d ++ rest /\ r = zlen (print d)).
Proof.
  destruct (brackets_split s) as (n & s' & -> & H). rewrite is_valid_type_brackets by done. unfold after_brackets.
  set (brackets := replicate n JVM_SIGNATURE_ARRAY).
  assert (Hn : Z.of_nat n = zlen brackets) by (unfold brackets; by rewrite length_replicate). rewrite Hn.
  assert (Hno : exists r, Some (-1) = Some r /\ (r = -1 \/ exists d rest, valid_type d /\ brackets ++ s' = print d ++ rest /\ r = zlen (print d))).
  { eexists. split; [done|]. by left. }
  destruct (Z.geb_spec (zlen brackets) (zlen (brackets ++ s'))); [done|]. destruct s' as [|c s']; [len_lia|].
  rewrite app_assoc, load_app_at by len_lia. cbn [mbind option_bind].
  destruct (SignatureStream.element_letter c || (c =? JVM_SIGNATURE_VOID)) eqn:Ec.
  { eexists. split; [done|]. right. exists (arrays n (Base c)), s'. rewrite valid_arrays, valid_letter, print_arrays, <- app_assoc. split; [done|].
    split; [done|]. fold brackets. cbn [print]. len_lia. }
  destruct (Z.eqb_spec c JVM_SIGNATURE_CLASS) as [->|]; [|done]. rewrite <- app_assoc.
  destruct (scan_name_sound (S (length (pre ++ brackets ++ JVM_SIGNATURE_CLASS :: s'))) s' pre (brackets ++ [JVM_SIGNATURE_CLASS])
    (zlen (brackets ++ JVM_SIGNATURE_CLASS :: s'))) as (r & Hr & Hcase); [len_lia..|].
  rewrite <- app_assoc in Hr. cbn [app] in Hr. replace (zlen brackets + 1) with (zlen (brackets ++ [JVM_SIGNATURE_CLASS])) by len_lia. exists r. split; [done|].
  destruct Hcase as [->|(name & rest & -> & Hname & ->)]; [by left|right].
  exists (arrays n (Object name)), rest. rewrite valid_arrays, print_arrays. split; [done|]. fold brackets. cbn [print].
  split; [|len_lia]. rewrite <- !app_assoc. cbn [app]. by rewrite <- app_assoc.
Qed.

(** Whole signatures. *)
Lemma valid_type_whole s :
  exists b, SignatureVerifier.is_valid_type_signature s = Some b /\ (b = true <-> exists d, valid_type d /\ s = print d).
Proof.
  unfold SignatureVerifier.is_valid_type_signature. destruct (Z.geb_spec (zlen s) 1).
  - destruct (is_valid_type_sound s []) as (r & Hr & Hcase). cbn [app length] in Hr. change (Z.of_nat 0) with 0 in Hr. rewrite Hr. cbn [mbind option_bind].
    eexists. split; [done|]. rewrite Z.eqb_eq. split.
    + intros ->. destruct Hcase as [?|(d & rest & Hv & -> & E)]; [lia|]. exists d. split; [done|].
      rewrite length_app in E. destruct rest; [by rewrite app_nil_r|cbn in E; lia].
    + intros (d & Hv & ->). pose proof (is_valid_type_print d [] [] Hv) as E. rewrite app_nil_r in E. cbn [app length] in E.
      change (Z.of_nat 0) with 0 in E. congruence.
  - eexists. split; [done|]. split; [done|]. intros (d & _ & ->). pose proof (print_pos d). lia.
Qed.

(** The position in the text of a method. *)
Lemma valid_parameters_print ds pre rest fuel :
  Forall valid_type ds -> (length ds < fuel)%nat ->
  SignatureVerifier.valid_parameters (pre ++ print_all ds ++ JVM_SIGNATURE_ENDFUNC :: rest) fuel (zlen pre) = Some (Some (zlen pre + zlen (print_all ds))).
Proof.
  intros Hds. revert pre fuel. induction Hds as [|d ds Hd _ IH]; intros pre fuel Hf; (destruct fuel as [|fuel]; [lia|]); cbn [SignatureVerifier.valid_parameters length] in *.
  - cbn [print_all mbind list_bind app]. rewrite (proj2 (Z.ltb_lt _ _)) by len_lia. rewrite load_app_mid. cbn. do 2 f_equal. lia.
  - change (print_all (d :: ds)) with (print d ++ print_all ds). rewrite <- app_assoc. pose proof (print_pos d).
    rewrite (proj2 (Z.ltb_lt _ _)) by len_lia.
    assert (exists c l, print d = c :: l /\ c <> JVM_SIGNATURE_ENDFUNC) as (c & l & E & Hc).
    { destruct d as [c| |]; eexists _, _; (split; [done|]); [|done..]. apply valid_letter in Hd. unfold SignatureStream.element_letter in Hd. lia. }
    assert (forall tail, load (pre ++ print d ++ tail) (zlen pre) = Some c) as -> by (intros; rewrite E; apply load_app_mid).
    cbn [mbind option_bind]. rewrite (proj2 (Z.eqb_neq _ _) Hc).
    set (tail := print_all ds ++ JVM_SIGNATURE_ENDFUNC :: rest).
    replace (zlen (pre ++ print d ++ tail) - zlen pre) with (zlen (print d ++ tail)) by len_lia. rewrite is_valid_type_print by done. cbn [mbind option_bind].
    rewrite (proj2 (Z.eqb_neq _ (-1))) by lia. specialize (IH (pre ++ print d) fuel). rewrite <- app_assoc, length_app, Nat2Z.inj_add in IH.
    unfold tail. rewrite IH by lia. do 2 f_equal. len_lia.
Qed.

Lemma valid_parameters_sound fuel s pre :
  (length s < fuel)%nat ->
  exists o, SignatureVerifier.valid_parameters (pre ++ s) fuel (zlen pre) = Some o /\
    (forall i, o = Some i -> exists ds rest, Forall valid_type ds /\ s = print_all ds ++ rest /\ i = zlen pre + zlen (print_all ds) /\
       (rest = [] \/ exists rest', rest = JVM_SIGNATURE_ENDFUNC :: rest')).
Proof.
  revert s pre. induction fuel as [|fuel IH]; intros s pre Hf; [lia|]. cbn [SignatureVerifier.valid_parameters].
  assert (Hstop : (s = [] \/ exists rest', s = JVM_SIGNATURE_ENDFUNC :: rest') -> forall i, Some (zlen pre) = Some i ->
    exists ds rest, Forall valid_type ds /\ s = print_all ds ++ rest /\ i = zlen pre + zlen (print_all ds) /\ (rest = [] \/ exists rest', rest = JVM_SIGNATURE_ENDFUNC :: rest')).
  { intros H i [= <-]. exists [], s. split; [done|]. split; [done|]. split; [cbn; lia|done]. }
  destruct s as [|c s].
  { rewrite (proj2 (Z.ltb_ge _ _)) by len_lia. eexists. split; [done|]. apply Hstop. by left. }
  rewrite (proj2 (Z.ltb_lt _ _)) by len_lia. rewrite load_app_mid. cbn [mbind option_bind].
  destruct (Z.eqb_spec c JVM_SIGNATURE_ENDFUNC) as [->|].
  { eexists. split; [done|]. apply Hstop. right. by eexists. }
  destruct (is_valid_type_sound (c :: s) pre) as (r & Hr & Hcase). replace (zlen (pre ++ c :: s) - zlen pre) with (zlen (c :: s)) by len_lia.
  rewrite Hr. cbn [mbind option_bind]. destruct (Z.eqb_spec r (-1)); [by eexists|]. destruct Hcase as [?|(d & rest & Hd & E & ->)]; [done|].
  pose proof (print_pos d). rewrite E in *. rewrite app_assoc, <- Nat2Z.inj_add, <- length_app.
  destruct (IH rest (pre ++ print d)) as (o & Ho & Hds); [len_lia|]. exists o. split; [done|].
  intros i ->. destruct (Hds i eq_refl) as (ds & rest' & Hv & -> & -> & Hrest). exists (d :: ds), rest'. split; [by constructor|].
  split; [cbn; by rewrite <- app_assoc|]. split; [|done]. cbn [print_all mbind list_bind]. fold (print_all ds). len_lia.
Qed.

Lemma valid_method_print parameters result :
  Forall valid_type parameters -> valid_type result ->
  SignatureVerifier.is_valid_method_signature (print_method parameters result) = Some true.
Proof.
  intros Hps Hr. unfold SignatureVerifier.is_valid_method_signature. pose proof (print_pos result). destruct (all_slots_length parameters).
  assert (Hlen : zlen (print_method parameters result) = zlen (print_all parameters) + 2 + zlen (print result)) by (unfold print_method; len_lia).
  destruct (Z.gtb_spec (zlen (print_method parameters result)) 1); [|lia].
  change (load (print_method parameters result) 0) with (Some JVM_SIGNATURE_FUNC). cbn [mbind option_bind]. rewrite Z.eqb_refl.
  pose proof (valid_parameters_print parameters [JVM_SIGNATURE_FUNC] (print result) (S (length (print_method parameters result))) Hps) as E.
  change ([JVM_SIGNATURE_FUNC] ++ ?l) with (print_method parameters result) in E. change (zlen [JVM_SIGNATURE_FUNC]) with 1 in E.
  rewrite E by (unfold print_method; len_lia). cbn [mbind option_bind]. rewrite (proj2 (Z.ltb_lt _ _)) by lia.
  set (pre := (JVM_SIGNATURE_FUNC :: print_all parameters) ++ [JVM_SIGNATURE_ENDFUNC]).
  assert (Hsig : print_method parameters result = pre ++ print result ++ []) by (unfold pre; rewrite app_nil_r, <- app_assoc; done).
  assert (load (print_method parameters result) (1 + zlen (print_all parameters)) = Some JVM_SIGNATURE_ENDFUNC) as ->.
  { apply (load_app_at (JVM_SIGNATURE_FUNC :: print_all parameters)). len_lia. }
  cbn [mbind option_bind]. rewrite Z.eqb_refl. replace (1 + zlen (print_all parameters) + 1) with (zlen pre) by (unfold pre; len_lia).
  replace (zlen (print_method parameters result) - zlen pre) with (zlen (print result ++ [])) by (rewrite Hsig; len_lia).
  rewrite Hsig, is_valid_type_print by done. cbn [mbind option_bind]. by rewrite app_nil_r, Z.eqb_refl.
Qed.

Lemma valid_method_whole s :
  exists b, SignatureVerifier.is_valid_method_signature s = Some b /\
    (b = true <-> exists parameters result, Forall valid_type parameters /\ valid_type result /\ s = print_method parameters result).
Proof.
  assert (Hsound : exists b, SignatureVerifier.is_valid_method_signature s = Some b /\
    (b = true -> exists parameters result, Forall valid_type parameters /\ valid_type result /\ s = print_method parameters result)).
  2:{ destruct Hsound as (b & Hb & H). exists b. split; [done|]. split; [done|]. intros (ps & r & Hps & Hr & ->).
      rewrite valid_method_print in Hb by done. congruence. }
  unfold SignatureVerifier.is_valid_method_signature. destruct (Z.gtb_spec (zlen s) 1); [|by eexists].
  destruct s as [|c s]; [done|]. change (load (c :: s) 0) with (Some c). cbn [mbind option_bind].
  destruct (Z.eqb_spec c JVM_SIGNATURE_FUNC) as [->|]; [|by eexists].
  destruct (valid_parameters_sound (S (length (JVM_SIGNATURE_FUNC :: s))) s [JVM_SIGNATURE_FUNC]) as (o & Ho & Hds); [cbn [length]; lia|].
  cbn [app] in Ho. change (zlen [JVM_SIGNATURE_FUNC]) with 1 in *. rewrite Ho. cbn [mbind option_bind]. destruct o as [i|]; [|by eexists].
  destruct (Hds i eq_refl) as (ds & rest & Hv & -> & -> & [->|[rest' ->]]).
  { rewrite (proj2 (Z.ltb_ge _ _)) by len_lia. by eexists. }
  rewrite (proj2 (Z.ltb_lt _ _)) by len_lia. set (pre := (JVM_SIGNATURE_FUNC :: print_all ds) ++ [JVM_SIGNATURE_ENDFUNC]).
  assert (Hsig : JVM_SIGNATURE_FUNC :: print_all ds ++ JVM_SIGNATURE_ENDFUNC :: rest' = pre ++ rest') by (unfold pre; by rewrite <- app_assoc).
  assert (load (JVM_SIGNATURE_FUNC :: print_all ds ++ JVM_SIGNATURE_ENDFUNC :: rest') (1 + zlen (print_all ds)) = Some JVM_SIGNATURE_ENDFUNC) as ->.
  { apply (load_app_at (JVM_SIGNATURE_FUNC :: print_all ds)). len_lia. }
  cbn [mbind option_bind]. rewrite Z.eqb_refl, Hsig. replace (1 + zlen (print_all ds) + 1) with (zlen pre) by (unfold pre; len_lia).
  replace (zlen (pre ++ rest') - zlen pre) with (zlen rest') by len_lia.
  destruct (is_valid_type_sound rest' pre) as (r & -> & Hcase). cbn [mbind option_bind]. eexists. split; [done|]. intros ->%Z.eqb_eq.
  destruct Hcase as [?|(d & rest & Hd & -> & E)]; [lia|]. rewrite length_app in E. destruct rest; [|cbn in E; lia].
  exists ds, d. split; [done|]. split; [done|]. unfold pre, print_method. rewrite app_nil_r, <- app_assoc. done.
Qed.

(** * The iterators on the signatures that class files may have *)

(** C26: an iterator makes exactly the calls for the types of the signature, with their
    positions and the index of the parameter, -1 for the return type; it keeps the return
    type and stops at the end.  A stream shows the same types with their symbols.  Both read
    only bytes of the signature and end. *)
Theorem signature_iteration parameters result :
  Forall (well_formed false) parameters -> well_formed true result ->
  let signature := print_method parameters result in
  (forall (A : Type) (visit : call -> Z -> BasicType * A -> option (BasicType * A)) (it : SignatureIterator A),
    iterate_parameters visit signature it =
      ('(t, s) ← run visit (parameter_calls 1 0 parameters) (_return_type it, subclass it);
       Some (mkIterator (zlen (print_all parameters) + 2) 0 t s)) /\
    iterate visit signature it =
      ('(_, s) ← run visit (parameter_calls 1 0 parameters ++ [(return_call parameters result, -1)]) (_return_type it, subclass it);
       Some (mkIterator (zlen signature) 0 (basic_type result) s))) /\
  (st ← SignatureStream.new_stream signature true; walk signature (S (length parameters)) st) =
    Some ((seen false <$> parameters) ++ [seen true result]).
Proof.
  intros Hps Hr. cbv zeta. split; [|by apply stream_walk]. intros A visit it.
  split; [by apply iterate_parameters_print|by apply iterate_print].
Qed.

(** C27: for every method signature that the check of class files accepts, with
    verification on and from version 49 on, the size of the arguments that the iterator
    computes is the one that the check returned.  The return type is found when no class
    name among the parameters has a ')'.  When one has, [iterate_returntype] stops at the
    first ')' and takes the letter behind it for the return type: the result is the type of
    this letter, or [ShouldNotReachHere] when no type starts with it. *)
Theorem argument_sizes_agree isJavaIdentifierStart isJavaIdentifierPart parser name signature n :
  JAVA_1_5_VERSION <= _major_version parser -> _need_verify parser = true -> zlen signature < 2 ^ 16 ->
  verify_legal_method_signature isJavaIdentifierStart isJavaIdentifierPart parser name signature = Some (Returns n) ->
  exists parameters result, signature = print_method parameters result /\
    ArgumentSizeComputer_size signature = Some n /\
    ArgumentCount_size signature = Some (zlen parameters) /\
    (JVM_SIGNATURE_ENDFUNC ∉ print_all parameters -> ResultTypeFinder_type signature = Some (basic_type result)) /\
    (JVM_SIGNATURE_ENDFUNC ∈ print_all parameters ->
       exists a c b, print_all parameters = a ++ JVM_SIGNATURE_ENDFUNC :: c :: b /\ (JVM_SIGNATURE_ENDFUNC ∉ a) /\
         ResultTypeFinder_type signature = letter_type c).
Proof.
  intros Hm Hv Hlen Haccept. destruct (method_signature_ok isJavaIdentifierStart isJavaIdentifierPart parser Hm name signature Hv Hlen) as (o & Ho & Hn).
  rewrite Ho in Haccept. injection Haccept as ->. destruct (proj1 (Hn n) eq_refl) as (ps & r & (Hps & [Hr _] & _) & -> & ->).
  assert (Hwf : Forall (well_formed false) ps) by (eapply Forall_impl; [exact Hps|by intros ? [? _]]).
  exists ps, r. split; [done|]. split; [by apply argument_size_print|]. split; [by apply argument_count_print|].
  split; [intros; by apply result_type_print|]. intros Hin. by apply result_type_misread.
Qed.

(** C25: for a method with a signature of the grammar in which no class name among the
    parameters has a ')', and with the size of its parameters set, the fingerprint is
    computed once and read back from the method.  With at most 13 words of arguments an
    iteration by the fingerprint makes the calls of an iteration over the signature, but
    without positions and with [do_object] for arrays, and it leaves the words of the
    parameters in [_parameter_index]; with more it is an iteration over the signature.  The
    arguments of a native method are passed in order, each at its offset on the Java stack,
    the first parameter as C argument 2. *)
Theorem fingerprint_roundtrip m parameters result :
  signature m = print_method parameters result -> Forall (well_formed false) parameters -> well_formed true result ->
  JVM_SIGNATURE_ENDFUNC ∉ print_all parameters ->
  size_of_parameters m = all_slots parameters + (if is_static m then 0 else 1) -> constMethod_fingerprint m = 0 ->
  exists fp, Fingerprinter.fingerprint m = Some (fp, with_fingerprint m fp) /\
    Fingerprinter.fingerprint (with_fingerprint m fp) = Some (fp, with_fingerprint m fp) /\
    (forall (A : Type) (visit : call -> Z -> BasicType * A -> option (BasicType * A)) (it : SignatureIterator A),
      iterate_fingerprint visit (signature m) fp it =
        if size_of_parameters m <=? max_size_of_parameters then
          '(t, s) ← run visit (erased_calls 0 parameters) (_return_type it, subclass it);
          Some (mkIterator (_index it) (all_slots parameters) t s)
        else iterate_parameters visit (signature m) it) /\
    (forall (B : Type) (do_pass : NativeSignatureIterator.pass -> Z -> Z -> B -> option B) (b : B),
      NativeSignatureIterator.iterate do_pass m b =
        b ← run_passes do_pass (native_arguments m parameters) b;
        Some (NativeSignatureIterator.mkState (size_of_parameters m) (zlen parameters + (if is_static m then 0 else 1)) b)).
Proof.
  intros Hsig Hps Hr Hparen Hsize H0.
  assert (Hcached : forall fp, storable fp -> fp <> 0 -> Fingerprinter.fingerprint (with_fingerprint m fp) = Some (fp, with_fingerprint m fp)).
  { intros fp Hfp Hne. unfold Fingerprinter.fingerprint. rewrite storable_get by done. by rewrite (proj2 (Z.eqb_neq _ _) Hne). }
  pose proof (slots_count parameters). pose proof (basic_type_value true result Hr). pose proof (fields_range parameters).
  assert (Hlow : 0 < low_bits m result < 32) by (unfold low_bits; destruct (is_static m); lia).
  destruct (Z.leb_spec (size_of_parameters m) max_size_of_parameters).
  - assert (zlen parameters <= max_size_of_parameters) by (destruct (is_static m); lia).
    exists (low_bits m result + fields parameters * 2 ^ 5). split_and!.
    + by apply fingerprint_small.
    + apply Hcached; [by apply storable_fields|lia].
    + intros A visit it. apply iterate_fingerprint_fields; (done || lia).
    + intros B do_pass b. by apply native_iterate with (result := result).
  - exists (2 ^ 64 - 1). split_and!.
    + by apply fingerprint_large.
    + by apply Hcached.
    + intros A visit it. done.
    + intros B do_pass b. by apply native_iterate with (result := result).
Qed.

(** The check of signatures from native code ends within the symbol and accepts exactly
    the texts over the verifier's types.  These are the types of class files whose class names
    have no zero and no '[', but also void as a parameter and as an element, which class
    files may not have. *)
Theorem native_signatures_checked s :
  (exists b, SignatureVerifier.is_valid_type_signature s = Some b /\ (b = true <-> exists d, valid_type d /\ s = print d)) /\
  (exists b, SignatureVerifier.is_valid_method_signature s = Some b /\
     (b = true <-> exists parameters result, Forall valid_type parameters /\ valid_type result /\ s = print_method parameters result)) /\
  (forall void_ok d, legal_type void_ok d -> 0 ∉ print d -> (forall name, element d = Object name -> JVM_SIGNATURE_ARRAY ∉ name) -> valid_type d) /\
  SignatureVerifier.is_valid_method_signature (print_method [Base JVM_SIGNATURE_VOID] (Array (Base JVM_SIGNATURE_VOID))) = Some true.
Proof.
  split; [apply valid_type_whole|]. split; [apply valid_method_whole|]. split; [|done].
  intros void_ok d [Hwf _] H0 Hname. rewrite (arrays_element d), valid_arrays. rewrite print_dimensions in H0.
  destruct (element_well_formed void_ok d Hwf) as [v Hv]. destruct (element d) as [c|name|d'] eqn:E; [..|by apply element_not_array in E].
  - cbn in *. rewrite elem_of_cons. destruct Hv as [?|[_ ->]]; auto.
  - destruct Hv as [H1 H2]. specialize (Hname name eq_refl). cbn [valid_type]. apply Forall_forall. intros c Hc.
    assert (c <> 0) by (intros ->; apply H0; cbn [print]; set_solver).
    assert (c <> DOT) by (by intros ->). assert (c <> SEMICOLON) by (by intros ->). assert (c <> JVM_SIGNATURE_ARRAY) by (by intros ->).
    unfold SignatureVerifier.invalid_name_char. lia.
Qed.

(** * Examples *)

(** "(J[La;)V". *)
Lemma signature_iteration_witness :
  print_method [Base 74; Array (Object [97])] (Base 86) = [40; 74; 91; 76; 97; 59; 41; 86] /\
  (st ← SignatureStream.new_stream [40; 74; 91; 76; 97; 59; 41; 86] true; walk [40; 74; 91; 76; 97; 59; 41; 86] 3 st) =
    Some [(T_LONG, [74], false); (T_ARRAY, [91; 76; 97; 59], false); (T_VOID, [86], true)].
Proof.
  split; [reflexivity|]. refine (proj2 (signature_iteration [Base 74; Array (Object [97])] (Base 86) _ _)).
  - repeat constructor; set_solver.
  - right. split; reflexivity.
Defined.

(** "(La)I;)V" is accepted with one slot, and its return type is taken for int. *)
Lemma argument_sizes_agree_witness :
  verify_legal_method_signature latin_letter latin_letter java6 [109] [40; 76; 97; 41; 73; 59; 41; 86] = Some (Returns 1) /\
  ResultTypeFinder_type [40; 76; 97; 41; 73; 59; 41; 86] = Some T_INT /\
  exists parameters result, [40; 76; 97; 41; 73; 59; 41; 86] = print_method parameters result /\
    ArgumentSizeComputer_size [40; 76; 97; 41; 73; 59; 41; 86] = Some 1.
Proof.
  split; [reflexivity|]. split; [reflexivity|].
  destruct (argument_sizes_agree latin_letter latin_letter java6 [109] [40; 76; 97; 41; 73; 59; 41; 86] 1) as (ps & r & E & Hs & _);
    [done|reflexivity|reflexivity|reflexivity|]. exists ps, r. split; [exact E|exact Hs].
Defined.

(** The static method "(I)V". *)
Lemma fingerprint_roundtrip_witness :
  exists fp, Fingerprinter.fingerprint (mkMethod [40; 73; 41; 86] true 1 0) = Some (fp, mkMethod [40; 73; 41; 86] true 1 fp) /\
    fp = 29 + 32 * (5 + 16 * 10).
Proof.
  destruct (fingerprint_roundtrip (mkMethod [40; 73; 41; 86] true 1 0) [Base 73] (Base 86)) as (fp & E & _);
    [reflexivity|repeat constructor; set_solver|right; split; reflexivity|cbn; set_solver|reflexivity|reflexivity|].
  exists fp. split; [exact E|]. cbn in E. by injection E as <-.
Defined.
