(* ===== verification/BlockOffsetTable.v ===== *)
(** * Block offset tables

    Model of memory/blockOffsetTable.hpp, .inline.hpp and .cpp: the tables with which a
    space finds the start of the block that contains an address.  Modules [SharedArray]
    (class BlockOffsetSharedArray), [OffsetArray] (BlockOffsetArray), [NonContig] and
    [Contig] (the subclasses for spaces with free lists and for contiguous spaces).

    Addresses are counted in heap words, so that a card of [LogN] bits of bytes is one of
    [LogN_words] bits of words; an address that is not aligned is rounded down to its word,
    which no comparison with an aligned address notices.  The committed part of the table
    is a list of bytes.  The reserved heap, and the bottom and the block sizes of the space,
    are parameters.  A failing assertion, guarantee or debugging check has no result. *)

From S2P Require Import Prelude GlobalDefinitions.

Open Scope Z_scope.

Abbreviation LogN_words := 6.
Abbreviation N_words := 64.
Abbreviation LogBase := 4.
Abbreviation N_powers := 14.

(** [memset] of bytes of the table. *)
Definition memset (l : list Z) (from : Z) (v num : Z) : option (list Z) :=
  if (0 <=? from) && (0 <=? num) && (from + num <=? zlen l) then
    Some (take (Z.to_nat from) l ++ replicate (Z.to_nat num) v ++ drop (Z.to_nat (from + num)) l)
  else None.

(** ** The shared array *)

Module SharedArray.
Record BlockOffsetSharedArray := mkShared {
  reserved_start : Z;
  reserved_end : Z;
  _offset_array : list Z
}.

(** [_vs.committed_size()]. *)
Abbreviation committed_size a := (zlen (_offset_array a)).

Definition set_array (a : BlockOffsetSharedArray) (l : list Z) : BlockOffsetSharedArray :=
  mkShared (reserved_start a) (reserved_end a) l.

Definition index_for (a : BlockOffsetSharedArray) (p : Z) : option Z :=
  ASSERT (reserved_start a <=? p) && (p <? reserved_end a) ;;
  let result := (p - reserved_start a) ≫ LogN_words in
  ASSERT result <? committed_size a ;;
  Some result.

Definition address_for_index (a : BlockOffsetSharedArray) (index : Z) : option Z :=
  ASSERT index <? committed_size a ;;
  let result := reserved_start a + (index ≪ LogN_words) in
  ASSERT (reserved_start a <=? result) && (result <? reserved_end a) ;;
  Some result.

Definition offset_array (a : BlockOffsetSharedArray) (index : Z) : option Z := load (_offset_array a) index.

(** The four [set_offset_array]. *)
Definition set_offset (a : BlockOffsetSharedArray) (index offset : Z) : option BlockOffsetSharedArray :=
  l ← store (_offset_array a) index offset;
  Some (set_array a l).

Definition set_distance (a : BlockOffsetSharedArray) (index high low : Z) : option BlockOffsetSharedArray :=
  ASSERT index <? committed_size a ;;
  ASSERT low <=? high ;;
  ASSERT (high - low) <=? N_words ;;
  l ← store (_offset_array a) index (u8 (high - low));
  Some (set_array a l).

Definition set_words (a : BlockOffsetSharedArray) (left right offset : Z) : option BlockOffsetSharedArray :=
  last ← index_for a (right - 1);
  ASSERT last <? committed_size a ;;
  ASSERT left <? right ;;
  let num_cards := (right - left) ≫ LogN_words in
  first ← index_for a left;
  l ← memset (_offset_array a) first offset num_cards;
  Some (set_array a l).

Definition set_cards (a : BlockOffsetSharedArray) (left right offset : Z) : option BlockOffsetSharedArray :=
  ASSERT right <? committed_size a ;;
  ASSERT left <=? right ;;
  let num_cards := right - left + 1 in
  l ← memset (_offset_array a) left offset num_cards;
  Some (set_array a l).

Definition check_offset_array (a : BlockOffsetSharedArray) (index high low : Z) : option unit :=
  ASSERT index <? committed_size a ;;
  ASSERT low <=? high ;;
  ASSERT (high - low) <=? N_words ;;
  offset ← offset_array a index;
  ASSERT offset =? high - low ;;
  Some tt.

Definition is_card_boundary (a : BlockOffsetSharedArray) (p : Z) : option bool :=
  ASSERT reserved_start a <=? p ;;
  let delta := p - reserved_start a in
  Some ((delta &&& right_n_bits LogN_words) =? NoBits).
End SharedArray.
Import SharedArray.

(** ** Arrays of offsets *)

Module OffsetArray.
Section offsets.
(** [Universe::heap()->is_in_reserved]. *)
Context (is_in_reserved : Z -> bool).

Record BlockOffsetArray := mkArray {
  _array : BlockOffsetSharedArray;
  _bottom : Z;
  _end : Z;
  _init_to_zero : bool
}.

Definition with_array (b : BlockOffsetArray) (a : BlockOffsetSharedArray) : BlockOffsetArray :=
  mkArray a (_bottom b) (_end b) (_init_to_zero b).

(** [1 << (LogBase * i)] of type int, which is not defined beyond the bits of an int. *)
Definition power_to_cards_back (i : Z) : option Z :=
  if LogBase * i <? 31 then Some (1 ≪ (LogBase * i)) else None.

Definition entry_to_cards_back (entry : Z) : option Z :=
  ASSERT N_words <=? entry ;;
  power_to_cards_back (entry - N_words).

(** The loop over the cards after the first one. *)
Fixpoint check_cards (a : BlockOffsetSharedArray) (start_card : Z) (count : nat) (c : Z) : option unit :=
  match count with
  | O => Some tt
  | S count =>
      entry ← offset_array a c;
      first ← power_to_cards_back 1;
      ASSERT implb (c - start_card >? first) (entry >? N_words) ;;
      backskip ← entry_to_cards_back entry;
      let landing_card := u64 (c - backskip) in
      ASSERT landing_card >=? start_card - 1 ;;
      landing ← offset_array a landing_card;
      (if landing_card >=? start_card then
         ASSERT landing <=? entry ;; check_cards a start_card count (c + 1)
       else
         ASSERT landing_card =? start_card - 1 ;;
         ASSERT landing <=? N_words ;;
         check_cards a start_card count (c + 1))
  end.

Definition check_all_cards (a : BlockOffsetSharedArray) (start_card end_card : Z) : option unit :=
  if end_card <? start_card then Some tt
  else
    entry ← offset_array a start_card;
    ASSERT entry =? N_words ;;
    check_cards a start_card (Z.to_nat (end_card - start_card)) (start_card + 1).

(** The loop over the powers; [count] of them are left. *)
Fixpoint set_regions (a : BlockOffsetSharedArray) (start_card end_card : Z) (count : nat) (i start_card_for_region : Z)
    : option (BlockOffsetSharedArray * Z) :=
  match count with
  | O => Some (a, start_card_for_region)
  | S count =>
      cards ← power_to_cards_back (i + 1);
      let reach := start_card - 1 + (cards - 1) in
      let offset := u8 (N_words + i) in
      if reach >=? end_card then
        a ← set_cards a start_card_for_region end_card offset;
        Some (a, reach + 1)
      else
        a ← set_cards a start_card_for_region reach offset;
        set_regions a start_card end_card count (i + 1) (reach + 1)
  end.

Definition set_remainder_to_point_to_start_incl (b : BlockOffsetArray) (start_card end_card : Z) : option BlockOffsetArray :=
  if start_card >? end_card then Some b
  else
    bottom_card ← index_for (_array b) (_bottom b);
    ASSERT start_card >? bottom_card ;;
    offset ← offset_array (_array b) (start_card - 1);
    ASSERT offset <=? N_words ;;
    '(a, start_card_for_region) ← set_regions (_array b) start_card end_card (Z.to_nat N_powers) 0 start_card;
    ASSERT start_card_for_region >? end_card ;;
    check_all_cards a start_card end_card ;;
    Some (with_array b a).

Definition set_remainder_to_point_to_start (b : BlockOffsetArray) (start end_ : Z) : option BlockOffsetArray :=
  if start >=? end_ then Some b
  else
    start_card ← index_for (_array b) start;
    end_card ← index_for (_array b) (end_ - 1);
    start_address ← address_for_index (_array b) start_card;
    ASSERT start =? start_address ;;
    end_address ← address_for_index (_array b) end_card;
    ASSERT end_ =? end_address + N_words ;;
    set_remainder_to_point_to_start_incl b start_card end_card.

(** The constructor. *)
Definition new_array (a : BlockOffsetSharedArray) (start end_ : Z) (init_to_zero : bool) : option BlockOffsetArray :=
  let b := mkArray a start end_ init_to_zero in
  ASSERT start <=? end_ ;;
  if negb init_to_zero then
    b ← set_remainder_to_point_to_start b (start + N_words) end_;
    a ← set_offset (_array b) 0 0;
    Some (with_array b a)
  else Some b.

Inductive Action := Action_single | Action_mark | Action_check.

Definition do_block_internal (b : BlockOffsetArray) (blk_start blk_end : Z) (action : Action) : option BlockOffsetArray :=
  ASSERT is_in_reserved blk_start ;;
  ASSERT is_in_reserved (blk_end - 1) ;;
  let boundary_before_end := (blk_end - 1) &&& Z.lnot (2 ^ LogN_words - 1) in
  if blk_start <=? boundary_before_end then
    start_index ← index_for (_array b) blk_start;
    end_index ← index_for (_array b) (blk_end - 1);
    boundary ← address_for_index (_array b) start_index;
    ASSERT boundary <=? blk_start ;;
    let '(boundary, start_index) :=
      if negb (blk_start =? boundary) then (boundary + N_words, start_index + 1) else (boundary, start_index) in
    ASSERT start_index <=? end_index ;;
    ASSERT boundary <=? boundary_before_end ;;
    let single :=
      a ← set_distance (_array b) start_index boundary blk_start;
      let b := with_array b a in
      if start_index <? end_index then
        rem_st ← address_for_index (_array b) start_index;
        rem_end ← address_for_index (_array b) end_index;
        set_remainder_to_point_to_start b (rem_st + N_words) (rem_end + N_words)
      else Some b in
    match action with
    | Action_mark =>
        if _init_to_zero b then
          a ← set_distance (_array b) start_index boundary blk_start;
          Some (with_array b a)
        else single
    | Action_single => single
    | Action_check =>
        check_offset_array (_array b) start_index boundary blk_start ;;
        check_all_cards (_array b) (start_index + 1) end_index ;;
        Some b
    end
  else Some b.

Definition single_block (b : BlockOffsetArray) (blk_start blk_end : Z) : option BlockOffsetArray :=
  do_block_internal b blk_start blk_end Action_single.

Definition resize (b : BlockOffsetArray) (new_word_size : Z) : option BlockOffsetArray :=
  let new_end := _bottom b + new_word_size in
  a ← (if (_end b <? new_end) && negb (_init_to_zero b) then
         old_boundary ← is_card_boundary (_array b) (_end b);
         ASSERT (old_boundary : bool) ;;
         new_boundary ← is_card_boundary (_array b) new_end;
         ASSERT (new_boundary : bool) ;;
         set_words (_array b) (_end b) new_end N_words
       else Some (_array b));
  Some (mkArray a (_bottom b) new_end (_init_to_zero b)).

Definition set_region (b : BlockOffsetArray) (start end_ : Z) : BlockOffsetArray :=
  mkArray (_array b) start end_ (_init_to_zero b).

Definition set_bottom (b : BlockOffsetArray) (new_bottom : Z) : option BlockOffsetArray :=
  ASSERT new_bottom <=? _end b ;;
  resize (set_region b new_bottom (_end b)) (_end b - new_bottom).

(** [block_start_unsafe] is that of the subclass. *)
Definition block_start (block_start_unsafe : Z -> option Z) (b : BlockOffsetArray) (addr : Z) : option Z :=
  if (_bottom b <=? addr) && (addr <? _end b) then block_start_unsafe addr else Some 0.

(** [verify]; [valid] is what the assertion asks of the start of a block. *)
Fixpoint verify_loop (block_start_unsafe : Z -> option Z) (valid : Z -> bool) (b : BlockOffsetArray) (count : nat) (next_index : Z) : option unit :=
  match count with
  | O => Some tt
  | S count =>
      address ← address_for_index (_array b) next_index;
      let p := address + 1 in
      if p >=? _end b then Some tt
      else
        start ← block_start block_start_unsafe b p;
        ASSERT valid start ;;
        verify_loop block_start_unsafe valid b count (next_index + 1)
  end.

Definition verify (block_start_unsafe : Z -> option Z) (valid : Z -> bool) (b : BlockOffsetArray) (last_active_index : Z) : option unit :=
  verify_loop block_start_unsafe valid b (Z.to_nat last_active_index) 1.
End offsets.
End OffsetArray.
Import OffsetArray.

(** ** Looking for the start of a block *)

Section search.
(** [_sp->bottom()] and [_sp->block_size(n)]. *)
Context (sp_bottom : Z) (block_size : Z -> Z).

(** One step back by an entry of at least [N_words]. *)
Definition go_back (a : BlockOffsetSharedArray) (index q offset : Z) : option (Z * Z * Z) :=
  n_cards_back ← entry_to_cards_back offset;
  let q := q - N_words * n_cards_back in
  ASSERT sp_bottom <=? q ;;
  let index := index - n_cards_back in
  offset ← offset_array a index;
  Some (index, q, offset).

(** [while (n <= addr) { q = n; n += block_size(n); }]. *)
Fixpoint go_forward (fuel : nat) (addr q n : Z) : option (Z * Z) :=
  if n <=? addr then
    match fuel with
    | O => None
    | S fuel => go_forward fuel addr n (n + block_size n)
    end
  else Some (q, n).

(** The end of the searches: the offset, the walk over the blocks and its assertions. *)
Definition finish (fuel : nat) (addr q offset : Z) : option Z :=
  ASSERT offset <? N_words ;;
  let q := q - offset in
  '(q, n) ← go_forward fuel addr q q;
  ASSERT q <=? addr ;;
  ASSERT addr <=? n ;;
  Some q.

End search.

(** *** Spaces with free lists *)

Module NonContig.
Section noncontig.
Context (is_in_reserved : Z -> bool) (sp_bottom : Z) (block_size : Z -> Z).
(** The flags [BlockOffsetArrayUseUnallocatedBlock] and [VerifyBlockOffsetArray]. *)
Context (UseUnallocatedBlock VerifyBlockOffsetArray : bool).

Record BlockOffsetArrayNonContigSpace := mkNonContig {
  base : BlockOffsetArray;
  _unallocated_block : Z
}.

Definition new_noncontig (a : BlockOffsetSharedArray) (start end_ : Z) : option BlockOffsetArrayNonContigSpace :=
  b ← new_array a start end_ false;
  Some (mkNonContig b start).

Definition verify_single_block (b : BlockOffsetArray) (blk_start blk_end : Z) : option unit :=
  if VerifyBlockOffsetArray then
    do_block_internal is_in_reserved b blk_start blk_end Action_check ;;
    Some tt
  else Some tt.

Definition set_unallocated_block (nc : BlockOffsetArrayNonContigSpace) (block : Z) : option BlockOffsetArrayNonContigSpace :=
  ASSERT UseUnallocatedBlock ;;
  ASSERT (_bottom (base nc) <=? block) && (block <=? _end (base nc)) ;;
  Some (mkNonContig (base nc) block).

Definition allocated (nc : BlockOffsetArrayNonContigSpace) (blk_start blk_end : Z) : option BlockOffsetArrayNonContigSpace :=
  verify_single_block (base nc) blk_start blk_end ;;
  Some (if UseUnallocatedBlock then mkNonContig (base nc) (MAX2 (_unallocated_block nc) blk_end) else nc).

Definition freed (nc : BlockOffsetArrayNonContigSpace) (blk_start blk_end : Z) : option BlockOffsetArrayNonContigSpace :=
  verify_single_block (base nc) blk_start blk_end ;;
  if UseUnallocatedBlock then
    ASSERT _unallocated_block nc <=? _end (base nc) ;;
    Some (if (blk_end >=? _unallocated_block nc) && (blk_start <=? _unallocated_block nc)
          then mkNonContig (base nc) blk_start else nc)
  else Some nc.

Definition alloc_block (nc : BlockOffsetArrayNonContigSpace) (blk_start blk_end : Z) : option BlockOffsetArrayNonContigSpace :=
  ASSERT negb (blk_start =? 0) && (blk_start <? blk_end) ;;
  b ← single_block is_in_reserved (base nc) blk_start blk_end;
  allocated (mkNonContig b (_unallocated_block nc)) blk_start blk_end.

Definition mark_block (nc : BlockOffsetArrayNonContigSpace) (blk_start blk_end : Z) : option BlockOffsetArrayNonContigSpace :=
  b ← do_block_internal is_in_reserved (base nc) blk_start blk_end Action_mark;
  Some (mkNonContig b (_unallocated_block nc)).

(** The loops of [split_block] over the powers from [i] on.  The first one ends with the
    first power beyond the cards of the prefix; it returns [more] and [i]. *)
Fixpoint first_power (a : BlockOffsetSharedArray) (suff_index end_index num_pref_cards : Z) (count : nat) (i : Z)
    : option (BlockOffsetSharedArray * bool * Z) :=
  match count with
  | O => Some (a, true, i)
  | S count =>
      back_by ← power_to_cards_back i;
      let right_index := suff_index + back_by - 1 in
      let left_index := right_index - num_pref_cards + 1 in
      let '(right_index, more) := if right_index >=? end_index - 1 then (end_index - 1, false) else (right_index, true) in
      if back_by >? num_pref_cards then
        if left_index <=? right_index then
          a ← set_cards a left_index right_index (u8 (N_words + i - 1));
          Some (a, more, i + 1)
        else Some (a, false, i + 1)
      else if more then first_power a suff_index end_index num_pref_cards count (i + 1)
      else Some (a, false, i + 1)
  end.

Fixpoint next_powers (a : BlockOffsetSharedArray) (suff_index end_index num_pref_cards : Z) (count : nat) (i : Z)
    : option BlockOffsetSharedArray :=
  match count with
  | O => Some a
  | S count =>
      back_by ← power_to_cards_back i;
      let right_index := suff_index + back_by - 1 in
      let left_index := right_index - num_pref_cards + 1 in
      if right_index >=? end_index - 1 then
        let right_index := end_index - 1 in
        if left_index >? right_index then Some a
        else set_cards a left_index right_index (u8 (N_words + i - 1))
      else
        ASSERT left_index <=? right_index ;;
        a ← set_cards a left_index right_index (u8 (N_words + i - 1));
        next_powers a suff_index end_index num_pref_cards count (i + 1)
  end.

(** The first card that starts at or after an address. *)
Definition card_at_or_after (a : BlockOffsetSharedArray) (p : Z) : option Z :=
  index ← index_for a p;
  address ← address_for_index a index;
  Some (if negb (address =? p) then index + 1 else index).

Definition split_block (nc : BlockOffsetArrayNonContigSpace) (blk blk_size left_blk_size : Z) : option BlockOffsetArrayNonContigSpace :=
  verify_single_block (base nc) blk (blk + blk_size) ;;
  ASSERT 0 <? blk_size ;;
  ASSERT 0 <? left_blk_size ;;
  ASSERT left_blk_size <? blk_size ;;
  let pref_addr := blk in
  let suff_addr := blk + left_blk_size in
  let end_addr := blk + blk_size in
  let a := _array (base nc) in
  pref_index ← card_at_or_after a pref_addr;
  suff_index ← card_at_or_after a suff_addr;
  last_index ← index_for a (end_addr - 1);
  let end_index := last_index + 1 in
  let num_pref_cards := suff_index - pref_index in
  let num_suff_cards := end_index - suff_index in
  b ← (if num_suff_cards >? 0 then
         boundary ← address_for_index a suff_index;
         a ← set_distance a suff_index boundary suff_addr;
         let b := with_array (base nc) a in
         if num_pref_cards >? 0 then
           if num_pref_cards >=? num_suff_cards then
             set_remainder_to_point_to_start_incl b (suff_index + 1) (end_index - 1)
           else
             b ← set_remainder_to_point_to_start_incl b (suff_index + 1) (suff_index + num_pref_cards - 1);
             '(a, more, i) ← first_power (_array b) suff_index end_index num_pref_cards (Z.to_nat (N_powers - 1)) 1;
             a ← (if (more : bool) then next_powers a suff_index end_index num_pref_cards (Z.to_nat (N_powers - i)) i else Some a);
             Some (with_array b a)
         else Some b
       else Some (base nc));
  verify_single_block b pref_addr (pref_addr + left_blk_size) ;;
  verify_single_block b suff_addr (suff_addr + (blk_size - left_blk_size)) ;;
  Some (mkNonContig b (_unallocated_block nc)).

(** The loop back; every round goes back at least one card. *)
Fixpoint back_loop (a : BlockOffsetSharedArray) (fuel : nat) (index q offset : Z) : option (Z * Z) :=
  if offset >=? N_words then
    match fuel with
    | O => None
    | S fuel =>
        '(index, q, offset) ← go_back sp_bottom a index q offset;
        back_loop a fuel index q offset
    end
  else Some (q, offset).

Definition block_start_unsafe (nc : BlockOffsetArrayNonContigSpace) (addr : Z) : option Z :=
  let a := _array (base nc) in
  first ← offset_array a 0;
  ASSERT first =? 0 ;;
  ASSERT (_bottom (base nc) <=? addr) && (addr <? _end (base nc)) ;;
  let ub := _unallocated_block nc in
  if UseUnallocatedBlock && (addr >=? ub) then
    ASSERT ub <? _end (base nc) ;; Some ub
  else
    index ← index_for a addr;
    q ← address_for_index a index;
    offset ← offset_array a index;
    '(q, offset) ← back_loop a (length (_offset_array a)) index q offset;
    finish block_size (S (Z.to_nat (_end (base nc) - _bottom (base nc)))) addr q offset.

(** [do ... while (offset >= N_words)]. *)
Fixpoint careful_loop (a : BlockOffsetSharedArray) (fuel : nat) (index q : Z) : option Z :=
  match fuel with
  | O => None
  | S fuel =>
      offset ← offset_array a index;
      if offset <? N_words then Some (q - offset)
      else
        n_cards_back ← entry_to_cards_back offset;
        careful_loop a fuel (index - n_cards_back) (q - n_cards_back * N_words)
  end.

Definition block_start_careful (nc : BlockOffsetArrayNonContigSpace) (addr : Z) : option Z :=
  let a := _array (base nc) in
  first ← offset_array a 0;
  ASSERT first =? 0 ;;
  ASSERT (_bottom (base nc) <=? addr) && (addr <? _end (base nc)) ;;
  let ub := _unallocated_block nc in
  if UseUnallocatedBlock && (addr >=? ub) then
    ASSERT ub <? _end (base nc) ;; Some ub
  else
    index ← index_for a addr;
    address ← address_for_index a index;
    ASSERT address =? addr ;;
    q ← careful_loop a (length (_offset_array a)) index addr;
    ASSERT q <=? addr ;;
    Some q.

Definition verify_not_unallocated (nc : BlockOffsetArrayNonContigSpace) (blk_start blk_end : Z) : option unit :=
  if UseUnallocatedBlock then
    ASSERT blk_start <? blk_end ;;
    ASSERT blk_end <=? _unallocated_block nc ;;
    Some tt
  else Some tt.

Definition last_active_index (nc : BlockOffsetArrayNonContigSpace) : option Z :=
  if _unallocated_block nc =? _bottom (base nc) then Some 0
  else index_for (_array (base nc)) (_unallocated_block nc - 1).
End noncontig.
End NonContig.

(** *** Contiguous spaces *)

Module Contig.
Section contig.
Context (is_in_reserved : Z -> bool) (sp_bottom : Z) (block_size : Z -> Z).

Record BlockOffsetArrayContigSpace := mkContig {
  base : BlockOffsetArray;
  _next_offset_threshold : Z;
  _next_offset_index : Z
}.

Definition new_contig (a : BlockOffsetSharedArray) (start end_ : Z) : option BlockOffsetArrayContigSpace :=
  b ← new_array a start end_ true;
  Some (mkContig b 0 0).

Definition initialize_threshold (ct : BlockOffsetArrayContigSpace) : option BlockOffsetArrayContigSpace :=
  index ← index_for (_array (base ct)) (_bottom (base ct));
  let index := index + 1 in
  threshold ← address_for_index (_array (base ct)) index;
  Some (mkContig (base ct) threshold index).

Definition zero_bottom_entry (ct : BlockOffsetArrayContigSpace) : option BlockOffsetArrayContigSpace :=
  bottom_index ← index_for (_array (base ct)) (_bottom (base ct));
  a ← set_offset (_array (base ct)) bottom_index 0;
  Some (mkContig (with_array (base ct) a) (_next_offset_threshold ct) (_next_offset_index ct)).

(** The check at the end of [alloc_block_work]. *)
Fixpoint check_marked (a : BlockOffsetSharedArray) (count : nat) (j : Z) : option unit :=
  match count with
  | O => Some tt
  | S count =>
      offset ← offset_array a j;
      ASSERT (0 <? offset) && (offset <=? u8 (N_words + N_powers - 1)) ;;
      check_marked a count (j + 1)
  end.

Definition alloc_block_work (ct : BlockOffsetArrayContigSpace) (blk_start blk_end : Z) : option BlockOffsetArrayContigSpace :=
  let threshold := _next_offset_threshold ct in
  let index := _next_offset_index ct in
  ASSERT negb (blk_start =? 0) && (blk_start <? blk_end) ;;
  ASSERT threshold <? blk_end ;;
  ASSERT blk_start <=? threshold ;;
  ASSERT threshold - blk_start <=? N_words ;;
  ASSERT is_in_reserved blk_start ;;
  ASSERT is_in_reserved (blk_end - 1) ;;
  ASSERT threshold =? reserved_start (_array (base ct)) + index * N_words ;;
  a ← set_distance (_array (base ct)) index threshold blk_start;
  let b := with_array (base ct) a in
  end_index ← index_for (_array b) (blk_end - 1);
  b ← (if index + 1 <=? end_index then
         rem_st ← address_for_index (_array b) (index + 1);
         rem_end ← address_for_index (_array b) end_index;
         set_remainder_to_point_to_start b rem_st (rem_end + N_words)
       else Some b);
  address ← address_for_index (_array b) end_index;
  let next_threshold := address + N_words in
  ASSERT blk_end <=? next_threshold ;;
  start_index ← index_for (_array b) blk_start;
  boundary ← address_for_index (_array b) start_index;
  offset ← offset_array (_array b) index;
  ASSERT ((offset =? 0) && (blk_start =? boundary)) || ((0 <? offset) && (offset <=? N_words)) ;;
  check_marked (_array b) (Z.to_nat (end_index - index)) (index + 1) ;;
  Some (mkContig b next_threshold (end_index + 1)).

Definition alloc_block (ct : BlockOffsetArrayContigSpace) (blk_start blk_end : Z) : option BlockOffsetArrayContigSpace :=
  if blk_end >? _next_offset_threshold ct then alloc_block_work ct blk_start blk_end else Some ct.

(** The two loops back: by powers while an entry is beyond [N_words], then card by card. *)
Fixpoint back_by_powers (a : BlockOffsetSharedArray) (fuel : nat) (index q offset : Z) : option (Z * Z * Z) :=
  if offset >? N_words then
    match fuel with
    | O => None
    | S fuel =>
        '(index, q, offset) ← go_back sp_bottom a index q offset;
        back_by_powers a fuel index q offset
    end
  else Some (index, q, offset).

Fixpoint back_by_cards (a : BlockOffsetSharedArray) (fuel : nat) (index q offset : Z) : option (Z * Z) :=
  if offset =? N_words then
    match fuel with
    | O => None
    | S fuel =>
        ASSERT sp_bottom <=? q ;;
        offset ← offset_array a (index - 1);
        back_by_cards a fuel (index - 1) (q - N_words) offset
    end
  else Some (q, offset).

Definition block_start_unsafe (ct : BlockOffsetArrayContigSpace) (addr : Z) : option Z :=
  let a := _array (base ct) in
  first ← offset_array a 0;
  ASSERT first =? 0 ;;
  ASSERT (_bottom (base ct) <=? addr) && (addr <? _end (base ct)) ;;
  index ← index_for a addr;
  let index := MIN2 index (u64 (_next_offset_index ct - 1)) in
  q ← address_for_index a index;
  offset ← offset_array a index;
  '(index, q, offset) ← back_by_powers a (length (_offset_array a)) index q offset;
  '(q, offset) ← back_by_cards a (length (_offset_array a)) index q offset;
  finish block_size (S (Z.to_nat (_end (base ct) - _bottom (base ct)))) addr q offset.

Definition last_active_index (ct : BlockOffsetArrayContigSpace) : Z := u64 (_next_offset_index ct - 1).
End contig.
End Contig.

(** * Powers and entries *)

(** The power of sixteen below a distance. *)
Definition log16 (d : Z) : Z := Z.log2 d / 4.

Lemma log16_unique i d : 0 <= i -> 16 ^ i <= d < 16 ^ (i + 1) -> log16 d = i.
Proof.
  intros Hi Hd. unfold log16. change 16 with (2 ^ 4) in Hd. rewrite <- !Z.pow_mul_r in Hd by lia.
  assert (0 < 2 ^ (4 * i)) by (apply Z.pow_pos_nonneg; lia).
  assert (4 * i <= Z.log2 d < 4 * (i + 1)).
  { split; [apply Z.log2_le_pow2; lia|apply Z.log2_lt_pow2; lia]. }
  Z.div_mod_to_equations. lia.
Qed.

Lemma log16_spec d : 1 <= d -> 0 <= log16 d /\ 16 ^ log16 d <= d < 16 ^ (log16 d + 1).
Proof.
  intros Hd. assert (Hlog : 0 <= log16 d) by (unfold log16; apply Z.div_pos; [apply Z.log2_nonneg|lia]). split; [done|].
  change 16 with (2 ^ 4). rewrite <- !Z.pow_mul_r by lia. pose proof (Z.log2_spec d ltac:(lia)) as [H1 H2]. unfold log16 in *. split.
  - apply Z.le_trans with (2 ^ Z.log2 d); [apply Z.pow_le_mono_r; [lia|]|done]. Z.div_mod_to_equations. lia.
  - apply Z.lt_le_trans with (2 ^ Z.succ (Z.log2 d)); [done|apply Z.pow_le_mono_r; [lia|]]. Z.div_mod_to_equations. lia.
Qed.

Lemma log16_mono d d' : d <= d' -> log16 d <= log16 d'.
Proof. intros H. unfold log16. apply Z.div_le_mono; [lia|]. by apply Z.log2_le_mono. Qed.

(** The tables are small enough for the powers of type int. *)
Abbreviation max_cards := (2 ^ 28).

Lemma log16_small d : 1 <= d < max_cards -> 0 <= log16 d <= 6.
Proof.
  intros Hd. destruct (log16_spec d) as (H0 & H1 & _); [lia|]. split; [done|]. destruct (Z.le_gt_cases (log16 d) 6); [done|].
  assert (16 ^ 7 <= 16 ^ log16 d) by (apply Z.pow_le_mono_r; lia). lia.
Qed.

Lemma power_small i : 0 <= i <= 7 -> power_to_cards_back i = Some (16 ^ i).
Proof.
  intros Hi. unfold power_to_cards_back. rewrite (proj2 (Z.ltb_lt _ _)) by lia. rewrite Z.shiftl_mul_pow2 by lia. f_equal.
  change 16 with (2 ^ 4). rewrite <- Z.pow_mul_r by lia. lia.
Qed.

Lemma entry_small i : 0 <= i <= 7 -> entry_to_cards_back (N_words + i) = Some (16 ^ i).
Proof.
  intros Hi. unfold entry_to_cards_back. rewrite (proj2 (Z.leb_le _ _)) by lia. rewrite <- power_small by done. f_equal. lia.
Qed.

Lemma entry_back v : N_words <= v <= N_words + 7 -> entry_to_cards_back v = Some (16 ^ (v - N_words)).
Proof. intros Hv. rewrite <- (entry_small (v - N_words)) by lia. f_equal. lia. Qed.

(** * Updates of the table *)

Lemma load_memset l from v num l' c :
  memset l from v num = Some l' ->
  load l' c = if (from <=? c) && (c <? from + num) then Some v else load l c.
Proof.
  unfold memset. destruct ((0 <=? from) && (0 <=? num) && (from + num <=? zlen l)) eqn:E; [|done]. intros [= <-].
  unfold load. destruct (decide (0 <= c)) as [Hc|].
  2:{ replace ((from <=? c) && (c <? from + num)) with false by lia. done. }
  destruct ((from <=? c) && (c <? from + num)) eqn:Er.
  - rewrite lookup_app_r by (rewrite length_take; lia). rewrite length_take. rewrite lookup_app_l by (rewrite length_replicate; lia).
    apply lookup_replicate. split; [done|lia].
  - destruct (Z.lt_ge_cases c from).
    + rewrite lookup_app_l by (rewrite length_take; lia). apply lookup_take_lt. lia.
    + rewrite lookup_app_r by (rewrite length_take; lia). rewrite length_take. rewrite lookup_app_r by (rewrite length_replicate; lia).
      rewrite length_replicate, lookup_drop. f_equal. lia.
Qed.

Lemma memset_length l from v num l' : memset l from v num = Some l' -> length l' = length l.
Proof.
  unfold memset. destruct ((0 <=? from) && (0 <=? num) && (from + num <=? zlen l)) eqn:E; [|done]. intros [= <-].
  rewrite !length_app, length_take, length_replicate, length_drop. lia.
Qed.

(** [a'] is [a] with the entries that [upd] gives. *)
Definition updated (a a' : BlockOffsetSharedArray) (upd : Z -> option Z) : Prop :=
  reserved_start a' = reserved_start a /\ reserved_end a' = reserved_end a /\ committed_size a' = committed_size a /\
  forall c, offset_array a' c = match upd c with Some v => Some v | None => offset_array a c end.

Lemma set_cards_ok a left right offset :
  0 <= left <= right -> right < committed_size a ->
  exists a', set_cards a left right offset = Some a' /\
    updated a a' (fun c => if (left <=? c) && (c <=? right) then Some offset else None).
Proof.
  intros Hl Hr. unfold set_cards. rewrite (proj2 (Z.ltb_lt _ _)), (proj2 (Z.leb_le _ _)) by lia.
  assert (exists l', memset (_offset_array a) left offset (right - left + 1) = Some l') as [l' E].
  { unfold memset. replace ((0 <=? left) && (0 <=? right - left + 1) && (left + (right - left + 1) <=? committed_size a)) with true by lia. by eexists. }
  rewrite E. cbn [mbind option_bind]. eexists. split; [done|]. unfold updated, set_array, offset_array. cbn.
  rewrite (memset_length _ _ _ _ _ E). split_and!; try done. intros c. rewrite (load_memset _ _ _ _ _ _ E).
  replace (c <? left + (right - left + 1)) with (c <=? right) by lia. by destruct ((left <=? c) && (c <=? right)).
Qed.

Lemma set_distance_ok a index high low :
  0 <= index < committed_size a -> 0 <= high - low <= N_words ->
  exists a', set_distance a index high low = Some a' /\ updated a a' (fun c => if c =? index then Some (high - low) else None).
Proof.
  intros Hi Hd. unfold set_distance. rewrite (proj2 (Z.ltb_lt _ _)), !(proj2 (Z.leb_le _ _)) by lia.
  destruct (store_is_Some (_offset_array a) index (u8 (high - low)) Hi) as [l' E]. rewrite E. cbn [mbind option_bind]. eexists. split; [done|].
  unfold updated, set_array, offset_array. cbn. rewrite (store_length _ _ _ _ E). split_and!; try done. intros c.
  rewrite (load_store _ _ _ _ c E), wrapu_id by (unfold is_u; lia). destruct (Z.eqb_spec c index) as [->|].
  - by rewrite decide_True.
  - by rewrite decide_False.
Qed.

Lemma set_offset_ok a index v :
  0 <= index < committed_size a -> exists a', set_offset a index v = Some a' /\ updated a a' (fun c => if c =? index then Some v else None).
Proof.
  intros Hi. unfold set_offset. destruct (store_is_Some (_offset_array a) index v Hi) as [l' E]. rewrite E. cbn [mbind option_bind]. eexists. split; [done|].
  unfold updated, set_array, offset_array. cbn. rewrite (store_length _ _ _ _ E). split_and!; try done. intros c. rewrite (load_store _ _ _ _ c E).
  destruct (Z.eqb_spec c index) as [->|]; [by rewrite decide_True|by rewrite decide_False].
Qed.

Lemma updated_trans a a' a'' upd upd' :
  updated a a' upd -> updated a' a'' upd' ->
  updated a a'' (fun c => match upd' c with Some v => Some v | None => upd c end).
Proof.
  intros (H1 & H2 & H3 & H4) (H1' & H2' & H3' & H4'). split_and!; [congruence..|]. intros c. rewrite H4', H4. by destruct (upd' c).
Qed.

Lemma updated_ext a a' upd upd' : (forall c, upd c = upd' c) -> updated a a' upd -> updated a a' upd'.
Proof. intros H (H1 & H2 & H3 & H4). split_and!; try done. intros c. by rewrite <- H. Qed.

Lemma updated_unique a a1 a2 upd : updated a a1 upd -> updated a a2 upd -> a1 = a2.
Proof.
  intros (H1 & H2 & H3 & H4) (H1' & H2' & H3' & H4'). destruct a1 as [s1 e1 l1], a2 as [s2 e2 l2]. cbn in *. f_equal; [congruence..|].
  apply list_eq. intros i. rewrite <- !load_nat. specialize (H4 (Z.of_nat i)). specialize (H4' (Z.of_nat i)). unfold offset_array in *. cbn in *. congruence.
Qed.

(** The entries of the cards after an offset card [f], up to [l]. *)
Definition remainder (f l c : Z) : option Z :=
  if (f <? c) && (c <=? l) then Some (N_words + log16 (c - f)) else None.

Lemma set_regions_ok count f l i a :
  0 <= f -> l < committed_size a -> l - f < max_cards -> 0 <= i -> (7 <= i + Z.of_nat count) ->
  f + 16 ^ i <= l ->
  exists a' next, set_regions a (f + 1) l count i (f + 16 ^ i) = Some (a', next) /\ l < next /\
    updated a a' (fun c => if (f + 16 ^ i <=? c) && (c <=? l) then Some (N_words + log16 (c - f)) else None).
Proof.
  revert i a. induction count as [|count IH]; intros i a Hf Hl Hmax Hi Hcount Hle.
  { assert (16 ^ 7 <= 16 ^ i) by (apply Z.pow_le_mono_r; lia). lia. }
  assert (Hi6 : i <= 6). { destruct (Z.le_gt_cases i 6); [done|]. assert (16 ^ 7 <= 16 ^ i) by (apply Z.pow_le_mono_r; lia). lia. }
  assert (Hpos : 0 < 16 ^ i) by (apply Z.pow_pos_nonneg; lia). assert (Hnext : 16 ^ (i + 1) = 16 * 16 ^ i) by (rewrite Z.pow_add_r by lia; lia).
  cbn [set_regions]. rewrite power_small by lia. cbn [mbind option_bind]. rewrite wrapu_id by (unfold is_u; lia).
  replace (f + 1 - 1 + (16 ^ (i + 1) - 1)) with (f + 16 ^ (i + 1) - 1) by lia.
  assert (Hlog : forall c, f + 16 ^ i <= c -> c < f + 16 ^ (i + 1) -> log16 (c - f) = i) by (intros c ? ?; apply log16_unique; lia).
  destruct (Z.geb_spec (f + 16 ^ (i + 1) - 1) l).
  - destruct (set_cards_ok a (f + 16 ^ i) l (N_words + i)) as (a' & -> & Hu); [lia..|]. cbn [mbind option_bind]. eexists _, _. split; [done|]. split; [lia|].
    eapply updated_ext; [|exact Hu]. intros c. cbn. destruct ((f + 16 ^ i <=? c) && (c <=? l)) eqn:E; [|done]. by rewrite Hlog by lia.
  - destruct (set_cards_ok a (f + 16 ^ i) (f + 16 ^ (i + 1) - 1) (N_words + i)) as (a' & -> & Hu); [lia..|]. cbn [mbind option_bind].
    replace (f + 16 ^ (i + 1) - 1 + 1) with (f + 16 ^ (i + 1)) by lia. pose proof Hu as (_ & _ & Hsize & _).
    destruct (IH (i + 1) a') as (a'' & next & -> & Hn & Hu'); [lia..|]. eexists _, _. split; [done|]. split; [done|].
    eapply updated_ext; [|exact (updated_trans _ _ _ _ _ Hu Hu')]. intros c. cbn.
    destruct ((f + 16 ^ (i + 1) <=? c) && (c <=? l)) eqn:E1; [by replace ((f + 16 ^ i <=? c) && (c <=? l)) with true by lia|].
    destruct ((f + 16 ^ i <=? c) && (c <=? f + 16 ^ (i + 1) - 1)) eqn:E2.
    + replace ((f + 16 ^ i <=? c) && (c <=? l)) with true by lia. by rewrite Hlog by lia.
    + by replace ((f + 16 ^ i <=? c) && (c <=? l)) with false by lia.
Qed.

(** The check of the cards after an offset card passes. *)
Lemma check_cards_ok a f l count c :
  0 <= f -> l < 2 ^ 64 -> l - f < max_cards -> f + 1 < c -> c + Z.of_nat count = l + 1 ->
  (exists v, offset_array a f = Some v /\ v <= N_words) ->
  (forall c, f < c <= l -> offset_array a c = Some (N_words + log16 (c - f))) ->
  check_cards a (f + 1) count c = Some tt.
Proof.
  intros Hf Hl64 Hmax Hc Hcount (v & Hv & Hv64) Hent. revert c Hc Hcount. induction count as [|count IH]; intros c Hc Hcount; [done|].
  cbn [check_cards]. destruct (log16_spec (c - f)) as (H0 & H1 & H2); [lia|]. pose proof (log16_small (c - f) ltac:(lia)).
  rewrite Hent by lia. cbn [mbind option_bind]. rewrite power_small by lia. cbn [mbind option_bind].
  replace (implb _ _) with true.
  2:{ destruct (c - (f + 1) >? 16 ^ 1) eqn:E; [|done]. cbn. symmetry. apply Z.gtb_lt. enough (1 <= log16 (c - f)) by lia.
      change 1 with (log16 16). apply log16_mono. lia. }
  rewrite entry_small by lia. cbn [mbind option_bind]. assert (0 < 16 ^ log16 (c - f)) by (apply Z.pow_pos_nonneg; lia).
  rewrite wrapu_id by (unfold is_u; lia). rewrite (proj2 (Z.geb_le _ _)) by lia.
  set (landing := c - 16 ^ log16 (c - f)) in *. replace (f + 1 - 1) with f by lia. destruct (Z.geb_spec landing (f + 1)).
  - rewrite Hent by lia. cbn [mbind option_bind]. rewrite (proj2 (Z.leb_le _ _)); [apply IH; lia|].
    enough (log16 (landing - f) <= log16 (c - f)) by lia. apply log16_mono. lia.
  - assert (landing = f) as -> by lia. rewrite Hv. cbn [mbind option_bind]. rewrite Z.eqb_refl, (proj2 (Z.leb_le _ _)) by lia. apply IH; lia.
Qed.

Lemma check_all_cards_ok a f l :
  0 <= f -> l < 2 ^ 64 -> l - f < max_cards ->
  (exists v, offset_array a f = Some v /\ v <= N_words) ->
  (forall c, f < c <= l -> offset_array a c = Some (N_words + log16 (c - f))) ->
  check_all_cards a (f + 1) l = Some tt.
Proof.
  intros Hf Hl64 Hmax Hv Hent. unfold check_all_cards. destruct (Z.ltb_spec l (f + 1)); [done|]. rewrite Hent by lia. cbn [mbind option_bind].
  replace (f + 1 - f) with 1 by lia. change (N_words + log16 1 =? N_words) with true. cbn iota.
  apply (check_cards_ok a f l); (done || lia).
Qed.

Lemma updated_none a upd : (forall c, upd c = None) -> updated a a upd.
Proof. intros H. split_and!; try done. intros c. by rewrite H. Qed.

Lemma with_array_same b : with_array b (_array b) = b.
Proof. by destruct b. Qed.

Lemma set_remainder_incl_small b f l bottom_card v :
  0 <= f -> l < committed_size (_array b) -> l < 2 ^ 64 -> l - f < max_cards ->
  index_for (_array b) (_bottom b) = Some bottom_card -> bottom_card <= f ->
  offset_array (_array b) f = Some v -> v <= N_words ->
  exists a', set_remainder_to_point_to_start_incl b (f + 1) l = Some (with_array b a') /\ updated (_array b) a' (remainder f l).
Proof.
  intros Hf Hl Hl64 Hmax Hbot Hbf Hv Hv64. unfold set_remainder_to_point_to_start_incl. destruct (Z.gtb_spec (f + 1) l).
  { exists (_array b). rewrite with_array_same. split; [done|]. apply updated_none. intros c. unfold remainder.
    by replace ((f <? c) && (c <=? l)) with false by lia. }
  rewrite Hbot. cbn [mbind option_bind]. rewrite (proj2 (Z.gtb_lt _ _)) by lia. replace (f + 1 - 1) with f by lia.
  rewrite Hv. cbn [mbind option_bind]. rewrite (proj2 (Z.leb_le _ _)) by lia.
  destruct (set_regions_ok (Z.to_nat N_powers) f l 0 (_array b)) as (a' & next & E & Hn & Hu); [lia..|].
  change (16 ^ 0) with 1 in *. rewrite E. cbn [mbind option_bind]. rewrite (proj2 (Z.gtb_lt _ _)) by lia.
  assert (Hu' : updated (_array b) a' (remainder f l)).
  { eapply updated_ext; [|exact Hu]. intros c. unfold remainder. cbn. by replace (f + 1 <=? c) with (f <? c) by lia. }
  pose proof Hu' as (_ & _ & Hsize & Hent). rewrite check_all_cards_ok; [by eexists|lia..| |].
  - exists v. rewrite Hent. unfold remainder. by replace ((f <? f) && (f <=? l)) with false by lia.
  - intros c Hc. rewrite Hent. unfold remainder. by replace ((f <? c) && (c <=? l)) with true by lia.
Qed.

Lemma set_remainder_incl_ok b f l bottom_card v :
  0 <= f -> l < committed_size (_array b) -> committed_size (_array b) <= max_cards ->
  index_for (_array b) (_bottom b) = Some bottom_card -> bottom_card <= f ->
  offset_array (_array b) f = Some v -> v <= N_words ->
  exists a', set_remainder_to_point_to_start_incl b (f + 1) l = Some (with_array b a') /\ updated (_array b) a' (remainder f l).
Proof. intros. eapply set_remainder_incl_small; done || lia. Qed.

(** Beyond that the powers of type int are used up. *)
Lemma set_regions_overflow count f l i a :
  max_cards <= l - f -> 0 <= i <= 7 -> 8 <= i + Z.of_nat count -> set_regions a (f + 1) l count i (f + 16 ^ i) = None.
Proof.
  intros Hl. revert i a. induction count as [|count IH]; intros i a Hi Hcount; [lia|]. cbn [set_regions]. destruct (Z.eq_dec i 7) as [->|Hne]; [done|].
  rewrite power_small by lia. cbn [mbind option_bind]. assert (16 ^ (i + 1) <= 16 ^ 7) by (apply Z.pow_le_mono_r; lia).
  rewrite Z.geb_leb, (proj2 (Z.leb_gt _ _)) by lia. destruct (set_cards a _ _ _) as [a'|]; [|done]. cbn [mbind option_bind].
  replace (f + 1 - 1 + (16 ^ (i + 1) - 1) + 1) with (f + 16 ^ (i + 1)) by lia. apply IH; lia.
Qed.

Lemma set_remainder_incl_large b f l : max_cards <= l - f -> set_remainder_to_point_to_start_incl b (f + 1) l = None.
Proof.
  intros Hl. unfold set_remainder_to_point_to_start_incl. rewrite Z.gtb_ltb, (proj2 (Z.ltb_ge _ _)) by lia. destruct (index_for _ _); [|done]. cbn [mbind option_bind].
  destruct (_ >? _); [|done]. destruct (offset_array _ _); [|done]. cbn [mbind option_bind]. destruct (_ <=? _); [|done].
  pose proof (set_regions_overflow (Z.to_nat N_powers) f l 0 (_array b) Hl) as E. change (16 ^ 0) with 1 in E. by rewrite E by lia.
Qed.

(** * Cards and blocks *)

(** The card of an address, the first card at or after one, and the address of a card, in a
    table that starts at [start]. *)
Definition card (start p : Z) : Z := (p - start) / N_words.
Definition card_after (start p : Z) : Z := (p - start + (N_words - 1)) / N_words.
Definition card_address (start c : Z) : Z := start + N_words * c.

(** The entries of a block: the distance of its first card, and the powers of the others. *)
Definition block_entries (start s e c : Z) : option Z :=
  let f := card_after start s in
  let l := card start (e - 1) in
  if (f <=? l) && (c =? f) then Some (card_address start f - s) else remainder f l c.

Abbreviation start b := (reserved_start (_array b)).

(** A table that covers its space: it is aligned, the space starts on a card, and its cards
    are committed. *)
Record covers (b : BlockOffsetArray) : Prop := {
  covers_start : 0 < start b /\ start b mod N_words = 0;
  covers_reserved : (reserved_end (_array b) - start b) mod N_words = 0;
  covers_bottom : start b <= _bottom b /\ (_bottom b - start b) mod N_words = 0;
  covers_end : _bottom b < _end b /\ _end b <= reserved_end (_array b) /\ _end b <= start b + N_words * committed_size (_array b);
  covers_max : committed_size (_array b) <= max_cards
}.

(** Arithmetic on cards. *)
Ltac card_lia := unfold card, card_after, card_address in *; Z.div_mod_to_equations; lia.

Lemma covers_updated b a upd : covers b -> updated (_array b) a upd -> covers (with_array b a).
Proof. intros [] (E1 & E2 & E3 & _). constructor; cbn [_array _bottom _end with_array]; rewrite ?E1, ?E2, ?E3; done. Qed.

Lemma updated_address a a' upd c : updated a a' upd -> address_for_index a' c = address_for_index a c.
Proof. intros (E1 & E2 & E3 & _). unfold address_for_index. by rewrite E1, E2, E3. Qed.

Lemma updated_index a a' upd p : updated a a' upd -> index_for a' p = index_for a p.
Proof. intros (E1 & E2 & E3 & _). unfold index_for. by rewrite E1, E2, E3. Qed.

Section table.
Context (b : BlockOffsetArray).
Hypothesis Hb : covers b.

Lemma index_for_ok p : start b <= p < _end b -> index_for (_array b) p = Some (card (start b) p) /\ 0 <= card (start b) p < committed_size (_array b).
Proof using Hb.
  destruct Hb as [_ _ _ (He1 & He2 & He3) _]. intros Hp. assert (Hc : 0 <= card (start b) p < committed_size (_array b)) by card_lia. split; [|done].
  unfold index_for. replace ((reserved_start (_array b) <=? p) && (p <? reserved_end (_array b))) with true by lia.
  rewrite Z.shiftr_div_pow2 by done. change (2 ^ LogN_words) with N_words. fold (card (start b) p). by rewrite (proj2 (Z.ltb_lt _ _)) by lia.
Qed.

Lemma address_for_index_ok c :
  0 <= c < committed_size (_array b) -> card_address (start b) c < _end b -> address_for_index (_array b) c = Some (card_address (start b) c).
Proof using Hb.
  destruct Hb as [_ _ _ (He1 & He2 & He3) _]. intros Hc Ha. unfold address_for_index. rewrite (proj2 (Z.ltb_lt c _)) by lia.
  rewrite Z.shiftl_mul_pow2 by done. change (2 ^ LogN_words) with N_words. rewrite Z.mul_comm. fold (card_address (start b) c).
  by replace ((reserved_start (_array b) <=? card_address (start b) c) && (card_address (start b) c <? reserved_end (_array b))) with true by card_lia.
Qed.

(** The boundary before the end of a block. *)
Lemma boundary_card e : (e - 1) &&& Z.lnot (2 ^ LogN_words - 1) = card_address (start b) (card (start b) (e - 1)).
Proof using Hb. destruct Hb as [[_ Ha] _ _ _ _]. rewrite land_lnot_low by done. change (2 ^ LogN_words) with N_words. card_lia. Qed.

(** Filling the cards after [f] by addresses. *)
Lemma set_remainder_ok f l v :
  card (start b) (_bottom b) <= f -> f < l -> l < committed_size (_array b) -> card_address (start b) l < _end b ->
  offset_array (_array b) f = Some v -> v <= N_words ->
  exists a', set_remainder_to_point_to_start b (card_address (start b) f + N_words) (card_address (start b) l + N_words) = Some (with_array b a') /\
    updated (_array b) a' (remainder f l).
Proof using Hb.
  intros Hbf Hfl Hl Hle Hv Hv64. pose proof Hb as [_ Hres [Hb1 Hb2] (He1 & He2 & He3) Hmax]. assert (0 <= f) by card_lia.
  unfold set_remainder_to_point_to_start. rewrite Z.geb_leb, (proj2 (Z.leb_gt _ _)) by card_lia.
  destruct (index_for_ok (card_address (start b) f + N_words)) as [-> _]; [card_lia|]. cbn [mbind option_bind].
  assert (index_for (_array b) (card_address (start b) l + N_words - 1) = Some l) as ->.
  { unfold index_for. replace (_ && _) with true by card_lia. rewrite Z.shiftr_div_pow2 by done. change (2 ^ LogN_words) with N_words.
    replace ((card_address (start b) l + N_words - 1 - start b) / N_words) with l by card_lia. by rewrite (proj2 (Z.ltb_lt _ _)) by lia. }
  cbn [mbind option_bind]. replace (card (start b) (card_address (start b) f + N_words)) with (f + 1) by card_lia.
  rewrite address_for_index_ok by card_lia. cbn [mbind option_bind]. rewrite (proj2 (Z.eqb_eq _ _)) by card_lia.
  rewrite address_for_index_ok by card_lia. cbn [mbind option_bind]. rewrite (proj2 (Z.eqb_eq _ _)) by card_lia.
  destruct (index_for_ok (_bottom b)) as [Hbot _]; [lia|]. by apply (set_remainder_incl_ok b f l (card (start b) (_bottom b)) v).
Qed.

(** The heap contains the part of memory that the table covers. *)
Context (is_in_reserved : Z -> bool).
Hypothesis Hheap : forall p, start b <= p < reserved_end (_array b) -> is_in_reserved p = true.

(** The head of [do_block_internal]: nothing happens without a card boundary in the block. *)
Lemma do_block_head s e action :
  _bottom b <= s -> s < e -> e <= _end b -> card (start b) (e - 1) < card_after (start b) s ->
  do_block_internal is_in_reserved b s e action = Some b.
Proof using Hb Hheap.
  intros Hs Hse He Hc. pose proof Hb as [_ _ [Hb1 Hb2] (He1 & He2 & He3) _]. unfold do_block_internal. rewrite !Hheap by lia.
  rewrite boundary_card. rewrite (proj2 (Z.leb_gt _ _)) by card_lia. done.
Qed.

(** Otherwise the action is done on the first and the last card that starts in the block. *)
Lemma do_block_tail s e action :
  _bottom b <= s -> s < e -> e <= _end b -> card_after (start b) s <= card (start b) (e - 1) ->
  do_block_internal is_in_reserved b s e action =
  let f := card_after (start b) s in
  let l := card (start b) (e - 1) in
  let single :=
    a ← set_distance (_array b) f (card_address (start b) f) s;
    let b := with_array b a in
    if f <? l then
      rem_st ← address_for_index (_array b) f;
      rem_end ← address_for_index (_array b) l;
      set_remainder_to_point_to_start b (rem_st + N_words) (rem_end + N_words)
    else Some b in
  match action with
  | Action_mark =>
      if _init_to_zero b then
        a ← set_distance (_array b) f (card_address (start b) f) s;
        Some (with_array b a)
      else single
  | Action_single => single
  | Action_check =>
      check_offset_array (_array b) f (card_address (start b) f) s ;;
      check_all_cards (_array b) (f + 1) l ;;
      Some b
  end.
Proof using Hb Hheap.
  intros Hs Hse He Hc. pose proof Hb as [_ _ [Hb1 Hb2] (He1 & He2 & He3) _]. unfold do_block_internal. rewrite !Hheap by lia.
  rewrite boundary_card. rewrite (proj2 (Z.leb_le _ _)) by card_lia.
  destruct (index_for_ok s) as [-> Hi]; [lia|]. destruct (index_for_ok (e - 1)) as [-> Hi']; [lia|]. cbn [mbind option_bind].
  rewrite address_for_index_ok by card_lia. cbn [mbind option_bind]. rewrite (proj2 (Z.leb_le _ s)) by card_lia.
  destruct (Z.eqb_spec s (card_address (start b) (card (start b) s))) as [E|E]; cbn [negb].
  - replace (card (start b) s) with (card_after (start b) s) by card_lia. rewrite (proj2 (Z.leb_le _ _)) by lia. by rewrite (proj2 (Z.leb_le _ _)) by card_lia.
  - replace (card (start b) s + 1) with (card_after (start b) s) by card_lia.
    replace (card_address (start b) (card (start b) s) + N_words) with (card_address (start b) (card_after (start b) s)) by card_lia.
    rewrite (proj2 (Z.leb_le _ _)) by lia. by rewrite (proj2 (Z.leb_le _ _)) by card_lia.
Qed.
End table.

Lemma single_block_ok b is_in_reserved s e :
  covers b -> (forall p, start b <= p < reserved_end (_array b) -> is_in_reserved p = true) ->
  _bottom b <= s -> s < e -> e <= _end b ->
  exists a', single_block is_in_reserved b s e = Some (with_array b a') /\ updated (_array b) a' (block_entries (start b) s e).
Proof.
  intros Hb Hheap Hs Hse He. pose proof Hb as [_ _ [Hb1 Hb2] (He1 & He2 & He3) _]. unfold single_block, block_entries.
  destruct (Z.le_gt_cases (card_after (start b) s) (card (start b) (e - 1))) as [Hc|Hc].
  2:{ rewrite do_block_head by done. exists (_array b). rewrite with_array_same. split; [done|]. apply updated_none. intros c. cbn zeta.
      rewrite (proj2 (Z.leb_gt _ _)) by lia. cbn [andb]. unfold remainder. by replace (_ && _) with false by lia. }
  rewrite do_block_tail by done. cbn zeta. set (f := card_after (start b) s) in *. set (l := card (start b) (e - 1)) in *.
  destruct (set_distance_ok (_array b) f (card_address (start b) f) s) as (a & -> & Hu); [subst f l; card_lia..|]. cbn [mbind option_bind].
  pose proof Hu as (Hr1 & Hr2 & Hr3 & Hent). pose proof (covers_updated _ _ _ Hb Hu) as Hb'. rewrite (proj2 (Z.leb_le _ _)) by lia.
  destruct (Z.ltb_spec f l) as [Hfl|Hfl].
  2:{ eexists. split; [done|]. eapply updated_ext; [|exact Hu]. intros c. cbn [andb]. destruct (c =? f); [done|]. unfold remainder. by replace (_ && _) with false by lia. }
  cbn [_array with_array]. rewrite !(updated_address _ _ _ _ Hu), !(address_for_index_ok b) by (done || subst f l; card_lia). cbn [mbind option_bind].
  rewrite <- Hr1. destruct (set_remainder_ok _ Hb' f l (card_address (start b) f - s)) as (a' & E & Hu').
  all: cbn [_array with_array _end _bottom] in *; rewrite ?Hr1, ?Hr3.
  1-4, 6: subst f l; card_lia.
  - rewrite Hent. by rewrite Z.eqb_refl.
  - exists a'. split; [by rewrite Hr1 in E|]. eapply updated_ext; [|exact (updated_trans _ _ _ _ _ Hu Hu')]. intros c. cbn. unfold remainder.
    destruct (Z.eqb_spec c f) as [->|]; [by replace ((f <? f) && (f <=? l)) with false by lia|]. by destruct ((f <? c) && (c <=? l)).
Qed.

Lemma check_block_ok b is_in_reserved s e :
  covers b -> (forall p, start b <= p < reserved_end (_array b) -> is_in_reserved p = true) ->
  _bottom b <= s -> s < e -> e <= _end b ->
  (forall c v, block_entries (start b) s e c = Some v -> offset_array (_array b) c = Some v) ->
  do_block_internal is_in_reserved b s e Action_check = Some b.
Proof.
  intros Hb Hheap Hs Hse He Hent. pose proof Hb as [_ _ [Hb1 Hb2] (He1 & He2 & He3) ?]. unfold block_entries in Hent. cbn zeta in Hent.
  destruct (Z.le_gt_cases (card_after (start b) s) (card (start b) (e - 1))) as [Hc|Hc]; [|by apply do_block_head].
  rewrite do_block_tail by done. cbn zeta. set (f := card_after (start b) s) in *. set (l := card (start b) (e - 1)) in *.
  assert (Hf : offset_array (_array b) f = Some (card_address (start b) f - s)).
  { apply Hent. by rewrite Z.eqb_refl, (proj2 (Z.leb_le _ _)) by lia. }
  unfold check_offset_array. rewrite (proj2 (Z.ltb_lt _ _)), !(proj2 (Z.leb_le _ _)) by (subst f l; card_lia).
  rewrite Hf. cbn [mbind option_bind]. rewrite Z.eqb_refl. cbn [mbind option_bind]. rewrite check_all_cards_ok; [done|subst f l; card_lia..| |].
  - exists (card_address (start b) f - s). split; [done|]. subst f; card_lia.
  - intros c Hcc. apply Hent. replace (c =? f) with false by lia. rewrite andb_false_r. unfold remainder. by replace (_ && _) with true by lia.
Qed.

Lemma pow16_succ i : 0 <= i -> 16 ^ (i + 1) = 16 * 16 ^ i.
Proof. intros. rewrite Z.pow_add_r by lia. lia. Qed.

Lemma pow16_pos i : 0 <= i -> 0 < 16 ^ i.
Proof. intros. apply Z.pow_pos_nonneg; lia. Qed.

(** The powers below the size of a table are few. *)
Lemma pow16_bound i d : 0 <= i -> 16 ^ i <= d -> d < max_cards -> i <= 6.
Proof. intros Hi Hd Hmax. destruct (Z.le_gt_cases i 6); [done|]. assert (16 ^ 7 <= 16 ^ i) by (apply Z.pow_le_mono_r; lia). lia. Qed.

(** * Blocks of a space *)

(** The blocks of given sizes from [s] on, and their length. *)
Fixpoint blocks (s : Z) (sizes : list Z) : list (Z * Z) :=
  match sizes with
  | [] => []
  | n :: sizes => (s, s + n) :: blocks (s + n) sizes
  end.

Definition total (sizes : list Z) : Z := foldr Z.add 0 sizes.

Lemma total_sizes_app l1 l2 : total (l1 ++ l2) = total l1 + total l2.
Proof. induction l1 as [|n l1 IH]; cbn; [done|]. unfold total in *. lia. Qed.

Lemma blocks_app s l1 l2 : blocks s (l1 ++ l2) = blocks s l1 ++ blocks (s + total l1) l2.
Proof.
  revert s. induction l1 as [|n l1 IH]; intros s; cbn; [by rewrite Z.add_0_r|]. rewrite IH. do 3 f_equal. unfold total. lia.
Qed.

Lemma total_length sizes : Forall (Z.lt 0) sizes -> zlen sizes <= total sizes.
Proof. induction 1 as [|n sizes Hn _ IH]; cbn; [lia|]. unfold total in *. lia. Qed.

Lemma blocks_range s sizes x y : Forall (Z.lt 0) sizes -> (x, y) ∈ blocks s sizes -> s <= x < y /\ y <= s + total sizes.
Proof.
  intros Hpos. revert s. induction Hpos as [|n sizes Hn Hpos IH]; intros s Hin; cbn in *; [set_solver|].
  pose proof (total_length _ Hpos). unfold total in *. apply elem_of_cons in Hin as [[= -> ->]|Hin%IH]; lia.
Qed.

Lemma blocks_cover s sizes p : s <= p < s + total sizes -> exists x y, (x, y) ∈ blocks s sizes /\ x <= p < y.
Proof.
  revert s. induction sizes as [|n sizes IH]; intros s Hp; cbn in *; [lia|]. destruct (Z.lt_ge_cases p (s + n)).
  - exists s, (s + n). split; [set_solver|lia].
  - destruct (IH (s + n)) as (x & y & Hin & Hxy); [unfold total; lia|]. exists x, y. split; [set_solver|done].
Qed.

Lemma blocks_unique s sizes p x y x' y' :
  Forall (Z.lt 0) sizes -> (x, y) ∈ blocks s sizes -> (x', y') ∈ blocks s sizes -> x <= p < y -> x' <= p < y' -> x = x' /\ y = y'.
Proof.
  intros Hpos. revert s. induction Hpos as [|n sizes Hn Hpos IH]; intros s Hin Hin' Hp Hp'; cbn in *; [set_solver|].
  apply elem_of_cons in Hin as [[= -> ->]|Hin]; apply elem_of_cons in Hin' as [[= -> ->]|Hin'].
  - done.
  - apply blocks_range in Hin'; [lia|done].
  - apply blocks_range in Hin; [lia|done].
  - by eapply IH.
Qed.

(** A block in the list, with what is before and after it. *)
Lemma blocks_split s sizes x y :
  (x, y) ∈ blocks s sizes -> exists pre post, sizes = pre ++ (y - x) :: post /\ x = s + total pre.
Proof.
  revert s. induction sizes as [|n sizes IH]; intros s Hin; cbn in *; [set_solver|]. apply elem_of_cons in Hin as [[= -> ->]|Hin].
  - exists [], sizes. cbn. split; [|lia]. f_equal. lia.
  - apply IH in Hin as (pre & post & -> & ->). exists (n :: pre), post. split; [done|]. cbn. unfold total. lia.
Qed.

(** The walk over the blocks finds the one with the address. *)
Lemma go_forward_ok block_size addr sizes s fuel q :
  Forall (Z.lt 0) sizes -> (forall x y, (x, y) ∈ blocks s sizes -> block_size x = y - x) -> s <= addr < s + total sizes -> (length sizes <= fuel)%nat ->
  exists x y, go_forward block_size fuel addr q s = Some (x, y) /\ (x, y) ∈ blocks s sizes /\ x <= addr < y.
Proof.
  intros Hpos. revert s fuel q. induction Hpos as [|n sizes Hn Hpos IH]; intros s fuel q Hsize Haddr Hfuel; cbn in *; [lia|].
  destruct fuel as [|fuel]; [lia|]. cbn [go_forward]. rewrite (proj2 (Z.leb_le _ _)) by lia. rewrite (Hsize s (s + n)) by set_solver.
  replace (s + (s + n - s)) with (s + n) by lia. destruct (Z.lt_ge_cases addr (s + n)).
  - exists s, (s + n). split; [|split; [set_solver|lia]]. destruct fuel; cbn; by rewrite (proj2 (Z.leb_gt _ _)) by lia.
  - destruct (IH (s + n) fuel s) as (x & y & -> & Hin & Hxy); [set_solver|unfold total; lia|lia|]. exists x, y. split; [done|]. split; [set_solver|done].
Qed.

Lemma finish_ok block_size addr sizes s fuel q offset x y :
  Forall (Z.lt 0) sizes -> (forall x y, (x, y) ∈ blocks s sizes -> block_size x = y - x) ->
  (x, y) ∈ blocks s sizes -> x <= addr < y ->
  (exists e, (q - offset, e) ∈ blocks s sizes) -> offset < N_words -> q - offset <= addr -> total sizes <= Z.of_nat fuel ->
  finish block_size fuel addr q offset = Some x.
Proof.
  intros Hpos Hsize Hin Hxy (e & Hstart) Hoff Hq Hfuel. unfold finish. rewrite (proj2 (Z.ltb_lt _ _)) by lia.
  destruct (blocks_split _ _ _ _ Hstart) as (pre & post & -> & Hx). pose proof (blocks_range _ _ _ _ Hpos Hin) as Hr. pose proof (total_length _ Hpos) as Htot.
  apply Forall_app in Hpos as [Hpre Hpost]. rewrite blocks_app in *. rewrite <- Hx in *. rewrite total_sizes_app in *. rewrite length_app in *. set (rest := (e - (q - offset)) :: post) in *.
  destruct (go_forward_ok block_size addr rest (q - offset) fuel (q - offset)) as (x' & y' & -> & Hin' & Hxy'); [done|set_solver|lia|lia|].
  cbn [mbind option_bind]. rewrite !(proj2 (Z.leb_le _ _)) by lia. f_equal. symmetry. apply elem_of_app in Hin as [Hin|Hin].
  - apply blocks_range in Hin; [lia|done].
  - by destruct (blocks_unique (q - offset) rest addr x y x' y') as [-> _].
Qed.

(** * Examples and properties *)

(** Sizes that agree with those of the blocks. *)
Definition agrees (block_size : Z -> Z) (s : Z) (sizes : list Z) : bool :=
  forallb (fun '(x, y) => block_size x =? y - x) (blocks s sizes).

Lemma agrees_ok block_size s sizes x y : agrees block_size s sizes = true -> (x, y) ∈ blocks s sizes -> block_size x = y - x.
Proof.
  unfold agrees. intros H Hin. rewrite forallb_forall in H. apply Z.eqb_eq. apply (H (x, y)). by apply list_elem_of_In.
Qed.

(** A heap of 600 cards from address 64, and its end. *)
Definition heap600 : BlockOffsetSharedArray := mkShared 64 (64 + 64 * 600) (replicate 600 0).
Abbreviation end600 := (64 + 64 * 600).

(** C40: Filling the cards of a block works exactly for less than 2^28 cards after its first
    one: beyond that the power of type int overflows. *)
Theorem powers_bound b f l bottom_card v :
  0 <= f -> l < committed_size (_array b) -> committed_size (_array b) < 2 ^ 64 ->
  index_for (_array b) (_bottom b) = Some bottom_card -> bottom_card <= f -> offset_array (_array b) f = Some v -> v <= N_words ->
  is_Some (set_remainder_to_point_to_start_incl b (f + 1) l) <-> l - f < max_cards.
Proof.
  intros Hf Hl Hk Hbot Hbf Hv Hv64. split.
  - intros [b' E]. destruct (Z.lt_ge_cases (l - f) max_cards); [done|]. by rewrite set_remainder_incl_large in E by lia.
  - intros Hmax. edestruct set_remainder_incl_small as (a' & -> & _); try done. lia.
Qed.

Lemma powers_bound_witness : is_Some (set_remainder_to_point_to_start_incl (mkArray heap600 64 end600 true) (0 + 1) 599) <-> 599 - 0 < max_cards.
Proof. by apply (powers_bound (mkArray heap600 64 end600 true) 0 599 0 0). Defined.
