(* ===== verification/BlockOffsetNonContig.v ===== *)
(** * Block offset tables of spaces with free lists

    The tables of [BlockOffsetTable] for spaces whose blocks are split and joined in any
    order: the invariant, the updates of [split_block], lookups, and histories. *)

From S2P Require Import Prelude GlobalDefinitions BlockOffsetTable.
Import SharedArray OffsetArray.

Open Scope Z_scope.

(** * Splitting a block *)

(** The cards that [split_block] writes in the powers beyond the prefix of [P] cards, for a
    suffix whose cards are from [g] to [l]: the end of the first power beyond the prefix, and
    then the cards for which a power lies between the distances from both starts. *)
Definition split_entries (P g l c : Z) : option Z :=
  let first := 16 ^ (log16 P + 1) in
  if (g + first - P <=? c) && (c <=? g + first - 1) && (c <=? l) then Some (N_words + log16 P)
  else if (g + 16 * first - P <=? c) && (c <=? l) && (log16 (c - g) <? log16 (c - g + P)) then Some (N_words + log16 (c - g))
  else None.

(** Where the power [16 ^ i] is crossed. *)
Lemma crossing P i d : 1 <= i -> 1 <= P < 16 ^ (i - 1) -> 16 ^ i - P <= d < 16 ^ (i + 1) - P ->
  (log16 d <? log16 (d + P)) = (d <? 16 ^ i) /\ (d < 16 ^ i -> log16 d = i - 1).
Proof.
  intros Hi HP Hd. pose proof (pow16_pos (i - 1)). pose proof (pow16_succ (i - 1)) as E. replace (i - 1 + 1) with i in E by lia. pose proof (pow16_succ i).
  destruct (Z.ltb_spec d (16 ^ i)).
  - rewrite (log16_unique (i - 1) d) by (replace (i - 1 + 1) with i by lia; lia). rewrite (log16_unique i (d + P)) by lia. split; [lia|done].
  - rewrite (log16_unique i d), (log16_unique i (d + P)) by lia. split; lia.
Qed.

Lemma next_powers_ok count P g l i a :
  0 <= g -> l < committed_size a -> l - g < max_cards -> 1 <= i -> 8 <= i + Z.of_nat count -> 1 <= P < 16 ^ (i - 1) -> g + 16 ^ (i - 1) <= l ->
  exists a', NonContig.next_powers a g (l + 1) P count i = Some a' /\
    updated a a' (fun c => if (g + 16 ^ i - P <=? c) && (c <=? l) && (log16 (c - g) <? log16 (c - g + P)) then Some (N_words + log16 (c - g)) else None).
Proof.
  revert i a. induction count as [|count IH]; intros i a Hg Hl Hmax Hi Hcount HP Hle; pose proof (pow16_bound (i - 1) (l - g)).
  { lia. }
  cbn [NonContig.next_powers]. rewrite power_small by lia. cbn [mbind option_bind]. replace (l + 1 - 1) with l by lia.
  replace (g + 16 ^ i - 1 - P + 1) with (g + 16 ^ i - P) by lia. replace (N_words + i - 1) with (N_words + (i - 1)) by lia. rewrite wrapu_id by (unfold is_u; lia).
  pose proof (pow16_succ i). pose proof (pow16_pos (i - 1)). pose proof (pow16_succ (i - 1)) as Ei. replace (i - 1 + 1) with i in Ei by lia.
  assert (Hcross : forall c, g + 16 ^ i - P <= c < g + 16 ^ (i + 1) - P ->
    (log16 (c - g) <? log16 (c - g + P)) = (c <? g + 16 ^ i) /\ (c < g + 16 ^ i -> log16 (c - g) = i - 1)).
  { intros c Hc. destruct (crossing P i (c - g)) as [-> E]; [lia..|]. split; [lia|]. intros. apply E. lia. }
  destruct (Z.geb_spec (g + 16 ^ i - 1) l).
  - destruct (Z.gtb_spec (g + 16 ^ i - P) l).
    { exists a. split; [done|]. apply updated_none. intros c. by replace ((g + 16 ^ i - P <=? c) && (c <=? l)) with false by lia. }
    destruct (set_cards_ok a (g + 16 ^ i - P) l (N_words + (i - 1))) as (a' & -> & Hu); [lia..|]. exists a'. split; [done|].
    eapply updated_ext; [|exact Hu]. intros c. cbn. destruct ((g + 16 ^ i - P <=? c) && (c <=? l)) eqn:E; [|done].
    destruct (Hcross c) as [-> E']; [lia|]. rewrite (proj2 (Z.ltb_lt _ _)) by lia. by rewrite E' by lia.
  - rewrite (proj2 (Z.leb_le _ _)) by lia.
    destruct (set_cards_ok a (g + 16 ^ i - P) (g + 16 ^ i - 1) (N_words + (i - 1))) as (a' & -> & Hu); [lia..|]. cbn [mbind option_bind].
    pose proof Hu as (_ & _ & Hsize & _). destruct (IH (i + 1) a') as (a'' & -> & Hu'); [lia..| | |]; [replace (i + 1 - 1) with i by lia; lia..|].
    exists a''. split; [done|]. eapply updated_ext; [|exact (updated_trans _ _ _ _ _ Hu Hu')]. intros c. cbn.
    destruct (Z.lt_ge_cases c (g + 16 ^ (i + 1) - P)).
    2:{ rewrite (proj2 (Z.leb_le (g + 16 ^ (i + 1) - P) c)), (proj2 (Z.leb_le (g + 16 ^ i - P) c)) by lia. rewrite (proj2 (Z.leb_gt c (g + 16 ^ i - 1))) by lia.
        by destruct ((true && (c <=? l)) && _). }
    replace (g + 16 ^ (i + 1) - P <=? c) with false by lia. cbn [andb]. destruct (Z.leb_spec (g + 16 ^ i - P) c); [|done]. cbn [andb].
    destruct (Hcross c) as [-> E']; [lia|]. replace (c <=? g + 16 ^ i - 1) with (c <? g + 16 ^ i) by lia.
    destruct (Z.ltb_spec c (g + 16 ^ i)); [|by rewrite andb_false_r]. replace (c <=? l) with true by lia. cbn [andb]. by rewrite E' by lia.
Qed.

(** The first loop ends with the first power beyond the prefix. *)
Lemma first_power_ok count P g l i a :
  0 <= g -> l < committed_size a -> l - g < max_cards -> 1 <= i <= log16 P + 1 -> log16 P + 1 < i + Z.of_nat count -> 1 <= P -> g + P <= l ->
  let first := 16 ^ (log16 P + 1) in
  exists a', NonContig.first_power a g (l + 1) P count i = Some (a', g + first - 1 <? l, log16 P + 2) /\
    updated a a' (fun c => if (g + first - P <=? c) && (c <=? g + first - 1) && (c <=? l) then Some (N_words + log16 P) else None).
Proof.
  intros Hg Hl Hmax Hi Hcount HP HPl first. destruct (log16_spec P) as (H0 & H1 & H2); [lia|]. pose proof (log16_small P ltac:(lia)) as H6. fold first in H2.
  revert i a Hl Hi Hcount. induction count as [|count IH]; intros i a Hl Hi Hcount; [lia|].
  cbn [NonContig.first_power]. rewrite power_small by lia. cbn [mbind option_bind]. replace (l + 1 - 1) with l by lia.
  replace (g + 16 ^ i - 1 - P + 1) with (g + 16 ^ i - P) by lia. destruct (Z.eq_dec i (log16 P + 1)) as [->|Hne].
  - replace (N_words + (log16 P + 1) - 1) with (N_words + log16 P) by lia. rewrite wrapu_id by (unfold is_u; lia). replace (log16 P + 1 + 1) with (log16 P + 2) by lia.
    fold first. rewrite Z.geb_leb, Z.ltb_antisym. set (right := if l <=? g + first - 1 then l else g + first - 1).
    replace (if l <=? g + first - 1 then (l, false) else (g + first - 1, true)) with (right, negb (l <=? g + first - 1)) by (subst right; by destruct (l <=? _)).
    cbv beta iota. rewrite (proj2 (Z.gtb_lt _ _)) by lia. destruct (Z.leb_spec (g + first - P) right) as [Hlr|Hlr].
    + destruct (set_cards_ok a (g + first - P) right (N_words + log16 P)) as (a' & -> & Hu); [subst right; destruct (l <=? _) eqn:?; lia..|]. exists a'. split; [done|].
      eapply updated_ext; [|exact Hu]. intros c. cbn.
      replace (c <=? right) with ((c <=? g + first - 1) && (c <=? l)) by (subst right; destruct (Z.leb_spec l (g + first - 1)); lia). by rewrite andb_assoc.
    + subst right. destruct (Z.leb_spec l (g + first - 1)); [|lia]. exists a. split; [done|]. apply updated_none. intros c.
      by replace ((g + first - P <=? c) && (c <=? g + first - 1) && (c <=? l)) with false by lia.
  - assert (Hpow : 16 ^ i <= 16 ^ log16 P) by (apply Z.pow_le_mono_r; lia). rewrite Z.geb_leb, (proj2 (Z.leb_gt _ _)) by lia.
    rewrite Z.gtb_ltb, (proj2 (Z.ltb_ge _ _)) by lia. cbv beta iota. apply IH; lia.
Qed.

Lemma split_powers_ok P g l a :
  0 <= g -> l < committed_size a -> l - g < max_cards -> 1 <= P -> g + P <= l ->
  exists a', ('(a, more, i) ← NonContig.first_power a g (l + 1) P (Z.to_nat (N_powers - 1)) 1;
      if (more : bool) then NonContig.next_powers a g (l + 1) P (Z.to_nat (N_powers - i)) i else Some a) = Some a' /\
    updated a a' (split_entries P g l).
Proof.
  intros Hg Hl Hmax HP HPl. pose proof (log16_small P ltac:(lia)) as H6. destruct (log16_spec P) as (_ & H1 & H2); [lia|].
  pose proof (pow16_succ (log16 P + 1) ltac:(lia)) as E. replace (log16 P + 1 + 1) with (log16 P + 2) in E by lia.
  destruct (first_power_ok (Z.to_nat (N_powers - 1)) P g l 1 a) as (a' & -> & Hu); [lia..|]. cbn [mbind option_bind].
  unfold split_entries. set (first := 16 ^ (log16 P + 1)) in *. destruct (Z.ltb_spec (g + first - 1) l).
  - pose proof Hu as (_ & _ & Hsize & _). destruct (next_powers_ok (Z.to_nat (N_powers - (log16 P + 2))) P g l (log16 P + 2) a') as (a'' & -> & Hu').
    1-5: lia. 1-2: replace (log16 P + 2 - 1) with (log16 P + 1) by lia; fold first; lia.
    exists a''. split; [done|]. eapply updated_ext; [|exact (updated_trans _ _ _ _ _ Hu Hu')]. intros c. cbn. rewrite E.
    destruct (Z.leb_spec (g + 16 * first - P) c); cbn [andb].
    + replace ((g + first - P <=? c) && (c <=? g + first - 1) && (c <=? l)) with false by lia. by destruct ((c <=? l) && _).
    + by destruct ((g + first - P <=? c) && _ && _).
  - exists a'. split; [done|]. eapply updated_ext; [|exact Hu]. intros c. cbn. destruct ((g + first - P <=? c) && _ && _); [done|].
    by replace ((g + 16 * first - P <=? c) && (c <=? l)) with false by lia.
Qed.

(** These entries lead back at most to the start of the prefix. *)
Lemma split_entries_spec P g l c v :
  1 <= P < max_cards -> l - g < max_cards -> split_entries P g l c = Some v ->
  g < c <= l /\ N_words <= v <= N_words + 6 /\ g - P <= c - 16 ^ (v - N_words).
Proof.
  intros HP Hl. destruct (log16_spec P) as (H0 & H1 & H2); [lia|]. pose proof (log16_small P ltac:(lia)). pose proof (pow16_succ (log16 P) H0).
  unfold split_entries. destruct ((g + _ - P <=? c) && _ && _) eqn:E; [intros [= <-]|].
  { replace (N_words + log16 P - N_words) with (log16 P) by lia. lia. }
  destruct ((g + 16 * _ - P <=? c) && _ && _) eqn:E'; [intros [= <-]|done].
  replace (N_words + log16 (c - g) - N_words) with (log16 (c - g)) by lia. destruct (log16_spec (c - g)) as (H0' & H1' & H2'); [lia|].
  pose proof (log16_small (c - g) ltac:(lia)). lia.
Qed.

(** They are the entries of the suffix when the prefix does not reach over the last of the
    fifteen parts of its power, *)
Lemma split_entries_exact P g l c v :
  1 <= P -> P <= 15 * 16 ^ log16 P -> split_entries P g l c = Some v -> v = N_words + log16 (c - g).
Proof.
  intros HP Hok. destruct (log16_spec P) as (H0 & H1 & H2); [lia|]. pose proof (pow16_succ (log16 P) H0).
  unfold split_entries. destruct ((g + _ - P <=? c) && _ && _) eqn:E; [intros [= <-]|].
  { by rewrite (log16_unique (log16 P) (c - g)) by lia. }
  destruct ((g + 16 * _ - P <=? c) && _ && _) eqn:E'; [by intros [= <-]|done].
Qed.

(** and the cards between need no change. *)
Lemma split_entries_none P g l c :
  1 <= P -> g + P <= c <= l -> split_entries P g l c = None -> log16 (c - g + P) = log16 (c - g).
Proof.
  intros HP Hc Hnone. destruct (log16_spec P) as (H0 & H1 & H2); [lia|]. destruct (log16_spec (c - g + P)) as (H3 & H4 & H5); [lia|].
  destruct (log16_spec (c - g)) as (H6 & H7 & H8); [lia|]. pose proof (log16_mono (c - g) (c - g + P) ltac:(lia)).
  destruct (Z.eq_dec (log16 (c - g + P)) (log16 (c - g))) as [|Hne]; [done|exfalso]. revert Hnone. unfold split_entries. rewrite (proj2 (Z.ltb_lt (log16 (c - g)) _)) by lia.
  assert (Hd : c - g < 16 ^ log16 (c - g + P)).
  { apply Z.lt_le_trans with (16 ^ (log16 (c - g) + 1)); [done|]. apply Z.pow_le_mono_r; lia. }
  assert (Hj : log16 P + 1 <= log16 (c - g + P)).
  { destruct (Z.le_gt_cases (log16 P + 1) (log16 (c - g + P))); [done|]. assert (16 ^ log16 (c - g + P) <= 16 ^ log16 P) by (apply Z.pow_le_mono_r; lia). lia. }
  destruct (Z.eq_dec (log16 (c - g + P)) (log16 P + 1)) as [E|].
  { rewrite <- E. by replace ((g + _ - P <=? c) && _ && _) with true by lia. }
  assert (16 ^ (log16 P + 1 + 1) <= 16 ^ log16 (c - g + P)) by (apply Z.pow_le_mono_r; lia). pose proof (pow16_succ (log16 P + 1)).
  destruct ((g + _ - P <=? c) && (c <=? g + _ - 1) && _); [done|]. by replace ((g + 16 * _ - P <=? c) && (c <=? l) && true) with true by lia.
Qed.

(** All that a split of the block from [s] to [e] at [m] writes. *)
Definition split_update (start s m e c : Z) : option Z :=
  let g := card_after start m in
  let l := card start (e - 1) in
  let P := g - card_after start s in
  if g <=? l then
    if c =? g then Some (card_address start g - m)
    else if P <=? 0 then None
    else if l - g <? P then remainder g l c
    else match split_entries P g l c with
         | Some v => Some v
         | None => remainder g (g + P - 1) c
         end
  else None.

Lemma card_at_or_after_ok b p : covers b -> _bottom b <= p < _end b -> NonContig.card_at_or_after (_array b) p = Some (card_after (start b) p).
Proof.
  intros Hb Hp. pose proof Hb as [_ _ [Hb1 Hb2] (He1 & He2 & He3) _]. unfold NonContig.card_at_or_after. destruct (index_for_ok b Hb p) as [-> Hi]; [lia|].
  cbn [mbind option_bind]. rewrite address_for_index_ok by (done || card_lia). cbn [mbind option_bind]. f_equal.
  destruct (Z.eqb_spec (card_address (start b) (card (start b) p)) p); cbn [negb]; card_lia.
Qed.

(** Without its checks, [split_block] always does these updates. *)
Lemma split_block_updates is_in_reserved Verify nc s n left :
  let b := NonContig.base nc in
  covers b -> _bottom b <= s -> 0 < left -> left < n -> s + n <= _end b ->
  NonContig.verify_single_block is_in_reserved Verify b s (s + n) = Some tt ->
  exists a', updated (_array b) a' (split_update (start b) s (s + left) (s + n)) /\
    NonContig.split_block is_in_reserved Verify nc s n left =
    (let b' := with_array b a' in
     NonContig.verify_single_block is_in_reserved Verify b' s (s + left) ;;
     NonContig.verify_single_block is_in_reserved Verify b' (s + left) (s + left + (n - left)) ;;
     Some (NonContig.mkNonContig b' (NonContig._unallocated_block nc))).
Proof.
  destruct nc as [b ub]. cbn [NonContig.base NonContig._unallocated_block]. intros Hb Hs Hleft Hn He Hverify. pose proof Hb as [_ _ [Hb1 Hb2] (He1 & He2 & He3) Hmax].
  unfold NonContig.split_block. cbn [NonContig.base NonContig._unallocated_block]. rewrite Hverify. cbn [mbind option_bind].
  rewrite !(proj2 (Z.ltb_lt _ _)) by lia. rewrite (card_at_or_after_ok b s), (card_at_or_after_ok b (s + left)) by (done || lia). destruct (index_for_ok b Hb (s + n - 1)) as [-> Hl]; [lia|]. cbn [mbind option_bind].
  unfold split_update. set (g := card_after (start b) (s + left)). set (l := card (start b) (s + n - 1)) in *. set (P := g - card_after (start b) s).
  assert (Hg : 0 <= g) by (subst g; card_lia). assert (Hal : card_address (start b) l < _end b) by (subst l; card_lia).
  assert (Hgm : 0 <= card_address (start b) g - (s + left) <= N_words) by (subst g; card_lia). assert (HPg : P <= g) by (subst P; card_lia).
  rewrite Z.gtb_ltb. replace (0 <? l + 1 - g) with (g <=? l) by lia. destruct (Z.leb_spec g l).
  2:{ exists (_array b). rewrite with_array_same. split; [by apply updated_none|done]. }
  rewrite address_for_index_ok by (done || card_lia). cbn [mbind option_bind].
  destruct (set_distance_ok (_array b) g (card_address (start b) g) (s + left)) as (a & -> & Hu); [lia..|]. cbn [mbind option_bind].
  pose proof Hu as (_ & _ & Hsize & Hent). rewrite Z.gtb_ltb. replace (P <=? 0) with (negb (0 <? P)) by lia. destruct (Z.ltb_spec 0 P); cbn [negb].
  2:{ exists a. split; [|done]. eapply updated_ext; [|exact Hu]. intros c. cbn. by destruct (c =? g). }
  assert (Hbot : index_for (_array (with_array b a)) (_bottom (with_array b a)) = Some (card (start b) (_bottom b))).
  { cbn. rewrite (updated_index _ _ _ _ Hu). apply index_for_ok; [done|lia]. }
  assert (Hv : offset_array (_array (with_array b a)) g = Some (card_address (start b) g - (s + left))) by (cbn; rewrite Hent; by rewrite Z.eqb_refl).
  assert (Hbg : card (start b) (_bottom b) <= g) by (subst g; card_lia). rewrite Z.geb_leb. replace (l + 1 - g <=? P) with (l - g <? P) by lia. destruct (Z.ltb_spec (l - g) P).
  - replace (l + 1 - 1) with l by lia. destruct (set_remainder_incl_ok (with_array b a) g l _ _ Hg ltac:(cbn; lia) ltac:(cbn; lia) Hbot Hbg Hv ltac:(lia)) as (a' & -> & Hu').
    exists a'. split; [|done]. eapply updated_ext; [|exact (updated_trans _ _ _ _ _ Hu Hu')]. intros c. cbn. unfold remainder.
    destruct (Z.eqb_spec c g) as [->|]; [by replace ((g <? g) && (g <=? l)) with false by lia|]. by destruct (_ && _).
  - destruct (set_remainder_incl_ok (with_array b a) g (g + P - 1) _ _ Hg ltac:(cbn; lia) ltac:(cbn; lia) Hbot Hbg Hv ltac:(lia)) as (a1 & -> & Hu1).
    cbn [mbind option_bind]. pose proof Hu1 as (_ & _ & Hsize1 & _). cbn in Hsize1. cbn [_array with_array].
    destruct (split_powers_ok P g l a1) as (a2 & E & Hu2); [lia..|].
    destruct (NonContig.first_power a1 g (l + 1) P (Z.to_nat (N_powers - 1)) 1) as [[[a3 more] i]|]; [|done]. cbn [mbind option_bind] in *. rewrite E. cbn [mbind option_bind].
    exists a2. split; [|done]. eapply updated_ext; [|exact (updated_trans _ _ _ _ _ (updated_trans _ _ _ _ _ Hu Hu1) Hu2)]. intros c. cbn.
    destruct (Z.eqb_spec c g) as [->|].
    + destruct (split_entries P g l g) eqn:Es; [apply split_entries_spec in Es; lia|]. unfold remainder. by replace (g <? g) with false by lia.
    + destruct (split_entries P g l c); [done|]. by destruct (remainder g (g + P - 1) c).
Qed.

(** * Tables of spaces with free lists *)

(** A card leads back: a distance is that of the block at the start of the card, and a power
    stays in the space. *)
Definition leads_back (b : BlockOffsetArray) (sizes : list Z) (c : Z) : Prop :=
  exists v, offset_array (_array b) c = Some v /\ 0 <= v <= N_words + 6 /\
    (v < N_words -> exists e, (card_address (start b) c - v, e) ∈ blocks (_bottom b) sizes /\ card_address (start b) c < e) /\
    (N_words <= v -> card (start b) (_bottom b) <= c - 16 ^ (v - N_words)).

(** The table of a space with blocks of given sizes. *)
Record indexed (b : BlockOffsetArray) (sizes : list Z) : Prop := {
  indexed_covers : covers b;
  indexed_sizes : Forall (Z.lt 0) sizes;
  indexed_total : _bottom b + total sizes = _end b;
  indexed_first : offset_array (_array b) 0 = Some 0;
  indexed_cards : forall c, card (start b) (_bottom b) <= c -> card_address (start b) c < _end b -> leads_back b sizes c
}.

(** The table has the entries of every block. *)
Definition exact (b : BlockOffsetArray) (sizes : list Z) : Prop :=
  forall x y c v, (x, y) ∈ blocks (_bottom b) sizes -> block_entries (start b) x y c = Some v -> offset_array (_array b) c = Some v.

Section lookup.
Context (b : BlockOffsetArray) (sizes : list Z) (sp_bottom : Z) (block_size : Z -> Z).
Hypothesis Hind : indexed b sizes.
Hypothesis Hbottom : sp_bottom <= _bottom b.
Hypothesis Hsize : forall x y, (x, y) ∈ blocks (_bottom b) sizes -> block_size x = y - x.

Lemma go_back_ok c v :
  offset_array (_array b) c = Some v -> N_words <= v <= N_words + 6 -> card (start b) (_bottom b) <= c - 16 ^ (v - N_words) -> card_address (start b) c < _end b ->
  exists c' v', go_back sp_bottom (_array b) c (card_address (start b) c) v = Some (c', card_address (start b) c', v') /\
    card (start b) (_bottom b) <= c' < c /\ offset_array (_array b) c' = Some v'.
Proof using Hind Hbottom.
  intros Hv Hr Hc Ha. destruct Hind as [Hb _ _ _ Hcards]. pose proof Hb as [_ _ [Hb1 Hb2] (He1 & He2 & He3) _]. unfold go_back.
  rewrite entry_back by lia. cbn [mbind option_bind]. pose proof (pow16_pos (v - N_words)).
  destruct (Hcards (c - 16 ^ (v - N_words))) as (v' & Hv' & _); [lia|card_lia|]. rewrite (proj2 (Z.leb_le _ _)) by card_lia. rewrite Hv'. cbn [mbind option_bind].
  exists (c - 16 ^ (v - N_words)), v'. split; [|split; [lia|done]]. do 3 f_equal. card_lia.
Qed.

Lemma back_loop_ok fuel c v :
  card (start b) (_bottom b) <= c <= card (start b) (_bottom b) + Z.of_nat fuel -> card_address (start b) c < _end b -> offset_array (_array b) c = Some v ->
  exists q offset e, NonContig.back_loop sp_bottom (_array b) fuel c (card_address (start b) c) v = Some (q, offset) /\
    offset < N_words /\ (q - offset, e) ∈ blocks (_bottom b) sizes /\ q - offset <= card_address (start b) c.
Proof using Hind Hbottom.
  revert c v. induction fuel as [|fuel IH]; intros c v Hc Ha Hv; cbn [NonContig.back_loop]; destruct (indexed_cards _ _ Hind c ltac:(lia) Ha) as (v' & Hv' & Hr & Hlow & Hhigh); simplify_eq.
  - rewrite Z.geb_leb. destruct (Z.leb_spec N_words v); [pose proof (pow16_pos (v - N_words)); lia|]. destruct Hlow as (e & Hin & _); [done|].
    eexists _, _, e. split_and!; [done..|lia].
  - rewrite Z.geb_leb. destruct (Z.leb_spec N_words v).
    + destruct (go_back_ok c v) as (c' & v' & -> & Hc' & Hv''); [done|lia|by apply Hhigh|done|]. cbn [mbind option_bind].
      destruct (IH c' v') as (q & offset & e & -> & ? & ? & ?); [lia|card_lia|done|]. eexists _, _, e. split_and!; [done..|card_lia].
    + destruct Hlow as (e & Hin & _); [done|]. eexists _, _, e. split_and!; [done..|lia].
Qed.

(** The start of a block is found. *)
Lemma block_start_ok Use ub addr x y :
  (x, y) ∈ blocks (_bottom b) sizes -> x <= addr < y -> (Use = true -> addr < ub) ->
  NonContig.block_start_unsafe sp_bottom block_size Use (NonContig.mkNonContig b ub) addr = Some x.
Proof using Hind Hbottom Hsize.
  intros Hin Hxy Hub. destruct Hind as [Hb Hpos Htot Hzero Hcards]. pose proof Hb as [_ _ [Hb1 Hb2] (He1 & He2 & He3) _]. pose proof (blocks_range _ _ _ _ Hpos Hin).
  unfold NonContig.block_start_unsafe. cbn [NonContig.base NonContig._unallocated_block]. rewrite Hzero. cbn [mbind option_bind Z.eqb].
  replace ((_bottom b <=? addr) && (addr <? _end b)) with true by lia. replace (Use && (addr >=? ub)) with false by (destruct Use; cbn; [specialize (Hub eq_refl)|]; lia).
  destruct (index_for_ok b Hb addr) as [-> Hi]; [lia|]. cbn [mbind option_bind]. rewrite address_for_index_ok by (done || card_lia). cbn [mbind option_bind].
  destruct (Hcards (card (start b) addr)) as (v & Hv & _); [card_lia..|]. rewrite Hv. cbn [mbind option_bind].
  destruct (back_loop_ok (length (_offset_array (_array b))) (card (start b) addr) v) as (q & offset & e & -> & Ho & Hq & Hqc); [card_lia..|done|]. cbn [mbind option_bind].
  eapply finish_ok; try done; [by exists e|card_lia|lia].
Qed.
End lookup.

(** The entries of a block are those of the cards that start in it. *)
Lemma block_entries_dom t x y c v : x < y -> block_entries t x y c = Some v -> x <= card_address t c < y.
Proof.
  intros Hxy. unfold block_entries, remainder. cbn zeta. intros H. repeat case_match; simplify_eq; card_lia.
Qed.

Lemma block_entries_at t x y c :
  x <= card_address t c < y -> card_after t x <= c /\
  block_entries t x y c = Some (if c =? card_after t x then card_address t c - x else N_words + log16 (c - card_after t x)).
Proof.
  intros Hc. assert (Hf : card_after t x <= c) by card_lia. assert (Hl : c <= card t (y - 1)) by card_lia. split; [done|]. unfold block_entries, remainder. cbn zeta.
  rewrite (proj2 (Z.leb_le _ _)) by lia. destruct (Z.eqb_spec c (card_after t x)) as [->|]; cbn [andb]; [done|].
  by replace ((card_after t x <? c) && (c <=? card t (y - 1))) with true by lia.
Qed.

Lemma entries_lead_back b sizes x y c :
  covers b -> _bottom b <= x -> y <= _end b -> (x, y) ∈ blocks (_bottom b) sizes -> x <= card_address (start b) c < y ->
  offset_array (_array b) c = block_entries (start b) x y c -> leads_back b sizes c.
Proof.
  intros Hb Hx Hy Hin Hc Hent. pose proof Hb as [_ _ [Hb1 Hb2] (He1 & He2 & He3) Hmax]. destruct (block_entries_at _ _ _ _ Hc) as [Hf E]. rewrite E in Hent. eexists. split; [exact Hent|].
  destruct (Z.eqb_spec c (card_after (start b) x)) as [->|].
  - assert (card_address (start b) (card_after (start b) x) - x < N_words) by card_lia. split; [lia|]. split; [|lia]. intros _. exists y. split; [|lia].
    by replace (card_address _ _ - (_ - x)) with x by lia.
  - destruct (log16_spec (c - card_after (start b) x)) as (H0 & H1 & _); [lia|]. pose proof (log16_small (c - card_after (start b) x) ltac:(card_lia)).
    split; [lia|]. split; [lia|]. intros _. replace (N_words + _ - N_words) with (log16 (c - card_after (start b) x)) by lia.
    assert (card (start b) (_bottom b) <= card_after (start b) x) by card_lia. lia.
Qed.

Lemma indexed_of_exact b sizes :
  covers b -> Forall (Z.lt 0) sizes -> _bottom b + total sizes = _end b -> offset_array (_array b) 0 = Some 0 -> exact b sizes -> indexed b sizes.
Proof.
  intros Hb Hpos Htot Hzero Hex. constructor; [done..|]. intros c Hc Ha. pose proof Hb as [_ _ [Hb1 Hb2] (He1 & He2 & He3) _].
  destruct (blocks_cover (_bottom b) sizes (card_address (start b) c)) as (x & y & Hin & Hxy); [card_lia|]. pose proof (blocks_range _ _ _ _ Hpos Hin).
  apply (entries_lead_back b sizes x y); [done|lia|lia|done|done|]. destruct (block_entries_at _ _ _ _ Hxy) as [_ E]. rewrite E. by apply (Hex x y).
Qed.

(** Replacing some blocks in a row by others of the same length. *)
Section replace_blocks.
Context (pre mid mid' post : list Z).
Hypothesis Hmid : total mid' = total mid.

Lemma blocks_replace s x y :
  Forall (Z.lt 0) (pre ++ mid ++ post) -> (x, y) ∈ blocks s (pre ++ mid ++ post) ->
  (x, y) ∈ blocks (s + total pre) mid \/ ((x, y) ∈ blocks s (pre ++ mid' ++ post) /\ (y <= s + total pre \/ s + total pre + total mid <= x)).
Proof using Hmid.
  intros Hpos Hin. rewrite !blocks_app, Hmid in *. apply Forall_app in Hpos as [Hpre Hpos]. apply Forall_app in Hpos as [_ Hpost].
  apply elem_of_app in Hin as [Hin|Hin]; [|apply elem_of_app in Hin as [Hin|Hin]].
  - right. split; [set_solver|]. apply blocks_range in Hin; [lia|done].
  - by left.
  - right. split; [set_solver|]. apply blocks_range in Hin; [lia|done].
Qed.

Context (b : BlockOffsetArray) (a' : BlockOffsetSharedArray) (upd : Z -> option Z).
Hypothesis Hu : updated (_array b) a' upd.
Hypothesis Hpos' : Forall (Z.lt 0) mid'.
Let s := _bottom b + total pre.
Let e := s + total mid.
Hypothesis Hdom : forall c v, upd c = Some v -> s <= card_address (start b) c < e.

Lemma indexed_replace :
  indexed b (pre ++ mid ++ post) -> (forall v, upd 0 = Some v -> v = 0) ->
  (forall c, s <= card_address (start b) c < e -> leads_back (with_array b a') (pre ++ mid' ++ post) c) ->
  indexed (with_array b a') (pre ++ mid' ++ post).
Proof using All.
  intros [Hb Hpos Htot Hzero Hcards] Hupd0 Hnew. pose proof Hu as (E1 & E2 & E3 & Hent). constructor.
  - by eapply covers_updated.
  - rewrite !Forall_app in *. naive_solver.
  - cbn. rewrite !total_sizes_app in *. lia.
  - cbn. rewrite Hent. destruct (upd 0) eqn:E; [|done]. by rewrite (Hupd0 _ eq_refl).
  - cbn [_array with_array _bottom _end]. rewrite E1. intros c Hc Ha. destruct (decide (s <= card_address (start b) c < e)) as [|Hout]; [by apply Hnew|].
    destruct (Hcards c Hc Ha) as (v & Hv & Hr & Hlow & Hhigh). exists v. cbn [_array with_array _bottom]. rewrite E1, Hent.
    destruct (upd c) eqn:E; [by apply Hdom in E|]. split_and!; [done|lia|lia| |done]. intros Hv64. destruct (Hlow Hv64) as (y & Hin & Hy). exists y. split; [|done].
    apply blocks_replace in Hin as [Hin|[Hin _]]; [|done|done]. apply Forall_app in Hpos as [_ Hpos]. apply Forall_app in Hpos as [Hpos _].
    apply blocks_range in Hin; [|done]. subst s e. lia.
Qed.

Lemma exact_replace :
  Forall (Z.lt 0) (pre ++ mid ++ post) -> exact b (pre ++ mid ++ post) ->
  (forall x y c v, (x, y) ∈ blocks s mid' -> block_entries (start b) x y c = Some v -> offset_array a' c = Some v) ->
  exact (with_array b a') (pre ++ mid' ++ post).
Proof using All.
  intros Hpos Hex Hnew x y c v. cbn [_array with_array _bottom]. pose proof Hu as (E1 & E2 & E3 & Hent). rewrite E1. intros Hin He.
  assert (Hpos2 : Forall (Z.lt 0) (pre ++ mid' ++ post)) by (rewrite !Forall_app in *; naive_solver). pose proof (blocks_range _ _ _ _ Hpos2 Hin).
  rewrite !blocks_app, !elem_of_app in Hin. assert (Hxy : x < y) by lia. pose proof (block_entries_dom _ _ _ _ _ Hxy He).
  rewrite !Forall_app in Hpos. destruct Hpos as (Hp1 & Hp2 & Hp3). destruct Hin as [Hin|[Hin|Hin]]; [|by eapply Hnew|].
  - pose proof (blocks_range _ _ _ _ Hp1 Hin). rewrite Hent. destruct (upd c) eqn:E; [apply Hdom in E; subst s; lia|]. apply (Hex x y); [|done]. rewrite !blocks_app. set_solver.
  - rewrite Hmid in Hin. pose proof (blocks_range _ _ _ _ Hp3 Hin). rewrite Hent. destruct (upd c) eqn:E; [apply Hdom in E; subst s e; lia|]. apply (Hex x y); [|done]. rewrite !blocks_app. set_solver.
Qed.
End replace_blocks.

(** Making one block of some blocks in a row. *)
Section join.
Context (b : BlockOffsetArray) (a' : BlockOffsetSharedArray) (pre mid post : list Z).
Let s := _bottom b + total pre.
Let e := s + total mid.
Hypothesis Hind : indexed b (pre ++ mid ++ post).
Hypothesis Hmid : mid <> [].
Hypothesis Hu : updated (_array b) a' (block_entries (start b) s e).

Lemma join_bounds : 0 < total mid /\ _bottom b <= s /\ s < e /\ e <= _end b.
Proof using Hind Hmid.
  destruct Hind as [_ Hpos Htot _ _]. rewrite !Forall_app in Hpos. destruct Hpos as (H1 & H2 & H3). rewrite !total_sizes_app in Htot.
  pose proof (total_length _ H1). pose proof (total_length _ H2). pose proof (total_length _ H3). assert (length mid <> 0%nat) by (by intros ?%nil_length_inv). subst s e. lia.
Qed.

Lemma indexed_join : indexed (with_array b a') (pre ++ [total mid] ++ post).
Proof using All.
  pose proof join_bounds as (Hpos & Hs & Hse & He). pose proof Hu as (E1 & E2 & E3 & Hent). pose proof (indexed_covers _ _ Hind) as Hb. pose proof Hb as [_ _ [Hb1 Hb2] (He1 & He2 & He3) _].
  apply indexed_replace with (mid := mid) (upd := block_entries (start b) s e); [cbn; lia|done|by repeat constructor| |done| |].
  - intros c v. by apply block_entries_dom.
  - intros v Hv. pose proof (block_entries_dom _ _ _ _ _ Hse Hv) as Hd. destruct (block_entries_at _ _ _ _ Hd) as [Hf E]. rewrite E in Hv.
    rewrite (proj2 (Z.eqb_eq 0 _)) in Hv by card_lia. injection Hv as <-. card_lia.
  - intros c Hc. fold s e in Hc. apply entries_lead_back with (x := s) (y := e); cbn [_array with_array _bottom _end]; rewrite ?E1; try done.
    + by eapply covers_updated.
    + rewrite !blocks_app. fold s. cbn. fold e. set_solver.
    + rewrite Hent. by destruct (block_entries_at _ _ _ _ Hc) as [_ ->].
Qed.

Lemma exact_join : exact b (pre ++ mid ++ post) -> exact (with_array b a') (pre ++ [total mid] ++ post).
Proof using All.
  intros Hex. pose proof join_bounds as (Hpos & Hs & Hse & He). pose proof Hu as (E1 & E2 & E3 & Hent).
  apply exact_replace with (mid := mid) (upd := block_entries (start b) s e); [cbn; lia|done|by repeat constructor| |by destruct Hind|done|].
  - intros c v. by apply block_entries_dom.
  - intros x y c v. fold s. cbn. fold e. rewrite list_elem_of_singleton. intros [= -> ->] Hv. by rewrite Hent, Hv.
Qed.
End join.

Lemma remainder_spec f l c v : l - f < max_cards -> remainder f l c = Some v -> f < c <= l /\ v = N_words + log16 (c - f) /\ 0 <= log16 (c - f) <= 6 /\ f <= c - 16 ^ log16 (c - f).
Proof.
  intros Hl. unfold remainder. destruct (_ && _) eqn:E; [|done]. intros [= <-]. destruct (log16_spec (c - f)) as (? & ? & ?); [lia|]. pose proof (log16_small (c - f)). lia.
Qed.

(** Making two blocks of one. *)
Section split.
Context (b : BlockOffsetArray) (a' : BlockOffsetSharedArray) (pre post : list Z) (n left : Z).
Let s := _bottom b + total pre.
Let m := s + left.
Let e := s + n.
Hypothesis Hind : indexed b (pre ++ [n] ++ post).
Hypothesis Hleft : 0 < left < n.
Hypothesis Hu : updated (_array b) a' (split_update (start b) s m e).
Let f := card_after (start b) s.
Let g := card_after (start b) m.
Let l := card (start b) (e - 1).

Lemma split_bounds : _bottom b <= s /\ e <= _end b /\ 0 <= f <= g /\ l < committed_size (_array b) /\ committed_size (_array b) <= max_cards /\ card (start b) (_bottom b) <= f.
Proof using Hind Hleft.
  destruct Hind as [Hb Hpos Htot _ _]. pose proof Hb as [_ _ [Hb1 Hb2] (He1 & He2 & He3) Hmax]. rewrite !Forall_app in Hpos. destruct Hpos as (H1 & H2 & H3). rewrite !total_sizes_app in Htot. cbn in Htot.
  pose proof (total_length _ H1). pose proof (total_length _ H3). subst s m e f g l. split_and!; card_lia.
Qed.

(** What is written is a distance on the first card of the suffix, or leads back to the
    prefix at most. *)
Lemma split_update_spec c v : split_update (start b) s m e c = Some v ->
  g <= c <= l /\ ((c = g /\ v = card_address (start b) g - m) \/ (g < c /\ N_words <= v <= N_words + 6 /\ f <= c - 16 ^ (v - N_words))).
Proof using Hind Hleft.
  pose proof split_bounds as (H1 & H2 & H3 & H4 & H5 & H6). unfold split_update. fold f g l. cbn zeta. destruct (Z.leb_spec g l); [|done].
  destruct (Z.eqb_spec c g) as [->|]; [intros [= <-]; split; [lia|by left]|]. destruct (Z.leb_spec (g - f) 0); [done|]. intros H'.
  assert (Hv : g < c <= l /\ N_words <= v <= N_words + 6 /\ f <= c - 16 ^ (v - N_words)); [|split; [lia|right; lia]].
  assert (Hrem : forall l', l' <= l -> remainder g l' c = Some v -> g < c <= l /\ N_words <= v <= N_words + 6 /\ f <= c - 16 ^ (v - N_words)).
  { intros l' Hl' (? & -> & ? & ?)%remainder_spec; [|lia]. replace (N_words + log16 (c - g) - N_words) with (log16 (c - g)) by lia. lia. }
  destruct (Z.ltb_spec (l - g) (g - f)); [by apply (Hrem l)|]. destruct (split_entries (g - f) g l c) eqn:Es; [|by apply (Hrem (g + (g - f) - 1)); [lia|]].
  simplify_eq. apply split_entries_spec in Es; lia.
Qed.

Lemma split_update_dom c v : split_update (start b) s m e c = Some v -> s <= card_address (start b) c < e.
Proof using Hind Hleft. intros [Hc _]%split_update_spec. pose proof split_bounds. subst s m e f g l. card_lia. Qed.

Lemma indexed_split : indexed (with_array b a') (pre ++ [left; n - left] ++ post).
Proof using All.
  pose proof split_bounds as (H1 & H2 & H3 & H4 & H5 & H6). pose proof Hu as (E1 & E2 & E3 & Hent). pose proof (indexed_covers _ _ Hind) as Hb. pose proof Hb as [_ _ [Hb1 Hb2] (He1 & He2 & He3) _].
  assert (Hblocks : blocks (_bottom b) (pre ++ [left; n - left] ++ post) = blocks (_bottom b) pre ++ (s, m) :: (m, e) :: blocks e post).
  { rewrite blocks_app. cbn. fold s. fold m. replace (m + (n - left)) with e by (subst m e; lia). done. }
  apply indexed_replace with (mid := [n]) (upd := split_update (start b) s m e); [cbn; lia|done|repeat constructor; lia| |done| |].
  - intros c v Hc%split_update_dom. cbn. fold s. by replace (s + (n + 0)) with e by (subst e; lia).
  - intros v [Hc [[Hg ->]|Hv]]%split_update_spec; [|lia]. subst s m f g. card_lia.
  - intros c Hc. cbn in Hc. fold s in Hc. assert (Hse : s <= card_address (start b) c < e) by (subst e; lia).
    assert (Hcf : f <= c) by (subst f; card_lia). assert (Hcl : c <= l) by (subst l; card_lia).
    destruct (indexed_cards _ _ Hind c) as (v & Hv & Hr & Hlow & Hhigh); [lia|lia|].
    unfold leads_back. cbn [_array with_array _bottom]. rewrite E1, Hent, Hblocks. destruct (split_update (start b) s m e c) as [v'|] eqn:Es.
    + exists v'. split; [done|]. apply split_update_spec in Es as [Hgl [[-> ->]|(Hg & Hv' & Hback)]].
      * assert (0 <= card_address (start b) g - m < N_words) by (subst g; card_lia). split_and!; [lia..| |lia]. intros _. exists e. split; [|lia].
        replace (card_address _ _ - (_ - m)) with m by lia. set_solver.
      * split_and!; [lia..|]. intros _. lia.
    + exists v. split; [done|]. split; [done|]. split; [|done]. intros Hv64. destruct (Hlow Hv64) as (y & Hin & Hy).
      apply blocks_replace with (mid' := [left; n - left]) in Hin as [Hin|[Hin _]]; [|by rewrite Hblocks in Hin; exists y|cbn; lia|by destruct Hind].
      cbn in Hin. fold s in Hin. apply list_elem_of_singleton in Hin as [= Hx ->]. fold e in Hy |- *. exists m. replace (card_address (start b) c - v) with s by lia. split; [set_solver|].
      destruct (Z.lt_ge_cases (card_address (start b) c) m); [done|exfalso]. assert (c = g) as -> by (subst f g; card_lia).
      revert Es. unfold split_update. fold g l. by rewrite (proj2 (Z.leb_le _ _)), Z.eqb_refl by lia.
Qed.

(** The entries of the suffix, if the prefix does not reach over the last part of its power. *)
Lemma split_suffix_entries c v :
  exact b (pre ++ [n] ++ post) -> (1 <= g - f <= l - g -> g - f <= 15 * 16 ^ log16 (g - f)) ->
  block_entries (start b) m e c = Some v -> offset_array a' c = Some v.
Proof using All.
  intros Hex Hfit. pose proof split_bounds as (H1 & H2 & H3 & H4 & H5 & H6). pose proof Hu as (E1 & E2 & E3 & Hent). intros Hv.
  assert (Hme : m < e) by (subst m e; lia). pose proof (block_entries_dom _ _ _ _ _ Hme Hv) as Hc. destruct (block_entries_at _ _ _ _ Hc) as [Hg E]. fold g in Hg, E. rewrite E in Hv.
  assert (Hse : s <= card_address (start b) c < e) by (subst m; lia). destruct (block_entries_at _ _ _ _ Hse) as [Hf E']. fold f in Hf, E'.
  assert (Hold : offset_array (_array b) c = block_entries (start b) s e c).
  { rewrite E'. eapply (Hex s e); [|exact E']. rewrite blocks_app. cbn. fold s e. set_solver. }
  assert (Hcl : c <= l) by (subst l; card_lia). rewrite Hent. unfold split_update. fold f g l. cbn zeta. rewrite (proj2 (Z.leb_le g l)) by lia.
  destruct (Z.eqb_spec c g) as [->|]; [done|]. simplify_eq. rewrite Hold, E'. rewrite (proj2 (Z.eqb_neq c f)) by lia.
  destruct (Z.leb_spec (g - f) 0); [by replace f with g by lia|]. destruct (Z.ltb_spec (l - g) (g - f)).
  { unfold remainder. by replace ((g <? c) && (c <=? l)) with true by lia. }
  destruct (split_entries (g - f) g l c) as [v|] eqn:Es; [f_equal; eapply split_entries_exact; [| |done]; lia|]. unfold remainder.
  destruct (Z.leb_spec c (g + (g - f) - 1)); [by replace ((g <? c) && true) with true by lia|]. rewrite andb_false_r.
  apply split_entries_none in Es; [|lia..]. do 2 f_equal. rewrite <- Es. f_equal. lia.
Qed.

Lemma exact_split :
  exact b (pre ++ [n] ++ post) -> (1 <= g - f <= l - g -> g - f <= 15 * 16 ^ log16 (g - f)) ->
  exact (with_array b a') (pre ++ [left; n - left] ++ post).
Proof using All.
  intros Hex Hfit. pose proof Hu as (E1 & E2 & E3 & Hent). apply exact_replace with (mid := [n]) (upd := split_update (start b) s m e); [cbn; lia|done|repeat constructor; lia| |by destruct Hind|done|].
  - intros c v Hc%split_update_dom. cbn. fold s. by replace (s + (n + 0)) with e by (subst e; lia).
  - intros x y c v. cbn. fold s. fold m. replace (m + (n - left)) with e by (subst m e; lia). intros Hin Hv. apply elem_of_cons in Hin as [[= -> ->]|Hin].
    2:{ apply list_elem_of_singleton in Hin as [= -> ->]. by apply split_suffix_entries. }
    assert (Hsm : s < m) by (subst m; lia). pose proof (block_entries_dom _ _ _ _ _ Hsm Hv) as Hc. destruct (block_entries_at _ _ _ _ Hc) as [Hf E].
    assert (Hse : s <= card_address (start b) c < e) by (subst m e; lia). destruct (block_entries_at _ _ _ _ Hse) as [_ E']. rewrite Hent.
    destruct (split_update (start b) s m e c) eqn:Es; [apply split_update_spec in Es as [Hg _]; subst g; card_lia|].
    apply (Hex s e); [rewrite blocks_app; cbn; fold s e; set_solver|congruence].
Qed.
End split.

(** With the entries of every block, the careful search needs no sizes of blocks. *)
Lemma careful_loop_ok b x y fuel c :
  covers b -> _bottom b <= x -> y <= _end b -> (forall c v, block_entries (start b) x y c = Some v -> offset_array (_array b) c = Some v) ->
  x <= card_address (start b) c < y -> c - card_after (start b) x < Z.of_nat fuel ->
  NonContig.careful_loop (_array b) fuel c (card_address (start b) c) = Some x.
Proof.
  intros Hb Hx Hy Hent. pose proof Hb as [_ _ [Hb1 Hb2] (He1 & He2 & He3) Hmax]. revert c. induction fuel as [|fuel IH]; intros c Hc Hfuel; [card_lia|].
  cbn [NonContig.careful_loop]. destruct (block_entries_at _ _ _ _ Hc) as [Hf E]. rewrite (Hent _ _ E). cbn [mbind option_bind].
  destruct (Z.eqb_spec c (card_after (start b) x)) as [->|].
  - rewrite (proj2 (Z.ltb_lt _ _)) by card_lia. f_equal. lia.
  - destruct (log16_spec (c - card_after (start b) x)) as (H0 & H1 & _); [lia|]. pose proof (log16_small (c - card_after (start b) x) ltac:(card_lia)). pose proof (pow16_pos _ H0).
    rewrite (proj2 (Z.ltb_ge _ _)) by lia. rewrite entry_small by lia. cbn [mbind option_bind]. set (w := 16 ^ log16 (c - card_after (start b) x)) in *.
    replace (card_address (start b) c - w * N_words) with (card_address (start b) (c - w)) by card_lia. apply IH; card_lia.
Qed.

Lemma block_start_careful_loop b sizes Use ub x c :
  indexed b sizes -> _bottom b <= card_address (start b) c < _end b -> (Use = true -> card_address (start b) c < ub) ->
  NonContig.careful_loop (_array b) (length (_offset_array (_array b))) c (card_address (start b) c) = Some x -> x <= card_address (start b) c ->
  NonContig.block_start_careful Use (NonContig.mkNonContig b ub) (card_address (start b) c) = Some x.
Proof.
  intros [Hb _ _ Hzero _] Hc Hub Hloop Hx. pose proof Hb as [_ _ [Hb1 Hb2] (He1 & He2 & He3) _].
  unfold NonContig.block_start_careful. cbn [NonContig.base NonContig._unallocated_block]. rewrite Hzero. cbn [mbind option_bind Z.eqb]. set (addr := card_address (start b) c) in *.
  replace ((_bottom b <=? addr) && (addr <? _end b)) with true by lia. replace (Use && (addr >=? ub)) with false by (destruct Use; cbn; [specialize (Hub eq_refl)|]; lia).
  destruct (index_for_ok b Hb addr) as [-> Hi]; [lia|]. cbn [mbind option_bind]. replace (card (start b) addr) with c in * by (subst addr; card_lia).
  rewrite address_for_index_ok by (done || lia). cbn [mbind option_bind]. fold addr. rewrite Z.eqb_refl, Hloop. cbn [mbind option_bind]. by rewrite (proj2 (Z.leb_le _ _)) by lia.
Qed.

Lemma block_start_careful_ok b sizes Use ub x y c :
  indexed b sizes -> exact b sizes -> (x, y) ∈ blocks (_bottom b) sizes -> x <= card_address (start b) c < y -> (Use = true -> card_address (start b) c < ub) ->
  NonContig.block_start_careful Use (NonContig.mkNonContig b ub) (card_address (start b) c) = Some x.
Proof.
  intros Hi Hex Hin Hc Hub. pose proof Hi as [Hb Hpos Htot _ _]. pose proof Hb as [_ _ [Hb1 Hb2] (He1 & He2 & He3) _]. pose proof (blocks_range _ _ _ _ Hpos Hin).
  eapply block_start_careful_loop; [done|lia|done| |lia]. apply (careful_loop_ok b x y); [done|lia|lia|by intros; eapply Hex|done|card_lia].
Qed.

(** ** Histories *)

(** The operations on blocks: splitting the [k]-th block, making one block of [m] blocks in a
    row, and the notes that a block was allocated or freed. *)
Inductive operation :=
| Split (k : nat) (lsize : Z)
| Join (k m : nat)
| Mark (k m : nat)
| Allocated (k : nat)
| Freed (k : nat).

(** The sizes of the blocks after an operation. *)
Definition sizes_after (sizes : list Z) (op : operation) : list Z :=
  match op with
  | Split k lsize => take k sizes ++ [lsize; default 0 (sizes !! k) - lsize] ++ drop (S k) sizes
  | Join k m | Mark k m => take k sizes ++ [total (take m (drop k sizes))] ++ drop m (drop k sizes)
  | Allocated _ | Freed _ => sizes
  end.

Definition valid_op (sizes : list Z) (op : operation) : bool :=
  match op with
  | Split k lsize => (k <? length sizes)%nat && (0 <? lsize) && (lsize <? default 0 (sizes !! k))
  | Join k m | Mark k m => (0 <? m)%nat && (k + m <=? length sizes)%nat
  | Allocated k | Freed k => (k <? length sizes)%nat
  end.

(** The splits for which the entries stay those of the blocks: the cards of the prefix do not
    reach over the last of the fifteen parts of their power, or there are fewer in the suffix. *)
Definition fits (start bottom : Z) (sizes : list Z) (op : operation) : bool :=
  match op with
  | Split k lsize =>
      let s := bottom + total (take k sizes) in
      let g := card_after start (s + lsize) in
      let P := g - card_after start s in
      let l := card start (s + default 0 (sizes !! k) - 1) in
      (P <=? 15 * 16 ^ log16 P) || (l - g <? P)
  | _ => true
  end.

Section history.
Context (is_in_reserved : Z -> bool) (Use Verify : bool).

Definition apply_op (nc : NonContig.BlockOffsetArrayNonContigSpace) (sizes : list Z) (op : operation)
    : option NonContig.BlockOffsetArrayNonContigSpace :=
  let block k m :=
    let s := _bottom (NonContig.base nc) + total (take k sizes) in (s, s + total (take m (drop k sizes))) in
  match op with
  | Split k lsize => NonContig.split_block is_in_reserved Verify nc (block k 1%nat).1 (default 0 (sizes !! k)) lsize
  | Join k m => NonContig.alloc_block is_in_reserved Use Verify nc (block k m).1 (block k m).2
  | Mark k m => NonContig.mark_block is_in_reserved nc (block k m).1 (block k m).2
  | Allocated k => NonContig.allocated is_in_reserved Use Verify nc (block k 1%nat).1 (block k 1%nat).2
  | Freed k => NonContig.freed is_in_reserved Use Verify nc (block k 1%nat).1 (block k 1%nat).2
  end.

Fixpoint run (nc : NonContig.BlockOffsetArrayNonContigSpace) (sizes : list Z) (ops : list operation)
    : option NonContig.BlockOffsetArrayNonContigSpace :=
  match ops with
  | [] => Some nc
  | op :: ops => nc ← apply_op nc sizes op; run nc (sizes_after sizes op) ops
  end.
End history.

Abbreviation final_sizes sizes ops := (fold_left sizes_after ops sizes).

Fixpoint valid_ops (sizes : list Z) (ops : list operation) : bool :=
  match ops with
  | [] => true
  | op :: ops => valid_op sizes op && valid_ops (sizes_after sizes op) ops
  end.

Fixpoint all_fit (start bottom : Z) (sizes : list Z) (ops : list operation) : bool :=
  match ops with
  | [] => true
  | op :: ops => fits start bottom sizes op && all_fit start bottom (sizes_after sizes op) ops
  end.

(** A table between [lo] and [hi] in the memory from [t] to [r]. *)
Record nc_ok (t r lo hi : Z) (nc : NonContig.BlockOffsetArrayNonContigSpace) (sizes : list Z) : Prop := {
  nc_start : start (NonContig.base nc) = t;
  nc_reserved : reserved_end (_array (NonContig.base nc)) = r;
  nc_bottom : _bottom (NonContig.base nc) = lo;
  nc_end : _end (NonContig.base nc) = hi;
  nc_init : _init_to_zero (NonContig.base nc) = false;
  nc_unallocated : lo <= NonContig._unallocated_block nc <= hi;
  nc_indexed : indexed (NonContig.base nc) sizes
}.

Section steps.
Context (is_in_reserved : Z -> bool) (Use Verify : bool) (t r lo hi : Z).
Hypothesis Hheap : forall p, t <= p < r -> is_in_reserved p = true.

Lemma verify_single_ok b x y :
  covers b -> start b = t -> reserved_end (_array b) = r -> _bottom b <= x -> x < y -> y <= _end b ->
  (Verify = true -> forall c v, block_entries (start b) x y c = Some v -> offset_array (_array b) c = Some v) ->
  NonContig.verify_single_block is_in_reserved Verify b x y = Some tt.
Proof using Hheap.
  intros Hb Hstart Hres Hx Hxy Hy Hent. unfold NonContig.verify_single_block. destruct Verify; [|done].
  rewrite check_block_ok; [done|done|by rewrite Hstart, Hres|done..|by apply Hent].
Qed.

(** The tables and marks after a write. *)
Lemma nc_ok_update b ub ub' a' upd sizes sizes' :
  nc_ok t r lo hi (NonContig.mkNonContig b ub) sizes -> updated (_array b) a' upd -> indexed (with_array b a') sizes' -> lo <= ub' <= hi ->
  nc_ok t r lo hi (NonContig.mkNonContig (with_array b a') ub') sizes'.
Proof. intros [] (E1 & E2 & _) Hi Hub. constructor; cbn in *; congruence || done. Qed.

Lemma allocated_ok nc sizes x y :
  nc_ok t r lo hi nc sizes -> lo <= x -> x < y -> y <= hi ->
  (Verify = true -> forall c v, block_entries t x y c = Some v -> offset_array (_array (NonContig.base nc)) c = Some v) ->
  exists ub, NonContig.allocated is_in_reserved Use Verify nc x y = Some (NonContig.mkNonContig (NonContig.base nc) ub) /\ lo <= ub <= hi.
Proof using Hheap.
  intros [Ht Hr Hlo Hhi _ Hub Hi] Hx Hxy Hy Hent. destruct nc as [b ub]. cbn in *. unfold NonContig.allocated. cbn.
  rewrite verify_single_ok; [|by destruct Hi|done|done|lia|done|lia|by rewrite Ht]. cbn [mbind option_bind]. destruct Use; [|by exists ub].
  eexists. split; [done|]. unfold MAX2. destruct (_ >? _); lia.
Qed.

Lemma freed_ok nc sizes x y :
  nc_ok t r lo hi nc sizes -> lo <= x -> x < y -> y <= hi ->
  (Verify = true -> forall c v, block_entries t x y c = Some v -> offset_array (_array (NonContig.base nc)) c = Some v) ->
  exists ub, NonContig.freed is_in_reserved Use Verify nc x y = Some (NonContig.mkNonContig (NonContig.base nc) ub) /\ lo <= ub <= hi.
Proof using Hheap.
  intros [Ht Hr Hlo Hhi _ Hub Hi] Hx Hxy Hy Hent. destruct nc as [b ub]. cbn in *. unfold NonContig.freed. cbn.
  rewrite verify_single_ok; [|by destruct Hi|done|done|lia|done|lia|by rewrite Ht]. cbn [mbind option_bind]. destruct Use; [|by exists ub].
  rewrite (proj2 (Z.leb_le _ _)) by lia. destruct (_ && _); eexists; (split; [done|]); lia.
Qed.

Section join_step.
Context (b : BlockOffsetArray) (ub : Z) (pre mid post : list Z).
Let s := lo + total pre.
Let e := s + total mid.
Hypothesis Hok : nc_ok t r lo hi (NonContig.mkNonContig b ub) (pre ++ mid ++ post).
Hypothesis Hmid : mid <> [].

Lemma single_step : exists a',
  single_block is_in_reserved b s e = Some (with_array b a') /\ updated (_array b) a' (block_entries t s e) /\
  nc_ok t r lo hi (NonContig.mkNonContig (with_array b a') ub) (pre ++ [total mid] ++ post) /\
  (exact b (pre ++ mid ++ post) -> exact (with_array b a') (pre ++ [total mid] ++ post)).
Proof using All.
  pose proof Hok as [Ht Hr Hlo Hhi _ Hub Hi]. cbn in *. pose proof (join_bounds b pre mid post Hi Hmid) as (H1 & H2 & H3 & H4). rewrite Hlo in *. fold s e in H2, H3, H4.
  destruct (single_block_ok b is_in_reserved s e) as (a' & -> & Hu); [by destruct Hi|by rewrite Ht, Hr|lia|done|lia|]. exists a'. split; [done|]. split; [by rewrite Ht in Hu|].
  split.
  - eapply nc_ok_update; [done..| |done]. apply (indexed_join b a' pre mid post); [done..|]. by rewrite Hlo.
  - intros Hex. apply (exact_join b a' pre mid post); [done..| |done]. by rewrite Hlo.
Qed.

Lemma alloc_step : exists nc',
  NonContig.alloc_block is_in_reserved Use Verify (NonContig.mkNonContig b ub) s e = Some nc' /\
  nc_ok t r lo hi nc' (pre ++ [total mid] ++ post) /\
  (exact b (pre ++ mid ++ post) -> exact (NonContig.base nc') (pre ++ [total mid] ++ post)).
Proof using All.
  pose proof Hok as [Ht Hr Hlo Hhi _ Hub Hi]. cbn in *. pose proof (join_bounds b pre mid post Hi Hmid) as (H1 & H2 & H3 & H4). rewrite Hlo in *. fold s e in H2, H3, H4.
  pose proof (indexed_covers _ _ Hi) as [[Hpos _] _ [Hb1 _] _ _].
  destruct single_step as (a' & E & Hu & Hok' & Hex). unfold NonContig.alloc_block. replace (negb (s =? 0) && (s <? e)) with true by lia. cbn [NonContig.base NonContig._unallocated_block].
  rewrite E. cbn [mbind option_bind]. destruct (allocated_ok _ _ s e Hok') as (ub' & -> & Hub'); [lia..| |].
  - intros _ c v Hv. cbn. destruct Hu as (_ & _ & _ & ->). by rewrite Hv.
  - eexists. split; [done|]. split; [|done]. eapply nc_ok_update; [exact Hok|done|by destruct Hok'|done].
Qed.

Lemma mark_step : exists nc',
  NonContig.mark_block is_in_reserved (NonContig.mkNonContig b ub) s e = Some nc' /\
  nc_ok t r lo hi nc' (pre ++ [total mid] ++ post) /\
  (exact b (pre ++ mid ++ post) -> exact (NonContig.base nc') (pre ++ [total mid] ++ post)).
Proof using All.
  destruct single_step as (a' & E & Hu & Hok' & Hex). unfold NonContig.mark_block. cbn [NonContig.base NonContig._unallocated_block].
  assert (do_block_internal is_in_reserved b s e Action_mark = single_block is_in_reserved b s e) as ->.
  { destruct Hok as [_ _ _ _ Hinit _ _]. cbn in Hinit. unfold single_block, do_block_internal. by rewrite Hinit. }
  rewrite E. cbn [mbind option_bind]. by eexists.
Qed.
End join_step.

Section split_step.
Context (b : BlockOffsetArray) (ub : Z) (pre post : list Z) (n lsize : Z).
Let s := lo + total pre.
Let g := card_after t (s + lsize).
Let P := g - card_after t s.
Hypothesis Hok : nc_ok t r lo hi (NonContig.mkNonContig b ub) (pre ++ [n] ++ post).
Hypothesis Hsize : 0 < lsize < n.
Let fit := (P <=? 15 * 16 ^ log16 P) || (card t (s + n - 1) - g <? P) = true.
Hypothesis Hexact : Verify = true -> exact b (pre ++ [n] ++ post) /\ fit.

Lemma split_step : exists nc',
  NonContig.split_block is_in_reserved Verify (NonContig.mkNonContig b ub) s n lsize = Some nc' /\
  nc_ok t r lo hi nc' (pre ++ [lsize; n - lsize] ++ post) /\
  (exact b (pre ++ [n] ++ post) -> fit -> exact (NonContig.base nc') (pre ++ [lsize; n - lsize] ++ post)).
Proof using All.
  pose proof Hok as [Ht Hr Hlo Hhi _ Hub Hi]. cbn in Ht, Hr, Hlo, Hhi, Hub, Hi. pose proof (indexed_covers _ _ Hi) as Hb.
  pose proof (split_bounds b pre post n lsize Hi Hsize) as (H1 & H2 & _). rewrite Hlo in *. fold s in H1, H2.
  assert (Hin : (s, s + n) ∈ blocks (_bottom b) (pre ++ [n] ++ post)) by (rewrite blocks_app, Hlo; cbn; fold s; set_solver).
  destruct (split_block_updates is_in_reserved Verify (NonContig.mkNonContig b ub) s n lsize) as (a' & Hu & ->); cbn [NonContig.base]; [done|lia..| |].
  { apply verify_single_ok; try (done || lia). intros HV c v. by apply Hexact. }
  assert (Hi' : indexed (with_array b a') (pre ++ [lsize; n - lsize] ++ post)) by (apply (indexed_split b a' pre post n lsize); rewrite ?Hlo; done).
  assert (Hex : exact b (pre ++ [n] ++ post) -> fit -> exact (with_array b a') (pre ++ [lsize; n - lsize] ++ post)).
  { intros Hex Hfit. apply (exact_split b a' pre post n lsize); rewrite ?Hlo, ?Ht; try done; fold s; [by rewrite <- Ht|]. unfold fit, P, g in Hfit. lia. }
  assert (Hin' : blocks (_bottom b) (pre ++ [lsize; n - lsize] ++ post) = blocks (_bottom b) pre ++ (s, s + lsize) :: (s + lsize, s + lsize + (n - lsize)) :: blocks (s + lsize + (n - lsize)) post).
  { rewrite blocks_app. cbn. rewrite Hlo. by fold s. }
  pose proof Hu as (E1 & E2 & _). cbn in E1, E2. assert (Hv : forall x y, (x = s /\ y = s + lsize) \/ (x = s + lsize /\ y = s + lsize + (n - lsize)) ->
    NonContig.verify_single_block is_in_reserved Verify (with_array b a') x y = Some tt).
  { intros x y Hxy. apply verify_single_ok; cbn; [by destruct Hi'|congruence|congruence|lia|lia|lia|]. intros HV c v. destruct (Hexact HV) as [Hx Hfit].
    apply (Hex Hx Hfit x y). cbn [_bottom with_array]. rewrite Hin'. destruct Hxy as [[-> ->]|[-> ->]]; set_solver. }
  cbn zeta. rewrite !Hv by ((left; done) || (right; done)). cbn [mbind option_bind]. eexists. split; [done|]. split; [|exact Hex]. by eapply nc_ok_update.
Qed.
End split_step.

(** Every operation on blocks succeeds, and leaves a table of the blocks after it. *)
Lemma nc_step_ok nc sizes op :
  nc_ok t r lo hi nc sizes -> valid_op sizes op = true -> (Verify = true -> exact (NonContig.base nc) sizes /\ fits t lo sizes op = true) ->
  exists nc', apply_op is_in_reserved Use Verify nc sizes op = Some nc' /\ nc_ok t r lo hi nc' (sizes_after sizes op) /\
    (exact (NonContig.base nc) sizes -> fits t lo sizes op = true -> exact (NonContig.base nc') (sizes_after sizes op)).
Proof using Hheap.
  intros Hok Hvalid Hexact. destruct nc as [b ub]. pose proof Hok as [Ht Hr Hlo Hhi _ Hub Hi]. cbn in Ht, Hr, Hlo, Hhi, Hub, Hi, Hexact. unfold apply_op. cbn [NonContig.base]. rewrite Hlo.
  assert (Hsplit : forall k m, sizes = take k sizes ++ take m (drop k sizes) ++ drop m (drop k sizes)) by (intros; by rewrite !take_drop).
  assert (Hone : forall k n, sizes !! k = Some n -> take 1 (drop k sizes) = [n] /\ sizes = take k sizes ++ [n] ++ drop (S k) sizes).
  { intros k n Hk. rewrite (drop_S _ _ _ Hk). split; [done|]. cbn. rewrite <- (drop_S _ _ _ Hk). by rewrite take_drop. }
  assert (Hblock : forall k, (k < length sizes)%nat -> let s := lo + total (take k sizes) in let e := s + total (take 1 (drop k sizes)) in
    (s, e) ∈ blocks lo sizes /\ lo <= s /\ s < e /\ e <= hi).
  { intros k Hk. destruct (lookup_lt_is_Some_2 sizes k Hk) as [n Hn]. destruct (Hone k n Hn) as [-> E]. cbn.
    assert (Hin : (lo + total (take k sizes), lo + total (take k sizes) + (n + 0)) ∈ blocks lo sizes) by (rewrite E at 3; rewrite blocks_app; cbn; rewrite Z.add_0_r; set_solver).
    split; [done|]. apply blocks_range in Hin; [|by destruct Hi]. pose proof (indexed_total _ _ Hi). lia. }
  destruct op as [k lsize|k m|k m|k|k]; cbn [valid_op sizes_after fits fst snd] in *.
  - apply andb_prop in Hvalid as [Hvalid H2]. apply andb_prop in Hvalid as [H1 H3]. apply Nat.ltb_lt in H1. destruct (lookup_lt_is_Some_2 sizes k H1) as [n Hn].
    rewrite Hn in *. cbn [default id] in *. destruct (Hone k n Hn) as [_ E].
    revert E Hexact. generalize (take k sizes), (drop (S k) sizes). intros pre post -> Hexact. apply split_step; [done|lia|done].
  - apply andb_prop in Hvalid as [H1%Nat.ltb_lt H2%Nat.leb_le]. rewrite (Hsplit k m) in Hok at 1.
    destruct (alloc_step b ub _ _ _ Hok) as (nc' & -> & Hok' & Hex); [|exists nc'; split; [done|]; split; [done|]; intros Hx _; apply Hex; by rewrite <- Hsplit].
    intros Hnil%(f_equal length). rewrite length_take, length_drop in Hnil. cbn in Hnil. lia.
  - apply andb_prop in Hvalid as [H1%Nat.ltb_lt H2%Nat.leb_le]. rewrite (Hsplit k m) in Hok at 1.
    destruct (mark_step b ub _ _ _ Hok) as (nc' & -> & Hok' & Hex); [|exists nc'; split; [done|]; split; [done|]; intros Hx _; apply Hex; by rewrite <- Hsplit].
    intros Hnil%(f_equal length). rewrite length_take, length_drop in Hnil. cbn in Hnil. lia.
  - apply Nat.ltb_lt in Hvalid. destruct (Hblock k Hvalid) as (Hin & H1 & H2 & H3). destruct (allocated_ok _ _ _ _ Hok H1 H2 H3) as (ub' & -> & Hub').
    + cbn. intros HV c v. rewrite <- Ht. apply (proj1 (Hexact HV)). by rewrite Hlo.
    + eexists. split; [done|]. split; [|done]. destruct Hok. by constructor.
  - apply Nat.ltb_lt in Hvalid. destruct (Hblock k Hvalid) as (Hin & H1 & H2 & H3). destruct (freed_ok _ _ _ _ Hok H1 H2 H3) as (ub' & -> & Hub').
    + cbn. intros HV c v. rewrite <- Ht. apply (proj1 (Hexact HV)). by rewrite Hlo.
    + eexists. split; [done|]. split; [|done]. destruct Hok. by constructor.
Qed.
End steps.

Lemma run_ok is_in_reserved Use Verify t r lo hi nc sizes ops :
  (forall p, t <= p < r -> is_in_reserved p = true) ->
  nc_ok t r lo hi nc sizes -> valid_ops sizes ops = true -> (Verify = true -> exact (NonContig.base nc) sizes /\ all_fit t lo sizes ops = true) ->
  exists nc', run is_in_reserved Use Verify nc sizes ops = Some nc' /\ nc_ok t r lo hi nc' (final_sizes sizes ops) /\
    (exact (NonContig.base nc) sizes -> all_fit t lo sizes ops = true -> exact (NonContig.base nc') (final_sizes sizes ops)).
Proof.
  intros Hheap. revert nc sizes. induction ops as [|op ops IH]; intros nc sizes Hok Hvalid Hexact; [by eexists|]. cbn in *.
  apply andb_prop in Hvalid as [Hv1 Hv2]. destruct (nc_step_ok is_in_reserved Use Verify t r lo hi Hheap nc sizes op) as (nc1 & -> & Hok1 & Hex1); [done..| |].
  { intros HV. destruct (Hexact HV) as [? [? ?]%andb_prop]. done. }
  cbn [mbind option_bind]. destruct (IH nc1 (sizes_after sizes op)) as (nc2 & -> & Hok2 & Hex2); [done..| |].
  { intros HV. destruct (Hexact HV) as [? [? ?]%andb_prop]. split; [by apply Hex1|done]. }
  eexists. split; [done|]. split; [done|]. intros ? [? ?]%andb_prop. auto.
Qed.

(** Verification changes nothing but that it may stop the VM. *)
Lemma apply_op_verify is_in_reserved Use Verify nc sizes op nc' :
  apply_op is_in_reserved Use Verify nc sizes op = Some nc' ->
  apply_op is_in_reserved Use false nc sizes op = Some nc'.
Proof.
  assert (Hv : forall b s e, NonContig.verify_single_block is_in_reserved false b s e = Some tt) by done.
  destruct op as [k lsize|k m|k m|k|k]; cbn [apply_op].
  - unfold NonContig.split_block. rewrite Hv.
    destruct (NonContig.verify_single_block _ Verify _ _ _); [|done]. cbn [mbind option_bind].
    do 3 (case_match; [|done]). cbv zeta.
    do 4 (intros (? & -> & Hrest)%bind_Some; revert Hrest; cbn [mbind option_bind]). rewrite !Hv.
    by intros (? & _ & (? & _ & Hrest)%bind_Some)%bind_Some.
  - unfold NonContig.alloc_block, NonContig.allocated. case_match; [|done].
    intros (b & -> & Hrest)%bind_Some. revert Hrest. cbn [mbind option_bind]. rewrite Hv.
    destruct (NonContig.verify_single_block _ Verify _ _ _); done.
  - done.
  - unfold NonContig.allocated. rewrite Hv. destruct (NonContig.verify_single_block _ Verify _ _ _); done.
  - unfold NonContig.freed. rewrite Hv. destruct (NonContig.verify_single_block _ Verify _ _ _); done.
Qed.

Lemma run_verify is_in_reserved Use Verify nc sizes ops nc' :
  run is_in_reserved Use Verify nc sizes ops = Some nc' -> run is_in_reserved Use false nc sizes ops = Some nc'.
Proof.
  revert nc sizes. induction ops as [|op ops IH]; intros nc sizes; [done|]. cbn [run].
  intros (nc1 & E%apply_op_verify & H)%bind_Some. rewrite E. cbn [mbind option_bind]. auto.
Qed.

Lemma run_snoc is_in_reserved Use Verify nc sizes ops op :
  run is_in_reserved Use Verify nc sizes (ops ++ [op]) =
  (nc ← run is_in_reserved Use Verify nc sizes ops; apply_op is_in_reserved Use Verify nc (final_sizes sizes ops) op).
Proof.
  revert nc sizes. induction ops as [|op' ops IH]; intros nc sizes; cbn; [by destruct (apply_op _ _ _ _ _ _)|]. destruct (apply_op _ _ _ _ _ _); [|done]. cbn [mbind option_bind]. apply IH.
Qed.

(** A table for the space from the start of the reserved memory to [hi], before use. *)
Record fresh (a : BlockOffsetSharedArray) (hi : Z) : Prop := {
  fresh_start : 0 < reserved_start a /\ reserved_start a mod N_words = 0;
  fresh_reserved : (reserved_end a - reserved_start a) mod N_words = 0;
  fresh_end : reserved_start a < hi /\ hi <= reserved_end a /\ hi <= reserved_start a + N_words * committed_size a;
  fresh_boundary : (hi - reserved_start a) mod N_words = 0;
  fresh_max : committed_size a <= max_cards;
  fresh_first : exists v, offset_array a 0 = Some v /\ v <= N_words
}.

Lemma new_noncontig_ok a hi :
  fresh a hi -> exists nc, NonContig.new_noncontig a (reserved_start a) hi = Some nc /\
    nc_ok (reserved_start a) (reserved_end a) (reserved_start a) hi nc [hi - reserved_start a] /\ exact (NonContig.base nc) [hi - reserved_start a].
Proof.
  intros [Hs Hr (He1 & He2 & He3) Hbd Hmax (v & Hv & Hv64)]. set (b := mkArray a (reserved_start a) hi false). set (t := reserved_start a) in *. set (l := (hi - t) / N_words - 1).
  assert (Hb : covers b) by (constructor; cbn; fold t; try done; rewrite Z.sub_diag; done). assert (Hl : 0 <= l < committed_size a) by (subst l; card_lia).
  assert (Hla : card_address t l + N_words = hi) by (subst l; card_lia).
  assert (Hrem : exists a', set_remainder_to_point_to_start b (t + N_words) hi = Some (with_array b a') /\ updated a a' (remainder 0 l)).
  { destruct (Z.eq_dec l 0) as [->|Hl0].
    - exists a. unfold set_remainder_to_point_to_start. rewrite (proj2 (Z.geb_le _ _)) by card_lia. split; [done|]. apply updated_none. intros c. unfold remainder. by replace (_ && _) with false by lia.
    - rewrite <- Hla. replace (t + N_words) with (card_address (start b) 0 + N_words) by (change (start b) with t; card_lia). apply (set_remainder_ok b Hb 0 l v); cbn; fold t; try done; card_lia. }
  destruct Hrem as (a1 & E & Hu1). pose proof Hu1 as (_ & _ & Hsize1 & _). destruct (set_offset_ok a1 0 0) as (a2 & E' & Hu2); [lia|].
  exists (NonContig.mkNonContig (with_array b a2) t). pose proof (updated_trans _ _ _ _ _ Hu1 Hu2) as Hu. pose proof Hu as (E1 & E2 & E3 & Hent). fold t in E1.
  assert (Hex : exact (with_array b a2) [hi - t]).
  { intros x y c w. cbn. fold t. rewrite E1. rewrite list_elem_of_singleton. replace (t + (hi - t)) with hi by lia. intros [= -> ->] Hw.
    pose proof (block_entries_dom _ _ _ _ _ He1 Hw) as Hd. destruct (block_entries_at _ _ _ _ Hd) as [Hf Ew]. rewrite Ew in Hw. replace (card_after t t) with 0 in * by card_lia.
    rewrite Hent. destruct (Z.eqb_spec c 0) as [->|]; [injection Hw as <-; f_equal; card_lia|]. rewrite <- Hw. unfold remainder. by replace ((0 <? c) && (c <=? l)) with true by card_lia. }
  split; [|split; [|done]].
  - unfold NonContig.new_noncontig, new_array. rewrite (proj2 (Z.leb_le _ _)) by lia. cbn [negb]. fold t b. rewrite E. cbn [mbind option_bind _array with_array]. by rewrite E'.
  - constructor; cbn; try done; [lia|]. apply indexed_of_exact; try done; cbn; fold t.
    + by eapply (covers_updated b).
    + repeat constructor. lia.
    + lia.
Qed.

(** ** A split that misdirects *)

(** A check that passes has seen no card that leads before the first one. *)
Lemma check_cards_back a start_card count c :
  check_cards a start_card count c = Some tt ->
  forall c' v, c <= c' < c + Z.of_nat count -> offset_array a c' = Some v -> N_words <= v <= N_words + 7 -> 0 <= c' - 16 ^ (v - N_words) < 2 ^ 64 -> start_card - 1 <= c' - 16 ^ (v - N_words).
Proof.
  revert c. induction count as [|count IH]; intros c Hcheck c' v Hc Hv Hr Hb; [lia|]. cbn [check_cards] in Hcheck. destruct (Z.eq_dec c' c) as [->|Hne].
  - rewrite Hv in Hcheck. cbn [mbind option_bind] in Hcheck. destruct (power_to_cards_back 1); [|done]. cbn [mbind option_bind] in Hcheck. case_match; [|done].
    rewrite entry_back in Hcheck by lia. cbn [mbind option_bind] in Hcheck. rewrite wrapu_id in Hcheck by (unfold is_u; lia).
    destruct (Z.geb_spec (c - 16 ^ (v - N_words)) (start_card - 1)); [lia|done].
  - refine (IH (c + 1) _ c' v _ Hv Hr Hb); [|lia]. destruct (offset_array a c); [|done]. cbn [mbind option_bind] in Hcheck. destruct (power_to_cards_back 1); [|done].
    cbn [mbind option_bind] in Hcheck. repeat (case_match; [|done]; cbn [mbind option_bind] in Hcheck). destruct (entry_to_cards_back z); [|done]. cbn [mbind option_bind] in Hcheck.
    case_match; [|done]. destruct (offset_array a _); [|done]. cbn [mbind option_bind] in Hcheck. repeat case_match; done.
Qed.

Lemma not_fit_card P g l :
  15 * 16 ^ log16 P < P -> P <= l - g -> let c := g + 16 ^ (log16 P + 1) - P in
  1 <= log16 P /\ g < c <= l /\ g - P <= c - 16 ^ log16 P < g /\ split_entries P g l c = Some (N_words + log16 P).
Proof.
  intros HP Hl c. assert (0 <= log16 P) by (unfold log16; apply Z.div_pos; [apply Z.log2_nonneg|lia]). pose proof (pow16_pos (log16 P)).
  destruct (log16_spec P) as (_ & H1 & H2); [lia|]. pose proof (pow16_succ (log16 P)). split_and!; try (subst c; lia).
  - destruct (Z.eq_dec (log16 P) 0) as [E|]; [|lia]. rewrite E in *. cbn in *. lia.
  - unfold split_entries. replace ((_ <=? c) && _ && _) with true by (subst c; lia). done.
Qed.

Section misdirect.
Context (is_in_reserved : Z -> bool) (t r lo hi : Z) (b : BlockOffsetArray) (ub : Z) (pre post : list Z) (n lsize : Z).
Hypothesis Hheap : forall p, t <= p < r -> is_in_reserved p = true.
Let s := lo + total pre.
Let m := s + lsize.
Let e := s + n.
Let f := card_after t s.
Let g := card_after t m.
Let l := card t (e - 1).
Let P := g - f.
Hypothesis Hok : nc_ok t r lo hi (NonContig.mkNonContig b ub) (pre ++ [n] ++ post).
Hypothesis Hexact : exact b (pre ++ [n] ++ post).
Hypothesis Hsize : 0 < lsize < n.
Hypothesis Hbad : 15 * 16 ^ log16 P < P /\ P <= l - g.

(** The updates, and the card that leads from the suffix to the prefix. *)
Lemma misdirect_updates : exists a' c,
  updated (_array b) a' (split_update t s m e) /\ indexed (with_array b a') (pre ++ [lsize; n - lsize] ++ post) /\
  NonContig.split_block is_in_reserved false (NonContig.mkNonContig b ub) s n lsize = Some (NonContig.mkNonContig (with_array b a') ub) /\
  NonContig.split_block is_in_reserved true (NonContig.mkNonContig b ub) s n lsize =
    (NonContig.verify_single_block is_in_reserved true (with_array b a') s m ;; NonContig.verify_single_block is_in_reserved true (with_array b a') m e ;;
     Some (NonContig.mkNonContig (with_array b a') ub)) /\
  m <= card_address t c < e /\ g < c <= l /\ 1 <= log16 P /\ offset_array a' c = Some (N_words + log16 P) /\ f <= c - 16 ^ log16 P < g.
Proof using All.
  pose proof Hok as [Ht Hr Hlo Hhi _ Hub Hi]. cbn in Ht, Hr, Hlo, Hhi, Hub, Hi. pose proof (indexed_covers _ _ Hi) as Hb. pose proof (split_bounds b pre post n lsize Hi Hsize) as (H1 & H2 & H3 & H4 & H5 & H6).
  rewrite Hlo, Ht in *. fold s in H1, H2, H3, H4, H6. assert (Hin : (s, s + n) ∈ blocks (_bottom b) (pre ++ [n] ++ post)) by (rewrite blocks_app, Hlo; cbn; fold s; set_solver).
  destruct (split_block_updates is_in_reserved true (NonContig.mkNonContig b ub) s n lsize) as (a' & Hu & Etrue); cbn [NonContig.base]; [done|lia..| |].
  { apply (verify_single_ok is_in_reserved true t r Hheap); try (done || lia). intros _ c v. by apply Hexact. }
  destruct (split_block_updates is_in_reserved false (NonContig.mkNonContig b ub) s n lsize) as (a2 & Hu2 & Efalse); cbn [NonContig.base]; [done|lia..|done|].
  cbn [NonContig.base NonContig._unallocated_block] in *. rewrite Ht in *. rewrite (updated_unique _ _ _ _ Hu2 Hu) in *.
  destruct (not_fit_card P g l) as (K1 & K2 & K3 & K4); [lia..|]. set (c := g + 16 ^ (log16 P + 1) - P) in *. exists a', c. fold m e in Hu, Etrue, Efalse. split_and!; try (done || lia).
  - apply (indexed_split b a' pre post n lsize); rewrite ?Hlo, ?Ht; done.
  - rewrite Etrue. cbn zeta. by replace (m + (n - lsize)) with e by (subst m e; lia).
  - subst g l m e. card_lia.
  - subst g l m e. card_lia.
  - destruct Hu as (_ & _ & _ & ->). unfold split_update. fold f g l. cbn zeta. fold P. rewrite (proj2 (Z.leb_le g l)) by lia. rewrite (proj2 (Z.eqb_neq c g)) by lia.
    rewrite (proj2 (Z.leb_gt P 0)), (proj2 (Z.ltb_ge _ P)) by lia. by rewrite K4.
Qed.

(** The careful search from there finds the start of the prefix, *)
Lemma misdirect_careful : exists nc' c,
  NonContig.split_block is_in_reserved false (NonContig.mkNonContig b ub) s n lsize = Some nc' /\
  m <= card_address t c < e /\ NonContig.block_start_careful false nc' (card_address t c) = Some s.
Proof using All.
  destruct misdirect_updates as (a' & c & Hu & Hi' & E & _ & Hc & Hgc & Hk & Hv & Hback). exists (NonContig.mkNonContig (with_array b a') ub), c. split; [done|]. split; [done|].
  pose proof Hok as [Ht Hr Hlo Hhi _ Hub Hi]. cbn in Ht, Hr, Hlo, Hhi, Hub, Hi. pose proof (split_bounds b pre post n lsize Hi Hsize) as (H1 & H2 & H3 & H4 & H5 & H6).
  rewrite Hlo, Ht in *. fold s m e in H1, H2, H3, H4, H6. fold f g l in H3, H4, H6. pose proof Hu as (E1 & E2 & E3 & Hent). rewrite Ht in E1. pose proof (log16_small P ltac:(lia)) as Hk6.
  assert (Hst : start (with_array b a') = t) by done. rewrite <- Hst. eapply block_start_careful_loop; [done|cbn; rewrite Hlo, E1; lia|done| |cbn; rewrite E1; lia]. rewrite Hst.
  cbn [_array with_array]. destruct (length (_offset_array a')) as [|fuel] eqn:Elen; [lia|]. cbn [NonContig.careful_loop]. rewrite Hv. cbn [mbind option_bind].
  rewrite (proj2 (Z.ltb_ge _ _)) by lia. rewrite entry_small by lia. cbn [mbind option_bind].
  replace (card_address t c - 16 ^ log16 P * N_words) with (card_address t (c - 16 ^ log16 P)) by card_lia. rewrite <- Hst. pose proof (pow16_pos (log16 P)).
  assert (Hsm : s < m) by (subst m; lia). assert (Hcm : s <= card_address t (c - 16 ^ log16 P) < m) by (subst f g; card_lia).
  apply (careful_loop_ok (with_array b a') s m); cbn [_array with_array _bottom _end]; rewrite ?E1, ?Hlo; [by destruct Hi'|done|subst m e; lia| |done|fold f; lia].
  intros c' v Hv'. pose proof (block_entries_dom _ _ _ _ _ Hsm Hv') as Hd. rewrite Hent. destruct (split_update t s m e c') as [w|] eqn:Es.
  { rewrite <- Ht in Es. subst s m e. rewrite <- Hlo in Es, Hd. apply (split_update_spec b pre post n lsize Hi Hsize) in Es as [Hg _]. rewrite Ht in Hg. card_lia. }
  assert (Hde : s <= card_address t c' < e) by (subst m e; lia). destruct (block_entries_at _ _ _ _ Hd) as [_ Ed]. destruct (block_entries_at _ _ _ _ Hde) as [_ Ee].
  apply (Hexact s e); [rewrite blocks_app, Hlo; cbn; fold s e; set_solver|]. rewrite Ht. congruence.
Qed.

(** and the check after the split fails. *)
Lemma misdirect_check : NonContig.split_block is_in_reserved true (NonContig.mkNonContig b ub) s n lsize = None.
Proof using All.
  destruct misdirect_updates as (a' & c & Hu & Hi' & _ & E & Hc & Hgc & Hk & Hv & Hback). rewrite E. clear E.
  pose proof Hok as [Ht Hr Hlo Hhi _ Hub Hi]. cbn in Ht, Hr, Hlo, Hhi, Hub, Hi. pose proof (split_bounds b pre post n lsize Hi Hsize) as (H1 & H2 & H3 & H4 & H5 & H6).
  rewrite Hlo, Ht in *. fold s m e in H1, H2, H3, H4, H6. fold f g l in H3, H4, H6. pose proof Hu as (E1 & E2 & E3 & Hent). rewrite Ht in E1. pose proof (log16_small P ltac:(lia)) as Hk6.
  destruct (NonContig.verify_single_block is_in_reserved true (with_array b a') s m); [|done]. cbn [mbind option_bind].
  enough (NonContig.verify_single_block is_in_reserved true (with_array b a') m e = None) as -> by done. unfold NonContig.verify_single_block.
  assert (Hst : start (with_array b a') = t) by done. assert (Hme : m < e) by (subst m e; lia).
  rewrite do_block_tail; [|by destruct Hi'|cbn; by rewrite E1, E2, Hr|cbn; subst m; lia|done|cbn; lia|rewrite Hst; fold g l; lia]. rewrite Hst. fold g l. cbn zeta.
  destruct (check_offset_array _ _ _ _); [|done]. cbn [mbind option_bind _array with_array].
  enough (check_all_cards a' (g + 1) l = None) as -> by done. unfold check_all_cards. destruct (Z.ltb_spec l (g + 1)); [lia|].
  destruct (offset_array a' (g + 1)) as [v|] eqn:Eg; [|done]. cbn [mbind option_bind]. destruct (Z.eqb_spec v N_words) as [->|]; [|done].
  destruct (check_cards a' (g + 1) (Z.to_nat (l - (g + 1))) (g + 1 + 1)) as [[]|] eqn:Ec; [|done]. exfalso.
  assert (c <> g + 1) by (intros ->; rewrite Hv in Eg; simplify_eq; lia). pose proof (check_cards_back _ _ _ _ Ec c (N_words + log16 P)) as Hbk.
  replace (N_words + log16 P - N_words) with (log16 P) in Hbk by lia. pose proof (pow16_pos (log16 P)). specialize (Hbk ltac:(lia) Hv). lia.
Qed.
End misdirect.

(** * Examples and properties *)

Lemma fresh600 : fresh heap600 end600.
Proof. constructor; [done|done|done|done|done|by exists 0]. Qed.

Definition example_ops : list operation :=
  [Split 0 6400; Split 0 100; Mark 0 2; Split 1 1000; Join 0 2; Allocated 0; Freed 1].
Definition example_size (x : Z) : Z := if x =? 64 then 7400 else 31000.

(** C14: In a space with free lists of at most [max_cards] (2^28) cards, after any history of
    splits, joins, marks and notes of allocation on any blocks, without any assertion
    failing when VerifyBlockOffsetArray is off, as it is by default, the search finds for
    every address below the unallocated part the start of its block.  With verification on
    the history gives the same table, or is stopped by verification; the latter only if some
    split leaves a prefix over the last part of its power of cards. *)
Theorem noncontig_history is_in_reserved block_size Use a hi ops :
  let t := reserved_start a in
  let sizes := final_sizes [hi - t] ops in
  fresh a hi -> (forall p, t <= p < reserved_end a -> is_in_reserved p = true) -> valid_ops [hi - t] ops = true ->
  (forall x y, (x, y) ∈ blocks t sizes -> block_size x = y - x) ->
  exists nc,
    (nc ← NonContig.new_noncontig a t hi; run is_in_reserved Use false nc [hi - t] ops) = Some nc /\
    (forall addr, t <= addr < hi -> (Use = true -> addr < NonContig._unallocated_block nc) ->
     exists x y, (x, y) ∈ blocks t sizes /\ x <= addr < y /\ block_start (NonContig.block_start_unsafe t block_size Use nc) (NonContig.base nc) addr = Some x) /\
    let verified := nc ← NonContig.new_noncontig a t hi; run is_in_reserved Use true nc [hi - t] ops in
    verified = Some nc \/ verified = None /\ all_fit t t [hi - t] ops = false.
Proof.
  intros t sizes Hfresh Hheap Hvalid Hsize. destruct (new_noncontig_ok a hi Hfresh) as (nc0 & E & Hok0 & Hex0). fold t in E, Hok0, Hex0.
  destruct (run_ok is_in_reserved Use false _ _ _ _ nc0 _ ops Hheap Hok0 Hvalid) as (nc & Erun & Hok & _); [done|]. exists nc. rewrite E. cbn [mbind option_bind]. split; [done|]. split.
  2:{ destruct (run is_in_reserved Use true nc0 [hi - t] ops) as [nc'|] eqn:Ev; [left|right].
      - apply run_verify in Ev. congruence.
      - split; [done|]. destruct (all_fit t t [hi - t] ops) eqn:Ef; [|done]. exfalso.
        destruct (run_ok is_in_reserved Use true _ _ _ _ nc0 _ ops Hheap Hok0 Hvalid) as (? & Ev' & _); [done|congruence]. }
  intros addr Haddr Huse. destruct nc as [b ub]. destruct Hok as [Ht _ Hlo Hhi _ _ Hi]. cbn in Ht, Hlo, Hhi, Hi, Huse. fold sizes in Hi.
  destruct (blocks_cover t sizes addr) as (x & y & Hin & Hxy); [pose proof (indexed_total _ _ Hi); lia|]. exists x, y. split; [done|]. split; [done|].
  unfold block_start. cbn [NonContig.base]. rewrite Hlo, Hhi. replace ((t <=? addr) && (addr <? hi)) with true by lia.
  rewrite <- Hlo in Hin, Hsize |- *. by apply (block_start_ok b sizes (_bottom b) block_size Hi ltac:(lia) Hsize Use ub addr x y).
Qed.

Lemma noncontig_history_witness :
  exists nc,
    (nc ← NonContig.new_noncontig heap600 64 end600; run (fun _ => true) true false nc [38400] example_ops) = Some nc /\
    forall addr, 64 <= addr < end600 -> (true = true -> addr < NonContig._unallocated_block nc) ->
    exists x y, (x, y) ∈ blocks 64 [7400; 31000] /\ x <= addr < y /\ block_start (NonContig.block_start_unsafe 64 example_size true nc) (NonContig.base nc) addr = Some x.
Proof.
  destruct (noncontig_history (fun _ => true) example_size true heap600 end600 example_ops) as (nc & E & H & _); [apply fresh600|done|done| |].
  - intros x y. by apply agrees_ok.
  - exists nc. split; [exact E|exact H].
Defined.

(** C38: If no split leaves a prefix over the last part of its power of cards, all checks of
    the history pass, with verification too; the table has exactly the entries of the blocks,
    and the careful search finds from every card the start of its block without their sizes. *)
Theorem noncontig_verified is_in_reserved Use Verify a hi ops :
  let t := reserved_start a in
  let sizes := final_sizes [hi - t] ops in
  fresh a hi -> (forall p, t <= p < reserved_end a -> is_in_reserved p = true) -> valid_ops [hi - t] ops = true -> all_fit t t [hi - t] ops = true ->
  exists nc,
    (nc ← NonContig.new_noncontig a t hi; run is_in_reserved Use Verify nc [hi - t] ops) = Some nc /\ exact (NonContig.base nc) sizes /\
    forall c, t <= card_address t c < hi -> (Use = true -> card_address t c < NonContig._unallocated_block nc) ->
    exists x y, (x, y) ∈ blocks t sizes /\ x <= card_address t c < y /\ NonContig.block_start_careful Use nc (card_address t c) = Some x.
Proof.
  intros t sizes Hfresh Hheap Hvalid Hfit. destruct (new_noncontig_ok a hi Hfresh) as (nc0 & E & Hok0 & Hex0). fold t in E, Hok0, Hex0.
  destruct (run_ok is_in_reserved Use Verify _ _ _ _ nc0 _ ops Hheap Hok0 Hvalid) as (nc & Erun & Hok & Hex); [done|]. exists nc. rewrite E. split; [done|].
  specialize (Hex Hex0 Hfit). fold sizes in Hok, Hex. split; [done|]. intros c Hc Huse. destruct nc as [b ub]. destruct Hok as [Ht _ Hlo Hhi _ _ Hi]. cbn in Ht, Hlo, Hhi, Hi, Huse, Hex.
  destruct (blocks_cover t sizes (card_address t c)) as (x & y & Hin & Hxy); [pose proof (indexed_total _ _ Hi); lia|]. exists x, y. split; [done|]. split; [done|].
  rewrite <- Hlo in Hin. rewrite <- Ht in Hxy, Huse |- *. by apply (block_start_careful_ok b sizes Use ub x y c).
Qed.

Lemma noncontig_verified_witness :
  exists nc,
    (nc ← NonContig.new_noncontig heap600 64 end600; run (fun _ => true) false true nc [38400] example_ops) = Some nc /\ exact (NonContig.base nc) [7400; 31000] /\
    forall c, 64 <= card_address 64 c < end600 -> (false = true -> card_address 64 c < NonContig._unallocated_block nc) ->
    exists x y, (x, y) ∈ blocks 64 [7400; 31000] /\ x <= card_address 64 c < y /\ NonContig.block_start_careful false nc (card_address 64 c) = Some x.
Proof. by apply (noncontig_verified (fun _ => true) false true heap600 end600 example_ops); [apply fresh600|..]. Defined.

(** A split whose prefix reaches over the last part of its power of cards and whose suffix
    has as many cards leaves a card of the suffix that leads to the prefix: the careful search
    from there returns the start of the wrong block, and verification fails. *)
Theorem split_misdirects is_in_reserved a hi ops k lsize :
  let t := reserved_start a in
  let sizes := final_sizes [hi - t] ops in
  fresh a hi -> (forall p, t <= p < reserved_end a -> is_in_reserved p = true) -> valid_ops [hi - t] ops = true -> all_fit t t [hi - t] ops = true ->
  valid_op sizes (Split k lsize) = true -> fits t t sizes (Split k lsize) = false ->
  (nc ← NonContig.new_noncontig a t hi; run is_in_reserved false true nc [hi - t] (ops ++ [Split k lsize])) = None /\
  exists nc c x y q,
    (nc ← NonContig.new_noncontig a t hi; run is_in_reserved false false nc [hi - t] (ops ++ [Split k lsize])) = Some nc /\
    (x, y) ∈ blocks t (sizes_after sizes (Split k lsize)) /\ x <= card_address t c < y /\
    NonContig.block_start_careful false nc (card_address t c) = Some q /\ q < x.
Proof.
  intros t sizes Hfresh Hheap Hvalid Hfit Hop Hbad. destruct (new_noncontig_ok a hi Hfresh) as (nc0 & E & Hok0 & Hex0). fold t in E, Hok0, Hex0.
  rewrite E. cbn [mbind option_bind]. rewrite !run_snoc. fold sizes.
  assert (Hruns : forall V, exists nc, run is_in_reserved false V nc0 [hi - t] ops = Some nc /\ nc_ok t (reserved_end a) t hi nc sizes /\ exact (NonContig.base nc) sizes).
  { intros V. destruct (run_ok is_in_reserved false V _ _ _ _ nc0 _ ops Hheap Hok0 Hvalid) as (nc & Erun & Hok & Hex); [done|]. exists nc. auto. }
  cbn [valid_op fits] in Hop, Hbad. apply andb_prop in Hop as [Hop H2]. apply andb_prop in Hop as [H1%Nat.ltb_lt H3]. destruct (lookup_lt_is_Some_2 sizes k H1) as [n Hn].
  cbn [sizes_after]. rewrite Hn in *. cbn [default id] in *. assert (Hsz : sizes = take k sizes ++ [n] ++ drop (S k) sizes) by (cbn; rewrite <- (drop_S _ _ _ Hn); by rewrite take_drop).
  split.
  - destruct (Hruns true) as ([b ub] & -> & Hok & Hex). cbn [mbind option_bind apply_op fst NonContig.base]. pose proof (nc_bottom _ _ _ _ _ _ Hok) as Hlo. cbn in Hlo. rewrite Hlo, Hn. cbn [default id].
    rewrite Hsz in Hok, Hex. eapply misdirect_check; [done|exact Hok|exact Hex|lia|lia].
  - destruct (Hruns false) as ([b ub] & -> & Hok & Hex). cbn [mbind option_bind apply_op fst NonContig.base]. pose proof (nc_bottom _ _ _ _ _ _ Hok) as Hlo. cbn in Hlo. rewrite Hlo, Hn. cbn [default id].
    rewrite Hsz in Hok, Hex. edestruct (misdirect_careful is_in_reserved t (reserved_end a) t hi b ub) as (nc' & c & -> & Hc & Hq); [done|exact Hok|exact Hex| | |].
    3:{ eexists nc', c, _, _, _. split; [done|]. split; [|split; [exact Hc|split; [exact Hq|lia]]]. rewrite blocks_app. cbn.
        replace (t + total (take k sizes) + lsize + (n - lsize)) with (t + total (take k sizes) + n) by lia. set_solver. }
    all: lia.
Qed.

Lemma split_misdirects_witness :
  (nc ← NonContig.new_noncontig heap600 64 end600; run (fun _ => true) false true nc [38400] [Split 0 16000]) = None /\
  exists nc c x y q,
    (nc ← NonContig.new_noncontig heap600 64 end600; run (fun _ => true) false false nc [38400] [Split 0 16000]) = Some nc /\
    (x, y) ∈ blocks 64 [16000; 22400] /\ x <= card_address 64 c < y /\
    NonContig.block_start_careful false nc (card_address 64 c) = Some q /\ q < x.
Proof. by apply (split_misdirects (fun _ => true) heap600 end600 [] 0 16000); [apply fresh600|..]. Defined.
