(* ===== verification/BlockOffsetContig.v ===== *)
(** * Block offset tables of contiguous spaces

    The tables of [BlockOffsetTable] for spaces whose blocks are allocated one after the
    other: the invariant with the threshold, lookups, and histories. *)

From S2P Require Import Prelude GlobalDefinitions BlockOffsetTable.
Import SharedArray OffsetArray.

Open Scope Z_scope.

(** * Tables of contiguous spaces *)

(** A card leads back to the start of a block, by powers first and by single cards then. *)
Definition leads_back_by_cards (b : BlockOffsetArray) (sizes : list Z) (c : Z) : Prop :=
  exists v, offset_array (_array b) c = Some v /\ 0 <= v <= N_words + 6 /\
    (v < N_words -> card_address (start b) c - v = _bottom b \/ exists e, (card_address (start b) c - v, e) ∈ blocks (_bottom b) sizes) /\
    (N_words <= v -> card (start b) (_bottom b) <= c - 16 ^ (v - N_words)) /\
    (v = N_words -> exists v', offset_array (_array b) (c - 1) = Some v' /\ v' <= N_words).

(** The table of a space whose allocated blocks have the given sizes.  The next card to write
    is the one after the last allocated word. *)
Record ct_ok (t r lo hi : Z) (ct : Contig.BlockOffsetArrayContigSpace) (sizes : list Z) : Prop := {
  ct_start : start (Contig.base ct) = t;
  ct_reserved : reserved_end (_array (Contig.base ct)) = r;
  ct_bottom : _bottom (Contig.base ct) = lo;
  ct_end : _end (Contig.base ct) = hi;
  ct_covers : covers (Contig.base ct);
  ct_room : lo + N_words < r /\ card t lo + 1 < committed_size (_array (Contig.base ct));
  ct_sizes : Forall (Z.lt 0) sizes;
  ct_total : lo + total sizes <= hi;
  ct_first : offset_array (_array (Contig.base ct)) 0 = Some 0;
  ct_zero : offset_array (_array (Contig.base ct)) (card t lo) = Some 0;
  ct_threshold : Contig._next_offset_threshold ct = card_address t (Contig._next_offset_index ct);
  ct_index : card t lo < Contig._next_offset_index ct;
  ct_top : card_address t (Contig._next_offset_index ct - 1) <= lo + total sizes <= card_address t (Contig._next_offset_index ct);
  ct_empty : card_address t (Contig._next_offset_index ct - 1) = lo + total sizes -> Contig._next_offset_index ct = card t lo + 1;
  ct_last : card_address t (Contig._next_offset_index ct - 1) < hi;
  ct_cards : forall c, card t lo <= c < Contig._next_offset_index ct -> leads_back_by_cards (Contig.base ct) sizes c
}.

Section contig_lookup.
Context (t r lo hi : Z) (ct : Contig.BlockOffsetArrayContigSpace) (sizes : list Z) (sp_bottom : Z) (block_size : Z -> Z).
Hypothesis Hok : ct_ok t r lo hi ct sizes.
Hypothesis Hbottom : sp_bottom <= lo.
(** The space beyond the allocated blocks is one block. *)
Context (rest : list Z).
Hypothesis Hrest : Forall (Z.lt 0) rest.
Hypothesis Htotal : lo + total (sizes ++ rest) = hi.
Hypothesis Hsize : forall x y, (x, y) ∈ blocks lo (sizes ++ rest) -> block_size x = y - x.
Let a := _array (Contig.base ct).

Lemma back_by_powers_ok fuel c v :
  card t lo <= c < Contig._next_offset_index ct -> c <= card t lo + Z.of_nat fuel -> offset_array a c = Some v ->
  exists c' v', Contig.back_by_powers sp_bottom a fuel c (card_address t c) v = Some (c', card_address t c', v') /\
    card t lo <= c' <= c /\ offset_array a c' = Some v' /\ v' <= N_words.
Proof using Hok Hbottom.
  destruct Hok as [Ht Hr Hlo Hhi Hb _ _ _ _ _ _ _ _ _ Hlast Hcards]. pose proof Hb as [_ _ [Hb1 Hb2] (He1 & He2 & He3) _]. rewrite Ht, Hlo, Hhi in *.
  revert c v. induction fuel as [|fuel IH]; intros c v Hc Hfuel Hv; cbn [Contig.back_by_powers]; destruct (Hcards c Hc) as (v0 & Hv0 & Hr0 & _ & Hhigh & _); rewrite Ht, Hlo in *.
  all: fold a in Hv0; assert (v0 = v) as -> by congruence; rewrite Z.gtb_ltb; destruct (Z.ltb_spec N_words v); [|exists c, v; split_and!; (done || lia)].
  - pose proof (pow16_pos (v - N_words)). lia.
  - specialize (Hhigh ltac:(lia)). pose proof (pow16_pos (v - N_words)). unfold go_back. rewrite entry_back by lia. cbn [mbind option_bind].
    rewrite (proj2 (Z.leb_le _ _)) by card_lia. destruct (Hcards (c - 16 ^ (v - N_words))) as (v1 & Hv1 & _); [lia|]. fold a in Hv1. rewrite Hv1. cbn [mbind option_bind].
    replace (card_address t c - N_words * 16 ^ (v - N_words)) with (card_address t (c - 16 ^ (v - N_words))) by card_lia.
    destruct (IH (c - 16 ^ (v - N_words)) v1) as (c' & v' & -> & ? & ? & ?); [lia|lia|done|]. eexists c', v'. split_and!; (done || lia).
Qed.

Lemma back_by_cards_ok fuel c v :
  card t lo <= c < Contig._next_offset_index ct -> c <= card t lo + Z.of_nat fuel -> offset_array a c = Some v -> v <= N_words ->
  exists q offset, Contig.back_by_cards sp_bottom a fuel c (card_address t c) v = Some (q, offset) /\ offset < N_words /\
    q - offset <= card_address t c /\ (q - offset = lo \/ exists e, (q - offset, e) ∈ blocks lo sizes).
Proof using Hok Hbottom.
  destruct Hok as [Ht Hr Hlo Hhi Hb _ _ _ _ _ _ _ _ _ Hlast Hcards]. pose proof Hb as [_ _ [Hb1 Hb2] (He1 & He2 & He3) _]. rewrite Ht, Hlo, Hhi in *.
  revert c v. induction fuel as [|fuel IH]; intros c v Hc Hfuel Hv Hv64; cbn [Contig.back_by_cards]; destruct (Hcards c Hc) as (v0 & Hv0 & Hr0 & Hlow & Hhigh & Hprev); rewrite Ht, Hlo in *.
  all: fold a in Hv0; assert (v0 = v) as -> by congruence; destruct (Z.eqb_spec v N_words) as [->|]; [|eexists _, v; split_and!; [done|lia|lia|by apply Hlow; lia]].
  - specialize (Hhigh ltac:(lia)). cbn in Hhigh. lia.
  - specialize (Hhigh ltac:(lia)). replace (16 ^ (N_words - N_words)) with 1 in Hhigh by done. rewrite (proj2 (Z.leb_le _ _)) by card_lia. destruct (Hprev eq_refl) as (v' & Hv' & Hv64').
    fold a in Hv'. rewrite Hv'. cbn [mbind option_bind]. replace (card_address t c - N_words) with (card_address t (c - 1)) by card_lia.
    destruct (IH (c - 1) v') as (q & offset & -> & ? & ? & ?); [lia|lia|done|done|]. eexists q, offset. split_and!; try done. card_lia.
Qed.

Lemma contig_block_start_ok x y addr :
  (x, y) ∈ blocks lo (sizes ++ rest) -> x <= addr < y -> Contig.block_start_unsafe sp_bottom block_size ct addr = Some x.
Proof using All.
  intros Hin Hxy. pose proof Hok as [Ht Hr Hlo Hhi Hb _ Hpos Htot Hfirst _ _ Hidx Htop _ Hlast Hcards]. pose proof Hb as [_ _ [Hb1 Hb2] (He1 & He2 & He3) Hmax].
  assert (Hpos2 : Forall (Z.lt 0) (sizes ++ rest)) by (by apply Forall_app). pose proof (blocks_range _ _ _ _ Hpos2 Hin).
  unfold Contig.block_start_unsafe. rewrite Hfirst. cbn [mbind option_bind Z.eqb]. rewrite Hlo, Hhi in *. replace ((lo <=? addr) && (addr <? hi)) with true by lia.
  destruct (index_for_ok _ Hb addr) as [-> Hi]; [lia|]. cbn [mbind option_bind]. rewrite Ht in *. rewrite wrapu_id by (unfold is_u; card_lia).
  set (c := MIN2 (card t addr) (Contig._next_offset_index ct - 1)). assert (Hc : card t lo <= c < Contig._next_offset_index ct /\ c <= card t addr).
  { subst c. unfold MIN2. destruct (Z.ltb_spec (card t addr) (Contig._next_offset_index ct - 1)); card_lia. }
  rewrite address_for_index_ok by (done || rewrite ?Ht, ?Hhi; card_lia). cbn [mbind option_bind]. rewrite Ht. destruct (Hcards c) as (v & Hv & _); [lia|]. rewrite Hv. cbn [mbind option_bind]. fold a.
  destruct (back_by_powers_ok (length (_offset_array a)) c v) as (c' & v' & -> & Hc' & Hv' & Hv64); [lia|subst a; card_lia|done|]. cbn [mbind option_bind].
  destruct (back_by_cards_ok (length (_offset_array a)) c' v') as (q & offset & -> & Ho & Hq & Hst); [lia|subst a; card_lia|done|done|]. cbn [mbind option_bind].
  eapply finish_ok; try done; [|card_lia|lia]. destruct Hst as [->|[e He]]; [|exists e; rewrite blocks_app; apply elem_of_app; by left].
  destruct (sizes ++ rest) as [|n l]; [cbn in Hin; set_solver|]. exists (lo + n). cbn. set_solver.
Qed.

Lemma contig_block_start_in addr :
  lo <= addr < hi -> exists x y, (x, y) ∈ blocks lo (sizes ++ rest) /\ x <= addr < y /\
    block_start (Contig.block_start_unsafe sp_bottom block_size ct) (Contig.base ct) addr = Some x.
Proof using All.
  intros Haddr. destruct (blocks_cover lo (sizes ++ rest) addr) as (x & y & Hin & Hxy); [lia|]. exists x, y. split; [done|]. split; [done|].
  unfold block_start. rewrite (ct_bottom _ _ _ _ _ _ Hok), (ct_end _ _ _ _ _ _ Hok). replace ((lo <=? addr) && (addr <? hi)) with true by lia. by apply (contig_block_start_ok x y).
Qed.

(** Verification finds valid blocks only. *)
Lemma contig_verify_ok valid :
  valid 0 = true -> (forall x y, (x, y) ∈ blocks lo (sizes ++ rest) -> valid x = true) ->
  verify (Contig.block_start_unsafe sp_bottom block_size ct) valid (Contig.base ct) (Contig.last_active_index ct) = Some tt.
Proof using All.
  intros Hnull Hvalid. pose proof Hok as [Ht Hr Hlo Hhi Hb Hrm Hpos Htot Hfirst _ _ Hidx Htop _ Hlast _]. pose proof Hb as [_ _ [Hb1 Hb2] (He1 & He2 & He3) Hmax]. rewrite Ht, Hlo, Hhi in *.
  assert (Hidx0 : 0 <= card t lo) by card_lia. unfold verify, Contig.last_active_index. rewrite wrapu_id by (unfold is_u; card_lia).
  assert (Hloop : forall count next, 1 <= next -> next + Z.of_nat count <= Contig._next_offset_index ct ->
    verify_loop (Contig.block_start_unsafe sp_bottom block_size ct) valid (Contig.base ct) count next = Some tt).
  { induction count as [|count IH]; intros next Hnext Hcount; [done|]. cbn [verify_loop].
    rewrite address_for_index_ok by (done || rewrite ?Ht, ?Hhi; card_lia). cbn [mbind option_bind]. rewrite Ht, Hhi, Z.geb_leb. destruct (Z.leb_spec hi (card_address t next + 1)); [done|].
    destruct (Z.lt_ge_cases (card_address t next + 1) lo).
    - unfold block_start. rewrite Hlo. rewrite (proj2 (Z.leb_gt _ _)) by lia. cbn [andb mbind option_bind]. rewrite Hnull. apply IH; lia.
    - destruct (contig_block_start_in (card_address t next + 1)) as (x & y & Hin & _ & ->); [lia|]. cbn [mbind option_bind]. rewrite (Hvalid _ _ Hin). apply IH; lia. }
  apply Hloop; lia.
Qed.
End contig_lookup.

(** What the allocation of a block that ends beyond the threshold writes. *)
Definition contig_entries (t idx l s c : Z) : option Z :=
  if c =? idx then Some (card_address t idx - s) else remainder idx l c.

Lemma check_marked_ok a count j :
  (forall c, j <= c < j + Z.of_nat count -> exists v, offset_array a c = Some v /\ 0 < v <= N_words + 6) -> Contig.check_marked a count j = Some tt.
Proof.
  revert j. induction count as [|count IH]; intros j Hcards; [done|]. cbn [Contig.check_marked]. destruct (Hcards j) as (v & -> & Hv); [lia|]. cbn [mbind option_bind].
  rewrite wrapu_id by (unfold is_u; lia). replace ((0 <? v) && (v <=? N_words + N_powers - 1)) with true by lia. apply IH. intros c Hc. apply Hcards. lia.
Qed.

Section contig_step.
Context (is_in_reserved : Z -> bool) (t r lo hi : Z) (ct : Contig.BlockOffsetArrayContigSpace) (sizes : list Z) (n : Z).
Hypothesis Hheap : forall p, t <= p < r -> is_in_reserved p = true.
Hypothesis Hok : ct_ok t r lo hi ct sizes.
Hypothesis Hn : 0 < n.
Let b := Contig.base ct.
Let s := lo + total sizes.
Let e := s + n.
Let idx := Contig._next_offset_index ct.
Let l := card t (e - 1).
Hypothesis Hroom : e <= hi.

Lemma contig_bounds : 0 <= card t lo < idx /\ t <= lo <= s /\ card_address t (idx - 1) <= s <= card_address t idx /\ l < committed_size (_array b) /\
  card_address t l < hi /\ committed_size (_array b) <= max_cards /\ hi <= r /\ 0 < t /\ lo = card_address t (card t lo).
Proof using Hok Hn Hroom.
  destruct Hok as [Ht Hr Hlo Hhi Hb _ Hpos _ _ _ _ Hidx Htop _ Hlast _]. pose proof Hb as [[Hp _] _ [Hb1 Hb2] (He1 & He2 & He3) Hmax]. pose proof (total_length _ Hpos). rewrite Ht, Hlo, Hhi, Hr in *.
  fold idx in Hidx, Htop. fold s in Htop. fold b in He2, He3, Hmax. split_and!; try (subst s e l; card_lia).
Qed.

(** The blocks before the new one keep their starts. *)
Lemma leads_back_app b' c : _bottom b' = lo -> leads_back_by_cards b' sizes c -> leads_back_by_cards b' (sizes ++ [n]) c.
Proof using.
  intros Hlo (v & Hv & Hr & Hlow & Hrest). exists v. split; [done|]. split; [done|]. split; [|done]. intros Hv64. destruct (Hlow Hv64) as [|[y Hin]]; [by left|right]. exists y. rewrite blocks_app. apply elem_of_app. by left.
Qed.

(** The new cards. *)
Lemma new_cards_ok a' c :
  updated (_array b) a' (contig_entries t idx l s) -> idx <= c <= l -> leads_back_by_cards (with_array b a') (sizes ++ [n]) c.
Proof using Hok Hn Hroom.
  intros Hu Hc. pose proof contig_bounds as (H1 & H2 & H3 & H4 & H5 & H6 & H7 & H8 & H9). pose proof Hu as (E1 & E2 & E3 & Hent). pose proof Hok as [Ht Hr Hlo Hhi Hb _ _ _ _ Hzero _ _ _ Hempty _ _].
  fold b idx s in Ht, Hr, Hlo, Hhi, Hb, Hzero, Hempty. unfold leads_back_by_cards. cbn [_array with_array _bottom]. rewrite E1, Ht, Hlo.
  assert (Hin : (s, e) ∈ blocks lo (sizes ++ [n])) by (rewrite blocks_app; cbn; fold s e; apply elem_of_app; right; by apply list_elem_of_singleton).
  destruct (Z.eq_dec c idx) as [->|Hne].
  - exists (card_address t idx - s). rewrite !Hent. unfold contig_entries at 1. rewrite Z.eqb_refl. assert (card_address t idx - s <= N_words) by card_lia. split_and!; [done|lia|lia|..].
    + intros _. right. exists e. by replace (card_address t idx - (card_address t idx - s)) with s by lia.
    + intros Hv. replace (card_address t idx - s - N_words) with 0 by lia. lia.
    + intros Hv. exists 0. split; [|lia]. assert (idx = card t lo + 1) as E by (apply Hempty; card_lia). replace (idx - 1) with (card t lo) by lia. unfold contig_entries, remainder.
      rewrite (proj2 (Z.eqb_neq _ _)) by lia. by replace ((idx <? card t lo) && _) with false by lia.
  - destruct (log16_spec (c - idx)) as (K0 & K1 & K2); [lia|]. pose proof (log16_small (c - idx) ltac:(lia)). exists (N_words + log16 (c - idx)). rewrite !Hent. unfold contig_entries, remainder.
    rewrite (proj2 (Z.eqb_neq c idx)) by lia. replace ((idx <? c) && (c <=? l)) with true by lia. split_and!; [done|lia|lia|lia|..].
    + intros _. replace (N_words + log16 (c - idx) - N_words) with (log16 (c - idx)) by lia. lia.
    + intros Hv. destruct (Z.eqb_spec (c - 1) idx) as [E|]; [exists (card_address t idx - s); split; [done|card_lia]|].
      replace ((idx <? c - 1) && (c - 1 <=? l)) with true by lia. eexists. split; [done|]. pose proof (log16_mono (c - 1 - idx) (c - idx) ltac:(lia)). lia.
Qed.

(** The table after these writes, with the threshold after the last card. *)
Lemma contig_writes_ok a' :
  card_address t idx < e -> updated (_array b) a' (contig_entries t idx l s) ->
  ct_ok t r lo hi (Contig.mkContig (with_array b a') (card_address t l + N_words) (l + 1)) (sizes ++ [n]).
Proof using Hok Hn Hroom.
  intros HT Hu. pose proof contig_bounds as (H1 & H2 & H3 & H4 & H5 & H6 & H7 & H8 & H9). pose proof Hu as (E1 & E2 & E3 & Hent). pose proof Hok as [Ht Hr Hlo Hhi Hb Hrm Hpos Htot Hfirst Hzero Hth Hidx Htop Hempty Hlast Hcards].
  fold b idx s in Ht, Hr, Hlo, Hhi, Hb, Hrm, Hfirst, Hzero, Hth, Hidx, Htop, Hempty, Hlast, Hcards. assert (Hil : idx <= l) by (subst l; card_lia).
  assert (Hkeep : forall c, c < idx -> offset_array a' c = offset_array (_array b) c).
  { intros c Hc. rewrite Hent. unfold contig_entries, remainder. rewrite (proj2 (Z.eqb_neq _ _)) by lia. by replace ((idx <? c) && _) with false by lia. }
  assert (Hsum : lo + total (sizes ++ [n]) = e) by (rewrite total_sizes_app; cbn; subst e s; lia).
  constructor; cbn [Contig.base Contig._next_offset_index Contig._next_offset_threshold _array with_array _bottom _end]; rewrite ?Hsum; try (done || congruence).
  - by eapply covers_updated.
  - apply Forall_app. split; [done|]. by repeat constructor.
  - rewrite Hkeep by lia. done.
  - rewrite Hkeep by lia. done.
  - card_lia.
  - lia.
  - subst l. card_lia.
  - subst l. card_lia.
  - by replace (l + 1 - 1) with l by lia.
  - intros c Hc. destruct (Z.lt_ge_cases c idx); [|apply new_cards_ok; [done|lia]]. apply leads_back_app; [done|]. destruct (Hcards c) as (v & Hv & Hrest); [lia|]. exists v.
    cbn [_array with_array _bottom]. rewrite E1, !Hkeep by lia. done.
Qed.

(** [alloc_block] of the next block succeeds. *)
Lemma contig_work_ok : card_address t idx < e ->
  exists a', Contig.alloc_block_work is_in_reserved ct s e = Some (Contig.mkContig (with_array b a') (card_address t l + N_words) (l + 1)) /\
    updated (_array b) a' (contig_entries t idx l s).
Proof using All.
  intros HT. pose proof contig_bounds as (H1 & H2 & H3 & H4 & H5 & H6 & H7 & H8 & H9). pose proof Hok as [Ht Hr Hlo Hhi Hb _ _ _ _ _ Hth _ _ _ _ _]. fold b idx in Ht, Hr, Hlo, Hhi, Hb, Hth.
  assert (Hil : idx <= l) by (subst l; card_lia). unfold Contig.alloc_block_work. rewrite Hth. fold b idx. rewrite Ht.
  replace (negb (s =? 0) && (s <? e)) with true by (subst e; lia). rewrite (proj2 (Z.ltb_lt _ e)), (proj2 (Z.leb_le s _)) by lia. rewrite (proj2 (Z.leb_le _ N_words)) by card_lia.
  rewrite !Hheap by (subst e; lia). rewrite (proj2 (Z.eqb_eq _ _)) by card_lia.
  destruct (set_distance_ok (_array b) idx (card_address t idx) s) as (a1 & -> & Hu1); [lia|card_lia|]. cbn [mbind option_bind _array with_array].
  rewrite (updated_index _ _ _ _ Hu1). destruct (index_for_ok b Hb (e - 1)) as [-> _]; [rewrite Ht; subst e; lia|]. cbn [mbind option_bind]. rewrite Ht. fold l.
  pose proof (covers_updated _ _ _ Hb Hu1) as Hb'. pose proof Hu1 as (E1 & E2 & E3 & Hent1). rewrite Ht in E1.
  assert (Hrem : exists a', (if idx + 1 <=? l then rem_st ← address_for_index a1 (idx + 1); rem_end ← address_for_index a1 l; set_remainder_to_point_to_start (with_array b a1) rem_st (rem_end + N_words)
      else Some (with_array b a1)) = Some (with_array b a') /\ updated a1 a' (remainder idx l)).
  { destruct (Z.leb_spec (idx + 1) l).
    - rewrite !(updated_address _ _ _ _ Hu1), !(address_for_index_ok b) by (done || rewrite ?Ht, ?Hhi; card_lia). cbn [mbind option_bind]. rewrite Ht.
      destruct (set_remainder_ok (with_array b a1) Hb' idx l (card_address t idx - s)) as (a' & E & Hu'); cbn [_array with_array _bottom _end] in *; rewrite ?E1, ?E3, ?Hlo, ?Hhi; try (done || lia || card_lia).
      + rewrite Hent1. by rewrite Z.eqb_refl.
      + exists a'. split; [|done]. rewrite E1 in E. replace (card_address t (idx + 1)) with (card_address t idx + N_words) by card_lia. done.
    - exists a1. split; [done|]. apply updated_none. intros c. unfold remainder. by replace ((idx <? c) && (c <=? l)) with false by lia. }
  destruct Hrem as (a' & -> & Hu2). cbn [mbind option_bind _array with_array]. pose proof (updated_trans _ _ _ _ _ Hu1 Hu2) as Hu.
  assert (Hue : updated (_array b) a' (contig_entries t idx l s)).
  { eapply updated_ext; [|exact Hu]. intros c. cbn. unfold contig_entries, remainder. destruct (Z.eqb_spec c idx) as [->|]; [by replace ((idx <? idx) && _) with false by lia|]. by destruct (_ && _). }
  rewrite !(updated_address _ _ _ _ Hue), !(updated_index _ _ _ _ Hue). rewrite (address_for_index_ok b) by (done || rewrite ?Ht, ?Hhi; card_lia). cbn [mbind option_bind]. rewrite Ht.
  rewrite (proj2 (Z.leb_le e _)) by (subst l; card_lia). destruct (index_for_ok b Hb s) as [-> Hs]; [rewrite Ht; subst e; lia|]. cbn [mbind option_bind]. rewrite Ht in *.
  rewrite !(updated_address _ _ _ _ Hue), (address_for_index_ok b) by (done || rewrite ?Ht, ?Hhi; subst e; card_lia). cbn [mbind option_bind]. rewrite Ht.
  pose proof Hue as (_ & _ & _ & Hent). rewrite Hent. unfold contig_entries at 1. rewrite Z.eqb_refl. cbn [mbind option_bind].
  replace (_ || _) with true by card_lia. rewrite check_marked_ok; [by exists a'|].
  intros c Hc. rewrite Hent. unfold contig_entries, remainder. rewrite (proj2 (Z.eqb_neq c idx)) by lia. replace ((idx <? c) && (c <=? l)) with true by lia. eexists. split; [done|].
  pose proof (log16_small (c - idx) ltac:(lia)). lia.
Qed.

Lemma contig_alloc_ok : exists ct', Contig.alloc_block is_in_reserved ct s e = Some ct' /\ ct_ok t r lo hi ct' (sizes ++ [n]) /\
  committed_size (_array (Contig.base ct')) = committed_size (_array b) /\ _init_to_zero (Contig.base ct') = _init_to_zero b.
Proof using All.
  pose proof Hok as [Ht Hr Hlo Hhi Hb Hrm Hpos Htot Hfirst Hzero Hth Hidx Htop Hempty Hlast Hcards]. unfold Contig.alloc_block. rewrite Hth, Z.gtb_ltb. fold idx. destruct (Z.ltb_spec (card_address t idx) e) as [HT|HT].
  - destruct contig_work_ok as (a' & -> & Hu); [done|]. eexists. split; [done|]. split; [by apply contig_writes_ok|]. split; [by destruct Hu as (_ & _ & E3 & _)|done].
  - exists ct. split; [done|]. split; [|done]. assert (Hsum : lo + total (sizes ++ [n]) = e) by (rewrite total_sizes_app; cbn; subst e s; lia).
    fold idx s in Htop, Hempty.
    constructor; rewrite ?Hsum; fold idx; try done; [|subst e; lia|subst e; lia|].
    + apply Forall_app. split; [done|]. by repeat constructor.
    + intros c Hc. apply leads_back_app; [done|]. by apply Hcards.
Qed.
End contig_step.

(** ** Histories of a contiguous space *)

(** Allocating the next block, forgetting all blocks, and moving the end of the space. *)
Inductive contig_operation :=
| Allocate (n : Z)
| Clear
| Resize (new_word_size : Z).

(** The sizes of the blocks and the end of the space after an operation. *)
Definition contig_after (lo : Z) (st : list Z * Z) (op : contig_operation) : list Z * Z :=
  match op with
  | Allocate n => (st.1 ++ [n], st.2)
  | Clear => ([], st.2)
  | Resize w => (st.1, lo + w)
  end.

(** The space lies between [lo] and [limit]. *)
Definition contig_valid (lo limit : Z) (st : list Z * Z) (op : contig_operation) : bool :=
  match op with
  | Allocate n => (0 <? n) && (lo + total st.1 + n <=? st.2)
  | Clear => true
  | Resize w => (0 <? w) && (total st.1 <=? w) && (lo + w <=? limit)
  end.

Fixpoint contig_valids (lo limit : Z) (st : list Z * Z) (ops : list contig_operation) : bool :=
  match ops with
  | [] => true
  | op :: ops => contig_valid lo limit st op && contig_valids lo limit (contig_after lo st op) ops
  end.

Definition contig_apply (is_in_reserved : Z -> bool) (ct : Contig.BlockOffsetArrayContigSpace) (sizes : list Z) (op : contig_operation)
    : option Contig.BlockOffsetArrayContigSpace :=
  match op with
  | Allocate n => let s := _bottom (Contig.base ct) + total sizes in Contig.alloc_block is_in_reserved ct s (s + n)
  | Clear => Contig.initialize_threshold ct
  | Resize w => b ← resize (Contig.base ct) w; Some (Contig.mkContig b (Contig._next_offset_threshold ct) (Contig._next_offset_index ct))
  end.

Fixpoint contig_run (is_in_reserved : Z -> bool) (ct : Contig.BlockOffsetArrayContigSpace) (st : list Z * Z) (ops : list contig_operation)
    : option Contig.BlockOffsetArrayContigSpace :=
  match ops with
  | [] => Some ct
  | op :: ops =>
      ct ← contig_apply is_in_reserved ct st.1 op;
      contig_run is_in_reserved ct (contig_after (_bottom (Contig.base ct)) st op) ops
  end.

(** What stays the same: the sizes of the table and of the reserved memory. *)
Definition ct_state (t r lo k : Z) (ct : Contig.BlockOffsetArrayContigSpace) (st : list Z * Z) : Prop :=
  ct_ok t r lo st.2 ct st.1 /\ committed_size (_array (Contig.base ct)) = k /\ _init_to_zero (Contig.base ct) = true.

(** The threshold of an empty space. *)
Lemma initialize_threshold_ok t r lo hi ct :
  start (Contig.base ct) = t -> reserved_end (_array (Contig.base ct)) = r -> _bottom (Contig.base ct) = lo -> _end (Contig.base ct) = hi ->
  covers (Contig.base ct) -> lo + N_words < r -> card t lo + 1 < committed_size (_array (Contig.base ct)) ->
  offset_array (_array (Contig.base ct)) 0 = Some 0 -> offset_array (_array (Contig.base ct)) (card t lo) = Some 0 ->
  exists ct', Contig.initialize_threshold ct = Some ct' /\ Contig.base ct' = Contig.base ct /\ ct_ok t r lo hi ct' [].
Proof.
  intros Ht Hr Hlo Hhi Hb Hroom Hk Hfirst Hzero. pose proof Hb as [_ _ [Hb1 Hb2] (He1 & He2 & He3) Hmax]. unfold Contig.initialize_threshold. rewrite Ht, Hlo, Hhi, Hr in *.
  destruct (index_for_ok _ Hb lo) as [-> _]; [rewrite Ht, Hhi; lia|]. cbn [mbind option_bind]. rewrite Ht.
  assert (address_for_index (_array (Contig.base ct)) (card t lo + 1) = Some (card_address t (card t lo + 1))) as ->.
  { unfold address_for_index. rewrite Ht, Hr, Z.shiftl_mul_pow2 by done. change (2 ^ LogN_words) with N_words. rewrite (proj2 (Z.ltb_lt _ _)) by lia.
    replace (t + (card t lo + 1) * N_words) with (card_address t (card t lo + 1)) by card_lia. by replace (_ && _) with true by card_lia. }
  cbn [mbind option_bind]. eexists. split; [done|]. split; [done|].
  constructor; cbn [Contig.base Contig._next_offset_index Contig._next_offset_threshold total foldr]; try done; try card_lia.
  intros c Hc. assert (c = card t lo) as -> by lia. exists 0. rewrite Ht, Hlo. split; [done|]. split; [lia|]. split; [|lia]. intros _. left. card_lia.
Qed.

Lemma contig_apply_ok is_in_reserved t r lo k ct st op :
  (forall p, t <= p < r -> is_in_reserved p = true) -> ct_state t r lo k ct st -> contig_valid lo (Z.min r (t + N_words * k)) st op = true ->
  exists ct', contig_apply is_in_reserved ct st.1 op = Some ct' /\ ct_state t r lo k ct' (contig_after lo st op).
Proof.
  intros Hheap (Hok & Hk & Hinit) Hvalid. destruct st as [sizes hi]. cbn [fst snd] in *. pose proof Hok as [Ht Hr Hlo Hhi Hb Hrm Hpos Htot Hfirst Hzero Hth Hidx Htop Hempty Hlast Hcards].
  destruct op as [n| |w]; cbn [contig_valid contig_apply contig_after fst snd] in *.
  - destruct (contig_alloc_ok is_in_reserved t r lo hi ct sizes n) as (ct' & E & Hok' & Hk' & Hi'); [done|done|lia|lia|].
    rewrite Hlo, E. exists ct'. split; [done|]. split; [done|]. split; congruence.
  - destruct (initialize_threshold_ok t r lo hi ct) as (ct' & -> & Hbase & Hok'); try done; [lia..|]. exists ct'. split; [done|]. split; [done|]. by rewrite Hbase.
  - unfold resize. rewrite Hinit, andb_false_r. cbn [mbind option_bind]. eexists. split; [done|]. split; [|done]. pose proof Hb as [Hc1 Hc2 Hc3 (He1 & He2 & He3) Hc5]. rewrite Hlo, Hhi, Ht, Hr in *.
    constructor; cbn; try done; try lia.
    + constructor; cbn; rewrite ?Ht, ?Hr, ?Hlo; try done; lia.
    + unfold total in *. lia.
    + destruct (Z.eq_dec (card_address t (Contig._next_offset_index ct - 1)) (lo + total sizes)) as [E|]; [|lia]. rewrite (Hempty E). card_lia.
    + intros c Hc. destruct (Hcards c Hc) as (v & Hv). exists v. cbn. by rewrite Hlo in Hv.
Qed.

Lemma contig_run_ok is_in_reserved t r lo k ct st ops :
  (forall p, t <= p < r -> is_in_reserved p = true) -> ct_state t r lo k ct st -> contig_valids lo (Z.min r (t + N_words * k)) st ops = true ->
  exists ct', contig_run is_in_reserved ct st ops = Some ct' /\ ct_state t r lo k ct' (fold_left (contig_after lo) ops st).
Proof.
  intros Hheap. revert ct st. induction ops as [|op ops IH]; intros ct st Hst Hvalid; [by exists ct|]. cbn in Hvalid |- *. apply andb_prop in Hvalid as [Hv1 Hv2].
  destruct (contig_apply_ok is_in_reserved t r lo k ct st op) as (ct' & -> & Hst'); [done..|]. cbn [mbind option_bind]. assert (_bottom (Contig.base ct') = lo) as -> by (by destruct Hst' as [[] _]). by apply IH.
Qed.

Lemma contig_new_ok a lo hi :
  covers (mkArray a lo hi true) -> lo + N_words < Z.min (reserved_end a) (reserved_start a + N_words * committed_size a) ->
  (lo = reserved_start a \/ offset_array a 0 = Some 0) ->
  exists ct0 ct1 ct2, Contig.new_contig a lo hi = Some ct0 /\ Contig.zero_bottom_entry ct0 = Some ct1 /\ Contig.initialize_threshold ct1 = Some ct2 /\
    ct_state (reserved_start a) (reserved_end a) lo (committed_size a) ct2 ([], hi).
Proof.
  intros Hb Hroom Hzero. set (t := reserved_start a) in *. pose proof Hb as [_ _ [Hb1 Hb2] (He1 & He2 & He3) _]. cbn in Hb1, Hb2, He1, He2, He3. fold t in Hb1, Hb2, He3.
  unfold Contig.new_contig, new_array. rewrite (proj2 (Z.leb_le _ _)) by lia. cbn [negb mbind option_bind].
  exists (Contig.mkContig (mkArray a lo hi true) 0 0). unfold Contig.zero_bottom_entry. cbn [Contig.base _array _bottom Contig._next_offset_threshold Contig._next_offset_index].
  destruct (index_for_ok _ Hb lo) as [Ei Hi]; [cbn; fold t; lia|]. cbn in Ei, Hi. fold t in Ei, Hi. destruct (set_offset_ok a (card t lo) 0 Hi) as (a' & E & Hu).
  pose proof Hu as (E1 & E2 & E3 & Hent). fold t in E1. rewrite Ei. cbn [mbind option_bind]. rewrite E. cbn [mbind option_bind].
  exists (Contig.mkContig (with_array (mkArray a lo hi true) a') 0 0). edestruct (initialize_threshold_ok t (reserved_end a) lo hi) as (ct2 & E' & Hbase & Hok); [..|exists ct2; split; [done|]; split; [done|]; split; [exact E'|]; split; [exact Hok|]].
  all: cbn [Contig.base _array with_array _bottom _end] in *; try done.
  - by eapply (covers_updated (mkArray a lo hi true)).
  - lia.
  - rewrite E3. card_lia.
  - rewrite Hent. destruct (Z.eqb_spec 0 (card t lo)); [done|]. destruct Hzero as [->|]; [card_lia|done].
  - rewrite Hent. by rewrite Z.eqb_refl.
  - rewrite Hbase. done.
Qed.

(** * Examples and properties *)

Definition contig_ops : list contig_operation := [Allocate 100; Allocate 30; Clear; Resize 38000; Allocate 500; Allocate 7].
Definition contig_size (x : Z) : Z := if x =? 64 then 500 else if x =? 564 then 7 else 37493.

(** C15: In a contiguous space, after any history of allocations, clearings and moves of its
    end, no assertion fails; for every address of the space, beyond the allocated blocks too,
    the start of its block is found, for an address outside none is; verification passes. *)
Theorem contig_history is_in_reserved block_size valid a lo hi ops rest :
  let t := reserved_start a in
  let limit := Z.min (reserved_end a) (t + N_words * committed_size a) in
  let st := fold_left (contig_after lo) ops ([], hi) in
  covers (mkArray a lo hi true) -> lo + N_words < limit -> (lo = t \/ offset_array a 0 = Some 0) ->
  (forall p, t <= p < reserved_end a -> is_in_reserved p = true) -> contig_valids lo limit ([], hi) ops = true ->
  Forall (Z.lt 0) rest -> lo + total (st.1 ++ rest) = st.2 -> (forall x y, (x, y) ∈ blocks lo (st.1 ++ rest) -> block_size x = y - x /\ valid x = true) -> valid 0 = true ->
  exists ct,
    (ct ← Contig.new_contig a lo hi; ct ← Contig.zero_bottom_entry ct; ct ← Contig.initialize_threshold ct; contig_run is_in_reserved ct ([], hi) ops) = Some ct /\
    let find := Contig.block_start_unsafe lo block_size ct in
    (forall addr, lo <= addr < st.2 -> exists x y, (x, y) ∈ blocks lo (st.1 ++ rest) /\ x <= addr < y /\ block_start find (Contig.base ct) addr = Some x) /\
    (forall addr, addr < lo \/ st.2 <= addr -> block_start find (Contig.base ct) addr = Some 0) /\
    verify find valid (Contig.base ct) (Contig.last_active_index ct) = Some tt.
Proof.
  intros t limit st Hcov Hroom Hzero Hheap Hvalid Hrest Htot Hsize Hnull. destruct (contig_new_ok a lo hi Hcov Hroom Hzero) as (ct0 & ct1 & ct2 & E0 & E1 & E2 & Hst).
  destruct (contig_run_ok is_in_reserved t (reserved_end a) lo (committed_size a) ct2 ([], hi) ops) as (ct & E & Hok & _); [done..|]. fold st in Hok.
  exists ct. rewrite E0. cbn [mbind option_bind]. rewrite E1. cbn [mbind option_bind]. rewrite E2. cbn [mbind option_bind]. split; [done|].
  split_and!.
  - intros addr Haddr. eapply contig_block_start_in; try done. naive_solver.
  - intros addr Haddr. unfold block_start. rewrite (ct_bottom _ _ _ _ _ _ Hok), (ct_end _ _ _ _ _ _ Hok). by replace ((lo <=? addr) && (addr <? st.2)) with false by lia.
  - eapply contig_verify_ok; try done; naive_solver.
Qed.

Lemma contig_history_witness :
  exists ct,
    (ct ← Contig.new_contig heap600 64 704; ct ← Contig.zero_bottom_entry ct; ct ← Contig.initialize_threshold ct;
     contig_run (fun _ => true) ct ([], 704) contig_ops) = Some ct /\
    let find := Contig.block_start_unsafe 64 contig_size ct in
    (forall addr, 64 <= addr < 38064 -> exists x y, (x, y) ∈ blocks 64 [500; 7; 37493] /\ x <= addr < y /\ block_start find (Contig.base ct) addr = Some x) /\
    (forall addr, addr < 64 \/ 38064 <= addr -> block_start find (Contig.base ct) addr = Some 0) /\
    verify find (fun _ => true) (Contig.base ct) (Contig.last_active_index ct) = Some tt.
Proof.
  apply (contig_history (fun _ => true) contig_size (fun _ => true) heap600 64 704 contig_ops [37493]); try done; [by left|by repeat constructor|].
  intros x y Hin. split; [|done]. revert Hin. by apply agrees_ok.
Defined.
