(* ===== verification/BlockOffsetMemory.v ===== *)
(** * The memory of block offset tables

    The constructor and [resize] of BlockOffsetSharedArray (memory/blockOffsetTable.hpp and
    .cpp) over the reservations and virtual spaces of the files [ReservedSpace] and
    [VirtualSpace]: the table has exactly the bytes that the covered part of the heap needs.
    The exit of the virtual machine when memory runs out is the result [None] of an operation;
    a failing assertion has no result. *)

From S2P Require Import Prelude GlobalDefinitions OsMemory ReservedSpace VirtualSpace BlockOffsetTable.

Open Scope Z_scope.

Module SharedMemory.
Section memory.
Context {W : Type} `{OS W} (AlwaysPreTouch : bool).

(** The fields of the array but its contents; addresses of the heap are counted in words. *)
Record BlockOffsetSharedArray := mkMemory {
  reserved_start : Z;
  reserved_end : Z;
  _end : Z;
  _vs : VirtualSpace
}.

Definition page_align_size_up (size : Z) : Z := u64 (align_size_up size vm_page_size).
Definition page_align_size_down (size : Z) : Z := u64 (align_size_down size vm_page_size).
Definition allocation_align_size_up (size : Z) : Z := u64 (align_size_up size vm_allocation_granularity).

Definition compute_size (mem_region_words : Z) : Z :=
  let number_of_slots := mem_region_words / N_words + 1 in
  allocation_align_size_up number_of_slots.

Definition resize (a : BlockOffsetSharedArray) (new_word_size : Z) : os_m W (option BlockOffsetSharedArray) :=
  check (new_word_size <=? reserved_end a - reserved_start a) ;;
  let new_size := compute_size new_word_size in
  let old_size := committed_size (_vs a) in
  let high_before := high (_vs a) in
  let end_ := reserved_start a + new_word_size in
  let moved vs := mkMemory (reserved_start a) (reserved_end a) end_ vs in
  if new_size >? old_size then
    let delta := page_align_size_up (new_size - old_size) in
    check (delta >? 0) ;;
    expanded ← expand_by AlwaysPreTouch (_vs a) delta false;
    if negb expanded.1 then mret None
    else
      check (high expanded.2 =? high_before + delta) ;;
      mret (Some (moved expanded.2))
  else
    let delta := page_align_size_down (old_size - new_size) in
    if delta =? 0 then mret (Some (moved (_vs a)))
    else
      vs ← shrink_by (_vs a) delta;
      check (high vs =? high_before - delta) ;;
      mret (Some (moved vs)).

(** The constructor. *)
Definition new_shared_array (start end_ init_word_size : Z) : os_m W (option BlockOffsetSharedArray) :=
  let size := compute_size (end_ - start) in
  rs ← ReservedSpace_size size;
  if negb (is_reserved rs) then mret None
  else
    initialized ← vs_initialize AlwaysPreTouch empty_space rs 0;
    if negb initialized.1 then mret None
    else resize (mkMemory start end_ 0 initialized.2) init_word_size.
End memory.
End SharedMemory.
Import SharedMemory.

Section laws.
Context {W : Type} {os : OS W} {laws : OSLaws W} (AlwaysPreTouch : bool).

(** The bytes for a number of words: a multiple of the granularity that has a slot for every
    card of the words and the one after. *)
Lemma compute_size_eq words :
  0 <= words <= 2 ^ 60 -> compute_size words = (words / N_words + 2 ^ granularity_shift) / 2 ^ granularity_shift * 2 ^ granularity_shift.
Proof using Type*.
  intros Hw. pose proof page_shift_range. pose proof granularity_range. assert (1 <= 2 ^ granularity_shift <= 2 ^ 30) by (split; [apply (Z.pow_le_mono_r 2 0); lia|apply Z.pow_le_mono_r; lia]).
  assert (0 <= words / N_words <= 2 ^ 54) by (Z.div_mod_to_equations; lia). unfold compute_size, allocation_align_size_up. rewrite granularity_eq, align_size_up_spec by lia.
  replace (words / N_words + 1 + (2 ^ granularity_shift - 1)) with (words / N_words + 2 ^ granularity_shift) by lia. apply wrapu_id. unfold is_u. Z.div_mod_to_equations. nia.
Qed.

Lemma compute_size_ok words :
  0 <= words <= 2 ^ 60 -> words / N_words < compute_size words <= 2 ^ 55 /\ (2 ^ granularity_shift | compute_size words).
Proof using Type*.
  intros Hw. pose proof page_shift_range. pose proof granularity_range. assert (1 <= 2 ^ granularity_shift <= 2 ^ 30) by (split; [apply (Z.pow_le_mono_r 2 0); lia|apply Z.pow_le_mono_r; lia]).
  rewrite compute_size_eq by done. split; [|apply Z.divide_factor_r]. assert (0 <= words / N_words <= 2 ^ 54) by (Z.div_mod_to_equations; lia).
  generalize dependent (words / N_words). generalize dependent (2 ^ granularity_shift). intros g Hg q Hq. Z.div_mod_to_equations. nia.
Qed.

Lemma compute_size_mono w1 w2 : 0 <= w1 <= w2 -> w2 <= 2 ^ 60 -> compute_size w1 <= compute_size w2.
Proof using Type*.
  intros H1 H2. pose proof page_shift_range. pose proof granularity_range. rewrite !compute_size_eq by lia. apply Z.mul_le_mono_nonneg_r; [apply Z.pow_nonneg; lia|].
  apply Z.div_le_mono; [apply Z.pow_pos_nonneg; lia|]. apply Z.add_le_mono_r. apply Z.div_le_mono; lia.
Qed.

Lemma page_divides x : (2 ^ granularity_shift | x) -> (2 ^ page_shift | x).
Proof using Type*.
  intros Hx. pose proof page_shift_range. pose proof granularity_range. etransitivity; [|exact Hx]. exists (2 ^ (granularity_shift - page_shift)).
  rewrite <- Z.pow_add_r by lia. f_equal. lia.
Qed.

(** Whole pages are not rounded. *)
Lemma page_align_whole x : 0 <= x <= 2 ^ 60 -> (2 ^ page_shift | x) -> page_align_size_up x = x /\ page_align_size_down x = x.
Proof using Type*.
  intros Hx Hd. pose proof page_shift_range. assert (1 <= 2 ^ page_shift <= 2 ^ 30) by (split; [apply (Z.pow_le_mono_r 2 0); lia|apply Z.pow_le_mono_r; lia]).
  unfold page_align_size_up, page_align_size_down, align_size_down. rewrite vm_page_size_eq, align_size_up_spec, land_lnot_low by lia. destruct Hd as [q ->].
  rewrite Z.div_mul by lia. rewrite (Z.add_comm (q * _)), Z.div_add by lia. rewrite (Z.div_small (2 ^ page_shift - 1)) by lia. rewrite Z.add_0_l. rewrite wrapu_id by (unfold is_u; lia). done.
Qed.

(** A table whose memory is that of the first [n] words of the heap of [R] words from [start]. *)
Record memory_ok (start R n k : Z) (a : BlockOffsetSharedArray) (w : W) : Prop := {
  mem_words : 0 <= R <= 2 ^ 60;
  mem_start : reserved_start a = start /\ reserved_end a = start + R;
  mem_inv : inv (_vs a) k w;
  mem_room : high_boundary (_vs a) - low_boundary (_vs a) = compute_size R;
  mem_end : _end a = reserved_start a + n;
  mem_range : 0 <= n <= R;
  mem_size : committed_size (_vs a) = compute_size n
}.

Section resize.
Context (start R k c n : Z) (a : BlockOffsetSharedArray) (w : W).
Hypothesis HR : 0 <= R <= 2 ^ 60 /\ reserved_start a = start /\ reserved_end a = start + R.
Hypothesis Hinv : inv (_vs a) k w.
Hypothesis Hroom : high_boundary (_vs a) - low_boundary (_vs a) = compute_size R.
Hypothesis Hc : committed_size (_vs a) = c /\ (2 ^ page_shift | c).
Hypothesis Hn : 0 <= n <= R.

Lemma committed_high vs k' w' : inv vs k' w' -> committed_size vs = high vs - low vs /\ uncommitted_size vs = high_boundary vs - high vs /\ low vs = low_boundary vs.
Proof using. intros (Hg & Hh & _). destruct (sizes_eq vs k') as [-> ->]; [done..|]. by destruct Hg. Qed.

Lemma memory_moved vs' w' :
  inv vs' k w' -> same_space (_vs a) vs' -> high vs' = high (_vs a) + (compute_size n - c) ->
  memory_ok start R n k (mkMemory (reserved_start a) (reserved_end a) (reserved_start a + n) vs') w'.
Proof using HR Hinv Hroom Hc Hn.
  intros Hi Hs Hh. destruct (committed_high _ _ _ Hinv) as (E1 & E2 & E3). destruct (committed_high _ _ _ Hi) as (E1' & E2' & E3'). destruct Hs as (S1 & S2 & _).
  constructor; cbn; try done; lia.
Qed.

(** Growing leaves the exact size or exits. *)
Lemma resize_grow : c < compute_size n ->
  wp (resize AlwaysPreTouch a n) (fun r w' => forall a', r = Some a' -> memory_ok start R n k a' w') w.
Proof using All.
  intros Hlt. destruct (compute_size_ok n) as [Hs Hd]; [lia|]. apply page_divides in Hd. pose proof (compute_size_mono n R). unfold resize. destruct Hc as [Hc1 Hc2]. destruct HR as (HR1 & HR2 & HR3).
  destruct (committed_high _ _ _ Hinv) as (E1 & E2 & E3). assert (0 <= c) by (destruct Hinv as (_ & ? & _); lia).
  destruct (page_align_whole (compute_size n - c)) as [Ed _]; [lia|by apply Z.divide_sub_r|].
  apply wp_bind, wp_check; [lia|]. rewrite Hc1, (proj2 (Z.gtb_lt _ _)) by lia. cbn zeta. rewrite Ed. apply wp_bind, wp_check; [apply Z.gtb_lt; lia|].
  apply wp_bind. eapply wp_mono; [apply (expand_by_ok AlwaysPreTouch _ _ _ _ false Hinv); lia|]. intros [[|] vs'] w' (Hi & Hss & Hh & _ & _); cbn [fst snd negb]; [|by apply wp_ret].
  apply wp_bind, wp_check; [lia|]. apply wp_ret. intros a' [= <-]. by apply memory_moved.
Qed.

(** Shrinking too, unless the memory could not be given back. *)
Lemma resize_shrink : compute_size n <= c ->
  wp (resize AlwaysPreTouch a n) (fun r w' => exists a', r = Some a' /\ memory_ok start R n k a' w') w \/
  resize AlwaysPreTouch a n w = None /\ exists vs' w', shrink_by (_vs a) (c - compute_size n) w = Some (vs', w') /\ high vs' = high (_vs a).
Proof using All.
  intros Hle. destruct (compute_size_ok n) as [Hs Hd]; [lia|]. apply page_divides in Hd. destruct Hc as [Hc1 Hc2]. destruct HR as (HR1 & HR2 & HR3).
  destruct (committed_high _ _ _ Hinv) as (E1 & E2 & E3). pose proof (proj1 (compute_size_ok R HR1)). assert (0 <= c <= compute_size R) by (destruct Hinv as (_ & ? & _); lia).
  assert (0 <= n / N_words) by (Z.div_mod_to_equations; lia). destruct (page_align_whole (c - compute_size n)) as [_ Ed]; [lia|by apply Z.divide_sub_r|].
  destruct (shrink_by_ok (_vs a) k w (c - compute_size n) Hinv) as (vs' & w' & E & Hss & Hcases); [lia|].
  assert (Heq : resize AlwaysPreTouch a n w = if c - compute_size n =? 0 then Some (Some (mkMemory (reserved_start a) (reserved_end a) (reserved_start a + n) (_vs a)), w)
    else if high vs' =? high (_vs a) - (c - compute_size n) then Some (Some (mkMemory (reserved_start a) (reserved_end a) (reserved_start a + n) vs'), w') else None).
  { unfold resize, check, mbind, os_m_bind. rewrite (proj2 (Z.leb_le n _)) by lia. rewrite Hc1, Z.gtb_ltb, (proj2 (Z.ltb_ge _ _)) by lia. cbn zeta. rewrite Ed.
    destruct (_ =? 0); [done|]. rewrite E. by destruct (_ =? _). }
  destruct (Z.eqb_spec (c - compute_size n) 0) as [Hz|Hz].
  { left. eexists _, w. split; [exact Heq|]. eexists. split; [done|]. apply memory_moved; [done|done|lia]. }
  destruct Hcases as [[Hh Hi]|Hh].
  - rewrite (proj2 (Z.eqb_eq _ _)) in Heq by lia. left. eexists _, w'. split; [exact Heq|]. eexists. split; [done|]. apply memory_moved; [done|done|lia].
  - rewrite (proj2 (Z.eqb_neq _ _)) in Heq by lia. right. split; [done|]. by exists vs', w'.
Qed.
End resize.

Lemma new_shared_array_ok start R n w :
  0 <= R <= 2 ^ 60 -> 0 <= n <= R ->
  wp (new_shared_array AlwaysPreTouch start (start + R) n) (fun r w' => forall a, r = Some a -> exists k, memory_ok start R n k a w') w.
Proof using Type*.
  intros HR Hn. pose proof page_shift_range. pose proof granularity_range. unfold new_shared_array. replace (start + R - start) with R by lia. destruct (compute_size_ok R HR) as [Hs Hd].
  assert (0 <= R / N_words) by (Z.div_mod_to_equations; lia). assert (Hp : 2 ^ page_shift <= compute_size R) by (apply Z.divide_pos_le; [lia|by apply page_divides]).
  apply wp_bind. eapply wp_mono; [apply (initialize_ok w (compute_size R) 0 false 0 0); [lia|done|by left|by left|done]|]. intros rs w1. unfold is_reserved.
  destruct (decide (_base rs = 0)) as [->|Hb]; [intros _; by apply wp_ret|]. intros (Hb0 & Hsz & Hmax & _ & _ & _ & Hba & Hsa & Heq & Hsp). rewrite (proj2 (Z.eqb_neq _ _)) by done. cbn [negb].
  specialize (Heq ltac:(by intros [])). destruct (initialize_inv AlwaysPreTouch rs w1 0) as [k Hk]; [done|lia|done|by apply page_divides|by apply page_divides|lia|done|].
  apply wp_bind. eapply wp_mono; [exact Hk|]. intros [[|] vs] w2 (Hi & Hlb & Hhb & _ & Hh & _); cbn [fst snd negb]; [|by apply wp_ret].
  eapply wp_mono; [apply (resize_grow start R k 0 n)|]; cbn; try done; try lia.
  - destruct (committed_high _ _ _ Hi) as (-> & _ & ->). split; [lia|apply Z.divide_0_r].
  - destruct (compute_size_ok n) as [? _]; [lia|]. assert (0 <= n / N_words) by (Z.div_mod_to_equations; lia). lia.
  - intros r w3 Hr a Ha. exists k. by apply Hr.
Qed.

(** All that happens to a table of the heap from [start] with [R] words: it is made for [n0]
    of them, and resized. *)
Inductive memory_history (start R n0 : Z) (w0 : W) : BlockOffsetSharedArray -> Z -> W -> Prop :=
| memory_new a w : new_shared_array AlwaysPreTouch start (start + R) n0 w0 = Some (Some a, w) -> memory_history start R n0 w0 a n0 w
| memory_resize a n w n' a' w' :
    memory_history start R n0 w0 a n w -> 0 <= n' <= R -> resize AlwaysPreTouch a n' w = Some (Some a', w') -> memory_history start R n0 w0 a' n' w'.

Lemma memory_history_ok start R n0 w0 a n w :
  0 <= R <= 2 ^ 60 -> 0 <= n0 <= R -> memory_history start R n0 w0 a n w -> exists k, memory_ok start R n k a w.
Proof using Type*.
  intros HR Hn0. induction 1 as [a w E|a n w n' a' w' _ (k & [HRa HSa Hi Hroom He Hn Hc]) Hn' E].
  - destruct (new_shared_array_ok start R n0 w0 HR Hn0) as (r & w' & E' & HQ). rewrite E' in E. injection E as -> ->. by apply HQ.
  - exists k. destruct (compute_size_ok n) as [_ Hd]; [lia|]. apply page_divides in Hd. destruct (Z.lt_ge_cases (compute_size n) (compute_size n')) as [Hlt|Hge].
    + destruct (resize_grow start R k (compute_size n) n' a w) as (r & w1 & E1 & HQ); try done. rewrite E1 in E. injection E as -> ->. by apply HQ.
    + destruct (resize_shrink start R k (compute_size n) n' a w) as [(r & w1 & E1 & a1 & -> & HQ)|[E1 _]]; try done; [|congruence]. rewrite E1 in E. by injection E as -> ->.
Qed.


(** C39: The memory of a table follows the heap: making the table never fails an assertion;
    after any history of resizings that return, under any pattern of failing commits, it has
    exactly the bytes computed for the covered words, all committed, and every covered
    address and the end have an index in the table; growing returns or exits, and
    shrinking fails its assertion only when memory was not given back. *)
Theorem table_memory start R n0 w0 :
  0 <= R <= 2 ^ 60 -> 0 <= n0 <= R ->
  (exists r w, new_shared_array AlwaysPreTouch start (start + R) n0 w0 = Some (r, w)) /\
  forall a n w, memory_history start R n0 w0 a n w ->
    committed_size (_vs a) = compute_size n /\
    (forall x, contains (_vs a) x = true -> committed w x) /\
    (forall table p, zlen table = committed_size (_vs a) -> start <= p <= _end a -> p < start + R ->
       SharedArray.index_for (SharedArray.mkShared start (start + R) table) p = Some (card start p)) /\
    (forall n', n <= n' <= R -> exists r w', resize AlwaysPreTouch a n' w = Some (r, w')) /\
    (forall n', 0 <= n' <= n -> resize AlwaysPreTouch a n' w = None ->
       exists vs' w', shrink_by (_vs a) (compute_size n - compute_size n') w = Some (vs', w') /\ high vs' = high (_vs a)).
Proof using Type*.
  intros HR Hn0. split; [destruct (new_shared_array_ok start R n0 w0 HR Hn0) as (r & w & E & _); by exists r, w|].
  intros a n w Hh. destruct (memory_history_ok start R n0 w0 a n w HR Hn0 Hh) as (k & [_ HSa Hi Hroom He Hn Hc]). destruct (compute_size_ok n) as [Hs Hd]; [lia|]. apply page_divides in Hd.
  split_and!; [done|intros x; by eapply inv_committed|..].
  - intros table p Hl Hp1 Hp2. unfold SharedArray.index_for. cbn. replace ((start <=? p) && (p <? start + R)) with true by lia. rewrite Z.shiftr_div_pow2 by done. change (2 ^ LogN_words) with N_words. fold (card start p).
    rewrite (proj2 (Z.ltb_lt _ _)); [done|]. rewrite Hl, Hc. assert (card start p <= n / N_words) by (unfold card; apply Z.div_le_mono; lia). lia.
  - intros n' Hn'. pose proof (compute_size_mono n n'). destruct (Z.eq_dec (compute_size n) (compute_size n')) as [E|].
    + destruct (resize_shrink start R k (compute_size n) n' a w) as [(r & w1 & E1 & _)|[_ (vs' & w' & E1 & Hh')]]; try (done || lia); [by exists r, w1|].
      unfold resize, check, mbind, os_m_bind. rewrite (proj2 (Z.leb_le _ _)) by lia. rewrite Hc, Z.gtb_ltb, (proj2 (Z.ltb_ge _ _)) by lia. cbn zeta.
      destruct (page_align_whole (compute_size n - compute_size n')) as [_ ->]; [lia|by rewrite E, Z.sub_diag; apply Z.divide_0_r|]. rewrite (proj2 (Z.eqb_eq _ _)) by lia. by eexists _, _.
    + destruct (resize_grow start R k (compute_size n) n' a w) as (r & w1 & E1 & _); try (done || lia). by exists r, w1.
  - intros n' Hn' Hnone. pose proof (compute_size_mono n' n). destruct (resize_shrink start R k (compute_size n) n' a w) as [(r & w1 & E1 & _)|[_ ?]]; try (done || lia). congruence.
Qed.
End laws.

(** The table of a heap of a megabyte of words, half of it covered, in the simple world. *)
Definition small_table := new_shared_array false 512 (512 + 2 ^ 20) (2 ^ 19) small_sim.

Lemma table_memory_witness : exists a w, small_table = Some (Some a, w) /\ committed_size (_vs a) = 12288 /\ forall x, contains (_vs a) x = true -> committed w x.
Proof.
  destruct (table_memory false 512 (2 ^ 20) (2 ^ 19) small_sim) as [_ H]; [lia..|]. destruct small_table as [[[a|] w]|] eqn:E; [|vm_compute in E; discriminate..].
  exists a, w. split; [done|]. destruct (H a (2 ^ 19) w) as (H1 & H2 & _); [by constructor|]. split; [rewrite H1; by vm_compute|done].
Defined.
