(* ===== verification/FreeList.v ===== *)
(** * Free chunks and free lists of the mark-sweep space

    gc_implementation/concurrentMarkSweep/freeChunk.hpp, freeList.{hpp,cpp} and
    gc_implementation/shared/allocationStats.hpp.  The headers of the chunks are a
    finite map from their addresses; reading or writing through any other pointer
    (NULL among them) has no result.  The build is the 64-bit one without compressed
    oops, in which the low bits of [_prev] hold the free bit and the bit that forbids
    coalescing.  The locks that protect a list are not modelled: an operation runs
    alone.

    The theorems: two lists of one chunk size refine two sequences under every
    history of their operations, with every assertion checked; asking for the first
    zero chunks hands over the whole list. *)

From S2P Require Import Prelude OsMemory.

Open Scope Z_scope.
Open Scope hotspot_scope.

(** ** Chunks *)

Record FreeChunk := mkFreeChunk { c_size : Z; c_prev : Z; c_next : Z }.

Definition NULL : Z := 0.
Definition HeapWordSize : Z := 8.

Abbreviation chunk_map := (gmap Z FreeChunk).

(** Computations on the chunk headers *)
Abbreviation cm := (os_m chunk_map).

Definition chunk (p : Z) : cm FreeChunk := fun s =>
  match s !! p with Some c => Some (c, s) | None => None end.

Definition set_chunk (p : Z) (c : FreeChunk) : cm unit := fun s =>
  match s !! p with Some _ => Some (tt, <[p := c]> s) | None => None end.

Definition isFree (c : FreeChunk) : bool := (c_prev c &&& 1) =? 1.
Definition cantCoalesce (c : FreeChunk) : option bool :=
  ASSERT isFree c ;; Some ((c_prev c &&& 2) =? 2).
Definition prev (c : FreeChunk) : Z := c_prev c &&& Z.lnot 3.

Definition with_prev (c : FreeChunk) (ptr : Z) : FreeChunk :=
  mkFreeChunk (c_size c) (ptr ||| 1) (c_next c).
Definition with_next (c : FreeChunk) (ptr : Z) : FreeChunk :=
  mkFreeChunk (c_size c) (c_prev c) ptr.

Definition setSize (p sz : Z) : cm unit :=
  c ← chunk p; set_chunk p (mkFreeChunk sz (c_prev c) (c_next c)).
Definition dontCoalesce (p : Z) : cm unit :=
  c ← chunk p; check (isFree c) ;;
  set_chunk p (mkFreeChunk (c_size c) (c_prev c ||| 2) (c_next c)).
Definition markNotFree (p : Z) : cm unit :=
  c ← chunk p; set_chunk p (mkFreeChunk (c_size c) NULL (c_next c)).
Definition linkPrev (p ptr : Z) : cm unit :=
  c ← chunk p; set_chunk p (with_prev c ptr).
Definition linkNext (p ptr : Z) : cm unit :=
  c ← chunk p; set_chunk p (with_next c ptr).
Definition clearNext (p : Z) : cm unit := linkNext p NULL.
Definition linkAfter (p ptr : Z) : cm unit :=
  linkNext p ptr ;; when (negb (ptr =? NULL)) (linkPrev ptr p).

Definition linkAfterNonNull (p ptr : Z) : cm unit :=
  check (negb (ptr =? NULL)) ;; linkNext p ptr ;; linkPrev ptr p.
Definition clearPrev (p : Z) : cm unit :=
  c ← chunk p; set_chunk p (mkFreeChunk (c_size c) NULL (c_next c)).

(** [end()], in bytes *)
Definition chunk_end (p : Z) (c : FreeChunk) : Z := u64 (p + c_size c * HeapWordSize).

Definition of_option {W A : Type} (x : option A) : os_m W A := fun s =>
  match x with Some a => Some (a, s) | None => None end.

(** [assert(p == NULL || f(p))] *)
Definition assert_chunk (p : Z) (f : FreeChunk -> bool) : cm unit :=
  if p =? NULL then mret tt else c ← chunk p; check (f c).

(** A loop over chunks: more iterations than there are chunks is an endless one. *)
Definition looping {A : Type} (f : nat -> cm A) : cm A := fun s => f (S (size s)) s.

(** ** Statistics *)

Record AllocationStats := mkAllocationStats {
  _desired : Z;
  _coalDesired : Z;
  _surplus : Z;
  _bfrSurp : Z;
  _prevSweep : Z;
  _beforeSweep : Z;
  _coalBirths : Z;
  _coalDeaths : Z;
  _splitBirths : Z;
  _splitDeaths : Z;
  _returnedBytes : Z
}.

Definition stats_initialize : AllocationStats := mkAllocationStats 0 0 0 0 0 0 0 0 0 0 0.

Definition set_returnedBytes (a : AllocationStats) (v : Z) : AllocationStats :=
  mkAllocationStats (_desired a) (_coalDesired a) (_surplus a) (_bfrSurp a) (_prevSweep a)
    (_beforeSweep a) (_coalBirths a) (_coalDeaths a) (_splitBirths a) (_splitDeaths a) v.

(** ** Lists *)

Record FreeList := mkFreeList {
  _head : Z;
  _tail : Z;
  _size : Z;
  _count : Z;
  _hint : Z;
  _allocation_stats : AllocationStats
}.

Module FreeLists.

Definition create : FreeList := mkFreeList NULL NULL 0 0 0 stats_initialize.

Definition create_of (fc : Z) : cm FreeList :=
  c ← chunk fc;
  mret (mkFreeList fc fc (c_size c) 1 0
          (set_returnedBytes stats_initialize (u64 (c_size c * HeapWordSize)))).

(** The constructor from an address leaves [_hint] as it was in memory. *)
Definition create_at (junk addr size : Z) : cm FreeList :=
  check (24 <? size) ;;
  setSize addr size ;;
  mret (mkFreeList addr addr size 1 junk
          (set_returnedBytes stats_initialize (u64 (size * HeapWordSize)))).

Definition with_head (fl : FreeList) (v : Z) : FreeList :=
  mkFreeList v (_tail fl) (_size fl) (_count fl) (_hint fl) (_allocation_stats fl).
Definition with_tail (fl : FreeList) (v : Z) : FreeList :=
  mkFreeList (_head fl) v (_size fl) (_count fl) (_hint fl) (_allocation_stats fl).
Definition set_size (fl : FreeList) (v : Z) : FreeList :=
  mkFreeList (_head fl) (_tail fl) v (_count fl) (_hint fl) (_allocation_stats fl).
Definition set_count (fl : FreeList) (v : Z) : FreeList :=
  mkFreeList (_head fl) (_tail fl) (_size fl) v (_hint fl) (_allocation_stats fl).
Definition set_stats (fl : FreeList) (v : AllocationStats) : FreeList :=
  mkFreeList (_head fl) (_tail fl) (_size fl) (_count fl) (_hint fl) v.

Definition set_hint (fl : FreeList) (v : Z) : option FreeList :=
  ASSERT (v =? 0) || (_size fl <? v) ;;
  Some (mkFreeList (_head fl) (_tail fl) (_size fl) (_count fl) v (_allocation_stats fl)).

Definition increment_count (fl : FreeList) : FreeList := set_count fl (s64 (_count fl + 1)).
Definition decrement_count (fl : FreeList) : cm FreeList :=
  let fl := set_count fl (s64 (_count fl - 1)) in
  check (0 <=? _count fl) ;; mret fl.

Definition increment_returnedBytes_by (fl : FreeList) (v : Z) : FreeList :=
  set_stats fl (set_returnedBytes (_allocation_stats fl)
                  (u64 (_returnedBytes (_allocation_stats fl) + v))).

Definition set_head (fl : FreeList) (v : Z) : cm FreeList :=
  let fl := with_head fl v in
  assert_chunk v (fun c => c_size c =? _size fl) ;; mret fl.

Definition link_head (fl : FreeList) (v : Z) : cm FreeList :=
  fl ← set_head fl v;
  when (negb (v =? NULL)) (linkPrev v NULL) ;; mret fl.

Definition set_tail (fl : FreeList) (v : Z) : cm FreeList :=
  let fl := with_tail fl v in
  assert_chunk v (fun c => c_size c =? _size fl) ;; mret fl.

Definition link_tail (fl : FreeList) (v : Z) : cm FreeList :=
  fl ← set_tail fl v;
  when (negb (v =? NULL)) (clearNext v) ;; mret fl.

Definition reset (fl : FreeList) (hint : Z) : cm FreeList :=
  let fl := set_count fl 0 in
  fl ← set_head fl NULL;
  fl ← set_tail fl NULL;
  of_option (set_hint fl hint).

(** The pair of assertions "list invariant" *)
Definition list_invariant (fl : FreeList) : cm unit :=
  assert_chunk (_head fl) (fun c => prev c =? NULL) ;;
  assert_chunk (_tail fl) (fun c => c_next c =? NULL).

(** The pair of assertions "wrong item on list" *)
Definition items_of_size (fl : FreeList) : cm unit :=
  assert_chunk (_head fl) (fun c => c_size c =? _size fl) ;;
  assert_chunk (_tail fl) (fun c => c_size c =? _size fl).

Definition getChunkAtHead (fl : FreeList) : cm (Z * FreeList) :=
  list_invariant fl ;;
  let fc := _head fl in
  fl ← (if fc =? NULL then mret fl else
    c ← chunk fc;
    let nextFC := c_next c in
    fl ← (if nextFC =? NULL then link_tail fl NULL else linkPrev nextFC NULL ;; mret fl);
    fl ← link_head fl nextFC;
    decrement_count fl);
  list_invariant fl ;;
  mret (fc, fl).

(** [while (tl->next() != NULL && n > 0) { tl = tl->next(); n--; k++; }] *)
Fixpoint first_n_loop (fuel : nat) (tl n k : Z) : cm (Z * Z) :=
  match fuel with
  | O => of_option None
  | S fuel =>
      c ← chunk tl;
      if negb (c_next c =? NULL) && (0 <? n)
      then first_n_loop fuel (c_next c) (u64 (n - 1)) (s32 (k + 1))
      else mret (tl, k)
  end.

(** The list and the list [fl] that receives the chunks *)
Definition getFirstNChunksFromList (this : FreeList) (n : Z) (fl : FreeList)
  : cm (FreeList * FreeList) :=
  check (_count fl =? 0) ;;
  if 0 <? _count this then
    fl ← set_head fl (_head this);
    let n := u64 (n - 1) in
    '(tl, k) ← looping (fun fuel => first_n_loop fuel (_head this) n 1);
    check (negb (tl =? NULL)) ;;
    c ← chunk tl;
    let new_head := c_next c in
    this ← set_head this new_head;
    let this := set_count this (s64 (_count this - k)) in
    this ← (if new_head =? NULL then set_tail this NULL
            else linkPrev new_head NULL ;; mret this);
    linkNext tl NULL ;;
    fl ← set_tail fl tl;
    mret (this, set_count fl k)
  else mret (this, fl).

Definition removeChunk (fl : FreeList) (fc : Z) : cm FreeList :=
  check (negb (_head fl =? NULL)) ;;
  check (negb (fc =? NULL)) ;;
  c ← chunk fc;
  check (_size fl =? c_size c) ;;
  list_invariant fl ;;
  let prevFC := prev c in
  let nextFC := c_next c in
  fl ← (if negb (nextFC =? NULL) then linkPrev nextFC prevFC ;; mret fl
        else link_tail fl prevFC);
  fl ← (if prevFC =? NULL then
          fl ← link_head fl nextFC;
          assert_chunk nextFC (fun c => prev c =? NULL) ;; mret fl
        else
          linkNext prevFC nextFC ;;
          when (_tail fl =? prevFC) (c ← chunk prevFC; check (c_next c =? NULL)) ;;
          mret fl);
  fl ← decrement_count fl;
  when (_head fl =? NULL) (check (_tail fl =? NULL) ;; check (_count fl =? 0)) ;;
  linkPrev fc NULL ;;
  linkNext fc NULL ;;
  c ← chunk fc;
  check (isFree c) ;;
  list_invariant fl ;;
  items_of_size fl ;;
  mret fl.

Definition record_returned (fl : FreeList) (record_return : bool) : FreeList :=
  if record_return then increment_returnedBytes_by fl (u64 (_size fl * HeapWordSize)) else fl.

Definition returnChunkAtHead (fl : FreeList) (fc : Z) (record_return : bool) : cm FreeList :=
  check (negb (fc =? NULL)) ;;
  c ← chunk fc;
  check (_size fl =? c_size c) ;;
  list_invariant fl ;;
  let oldHead := _head fl in
  check (negb (fc =? oldHead)) ;;
  linkAfter fc oldHead ;;
  fl ← link_head fl fc;
  fl ← (if oldHead =? NULL then check (_tail fl =? NULL) ;; link_tail fl fc else mret fl);
  let fl := record_returned (increment_count fl) record_return in
  list_invariant fl ;;
  items_of_size fl ;;
  mret fl.

Definition returnChunkAtTail (fl : FreeList) (fc : Z) (record_return : bool) : cm FreeList :=
  list_invariant fl ;;
  check (negb (fc =? NULL)) ;;
  c ← chunk fc;
  check (_size fl =? c_size c) ;;
  let oldTail := _tail fl in
  check (negb (fc =? oldTail)) ;;
  fl ← (if negb (oldTail =? NULL) then linkAfter oldTail fc ;; mret fl
        else check (_head fl =? NULL) ;; link_head fl fc);
  fl ← link_tail fl fc;
  let fl := record_returned (increment_count fl) record_return in
  list_invariant fl ;;
  items_of_size fl ;;
  mret fl.

(** The list and the list [fl], which is left empty *)
Definition prepend (this fl : FreeList) : cm (FreeList * FreeList) :=
  if 0 <? _count fl then
    this ← (if _count this =? 0 then
              this ← set_head this (_head fl);
              this ← set_tail this (_tail fl);
              mret (set_count this (_count fl))
            else
              let fl_tail := _tail fl in
              let this_head := _head this in
              c ← chunk fl_tail;
              check (c_next c =? NULL) ;;
              linkNext fl_tail this_head ;;
              linkPrev this_head fl_tail ;;
              this ← set_head this (_head fl);
              mret (set_count this (s64 (_count this + _count fl))));
    fl ← set_head fl NULL;
    fl ← set_tail fl NULL;
    mret (this, set_count fl 0)
  else mret (this, fl).

Fixpoint search_loop (fuel : nat) (sz fc curFC : Z) : cm bool :=
  match fuel with
  | O => of_option None
  | S fuel =>
      if curFC =? NULL then mret false else
      c ← chunk curFC;
      check (sz =? c_size c) ;;
      if fc =? curFC then mret true else search_loop fuel sz fc (c_next c)
  end.

Definition verifyChunkInFreeLists (fl : FreeList) (fc : Z) : cm bool :=
  c ← chunk fc;
  check (c_size c =? _size fl) ;;
  looping (fun fuel => search_loop fuel (_size fl) fc (_head fl)).

End FreeLists.

(** ** Chunks linked into a list *)

(** An address a chunk can have: not NULL, and aligned to a heap word *)
Definition chunk_addr (a : Z) : Prop := 0 < a < 2 ^ 64 /\ a mod 8 = 0.

#[export] Instance chunk_addr_dec a : Decision (chunk_addr a).
Proof. unfold chunk_addr. apply _. Defined.

(** What a pointer to a chunk or NULL satisfies *)
Definition ptr_ok (p : Z) : Prop := p mod 4 = 0.

Definition first (nx : Z) (l : list Z) : Z := match l with [] => nx | a :: _ => a end.
Definition final (p : Z) (l : list Z) : Z := default p (last l).

(** The chunks [l], of [sz] words each, linked in both directions between the
    chunks [p] and [nx] *)
Fixpoint seg (s : chunk_map) (sz p : Z) (l : list Z) (nx : Z) : Prop :=
  match l with
  | [] => True
  | a :: l =>
      chunk_addr a /\
      (exists c, s !! a = Some c /\ c_size c = sz /\ prev c = p /\ isFree c = true /\
         c_next c = first nx l) /\
      seg s sz a l nx
  end.

(** The list record and its chunks *)
Record list_of (s : chunk_map) (fl : FreeList) (l : list Z) : Prop := {
  lo_head : _head fl = first NULL l;
  lo_tail : _tail fl = final NULL l;
  lo_count : _count fl = zlen l;
  lo_nodup : NoDup l;
  lo_seg : seg s (_size fl) NULL l NULL
}.

(** Only links of the chunks [l] changed, and what was free stays free. *)
Definition relinked (l : list Z) (s s' : chunk_map) : Prop :=
  forall a, c_size <$> s' !! a = c_size <$> s !! a /\ (a ∉ l -> s' !! a = s !! a) /\
    (forall c c', s !! a = Some c -> s' !! a = Some c' -> isFree c = true -> isFree c' = true).

Lemma relinked_refl l s : relinked l s s.
Proof. intros a. split_and!; [done..|]. intros c c' H H'. congruence. Qed.

#[export] Hint Resolve relinked_refl : core.

Lemma relinked_size l s s' a c :
  relinked l s s' -> s !! a = Some c -> exists c', s' !! a = Some c' /\ c_size c' = c_size c.
Proof.
  intros H Hc. destruct (H a) as [E _]. rewrite Hc in E. destruct (s' !! a) as [c'|]; [|done].
  exists c'. split; [done|]. by injection E.
Qed.

Lemma relinked_trans l s s' s'' : relinked l s s' -> relinked l s' s'' -> relinked l s s''.
Proof.
  intros H H' a. pose proof (relinked_size l s s' a) as Hs.
  destruct (H a) as (E & F & G), (H' a) as (E' & F' & G'). split_and!; [congruence| |].
  - intros Ha. rewrite F', F; done.
  - intros c c'' Hc Hc'' Hf. destruct (Hs c H Hc) as (c' & Hc' & _). eauto.
Qed.

Lemma relinked_weaken l l' s s' : relinked l s s' -> (forall a, a ∈ l -> a ∈ l') -> relinked l' s s'.
Proof. intros H Hl a. destruct (H a) as (E & F & G). split_and!; [done| |done]. intros Ha. apply F. auto. Qed.

Lemma relinked_dom l s s' : relinked l s s' -> dom s' = dom s.
Proof.
  intros H. apply set_eq. intros a. rewrite !elem_of_dom.
  destruct (H a) as [E _]. rewrite <- !(fmap_is_Some c_size). by rewrite E.
Qed.

Lemma prev_with_prev c p : ptr_ok p -> prev (with_prev c p) = p.
Proof.
  intros Hp. unfold prev, with_prev. cbn [c_prev]. apply Z.bits_inj'. intros i Hi.
  rewrite Z.land_spec, Z.lor_spec, Z.lnot_spec by done.
  destruct (decide (i < 2)) as [Hlt|Hge].
  - assert (Z.testbit p i = false) as ->.
    { rewrite <- (Z.mod_pow2_bits_low p 2 i) by lia. unfold ptr_ok in Hp.
      change (2 ^ 2) with 4. rewrite Hp. apply Z.bits_0. }
    enum i 0 2%nat; done.
  - rewrite (testbit_high 2 3 i), (testbit_high 1 1 i) by (unfold is_u; lia).
    by rewrite orb_false_r, andb_true_r.
Qed.

Lemma isFree_with_prev c p : isFree (with_prev c p) = true.
Proof.
  unfold isFree, with_prev. cbn [c_prev]. apply Z.eqb_eq. apply Z.bits_inj'. intros i Hi.
  rewrite Z.land_spec, Z.lor_spec. destruct (Z.testbit p i), (Z.testbit 1 i); done.
Qed.

Lemma isFree_with_next c p : isFree (with_next c p) = isFree c.
Proof. done. Qed.

Lemma chunk_addr_ptr a : chunk_addr a -> ptr_ok a /\ a <> NULL.
Proof. unfold chunk_addr, ptr_ok, NULL. intros [H E]. split; [int_lia|lia]. Qed.

Lemma null_ptr : ptr_ok NULL.
Proof. done. Qed.

Lemma first_app nx l1 l2 : first nx (l1 ++ l2) = first (first nx l2) l1.
Proof. by destruct l1. Qed.

Lemma final_app p l1 l2 : final p (l1 ++ l2) = final (final p l1) l2.
Proof.
  unfold final. rewrite last_app. by destruct (last l2).
Qed.

Lemma final_cons p a l : final p (a :: l) = final a l.
Proof. apply (final_app p [a] l). Qed.

Lemma final_snoc p l a : final p (l ++ [a]) = a.
Proof. by rewrite final_app. Qed.

Lemma seg_app s sz p l1 l2 nx :
  seg s sz p (l1 ++ l2) nx <-> seg s sz p l1 (first nx l2) /\ seg s sz (final p l1) l2 nx.
Proof.
  revert p. induction l1 as [|a l1 IH]; intros p; cbn [app seg]; [naive_solver|].
  rewrite IH, first_app, final_cons. naive_solver.
Qed.

Lemma seg_frame s s' sz p l nx :
  (forall a, a ∈ l -> s' !! a = s !! a) -> seg s sz p l nx -> seg s' sz p l nx.
Proof.
  revert p. induction l as [|a l IH]; intros p Hs; cbn [seg]; [done|].
  intros (Ha & Hc & Hl). rewrite Hs by set_solver. split_and!; [done..|].
  apply IH; [set_solver|done].
Qed.

Lemma seg_alter_ne f a s sz p l nx :
  a ∉ l -> seg s sz p l nx -> seg (alter f a s) sz p l nx.
Proof.
  intros Ha. apply seg_frame. intros b Hb. apply lookup_alter_ne. by intros ->.
Qed.

Lemma seg_elem s sz p l nx a :
  seg s sz p l nx -> a ∈ l ->
  chunk_addr a /\ exists c, s !! a = Some c /\ c_size c = sz /\ isFree c = true.
Proof.
  revert p. induction l as [|b l IH]; intros p; cbn [seg]; [set_solver|].
  intros (Hb & Hc & Hl) [->|Ha]%elem_of_cons; [naive_solver|eauto].
Qed.

Lemma seg_addrs s sz p l nx : seg s sz p l nx -> Forall chunk_addr l.
Proof. intros H. apply Forall_forall. intros a Ha. by destruct (seg_elem _ _ _ _ _ _ H Ha). Qed.

Lemma first_elem nx l : first nx l = nx /\ l = [] \/ first nx l ∈ l.
Proof. destruct l; [by left|right; left]. Qed.

Lemma final_elem p l : final p l = p /\ l = [] \/ final p l ∈ l.
Proof.
  destruct l as [|a l _] using rev_ind; [by left|right]. rewrite final_snoc. set_solver.
Qed.

Lemma ptr_first s sz p l : seg s sz p l NULL -> ptr_ok (first NULL l).
Proof.
  intros H. destruct (first_elem NULL l) as [[-> _]|Hf]; [done|].
  destruct (seg_elem _ _ _ _ _ _ H Hf) as [Ha _]. by apply chunk_addr_ptr.
Qed.

Lemma ptr_final s sz p l nx : ptr_ok p -> seg s sz p l nx -> ptr_ok (final p l).
Proof.
  intros Hp H. destruct (final_elem p l) as [[-> _]|Hf]; [done|].
  destruct (seg_elem _ _ _ _ _ _ H Hf) as [Ha _]. by apply chunk_addr_ptr.
Qed.

(** Redirect the last chunk of [l] to [q], or the first one back to [q]. *)
Definition relink_next (l : list Z) (q : Z) (s : chunk_map) : chunk_map :=
  match last l with Some a => alter (fun c => with_next c q) a s | None => s end.
Definition relink_prev (q : Z) (l : list Z) (s : chunk_map) : chunk_map :=
  match head l with Some a => alter (fun c => with_prev c q) a s | None => s end.

Lemma relink_next_final l q s :
  l <> [] -> relink_next l q s = alter (fun c => with_next c q) (final NULL l) s.
Proof.
  unfold relink_next, final. by destruct l as [|? ? _] using rev_ind; [done|rewrite last_snoc].
Qed.

Lemma relink_prev_first l q s :
  l <> [] -> relink_prev q l s = alter (fun c => with_prev c q) (first NULL l) s.
Proof. by destruct l. Qed.

Lemma seg_relink_prev s sz x q l nx :
  NoDup l -> ptr_ok q -> seg s sz x l nx -> seg (relink_prev q l s) sz q l nx.
Proof.
  destruct l as [|a l]; [done|]. cbn [relink_prev head seg].
  intros [Ha _]%NoDup_cons Hq (Hc & (c & Hl & Hs & _ & Hf & Hn) & Ht). split_and!; [done| |].
  - exists (with_prev c q). rewrite lookup_alter_eq, Hl, prev_with_prev, isFree_with_prev by done.
    done.
  - by apply seg_alter_ne.
Qed.

Lemma seg_relink_next s sz p l x q :
  NoDup l -> seg s sz p l x -> seg (relink_next l q s) sz p l q.
Proof.
  destruct l as [|a l _] using rev_ind; [done|]. unfold relink_next. rewrite last_snoc.
  intros [_ [Hd _]]%NoDup_app. rewrite !seg_app. intros [H1 (Hc & (c & Hl & H) & _)].
  assert (a ∉ l) as Ha by (intros E; apply (Hd a E); set_solver). split; [by apply seg_alter_ne|].
  cbn [seg]. split_and!; [done| |done]. exists (with_next c q). rewrite lookup_alter_eq, Hl.
  naive_solver.
Qed.

Lemma relinked_alter f a s :
  (forall c, c_size (f c) = c_size c) -> (forall c, isFree c = true -> isFree (f c) = true) ->
  relinked [a] s (alter f a s).
Proof.
  intros Hf Hg b. destruct (decide (a = b)) as [<-|Hne].
  - rewrite lookup_alter_eq. split_and!; [|set_solver|].
    + destruct (s !! a); [|done]. simpl. by rewrite Hf.
    + intros c c' -> [= <-]. apply Hg.
  - rewrite lookup_alter_ne by done. apply relinked_refl.
Qed.

Lemma relinked_prev q l s : relinked l s (relink_prev q l s).
Proof.
  destruct l as [|a l]; [apply relinked_refl|]. eapply relinked_weaken; [apply relinked_alter; auto using isFree_with_prev|set_solver].
Qed.

Lemma relinked_next l q s : relinked l s (relink_next l q s).
Proof.
  destruct l as [|a l _] using rev_ind; [apply relinked_refl|]. unfold relink_next. rewrite last_snoc.
  eapply relinked_weaken; [apply relinked_alter; auto using isFree_with_prev|set_solver].
Qed.

Lemma relinked_sub l l' s s' : relinked l s s' -> l ⊆ l' -> relinked l' s s'.
Proof. intros H Hs. eapply relinked_weaken; [done|apply Hs]. Qed.

Lemma relinked_alter_prev L s s' q a :
  relinked L s s' -> a ∈ L -> relinked L s (alter (fun c => with_prev c q) a s').
Proof.
  intros H Ha. eapply relinked_trans; [done|]. eapply relinked_sub.
  - apply relinked_alter; auto using isFree_with_prev.
  - set_solver.
Qed.

Lemma relinked_alter_next L s s' q a :
  relinked L s s' -> a ∈ L -> relinked L s (alter (fun c => with_next c q) a s').
Proof.
  intros H Ha. eapply relinked_trans; [done|]. eapply relinked_sub.
  - by apply relinked_alter.
  - set_solver.
Qed.

Lemma relinked_relink_prev L s s' q l :
  relinked L s s' -> l ⊆ L -> relinked L s (relink_prev q l s').
Proof.
  intros H Hl. eapply relinked_trans; [done|]. eapply relinked_sub; [|done]. apply relinked_prev.
Qed.

Lemma relinked_relink_next L s s' q l :
  relinked L s s' -> l ⊆ L -> relinked L s (relink_next l q s').
Proof.
  intros H Hl. eapply relinked_trans; [done|]. eapply relinked_sub; [|done]. apply relinked_next.
Qed.

(** Account for the changes of a chain of link updates. *)
Ltac relink :=
  repeat first
    [ apply relinked_refl
    | apply relinked_alter_prev; [|set_solver]
    | apply relinked_alter_next; [|set_solver]
    | apply relinked_relink_prev; [|set_solver]
    | apply relinked_relink_next; [|set_solver]
    | eassumption
    | eapply relinked_sub; [eassumption|set_solver] ].

Lemma seg_relinked l' s s' sz p l nx :
  relinked l' s s' -> (forall a, a ∈ l -> a ∉ l') -> seg s sz p l nx -> seg s' sz p l nx.
Proof. intros H Hd. apply seg_frame. intros a Ha. apply H. auto. Qed.

(** ** The number of chunks fits a machine word *)

Lemma nodup_bounded (l : list nat) n : NoDup l -> (forall x, x ∈ l -> (x < n)%nat) -> (length l <= n)%nat.
Proof.
  intros Hl Hn. rewrite <- (length_seq n 0). apply submseteq_length, NoDup_submseteq; [done|].
  intros x Hx. apply elem_of_seq. specialize (Hn x Hx). lia.
Qed.

Lemma chunk_addrs_bound l : NoDup l -> Forall chunk_addr l -> zlen l <= 2 ^ 61.
Proof.
  intros Hl Ha. assert (length l <= Z.to_nat (2 ^ 61))%nat; [|lia].
  rewrite <- (length_fmap (fun a => Z.to_nat (a / 8)) l). apply nodup_bounded.
  - apply NoDup_fmap_2_strong; [|done]. rewrite Forall_forall in Ha.
    intros x y Hx%Ha Hy%Ha E. unfold chunk_addr in *. apply Z2Nat.inj in E; int_lia.
  - intros x (a & -> & Ha')%list_elem_of_fmap. rewrite Forall_forall in Ha.
    destruct (Ha a Ha') as [H _]. apply Z2Nat.inj_lt; int_lia.
Qed.

Lemma list_of_bound s fl l : list_of s fl l -> zlen l <= 2 ^ 61.
Proof. intros H. apply chunk_addrs_bound; [apply H|]. eapply seg_addrs, H. Qed.

(** ** The steps of the operations *)

Lemma wp_chunk p c s (Q : FreeChunk -> chunk_map -> Prop) :
  s !! p = Some c -> Q c s -> wp (chunk p) Q s.
Proof. intros Hc HQ. exists c, s. unfold chunk. by rewrite Hc. Qed.

Lemma wp_when {W} b m (Q : unit -> W -> Prop) s :
  (b = true -> wp m Q s) -> (b = false -> Q tt s) -> wp (when b m) Q s.
Proof. unfold when. destruct b; [by auto|]. intros _ HQ. apply wp_ret. auto. Qed.

Lemma wp_of_option {W A} (x : option A) a (Q : A -> W -> Prop) s :
  x = Some a -> Q a s -> wp (of_option x) Q s.
Proof. intros -> HQ. by exists a, s. Qed.

Lemma alter_present {A} (f : A -> A) i (x : A) (m : gmap Z A) :
  m !! i = Some x -> alter f i m = <[i := f x]> m.
Proof.
  intros Hx. apply map_eq. intros j. destruct (decide (i = j)) as [<-|Hne].
  - by rewrite lookup_alter_eq, lookup_insert_eq, Hx.
  - by rewrite lookup_alter_ne, lookup_insert_ne.
Qed.

Lemma wp_linkPrev p ptr c s (Q : unit -> chunk_map -> Prop) :
  s !! p = Some c -> Q tt (alter (fun c => with_prev c ptr) p s) -> wp (linkPrev p ptr) Q s.
Proof.
  intros Hc HQ. exists tt, (alter (fun c => with_prev c ptr) p s). split; [|done].
  unfold linkPrev, chunk, set_chunk, mbind, os_m_bind. rewrite Hc, Hc. do 2 f_equal.
  by rewrite (alter_present _ _ c).
Qed.

Lemma wp_linkNext p ptr c s (Q : unit -> chunk_map -> Prop) :
  s !! p = Some c -> Q tt (alter (fun c => with_next c ptr) p s) -> wp (linkNext p ptr) Q s.
Proof.
  intros Hc HQ. exists tt, (alter (fun c => with_next c ptr) p s). split; [|done].
  unfold linkNext, chunk, set_chunk, mbind, os_m_bind. rewrite Hc, Hc. do 2 f_equal.
  by rewrite (alter_present _ _ c).
Qed.

Lemma wp_assert_chunk p f s (Q : unit -> chunk_map -> Prop) :
  (p <> NULL -> exists c, s !! p = Some c /\ f c = true) -> Q tt s -> wp (assert_chunk p f) Q s.
Proof.
  intros Hc HQ. unfold assert_chunk. destruct (Z.eqb_spec p NULL) as [->|Hp]; [by apply wp_ret|].
  destruct (Hc Hp) as (c & Hl & Hf). apply wp_bind. eapply wp_chunk; [done|]. by apply wp_check.
Qed.

(** The first and the last chunk of a segment *)
Lemma seg_first s sz p l nx :
  seg s sz p l nx -> l <> [] ->
  first nx l <> NULL /\ exists c, s !! first nx l = Some c /\ c_size c = sz /\ prev c = p.
Proof.
  destruct l as [|a l]; [done|]. intros (Ha & (c & Hc & Hs & Hp & _) & _) _.
  split; [by apply chunk_addr_ptr|]. by exists c.
Qed.

Lemma seg_final s sz p l nx :
  seg s sz p l nx -> l <> [] ->
  final p l <> NULL /\ exists c, s !! final p l = Some c /\ c_size c = sz /\ c_next c = nx.
Proof.
  destruct l as [|a l _] using rev_ind; [done|]. rewrite seg_app, final_snoc.
  intros (_ & Ha & (c & Hc & Hs & _ & _ & Hn) & _) _. split; [by apply chunk_addr_ptr|]. by exists c.
Qed.

Lemma first_null s sz p l : seg s sz p l NULL -> first NULL l = NULL <-> l = [].
Proof.
  intros H. split; [|by intros ->]. destruct l as [|a l]; [done|].
  by destruct (seg_first _ _ _ _ _ H ltac:(done)) as [E _].
Qed.

Lemma final_null s sz l nx : seg s sz NULL l nx -> final NULL l = NULL <-> l = [].
Proof.
  intros H. split; [|by intros ->]. destruct (decide (l = [])); [done|].
  by destruct (seg_final _ _ _ _ _ H ltac:(done)) as [E _].
Qed.

(** A segment's sizes survive relinking. *)
Lemma sized_first l' s s' sz p l nx :
  relinked l' s s' -> seg s sz p l nx -> l <> [] ->
  exists c, s' !! first nx l = Some c /\ c_size c = sz.
Proof.
  intros Hr H Hl. destruct (seg_first _ _ _ _ _ H Hl) as (_ & c & Hc & <- & _).
  by eapply relinked_size.
Qed.

Lemma wp_set_head fl v s (Q : FreeList -> chunk_map -> Prop) :
  (v <> NULL -> exists c, s !! v = Some c /\ c_size c = _size fl) ->
  Q (FreeLists.with_head fl v) s -> wp (FreeLists.set_head fl v) Q s.
Proof.
  intros Hc HQ. apply wp_bind, wp_assert_chunk.
  - intros Hv. destruct (Hc Hv) as (c & ? & ?). exists c. split; [done|]. by apply Z.eqb_eq.
  - by apply wp_ret.
Qed.

Lemma wp_set_tail fl v s (Q : FreeList -> chunk_map -> Prop) :
  (v <> NULL -> exists c, s !! v = Some c /\ c_size c = _size fl) ->
  Q (FreeLists.with_tail fl v) s -> wp (FreeLists.set_tail fl v) Q s.
Proof.
  intros Hc HQ. apply wp_bind, wp_assert_chunk.
  - intros Hv. destruct (Hc Hv) as (c & ? & ?). exists c. split; [done|]. by apply Z.eqb_eq.
  - by apply wp_ret.
Qed.

Lemma wp_link_head fl v l s p nx (Q : FreeList -> chunk_map -> Prop) :
  v = first NULL l -> seg s (_size fl) p l nx ->
  Q (FreeLists.with_head fl v) (relink_prev NULL l s) -> wp (FreeLists.link_head fl v) Q s.
Proof.
  intros -> Hl HQ. apply wp_bind. destruct l as [|a l].
  { apply wp_set_head; [done|]. apply wp_bind, wp_when; [done|]. intros _. by apply wp_ret. }
  destruct (seg_first _ _ _ _ _ Hl ltac:(done)) as (Ha & c & Hc & Hs & _). apply wp_set_head; [eauto|].
  apply wp_bind, wp_when; [|intros E; by apply negb_false_iff, Z.eqb_eq in E].
  intros _. eapply wp_linkPrev; [done|]. by apply wp_ret.
Qed.

Lemma wp_link_tail fl v l s p nx (Q : FreeList -> chunk_map -> Prop) :
  v = final NULL l -> seg s (_size fl) p l nx ->
  Q (FreeLists.with_tail fl v) (relink_next l NULL s) -> wp (FreeLists.link_tail fl v) Q s.
Proof.
  intros -> Hl HQ. apply wp_bind. destruct l as [|a l _] using rev_ind.
  { apply wp_set_tail; [done|]. apply wp_bind, wp_when; [done|]. intros _. by apply wp_ret. }
  destruct (seg_final _ _ _ _ _ Hl ltac:(by destruct l)) as (Ha & c & Hc & Hs & _).
  rewrite final_snoc in *. apply wp_set_tail; [eauto|].
  apply wp_bind, wp_when; [|intros E; by apply negb_false_iff, Z.eqb_eq in E].
  intros _. eapply wp_linkNext; [done|]. apply wp_ret. unfold relink_next in HQ.
  by rewrite last_snoc in HQ.
Qed.

Lemma list_head_chunk s fl l :
  list_of s fl l -> _head fl <> NULL ->
  exists c, s !! _head fl = Some c /\ prev c = NULL /\ c_size c = _size fl.
Proof.
  intros [-> _ _ _ Hl] Hn. destruct (decide (l = [])) as [->|Hne]; [done|].
  destruct (seg_first _ _ _ _ _ Hl Hne) as (_ & c & ? & ? & ?). by exists c.
Qed.

Lemma list_tail_chunk s fl l :
  list_of s fl l -> _tail fl <> NULL ->
  exists c, s !! _tail fl = Some c /\ c_next c = NULL /\ c_size c = _size fl.
Proof.
  intros [_ -> _ _ Hl] Hn. destruct (decide (l = [])) as [->|Hne]; [done|].
  destruct (seg_final _ _ _ _ _ Hl Hne) as (_ & c & ? & ? & ?). by exists c.
Qed.

Lemma wp_list_invariant s fl l (Q : unit -> chunk_map -> Prop) :
  list_of s fl l -> Q tt s -> wp (FreeLists.list_invariant fl) Q s.
Proof.
  intros Hl HQ. apply wp_bind, wp_assert_chunk; [|apply wp_assert_chunk; [|done]]; intros Hn.
  - destruct (list_head_chunk _ _ _ Hl Hn) as (c & ? & E & _). exists c. by rewrite E.
  - destruct (list_tail_chunk _ _ _ Hl Hn) as (c & ? & E & _). exists c. by rewrite E.
Qed.

Lemma wp_items_of_size s fl l (Q : unit -> chunk_map -> Prop) :
  list_of s fl l -> Q tt s -> wp (FreeLists.items_of_size fl) Q s.
Proof.
  intros Hl HQ. apply wp_bind, wp_assert_chunk; [|apply wp_assert_chunk; [|done]]; intros Hn.
  - destruct (list_head_chunk _ _ _ Hl Hn) as (c & ? & _ & E). exists c. by rewrite E, Z.eqb_refl.
  - destruct (list_tail_chunk _ _ _ Hl Hn) as (c & ? & _ & E). exists c. by rewrite E, Z.eqb_refl.
Qed.

Lemma wp_decrement_count fl n s (Q : FreeList -> chunk_map -> Prop) :
  _count fl = n + 1 -> 0 <= n < 2 ^ 62 -> Q (FreeLists.set_count fl n) s ->
  wp (FreeLists.decrement_count fl) Q s.
Proof.
  intros Hc Hn HQ. unfold FreeLists.decrement_count. rewrite Hc.
  replace (s64 (n + 1 - 1)) with n by (rewrite wraps_id; unfold is_s; lia).
  apply wp_bind, wp_check; [cbn; lia|]. by apply wp_ret.
Qed.

(** What the operations on a list keep: everything but links, count and the bytes
    recorded as returned *)
Definition kept (fl fl' : FreeList) : Prop :=
  _size fl' = _size fl /\ _hint fl' = _hint fl /\
  set_returnedBytes (_allocation_stats fl') 0 = set_returnedBytes (_allocation_stats fl) 0.

(** Case analysis on a comparison with NULL *)
Ltac null_case E :=
  match goal with |- context [?x =? NULL] => destruct (Z.eqb_spec x NULL) as [E|E] end.

(** At the closing assertions, claim that the list is [l]. *)
Ltac represents l H :=
  match goal with |- wp (FreeLists.list_invariant ?fl) _ ?s => assert (list_of s fl l) as H end.

Lemma getChunkAtHead_spec s fl l (Q : Z * FreeList -> chunk_map -> Prop) :
  list_of s fl l ->
  (forall fl' s', list_of s' fl' (drop 1 l) -> kept fl fl' -> relinked l s s' ->
     Q (first NULL l, fl') s') ->
  wp (FreeLists.getChunkAtHead fl) Q s.
Proof.
  intros Hl HQ. pose proof (list_of_bound _ _ _ Hl) as Hb. apply wp_bind.
  eapply wp_list_invariant; [done|]. destruct (Hl) as [Eh Et Ec Hd Hs]. cbv zeta.
  rewrite Eh. destruct l as [|a l].
  { apply wp_bind, wp_ret, wp_bind. eapply wp_list_invariant; [done|]. apply wp_ret, HQ; done. }
  cbn [seg first] in *. destruct Hs as (Ha & (c & Hc & Hsz & Hp & Hf & Hn) & Hs).
  destruct (chunk_addr_ptr a Ha) as [_ Hnn]. rewrite (proj2 (Z.eqb_neq _ _) Hnn).
  apply NoDup_cons in Hd as [Hal Hd]. cbn [drop] in HQ. cbn [length] in *.
  apply wp_bind, wp_bind. eapply wp_chunk; [done|]. cbv zeta. rewrite Hn. apply wp_bind.
  destruct l as [|b l].
  - eapply (wp_link_tail fl NULL []); [done..|]. apply wp_bind.
    eapply (wp_link_head _ _ []); [done..|].
    apply (wp_decrement_count _ 0); [cbn; by rewrite Ec|lia|].
    assert (list_of s (FreeLists.set_count (FreeLists.with_head (FreeLists.with_tail fl NULL) NULL) 0) [])
      as Hl' by (split; done || constructor).
    apply wp_bind. eapply wp_list_invariant; [done|]. apply wp_ret. by apply HQ.
  - cbn [first]. destruct (seg_first _ _ _ _ _ Hs ltac:(done)) as (Hb' & cb & Hcb & _). cbn in Hb', Hcb.
    rewrite (proj2 (Z.eqb_neq _ _) Hb').
    pose proof (seg_relink_prev _ _ _ NULL _ _ Hd null_ptr Hs) as Hs1.
    pose proof (seg_relink_prev _ _ _ NULL _ _ Hd null_ptr Hs1) as Hs2.
    apply wp_bind. eapply wp_linkPrev; [done|]. apply wp_ret. apply wp_bind.
    eapply (wp_link_head _ _ (b :: l)); [done|exact Hs1|].
    apply (wp_decrement_count _ (zlen (b :: l))); [cbn; rewrite Ec; cbn; lia|cbn in *; lia|].
    apply wp_bind. represents (b :: l) Hl'.
    { split; cbn [FreeLists.set_count FreeLists.with_head _head _tail _count _size]; done. }
    eapply wp_list_invariant; [exact Hl'|]. apply wp_ret, HQ; [exact Hl'|done|].
    eapply relinked_trans;
      (eapply relinked_weaken; [exact (relinked_prev NULL (b :: l) _)|set_solver]).
Qed.

(** Two parts of a list, linked from outside to [x] and [y] *)
Definition parts (s : chunk_map) (sz : Z) (l1 : list Z) (x y : Z) (l2 : list Z) : Prop :=
  NoDup (l1 ++ l2) /\ seg s sz NULL l1 x /\ seg s sz y l2 NULL.

Lemma parts_relink_next s sz l1 x y l2 q :
  parts s sz l1 x y l2 -> parts (relink_next l1 q s) sz l1 q y l2.
Proof.
  intros (Hd & H1 & H2). split; [done|]. apply NoDup_app in Hd as (Hd1 & Hd & _).
  split; [by eapply seg_relink_next|]. eapply seg_relinked; [apply relinked_next| |done].
  intros a Ha Ha'. by apply (Hd a).
Qed.

Lemma parts_relink_prev s sz l1 x y l2 q :
  ptr_ok q -> parts s sz l1 x y l2 -> parts (relink_prev q l2 s) sz l1 x q l2.
Proof.
  intros Hq (Hd & H1 & H2). split; [done|]. apply NoDup_app in Hd as (_ & Hd & Hd2).
  split; [|by eapply seg_relink_prev]. eapply seg_relinked; [apply relinked_prev| |done].
  intros a Ha Ha'. by apply (Hd a).
Qed.

Lemma parts_join s sz l1 l2 :
  parts s sz l1 (first NULL l2) (final NULL l1) l2 -> seg s sz NULL (l1 ++ l2) NULL.
Proof. intros (_ & H1 & H2). by apply seg_app. Qed.

Lemma parts_split s sz l1 a l2 :
  NoDup (l1 ++ a :: l2) -> seg s sz NULL (l1 ++ a :: l2) NULL ->
  parts s sz l1 a a l2 /\ (a ∉ l1 ++ l2) /\ chunk_addr a /\
  exists c, s !! a = Some c /\ c_size c = sz /\ prev c = final NULL l1 /\ isFree c = true /\
    c_next c = first NULL l2.
Proof.
  intros Hd. rewrite seg_app. cbn [seg first]. intros (H1 & Ha & Hc & H2).
  rewrite <- Permutation_middle in Hd. apply NoDup_cons in Hd as [Hn Hd]. done.
Qed.

(** Unlinking from the next chunk, then from the previous one *)
Lemma wp_unlink_next s fl l1 a l2 (Q : FreeList -> chunk_map -> Prop) :
  parts s (_size fl) l1 a a l2 ->
  (forall x s', parts s' (_size fl) l1 x (final NULL l1) l2 -> (l2 = [] -> x = NULL) ->
     relinked (l1 ++ l2) s s' ->
     Q (if decide (l2 = []) then FreeLists.with_tail fl (final NULL l1) else fl) s') ->
  wp (if negb (first NULL l2 =? NULL) then linkPrev (first NULL l2) (final NULL l1) ;; mret fl
      else FreeLists.link_tail fl (final NULL l1)) Q s.
Proof.
  intros Hp HQ. destruct (Hp) as (_ & H1 & H2). destruct l2 as [|b l2].
  - eapply wp_link_tail; [done|exact H1|]. apply (HQ NULL); [by eapply parts_relink_next|done|].
    rewrite app_nil_r. apply relinked_next.
  - destruct (seg_first _ _ _ _ _ H2 ltac:(done)) as (Hb & c & Hc & _). cbn [first] in *.
    rewrite (proj2 (Z.eqb_neq _ _) Hb). apply wp_bind. eapply wp_linkPrev; [done|]. apply wp_ret.
    apply (HQ a); [|done|].
    + eapply (parts_relink_prev _ _ _ _ _ (b :: l2)); [|done]. by eapply ptr_final; [|apply H1].
    + eapply relinked_sub; [apply (relinked_prev _ (b :: l2))|set_solver].
Qed.

Lemma wp_unlink_prev s fl l1 x l2 (Q : FreeList -> chunk_map -> Prop) :
  parts s (_size fl) l1 x (final NULL l1) l2 ->
  (_tail fl = final NULL l1 -> l1 <> [] -> l2 = []) ->
  (forall s', parts s' (_size fl) l1 (first NULL l2) (final NULL l1) l2 -> relinked (l1 ++ l2) s s' ->
     Q (if decide (l1 = []) then FreeLists.with_head fl (first NULL l2) else fl) s') ->
  wp (if final NULL l1 =? NULL then
        fl ← FreeLists.link_head fl (first NULL l2);
        assert_chunk (first NULL l2) (fun c => prev c =? NULL) ;; mret fl
      else
        linkNext (final NULL l1) (first NULL l2) ;;
        when (_tail fl =? final NULL l1) (c ← chunk (final NULL l1); check (c_next c =? NULL)) ;;
        mret fl) Q s.
Proof.
  intros Hp Ht HQ. destruct (Hp) as (_ & H1 & H2). destruct (decide (l1 = [])) as [->|Hne].
  - cbn [final last default]. cbn. apply wp_bind. eapply wp_link_head; [done|exact H2|].
    pose proof (parts_relink_prev _ _ _ _ _ _ NULL null_ptr Hp) as Hp'. apply wp_bind, wp_assert_chunk.
    + intros Hn. destruct (Hp') as (_ & _ & H2'). destruct (decide (l2 = [])) as [->|Hl2]; [done|].
      destruct (seg_first _ _ _ _ _ H2' Hl2) as (_ & c & Hc & _ & E). exists c. by rewrite E.
    + apply wp_ret. eapply (HQ (relink_prev NULL l2 s)); [|apply relinked_prev]. done.
  - destruct (seg_final _ _ _ _ _ H1 Hne) as (Hn & c & Hc & _). rewrite (proj2 (Z.eqb_neq _ _) Hn).
    pose proof (parts_relink_next _ _ _ _ _ _ (first NULL l2) Hp) as Hp'.
    apply wp_bind. eapply wp_linkNext; [done|].
    rewrite <- relink_next_final by done.
    apply wp_bind, wp_when; [|intros _; apply wp_ret, HQ; [done|]].
    + intros E%Z.eqb_eq. destruct Hp' as (_ & H1' & _).
      destruct (seg_final _ _ _ _ _ H1' Hne) as (_ & c' & Hc' & _ & E'). apply wp_bind.
      eapply wp_chunk; [done|]. apply wp_check.
      * rewrite E', (Ht E Hne). done.
      * apply wp_ret, HQ; [by eapply parts_relink_next|]. eapply relinked_sub; [apply relinked_next|set_solver].
    + eapply relinked_sub; [apply relinked_next|set_solver].
Qed.

(** Clearing the links of a chunk that is in no list *)
Lemma wp_clear_links a c s (k : cm FreeList) (Q : FreeList -> chunk_map -> Prop) :
  s !! a = Some c ->
  (forall s', s' !! a = Some (mkFreeChunk (c_size c) 1 NULL) -> relinked [a] s s' -> wp k Q s') ->
  wp (linkPrev a NULL ;; linkNext a NULL ;; k) Q s.
Proof.
  intros Hc HQ. apply wp_bind. eapply wp_linkPrev; [done|]. apply wp_bind.
  eapply wp_linkNext; [by rewrite lookup_alter_eq, Hc|]. apply HQ.
  - by rewrite !lookup_alter_eq, Hc.
  - eapply relinked_trans; apply relinked_alter; auto using isFree_with_prev.
Qed.

Lemma list_of_frame s s' fl l :
  (forall a, a ∈ l -> s' !! a = s !! a) -> list_of s fl l -> list_of s' fl l.
Proof. intros Hs []. split; try done. by eapply seg_frame. Qed.

Lemma list_of_relinked l' s s' fl l :
  relinked l' s s' -> (forall a, a ∈ l -> a ∉ l') -> list_of s fl l -> list_of s' fl l.
Proof. intros Hr Hd []. split; try done. by eapply seg_relinked. Qed.

Lemma final_nonempty p q l : l <> [] -> final p l = final q l.
Proof. destruct l as [|? ? _] using rev_ind; [done|]. by rewrite !final_snoc. Qed.

(** The trap code of [removeChunk] *)
Lemma wp_empty_trap s fl l (Q : unit -> chunk_map -> Prop) :
  list_of s fl l -> Q tt s ->
  wp (when (_head fl =? NULL) (check (_tail fl =? NULL) ;; check (_count fl =? 0))) Q s.
Proof.
  intros [Eh Et Ec _ Hs] HQ. apply wp_when; [|done]. rewrite Eh, Et, Ec.
  intros E%Z.eqb_eq. apply (first_null _ _ _ _ Hs) in E as ->. apply wp_bind, wp_check; [done|].
  by apply wp_check.
Qed.

(** The tail of the list is not the chunk before an inner one. *)
Lemma tail_not_prev l1 a l2 :
  NoDup (l1 ++ a :: l2) -> l1 <> [] -> final NULL (l1 ++ a :: l2) <> final NULL l1.
Proof.
  intros (_ & Hd & _)%NoDup_app Hne E. rewrite final_app, final_cons in E.
  destruct (final_elem NULL l1) as [[_ ?]|He1]; [done|]. apply (Hd _ He1). rewrite <- E.
  destruct (final_elem a l2) as [[-> _]|He]; set_solver.
Qed.

Lemma removeChunk_spec s fl l1 a l2 (Q : FreeList -> chunk_map -> Prop) :
  list_of s fl (l1 ++ a :: l2) ->
  (forall fl' s', list_of s' fl' (l1 ++ l2) -> kept fl fl' -> relinked (l1 ++ a :: l2) s s' ->
     Q fl' s') ->
  wp (FreeLists.removeChunk fl a) Q s.
Proof.
  intros Hl HQ. pose proof (list_of_bound _ _ _ Hl) as Hb. destruct (Hl) as [Eh Et Ec Hd Hs].
  destruct (parts_split _ _ _ _ _ Hd Hs) as (Hp & Hal & Ha & c & Hc & Hsz & Hpr & Hf & Hn).
  destruct (chunk_addr_ptr a Ha) as [_ Hnn].
  apply wp_bind, wp_check.
  { rewrite Eh. apply negb_true_iff, Z.eqb_neq. apply (seg_first _ _ _ _ _ Hs); by destruct l1. }
  apply wp_bind, wp_check; [by apply negb_true_iff, Z.eqb_neq|].
  apply wp_bind. eapply wp_chunk; [done|]. apply wp_bind, wp_check; [by apply Z.eqb_eq|].
  apply wp_bind. eapply wp_list_invariant; [done|]. cbv zeta. rewrite Hpr, Hn. apply wp_bind.
  eapply wp_unlink_next; [done|]. intros x s1 Hp1 Hx Hr1. apply wp_bind.
  set (fl1 := if decide (l2 = []) then _ else fl) in *.
  assert (_size fl1 = _size fl) as E1 by (unfold fl1; by case_decide). rewrite <- E1 in Hp1.
  eapply wp_unlink_prev; [done| |].
  { unfold fl1. case_decide; [done|]. intros Ht Hne. exfalso. rewrite Et in Ht.
    by apply (tail_not_prev l1 a l2). }
  intros s2 Hp2 Hr2. set (fl2 := if decide (l1 = []) then _ else fl1) in *.
  apply wp_bind, (wp_decrement_count _ (zlen (l1 ++ l2))).
  { replace (_count fl2) with (_count fl) by (unfold fl2, fl1; by repeat case_decide).
    rewrite Ec, !length_app. cbn. lia. }
  { rewrite !length_app in *. cbn in *. lia. }
  assert (list_of s2 (FreeLists.set_count fl2 (zlen (l1 ++ l2))) (l1 ++ l2)) as Hl2.
  { split; [| |done|apply Hp2|]; cbn [FreeLists.set_count _head _tail _size].
    - unfold fl2, fl1. repeat case_decide; subst; cbn; rewrite ?Eh; try done; by destruct l1.
    - unfold fl2, fl1. repeat case_decide; subst; cbn; rewrite ?Et, ?app_nil_r, ?final_app, ?final_cons; try done.
      all: by apply final_nonempty.
    - replace (_size fl2) with (_size fl1) by (unfold fl2; by case_decide). by apply parts_join. }
  apply wp_bind. eapply wp_empty_trap; [done|].
  pose proof (relinked_trans _ _ _ _ Hr1 Hr2) as Hr.
  eapply relinked_size in Hc as (c2 & Hc2 & _); [|exact Hr].
  eapply wp_clear_links; [done|]. intros s3 Hc3 Hr3. apply wp_bind. eapply wp_chunk; [done|].
  apply wp_bind, wp_check; [done|]. apply wp_bind. represents (l1 ++ l2) Hl3.
  { eapply list_of_relinked; [done| |done]. set_solver. }
  eapply wp_list_invariant; [done|]. apply wp_bind. eapply wp_items_of_size; [done|].
  apply wp_ret, HQ; [done| |].
  - unfold fl2, fl1. by repeat case_decide.
  - eapply relinked_trans; eapply relinked_sub; [exact Hr| |exact Hr3|]; set_solver.
Qed.

(** Entering a chunk into a list: it is not in it, and of the right size. *)
Definition fresh (s : chunk_map) (sz : Z) (a : Z) (l : list Z) : Prop :=
  chunk_addr a /\ (a ∉ l) /\ exists c, s !! a = Some c /\ c_size c = sz.

Lemma wp_link_head_new fl a s c (Q : FreeList -> chunk_map -> Prop) :
  chunk_addr a -> s !! a = Some c -> c_size c = _size fl ->
  Q (FreeLists.with_head fl a) (alter (fun c => with_prev c NULL) a s) ->
  wp (FreeLists.link_head fl a) Q s.
Proof.
  intros [_ Ha]%chunk_addr_ptr Hc Hs HQ. apply wp_bind, wp_set_head; [eauto|].
  rewrite (proj2 (Z.eqb_neq _ _) Ha). apply wp_bind. eapply wp_linkPrev; [done|]. by apply wp_ret.
Qed.

Lemma wp_link_tail_new fl a s c (Q : FreeList -> chunk_map -> Prop) :
  chunk_addr a -> s !! a = Some c -> c_size c = _size fl ->
  Q (FreeLists.with_tail fl a) (alter (fun c => with_next c NULL) a s) ->
  wp (FreeLists.link_tail fl a) Q s.
Proof.
  intros [_ Ha]%chunk_addr_ptr Hc Hs HQ. apply wp_bind, wp_set_tail; [eauto|].
  rewrite (proj2 (Z.eqb_neq _ _) Ha). apply wp_bind. eapply wp_linkNext; [done|]. by apply wp_ret.
Qed.

(** [p->linkAfter(...)] onto the first chunk of [l] *)
Lemma wp_linkAfter s sz a c x l (Q : unit -> chunk_map -> Prop) :
  s !! a = Some c -> a ∉ l -> seg s sz x l NULL ->
  Q tt (relink_prev a l (alter (fun c => with_next c (first NULL l)) a s)) ->
  wp (linkAfter a (first NULL l)) Q s.
Proof.
  intros Hc Ha Hl HQ. apply wp_bind. eapply wp_linkNext; [done|]. destruct l as [|b l].
  { by apply wp_when. }
  destruct (seg_first _ _ _ _ _ Hl ltac:(done)) as (Hb & cb & Hcb & _). cbn [first] in *.
  rewrite (proj2 (Z.eqb_neq _ _) Hb). eapply wp_linkPrev; [|done].
  rewrite lookup_alter_ne; [done|]. set_solver.
Qed.

Lemma relink_prev_ne q l s a : a ∉ l -> relink_prev q l s !! a = s !! a.
Proof. intros Ha. destruct l as [|b l]; [done|]. apply lookup_alter_ne. set_solver. Qed.

Lemma relink_next_ne q l s a : a ∉ l -> relink_next l q s !! a = s !! a.
Proof.
  intros Ha. unfold relink_next. destruct l as [|b l _] using rev_ind; [done|]. rewrite last_snoc.
  apply lookup_alter_ne. set_solver.
Qed.

Lemma record_returned_list s fl l b : list_of s fl l -> list_of s (FreeLists.record_returned fl b) l.
Proof. intros []. by destruct b; split. Qed.

Lemma kept_record fl b : kept fl (FreeLists.record_returned fl b).
Proof. by destruct b. Qed.

(** The closing assertions after a chunk has been entered *)
Lemma wp_entered s s' fl fl' l l' b (Q : FreeList -> chunk_map -> Prop) :
  list_of s' (FreeLists.increment_count fl') l' -> kept fl fl' -> relinked l s s' ->
  (forall fl' s', list_of s' fl' l' -> kept fl fl' -> relinked l s s' -> Q fl' s') ->
  wp (let fl := FreeLists.record_returned (FreeLists.increment_count fl') b in
      FreeLists.list_invariant fl ;; FreeLists.items_of_size fl ;; mret fl) Q s'.
Proof.
  intros Hl Hk Hr HQ. cbv zeta. apply (record_returned_list _ _ _ b) in Hl.
  apply wp_bind. eapply wp_list_invariant; [done|]. apply wp_bind.
  eapply wp_items_of_size; [done|]. apply wp_ret, HQ; [done| |done]. by destruct b.
Qed.

Lemma returnChunkAtHead_spec s fl l a b (Q : FreeList -> chunk_map -> Prop) :
  list_of s fl l -> fresh s (_size fl) a l ->
  (forall fl' s', list_of s' fl' (a :: l) -> kept fl fl' -> relinked (a :: l) s s' -> Q fl' s') ->
  wp (FreeLists.returnChunkAtHead fl a b) Q s.
Proof.
  intros Hl (Ha & Hal & c & Hc & Hsz) HQ. pose proof (list_of_bound _ _ _ Hl) as Hb.
  destruct (chunk_addr_ptr a Ha) as [Hap Hnn]. destruct (Hl) as [Eh Et Ec Hd Hs].
  apply wp_bind, wp_check; [by apply negb_true_iff, Z.eqb_neq|].
  apply wp_bind. eapply wp_chunk; [done|]. apply wp_bind, wp_check; [by apply Z.eqb_eq|].
  apply wp_bind. eapply wp_list_invariant; [done|]. cbv zeta. rewrite Eh. apply wp_bind, wp_check.
  { apply negb_true_iff, Z.eqb_neq. intros ->. destruct (first_elem NULL l) as [[? _]|?]; [congruence|done]. }
  apply wp_bind. eapply wp_linkAfter; [done..|]. apply wp_bind.
  set (s1 := alter (fun c => with_next c (first NULL l)) a s).
  assert (s1 !! a = Some (with_next c (first NULL l))) as Hc1 by (unfold s1; by rewrite lookup_alter_eq, Hc).
  eapply wp_link_head_new; [done|by rewrite relink_prev_ne|done|].
  set (s2 := alter _ a (relink_prev a l s1)).
  assert (s2 !! a = Some (with_prev (with_next c (first NULL l)) NULL)) as Hc2.
  { unfold s2. by rewrite lookup_alter_eq, relink_prev_ne, Hc1. }
  assert (seg s2 (_size fl) NULL (a :: l) NULL) as Hs2.
  { split_and!; [done|..].
    - exists (with_prev (with_next c (first NULL l)) NULL).
      by rewrite prev_with_prev, isFree_with_prev.
    - apply seg_alter_ne; [done|]. eapply seg_relink_prev; [done..|]. by apply seg_alter_ne. }
  assert (relinked (a :: l) s s2) as Hr2 by (unfold s2, s1; relink).
  assert (s64 (_count fl + 1) = zlen (a :: l)) as Ec'.
  { rewrite Ec, wraps_id; unfold is_s; cbn [length]; lia. }
  apply wp_bind. destruct l as [|b' l].
  - apply wp_bind, wp_check; [cbn; by rewrite Et|]. eapply wp_link_tail_new; [done..|].
    eapply wp_entered; [|done| |exact HQ].
    + split; try done; [by apply NoDup_singleton|]. eapply (seg_relink_next _ _ _ [a]); [apply NoDup_singleton|done].
    + relink.
  - destruct (seg_first _ _ _ _ _ Hs ltac:(done)) as [Hb' _]. cbn [first] in Hb' |- *.
    rewrite (proj2 (Z.eqb_neq _ _) Hb'). apply wp_ret. eapply wp_entered; [|done|exact Hr2|exact HQ].
    split; try done. by constructor.
Qed.

(** A chunk linked after a segment *)
Lemma seg_snoc s sz l a c :
  seg s sz NULL l NULL -> NoDup l -> a ∉ l -> chunk_addr a -> s !! a = Some c -> c_size c = sz ->
  seg (alter (fun c => with_next c NULL) a
        (alter (fun c => with_prev c (final NULL l)) a (relink_next l a s))) sz NULL (l ++ [a]) NULL.
Proof.
  intros Hs Hd Hal Ha Hc Hsz. apply seg_app. split.
  - do 2 (apply seg_alter_ne; [done|]). by eapply seg_relink_next.
  - cbn [seg]. split_and!; [done| |done]. eexists. rewrite !lookup_alter_eq, relink_next_ne, Hc by done.
    split_and!; [done..| |apply isFree_with_prev|done].
    apply (prev_with_prev c). by eapply ptr_final.
Qed.

Lemma returnChunkAtTail_spec s fl l a b (Q : FreeList -> chunk_map -> Prop) :
  list_of s fl l -> fresh s (_size fl) a l ->
  (forall fl' s', list_of s' fl' (l ++ [a]) -> kept fl fl' -> relinked (l ++ [a]) s s' -> Q fl' s') ->
  wp (FreeLists.returnChunkAtTail fl a b) Q s.
Proof.
  intros Hl (Ha & Hal & c & Hc & Hsz) HQ. pose proof (list_of_bound _ _ _ Hl) as Hb.
  destruct (chunk_addr_ptr a Ha) as [Hap Hnn]. destruct (Hl) as [Eh Et Ec Hd Hs].
  apply wp_bind. eapply wp_list_invariant; [done|].
  apply wp_bind, wp_check; [by apply negb_true_iff, Z.eqb_neq|].
  apply wp_bind. eapply wp_chunk; [done|]. apply wp_bind, wp_check; [by apply Z.eqb_eq|].
  cbv zeta. rewrite Et. apply wp_bind, wp_check.
  { apply negb_true_iff, Z.eqb_neq. intros ->. destruct (final_elem NULL l) as [[? _]|?]; [congruence|done]. }
  set (s1 := relink_next l a s).
  assert (s1 !! a = Some c) as Hc1 by (unfold s1; by rewrite relink_next_ne).
  apply wp_bind, (wp_mono _ (fun fl' s' => fl' = (if decide (l = []) then FreeLists.with_head fl a else fl) /\
    s' = alter (fun c => with_prev c (final NULL l)) a s1)).
  { destruct (decide (l = [])) as [->|Hne].
    - apply wp_bind, wp_check; [by rewrite Eh|]. by eapply wp_link_head_new.
    - destruct (seg_final _ _ _ _ _ Hs Hne) as (Hn & cf & Hcf & _).
      rewrite (proj2 (Z.eqb_neq _ _) Hn). apply wp_bind, wp_bind. eapply wp_linkNext; [done|].
      rewrite (proj2 (Z.eqb_neq _ _) Hnn). rewrite <- (relink_next_final l a s) by done.
      eapply wp_linkPrev; [done|]. by apply wp_ret. }
  intros fl1 s2 [-> ->]. apply wp_bind. eapply (wp_link_tail_new _ _ _ (with_prev c (final NULL l))); [done|..].
  { by rewrite lookup_alter_eq, Hc1. }
  { by case_decide. }
  eapply (wp_entered s _ _ _ (l ++ [a]) (l ++ [a])); [|by case_decide|unfold s1; relink|exact HQ].
  split.
  - cbn. case_decide; subst; cbn; [done|]. rewrite Eh. by destruct l.
  - by rewrite final_snoc; case_decide.
  - replace (_count _) with (s64 (_count fl + 1)) by by case_decide.
    rewrite Ec, wraps_id; unfold is_s; rewrite ?length_app; cbn [length]; lia.
  - apply NoDup_app. split_and!; [done|set_solver|apply NoDup_singleton].
  - replace (_size _) with (_size fl) by by case_decide. by eapply seg_snoc.
Qed.

Lemma seg_fuel s sz p l nx : NoDup l -> seg s sz p l nx -> (length l <= size s)%nat.
Proof.
  intros Hd Hs. rewrite <- (size_list_to_set (C := gset Z) l) by done. rewrite <- size_dom.
  apply subseteq_size. intros a Ha%elem_of_list_to_set. apply elem_of_dom.
  destruct (seg_elem _ _ _ _ _ _ Hs Ha) as (_ & c & -> & _). done.
Qed.

Lemma search_loop_spec s sz p fc l fuel (Q : bool -> chunk_map -> Prop) :
  seg s sz p l NULL -> (length l < fuel)%nat -> Q (bool_decide (fc ∈ l)) s ->
  wp (FreeLists.search_loop fuel sz fc (first NULL l)) Q s.
Proof.
  revert p fuel. induction l as [|a l IH]; intros p [|fuel] Hs Hf HQ; cbn [length] in Hf; try lia.
  - by apply wp_ret.
  - destruct Hs as (Ha & (c & Hc & Hsz & _ & _ & Hn) & Hs). cbn [FreeLists.search_loop first].
    destruct (chunk_addr_ptr a Ha) as [_ Hnn]. rewrite (proj2 (Z.eqb_neq _ _) Hnn).
    apply wp_bind. eapply wp_chunk; [done|]. apply wp_bind, wp_check; [by apply Z.eqb_eq|].
    destruct (Z.eqb_spec fc a) as [->|Hne].
    + apply wp_ret. by rewrite bool_decide_eq_true_2 in HQ by left.
    + rewrite Hn. eapply IH; [done|lia|]. erewrite bool_decide_ext; [exact HQ|].
      rewrite elem_of_cons. naive_solver.
Qed.

Lemma verifyChunkInFreeLists_spec s fl l a c (Q : bool -> chunk_map -> Prop) :
  list_of s fl l -> s !! a = Some c -> c_size c = _size fl -> Q (bool_decide (a ∈ l)) s ->
  wp (FreeLists.verifyChunkInFreeLists fl a) Q s.
Proof.
  intros [Eh _ _ Hd Hs] Hc Hsz HQ. apply wp_bind. eapply wp_chunk; [done|].
  apply wp_bind, wp_check; [by apply Z.eqb_eq|]. rewrite Eh.
  assert (wp (FreeLists.search_loop (S (size s)) (_size fl) a (first NULL l)) Q s) as (r & s' & E & HQ').
  { eapply search_loop_spec; [done| |done]. pose proof (seg_fuel _ _ _ _ _ Hd Hs). lia. }
  by exists r, s'.
Qed.

Lemma prepend_spec s this fl l m (Q : FreeList * FreeList -> chunk_map -> Prop) :
  list_of s this l -> list_of s fl m -> NoDup (m ++ l) -> _size fl = _size this ->
  (forall this' fl' s', list_of s' this' (m ++ l) -> list_of s' fl' [] -> kept this this' ->
     kept fl fl' -> relinked (m ++ l) s s' -> Q (this', fl') s') ->
  wp (FreeLists.prepend this fl) Q s.
Proof.
  intros Hl Hm Hd Esz HQ. assert (zlen (m ++ l) <= 2 ^ 61) as Hb.
  { apply chunk_addrs_bound; [done|]. apply Forall_app. split; eapply seg_addrs; [apply Hm|apply Hl]. }
  destruct (Hl) as [Eh Et Ec Hdl Hsl], (Hm) as [Eh' Et' Ec' Hdm Hsm].
  assert (forall s', list_of s' (FreeLists.set_count (FreeLists.with_tail (FreeLists.with_head fl NULL) NULL) 0) [])
    as Hnil by (intros; split; done || constructor).
  unfold FreeLists.prepend. destruct (decide (m = [])) as [->|Hm0].
  { rewrite Ec'. apply wp_ret. by apply HQ. }
  rewrite (proj2 (Z.ltb_lt _ _)) by (rewrite Ec'; destruct m; [done|cbn [length]; lia]).
  destruct (seg_first _ _ _ _ _ Hsm Hm0) as (Hn & ch & Hch & Hchs & _).
  destruct (seg_final _ _ _ _ _ Hsm Hm0) as (Hn' & ct & Hct & Hcts & Hctn).
  apply wp_bind. destruct (decide (l = [])) as [->|Hl0].
  - rewrite Ec. cbn [length Z.of_nat Z.eqb]. apply wp_bind, wp_set_head.
    { intros _. rewrite Eh'. exists ch. split; [done|congruence]. }
    apply wp_bind, wp_set_tail. { intros _. rewrite Et'. exists ct. split; [done|cbn; congruence]. }
    apply wp_ret, wp_bind, wp_set_head; [done|]. apply wp_bind, wp_set_tail; [done|].
    apply wp_ret, HQ; [|done..]. rewrite app_nil_r. split; try done. cbn. by rewrite <- Esz.
  - rewrite (proj2 (Z.eqb_neq _ _)) by (rewrite Ec; destruct l; [done|cbn [length]; lia]).
    destruct (seg_first _ _ _ _ _ Hsl Hl0) as (Hnl & cl & Hcl & _).
    rewrite Et', Eh. apply wp_bind. eapply wp_chunk; [done|].
    apply wp_bind, wp_check; [by rewrite Hctn|]. apply wp_bind. eapply wp_linkNext; [done|].
    apply wp_bind. rewrite <- relink_next_final by done. rewrite Esz in Hsm.
    assert (parts s (_size this) m NULL NULL l) as Hp by done.
    apply (parts_relink_next _ _ _ _ _ _ (first NULL l)) in Hp.
    destruct (Hp) as (_ & _ & Hsl1). destruct (seg_first _ _ _ _ _ Hsl1 Hl0) as (_ & cl1 & Hcl1 & _).
    eapply wp_linkPrev; [done|]. rewrite <- relink_prev_first by done.
    apply (parts_relink_prev _ _ _ _ _ _ (final NULL m)) in Hp; [|by eapply ptr_final].
    set (s2 := relink_prev _ _ _) in *.
    assert (relinked (m ++ l) s s2) as Hr by (unfold s2; relink).
    eapply relinked_size in Hch as (ch' & Hch' & Echs); [|exact Hr].
    apply wp_bind, wp_set_head. { intros _. rewrite Eh'. exists ch'. split; [done|congruence]. }
    apply wp_ret, wp_bind, wp_set_head; [done|]. apply wp_bind, wp_set_tail; [done|].
    apply wp_ret, HQ; [|done..]. split; try done; cbn.
    + rewrite Eh', first_app. by destruct m.
    + by rewrite Et, final_app, (final_nonempty NULL (final NULL m) l).
    + rewrite Ec, Ec', length_app in *. rewrite wraps_id; unfold is_s; lia.
    + by apply parts_join.
Qed.

Lemma first_n_loop_spec s sz p t r n k fuel (Q : Z * Z -> chunk_map -> Prop) :
  seg s sz p (t :: r) NULL -> (length r < fuel)%nat -> is_u 64 n -> 0 <= k -> k + zlen r < 2 ^ 31 ->
  Q (final t (take (Z.to_nat n) r), k + zlen (take (Z.to_nat n) r)) s ->
  wp (FreeLists.first_n_loop fuel t n k) Q s.
Proof.
  revert p t n k fuel. induction r as [|a r IH]; intros p t n k [|fuel] Hs Hf Hn Hk Hb HQ;
    cbn [length] in *; try lia.
  all: destruct Hs as (Ha & (c & Hc & _ & _ & _ & Hx) & Hs); cbn [first] in Hx.
  all: cbn [FreeLists.first_n_loop]; apply wp_bind; eapply wp_chunk; [done|]; rewrite Hx.
  - apply wp_ret. rewrite take_nil in HQ. by rewrite Z.add_0_r in HQ.
  - destruct (seg_first _ _ _ _ _ Hs ltac:(done)) as [Hnn _]. cbn [first] in Hnn.
    rewrite (proj2 (Z.eqb_neq _ _) Hnn). cbn [negb andb]. destruct (Z.ltb_spec 0 n) as [Hp|Hp].
    + replace (u64 (n - 1)) with (n - 1) by (unfold is_u in Hn; rewrite wrapu_id; unfold is_u; lia).
      replace (s32 (k + 1)) with (k + 1) by (rewrite wraps_id; unfold is_s; lia).
      unfold is_u in Hn. eapply IH; [done|lia|unfold is_u; lia|lia|lia|].
      replace (Z.to_nat n) with (S (Z.to_nat (n - 1))) in HQ by lia.
      cbn [take length] in HQ. rewrite final_cons in HQ. by replace (k + 1 + _) with
        (k + Z.of_nat (S (length (take (Z.to_nat (n - 1)) r)))) by lia.
    + replace n with 0 in HQ by (unfold is_u in Hn; lia). apply wp_ret. cbn in HQ.
      by rewrite Z.add_0_r in HQ.
Qed.

(** How many chunks the loop of [getFirstNChunksFromList] takes: for [n = 0] the counter
    wraps around and the whole list goes. *)
Definition code_takes (n : Z) (l : list Z) : nat :=
  if n =? 0 then length l else Z.to_nat n.

Lemma code_takes_split n a r (m := Z.to_nat (u64 (n - 1))) :
  is_u 64 n -> zlen (a :: r) < 2 ^ 31 ->
  take (code_takes n (a :: r)) (a :: r) = a :: take m r /\
  drop (code_takes n (a :: r)) (a :: r) = drop m r.
Proof.
  unfold code_takes, is_u, m. intros Hn Hb. destruct (Z.eqb_spec n 0) as [->|Hn0].
  - change (u64 (0 - 1)) with (2 ^ 64 - 1). cbn [length] in *.
    split; [|by rewrite !drop_ge by (cbn [length]; lia)].
    by rewrite (take_ge (a :: r)), take_ge by (cbn [length]; lia).
  - rewrite wrapu_id by (unfold is_u; lia). by replace (Z.to_nat n) with (S (Z.to_nat (n - 1))) by lia.
Qed.

(** Cutting the list after its part [l1], whose last chunk is [tl] *)
Lemma wp_cut s this fl l1 l2 (Q : FreeList * FreeList -> chunk_map -> Prop) :
  list_of s this (l1 ++ l2) -> l1 <> [] -> _head fl = first NULL l1 -> _size fl = _size this ->
  (forall this' fl' s', list_of s' this' l2 -> list_of s' fl' l1 -> kept this this' -> kept fl fl' ->
     relinked (l1 ++ l2) s s' -> Q (this', fl') s') ->
  wp (c ← chunk (final NULL l1);
      let new_head := c_next c in
      this ← FreeLists.set_head this new_head;
      let this := FreeLists.set_count this (s64 (_count this - zlen l1)) in
      this ← (if new_head =? NULL then FreeLists.set_tail this NULL
              else linkPrev new_head NULL ;; mret this);
      linkNext (final NULL l1) NULL ;;
      fl ← FreeLists.set_tail fl (final NULL l1);
      mret (this, FreeLists.set_count fl (zlen l1))) Q s.
Proof.
  intros Hl Hne Eh Esz HQ. pose proof (list_of_bound _ _ _ Hl) as Hb. destruct Hl as [_ Et Ec Hd Hs].
  apply seg_app in Hs as [Hs1 Hs2]. assert (parts s (_size this) l1 (first NULL l2) (final NULL l1) l2) as Hp by done.
  destruct (seg_final _ _ _ _ _ Hs1 Hne) as (Hn & c & Hc & Hcs & Hcn).
  apply wp_bind. eapply wp_chunk; [done|]. cbv zeta. rewrite Hcn. apply wp_bind, wp_set_head.
  { intros Hnn. destruct (decide (l2 = [])) as [->|Hl2]; [done|].
    destruct (seg_first _ _ _ _ _ Hs2 Hl2) as (_ & c2 & ? & ? & _). by exists c2. }
  apply (parts_relink_prev _ _ _ _ _ _ NULL null_ptr) in Hp. set (s1 := relink_prev _ _ _) in *.
  assert (relinked (l1 ++ l2) s s1) as Hr1 by (unfold s1; relink).
  set (this1 := FreeLists.set_count _ _).
  apply wp_bind, (wp_mono _ (fun t s' => s' = s1 /\
    t = if decide (l2 = []) then FreeLists.with_tail this1 NULL else this1)).
  { destruct (decide (l2 = [])) as [->|Hl2]; [by apply wp_set_tail|].
    destruct (seg_first _ _ _ _ _ Hs2 Hl2) as (Hnn & c2 & Hc2 & _). rewrite (proj2 (Z.eqb_neq _ _) Hnn).
    apply wp_bind. eapply wp_linkPrev; [done|]. apply wp_ret. split; [|done]. by destruct l2. }
  intros this2 s' [-> ->]. eapply relinked_size in Hc as (c1 & Hc1 & Ec1); [|exact Hr1].
  apply wp_bind. eapply wp_linkNext; [done|]. rewrite <- relink_next_final by done.
  apply (parts_relink_next _ _ _ _ _ _ NULL) in Hp. set (s2 := relink_next _ _ _) in *.
  assert (relinked (l1 ++ l2) s s2) as Hr2 by (unfold s2; relink).
  destruct Hp as (_ & Hp1 & Hp2). apply NoDup_app in Hd as (Hd1 & _ & Hd2).
  apply wp_bind, wp_set_tail. { intros _. destruct (seg_final _ _ _ _ _ Hp1 Hne) as (_ & c3 & ? & ? & _). exists c3. split; [done|congruence]. }
  apply wp_ret, HQ; [| |by case_decide|done..].
  - unfold this1. rewrite length_app in *. split; try done; repeat case_decide; subst; cbn; try done.
    + by rewrite Et, final_app, (final_nonempty _ NULL).
    + rewrite Ec, wraps_id; unfold is_s; cbn; lia.
    + rewrite Ec, wraps_id; unfold is_s; cbn; lia.
  - split; try done. cbn. by rewrite Esz.
Qed.

Lemma getFirstN_spec s this fl l n (Q : FreeList * FreeList -> chunk_map -> Prop) :
  list_of s this l -> list_of s fl [] -> _size fl = _size this -> is_u 64 n -> zlen l < 2 ^ 31 ->
  (forall this' fl' s', list_of s' this' (drop (code_takes n l) l) ->
     list_of s' fl' (take (code_takes n l) l) -> kept this this' -> kept fl fl' -> relinked l s s' ->
     Q (this', fl') s') ->
  wp (FreeLists.getFirstNChunksFromList this n fl) Q s.
Proof.
  intros Hl Hm Esz Hn Hb HQ. destruct (Hl) as [Eh Et Ec Hd Hs], (Hm) as [_ _ Ec' _ _].
  apply wp_bind, wp_check; [by rewrite Ec'|]. rewrite Ec. destruct l as [|a r].
  { apply wp_ret. rewrite drop_nil, take_nil in HQ. by apply HQ. }
  rewrite (proj2 (Z.ltb_lt _ _)) by (cbn [length]; lia). rewrite Eh. cbn [first].
  destruct (seg_first _ _ _ _ _ Hs ltac:(done)) as (Ha & ca & Hca & Hcs & _). cbn [first] in Ha, Hca.
  apply wp_bind, wp_set_head. { intros _. exists ca. split; [done|congruence]. }
  cbv zeta. destruct (code_takes_split n a r Hn Hb) as [ET ED]. rewrite ET, ED in HQ.
  set (m := Z.to_nat (u64 (n - 1))) in *. set (l1 := a :: take m r) in *. set (l2 := drop m r) in *.
  assert (a :: r = l1 ++ l2) as El by (unfold l1, l2; cbn; by rewrite take_drop).
  apply wp_bind, (wp_mono _ (fun x s' => x = (final NULL l1, zlen l1) /\ s' = s)).
  { pose proof (seg_fuel _ _ _ _ _ Hd Hs) as Hf. cbn [length] in *.
    assert (wp (FreeLists.first_n_loop (S (size s)) a (u64 (n - 1)) 1)
              (fun x s' => x = (final NULL l1, zlen l1) /\ s' = s) s) as (x & s' & E & HE).
    { eapply first_n_loop_spec; [done|lia|apply wrapu_range; lia|lia|lia|]. split; [|done].
      unfold l1. cbn [length]. rewrite final_cons. f_equal. fold m. lia. }
    by exists x, s'. }
  intros [tl k] s' [[= -> ->] ->]. rewrite El in *. apply wp_bind, wp_check.
  { apply negb_true_iff, Z.eqb_neq. apply seg_app in Hs as [Hs _]. by apply (seg_final _ _ _ _ _ Hs). }
  eapply wp_cut; done.
Qed.

(** ** Histories of two lists of one size *)

Inductive list_op :=
| GetAtHead (i : bool)
| FirstN (i : bool) (n : Z)
| Remove (i : bool) (a : Z)
| ReturnAtHead (i : bool) (a : Z) (record_return : bool)
| ReturnAtTail (i : bool) (a : Z) (record_return : bool)
| Prepend (i : bool)
| Client (a : Z) (c : FreeChunk).

(** One component of a pair, and its replacement *)
Definition pick {A} (i : bool) (p : A * A) : A := if i then p.1 else p.2.
Definition place {A} (i : bool) (x : A) (p : A * A) : A * A := if i then (x, p.2) else (p.1, x).
Definition both {A} (i : bool) (x y : A) : A * A := if i then (x, y) else (y, x).

(** Each operation on the list [i]; [FirstN] and [Prepend] involve the other one as
    well.  [Client] writes the header of a chunk that is in no list. *)
Definition run_op (o : list_op) (p : FreeList * FreeList) : cm (Z * (FreeList * FreeList)) :=
  match o with
  | GetAtHead i =>
      '(a, fl) ← FreeLists.getChunkAtHead (pick i p); mret (a, place i fl p)
  | FirstN i n =>
      '(this, fl) ← FreeLists.getFirstNChunksFromList (pick i p) n (pick (negb i) p);
      mret (NULL, both i this fl)
  | Remove i a => fl ← FreeLists.removeChunk (pick i p) a; mret (NULL, place i fl p)
  | ReturnAtHead i a r =>
      fl ← FreeLists.returnChunkAtHead (pick i p) a r; mret (NULL, place i fl p)
  | ReturnAtTail i a r =>
      fl ← FreeLists.returnChunkAtTail (pick i p) a r; mret (NULL, place i fl p)
  | Prepend i =>
      '(this, fl) ← FreeLists.prepend (pick i p) (pick (negb i) p); mret (NULL, both i this fl)
  | Client a c => set_chunk a c ;; mret (NULL, p)
  end.

Fixpoint run_ops (os : list list_op) (p : FreeList * FreeList) : cm (list Z * (FreeList * FreeList)) :=
  match os with
  | [] => mret ([], p)
  | o :: os => '(r, p) ← run_op o p; '(rs, p) ← run_ops os p; mret (r :: rs, p)
  end.

(** The specification: two sequences of chunks, and the sizes of all chunks *)
Record lists_spec := mkSpec { sp_lists : list Z * list Z; sp_sizes : gmap Z Z }.

Definition free_in (sp : lists_spec) (a : Z) : bool :=
  bool_decide (a ∈ (sp_lists sp).1 ++ (sp_lists sp).2).

Definition can_return (sz : Z) (sp : lists_spec) (a : Z) : bool :=
  bool_decide (chunk_addr a) && negb (free_in sp a) && bool_decide (sp_sizes sp !! a = Some sz).

(** What an operation does to the sequences; [None] where its preconditions fail *)
Definition spec_op (sz : Z) (o : list_op) (sp : lists_spec) : option (Z * lists_spec) :=
  let ls := sp_lists sp in
  match o with
  | GetAtHead i =>
      Some (first NULL (pick i ls), mkSpec (place i (drop 1 (pick i ls)) ls) (sp_sizes sp))
  | FirstN i n =>
      let l := pick i ls in
      if bool_decide (pick (negb i) ls = []) && bool_decide (1 <= n < 2 ^ 64) && (zlen l <? 2 ^ 31)
      then Some (NULL, mkSpec (both i (drop (Z.to_nat n) l) (take (Z.to_nat n) l)) (sp_sizes sp))
      else None
  | Remove i a =>
      if bool_decide (a ∈ pick i ls)
      then Some (NULL, mkSpec (place i (filter (.≠ a) (pick i ls)) ls) (sp_sizes sp)) else None
  | ReturnAtHead i a _ =>
      if can_return sz sp a
      then Some (NULL, mkSpec (place i (a :: pick i ls) ls) (sp_sizes sp)) else None
  | ReturnAtTail i a _ =>
      if can_return sz sp a
      then Some (NULL, mkSpec (place i (pick i ls ++ [a]) ls) (sp_sizes sp)) else None
  | Prepend i =>
      Some (NULL, mkSpec (both i (pick (negb i) ls ++ pick i ls) []) (sp_sizes sp))
  | Client a c =>
      if negb (free_in sp a) && bool_decide (is_Some (sp_sizes sp !! a))
      then Some (NULL, mkSpec ls (<[a := c_size c]> (sp_sizes sp))) else None
  end.

Fixpoint spec_ops (sz : Z) (os : list list_op) (sp : lists_spec) : option (list Z * lists_spec) :=
  match os with
  | [] => Some ([], sp)
  | o :: os =>
      '(r, sp) ← spec_op sz o sp; '(rs, sp) ← spec_ops sz os sp; Some (r :: rs, sp)
  end.

(** The records and the headers represent the specification. *)
Record represent (sz : Z) (sp : lists_spec) (s : chunk_map) (p : FreeList * FreeList) : Prop := {
  rp_left : list_of s p.1 (sp_lists sp).1;
  rp_right : list_of s p.2 (sp_lists sp).2;
  rp_nodup : NoDup ((sp_lists sp).1 ++ (sp_lists sp).2);
  rp_size : _size p.1 = sz /\ _size p.2 = sz;
  rp_sizes : sp_sizes sp = c_size <$> s
}.

Lemma represent_pick sz sp s p i : represent sz sp s p -> list_of s (pick i p) (pick i (sp_lists sp)).
Proof. intros []. by destruct i. Qed.

Lemma represent_size sz sp s p i : represent sz sp s p -> _size (pick i p) = sz.
Proof. intros [_ _ _ [? ?] _]. by destruct i. Qed.

Lemma relinked_sizes l s s' : relinked l s s' -> c_size <$> s = c_size <$> s'.
Proof. intros H. apply map_eq. intros a. rewrite !lookup_fmap. by destruct (H a) as [-> _]. Qed.

Lemma represent_place sz sp s p i fl' s' l' L :
  represent sz sp s p -> list_of s' fl' l' -> kept (pick i p) fl' -> relinked L s s' ->
  NoDup (l' ++ pick (negb i) (sp_lists sp)) ->
  (forall a, a ∈ pick (negb i) (sp_lists sp) -> a ∉ L) ->
  represent sz (mkSpec (place i l' (sp_lists sp)) (sp_sizes sp)) s' (place i fl' p).
Proof.
  intros [Hl Hr Hd [Es1 Es2] Hs] Hl' [Ek _] Hrel Hd' HL.
  rewrite (relinked_sizes _ _ _ Hrel) in Hs.
  destruct i; cbn in *; split; cbn; try done.
  - by eapply list_of_relinked.
  - split; [by rewrite Ek|done].
  - by eapply list_of_relinked.
  - by rewrite Permutation_app_comm.
  - split; [done|by rewrite Ek].
Qed.

Lemma represent_both sz sp s p i this' fl' s' l1 l2 L :
  represent sz sp s p -> list_of s' this' l1 -> list_of s' fl' l2 -> kept (pick i p) this' ->
  kept (pick (negb i) p) fl' -> relinked L s s' -> NoDup (l1 ++ l2) ->
  represent sz (mkSpec (both i l1 l2) (sp_sizes sp)) s' (both i this' fl').
Proof.
  intros [Hl Hr Hd [Es1 Es2] Hs] Hl1 Hl2 [Ek1 _] [Ek2 _] Hrel Hd'.
  rewrite (relinked_sizes _ _ _ Hrel) in Hs.
  destruct i; cbn in *; split; cbn; try done; try (split; congruence).
  by rewrite Permutation_app_comm.
Qed.

Lemma represent_nodup sz sp s p i :
  represent sz sp s p -> NoDup (pick i (sp_lists sp) ++ pick (negb i) (sp_lists sp)).
Proof. intros [_ _ Hd _ _]. destruct i; cbn; [done|]. by rewrite Permutation_app_comm. Qed.

Lemma can_return_fresh sz sp s p i a :
  represent sz sp s p -> can_return sz sp a = true ->
  fresh s (_size (pick i p)) a (pick i (sp_lists sp)) /\ a ∉ pick (negb i) (sp_lists sp).
Proof.
  intros H. rewrite (represent_size _ _ _ _ i H). unfold can_return, free_in, fresh.
  rewrite !andb_true_iff, negb_true_iff, bool_decide_eq_false, !bool_decide_eq_true.
  intros [[Ha Hn] Hs]. rewrite (rp_sizes _ _ _ _ H), lookup_fmap in Hs. rewrite elem_of_app in Hn.
  apply fmap_Some in Hs as (c & Hc & ->). destruct i; naive_solver.
Qed.

Lemma filter_absent (a : Z) (l : list Z) : a ∉ l -> filter (.≠ a) l = l.
Proof.
  induction l as [|b l IH]; [done|]. intros [Hb Hl]%not_elem_of_cons.
  by rewrite filter_cons_True, IH by done.
Qed.

Lemma filter_out (a : Z) (l1 l2 : list Z) :
  a ∉ l1 ++ l2 -> filter (.≠ a) (l1 ++ a :: l2) = l1 ++ l2.
Proof.
  intros [H1 H2]%not_elem_of_app. rewrite filter_app, filter_cons_False by naive_solver.
  by rewrite !filter_absent.
Qed.

Lemma represent_remove sz sp s p i a (Q : FreeList -> chunk_map -> Prop) :
  represent sz sp s p -> a ∈ pick i (sp_lists sp) ->
  (forall fl' s',
     represent sz (mkSpec (place i (filter (.≠ a) (pick i (sp_lists sp))) (sp_lists sp)) (sp_sizes sp))
       s' (place i fl' p) -> Q fl' s') ->
  wp (FreeLists.removeChunk (pick i p) a) Q s.
Proof.
  intros H Ha HQ. pose proof (represent_pick _ _ _ _ i H) as Hl.
  pose proof (represent_nodup _ _ _ _ i H) as Hd.
  apply list_elem_of_split in Ha as (l1 & l2 & El). rewrite El in *.
  assert (a ∉ l1 ++ l2) as Hn.
  { destruct Hl as [_ _ _ Hd' _]. rewrite <- Permutation_middle in Hd'. by apply NoDup_cons in Hd' as []. }
  rewrite filter_out in HQ by done.
  eapply removeChunk_spec; [done|]. intros fl' s' Hl' Hk Hr. apply HQ. eapply represent_place; try done.
  - rewrite <- Permutation_middle in Hd. rewrite <- app_comm_cons in Hd. by apply NoDup_cons in Hd as [].
  - apply NoDup_app in Hd as (_ & Hd & _). intros x Hx Hx'. by apply (Hd x).
Qed.

Lemma list_of_insert s fl l a c : a ∉ l -> list_of s fl l -> list_of (<[a := c]> s) fl l.
Proof.
  intros Ha []. split; try done. eapply seg_frame; [|done]. intros x Hx.
  apply lookup_insert_ne. by intros ->.
Qed.

Lemma represent_client sz sp s p a c :
  represent sz sp s p -> negb (free_in sp a) && bool_decide (is_Some (sp_sizes sp !! a)) = true ->
  wp (set_chunk a c ;; mret (NULL, p))
    (fun x s' => x.1 = NULL /\
       represent sz (mkSpec (sp_lists sp) (<[a := c_size c]> (sp_sizes sp))) s' x.2) s.
Proof.
  intros [Hl Hr Hd Hsz Hss] [Hn%negb_true_iff%bool_decide_eq_false Hs%bool_decide_eq_true]%andb_true_iff.
  rewrite Hss, lookup_fmap in Hs. apply fmap_is_Some in Hs as [c0 Hc0].
  exists (NULL, p), (<[a := c]> s). unfold set_chunk, mbind, os_m_bind. rewrite Hc0.
  split_and!; [done..|]. apply not_elem_of_app in Hn as [Hn1 Hn2].
  split; cbn; auto using list_of_insert. by rewrite Hss, fmap_insert.
Qed.

Lemma list_op_ok sz sp s p o r sp' :
  represent sz sp s p -> spec_op sz o sp = Some (r, sp') ->
  wp (run_op o p) (fun x s' => x.1 = r /\ represent sz sp' s' x.2) s.
Proof.
  intros H E. destruct o as [i|i n|i a|i a b|i a b|i|a c]; cbn [spec_op run_op] in *.
  all: try pose proof (represent_pick _ _ _ _ i H) as Hl;
       try pose proof (represent_pick _ _ _ _ (negb i) H) as Hl';
       try pose proof (represent_nodup _ _ _ _ i H) as Hd.
  - injection E as <- <-. apply wp_bind. eapply getChunkAtHead_spec; [done|].
    intros fl' s' Hf Hk Hr. apply wp_ret. split; [done|]. eapply represent_place; try done.
    + destruct (pick i (sp_lists sp)) as [|x l]; [done|]. by apply NoDup_cons in Hd as [].
    + apply NoDup_app in Hd as (_ & Hd & _). intros x Hx Hx'. by apply (Hd x).
  - case_match eqn:Ec; [|done]. injection E as <- <-. apply andb_true_iff in Ec as [[En Hn]%andb_true_iff Hb].
    apply bool_decide_eq_true in En, Hn. apply Z.ltb_lt in Hb. rewrite En in *. apply wp_bind.
    eapply getFirstN_spec; [done|done|by rewrite !(represent_size _ _ _ _ _ H)|unfold is_u; lia|done|].
    unfold code_takes. rewrite (proj2 (Z.eqb_neq n 0)) by lia.
    intros this' fl' s' Ht Hf Hk Hk' Hr. apply wp_ret. split; [done|].
    eapply represent_both; try done. rewrite Permutation_app_comm, take_drop. apply Hl.
  - case_bool_decide as Ha; [|done]. injection E as <- <-. apply wp_bind.
    eapply represent_remove; [done..|]. intros. by apply wp_ret.
  - case_match eqn:Ec; [|done]. injection E as <- <-.
    destruct (can_return_fresh _ _ _ _ i _ H Ec) as [Hf Hn]. apply wp_bind.
    eapply returnChunkAtHead_spec; [done..|]. intros fl' s' Hf' Hk Hr. apply wp_ret. split; [done|].
    eapply represent_place; try done.
    + cbn. constructor; [|done]. destruct Hf as (_ & Hf & _). set_solver.
    + apply NoDup_app in Hd as (_ & Hd & _). intros x Hx [->|Hx']%elem_of_cons; [done|]. by apply (Hd x).
  - case_match eqn:Ec; [|done]. injection E as <- <-.
    destruct (can_return_fresh _ _ _ _ i _ H Ec) as [Hf Hn]. apply wp_bind.
    eapply returnChunkAtTail_spec; [done..|]. intros fl' s' Hf' Hk Hr. apply wp_ret. split; [done|].
    eapply represent_place; try done.
    + rewrite <- app_assoc. cbn [app]. rewrite <- Permutation_middle. constructor; [|done]. destruct Hf as (_ & Hf & _). set_solver.
    + apply NoDup_app in Hd as (_ & Hd & _). intros x Hx [Hx'| ->%list_elem_of_singleton]%elem_of_app; [|done]. by apply (Hd x).
  - injection E as <- <-. apply wp_bind.
    eapply prepend_spec; [done|done|by rewrite Permutation_app_comm|by rewrite !(represent_size _ _ _ _ _ H)|].
    intros this' fl' s' Ht Hf Hk Hk' Hr. apply wp_ret. split; [done|].
    eapply represent_both; try done. by rewrite app_nil_r, Permutation_app_comm.
  - case_match eqn:Ec; [|done]. injection E as <- <-. by apply represent_client.
Qed.

Lemma list_ops_ok sz os : forall sp s p rs sp',
  represent sz sp s p -> spec_ops sz os sp = Some (rs, sp') ->
  wp (run_ops os p) (fun x s' => x.1 = rs /\ represent sz sp' s' x.2) s.
Proof.
  induction os as [|o os IH]; cbn [spec_ops run_ops]; intros sp s p rs sp' H E.
  { injection E as <- <-. by apply wp_ret. }
  apply bind_Some in E as ([r sp1] & E1 & E). apply bind_Some in E as ([rs' sp2] & E2 & [= <- <-]).
  apply wp_bind. eapply wp_mono; [by eapply list_op_ok|]. intros [r' p1] s1 [Er H1]. cbn in *. subst r'.
  apply wp_bind. eapply wp_mono; [by eapply IH|]. intros [rs'' p2] s2 [Er H2]. cbn in *. subst rs''.
  by apply wp_ret.
Qed.

Lemma represent_empty sz s :
  represent sz (mkSpec ([], []) (c_size <$> s)) s
    (FreeLists.set_size FreeLists.create sz, FreeLists.set_size FreeLists.create sz).
Proof. split; cbn; try done; try (split; done || constructor). constructor. Qed.

(** C16: Two free lists of one chunk size behave as two sequences of chunks: for every
    history of operations (taking the head, taking the first [n > 0] chunks, or as many
    as there are, into the other list, which is empty, unlinking any chunk, returning a
    chunk at the head or at the tail, prepending one list to the other, and the mutator
    writing the headers of chunks that are in no list) whose preconditions hold, no assertion fails, no pointer outside the chunks is
    followed, the chunks returned are the ones of the sequences, and at the end the
    links, heads, tails and counts represent the two sequences. *)
Theorem freelist_history sz s os rs sp' :
  spec_ops sz os (mkSpec ([], []) (c_size <$> s)) = Some (rs, sp') ->
  exists p' s',
    run_ops os (FreeLists.set_size FreeLists.create sz, FreeLists.set_size FreeLists.create sz) s =
      Some ((rs, p'), s') /\
    list_of s' p'.1 (sp_lists sp').1 /\ list_of s' p'.2 (sp_lists sp').2 /\
    c_size <$> s' = sp_sizes sp'.
Proof.
  intros E. destruct (list_ops_ok sz os _ s _ _ _ (represent_empty sz s) E) as ([rs' p'] & s' & Er & Ers & H).
  cbn in Ers. subst rs'. exists p', s'. split; [done|]. by destruct H.
Qed.

(** Five chunks of four words, as the mutator left them *)
Definition five_chunks : chunk_map :=
  list_to_map ((fun a => (a, mkFreeChunk 4 7 9)) <$> [64; 96; 128; 160; 192]).

Definition five_ops : list list_op :=
  [ReturnAtTail true 64 true; ReturnAtHead true 96 false; ReturnAtTail true 128 true;
   ReturnAtTail true 160 true; FirstN true 2; Remove true 128; ReturnAtHead true 192 true;
   Prepend true; GetAtHead true; Client 96 (mkFreeChunk 4 0 0); Remove true 160].

Lemma freelist_history_witness :
  exists p' s',
    run_ops five_ops (FreeLists.set_size FreeLists.create 4, FreeLists.set_size FreeLists.create 4)
      five_chunks = Some (([0; 0; 0; 0; 0; 0; 0; 0; 96; 0; 0], p'), s') /\
    list_of s' p'.1 [64; 192] /\ list_of s' p'.2 [] /\
    c_size <$> s' = <[96 := 4]> (c_size <$> five_chunks).
Proof.
  exact (freelist_history 4 five_chunks five_ops [0; 0; 0; 0; 0; 0; 0; 0; 96; 0; 0]
    (mkSpec ([64; 192], []) (<[96 := 4]> (c_size <$> five_chunks))) eq_refl).
Defined.

(** Asked for the first zero chunks of a list, [getFirstNChunksFromList] hands over
    all of them: the unsigned counter is decremented before it is tested. *)
Theorem first_zero_takes_all s this fl l :
  list_of s this l -> list_of s fl [] -> _size fl = _size this -> zlen l < 2 ^ 31 ->
  exists this' fl' s',
    FreeLists.getFirstNChunksFromList this 0 fl s = Some ((this', fl'), s') /\
    list_of s' this' [] /\ list_of s' fl' l.
Proof.
  intros Hl Hm Esz Hb.
  destruct (getFirstN_spec s this fl l 0 (fun x s' => list_of s' x.1 [] /\ list_of s' x.2 l))
    as ([this' fl'] & s' & E & H1 & H2); [done..|unfold is_u; lia|done| |by exists this', fl', s'].
  intros this' fl' s' H1 H2 _ _ _. unfold code_takes in *. cbn [Z.eqb] in *. rewrite drop_all in H1.
  by rewrite firstn_all in H2.
Qed.

Definition two_chunks : chunk_map :=
  list_to_map [(64, mkFreeChunk 4 1 96); (96, mkFreeChunk 4 (64 ||| 1) 0)].

Lemma first_zero_takes_all_witness :
  exists this' fl' s',
    FreeLists.getFirstNChunksFromList (mkFreeList 64 96 4 2 0 stats_initialize) 0
      (FreeLists.set_size FreeLists.create 4) two_chunks = Some ((this', fl'), s') /\
    list_of s' this' [] /\ list_of s' fl' [64; 96].
Proof.
  apply first_zero_takes_all.
  - split; [done..| |].
    + apply NoDup_cons. split; [set_solver|apply NoDup_singleton].
    + do 2 (split; [split; [lia|reflexivity]|]; split; [eexists; split_and!; reflexivity|]). done.
  - split; done || constructor.
  - reflexivity.
  - reflexivity.
Defined.
