(* ===== verification/BinaryTreeDictionary.v ===== *)
(** * The dictionary of large free chunks: its operations

    gc_implementation/concurrentMarkSweep/binaryTreeDictionary.{hpp,cpp}.  The free
    chunks are kept in a binary search tree on their size; the chunks of one size form
    a list, and the tree node is a record embedded in the first chunk of the list, so
    that the dictionary needs no storage of its own.

    A chunk at address [a] has a header ([FreeChunk], in [chunks]) and, behind it, the
    fields of a [TreeChunk] (in [nodes]).  A pointer to a [TreeList] is the address of
    the chunk it is embedded in.  A failed assertion, a dereferenced NULL and an endless
    loop are [None].  The size of a [TreeChunk], the flags and the test for mangled
    memory are parameters.  Printing, the floating-point estimates and the locks are not
    modelled. *)

From S2P Require Import Prelude OsMemory FreeList.

Open Scope Z_scope.
Open Scope hotspot_scope.

(** ** Nodes and the dictionary *)

Record TreeList := mkTreeList {
  tl_list : FreeList;
  _parent : Z;
  _left : Z;
  _right : Z
}.

Record TreeChunk := mkTreeChunk {
  _list : Z;
  _embedded_list : TreeList
}.

Abbreviation node_map := (gmap Z TreeChunk).

Record BinaryTreeDictionary := mkDictionary {
  chunks : chunk_map;
  nodes : node_map;
  _splay : bool;
  _totalSize : Z;
  _totalFreeBlocks : Z;
  _root : Z
}.

Abbreviation dm := (os_m BinaryTreeDictionary).

Definition set_chunks (d : BinaryTreeDictionary) (s : chunk_map) : BinaryTreeDictionary :=
  mkDictionary s (nodes d) (_splay d) (_totalSize d) (_totalFreeBlocks d) (_root d).
Definition set_nodes (d : BinaryTreeDictionary) (t : node_map) : BinaryTreeDictionary :=
  mkDictionary (chunks d) t (_splay d) (_totalSize d) (_totalFreeBlocks d) (_root d).
Definition set_root (r : Z) : dm unit := lift_ (fun d =>
  mkDictionary (chunks d) (nodes d) (_splay d) (_totalSize d) (_totalFreeBlocks d) r).
Definition set_totalSize (v : Z) : dm unit := lift_ (fun d =>
  mkDictionary (chunks d) (nodes d) (_splay d) v (_totalFreeBlocks d) (_root d)).
Definition set_totalFreeBlocks (v : Z) : dm unit := lift_ (fun d =>
  mkDictionary (chunks d) (nodes d) (_splay d) (_totalSize d) v (_root d)).

Definition get : dm BinaryTreeDictionary := fun d => Some (d, d).

(** An operation on the chunk headers alone *)
Definition on_chunks {A : Type} (m : cm A) : dm A := fun d =>
  match m (chunks d) with Some (x, s) => Some (x, set_chunks d s) | None => None end.

Definition tree_chunk (p : Z) : dm TreeChunk := fun d =>
  match nodes d !! p with Some t => Some (t, d) | None => None end.
Definition set_tree_chunk (p : Z) (t : TreeChunk) : dm unit := fun d =>
  match nodes d !! p with
  | Some _ => Some (tt, set_nodes d (<[p := t]> (nodes d)))
  | None => None
  end.

(** The record embedded in the chunk [p], and its parts *)
Definition tree_list (p : Z) : dm TreeList := t ← tree_chunk p; mret (_embedded_list t).
Definition free_list (p : Z) : dm FreeList := tl ← tree_list p; mret (tl_list tl).
Definition set_embedded_list (p : Z) (tl : TreeList) : dm unit :=
  t ← tree_chunk p; set_tree_chunk p (mkTreeChunk (_list t) tl).
Definition set_free_list (p : Z) (fl : FreeList) : dm unit :=
  tl ← tree_list p; set_embedded_list p (mkTreeList fl (_parent tl) (_left tl) (_right tl)).
Definition set_list (p v : Z) : dm unit :=
  t ← tree_chunk p; set_tree_chunk p (mkTreeChunk v (_embedded_list t)).

(** A method of [FreeList] on the record embedded in [p] *)
Definition on_list (p : Z) (f : FreeList -> cm FreeList) : dm unit :=
  fl ← free_list p; fl ← on_chunks (f fl); set_free_list p fl.

Definition tree_looping {A : Type} (f : nat -> dm A) : dm A := fun d => f (S (size (nodes d))) d.

Module TreeLists.

Definition setParent (p v : Z) : dm unit :=
  tl ← tree_list p; set_embedded_list p (mkTreeList (tl_list tl) v (_left tl) (_right tl)).
Definition clearParent (p : Z) : dm unit := setParent p NULL.
Definition clearLeft (p : Z) : dm unit :=
  tl ← tree_list p; set_embedded_list p (mkTreeList (tl_list tl) (_parent tl) NULL (_right tl)).
Definition clearRight (p : Z) : dm unit :=
  tl ← tree_list p; set_embedded_list p (mkTreeList (tl_list tl) (_parent tl) (_left tl) NULL).
Definition initialize (p : Z) : dm unit := clearLeft p ;; clearRight p ;; clearParent p.

Definition setLeft (p v : Z) : dm unit :=
  tl ← tree_list p; set_embedded_list p (mkTreeList (tl_list tl) (_parent tl) v (_right tl)) ;;
  when (negb (v =? NULL)) (setParent v p).
Definition setRight (p v : Z) : dm unit :=
  tl ← tree_list p; set_embedded_list p (mkTreeList (tl_list tl) (_parent tl) (_left tl) v) ;;
  when (negb (v =? NULL)) (setParent v p).

(** [assert(parent() == NULL || this == parent()->left() || this == parent()->right())] *)
Definition assert_linked (p : Z) : dm unit :=
  tl ← tree_list p;
  if _parent tl =? NULL then mret tt else
  ptl ← tree_list (_parent tl);
  check ((p =? _left ptl) || (p =? _right ptl)).

(** The pair of assertions "list invariant" *)
Definition assert_list (p : Z) : dm unit :=
  fl ← free_list p; on_chunks (FreeLists.list_invariant fl).

Definition head_as_TreeChunk (p : Z) : dm Z :=
  fl ← free_list p;
  if _head fl =? NULL then mret NULL else
  t ← tree_chunk (_head fl); check (_list t =? p) ;; mret (_head fl).

Definition first_available (p : Z) : dm Z :=
  fl ← free_list p;
  check (negb (_head fl =? NULL)) ;;
  c ← on_chunks (chunk (_head fl));
  retTC ← (if c_next c =? NULL then head_as_TreeChunk p else mret (c_next c));
  t ← tree_chunk retTC;
  check (_list t =? p) ;;
  mret retTC.

Section construction.
Context (sizeof_TreeChunk : Z) (ZapUnusedHeapArea : bool) (is_mangled : Z -> bool).

Definition as_TreeList (tc : Z) : dm Z :=
  c ← on_chunks (chunk tc);
  check (sizeof_TreeChunk <=? c_size c) ;;
  set_list tc tc ;;
  fl ← free_list tc;
  fl ← of_option (FreeLists.set_hint fl 0);
  set_free_list tc (FreeLists.set_size fl (c_size c)) ;;
  on_list tc (fun fl => FreeLists.link_head fl tc) ;;
  on_list tc (fun fl => FreeLists.link_tail fl tc) ;;
  fl ← free_list tc;
  set_free_list tc (FreeLists.set_stats (FreeLists.set_count fl 1) stats_initialize) ;;
  setParent tc NULL ;;
  setLeft tc NULL ;;
  setRight tc NULL ;;
  mret tc.

Definition as_TreeList_at (addr sz : Z) : dm Z :=
  check (sizeof_TreeChunk <=? sz) ;;
  c ← on_chunks (chunk addr);
  check ((ZapUnusedHeapArea && is_mangled (c_size c) && is_mangled (c_prev c) &&
          is_mangled (c_next c)) ||
         ((c_size c =? 0) && (prev c =? NULL) && (c_next c =? NULL))) ;;
  on_chunks (setSize addr sz) ;;
  on_chunks (linkPrev addr NULL) ;;
  on_chunks (linkNext addr NULL) ;;
  as_TreeList addr.
End construction.

(** [for (curTC = nextTC; curTC != NULL; curTC = curTC->next()) curTC->set_list(retTL)] *)
Fixpoint set_lists_loop (fuel : nat) (curTC retTL : Z) : dm unit :=
  match fuel with
  | O => of_option None
  | S fuel =>
      if curTC =? NULL then mret tt else
      set_list curTC retTL ;;
      c ← on_chunks (chunk curTC);
      set_lists_loop fuel (c_next c) retTL
  end.

(** The debug loop that looks for the neighbours of the removed chunk *)
Fixpoint neighbours_loop (fuel : nat) (tc prevFC nextTC curFC : Z) (prev_found next_found : bool)
  : dm (bool * bool) :=
  match fuel with
  | O => of_option None
  | S fuel =>
      if curFC =? NULL then mret (prev_found, next_found) else
      check (negb (curFC =? tc)) ;;
      c ← on_chunks (chunk curFC);
      neighbours_loop fuel tc prevFC nextTC (c_next c)
        (prev_found || (curFC =? prevFC)) (next_found || (curFC =? nextTC))
  end.

(** The list moves from the chunk [this] to the chunk [nextTC]. *)
Definition replace_node (this nextTC : Z) : dm unit :=
  tl ← tree_list this;
  set_embedded_list nextTC tl ;;
  tree_looping (fun fuel => set_lists_loop fuel nextTC nextTC) ;;
  rtl ← tree_list nextTC;
  when (negb (_parent rtl =? NULL))
    (ptl ← tree_list (_parent rtl);
     if this =? _left ptl then setLeft (_parent rtl) nextTC
     else check (this =? _right ptl) ;; setRight (_parent rtl) nextTC) ;;
  tl ← tree_list this;
  rtl ← tree_list nextTC;
  check (_right tl =? _right rtl) ;;
  when (negb (_right rtl =? NULL)) (setParent (_right rtl) nextTC) ;;
  tl ← tree_list this;
  rtl ← tree_list nextTC;
  check (_left tl =? _left rtl) ;;
  when (negb (_left rtl =? NULL)) (setParent (_left rtl) nextTC) ;;
  on_list nextTC (fun fl => FreeLists.link_head fl nextTC) ;;
  c ← on_chunks (chunk nextTC);
  check (isFree c).

Definition removeChunkReplaceIfNeeded (this tc : Z) : dm Z :=
  fl ← free_list this;
  let list := _head fl in
  on_chunks (assert_chunk list (fun c => negb (list =? c_next c))) ;;
  check (negb (tc =? NULL)) ;;
  assert_linked this ;;
  c ← on_chunks (chunk tc);
  check (isFree c) ;;
  assert_list this ;;
  let prevFC := prev c in
  let nextTC := c_next c in
  check (negb (list =? NULL)) ;;
  retTL ← (if tc =? list then
             if nextTC =? NULL then
               check (prevFC =? NULL) ;;
               on_list this (fun fl => FreeLists.set_tail fl NULL) ;;
               on_list this (fun fl => FreeLists.set_head fl NULL) ;;
               mret this
             else replace_node this nextTC ;; mret nextTC
           else
             when (nextTC =? NULL) (on_list this (fun fl => FreeLists.link_tail fl prevFC)) ;;
             on_chunks (linkAfter prevFC nextTC) ;;
             mret this);
  fl ← free_list retTL;
  on_chunks (assert_chunk (_head fl) (fun c => _size fl =? c_size c)) ;;
  on_chunks (linkPrev tc NULL) ;;
  on_chunks (linkNext tc NULL) ;;
  set_list tc NULL ;;
  '(prev_found, next_found) ←
    tree_looping (fun fuel => neighbours_loop fuel tc prevFC nextTC (_head fl) false false);
  check ((prevFC =? NULL) || prev_found) ;;
  check ((nextTC =? NULL) || next_found) ;;
  assert_linked retTL ;;
  on_list retTL FreeLists.decrement_count ;;
  c ← on_chunks (chunk tc);
  check (isFree c) ;;
  assert_list retTL ;;
  mret retTL.

(** [verifyChunkInFreeLists] of the list embedded in [p] *)
Definition verifyChunkInFreeLists (p tc : Z) : dm bool :=
  fl ← free_list p; on_chunks (FreeLists.verifyChunkInFreeLists fl tc).

Definition record_return (p tc : Z) : dm unit :=
  c ← on_chunks (chunk tc);
  fl ← free_list p;
  set_free_list p (FreeLists.increment_returnedBytes_by (FreeLists.increment_count fl)
                     (u64 (c_size c * HeapWordSize))).

Definition returnChunkAtTail (this tc : Z) : dm unit :=
  check (negb (tc =? NULL)) ;;
  t ← tree_chunk tc;
  check (_list t =? this) ;;
  fl ← free_list this;
  check (negb (_tail fl =? NULL)) ;;
  found ← verifyChunkInFreeLists this tc;
  check (negb found) ;;
  assert_list this ;;
  on_chunks (linkAfter (_tail fl) tc) ;;
  on_list this (fun fl => FreeLists.link_tail fl tc) ;;
  fl ← free_list this;
  on_chunks (assert_chunk (_tail fl) (fun c => _size fl =? c_size c)) ;;
  record_return this tc ;;
  assert_list this.

(** After the first chunk, which holds the node *)
Definition returnChunkAtHead (this tc : Z) : dm unit :=
  t ← tree_chunk tc;
  check (_list t =? this) ;;
  fl ← free_list this;
  check (negb (_head fl =? NULL)) ;;
  check (negb (tc =? NULL)) ;;
  found ← verifyChunkInFreeLists this tc;
  check (negb found) ;;
  assert_list this ;;
  c ← on_chunks (chunk (_head fl));
  (if negb (c_next c =? NULL) then on_chunks (linkAfter tc (c_next c))
   else check (_tail fl =? NULL) ;; on_list this (fun fl => FreeLists.link_tail fl tc)) ;;
  on_chunks (linkAfter (_head fl) tc) ;;
  fl ← free_list this;
  on_chunks (assert_chunk (_head fl) (fun c => _size fl =? c_size c)) ;;
  record_return this tc ;;
  assert_list this.

End TreeLists.

(** ** The dictionary *)

Module Dictionary.
Import TreeLists.

Definition root : dm Z := d ← get; mret (_root d).

(** *** Verification and totals *)

Fixpoint verify_prev_loop (fuel : nat) (curFC ct : Z) : cm Z :=
  match fuel with
  | O => of_option None
  | S fuel =>
      if curFC =? NULL then mret ct else
      c ← chunk curFC;
      assert_chunk (prev c) isFree ;;
      verify_prev_loop fuel (c_next c) (u64 (ct + 1))
  end.

Definition verifyPrevFreePtrs (tl : Z) : dm Z :=
  fl ← free_list tl; on_chunks (looping (fun fuel => verify_prev_loop fuel (_head fl) 0)).

Fixpoint verify_chunks_loop (fuel : nat) (tc : Z) : dm unit :=
  match fuel with
  | O => of_option None
  | S fuel =>
      c ← on_chunks (chunk tc);
      let nextTC := c_next c in
      tl ← tree_list tc;
      when (negb (prev c =? NULL))
        (check ((_parent tl =? NULL) && (_left tl =? NULL) && (_right tl =? NULL))) ;;
      if nextTC =? NULL then mret tt else
      n ← on_chunks (chunk nextTC);
      check (prev n =? tc) ;;
      check (c_size n =? c_size c) ;;
      verify_chunks_loop fuel nextTC
  end.

Definition verifyTreeChunkList (tc : Z) : dm unit :=
  tree_looping (fun fuel => verify_chunks_loop fuel tc).

(** [guarantee(p == NULL || f(p))] on a node *)
Definition assert_node (p : Z) (f : TreeList -> bool) : dm unit :=
  if p =? NULL then mret tt else tl ← tree_list p; check (f tl).

(** What [verifyTreeHelper] checks of one node *)
Definition verify_node (p : Z) : dm unit :=
  tl ← tree_list p;
  let fl := tl_list tl in
  check (negb (_size fl =? 0)) ;;
  assert_node (_left tl) (fun l => _parent l =? p) ;;
  assert_node (_right tl) (fun r => _parent r =? p) ;;
  assert_node (_left tl) (fun l => _size (tl_list l) <? _size fl) ;;
  assert_node (_right tl) (fun r => _size fl <? _size (tl_list r)) ;;
  on_chunks (assert_chunk (_head fl) isFree) ;;
  when (negb (_head fl =? NULL))
    (tc ← head_as_TreeChunk p; t ← tree_chunk tc; check (_list t =? p)) ;;
  check ((0 <? _count fl) || ((_head fl =? NULL) && (_tail fl =? NULL))) ;;
  check ((1 <? _count fl) || (_head fl =? _tail fl)) ;;
  count ← verifyPrevFreePtrs p;
  check (count =? u64 (_count fl)) ;;
  when (negb (_head fl =? NULL)) (tc ← head_as_TreeChunk p; verifyTreeChunkList tc).

Fixpoint verify_tree_loop (fuel : nat) (p : Z) : dm unit :=
  match fuel with
  | O => of_option None
  | S fuel =>
      if p =? NULL then mret tt else
      verify_node p ;;
      tl ← tree_list p;
      verify_tree_loop fuel (_left tl) ;;
      verify_tree_loop fuel (_right tl)
  end.

Definition verifyTreeHelper (p : Z) : dm unit :=
  tree_looping (fun fuel => verify_tree_loop fuel p).

Definition verifyTree : dm unit :=
  d ← get;
  check ((_root d =? NULL) || (_totalFreeBlocks d =? 0) || negb (_totalSize d =? 0)) ;;
  assert_node (_root d) (fun tl => _parent tl =? NULL) ;;
  verifyTreeHelper (_root d).

Fixpoint length_loop (fuel : nat) (tc cnt : Z) : cm Z :=
  match fuel with
  | O => of_option None
  | S fuel =>
      if tc =? NULL then mret cnt else
      c ← chunk tc; length_loop fuel (c_next c) (u64 (cnt + 1))
  end.

Definition totalListLength (p : Z) : dm Z :=
  fl ← free_list p;
  let res := u64 (_count fl) in
  cnt ← on_chunks (looping (fun fuel => length_loop fuel (_head fl) 0));
  check (res =? cnt) ;;
  mret res.

Fixpoint size_in_tree_loop (fuel : nat) (p : Z) : dm Z :=
  match fuel with
  | O => of_option None
  | S fuel =>
      if p =? NULL then mret 0 else
      tl ← tree_list p;
      n ← totalListLength p;
      a ← size_in_tree_loop fuel (_left tl);
      b ← size_in_tree_loop fuel (_right tl);
      mret (u64 (u64 (u64 (_size (tl_list tl) * n) + a) + b))
  end.

Definition totalSizeInTree (p : Z) : dm Z :=
  tree_looping (fun fuel => size_in_tree_loop fuel p).

Fixpoint blocks_in_tree_loop (fuel : nat) (p : Z) : dm Z :=
  match fuel with
  | O => of_option None
  | S fuel =>
      if p =? NULL then mret 0 else
      tl ← tree_list p;
      n ← totalListLength p;
      a ← blocks_in_tree_loop fuel (_left tl);
      b ← blocks_in_tree_loop fuel (_right tl);
      mret (u64 (u64 (n + a) + b))
  end.

Definition totalFreeBlocksInTree (p : Z) : dm Z :=
  tree_looping (fun fuel => blocks_in_tree_loop fuel p).

Definition numFreeBlocks : dm Z :=
  d ← get;
  n ← totalFreeBlocksInTree (_root d);
  check (n =? _totalFreeBlocks d) ;;
  mret (_totalFreeBlocks d).

(** [locked]: the lock argument is not NULL and is held *)
Definition totalChunkSize (locked : bool) : dm Z :=
  d ← get;
  when locked (n ← totalSizeInTree (_root d); check (n =? _totalSize d)) ;;
  mret (_totalSize d).

Definition verify : dm unit :=
  verifyTree ;;
  d ← get;
  n ← totalSizeInTree (_root d);
  check (_totalSize d =? n).

(** *** Searching *)

Fixpoint find_loop (fuel : nat) (sz curTL : Z) : dm Z :=
  match fuel with
  | O => of_option None
  | S fuel =>
      if curTL =? NULL then mret curTL else
      tl ← tree_list curTL;
      let s := _size (tl_list tl) in
      if s =? sz then mret curTL
      else if s <? sz then find_loop fuel sz (_right tl)
      else check (sz <? s) ;; find_loop fuel sz (_left tl)
  end.

Definition findList (sz : Z) : dm Z :=
  r ← root; tree_looping (fun fuel => find_loop fuel sz r).

Definition verifyChunkInFreeLists (tc : Z) : dm bool :=
  c ← on_chunks (chunk tc);
  tl ← findList (c_size c);
  if tl =? NULL then mret false else TreeLists.verifyChunkInFreeLists tl tc.

(** [for (; tc->right() != NULL; tc = tc->right())] *)
Fixpoint rightmost_loop (fuel : nat) (p : Z) : dm Z :=
  match fuel with
  | O => of_option None
  | S fuel =>
      tl ← tree_list p; if _right tl =? NULL then mret p else rightmost_loop fuel (_right tl)
  end.

Definition findLargestDict : dm Z :=
  r ← root;
  if r =? NULL then mret NULL else
  p ← tree_looping (fun fuel => rightmost_loop fuel r); first_available p.

Definition maxChunkSize : dm Z :=
  r ← root;
  if r =? NULL then mret 0 else
  p ← tree_looping (fun fuel => rightmost_loop fuel r); fl ← free_list p; mret (_size fl).

Fixpoint height_loop (fuel : nat) (p : Z) : dm Z :=
  match fuel with
  | O => of_option None
  | S fuel =>
      if p =? NULL then mret 0 else
      tl ← tree_list p;
      a ← height_loop fuel (_left tl);
      b ← height_loop fuel (_right tl);
      mret (u64 (1 + Z.max a b))
  end.

Definition treeHeight : dm Z := r ← root; tree_looping (fun fuel => height_loop fuel r).

Fixpoint nodes_loop (fuel : nat) (p : Z) : dm Z :=
  match fuel with
  | O => of_option None
  | S fuel =>
      if p =? NULL then mret 0 else
      tl ← tree_list p;
      a ← nodes_loop fuel (_left tl);
      b ← nodes_loop fuel (_right tl);
      mret (u64 (u64 (1 + a) + b))
  end.

(** The argument is not used: the nodes of the whole tree are counted. *)
Definition totalNodesInTree (tl : Z) : dm Z :=
  r ← root; tree_looping (fun fuel => nodes_loop fuel r).

(** *** Removal *)

Fixpoint leftmost_loop (fuel : nat) (p : Z) : dm Z :=
  match fuel with
  | O => of_option None
  | S fuel =>
      tl ← tree_list p; if _left tl =? NULL then mret p else leftmost_loop fuel (_left tl)
  end.

Section operations.
Context (sizeof_TreeChunk : Z) (ZapUnusedHeapArea : bool) (is_mangled : Z -> bool).
Context (FLSVerifyDictionary UseCMSAdaptiveFreeLists : bool).

Definition MIN_TREE_CHUNK_SIZE : Z := sizeof_TreeChunk / HeapWordSize.

Definition removeTreeMinimum (tl : Z) : dm Z :=
  check (negb (tl =? NULL)) ;;
  t ← tree_list tl;
  check (negb (_parent t =? NULL)) ;;
  curTL ← tree_looping (fun fuel => leftmost_loop fuel tl);
  r ← root;
  (if negb (curTL =? r) then
     cur ← tree_list curTL;
     let parentTL := _parent cur in
     ptl ← tree_list parentTL;
     if _left ptl =? curTL then setLeft parentTL (_right cur)
     else check (_right ptl =? curTL) ;; setRight parentTL (_right cur)
   else set_root NULL) ;;
  clearParent curTL ;;
  clearRight curTL ;;
  when FLSVerifyDictionary verifyTree ;;
  mret curTL.

(** [assert(f(p))] on a node that cannot be NULL *)
Definition check_node (p : Z) (f : TreeList -> bool) : dm unit :=
  check (negb (p =? NULL)) ;; tl ← tree_list p; check (f tl).

(** The node that takes the place of [replacementTL], and whether it was cut out of
    the right subtree *)
Definition successor_node (replacementTL : Z) : dm (Z * bool) :=
  tl ← tree_list replacementTL;
  if _left tl =? NULL then clearRight replacementTL ;; mret (_right tl, false)
  else if _right tl =? NULL then clearLeft replacementTL ;; mret (_left tl, false)
  else
    newTL ← removeTreeMinimum (_right tl);
    check_node newTL (fun n => (_left n =? NULL) && (_right n =? NULL)) ;;
    mret (newTL, true).

(** The repair of the tree once the list of [replacementTL] is empty *)
Definition splice_out (tl replacementTL : Z) : dm unit :=
  fl ← free_list replacementTL;
  check ((_head fl =? NULL) && (_tail fl =? NULL)) ;;
  '(newTL, complicatedSplice) ← successor_node replacementTL;
  when FLSVerifyDictionary verifyTree ;;
  t ← tree_list replacementTL;
  let parentTL := _parent t in
  (if parentTL =? NULL then
     r ← root;
     check (tl =? r) ;;
     set_root newTL ;;
     when (negb (newTL =? NULL)) (clearParent newTL)
   else
     ptl ← tree_list parentTL;
     if _right ptl =? replacementTL then setRight parentTL newTL
     else check (_left ptl =? replacementTL) ;; setLeft parentTL newTL) ;;
  clearParent replacementTL ;;
  when complicatedSplice
    (check_node newTL (fun n => (_left n =? NULL) && (_right n =? NULL)) ;;
     t ← tree_list replacementTL;
     check (negb (_left t =? NULL)) ;;
     setLeft newTL (_left t) ;;
     setRight newTL (_right t) ;;
     clearRight replacementTL ;;
     clearLeft replacementTL) ;;
  t ← tree_list replacementTL;
  check ((_right t =? NULL) && (_left t =? NULL) && (_parent t =? NULL)).

(** The debug checks on a list that moved to another chunk *)
Definition check_replaced (tl replacementTL tc : Z) : dm unit :=
  when (negb (tl =? replacementTL))
    (fl ← free_list replacementTL;
     check (negb (_head fl =? NULL)) ;;
     h ← head_as_TreeChunk replacementTL;
     ht ← tree_chunk h;
     tlt ← tree_chunk (_tail fl);
     check (_list ht =? replacementTL) ;;
     check (_list tlt =? replacementTL) ;;
     c ← on_chunks (chunk tc);
     check (_size fl =? c_size c)).

(** The debug flag "the only chunk is being removed" *)
Definition removing_only_chunk (tl tc : Z) : dm bool :=
  d ← get;
  if negb (tl =? _root d) then mret false else
  r ← tree_list (_root d);
  if (_left r =? NULL) && (_right r =? NULL) && (_count (tl_list r) =? 1)
  then check (_head (tl_list r) =? tc) ;; mret true
  else mret false.

Definition removeChunkFromTree (tc : Z) : dm Z :=
  check (negb (tc =? NULL)) ;;
  c ← on_chunks (chunk tc);
  check (isFree c) ;;
  t ← tree_chunk tc;
  let tl := _list t in
  only ← removing_only_chunk tl tc;
  check (negb (tl =? NULL)) ;;
  assert_linked tl ;;
  replacementTL ← removeChunkReplaceIfNeeded tl tc;
  c ← on_chunks (chunk tc);
  check (isFree c) ;;
  assert_linked replacementTL ;;
  r ← root;
  when (tl =? r)
    (t ← tree_list replacementTL; check (_parent t =? NULL) ;; set_root replacementTL) ;;
  check_replaced tl replacementTL tc ;;
  fl ← free_list replacementTL;
  when (_count fl =? 0) (splice_out tl replacementTL) ;;
  c ← on_chunks (chunk tc);
  d ← get;
  check (c_size c <=? _totalSize d) ;;
  set_totalSize (u64 (_totalSize d - c_size c)) ;;
  check (0 <? _totalFreeBlocks d) ;;
  set_totalFreeBlocks (u64 (_totalFreeBlocks d - 1)) ;;
  check ((prev c =? NULL) && (c_next c =? NULL)) ;;
  when FLSVerifyDictionary verifyTree ;;
  r ← root;
  check (negb only || (r =? NULL)) ;;
  mret tc.

(** *** Allocation *)

(** Down from the root; the node found, or NULL, and the last node passed *)
Fixpoint match_loop (fuel : nat) (sz prevTL curTL : Z) : dm (Z * Z) :=
  match fuel with
  | O => of_option None
  | S fuel =>
      if curTL =? NULL then mret (prevTL, curTL) else
      tl ← tree_list curTL;
      let s := _size (tl_list tl) in
      if s =? sz then mret (prevTL, curTL)
      else if s <? sz then match_loop fuel sz curTL (_right tl)
      else check (sz <? s) ;; match_loop fuel sz curTL (_left tl)
  end.

(** Back up the search path to the next larger size *)
Fixpoint ascend_loop (fuel : nat) (sz curTL : Z) : dm Z :=
  match fuel with
  | O => of_option None
  | S fuel =>
      if curTL =? NULL then mret curTL else
      tl ← tree_list curTL;
      if sz <=? _size (tl_list tl) then mret curTL else ascend_loop fuel sz (_parent tl)
  end.

Definition set_hint_at (p v : Z) : dm unit :=
  fl ← free_list p; fl ← of_option (FreeLists.set_hint fl v); set_free_list p fl.

Fixpoint hint_loop (fuel : nat) (sz curTL hintTL : Z) : dm Z :=
  match fuel with
  | O => of_option None
  | S fuel =>
      fl ← free_list hintTL;
      if _hint fl =? 0 then mret curTL else
      check (_size fl <? _hint fl) ;;
      hintTL ← findList (_hint fl);
      check (negb (curTL =? hintTL)) ;;
      if hintTL =? NULL then set_hint_at curTL 0 ;; mret curTL else
      fl ← free_list hintTL;
      check (sz <? _size fl) ;;
      if 0 <? _surplus (_allocation_stats fl)
      then set_hint_at curTL (_size fl) ;; mret hintTL
      else hint_loop fuel sz curTL hintTL
  end.

(** The smallest size that is large enough *)
Definition best_fit (sz : Z) : dm Z :=
  r ← root;
  '(prevTL, curTL) ← tree_looping (fun fuel => match_loop fuel sz r r);
  if curTL =? NULL then
    curTL ← tree_looping (fun fuel => ascend_loop fuel sz prevTL);
    when (negb (curTL =? NULL)) (fl ← free_list curTL; check (0 <? _count fl)) ;;
    mret curTL
  else mret curTL.

Definition semiSplayStep (tl : Z) : dm unit := mret tt.

Definition getChunkFromTree (sz : Z) (splay : bool) : dm Z :=
  check (MIN_TREE_CHUNK_SIZE <=? sz) ;;
  when FLSVerifyDictionary verifyTree ;;
  curTL ← best_fit sz;
  retTC ← (if curTL =? NULL then mret NULL else
    fl ← free_list curTL;
    check (sz <=? _size fl) ;;
    curTL ← (if UseCMSAdaptiveFreeLists && (_surplus (_allocation_stats fl) <=? 0)
             then tree_looping (fun fuel => hint_loop fuel sz curTL curTL) else mret curTL);
    fl ← free_list curTL;
    when splay (c ← on_chunks (chunk (_head fl)); when (negb (c_next c =? NULL)) (semiSplayStep curTL)) ;;
    retTC ← first_available curTL;
    check (negb (retTC =? NULL) && (0 <? _count fl)) ;;
    c ← on_chunks (chunk retTC);
    check (sz <=? c_size c) ;;
    removeChunkFromTree retTC ;;
    c ← on_chunks (chunk retTC);
    check (isFree c) ;;
    mret retTC);
  when FLSVerifyDictionary verify ;;
  mret retTC.

Definition getChunk (sz : Z) : dm Z :=
  d ← get;
  res ← getChunkFromTree sz (_splay d);
  on_chunks (assert_chunk res isFree) ;;
  mret res.

Definition removeChunk (tc : Z) : dm unit :=
  removeChunkFromTree tc ;;
  c ← on_chunks (chunk tc);
  check (isFree c).

(** *** Insertion *)

Fixpoint insertion_loop (fuel : nat) (sz prevTL curTL : Z) : dm (Z * Z) :=
  match fuel with
  | O => of_option None
  | S fuel =>
      if curTL =? NULL then mret (prevTL, curTL) else
      tl ← tree_list curTL;
      let s := _size (tl_list tl) in
      if s =? sz then mret (prevTL, curTL)
      else if sz <? s then insertion_loop fuel sz curTL (_left tl)
      else check (s <? sz) ;; insertion_loop fuel sz curTL (_right tl)
  end.

(** A new node under [prevTL] *)
Definition insert_node (sz prevTL tc : Z) : dm unit :=
  on_chunks (clearNext tc) ;;
  on_chunks (linkPrev tc NULL) ;;
  newTL ← as_TreeList sizeof_TreeChunk tc;
  t ← tree_chunk tc;
  check (_list t =? newTL) ;;
  if prevTL =? NULL then r ← root; check (r =? NULL) ;; set_root newTL
  else
    ptl ← tree_list prevTL;
    if _size (tl_list ptl) <? sz
    then check (_right ptl =? NULL) ;; setRight prevTL newTL
    else check ((sz <? _size (tl_list ptl)) && (_left ptl =? NULL)) ;; setLeft prevTL newTL.

Definition insertChunkInTree (tc : Z) : dm unit :=
  c ← on_chunks (chunk tc);
  let sz := c_size c in
  check (MIN_TREE_CHUNK_SIZE <=? sz) ;;
  when FLSVerifyDictionary verifyTree ;;
  on_chunks (clearNext tc) ;;
  on_chunks (linkPrev tc NULL) ;;
  r ← root;
  '(prevTL, curTL) ← tree_looping (fun fuel => insertion_loop fuel sz r r);
  initialize tc ;;
  (if negb (curTL =? NULL) then set_list tc curTL ;; returnChunkAtTail curTL tc
   else insert_node sz prevTL tc) ;;
  t ← tree_chunk tc;
  check (negb (_list t =? NULL)) ;;
  d ← get;
  set_totalSize (u64 (_totalSize d + sz)) ;;
  when FLSVerifyDictionary
    (d ← get; n ← totalSizeInTree (_root d); check (n =? _totalSize d)) ;;
  set_totalFreeBlocks (u64 (_totalFreeBlocks d + 1)) ;;
  when FLSVerifyDictionary verifyTree.

Definition returnChunk (tc : Z) : dm unit := insertChunkInTree tc.

(** *** Construction *)

Definition reset_region (start word_size : Z) : dm unit :=
  check (MIN_TREE_CHUNK_SIZE <? u64 (word_size * HeapWordSize)) ;;
  tl ← as_TreeList_at sizeof_TreeChunk ZapUnusedHeapArea is_mangled start word_size;
  set_root tl ;;
  set_totalSize word_size ;;
  set_totalFreeBlocks 1.

Definition reset : dm unit :=
  set_root NULL ;;
  set_totalSize 0 ;;
  set_totalFreeBlocks 0.

(** The constructor, on the memory that is to hold the first chunk *)
Definition create (start word_size : Z) : dm unit :=
  check (MIN_TREE_CHUNK_SIZE <? u64 (word_size * HeapWordSize)) ;;
  reset_region start word_size ;;
  d ← get;
  tl ← tree_list (_root d);
  check (_left tl =? NULL) ;;
  check (_right tl =? NULL) ;;
  c ← on_chunks (chunk (_head (tl_list tl)));
  check (c_next c =? NULL) ;;
  check (prev c =? NULL) ;;
  check (_totalSize d =? _size (tl_list tl)) ;;
  check (_totalFreeBlocks d =? 1).

End operations.

(** *** Walks over the tree *)

(** [do_tree] of the closures that visit the lists in ascending and in descending order
    of size; [do_list] updates the closure's own state and the list. *)
Section walks.
Context {A : Type} (do_list : A -> FreeList -> option (A * FreeList)).

Definition visit (x : A) (p : Z) : dm A :=
  fl ← free_list p;
  '(x, fl) ← of_option (do_list x fl);
  set_free_list p fl ;;
  mret x.

Fixpoint ascend_tree (fuel : nat) (x : A) (p : Z) : dm A :=
  match fuel with
  | O => of_option None
  | S fuel =>
      if p =? NULL then mret x else
      tl ← tree_list p;
      x ← ascend_tree fuel x (_left tl);
      x ← visit x p;
      tl ← tree_list p;
      ascend_tree fuel x (_right tl)
  end.

Fixpoint descend_tree (fuel : nat) (x : A) (p : Z) : dm A :=
  match fuel with
  | O => of_option None
  | S fuel =>
      if p =? NULL then mret x else
      tl ← tree_list p;
      x ← descend_tree fuel x (_right tl);
      x ← visit x p;
      tl ← tree_list p;
      descend_tree fuel x (_left tl)
  end.

Definition do_tree_ascending (x : A) : dm A :=
  r ← root; tree_looping (fun fuel => ascend_tree fuel x r).
Definition do_tree_descending (x : A) : dm A :=
  r ← root; tree_looping (fun fuel => descend_tree fuel x r).
End walks.

(** [scaled n] is [(ssize_t)((double)n * splitSurplusPercent)]. *)
Definition setTreeSurplus_list (scaled : Z -> Z) (x : unit) (fl : FreeList)
  : option (unit * FreeList) :=
  let a := _allocation_stats fl in
  Some (x, FreeLists.set_stats fl (mkAllocationStats (_desired a) (_coalDesired a)
    (s64 (_count fl - scaled (_desired a))) (_bfrSurp a) (_prevSweep a) (_beforeSweep a)
    (_coalBirths a) (_coalDeaths a) (_splitBirths a) (_splitDeaths a) (_returnedBytes a))).

Definition setTreeSurplus (scaled : Z -> Z) : dm unit :=
  do_tree_ascending (setTreeSurplus_list scaled) tt.

Definition setTreeHints_list (hint : Z) (fl : FreeList) : option (Z * FreeList) :=
  fl ← FreeLists.set_hint fl hint;
  ASSERT (_hint fl =? 0) || (_size fl <? _hint fl) ;;
  Some (if 0 <? _surplus (_allocation_stats fl) then _size fl else hint, fl).

Definition setTreeHints : dm unit :=
  do_tree_descending setTreeHints_list 0 ;; mret tt.

Definition clearTreeCensus_list (x : unit) (fl : FreeList) : option (unit * FreeList) :=
  let a := _allocation_stats fl in
  Some (x, FreeLists.set_stats fl (mkAllocationStats (_desired a) (_coalDesired a)
    (_surplus a) (_bfrSurp a) (_count fl) (_beforeSweep a) 0 0 0 0 (_returnedBytes a))).

Definition clearTreeCensus : dm unit := do_tree_ascending clearTreeCensus_list tt.

Definition endSweepDictCensus (scaled : Z -> Z) : dm unit :=
  setTreeSurplus scaled ;;
  setTreeHints ;;
  clearTreeCensus.

Definition initializeDictReturnedBytes : dm unit :=
  do_tree_ascending (fun (x : unit) fl =>
    Some (x, FreeLists.set_stats fl (set_returnedBytes (_allocation_stats fl) 0))) tt.

Definition sumDictReturnedBytes : dm Z :=
  do_tree_ascending (fun x fl => Some (u64 (x + _returnedBytes (_allocation_stats fl)), fl)) 0.

Definition totalCount : dm Z :=
  do_tree_descending (fun x fl => Some (u32 (x + 1), fl)) 0.

(** The births and deaths of [dictCensusUpdate] *)
Definition census_update (a : AllocationStats) (split birth : bool) : AllocationStats :=
  mkAllocationStats (_desired a) (_coalDesired a)
    (s64 (if birth then _surplus a + 1 else _surplus a - 1))
    (_bfrSurp a) (_prevSweep a) (_beforeSweep a)
    (if negb split && birth then s64 (_coalBirths a + 1) else _coalBirths a)
    (if negb split && negb birth then s64 (_coalDeaths a + 1) else _coalDeaths a)
    (if split && birth then s64 (_splitBirths a + 1) else _splitBirths a)
    (if split && negb birth then s64 (_splitDeaths a + 1) else _splitDeaths a)
    (_returnedBytes a).

Definition dictCensusUpdate (sz : Z) (split birth : bool) : dm unit :=
  nd ← findList sz;
  when (negb (nd =? NULL))
    (fl ← free_list nd;
     set_free_list nd (FreeLists.set_stats fl (census_update (_allocation_stats fl) split birth))).

Definition coalDictOverPopulated (sz : Z) : dm bool :=
  p ← findList sz;
  if p =? NULL then mret true else
  fl ← free_list p;
  let d := _coalDesired (_allocation_stats fl) in
  mret ((d <=? 0) || (d <? _count fl)).

(** [EndTreeSearchClosure::do_list]: the chunk of the list that ends at the target *)
Fixpoint end_search_loop (fuel : nat) (target item : Z) : cm Z :=
  match fuel with
  | O => of_option None
  | S fuel =>
      if item =? NULL then mret NULL else
      c ← chunk item;
      if chunk_end item c =? target then mret item else end_search_loop fuel target (c_next c)
  end.

Fixpoint search_tree (fuel : nat) (target p : Z) : dm Z :=
  match fuel with
  | O => of_option None
  | S fuel =>
      if p =? NULL then mret NULL else
      tl ← tree_list p;
      found ← search_tree fuel target (_right tl);
      if negb (found =? NULL) then mret found else
      found ← on_chunks (looping (fun fuel => end_search_loop fuel target (_head (tl_list tl))));
      if negb (found =? NULL) then mret found else
      search_tree fuel target (_left tl)
  end.

Definition find_chunk_ends_at (target : Z) : dm Z :=
  r ← root; tree_looping (fun fuel => search_tree fuel target r).

End Dictionary.
