(* ===== verification/DictionaryTree.v ===== *)
(** * The dictionary of large free chunks: the trees it represents

    Pure trees of nodes, contexts (a tree with a hole, for the operations that work in
    the middle of one), and the predicates that say that the fields of the chunks
    represent a tree; how the pointer updates of the dictionary act on them. *)

From stdpp Require Export sorting.
From S2P Require Import Prelude OsMemory FreeList BinaryTreeDictionary.

Open Scope Z_scope.
Open Scope hotspot_scope.

(** ** Trees *)

(** A node: the chunk it is embedded in, its list record, and the chunks that follow
    the first one.  A node that is not live has an empty list: it is about to be
    removed. *)
Record node := mkNode { n_addr : Z; n_list : FreeList; n_rest : list Z; n_live : bool }.

Definition n_chunks (n : node) : list Z := if n_live n then n_addr n :: n_rest n else [].
Definition n_size (n : node) : Z := _size (n_list n).
Definition node_addrs (n : node) : list Z := n_addr n :: n_rest n.

Inductive tree := Leaf | Node (l : tree) (n : node) (r : tree).

Fixpoint inorder (t : tree) : list node :=
  match t with Leaf => [] | Node l n r => inorder l ++ n :: inorder r end.

Definition root_of (t : tree) : Z := match t with Leaf => NULL | Node _ n _ => n_addr n end.

Definition addrs_of (ns : list node) : list Z := mjoin (node_addrs <$> ns).
Definition addrs (t : tree) : list Z := addrs_of (inorder t).

(** Contexts, innermost frame first *)
Inductive frame := FL (n : node) (r : tree) | FR (l : tree) (n : node).

Definition plug (f : frame) (t : tree) : tree :=
  match f with FL n r => Node t n r | FR l n => Node l n t end.
Definition frame_node (f : frame) : node := match f with FL n _ => n | FR _ n => n end.

Fixpoint fill (K : list frame) (t : tree) : tree :=
  match K with [] => t | f :: K => fill K (plug f t) end.

Definition parent_of (K : list frame) : Z :=
  match K with [] => NULL | f :: _ => n_addr (frame_node f) end.

Fixpoint before (K : list frame) : list node :=
  match K with
  | [] => []
  | FL _ _ :: K => before K
  | FR l n :: K => before K ++ inorder l ++ [n]
  end.
Fixpoint after (K : list frame) : list node :=
  match K with
  | [] => []
  | FL n r :: K => n :: inorder r ++ after K
  | FR _ _ :: K => after K
  end.

Definition ctx_addrs (K : list frame) : list Z := addrs_of (before K) ++ addrs_of (after K).

Lemma inorder_fill K t : inorder (fill K t) = before K ++ inorder t ++ after K.
Proof.
  revert t. induction K as [|[n r|l n] K IH]; intros t; cbn [fill before after plug].
  - by rewrite app_nil_r.
  - rewrite IH. cbn [inorder]. by rewrite <- !app_assoc.
  - rewrite IH. cbn [inorder]. by rewrite <- !app_assoc.
Qed.

Lemma fill_app K K' t : fill (K ++ K') t = fill K' (fill K t).
Proof. revert t. induction K as [|f K IH]; intros t; [done|]. apply IH. Qed.

Lemma root_of_fill K t t' : K <> [] -> root_of (fill K t) = root_of (fill K t').
Proof.
  destruct K as [|f K]; [done|]. intros _. revert f t t'. induction K as [|g K IH]; intros f t t'.
  - by destruct f.
  - apply (IH g).
Qed.

Lemma addrs_of_app ns ns' : addrs_of (ns ++ ns') = addrs_of ns ++ addrs_of ns'.
Proof. unfold addrs_of. by rewrite fmap_app, join_app. Qed.

Lemma addrs_of_cons n ns : addrs_of (n :: ns) = node_addrs n ++ addrs_of ns.
Proof. done. Qed.

Lemma addrs_node l n r : addrs (Node l n r) = addrs l ++ node_addrs n ++ addrs r.
Proof. unfold addrs. cbn [inorder]. by rewrite addrs_of_app. Qed.

Lemma addrs_fill K t : addrs (fill K t) ≡ₚ addrs t ++ ctx_addrs K.
Proof.
  unfold addrs, ctx_addrs. rewrite inorder_fill, !addrs_of_app.
  rewrite (Permutation_app_comm (addrs_of (before K))), <- app_assoc.
  f_equiv. apply Permutation_app_comm.
Qed.

Lemma ctx_addrs_FL n r K : ctx_addrs (FL n r :: K) ≡ₚ node_addrs n ++ addrs r ++ ctx_addrs K.
Proof.
  unfold ctx_addrs, addrs. cbn [before after]. rewrite addrs_of_cons, addrs_of_app.
  rewrite (Permutation_app_comm (addrs_of (before K)) (_ ++ _)), <- !app_assoc.
  by rewrite (Permutation_app_comm (addrs_of (after K))).
Qed.

Lemma ctx_addrs_FR l n K : ctx_addrs (FR l n :: K) ≡ₚ node_addrs n ++ addrs l ++ ctx_addrs K.
Proof.
  unfold ctx_addrs, addrs. cbn [before after]. rewrite !addrs_of_app, addrs_of_cons.
  change (addrs_of []) with (@nil Z). rewrite app_nil_r, <- !app_assoc.
  rewrite (app_assoc (addrs_of (inorder l))), (Permutation_app_comm (addrs_of (inorder l))).
  rewrite (app_assoc (addrs_of (before K))), (Permutation_app_comm (addrs_of (before K))).
  by rewrite <- !app_assoc.
Qed.

Lemma focus t n : n ∈ inorder t -> exists K l r, t = fill K (Node l n r).
Proof.
  induction t as [|l IHl m r IHr]; cbn [inorder]; [set_solver|].
  rewrite elem_of_app, elem_of_cons. intros [Hl|[->|Hr]].
  - destruct (IHl Hl) as (K & l' & r' & ->). exists (K ++ [FL m r]), l', r'. by rewrite fill_app.
  - by exists [], l, r.
  - destruct (IHr Hr) as (K & l' & r' & ->). exists (K ++ [FR l m]), l', r'. by rewrite fill_app.
Qed.

(** ** The fields that represent a tree *)

Definition rest_at (T : node_map) (a b : Z) : Prop :=
  exists fl, T !! b = Some (mkTreeChunk a (mkTreeList fl NULL NULL NULL)).

(** The embedded record of the node, linked to [p], [lc] and [rc]; the other chunks of
    the list point to the node. *)
Definition node_links (T : node_map) (n : node) (p lc rc : Z) : Prop :=
  chunk_addr (n_addr n) /\
  (exists x, T !! n_addr n = Some (mkTreeChunk x (mkTreeList (n_list n) p lc rc)) /\
     (n_live n = true -> x = n_addr n)) /\
  Forall (rest_at T (n_addr n)) (n_rest n).

Fixpoint tree_links (T : node_map) (p : Z) (t : tree) : Prop :=
  match t with
  | Leaf => True
  | Node l n r =>
      node_links T n p (root_of l) (root_of r) /\ tree_links T (n_addr n) l /\
      tree_links T (n_addr n) r
  end.

(** The context of a hole that holds the node [h] or NULL *)
Fixpoint ctx_links (T : node_map) (K : list frame) (h : Z) : Prop :=
  match K with
  | [] => True
  | FL n r :: K =>
      node_links T n (parent_of K) h (root_of r) /\ tree_links T (n_addr n) r /\
      ctx_links T K (n_addr n)
  | FR l n :: K =>
      node_links T n (parent_of K) (root_of l) h /\ tree_links T (n_addr n) l /\
      ctx_links T K (n_addr n)
  end.

Lemma tree_links_fill T K t :
  tree_links T NULL (fill K t) <-> ctx_links T K (root_of t) /\ tree_links T (parent_of K) t.
Proof.
  revert t. induction K as [|[n r|l n] K IH]; intros t; cbn [fill ctx_links parent_of frame_node].
  - naive_solver.
  - rewrite IH. cbn [plug root_of tree_links]. naive_solver.
  - rewrite IH. cbn [plug root_of tree_links]. naive_solver.
Qed.

Lemma node_links_frame T T' n p lc rc :
  (forall a, a ∈ node_addrs n -> T' !! a = T !! a) ->
  node_links T n p lc rc -> node_links T' n p lc rc.
Proof.
  intros HT (Ha & Hx & Hr). unfold node_links, rest_at in *. rewrite HT by by left.
  split_and!; [done..|]. rewrite Forall_forall in Hr |- *. intros b Hb. rewrite HT by by right.
  by apply Hr.
Qed.

Lemma tree_links_frame T T' p t :
  (forall a, a ∈ addrs t -> T' !! a = T !! a) -> tree_links T p t -> tree_links T' p t.
Proof.
  revert p. induction t as [|l IHl n r IHr]; intros p; [done|]. cbn [tree_links].
  rewrite addrs_node. intros HT (Hn & Hl & Hr). split_and!.
  - eapply node_links_frame; [|done]. set_solver.
  - apply IHl; [set_solver|done].
  - apply IHr; [set_solver|done].
Qed.

Lemma ctx_links_frame T T' K h :
  (forall a, a ∈ ctx_addrs K -> T' !! a = T !! a) -> ctx_links T K h -> ctx_links T' K h.
Proof.
  revert h. induction K as [|[n r|l n] K IH]; intros h HT; cbn [ctx_links]; [done|..];
    intros (Hn & Ht & HK).
  - setoid_rewrite ctx_addrs_FL in HT. split_and!.
    + eapply node_links_frame; [|done]. set_solver.
    + eapply tree_links_frame; [|done]. set_solver.
    + apply IH; [set_solver|done].
  - setoid_rewrite ctx_addrs_FR in HT. split_and!.
    + eapply node_links_frame; [|done]. set_solver.
    + eapply tree_links_frame; [|done]. set_solver.
    + apply IH; [set_solver|done].
Qed.

(** ** Pointer updates *)

Definition t_parent (v : Z) (t : TreeChunk) : TreeChunk :=
  let e := _embedded_list t in mkTreeChunk (_list t) (mkTreeList (tl_list e) v (_left e) (_right e)).
Definition t_left (v : Z) (t : TreeChunk) : TreeChunk :=
  let e := _embedded_list t in mkTreeChunk (_list t) (mkTreeList (tl_list e) (_parent e) v (_right e)).
Definition t_right (v : Z) (t : TreeChunk) : TreeChunk :=
  let e := _embedded_list t in mkTreeChunk (_list t) (mkTreeList (tl_list e) (_parent e) (_left e) v).
Definition t_base (fl : FreeList) (t : TreeChunk) : TreeChunk :=
  let e := _embedded_list t in mkTreeChunk (_list t) (mkTreeList fl (_parent e) (_left e) (_right e)).
Definition t_embed (e : TreeList) (t : TreeChunk) : TreeChunk := mkTreeChunk (_list t) e.
Definition t_list (v : Z) (t : TreeChunk) : TreeChunk := mkTreeChunk v (_embedded_list t).

(** [if (v != NULL) v->setParent(q)] *)
Definition adopt (q v : Z) (T : node_map) : node_map :=
  if v =? NULL then T else alter (t_parent q) v T.

Lemma adopt_ne q v T a : (v <> NULL -> v <> a) -> adopt q v T !! a = T !! a.
Proof.
  intros Ha. unfold adopt. destruct (Z.eqb_spec v NULL); [done|]. apply lookup_alter_ne. auto.
Qed.

Lemma adopt_same q v T t : v <> NULL -> T !! v = Some t -> adopt q v T !! v = Some (t_parent q t).
Proof.
  intros Hv Ht. unfold adopt. rewrite (proj2 (Z.eqb_neq _ _) Hv). by rewrite lookup_alter_eq, Ht.
Qed.

Lemma wp_get_dict d (Q : BinaryTreeDictionary -> BinaryTreeDictionary -> Prop) : Q d d -> wp get Q d.
Proof. intros HQ. by exists d, d. Qed.

Lemma wp_root d (Q : Z -> BinaryTreeDictionary -> Prop) : Q (_root d) d -> wp Dictionary.root Q d.
Proof. intros HQ. by exists (_root d), d. Qed.

Lemma wp_lift_ {W} (f : W -> W) (Q : unit -> W -> Prop) w : Q tt (f w) -> wp (lift_ f) Q w.
Proof. intros HQ. by exists tt, (f w). Qed.

Lemma wp_on_chunks {A} (m : cm A) d (Q : A -> BinaryTreeDictionary -> Prop) :
  wp m (fun x s => Q x (set_chunks d s)) (chunks d) -> wp (on_chunks m) Q d.
Proof.
  intros (x & s & E & HQ). exists x, (set_chunks d s). unfold on_chunks. by rewrite E.
Qed.

Lemma set_chunks_id d : set_chunks d (chunks d) = d.
Proof. by destruct d. Qed.

Lemma set_nodes_id d : set_nodes d (nodes d) = d.
Proof. by destruct d. Qed.

(** Reading the headers leaves the dictionary as it is. *)
Lemma wp_read_chunk p c d (Q : FreeChunk -> BinaryTreeDictionary -> Prop) :
  chunks d !! p = Some c -> Q c d -> wp (on_chunks (chunk p)) Q d.
Proof. intros Hc HQ. apply wp_on_chunks. eapply wp_chunk; [done|]. by rewrite set_chunks_id. Qed.

Lemma wp_tree_chunk p t d (Q : TreeChunk -> BinaryTreeDictionary -> Prop) :
  nodes d !! p = Some t -> Q t d -> wp (tree_chunk p) Q d.
Proof. intros Ht HQ. exists t, d. unfold tree_chunk. by rewrite Ht. Qed.

Lemma wp_tree_list p t d (Q : TreeList -> BinaryTreeDictionary -> Prop) :
  nodes d !! p = Some t -> Q (_embedded_list t) d -> wp (tree_list p) Q d.
Proof. intros Ht HQ. apply wp_bind. eapply wp_tree_chunk; [done|]. by apply wp_ret. Qed.

Lemma wp_free_list p t d (Q : FreeList -> BinaryTreeDictionary -> Prop) :
  nodes d !! p = Some t -> Q (tl_list (_embedded_list t)) d -> wp (free_list p) Q d.
Proof. intros Ht HQ. apply wp_bind. eapply wp_tree_list; [done|]. by apply wp_ret. Qed.

Lemma wp_set_tree_chunk p t f d (Q : unit -> BinaryTreeDictionary -> Prop) :
  nodes d !! p = Some t -> Q tt (set_nodes d (alter f p (nodes d))) ->
  wp (set_tree_chunk p (f t)) Q d.
Proof.
  intros Ht HQ. exists tt, (set_nodes d (alter f p (nodes d))). split; [|done].
  unfold set_tree_chunk. by rewrite Ht, (alter_present _ _ t).
Qed.

Lemma wp_set_list p v t d (Q : unit -> BinaryTreeDictionary -> Prop) :
  nodes d !! p = Some t -> Q tt (set_nodes d (alter (t_list v) p (nodes d))) ->
  wp (set_list p v) Q d.
Proof.
  intros Ht HQ. apply wp_bind. eapply wp_tree_chunk; [done|].
  by eapply (wp_set_tree_chunk _ _ (t_list v)).
Qed.

Lemma wp_set_embedded_list p e t d (Q : unit -> BinaryTreeDictionary -> Prop) :
  nodes d !! p = Some t -> Q tt (set_nodes d (alter (t_embed e) p (nodes d))) ->
  wp (set_embedded_list p e) Q d.
Proof.
  intros Ht HQ. apply wp_bind. eapply wp_tree_chunk; [done|].
  by eapply (wp_set_tree_chunk _ _ (t_embed e)).
Qed.

(** Updates of one field of the embedded record *)
Lemma wp_embed_field p f t d (Q : unit -> BinaryTreeDictionary -> Prop) :
  nodes d !! p = Some t -> _list (f t) = _list t ->
  Q tt (set_nodes d (alter f p (nodes d))) ->
  wp (set_embedded_list p (_embedded_list (f t))) Q d.
Proof.
  intros Ht Hf HQ. apply wp_bind. eapply wp_tree_chunk; [done|]. rewrite <- Hf.
  replace (mkTreeChunk _ _) with (f t) by by destruct (f t).
  by eapply (wp_set_tree_chunk _ _ f).
Qed.

Lemma wp_set_free_list p fl t d (Q : unit -> BinaryTreeDictionary -> Prop) :
  nodes d !! p = Some t -> Q tt (set_nodes d (alter (t_base fl) p (nodes d))) ->
  wp (set_free_list p fl) Q d.
Proof.
  intros Ht HQ. apply wp_bind. eapply wp_tree_list; [done|].
  by eapply (wp_embed_field p (t_base fl)).
Qed.

Lemma wp_setParent p v t d (Q : unit -> BinaryTreeDictionary -> Prop) :
  nodes d !! p = Some t -> Q tt (set_nodes d (alter (t_parent v) p (nodes d))) ->
  wp (TreeLists.setParent p v) Q d.
Proof.
  intros Ht HQ. apply wp_bind. eapply wp_tree_list; [done|].
  by eapply (wp_embed_field p (t_parent v)).
Qed.

Lemma wp_clearLeft p t d (Q : unit -> BinaryTreeDictionary -> Prop) :
  nodes d !! p = Some t -> Q tt (set_nodes d (alter (t_left NULL) p (nodes d))) ->
  wp (TreeLists.clearLeft p) Q d.
Proof.
  intros Ht HQ. apply wp_bind. eapply wp_tree_list; [done|].
  by eapply (wp_embed_field p (t_left NULL)).
Qed.

Lemma wp_clearRight p t d (Q : unit -> BinaryTreeDictionary -> Prop) :
  nodes d !! p = Some t -> Q tt (set_nodes d (alter (t_right NULL) p (nodes d))) ->
  wp (TreeLists.clearRight p) Q d.
Proof.
  intros Ht HQ. apply wp_bind. eapply wp_tree_list; [done|].
  by eapply (wp_embed_field p (t_right NULL)).
Qed.

(** [if (v != NULL) v->setParent(p)] *)
Lemma wp_adopt p v d (Q : unit -> BinaryTreeDictionary -> Prop) :
  (v <> NULL -> is_Some (nodes d !! v)) -> Q tt (set_nodes d (adopt p v (nodes d))) ->
  wp (when (negb (v =? NULL)) (TreeLists.setParent v p)) Q d.
Proof.
  intros Hv HQ. unfold adopt in HQ. destruct (Z.eqb_spec v NULL) as [->|Hn].
  - apply wp_ret. by rewrite set_nodes_id in HQ.
  - destruct (Hv Hn) as [t Ht]. by eapply wp_setParent.
Qed.

Lemma alter_is_Some {A} (f : A -> A) i j (m : gmap Z A) : is_Some (m !! j) -> is_Some (alter f i m !! j).
Proof.
  intros Hj. destruct (decide (i = j)) as [<-|Hne].
  - rewrite lookup_alter_eq. by apply fmap_is_Some.
  - by rewrite lookup_alter_ne.
Qed.

Lemma wp_setLeft p v t d (Q : unit -> BinaryTreeDictionary -> Prop) :
  nodes d !! p = Some t -> (v <> NULL -> is_Some (nodes d !! v)) ->
  Q tt (set_nodes d (adopt p v (alter (t_left v) p (nodes d)))) ->
  wp (TreeLists.setLeft p v) Q d.
Proof.
  intros Ht Hv HQ. apply wp_bind. eapply wp_tree_list; [done|]. apply wp_bind.
  eapply (wp_embed_field p (t_left v)); [done..|]. apply wp_adopt; [|done].
  intros Hn. by apply alter_is_Some, Hv.
Qed.

Lemma wp_setRight p v t d (Q : unit -> BinaryTreeDictionary -> Prop) :
  nodes d !! p = Some t -> (v <> NULL -> is_Some (nodes d !! v)) ->
  Q tt (set_nodes d (adopt p v (alter (t_right v) p (nodes d)))) ->
  wp (TreeLists.setRight p v) Q d.
Proof.
  intros Ht Hv HQ. apply wp_bind. eapply wp_tree_list; [done|]. apply wp_bind.
  eapply (wp_embed_field p (t_right v)); [done..|]. apply wp_adopt; [|done].
  intros Hn. by apply alter_is_Some, Hv.
Qed.

(** ** How updates act on represented trees *)

Lemma node_links_alter T f n p lc rc p' lc' rc' :
  (forall x, f (mkTreeChunk x (mkTreeList (n_list n) p lc rc)) =
             mkTreeChunk x (mkTreeList (n_list n) p' lc' rc')) ->
  NoDup (node_addrs n) -> node_links T n p lc rc ->
  node_links (alter f (n_addr n) T) n p' lc' rc'.
Proof.
  intros Hf [Hn _]%NoDup_cons (Ha & (x & Hx & Hl) & Hr). split_and!; [done| |].
  - exists x. by rewrite lookup_alter_eq, Hx, <- Hf.
  - rewrite Forall_forall in Hr |- *. intros b Hb. unfold rest_at.
    rewrite lookup_alter_ne; [by apply Hr|]. by intros <-.
Qed.

Lemma node_links_lookup T n p lc rc :
  node_links T n p lc rc -> exists x, T !! n_addr n = Some (mkTreeChunk x (mkTreeList (n_list n) p lc rc)).
Proof. intros (_ & (x & Hx & _) & _). by exists x. Qed.

Lemma root_addr T q t : tree_links T q t -> root_of t <> NULL -> root_of t ∈ addrs t.
Proof.
  destruct t as [|l n r]; [done|]. intros _ _. rewrite addrs_node. cbn. set_solver.
Qed.

Lemma root_null T q t : tree_links T q t -> root_of t = NULL <-> t = Leaf.
Proof.
  intros H. split; [|by intros ->]. destruct t as [|l n r]; [done|]. destruct H as ((Ha & _) & _).
  by apply chunk_addr_ptr in Ha as [_ ?].
Qed.

Lemma root_present T q t : tree_links T q t -> root_of t <> NULL -> is_Some (T !! root_of t).
Proof.
  destruct t as [|l n r]; [done|]. intros (Hn & _) _. apply node_links_lookup in Hn as [x Hx].
  cbn [root_of]. by rewrite Hx.
Qed.

Lemma reparent T q q' t :
  NoDup (addrs t) -> tree_links T q t -> tree_links (adopt q' (root_of t) T) q' t.
Proof.
  destruct t as [|l n r]; [done|]. cbn [tree_links root_of]. rewrite addrs_node.
  intros Hd (Hn & Hl & Hr). destruct (Hn) as (Ha & _). apply chunk_addr_ptr in Ha as [_ Ha].
  unfold adopt. rewrite (proj2 (Z.eqb_neq _ _) Ha).
  apply NoDup_app in Hd as (_ & Hd1 & Hd). apply NoDup_app in Hd as (Hdn & Hd2 & _). split_and!.
  - by eapply node_links_alter.
  - eapply tree_links_frame; [|done]. intros a Ha'. apply lookup_alter_ne. intros <-.
    apply (Hd1 _ Ha'). set_solver.
  - eapply tree_links_frame; [|done]. intros a Ha'. apply lookup_alter_ne. intros <-.
    apply (Hd2 (n_addr n)); [by left|done].
Qed.

(** Putting a tree into the hole of a frame *)
Definition hole_update (f : frame) (v : Z) (T : node_map) : node_map :=
  let p := n_addr (frame_node f) in
  adopt p v (alter (match f with FL _ _ => t_left v | FR _ _ => t_right v end) p T).

Lemma hole_update_ne f v T a :
  a <> n_addr (frame_node f) -> (v <> NULL -> v <> a) -> hole_update f v T !! a = T !! a.
Proof. intros H H'. unfold hole_update. rewrite adopt_ne by done. by rewrite lookup_alter_ne. Qed.

Lemma hole_update_links T f K h v :
  ctx_links T (f :: K) h -> NoDup (ctx_addrs (f :: K)) ->
  ctx_links (alter (match f with FL _ _ => t_left v | FR _ _ => t_right v end)
               (n_addr (frame_node f)) T) (f :: K) v.
Proof.
  destruct f as [n r|l n]; cbn [ctx_links frame_node]; [rewrite ctx_addrs_FL|rewrite ctx_addrs_FR];
    intros (Hn & Ht & HK) (Hdn & Hd1 & (_ & _ & Hdk)%NoDup_app)%NoDup_app;
    (split_and!; [by eapply node_links_alter|..]).
  - eapply tree_links_frame; [|done]. intros a Ha. apply lookup_alter_ne. intros <-.
    apply (Hd1 (n_addr n)); [by left|set_solver].
  - eapply ctx_links_frame; [|done]. intros a Ha. apply lookup_alter_ne. intros <-.
    apply (Hd1 (n_addr n)); [by left|set_solver].
  - eapply tree_links_frame; [|done]. intros a Ha. apply lookup_alter_ne. intros <-.
    apply (Hd1 (n_addr n)); [by left|set_solver].
  - eapply ctx_links_frame; [|done]. intros a Ha. apply lookup_alter_ne. intros <-.
    apply (Hd1 (n_addr n)); [by left|set_solver].
Qed.

Lemma frame_addr_in f K : n_addr (frame_node f) ∈ ctx_addrs (f :: K).
Proof.
  destruct f as [n r|l n]; [rewrite ctx_addrs_FL|rewrite ctx_addrs_FR]; cbn; set_solver.
Qed.

Lemma fill_hole T f K h q t :
  ctx_links T (f :: K) h -> tree_links T q t -> NoDup (addrs t ++ ctx_addrs (f :: K)) ->
  tree_links (hole_update f (root_of t) T) NULL (fill (f :: K) t).
Proof.
  intros HK Ht (Hd1 & Hd & Hd2)%NoDup_app. apply tree_links_fill.
  pose proof (frame_addr_in f K) as Hf. unfold hole_update. split.
  - eapply ctx_links_frame; [|by eapply hole_update_links]. intros a Ha. apply adopt_ne.
    intros Hn <-. apply (Hd (root_of t)); [by eapply root_addr|done].
  - apply (reparent _ q); [done|]. eapply tree_links_frame; [|done]. intros a Ha.
    apply lookup_alter_ne. intros <-. by apply (Hd _ Ha).
Qed.

(** ** Well-formed search trees *)

Record tree_ok (T : node_map) (s : chunk_map) (t : tree) : Prop := {
  tk_links : tree_links T NULL t;
  tk_lists : Forall (fun n => list_of s (n_list n) (n_chunks n)) (inorder t);
  tk_nodup : NoDup (addrs t);
  tk_sorted : StronglySorted Z.lt (n_size <$> inorder t);
  tk_sizes : Forall (fun n => 0 < n_size n < 2 ^ 64) (inorder t)
}.

Fixpoint height (t : tree) : nat :=
  match t with Leaf => 0 | Node l _ r => S (Nat.max (height l) (height r)) end.

Lemma addrs_present T q t a : tree_links T q t -> a ∈ addrs t -> is_Some (T !! a).
Proof.
  revert q. induction t as [|l IHl n r IHr]; intros q; [by intros _ ?%elem_of_nil|].
  rewrite addrs_node, !elem_of_app. intros (Hn & Hl & Hr) [?|[Ha|?]]; [eauto| |eauto].
  apply elem_of_cons in Ha as [->|Ha].
  - apply node_links_lookup in Hn as [x ->]. done.
  - destruct Hn as (_ & _ & Hn). rewrite Forall_forall in Hn. by destruct (Hn a Ha) as [fl ->].
Qed.

Lemma height_addrs t : (height t <= length (addrs t))%nat.
Proof.
  induction t as [|l IHl n r IHr]; [done|]. rewrite addrs_node, !length_app. cbn. lia.
Qed.

Lemma addrs_fuel T q t : NoDup (addrs t) -> tree_links T q t -> (length (addrs t) <= size T)%nat.
Proof.
  intros Hd Ht. rewrite <- (size_list_to_set (C := gset Z) (addrs t)) by done. rewrite <- size_dom.
  apply subseteq_size. intros a Ha%elem_of_list_to_set. apply elem_of_dom. by eapply addrs_present.
Qed.

Lemma chunks_addrs n a : a ∈ n_chunks n -> a ∈ node_addrs n.
Proof. unfold n_chunks, node_addrs. destruct (n_live n); set_solver. Qed.

Lemma node_addrs_in t n a : n ∈ inorder t -> a ∈ node_addrs n -> a ∈ addrs t.
Proof.
  intros Hn Ha. unfold addrs, addrs_of. apply list_elem_of_join. exists (node_addrs n). split; [done|].
  by apply list_elem_of_fmap_2.
Qed.

Lemma node_addrs_nodup t n : NoDup (addrs t) -> n ∈ inorder t -> NoDup (node_addrs n).
Proof.
  intros Hd (K & l & r & ->)%focus. rewrite addrs_fill, addrs_node in Hd.
  apply NoDup_app in Hd as (Hd & _ & _). apply NoDup_app in Hd as (_ & _ & Hd).
  by apply NoDup_app in Hd as (Hd & _ & _).
Qed.

(** A loop that has enough fuel *)
Lemma wp_tree_looping {A} (f : nat -> dm A) d (Q : A -> BinaryTreeDictionary -> Prop) :
  wp (f (S (size (nodes d)))) Q d -> wp (tree_looping f) Q d.
Proof. done. Qed.

Lemma wp_looping {A} (f : nat -> cm A) s (Q : A -> chunk_map -> Prop) :
  wp (f (S (size s))) Q s -> wp (looping f) Q s.
Proof. done. Qed.

(** The size order around a node *)
Lemma sorted_around l n r :
  StronglySorted Z.lt (n_size <$> inorder (Node l n r)) ->
  StronglySorted Z.lt (n_size <$> inorder l) /\ StronglySorted Z.lt (n_size <$> inorder r) /\
  (forall m, m ∈ inorder l -> n_size m < n_size n) /\
  (forall m, m ∈ inorder r -> n_size n < n_size m).
Proof.
  cbn [inorder]. rewrite fmap_app, fmap_cons. intros H.
  assert (StronglySorted Z.lt (n_size n :: (n_size <$> inorder r))) as Hr by by eapply StronglySorted_app_1_r.
  split_and!.
  - by eapply StronglySorted_app_1_l.
  - by apply StronglySorted_cons in Hr as [].
  - intros m Hm. eapply StronglySorted_app_1_elem_of; [done|by apply list_elem_of_fmap_2|by left].
  - intros m Hm. apply StronglySorted_cons in Hr as [Hr _]. rewrite Forall_forall in Hr.
    apply Hr. by apply list_elem_of_fmap_2.
Qed.

(** The nodes around a node, and their chunks *)
Definition others (K : list frame) (l r : tree) : list node :=
  before K ++ inorder l ++ inorder r ++ after K.

Lemma addrs_focus K l n r : addrs (fill K (Node l n r)) ≡ₚ node_addrs n ++ addrs_of (others K l r).
Proof.
  unfold addrs, others. rewrite inorder_fill. cbn [inorder]. rewrite !addrs_of_app, addrs_of_cons.
  rewrite <- !app_assoc. generalize (addrs_of (before K)) (addrs_of (inorder l)) (node_addrs n). intros x y z.
  rewrite (app_assoc y), (Permutation_app_comm y z), <- app_assoc.
  by rewrite (app_assoc x), (Permutation_app_comm x z), <- app_assoc.
Qed.

Lemma others_addrs ns m a : m ∈ ns -> a ∈ node_addrs m -> a ∈ addrs_of ns.
Proof.
  intros Hm Ha. apply list_elem_of_join. exists (node_addrs m). split; [done|].
  by apply list_elem_of_fmap_2.
Qed.

Lemma Forall_focus (P : node -> Prop) K l n r :
  Forall P (inorder (fill K (Node l n r))) <-> P n /\ Forall P (others K l r).
Proof.
  unfold others. rewrite inorder_fill. cbn [inorder]. rewrite !Forall_app, Forall_cons. naive_solver.
Qed.
