(* ===== verification/DictionaryReads.v ===== *)
(** * The dictionary of large free chunks: what only reads it

    [verifyTree] accepts every well-formed tree, the totals are those of the tree, and
    the searches by size find what an ordered sequence of sizes says. *)

From S2P Require Import Prelude OsMemory FreeList BinaryTreeDictionary DictionaryTree.

Open Scope Z_scope.
Open Scope hotspot_scope.
Import TreeLists Dictionary.

(** ** Verification *)

Section reads.
Context (d : BinaryTreeDictionary).

Lemma wp_read_list_invariant fl l (Q : unit -> BinaryTreeDictionary -> Prop) :
  list_of (chunks d) fl l -> Q tt d -> wp (on_chunks (FreeLists.list_invariant fl)) Q d.
Proof.
  intros Hl HQ. apply wp_on_chunks. eapply wp_list_invariant; [done|]. by rewrite set_chunks_id.
Qed.

Lemma wp_read_assert_chunk p f (Q : unit -> BinaryTreeDictionary -> Prop) :
  (p <> NULL -> exists c, chunks d !! p = Some c /\ f c = true) -> Q tt d ->
  wp (on_chunks (assert_chunk p f)) Q d.
Proof.
  intros Hc HQ. apply wp_on_chunks, wp_assert_chunk; [done|]. by rewrite set_chunks_id.
Qed.

Lemma wp_assert_node q t f (Q : unit -> BinaryTreeDictionary -> Prop) :
  tree_links (nodes d) q t ->
  (forall l n r, t = Node l n r -> f (mkTreeList (n_list n) q (root_of l) (root_of r)) = true) ->
  Q tt d -> wp (assert_node (root_of t) f) Q d.
Proof.
  intros Ht Hf HQ. unfold assert_node. destruct t as [|l n r]; [by apply wp_ret|].
  destruct Ht as (Hn & _). destruct (Hn) as (Ha & _). apply chunk_addr_ptr in Ha as [_ Ha].
  cbn [root_of]. rewrite (proj2 (Z.eqb_neq _ _) Ha). apply node_links_lookup in Hn as [x Hx].
  apply wp_bind. eapply wp_tree_list; [done|]. apply wp_check; [by eapply Hf|done].
Qed.

Lemma verify_prev_loop_spec s sz p l fuel ct (Q : Z -> chunk_map -> Prop) :
  seg s sz p l NULL -> (p <> NULL -> exists c, s !! p = Some c /\ isFree c = true) ->
  (length l < fuel)%nat -> 0 <= ct -> ct + zlen l < 2 ^ 64 -> Q (ct + zlen l) s ->
  wp (verify_prev_loop fuel (first NULL l) ct) Q s.
Proof.
  revert p fuel ct. induction l as [|a l IH]; intros p [|fuel] ct Hs Hp Hf Hct Hb HQ;
    cbn [length] in *; try lia.
  - apply wp_ret. by rewrite Z.add_0_r in HQ.
  - destruct Hs as (Ha & (c & Hc & Hsz & Hpr & Hfr & Hn) & Hs). cbn [verify_prev_loop first].
    destruct (chunk_addr_ptr a Ha) as [_ Hnn]. rewrite (proj2 (Z.eqb_neq _ _) Hnn).
    apply wp_bind. eapply wp_chunk; [done|]. apply wp_bind, wp_assert_chunk; [by rewrite Hpr|].
    rewrite Hn. replace (u64 (ct + 1)) with (ct + 1) by (rewrite wrapu_id; unfold is_u; lia).
    eapply IH; [done|eauto|lia..|]. by replace (ct + 1 + zlen l) with (ct + Z.of_nat (S (length l))) by lia.
Qed.

Lemma verifyPrevFreePtrs_spec p x e l (Q : Z -> BinaryTreeDictionary -> Prop) :
  nodes d !! p = Some (mkTreeChunk x e) -> list_of (chunks d) (tl_list e) l -> Q (zlen l) d ->
  wp (verifyPrevFreePtrs p) Q d.
Proof.
  intros Hp Hl HQ. pose proof (list_of_bound _ _ _ Hl) as Hb. destruct Hl as [Eh _ _ Hd Hs].
  apply wp_bind. eapply wp_free_list; [done|]. cbn [_embedded_list]. rewrite Eh.
  apply wp_on_chunks, wp_looping. pose proof (seg_fuel _ _ _ _ _ Hd Hs).
  eapply verify_prev_loop_spec; [done|done|lia|lia|lia|]. by rewrite set_chunks_id.
Qed.

(** The chunks after the first one have clear tree fields. *)
Lemma wp_clear_fields p a n t (Q : unit -> BinaryTreeDictionary -> Prop) :
  nodes d !! a = Some t -> (p <> NULL -> rest_at (nodes d) n a) -> Q tt d ->
  wp (when (negb (p =? NULL))
        (check ((_parent (_embedded_list t) =? NULL) && (_left (_embedded_list t) =? NULL) &&
                (_right (_embedded_list t) =? NULL)))) Q d.
Proof.
  intros Ht Hp HQ. apply wp_when; [|done]. intros E%negb_true_iff%Z.eqb_neq.
  destruct (Hp E) as [fl Hfl]. rewrite Ht in Hfl. injection Hfl as ->. by apply wp_check.
Qed.

Lemma verify_chunks_loop_spec sz p l fuel a n (Q : unit -> BinaryTreeDictionary -> Prop) :
  seg (chunks d) sz p (a :: l) NULL -> Forall (rest_at (nodes d) n) l ->
  is_Some (nodes d !! a) -> (p <> NULL -> rest_at (nodes d) n a) ->
  (length l < fuel)%nat -> Q tt d -> wp (verify_chunks_loop fuel a) Q d.
Proof.
  revert p a fuel. induction l as [|b l IH];
    intros p a [|fuel] (Ha & (c & Hc & Hsz & Hpr & _ & Hn) & Hs) Hl [t Ht] Hp Hf HQ;
    cbn [length] in *; try lia.
  all: cbn [verify_chunks_loop first] in *; apply wp_bind; eapply wp_read_chunk; [done|].
  all: cbv zeta; apply wp_bind; eapply wp_tree_list; [done|]; rewrite Hpr, Hn; apply wp_bind.
  all: eapply wp_clear_fields; [done..|].
  - by apply wp_ret.
  - destruct (Hs) as (Hb & (cb & Hcb & Hszb & Hprb & _ & _) & _).
    destruct (chunk_addr_ptr b Hb) as [_ Hnn]. rewrite (proj2 (Z.eqb_neq _ _) Hnn).
    apply wp_bind. eapply wp_read_chunk; [done|]. apply wp_bind, wp_check; [by apply Z.eqb_eq|].
    apply wp_bind, wp_check; [apply Z.eqb_eq; congruence|].
    apply Forall_cons in Hl as [Hrb Hl]. eapply IH; try done; [|lia]. by destruct Hrb as [fl ->].
Qed.

Lemma wp_head_as_TreeChunk n p lc rc (Q : Z -> BinaryTreeDictionary -> Prop) :
  node_links (nodes d) n p lc rc -> list_of (chunks d) (n_list n) (n_chunks n) ->
  Q (first NULL (n_chunks n)) d -> wp (head_as_TreeChunk (n_addr n)) Q d.
Proof.
  intros (Ha & (x & Hx & Hl) & _) [Eh _ _ _ _] HQ. apply wp_bind.
  eapply wp_free_list; [done|]. cbn [_embedded_list tl_list]. rewrite Eh.
  unfold n_chunks in *. destruct (n_live n); cbn [first] in *; [|by apply wp_ret].
  apply chunk_addr_ptr in Ha as [_ Ha]. rewrite (proj2 (Z.eqb_neq _ _) Ha).
  apply wp_bind. eapply wp_tree_chunk; [done|]. rewrite Hl by done. cbn [_list].
  apply wp_bind, wp_check; [by apply Z.eqb_eq|]. by apply wp_ret.
Qed.

(** The checks of [verify_node] on the list *)
Lemma verify_list_spec n p lc rc (Q : unit -> BinaryTreeDictionary -> Prop) :
  node_links (nodes d) n p lc rc -> list_of (chunks d) (n_list n) (n_chunks n) ->
  (length (n_rest n) <= size (nodes d))%nat -> Q tt d ->
  wp (on_chunks (assert_chunk (_head (n_list n)) isFree) ;;
      when (negb (_head (n_list n) =? NULL))
        (tc ← head_as_TreeChunk (n_addr n); t ← tree_chunk tc; check (_list t =? n_addr n)) ;;
      check ((0 <? _count (n_list n)) || ((_head (n_list n) =? NULL) && (_tail (n_list n) =? NULL))) ;;
      check ((1 <? _count (n_list n)) || (_head (n_list n) =? _tail (n_list n))) ;;
      count ← verifyPrevFreePtrs (n_addr n);
      check (count =? u64 (_count (n_list n))) ;;
      when (negb (_head (n_list n) =? NULL))
        (tc ← head_as_TreeChunk (n_addr n); verifyTreeChunkList tc)) Q d.
Proof.
  intros Hn Hls Hfuel HQ. pose proof (list_of_bound _ _ _ Hls) as Hb. destruct (Hls) as [Eh Et Ec Hd Hs].
  destruct (Hn) as (Ha & (x & Hx & Hl) & Hr). rewrite Eh, Et, Ec.
  assert (forall Q, Q (zlen (n_chunks n)) d -> wp (verifyPrevFreePtrs (n_addr n)) Q d) as Hcount.
  { intros Q' HQ'. by eapply verifyPrevFreePtrs_spec. }
  assert (forall Q, Q (first NULL (n_chunks n)) d -> wp (head_as_TreeChunk (n_addr n)) Q d) as Hhead.
  { intros Q' HQ'. by eapply wp_head_as_TreeChunk. }
  unfold n_chunks in *. destruct (n_live n) eqn:El; cbn [first length] in *.
  - apply wp_bind, wp_read_assert_chunk.
    { intros _. destruct (seg_elem _ _ _ _ _ (n_addr n) Hs) as (_ & c & ? & _ & ?); [by left|]. by exists c. }
    destruct (chunk_addr_ptr _ Ha) as [_ Hnn]. rewrite (proj2 (Z.eqb_neq _ _) Hnn).
    rewrite Hl in Hx by done. apply wp_bind, wp_bind, Hhead, wp_bind. eapply wp_tree_chunk; [done|].
    apply wp_check; [apply Z.eqb_refl|]. apply wp_bind, wp_check; [apply orb_true_iff; left; apply Z.ltb_lt; lia|].
    apply wp_bind, wp_check.
    { destruct (n_rest n); [apply orb_true_iff; right; apply Z.eqb_refl|apply orb_true_iff; left; apply Z.ltb_lt; cbn [length]; lia]. }
    apply wp_bind, Hcount, wp_bind, wp_check; [apply Z.eqb_eq; rewrite wrapu_id; unfold is_u; lia|].
    apply wp_bind, Hhead, wp_tree_looping.
    eapply verify_chunks_loop_spec; [done|done|by rewrite Hx|done|lia|done].
  - apply wp_bind, wp_read_assert_chunk; [done|]. apply wp_bind, wp_when; [done|intros _].
    apply wp_bind, wp_check; [done|]. apply wp_bind, wp_check; [done|].
    apply wp_bind, Hcount, wp_bind, wp_check; [done|]. by apply wp_when.
Qed.

Lemma verify_node_spec l n r p (Q : unit -> BinaryTreeDictionary -> Prop) :
  tree_links (nodes d) p (Node l n r) -> list_of (chunks d) (n_list n) (n_chunks n) ->
  0 < n_size n -> (forall m, m ∈ inorder l -> n_size m < n_size n) ->
  (forall m, m ∈ inorder r -> n_size n < n_size m) -> (length (n_rest n) <= size (nodes d))%nat ->
  Q tt d -> wp (verify_node (n_addr n)) Q d.
Proof.
  intros (Hn & Hl & Hr) Hls Hsz Hlt Hgt Hfuel HQ.
  destruct (node_links_lookup _ _ _ _ _ Hn) as [x Hx].
  apply wp_bind. eapply wp_tree_list; [done|]. cbn [_embedded_list tl_list _left _right].
  cbv zeta. fold (n_size n). apply wp_bind, wp_check; [apply negb_true_iff, Z.eqb_neq; lia|].
  apply wp_bind. eapply wp_assert_node; [done|intros; apply Z.eqb_refl|].
  apply wp_bind. eapply wp_assert_node; [done|intros; apply Z.eqb_refl|].
  apply wp_bind. eapply wp_assert_node; [done| |].
  { intros l' m r' ->. apply Z.ltb_lt, (Hlt m). cbn. set_solver. }
  apply wp_bind. eapply wp_assert_node; [done| |].
  { intros l' m r' ->. apply Z.ltb_lt, (Hgt m). cbn. set_solver. }
  by eapply verify_list_spec.
Qed.

(** What the checks of a subtree rely on *)
Definition subtree_ok (q : Z) (t : tree) : Prop :=
  tree_links (nodes d) q t /\
  Forall (fun n => list_of (chunks d) (n_list n) (n_chunks n)) (inorder t) /\
  StronglySorted Z.lt (n_size <$> inorder t) /\
  Forall (fun n => 0 < n_size n < 2 ^ 64) (inorder t) /\
  Forall (fun n => (length (n_rest n) <= size (nodes d))%nat) (inorder t).

Lemma subtree_parts q l n r :
  subtree_ok q (Node l n r) -> subtree_ok (n_addr n) l /\ subtree_ok (n_addr n) r.
Proof.
  intros ((_ & Hl & Hr) & Hls & Hst & Hsz & Hfl). apply sorted_around in Hst as (Hsl & Hsr & _).
  cbn [inorder] in *. apply Forall_app in Hls as [? [_ ?]%Forall_cons].
  apply Forall_app in Hsz as [? [_ ?]%Forall_cons]. apply Forall_app in Hfl as [? [_ ?]%Forall_cons].
  done.
Qed.

Lemma tree_ok_sub t : tree_ok (nodes d) (chunks d) t -> subtree_ok NULL t.
Proof.
  intros [Hl Hls Hd Hst Hsz]. split_and!; try done. apply Forall_forall. intros n Hn.
  pose proof (addrs_fuel _ _ _ Hd Hl). apply focus in Hn as (K & l & r & ->).
  rewrite addrs_fill, addrs_node, !length_app in H. cbn in H. lia.
Qed.

Lemma verify_tree_loop_spec q t fuel (Q : unit -> BinaryTreeDictionary -> Prop) :
  subtree_ok q t -> (height t < fuel)%nat -> Q tt d -> wp (verify_tree_loop fuel (root_of t)) Q d.
Proof.
  revert q fuel Q. induction t as [|l IHl n r IHr]; intros q [|fuel] Q Ht Hf HQ; cbn [height] in Hf; try lia.
  { by apply wp_ret. }
  destruct (subtree_parts _ _ _ _ Ht) as [Hl Hr]. destruct Ht as (Ht & Hls & Hst & Hsz & Hfl).
  destruct (Ht) as (Hn & _). destruct (node_links_lookup _ _ _ _ _ Hn) as [x Hx].
  destruct (Hn) as (Ha & _). apply chunk_addr_ptr in Ha as [_ Ha].
  cbn [verify_tree_loop root_of]. rewrite (proj2 (Z.eqb_neq _ _) Ha).
  apply sorted_around in Hst as (_ & _ & Hlt & Hgt). rewrite Forall_forall in Hls, Hsz, Hfl.
  assert (n ∈ inorder (Node l n r)) as Hin by (cbn; set_solver).
  apply wp_bind. eapply verify_node_spec; [done|by apply Hls|by apply Hsz|done..|by apply Hfl|].
  apply wp_bind. eapply wp_tree_list; [done|]. cbn [_embedded_list _left _right].
  apply wp_bind. eapply IHl; [done|lia|]. eapply IHr; [done|lia|done].
Qed.

Lemma verifyTree_spec t (Q : unit -> BinaryTreeDictionary -> Prop) :
  tree_ok (nodes d) (chunks d) t -> _root d = root_of t ->
  (_totalFreeBlocks d <> 0 -> _totalSize d <> 0) -> Q tt d -> wp verifyTree Q d.
Proof.
  intros Ht Er Htot HQ. apply wp_bind, wp_get_dict, wp_bind, wp_check.
  { destruct (Z.eqb_spec (_totalFreeBlocks d) 0) as [|Hb]; [by rewrite orb_true_r|].
    rewrite (proj2 (Z.eqb_neq _ _) (Htot Hb)). apply orb_true_r. }
  rewrite Er. apply wp_bind. eapply wp_assert_node; [apply Ht|done|]. apply wp_tree_looping.
  eapply verify_tree_loop_spec; [by apply tree_ok_sub| |done].
  pose proof (addrs_fuel _ _ _ (tk_nodup _ _ _ Ht) (tk_links _ _ _ Ht)). pose proof (height_addrs t). lia.
Qed.

(** ** Totals *)

Definition list_total (n : node) : Z := n_size n * zlen (n_chunks n).

Lemma length_loop_spec s sz p l fuel cnt (Q : Z -> chunk_map -> Prop) :
  seg s sz p l NULL -> (length l < fuel)%nat -> 0 <= cnt -> cnt + zlen l < 2 ^ 64 ->
  Q (cnt + zlen l) s -> wp (length_loop fuel (first NULL l) cnt) Q s.
Proof.
  revert p fuel cnt. induction l as [|a l IH]; intros p [|fuel] cnt Hs Hf Hct Hb HQ;
    cbn [length] in *; try lia.
  - apply wp_ret. by rewrite Z.add_0_r in HQ.
  - destruct Hs as (Ha & (c & Hc & _ & _ & _ & Hn) & Hs). cbn [length_loop first].
    destruct (chunk_addr_ptr a Ha) as [_ Hnn]. rewrite (proj2 (Z.eqb_neq _ _) Hnn).
    apply wp_bind. eapply wp_chunk; [done|]. rewrite Hn.
    replace (u64 (cnt + 1)) with (cnt + 1) by (rewrite wrapu_id; unfold is_u; lia).
    eapply IH; [done|lia..|]. by replace (cnt + 1 + zlen l) with (cnt + Z.of_nat (S (length l))) by lia.
Qed.

Lemma totalListLength_spec n p lc rc (Q : Z -> BinaryTreeDictionary -> Prop) :
  node_links (nodes d) n p lc rc -> list_of (chunks d) (n_list n) (n_chunks n) ->
  Q (zlen (n_chunks n)) d -> wp (totalListLength (n_addr n)) Q d.
Proof.
  intros Hn Hl HQ. pose proof (list_of_bound _ _ _ Hl) as Hb. destruct Hl as [Eh _ Ec Hd Hs].
  apply node_links_lookup in Hn as [x Hx]. apply wp_bind. eapply wp_free_list; [done|].
  cbn [_embedded_list tl_list]. cbv zeta. rewrite Eh, Ec, wrapu_id by (unfold is_u; lia).
  apply wp_bind, wp_on_chunks, wp_looping. pose proof (seg_fuel _ _ _ _ _ Hd Hs).
  eapply length_loop_spec; [done|lia..|]. rewrite set_chunks_id. apply wp_bind, wp_check; [lia|].
  by apply wp_ret.
Qed.

Lemma u64_add x y : u64 (u64 x + u64 y) = u64 (x + y).
Proof. unfold wrapu. by rewrite <- Zplus_mod. Qed.

(** Sums over the nodes of a tree, as the recursive functions compute them *)
Fixpoint tree_sum (f : node -> Z) (t : tree) : Z :=
  match t with Leaf => 0 | Node l n r => f n + tree_sum f l + tree_sum f r end.

(** The walks of [totalSizeInTree] and [totalFreeBlocksInTree] reach every list. *)
Ltac sum_step IHl IHr :=
  match goal with Ht : subtree_ok _ (Node ?l ?n ?r) |- _ =>
    let Hl := fresh "Hl" in let Hr := fresh "Hr" in
    destruct (subtree_parts _ _ _ _ Ht) as [Hl Hr];
    let Hn := fresh "Hn" in let Hls := fresh "Hls" in
    destruct Ht as ((Hn & _) & Hls & _);
    let x := fresh "x" in let Hx := fresh "Hx" in
    destruct (node_links_lookup _ _ _ _ _ Hn) as [x Hx];
    let Ha := fresh "Ha" in
    destruct (Hn) as (Ha & _); apply chunk_addr_ptr in Ha as [_ Ha];
    cbn [size_in_tree_loop blocks_in_tree_loop root_of]; rewrite (proj2 (Z.eqb_neq _ _) Ha);
    apply wp_bind; eapply wp_tree_list; [done|]; cbn [_embedded_list _left _right tl_list];
    cbn [inorder] in Hls; apply Forall_app in Hls as [_ [Hls _]%Forall_cons];
    pose proof (list_of_bound _ _ _ Hls);
    apply wp_bind; eapply totalListLength_spec; [done..|];
    apply wp_bind; eapply IHl; [done|lia|]; apply wp_bind; eapply IHr; [done|lia|]; apply wp_ret
  end.

Lemma size_in_tree_spec q t fuel (Q : Z -> BinaryTreeDictionary -> Prop) :
  subtree_ok q t -> (height t < fuel)%nat -> Q (u64 (tree_sum list_total t)) d ->
  wp (size_in_tree_loop fuel (root_of t)) Q d.
Proof.
  revert q fuel Q. induction t as [|l IHl n r IHr]; intros q [|fuel] Q Ht Hf HQ; cbn [height] in Hf; try lia.
  { by apply wp_ret. }
  sum_step IHl IHr. by rewrite (u64_add (_ * _)), u64_add.
Qed.

Lemma blocks_in_tree_spec q t fuel (Q : Z -> BinaryTreeDictionary -> Prop) :
  subtree_ok q t -> (height t < fuel)%nat ->
  Q (u64 (tree_sum (fun n => zlen (n_chunks n)) t)) d ->
  wp (blocks_in_tree_loop fuel (root_of t)) Q d.
Proof.
  revert q fuel Q. induction t as [|l IHl n r IHr]; intros q [|fuel] Q Ht Hf HQ; cbn [height] in Hf; try lia.
  { by apply wp_ret. }
  sum_step IHl IHr. rewrite <- (wrapu_id 64 (zlen (n_chunks n))) by (unfold is_u; lia).
  by rewrite (u64_add (zlen _)), u64_add.
Qed.

Lemma height_fuel t : tree_ok (nodes d) (chunks d) t -> (height t < S (size (nodes d)))%nat.
Proof.
  intros [Hl _ Hd _ _]. pose proof (addrs_fuel _ _ _ Hd Hl). pose proof (height_addrs t). lia.
Qed.

Lemma totalSizeInTree_spec t (Q : Z -> BinaryTreeDictionary -> Prop) :
  tree_ok (nodes d) (chunks d) t -> Q (u64 (tree_sum list_total t)) d ->
  wp (totalSizeInTree (root_of t)) Q d.
Proof.
  intros Ht HQ. apply wp_tree_looping. eapply size_in_tree_spec; [by apply tree_ok_sub| |done].
  by apply height_fuel.
Qed.

Lemma totalFreeBlocksInTree_spec t (Q : Z -> BinaryTreeDictionary -> Prop) :
  tree_ok (nodes d) (chunks d) t -> Q (u64 (tree_sum (fun n => zlen (n_chunks n)) t)) d ->
  wp (totalFreeBlocksInTree (root_of t)) Q d.
Proof.
  intros Ht HQ. apply wp_tree_looping. eapply blocks_in_tree_spec; [by apply tree_ok_sub| |done].
  by apply height_fuel.
Qed.

(** ** Searches *)

Lemma find_loop_spec q t sz fuel (Q : Z -> BinaryTreeDictionary -> Prop) :
  subtree_ok q t -> (height t < fuel)%nat ->
  (forall n, n ∈ inorder t -> n_size n = sz -> Q (n_addr n) d) ->
  ((forall n, n ∈ inorder t -> n_size n <> sz) -> Q NULL d) ->
  wp (find_loop fuel sz (root_of t)) Q d.
Proof.
  revert q fuel. induction t as [|l IHl n r IHr]; intros q [|fuel] Ht Hf HQ HN; cbn [height] in Hf; try lia.
  { apply wp_ret. apply HN. intros n Hn. by apply elem_of_nil in Hn. }
  destruct (subtree_parts _ _ _ _ Ht) as [Hl Hr]. destruct Ht as ((Hn & _) & _ & Hst & _).
  destruct (node_links_lookup _ _ _ _ _ Hn) as [x Hx].
  destruct (Hn) as (Ha & _). apply chunk_addr_ptr in Ha as [_ Ha].
  cbn [find_loop root_of]. rewrite (proj2 (Z.eqb_neq _ _) Ha).
  apply wp_bind. eapply wp_tree_list; [done|]. cbn [_embedded_list _left _right tl_list]. cbv zeta.
  fold (n_size n). apply sorted_around in Hst as (_ & _ & Hlt & Hgt). cbn [inorder] in *.
  setoid_rewrite elem_of_app in HQ. setoid_rewrite elem_of_cons in HQ.
  setoid_rewrite elem_of_app in HN. setoid_rewrite elem_of_cons in HN.
  destruct (Z.eqb_spec (n_size n) sz) as [E|E]; [apply wp_ret; auto|].
  destruct (Z.ltb_spec (n_size n) sz) as [E'|E'].
  - eapply IHr; [done|lia|auto|]. intros Hne. apply HN. intros m [Hm|[->|Hm]]; [|done|auto].
    specialize (Hlt m Hm). lia.
  - apply wp_bind, wp_check; [apply Z.ltb_lt; lia|].
    eapply IHl; [done|lia|auto|]. intros Hne. apply HN. intros m [Hm|[->|Hm]]; [auto|done|].
    specialize (Hgt m Hm). lia.
Qed.

Lemma findList_spec t sz (Q : Z -> BinaryTreeDictionary -> Prop) :
  tree_ok (nodes d) (chunks d) t -> _root d = root_of t ->
  (forall n, n ∈ inorder t -> n_size n = sz -> Q (n_addr n) d) ->
  ((forall n, n ∈ inorder t -> n_size n <> sz) -> Q NULL d) -> wp (findList sz) Q d.
Proof.
  intros Ht Er HQ HN. apply wp_bind, wp_root. rewrite Er. apply wp_tree_looping.
  eapply find_loop_spec; [by apply tree_ok_sub|by apply height_fuel|done..].
Qed.

(** Where a search for [sz] ends: at the node of that size, or at a hole between the
    smaller and the larger sizes.  [prevTL] is the node above the hole. *)
Definition search_post (sz : Z) (t : tree) (Q : Z * Z -> BinaryTreeDictionary -> Prop) : Prop :=
  (forall K l n r p, fill K (Node l n r) = t -> n_size n = sz -> Q (p, n_addr n) d) /\
  (forall K, fill K Leaf = t -> (forall m, m ∈ before K -> n_size m < sz) ->
     (forall m, m ∈ after K -> sz < n_size m) -> Q (parent_of K, NULL) d).

Lemma match_loop_spec q t K sz pv fuel (Q : Z * Z -> BinaryTreeDictionary -> Prop) :
  subtree_ok q t -> (height t < fuel)%nat -> (t = Leaf -> pv = parent_of K) ->
  (forall m, m ∈ before K -> n_size m < sz) -> (forall m, m ∈ after K -> sz < n_size m) ->
  search_post sz (fill K t) Q -> wp (match_loop fuel sz pv (root_of t)) Q d.
Proof.
  revert q K pv fuel.
  induction t as [|l IHl n r IHr]; intros q K pv [|fuel] Ht Hf Hpv Hb Ha' HQ; cbn [height] in Hf; try lia.
  { apply wp_ret. rewrite Hpv by done. by apply HQ. }
  destruct (subtree_parts _ _ _ _ Ht) as [Hl Hr]. destruct Ht as ((Hn & _) & _ & Hst & _).
  destruct (node_links_lookup _ _ _ _ _ Hn) as [x Hx].
  destruct (Hn) as (Ha & _). apply chunk_addr_ptr in Ha as [_ Ha].
  cbn [match_loop root_of]. rewrite (proj2 (Z.eqb_neq _ _) Ha).
  apply wp_bind. eapply wp_tree_list; [done|]. cbn [_embedded_list _left _right tl_list]. cbv zeta.
  fold (n_size n). apply sorted_around in Hst as (_ & _ & Hlt & Hgt).
  destruct (Z.eqb_spec (n_size n) sz) as [E|E]; [apply wp_ret; by eapply (proj1 HQ)|].
  destruct (Z.ltb_spec (n_size n) sz) as [E'|E'].
  - eapply (IHr _ (FR l n :: K)); [done|lia|done| |done|done]. cbn [before].
    intros m [Hm|[Hm|Hm%list_elem_of_singleton]%elem_of_app]%elem_of_app; [auto| |by subst].
    specialize (Hlt m Hm). lia.
  - apply wp_bind, wp_check; [apply Z.ltb_lt; lia|].
    eapply (IHl _ (FL n r :: K)); [done|lia|done|done| |done]. cbn [after].
    intros m [->|[Hm|Hm]%elem_of_app]%elem_of_cons; [lia| |auto]. specialize (Hgt m Hm). lia.
Qed.

Lemma insertion_loop_spec q t K sz pv fuel (Q : Z * Z -> BinaryTreeDictionary -> Prop) :
  subtree_ok q t -> (height t < fuel)%nat -> (t = Leaf -> pv = parent_of K) ->
  (forall m, m ∈ before K -> n_size m < sz) -> (forall m, m ∈ after K -> sz < n_size m) ->
  search_post sz (fill K t) Q -> wp (insertion_loop fuel sz pv (root_of t)) Q d.
Proof.
  intros Ht Hf Hpv Hb Ha' HQ.
  destruct (match_loop_spec q t K sz pv fuel Q) as (x & d' & E & HQ'); [done..|].
  exists x, d'. split; [|done]. rewrite <- E. clear -Ht Hf. revert q pv fuel Ht Hf.
  induction t as [|l IHl n r IHr]; intros q pv [|fuel] Ht Hf; cbn [height] in Hf; try lia; [done|].
  destruct (subtree_parts _ _ _ _ Ht) as [Hl Hr]. destruct Ht as ((Hn & _) & _).
  destruct (node_links_lookup _ _ _ _ _ Hn) as [x Hx].
  cbn [match_loop insertion_loop root_of]. case_match; [done|].
  unfold tree_list, tree_chunk, check, mbind, os_m_bind, mret, os_m_ret. rewrite Hx.
  cbn [_embedded_list _left _right tl_list]. case_match; [done|].
  destruct (Z.ltb_spec (_size (n_list n)) sz), (Z.ltb_spec sz (_size (n_list n))); try lia.
  - eapply IHr; [done|lia].
  - eapply IHl; [done|lia].
Qed.

(** The first size after the hole, found by walking up from it *)
Lemma ascend_loop_spec K h sz fuel (Q : Z -> BinaryTreeDictionary -> Prop) :
  ctx_links (nodes d) K h -> (length K < fuel)%nat ->
  (forall m, m ∈ before K -> n_size m < sz) -> (forall m, m ∈ after K -> sz < n_size m) ->
  Q (match after K with [] => NULL | n :: _ => n_addr n end) d ->
  wp (ascend_loop fuel sz (parent_of K)) Q d.
Proof.
  revert h fuel. induction K as [|[n r|l n] K IH]; intros h [|fuel] HK Hf Hb Ha' HQ;
    cbn [length] in Hf; try lia; [by apply wp_ret|..].
  all: destruct HK as (Hn & _ & HK); destruct (node_links_lookup _ _ _ _ _ Hn) as [x Hx].
  all: destruct (Hn) as (Ha & _); apply chunk_addr_ptr in Ha as [_ Ha].
  all: cbn [ascend_loop parent_of frame_node before after] in *; rewrite (proj2 (Z.eqb_neq _ _) Ha).
  all: apply wp_bind; eapply wp_tree_list; [done|]; cbn [_embedded_list _parent tl_list]; fold (n_size n).
  - rewrite (proj2 (Z.leb_le _ _)); [by apply wp_ret|].
    assert (sz < n_size n) by (apply Ha'; left). lia.
  - rewrite (proj2 (Z.leb_gt _ _)); [|apply Hb; set_solver].
    eapply IH; [done|lia| |done|done]. intros m Hm. apply Hb. set_solver.
Qed.

Lemma ctx_fuel K t : tree_ok (nodes d) (chunks d) (fill K t) -> (length K < S (size (nodes d)))%nat.
Proof.
  intros [Hl _ Hd _ _]. pose proof (addrs_fuel _ _ _ Hd Hl) as Hf. rewrite addrs_fill, length_app in Hf.
  assert (length K <= length (ctx_addrs K))%nat; [|lia]. clear. induction K as [|[n r|l n] K IH]; [done|..].
  - rewrite ctx_addrs_FL, !length_app. cbn. lia.
  - rewrite ctx_addrs_FR, !length_app. cbn. lia.
Qed.

Definition all_live (t : tree) : Prop := Forall (fun n => n_live n = true) (inorder t).

Lemma tree_ok_at K l n r :
  tree_ok (nodes d) (chunks d) (fill K (Node l n r)) ->
  node_links (nodes d) n (parent_of K) (root_of l) (root_of r) /\
  list_of (chunks d) (n_list n) (n_chunks n).
Proof.
  intros [Hl Hls _ _ _]. apply tree_links_fill in Hl as (_ & Hn & _). split; [done|].
  rewrite inorder_fill in Hls. cbn [inorder] in Hls.
  apply Forall_app in Hls as [_ Hls]. apply Forall_app in Hls as [Hls _].
  by apply Forall_app in Hls as [_ [Hls _]%Forall_cons].
Qed.

Lemma tree_ok_in t n :
  tree_ok (nodes d) (chunks d) t -> n ∈ inorder t ->
  n_addr n <> NULL /\ list_of (chunks d) (n_list n) (n_chunks n) /\
  exists x p lc rc, nodes d !! n_addr n = Some (mkTreeChunk x (mkTreeList (n_list n) p lc rc)).
Proof.
  intros Ht (K & l & r & ->)%focus. destruct (tree_ok_at _ _ _ _ Ht) as [Hn Hl].
  destruct (Hn) as (Ha & _). split; [by apply chunk_addr_ptr|]. split; [done|].
  apply node_links_lookup in Hn as [x Hx]. by eexists _, _, _, _.
Qed.

(** The candidate of [getChunkFromTree]: the smallest size that is large enough *)
Definition fits (sz : Z) (t : tree) (n : node) : Prop :=
  n ∈ inorder t /\ sz <= n_size n /\
  forall m, m ∈ inorder t -> sz <= n_size m -> n_size n <= n_size m.

Lemma fits_exact t K l n r :
  tree_ok (nodes d) (chunks d) t -> fill K (Node l n r) = t -> fits (n_size n) t n.
Proof.
  intros _ <-. split; [|split; [lia|auto]]. rewrite inorder_fill. cbn. set_solver.
Qed.

Lemma fits_after t K n ns sz :
  tree_ok (nodes d) (chunks d) t -> fill K Leaf = t -> after K = n :: ns ->
  (forall m, m ∈ before K -> n_size m < sz) -> (forall m, m ∈ after K -> sz < n_size m) ->
  fits sz t n.
Proof.
  intros [_ _ _ Hs _] <- Ea Hb Ha. rewrite inorder_fill in Hs. unfold fits. rewrite inorder_fill. cbn [inorder app] in *.
  rewrite Ea in *. assert (sz < n_size n) by (apply Ha; left). split_and!; [set_solver|lia|].
  intros m [Hm|[->|Hm]%elem_of_cons]%elem_of_app Hsz; [specialize (Hb m Hm); lia|lia|].
  rewrite fmap_app, fmap_cons in Hs. apply StronglySorted_app_1_r, StronglySorted_cons in Hs as [Hs _].
  rewrite Forall_forall in Hs. apply Z.lt_le_incl, Hs. by apply list_elem_of_fmap_2.
Qed.

Lemma best_fit_spec t sz (Q : Z -> BinaryTreeDictionary -> Prop) :
  tree_ok (nodes d) (chunks d) t -> _root d = root_of t -> all_live t ->
  (forall n, fits sz t n -> Q (n_addr n) d) ->
  ((forall m, m ∈ inorder t -> n_size m < sz) -> Q NULL d) -> wp (best_fit sz) Q d.
Proof.
  intros Ht Er Hlive HQ HN. apply wp_bind, wp_root, wp_bind, wp_tree_looping. rewrite Er.
  eapply (match_loop_spec NULL t []); [by apply tree_ok_sub|by apply height_fuel|by intros ->|..].
  { by intros ? ?%elem_of_nil. }
  { by intros ? ?%elem_of_nil. }
  split.
  - intros K l n r p Et En. cbn [fill] in Et. assert (n ∈ inorder t) as Hin by (subst t; rewrite inorder_fill; cbn; set_solver).
    destruct (tree_ok_in _ _ Ht Hin) as (Ha & _). rewrite (proj2 (Z.eqb_neq _ _) Ha).
    apply wp_ret, HQ. rewrite <- En. by eapply fits_exact.
  - intros K Et Hb Ha. cbn [fill] in Et. change (NULL =? NULL) with true. cbv iota.
    apply wp_bind, wp_tree_looping. pose proof (tk_links _ _ _ Ht) as Hl. rewrite <- Et in Hl.
    apply tree_links_fill in Hl as [HK _].
    eapply ascend_loop_spec; [done|rewrite <- Et in Ht; by eapply ctx_fuel|done..|].
    destruct (after K) as [|n ns] eqn:Ea.
    + apply wp_bind, wp_when; [done|intros _]. apply wp_ret, HN. rewrite <- Et, inorder_fill, Ea.
      intros m Hm. apply Hb. set_solver.
    + assert (fits sz t n) as Hfit by by (eapply fits_after; rewrite ?Ea).
      destruct (Hfit) as (Hin & _). destruct (tree_ok_in _ _ Ht Hin) as (Hna & Hls & x & p & lc & rc & Hx).
      rewrite (proj2 (Z.eqb_neq _ _) Hna). apply wp_bind, wp_bind. eapply wp_free_list; [done|].
      cbn [_embedded_list tl_list]. apply wp_check; [|apply wp_ret; by apply HQ].
      rewrite (lo_count _ _ _ Hls). unfold n_chunks. unfold all_live in Hlive. rewrite Forall_forall in Hlive.
      rewrite (Hlive n Hin). apply Z.ltb_lt. cbn [length]. lia.
Qed.
End reads.
