(* ===== verification/DictionaryUpdates.v ===== *)
(** * The dictionary of large free chunks: removal and insertion

    The effect of the operations that change the tree, on well-formed trees: unlinking a
    chunk (with the node moving to the next chunk of its list when the first one goes),
    splicing out a node whose list has become empty, and entering a chunk. *)

From S2P Require Import Prelude OsMemory FreeList BinaryTreeDictionary DictionaryTree DictionaryReads.

Open Scope Z_scope.
Open Scope hotspot_scope.
Import TreeLists Dictionary.

(** ** Loops over the chunks of one list *)

Lemma set_lists_loop_spec sz p l v fuel : forall d (Q : unit -> BinaryTreeDictionary -> Prop),
  seg (chunks d) sz p l NULL -> NoDup l -> (length l < fuel)%nat ->
  Forall (fun a => is_Some (nodes d !! a)) l ->
  (forall T, (forall a, a ∈ l -> T !! a = t_list v <$> nodes d !! a) ->
     (forall a, a ∉ l -> T !! a = nodes d !! a) -> Q tt (set_nodes d T)) ->
  wp (set_lists_loop fuel (first NULL l) v) Q d.
Proof.
  revert p fuel. induction l as [|a l IH]; intros p [|fuel] d Q Hs Hd Hf Hp HQ; cbn [length] in Hf; try lia.
  { apply wp_ret. rewrite <- (set_nodes_id d). apply HQ; [by intros ? ?%elem_of_nil|done]. }
  destruct Hs as (Ha & (c & Hc & _ & _ & _ & Hn) & Hs). cbn [set_lists_loop first].
  destruct (chunk_addr_ptr a Ha) as [_ Hnn]. rewrite (proj2 (Z.eqb_neq _ _) Hnn).
  apply NoDup_cons in Hd as [Hal Hd]. apply Forall_cons in Hp as [[t Ht] Hp].
  apply wp_bind. eapply wp_set_list; [done|]. apply wp_bind. eapply wp_read_chunk; [done|].
  rewrite Hn. eapply IH; [done|done|lia| |].
  { eapply Forall_impl; [done|]. intros x Hx. by apply alter_is_Some. }
  intros T HT HT'. cbn in *. apply HQ.
  - intros x [->|Hx]%elem_of_cons.
    + by rewrite HT', lookup_alter_eq.
    + rewrite HT, lookup_alter_ne; [done| |done]. by intros ->.
  - intros x [Hx Hx']%not_elem_of_cons. by rewrite HT', lookup_alter_ne.
Qed.

Lemma neighbours_loop_spec sz p l tc pv nx fuel : forall d pf nf (Q : bool * bool -> BinaryTreeDictionary -> Prop),
  seg (chunks d) sz p l NULL -> (length l < fuel)%nat -> tc ∉ l ->
  Q (pf || bool_decide (pv ∈ l), nf || bool_decide (nx ∈ l)) d ->
  wp (neighbours_loop fuel tc pv nx (first NULL l) pf nf) Q d.
Proof.
  revert p fuel. induction l as [|a l IH]; intros p [|fuel] d pf nf Q Hs Hf Htc HQ; cbn [length] in Hf; try lia.
  { apply wp_ret. by rewrite !bool_decide_eq_false_2, !orb_false_r in HQ by apply not_elem_of_nil. }
  destruct Hs as (Ha & (c & Hc & _ & _ & _ & Hn) & Hs). cbn [neighbours_loop first].
  destruct (chunk_addr_ptr a Ha) as [_ Hnn]. rewrite (proj2 (Z.eqb_neq _ _) Hnn).
  apply not_elem_of_cons in Htc as [Hta Htc].
  apply wp_bind, wp_check; [apply negb_true_iff, Z.eqb_neq; congruence|].
  apply wp_bind. eapply wp_read_chunk; [done|]. rewrite Hn. eapply IH; [done|lia|done|].
  assert (forall b x, b || (a =? x) || bool_decide (x ∈ l) = b || bool_decide (x ∈ a :: l)) as E.
  { intros b x. rewrite <- orb_assoc. f_equal. apply eq_true_iff_eq.
    rewrite orb_true_iff, !bool_decide_eq_true, Z.eqb_eq, elem_of_cons. naive_solver. }
  by rewrite !E.
Qed.

(** ** Replacing one node of a tree *)

Lemma tree_ok_update T T' s s' K l n n' r :
  tree_ok T s (fill K (Node l n r)) -> tree_links T' NULL (fill K (Node l n' r)) ->
  (forall a, a ∈ addrs_of (others K l r) -> s' !! a = s !! a) -> list_of s' (n_list n') (n_chunks n') ->
  (forall a, a ∈ node_addrs n' -> a ∉ addrs_of (others K l r)) -> NoDup (node_addrs n') ->
  n_size n' = n_size n -> tree_ok T' s' (fill K (Node l n' r)).
Proof.
  intros [Hl Hls Hd Hst Hsz] Hl' Hs Hln Hdis Hdn Esz.
  rewrite addrs_focus in Hd. apply NoDup_app in Hd as (_ & _ & Hd).
  apply Forall_focus in Hls as [_ Hls]. apply Forall_focus in Hsz as [Hsn Hsz].
  split; [done|..].
  - apply Forall_focus. split; [done|]. rewrite Forall_forall in Hls |- *. intros m Hm.
    eapply list_of_frame; [|by apply Hls]. intros a Ha%chunks_addrs. apply Hs. by eapply others_addrs.
  - rewrite addrs_focus. apply NoDup_app. by split_and!.
  - rewrite inorder_fill in Hst |- *. cbn [inorder] in *. rewrite !fmap_app, !fmap_cons in *.
    by rewrite Esz.
  - apply Forall_focus. by rewrite Esz.
Qed.

Lemma tree_ok_replace T T' s s' K l n n' r :
  tree_ok T s (fill K (Node l n r)) -> tree_links T' NULL (fill K (Node l n' r)) ->
  relinked (node_addrs n) s s' -> list_of s' (n_list n') (n_chunks n') ->
  node_addrs n' ⊆ node_addrs n -> NoDup (node_addrs n') -> n_size n' = n_size n ->
  tree_ok T' s' (fill K (Node l n' r)).
Proof.
  intros Ht Hl' Hrel Hln Hsub Hdn Esz. pose proof (tk_nodup _ _ _ Ht) as Hd.
  rewrite addrs_focus in Hd. apply NoDup_app in Hd as (_ & Hdis & _).
  eapply tree_ok_update; [exact Ht|exact Hl'| |exact Hln|set_solver|exact Hdn|exact Esz].
  intros a Ha. apply Hrel. intros Han. by apply (Hdis a).
Qed.

(** The dictionary with other headers and nodes *)
Definition upd (d : BinaryTreeDictionary) (s : chunk_map) (T : node_map) : BinaryTreeDictionary :=
  mkDictionary s T (_splay d) (_totalSize d) (_totalFreeBlocks d) (_root d).

Lemma upd_id d : upd d (chunks d) (nodes d) = d.
Proof. by destruct d. Qed.

Lemma wp_on_list p t f d (Q : unit -> BinaryTreeDictionary -> Prop) :
  nodes d !! p = Some t ->
  wp (f (tl_list (_embedded_list t)))
    (fun fl s => Q tt (upd d s (alter (t_base fl) p (nodes d)))) (chunks d) ->
  wp (on_list p f) Q d.
Proof.
  intros Ht Hf. apply wp_bind. eapply wp_free_list; [done|]. apply wp_bind, wp_on_chunks.
  eapply wp_mono; [exact Hf|]. intros fl s HQ. by eapply wp_set_free_list.
Qed.

Lemma ctx_addrs_others K l r a : a ∈ ctx_addrs K -> a ∈ addrs_of (others K l r).
Proof. unfold ctx_addrs, others. rewrite !addrs_of_app. set_solver. Qed.

(** A change confined to one node of the tree *)
Lemma tree_links_node T T' K l n n' r :
  tree_links T NULL (fill K (Node l n r)) -> n_addr n' = n_addr n ->
  (forall a, a ∈ addrs_of (others K l r) -> T' !! a = T !! a) ->
  node_links T' n' (parent_of K) (root_of l) (root_of r) ->
  tree_links T' NULL (fill K (Node l n' r)).
Proof.
  rewrite !tree_links_fill. cbn [root_of tree_links]. intros (HK & _ & Hl & Hr) -> HT Hn'.
  unfold others in HT. setoid_rewrite addrs_of_app in HT. rewrite !addrs_of_app in HT.
  split_and!; [|done|..].
  - eapply ctx_links_frame; [|done]. intros a Ha. apply HT. unfold ctx_addrs in Ha. set_solver.
  - eapply tree_links_frame; [|done]. intros a Ha. apply HT. unfold addrs in Ha. set_solver.
  - eapply tree_links_frame; [|done]. intros a Ha. apply HT. unfold addrs in Ha. set_solver.
Qed.

Lemma wp_assert_linked K l n r d (Q : unit -> BinaryTreeDictionary -> Prop) :
  tree_links (nodes d) NULL (fill K (Node l n r)) -> Q tt d -> wp (assert_linked (n_addr n)) Q d.
Proof.
  intros (HK & Hn & _)%tree_links_fill HQ. destruct (node_links_lookup _ _ _ _ _ Hn) as [x Hx].
  apply wp_bind. eapply wp_tree_list; [done|]. cbn [_embedded_list _parent].
  destruct K as [|f K]; [by apply wp_ret|].
  assert (exists y fl p lc rc, nodes d !! n_addr (frame_node f) = Some (mkTreeChunk y (mkTreeList fl p lc rc)) /\
            (n_addr n =? lc) || (n_addr n =? rc) = true /\ n_addr (frame_node f) <> NULL)
    as (y & fl & p & lc & rc & Hf & Hor & Hnn).
  { destruct f as [m r'|l' m]; destruct HK as (Hm & _); destruct (node_links_lookup _ _ _ _ _ Hm) as [y Hy];
      destruct (Hm) as (Hm' & _); apply chunk_addr_ptr in Hm' as [_ Hm'];
      eexists _, _, _, _, _; (split_and!; [exact Hy| |exact Hm']); cbn [root_of];
      rewrite Z.eqb_refl; [done|apply orb_true_r]. }
  cbn [parent_of]. rewrite (proj2 (Z.eqb_neq _ _) Hnn). apply wp_bind.
  eapply wp_tree_list; [done|]. by apply wp_check.
Qed.

Lemma wp_assert_list p t l d (Q : unit -> BinaryTreeDictionary -> Prop) :
  nodes d !! p = Some t -> list_of (chunks d) (tl_list (_embedded_list t)) l -> Q tt d ->
  wp (assert_list p) Q d.
Proof.
  intros Ht Hl HQ. apply wp_bind. eapply wp_free_list; [done|]. by eapply wp_read_list_invariant.
Qed.

(** ** Unlinking a chunk from its list *)

(** The tree once [tc] is out of the list of the node [n], which has become [n1]; the
    count is still the old one. *)
Record unlinked (d : BinaryTreeDictionary) (K : list frame) (l : tree) (n : node) (r : tree)
  (tc : Z) (n1 : node) (s1 : chunk_map) (T1 : node_map) : Prop := {
  ul_links : tree_links T1 NULL (fill K (Node l n1 r));
  ul_chunks : n_chunks n1 = filter (.≠ tc) (n_chunks n);
  ul_list : list_of s1 (FreeLists.set_count (n_list n1) (zlen (n_chunks n1))) (n_chunks n1);
  ul_count : _count (n_list n1) = zlen (n_chunks n1) + 1;
  ul_kept : kept (n_list n) (n_list n1);
  ul_rel : relinked (n_chunks n) (chunks d) s1;
  ul_sub : node_addrs n1 ⊆ node_addrs n;
  ul_nodup : NoDup (node_addrs n1);
  ul_dead : tc ∈ node_addrs n1 -> n_live n1 = false /\ n_rest n1 = [];
  ul_dom : dom T1 = dom (nodes d)
}.

Lemma dom_alter_node f a (T : node_map) : dom (alter f a T) = dom T.
Proof. apply set_eq. intros x. rewrite !elem_of_dom. destruct (decide (a = x)) as [<-|].
  - rewrite lookup_alter_eq. by rewrite fmap_is_Some.
  - by rewrite lookup_alter_ne.
Qed.

(** What is known about the node [n] at the focus of a well-formed tree *)
Lemma focus_facts d K l n r :
  tree_ok (nodes d) (chunks d) (fill K (Node l n r)) ->
  node_links (nodes d) n (parent_of K) (root_of l) (root_of r) /\
  list_of (chunks d) (n_list n) (n_chunks n) /\ NoDup (node_addrs n) /\
  (forall a, a ∈ node_addrs n -> a ∉ addrs_of (others K l r)).
Proof.
  intros Ht. destruct (tree_ok_at _ _ _ _ _ Ht) as [Hn Hl]. destruct Ht as [_ _ Hd _ _].
  rewrite addrs_focus in Hd. apply NoDup_app in Hd as (? & ? & _). done.
Qed.

(** A change of the list record, of the [list] fields of its chunks, or of the fields
    of a chunk that leaves the list *)
Lemma node_links_change T T' n n' p lc rc :
  node_links T n p lc rc -> n_addr n' = n_addr n -> n_rest n' ⊆ n_rest n ->
  (n_live n' = true -> n_live n = true) ->
  (exists x, T' !! n_addr n = Some (mkTreeChunk x (mkTreeList (n_list n') p lc rc)) /\
     (n_live n' = true -> x = n_addr n)) ->
  (forall a, a ∈ n_rest n' -> T' !! a = T !! a) ->
  node_links T' n' p lc rc.
Proof.
  intros (Ha & _ & Hr) Ea Hsub Hlive Hx HT. unfold node_links. rewrite Ea. split_and!; [done..|].
  rewrite Forall_forall in Hr |- *. intros b Hb. unfold rest_at. rewrite HT by done.
  by apply Hr, Hsub.
Qed.

Lemma unlink_single d K l n r (Q : Z -> BinaryTreeDictionary -> Prop) :
  tree_ok (nodes d) (chunks d) (fill K (Node l n r)) -> n_chunks n = [n_addr n] ->
  (forall n1 s1 T1, unlinked d K l n r (n_addr n) n1 s1 T1 -> Q (n_addr n1) (upd d s1 T1)) ->
  wp (on_list (n_addr n) (fun fl => FreeLists.set_tail fl NULL) ;;
      on_list (n_addr n) (fun fl => FreeLists.set_head fl NULL) ;; mret (n_addr n)) Q d.
Proof.
  intros Ht Ec HQ. destruct (focus_facts _ _ _ _ _ Ht) as (Hn & Hl & Hd & Hdis).
  destruct (node_links_lookup _ _ _ _ _ Hn) as [x Hx].
  apply wp_bind. eapply wp_on_list; [done|]. apply wp_set_tail; [done|].
  apply wp_bind. eapply wp_on_list; [cbn; by rewrite lookup_alter_eq, Hx|]. apply wp_set_head; [done|].
  apply wp_ret. set (n1 := mkNode (n_addr n) (FreeLists.with_head (FreeLists.with_tail (n_list n) NULL) NULL) [] false).
  apply (HQ n1). split.
  - eapply tree_links_node; [apply Ht|done|..].
    + intros a Ha. cbn. rewrite !lookup_alter_ne; [done|..]; intros <-; apply (Hdis (n_addr n)); [by left|done|by left|done].
    + eapply node_links_change; [exact Hn|done|set_solver|done| |by intros ? ?%elem_of_nil].
      exists x. cbn. by rewrite !lookup_alter_eq, Hx.
  - rewrite Ec. cbn. by rewrite decide_False by naive_solver.
  - split; try done. constructor.
  - cbn. by rewrite (lo_count _ _ _ Hl), Ec.
  - done.
  - apply relinked_refl.
  - cbn. unfold node_addrs. set_solver.
  - apply NoDup_singleton.
  - done.
  - cbn. by rewrite !dom_alter_node.
Qed.

(** The links of an inner chunk's neighbours *)
Lemma wp_link_around s sz l1 x y l2 (Q : unit -> chunk_map -> Prop) :
  parts s sz l1 x y l2 -> l1 <> [] ->
  (forall s', seg s' sz NULL (l1 ++ l2) NULL -> relinked (l1 ++ l2) s s' -> Q tt s') ->
  wp (linkAfter (final NULL l1) (first NULL l2)) Q s.
Proof.
  intros Hp Hne HQ. destruct (Hp) as (Hd & H1 & H2).
  destruct (seg_final _ _ _ _ _ H1 Hne) as (Hn & c & Hc & _).
  eapply wp_linkAfter; [done| |done|].
  - apply NoDup_app in Hd as (_ & Hd & _). apply Hd.
    destruct (final_elem NULL l1) as [[? _]|?]; [congruence|done].
  - rewrite <- relink_next_final by done. apply HQ; [|relink]. apply parts_join.
    eapply parts_relink_prev; [|by eapply parts_relink_next]. by eapply ptr_final.
Qed.

(** The list record once an inner chunk is out *)
Definition inner_list (fl : FreeList) (l1 l2 : list Z) : FreeList :=
  if decide (l2 = []) then FreeLists.with_tail fl (final NULL l1) else fl.

Lemma inner_list_of s s1 fl l1 tc l2 :
  list_of s fl (l1 ++ tc :: l2) -> l1 <> [] -> seg s1 (_size fl) NULL (l1 ++ l2) NULL ->
  list_of s1 (FreeLists.set_count (inner_list fl l1 l2) (zlen (l1 ++ l2))) (l1 ++ l2) /\
  _count (inner_list fl l1 l2) = zlen (l1 ++ l2) + 1 /\ kept fl (inner_list fl l1 l2).
Proof.
  intros [Eh Et Ec Hd Hs] Hne Hs1. split_and!.
  - split; cbn; [| |done| |].
    + transitivity (_head fl); [unfold inner_list; by case_decide|]. rewrite Eh. by destruct l1.
    + unfold inner_list. case_decide; subst; cbn; [by rewrite app_nil_r|].
      rewrite Et, !final_app, final_cons. by apply final_nonempty.
    + rewrite <- Permutation_middle in Hd. by apply NoDup_cons in Hd as [].
    + by replace (_size (inner_list fl l1 l2)) with (_size fl) by (unfold inner_list; by case_decide).
  - replace (_count (inner_list fl l1 l2)) with (_count fl) by (unfold inner_list; by case_decide).
    rewrite Ec, !length_app. cbn. lia.
  - unfold inner_list. by case_decide.
Qed.

Lemma unlinked_inner d K l n r x r1 tc r2 s1 T1 (l1 := n_addr n :: r1) :
  tree_ok (nodes d) (chunks d) (fill K (Node l n r)) -> n_live n = true -> n_rest n = r1 ++ tc :: r2 ->
  nodes d !! n_addr n = Some x ->
  seg s1 (n_size n) NULL (l1 ++ r2) NULL -> relinked (n_chunks n) (chunks d) s1 ->
  T1 !! n_addr n = Some (t_base (inner_list (n_list n) l1 r2) x) ->
  (forall a, a <> n_addr n -> T1 !! a = nodes d !! a) -> dom T1 = dom (nodes d) ->
  unlinked d K l n r tc (mkNode (n_addr n) (inner_list (n_list n) l1 r2) (r1 ++ r2) true) s1 T1.
Proof.
  intros Ht El Er Hx Hs1 Hr1 HT1 HT1' Hdom.
  destruct (focus_facts _ _ _ _ _ Ht) as (Hn & Hl & Hd & Hdis).
  assert (n_chunks n = l1 ++ tc :: r2) as Ec by (unfold n_chunks, l1; by rewrite El, Er).
  rewrite Ec in Hl. destruct (inner_list_of _ s1 _ _ _ _ Hl ltac:(done) Hs1) as (Hl1 & Ec1 & Hk).
  unfold node_addrs in Hd. rewrite Er in Hd. assert (NoDup (l1 ++ tc :: r2)) as Hdl by done.
  rewrite <- Permutation_middle in Hdl. apply NoDup_cons in Hdl as [Htc Hdl].
  split; try done.
  - eapply tree_links_node; [apply Ht|done|..].
    + intros a Ha. apply HT1'. intros ->. by apply (Hdis (n_addr n)); [left|].
    + eapply node_links_change; [exact Hn|done|rewrite Er; set_solver|done| |].
      * destruct Hn as (_ & (y & Hy & Hlv) & _). exists y. rewrite Hx in Hy. injection Hy as ->. auto.
      * cbn. intros a Ha. apply HT1'. intros ->. apply NoDup_cons in Hd as [Hd _]. set_solver.
  - rewrite Ec. symmetry. by apply (filter_out tc l1).
  - unfold node_addrs. rewrite Er. cbn. set_solver.
Qed.

Lemma unlink_inner d K l n r r1 tc r2 (Q : Z -> BinaryTreeDictionary -> Prop) :
  tree_ok (nodes d) (chunks d) (fill K (Node l n r)) -> n_live n = true -> n_rest n = r1 ++ tc :: r2 ->
  (forall n1 s1 T1, unlinked d K l n r tc n1 s1 T1 -> Q (n_addr n1) (upd d s1 T1)) ->
  wp (when (first NULL r2 =? NULL)
        (on_list (n_addr n) (fun fl => FreeLists.link_tail fl (final NULL (n_addr n :: r1)))) ;;
      on_chunks (linkAfter (final NULL (n_addr n :: r1)) (first NULL r2)) ;; mret (n_addr n)) Q d.
Proof.
  intros Ht El Er HQ. destruct (focus_facts _ _ _ _ _ Ht) as (Hn & Hl & _).
  destruct (node_links_lookup _ _ _ _ _ Hn) as [x Hx].
  set (l1 := n_addr n :: r1). assert (n_chunks n = l1 ++ tc :: r2) as Ec.
  { unfold n_chunks, l1. by rewrite El, Er. }
  rewrite Ec in Hl. destruct (Hl) as [_ _ _ Hdl Hs].
  destruct (parts_split _ _ _ _ _ Hdl Hs) as (Hp & _). destruct (Hp) as (_ & Hp1 & Hp2).
  destruct (decide (r2 = [])) as [->|Hr2].
  - apply wp_bind. change (first NULL [] =? NULL) with true.
    eapply wp_on_list; [done|]. cbn [_embedded_list tl_list]. eapply wp_link_tail; [done|exact Hp1|].
    apply wp_bind, wp_on_chunks. eapply (wp_link_around _ _ l1 _ _ []); [by eapply parts_relink_next|done|].
    intros s' Hs' Hr'. apply wp_ret.
    eapply (HQ (mkNode (n_addr n) _ _ _)), unlinked_inner; try done.
    + rewrite Ec. eapply relinked_trans; [|eapply relinked_sub; [exact Hr'|set_solver]]. relink.
    + cbn. by rewrite lookup_alter_eq, Hx.
    + intros a Ha. cbn. by rewrite lookup_alter_ne.
    + cbn. by rewrite dom_alter_node.
  - rewrite (proj2 (Z.eqb_neq _ _)) by by apply (seg_first _ _ _ _ _ Hp2).
    apply wp_bind, wp_ret, wp_bind, wp_on_chunks. eapply wp_link_around; [done|done|].
    intros s' Hs' Hr'. apply wp_ret.
    eapply (HQ (mkNode (n_addr n) _ _ _)), unlinked_inner; try done.
    + rewrite Ec. eapply relinked_sub; [exact Hr'|set_solver].
    + unfold inner_list. rewrite decide_False by done. exact Hx.
Qed.

(** The parts of a tree around a node have no chunk in common. *)
Record separate (K : list frame) (l : tree) (ns : list Z) (r : tree) : Prop := {
  sp_node : NoDup ns;
  sp_left : NoDup (addrs l);
  sp_right : NoDup (addrs r);
  sp_ctx : NoDup (ctx_addrs K);
  sp_nl : forall a, a ∈ ns -> a ∉ addrs l;
  sp_nr : forall a, a ∈ ns -> a ∉ addrs r;
  sp_nc : forall a, a ∈ ns -> a ∉ ctx_addrs K;
  sp_lr : forall a, a ∈ addrs l -> a ∉ addrs r;
  sp_lc : forall a, a ∈ addrs l -> a ∉ ctx_addrs K;
  sp_rc : forall a, a ∈ addrs r -> a ∉ ctx_addrs K
}.

Lemma focus_separate K l n r :
  NoDup (addrs (fill K (Node l n r))) <-> separate K l (node_addrs n) r.
Proof.
  rewrite addrs_fill, addrs_node. rewrite !NoDup_app. split.
  - intros ((Hl & H1 & Hn & H2 & Hr) & H3 & Hk). split; try done; set_solver.
  - intros []. set_solver.
Qed.

(** The hole of the context, redirected to a node that already knows its parent *)
Definition redirect (K : list frame) (b : Z) (T : node_map) : node_map :=
  match K with [] => T | f :: _ => hole_update f b T end.

Lemma redirect_ne K b T a : a ∉ ctx_addrs K -> a <> b -> redirect K b T !! a = T !! a.
Proof.
  destruct K as [|f K]; [done|]. intros Ha Hb. apply hole_update_ne; [|congruence].
  intros ->. apply Ha, frame_addr_in.
Qed.

Lemma redirect_links K T h nb lc rc :
  ctx_links T K h -> node_links T nb (parent_of K) lc rc -> NoDup (ctx_addrs K) ->
  NoDup (node_addrs nb) -> (forall a, a ∈ node_addrs nb -> a ∉ ctx_addrs K) ->
  ctx_links (redirect K (n_addr nb) T) K (n_addr nb) /\
  node_links (redirect K (n_addr nb) T) nb (parent_of K) lc rc.
Proof.
  intros HK Hn Hd Hdn Hdis. destruct K as [|f K]; [done|]. cbn [redirect].
  pose proof (frame_addr_in f K) as Hf. destruct (Hn) as (Ha & _). apply chunk_addr_ptr in Ha as [_ Ha].
  unfold hole_update, adopt. rewrite (proj2 (Z.eqb_neq _ _) Ha). split.
  - eapply ctx_links_frame; [|by eapply hole_update_links]. intros a Hin. apply lookup_alter_ne.
    intros <-. apply (Hdis (n_addr nb)); [by left|done].
  - eapply node_links_alter; [|done|].
    + intros x. cbn. done.
    + eapply node_links_frame; [|done]. intros a Hin. apply lookup_alter_ne. intros <-.
      by apply (Hdis _ Hin).
Qed.

(** Two subtrees adopted by a node *)
Lemma adopt_both T K l nb r a :
  ctx_links T K (n_addr nb) -> node_links T nb (parent_of K) (root_of l) (root_of r) ->
  tree_links T a l -> tree_links T a r -> separate K l (node_addrs nb) r ->
  tree_links (adopt (n_addr nb) (root_of l) (adopt (n_addr nb) (root_of r) T)) NULL
    (fill K (Node l nb r)).
Proof.
  intros HK Hn Hl Hr Hsep. apply tree_links_fill. cbn [root_of tree_links].
  assert (forall x, x ∉ addrs l -> x ∉ addrs r ->
    adopt (n_addr nb) (root_of l) (adopt (n_addr nb) (root_of r) T) !! x = T !! x) as Hfr.
  { intros x Hxl Hxr. rewrite !adopt_ne; [done|..]; intros Hnn <-.
    - apply Hxr. by eapply root_addr.
    - apply Hxl. by eapply root_addr. }
  destruct Hsep. split_and!.
  - eapply ctx_links_frame; [|done]. intros x Hx. apply Hfr; intros Hx'; [by eapply sp_lc0|by eapply sp_rc0].
  - eapply node_links_frame; [|done]. intros x Hx. apply Hfr; [by apply sp_nl0|by apply sp_nr0].
  - apply (reparent _ a); [done|]. eapply tree_links_frame; [|done]. intros x Hx. apply adopt_ne.
    intros Hnn <-. apply (sp_lr0 _ Hx). by eapply root_addr.
  - eapply (tree_links_frame (adopt (n_addr nb) (root_of r) T)); [|by eapply reparent].
    intros x Hx. apply adopt_ne. intros Hnn <-. eapply sp_lr0; [|exact Hx]. by eapply root_addr.
Qed.

(** What the chunk [b] holds after the node has been copied to it *)
Lemma moved_links T T2 K l n b r' r (nb := mkNode b (n_list n) r' true) (T3 := redirect K b T2) :
  tree_links T NULL (fill K (Node l n r)) -> separate K l (node_addrs n) r -> n_rest n = b :: r' ->
  (forall a, a ∉ b :: r' -> T2 !! a = T !! a) ->
  node_links T2 nb (parent_of K) (root_of l) (root_of r) ->
  tree_links (adopt b (root_of l) (adopt b (root_of r) T3)) NULL (fill K (Node l nb r)) /\
  node_links T3 nb (parent_of K) (root_of l) (root_of r) /\ ctx_links T2 K (n_addr n).
Proof.
  intros (HK & _ & Hl & Hr)%tree_links_fill Hsep Er HT2 Hnb.
  assert (forall a, a ∈ b :: r' -> a ∈ node_addrs n) as Hin.
  { intros a Ha. unfold node_addrs. rewrite Er. by right. }
  assert (separate K l (node_addrs nb) r) as Hsep'.
  { destruct Hsep as [Hd]. split; auto. unfold node_addrs in Hd. rewrite Er in Hd.
    by apply NoDup_cons in Hd as []. }
  assert (ctx_links T2 K (n_addr n)) as HK2.
  { eapply ctx_links_frame; [|exact HK]. intros a Ha. apply HT2. intros Hb%Hin. by eapply (sp_nc _ _ _ _ Hsep). }
  destruct (redirect_links K T2 (n_addr n) nb (root_of l) (root_of r)) as [HK3 Hn3].
  - done.
  - done.
  - apply Hsep.
  - apply Hsep'.
  - apply Hsep'.
  - split; [|done]. eapply (adopt_both _ _ _ nb _ (n_addr n)); [done..| | |done].
    + eapply tree_links_frame; [|exact Hl]. intros a Ha. unfold T3. rewrite redirect_ne.
      * apply HT2. intros Hb%Hin. by eapply (sp_nl _ _ _ _ Hsep).
      * by eapply (sp_lc _ _ _ _ Hsep).
      * intros ->. eapply (sp_nl _ _ _ _ Hsep b); [apply Hin; by left|done].
    + eapply tree_links_frame; [|exact Hr]. intros a Ha. unfold T3. rewrite redirect_ne.
      * apply HT2. intros Hb%Hin. by eapply (sp_nr _ _ _ _ Hsep).
      * by eapply (sp_rc _ _ _ _ Hsep).
      * intros ->. eapply (sp_nr _ _ _ _ Hsep b); [apply Hin; by left|done].
Qed.

(** The parent's pointer to the node at [a], redirected to [b] *)
Lemma wp_fix_parent K a b d (Q : unit -> BinaryTreeDictionary -> Prop) :
  ctx_links (nodes d) K a -> a <> NULL -> a ∉ ctx_addrs K -> is_Some (nodes d !! b) ->
  Q tt (set_nodes d (redirect K b (nodes d))) ->
  wp (when (negb (parent_of K =? NULL))
        (ptl ← tree_list (parent_of K);
         if a =? _left ptl then setLeft (parent_of K) b
         else check (a =? _right ptl) ;; setRight (parent_of K) b)) Q d.
Proof.
  intros HK Ha Hc Hb HQ. destruct K as [|f K]; [apply wp_ret; cbn in HQ; by rewrite set_nodes_id in HQ|].
  assert (n_addr (frame_node f) <> NULL) as Hnn.
  { destruct f as [n r|l n]; destruct HK as ((Hn & _) & _); by apply chunk_addr_ptr in Hn as [_ ?]. }
  cbn [parent_of redirect] in *. rewrite (proj2 (Z.eqb_neq _ _) Hnn).
  destruct f as [n r|l n]; destruct HK as (Hn & Ht & HK);
    destruct (node_links_lookup _ _ _ _ _ Hn) as [x Hx]; apply wp_bind; (eapply wp_tree_list; [exact Hx|]);
    cbn [_embedded_list _left _right frame_node].
  - rewrite Z.eqb_refl. eapply wp_setLeft; [exact Hx|done|]. exact HQ.
  - rewrite (proj2 (Z.eqb_neq a (root_of l))).
    + apply wp_bind, wp_check; [apply Z.eqb_refl|]. eapply wp_setRight; [exact Hx|done|]. exact HQ.
    + intros ->. apply Hc. rewrite ctx_addrs_FR. apply elem_of_app; right; apply elem_of_app; left.
      by eapply root_addr.
Qed.

(** [check(_right tl == _right rtl); if (right != NULL) right->setParent(nextTC)] *)
Lemma wp_fix_child T q t p v d (Q : unit -> BinaryTreeDictionary -> Prop) :
  tree_links T q t -> (forall a, a ∈ addrs t -> is_Some (nodes d !! a)) -> v = root_of t ->
  Q tt (set_nodes d (adopt p v (nodes d))) ->
  wp (when (negb (v =? NULL)) (setParent v p)) Q d.
Proof.
  intros Ht Hp -> HQ. apply wp_adopt; [|done]. intros Hn. apply Hp. by eapply root_addr.
Qed.

Lemma adopt_links_keep q v T a t :
  v <> a \/ v = NULL -> T !! a = Some t -> adopt q v T !! a = Some t.
Proof. intros Hv Ht. rewrite adopt_ne; [done|]. by destruct Hv. Qed.

(** The copy of the node to the next chunk, and the chunks' pointers to it *)
Lemma wp_copy_node d K l n r b r' (k : dm unit) (Q : unit -> BinaryTreeDictionary -> Prop) :
  tree_ok (nodes d) (chunks d) (fill K (Node l n r)) -> n_live n = true -> n_rest n = b :: r' ->
  (forall T2, (forall a, a ∉ b :: r' -> T2 !! a = nodes d !! a) -> dom T2 = dom (nodes d) ->
     node_links T2 (mkNode b (n_list n) r' true) (parent_of K) (root_of l) (root_of r) ->
     wp k Q (set_nodes d T2)) ->
  wp (set_embedded_list b (mkTreeList (n_list n) (parent_of K) (root_of l) (root_of r)) ;;
      tree_looping (fun fuel => set_lists_loop fuel b b) ;; k) Q d.
Proof.
  intros Ht El Er HQ. destruct (focus_facts _ _ _ _ _ Ht) as (Hn & Hl & Hd & _).
  pose proof (addrs_fuel _ _ _ (tk_nodup _ _ _ Ht) (tk_links _ _ _ Ht)) as Hf.
  rewrite addrs_focus, length_app in Hf. unfold node_addrs in Hd, Hf. rewrite Er in Hd, Hf. cbn [length] in Hf.
  unfold n_chunks in Hl. rewrite El, Er in Hl. destruct Hl as [_ _ _ _ (_ & _ & Hs)].
  apply NoDup_cons in Hd as [_ Hd]. destruct Hn as (_ & _ & Hr). rewrite Er in Hr.
  apply Forall_cons in Hr as [[flb Hb] Hr]. apply NoDup_cons in Hd as [Hbr Hd].
  apply wp_bind. eapply wp_set_embedded_list; [done|]. apply wp_bind, wp_tree_looping.
  eapply (set_lists_loop_spec _ _ (b :: r')); [exact Hs|by constructor| |..].
  { cbn [length nodes set_nodes]. rewrite <- (size_dom (D := gset Z)), dom_alter_node, size_dom. lia. }
  { constructor; [apply alter_is_Some; by rewrite Hb|]. eapply Forall_impl; [exact Hr|].
    intros x [fl Hx]. apply alter_is_Some. by rewrite Hx. }
  cbn [nodes set_nodes]. intros T2 HT2 HT2'. apply HQ.
  - intros a Ha. rewrite HT2' by done. apply lookup_alter_ne. set_solver.
  - apply set_eq. intros x. rewrite !elem_of_dom. destruct (decide (x ∈ b :: r')) as [Hx|Hx].
    + rewrite HT2, fmap_is_Some by done. split; [|apply alter_is_Some].
      intros Hi. apply elem_of_cons in Hx as [->|Hx]; [by rewrite Hb|].
      rewrite Forall_forall in Hr. by destruct (Hr x Hx) as [fl ->].
    + rewrite HT2', lookup_alter_ne; [done|set_solver|done].
  - split_and!; cbn.
    + by destruct Hs as [? _].
    + exists b. rewrite HT2, lookup_alter_eq, Hb by by left. done.
    + rewrite Forall_forall in Hr |- *. intros x Hx. destruct (Hr x Hx) as [fl Hfl]. exists fl.
      rewrite HT2, lookup_alter_ne, Hfl by (by right || (intros ->; done)). done.
Qed.

Lemma dom_adopt q v T : dom (adopt q v T) = dom T.
Proof. unfold adopt. case_match; [done|]. apply dom_alter_node. Qed.

Lemma dom_redirect K b T : dom (redirect K b T) = dom T.
Proof. destruct K; [done|]. cbn. unfold hole_update. by rewrite dom_adopt, dom_alter_node. Qed.

Lemma dom_present (T T' : node_map) a : dom T' = dom T -> is_Some (T !! a) -> is_Some (T' !! a).
Proof. intros E. rewrite <- !elem_of_dom. by rewrite E. Qed.

(** The list once its first chunk is out *)
Lemma first_list_of s fl a b l :
  list_of s fl (a :: b :: l) ->
  let fl1 := FreeLists.with_head fl b in
  list_of (relink_prev NULL (b :: l) s) (FreeLists.set_count fl1 (zlen (b :: l))) (b :: l) /\
  _count fl1 = zlen (b :: l) + 1.
Proof.
  intros [_ Et Ec Hd Hs]. apply NoDup_cons in Hd as [_ Hd]. destruct Hs as (_ & _ & Hs). split.
  - split; cbn; [done|by rewrite Et|done|done|]. by eapply (seg_relink_prev _ _ _ NULL (b :: l)).
  - cbn. rewrite Ec. cbn [length]. lia.
Qed.

(** The children of the node at [a], adopted by its copy at [b] *)
Lemma wp_adopt_children d T l r a b y fl p (k : dm unit) (Q : unit -> BinaryTreeDictionary -> Prop) :
  (exists q, tree_links T q l /\ tree_links T q r) -> dom (nodes d) = dom T ->
  a ∉ addrs l -> a ∉ addrs r -> b ∉ addrs l -> b ∉ addrs r -> 
  nodes d !! a = Some (mkTreeChunk y (mkTreeList fl p (root_of l) (root_of r))) ->
  (exists z, nodes d !! b = Some (mkTreeChunk z (mkTreeList fl p (root_of l) (root_of r)))) ->
  wp k Q (set_nodes d (adopt b (root_of l) (adopt b (root_of r) (nodes d)))) ->
  wp (tl ← tree_list a;
      rtl ← tree_list b;
      check (_right tl =? _right rtl) ;;
      when (negb (_right rtl =? NULL)) (setParent (_right rtl) b) ;;
      tl ← tree_list a;
      rtl ← tree_list b;
      check (_left tl =? _left rtl) ;;
      when (negb (_left rtl =? NULL)) (setParent (_left rtl) b) ;; k) Q d.
Proof.
  intros (q & Hl & Hr) Hdom Hal Har Hbl Hbr Hy [z Hz] Hk.
  assert (forall t x, tree_links T q t -> x ∉ addrs t -> root_of t <> x \/ root_of t = NULL) as Hroot.
  { intros t x Hl' Hx. destruct (decide (root_of t = NULL)) as [|Hn]; [by right|left]. intros <-.
    apply Hx. by eapply root_addr. }
  apply wp_bind. eapply wp_tree_list; [exact Hy|]. apply wp_bind. eapply wp_tree_list; [exact Hz|].
  cbn [_embedded_list _right]. apply wp_bind, wp_check; [apply Z.eqb_refl|].
  apply wp_bind. eapply wp_fix_child; [exact Hr| |done|].
  { intros c Hc. eapply (dom_present T); [done|]. by apply (addrs_present T q r). }
  apply wp_bind. eapply wp_tree_list; [eapply adopt_links_keep; [by apply Hroot|exact Hy]|].
  apply wp_bind. eapply wp_tree_list; [eapply adopt_links_keep; [by apply Hroot|exact Hz]|].
  cbn [_embedded_list _left]. apply wp_bind, wp_check; [apply Z.eqb_refl|].
  apply wp_bind. eapply wp_fix_child; [exact Hl| |done|done].
  intros c Hc. cbn. eapply (dom_present T); [by rewrite dom_adopt|]. by apply (addrs_present T q l).
Qed.

Lemma unlinked_first d K l n r b r' x T5 (fl1 := FreeLists.with_head (n_list n) b) :
  tree_ok (nodes d) (chunks d) (fill K (Node l n r)) -> n_live n = true -> n_rest n = b :: r' ->
  tree_links T5 NULL (fill K (Node l (mkNode b (n_list n) r' true) r)) ->
  T5 !! b = Some (mkTreeChunk x (mkTreeList (n_list n) (parent_of K) (root_of l) (root_of r))) ->
  dom T5 = dom (nodes d) ->
  unlinked d K l n r (n_addr n) (mkNode b fl1 r' true) (relink_prev NULL (b :: r') (chunks d))
    (alter (t_base fl1) b T5).
Proof.
  intros Ht El Er Hlinks Hb Hdom. destruct (focus_facts _ _ _ _ _ Ht) as (_ & Hl & Hd & Hdis).
  assert (n_chunks n = n_addr n :: b :: r') as Ec by (unfold n_chunks; by rewrite El, Er).
  rewrite Ec in Hl. destruct (first_list_of _ _ _ _ _ Hl) as [Hl1 Ec1].
  unfold node_addrs in Hd, Hdis. rewrite Er in Hd, Hdis. apply NoDup_cons in Hd as [Hab Hd].
  split; try done.
  - eapply tree_links_node; [exact Hlinks|done|..].
    + intros a Ha. apply lookup_alter_ne. intros <-. apply (Hdis b); [set_solver|done].
    + pose proof Hlinks as (_ & Hnb & _)%tree_links_fill. destruct (Hnb) as (_ & (y & Hy & Hlv) & _).
      eapply node_links_change; [exact Hnb|done|done|done|..]; cbn in *.
      * exists y. by rewrite lookup_alter_eq, Hy.
      * intros a Ha. apply lookup_alter_ne. intros <-. by apply NoDup_cons in Hd as [].
  - rewrite Ec. cbn [n_chunks n_live n_addr n_rest].
    symmetry. apply (filter_out (n_addr n) [] (b :: r')). done.
  - rewrite Ec. relink.
  - unfold node_addrs. rewrite Er. cbn. set_solver.
  - by rewrite dom_alter_node.
Qed.

Lemma unlink_first d K l n r b r' (Q : Z -> BinaryTreeDictionary -> Prop) :
  tree_ok (nodes d) (chunks d) (fill K (Node l n r)) -> n_live n = true -> n_rest n = b :: r' ->
  (forall n1 s1 T1, unlinked d K l n r (n_addr n) n1 s1 T1 -> Q (n_addr n1) (upd d s1 T1)) ->
  wp (replace_node (n_addr n) b ;; mret b) Q d.
Proof.
  intros Ht El Er HQ. destruct (focus_facts _ _ _ _ _ Ht) as (Hn & Hl & Hd & _).
  destruct (node_links_lookup _ _ _ _ _ Hn) as [x Hx].
  pose proof (proj1 (focus_separate _ _ _ _) (tk_nodup _ _ _ Ht)) as Hsep.
  assert (n_addr n ∈ node_addrs n) as Hain by by left.
  assert (b ∈ node_addrs n) as Hbin by (unfold node_addrs; rewrite Er; set_solver).
  unfold node_addrs in Hd. rewrite Er in Hd. apply NoDup_cons in Hd as [Hab Hd].
  destruct (Hn) as (Ha & _). apply chunk_addr_ptr in Ha as [_ Ha].
  apply wp_bind, wp_bind. eapply wp_tree_list; [exact Hx|]. cbn [_embedded_list].
  eapply wp_copy_node; [done..|]. intros T2 HT2 Hdom Hnb.
  destruct (moved_links _ _ _ _ _ _ _ _ (tk_links _ _ _ Ht) Hsep Er HT2 Hnb) as (Hlinks & Hnb3 & HK2).
  destruct (node_links_lookup _ _ _ _ _ Hnb) as [xb Hxb]. cbn [n_addr n_list] in Hxb.
  apply wp_bind. eapply wp_tree_list; [exact Hxb|]. cbn [_embedded_list _parent].
  apply wp_bind. apply wp_fix_parent; [done|done|exact (sp_nc _ _ _ _ Hsep _ Hain)|eexists; exact Hxb|].
  destruct (node_links_lookup _ _ _ _ _ Hnb3) as [xb3 Hxb3]. cbn [n_addr n_list] in Hxb3.
  assert (redirect K b T2 !! n_addr n = nodes d !! n_addr n) as Hxa3.
  { rewrite redirect_ne; [by apply HT2|exact (sp_nc _ _ _ _ Hsep _ Hain)|set_solver]. }
  pose proof (tk_links _ _ _ Ht) as (_ & _ & Hll & Hlr)%tree_links_fill.
  eapply (wp_adopt_children _ (nodes d) l r); [by exists (n_addr n)|cbn; by rewrite dom_redirect|..].
  { exact (sp_nl _ _ _ _ Hsep _ Hain). }
  { exact (sp_nr _ _ _ _ Hsep _ Hain). }
  { exact (sp_nl _ _ _ _ Hsep _ Hbin). }
  { exact (sp_nr _ _ _ _ Hsep _ Hbin). }
  { cbn. rewrite Hxa3. exact Hx. }
  { exists xb3. exact Hxb3. }
  set (T5 := adopt b (root_of l) (adopt b (root_of r) (redirect K b T2))) in *.
  destruct (tree_links_fill T5 K (Node l (mkNode b (n_list n) r' true) r)) as [H5 _].
  destruct (H5 Hlinks) as (_ & Hnb5 & _). destruct (node_links_lookup _ _ _ _ _ Hnb5) as [xb5 Hxb5].
  cbn [n_addr n_list] in Hxb5. apply wp_bind. eapply wp_on_list; [exact Hxb5|].
  unfold n_chunks in Hl. rewrite El, Er in Hl. destruct (first_list_of _ _ _ _ _ Hl) as [Hl1 Ec1].
  destruct Hl as [_ _ _ _ (_ & _ & Hs)]. cbn [_embedded_list tl_list].
  eapply (wp_link_head _ _ (b :: r')); [done|exact Hs|].
  destruct (seg_elem _ _ _ _ _ b (lo_seg _ _ _ Hl1)) as (_ & cb & Hcb & _ & Hfb); [by left|].
  apply wp_bind. eapply wp_read_chunk; [exact Hcb|]. apply wp_check; [done|]. apply wp_ret.
  apply (HQ (mkNode b (FreeLists.with_head (n_list n) b) r' true)).
  apply (unlinked_first d K l n r b r' xb5 T5); try done. unfold T5. by rewrite !dom_adopt, dom_redirect.
Qed.

(** The tree once the chunk is out of the list and the count is right *)
Record shrunk (d : BinaryTreeDictionary) (K : list frame) (l : tree) (n : node) (r : tree)
  (tc : Z) (n' : node) (s' : chunk_map) (T' : node_map) : Prop := {
  sh_ok : tree_ok T' s' (fill K (Node l n' r));
  sh_chunks : n_chunks n' = filter (.≠ tc) (n_chunks n);
  sh_kept : kept (n_list n) (n_list n');
  sh_sub : node_addrs n' ⊆ node_addrs n;
  sh_rel : relinked (n_chunks n) (chunks d) s';
  sh_tc : s' !! tc = Some (mkFreeChunk (n_size n) 1 NULL);
  sh_dom : dom T' = dom (nodes d)
}.

Definition with_list (n : node) (fl : FreeList) : node := mkNode (n_addr n) fl (n_rest n) (n_live n).

Lemma tree_links_with_list T K l n r fl :
  tree_links T NULL (fill K (Node l n r)) -> NoDup (addrs (fill K (Node l n r))) ->
  tree_links (alter (t_base fl) (n_addr n) T) NULL (fill K (Node l (with_list n fl) r)).
Proof.
  intros Hl Hd. rewrite addrs_focus in Hd. apply NoDup_app in Hd as (Hdn & Hdis & _).
  eapply tree_links_node; [exact Hl|done|..].
  - intros a Ha. apply lookup_alter_ne. intros <-. apply (Hdis (n_addr n)); [by left|done].
  - apply tree_links_fill in Hl as (_ & Hn & _). destruct (Hn) as (_ & (x & Hx & Hlv) & _).
    eapply node_links_change; [exact Hn|done|done|done|..]; cbn.
    + exists x. by rewrite lookup_alter_eq, Hx.
    + intros a Ha. apply lookup_alter_ne. intros <-. by apply NoDup_cons in Hdn as [].
Qed.

(** [tc->set_list(NULL)] *)
Lemma tree_links_release T K l n r tc :
  tree_links T NULL (fill K (Node l n r)) -> tc ∉ addrs_of (others K l r) -> NoDup (node_addrs n) ->
  (tc ∈ node_addrs n -> n_live n = false /\ n_rest n = []) ->
  tree_links (alter (t_list NULL) tc T) NULL (fill K (Node l n r)).
Proof.
  intros Hl Ho Hdn Hdead. eapply tree_links_node; [exact Hl|done|..].
  - intros a Ha. apply lookup_alter_ne. by intros <-.
  - apply tree_links_fill in Hl as (_ & Hn & _). destruct (decide (tc ∈ node_addrs n)) as [Hin|Hout].
    + destruct (Hdead Hin) as [El Er]. destruct (Hn) as (_ & (x & Hx & _) & _).
      unfold node_addrs in Hin. rewrite Er in Hin. apply list_elem_of_singleton in Hin as ->.
      eapply node_links_change; [exact Hn|done|done|done|..].
      * exists NULL. rewrite lookup_alter_eq, Hx, El. done.
      * rewrite Er. by intros a ?%elem_of_nil.
    + eapply node_links_frame; [|exact Hn]. intros a Ha. apply lookup_alter_ne. by intros <-.
Qed.

(** The neighbours of the removed chunk are still in the list. *)
Lemma neighbours_kept s fl l1 tc l2 (l := filter (.≠ tc) (l1 ++ tc :: l2)) :
  list_of s fl (l1 ++ tc :: l2) ->
  (final NULL l1 =? NULL) || bool_decide (final NULL l1 ∈ l) = true /\
  (first NULL l2 =? NULL) || bool_decide (first NULL l2 ∈ l) = true.
Proof.
  intros [_ _ _ Hd Hs]. destruct (parts_split _ _ _ _ _ Hd Hs) as (_ & Hn & _).
  unfold l. rewrite filter_out by done. split.
  - destruct (final_elem NULL l1) as [[-> _]|He]; [done|].
    rewrite (bool_decide_eq_true_2 (_ ∈ _)); [apply orb_true_r|set_solver].
  - destruct (first_elem NULL l2) as [[-> _]|He]; [done|].
    rewrite (bool_decide_eq_true_2 (_ ∈ _)); [apply orb_true_r|set_solver].
Qed.

(** The closing checks of [removeChunkReplaceIfNeeded], and the count *)
Lemma close_unlink d K l n1 r tc pv nx s T c
  (fl' := FreeLists.set_count (n_list n1) (zlen (n_chunks n1))) (Q : Z -> BinaryTreeDictionary -> Prop) :
  tree_links T NULL (fill K (Node l n1 r)) -> NoDup (addrs (fill K (Node l n1 r))) ->
  list_of s fl' (n_chunks n1) -> _count (n_list n1) = zlen (n_chunks n1) + 1 ->
  tc ∉ n_chunks n1 -> s !! tc = Some c -> isFree c = true ->
  (pv =? NULL) || bool_decide (pv ∈ n_chunks n1) = true ->
  (nx =? NULL) || bool_decide (nx ∈ n_chunks n1) = true ->
  Q (n_addr n1) (upd d s (alter (t_base fl') (n_addr n1) T)) ->
  wp ('(prev_found, next_found) ← tree_looping (fun fuel =>
          neighbours_loop fuel tc pv nx (_head (n_list n1)) false false);
      check ((pv =? NULL) || prev_found) ;;
      check ((nx =? NULL) || next_found) ;;
      assert_linked (n_addr n1) ;;
      on_list (n_addr n1) FreeLists.decrement_count ;;
      c ← on_chunks (chunk tc);
      check (isFree c) ;;
      assert_list (n_addr n1) ;;
      mret (n_addr n1)) Q (upd d s T).
Proof.
  intros Hl Hd Hls Hcount Htc Hc Hf Hpv Hnx HQ. pose proof (list_of_bound _ _ _ Hls) as Hb.
  pose proof (addrs_fuel _ _ _ Hd Hl) as Hfuel. rewrite addrs_focus, length_app in Hfuel.
  assert (length (n_chunks n1) <= length (node_addrs n1))%nat as Hlen.
  { unfold n_chunks, node_addrs. destruct (n_live n1); cbn; lia. }
  apply wp_bind, wp_tree_looping. replace (_head (n_list n1)) with (first NULL (n_chunks n1)) by by rewrite <- (lo_head _ _ _ Hls).
  eapply neighbours_loop_spec; [apply Hls|cbn; lia|done|].
  apply wp_bind, wp_check; [done|]. apply wp_bind, wp_check; [done|].
  apply wp_bind. eapply wp_assert_linked; [exact Hl|].
  pose proof Hl as (_ & Hn1 & _)%tree_links_fill. destruct (node_links_lookup _ _ _ _ _ Hn1) as [x1 Hx1].
  apply wp_bind. eapply wp_on_list; [exact Hx1|]. eapply (wp_decrement_count _ (zlen (n_chunks n1))); [done|lia|].
  apply wp_bind. eapply wp_read_chunk; [exact Hc|]. apply wp_bind, wp_check; [done|].
  apply wp_bind. eapply wp_assert_list; [cbn; by rewrite lookup_alter_eq, Hx1|exact Hls|]. by apply wp_ret.
Qed.

(** What follows the unlinking in [removeChunkReplaceIfNeeded] *)
Lemma finish_unlink d K l n r tc l1 l2 n1 s1 T1 (Q : Z -> BinaryTreeDictionary -> Prop) :
  tree_ok (nodes d) (chunks d) (fill K (Node l n r)) -> n_chunks n = l1 ++ tc :: l2 ->
  unlinked d K l n r tc n1 s1 T1 ->
  (forall n' s' T', n_addr n' = n_addr n1 -> shrunk d K l n r tc n' s' T' -> Q (n_addr n') (upd d s' T')) ->
  wp (fl ← free_list (n_addr n1);
      on_chunks (assert_chunk (_head fl) (fun c => _size fl =? c_size c)) ;;
      on_chunks (linkPrev tc NULL) ;;
      on_chunks (linkNext tc NULL) ;;
      set_list tc NULL ;;
      '(prev_found, next_found) ← tree_looping (fun fuel =>
          neighbours_loop fuel tc (final NULL l1) (first NULL l2) (_head fl) false false);
      check ((final NULL l1 =? NULL) || prev_found) ;;
      check ((first NULL l2 =? NULL) || next_found) ;;
      assert_linked (n_addr n1) ;;
      on_list (n_addr n1) FreeLists.decrement_count ;;
      c ← on_chunks (chunk tc);
      check (isFree c) ;;
      assert_list (n_addr n1) ;;
      mret (n_addr n1)) Q (upd d s1 T1).
Proof.
  intros Ht Ec [Hul Huc Hus Hcount Hk Hrel Hsub Hdn Hdead Hdom] HQ.
  destruct (focus_facts _ _ _ _ _ Ht) as (Hn & Hl & Hd & Hdis). rewrite Ec in Hl, Huc.
  destruct (parts_split _ _ _ _ _ (lo_nodup _ _ _ Hl) (lo_seg _ _ _ Hl)) as (_ & Hntc & Hatc & c & Hc & Hsz & _ & Hf & _).
  destruct (neighbours_kept _ _ _ _ _ Hl) as [Hpv Hnx]. rewrite <- Huc in Hpv, Hnx.
  assert (tc ∉ n_chunks n1) as Htc1 by (rewrite Huc, filter_out; done).
  pose proof Hul as (_ & Hn1 & _)%tree_links_fill. destruct (node_links_lookup _ _ _ _ _ Hn1) as [x1 Hx1].
  apply wp_bind. eapply wp_free_list; [exact Hx1|]. cbn [_embedded_list tl_list].
  apply wp_bind, wp_read_assert_chunk.
  { intros Hh. destruct (list_head_chunk _ _ _ Hus Hh) as (ch & ? & _ & E). exists ch.
    split; [done|]. apply Z.eqb_eq. by rewrite E. }
  eapply relinked_size in Hc as (c1 & Hc1 & Ec1); [|exact Hrel].
  apply wp_bind, wp_on_chunks. eapply wp_linkPrev; [exact Hc1|].
  apply wp_bind, wp_on_chunks. eapply wp_linkNext; [cbn; by rewrite lookup_alter_eq, Hc1|].
  cbn [upd set_chunks chunks nodes]. set (s2 := alter _ tc (alter _ tc s1)).
  assert (s2 !! tc = Some (mkFreeChunk (n_size n) 1 NULL)) as Hc2.
  { unfold s2. rewrite !lookup_alter_eq, Hc1. cbn. unfold with_next, with_prev. cbn. by rewrite Ec1, Hsz. }
  assert (relinked [tc] s1 s2) as Hr2 by (unfold s2; relink).
  assert (list_of s2 (FreeLists.set_count (n_list n1) (zlen (n_chunks n1))) (n_chunks n1)) as Hl2.
  { eapply list_of_relinked; [exact Hr2| |exact Hus]. set_solver. }
  assert (is_Some (T1 !! tc)) as [ttc Httc].
  { eapply (dom_present (nodes d)); [done|]. eapply addrs_present; [apply Ht|].
    rewrite addrs_focus. apply elem_of_app; left. apply chunks_addrs. rewrite Ec. set_solver. }
  apply wp_bind. eapply wp_set_list; [exact Httc|].
  assert (NoDup (addrs (fill K (Node l n1 r)))) as Hd1.
  { destruct Ht as [_ _ Hda _ _]. rewrite addrs_focus in Hda |- *. apply NoDup_app in Hda as (_ & ? & ?).
    apply NoDup_app. split_and!; [done|set_solver|done]. }
  assert (tree_links (alter (t_list NULL) tc T1) NULL (fill K (Node l n1 r))) as Hl1.
  { apply tree_links_release; [done| |done|done]. apply Hdis, chunks_addrs. rewrite Ec. set_solver. }
  eapply (close_unlink d K l n1 r); try done.
  apply (HQ (with_list n1 (FreeLists.set_count (n_list n1) (zlen (n_chunks n1))))); [done|].
  split; try done; [|by rewrite Ec| |by rewrite !dom_alter_node].
  - eapply tree_ok_replace; [exact Ht|by apply tree_links_with_list| |exact Hl2|done|done|by destruct Hk].
    eapply relinked_trans; [|eapply relinked_sub; [exact Hr2|]].
    + eapply relinked_weaken; [exact Hrel|]. intros a. apply chunks_addrs.
    + intros a ->%list_elem_of_singleton. apply chunks_addrs. rewrite Ec. set_solver.
  - eapply relinked_trans; [exact Hrel|]. eapply relinked_sub; [exact Hr2|].
    intros a ->%list_elem_of_singleton. rewrite Ec. set_solver.
Qed.

Lemma first_not_next a l : NoDup (a :: l) -> a <> NULL -> a <> first NULL l.
Proof.
  intros [Hn _]%NoDup_cons Ha E. destruct (first_elem NULL l) as [[? _]|He]; [congruence|].
  by rewrite <- E in He.
Qed.

(** The step of [removeChunkReplaceIfNeeded] that takes the chunk out of the list *)
Lemma unlink_spec d K l n r tc l1 l2 (Q : Z -> BinaryTreeDictionary -> Prop) :
  tree_ok (nodes d) (chunks d) (fill K (Node l n r)) -> n_live n = true -> n_chunks n = l1 ++ tc :: l2 ->
  (forall n1 s1 T1, unlinked d K l n r tc n1 s1 T1 -> Q (n_addr n1) (upd d s1 T1)) ->
  wp (if tc =? n_addr n then
        if first NULL l2 =? NULL then
          check (final NULL l1 =? NULL) ;;
          on_list (n_addr n) (fun fl => FreeLists.set_tail fl NULL) ;;
          on_list (n_addr n) (fun fl => FreeLists.set_head fl NULL) ;;
          mret (n_addr n)
        else replace_node (n_addr n) (first NULL l2) ;; mret (first NULL l2)
      else
        when (first NULL l2 =? NULL) (on_list (n_addr n) (fun fl => FreeLists.link_tail fl (final NULL l1))) ;;
        on_chunks (linkAfter (final NULL l1) (first NULL l2)) ;;
        mret (n_addr n)) Q d.
Proof.
  intros Ht El Ec HQ. destruct (focus_facts _ _ _ _ _ Ht) as (Hn & Hl & Hd & _).
  assert (n_chunks n = n_addr n :: n_rest n) as Ec' by (unfold n_chunks; by rewrite El).
  destruct Hl as [_ _ _ _ Hs]. destruct l1 as [|a1 l1].
  - assert (tc = n_addr n /\ n_rest n = l2) as [-> Er] by (cbn in *; split; congruence).
    rewrite Z.eqb_refl. rewrite Ec' in Hs. destruct Hs as (_ & _ & Hs). destruct l2 as [|b l2].
    + cbn [first final last default]. change (NULL =? NULL) with true. apply wp_bind, wp_check; [done|].
      eapply unlink_single; [done|by rewrite Ec', Er|done].
    + rewrite Er in Hs. destruct (seg_first _ _ _ _ _ Hs ltac:(done)) as [Hb _]. cbn [first] in *.
      rewrite (proj2 (Z.eqb_neq _ _) Hb). eapply unlink_first; done.
  - assert (a1 = n_addr n /\ n_rest n = l1 ++ tc :: l2) as [-> Er] by (cbn in *; split; congruence).
    rewrite (proj2 (Z.eqb_neq tc (n_addr n))).
    + by eapply unlink_inner.
    + intros ->. unfold node_addrs in Hd. rewrite Er in Hd. apply NoDup_cons in Hd as [Hd _]. set_solver.
Qed.

Lemma removeChunkReplaceIfNeeded_spec d K l n r tc (Q : Z -> BinaryTreeDictionary -> Prop) :
  tree_ok (nodes d) (chunks d) (fill K (Node l n r)) -> n_live n = true -> tc ∈ n_chunks n ->
  (forall n' s' T', shrunk d K l n r tc n' s' T' -> Q (n_addr n') (upd d s' T')) ->
  wp (removeChunkReplaceIfNeeded (n_addr n) tc) Q d.
Proof.
  intros Ht El Htc HQ. destruct (focus_facts _ _ _ _ _ Ht) as (Hn & Hl & Hd & _).
  destruct (node_links_lookup _ _ _ _ _ Hn) as [x Hx]. destruct (Hn) as (Ha & _).
  apply chunk_addr_ptr in Ha as [_ Ha]. apply list_elem_of_split in Htc as (l1 & l2 & Ec).
  destruct (Hl) as [Eh _ _ Hdl Hs]. rewrite Ec in Hdl, Hs.
  destruct (parts_split _ _ _ _ _ Hdl Hs) as (_ & _ & Hat & c & Hc & _ & Hpr & Hf & Hnx).
  apply chunk_addr_ptr in Hat as [_ Hat].
  apply wp_bind. eapply wp_free_list; [exact Hx|]. cbn [_embedded_list tl_list]. cbv zeta.
  assert (first NULL (n_chunks n) = n_addr n) as Ef by (unfold n_chunks; by rewrite El).
  rewrite Eh, Ef. apply wp_bind, wp_read_assert_chunk.
  { intros _. destruct Hl as [_ _ _ _ Hs']. unfold n_chunks in Hs'. rewrite El in Hs'.
    destruct Hs' as (_ & (c0 & Hc0 & _ & _ & _ & Hn0) & _). exists c0. split; [done|].
    rewrite Hn0. apply negb_true_iff, Z.eqb_neq. by apply first_not_next. }
  apply wp_bind, wp_check; [by apply negb_true_iff, Z.eqb_neq|].
  apply wp_bind. eapply wp_assert_linked; [apply Ht|]. apply wp_bind. eapply wp_read_chunk; [exact Hc|].
  apply wp_bind, wp_check; [done|]. apply wp_bind. eapply wp_assert_list; [exact Hx|exact Hl|].
  apply wp_bind, wp_check; [by apply negb_true_iff, Z.eqb_neq|]. rewrite Hpr, Hnx.
  apply wp_bind. eapply unlink_spec; [done..|]. intros n1 s1 T1 Hu.
  eapply finish_unlink; [done..|]. intros n' s' T' _ Hsh. by apply HQ.
Qed.
