(* ===== verification/DictionaryRemoval.v ===== *)
(** * The dictionary of large free chunks: removal from the tree

    Splicing out a node whose list has become empty, and [removeChunkFromTree]. *)

From S2P Require Import Prelude OsMemory FreeList BinaryTreeDictionary DictionaryTree DictionaryReads.
From S2P Require Import DictionaryUpdates.

Open Scope Z_scope.
Open Scope hotspot_scope.
Import TreeLists Dictionary.

(** ** Trees with a node less *)

Lemma addrs_of_perm ns ns' : ns ≡ₚ ns' -> addrs_of ns ≡ₚ addrs_of ns'.
Proof. intros E. unfold addrs_of. by rewrite E. Qed.

(** A tree whose sequence of nodes has lost a segment is still well formed. *)
Lemma tree_ok_less T T' s t t' x y z :
  tree_ok T s t -> inorder t = x ++ y ++ z -> inorder t' = x ++ z -> tree_links T' NULL t' ->
  tree_ok T' s t'.
Proof.
  intros [_ Hls Hd Hst Hsz] Et Et' Hl. unfold addrs in *. rewrite Et in *. split; [done|..].
  - rewrite Et'. rewrite !Forall_app in *. naive_solver.
  - unfold addrs. rewrite Et'. rewrite !addrs_of_app in *. rewrite !NoDup_app in *. set_solver.
  - rewrite Et'. rewrite !fmap_app in *. apply StronglySorted_app in Hst as (Hx & Hsx & Hst).
    apply StronglySorted_app in Hst as (_ & _ & Hsz'). apply StronglySorted_app. set_solver.
  - rewrite Et'. rewrite !Forall_app in *. naive_solver.
Qed.

(** ** The pointer from above *)

(** The hole of the context filled with [v]: a child pointer of the parent, or the root *)
Definition attach (K : list frame) (v : Z) (T : node_map) : node_map :=
  match K with [] => adopt NULL v T | f :: _ => hole_update f v T end.

Lemma attach_links T K h q t :
  ctx_links T K h -> tree_links T q t -> NoDup (addrs t ++ ctx_addrs K) ->
  tree_links (attach K (root_of t) T) NULL (fill K t).
Proof.
  intros HK Ht Hd. destruct K as [|f K]; [|by eapply fill_hole].
  cbn. apply NoDup_app in Hd as (Hd & _). by eapply reparent.
Qed.

Lemma attach_ne K T q t a :
  tree_links T q t -> a ∉ ctx_addrs K -> a ∉ addrs t -> attach K (root_of t) T !! a = T !! a.
Proof.
  intros Ht Hc Ha. assert (root_of t <> NULL -> root_of t <> a) as Hr.
  { intros Hn <-. apply Ha. by eapply root_addr. }
  destruct K as [|f K]; [by apply adopt_ne|]. apply hole_update_ne; [|done]. intros ->.
  apply Hc, frame_addr_in.
Qed.

Lemma dom_hole_update f v T : dom (hole_update f v T) = dom T.
Proof. unfold hole_update. cbv zeta. by rewrite dom_adopt, dom_alter_node. Qed.

Lemma dom_attach K v T : dom (attach K v T) = dom T.
Proof. destruct K; cbn; [apply dom_adopt|apply dom_hole_update]. Qed.

(** The frame's node has [h] as the child on the frame's side only. *)
Lemma frame_children T f K h :
  ctx_links T (f :: K) h -> h <> NULL -> h ∉ ctx_addrs (f :: K) ->
  exists x fl p lc rc,
    T !! n_addr (frame_node f) = Some (mkTreeChunk x (mkTreeList fl p lc rc)) /\
    n_addr (frame_node f) <> NULL /\
    match f with FL _ _ => lc = h /\ rc <> h | FR _ _ => rc = h /\ lc <> h end.
Proof.
  intros HK Hh Hc. destruct f as [n r|l n]; destruct HK as (Hn & Ht & _);
    destruct (node_links_lookup _ _ _ _ _ Hn) as [x Hx]; destruct (Hn) as (Ha & _);
    apply chunk_addr_ptr in Ha as [_ Ha]; eexists _, _, _, _, _;
    (split; [exact Hx|]; split; [exact Ha|]; split; [done|]); intros <-; apply Hc.
  - rewrite ctx_addrs_FL. apply elem_of_app; right; apply elem_of_app; left. by eapply root_addr.
  - rewrite ctx_addrs_FR. apply elem_of_app; right; apply elem_of_app; left. by eapply root_addr.
Qed.

(** [if (parent->left() == h) parent->setLeft(v); else parent->setRight(v);] *)
Lemma wp_set_child_left f K h v d (Q : unit -> BinaryTreeDictionary -> Prop) :
  ctx_links (nodes d) (f :: K) h -> h <> NULL -> h ∉ ctx_addrs (f :: K) ->
  (v <> NULL -> is_Some (nodes d !! v)) -> Q tt (set_nodes d (hole_update f v (nodes d))) ->
  wp (ptl ← tree_list (parent_of (f :: K));
      if _left ptl =? h then setLeft (parent_of (f :: K)) v
      else check (_right ptl =? h) ;; setRight (parent_of (f :: K)) v) Q d.
Proof.
  intros HK Hh Hc Hv HQ. destruct (frame_children _ _ _ _ HK Hh Hc) as (x & fl & p & lc & rc & Hx & _ & Hf).
  apply wp_bind. eapply wp_tree_list; [exact Hx|]. cbn [_embedded_list _left _right].
  destruct f as [n r|l n]; destruct Hf as [-> Hne].
  - rewrite Z.eqb_refl. by eapply wp_setLeft.
  - rewrite (proj2 (Z.eqb_neq _ _) Hne). apply wp_bind, wp_check; [apply Z.eqb_refl|]. by eapply wp_setRight.
Qed.

Lemma wp_set_child_right f K h v d (Q : unit -> BinaryTreeDictionary -> Prop) :
  ctx_links (nodes d) (f :: K) h -> h <> NULL -> h ∉ ctx_addrs (f :: K) ->
  (v <> NULL -> is_Some (nodes d !! v)) -> Q tt (set_nodes d (hole_update f v (nodes d))) ->
  wp (ptl ← tree_list (parent_of (f :: K));
      if _right ptl =? h then setRight (parent_of (f :: K)) v
      else check (_left ptl =? h) ;; setLeft (parent_of (f :: K)) v) Q d.
Proof.
  intros HK Hh Hc Hv HQ. destruct (frame_children _ _ _ _ HK Hh Hc) as (x & fl & p & lc & rc & Hx & _ & Hf).
  apply wp_bind. eapply wp_tree_list; [exact Hx|]. cbn [_embedded_list _left _right].
  destruct f as [n r|l n]; destruct Hf as [-> Hne].
  - rewrite (proj2 (Z.eqb_neq _ _) Hne). apply wp_bind, wp_check; [apply Z.eqb_refl|]. by eapply wp_setLeft.
  - rewrite Z.eqb_refl. by eapply wp_setRight.
Qed.

(** ** The least node of a subtree *)

Lemma leftmost_loop_spec q t fuel d (Q : Z -> BinaryTreeDictionary -> Prop) :
  tree_links (nodes d) q t -> t <> Leaf -> (height t <= fuel)%nat ->
  (forall K m r, t = fill K (Node Leaf m r) -> before K = [] -> Q (n_addr m) d) ->
  wp (leftmost_loop fuel (root_of t)) Q d.
Proof.
  revert q fuel. induction t as [|l IHl n r _]; intros q [|fuel] Ht Hne Hf HQ; cbn [height] in Hf; try lia; [done..|].
  destruct Ht as (Hn & Hl & Hr). destruct (node_links_lookup _ _ _ _ _ Hn) as [x Hx].
  cbn [leftmost_loop root_of]. apply wp_bind. eapply wp_tree_list; [exact Hx|]. cbn [_embedded_list _left].
  destruct (Z.eqb_spec (root_of l) NULL) as [E|E].
  - apply (root_null _ _ _ Hl) in E as ->. by apply wp_ret, (HQ [] n r).
  - eapply IHl; [exact Hl|by intros ->|lia|]. intros K m r' -> Hb.
    apply (HQ (K ++ [FL n r]) m r'); [by rewrite fill_app|]. clear -Hb.
    induction K as [|[m' r''|l' m'] K IH]; [done|exact (IH Hb)|]. cbn in Hb. destruct (before K), (inorder l'); done.
Qed.

Lemma before_app K K' : before (K ++ K') = before K' ++ before K.
Proof.
  induction K as [|[n r|l n] K IH]; cbn [app before]; [by rewrite app_nil_r|done|]. by rewrite IH, <- !app_assoc.
Qed.

Lemma after_app K K' : after (K ++ K') = after K ++ after K'.
Proof.
  induction K as [|[n r|l n] K IH]; cbn [app after]; [done| |done]. by rewrite IH, <- !app_assoc.
Qed.

(** The checks of the debug flag on a well-formed tree, which may be in the middle of an
    operation *)
Definition verifiable (d : BinaryTreeDictionary) (t : tree) : Prop :=
  _root d = root_of t /\ (_totalFreeBlocks d <> 0 -> _totalSize d <> 0).

Lemma wp_debug_verify b t d (Q : unit -> BinaryTreeDictionary -> Prop) :
  tree_ok (nodes d) (chunks d) t -> verifiable d t -> Q tt d -> wp (when b verifyTree) Q d.
Proof.
  intros Ht [Er Htot] HQ. apply wp_when; [|done]. intros _. by eapply verifyTree_spec.
Qed.

(** Cutting the least node out of the right subtree *)
Lemma cut_minimum T K l n Ks m rm (K1 := Ks ++ FR l n :: K) (f := match K1 with f :: _ => f | [] => FR l n end) :
  tree_links T NULL (fill K (Node l n (fill Ks (Node Leaf m rm)))) ->
  NoDup (addrs (fill K (Node l n (fill Ks (Node Leaf m rm))))) ->
  let T' := alter (t_right NULL) (n_addr m) (alter (t_parent NULL) (n_addr m) (hole_update f (root_of rm) T)) in
  tree_links T' NULL (fill K (Node l n (fill Ks rm))) /\ node_links T' m NULL NULL NULL /\
  ctx_links T K1 (n_addr m) /\ (n_addr m ∉ ctx_addrs K1) /\ tree_links T (parent_of K1) (Node Leaf m rm).
Proof.
  assert (forall t, fill K (Node l n (fill Ks t)) = fill K1 t) as EK.
  { intros t. unfold K1. by rewrite fill_app. }
  rewrite !EK. intros Hl Hd. pose proof (proj1 (focus_separate _ _ _ _) Hd) as Hsep.
  apply tree_links_fill in Hl as (HK & Hm & Hlf & Hr). cbn [root_of] in *.
  assert (K1 = f :: tail K1) as E1 by (unfold f, K1; by destruct Ks).
  set (T1 := hole_update f (root_of rm) T).
  assert (tree_links T1 NULL (fill K1 rm)) as Hl1.
  { rewrite E1 in HK |- *. eapply fill_hole; [exact HK|exact Hr|]. rewrite <- E1. apply NoDup_app.
    split_and!; [apply Hsep|apply Hsep|apply Hsep]. }
  assert (forall a, a ∈ node_addrs m -> T1 !! a = T !! a) as HT1.
  { intros a Ha. unfold T1. apply hole_update_ne.
    - intros ->. apply (sp_nc _ _ _ _ Hsep _ Ha). rewrite E1. apply frame_addr_in.
    - intros Hn <-. apply (sp_nr _ _ _ _ Hsep _ Ha). by eapply root_addr. }
  split_and!; [| |done|apply (sp_nc _ _ _ _ Hsep); by left|done].
  - eapply tree_links_frame; [|exact Hl1]. intros a Ha. rewrite addrs_fill in Ha.
    assert (n_addr m <> a) as Hne.
    { intros <-. apply elem_of_app in Ha as [Ha|Ha]; [apply (sp_nr _ _ _ _ Hsep (n_addr m))|apply (sp_nc _ _ _ _ Hsep (n_addr m))]; by first [left|exact Ha]. }
    by rewrite !lookup_alter_ne.
  - apply (node_links_alter _ _ m NULL NULL (root_of rm)); [done|apply Hsep|].
    apply (node_links_alter _ _ m (parent_of K1) NULL (root_of rm)); [done|apply Hsep|].
    by eapply node_links_frame.
Qed.

Lemma sub_height T s K l n r : tree_ok T s (fill K (Node l n r)) -> (height r <= size T)%nat.
Proof.
  intros [Hl _ Hd _ _]. pose proof (addrs_fuel _ _ _ Hd Hl) as Hf. pose proof (height_addrs r).
  rewrite addrs_fill, addrs_node, !length_app in Hf. lia.
Qed.

Lemma root_in_ctx f K t : root_of (fill (f :: K) t) ∈ ctx_addrs (f :: K).
Proof.
  revert f t. induction K as [|g K IH]; intros f t; cbn [fill].
  - pose proof (frame_addr_in f []). by destruct f.
  - specialize (IH g (plug f t)). cbn [fill] in IH.
    destruct f as [n r|l n]; [rewrite ctx_addrs_FL|rewrite ctx_addrs_FR]; set_solver.
Qed.

Lemma root_of_node K l l' n n' r r' :
  n_addr n' = n_addr n -> root_of (fill K (Node l' n' r')) = root_of (fill K (Node l n r)).
Proof. intros E. destruct K; [done|]. by apply root_of_fill. Qed.

Lemma wp_cut_minimum d K l n Ks m rm (k : dm Z) (Q : Z -> BinaryTreeDictionary -> Prop)
  (t := fill K (Node l n (fill Ks (Node Leaf m rm)))) :
  tree_links (nodes d) NULL t -> NoDup (addrs t) -> _root d = root_of t ->
  (forall T', tree_links T' NULL (fill K (Node l n (fill Ks rm))) -> node_links T' m NULL NULL NULL ->
     dom T' = dom (nodes d) -> wp k Q (set_nodes d T')) ->
  wp (r ← root;
      (if negb (n_addr m =? r) then
         cur ← tree_list (n_addr m);
         let parentTL := _parent cur in
         ptl ← tree_list parentTL;
         if _left ptl =? n_addr m then setLeft parentTL (_right cur)
         else check (_right ptl =? n_addr m) ;; setRight parentTL (_right cur)
       else set_root NULL) ;;
      clearParent (n_addr m) ;; clearRight (n_addr m) ;; k) Q d.
Proof.
  intros Hl Hd Er HQ. pose proof (cut_minimum _ _ _ _ _ _ _ Hl Hd) as Hcut. cbv zeta in Hcut.
  set (K1 := Ks ++ FR l n :: K) in *. set (f := match K1 with f :: _ => f | [] => FR l n end) in *.
  assert (K1 = f :: tail K1) as E1 by (unfold f, K1; by destruct Ks).
  destruct Hcut as (Hl' & Hm' & HK1 & Hmc & Hm & _ & Hrm).
  destruct (Hm') as (Ham & (y & Hy & _) & _). apply chunk_addr_ptr in Ham as [_ Ham].
  destruct (node_links_lookup _ _ _ _ _ Hm) as [xm Hxm].
  assert (forall g (T : node_map), alter g (n_addr m) T !! n_addr m <> None -> is_Some (T !! n_addr m)) as Hback.
  { intros g T. rewrite lookup_alter_eq. by destruct (T !! n_addr m). }
  apply wp_bind, wp_root. rewrite (proj2 (Z.eqb_neq (n_addr m) (_root d))).
  2: { intros E. apply Hmc. rewrite E, Er, E1.
       replace t with (fill K1 (Node Leaf m rm)) by (unfold t, K1; by rewrite fill_app).
       rewrite E1. apply root_in_ctx. }
  apply wp_bind, wp_bind. eapply wp_tree_list; [exact Hxm|]. cbn [_embedded_list _parent _right]. cbv zeta.
  rewrite E1 in HK1, Hmc |- *. eapply wp_set_child_left; [exact HK1|done|done|by eapply root_present|].
  destruct (Hback (t_parent NULL) (hole_update f (root_of rm) (nodes d))) as [y1 Hy1].
  { destruct (Hback (t_right NULL) (alter (t_parent NULL) (n_addr m) (hole_update f (root_of rm) (nodes d)))) as [z ->];
      [by rewrite Hy|done]. }
  apply wp_bind. eapply wp_setParent; [exact Hy1|]. apply wp_bind.
  eapply wp_clearRight; [cbn; by rewrite lookup_alter_eq, Hy1|].
  apply HQ; [done|done|]. cbn [nodes set_nodes]. by rewrite !dom_alter_node, dom_hole_update.
Qed.

Lemma removeTreeMinimum_spec b d K l n r (Q : Z -> BinaryTreeDictionary -> Prop) :
  tree_ok (nodes d) (chunks d) (fill K (Node l n r)) -> verifiable d (fill K (Node l n r)) -> r <> Leaf ->
  (forall m r' T', inorder r = m :: inorder r' -> tree_ok T' (chunks d) (fill K (Node l n r')) ->
     node_links T' m NULL NULL NULL -> dom T' = dom (nodes d) -> Q (n_addr m) (upd d (chunks d) T')) ->
  wp (removeTreeMinimum b (root_of r)) Q d.
Proof.
  intros Ht Hv Hr HQ. pose proof (tk_links _ _ _ Ht) as Hl.
  pose proof Hl as (_ & Hn & _ & Hlr)%tree_links_fill.
  apply wp_bind, wp_check. { apply negb_true_iff, Z.eqb_neq. by rewrite (root_null _ _ _ Hlr). }
  apply wp_bind. destruct r as [|rl rn rr]; [done|].
  destruct (Hlr) as (Hrn & _). destruct (node_links_lookup _ _ _ _ _ Hrn) as [xr Hxr].
  eapply wp_tree_list; [exact Hxr|]. cbn [_embedded_list _parent].
  destruct (Hn) as (Han & _). apply chunk_addr_ptr in Han as [_ Han].
  apply wp_bind, wp_check; [by apply negb_true_iff, Z.eqb_neq|].
  apply wp_bind, wp_tree_looping.
  eapply (leftmost_loop_spec _ (Node rl rn rr)); [exact Hlr|done|pose proof (sub_height _ _ _ _ _ _ Ht); lia|].
  intros Ks m rm Er Hb. rewrite Er in Ht, Hl, Hv, HQ. clear Er Hlr Hrn Hxr.
  assert (inorder (fill Ks (Node Leaf m rm)) = m :: inorder (fill Ks rm)) as Em.
  { rewrite !inorder_fill, Hb. done. }
  eapply wp_cut_minimum; [exact Hl|apply Ht|apply Hv|]. intros T' Hl' Hm' Hdom.
  assert (tree_ok T' (chunks d) (fill K (Node l n (fill Ks rm)))) as Ht'.
  { eapply (tree_ok_less _ _ _ _ _ (before K ++ inorder l ++ [n]) [m] (inorder (fill Ks rm) ++ after K));
      [exact Ht|..|done]; rewrite inorder_fill; cbn [inorder]; rewrite ?Em; by rewrite <- !app_assoc. }
  apply wp_bind. eapply wp_debug_verify; [exact Ht'| |].
  - split; [|apply Hv]. cbn. rewrite (proj1 Hv). by apply root_of_node.
  - apply wp_ret. by apply (HQ m (fill Ks rm)).
Qed.

(** ** Splicing out an empty node *)

Definition updr (d : BinaryTreeDictionary) (T : node_map) (r : Z) : BinaryTreeDictionary :=
  mkDictionary (chunks d) T (_splay d) (_totalSize d) (_totalFreeBlocks d) r.

(** [newTL] takes the place of the node in its parent or at the root. *)
Lemma wp_attach d K h t q (Q : unit -> BinaryTreeDictionary -> Prop) :
  ctx_links (nodes d) K h -> tree_links (nodes d) q t -> h <> NULL -> h ∉ ctx_addrs K ->
  (K = [] -> _root d = h) ->
  Q tt (updr d (attach K (root_of t) (nodes d)) (if K is [] then root_of t else _root d)) ->
  wp (if parent_of K =? NULL then
        r ← root; check (h =? r) ;; set_root (root_of t) ;;
        when (negb (root_of t =? NULL)) (clearParent (root_of t))
      else
        ptl ← tree_list (parent_of K);
        if _right ptl =? h then setRight (parent_of K) (root_of t)
        else check (_left ptl =? h) ;; setLeft (parent_of K) (root_of t)) Q d.
Proof.
  intros HK Ht Hh Hc Hr HQ. destruct K as [|f K].
  - cbn [parent_of]. change (NULL =? NULL) with true. apply wp_bind, wp_root.
    apply wp_bind, wp_check; [apply Z.eqb_eq; by rewrite Hr|]. apply wp_bind, wp_lift_, wp_adopt.
    + cbn. by eapply root_present.
    + exact HQ.
  - destruct (frame_children _ _ _ _ HK Hh Hc) as (x & fl & p & lc & rc & _ & Hn & _).
    cbn [parent_of] in *. rewrite (proj2 (Z.eqb_neq _ _) Hn).
    eapply (wp_set_child_right f K); [exact HK|done|done|by eapply root_present|]. exact HQ.
Qed.

(** The tree while a node is being spliced out: the node [n] is still in the tree, with
    the subtrees [l0] and [r0]; [u] is what takes its place. *)
Record splicing (T : node_map) (s : chunk_map) (K : list frame) (l0 : tree) (n : node) (r0 u : tree) : Prop := {
  sc_ok : tree_ok T s (fill K (Node l0 n r0));
  sc_new : exists q, tree_links T q u;
  sc_nodup : NoDup (addrs u ++ addrs (fill K (Node l0 n r0)))
}.

Lemma splice_simple T s K l n r u f :
  tree_ok T s (fill K (Node l n r)) ->
  l = Leaf /\ u = r /\ f = t_right NULL \/ r = Leaf /\ u = l /\ f = t_left NULL ->
  splicing (alter f (n_addr n) T) s K Leaf n Leaf u.
Proof.
  intros Ht Hu. pose proof (proj1 (focus_separate _ _ _ _) (tk_nodup _ _ _ Ht)) as Hsep.
  pose proof (tk_links _ _ _ Ht) as (HK & Hn & Hl & Hr)%tree_links_fill.
  set (T1 := alter f (n_addr n) T). assert (forall a, a <> n_addr n -> T1 !! a = T !! a) as HT1.
  { intros a Ha. unfold T1. by rewrite lookup_alter_ne. }
  assert (node_links T1 n (parent_of K) NULL NULL) as Hn1.
  { unfold T1. destruct Hu as [(-> & -> & ->)|(-> & -> & ->)];
      (eapply node_links_alter; [|apply Hsep|exact Hn]); done. }
  assert (n_addr n ∈ node_addrs n) as Hin by by left.
  assert (tree_links T1 NULL (fill K (Node Leaf n Leaf))) as Hl1.
  { apply tree_links_fill. split; [|done]. eapply ctx_links_frame; [|exact HK]. intros a Ha. apply HT1.
    intros ->. by apply (sp_nc _ _ _ _ Hsep _ Hin). }
  split.
  - destruct Hu as [(-> & -> & _)|(-> & -> & _)].
    + eapply (tree_ok_less _ _ _ _ _ (before K ++ [n]) (inorder r) (after K)); [exact Ht|..|done];
        rewrite inorder_fill; cbn; by rewrite <- ?app_assoc.
    + eapply (tree_ok_less _ _ _ _ _ (before K) (inorder l) (n :: after K)); [exact Ht|..|done];
        rewrite inorder_fill; cbn; by rewrite <- ?app_assoc.
  - exists (n_addr n). destruct Hu as [(_ & -> & _)|(_ & -> & _)]; (eapply tree_links_frame; [|done]);
      intros a Ha; apply HT1; intros ->; [by apply (sp_nr _ _ _ _ Hsep _ Hin)|by apply (sp_nl _ _ _ _ Hsep _ Hin)].
  - rewrite addrs_fill. rewrite !NoDup_app, addrs_node. destruct Hsep, Hu as [(_ & -> & _)|(_ & -> & _)];
      cbn; rewrite app_nil_r; set_solver.
Qed.

Lemma splice_attach T s K l0 n r0 u (T1 := alter (t_parent NULL) (n_addr n) (attach K (root_of u) T)) :
  splicing T s K l0 n r0 u ->
  tree_links T1 NULL (fill K u) /\ tree_links T1 (n_addr n) l0 /\ tree_links T1 (n_addr n) r0 /\
  exists x, T1 !! n_addr n = Some (mkTreeChunk x (mkTreeList (n_list n) NULL (root_of l0) (root_of r0))).
Proof.
  intros [Ht [q Hu] Hd]. apply NoDup_app in Hd as (Hdu & Hdis & Hd).
  pose proof (proj1 (focus_separate _ _ _ _) Hd) as Hsep.
  pose proof (tk_links _ _ _ Ht) as (HK & Hn & Hl & Hr)%tree_links_fill.
  assert (n_addr n ∈ node_addrs n) as Hin by by left.
  setoid_rewrite addrs_fill in Hdis. rewrite addrs_node in Hdis.
  assert (forall a, a ∉ ctx_addrs K -> a ∉ addrs u -> a <> n_addr n -> T1 !! a = T !! a) as HT1.
  { intros a Hc Ha Hne. unfold T1. rewrite lookup_alter_ne by done. by eapply attach_ne. }
  assert (tree_links (attach K (root_of u) T) NULL (fill K u)) as Ha.
  { eapply attach_links; [exact HK|exact Hu|]. apply NoDup_app. split_and!; [done| |apply Hsep]. set_solver. }
  split_and!.
  - eapply tree_links_frame; [|exact Ha]. intros a Hain. apply lookup_alter_ne. intros <-.
    rewrite addrs_fill in Hain. apply elem_of_app in Hain as [Hain|Hain].
    + apply (Hdis _ Hain). set_solver.
    + by apply (sp_nc _ _ _ _ Hsep _ Hin).
  - eapply tree_links_frame; [|exact Hl]. intros a Hal. apply HT1.
    + by apply (sp_lc _ _ _ _ Hsep).
    + intros Hau. apply (Hdis _ Hau). set_solver.
    + intros ->. by apply (sp_nl _ _ _ _ Hsep _ Hin).
  - eapply tree_links_frame; [|exact Hr]. intros a Har. apply HT1.
    + by apply (sp_rc _ _ _ _ Hsep).
    + intros Hau. apply (Hdis _ Hau). set_solver.
    + intros ->. by apply (sp_nr _ _ _ _ Hsep _ Hin).
  - destruct (node_links_lookup _ _ _ _ _ Hn) as [x Hx]. exists x. unfold T1.
    rewrite lookup_alter_eq. erewrite attach_ne; [by rewrite Hx|exact Hu|by apply Hsep|].
    intros Hau. apply (Hdis _ Hau). set_solver.
Qed.

Lemma separate_leaf K l ns r : separate K l ns r -> separate K l ns Leaf.
Proof.
  intros []. split; try done; [constructor|by intros a _ ?%elem_of_nil|by intros a _ ?%elem_of_nil|].
  by intros a ?%elem_of_nil.
Qed.

(** The two children of the removed node go to the one that replaces it. *)
Lemma splice_children T K m l r q
  (T1 := hole_update (FL m Leaf) (root_of l) T) (T2 := hole_update (FR l m) (root_of r) T1) :
  tree_links T NULL (fill K (Node Leaf m Leaf)) -> tree_links T q l -> tree_links T q r ->
  separate K l (node_addrs m) r ->
  tree_links T2 NULL (fill K (Node l m r)) /\
  (forall a, a <> n_addr m -> a ∉ addrs l -> a ∉ addrs r -> T2 !! a = T !! a).
Proof.
  intros Ht Hl Hr Hsep.
  assert (forall a, a <> n_addr m -> a ∉ addrs l -> T1 !! a = T !! a) as HT1.
  { intros a Hm Ha. apply hole_update_ne; [done|]. intros Hn <-. apply Ha. by eapply root_addr. }
  pose proof Ht as (HK & _)%(tree_links_fill T (FL m Leaf :: K) Leaf).
  assert (tree_links T1 NULL (fill (FL m Leaf :: K) l)) as H1.
  { eapply fill_hole; [exact HK|exact Hl|]. rewrite <- addrs_fill. apply (focus_separate K l m Leaf).
    by eapply separate_leaf. }
  pose proof H1 as (HK1 & _)%(tree_links_fill T1 (FR l m :: K) Leaf).
  split.
  - eapply (fill_hole _ (FR l m)); [exact HK1| |].
    + eapply tree_links_frame; [|exact Hr]. intros a Ha. apply HT1.
      * intros ->. apply (sp_nr _ _ _ _ Hsep (n_addr m)); [by left|done].
      * intros Hal. by apply (sp_lr _ _ _ _ Hsep _ Hal).
    + rewrite <- addrs_fill. by apply (focus_separate K l m r).
  - intros a Hm Hal Har. unfold T2. rewrite hole_update_ne; [by apply HT1|done|].
    intros Hn <-. apply Har. by eapply root_addr.
Qed.

Lemma addrs_minimum K l n r m r' :
  inorder r = m :: inorder r' ->
  addrs (fill K (Node l n r)) ≡ₚ node_addrs m ++ addrs (fill K (Node l n r')).
Proof.
  intros Em. rewrite !addrs_fill, !addrs_node. unfold addrs at 2. rewrite Em, addrs_of_cons, <- !app_assoc.
  rewrite (Permutation_app_swap_app (node_addrs n) (node_addrs m)).
  by rewrite (Permutation_app_swap_app (addrs l) (node_addrs m)).
Qed.

(** How the replacement of a node was found *)
Definition replacement (l r l0 r0 u : tree) (complicated : bool) : Prop :=
  if complicated
  then l0 = l /\ l <> Leaf /\ exists m, u = Node Leaf m Leaf /\ inorder r = m :: inorder r0
  else l0 = Leaf /\ r0 = Leaf /\ inorder u = inorder l ++ inorder r.

Lemma successor_node_spec b d K l n r (Q : Z * bool -> BinaryTreeDictionary -> Prop) :
  tree_ok (nodes d) (chunks d) (fill K (Node l n r)) -> verifiable d (fill K (Node l n r)) ->
  (forall T' l0 r0 u c, splicing T' (chunks d) K l0 n r0 u -> replacement l r l0 r0 u c ->
     dom T' = dom (nodes d) -> Q (root_of u, c) (upd d (chunks d) T')) ->
  wp (successor_node b (n_addr n)) Q d.
Proof.
  intros Ht Hv HQ. pose proof (tk_links _ _ _ Ht) as (_ & Hn & Hl & Hr)%tree_links_fill.
  destruct (node_links_lookup _ _ _ _ _ Hn) as [x Hx].
  apply wp_bind. eapply wp_tree_list; [exact Hx|]. cbn [_embedded_list _left _right].
  destruct (Z.eqb_spec (root_of l) NULL) as [El|El].
  { apply (root_null _ _ _ Hl) in El as ->. apply wp_bind. eapply wp_clearRight; [exact Hx|]. apply wp_ret.
    eapply (HQ _ Leaf Leaf r false); [|done|by rewrite dom_alter_node].
    eapply splice_simple; [exact Ht|by left]. }
  destruct (Z.eqb_spec (root_of r) NULL) as [Er|Er].
  { apply (root_null _ _ _ Hr) in Er as ->. apply wp_bind. eapply wp_clearLeft; [exact Hx|]. apply wp_ret.
    eapply (HQ _ Leaf Leaf l false); [| |by rewrite dom_alter_node].
    - eapply splice_simple; [exact Ht|by right].
    - cbn. by rewrite app_nil_r. }
  apply wp_bind. eapply removeTreeMinimum_spec; [done|done|by intros ->|].
  intros m r' T' Em Ht' Hm Hdom. destruct (Hm) as (Ham & _). apply chunk_addr_ptr in Ham as [_ Ham].
  destruct (node_links_lookup _ _ _ _ _ Hm) as [xm Hxm].
  apply wp_bind, wp_bind, wp_check; [by apply negb_true_iff, Z.eqb_neq|].
  apply wp_bind. eapply wp_tree_list; [exact Hxm|]. apply wp_check; [done|]. apply wp_ret.
  apply (HQ T' l r' (Node Leaf m Leaf) true); [|split_and!; [done|by intros ->|by exists m]|done].
  split; [done|by exists NULL|]. destruct Ht as [_ _ Hd _ _]. rewrite (addrs_minimum K l n r m r' Em) in Hd.
  rewrite addrs_node. unfold addrs at 1 2. cbn. by rewrite app_nil_r.
Qed.

(** The end of the splice, when the replacement came from the right subtree *)
Lemma wp_splice_children d K l n r m q x (Q : unit -> BinaryTreeDictionary -> Prop) :
  tree_links (nodes d) NULL (fill K (Node Leaf m Leaf)) -> tree_links (nodes d) q l ->
  tree_links (nodes d) q r -> separate K l (node_addrs m) r -> l <> Leaf ->
  n_addr n <> n_addr m -> n_addr n ∉ addrs l -> n_addr n ∉ addrs r -> n_addr n ∉ ctx_addrs K ->
  n_addr n ∉ node_addrs m ->
  nodes d !! n_addr n = Some (mkTreeChunk x (mkTreeList (n_list n) NULL (root_of l) (root_of r))) ->
  (forall T', tree_links T' NULL (fill K (Node l m r)) -> dom T' = dom (nodes d) ->
     T' !! n_addr n = Some (mkTreeChunk x (mkTreeList (n_list n) NULL NULL NULL)) -> Q tt (set_nodes d T')) ->
  wp (check_node (n_addr m) (fun n => (_left n =? NULL) && (_right n =? NULL)) ;;
      t ← tree_list (n_addr n);
      check (negb (_left t =? NULL)) ;;
      setLeft (n_addr m) (_left t) ;;
      setRight (n_addr m) (_right t) ;;
      clearRight (n_addr n) ;;
      clearLeft (n_addr n)) Q d.
Proof.
  intros Ht Hl Hr Hsep Hne Hnm Hnl Hnr Hnc Hnm' Hx HQ.
  destruct (splice_children _ _ _ _ _ _ Ht Hl Hr Hsep) as [H2 Hfr2].
  pose proof Ht as (_ & Hm & _)%tree_links_fill. destruct (Hm) as (Ham & _).
  apply chunk_addr_ptr in Ham as [_ Ham]. destruct (node_links_lookup _ _ _ _ _ Hm) as [xm Hxm].
  apply wp_bind, wp_bind, wp_check; [by apply negb_true_iff, Z.eqb_neq|].
  apply wp_bind. eapply wp_tree_list; [exact Hxm|]. apply wp_check; [done|].
  apply wp_bind. eapply wp_tree_list; [exact Hx|]. cbn [_embedded_list _left _right].
  apply wp_bind, wp_check. { apply negb_true_iff, Z.eqb_neq. by rewrite (root_null _ _ _ Hl). }
  apply wp_bind. eapply wp_setLeft; [exact Hxm|by eapply root_present|].
  assert (is_Some (hole_update (FL m Leaf) (root_of l) (nodes d) !! n_addr m)) as [xm1 Hxm1].
  { eapply (dom_present (nodes d)); [apply dom_hole_update|by rewrite Hxm]. }
  apply wp_bind. eapply wp_setRight; [exact Hxm1| |].
  { intros Hnn. eapply (dom_present (nodes d)); [apply (dom_hole_update (FL m Leaf))|by eapply root_present]. }
  set (T2 := hole_update (FR l m) (root_of r) (hole_update (FL m Leaf) (root_of l) (nodes d))) in *.
  assert (T2 !! n_addr n = Some (mkTreeChunk x (mkTreeList (n_list n) NULL (root_of l) (root_of r)))) as Hx2.
  { by rewrite Hfr2. }
  apply wp_bind. eapply wp_clearRight; [exact Hx2|]. eapply wp_clearLeft.
  { transitivity (alter (t_right NULL) (n_addr n) T2 !! n_addr n); [done|]. by rewrite lookup_alter_eq, Hx2. }
  apply (HQ (alter (t_left NULL) (n_addr n) (alter (t_right NULL) (n_addr n) T2))).
  - eapply tree_links_frame; [|exact H2]. intros a Ha. rewrite !lookup_alter_ne; [done|..]; intros <-;
      rewrite addrs_fill, addrs_node in Ha; set_solver.
  - rewrite !dom_alter_node. unfold T2. by rewrite !dom_hole_update.
  - by rewrite !lookup_alter_eq, Hx2.
Qed.

(** The trees that the two ways of splicing leave *)
Definition spliced (l r0 u : tree) (c : bool) : tree :=
  if c then match u with Node _ m _ => Node l m r0 | Leaf => Leaf end else u.

Lemma splice_tree_ok T s T' K l n r l0 r0 u c (t' := spliced l r0 u c) :
  tree_ok T s (fill K (Node l n r)) -> replacement l r l0 r0 u c ->
  tree_links T' NULL (fill K t') -> tree_ok T' s (fill K t') /\ inorder t' = inorder l ++ inorder r.
Proof.
  intros Ht Hrep Hl. assert (inorder t' = inorder l ++ inorder r) as Ei.
  { unfold t', spliced. destruct c; [|by destruct Hrep as (_ & _ & ->)].
    destruct Hrep as (_ & _ & m & -> & ->). done. }
  split; [|done]. eapply (tree_ok_less _ _ _ _ _ (before K ++ inorder l) [n] (inorder r ++ after K));
    [exact Ht|..|done]; rewrite inorder_fill; cbn [inorder]; rewrite ?Ei; by rewrite <- !app_assoc.
Qed.

Lemma splicing_separate T s K l0 n r0 u :
  splicing T s K l0 n r0 u ->
  (n_addr n ∉ addrs u) /\ (n_addr n ∉ addrs l0) /\ (n_addr n ∉ addrs r0) /\ (n_addr n ∉ ctx_addrs K) /\
  (forall m, u = Node Leaf m Leaf -> separate K l0 (node_addrs m) r0).
Proof.
  intros [_ _ (Hdu & Hdis & Hd)%NoDup_app]. pose proof (proj1 (focus_separate _ _ _ _) Hd) as Hsep.
  setoid_rewrite addrs_fill in Hdis. rewrite addrs_node in Hdis.
  assert (n_addr n ∈ node_addrs n) as Hin by by left.
  split_and!; [intros Hu; apply (Hdis _ Hu); set_solver|by apply Hsep..|].
  intros m ->. rewrite addrs_node in Hdu, Hdis. cbn in Hdu, Hdis. rewrite app_nil_r in Hdu, Hdis.
  destruct Hsep. split; try done; intros a Ha; pose proof (Hdis a Ha); set_solver.
Qed.

Lemma wp_splice_finish d K l n r l0 r0 u c T1 (Q : unit -> BinaryTreeDictionary -> Prop) :
  splicing T1 (chunks d) K l0 n r0 u -> replacement l r l0 r0 u c ->
  nodes d = attach K (root_of u) T1 ->
  (forall T', tree_links T' NULL (fill K (spliced l r0 u c)) -> dom T' = dom (nodes d) ->
     Q tt (set_nodes d T')) ->
  wp (clearParent (n_addr n) ;;
      when c
        (check_node (root_of u) (fun n => (_left n =? NULL) && (_right n =? NULL)) ;;
         t ← tree_list (n_addr n);
         check (negb (_left t =? NULL)) ;;
         setLeft (root_of u) (_left t) ;;
         setRight (root_of u) (_right t) ;;
         clearRight (n_addr n) ;;
         clearLeft (n_addr n)) ;;
      t ← tree_list (n_addr n);
      check ((_right t =? NULL) && (_left t =? NULL) && (_parent t =? NULL))) Q d.
Proof.
  intros Hsp Hrep ET HQ. destruct (splice_attach _ _ _ _ _ _ _ Hsp) as (Hlu & Hl0 & Hr0 & x2 & Hx2).
  destruct (splicing_separate _ _ _ _ _ _ _ Hsp) as (Hnu & Hnl & Hnr & Hnc & Hsep).
  rewrite <- ET in *. assert (is_Some (nodes d !! n_addr n)) as [y Hy].
  { rewrite lookup_alter_eq in Hx2. by destruct (nodes d !! n_addr n). }
  apply wp_bind. eapply wp_setParent; [exact Hy|]. set (T2 := alter _ _ _) in *. destruct c.
  - destruct Hrep as (-> & Hne & m & -> & _). specialize (Hsep m eq_refl). rewrite addrs_node in Hnu.
    cbn [root_of] in *. apply wp_bind.
    eapply wp_splice_children; [exact Hlu|exact Hl0|exact Hr0|done|done|..|exact Hx2|];
      [set_solver|done|done|done|set_solver|].
    intros T' HT' Hdom HxT. apply wp_bind. eapply wp_tree_list; [exact HxT|]. apply wp_check; [done|].
    apply HQ; [exact HT'|]. rewrite Hdom. cbn. unfold T2. by rewrite dom_alter_node.
  - destruct Hrep as (-> & -> & _). apply wp_bind, wp_ret, wp_bind. eapply wp_tree_list; [exact Hx2|].
    apply wp_check; [done|]. apply HQ; [exact Hlu|]. unfold T2. by rewrite dom_alter_node.
Qed.

Lemma splice_out_spec b d K l n r (Q : unit -> BinaryTreeDictionary -> Prop) :
  tree_ok (nodes d) (chunks d) (fill K (Node l n r)) -> verifiable d (fill K (Node l n r)) ->
  _head (n_list n) = NULL -> _tail (n_list n) = NULL ->
  (forall t' T', inorder t' = inorder l ++ inorder r -> tree_ok T' (chunks d) (fill K t') ->
     dom T' = dom (nodes d) -> Q tt (updr d T' (root_of (fill K t')))) ->
  wp (splice_out b (n_addr n) (n_addr n)) Q d.
Proof.
  intros Ht Hv Eh Et HQ. pose proof (tk_links _ _ _ Ht) as (_ & Hn & _)%tree_links_fill.
  destruct (node_links_lookup _ _ _ _ _ Hn) as [x Hx]. destruct (Hn) as (Han & _).
  apply chunk_addr_ptr in Han as [_ Han].
  apply wp_bind. eapply wp_free_list; [exact Hx|]. cbn [_embedded_list tl_list].
  apply wp_bind, wp_check; [by rewrite Eh, Et|]. apply wp_bind.
  eapply successor_node_spec; [done..|]. intros T1 l0 r0 u c Hsp Hrep Hdom1.
  assert (verifiable (upd d (chunks d) T1) (fill K (Node l0 n r0))) as Hv1.
  { split; [|apply Hv]. cbn. rewrite (proj1 Hv). by apply root_of_node. }
  apply wp_bind. eapply wp_debug_verify; [apply Hsp|exact Hv1|].
  pose proof (tk_links _ _ _ (sc_ok _ _ _ _ _ _ _ Hsp)) as (HK1 & Hn1 & _)%tree_links_fill.
  destruct (node_links_lookup _ _ _ _ _ Hn1) as [x1 Hx1]. destruct (sc_new _ _ _ _ _ _ _ Hsp) as [q Hu].
  destruct (splicing_separate _ _ _ _ _ _ _ Hsp) as (_ & _ & _ & Hnc & _).
  apply wp_bind. eapply wp_tree_list; [exact Hx1|]. cbn [_embedded_list _parent]. cbv zeta.
  apply wp_bind. eapply wp_attach; [exact HK1|exact Hu|done|done| |].
  { intros ->. exact (proj1 Hv). }
  eapply wp_splice_finish; [exact Hsp|exact Hrep|done|]. intros T' HT' Hdom'.
  destruct (splice_tree_ok _ _ _ _ _ _ _ _ _ _ _ Ht Hrep HT') as [Ht' Ei].
  specialize (HQ _ T' Ei Ht'). cbn in Hdom'. rewrite dom_attach in Hdom'.
  assert ((if K is [] then root_of u else _root d) = root_of (fill K (spliced l r0 u c))) as Eroot.
  { destruct K as [|f K].
    - unfold spliced. destruct c; [|done]. by destruct Hrep as (_ & _ & m & -> & _).
    - rewrite (proj1 Hv). by apply root_of_fill. }
  rewrite <- Eroot in HQ. apply HQ. by rewrite Hdom'.
Qed.

(** ** The dictionary's invariant *)

(** The free chunks with their sizes *)
Definition node_entries (n : node) : list (Z * Z) := (fun a => (a, n_size n)) <$> n_chunks n.
Definition entries_of (ns : list node) : list (Z * Z) := mjoin (node_entries <$> ns).
Definition entries (t : tree) : list (Z * Z) := entries_of (inorder t).
Definition total (es : list (Z * Z)) : Z := foldr (fun e z => e.2 + z) 0 es.

Definition hint_ok (n : node) : Prop := _hint (n_list n) = 0 \/ n_size n < _hint (n_list n).

Record dict_inv (d : BinaryTreeDictionary) (t : tree) : Prop := {
  di_ok : tree_ok (nodes d) (chunks d) t;
  di_live : all_live t;
  di_root : _root d = root_of t;
  di_hints : Forall hint_ok (inorder t);
  di_size : _totalSize d = total (entries t);
  di_blocks : _totalFreeBlocks d = zlen (entries t);
  di_bound : total (entries t) < 2 ^ 64
}.

Lemma entries_of_app ns ns' : entries_of (ns ++ ns') = entries_of ns ++ entries_of ns'.
Proof. unfold entries_of. by rewrite fmap_app, join_app. Qed.

Lemma entries_of_cons n ns : entries_of (n :: ns) = node_entries n ++ entries_of ns.
Proof. done. Qed.

Lemma entries_focus K l n r : entries (fill K (Node l n r)) ≡ₚ node_entries n ++ entries_of (others K l r).
Proof.
  unfold entries, others. rewrite inorder_fill. cbn [inorder].
  rewrite !entries_of_app, entries_of_cons, <- !app_assoc.
  rewrite (Permutation_app_swap_app (entries_of (inorder l))).
  by rewrite (Permutation_app_swap_app (entries_of (before K))).
Qed.

Lemma total_perm es es' : es ≡ₚ es' -> total es = total es'.
Proof. unfold total. induction 1; cbn [foldr]; lia. Qed.

Lemma entries_total_app es es' : total (es ++ es') = total es + total es'.
Proof. unfold total in *. induction es as [|e es IH]; cbn [foldr app]; [done|]. rewrite IH. lia. Qed.

Lemma entries_in t a sz :
  (a, sz) ∈ entries t <-> exists n, n ∈ inorder t /\ a ∈ n_chunks n /\ n_size n = sz.
Proof.
  unfold entries, entries_of. rewrite list_elem_of_join. split.
  - intros (es & He & Hes). apply list_elem_of_fmap in Hes as (n & -> & Hn).
    unfold node_entries in He. apply list_elem_of_fmap in He as (b & [= -> ->] & Hb). eauto.
  - intros (n & Hn & Ha & <-). exists (node_entries n). split; [|by apply list_elem_of_fmap_2].
    unfold node_entries. by apply (list_elem_of_fmap_2 (fun a => (a, n_size n))).
Qed.

Lemma entries_addrs t a : a ∈ (entries t).*1 -> a ∈ addrs t.
Proof.
  intros ([b sz] & -> & Hb)%list_elem_of_fmap. apply entries_in in Hb as (n & Hn & Hb & _).
  eapply node_addrs_in; [exact Hn|]. by apply chunks_addrs.
Qed.

Lemma entries_nodup T s t : tree_ok T s t -> NoDup (entries t).*1.
Proof.
  intros [_ _ Hd _ _]. unfold addrs, entries in *. induction (inorder t) as [|n ns IH]; [constructor|].
  rewrite addrs_of_cons in Hd. rewrite entries_of_cons, fmap_app. apply NoDup_app in Hd as (Hdn & Hdis & Hd).
  assert ((node_entries n).*1 = n_chunks n) as En.
  { unfold node_entries. rewrite <- list_fmap_compose. apply list_fmap_id. }
  rewrite En. apply NoDup_app. split_and!; [|intros a Ha Ha'|by apply IH].
  - unfold n_chunks. destruct (n_live n); [done|constructor].
  - apply (Hdis a); [by apply chunks_addrs|]. apply list_elem_of_fmap in Ha' as ([b sz] & -> & Hb).
    unfold entries_of in Hb. apply list_elem_of_join in Hb as (es & He & Hes).
    apply list_elem_of_fmap in Hes as (m & -> & Hm). unfold node_entries in He.
    apply list_elem_of_fmap in He as (c & [= -> ->] & Hc). eapply others_addrs; [exact Hm|]. by apply chunks_addrs.
Qed.

Lemma total_nonneg T s t : tree_ok T s t -> forall e, e ∈ entries t -> 0 < e.2 < 2 ^ 64.
Proof.
  intros [_ _ _ _ Hsz] [a sz] (n & Hn & _ & <-)%entries_in. rewrite Forall_forall in Hsz.
  by apply Hsz.
Qed.

Lemma total_pos es : (forall e, e ∈ es -> 0 <= e.2) -> 0 <= total es.
Proof.
  intros Hes. induction es as [|x es IH]; [done|]. change (total (x :: es)) with (x.2 + total es).
  pose proof (Hes x ltac:(by left)). assert (0 <= total es) by (apply IH; intros; apply Hes; by right). lia.
Qed.

Lemma inv_verifiable d t : dict_inv d t -> verifiable d t.
Proof.
  intros [Hok _ Hr _ Hs Hb _]. split; [done|]. rewrite Hs, Hb. pose proof (total_nonneg _ _ _ Hok) as Hpos.
  destruct (entries t) as [|e es]; [done|]. intros _. pose proof (Hpos e ltac:(by left)) as He.
  assert (0 <= total es).
  { apply total_pos. intros x Hx. apply Z.lt_le_incl, Hpos. by right. }
  change (total (e :: es)) with (e.2 + total es). lia.
Qed.

(** ** Removing a chunk *)

Lemma focus_not_root K l n r :
  NoDup (addrs (fill K (Node l n r))) -> n_addr n = root_of (fill K (Node l n r)) -> K = [].
Proof.
  intros Hd E. pose proof (proj1 (focus_separate _ _ _ _) Hd) as Hsep. destruct K as [|f K]; [done|].
  exfalso. apply (sp_nc _ _ _ _ Hsep (n_addr n)); [by left|]. rewrite E. apply root_in_ctx.
Qed.

(** The node of a chunk *)
Lemma chunk_node T n p lc rc tc :
  node_links T n p lc rc -> n_live n = true -> tc ∈ n_chunks n ->
  exists e, T !! tc = Some (mkTreeChunk (n_addr n) e).
Proof.
  intros (_ & (x & Hx & Hlv) & Hr) El. unfold n_chunks. rewrite El.
  intros [->|Htc]%elem_of_cons; [rewrite Hx, (Hlv El); eauto|].
  rewrite Forall_forall in Hr. destruct (Hr tc Htc) as [fl ->]. eauto.
Qed.

Lemma removing_only_chunk_spec d K l n r tc (Q : bool -> BinaryTreeDictionary -> Prop) :
  tree_ok (nodes d) (chunks d) (fill K (Node l n r)) -> _root d = root_of (fill K (Node l n r)) ->
  n_live n = true -> tc ∈ n_chunks n ->
  (forall only, (only = true -> K = [] /\ l = Leaf /\ r = Leaf /\ n_chunks n = [tc]) -> Q only d) ->
  wp (removing_only_chunk (n_addr n) tc) Q d.
Proof.
  intros Ht Er El Htc HQ. apply wp_bind, wp_get_dict. destruct (Z.eqb_spec (n_addr n) (_root d)) as [E|E].
  2: { apply wp_ret. by apply HQ. }
  rewrite Er in E. pose proof (focus_not_root _ _ _ _ (tk_nodup _ _ _ Ht) E) as ->.
  destruct (focus_facts _ _ _ _ _ Ht) as (Hn & Hl & _). destruct (node_links_lookup _ _ _ _ _ Hn) as [x Hx].
  cbn [negb]. rewrite Er. cbn [fill root_of]. apply wp_bind. eapply wp_tree_list; [exact Hx|].
  cbn [_embedded_list _left _right tl_list].
  destruct ((root_of l =? NULL) && (root_of r =? NULL) && (_count (n_list n) =? 1)) eqn:Ec; [|by apply wp_ret, HQ].
  apply andb_true_iff in Ec as [[E1%Z.eqb_eq E2%Z.eqb_eq]%andb_true_iff E3%Z.eqb_eq].
  destruct Ht as [(_ & Hll & Hlr) _ _ _ _]. apply (root_null _ _ _ Hll) in E1 as ->.
  apply (root_null _ _ _ Hlr) in E2 as ->. destruct Hl as [Eh _ Ec _ _]. rewrite Ec in E3.
  assert (n_chunks n = [tc]) as En.
  { destruct (n_chunks n) as [|a [|b q]]; [done| |cbn [length] in E3; lia].
    by apply list_elem_of_singleton in Htc as ->. }
  apply wp_bind, wp_check; [rewrite Eh, En; apply Z.eqb_refl|]. by apply wp_ret, HQ.
Qed.

(** The debug checks on a list that has moved to another chunk *)
Lemma check_replaced_spec d K l n n' r tc c (Q : unit -> BinaryTreeDictionary -> Prop) :
  tree_ok (nodes d) (chunks d) (fill K (Node l n' r)) ->
  (n_addr n <> n_addr n' -> n_live n' = true) -> chunks d !! tc = Some c -> c_size c = n_size n' ->
  Q tt d -> wp (check_replaced (n_addr n) (n_addr n') tc) Q d.
Proof.
  intros Ht Hlive Hc Hsz HQ. apply wp_when; [|done]. intros E%negb_true_iff%Z.eqb_neq.
  specialize (Hlive E). destruct (focus_facts _ _ _ _ _ Ht) as (Hn & Hl & _).
  destruct (node_links_lookup _ _ _ _ _ Hn) as [x Hx]. destruct (Hn) as (Ha & _).
  apply chunk_addr_ptr in Ha as [_ Ha].
  assert (first NULL (n_chunks n') = n_addr n') as Ef by (unfold n_chunks; by rewrite Hlive).
  assert (n_addr n' ∈ n_chunks n') as Hin by (unfold n_chunks; rewrite Hlive; by left).
  assert (final NULL (n_chunks n') ∈ n_chunks n') as Hfin.
  { destruct (final_elem NULL (n_chunks n')) as [[_ E']|?]; [|done]. by rewrite E' in Hin; apply elem_of_nil in Hin. }
  destruct (chunk_node _ _ _ _ _ _ Hn Hlive Hin) as [e1 H1].
  destruct (chunk_node _ _ _ _ _ _ Hn Hlive Hfin) as [e2 H2].
  apply wp_bind. eapply wp_free_list; [exact Hx|]. cbn [_embedded_list tl_list].
  rewrite (lo_head _ _ _ Hl), (lo_tail _ _ _ Hl), Ef.
  apply wp_bind, wp_check; [by apply negb_true_iff, Z.eqb_neq|].
  apply wp_bind. eapply wp_head_as_TreeChunk; [exact Hn|exact Hl|]. rewrite Ef.
  apply wp_bind. eapply wp_tree_chunk; [exact H1|]. apply wp_bind. eapply wp_tree_chunk; [exact H2|].
  apply wp_bind, wp_check; [apply Z.eqb_refl|]. apply wp_bind, wp_check; [apply Z.eqb_refl|].
  apply wp_bind. eapply wp_read_chunk; [exact Hc|]. apply wp_check; [|done]. apply Z.eqb_eq. by rewrite Hsz.
Qed.

(** The chunks of a node without one of them *)
Lemma shrunk_facts d K l n r tc n' s' T' :
  tree_ok (nodes d) (chunks d) (fill K (Node l n r)) -> n_live n = true -> tc ∈ n_chunks n ->
  shrunk d K l n r tc n' s' T' ->
  node_entries n ≡ₚ (tc, n_size n) :: node_entries n' /\
  (n_live n' = false -> n_addr n' = n_addr n) /\ n_size n' = n_size n /\ (hint_ok n -> hint_ok n').
Proof.
  intros Ht El (l1 & l2 & Ec)%list_elem_of_split Hsh. destruct (focus_facts _ _ _ _ _ Ht) as (_ & Hl & Hd & _).
  destruct Hl as [_ _ _ Hdl Hs]. rewrite Ec in Hdl, Hs.
  destruct (parts_split _ _ _ _ _ Hdl Hs) as (_ & Hn & _).
  destruct Hsh as [_ Ech (Esz & Eh & _) Hsub _ _ _]. rewrite Ec, filter_out in Ech by done.
  split_and!; [| |done|].
  - unfold node_entries. rewrite Ec, Ech. replace (n_size n') with (n_size n) by done.
    rewrite !fmap_app, fmap_cons. by rewrite <- Permutation_middle.
  - intros El'. unfold n_chunks in Ech. rewrite El' in Ech. symmetry in Ech. apply app_nil in Ech as [-> ->].
    unfold n_chunks in Ec. rewrite El in Ec. injection Ec as _ Er.
    specialize (Hsub (n_addr n') ltac:(by left)). unfold node_addrs in Hsub. rewrite Er in Hsub.
    by apply list_elem_of_singleton in Hsub.
  - unfold hint_ok, n_size. by rewrite Esz, Eh.
Qed.

(** The tree is repaired if the list has become empty. *)
Lemma repair_spec b d K l n n' r (k : dm Z) (Q : Z -> BinaryTreeDictionary -> Prop) :
  tree_ok (nodes d) (chunks d) (fill K (Node l n' r)) -> verifiable d (fill K (Node l n' r)) ->
  (n_live n' = false -> n_addr n' = n_addr n) -> hint_ok n' ->
  Forall (fun n => n_live n = true) (others K l r) -> Forall hint_ok (others K l r) ->
  (forall t2 T2, tree_ok T2 (chunks d) t2 -> all_live t2 -> Forall hint_ok (inorder t2) ->
     dom T2 = dom (nodes d) -> entries t2 ≡ₚ node_entries n' ++ entries_of (others K l r) ->
     (n_live n' = false -> inorder t2 = others K l r) -> wp k Q (updr d T2 (root_of t2))) ->
  wp (fl ← free_list (n_addr n'); when (_count fl =? 0) (splice_out b (n_addr n) (n_addr n')) ;; k) Q d.
Proof.
  intros Ht Hv Hdead Hh Hlv Hhs HQ. destruct (focus_facts _ _ _ _ _ Ht) as (Hn & Hl & _).
  destruct (node_links_lookup _ _ _ _ _ Hn) as [x Hx]. destruct (Hl) as [Eh Et Ec _ _].
  apply wp_bind. eapply wp_free_list; [exact Hx|]. cbn [_embedded_list tl_list]. rewrite Ec.
  destruct (n_live n') eqn:El.
  - rewrite (proj2 (Z.eqb_neq _ _)) by (unfold n_chunks; rewrite El; cbn [length]; lia).
    apply wp_bind, wp_ret. replace d with (updr d (nodes d) (_root d)) by by destruct d. rewrite (proj1 Hv).
    apply (HQ (fill K (Node l n' r))); [done|by apply Forall_focus|by apply Forall_focus|done|apply entries_focus|done].
  - unfold n_chunks in Eh, Et |- *. rewrite El in Eh, Et |- *. rewrite <- Hdead by done.
    apply wp_bind. eapply splice_out_spec; [done..|]. intros t' T' Ei Ht' Hdom.
    assert (inorder (fill K t') = others K l r) as Eo.
    { rewrite inorder_fill, Ei. unfold others. by rewrite <- !app_assoc. }
    apply HQ; [done|by unfold all_live; rewrite Eo|by rewrite Eo|done| |done].
    unfold entries, node_entries, n_chunks. by rewrite Eo, El.
Qed.

Record removed (d : BinaryTreeDictionary) (t : tree) (tc sz : Z) (d' : BinaryTreeDictionary) (t' : tree) : Prop := {
  rm_inv : dict_inv d' t';
  rm_entries : entries t ≡ₚ (tc, sz) :: entries t';
  rm_chunk : chunks d' !! tc = Some (mkFreeChunk sz 1 NULL);
  rm_frame : forall a, a ∉ (entries t).*1 -> chunks d' !! a = chunks d !! a;
  rm_chunks : dom (chunks d') = dom (chunks d);
  rm_nodes : dom (nodes d') = dom (nodes d);
  rm_splay : _splay d' = _splay d
}.

(** The totals without the chunk *)
Lemma removed_totals t t' tc sz :
  entries t ≡ₚ (tc, sz) :: entries t' -> (forall e, e ∈ entries t -> 0 < e.2 < 2 ^ 64) ->
  total (entries t) < 2 ^ 64 -> zlen (entries t) <= 2 ^ 61 ->
  sz <= total (entries t) /\ u64 (total (entries t) - sz) = total (entries t') /\
  0 < zlen (entries t) /\ u64 (zlen (entries t) - 1) = zlen (entries t') /\ total (entries t') < 2 ^ 64.
Proof.
  intros E Hpos Hb Hlen. rewrite (total_perm _ _ E) in *. rewrite E in *. setoid_rewrite E in Hpos.
  change (total ((tc, sz) :: entries t')) with (sz + total (entries t')) in *. cbn [length] in *.
  pose proof (Hpos (tc, sz) ltac:(by left)) as Hs. cbn in Hs.
  assert (0 <= total (entries t')).
  { apply total_pos. intros e He. apply Z.lt_le_incl, Hpos. by right. }
  split_and!; [lia| |lia| |lia]; rewrite wrapu_id; unfold is_u; lia.
Qed.

Lemma entries_bound T s t : tree_ok T s t -> zlen (entries t) <= 2 ^ 61.
Proof.
  intros Ht. rewrite <- (length_fmap fst). apply chunk_addrs_bound; [by eapply entries_nodup|].
  apply Forall_forall. intros a ([b sz] & -> & (n & Hn & Ha & _)%entries_in)%list_elem_of_fmap.
  destruct Ht as [_ Hls _ _ _]. rewrite Forall_forall in Hls. destruct (Hls n Hn) as [_ _ _ _ Hs].
  by destruct (seg_elem _ _ _ _ _ _ Hs Ha).
Qed.

(** The book-keeping at the end of [removeChunkFromTree] *)
Lemma account_spec b only d0 d t t2 tc sz (Q : Z -> BinaryTreeDictionary -> Prop) :
  dict_inv d0 t -> tree_ok (nodes d) (chunks d) t2 -> all_live t2 -> Forall hint_ok (inorder t2) ->
  _root d = root_of t2 -> _totalSize d = _totalSize d0 -> _totalFreeBlocks d = _totalFreeBlocks d0 ->
  entries t ≡ₚ (tc, sz) :: entries t2 -> chunks d !! tc = Some (mkFreeChunk sz 1 NULL) ->
  (only = true -> t2 = Leaf) ->
  (forall d', dict_inv d' t2 -> chunks d' = chunks d -> nodes d' = nodes d -> _splay d' = _splay d -> Q tc d') ->
  wp (c ← on_chunks (chunk tc);
      d ← get;
      check (c_size c <=? _totalSize d) ;;
      set_totalSize (u64 (_totalSize d - c_size c)) ;;
      check (0 <? _totalFreeBlocks d) ;;
      set_totalFreeBlocks (u64 (_totalFreeBlocks d - 1)) ;;
      check ((prev c =? NULL) && (c_next c =? NULL)) ;;
      when b verifyTree ;;
      r ← root;
      check (negb only || (r =? NULL)) ;;
      mret tc) Q d.
Proof.
  intros Hinv Ht Hlv Hh Er Es Eb Ep Hc Honly HQ.
  pose proof (total_nonneg _ _ _ (di_ok _ _ Hinv)) as Hpos.
  pose proof (entries_bound _ _ _ (di_ok _ _ Hinv)) as Hlen.
  destruct (removed_totals _ _ _ _ Ep Hpos (di_bound _ _ Hinv) Hlen) as (H1 & H2 & H3 & H4 & H5).
  rewrite <- (di_size _ _ Hinv), <- Es in H1, H2. rewrite <- (di_blocks _ _ Hinv), <- Eb in H3, H4.
  apply wp_bind. eapply wp_read_chunk; [exact Hc|]. cbn [c_size c_next]. apply wp_bind, wp_get_dict.
  apply wp_bind, wp_check; [lia|]. apply wp_bind, wp_lift_. apply wp_bind, wp_check; [by apply Z.ltb_lt|].
  apply wp_bind, wp_lift_. apply wp_bind, wp_check; [done|]. cbn. rewrite H2, H4.
  set (d' := mkDictionary _ _ _ _ _ _). assert (dict_inv d' t2) as Hinv'.
  { unfold d'. split; cbn; try done. }
  apply wp_bind. eapply wp_debug_verify; [apply Hinv'|by apply inv_verifiable|].
  apply wp_bind, wp_root, wp_bind, wp_check; [|by apply wp_ret, HQ].
  destruct only; [|done]. cbn. by rewrite Er, Honly.
Qed.

Lemma inorder_nil t : inorder t = [] -> t = Leaf.
Proof. destruct t as [|l n r]; [done|]. cbn. by destruct (inorder l). Qed.

(** The root follows its node to another chunk. *)
Lemma wp_update_root d K l n n' r (Q : unit -> BinaryTreeDictionary -> Prop) :
  tree_links (nodes d) NULL (fill K (Node l n' r)) -> NoDup (addrs (fill K (Node l n r))) ->
  _root d = root_of (fill K (Node l n r)) ->
  Q tt (updr d (nodes d) (root_of (fill K (Node l n' r)))) ->
  wp (when (n_addr n =? _root d)
        (t ← tree_list (n_addr n'); check (_parent t =? NULL) ;; set_root (n_addr n'))) Q d.
Proof.
  intros Hl Hd Er HQ. apply wp_when.
  - intros E%Z.eqb_eq. rewrite Er in E. apply focus_not_root in E as ->; [|done].
    destruct Hl as (Hn & _). destruct (node_links_lookup _ _ _ _ _ Hn) as [x Hx].
    apply wp_bind. eapply wp_tree_list; [exact Hx|]. apply wp_bind, wp_check; [done|]. by apply wp_lift_.
  - intros E%Z.eqb_neq. replace d with (updr d (nodes d) (_root d)) by by destruct d.
    rewrite Er in *. destruct K as [|f K]; [done|]. by rewrite (root_of_fill _ _ (Node l n' r)).
Qed.

Lemma removed_intro d K l n r tc sz n' s' T' d2 t2 :
  tree_ok (nodes d) (chunks d) (fill K (Node l n r)) -> tc ∈ n_chunks n ->
  shrunk d K l n r tc n' s' T' -> n_size n = sz -> dict_inv d2 t2 -> chunks d2 = s' ->
  dom (nodes d2) = dom T' -> _splay d2 = _splay d ->
  entries (fill K (Node l n r)) ≡ₚ (tc, sz) :: entries t2 ->
  removed d (fill K (Node l n r)) tc sz d2 t2.
Proof.
  intros Ht Htc [_ _ _ _ Hrel Hc' Hdom] Esz Hinv <- Hn Hs Ee. rewrite Esz in Hc'. split; try done.
  - intros a Ha. apply Hrel. intros Hin. apply Ha. apply list_elem_of_fmap. exists (a, n_size n).
    split; [done|]. apply entries_in. exists n. split_and!; [|done..]. rewrite inorder_fill. cbn. set_solver.
  - by eapply relinked_dom.
  - by rewrite Hn.
Qed.

Lemma removeChunkFromTree_spec b d t tc sz (Q : Z -> BinaryTreeDictionary -> Prop) :
  dict_inv d t -> (tc, sz) ∈ entries t ->
  (forall d' t', removed d t tc sz d' t' -> Q tc d') -> wp (removeChunkFromTree b tc) Q d.
Proof.
  intros Hinv (n & Hn & Htc & Esz)%entries_in HQ. apply focus in Hn as (K & l & r & ->). pose proof (di_ok _ _ Hinv) as Ht.
  destruct (focus_facts _ _ _ _ _ Ht) as (Hn & Hl & _ & _).
  pose proof (di_live _ _ Hinv) as [El Hlv]%Forall_focus. pose proof (di_hints _ _ Hinv) as [Hh Hhs]%Forall_focus.
  destruct (seg_elem _ _ _ _ _ _ (lo_seg _ _ _ Hl) Htc) as (Hat & c & Hc & Hsz & Hf).
  apply chunk_addr_ptr in Hat as [_ Hat]. destruct (Hn) as (Ha & _). apply chunk_addr_ptr in Ha as [_ Ha].
  destruct (chunk_node _ _ _ _ _ _ Hn El Htc) as [e He].
  apply wp_bind, wp_check; [by apply negb_true_iff, Z.eqb_neq|]. apply wp_bind. eapply wp_read_chunk; [exact Hc|].
  apply wp_bind, wp_check; [done|]. apply wp_bind. eapply wp_tree_chunk; [exact He|]. cbn [_list]. cbv zeta.
  apply wp_bind. eapply removing_only_chunk_spec; [exact Ht|apply Hinv|done|done|]. intros only Honly.
  apply wp_bind, wp_check; [by apply negb_true_iff, Z.eqb_neq|].
  apply wp_bind. eapply wp_assert_linked; [apply Ht|]. apply wp_bind.
  eapply removeChunkReplaceIfNeeded_spec; [done..|]. intros n' s' T' Hsh.
  destruct (shrunk_facts _ _ _ _ _ _ _ _ _ Ht El Htc Hsh) as (Een & Hdead & Esz' & Hh').
  destruct (Hsh) as [Ht' Ech _ Hsub Hrel Hc' Hdom]. rewrite Esz in Hc', Een, Esz'.
  apply wp_bind. eapply wp_read_chunk; [exact Hc'|]. apply wp_bind, wp_check; [done|].
  apply wp_bind. eapply wp_assert_linked; [apply Ht'|]. apply wp_bind, wp_root.
  apply wp_bind. eapply (wp_update_root (upd d s' T')); [apply Ht'|apply Ht|apply Hinv|].
  apply wp_bind. eapply (check_replaced_spec _ K l n n' r); [exact Ht'| |exact Hc'|by rewrite Esz'|].
  { intros Hne. destruct (n_live n'); [done|]. by rewrite Hdead in Hne. }
  eapply (repair_spec _ _ K l n n' r); [exact Ht'| |done|by apply Hh'|done|done|].
  { split; [done|]. apply (inv_verifiable _ _ Hinv). }
  intros t2 T2 Ht2 Hlv2 Hh2 Hdom2 Ee2 Hin2.
  assert (entries (fill K (Node l n r)) ≡ₚ (tc, sz) :: entries t2) as Ee by by rewrite entries_focus, Een, Ee2.
  eapply account_spec; [exact Hinv|exact Ht2|done|done|done|done|done|exact Ee|exact Hc'| |].
  - intros E. destruct (Honly E) as (-> & -> & -> & E1). apply inorder_nil, Hin2.
    rewrite E1 in Ech. unfold n_chunks in Ech. destruct (n_live n'); [|done].
    rewrite filter_cons_False in Ech by naive_solver. done.
  - intros d2 Hinv2 Ec2 En2 Es2. apply (HQ d2 t2). eapply removed_intro; try done. by rewrite En2.
Qed.
