(* ===== verification/DictionaryInsertion.v ===== *)
(** * The dictionary of large free chunks: entering chunks and the constructor

    [insertChunkInTree], [as_TreeList] and the [reset] functions on well-formed
    dictionaries. *)

From S2P Require Import Prelude OsMemory FreeList BinaryTreeDictionary DictionaryTree DictionaryReads.
From S2P Require Import DictionaryUpdates DictionaryRemoval.

Open Scope Z_scope.
Open Scope hotspot_scope.
Import TreeLists Dictionary.

(** ** A chunk on its own *)

Definition alone (c : FreeChunk) : FreeChunk := mkFreeChunk (c_size c) 1 NULL.

(** The node of a new list *)
Definition new_list (a sz : Z) : FreeList := mkFreeList a a sz 1 0 stats_initialize.
Definition new_node (a sz : Z) : node := mkNode a (new_list a sz) [] true.

Lemma alone_idem c : alone (alone c) = alone c.
Proof. done. Qed.

(** Reset of both links, in either order *)
Lemma links_cleared (s : chunk_map) a c :
  s !! a = Some c ->
  alter (fun c => with_next c NULL) a (alter (fun c => with_prev c NULL) a s) = <[a := alone c]> s /\
  alter (fun c => with_prev c NULL) a (alter (fun c => with_next c NULL) a s) = <[a := alone c]> s.
Proof.
  intros Hc. rewrite !(alter_present _ a c s Hc).
  by rewrite !(alter_present _ a _ _ (lookup_insert_eq _ _ _)), !insert_insert_eq.
Qed.

Lemma new_list_of s a sz :
  chunk_addr a -> s !! a = Some (mkFreeChunk sz 1 NULL) -> list_of s (new_list a sz) [a].
Proof.
  intros Ha Hc. split; cbn; try done; [apply NoDup_singleton|]. split_and!; [done| |done].
  eexists. split; [exact Hc|]. by split_and!.
Qed.

Lemma alter_insert_same {A} (f : A -> A) i (x : A) (m : gmap Z A) : alter f i (<[i := x]> m) = <[i := f x]> m.
Proof. by rewrite (alter_present _ i x _ (lookup_insert_eq _ _ _)), insert_insert_eq. Qed.

Lemma as_TreeList_spec sizeof d tc c t (Q : Z -> BinaryTreeDictionary -> Prop) :
  chunk_addr tc -> chunks d !! tc = Some c -> sizeof <= c_size c -> nodes d !! tc = Some t ->
  Q tc (upd d (<[tc := alone c]> (chunks d))
          (<[tc := mkTreeChunk tc (mkTreeList (new_list tc (c_size c)) NULL NULL NULL)]> (nodes d))) ->
  wp (as_TreeList sizeof tc) Q d.
Proof.
  intros Ha Hc Hs Ht HQ. destruct (chunk_addr_ptr _ Ha) as [_ Hnn].
  apply wp_bind. eapply wp_read_chunk; [exact Hc|]. apply wp_bind, wp_check; [by apply Z.leb_le|].
  apply wp_bind. eapply wp_set_list; [exact Ht|]. rewrite (alter_present _ _ _ _ Ht).
  set (T1 := <[tc := t_list tc t]> (nodes d)). assert (forall x, <[tc := x]> T1 = <[tc := x]> (nodes d)) as HT1.
  { intros x. unfold T1. apply insert_insert_eq. }
  assert (T1 !! tc = Some (t_list tc t)) as H1 by apply lookup_insert_eq.
  apply wp_bind. eapply wp_free_list; [exact H1|]. apply wp_bind. eapply wp_of_option; [done|].
  apply wp_bind. eapply wp_set_free_list; [exact H1|]. cbn [nodes set_nodes]. rewrite (alter_present _ _ _ _ H1), HT1.
  apply wp_bind. eapply wp_on_list; [apply lookup_insert_eq|].
  eapply wp_link_head_new; [done|exact Hc|done|]. cbn [nodes upd set_nodes chunks]. rewrite alter_insert_same.
  apply wp_bind. eapply wp_on_list; [apply lookup_insert_eq|].
  eapply wp_link_tail_new; [done|cbn; by rewrite lookup_alter_eq, Hc|done|].
  cbn [nodes upd set_nodes chunks]. rewrite alter_insert_same, (proj1 (links_cleared _ _ _ Hc)).
  apply wp_bind. eapply wp_free_list; [apply lookup_insert_eq|].
  apply wp_bind. eapply wp_set_free_list; [apply lookup_insert_eq|]. cbn [nodes upd set_nodes chunks]. rewrite alter_insert_same.
  apply wp_bind. eapply wp_setParent; [apply lookup_insert_eq|]. cbn [nodes upd set_nodes chunks]. rewrite alter_insert_same.
  apply wp_bind. eapply wp_setLeft; [apply lookup_insert_eq|done|]. cbn [nodes upd set_nodes chunks]. unfold adopt at 1.
  change (NULL =? NULL) with true. cbv iota. rewrite alter_insert_same.
  apply wp_bind. eapply wp_setRight; [apply lookup_insert_eq|done|]. cbn [nodes upd set_nodes chunks]. unfold adopt at 1.
  change (NULL =? NULL) with true. cbv iota. rewrite alter_insert_same. apply wp_ret. exact HQ.
Qed.

(** ** A chunk for an existing list *)

Lemma live_addrs t : all_live t -> addrs t = (entries t).*1.
Proof.
  unfold all_live, addrs, entries. induction 1 as [|n ns El _ IH]; [done|].
  rewrite addrs_of_cons, entries_of_cons, fmap_app, <- IH. f_equal.
  unfold node_entries, n_chunks. rewrite El, <- list_fmap_compose. symmetry. apply list_fmap_id.
Qed.

Lemma wp_linkAfter_tail s sz l a c (Q : unit -> chunk_map -> Prop) :
  seg s sz NULL l NULL -> l <> [] -> a ∉ l -> a <> NULL -> s !! a = Some c ->
  Q tt (alter (fun c => with_prev c (final NULL l)) a (relink_next l a s)) ->
  wp (linkAfter (final NULL l) a) Q s.
Proof.
  intros Hs Hne Hal Ha Hc HQ. destruct (seg_final _ _ _ _ _ Hs Hne) as (_ & cf & Hcf & _).
  apply wp_bind. eapply wp_linkNext; [exact Hcf|]. rewrite <- relink_next_final by done.
  rewrite (proj2 (Z.eqb_neq _ _) Ha). eapply wp_linkPrev; [by rewrite relink_next_ne|done].
Qed.

(** The record of a list with one chunk more *)
Definition longer_list (fl : FreeList) (tc sz : Z) : FreeList :=
  FreeLists.increment_returnedBytes_by (FreeLists.increment_count (FreeLists.with_tail fl tc))
    (u64 (sz * HeapWordSize)).

Lemma longer_list_of s s' fl l tc :
  list_of s fl l -> l <> [] -> tc ∉ l -> seg s' (_size fl) NULL (l ++ [tc]) NULL ->
  list_of s' (longer_list fl tc (_size fl)) (l ++ [tc]) /\ kept fl (longer_list fl tc (_size fl)).
Proof.
  intros Hl Hne Htc Hs. pose proof (list_of_bound _ _ _ Hl) as Hb. destruct Hl as [Eh Et Ec Hd _].
  split; [|done]. split; cbn; [|by rewrite final_snoc| | |done].
  - rewrite Eh. by destruct l.
  - rewrite Ec, wraps_id; unfold is_s; rewrite ?length_app; cbn [length]; lia.
  - apply NoDup_app. split_and!; [done|set_solver|apply NoDup_singleton].
Qed.

Lemma wp_record_return d p tc c t (Q : unit -> BinaryTreeDictionary -> Prop) :
  chunks d !! tc = Some c -> nodes d !! p = Some t ->
  Q tt (set_nodes d (alter (t_base (FreeLists.increment_returnedBytes_by
          (FreeLists.increment_count (tl_list (_embedded_list t))) (u64 (c_size c * HeapWordSize)))) p (nodes d))) ->
  wp (record_return p tc) Q d.
Proof.
  intros Hc Ht HQ. apply wp_bind. eapply wp_read_chunk; [exact Hc|]. apply wp_bind.
  eapply wp_free_list; [exact Ht|]. by eapply wp_set_free_list.
Qed.

Lemma alter_base_twice fl fl' a (T : node_map) :
  alter (t_base fl') a (alter (t_base fl) a T) = alter (t_base fl') a T.
Proof.
  apply map_eq. intros x. destruct (decide (a = x)) as [<-|].
  - rewrite !lookup_alter_eq. by destruct (T !! a).
  - by rewrite !lookup_alter_ne.
Qed.

Lemma append_chunk_spec d n p lc rc tc c e (Q : unit -> BinaryTreeDictionary -> Prop) :
  node_links (nodes d) n p lc rc -> list_of (chunks d) (n_list n) (n_chunks n) -> n_live n = true ->
  chunk_addr tc -> tc ∉ node_addrs n -> chunks d !! tc = Some c -> c_size c = n_size n ->
  nodes d !! tc = Some (mkTreeChunk (n_addr n) e) ->
  (forall s', let fl' := longer_list (n_list n) tc (n_size n) in
     list_of s' fl' (n_chunks n ++ [tc]) -> relinked (tc :: n_chunks n) (chunks d) s' ->
     Q tt (upd d s' (alter (t_base fl') (n_addr n) (nodes d)))) ->
  wp (returnChunkAtTail (n_addr n) tc) Q d.
Proof.
  intros Hn Hl El Hat Htc Hc Hsz He HQ. destruct (chunk_addr_ptr _ Hat) as [_ Hnn].
  destruct (node_links_lookup _ _ _ _ _ Hn) as [x Hx].
  assert (n_chunks n = n_addr n :: n_rest n) as Ec by (unfold n_chunks; by rewrite El).
  assert (tc ∉ n_chunks n) as Htc' by by rewrite Ec. assert (n_chunks n <> []) as Hne by by rewrite Ec.
  destruct (Hl) as [Eh Et Ect Hd Hs]. destruct (seg_final _ _ _ _ _ Hs Hne) as (Hfn & _).
  apply wp_bind, wp_check; [by apply negb_true_iff, Z.eqb_neq|]. apply wp_bind. eapply wp_tree_chunk; [exact He|].
  apply wp_bind, wp_check; [apply Z.eqb_refl|]. apply wp_bind. eapply wp_free_list; [exact Hx|].
  cbn [_embedded_list tl_list]. rewrite Et. apply wp_bind, wp_check; [by apply negb_true_iff, Z.eqb_neq|].
  apply wp_bind, wp_bind. eapply wp_free_list; [exact Hx|]. apply wp_on_chunks.
  eapply verifyChunkInFreeLists_spec; [exact Hl|exact Hc|done|]. rewrite set_chunks_id.
  apply wp_bind, wp_check; [by rewrite bool_decide_eq_false_2|].
  apply wp_bind. eapply wp_assert_list; [exact Hx|exact Hl|].
  apply wp_bind, wp_on_chunks. eapply wp_linkAfter_tail; [done..|].
  apply wp_bind. eapply wp_on_list; [exact Hx|].
  eapply (wp_link_tail_new _ _ _ (with_prev c (final NULL (n_chunks n)))); [done| |done|].
  { cbn. by rewrite lookup_alter_eq, relink_next_ne, Hc. }
  pose proof (seg_snoc _ _ _ _ _ Hs Hd Htc' Hat Hc Hsz) as Hs'. cbn [chunks set_chunks nodes tl_list _embedded_list].
  set (s' := alter _ tc _) in *. destruct (longer_list_of _ s' _ _ _ Hl Hne Htc' Hs') as [Hl' _].
  assert (relinked (tc :: n_chunks n) (chunks d) s') as Hrel by (unfold s'; relink).
  eapply relinked_size in Hc as Hc'; [|exact Hrel]. destruct Hc' as (c' & Hc' & Ec').
  set (T1 := alter (t_base (FreeLists.with_tail (n_list n) tc)) (n_addr n) (nodes d)).
  assert (T1 !! n_addr n = Some (mkTreeChunk x (mkTreeList (FreeLists.with_tail (n_list n) tc) p lc rc))) as H1.
  { unfold T1. by rewrite lookup_alter_eq, Hx. }
  apply wp_bind. eapply wp_free_list; [exact H1|]. apply wp_bind, wp_read_assert_chunk.
  { intros _. exists c'. split; [exact Hc'|]. cbn. apply Z.eqb_eq. by rewrite Ec', Hsz. }
  apply wp_bind. eapply wp_record_return; [exact Hc'|exact H1|]. rewrite Ec', Hsz.
  eapply wp_assert_list; [cbn [nodes upd set_nodes]; by rewrite lookup_alter_eq, H1|exact Hl'|]. cbn [nodes upd set_nodes chunks].
  specialize (HQ s' Hl' Hrel). unfold T1. rewrite alter_base_twice. exact HQ.
Qed.

(** ** Trees with a chunk more *)

Lemma tree_ok_frame T T' s s' t :
  tree_ok T s t -> (forall a, a ∈ addrs t -> T' !! a = T !! a) -> (forall a, a ∈ addrs t -> s' !! a = s !! a) ->
  tree_ok T' s' t.
Proof.
  intros [Hl Hls Hd Hst Hsz] HT Hs. split; try done; [by eapply tree_links_frame|].
  rewrite Forall_forall in Hls |- *. intros m Hm. eapply list_of_frame; [|by apply Hls].
  intros a Ha%chunks_addrs. apply Hs. by eapply node_addrs_in.
Qed.

Lemma inorder_hole K t a : a ∈ addrs (fill K t) <-> a ∈ addrs t \/ a ∈ ctx_addrs K.
Proof. by rewrite addrs_fill, elem_of_app. Qed.

(** A new node in a hole of the tree *)
Lemma tree_ok_new T T' s s' K m :
  tree_ok T s (fill K Leaf) -> tree_links T' NULL (fill K (Node Leaf m Leaf)) ->
  (forall a, a ∈ ctx_addrs K -> s' !! a = s !! a) -> list_of s' (n_list m) (n_chunks m) ->
  NoDup (node_addrs m) -> (forall a, a ∈ node_addrs m -> a ∉ ctx_addrs K) ->
  (forall x, x ∈ before K -> n_size x < n_size m) -> (forall x, x ∈ after K -> n_size m < n_size x) ->
  0 < n_size m < 2 ^ 64 -> tree_ok T' s' (fill K (Node Leaf m Leaf)).
Proof.
  intros [_ Hls Hd Hst Hsz] Hl' Hs Hm Hdm Hdis Hb Ha Hszm. rewrite inorder_fill in Hls, Hst, Hsz. cbn in Hls, Hst, Hsz.
  split; [done|..]; rewrite ?inorder_fill; cbn [inorder app].
  - apply Forall_app in Hls as [H1 H2]. rewrite Forall_forall in H1, H2.
    apply Forall_app. split; [|apply Forall_cons; split; [done|]]; apply Forall_forall; intros x Hx;
      (eapply list_of_frame; [|by auto]); intros a Hax%chunks_addrs; apply Hs, elem_of_app;
      [left|right]; by eapply others_addrs.
  - rewrite addrs_fill, addrs_node. change (addrs Leaf) with (@nil Z). rewrite app_nil_r. cbn [app].
    rewrite addrs_fill in Hd. by apply NoDup_app.
  - rewrite fmap_app in Hst |- *. rewrite fmap_cons. apply StronglySorted_app in Hst as (Hba & H1 & H2).
    assert (forall y, y ∈ n_size <$> after K -> n_size m < y) as Hafter.
    { intros y (x & -> & Hx)%list_elem_of_fmap. by apply Ha. }
    apply StronglySorted_app. split_and!; [|done|].
    + intros x1 x2 (y & -> & Hy)%list_elem_of_fmap [->|Hx2]%elem_of_cons; [by apply Hb|].
      apply (Hba (n_size y)); [by apply list_elem_of_fmap_2|done].
    + apply StronglySorted_cons. split; [by apply Forall_forall|done].
  - apply Forall_app in Hsz as [H1 H2]. apply Forall_app. split; [done|]. by apply Forall_cons.
Qed.

Lemma wp_initialize d tc t (Q : unit -> BinaryTreeDictionary -> Prop) :
  nodes d !! tc = Some t ->
  Q tt (set_nodes d (<[tc := mkTreeChunk (_list t) (mkTreeList (tl_list (_embedded_list t)) NULL NULL NULL)]> (nodes d))) ->
  wp (initialize tc) Q d.
Proof.
  intros Ht HQ. apply wp_bind. eapply wp_clearLeft; [exact Ht|]. rewrite (alter_present _ _ _ _ Ht).
  apply wp_bind. eapply wp_clearRight; [apply lookup_insert_eq|]. cbn [nodes set_nodes]. rewrite alter_insert_same.
  eapply wp_setParent; [apply lookup_insert_eq|]. cbn [nodes set_nodes]. rewrite alter_insert_same. exact HQ.
Qed.

(** The tree has the chunk, the totals have not. *)
Record entered (d : BinaryTreeDictionary) (t : tree) (tc sz : Z) (d' : BinaryTreeDictionary) (t' : tree) : Prop := {
  en_ok : tree_ok (nodes d') (chunks d') t';
  en_live : all_live t';
  en_hints : Forall hint_ok (inorder t');
  en_root : _root d' = root_of t';
  en_entries : entries t' ≡ₚ (tc, sz) :: entries t;
  en_list : exists x, nodes d' !! tc = Some x /\ _list x <> NULL;
  en_frame : forall a, a <> tc -> a ∉ (entries t).*1 -> chunks d' !! a = chunks d !! a;
  en_chunks : dom (chunks d') = dom (chunks d);
  en_nodes : dom (nodes d') = dom (nodes d);
  en_same : _splay d' = _splay d /\ _totalSize d' = _totalSize d /\ _totalFreeBlocks d' = _totalFreeBlocks d
}.

Definition longer_node (n : node) (tc : Z) : node :=
  mkNode (n_addr n) (longer_list (n_list n) tc (n_size n)) (n_rest n ++ [tc]) true.

Lemma longer_node_entries n tc : n_live n = true -> node_entries (longer_node n tc) = node_entries n ++ [(tc, n_size n)].
Proof. intros El. unfold node_entries, n_chunks. cbn. by rewrite El, fmap_app. Qed.

Lemma longer_node_links T n p lc rc tc fl :
  node_links T n p lc rc -> n_live n = true -> NoDup (node_addrs n) -> tc ∉ node_addrs n ->
  T !! tc = Some (mkTreeChunk (n_addr n) (mkTreeList fl NULL NULL NULL)) ->
  node_links (alter (t_base (n_list (longer_node n tc))) (n_addr n) T) (longer_node n tc) p lc rc.
Proof.
  intros (Ha & (x & Hx & Hl) & Hr) El [Hna _]%NoDup_cons Htc Ht. split_and!; [done| |].
  - exists x. cbn [n_addr longer_node]. rewrite lookup_alter_eq, Hx. split; [done|]. intros _. by apply Hl.
  - cbn [n_rest n_addr longer_node]. apply Forall_app. split; [|apply Forall_singleton; exists fl].
    + rewrite Forall_forall in Hr |- *. intros b Hb. destruct (Hr b Hb) as [fb Hfb]. exists fb.
      rewrite lookup_alter_ne; [done|]. by intros <-.
    + rewrite lookup_alter_ne; [done|]. intros <-. apply Htc. by left.
Qed.

Lemma into_list_links T K l n r tc x fl (T1 := alter (t_list (n_addr n)) tc T) :
  tree_links T NULL (fill K (Node l n r)) -> NoDup (addrs (fill K (Node l n r))) -> n_live n = true ->
  tc ∉ addrs (fill K (Node l n r)) -> T !! tc = Some (mkTreeChunk x (mkTreeList fl NULL NULL NULL)) ->
  tree_links (alter (t_base (n_list (longer_node n tc))) (n_addr n) T1) NULL (fill K (Node l (longer_node n tc) r)).
Proof.
  intros Hl Hd El Htc Hx. pose proof (proj1 (focus_separate _ _ _ _) Hd) as Hsep.
  rewrite addrs_focus in Hd, Htc. apply NoDup_app in Hd as (Hdn & Hdis & _). apply not_elem_of_app in Htc as [Htn Hto].
  eapply tree_links_node; [exact Hl|done| |].
  - intros a Ha. rewrite lookup_alter_ne; [unfold T1; apply lookup_alter_ne|]; intros <-; [done|].
    apply (Hdis (n_addr n)); [by left|done].
  - apply tree_links_fill in Hl as (_ & Hn & _). eapply longer_node_links; [|done..|].
    + eapply node_links_frame; [|exact Hn]. intros a Ha. apply lookup_alter_ne. by intros <-.
    + unfold T1. by rewrite lookup_alter_eq, Hx.
Qed.

Lemma into_list_spec d K l n r tc c x fl (t := fill K (Node l n r)) (Q : unit -> BinaryTreeDictionary -> Prop) :
  tree_ok (nodes d) (chunks d) t -> all_live t -> Forall hint_ok (inorder t) -> _root d = root_of t ->
  chunk_addr tc -> tc ∉ addrs t -> chunks d !! tc = Some c -> c_size c = n_size n ->
  nodes d !! tc = Some (mkTreeChunk x (mkTreeList fl NULL NULL NULL)) ->
  (forall d' t', entered d t tc (n_size n) d' t' -> Q tt d') ->
  wp (set_list tc (n_addr n) ;; returnChunkAtTail (n_addr n) tc) Q d.
Proof.
  intros Ht Hlv Hh Er Hat Htc Hc Hsz Hx HQ. destruct (focus_facts _ _ _ _ _ Ht) as (Hn & Hl & Hdn & Hdis).
  pose proof (Hlv) as [El Hlo]%Forall_focus. pose proof (Hh) as [Hhn Hho]%Forall_focus.
  pose proof (into_list_links _ _ _ _ _ _ _ _ (tk_links _ _ _ Ht) (tk_nodup _ _ _ Ht) El Htc Hx) as Hl'.
  assert ((tc ∉ node_addrs n) /\ tc ∉ addrs_of (others K l r)) as [Htn Hto].
  { unfold t in Htc. by rewrite addrs_focus, not_elem_of_app in Htc. }
  assert (n_chunks n = node_addrs n) as Ech by (unfold n_chunks; by rewrite El).
  apply wp_bind. eapply wp_set_list; [exact Hx|].
  eapply append_chunk_spec; [|exact Hl|done|done|done|exact Hc|done|cbn; by rewrite lookup_alter_eq, Hx|].
  { eapply node_links_frame; [|exact Hn]. intros a Ha. apply lookup_alter_ne. by intros <-. }
  intros s' fl' Hl2 Hrel. cbn [nodes set_nodes]. apply (HQ _ (fill K (Node l (longer_node n tc) r))).
  destruct (Hn) as (Ha & _). apply chunk_addr_ptr in Ha as [_ Ha]. rewrite Ech in Hl2, Hrel. split; cbn.
  - eapply tree_ok_update; [exact Ht|exact Hl'| |exact Hl2| | |done].
    + intros a Hao. apply Hrel. intros [->|Han]%elem_of_cons; [done|]. by apply (Hdis a).
    + change (node_addrs (longer_node n tc)) with (node_addrs n ++ [tc]). set_solver.
    + change (node_addrs (longer_node n tc)) with (node_addrs n ++ [tc]).
      apply NoDup_app. split_and!; [done|set_solver|apply NoDup_singleton].
  - by apply Forall_focus.
  - by apply Forall_focus.
  - rewrite Er. by apply root_of_node.
  - unfold t. rewrite !entries_focus, (longer_node_entries _ _ El). by rewrite <- app_assoc, Permutation_middle.
  - rewrite lookup_alter_ne by (intros <-; apply Htn; by left). rewrite lookup_alter_eq, Hx. by eexists.
  - intros a Hna Hae. apply Hrel. intros [->|Han]%elem_of_cons; [done|]. apply Hae. rewrite <- live_addrs by done.
    unfold t. rewrite addrs_focus. set_solver.
  - by eapply relinked_dom.
  - by rewrite !dom_alter_node.
  - done.
Qed.

(** ** A chunk of a new size *)

Lemma wp_enter_hole d K m q (sz := n_size m) (Q : unit -> BinaryTreeDictionary -> Prop) :
  ctx_links (nodes d) K NULL -> tree_links (nodes d) NULL (Node Leaf m Leaf) ->
  NoDup (node_addrs m ++ ctx_addrs K) -> _root d = root_of (fill K Leaf) ->
  (forall x, x ∈ before K -> n_size x < sz) -> (forall x, x ∈ after K -> sz < n_size x) ->
  (forall T', tree_links T' NULL (fill K (Node Leaf m Leaf)) -> dom T' = dom (nodes d) ->
     Q tt (updr d T' (root_of (fill K (Node Leaf m Leaf))))) ->
  q = parent_of K ->
  wp (if q =? NULL then r ← root; check (r =? NULL) ;; set_root (n_addr m)
      else
        ptl ← tree_list q;
        if _size (tl_list ptl) <? sz
        then check (_right ptl =? NULL) ;; setRight q (n_addr m)
        else check ((sz <? _size (tl_list ptl)) && (_left ptl =? NULL)) ;; setLeft q (n_addr m)) Q d.
Proof.
  intros HK Hm Hd Er Hb Ha HQ ->. destruct K as [|f K].
  { apply wp_bind, wp_root, wp_bind, wp_check; [by rewrite Er|]. apply wp_lift_. by apply HQ. }
  pose proof (fill_hole _ f K _ NULL (Node Leaf m Leaf) HK Hm) as Hfill. rewrite addrs_node in Hfill.
  change (addrs Leaf) with (@nil Z) in Hfill. rewrite app_nil_r in Hfill. cbn [app root_of] in Hfill.
  specialize (Hfill Hd). specialize (HQ _ Hfill). rewrite (root_of_fill (f :: K) _ Leaf), <- Er in HQ by done.
  destruct (root_present _ _ _ Hm) as [y Hy]; [by destruct Hm as ((Hma & _) & _); apply chunk_addr_ptr in Hma as []|].
  assert (exists x lc rc, nodes d !! parent_of (f :: K) =
    Some (mkTreeChunk x (mkTreeList (n_list (frame_node f)) (parent_of K) lc rc)) /\ parent_of (f :: K) <> NULL /\
    match f with FL _ _ => lc = NULL | FR _ _ => rc = NULL end) as (x & lc & rc & Hx & Hp & Hn).
  { destruct f as [n r|l n]; destruct HK as (Hn & _); destruct (node_links_lookup _ _ _ _ _ Hn) as [x Hx];
      destruct Hn as (Hna & _); apply chunk_addr_ptr in Hna as [_ Hna]; cbn in *; eauto 8. }
  rewrite (proj2 (Z.eqb_neq _ _) Hp). apply wp_bind. eapply wp_tree_list; [exact Hx|]. cbn [_embedded_list tl_list _left _right].
  fold (n_size (frame_node f)). destruct f as [n r|l n]; cbn [frame_node] in *; subst.
  - assert (sz < n_size n) as Hlt by (apply Ha; by left). rewrite (proj2 (Z.ltb_ge _ _)) by lia.
    apply wp_bind, wp_check; [by rewrite (proj2 (Z.ltb_lt _ _))|]. eapply wp_setLeft; [exact Hx|intros _; by exists y|].
    apply HQ. unfold hole_update. by rewrite dom_adopt, dom_alter_node.
  - assert (n_size n < sz) as Hlt by (apply Hb; cbn; set_solver). rewrite (proj2 (Z.ltb_lt _ _)) by lia.
    apply wp_bind, wp_check; [done|]. eapply wp_setRight; [exact Hx|intros _; by exists y|].
    apply HQ. unfold hole_update. by rewrite dom_adopt, dom_alter_node.
Qed.

(** [clearNext] and [linkPrev(NULL)] *)
Lemma wp_clear_chunk d tc c {B} (k : dm B) (Q : B -> BinaryTreeDictionary -> Prop) :
  chunks d !! tc = Some c -> wp k Q (set_chunks d (<[tc := alone c]> (chunks d))) ->
  wp (on_chunks (clearNext tc) ;; on_chunks (linkPrev tc NULL) ;; k) Q d.
Proof.
  intros Hc HQ. apply wp_bind, wp_on_chunks. eapply wp_linkNext; [exact Hc|].
  apply wp_bind, wp_on_chunks. eapply wp_linkPrev; [cbn; by rewrite lookup_alter_eq, Hc|].
  cbn [chunks set_chunks]. by rewrite (proj2 (links_cleared _ _ _ Hc)).
Qed.

Lemma insert_node_spec sizeof d K tc c x (t := fill K Leaf) (Q : unit -> BinaryTreeDictionary -> Prop) :
  tree_ok (nodes d) (chunks d) t -> all_live t -> Forall hint_ok (inorder t) -> _root d = root_of t ->
  chunk_addr tc -> tc ∉ addrs t -> chunks d !! tc = Some c -> sizeof <= c_size c -> 0 < c_size c < 2 ^ 64 ->
  nodes d !! tc = Some x ->
  (forall y, y ∈ before K -> n_size y < c_size c) -> (forall y, y ∈ after K -> c_size c < n_size y) ->
  (forall d' t', entered d t tc (c_size c) d' t' -> Q tt d') ->
  wp (insert_node sizeof (c_size c) (parent_of K) tc) Q d.
Proof.
  intros Ht Hlv Hh Er Hat Htc Hc Hsz Hb Hx Hbf Haf HQ. pose proof (chunk_addr_ptr _ Hat) as [_ Hnn].
  eapply wp_clear_chunk; [exact Hc|]. apply wp_bind.
  eapply as_TreeList_spec; [done|apply lookup_insert_eq|done|exact Hx|]. cbn [chunks set_chunks nodes c_size alone].
  rewrite insert_insert_eq. set (m := new_node tc (c_size c)). set (T1 := <[tc := _]> (nodes d)).
  assert (T1 !! tc = Some (mkTreeChunk tc (mkTreeList (new_list tc (c_size c)) NULL NULL NULL))) as H1 by apply lookup_insert_eq.
  apply wp_bind. eapply wp_tree_chunk; [exact H1|]. apply wp_bind, wp_check; [apply Z.eqb_refl|].
  assert (forall a, a ∈ ctx_addrs K -> a <> tc) as Hne.
  { intros a Ha ->. apply Htc. unfold t. rewrite inorder_hole. by right. }
  assert (NoDup (node_addrs m ++ ctx_addrs K)) as Hd.
  { pose proof (tk_nodup _ _ _ Ht) as Hd. unfold t in Hd. rewrite addrs_fill in Hd. cbn in Hd |- *.
    apply NoDup_cons. split; [|done]. intros Hin. by apply (Hne tc). }
  apply (wp_enter_hole _ K m); try done.
  - pose proof (tk_links _ _ _ Ht) as [HK _]%tree_links_fill. eapply ctx_links_frame; [|exact HK].
    intros a Ha. apply lookup_insert_ne. by apply not_eq_sym, Hne.
  - split; [|by split]. split; [done|]. split; [by exists tc|done].
  - intros T' Hl' Hdom. apply (HQ _ (fill K (Node Leaf m Leaf))). apply NoDup_app in Hd as (Hdm & Hdis & _).
    assert (inorder t = before K ++ after K) as Et by (unfold t; by rewrite inorder_fill).
    split; cbn.
    + eapply tree_ok_new; [exact Ht|exact Hl'| | |done|done|done|done|done].
      * intros a Ha. apply lookup_insert_ne. by apply not_eq_sym, Hne.
      * apply new_list_of; [done|]. by rewrite lookup_insert_eq.
    + unfold all_live. unfold all_live in Hlv. rewrite Et in Hlv. rewrite inorder_fill. cbn.
      apply Forall_app in Hlv as []. apply Forall_app. split; [done|]. by apply Forall_cons.
    + rewrite Et in Hh. rewrite inorder_fill. cbn. apply Forall_app in Hh as []. apply Forall_app.
      split; [done|]. apply Forall_cons. split; [by left|done].
    + done.
    + unfold entries. rewrite Et, inorder_fill. cbn. rewrite !entries_of_app, entries_of_cons. cbn. by rewrite Permutation_middle.
    + apply tree_links_fill in Hl' as (_ & (_ & (y & Hy & Hlist) & _) & _). exists (mkTreeChunk y (mkTreeList (n_list m) (parent_of K) NULL NULL)).
      split; [exact Hy|]. cbn. by rewrite Hlist.
    + intros a Ha _. by apply lookup_insert_ne.
    + apply dom_insert_lookup_L. by exists c.
    + rewrite Hdom. cbn. apply dom_insert_lookup_L. by exists x.
    + done.
Qed.

(** ** [insertChunkInTree] *)

Lemma node_total n : total (node_entries n) = list_total n.
Proof.
  unfold node_entries, list_total. induction (n_chunks n) as [|a l IH]; [cbn; lia|].
  rewrite fmap_cons. change (n_size n + total ((fun a => (a, n_size n)) <$> l) = n_size n * zlen (a :: l)).
  rewrite IH. cbn [length]. lia.
Qed.

Lemma tree_sum_total t : tree_sum list_total t = total (entries t).
Proof.
  induction t as [|l IHl n r IHr]; [done|]. cbn [tree_sum]. unfold entries in *. cbn [inorder].
  rewrite entries_of_app, entries_of_cons, !entries_total_app, <- node_total, <- IHl, <- IHr. lia.
Qed.

(** A well-formed dictionary that has the chunk *)
Record inserted (d : BinaryTreeDictionary) (t : tree) (tc sz : Z) (d' : BinaryTreeDictionary) (t' : tree) : Prop := {
  ins_inv : dict_inv d' t';
  ins_entries : entries t' ≡ₚ (tc, sz) :: entries t;
  ins_frame : forall a, a <> tc -> a ∉ (entries t).*1 -> chunks d' !! a = chunks d !! a;
  ins_chunks : dom (chunks d') = dom (chunks d);
  ins_nodes : dom (nodes d') = dom (nodes d);
  ins_splay : _splay d' = _splay d
}.

Lemma account_entry_spec b d d1 t tc sz t' (Q : unit -> BinaryTreeDictionary -> Prop) :
  dict_inv d t -> entered d t tc sz d1 t' -> 0 <= sz -> total (entries t) + sz < 2 ^ 64 ->
  (forall d', inserted d t tc sz d' t' -> Q tt d') ->
  wp (t ← tree_chunk tc;
      check (negb (_list t =? NULL)) ;;
      d ← get;
      set_totalSize (u64 (_totalSize d + sz)) ;;
      when b (d ← get; n ← totalSizeInTree (_root d); check (n =? _totalSize d)) ;;
      set_totalFreeBlocks (u64 (_totalFreeBlocks d + 1)) ;;
      when b verifyTree) Q d1.
Proof.
  intros Hinv [Hok Hlv Hh Er Ee (x & Hx & Hxn) Hfr Hdc Hdn (E1 & E2 & E3)] Hsz Hb HQ.
  pose proof (total_perm _ _ Ee) as Etot. cbn in Etot. fold (total (entries t)) in Etot.
  pose proof (Permutation_length Ee) as Elen. cbn in Elen.
  pose proof (entries_bound _ _ _ Hok) as Hbl. destruct (Hinv) as [_ _ _ _ Es Ebl Hbt].
  assert (0 <= total (entries t)) as H0.
  { apply total_pos. intros e He. apply (total_nonneg _ _ _ (di_ok _ _ Hinv)) in He. lia. }
  apply wp_bind. eapply wp_tree_chunk; [exact Hx|]. apply wp_bind, wp_check; [by apply negb_true_iff, Z.eqb_neq|].
  apply wp_bind, wp_get_dict. apply wp_bind, wp_lift_. rewrite E2, E3, Es, Ebl.
  rewrite (wrapu_id _ (_ + sz)), (wrapu_id _ (_ + 1)) by (unfold is_u; lia).
  apply wp_bind, wp_when.
  2: intros _; set (dt := mkDictionary _ _ _ _ _ _).
  1: intros _; apply wp_bind, wp_get_dict, wp_bind; cbn [_root]; rewrite Er; eapply totalSizeInTree_spec; [exact Hok|].
  1: rewrite tree_sum_total, Etot, Z.add_comm, wrapu_id by (unfold is_u; lia).
  1: apply wp_check; [apply Z.eqb_refl|]; set (dt := mkDictionary _ _ _ _ _ _).
  all: apply wp_bind, wp_lift_; set (d' := mkDictionary _ _ _ _ _ _).
  all: assert (dict_inv d' t') as Hinv' by (split; cbn; (done || lia)).
  all: eapply wp_debug_verify; [apply Hinv'|by apply inv_verifiable|apply HQ; by split].
Qed.

(** What a chunk needs to be entered *)
Record enterable (sizeof : Z) (d : BinaryTreeDictionary) (t : tree) (tc : Z) (c : FreeChunk) : Prop := {
  eb_addr : chunk_addr tc;
  eb_new : tc ∉ (entries t).*1;
  eb_chunk : chunks d !! tc = Some c;
  eb_node : is_Some (nodes d !! tc);
  eb_min : sizeof / HeapWordSize <= c_size c;
  eb_size : sizeof <= c_size c;
  eb_pos : 0 < c_size c;
  eb_total : total (entries t) + c_size c < 2 ^ 64
}.

Lemma cleared_dict d t tc c x :
  dict_inv d t -> tc ∉ addrs t ->
  tree_ok (<[tc := x]> (nodes d)) (<[tc := c]> (chunks d)) t.
Proof.
  intros Hinv Htc. eapply tree_ok_frame; [apply Hinv|..]; intros a Ha; apply lookup_insert_ne; by intros <-.
Qed.

(** The chunk as [insertChunkInTree] finds it when it has cleared its fields *)
Definition cleared (d : BinaryTreeDictionary) (tc : Z) (c : FreeChunk) (x : TreeChunk) : BinaryTreeDictionary :=
  upd d (<[tc := alone c]> (chunks d))
    (<[tc := mkTreeChunk (_list x) (mkTreeList (tl_list (_embedded_list x)) NULL NULL NULL)]> (nodes d)).

Lemma entered_cleared d t tc c x sz d' t' :
  chunks d !! tc = Some c -> nodes d !! tc = Some x ->
  entered (cleared d tc c x) t tc sz d' t' -> entered d t tc sz d' t'.
Proof.
  intros Hc Hx [H1 H2 H3 H4 H5 H6 H7 H8 H9 H10]. split; try done.
  - intros a Ha Hn. rewrite H7 by done. by apply lookup_insert_ne.
  - rewrite H8. apply dom_insert_lookup_L. by exists c.
  - rewrite H9. apply dom_insert_lookup_L. by exists x.
Qed.

Lemma insertChunkInTree_spec sizeof b d t tc c (Q : unit -> BinaryTreeDictionary -> Prop) :
  dict_inv d t -> enterable sizeof d t tc c ->
  (forall d' t', inserted d t tc (c_size c) d' t' -> Q tt d') -> wp (insertChunkInTree sizeof b tc) Q d.
Proof.
  intros Hinv [Hat Hnew Hc [x Hx] Hmin Hsz Hpos Htot] HQ. pose proof (di_ok _ _ Hinv) as Ht.
  assert (0 <= total (entries t)) as H0.
  { apply total_pos. intros e He. apply (total_nonneg _ _ _ Ht) in He. lia. }
  rewrite <- live_addrs in Hnew by apply Hinv.
  apply wp_bind. eapply wp_read_chunk; [exact Hc|]. cbv zeta. apply wp_bind, wp_check; [by apply Z.leb_le|].
  apply wp_bind. eapply wp_debug_verify; [exact Ht|by apply inv_verifiable|].
  eapply wp_clear_chunk; [exact Hc|]. apply wp_bind, wp_root, wp_bind. cbn [_root set_chunks].
  assert (forall d1 t', entered (cleared d tc c x) t tc (c_size c) d1 t' ->
    wp (t ← tree_chunk tc;
        check (negb (_list t =? NULL)) ;;
        d ← get;
        set_totalSize (u64 (_totalSize d + c_size c)) ;;
        when b (d ← get; n ← totalSizeInTree (_root d); check (n =? _totalSize d)) ;;
        set_totalFreeBlocks (u64 (_totalFreeBlocks d + 1)) ;;
        when b verifyTree) Q d1) as Hk.
  { intros d1 t' He. eapply account_entry_spec; [exact Hinv|by eapply entered_cleared|lia|done|].
    intros d' Hi. by eapply HQ. }
  assert (tree_ok (nodes d) (<[tc := alone c]> (chunks d)) t) as Ht1.
  { eapply tree_ok_frame; [exact Ht|done|]. intros a Ha. apply lookup_insert_ne. by intros <-. }
  pose proof (cleared_dict d t tc (alone c) (mkTreeChunk (_list x) (mkTreeList (tl_list (_embedded_list x)) NULL NULL NULL))
    Hinv Hnew) as Ht2.
  rewrite (di_root _ _ Hinv). apply wp_tree_looping.
  eapply (insertion_loop_spec _ NULL t []); [by apply tree_ok_sub|by eapply height_fuel|by intros ->|by intros m ?%elem_of_nil..|].
  split; cbn [fill]; [intros K l n r p <- Esz|intros K <- Hbf Haf]; apply wp_bind; eapply wp_initialize; try exact Hx;
    fold (cleared d tc c x).
  - apply wp_bind. pose proof (tk_links _ _ _ Ht) as (_ & (Ha & _) & _)%tree_links_fill.
    apply chunk_addr_ptr in Ha as [_ Ha]. rewrite (proj2 (Z.eqb_neq _ _) Ha).
    eapply (into_list_spec (cleared d tc c x) K l n r tc (alone c));
      [exact Ht2|apply Hinv|apply Hinv|apply Hinv|done|done|apply lookup_insert_eq|done|apply lookup_insert_eq|].
    rewrite Esz. apply Hk.
  - apply wp_bind. cbn [negb]. change (NULL =? NULL) with true. cbn [negb].
    eapply (insert_node_spec sizeof (cleared d tc c x) K tc (alone c));
      [exact Ht2|apply Hinv|apply Hinv|apply Hinv|done|done|apply lookup_insert_eq|done|cbn; lia|apply lookup_insert_eq|done|done|].
    apply Hk.
Qed.

(** ** Construction *)

(** The header that a new region must have *)
Definition untouched (Zap : bool) (is_mangled : Z -> bool) (c : FreeChunk) : bool :=
  (Zap && is_mangled (c_size c) && is_mangled (c_prev c) && is_mangled (c_next c)) ||
  ((c_size c =? 0) && (prev c =? NULL) && (c_next c =? NULL)).

Definition single (start ws : Z) : tree := Node Leaf (new_node start ws) Leaf.

Lemma single_inv T s start ws b :
  chunk_addr start -> 0 < ws < 2 ^ 64 -> s !! start = Some (mkFreeChunk ws 1 NULL) ->
  T !! start = Some (mkTreeChunk start (mkTreeList (new_list start ws) NULL NULL NULL)) ->
  dict_inv (mkDictionary s T b ws 1 start) (single start ws).
Proof.
  intros Ha Hws Hc Hx. split; try done; cbn.
  - split; cbn.
    + split_and!; [|done..]. split_and!; [done|by exists start|done].
    + apply Forall_singleton. by apply new_list_of.
    + apply NoDup_singleton.
    + repeat constructor.
    + by apply Forall_singleton.
  - by apply Forall_singleton.
  - apply Forall_singleton. by left.
  - lia.
  - lia.
Qed.

Lemma reset_region_spec sizeof Zap mg d start ws c x (Q : unit -> BinaryTreeDictionary -> Prop) :
  chunk_addr start -> 0 < ws < 2 ^ 64 -> sizeof <= ws -> sizeof / HeapWordSize < u64 (ws * HeapWordSize) ->
  chunks d !! start = Some c -> untouched Zap mg c = true -> nodes d !! start = Some x ->
  (forall d', dict_inv d' (single start ws) -> (forall a, a <> start -> chunks d' !! a = chunks d !! a) ->
     dom (chunks d') = dom (chunks d) -> dom (nodes d') = dom (nodes d) -> _splay d' = _splay d -> Q tt d') ->
  wp (reset_region sizeof Zap mg start ws) Q d.
Proof.
  intros Ha Hws Hsz Hmin Hc Hm Hx HQ. apply wp_bind, wp_check; [by apply Z.ltb_lt|].
  apply wp_bind, wp_bind, wp_check; [by apply Z.leb_le|]. apply wp_bind. eapply wp_read_chunk; [exact Hc|].
  apply wp_bind, wp_check; [exact Hm|]. set (c1 := mkFreeChunk ws (c_prev c) (c_next c)).
  apply wp_bind, wp_on_chunks. exists tt, (<[start := c1]> (chunks d)).
  split; [unfold setSize, chunk, set_chunk, mbind, os_m_bind; by rewrite !Hc|].
  apply wp_bind, wp_on_chunks. eapply wp_linkPrev; [apply lookup_insert_eq|].
  apply wp_bind, wp_on_chunks. eapply wp_linkNext; [cbn [chunks set_chunks]; by rewrite lookup_alter_eq, lookup_insert_eq|].
  cbn [chunks set_chunks]. rewrite !alter_insert_same.
  eapply as_TreeList_spec; [done|apply lookup_insert_eq|done|exact Hx|].
  cbn [chunks set_chunks nodes c_size with_next with_prev c1]. rewrite insert_insert_eq.
  apply wp_bind, wp_lift_. apply wp_bind, wp_lift_. apply wp_lift_. apply HQ; cbn.
  - apply single_inv; [done|done| |]; by rewrite lookup_insert_eq.
  - intros a Hn. by apply lookup_insert_ne.
  - apply dom_insert_lookup_L. by exists c.
  - apply dom_insert_lookup_L. by exists x.
  - done.
Qed.

Lemma create_spec sizeof Zap mg d start ws c x (Q : unit -> BinaryTreeDictionary -> Prop) :
  chunk_addr start -> 0 < ws < 2 ^ 64 -> sizeof <= ws -> sizeof / HeapWordSize < u64 (ws * HeapWordSize) ->
  chunks d !! start = Some c -> untouched Zap mg c = true -> nodes d !! start = Some x ->
  (forall d', dict_inv d' (single start ws) -> (forall a, a <> start -> chunks d' !! a = chunks d !! a) ->
     dom (chunks d') = dom (chunks d) -> dom (nodes d') = dom (nodes d) -> _splay d' = _splay d -> Q tt d') ->
  wp (create sizeof Zap mg start ws) Q d.
Proof.
  intros Ha Hws Hsz Hmin Hc Hm Hx HQ. apply wp_bind, wp_check; [by apply Z.ltb_lt|].
  apply wp_bind. eapply reset_region_spec; [done..|exact Hc|done|exact Hx|]. intros d' Hinv Hfr Hdc Hdn Hs.
  specialize (HQ d' Hinv Hfr Hdc Hdn Hs). destruct (Hinv) as [[Hl Hls _ _ _] _ Er _ Es Eb _].
  destruct Hl as (Hn & _). apply node_links_lookup in Hn as [y Hy]. inversion_clear Hls as [|? ? Hls' _].
  destruct (lo_seg _ _ _ Hls') as (_ & (c1 & Hc1 & _ & Hp & _ & Hnx) & _). cbn in Hy, Hc1, Hp, Hnx.
  apply wp_bind, wp_get_dict. rewrite Er. apply wp_bind. eapply wp_tree_list; [exact Hy|].
  apply wp_bind, wp_check; [done|]. apply wp_bind, wp_check; [done|].
  apply wp_bind. eapply wp_read_chunk; [exact Hc1|]. apply wp_bind, wp_check; [by apply Z.eqb_eq|].
  apply wp_bind, wp_check; [by apply Z.eqb_eq|]. apply wp_bind, wp_check; [rewrite Es; cbn; lia|].
  apply wp_check; [by rewrite Eb|done].
Qed.

Lemma reset_spec d (Q : unit -> BinaryTreeDictionary -> Prop) :
  Q tt (mkDictionary (chunks d) (nodes d) (_splay d) 0 0 NULL) -> wp reset Q d.
Proof. intros HQ. apply wp_bind, wp_lift_. apply wp_bind, wp_lift_. by apply wp_lift_. Qed.

Lemma empty_inv s T b : dict_inv (mkDictionary s T b 0 0 NULL) Leaf.
Proof. split; try done; try constructor; constructor. Qed.
