(* ===== verification/DictionaryAllocation.v ===== *)
(** * The dictionary of large free chunks: allocation

    [getChunkFromTree] with its hints, [getChunk] and [removeChunk] on well-formed
    dictionaries. *)

From S2P Require Import Prelude OsMemory FreeList BinaryTreeDictionary DictionaryTree DictionaryReads.
From S2P Require Import DictionaryUpdates DictionaryRemoval DictionaryInsertion.

Open Scope Z_scope.
Open Scope hotspot_scope.
Import TreeLists Dictionary.

(** ** Other statistics or hints for a list *)

(** The list records differ in the hint and the statistics only. *)
Definition same_chunks (fl fl' : FreeList) : Prop :=
  _head fl' = _head fl /\ _tail fl' = _tail fl /\ _size fl' = _size fl /\ _count fl' = _count fl.

Lemma same_chunks_list s fl fl' l : same_chunks fl fl' -> list_of s fl l -> list_of s fl' l.
Proof. intros (E1 & E2 & E3 & E4) [H1 H2 H3 H4 H5]. split; rewrite ?E1, ?E2, ?E3, ?E4; done. Qed.

(** Two dictionaries with the same chunks, up to statistics and hints *)
Record restated (d : BinaryTreeDictionary) (t : tree) (d' : BinaryTreeDictionary) (t' : tree) : Prop := {
  rs_inv : dict_inv d' t';
  rs_entries : entries t' = entries t;
  rs_chunks : chunks d' = chunks d;
  rs_nodes : dom (nodes d') = dom (nodes d);
  rs_splay : _splay d' = _splay d
}.

Lemma restated_refl d t : dict_inv d t -> restated d t d t.
Proof. by split. Qed.

Lemma with_list_entries n fl : same_chunks (n_list n) fl -> node_entries (with_list n fl) = node_entries n.
Proof. intros (_ & _ & E & _). unfold node_entries, n_chunks, n_size, with_list. cbn. by rewrite E. Qed.

Lemma restate d K l n r fl :
  dict_inv d (fill K (Node l n r)) -> same_chunks (n_list n) fl -> hint_ok (with_list n fl) ->
  restated d (fill K (Node l n r)) (set_nodes d (alter (t_base fl) (n_addr n) (nodes d)))
    (fill K (Node l (with_list n fl) r)).
Proof.
  intros [Ht Hlv Er Hh Es Eb Hb] Hfl Hfh. destruct (Hfl) as (_ & _ & Esz & _).
  destruct (focus_facts _ _ _ _ _ Ht) as (Hn & Hl & Hdn & Hdis).
  assert (entries (fill K (Node l (with_list n fl) r)) = entries (fill K (Node l n r))) as Ee.
  { unfold entries. rewrite !inorder_fill. cbn [inorder]. by rewrite !entries_of_app, !entries_of_cons, with_list_entries. }
  split; cbn; [|done..|by rewrite dom_alter_node|done]. split; cbn; rewrite ?Ee; try done.
  - eapply tree_ok_update; [exact Ht|by eapply tree_links_with_list; apply Ht|done| |exact Hdis|done|exact Esz].
    by eapply same_chunks_list.
  - apply Forall_focus in Hlv as []. by apply Forall_focus.
  - rewrite Er. by apply root_of_node.
  - apply Forall_focus in Hh as []. by apply Forall_focus.
Qed.

(** ** Hints *)

Lemma in_fill K l n r m : m ∈ inorder (fill K (Node l n r)) <-> m = n \/ m ∈ others K l r.
Proof. unfold others. rewrite inorder_fill. cbn [inorder]. set_solver. Qed.

Lemma node_addr_inj t n m :
  NoDup (addrs t) -> n ∈ inorder t -> m ∈ inorder t -> n_addr m = n_addr n -> m = n.
Proof.
  intros Hd (K & l & r & ->)%focus [->|Hm]%in_fill E; [done|]. rewrite addrs_focus in Hd.
  apply NoDup_app in Hd as (_ & Hdis & _). destruct (Hdis (n_addr n)); [by left|].
  eapply others_addrs; [exact Hm|]. rewrite <- E. by left.
Qed.

Lemma wp_set_hint_at d K l n r v (Q : unit -> BinaryTreeDictionary -> Prop) (t := fill K (Node l n r)) :
  dict_inv d t -> v = 0 \/ n_size n < v ->
  (forall d' fl, _size fl = n_size n -> restated d t d' (fill K (Node l (with_list n fl) r)) -> Q tt d') ->
  wp (set_hint_at (n_addr n) v) Q d.
Proof.
  intros Hinv Hv HQ. destruct (focus_facts _ _ _ _ _ (di_ok _ _ Hinv)) as (Hn & _).
  apply node_links_lookup in Hn as [x Hx]. apply wp_bind. eapply wp_free_list; [exact Hx|].
  cbn [_embedded_list tl_list]. set (fl := mkFreeList (_head (n_list n)) (_tail (n_list n)) (_size (n_list n))
    (_count (n_list n)) v (_allocation_stats (n_list n))). apply wp_bind. eapply (wp_of_option _ fl).
  { unfold FreeLists.set_hint. replace ((v =? 0) || _) with true; [done|]. symmetry. unfold n_size in Hv. lia. }
  eapply wp_set_free_list; [exact Hx|]. apply (HQ _ fl); [done|]. by apply restate.
Qed.

Definition larger (t : tree) (n : node) : nat := length (filter (fun m => n_size n < n_size m) (inorder t)).

Lemma filter_shorter {A} (P Q : A -> Prop) `{!forall x, Decision (P x)} `{!forall x, Decision (Q x)} (l : list A) x :
  (forall y, P y -> Q y) -> x ∈ l -> Q x -> ~ P x -> (length (filter P l) < length (filter Q l))%nat.
Proof.
  intros HPQ Hx HQx HPx. assert (forall k, (length (filter P k) <= length (filter Q k))%nat) as Hle.
  { induction k as [|y k IH]; [done|]. rewrite !filter_cons. specialize (HPQ y).
    destruct (decide (P y)), (decide (Q y)); cbn; (lia || tauto). }
  induction Hx as [x k|x y k Hx IH]; rewrite !filter_cons.
  - specialize (Hle k). destruct (decide (P x)), (decide (Q x)); cbn; (lia || tauto).
  - specialize (IH HQx HPx). specialize (HPQ y). destruct (decide (P y)), (decide (Q y)); cbn; (lia || tauto).
Qed.

Lemma larger_less t h m : m ∈ inorder t -> n_size h < n_size m -> (larger t m < larger t h)%nat.
Proof. intros Hm Hlt. apply (filter_shorter _ _ _ m); [intros y; lia|done|done|lia]. Qed.

Lemma inorder_fuel T q t : NoDup (addrs t) -> tree_links T q t -> (length (inorder t) <= size T)%nat.
Proof.
  intros Hd Hl. etrans; [|by eapply addrs_fuel]. unfold addrs. clear. induction (inorder t) as [|n ns IH]; [done|].
  rewrite addrs_of_cons, length_app. cbn [length node_addrs]. lia.
Qed.

(** The list that is taken after the hints have been followed from [n] *)
Definition hinted (d : BinaryTreeDictionary) (t : tree) (n : node) (Q : Z -> BinaryTreeDictionary -> Prop) : Prop :=
  forall d' t' m, restated d t d' t' -> m ∈ inorder t' -> n_size n <= n_size m -> Q (n_addr m) d'.

Lemma hint_loop_spec d K l n r sz fuel h (t := fill K (Node l n r)) (Q : Z -> BinaryTreeDictionary -> Prop) :
  dict_inv d t -> sz <= n_size n -> h ∈ inorder t -> n_size n <= n_size h -> (larger t h < fuel)%nat ->
  hinted d t n Q -> wp (hint_loop fuel sz (n_addr n) (n_addr h)) Q d.
Proof.
  intros Hinv Hsz. revert h. induction fuel as [|fuel IH]; intros h Hin Hle Hf HQ; [lia|].
  pose proof (di_ok _ _ Hinv) as Ht. assert (n ∈ inorder t) as Hnt by (apply in_fill; by left).
  destruct (tree_ok_in _ _ _ Ht Hin) as (_ & _ & x & p & lc & rc & Hx). cbn [hint_loop].
  apply wp_bind. eapply wp_free_list; [exact Hx|]. cbn [_embedded_list tl_list].
  assert (Q (n_addr n) d) as HQn by (apply (HQ d t); [by apply restated_refl|done|lia]).
  destruct (Z.eqb_spec (_hint (n_list h)) 0) as [|Hh]; [by apply wp_ret|].
  pose proof (di_hints _ _ Hinv) as Hhs. rewrite Forall_forall in Hhs.
  destruct (Hhs h Hin) as [|Hlt]; [done|]. apply wp_bind, wp_check; [by apply Z.ltb_lt|].
  destruct (tree_ok_in _ _ _ Ht Hnt) as (Hna & _).
  apply wp_bind. eapply findList_spec; [exact Ht|apply Hinv| |].
  - intros m Hm Em. destruct (tree_ok_in _ _ _ Ht Hm) as (Hma & _ & y & p' & lc' & rc' & Hy).
    apply wp_bind, wp_check.
    { apply negb_true_iff, Z.eqb_neq. intros E. apply (node_addr_inj t) in E; [apply (f_equal n_size) in E; lia|apply Ht|done|done]. }
    rewrite (proj2 (Z.eqb_neq _ _) Hma). apply wp_bind. eapply wp_free_list; [exact Hy|]. cbn [_embedded_list tl_list].
    fold (n_size m). apply wp_bind, wp_check; [apply Z.ltb_lt; lia|]. case_match.
    + apply wp_bind. eapply wp_set_hint_at; [exact Hinv|right; lia|]. intros d' fl Esz Hr. apply wp_ret.
      apply (HQ _ _ _ Hr); [|lia]. apply in_fill in Hm as [->|Hm]; [lia|]. apply in_fill. by right.
    + apply IH; [done|lia| |done]. pose proof (larger_less t h m Hm). lia.
  - intros _. apply wp_bind, wp_check; [by apply negb_true_iff, Z.eqb_neq|]. change (NULL =? NULL) with true. cbv iota.
    apply wp_bind. eapply wp_set_hint_at; [exact Hinv|by left|]. intros d' fl Esz Hr. apply wp_ret.
    apply (HQ _ _ (with_list n fl) Hr); [apply in_fill; by left|]. by apply Z.eq_le_incl.
Qed.

(** ** The chunk that is taken *)

Lemma first_available_spec d t n (Q : Z -> BinaryTreeDictionary -> Prop) :
  dict_inv d t -> n ∈ inorder t -> (forall a, a ∈ n_chunks n -> Q a d) -> wp (first_available (n_addr n)) Q d.
Proof.
  intros Hinv (K & l & r & ->)%focus HQ. destruct (focus_facts _ _ _ _ _ (di_ok _ _ Hinv)) as (Hn & Hl & _).
  pose proof (di_live _ _ Hinv) as [El _]%Forall_focus. destruct (node_links_lookup _ _ _ _ _ Hn) as [x Hx].
  assert (n_chunks n = n_addr n :: n_rest n) as Ech by (unfold n_chunks; by rewrite El).
  assert (forall a, a ∈ n_chunks n -> exists e, nodes d !! a = Some (mkTreeChunk (n_addr n) e)) as Hlist.
  { intros a Ha. by eapply chunk_node. }
  pose proof (lo_head _ _ _ Hl) as Eh. pose proof (lo_seg _ _ _ Hl) as Hs. rewrite Ech in Hs, Eh. cbn in Eh.
  destruct Hs as (Ha & (c & Hc & _ & _ & _ & Hnx) & Hs). pose proof (chunk_addr_ptr _ Ha) as [_ Hna].
  apply wp_bind. eapply wp_free_list; [exact Hx|]. cbn [_embedded_list tl_list]. rewrite Eh.
  apply wp_bind, wp_check; [by apply negb_true_iff, Z.eqb_neq|]. apply wp_bind. eapply wp_read_chunk; [exact Hc|].
  rewrite Hnx. apply wp_bind. destruct (n_rest n) as [|b r'] eqn:Er; cbn [first].
  - change (NULL =? NULL) with true. cbv iota. eapply wp_head_as_TreeChunk; [exact Hn|exact Hl|]. rewrite Ech. cbn [first].
    destruct (Hlist (n_addr n)) as [e He]; [rewrite Ech; by left|].
    apply wp_bind. eapply wp_tree_chunk; [exact He|]. apply wp_bind, wp_check; [apply Z.eqb_refl|].
    apply wp_ret, HQ. rewrite Ech. by left.
  - destruct Hs as (Hb & _). apply chunk_addr_ptr in Hb as [_ Hb]. rewrite (proj2 (Z.eqb_neq _ _) Hb). apply wp_ret.
    destruct (Hlist b) as [e He]; [rewrite Ech; right; by left|].
    apply wp_bind. eapply wp_tree_chunk; [exact He|]. apply wp_bind, wp_check; [apply Z.eqb_refl|].
    apply wp_ret, HQ. rewrite Ech. right. by left.
Qed.

Lemma verify_spec d t (Q : unit -> BinaryTreeDictionary -> Prop) : dict_inv d t -> Q tt d -> wp verify Q d.
Proof.
  intros Hinv HQ. pose proof (di_ok _ _ Hinv) as Ht. destruct (inv_verifiable _ _ Hinv) as [Er Htot].
  apply wp_bind. eapply verifyTree_spec; [done..|]. apply wp_bind, wp_get_dict. rewrite Er. apply wp_bind.
  eapply totalSizeInTree_spec; [exact Ht|]. apply wp_check; [|done]. rewrite tree_sum_total, (di_size _ _ Hinv).
  pose proof (di_bound _ _ Hinv). apply Z.eqb_eq. symmetry. apply wrapu_id. unfold is_u. split; [|done].
  apply total_pos. intros e He. apply (total_nonneg _ _ _ Ht) in He. lia.
Qed.

Lemma removed_restated d t d1 t1 tc sz d' t' :
  restated d t d1 t1 -> removed d1 t1 tc sz d' t' -> removed d t tc sz d' t'.
Proof.
  intros [_ Ee Ec En Es] [H1 H2 H3 H4 H5 H6 H7]. rewrite Ee in H2, H4. rewrite Ec in H4, H5. rewrite En in H6. rewrite Es in H7.
  by split.
Qed.

(** Every list of the tree has a chunk. *)
Lemma sizes_in t sz : all_live t -> (exists a, (a, sz) ∈ entries t) <-> exists n, n ∈ inorder t /\ n_size n = sz.
Proof.
  intros Hlv. unfold all_live in Hlv. rewrite Forall_forall in Hlv. split.
  - intros (a & (n & Hn & _ & E)%entries_in). by exists n.
  - intros (n & Hn & E). exists (n_addr n). apply entries_in. exists n. unfold n_chunks. rewrite (Hlv n Hn). set_solver.
Qed.

(** A chunk that is large enough, of the smallest such size if [best] *)
Definition suitable (best : bool) (sz : Z) (t : tree) (tc s : Z) : Prop :=
  (tc, s) ∈ entries t /\ sz <= s /\
  (best = true -> forall a s', (a, s') ∈ entries t -> sz <= s' -> s <= s').

Lemma hinted_list_spec adaptive d t n sz (Q : Z -> BinaryTreeDictionary -> Prop) :
  dict_inv d t -> n ∈ inorder t -> sz <= n_size n ->
  (forall d' t' m, restated d t d' t' -> m ∈ inorder t' -> n_size n <= n_size m ->
     (adaptive = false -> n_size m = n_size n) -> Q (n_addr m) d') ->
  wp (if adaptive && (_surplus (_allocation_stats (n_list n)) <=? 0)
      then tree_looping (fun fuel => hint_loop fuel sz (n_addr n) (n_addr n)) else mret (n_addr n)) Q d.
Proof.
  intros Hinv Hin Hsz HQ. destruct (adaptive && _) eqn:Ea.
  - apply andb_true_iff in Ea as [Ea _]. pose proof Hin as (K & l & r & ->)%focus. apply wp_tree_looping.
    eapply hint_loop_spec; [exact Hinv|done|done|done| |].
    + pose proof (inorder_fuel _ _ _ (tk_nodup _ _ _ (di_ok _ _ Hinv)) (tk_links _ _ _ (di_ok _ _ Hinv))) as Hf.
      unfold larger. pose proof (length_filter (fun m => n_size n < n_size m) (inorder (fill K (Node l n r)))). lia.
    + intros d' t' m Hr Hm Hle. eapply HQ; [done..|]. by rewrite Ea.
  - apply wp_ret. apply (HQ d t); [by apply restated_refl|done|lia|done].
Qed.

Lemma take_chunk_spec b d t m sz splay (Q : Z -> BinaryTreeDictionary -> Prop) :
  dict_inv d t -> m ∈ inorder t -> sz <= n_size m ->
  (forall tc d' t', (tc, n_size m) ∈ entries t -> removed d t tc (n_size m) d' t' -> Q tc d') ->
  wp (fl ← free_list (n_addr m);
      when splay (c ← on_chunks (chunk (_head fl)); when (negb (c_next c =? NULL)) (semiSplayStep (n_addr m))) ;;
      retTC ← first_available (n_addr m);
      check (negb (retTC =? NULL) && (0 <? _count fl)) ;;
      c ← on_chunks (chunk retTC);
      check (sz <=? c_size c) ;;
      removeChunkFromTree b retTC ;;
      c ← on_chunks (chunk retTC);
      check (isFree c) ;;
      mret retTC) Q d.
Proof.
  intros Hinv Hm Hsz HQ. destruct (tree_ok_in _ _ _ (di_ok _ _ Hinv) Hm) as (Hma & Hl & x & p & lc & rc & Hx).
  pose proof (di_live _ _ Hinv) as Hlv. unfold all_live in Hlv. rewrite Forall_forall in Hlv. specialize (Hlv m Hm).
  assert (n_chunks m = n_addr m :: n_rest m) as Ech by (unfold n_chunks; by rewrite Hlv).
  apply wp_bind. eapply wp_free_list; [exact Hx|]. cbn [_embedded_list tl_list].
  assert (forall a, a ∈ n_chunks m -> exists c, chunks d !! a = Some c /\ c_size c = n_size m /\ a <> NULL) as Hcs.
  { intros a Ha. destruct (seg_elem _ _ _ _ _ _ (lo_seg _ _ _ Hl) Ha) as (Haa & c & Hc & Hs & _).
    apply chunk_addr_ptr in Haa as [_ Haa]. by exists c. }
  apply wp_bind, wp_when.
  1: intros _; destruct (Hcs (n_addr m)) as (c & Hc & _); [rewrite Ech; by left|].
  1: rewrite (lo_head _ _ _ Hl), Ech; apply wp_bind; eapply wp_read_chunk; [exact Hc|].
  1: apply wp_when; [intros _; apply wp_ret|intros _].
  3: intros _.
  all: apply wp_bind; eapply first_available_spec; [exact Hinv|exact Hm|]; intros a Ha.
  all: destruct (Hcs a Ha) as (ca & Hca & Esz & Hna).
  all: apply wp_bind, wp_check;
    [rewrite (proj2 (Z.eqb_neq _ _) Hna); cbn; apply Z.ltb_lt; rewrite (lo_count _ _ _ Hl), Ech; cbn [length]; lia|].
  all: apply wp_bind; eapply wp_read_chunk; [exact Hca|]; apply wp_bind, wp_check; [apply Z.leb_le; lia|].
  all: assert ((a, n_size m) ∈ entries t) as Hin by (apply entries_in; by exists m).
  all: apply wp_bind; eapply removeChunkFromTree_spec; [exact Hinv|exact Hin|]; intros d' t' Hr.
  all: apply wp_bind; eapply wp_read_chunk; [apply (rm_chunk _ _ _ _ _ _ Hr)|]; apply wp_bind, wp_check; [done|].
  all: apply wp_ret; by eapply HQ.
Qed.

Lemma getChunkFromTree_spec sizeof b adaptive d t sz splay (Q : Z -> BinaryTreeDictionary -> Prop) :
  dict_inv d t -> sizeof / HeapWordSize <= sz ->
  ((forall a s, (a, s) ∈ entries t -> s < sz) -> Q NULL d) ->
  (forall tc s d' t', suitable (negb adaptive) sz t tc s -> removed d t tc s d' t' -> Q tc d') ->
  wp (getChunkFromTree sizeof b adaptive sz splay) Q d.
Proof.
  intros Hinv Hmin HN HQ. pose proof (di_ok _ _ Hinv) as Ht. apply wp_bind, wp_check; [by apply Z.leb_le|].
  apply wp_bind. eapply wp_debug_verify; [exact Ht|by apply inv_verifiable|].
  assert (forall x d' t', dict_inv d' t' -> Q x d' -> wp (when b verify ;; mret x) Q d') as Hend.
  { intros x d' t' Hi Hx. apply wp_bind, wp_when; intros _; [|by apply wp_ret].
    eapply verify_spec; [exact Hi|]. by apply wp_ret. }
  apply wp_bind. eapply best_fit_spec; [exact Ht|apply Hinv|apply Hinv| |].
  - intros n (Hin & Hle & Hbest). destruct (tree_ok_in _ _ _ Ht Hin) as (Hna & _ & x & p & lc & rc & Hx).
    apply wp_bind. rewrite (proj2 (Z.eqb_neq _ _) Hna). apply wp_bind. eapply wp_free_list; [exact Hx|].
    cbn [_embedded_list tl_list]. fold (n_size n). apply wp_bind, wp_check; [by apply Z.leb_le|].
    apply wp_bind. eapply hinted_list_spec; [exact Hinv|exact Hin|exact Hle|]. intros d1 t1 m Hr Hm Hnm Had.
    eapply take_chunk_spec; [apply Hr|exact Hm|lia|]. intros tc d' t' Htc Hrm.
    eapply Hend; [apply Hrm|]. apply (HQ tc (n_size m) d' t'); [|by eapply removed_restated].
    rewrite (rs_entries _ _ _ _ Hr) in Htc. split_and!; [done|lia|].
    intros Eb a s' (n' & Hn' & _ & <-)%entries_in Hs'. rewrite Had by by destruct adaptive. by apply Hbest.
  - intros Hall. apply wp_bind. change (NULL =? NULL) with true. cbv iota. apply wp_ret.
    eapply Hend; [exact Hinv|]. apply HN. intros a s (n & Hn & _ & <-)%entries_in. by apply Hall.
Qed.

Lemma getChunk_spec sizeof b adaptive d t sz (Q : Z -> BinaryTreeDictionary -> Prop) :
  dict_inv d t -> sizeof / HeapWordSize <= sz ->
  ((forall a s, (a, s) ∈ entries t -> s < sz) -> Q NULL d) ->
  (forall tc s d' t', suitable (negb adaptive) sz t tc s -> removed d t tc s d' t' -> Q tc d') ->
  wp (getChunk sizeof b adaptive sz) Q d.
Proof.
  intros Hinv Hmin HN HQ. apply wp_bind, wp_get_dict, wp_bind. eapply getChunkFromTree_spec; [exact Hinv|exact Hmin|..].
  - intros Hall. apply wp_bind, wp_read_assert_chunk; [done|]. by apply wp_ret, HN.
  - intros tc s d' t' Hs Hr. apply wp_bind, wp_read_assert_chunk.
    + intros _. eexists. split; [apply (rm_chunk _ _ _ _ _ _ Hr)|done].
    + apply wp_ret. by eapply HQ.
Qed.

Lemma dict_removeChunk_spec b d t tc sz (Q : unit -> BinaryTreeDictionary -> Prop) :
  dict_inv d t -> (tc, sz) ∈ entries t ->
  (forall d' t', removed d t tc sz d' t' -> Q tt d') -> wp (removeChunk b tc) Q d.
Proof.
  intros Hinv Hin HQ. apply wp_bind. eapply removeChunkFromTree_spec; [done..|]. intros d' t' Hr.
  apply wp_bind. eapply wp_read_chunk; [apply (rm_chunk _ _ _ _ _ _ Hr)|]. apply wp_check; [done|]. by eapply HQ.
Qed.
