(* ===== verification/DictionaryWalks.v ===== *)
(** * The dictionary of large free chunks: walks over the lists

    The closures that visit every list in ascending or in descending order of size: the
    census at the end of a sweep, the hints, and the statistics. *)

From S2P Require Import Prelude OsMemory FreeList BinaryTreeDictionary DictionaryTree DictionaryReads.
From S2P Require Import DictionaryUpdates DictionaryRemoval DictionaryInsertion DictionaryAllocation.

Open Scope Z_scope.
Open Scope hotspot_scope.
Import TreeLists Dictionary.

Lemma restated_trans d t d1 t1 d2 t2 : restated d t d1 t1 -> restated d1 t1 d2 t2 -> restated d t d2 t2.
Proof. intros [_ H1 H2 H3 H4] [H5 H6 H7 H8 H9]. split; congruence. Qed.

(** Hints of list records *)
Definition hint_valid (fl : FreeList) : Prop := _hint fl = 0 \/ _size fl < _hint fl.

(** ** Walks *)

Section walks.
Context {A : Type} (do_list : A -> FreeList -> option (A * FreeList)).
Hypothesis do_list_same : forall x fl x' fl', do_list x fl = Some (x', fl') ->
  same_chunks fl fl' /\ (hint_valid fl -> hint_valid fl').

(** The visits in the order of a sequence of nodes *)
Fixpoint walk (x : A) (ns : list node) : option (A * list node) :=
  match ns with
  | [] => Some (x, [])
  | n :: ns =>
      '(x, fl) ← do_list x (n_list n);
      '(x, ns') ← walk x ns;
      Some (x, with_list n fl :: ns')
  end.

Lemma walk_app x ns1 ns2 x' ns' :
  walk x (ns1 ++ ns2) = Some (x', ns') ->
  exists x1 ns1' ns2', walk x ns1 = Some (x1, ns1') /\ walk x1 ns2 = Some (x', ns2') /\ ns' = ns1' ++ ns2'.
Proof.
  revert x x' ns'. induction ns1 as [|n ns1 IH]; intros x x' ns'; cbn [walk app].
  - intros E. by exists x, [], ns'.
  - intros ([x1 fl] & E1 & ([x2 ns2'] & E2 & [= <- <-])%bind_Some)%bind_Some.
    destruct (IH _ _ _ E2) as (x3 & m1 & m2 & E3 & E4 & ->). exists x3, (with_list n fl :: m1), m2.
    split_and!; [|done..]. by rewrite E1; cbn; rewrite E3.
Qed.

Lemma visit_spec d K l n r x x' fl (t := fill K (Node l n r)) (Q : A -> BinaryTreeDictionary -> Prop) :
  dict_inv d t -> do_list x (n_list n) = Some (x', fl) ->
  (forall d', restated d t d' (fill K (Node l (with_list n fl) r)) -> Q x' d') -> wp (visit do_list x (n_addr n)) Q d.
Proof using do_list_same.
  intros Hinv E HQ. destruct (focus_facts _ _ _ _ _ (di_ok _ _ Hinv)) as (Hn & _).
  apply node_links_lookup in Hn as [y Hy]. destruct (do_list_same _ _ _ _ E) as [Hs Hh].
  pose proof (di_hints _ _ Hinv) as [Hhn _]%Forall_focus. apply wp_bind. eapply wp_free_list; [exact Hy|].
  apply wp_bind. eapply wp_of_option; [exact E|]. apply wp_bind. eapply wp_set_free_list; [exact Hy|].
  apply wp_ret, HQ. apply restate; [done|done|]. by apply Hh.
Qed.

Lemma focus_lookup d K l n r :
  dict_inv d (fill K (Node l n r)) ->
  n_addr n <> NULL /\ exists x, nodes d !! n_addr n = Some (mkTreeChunk x (mkTreeList (n_list n) (parent_of K) (root_of l) (root_of r))).
Proof.
  intros Hinv. destruct (focus_facts _ _ _ _ _ (di_ok _ _ Hinv)) as (Hn & _). destruct (Hn) as (Ha & _).
  apply chunk_addr_ptr in Ha as [_ Ha]. split; [done|]. by eapply node_links_lookup.
Qed.

Definition walked (d : BinaryTreeDictionary) (K : list frame) (t : tree) (x' : A) (ns' : list node)
  (Q : A -> BinaryTreeDictionary -> Prop) : Prop :=
  forall d' t', inorder t' = ns' -> root_of t' = root_of t -> restated d (fill K t) d' (fill K t') -> Q x' d'.

Lemma ascend_tree_spec t : forall K d fuel x x' ns' (Q : A -> BinaryTreeDictionary -> Prop),
  dict_inv d (fill K t) -> (height t < fuel)%nat -> walk x (inorder t) = Some (x', ns') ->
  walked d K t x' ns' Q -> wp (ascend_tree do_list fuel x (root_of t)) Q d.
Proof using do_list_same.
  induction t as [|l IHl n r IHr]; intros K d [|fuel] x x' ns' Q Hinv Hf E HQ; cbn [height] in Hf; try lia.
  { injection E as <- <-. apply wp_ret. apply (HQ d Leaf); [done..|by apply restated_refl]. }
  destruct (focus_lookup _ _ _ _ _ Hinv) as [Ha [y Hy]]. cbn [ascend_tree root_of inorder] in *.
  apply walk_app in E as (x1 & nl & nr & El & E & ->). cbn [walk] in E.
  apply bind_Some in E as ([x2 fl] & Ev & E). apply bind_Some in E as ([x3 nr'] & Er & [= <- <-]).
  rewrite (proj2 (Z.eqb_neq _ _) Ha). apply wp_bind. eapply wp_tree_list; [exact Hy|]. cbn [_embedded_list _left].
  apply wp_bind. eapply (IHl (FL n r :: K)); [exact Hinv|lia|exact El|]. intros d1 l' Eil Erl Hr1. cbn [fill plug] in Hr1.
  apply wp_bind. eapply visit_spec; [apply Hr1|exact Ev|]. intros d2 Hr2. set (n' := with_list n fl) in *.
  destruct (focus_lookup _ _ _ _ _ (rs_inv _ _ _ _ Hr2)) as [_ [z Hz]].
  apply wp_bind. eapply wp_tree_list; [exact Hz|]. cbn [_embedded_list _right].
  eapply (IHr (FR l' n' :: K)); [apply Hr2|lia|exact Er|]. intros d3 r' Eir Err Hr3. cbn [fill plug] in Hr3.
  apply (HQ d3 (Node l' n' r')); [cbn; by rewrite Eil, Eir|done|].
  eapply restated_trans; [exact Hr1|]. by eapply restated_trans.
Qed.

Lemma descend_tree_spec t : forall K d fuel x x' ns' (Q : A -> BinaryTreeDictionary -> Prop),
  dict_inv d (fill K t) -> (height t < fuel)%nat -> walk x (reverse (inorder t)) = Some (x', reverse ns') ->
  walked d K t x' ns' Q -> wp (descend_tree do_list fuel x (root_of t)) Q d.
Proof using do_list_same.
  induction t as [|l IHl n r IHr]; intros K d [|fuel] x x' ns' Q Hinv Hf E HQ; cbn [height] in Hf; try lia.
  { injection E as <- E. apply (f_equal reverse) in E. rewrite reverse_involutive in E. rewrite <- E in HQ.
    apply wp_ret. apply (HQ d Leaf); [done..|by apply restated_refl]. }
  destruct (focus_lookup _ _ _ _ _ Hinv) as [Ha [y Hy]]. cbn [descend_tree root_of inorder] in *.
  rewrite reverse_app, reverse_cons, <- app_assoc in E.
  apply walk_app in E as (x1 & nr & nl & Er & E & En). cbn [walk app] in E.
  apply bind_Some in E as ([x2 fl] & Ev & E). apply bind_Some in E as ([x3 nl'] & El & [= <- <-]).
  rewrite (proj2 (Z.eqb_neq _ _) Ha). apply wp_bind. eapply wp_tree_list; [exact Hy|]. cbn [_embedded_list _right].
  rewrite <- (reverse_involutive nr) in Er, En. rewrite <- (reverse_involutive nl') in El, En.
  apply wp_bind. eapply (IHr (FR l n :: K)); [exact Hinv|lia|exact Er|]. intros d1 r' Eir Err Hr1. cbn [fill plug] in Hr1.
  apply wp_bind. eapply visit_spec; [apply Hr1|exact Ev|]. intros d2 Hr2. set (n' := with_list n fl) in *.
  destruct (focus_lookup _ _ _ _ _ (rs_inv _ _ _ _ Hr2)) as [_ [z Hz]].
  apply wp_bind. eapply wp_tree_list; [exact Hz|]. cbn [_embedded_list _left].
  eapply (IHl (FL n' r' :: K)); [apply Hr2|lia|exact El|]. intros d3 l' Eil Erl Hr3. cbn [fill plug] in Hr3.
  apply (HQ d3 (Node l' n' r')); [|done|].
  - cbn [inorder]. rewrite Eil, Eir. apply (inj reverse). rewrite En, reverse_app, reverse_cons, <- app_assoc. done.
  - eapply restated_trans; [exact Hr1|]. by eapply restated_trans.
Qed.

Lemma do_tree_ascending_spec d t x x' ns' (Q : A -> BinaryTreeDictionary -> Prop) :
  dict_inv d t -> walk x (inorder t) = Some (x', ns') ->
  (forall d' t', inorder t' = ns' -> restated d t d' t' -> Q x' d') -> wp (do_tree_ascending do_list x) Q d.
Proof using do_list_same.
  intros Hinv E HQ. apply wp_bind, wp_root. rewrite (di_root _ _ Hinv). apply wp_tree_looping.
  eapply (ascend_tree_spec t []); [exact Hinv|apply height_fuel, Hinv|exact E|]. intros d' t' Et _ Hr. by eapply HQ.
Qed.

Lemma do_tree_descending_spec d t x x' ns' (Q : A -> BinaryTreeDictionary -> Prop) :
  dict_inv d t -> walk x (reverse (inorder t)) = Some (x', reverse ns') ->
  (forall d' t', inorder t' = ns' -> restated d t d' t' -> Q x' d') -> wp (do_tree_descending do_list x) Q d.
Proof using do_list_same.
  intros Hinv E HQ. apply wp_bind, wp_root. rewrite (di_root _ _ Hinv). apply wp_tree_looping.
  eapply (descend_tree_spec t []); [exact Hinv|apply height_fuel, Hinv|exact E|]. intros d' t' Et _ Hr. by eapply HQ.
Qed.

End walks.

(** ** The census at the end of a sweep *)

Definition with_hint (fl : FreeList) (h : Z) : FreeList :=
  mkFreeList (_head fl) (_tail fl) (_size fl) (_count fl) h (_allocation_stats fl).

Definition map_list (f : FreeList -> FreeList) (n : node) : node := with_list n (f (n_list n)).

Lemma walk_map {A} (f : FreeList -> FreeList) (x : A) ns :
  walk (fun x fl => Some (x, f fl)) x ns = Some (x, map_list f <$> ns).
Proof. induction ns as [|n ns IH]; [done|]. cbn [walk]. unfold mbind, option_bind. by rewrite IH. Qed.

Lemma walk_snoc {A} (do_list : A -> FreeList -> option (A * FreeList)) x ns x1 ns' n x2 fl :
  walk do_list x ns = Some (x1, ns') -> do_list x1 (n_list n) = Some (x2, fl) ->
  walk do_list x (ns ++ [n]) = Some (x2, ns' ++ [with_list n fl]).
Proof.
  revert x ns'. induction ns as [|m ns IH]; intros x ns'; cbn [walk app].
  - intros [= -> <-] E. by rewrite E.
  - intros ([y fm] & -> & ([z ms] & E & [= <- <-])%bind_Some)%bind_Some E2. cbn. by rewrite (IH _ _ E E2).
Qed.

(** The size of the next list with a surplus *)
Fixpoint next_surplus (ns : list node) : Z :=
  match ns with
  | [] => 0
  | n :: ns => if 0 <? _surplus (_allocation_stats (n_list n)) then n_size n else next_surplus ns
  end.

Fixpoint hinted_nodes (ns : list node) : list node :=
  match ns with
  | [] => []
  | n :: ns => map_list (fun fl => with_hint fl (next_surplus ns)) n :: hinted_nodes ns
  end.

Lemma next_surplus_larger n ns :
  StronglySorted Z.lt (n_size <$> n :: ns) -> next_surplus ns = 0 \/ n_size n < next_surplus ns.
Proof.
  intros [Hf _]%StronglySorted_cons. induction ns as [|m ns IH]; [by left|]. cbn in Hf |- *.
  apply Forall_cons in Hf as [Hm Hf]. case_match; [by right|]. by apply IH.
Qed.

Lemma walk_hints ns :
  StronglySorted Z.lt (n_size <$> ns) ->
  walk setTreeHints_list 0 (reverse ns) = Some (next_surplus ns, reverse (hinted_nodes ns)).
Proof.
  induction ns as [|n ns IH]; [done|]. intros Hs. pose proof (next_surplus_larger _ _ Hs) as Hn.
  apply StronglySorted_cons in Hs as [_ Hs]. cbn [hinted_nodes]. rewrite !reverse_cons.
  eapply walk_snoc; [by apply IH|]. unfold setTreeHints_list, FreeLists.set_hint.
  replace ((next_surplus ns =? 0) || (_size (n_list n) <? next_surplus ns)) with true
    by (symmetry; unfold n_size in Hn; lia).
  cbn. by replace ((next_surplus ns =? 0) || (_size (n_list n) <? next_surplus ns)) with true
    by (symmetry; unfold n_size in Hn; lia).
Qed.

Lemma hints_same x fl x' fl' :
  setTreeHints_list x fl = Some (x', fl') -> same_chunks fl fl' /\ (hint_valid fl -> hint_valid fl').
Proof.
  unfold setTreeHints_list, FreeLists.set_hint. destruct ((x =? 0) || _) eqn:E; [|done]. cbn. rewrite E. intros [= _ <-].
  split; [done|]. intros _. unfold hint_valid. cbn. lia.
Qed.

(** The statistics of a list at the end of a sweep *)
Definition swept_list (scaled : Z -> Z) (h : Z) (fl : FreeList) : FreeList :=
  let a := _allocation_stats fl in
  with_hint (FreeLists.set_stats fl (mkAllocationStats (_desired a) (_coalDesired a)
    (s64 (_count fl - scaled (_desired a))) (_bfrSurp a) (_count fl) (_beforeSweep a) 0 0 0 0 (_returnedBytes a))) h.

Definition surplus_list (scaled : Z -> Z) (fl : FreeList) : FreeList :=
  match setTreeSurplus_list scaled tt fl with Some (_, fl) => fl | None => fl end.
Definition clear_list (fl : FreeList) : FreeList :=
  match clearTreeCensus_list tt fl with Some (_, fl) => fl | None => fl end.

Lemma endSweepDictCensus_spec scaled d t (Q : unit -> BinaryTreeDictionary -> Prop) :
  dict_inv d t ->
  (forall d' t', inorder t' = map_list clear_list <$> hinted_nodes (map_list (surplus_list scaled) <$> inorder t) ->
     restated d t d' t' -> Q tt d') -> wp (endSweepDictCensus scaled) Q d.
Proof.
  intros Hinv HQ. apply wp_bind. eapply (do_tree_ascending_spec (setTreeSurplus_list scaled));
    [by intros [] fl [] fl' [= <-]|exact Hinv|apply (walk_map (surplus_list scaled) tt)|]. intros d1 t1 E1 Hr1.
  apply wp_bind, wp_bind. eapply (do_tree_descending_spec setTreeHints_list);
    [apply hints_same|apply Hr1|apply walk_hints, (di_ok _ _ (rs_inv _ _ _ _ Hr1))|]. intros d2 t2 E2 Hr2. apply wp_ret.
  eapply (do_tree_ascending_spec clearTreeCensus_list);
    [by intros [] fl [] fl' [= <-]|apply Hr2|apply (walk_map clear_list tt)|]. intros d3 t3 E3 Hr3.
  apply (HQ d3 t3); [by rewrite E3, E2, E1|]. eapply restated_trans; [exact Hr1|]. by eapply restated_trans.
Qed.

Lemma swept_nodes scaled ns :
  let ns' := map_list clear_list <$> hinted_nodes (map_list (surplus_list scaled) <$> ns) in
  Forall2 (fun n n' => exists h, n' = map_list (swept_list scaled h) n) ns ns' /\
  forall x n y, ns' = x ++ n :: y -> _hint (n_list n) = next_surplus y.
Proof.
  induction ns as [|n ns [IH1 IH2]]; cbn [fmap list_fmap hinted_nodes].
  { split; [constructor|]. by intros [|] ? ?. }
  split; [constructor; [by eexists|done]|].
  assert (forall ms, next_surplus (map_list clear_list <$> hinted_nodes ms) = next_surplus ms) as Hns.
  { clear. induction ms as [|m ms IH]; [done|]. cbn. by rewrite IH. }
  intros [|m x] n' y [= E1 E2]; [|by eapply IH2]. subst. by rewrite Hns.
Qed.

(** ** One list *)

Lemma dictCensusUpdate_spec sz split birth d t (Q : unit -> BinaryTreeDictionary -> Prop) :
  dict_inv d t -> (forall d' t', restated d t d' t' -> Q tt d') -> wp (dictCensusUpdate sz split birth) Q d.
Proof.
  intros Hinv HQ. apply wp_bind. eapply findList_spec; [apply Hinv|apply Hinv| |].
  - intros n (K & l & r & ->)%focus _. destruct (focus_lookup _ _ _ _ _ Hinv) as [Ha [x Hx]].
    rewrite (proj2 (Z.eqb_neq _ _) Ha). apply wp_bind. eapply wp_free_list; [exact Hx|].
    eapply wp_set_free_list; [exact Hx|]. eapply HQ, restate; [exact Hinv|done|].
    by pose proof (di_hints _ _ Hinv) as [Hh _]%Forall_focus.
  - intros _. apply wp_ret. by eapply HQ, restated_refl.
Qed.

Lemma initializeDictReturnedBytes_spec d t (Q : unit -> BinaryTreeDictionary -> Prop) :
  dict_inv d t -> (forall d' t', restated d t d' t' -> Q tt d') -> wp initializeDictReturnedBytes Q d.
Proof.
  intros Hinv HQ. eapply (do_tree_ascending_spec (fun (x : unit) fl => Some (x, _)));
    [by intros [] fl [] fl' [= <-]|exact Hinv|apply (walk_map (fun fl => _) tt)|]. intros d' t' _ Hr. by eapply HQ.
Qed.

(** ** Queries *)

Lemma numFreeBlocks_spec d t (Q : Z -> BinaryTreeDictionary -> Prop) :
  dict_inv d t -> Q (zlen (entries t)) d -> wp numFreeBlocks Q d.
Proof.
  intros Hinv HQ. apply wp_bind, wp_get_dict. rewrite (di_root _ _ Hinv), (di_blocks _ _ Hinv). apply wp_bind.
  eapply totalFreeBlocksInTree_spec; [apply Hinv|]. pose proof (entries_bound _ _ _ (di_ok _ _ Hinv)).
  assert (tree_sum (fun n => zlen (n_chunks n)) t = zlen (entries t)) as ->.
  { clear. induction t as [|l IHl n r IHr]; [done|]. cbn [tree_sum]. unfold entries in *. cbn [inorder].
    rewrite entries_of_app, entries_of_cons, !length_app, IHl, IHr. unfold node_entries. rewrite length_fmap. lia. }
  apply wp_bind, wp_check; [apply Z.eqb_eq, wrapu_id; unfold is_u; lia|]. by apply wp_ret.
Qed.

Lemma totalChunkSize_spec locked d t (Q : Z -> BinaryTreeDictionary -> Prop) :
  dict_inv d t -> Q (total (entries t)) d -> wp (totalChunkSize locked) Q d.
Proof.
  intros Hinv HQ. apply wp_bind, wp_get_dict. rewrite (di_root _ _ Hinv), (di_size _ _ Hinv).
  apply wp_bind, wp_when; intros _; [|by apply wp_ret]. apply wp_bind.
  eapply totalSizeInTree_spec; [apply Hinv|]. apply wp_check; [|by apply wp_ret]. rewrite tree_sum_total.
  pose proof (di_bound _ _ Hinv). apply Z.eqb_eq, wrapu_id. unfold is_u. split; [|done].
  apply total_pos. intros e He. apply (total_nonneg _ _ _ (di_ok _ _ Hinv)) in He. lia.
Qed.

Lemma rightmost_loop_spec q t fuel d (Q : Z -> BinaryTreeDictionary -> Prop) :
  tree_links (nodes d) q t -> t <> Leaf -> (height t <= fuel)%nat ->
  (forall m ns, inorder t = ns ++ [m] -> Q (n_addr m) d) -> wp (rightmost_loop fuel (root_of t)) Q d.
Proof.
  revert q fuel. induction t as [|l _ n r IHr]; [done|]. intros q [|fuel] (Hn & _ & Hr) _ Hf HQ; cbn [height] in Hf; [lia|].
  destruct (node_links_lookup _ _ _ _ _ Hn) as [x Hx]. cbn [rightmost_loop root_of].
  apply wp_bind. eapply wp_tree_list; [exact Hx|]. cbn [_embedded_list _right]. cbn [inorder] in HQ.
  destruct (Z.eqb_spec (root_of r) NULL) as [E|E].
  - apply (root_null _ _ _ Hr) in E as ->. apply wp_ret. by apply (HQ n (inorder l)).
  - eapply IHr; [exact Hr|by intros ->|lia|]. intros m ns Em. apply (HQ m (inorder l ++ n :: ns)).
    rewrite Em, <- app_assoc. done.
Qed.

(** The node that the walk to the right ends at *)
Definition largest (t : tree) (m : node) : Prop :=
  m ∈ inorder t /\ forall n, n ∈ inorder t -> n_size n <= n_size m.

Lemma last_largest t ns m : StronglySorted Z.lt (n_size <$> inorder t) -> inorder t = ns ++ [m] -> largest t m.
Proof.
  intros Hs E. split; [rewrite E; set_solver|]. rewrite E in Hs |- *. rewrite fmap_app in Hs.
  apply StronglySorted_app in Hs as (Hs & _ & _). intros n [Hn| ->%list_elem_of_singleton]%elem_of_app; [|lia].
  apply Z.lt_le_incl, Hs; [by apply list_elem_of_fmap_2|]. by left.
Qed.

Lemma wp_largest d t (Q : Z -> BinaryTreeDictionary -> Prop) :
  dict_inv d t -> t <> Leaf -> (forall m, largest t m -> Q (n_addr m) d) ->
  wp (tree_looping (fun fuel => rightmost_loop fuel (root_of t))) Q d.
Proof.
  intros Hinv Hne HQ. apply wp_tree_looping. pose proof (height_fuel _ _ (di_ok _ _ Hinv)).
  eapply rightmost_loop_spec; [apply Hinv|done|lia|]. intros m ns E. apply HQ. eapply last_largest; [apply Hinv|exact E].
Qed.

Lemma maxChunkSize_spec d t (Q : Z -> BinaryTreeDictionary -> Prop) :
  dict_inv d t -> (t = Leaf -> Q 0 d) -> (forall m, largest t m -> Q (n_size m) d) -> wp maxChunkSize Q d.
Proof.
  intros Hinv HN HQ. apply wp_bind, wp_root. rewrite (di_root _ _ Hinv).
  destruct (Z.eqb_spec (root_of t) NULL) as [E|E].
  - apply (root_null (nodes d) NULL) in E; [|apply Hinv]. by apply wp_ret, HN.
  - apply wp_bind. eapply wp_largest; [exact Hinv|by intros ->|]. intros m Hm.
    destruct (tree_ok_in _ _ _ (di_ok _ _ Hinv) (proj1 Hm)) as (_ & _ & x & p & lc & rc & Hx).
    apply wp_bind. eapply wp_free_list; [exact Hx|]. by apply wp_ret, HQ.
Qed.

Lemma findLargestDict_spec d t (Q : Z -> BinaryTreeDictionary -> Prop) :
  dict_inv d t -> (t = Leaf -> Q NULL d) ->
  (forall a s, (a, s) ∈ entries t -> (forall b s', (b, s') ∈ entries t -> s' <= s) -> Q a d) ->
  wp findLargestDict Q d.
Proof.
  intros Hinv HN HQ. apply wp_bind, wp_root. rewrite (di_root _ _ Hinv).
  destruct (Z.eqb_spec (root_of t) NULL) as [E|E].
  - apply (root_null (nodes d) NULL) in E; [|apply Hinv]. by apply wp_ret, HN.
  - apply wp_bind. eapply wp_largest; [exact Hinv|by intros ->|]. intros m (Hm & Hmax).
    eapply first_available_spec; [exact Hinv|exact Hm|]. intros a Ha. apply (HQ a (n_size m)).
    + apply entries_in. by exists m.
    + intros b s' (n & Hn & _ & <-)%entries_in. by apply Hmax.
Qed.

Lemma node_size_inj t n m :
  StronglySorted Z.lt (n_size <$> inorder t) -> n ∈ inorder t -> m ∈ inorder t -> n_size m = n_size n -> m = n.
Proof.
  intros Hs (K & l & r & ->)%focus Hm E. rewrite inorder_fill in Hs, Hm. cbn [inorder] in Hs, Hm.
  rewrite <- app_assoc, (app_assoc (before K)) in Hs, Hm. cbn [app] in Hs, Hm. rewrite fmap_app, fmap_cons in Hs.
  apply StronglySorted_app in Hs as (Hb & _ & [Ha _]%StronglySorted_cons). rewrite Forall_forall in Ha.
  apply elem_of_app in Hm as [Hm|[->|Hm]%elem_of_cons]; [|done|].
  - assert (n_size m < n_size n); [|lia]. apply Hb; [by apply list_elem_of_fmap_2|by left].
  - assert (n_size n < n_size m); [|lia]. apply Ha. by apply list_elem_of_fmap_2.
Qed.

Lemma dict_verifyChunk_spec d t tc c (Q : bool -> BinaryTreeDictionary -> Prop) :
  dict_inv d t -> chunks d !! tc = Some c -> Q (bool_decide (tc ∈ (entries t).*1)) d ->
  wp (verifyChunkInFreeLists tc) Q d.
Proof.
  intros Hinv Hc HQ. pose proof (di_ok _ _ Hinv) as Ht.
  assert (forall m, m ∈ inorder t -> tc ∈ n_chunks m -> c_size c = n_size m) as Hsize.
  { intros m Hm Hin. destruct (tree_ok_in _ _ _ Ht Hm) as (_ & Hl & _).
    destruct (seg_elem _ _ _ _ _ _ (lo_seg _ _ _ Hl) Hin) as (_ & c' & Hc' & E & _). unfold n_size. congruence. }
  assert (tc ∈ (entries t).*1 <-> exists m, m ∈ inorder t /\ tc ∈ n_chunks m) as Hent.
  { rewrite list_elem_of_fmap. split.
    - intros ([a s] & -> & (m & Hm & Ha & _)%entries_in). by exists m.
    - intros (m & Hm & Ha). exists (tc, n_size m). split; [done|]. apply entries_in. by exists m. }
  apply wp_bind. eapply wp_read_chunk; [exact Hc|]. apply wp_bind.
  eapply findList_spec; [exact Ht|apply Hinv| |].
  - intros n Hn En. destruct (tree_ok_in _ _ _ Ht Hn) as (Ha & Hl & x & p & lc & rc & Hx).
    rewrite (proj2 (Z.eqb_neq _ _) Ha). apply wp_bind. eapply wp_free_list; [exact Hx|]. apply wp_on_chunks.
    eapply verifyChunkInFreeLists_spec; [exact Hl|exact Hc|symmetry; exact En|]. rewrite set_chunks_id.
    replace (bool_decide (tc ∈ n_chunks n)) with (bool_decide (tc ∈ (entries t).*1)); [done|].
    apply bool_decide_ext. rewrite Hent. split; [|by exists n]. intros (m & Hm & Hin). 
    rewrite <- (node_size_inj t n m); [done|apply Ht|done|done|]. by rewrite En, (Hsize m).
  - intros Hno. change (NULL =? NULL) with true. cbv iota. apply wp_ret.
    rewrite bool_decide_eq_false_2 in HQ; [done|]. rewrite Hent. intros (m & Hm & Hin). apply (Hno m Hm). by rewrite (Hsize m).
Qed.

(** A free chunk and its size end at the address. *)
Definition ends_at (target : Z) (e : Z * Z) : Prop := u64 (e.1 + e.2 * HeapWordSize) = target.

Lemma end_search_loop_spec s sz p l target fuel (Q : Z -> chunk_map -> Prop) :
  seg s sz p l NULL -> (length l < fuel)%nat ->
  (forall a, a ∈ l -> a <> NULL -> ends_at target (a, sz) -> Q a s) ->
  ((forall a, a ∈ l -> ~ ends_at target (a, sz)) -> Q NULL s) ->
  wp (end_search_loop fuel target (first NULL l)) Q s.
Proof.
  revert p fuel. induction l as [|a l IH]; intros p [|fuel] Hs Hf HQ HN; cbn [length] in Hf; try lia.
  { apply wp_ret. apply HN. by intros a ?%elem_of_nil. }
  destruct Hs as (Ha & (c & Hc & Esz & _ & _ & Hnx) & Hs). apply chunk_addr_ptr in Ha as [_ Ha].
  cbn [end_search_loop first]. rewrite (proj2 (Z.eqb_neq _ _) Ha). apply wp_bind. eapply wp_chunk; [exact Hc|].
  unfold chunk_end. rewrite Esz. destruct (Z.eqb_spec (u64 (a + sz * HeapWordSize)) target) as [E|E].
  - apply wp_ret, HQ; [by left|done|exact E].
  - rewrite Hnx. eapply IH; [exact Hs|lia|..].
    + intros b Hb. apply HQ. by right.
    + intros Hno. apply HN. intros b [->|Hb]%elem_of_cons; [done|by apply Hno].
Qed.

Lemma search_tree_spec d t : forall q fuel target (Q : Z -> BinaryTreeDictionary -> Prop),
  subtree_ok d q t -> (height t < fuel)%nat ->
  (forall e, e ∈ entries t -> e.1 <> NULL -> ends_at target e -> Q e.1 d) ->
  ((forall e, e ∈ entries t -> ~ ends_at target e) -> Q NULL d) ->
  wp (search_tree fuel target (root_of t)) Q d.
Proof.
  induction t as [|l IHl n r IHr]; intros q [|fuel] target Q Ht Hf HQ HN; cbn [height] in Hf; try lia.
  { apply wp_ret, HN. by intros e ?%elem_of_nil. }
  destruct (subtree_parts _ _ _ _ _ Ht) as [Hl Hr]. destruct Ht as ((Hn & _) & Hls & _).
  cbn [inorder] in Hls. apply Forall_app in Hls as [_ [Hln _]%Forall_cons].
  destruct (node_links_lookup _ _ _ _ _ Hn) as [x Hx]. destruct (Hn) as (Ha & _). apply chunk_addr_ptr in Ha as [_ Ha].
  assert (forall e, e ∈ entries (Node l n r) <-> e ∈ entries l \/ e ∈ node_entries n \/ e ∈ entries r) as He.
  { intros e. unfold entries. cbn [inorder]. by rewrite entries_of_app, entries_of_cons, !elem_of_app. }
  assert (forall a, a ∈ n_chunks n <-> (a, n_size n) ∈ node_entries n) as Hna.
  { intros a. unfold node_entries. rewrite list_elem_of_fmap. split; [by exists a|]. by intros (b & [= ->] & ?). }
  cbn [search_tree root_of]. rewrite (proj2 (Z.eqb_neq _ _) Ha). apply wp_bind. eapply wp_tree_list; [exact Hx|].
  cbn [_embedded_list tl_list _left _right]. apply wp_bind. eapply IHr; [exact Hr|lia|..].
  { intros e Hin Hnn Hend. rewrite (proj2 (Z.eqb_neq _ _) Hnn). apply wp_ret, HQ; [|done..]. apply He. auto. }
  intros Hnr. change (NULL =? NULL) with true. cbv iota. cbn [negb]. apply wp_bind, wp_on_chunks, wp_looping.
  rewrite (lo_head _ _ _ Hln). pose proof (seg_fuel _ _ _ _ _ (lo_nodup _ _ _ Hln) (lo_seg _ _ _ Hln)).
  eapply end_search_loop_spec; [apply (lo_seg _ _ _ Hln)|lia|..]; rewrite set_chunks_id.
  { intros a Hin Hnn Hend. rewrite (proj2 (Z.eqb_neq _ _) Hnn). apply wp_ret. apply (HQ (a, n_size n)); [|done..].
    apply He. right. left. by apply Hna. }
  intros Hnn. change (NULL =? NULL) with true. cbn [negb]. eapply IHl; [exact Hl|lia|..].
  - intros e Hin. apply HQ, He. by left.
  - intros Hnl. apply HN. intros [a s] [Hin|[Hin|Hin]]%He; [by apply Hnl| |by apply Hnr].
    pose proof Hin as (b & [= <- ->] & Hb)%list_elem_of_fmap. by apply Hnn.
Qed.

Lemma find_chunk_ends_at_spec d t target (Q : Z -> BinaryTreeDictionary -> Prop) :
  dict_inv d t -> (forall e, e ∈ entries t -> e.1 <> NULL -> ends_at target e -> Q e.1 d) ->
  ((forall e, e ∈ entries t -> ~ ends_at target e) -> Q NULL d) -> wp (find_chunk_ends_at target) Q d.
Proof.
  intros Hinv HQ HN. apply wp_bind, wp_root. rewrite (di_root _ _ Hinv). apply wp_tree_looping.
  eapply search_tree_spec; [apply tree_ok_sub, Hinv|apply height_fuel, Hinv|done..].
Qed.

(** C17: At the end of a sweep [endSweepDictCensus] visits every list of the dictionary
    once: its surplus becomes the excess of the count over the scaled demand, its
    population is recorded as that of the previous sweep, the births and deaths are
    cleared, and its hint becomes the size of the next larger list that has a surplus, or
    0 when there is none.  The free chunks and the tree stay as they are. *)
Theorem end_sweep_census scaled d t :
  dict_inv d t ->
  exists d' t',
    endSweepDictCensus scaled d = Some (tt, d') /\ restated d t d' t' /\
    Forall2 (fun n n' => exists h, n' = map_list (swept_list scaled h) n) (inorder t) (inorder t') /\
    forall x n y, inorder t' = x ++ n :: y -> _hint (n_list n) = next_surplus y.
Proof.
  intros Hinv. destruct (swept_nodes scaled (inorder t)) as [H1 H2].
  assert (wp (endSweepDictCensus scaled) (fun _ d' => exists t', restated d t d' t' /\
    inorder t' = map_list clear_list <$> hinted_nodes (map_list (surplus_list scaled) <$> inorder t)) d)
    as ([] & d' & E & t' & Hr & Et).
  { eapply endSweepDictCensus_spec; [exact Hinv|]. intros d' t' Et Hr. by exists t'. }
  exists d', t'. rewrite Et. by split_and!.
Qed.

(** Two lists, of 100 and of 300 words; the larger one has more chunks than it needs. *)
Definition stats_of (desired : Z) : AllocationStats := mkAllocationStats desired 0 0 0 0 0 5 6 7 8 0.
Definition small_list : FreeList := mkFreeList 8000 8000 100 1 0 (stats_of 4).
Definition big_list : FreeList := mkFreeList 16000 24000 300 2 0 (stats_of 1).

Definition two_lists : BinaryTreeDictionary :=
  mkDictionary
    {[8000 := mkFreeChunk 100 1 NULL; 16000 := mkFreeChunk 300 1 24000; 24000 := mkFreeChunk 300 16001 NULL]}
    {[8000 := mkTreeChunk 8000 (mkTreeList small_list NULL NULL 16000);
      16000 := mkTreeChunk 16000 (mkTreeList big_list 8000 NULL NULL);
      24000 := mkTreeChunk 16000 (mkTreeList FreeLists.create NULL NULL NULL)]} false 700 3 8000.

Definition two_lists_tree : tree :=
  Node Leaf (mkNode 8000 small_list [] true) (Node Leaf (mkNode 16000 big_list [24000] true) Leaf).

Lemma two_lists_inv : dict_inv two_lists two_lists_tree.
Proof.
  split; try reflexivity; [|repeat constructor|repeat constructor]. split.
  - repeat split; try (reflexivity || lia); try (eexists; split; reflexivity); repeat constructor. by eexists.
  - repeat constructor; try (eexists; split_and!; reflexivity); try lia; set_solver.
  - repeat constructor; set_solver.
  - repeat constructor.
  - repeat constructor.
Qed.

Lemma end_sweep_census_witness :
  exists d' t',
    endSweepDictCensus (fun n => n) two_lists = Some (tt, d') /\ restated two_lists two_lists_tree d' t' /\
    Forall2 (fun n n' => exists h, n' = map_list (swept_list (fun n => n) h) n) (inorder two_lists_tree) (inorder t') /\
    forall x n y, inorder t' = x ++ n :: y -> _hint (n_list n) = next_surplus y.
Proof. exact (end_sweep_census (fun n => n) two_lists two_lists_tree two_lists_inv). Defined.
