(* ===== verification/DictionaryHistory.v ===== *)
(** * The dictionary of large free chunks: refinement

    A dictionary is a finite map from the addresses of the free chunks to their sizes.
    The specification of every operation is a step relation on that map and on the
    headers of the chunks outside the dictionary, which their owners may write; any
    program of operations that respects the preconditions runs on the tree as the
    relation says. *)

From S2P Require Import Prelude OsMemory FreeList BinaryTreeDictionary DictionaryTree DictionaryReads.
From S2P Require Import DictionaryUpdates DictionaryRemoval DictionaryInsertion DictionaryAllocation DictionaryWalks.

Open Scope Z_scope.
Open Scope hotspot_scope.
Import TreeLists Dictionary.

(** ** Programs of operations *)

Inductive dict_op :=
| ReturnChunk (tc : Z)
| GetChunk (sz : Z)
| RemoveChunk (tc : Z)
| ResetAll
| ResetRegion (start word_size : Z)
| CensusUpdate (sz : Z) (split birth : bool)
| EndSweep (scaled : Z -> Z)
| InitializeReturnedBytes
| VerifyAll
| MaxChunkSize
| NumFreeBlocks
| TotalChunkSize (locked : bool)
| FindLargest
| FindEndsAt (target : Z)
| InFreeLists (tc : Z)
| OwnerWrite (a : Z) (c : FreeChunk).

(** A client calls an operation and goes on with the result. *)
Inductive dict_client := Stop | Call (o : dict_op) (k : Z -> dict_client).

(** ** The specification *)

Record free_store := mkStore {
  fs_free : gmap Z Z;
  fs_outside : chunk_map
}.

Definition store_total (sp : free_store) : Z := total (map_to_list (fs_free sp)).

(** A chunk has left the dictionary. *)
Definition taken (sp : free_store) (tc s : Z) : free_store :=
  mkStore (delete tc (fs_free sp)) (<[tc := mkFreeChunk s 1 NULL]> (fs_outside sp)).

(** All chunks have left the dictionary, with whatever links they had. *)
Definition released (sp : free_store) (m : chunk_map) : Prop :=
  (forall a, fs_free sp !! a = None -> m !! a = fs_outside sp !! a) /\
  (forall a s, fs_free sp !! a = Some s -> exists c, m !! a = Some c /\ c_size c = s).

Section spec.
Context (sizeof_TreeChunk : Z) (ZapUnusedHeapArea : bool) (is_mangled : Z -> bool).
Context (FLSVerifyDictionary UseCMSAdaptiveFreeLists : bool).

(** The memory of a first chunk *)
Definition good_region (m : chunk_map) (start ws : Z) : Prop :=
  chunk_addr start /\ 0 < ws < 2 ^ 64 /\ sizeof_TreeChunk <= ws /\
  MIN_TREE_CHUNK_SIZE sizeof_TreeChunk < u64 (ws * HeapWordSize) /\
  exists c, m !! start = Some c /\ untouched ZapUnusedHeapArea is_mangled c = true.

(** The preconditions *)
Definition allowed (o : dict_op) (sp : free_store) : Prop :=
  match o with
  | ReturnChunk tc =>
      chunk_addr tc /\ exists c, fs_outside sp !! tc = Some c /\ sizeof_TreeChunk <= c_size c /\
        MIN_TREE_CHUNK_SIZE sizeof_TreeChunk <= c_size c /\ 0 < c_size c /\ store_total sp + c_size c < 2 ^ 64
  | GetChunk sz => MIN_TREE_CHUNK_SIZE sizeof_TreeChunk <= sz
  | RemoveChunk tc => is_Some (fs_free sp !! tc)
  | ResetRegion start ws => good_region (fs_outside sp) start ws
  | InFreeLists tc => is_Some (fs_free sp !! tc) \/ is_Some (fs_outside sp !! tc)
  | OwnerWrite a c => is_Some (fs_outside sp !! a)
  | _ => True
  end.

Inductive dict_step (sp : free_store) : dict_op -> Z -> free_store -> Prop :=
| step_return tc c :
    fs_outside sp !! tc = Some c ->
    dict_step sp (ReturnChunk tc) 0 (mkStore (<[tc := c_size c]> (fs_free sp)) (delete tc (fs_outside sp)))
| step_get_none sz :
    (forall a s, fs_free sp !! a = Some s -> s < sz) -> dict_step sp (GetChunk sz) NULL sp
| step_get sz tc s :
    fs_free sp !! tc = Some s -> sz <= s ->
    (UseCMSAdaptiveFreeLists = false -> forall a s', fs_free sp !! a = Some s' -> sz <= s' -> s <= s') ->
    dict_step sp (GetChunk sz) tc (taken sp tc s)
| step_remove tc s : fs_free sp !! tc = Some s -> dict_step sp (RemoveChunk tc) 0 (taken sp tc s)
| step_reset m : released sp m -> dict_step sp ResetAll 0 (mkStore ∅ m)
| step_reset_region start ws m :
    released sp m -> dict_step sp (ResetRegion start ws) 0 (mkStore {[start := ws]} (delete start m))
| step_census sz split birth : dict_step sp (CensusUpdate sz split birth) 0 sp
| step_sweep scaled : dict_step sp (EndSweep scaled) 0 sp
| step_returned : dict_step sp InitializeReturnedBytes 0 sp
| step_verify : dict_step sp VerifyAll 0 sp
| step_max_none : fs_free sp = ∅ -> dict_step sp MaxChunkSize 0 sp
| step_max a s :
    fs_free sp !! a = Some s -> (forall b s', fs_free sp !! b = Some s' -> s' <= s) -> dict_step sp MaxChunkSize s sp
| step_blocks : dict_step sp NumFreeBlocks (Z.of_nat (size (fs_free sp))) sp
| step_total locked : dict_step sp (TotalChunkSize locked) (store_total sp) sp
| step_largest_none : fs_free sp = ∅ -> dict_step sp FindLargest NULL sp
| step_largest a s :
    fs_free sp !! a = Some s -> (forall b s', fs_free sp !! b = Some s' -> s' <= s) -> dict_step sp FindLargest a sp
| step_ends_none target :
    (forall a s, fs_free sp !! a = Some s -> ~ ends_at target (a, s)) -> dict_step sp (FindEndsAt target) NULL sp
| step_ends target a s :
    fs_free sp !! a = Some s -> ends_at target (a, s) -> dict_step sp (FindEndsAt target) a sp
| step_in tc : dict_step sp (InFreeLists tc) (Z.b2z (bool_decide (is_Some (fs_free sp !! tc)))) sp
| step_owner a c : dict_step sp (OwnerWrite a c) 0 (mkStore (fs_free sp) (<[a := c]> (fs_outside sp))).

(** Whatever the results, the client respects the preconditions. *)
Fixpoint safe (cl : dict_client) (sp : free_store) : Prop :=
  match cl with
  | Stop => True
  | Call o k => allowed o sp /\ forall r sp', dict_step sp o r sp' -> safe (k r) sp'
  end.

(** The results that a run of the client may have *)
Inductive conforms : dict_client -> free_store -> list Z -> free_store -> Prop :=
| conforms_stop sp : conforms Stop sp [] sp
| conforms_call o k sp r sp1 rs sp2 :
    dict_step sp o r sp1 -> conforms (k r) sp1 rs sp2 -> conforms (Call o k) sp (r :: rs) sp2.

(** ** The tree *)

Definition run_dict (o : dict_op) : dm Z :=
  match o with
  | ReturnChunk tc => returnChunk sizeof_TreeChunk FLSVerifyDictionary tc ;; mret 0
  | GetChunk sz => getChunk sizeof_TreeChunk FLSVerifyDictionary UseCMSAdaptiveFreeLists sz
  | RemoveChunk tc => removeChunk FLSVerifyDictionary tc ;; mret 0
  | ResetAll => reset ;; mret 0
  | ResetRegion start ws => reset_region sizeof_TreeChunk ZapUnusedHeapArea is_mangled start ws ;; mret 0
  | CensusUpdate sz split birth => dictCensusUpdate sz split birth ;; mret 0
  | EndSweep scaled => endSweepDictCensus scaled ;; mret 0
  | InitializeReturnedBytes => initializeDictReturnedBytes ;; mret 0
  | VerifyAll => verify ;; mret 0
  | MaxChunkSize => maxChunkSize
  | NumFreeBlocks => numFreeBlocks
  | TotalChunkSize locked => totalChunkSize locked
  | FindLargest => findLargestDict
  | FindEndsAt target => find_chunk_ends_at target
  | InFreeLists tc => b ← verifyChunkInFreeLists tc; mret (Z.b2z b)
  | OwnerWrite a c => on_chunks (set_chunk a c) ;; mret 0
  end.

Fixpoint run_client (cl : dict_client) : dm (list Z) :=
  match cl with
  | Stop => mret []
  | Call o k => r ← run_dict o; rs ← run_client (k r); mret (r :: rs)
  end.

(** The tree holds the free chunks; the headers of the others are as their owners left
    them; every chunk can hold the fields of a tree node. *)
Record represents (d : BinaryTreeDictionary) (sp : free_store) (t : tree) : Prop := {
  rd_inv : dict_inv d t;
  rd_entries : entries t ≡ₚ map_to_list (fs_free sp);
  rd_outside : forall a, fs_outside sp !! a = if fs_free sp !! a is Some _ then None else chunks d !! a;
  rd_nodes : dom (nodes d) = dom (chunks d)
}.

Lemma rd_free d sp t a s : represents d sp t -> (a, s) ∈ entries t <-> fs_free sp !! a = Some s.
Proof. intros H. by rewrite (rd_entries _ _ _ H), elem_of_map_to_list. Qed.

Lemma rd_addrs d sp t a : represents d sp t -> a ∈ (entries t).*1 <-> is_Some (fs_free sp !! a).
Proof.
  intros H. rewrite list_elem_of_fmap. split.
  - intros ([b s] & -> & Hs%(rd_free _ _ _ _ _ H)). by exists s.
  - intros [s Hs]. exists (a, s). split; [done|]. by apply (rd_free _ _ _ _ _ H).
Qed.

Lemma rd_total d sp t : represents d sp t -> total (entries t) = store_total sp.
Proof. intros H. apply total_perm, H. Qed.

Lemma rd_restated d sp t d' t' : represents d sp t -> restated d t d' t' -> represents d' sp t'.
Proof.
  intros [H1 H2 H3 H4] [R1 R2 R3 R4 _]. split; [done|by rewrite R2|by rewrite R3|]. by rewrite R4, R3.
Qed.

Lemma rd_removed d sp t tc s d' t' :
  represents d sp t -> removed d t tc s d' t' -> represents d' (taken sp tc s) t' /\ fs_free sp !! tc = Some s.
Proof.
  intros Hrd [R1 R2 R3 R4 R5 R6 _]. assert (fs_free sp !! tc = Some s) as Hs.
  { apply (rd_free _ _ _ _ _ Hrd). rewrite R2. by left. }
  split; [|done]. destruct (Hrd) as [H1 H2 H3 H4]. split; cbn; [done| | |by rewrite R6, R5].
  - rewrite R2, <- (map_to_list_delete _ _ _ Hs) in H2. by apply Permutation_cons_inv in H2.
  - intros a. destruct (decide (tc = a)) as [<-|Hne]; [by rewrite lookup_insert_eq, lookup_delete_eq|].
    rewrite lookup_insert_ne, lookup_delete_ne, H3 by done. destruct (fs_free sp !! a) eqn:E; [done|].
    symmetry. apply R4. rewrite (rd_addrs d sp t a Hrd), E. by intros [? ?].
Qed.

Lemma rd_inserted d sp t tc sz d' t' :
  represents d sp t -> inserted d t tc sz d' t' -> fs_free sp !! tc = None ->
  represents d' (mkStore (<[tc := sz]> (fs_free sp)) (delete tc (fs_outside sp))) t'.
Proof.
  intros Hrd [R1 R2 R3 R4 R5 _] Hn. destruct (Hrd) as [H1 H2 H3 H4].
  split; cbn; [done| | |by rewrite R5, R4].
  - rewrite R2, H2. symmetry. by apply map_to_list_insert.
  - intros a. destruct (decide (tc = a)) as [<-|Hne]; [by rewrite lookup_insert_eq, lookup_delete_eq|].
    rewrite lookup_insert_ne, lookup_delete_ne, H3 by done. destruct (fs_free sp !! a) eqn:E; [done|].
    symmetry. apply R3; [done|]. rewrite (rd_addrs d sp t a Hrd), E. by intros [? ?].
Qed.

Lemma rd_released d sp t : represents d sp t -> released sp (chunks d).
Proof.
  intros Hrd. split.
  - intros a Ha. by rewrite (rd_outside _ _ _ Hrd), Ha.
  - intros a s Hs%(rd_free _ _ _ _ _ Hrd). apply entries_in in Hs as (n & Hn & Ha & <-).
    destruct (tree_ok_in _ _ _ (di_ok _ _ (rd_inv _ _ _ Hrd)) Hn) as (_ & Hl & _).
    destruct (seg_elem _ _ _ _ _ _ (lo_seg _ _ _ Hl) Ha) as (_ & c & Hc & Es & _). by exists c.
Qed.

Lemma single_represents d start ws m s :
  dict_inv d (single start ws) -> (forall a, a <> start -> chunks d !! a = s !! a) -> m = s ->
  dom (nodes d) = dom (chunks d) -> represents d (mkStore {[start := ws]} (delete start m)) (single start ws).
Proof.
  intros Hinv Hs -> Hd. split; cbn; [done|by rewrite map_to_list_singleton| |done].
  intros a. destruct (decide (start = a)) as [<-|Hne]; [by rewrite lookup_singleton_eq, lookup_delete_eq|].
  rewrite lookup_singleton_ne, lookup_delete_ne by done. symmetry. by apply Hs.
Qed.

Lemma rd_outside_chunk d sp t a c : represents d sp t -> fs_outside sp !! a = Some c -> chunks d !! a = Some c /\ fs_free sp !! a = None.
Proof. intros Hrd Ha. rewrite (rd_outside _ _ _ Hrd) in Ha. by destruct (fs_free sp !! a). Qed.

Lemma rd_node d sp t a c : represents d sp t -> chunks d !! a = Some c -> is_Some (nodes d !! a).
Proof. intros Hrd Ha. apply elem_of_dom. rewrite (rd_nodes _ _ _ Hrd). apply elem_of_dom. by exists c. Qed.

Lemma rd_owner d sp t a c :
  represents d sp t -> is_Some (fs_outside sp !! a) ->
  wp (on_chunks (set_chunk a c)) (fun _ d' => represents d' (mkStore (fs_free sp) (<[a := c]> (fs_outside sp))) t) d.
Proof.
  intros Hrd [c0 Ha]. destruct (rd_outside_chunk _ _ _ _ _ Hrd Ha) as [Hc Hf].
  assert (a ∉ addrs t) as Hna.
  { rewrite live_addrs by apply Hrd. rewrite (rd_addrs _ _ _ _ Hrd), Hf. by intros [? ?]. }
  exists tt, (set_chunks d (<[a := c]> (chunks d))). unfold on_chunks, set_chunk. rewrite Hc. split; [done|].
  destruct Hrd as [[H1 H2 H3 H4 H5 H6 H7] He Ho Hd]. split; cbn; [|done| |].
  - split; cbn; try done. eapply tree_ok_frame; [exact H1|done|]. intros x Hx. apply lookup_insert_ne. by intros ->.
  - intros x. destruct (decide (a = x)) as [<-|Hne]; [by rewrite !lookup_insert_eq, Hf|]. by rewrite !lookup_insert_ne.
  - rewrite Hd. symmetry. apply dom_insert_lookup_L. by exists c0.
Qed.

(** ** Simulation *)

Definition simulates (o : dict_op) (sp : free_store) (r : Z) (d' : BinaryTreeDictionary) : Prop :=
  exists sp' t', dict_step sp o r sp' /\ represents d' sp' t'.

Lemma return_ok d sp t tc :
  represents d sp t -> allowed (ReturnChunk tc) sp -> wp (run_dict (ReturnChunk tc)) (simulates (ReturnChunk tc) sp) d.
Proof.
  intros Hrd (Ha & c & Hc & Hsz & Hmin & Hpos & Htot). destruct (rd_outside_chunk _ _ _ _ _ Hrd Hc) as [Hc' Hf].
  apply wp_bind. eapply insertChunkInTree_spec; [apply Hrd| |].
  - split; [done| |exact Hc'|by eapply rd_node|done..|by rewrite (rd_total _ _ _ Hrd)].
    rewrite (rd_addrs _ _ _ _ Hrd), Hf. by intros [? ?].
  - intros d' t' Hi. apply wp_ret. eexists _, t'. split; [by apply step_return|]. by eapply rd_inserted.
Qed.

Lemma get_ok d sp t sz :
  represents d sp t -> allowed (GetChunk sz) sp -> wp (run_dict (GetChunk sz)) (simulates (GetChunk sz) sp) d.
Proof.
  intros Hrd Hmin. eapply getChunk_spec; [apply Hrd|exact Hmin|..].
  - intros Hall. exists sp, t. split; [|done]. apply step_get_none. intros a s Hs. apply (Hall a).
    by apply (rd_free _ _ _ _ _ Hrd).
  - intros tc s d' t' (Hin & Hle & Hbest) Hr. destruct (rd_removed _ _ _ _ _ _ _ Hrd Hr) as [Hrd' Hs].
    eexists _, t'. split; [|exact Hrd']. apply step_get; [done..|]. intros Ea a s' Hs'.
    apply Hbest with a; [by rewrite Ea|]. by apply (rd_free _ _ _ _ _ Hrd).
Qed.

Lemma remove_chunk_ok d sp t tc :
  represents d sp t -> allowed (RemoveChunk tc) sp -> wp (run_dict (RemoveChunk tc)) (simulates (RemoveChunk tc) sp) d.
Proof.
  intros Hrd [s Hs]. apply wp_bind. eapply dict_removeChunk_spec; [apply Hrd|by apply (rd_free _ _ _ _ _ Hrd)|].
  intros d' t' Hr. apply wp_ret. destruct (rd_removed _ _ _ _ _ _ _ Hrd Hr) as [Hrd' _].
  eexists _, t'. split; [|exact Hrd']. by apply step_remove.
Qed.

Lemma reset_ok d sp t : represents d sp t -> wp (run_dict ResetAll) (simulates ResetAll sp) d.
Proof.
  intros Hrd. apply wp_bind, reset_spec, wp_ret. exists (mkStore ∅ (chunks d)), Leaf.
  split; [apply step_reset; by eapply rd_released|]. split; [apply empty_inv|done| |apply Hrd]. intros a. cbn. by rewrite lookup_empty.
Qed.

Lemma reset_region_ok d sp t start ws (o := ResetRegion start ws) :
  represents d sp t -> allowed o sp -> wp (run_dict o) (simulates o sp) d.
Proof.
  intros Hrd (Ha & Hws & Hsz & Hmin & c & Hc & Hu). destruct (rd_outside_chunk _ _ _ _ _ Hrd Hc) as [Hc' Hf].
  destruct (rd_node _ _ _ _ _ Hrd Hc') as [x Hx]. apply wp_bind.
  eapply reset_region_spec; [done..|exact Hc'|done|exact Hx|]. intros d' Hinv Hfr Hdc Hdn _. apply wp_ret.
  exists (mkStore {[start := ws]} (delete start (chunks d))), (single start ws).
  split; [apply step_reset_region; by eapply rd_released|]. eapply single_represents; [done..|].
  rewrite Hdn, Hdc. apply Hrd.
Qed.

(** Operations that change statistics and hints only *)
Lemma restating_ok (m : dm unit) o d sp t :
  represents d sp t -> dict_step sp o 0 sp ->
  (forall Q, (forall d' t', restated d t d' t' -> Q tt d') -> wp m Q d) -> wp (m ;; mret 0) (simulates o sp) d.
Proof.
  intros Hrd Hst Hm. apply wp_bind, Hm. intros d' t' Hr. apply wp_ret. exists sp, t'. split; [done|].
  by eapply rd_restated.
Qed.

Lemma empty_store d sp t : represents d sp t -> t = Leaf -> fs_free sp = ∅.
Proof.
  intros Hrd ->. apply map_empty. intros a. destruct (fs_free sp !! a) as [s|] eqn:E; [|done].
  apply (rd_free _ _ _ _ _ Hrd) in E. by apply elem_of_nil in E.
Qed.

Lemma max_ok d sp t : represents d sp t -> wp (run_dict MaxChunkSize) (simulates MaxChunkSize sp) d.
Proof.
  intros Hrd. eapply maxChunkSize_spec; [apply Hrd| |].
  - intros Et. exists sp, t. split; [|done]. apply step_max_none. by eapply empty_store.
  - intros m [Hm Hmax]. exists sp, t. split; [|done].
    destruct (proj2 (sizes_in t (n_size m) (di_live _ _ (rd_inv _ _ _ Hrd)))) as [a Ha]; [by exists m|].
    apply (step_max _ a); [by apply (rd_free _ _ _ _ _ Hrd)|].
    intros b s' (n & Hn & _ & <-)%(rd_free _ _ _ _ _ Hrd)%entries_in. by apply Hmax.
Qed.

Lemma largest_ok d sp t : represents d sp t -> wp (run_dict FindLargest) (simulates FindLargest sp) d.
Proof.
  intros Hrd. eapply findLargestDict_spec; [apply Hrd| |].
  - intros Et. exists sp, t. split; [|done]. apply step_largest_none. by eapply empty_store.
  - intros a s Ha Hmax. exists sp, t. split; [|done]. apply (step_largest _ a s); [by apply (rd_free _ _ _ _ _ Hrd)|].
    intros b s' Hb%(rd_free _ _ _ _ _ Hrd). by eapply Hmax.
Qed.

Lemma ends_ok d sp t target : represents d sp t -> wp (run_dict (FindEndsAt target)) (simulates (FindEndsAt target) sp) d.
Proof.
  intros Hrd. eapply find_chunk_ends_at_spec; [apply Hrd| |].
  - intros [a s] Ha _ He. exists sp, t. split; [|done]. apply (step_ends _ _ _ s); [|done]. by apply (rd_free _ _ _ _ _ Hrd).
  - intros Hno. exists sp, t. split; [|done]. apply step_ends_none. intros a s Ha%(rd_free _ _ _ _ _ Hrd). by apply Hno.
Qed.

Lemma in_ok d sp t tc :
  represents d sp t -> allowed (InFreeLists tc) sp -> wp (run_dict (InFreeLists tc)) (simulates (InFreeLists tc) sp) d.
Proof.
  intros Hrd Hal. assert (exists c, chunks d !! tc = Some c) as [c Hc].
  { destruct Hal as [[s Hs]|[c Hc]]; [|exists c; by eapply rd_outside_chunk].
    destruct (rd_released _ _ _ Hrd) as [_ Hr]. destruct (Hr _ _ Hs) as (c & Hc & _). by exists c. }
  apply wp_bind. eapply dict_verifyChunk_spec; [apply Hrd|exact Hc|]. apply wp_ret. exists sp, t. split; [|done].
  rewrite (bool_decide_ext _ _ (rd_addrs _ _ _ tc Hrd)). apply step_in.
Qed.

Lemma run_dict_ok d sp t o : represents d sp t -> allowed o sp -> wp (run_dict o) (simulates o sp) d.
Proof.
  intros Hrd Hal. pose proof (rd_inv _ _ _ Hrd) as Hinv.
  assert (forall r, dict_step sp o r sp -> simulates o sp r d) as Hsame by (intros r Hr; by exists sp, t).
  destruct o as [tc|sz|tc| |start ws|sz split birth|scaled| | | | |locked| |target|tc|a c].
  - by eapply return_ok.
  - by eapply get_ok.
  - by eapply remove_chunk_ok.
  - by eapply reset_ok.
  - by eapply reset_region_ok.
  - eapply restating_ok; [exact Hrd|constructor|]. intros Q HQ. by eapply dictCensusUpdate_spec.
  - eapply restating_ok; [exact Hrd|constructor|]. intros Q HQ. eapply endSweepDictCensus_spec; [exact Hinv|].
    intros d' t' _. apply HQ.
  - eapply restating_ok; [exact Hrd|constructor|]. intros Q HQ. by eapply initializeDictReturnedBytes_spec.
  - apply wp_bind. eapply verify_spec; [exact Hinv|]. apply wp_ret, Hsame. constructor.
  - by eapply max_ok.
  - eapply numFreeBlocks_spec; [exact Hinv|]. apply Hsame.
    rewrite (Permutation_length (rd_entries _ _ _ Hrd)), length_map_to_list. constructor.
  - eapply totalChunkSize_spec; [exact Hinv|]. apply Hsame. rewrite (rd_total _ _ _ Hrd). constructor.
  - by eapply largest_ok.
  - by eapply ends_ok.
  - by eapply in_ok.
  - apply wp_bind. eapply wp_mono; [by eapply rd_owner|]. intros [] d' Hrd'. apply wp_ret. eexists _, t. by split; [constructor|].
Qed.

Lemma run_client_ok cl : forall d sp t,
  represents d sp t -> safe cl sp ->
  wp (run_client cl) (fun rs d' => exists sp' t', conforms cl sp rs sp' /\ represents d' sp' t') d.
Proof.
  induction cl as [|o k IH]; intros d sp t Hrd Hs; cbn [run_client].
  { apply wp_ret. exists sp, t. by split; [constructor|]. }
  destruct Hs as [Hal Hk]. apply wp_bind. eapply wp_mono; [by eapply run_dict_ok|].
  intros r d1 (sp1 & t1 & Hst & Hrd1). apply wp_bind. eapply wp_mono; [eapply IH; [exact Hrd1|by apply Hk]|].
  intros rs d2 (sp2 & t2 & Hc & Hrd2). apply wp_ret. exists sp2, t2. split; [|done]. by econstructor.
Qed.

(** C3: The dictionary refines a finite map from free chunks to their sizes.  For every
    client that respects the preconditions whatever results it gets (returning and
    removing chunks, allocating, resetting, the census updates, the queries, and the
    owners of chunks outside the dictionary writing their headers), started on the
    constructor's dictionary with one chunk: no assertion fails, no loop runs forever,
    every result is one that the map allows - [getChunk] finds a chunk that is large
    enough whenever there is one, and a smallest such chunk when the lists are not
    adaptive - and at the end the tree holds the free chunks of the map, ordered, with
    the right links, counts and totals, the other headers being their owners'.  This
    holds with and without the debug verification of the tree. *)
Theorem dictionary_history s T splay total0 blocks0 root0 start ws cl :
  dom T = dom s -> good_region s start ws ->
  safe cl (mkStore {[start := ws]} (delete start s)) ->
  exists rs d' sp' t',
    (create sizeof_TreeChunk ZapUnusedHeapArea is_mangled start ws ;; run_client cl)
      (mkDictionary s T splay total0 blocks0 root0) = Some (rs, d') /\
    conforms cl (mkStore {[start := ws]} (delete start s)) rs sp' /\ represents d' sp' t'.
Proof.
  intros Hd (Ha & Hws & Hsz & Hmin & c & Hc & Hu) Hs.
  assert (is_Some (T !! start)) as [x Hx] by (apply elem_of_dom; rewrite Hd; apply elem_of_dom; by exists c).
  assert (wp (create sizeof_TreeChunk ZapUnusedHeapArea is_mangled start ws ;; run_client cl)
    (fun rs d' => exists sp' t', conforms cl (mkStore {[start := ws]} (delete start s)) rs sp' /\ represents d' sp' t')
    (mkDictionary s T splay total0 blocks0 root0)) as (rs & d' & E & sp' & t' & Hc' & Hrd).
  { apply wp_bind. eapply create_spec; [done..|exact Hc|done|exact Hx|]. intros d1 Hinv Hfr Hdc Hdn _.
    eapply run_client_ok; [|exact Hs]. eapply single_represents; [done|exact Hfr|done|]. by rewrite Hdn, Hdc. }
  by exists rs, d', sp', t'.
Qed.

End spec.

(** ** An example *)

(** A first chunk of 100 words at 8000, and 300 words at 16000 that are returned; the
    smallest chunk of at least 80 words is then the one at 8000. *)
Definition two_regions : chunk_map := {[8000 := mkFreeChunk 0 0 0; 16000 := mkFreeChunk 300 5 7]}.
Definition two_nodes : node_map :=
  (fun _ => mkTreeChunk 3 (mkTreeList FreeLists.create 1 2 3)) <$> two_regions.

Definition borrow : dict_client :=
  Call (ReturnChunk 16000) (fun _ => Call (GetChunk 80) (fun r =>
  Call (OwnerWrite r (mkFreeChunk 100 0 0)) (fun _ => Call (ReturnChunk r) (fun _ =>
  Call VerifyAll (fun _ => Call NumFreeBlocks (fun _ => Stop)))))).

Lemma dictionary_history_witness :
  exists rs d' sp' t',
    (create 64 false (fun _ => false) 8000 100 ;; run_client 64 false (fun _ => false) true false borrow)
      (mkDictionary two_regions two_nodes false 11 12 13) = Some (rs, d') /\
    conforms false borrow (mkStore {[8000 := 100]} (delete 8000 two_regions)) rs sp' /\ represents d' sp' t'.
Proof.
  apply dictionary_history.
  - unfold two_nodes. apply dom_fmap_L.
  - unfold good_region, chunk_addr. split_and!; try (reflexivity || lia). eexists. split; reflexivity.
  - split.
    { split; [split; [lia|reflexivity]|]. eexists. split; [reflexivity|]. split_and!; (reflexivity || (cbv; discriminate)). }
    intros r1 sp1 H1. inversion H1 as [tc c Hc| | | | | | | | | | | | | | | | | | |]; subst.
    change (Some (mkFreeChunk 300 5 7) = Some c) in Hc. injection Hc as <-. split; [cbv; discriminate|].
    intros r2 sp2 H2. inversion H2 as [|sz Hno|sz tc s Hf Hle Hbest| | | | | | | | | | | | | | | | |]; subst.
    { specialize (Hno 16000 300 eq_refl). lia. }
    cbn in Hf. apply lookup_insert_Some in Hf as [[<- <-]|[_ [<- <-]%lookup_singleton_Some]].
    { specialize (Hbest eq_refl 8000 100 eq_refl ltac:(lia)). cbn in Hbest. lia. }
    split; [by eexists|]. intros r3 sp3 H3. inversion H3; subst.
    split.
    { split; [split; [lia|reflexivity]|]. eexists. split; [reflexivity|]. split_and!; (reflexivity || (cbv; discriminate)). }
    intros r4 sp4 H4. inversion H4; subst. split; [done|].
    intros r5 sp5 H5. inversion H5; subst. by split.
Defined.

(** ** An operation that cannot succeed *)

Lemma bind_fails {W A B} (m : os_m W A) (k : A -> os_m W B) w :
  (forall x w', m w = Some (x, w') -> k x w' = None) -> (x ← m; k x) w = None.
Proof. intros H. unfold mbind, os_m_bind. destruct (m w) as [[x w']|] eqn:E; [|done]. by apply H. Qed.

Lemma check_fails {W B} b (k : os_m W B) (w : W) : (b = true -> k w = None) -> (check b ;; k) w = None.
Proof. intros H. unfold check, mbind, os_m_bind. destruct b; [by apply H|done]. Qed.

Lemma wp_run {W A} (m : os_m W A) (Q : A -> W -> Prop) w x w' : wp m Q w -> m w = Some (x, w') -> Q x w'.
Proof. intros (y & w1 & E & HQ) E'. rewrite E in E'. by injection E' as <- <-. Qed.

(** [TreeList::returnChunkAtHead] fails on every list that has one chunk: it
    expects that such a list has no tail, while the tail of a one-chunk list is its
    chunk. *)
Theorem return_at_head_fails d t n tc :
  dict_inv d t -> n ∈ inorder t -> n_rest n = [] -> TreeLists.returnChunkAtHead (n_addr n) tc d = None.
Proof.
  intros Hinv Hn Er. destruct (tree_ok_in _ _ _ (di_ok _ _ Hinv) Hn) as (Ha & Hl & x & p & lc & rc & Hx).
  pose proof (di_live _ _ Hinv) as Hlv. unfold all_live in Hlv. rewrite Forall_forall in Hlv. specialize (Hlv n Hn).
  assert (n_chunks n = [n_addr n]) as Ech by (unfold n_chunks; by rewrite Hlv, Er). rewrite Ech in Hl.
  apply bind_fails. intros tx d1 E1. unfold tree_chunk in E1. destruct (nodes d !! tc); [|done]. injection E1 as <- <-.
  apply check_fails. intros _. apply bind_fails. intros fl d1 E1.
  eapply (wp_run _ (fun fl d' => fl = n_list n /\ d' = d)) in E1; [destruct E1 as [-> ->]|by eapply wp_free_list].
  apply check_fails. intros _. apply check_fails. intros _. apply bind_fails. intros found d1 E1.
  assert (d1 = d) as ->.
  { assert (exists c, chunks d !! tc = Some c /\ c_size c = _size (n_list n)) as (c & Hc & Es).
    { revert E1. unfold TreeLists.verifyChunkInFreeLists, FreeLists.verifyChunkInFreeLists.
      unfold free_list, tree_list, tree_chunk, on_chunks, chunk, check, mbind, os_m_bind, mret, os_m_ret. rewrite Hx. cbn.
      destruct (chunks d !! tc) as [c|]; [|done]. destruct (Z.eqb_spec (c_size c) (_size (n_list n))); [|done]. by exists c. }
    eapply (wp_run _ (fun _ d' => d' = d)) in E1; [done|]. apply wp_bind. eapply wp_free_list; [exact Hx|]. apply wp_on_chunks.
    eapply verifyChunkInFreeLists_spec; [exact Hl|exact Hc|exact Es|]. apply set_chunks_id. }
  clear E1. apply check_fails. intros _. apply bind_fails. intros [] d1 E1.
  eapply (wp_run _ (fun _ d' => d' = d)) in E1; [subst d1|by eapply wp_assert_list].
  destruct (lo_seg _ _ _ Hl) as (_ & (c & Hc & _ & _ & _ & Hnx) & _). apply bind_fails. intros c' d1 E1.
  rewrite (lo_head _ _ _ Hl) in E1. cbn [first] in E1.
  eapply (wp_run _ (fun c' d' => c' = c /\ d' = d)) in E1; [destruct E1 as [-> ->]|by eapply wp_read_chunk].
  rewrite Hnx. cbn [first]. change (NULL =? NULL) with true. cbn [negb]. apply bind_fails. intros [] d1 E1.
  rewrite (lo_tail _ _ _ Hl) in E1. cbn in E1. rewrite (proj2 (Z.eqb_neq _ _) Ha) in E1. done.
Qed.

(** One chunk in the tree, and another one of the same size that is to join it *)
Definition one_chunk : BinaryTreeDictionary :=
  mkDictionary {[8000 := mkFreeChunk 100 1 NULL; 16000 := mkFreeChunk 100 1 NULL]}
    {[8000 := mkTreeChunk 8000 (mkTreeList (new_list 8000 100) NULL NULL NULL);
      16000 := mkTreeChunk 8000 (mkTreeList FreeLists.create NULL NULL NULL)]} false 100 1 8000.

Lemma return_at_head_fails_witness : TreeLists.returnChunkAtHead 8000 16000 one_chunk = None.
Proof.
  apply (return_at_head_fails one_chunk (single 8000 100) (new_node 8000 100) 16000).
  - apply single_inv; [split; [lia|reflexivity]|lia|reflexivity|reflexivity].
  - by left.
  - reflexivity.
Defined.
